(* ===== verification/_CoqProject ===== *)
-Q . S2P
Prelude.v
Config.v
HeaderOp.v
PointerOp.v
Block.v
Heap.v
Queue.v
Stack.v
DynamicArray.v
BaseMap.v
GC.v
GCMem.v
GCGraph.v
GCForward.v
GCScan.v
GCSet.v
GCIntgen.v
GCCollect.v
GCWf.v
GCRelease.v
GCThm.v
GCSample.v
GCBarrier.v
GCProps.v
Thread.v
Scheduler.v
SchedulerRun.v
SchedulerInv.v
SchedulerOps.v
SchedulerSafe.v
SchedulerThm.v
OutputStream.v
InputStream.v
Gzip.v
Pickle.v
Pickler.v
Unpickler.v
PickleRead.v
PickleMachine.v
PicklerSpec.v
PickleCode.v
PickleGraph.v
PickleRun.v
PickleStream.v
PickleThm.v
AliceData.v
AliceEq.v
AbstractCode.v
AbstractCodeWf.v
AbstractCodeSound.v
AbstractCodeRun.v
AbstractCodeClose.v
AbstractCodeThm.v
Minimizer.v
MinimizerSort.v
MinimizerOrder.v
MinimizerBlock.v
MinimizerLayout.v
MinimizerSplit.v
MinimizerHopcroft.v
MinimizerInit.v
MinimizerReduce.v
MinimizerLoad.v
MinimizerThm.v
MinimizerProps.v
ImpMap.v
ImpMapInv.v
ImpMapOps.v
ImpMapIter.v
ImpMapThm.v
ImpMapProps.v
RegAlloc.v
RegAllocProps.v
ByteCodeJitter.v
InlineCCC.v
InlineCCCGraph.v
InlineCCCExec.v
InlineCCCProps.v
ByteCodeSelect.v
ByteCodeTuple.v
