(* ===== verification/Prelude.v ===== *)
(** * SEAM: a verification library for the Simple Extensible Abstract Machine

    The repository holds Alice ML; its runtime is SEAM, a virtual machine in
    C++: a store of tagged words and blocks with a copying collector, abstract
    data types in that store, a generic layer of threads, futures and workers,
    a pickler that turns graphs of the store into bytes and an unpickler that
    rebuilds them, and above it the Alice layer with the abstract code that the
    compiler emits and its interpreter.  This library models the store, the
    data types, the generic layer, Alice values and abstract code as executable
    functions and step relations, and proves what makes them correct.

    ** The parts of the program and the files that model them

    The store (src/seam/store)
    - [Config]: the generator of header layout and labels (StoreConfig.cc,
      Parameter.hh).  [HW] are the constants it generates.
    - [HeaderOp]: header words (HeaderOp.hh, GCHelper.hh).  [PointerOp]: tagged
      words, transients and their chains (PointerOp.hh, Store.hh).
    - [Block]: blocks and chunks (Value.hh, the allocation functions of
      Store.hh, the hash functions of ChunkMap.cc).
    - [Heap]: memory chunks, heaps, the status word and the bump allocator
      (Heap.cc, Heap.hh, StatusWord.hh, Store.hh).
    - [GC]: the garbage collector (Store.cc, Set.hh, GCHelper.hh, Map.cc) on a
      memory of blocks: copying, the Cheney scan, the remembered set and its
      write barrier, weak dictionaries, address-keyed tables, finalization.
      [GCMem], [GCGraph], [GCForward], [GCScan], [GCSet], [GCIntgen],
      [GCCollect], [GCWf], [GCRelease] and [GCThm] build the proof about a
      collection, [GCSample] an example state, [GCBarrier] and [GCProps] hold
      the theorems.
    - [BaseMap]: hash tables over key types (BaseMap.cc, MapNode.hh, Map.cc,
      adt/IntMap.hh, adt/ChunkMap.cc).  The class [MapKey] is the template
      argument of the code; Map, IntMap and ChunkMap are its instances.

    The data types (src/seam/adt): [Queue] (Queue.hh), [Stack] (Stack.hh),
    [DynamicArray] (DynamicArray.cc).

    The generic layer (src/seam/generic)
    - [Thread]: threads, task stacks, frames and handlers (Thread.hh,
      TaskStack.cc, StackFrame.hh).  [Scheduler]: the scheduler's state, the
      transients, holes, futures and thread primitives (Scheduler.cc,
      Transients.cc, Primitive.cc, and the primitives Thread.cc, Future.cc and
      Hole.cc of src/alice/vm-seam/alice/primitives).  [SchedulerRun]: the main
      loop as a step relation [step], for interpreters that do anything the
      VM's interface allows.  The queues of threads are used through the class
      [FIFO], which [Queue] implements.
    - [OutputStream], [InputStream]: the streams of Pickler.cc and Unpickler.cc
      with the pickler's output buffer.  [Gzip]: the parser of gzip members and
      Unzip (Unpickler.cc).  [Pickle]: the store as a graph of nodes, the tags
      and the instructions of a pickle (Pickle.hh).  [Pickler]: the traversal
      [PickleWorker_Run], the save and pack workers.  [Unpickler]: the header
      check, the fetching and the execution of instructions.

    - [Minimizer]: the loader and the partition of the minimizer
      (Minimizer.cc, MinimizerLoader.cc): the quicksort of the nodes, their
      comparison, the table of incoming edges, Hopcroft's algorithm and the
      reduction of the graph.  [MinimizerSort], [MinimizerOrder],
      [MinimizerBlock], [MinimizerLayout], [MinimizerSplit],
      [MinimizerHopcroft], [MinimizerInit], [MinimizerReduce], [MinimizerLoad]
      and [MinimizerThm] hold the proofs, [MinimizerProps] the theorems.

    The Alice layer (src/alice/vm-seam/alice)
    - [AliceData]: the store as Alice code sees it, labels, typed views of
      blocks, records and [Alice::Compare] (Data.hh, Data.cc, Tuple.hh).
      [AliceEq]: the trees that words stand for, and what Compare and records
      do.
    - [AbstractCode]: the instructions (AbstractCode.hh), frames
      (AbstractCodeFrame.hh, .cc) and their interpreter
      (AbstractCodeInterpreter.cc), one function [step] on the frame, the store
      and the registers of the scheduler; calls of the scheduler are recorded
      in the state.  [AbstractCodeWf]: the discipline of last uses as a checker
      and the life of a frame between calls, requests and exceptions.
      [AbstractCodeSound], [AbstractCodeRun] and [AbstractCodeClose] hold the
      proofs, [AbstractCodeThm] the theorems.
    - [ImpMap]: imperative maps, the primitives and workers of UnsafeImpMap.cc
      and UnsafeCell.cc (lib/utility), for the kinds of keys of the class
      [EntryKey]; they use the hash tables of [BaseMap].  [ImpMapInv] holds
      the doubly linked list of entries and the invariant, [ImpMapOps] the
      operations, [ImpMapIter] iterators over a map that
      changes, [ImpMapThm] primitives run to their end, [ImpMapProps] the
      theorems.
    - [RegAlloc]: the register allocator of the byte code compiler
      ([RegisterAllocator::Run] of ByteCodeJitter.cc); [RegAllocProps] its
      invariant and theorems.
    - [ByteCodeJitter]: the state of the compiler, its scratch registers and
      immediate environment, operands, tuples and the selection of components
      (ByteCodeJitter.hh, ByteCodeJitter.cc), with the instructions they emit
      as ByteCodeInterpreter.cc executes them.  [InlineCCC]:
      [CompileInlineCCC], the arguments of inlined functions and self calls.
      [InlineCCCGraph] is about the walks through a call as a graph of
      registers, [InlineCCCExec] about the code, [InlineCCCProps],
      [ByteCodeSelect] and [ByteCodeTuple] hold the theorems.

    ** Modelling conventions

    Words are [Z] in their machine range; [u_int] and [s_int] reduce to the
    word of a [Platform] (32 or 64 bits), and wrap-around is written where the
    code computes.  A failed [Assert], an access outside a block and a call of
    [Error] are [None] (or [Stuck] in the scheduler); exceptions and early
    returns are values.  Some assertions of debug builds about arguments are left
    out, so that the definitions go on where a release build does: that a block
    is mutable in [GC.ReplaceArg], the size in [Block.AllocDynamicBlock] and in
    [OutputStream.SOS_Close], the range of the integer in [ImpMap.IntToWord],
    that a local is not dead in [AbstractCode.GetLocal], and that the key is
    dereferenced in [BaseMap.Put], whose keys are of any type.  Memory that has not been written holds the parameter
    [undef] (or [wundef]).  Code outside src/ or behind a callback is a
    parameter: [malloc], the zlib file functions and inflate, the handlers of
    transforms, abstract representations of concrete nodes, the interpreters.

    ** What the theorems show

    - Collection.  [GCProps]: from every well-formed state a collection ends,
      leaves a well-formed state and a graph isomorphic to the old one up to
      the reference chains it shortens, and leaves exactly what is reachable in
      memory.
      [GCGraph.Inv] is the invariant of a collection, a relation between the
      original graph, the memory and the map of moved blocks; [GCForward]
      shows that forwarding a word keeps it, [GCScan] that the scan does and
      ends with no unvisited copy, [GCIntgen] that the remembered set does;
      [GCWf] reads the isomorphism and well-formedness off the final state.
      [GCBarrier]: the write barrier keeps well-formedness between collections.
    - Pickling.  [PickleThm] proves that packing and unpacking, and saving and
      loading through a compressed file, copy every plain graph with its
      sharing and its cycles, whenever the unpickler is preempted.
      The proof is a refinement in layers: [PicklerSpec] describes every round
      of the pickler on abstract data; [PickleMachine] is an abstract machine
      for instructions which the unpickler implements ([exec_refines]);
      [PickleCode] relates the output buffer with its table of variables to
      the code that is written in the end; [PickleGraph] is the invariant
      between the traversal and the machine that has run the code so far;
      [PickleRun] shows that each round keeps it and spends a budget;
      [PickleStream] and [PickleRead] are the writing and the reading of the
      bytes, however they arrive.
    - Minimizing.  [MinimizerProps]: the loader finds exactly the graph that is
      reachable from the root; the refinement of the partition ends; the
      reduced graph simulates the old one, and nodes are merged if and only if
      they are bisimilar, which needs that blocks of a label agree in
      mutability: a byte array and a string of the same bytes are merged.
      [MinimizerHopcroft.stab] is the invariant behind it: nodes of one
      block have their children in one block, or a child's block is on the
      agenda with the edge.
    - Scheduling.  [SchedulerInv] is the invariant of the VM: every thread that
      is neither terminated nor suspended is running, in the run queue or in
      the wait queue of exactly the future it waits for, and bound transients
      form no cycle.  [SchedulerOps] and [SchedulerSafe] show that all
      operations and all steps keep it; [SchedulerThm] states the properties
      of reachable states, of filling holes, of raising, of by-need futures
      and of switching threads.
    - Abstract code.  [AbstractCodeThm]: in checked code nothing observable
      depends on what killed locals hold ([AbstractCodeSound] is a relational
      logic for the interpreter, with a rule per operation); frames end;
      requests are transparent; closures capture their globals; the compact
      tests are the linear ones.  [AliceEq]: Compare decides the equality of
      the trees that values unfold to, in which mutable values and those with a
      big tag are their identity; records select what they were given.
    - Imperative maps.  [ImpMapProps]: they refine association lists, newest
      entry first, under the keys that the primitives make of their arguments;
      an iterator whose closure changes the map in any way ends and
      has visited every entry that is still there; keys that are blocks collide
      in UnsafeImpMap.cc.  The invariant [map_inv] also speaks of removed entries,
      whose links lead to older entries and never past one that is in the map.
    - Byte code.  [RegAllocProps]: locals that are alive together get different
      registers, and no allocation needs fewer of them.  [InlineCCCProps]: the
      code for the arguments of an inlined call is a parallel assignment, by
      following the chains and cycles of the graph of registers, when no
      overwritten register is needed twice; with such a register, it assigns a
      wrong value or the compiler leaves the bounds of a vector.
      [ByteCodeSelect]: components are selected at the same time;
      [ByteCodeTuple]: a tuple that is made and taken apart gives its arguments.
    - Data.  Queues, stacks, dynamic arrays, hash tables and the output buffer
      are refinements of lists and maps under any sequence of operations.
    - Words.  Headers, tagged words, integers and their encodings round-trip;
      the generated masks partition the header.
    - Memory.  The allocator returns disjoint, sufficiently large regions, and
      the sizes for which its loop does not end are characterised.

    ** Bounds and fuel

    Loops that are not structural take fuel: the growth loop of a task stack
    ([push_fuel] = 64 doublings exceed the largest stack), chains of transients
    (the number of transients, or of nodes), the waking of a future's threads
    (the number of threads), the scan of a collection (two steps per block and
    one more: a block and the step to the next chunk), the pickler ([GRAPH_MAX] rounds) and the unpickler
    (any bound above the instructions and refills, which the theorems give).
    The loader takes one round per word on its stack; [1 + unseen] bounds them
    by the arguments of the blocks that are not loaded yet.  The minimizer's agenda loop
    ends within [2 * (width + 1) * n] rounds for [n] nodes of at most [width]
    arguments.  A frame of abstract code takes at most as many steps as its code has
    instructions ([isize]).  The walk through the definitions of registers leaves the vector
    of a chain after as many rounds as it has elements.  Theorems about fuel say that enough of it gives the result.  The pickling
    theorems are about graphs whose weight - 32 per reference, one per byte of
    a string - is at most [GRAPH_MAX] = 2^20, well within the bounds of the
    components: [STREAM_MAX] = 2^24 bytes, [LOCALS_MAX] = 2^20 variables,
    [FRAMES_MAX] = 2^18 frames, [IS_MAX] = 2^30 and [ITEM_MAX] = 2^29 bytes of
    input buffer.

    ** Not modelled

    - Of the garbage collector: the check VerifyGC and the profiling counters.
      The theorems on complete collections are about states without weak
      dictionaries and address-keyed tables (both are modelled), about blocks
      of sizes for which the allocator's loop ends ([size_ok]), and about a
      root block that no other block points to, as the set of roots is.
    - RootSet.cc, which copies C++ variables into a queue of blocks before a
      collection and back after it: the addresses of variables are not values
      of the model.
    - Of the minimizer: the frame of the loader's worker, and the worker that
      checks results, whose use is commented out.
    - Of the byte code compiler: the translation of the instructions that are
      not named above, with their jumps and the inlining of primitives, the
      encoding of operands into bits, constant propagation, the analysis that
      decides what is inlined, and the specializer; of the byte code
      interpreter, the instructions these parts emit.  The hash table of the
      immediate environment is an association list.
    - Of the Alice layer: the boot linker, and the primitives other than those on threads, futures,
      cells and imperative maps.  Of abstract code: the queries that serve the byte code compiler
      and the disassembler, and the debugger's events.
    - The native code generator and JITStore: they emit instructions through
      GNU Lightning, which is not in the repository.
    - I/O, signals, sockets, dynamic libraries, the debugger and the profiler:
      system calls and diagnostic output.
    - zlib, the regular expression engine and the bindings to Gtk, Gecode,
      databases and XML: third-party code and glue.  The compiler and the
      libraries written in Alice ML are outside the implementation language. *)

From stdpp Require Export base gmap list strings.
From Stdlib Require Export Lia.

#[global] Open Scope Z_scope.

(** ** The platform: the width of the machine word ([u_int], pointers) *)

Class Platform := {
  MIN_WIDTH : Z;
  MIN_WIDTH_cases : MIN_WIDTH = 4 \/ MIN_WIDTH = 8
}.

(** The two platforms the store supports: 32-bit and 64-bit words. *)
Definition P32 : Platform := {| MIN_WIDTH := 4; MIN_WIDTH_cases := or_introl eq_refl |}.
Definition P64 : Platform := {| MIN_WIDTH := 8; MIN_WIDTH_cases := or_intror eq_refl |}.

Definition STORE_WORD_WIDTH `{Platform} : Z := MIN_WIDTH * 8.

(** Conversion to [u_int]: reduction modulo the word size. *)
Definition u_int `{Platform} (z : Z) : Z := z mod 2 ^ STORE_WORD_WIDTH.

(** Conversion from [u_int] to [s_int] (two's complement). *)
Definition s_int `{Platform} (z : Z) : Z :=
  let u := u_int z in
  if u <? 2 ^ (STORE_WORD_WIDTH - 1) then u else u - 2 ^ STORE_WORD_WIDTH.

(** [platform_cases] replaces an abstract platform by the two concrete ones. *)
Ltac platform_cases :=
  repeat match goal with
  | P : Platform |- _ =>
      let E := fresh "EW" in
      destruct P as [? E]; cbn [MIN_WIDTH] in *; destruct E as [E | E]; subst
  end.

Section Width.
Context `{P : Platform}.

Lemma width_cases : STORE_WORD_WIDTH = 32 \/ STORE_WORD_WIDTH = 64.
Proof. unfold STORE_WORD_WIDTH. destruct MIN_WIDTH_cases as [-> | ->]; lia. Qed.

Lemma width_bounds : 32 <= STORE_WORD_WIDTH <= 64.
Proof. destruct width_cases as [-> | ->]; lia. Qed.

Lemma width_pow_pos : 2 ^ 32 <= 2 ^ STORE_WORD_WIDTH.
Proof. apply Z.pow_le_mono_r; [lia | apply width_bounds]. Qed.

Lemma u_int_range z : 0 <= u_int z < 2 ^ STORE_WORD_WIDTH.
Proof. apply Z.mod_pos_bound. pose proof width_pow_pos. lia. Qed.

Lemma u_int_id z : 0 <= z < 2 ^ STORE_WORD_WIDTH -> u_int z = z.
Proof. apply Z.mod_small. Qed.

Lemma u_int_id32 z : 0 <= z < 2 ^ 32 -> u_int z = z.
Proof. intros H. apply u_int_id. pose proof width_pow_pos. lia. Qed.

Lemma s_int_u_int z :
  - 2 ^ (STORE_WORD_WIDTH - 1) <= z < 2 ^ (STORE_WORD_WIDTH - 1) -> s_int (u_int z) = z.
Proof.
  intros H. unfold s_int, u_int.
  rewrite Z.mod_mod by (pose proof width_pow_pos; lia).
  assert (E : 2 ^ STORE_WORD_WIDTH = 2 * 2 ^ (STORE_WORD_WIDTH - 1)).
  { rewrite <- Z.pow_succ_r; [f_equal; lia | pose proof width_bounds; lia]. }
  destruct (decide (0 <= z)) as [Hz | Hz].
  - rewrite Z.mod_small by lia. destruct (Z.ltb_spec z (2 ^ (STORE_WORD_WIDTH - 1))); lia.
  - rewrite <- (Z.mod_add z 1) by lia. rewrite Z.mod_small by lia.
    destruct (Z.ltb_spec (z + 1 * 2 ^ STORE_WORD_WIDTH) (2 ^ (STORE_WORD_WIDTH - 1))); lia.
Qed.

Lemma s_int_id z :
  - 2 ^ (STORE_WORD_WIDTH - 1) <= z < 2 ^ (STORE_WORD_WIDTH - 1) -> s_int z = z.
Proof.
  intros Hz. rewrite <- (s_int_u_int z) at 2 by done. unfold s_int, u_int.
  by rewrite Z.mod_mod by (pose proof width_pow_pos; lia).
Qed.

Lemma s_int_shift z : s_int (z + 2 ^ STORE_WORD_WIDTH) = s_int z.
Proof.
  unfold s_int, u_int. replace (z + 2 ^ STORE_WORD_WIDTH) with (z + 1 * 2 ^ STORE_WORD_WIDTH) by lia.
  by rewrite Z.mod_add by (pose proof width_pow_pos; lia).
Qed.

End Width.

(** ** Bit fields of a machine word *)

(** The mask of a field of [wd] bits at position [sh]. *)
Definition field_mask (sh wd : Z) : Z := Z.shiftl (Z.ones wd) sh.

(** The value of the field of [wd] bits at position [sh]. *)
Definition field_get (h sh wd : Z) : Z := Z.shiftr h sh mod 2 ^ wd.

Create Rewrite HintDb bits.
#[export] Hint Rewrite Z.land_spec Z.lor_spec Z.lxor_spec Z.ldiff_spec : bits.
#[export] Hint Rewrite Z.lnot_spec Z.shiftr_spec Z.shiftl_spec using lia : bits.
#[export] Hint Rewrite Z.testbit_ones_nonneg using lia : bits.

Lemma testbit_small v n i : 0 <= v < 2 ^ n -> 0 <= n <= i -> Z.testbit v i = false.
Proof.
  intros Hv Hi. rewrite <- (Z.mod_small v (2 ^ n)) by done.
  rewrite Z.mod_pow2_bits_high by lia. done.
Qed.

(** A number is below [2^n] when its bits from [n] on are clear. *)
Lemma testbit_bound y n :
  0 <= n -> 0 <= y -> (forall i, n <= i -> Z.testbit y i = false) -> 0 <= y < 2 ^ n.
Proof.
  intros Hn Hy0 Hy. assert (y mod 2 ^ n = y) as <-; [| apply Z.mod_pos_bound; lia].
  apply Z.bits_inj'. intros i Hi. destruct (decide (i < n)).
  - by rewrite Z.mod_pow2_bits_low by lia.
  - rewrite Z.mod_pow2_bits_high by lia. symmetry. apply Hy. lia.
Qed.

Lemma testbit_field_mask sh wd i :
  0 <= sh -> 0 <= wd -> 0 <= i ->
  Z.testbit (field_mask sh wd) i = ((sh <=? i) && (i <? sh + wd))%bool.
Proof.
  intros Hs Hw Hi. unfold field_mask. rewrite Z.shiftl_spec by lia.
  destruct (Z.leb_spec sh i).
  - rewrite Z.testbit_ones_nonneg by lia. simpl.
    destruct (Z.ltb_spec (i - sh) wd), (Z.ltb_spec i (sh + wd)); lia || done.
  - rewrite Z.testbit_neg_r by lia. done.
Qed.

Lemma testbit_field_get h sh wd i :
  0 <= sh -> 0 <= wd -> 0 <= i ->
  Z.testbit (field_get h sh wd) i = ((i <? wd) && Z.testbit h (i + sh))%bool.
Proof.
  intros Hs Hw Hi. unfold field_get. destruct (Z.ltb_spec i wd).
  - rewrite Z.mod_pow2_bits_low by lia. rewrite Z.shiftr_spec by lia. done.
  - rewrite Z.mod_pow2_bits_high by lia. done.
Qed.

Lemma field_get_range h sh wd : 0 <= wd -> 0 <= field_get h sh wd < 2 ^ wd.
Proof. intros. apply Z.mod_pos_bound. apply Z.pow_pos_nonneg; lia. Qed.

(** Reading a field with mask and shift. *)
Lemma mask_shift_field h sh wd :
  0 <= sh -> 0 <= wd -> Z.shiftr (Z.land h (field_mask sh wd)) sh = field_get h sh wd.
Proof.
  intros Hs Hw. apply Z.bits_inj'. intros i Hi.
  rewrite testbit_field_get, Z.shiftr_spec, Z.land_spec, testbit_field_mask by lia.
  replace (sh <=? i + sh) with true by (symmetry; apply Z.leb_le; lia).
  destruct (Z.ltb_spec (i + sh) (sh + wd)), (Z.ltb_spec i wd); try lia;
    simpl; by rewrite ?andb_true_r, ?andb_false_r.
Qed.

(** Writing a field: clear it with the complemented mask, then or in the value. *)
Definition field_set (h sh wd v : Z) : Z :=
  Z.lor (Z.land h (Z.lnot (field_mask sh wd))) (Z.shiftl v sh).

Lemma testbit_field_set h sh wd v i :
  0 <= sh -> 0 <= wd -> 0 <= v < 2 ^ wd -> 0 <= i ->
  Z.testbit (field_set h sh wd v) i =
    if ((sh <=? i) && (i <? sh + wd))%bool then Z.testbit v (i - sh) else Z.testbit h i.
Proof.
  intros Hs Hw Hv Hi. unfold field_set.
  rewrite Z.lor_spec, Z.land_spec, Z.lnot_spec, testbit_field_mask, Z.shiftl_spec by lia.
  destruct (Z.leb_spec sh i); simpl.
  - destruct (Z.ltb_spec i (sh + wd)); simpl.
    + by rewrite andb_false_r.
    + rewrite (testbit_small v wd) by lia. by rewrite andb_true_r, orb_false_r.
  - rewrite (Z.testbit_neg_r v) by lia. by rewrite andb_true_r, orb_false_r.
Qed.

Lemma field_get_set_same h sh wd v :
  0 <= sh -> 0 <= wd -> 0 <= v < 2 ^ wd -> field_get (field_set h sh wd v) sh wd = v.
Proof.
  intros Hs Hw Hv. apply Z.bits_inj'. intros i Hi.
  rewrite testbit_field_get, testbit_field_set by lia.
  destruct (Z.ltb_spec i wd); simpl.
  - replace (sh <=? i + sh) with true by (symmetry; apply Z.leb_le; lia).
    replace (i + sh <? sh + wd) with true by (symmetry; apply Z.ltb_lt; lia).
    simpl. f_equal. lia.
  - symmetry. apply (testbit_small v wd); lia.
Qed.

Lemma field_get_set_other h sh wd v sh' wd' :
  0 <= sh -> 0 <= wd -> 0 <= sh' -> 0 <= wd' -> 0 <= v < 2 ^ wd ->
  sh' + wd' <= sh \/ sh + wd <= sh' ->
  field_get (field_set h sh wd v) sh' wd' = field_get h sh' wd'.
Proof.
  intros Hs Hw Hs' Hw' Hv Hd. apply Z.bits_inj'. intros i Hi.
  rewrite !testbit_field_get by lia. destruct (Z.ltb_spec i wd'); [simpl | done].
  rewrite testbit_field_set by lia.
  destruct (Z.leb_spec sh (i + sh')), (Z.ltb_spec (i + sh') (sh + wd)); done || lia.
Qed.

Lemma field_set_range h sh wd v w :
  0 <= sh -> 0 <= wd -> sh + wd <= w -> 0 <= v < 2 ^ wd -> 0 <= h < 2 ^ w ->
  0 <= field_set h sh wd v < 2 ^ w.
Proof.
  intros Hs Hw Hle Hv Hh.
  apply testbit_bound; [lia | |].
  - unfold field_set. apply Z.lor_nonneg. split.
    + apply Z.land_nonneg. lia.
    + apply Z.shiftl_nonneg. lia.
  - intros i Hi. rewrite testbit_field_set by lia.
    replace (i <? sh + wd) with false by (symmetry; apply Z.ltb_ge; lia).
    rewrite andb_false_r. apply (testbit_small h w); lia.
Qed.

(** A word is the concatenation of a low field and the rest. *)
Lemma field_get_lor_low a b sh wd :
  0 <= sh -> 0 <= wd ->
  field_get (Z.lor a b) sh wd = Z.lor (field_get a sh wd) (field_get b sh wd).
Proof.
  intros Hs Hw. apply Z.bits_inj'. intros i Hi.
  rewrite Z.lor_spec, !testbit_field_get, Z.lor_spec by lia.
  by destruct (i <? wd).
Qed.

Lemma field_get_shiftl_same v sh wd :
  0 <= sh -> 0 <= v < 2 ^ wd -> field_get (Z.shiftl v sh) sh wd = v.
Proof.
  intros Hs Hv. unfold field_get. rewrite Z.shiftr_shiftl_l by lia.
  rewrite Z.sub_diag, Z.shiftl_0_r. apply Z.mod_small. done.
Qed.

Lemma field_get_shiftl_other v s n sh wd :
  0 <= s -> 0 <= n -> 0 <= sh -> 0 <= wd -> 0 <= v < 2 ^ n ->
  s + n <= sh \/ sh + wd <= s -> field_get (Z.shiftl v s) sh wd = 0.
Proof.
  intros Hs Hn Hsh Hwd Hv Hd. apply Z.bits_inj'. intros i Hi.
  rewrite testbit_field_get, Z.bits_0 by lia. destruct (Z.ltb_spec i wd); [simpl | done].
  rewrite Z.shiftl_spec by lia. destruct (decide (i + sh < s)).
  - by rewrite Z.testbit_neg_r by lia.
  - apply (testbit_small v n); lia.
Qed.

#[export] Hint Rewrite field_get_lor_low using lia : bits.

Lemma lor_disjoint a b : Z.land a b = 0 -> Z.lor a b = a + b.
Proof. intros E. by rewrite <- Z.lxor_lor, Z.add_nocarry_lxor. Qed.

(** Oring in bits below an aligned address is adding them. *)
Lemma lor_low a b n : 0 <= n -> a mod 2 ^ n = 0 -> 0 <= b < 2 ^ n -> Z.lor a b = a + b.
Proof.
  intros Hn Ha Hb. apply lor_disjoint. apply Z.bits_inj'. intros i Hi.
  rewrite Z.land_spec, Z.bits_0. destruct (decide (i < n)).
  - rewrite <- (Z.mod_pow2_bits_low a n i), Ha, Z.bits_0 by lia. done.
  - rewrite (testbit_small b n) by lia. by rewrite andb_false_r.
Qed.

(** The low bits of a word. *)
Lemma land_low a n : 0 <= n -> Z.land a (2 ^ n - 1) = a mod 2 ^ n.
Proof. intros Hn. rewrite <- Z.land_ones by lia. by rewrite Z.ones_equiv, Z.sub_1_r. Qed.

(** Clearing the low bits of a word. *)
Lemma clear_low a n : 0 <= n -> Z.land a (Z.lnot (2 ^ n - 1)) = a - a mod 2 ^ n.
Proof.
  intros Hn. rewrite <- Z.ldiff_land, Z.sub_1_r, <- Z.ones_equiv.
  rewrite Z.ldiff_ones_r, Z.shiftl_mul_pow2, Z.shiftr_div_pow2 by lia.
  pose proof (Z.div_mod a (2 ^ n)). pose proof (Z.pow_pos_nonneg 2 n). lia.
Qed.

(** The top bit of a [w]-bit word. *)
Lemma top_bit x w :
  0 < w -> 0 <= x < 2 ^ w -> Z.land x (Z.shiftl 1 (w - 1)) = 0 <-> x < 2 ^ (w - 1).
Proof.
  intros Hw Hx. rewrite Z.shiftl_mul_pow2, Z.mul_1_l by lia. split.
  - intros E. assert (Hb : Z.testbit x (w - 1) = false).
    { pose proof (f_equal (fun z => Z.testbit z (w - 1)) E) as Eb. simpl in Eb.
      rewrite Z.land_spec, Z.pow2_bits_true, Z.bits_0, andb_true_r in Eb by lia. done. }
    assert (x mod 2 ^ (w - 1) = x) as <-.
    { apply Z.bits_inj'. intros i Hi. destruct (decide (i < w - 1)).
      - by rewrite Z.mod_pow2_bits_low by lia.
      - rewrite Z.mod_pow2_bits_high by lia.
        destruct (decide (i = w - 1)) as [-> | ?]; [done |].
        symmetry. apply (testbit_small x w); lia. }
    apply Z.mod_pos_bound. apply Z.pow_pos_nonneg; lia.
  - intros Hlt. apply Z.bits_inj'. intros i Hi. rewrite Z.land_spec, Z.bits_0.
    destruct (decide (i = w - 1)) as [-> | ?].
    + rewrite (testbit_small x (w - 1)) by lia. done.
    + rewrite Z.pow2_bits_false by lia. by rewrite andb_false_r.
Qed.

(** ** Arrays: lists indexed by machine integers

    [aget] and [aset] fail outside the bounds of the array, where the code
    would read or write memory it does not own; [blit] is [memcpy]/[memmove]
    of [n] elements and fails when either range leaves its array. *)

Section Arrays.
Context {A : Type}.
Implicit Types (a : list A) (i n : Z).

Definition zlen a : Z := Z.of_nat (length a).

Definition aget a i : option A := if decide (0 <= i) then a !! Z.to_nat i else None.

Definition aset a i (v : A) : option (list A) :=
  if decide (0 <= i < zlen a) then Some (<[Z.to_nat i := v]> a) else None.

Definition ztake i a : list A := take (Z.to_nat i) a.
Definition zdrop i a : list A := drop (Z.to_nat i) a.

(** The [n] elements from index [i]. *)
Definition zseg a i n : list A := ztake n (zdrop i a).

Definition blit (src : list A) (so : Z) (dst : list A) (d n : Z) : option (list A) :=
  if decide (0 <= so /\ 0 <= d /\ 0 <= n /\ so + n <= zlen src /\ d + n <= zlen dst)
  then Some (ztake d dst ++ zseg src so n ++ zdrop (d + n) dst)
  else None.

(** [for (i = lo; i < hi; i++) a[i] = v], as a bounded fill. *)
Definition afill a (lo hi : Z) (v : A) : option (list A) :=
  if decide (hi <= lo) then Some a
  else if decide (0 <= lo /\ hi <= zlen a)
       then Some (ztake lo a ++ replicate (Z.to_nat (hi - lo)) v ++ zdrop hi a)
       else None.

Lemma zlen_nonneg a : 0 <= zlen a.
Proof. unfold zlen. lia. Qed.

Lemma zlen_nil : zlen [] = 0.
Proof. done. Qed.

Lemma zlen_cons x a : zlen (x :: a) = 1 + zlen a.
Proof. unfold zlen. simpl. lia. Qed.

Lemma zlen_app a b : zlen (a ++ b) = zlen a + zlen b.
Proof. unfold zlen. rewrite length_app. lia. Qed.

Lemma zlen_ztake i a : 0 <= i <= zlen a -> zlen (ztake i a) = i.
Proof. unfold zlen, ztake. rewrite length_take. lia. Qed.

Lemma zlen_zdrop i a : 0 <= i <= zlen a -> zlen (zdrop i a) = zlen a - i.
Proof. unfold zlen, zdrop. rewrite length_drop. lia. Qed.

Lemma zlen_replicate n (x : A) : 0 <= n -> zlen (replicate (Z.to_nat n) x) = n.
Proof. unfold zlen. rewrite length_replicate. lia. Qed.

Lemma zlen_zseg a i n : 0 <= i -> 0 <= n -> i + n <= zlen a -> zlen (zseg a i n) = n.
Proof.
  intros. unfold zseg. apply zlen_ztake. rewrite zlen_zdrop by lia. lia.
Qed.

Lemma ztake_zdrop i a : ztake i a ++ zdrop i a = a.
Proof. apply take_drop. Qed.

Lemma ztake_0 a : ztake 0 a = [].
Proof. done. Qed.

Lemma zdrop_0 a : zdrop 0 a = a.
Proof. done. Qed.

Lemma ztake_all a i : zlen a <= i -> ztake i a = a.
Proof. unfold zlen, ztake. intros. apply take_ge. lia. Qed.

Lemma zdrop_all a i : zlen a <= i -> zdrop i a = [].
Proof. unfold zlen, zdrop. intros. apply drop_ge. lia. Qed.

Lemma ztake_app_le a b i : i <= zlen a -> ztake i (a ++ b) = ztake i a.
Proof. unfold zlen, ztake. intros. apply take_app_le. lia. Qed.

Lemma ztake_app_ge a b i : zlen a <= i -> ztake i (a ++ b) = a ++ ztake (i - zlen a) b.
Proof.
  unfold zlen, ztake. intros. rewrite take_app_ge by lia. do 2 f_equal. lia.
Qed.

Lemma zdrop_app_le a b i : i <= zlen a -> zdrop i (a ++ b) = zdrop i a ++ b.
Proof. unfold zlen, zdrop. intros. apply drop_app_le. lia. Qed.

Lemma zdrop_app_ge a b i : zlen a <= i -> zdrop i (a ++ b) = zdrop (i - zlen a) b.
Proof. unfold zlen, zdrop. intros. rewrite drop_app_ge by lia. f_equal. lia. Qed.

Lemma zdrop_zdrop a i j : 0 <= i -> 0 <= j -> zdrop i (zdrop j a) = zdrop (i + j) a.
Proof. intros. unfold zdrop. rewrite drop_drop. f_equal. lia. Qed.

Lemma ztake_ztake a i j : ztake i (ztake j a) = ztake (i `min` j) a.
Proof. unfold ztake. rewrite take_take. f_equal. lia. Qed.

Lemma zdrop_ztake a i j : 0 <= i <= j -> zdrop i (ztake j a) = ztake (j - i) (zdrop i a).
Proof.
  intros. unfold zdrop, ztake. rewrite skipn_firstn_comm. f_equal. lia.
Qed.

Lemma aget_Some_lt a i x : aget a i = Some x -> 0 <= i < zlen a.
Proof.
  unfold aget, zlen. case_decide; [| done]. intros Hx%lookup_lt_Some. lia.
Qed.

Lemma aget_is_Some a i : 0 <= i < zlen a -> is_Some (aget a i).
Proof.
  unfold aget, zlen. intros. rewrite decide_True by lia. apply lookup_lt_is_Some. lia.
Qed.

Lemma aget_None a i : ~ (0 <= i < zlen a) -> aget a i = None.
Proof.
  unfold aget, zlen. intros. case_decide; [| done]. apply lookup_ge_None. lia.
Qed.

Lemma aset_Some a i x : 0 <= i < zlen a -> aset a i x = Some (<[Z.to_nat i := x]> a).
Proof. intros. unfold aset. by rewrite decide_True. Qed.

Lemma aset_inv a i x b :
  aset a i x = Some b -> 0 <= i < zlen a /\ b = <[Z.to_nat i := x]> a.
Proof. unfold aset. case_decide; intros E; [by injection E | done]. Qed.

Lemma aset_zlen a i x b : aset a i x = Some b -> zlen b = zlen a.
Proof. intros [_ ->]%aset_inv. unfold zlen. by rewrite length_insert. Qed.

Lemma aget_aset_eq a i x b : aset a i x = Some b -> aget b i = Some x.
Proof.
  intros [? ->]%aset_inv. unfold aget, zlen in *. rewrite decide_True by lia.
  apply list_lookup_insert_eq. lia.
Qed.

Lemma aget_aset_ne a i j x b : aset a i x = Some b -> i <> j -> aget b j = aget a j.
Proof.
  intros [? ->]%aset_inv ?. unfold aget. case_decide; [| done].
  apply list_lookup_insert_ne. lia.
Qed.

Lemma aget_app_l a b i : i < zlen a -> aget (a ++ b) i = aget a i.
Proof. unfold aget, zlen. intros. case_decide; [| done]. apply lookup_app_l. lia. Qed.

Lemma aget_app_r a b i : zlen a <= i -> aget (a ++ b) i = aget b (i - zlen a).
Proof.
  unfold aget, zlen. intros. rewrite !decide_True by lia.
  rewrite lookup_app_r by lia. f_equal. lia.
Qed.

Lemma aget_cons x a i : 0 < i -> aget (x :: a) i = aget a (i - 1).
Proof. intros Hi. change (x :: a) with ([x] ++ a). apply (aget_app_r [x] a). change (zlen [x]) with 1. lia. Qed.

Lemma aget_ztake a i j : j < i -> aget (ztake i a) j = aget a j.
Proof.
  unfold aget, ztake. intros. case_decide; [| done]. apply lookup_take_lt. lia.
Qed.

Lemma aget_zdrop a i j : 0 <= i -> 0 <= j -> aget (zdrop i a) j = aget a (i + j).
Proof.
  unfold aget, zdrop. intros. rewrite !decide_True by lia.
  rewrite lookup_drop. f_equal. lia.
Qed.

Lemma aget_replicate n (x : A) j : 0 <= j < n -> aget (replicate (Z.to_nat n) x) j = Some x.
Proof.
  intros. unfold aget. rewrite decide_True by lia. apply lookup_replicate_2. lia.
Qed.

(** Splitting an array at an index: the element and the two sides. *)
Lemma aget_split a i x : aget a i = Some x -> a = ztake i a ++ x :: zdrop (i + 1) a.
Proof.
  intros H. pose proof (aget_Some_lt _ _ _ H). unfold aget in H.
  rewrite decide_True in H by lia. unfold ztake, zdrop.
  replace (Z.to_nat (i + 1)) with (S (Z.to_nat i)) by lia.
  symmetry. by apply take_drop_middle.
Qed.

Lemma zdrop_cons_aget a i x : aget a i = Some x -> zdrop i a = x :: zdrop (i + 1) a.
Proof.
  intros H. pose proof (aget_Some_lt _ _ _ H). unfold aget in H.
  rewrite decide_True in H by lia. unfold zdrop.
  replace (Z.to_nat (i + 1)) with (S (Z.to_nat i)) by lia. by apply drop_S.
Qed.

Lemma ztake_succ_aget a i x : aget a i = Some x -> ztake (i + 1) a = ztake i a ++ [x].
Proof.
  intros H. pose proof (aget_Some_lt _ _ _ H). unfold aget in H.
  rewrite decide_True in H by lia. unfold ztake.
  replace (Z.to_nat (i + 1)) with (S (Z.to_nat i)) by lia. by apply take_S_r.
Qed.

Lemma aset_split a i x b :
  aset a i x = Some b -> b = ztake i a ++ x :: zdrop (i + 1) a.
Proof.
  intros [? ->]%aset_inv. unfold ztake, zdrop, zlen in *.
  replace (Z.to_nat (i + 1)) with (S (Z.to_nat i)) by lia.
  apply insert_take_drop. lia.
Qed.

Lemma array_ext a b :
  zlen a = zlen b -> (forall i, 0 <= i < zlen a -> aget a i = aget b i) -> a = b.
Proof.
  unfold zlen. intros Hlen Hx. apply list_eq_same_length with (length b); [done | lia |].
  intros i x y Hi Ha Hb. specialize (Hx (Z.of_nat i)). unfold aget in Hx.
  rewrite !decide_True, Nat2Z.id, Ha, Hb in Hx by lia.
  assert (Some x = Some y) by (apply Hx; lia). congruence.
Qed.

Lemma blit_Some src so dst d n :
  0 <= so -> 0 <= d -> 0 <= n -> so + n <= zlen src -> d + n <= zlen dst ->
  blit src so dst d n = Some (ztake d dst ++ zseg src so n ++ zdrop (d + n) dst).
Proof. intros. unfold blit. by rewrite decide_True by lia. Qed.

Lemma blit_zlen src so dst d n b : blit src so dst d n = Some b -> zlen b = zlen dst.
Proof.
  unfold blit. case_decide; [| done]. intros [= <-].
  rewrite !zlen_app, zlen_ztake, zlen_zseg, zlen_zdrop by lia. lia.
Qed.

Lemma afill_zlen a lo hi v b : afill a lo hi v = Some b -> zlen b = zlen a.
Proof.
  unfold afill. case_decide; [naive_solver |]. case_decide; [| done]. intros [= <-].
  rewrite !zlen_app, zlen_ztake, zlen_replicate, zlen_zdrop by lia. lia.
Qed.

(** The same operations on arrays given in pieces. *)
Lemma aget_mid p x s i : i = zlen p -> aget (p ++ x :: s) i = Some x.
Proof.
  intros ->. unfold aget, zlen. rewrite decide_True by lia. rewrite Nat2Z.id.
  by rewrite list_lookup_middle.
Qed.

Lemma aset_mid p x s i v : i = zlen p -> aset (p ++ x :: s) i v = Some (p ++ v :: s).
Proof.
  intros ->. pose proof (zlen_nonneg p). pose proof (zlen_nonneg s).
  rewrite aset_Some by (rewrite zlen_app, zlen_cons; lia). f_equal.
  unfold zlen. rewrite Nat2Z.id. by rewrite insert_app_r_alt, Nat.sub_diag by lia.
Qed.

Lemma zseg_pieces p c s i n : i = zlen p -> n = zlen c -> zseg (p ++ c ++ s) i n = c.
Proof.
  intros -> ->. unfold zseg. rewrite zdrop_app_ge, Z.sub_diag, zdrop_0 by lia.
  rewrite ztake_app_le by lia. by apply ztake_all.
Qed.

Lemma blit_pieces src so dst d n sp c ss p o s :
  src = sp ++ c ++ ss -> so = zlen sp -> n = zlen c ->
  dst = p ++ o ++ s -> d = zlen p -> n = zlen o ->
  blit src so dst d n = Some (p ++ c ++ s).
Proof.
  intros -> -> -> -> -> E. pose proof (zlen_nonneg sp). pose proof (zlen_nonneg c).
  pose proof (zlen_nonneg ss). pose proof (zlen_nonneg p). pose proof (zlen_nonneg s).
  rewrite blit_Some by (rewrite ?zlen_app; lia). f_equal.
  rewrite zseg_pieces by done. rewrite ztake_app_le by lia. rewrite ztake_all by lia.
  do 2 f_equal. rewrite (app_assoc p o s), zdrop_app_ge by (rewrite zlen_app; lia).
  rewrite zlen_app. by replace (zlen p + zlen c - (zlen p + zlen o)) with 0 by lia.
Qed.

Lemma ztake_pieces p s i : i = zlen p -> ztake i (p ++ s) = p.
Proof. intros ->. rewrite ztake_app_le by lia. by apply ztake_all. Qed.

Lemma zdrop_pieces p s i : i = zlen p -> zdrop i (p ++ s) = s.
Proof. intros ->. by rewrite zdrop_app_ge, Z.sub_diag, zdrop_0 by lia. Qed.

(** Splitting an array at an index. *)
Lemma zsplit a i : 0 <= i <= zlen a -> exists p s, a = p ++ s /\ zlen p = i.
Proof.
  intros. exists (ztake i a), (zdrop i a). by rewrite ztake_zdrop, zlen_ztake by lia.
Qed.

Lemma zlen_0_nil a : zlen a = 0 -> a = [].
Proof. unfold zlen. destruct a; simpl; [done | lia]. Qed.

Lemma zlen_pos_cons a : 0 < zlen a -> exists x s, a = x :: s.
Proof. unfold zlen. destruct a; simpl; [lia | eauto]. Qed.

Lemma afill_pieces a lo hi v p o s :
  a = p ++ o ++ s -> lo = zlen p -> hi = lo + zlen o ->
  afill a lo hi v = Some (p ++ replicate (Z.to_nat (zlen o)) v ++ s).
Proof.
  intros -> -> ->. pose proof (zlen_nonneg o). pose proof (zlen_nonneg p). pose proof (zlen_nonneg s).
  unfold afill. case_decide.
  { assert (E : zlen o = 0) by lia. rewrite E. by rewrite (zlen_0_nil o E). }
  rewrite decide_True by (rewrite !zlen_app; lia). f_equal.
  rewrite ztake_pieces by done.
  rewrite (app_assoc p o s), zdrop_pieces by (rewrite zlen_app; lia).
  do 3 f_equal. lia.
Qed.

End Arrays.

#[global] Arguments zlen : simpl never.
#[global] Arguments ztake : simpl never.
#[global] Arguments zdrop : simpl never.
#[global] Arguments zseg : simpl never.
#[global] Arguments aget : simpl never.
#[global] Arguments aset : simpl never.

(** [zlen_tac] normalises the lengths of concatenations, prefixes and suffixes. *)
Ltac zlen_tac :=
  repeat first
    [ progress rewrite ?zlen_app, ?zlen_cons, ?zlen_nil in *
    | rewrite zlen_ztake by lia
    | rewrite zlen_zdrop by lia
    | rewrite zlen_replicate by lia
    | rewrite zlen_zseg by lia ].

Create HintDb arrays.
Create Rewrite HintDb arrays.
#[export] Hint Resolve zlen_nonneg : arrays.
#[export] Hint Rewrite @zlen_app @zlen_cons @zlen_nil : arrays.

(** Arithmetic on the lengths of concatenations. *)
Ltac zl := autorewrite with arrays in *; lia.

(** ** Pairwise relations on lists *)

Section Pairwise.
Context {A : Type} (R : A -> A -> Prop).

Lemma FOP_Permutation `{!Symmetric R} (l l' : list A) :
  l ≡ₚ l' -> ForallOrdPairs R l -> ForallOrdPairs R l'.
Proof.
  induction 1 as [| x l l' Hp IH | x y l | l l' l'' _ IH1 _ IH2]; intros Hl; auto.
  - inversion Hl as [| ? ? Hx Ht]; subst. constructor; [by rewrite <- Hp | auto].
  - inversion Hl as [| ? ? Hx Ht]; subst. inversion Ht as [| ? ? Hy Hl']; subst.
    inversion Hx; subst. repeat constructor; auto.
Qed.

Lemma FOP_cons (x : A) (l : list A) :
  ForallOrdPairs R (x :: l) <-> Forall (R x) l /\ ForallOrdPairs R l.
Proof. split; [inversion 1; auto | intros []; by constructor]. Qed.

End Pairwise.

(** ** Option-valued computations: [None] is an access the code must not make *)

Lemma bind_Some_inv {A B} (f : A -> option B) m y :
  m ≫= f = Some y -> exists x, m = Some x /\ f x = Some y.
Proof. destruct m; simpl; naive_solver. Qed.

Ltac inv_bind H :=
  let x := fresh "x" in let E := fresh "E" in
  apply bind_Some_inv in H; destruct H as (x & E & H).

(** Case analysis on the boolean comparisons of the program's conditions. *)
Ltac case_Zb :=
  match goal with
  | |- context [Z.ltb ?a ?b] => destruct (Z.ltb_spec a b)
  | |- context [Z.leb ?a ?b] => destruct (Z.leb_spec a b)
  | |- context [Z.eqb ?a ?b] => destruct (Z.eqb_spec a b)
  end.
