(* ===== verification/Config.v ===== *)
(** * The store's configuration (seam/store/StoreConfig.cc, Parameter.hh)

    The generator program that computes the layout of the header word and the
    block labels from the widths of [Parameter.hh] and the platform's types. *)

From S2P Require Import Prelude.

(** ** Parameter.hh *)

Definition HEADER_FULL_WIDTH : Z := 32.
Definition HEADER_GEN_GC_MARK_WIDTH : Z := 2.
Definition HEADER_SIZESHIFT_WIDTH : Z := 1.
Definition HEADER_SIZE_WIDTH : Z := 20.
Definition HEADER_TAG_WIDTH : Z := 7.
Definition HEADER_MUTABLE_WIDTH : Z := 1.
Definition HEADER_CHILDISH_WIDTH : Z := 1.

Definition STORE_MEMCHUNK_SIZE : Z := 1024 * 128.

(** The number of generations of [Parameter.hh]; the generated constant
    [STORE_GENERATION_NUM] adds the shadow generation, see below. *)
Definition PARAM_GENERATION_NUM : Z := Z.shiftl 1 HEADER_GEN_GC_MARK_WIDTH - 1.

Definition STORE_HELPER_LABEL_ARRAY : list string :=
  [ "GENSET"; "INT_MAP"; "CHUNK_MAP"; "MAP"; "HASHNODEARRAY"; "HASHNODE"; "QUEUE"; "STACK";
    "ROOTSETELEMENT"; "UNIQUESTRING"; "THREAD"; "TASKSTACK"; "CLOSURE"; "TUPLE"; "CONCRETE";
    "TRANSFORM"; "ARGS"; "IODESC"; "DEBUG_ENVIRONMENT" ]%string.

(** ** The header word *)

(** [for (i = 0; i < width; i++) mask += 1LU << (pos + i)] *)
Definition ComputeMask (pos width : Z) : Z :=
  fold_left (fun mask i => mask + Z.shiftl 1 (pos + Z.of_nat i)) (seq 0 (Z.to_nat width)) 0.

Record HeaderWord := {
  hw_GEN_GC_SHIFT : Z;
  hw_SIZESHIFT_SHIFT : Z;
  hw_SIZE_SHIFT : Z;
  hw_TAG_SHIFT : Z;
  hw_MUTABLE_SHIFT : Z;
  hw_CHILDISH_SHIFT : Z;
  hw_MAX_TAGSIZE : Z;
  hw_MAX_BLOCKSIZE : Z;
  hw_MAX_BIGBLOCKSIZE : Z;
  hw_MAX_DYNBLOCKSIZE : Z;
  hw_BIGSIZE_MIN : Z;
  hw_GEN_GC_MASK : Z;
  hw_SIZESHIFT_MASK : Z;
  hw_SIZE_MASK : Z;
  hw_TAG_MASK : Z;
  hw_MUTABLE_MASK : Z;
  hw_CHILDISH_MASK : Z
}.

(** The enumeration the generator prints into [StoreConfig.hh]. *)
Definition CreateHeader (header_size_width : Z) : HeaderWord :=
  let GEN_GC_SHIFT := 0 in
  let SIZESHIFT_SHIFT := HEADER_GEN_GC_MARK_WIDTH in
  let SIZE_SHIFT := SIZESHIFT_SHIFT + HEADER_SIZESHIFT_WIDTH in
  let TAG_SHIFT := SIZE_SHIFT + header_size_width in
  let MUTABLE_SHIFT := TAG_SHIFT + HEADER_TAG_WIDTH in
  let CHILDISH_SHIFT := MUTABLE_SHIFT + HEADER_MUTABLE_WIDTH in
  let MAX_TAGSIZE := Z.shiftl 1 HEADER_TAG_WIDTH - 1 in
  let MAX_BLOCKSIZE := Z.shiftl 1 HEADER_SIZE_WIDTH - 1 in
  let GEN_GC_MASK := ComputeMask GEN_GC_SHIFT HEADER_GEN_GC_MARK_WIDTH in
  let SIZESHIFT_MASK := ComputeMask SIZESHIFT_SHIFT HEADER_SIZESHIFT_WIDTH in
  let SIZE_MASK := ComputeMask SIZE_SHIFT header_size_width in
  let TAG_MASK := ComputeMask TAG_SHIFT HEADER_TAG_WIDTH in
  let MUTABLE_MASK := ComputeMask MUTABLE_SHIFT HEADER_MUTABLE_WIDTH in
  let CHILDISH_MASK := ComputeMask CHILDISH_SHIFT HEADER_CHILDISH_WIDTH in
  let BIGSIZE_MIN := Z.shiftl 1 SIZESHIFT_MASK in
  let MAX_BIGBLOCKSIZE := Z.shiftl MAX_BLOCKSIZE SIZESHIFT_MASK in
  let MAX_DYNBLOCKSIZE := MAX_BIGBLOCKSIZE - 1 in
  {| hw_GEN_GC_SHIFT := GEN_GC_SHIFT;
     hw_SIZESHIFT_SHIFT := SIZESHIFT_SHIFT;
     hw_SIZE_SHIFT := SIZE_SHIFT;
     hw_TAG_SHIFT := TAG_SHIFT;
     hw_MUTABLE_SHIFT := MUTABLE_SHIFT;
     hw_CHILDISH_SHIFT := CHILDISH_SHIFT;
     hw_MAX_TAGSIZE := MAX_TAGSIZE;
     hw_MAX_BLOCKSIZE := MAX_BLOCKSIZE;
     hw_MAX_BIGBLOCKSIZE := MAX_BIGBLOCKSIZE;
     hw_MAX_DYNBLOCKSIZE := MAX_DYNBLOCKSIZE;
     hw_BIGSIZE_MIN := BIGSIZE_MIN;
     hw_GEN_GC_MASK := GEN_GC_MASK;
     hw_SIZESHIFT_MASK := SIZESHIFT_MASK;
     hw_SIZE_MASK := SIZE_MASK;
     hw_TAG_MASK := TAG_MASK;
     hw_MUTABLE_MASK := MUTABLE_MASK;
     hw_CHILDISH_MASK := CHILDISH_MASK |}.

(** ** The block labels *)

Record BlockLabels := {
  bl_MIN_DATA : Z;
  bl_MAX_DATA : Z;
  bl_MIN_HELPER : Z;
  bl_helpers : list (string * Z);
  bl_MAX_HELPER : Z;
  bl_MIN_STORE : Z;
  bl_MIN_TRANSIENT : Z;
  bl_HOLE : Z;
  bl_FUTURE : Z;
  bl_REF : Z;
  bl_CANCELLED : Z;
  bl_BYNEED : Z;
  bl_MAX_TRANSIENT : Z;
  bl_CHUNK : Z;
  bl_WEAK_MAP : Z;
  bl_DYNAMIC : Z;
  bl_MAX_STORE : Z
}.

Definition CreateLabel (size : Z) : BlockLabels :=
  let helper_arr := STORE_HELPER_LABEL_ARRAY in
  let arr_size := Z.of_nat (length helper_arr) in
  {| bl_MIN_DATA := 0;
     bl_MAX_DATA := size - 8 - arr_size;
     bl_MIN_HELPER := size - 7 - arr_size;
     bl_helpers :=
       imap (fun i name => (name, size - 7 - (arr_size - Z.of_nat i))) helper_arr;
     bl_MAX_HELPER := size - 8;
     bl_MIN_STORE := size - 7;
     bl_MIN_TRANSIENT := size - 7;
     bl_HOLE := size - 7;
     bl_FUTURE := size - 6;
     bl_REF := size - 5;
     bl_CANCELLED := size - 4;
     bl_BYNEED := size - 3;
     bl_MAX_TRANSIENT := size - 3;
     bl_CHUNK := size - 2;
     bl_WEAK_MAP := size - 1;
     bl_DYNAMIC := size;
     bl_MAX_STORE := size |}.

(** ** The generator *)

Record StoreConfig := {
  sc_header : HeaderWord;
  sc_labels : BlockLabels;
  sc_GENERATION_NUM : Z;
  sc_GEN_YOUNGEST : Z;
  sc_GEN_OLDEST : option Z;
  sc_MEM_ALIGN : Z;
  sc_MEMCHUNK_SIZE : Z;
  sc_WORD_WIDTH : Z;
  sc_int_val : string
}.

(** The smallest of [short], [int], [long] that holds a header and a pointer;
    the result is its size and name. *)
Definition select_int (sizeof_short sizeof_int sizeof_long sizeof_ptr : Z) : option (Z * string) :=
  let MIN_WIDTH := Z.shiftr HEADER_FULL_WIDTH 3 in
  let PTR_WIDTH := sizeof_ptr in
  let MIN_WIDTH := if MIN_WIDTH <? PTR_WIDTH then PTR_WIDTH else MIN_WIDTH in
  if MIN_WIDTH <=? sizeof_short then Some (sizeof_short, "short"%string)
  else if MIN_WIDTH <=? sizeof_int then Some (sizeof_int, "int"%string)
  else if MIN_WIDTH <=? sizeof_long then Some (sizeof_long, "long"%string)
  else None.

(** [main] of the generator: [None] where it exits with status 1. *)
Definition StoreConfig_main (sizeof_short sizeof_int sizeof_long sizeof_ptr : Z)
    : option StoreConfig :=
  if sizeof_long * 8 <? HEADER_FULL_WIDTH then None
  else if negb (HEADER_FULL_WIDTH =?
                HEADER_GEN_GC_MARK_WIDTH + HEADER_SIZESHIFT_WIDTH + HEADER_SIZE_WIDTH +
                HEADER_TAG_WIDTH + HEADER_MUTABLE_WIDTH + HEADER_CHILDISH_WIDTH) then None
  else if Z.shiftl 1 HEADER_GEN_GC_MARK_WIDTH - 1 <? PARAM_GENERATION_NUM then None
  else
    '(width, int_val) ← select_int sizeof_short sizeof_int sizeof_long sizeof_ptr;
    if negb (STORE_MEMCHUNK_SIZE mod width =? 0) then None
    else Some
      {| sc_header := CreateHeader (HEADER_SIZE_WIDTH + (width * 8 - HEADER_FULL_WIDTH));
         sc_labels := CreateLabel (Z.shiftl 1 HEADER_TAG_WIDTH - 1);
         sc_GENERATION_NUM := PARAM_GENERATION_NUM + 1;
         sc_GEN_YOUNGEST := 0;
         sc_GEN_OLDEST :=
           if 1 <? PARAM_GENERATION_NUM then Some (PARAM_GENERATION_NUM - 1) else None;
         sc_MEM_ALIGN := width;
         sc_MEMCHUNK_SIZE := STORE_MEMCHUNK_SIZE;
         sc_WORD_WIDTH := width * 8;
         sc_int_val := int_val |}.

(** The generated constants on a platform. *)
Definition HW `{Platform} : HeaderWord :=
  CreateHeader (HEADER_SIZE_WIDTH + (MIN_WIDTH * 8 - HEADER_FULL_WIDTH)).
Definition LABELS : BlockLabels := CreateLabel (Z.shiftl 1 HEADER_TAG_WIDTH - 1).
Definition STORE_GENERATION_NUM : Z := PARAM_GENERATION_NUM + 1.
Definition STORE_GEN_OLDEST : Z := PARAM_GENERATION_NUM - 1.

(** The generated constants are not unfolded by [simpl]. *)
#[global] Arguments hw_GEN_GC_SHIFT : simpl never.
#[global] Arguments hw_SIZESHIFT_SHIFT : simpl never.
#[global] Arguments hw_SIZE_SHIFT : simpl never.
#[global] Arguments hw_TAG_SHIFT : simpl never.
#[global] Arguments hw_MUTABLE_SHIFT : simpl never.
#[global] Arguments hw_CHILDISH_SHIFT : simpl never.
#[global] Arguments hw_MAX_TAGSIZE : simpl never.
#[global] Arguments hw_MAX_BLOCKSIZE : simpl never.
#[global] Arguments hw_MAX_BIGBLOCKSIZE : simpl never.
#[global] Arguments hw_MAX_DYNBLOCKSIZE : simpl never.
#[global] Arguments hw_BIGSIZE_MIN : simpl never.
#[global] Arguments hw_GEN_GC_MASK : simpl never.
#[global] Arguments hw_SIZESHIFT_MASK : simpl never.
#[global] Arguments hw_SIZE_MASK : simpl never.
#[global] Arguments hw_TAG_MASK : simpl never.
#[global] Arguments hw_MUTABLE_MASK : simpl never.
#[global] Arguments hw_CHILDISH_MASK : simpl never.

(** The label of a helper, by its name in [Parameter.hh]. *)
Definition helper_label (name : string) : Z :=
  match list_find (fun p => p.1 = name) (bl_helpers LABELS) with
  | Some (_, (_, l)) => l
  | None => -1
  end.

Definition MIN_DATA_LABEL : Z := bl_MIN_DATA LABELS.
Definition HOLE_LABEL : Z := bl_HOLE LABELS.
Definition FUTURE_LABEL : Z := bl_FUTURE LABELS.
Definition REF_LABEL : Z := bl_REF LABELS.
Definition CANCELLED_LABEL : Z := bl_CANCELLED LABELS.
Definition BYNEED_LABEL : Z := bl_BYNEED LABELS.
Definition CHUNK_LABEL : Z := bl_CHUNK LABELS.
Definition WEAK_MAP_LABEL : Z := bl_WEAK_MAP LABELS.
Definition DYNAMIC_LABEL : Z := bl_DYNAMIC LABELS.
Definition MAX_STORE_LABEL : Z := bl_MAX_STORE LABELS.
Definition MIN_TRANSIENT_LABEL : Z := bl_MIN_TRANSIENT LABELS.
Definition MAX_TRANSIENT_LABEL : Z := bl_MAX_TRANSIENT LABELS.
Definition QUEUE_LABEL : Z := helper_label "QUEUE".
Definition STACK_LABEL : Z := helper_label "STACK".
Definition HASHNODEARRAY_LABEL : Z := helper_label "HASHNODEARRAY".
Definition HASHNODE_LABEL : Z := helper_label "HASHNODE".
Definition INT_MAP_LABEL : Z := helper_label "INT_MAP".
Definition CHUNK_MAP_LABEL : Z := helper_label "CHUNK_MAP".
Definition MAP_LABEL : Z := helper_label "MAP".
Definition UNIQUESTRING_LABEL : Z := helper_label "UNIQUESTRING".
Definition THREAD_LABEL : Z := helper_label "THREAD".
Definition TASKSTACK_LABEL : Z := helper_label "TASKSTACK".
Definition CLOSURE_LABEL : Z := helper_label "CLOSURE".
Definition TUPLE_LABEL : Z := helper_label "TUPLE".
Definition CONCRETE_LABEL : Z := helper_label "CONCRETE".
Definition TRANSFORM_LABEL : Z := helper_label "TRANSFORM".
Definition ARGS_LABEL : Z := helper_label "ARGS".
Definition IODESC_LABEL : Z := helper_label "IODESC".

(** ** Lemmas *)

Lemma ComputeMask_field_mask pos width :
  0 <= pos -> 0 <= width -> ComputeMask pos width = field_mask pos width.
Proof.
  intros Hp Hw. unfold ComputeMask, field_mask.
  rewrite <- (Z2Nat.id width) at 2 by done.
  generalize (Z.to_nat width) as n. clear Hw.
  induction n as [| n IH]; [by rewrite Z.shiftl_0_l |].
  rewrite seq_S, fold_left_app, IH. simpl fold_left.
  rewrite Nat2Z.inj_succ, !Z.shiftl_mul_pow2, !Z.ones_equiv by lia.
  rewrite Z.pow_succ_r, Z.pow_add_r by lia. lia.
Qed.

Section Layout.
Context `{Platform}.

(** The masks as bit fields, for the lemmas of the header operations. *)
Lemma hw_fields :
  hw_GEN_GC_MASK HW = field_mask 0 2 /\
  hw_SIZE_MASK HW = field_mask 3 (STORE_WORD_WIDTH - 12) /\
  hw_TAG_MASK HW = field_mask (STORE_WORD_WIDTH - 9) 7 /\
  hw_MUTABLE_MASK HW = field_mask (STORE_WORD_WIDTH - 2) 1 /\
  hw_CHILDISH_MASK HW = field_mask (STORE_WORD_WIDTH - 1) 1 /\
  hw_SIZESHIFT_MASK HW = 4 /\
  hw_GEN_GC_SHIFT HW = 0 /\
  hw_SIZESHIFT_SHIFT HW = 2 /\
  hw_SIZE_SHIFT HW = 3 /\
  hw_TAG_SHIFT HW = STORE_WORD_WIDTH - 9 /\
  hw_MUTABLE_SHIFT HW = STORE_WORD_WIDTH - 2 /\
  hw_CHILDISH_SHIFT HW = STORE_WORD_WIDTH - 1 /\
  hw_MAX_BLOCKSIZE HW = 1048575 /\
  hw_MAX_BIGBLOCKSIZE HW = 16777200 /\
  hw_BIGSIZE_MIN HW = 16.
Proof. unfold STORE_WORD_WIDTH, HW. destruct MIN_WIDTH_cases as [-> | ->]; done. Qed.

Lemma MAX_BLOCKSIZE_eq : hw_MAX_BLOCKSIZE HW = 1048575.
Proof. apply hw_fields. Qed.

Lemma MAX_BIGBLOCKSIZE_eq : hw_MAX_BIGBLOCKSIZE HW = 16777200.
Proof. apply hw_fields. Qed.

End Layout.

(** ** Properties *)

(** On both platforms the six fields of the header word are pairwise
    disjoint and together cover exactly the machine word, so no header
    operation can touch another field by its mask. *)
Theorem header_masks_partition `{Platform} :
  let masks := [hw_GEN_GC_MASK HW; hw_SIZESHIFT_MASK HW; hw_SIZE_MASK HW; hw_TAG_MASK HW;
                hw_MUTABLE_MASK HW; hw_CHILDISH_MASK HW] in
  fold_right Z.lor 0 masks = 2 ^ STORE_WORD_WIDTH - 1 /\
  forall i j a b, masks !! i = Some a -> masks !! j = Some b -> i <> j -> Z.land a b = 0.
Proof.
  unfold STORE_WORD_WIDTH, HW.
  assert (Hpair : forall (l : list Z),
    forallb (fun i => forallb (fun j => (Nat.eqb i j) ||
      match l !! i, l !! j with Some a, Some b => Z.land a b =? 0 | _, _ => true end)%bool
      (seq 0 (length l))) (seq 0 (length l)) = true ->
    forall i j a b, l !! i = Some a -> l !! j = Some b -> i <> j -> Z.land a b = 0).
  { intros l Hl i j a b Ha Hb Hij. rewrite forallb_forall in Hl.
    specialize (Hl i). rewrite forallb_forall in Hl. specialize (Hl ltac:(apply in_seq; apply lookup_lt_Some in Ha; lia) j
      ltac:(apply in_seq; apply lookup_lt_Some in Hb; lia)).
    rewrite Ha, Hb in Hl. apply orb_prop in Hl as [Hl%Nat.eqb_eq | Hl]; [done | by apply Z.eqb_eq]. }
  destruct MIN_WIDTH_cases as [-> | ->]; (split; [by vm_compute | by apply Hpair; vm_compute]).
Qed.

Lemma header_masks_partition_witness :
  fold_right Z.lor 0 [hw_GEN_GC_MASK (@HW P32); hw_SIZESHIFT_MASK (@HW P32); hw_SIZE_MASK (@HW P32);
                      hw_TAG_MASK (@HW P32); hw_MUTABLE_MASK (@HW P32); hw_CHILDISH_MASK (@HW P32)]
    = 4294967295.
Proof. exact (proj1 (@header_masks_partition P32)). Defined.

(** The generator succeeds on the ILP32 and LP64 data models, choosing the
    integer type as wide as a pointer, and refuses a platform (such as 64-bit
    Windows) where no type up to [long] can hold a pointer. *)
Theorem generator_platforms :
  (exists c, StoreConfig_main 2 4 4 4 = Some c /\ sc_WORD_WIDTH c = 32 /\ sc_int_val c = "int"%string /\
             sc_header c = @HW P32 /\ sc_labels c = LABELS) /\
  (exists c, StoreConfig_main 2 4 8 8 = Some c /\ sc_WORD_WIDTH c = 64 /\ sc_int_val c = "long"%string /\
             sc_header c = @HW P64 /\ sc_labels c = LABELS) /\
  StoreConfig_main 2 4 4 8 = None.
Proof. split; [| split]; [eexists; repeat split .. | done]. Qed.
