(* ===== verification/HeaderOp.v ===== *)
(** * Header words (seam/store/HeaderOp.hh, GCHelper.hh)

    The operations on the first word of a block: label, size, generation,
    mutable flag and childish flag, and the forward pointers of the collector.
    A header is the machine word itself, a [Z] in [0 .. 2^w). *)

From S2P Require Import Prelude Config.

Section HeaderOp.
Context `{Platform}.

(** ** Creation *)

Definition EncodeHeader (l s gen mutableFlag : Z) : Z :=
  if hw_MAX_BLOCKSIZE HW <? s then
    Z.lor (Z.lor (Z.lor (Z.shiftl (gen + 1) (hw_GEN_GC_SHIFT HW))
                        (Z.shiftl 1 (hw_SIZESHIFT_SHIFT HW)))
                 (Z.shiftl (Z.shiftr s (hw_SIZESHIFT_MASK HW)) (hw_SIZE_SHIFT HW)))
          (Z.lor (Z.shiftl l (hw_TAG_SHIFT HW)) (Z.shiftl mutableFlag (hw_MUTABLE_SHIFT HW)))
  else
    Z.lor (Z.lor (Z.shiftl (gen + 1) (hw_GEN_GC_SHIFT HW)) (Z.shiftl s (hw_SIZE_SHIFT HW)))
          (Z.lor (Z.shiftl l (hw_TAG_SHIFT HW)) (Z.shiftl mutableFlag (hw_MUTABLE_SHIFT HW))).

(** ** Label *)

Definition EncodeLabel (h l : Z) : Z :=
  Z.lor (Z.land h (Z.lnot (hw_TAG_MASK HW))) (Z.shiftl l (hw_TAG_SHIFT HW)).

Definition DecodeLabel (h : Z) : Z := Z.shiftr (Z.land h (hw_TAG_MASK HW)) (hw_TAG_SHIFT HW).

(** ** Mutable flag *)

Definition DecodeMutableFlag (h : Z) : Z :=
  Z.shiftr (Z.land h (hw_MUTABLE_MASK HW)) (hw_MUTABLE_SHIFT HW).

Definition EncodeMutableFlag (h f : Z) : Z :=
  Z.lor (Z.land h (Z.lnot (hw_MUTABLE_MASK HW))) (Z.shiftl f (hw_MUTABLE_SHIFT HW)).

(** ** Size *)

Definition EncodeSize (h s : Z) : Z :=
  Z.lor (Z.land h (Z.lnot (hw_SIZE_MASK HW))) (Z.shiftl s (hw_SIZE_SHIFT HW)).

(** The size field, scaled by 16 when the size-shift flag (bit 2, hence the
    value 4 of the masked word) is set. *)
Definition DecodeSize (h : Z) : Z :=
  u_int (Z.shiftl (Z.shiftr (Z.land h (hw_SIZE_MASK HW)) (hw_SIZE_SHIFT HW))
                  (Z.land h (hw_SIZESHIFT_MASK HW))).

(** ** Generation and childish (inter-generational) flag *)

Definition DecodeGeneration (h : Z) : Z :=
  u_int (Z.shiftr (Z.land h (hw_GEN_GC_MASK HW)) (hw_GEN_GC_SHIFT HW) - 1).

Definition SetChildishFlag (h : Z) : Z := Z.lor h (Z.shiftl 1 (hw_CHILDISH_SHIFT HW)).

Definition ClearChildishFlag (h : Z) : Z :=
  Z.land h (Z.lnot (Z.shiftl 1 (hw_CHILDISH_SHIFT HW))).

Definition IsChildish (h : Z) : bool := negb (Z.land h (hw_CHILDISH_MASK HW) =? 0).

(** The number of words a block of [size] words really gets. *)
Definition TranslateSize (size : Z) : Z :=
  if size <=? hw_MAX_BLOCKSIZE HW then size
  else Z.shiftl (Z.shiftr (size + hw_BIGSIZE_MIN HW - 1) (hw_SIZESHIFT_MASK HW))
                (hw_SIZESHIFT_MASK HW).

(** ** Forward pointers of the collector (GCHelper.hh) *)

Definition AlreadyMoved (h : Z) : bool :=
  Z.shiftr (Z.land h (hw_GEN_GC_MASK HW)) (hw_GEN_GC_SHIFT HW) =? 0.

(** The header word of a moved block is the address of its copy. *)
Definition GetForwardPtr (h : Z) : Z := h.
Definition MarkMoved (h np : Z) : Z := np.

Definition EncodeGen (h gen : Z) : Z :=
  Z.lor (Z.land h (Z.lnot (hw_GEN_GC_MASK HW))) (Z.shiftl (gen + 1) (hw_GEN_GC_SHIFT HW)).

Definition DecodeGen (h : Z) : Z :=
  Z.shiftr (Z.land h (hw_GEN_GC_MASK HW)) (hw_GEN_GC_SHIFT HW).

(** ** The operations as bit fields *)

Lemma DecodeLabel_field h : DecodeLabel h = field_get h (STORE_WORD_WIDTH - 9) 7.
Proof.
  pose proof width_bounds. destruct hw_fields as (_&_&Em&_&_&_&_&_&_&Es&_).
  unfold DecodeLabel. rewrite Em, Es. apply mask_shift_field; lia.
Qed.

Lemma DecodeMutableFlag_field h : DecodeMutableFlag h = field_get h (STORE_WORD_WIDTH - 2) 1.
Proof.
  pose proof width_bounds. destruct hw_fields as (_&_&_&Em&_&_&_&_&_&_&Es&_).
  unfold DecodeMutableFlag. rewrite Em, Es. apply mask_shift_field; lia.
Qed.

Lemma DecodeGen_field h : DecodeGen h = field_get h 0 2.
Proof.
  destruct hw_fields as (Em&_&_&_&_&_&Es&_). unfold DecodeGen. rewrite Em, Es.
  apply mask_shift_field; lia.
Qed.

Lemma size_flag_field h : Z.land h (hw_SIZESHIFT_MASK HW) = 4 * field_get h 2 1.
Proof.
  destruct hw_fields as (_&_&_&_&_&->&_).
  rewrite <- (mask_shift_field h 2 1) by lia. change (field_mask 2 1) with 4.
  rewrite Z.mul_comm. change 4 with (2 ^ 2) at 3. rewrite <- Z.shiftl_mul_pow2 by lia.
  apply Z.bits_inj'. intros i Hi. rewrite Z.shiftl_spec by lia.
  destruct (decide (i < 2)).
  - rewrite (Z.testbit_neg_r _ (i - 2)) by lia. rewrite Z.land_spec.
    assert (i = 0 \/ i = 1) as [-> | ->] by lia; by rewrite andb_comm.
  - rewrite Z.shiftr_spec by lia. do 2 f_equal. lia.
Qed.

Lemma DecodeSize_field h :
  DecodeSize h =
    u_int (field_get h 3 (STORE_WORD_WIDTH - 12) * 2 ^ (4 * field_get h 2 1)).
Proof.
  pose proof width_bounds. unfold DecodeSize. rewrite size_flag_field.
  destruct hw_fields as (_&->&_&_&_&_&_&_&->&_).
  rewrite mask_shift_field by lia. f_equal. apply Z.shiftl_mul_pow2.
  pose proof (field_get_range h 2 1). lia.
Qed.

Lemma IsChildish_field h : IsChildish h = negb (field_get h (STORE_WORD_WIDTH - 1) 1 =? 0).
Proof.
  pose proof width_bounds. unfold IsChildish. f_equal.
  destruct hw_fields as (_&_&_&_&->&_). rewrite <- mask_shift_field by lia.
  apply eq_true_iff_eq. rewrite !Z.eqb_eq. split; [intros ->; apply Z.shiftr_0_l |].
  intros Hz. apply Z.bits_inj'. intros i Hi. rewrite Z.bits_0.
  destruct (decide (STORE_WORD_WIDTH - 1 <= i)).
  - rewrite <- (Z.testbit_0_l (i - (STORE_WORD_WIDTH - 1))), <- Hz.
    rewrite Z.shiftr_spec by lia. f_equal. lia.
  - rewrite Z.land_spec, testbit_field_mask by lia.
    replace (STORE_WORD_WIDTH - 1 <=? i) with false by (symmetry; apply Z.leb_gt; lia).
    by rewrite andb_false_r.
Qed.

Lemma EncodeLabel_field h l : EncodeLabel h l = field_set h (STORE_WORD_WIDTH - 9) 7 l.
Proof. unfold EncodeLabel. by destruct hw_fields as (_&_&->&_&_&_&_&_&_&->&_). Qed.

Lemma EncodeMutableFlag_field h f :
  EncodeMutableFlag h f = field_set h (STORE_WORD_WIDTH - 2) 1 f.
Proof. unfold EncodeMutableFlag. by destruct hw_fields as (_&_&_&->&_&_&_&_&_&_&->&_). Qed.

Lemma EncodeSize_field h s : EncodeSize h s = field_set h 3 (STORE_WORD_WIDTH - 12) s.
Proof. unfold EncodeSize. by destruct hw_fields as (_&->&_&_&_&_&_&_&->&_). Qed.

Lemma EncodeGen_field h g : EncodeGen h g = field_set h 0 2 (g + 1).
Proof. unfold EncodeGen. by destruct hw_fields as (->&_&_&_&_&_&->&_). Qed.

Lemma childish_bit : Z.shiftl 1 (hw_CHILDISH_SHIFT HW) = field_mask (STORE_WORD_WIDTH - 1) 1.
Proof. by destruct hw_fields as (_&_&_&_&_&_&_&_&_&_&_&->&_). Qed.

Lemma ClearChildishFlag_field h :
  ClearChildishFlag h = field_set h (STORE_WORD_WIDTH - 1) 1 0.
Proof.
  unfold ClearChildishFlag, field_set. by rewrite childish_bit, Z.shiftl_0_l, Z.lor_0_r.
Qed.

Lemma SetChildishFlag_field h :
  SetChildishFlag h = field_set h (STORE_WORD_WIDTH - 1) 1 1.
Proof.
  pose proof width_bounds. unfold SetChildishFlag, field_set. rewrite childish_bit.
  change (Z.shiftl 1 (STORE_WORD_WIDTH - 1)) with (field_mask (STORE_WORD_WIDTH - 1) 1).
  apply Z.bits_inj'. intros i Hi. rewrite !Z.lor_spec, Z.land_spec, Z.lnot_spec by lia.
  destruct (Z.testbit h i), (Z.testbit (field_mask _ _) i); done.
Qed.

End HeaderOp.

#[global] Arguments EncodeHeader : simpl never.
#[global] Arguments DecodeSize : simpl never.
#[global] Arguments TranslateSize : simpl never.

Create Rewrite HintDb header.
#[export] Hint Rewrite @DecodeLabel_field @DecodeMutableFlag_field @DecodeGen_field
  @IsChildish_field @EncodeLabel_field @EncodeMutableFlag_field @EncodeSize_field
  @EncodeGen_field @ClearChildishFlag_field @SetChildishFlag_field @DecodeSize_field : header.

Section HeaderFacts.
Context `{Platform}.

(** The fields of a header. *)
Record fields := Fields {
  f_gen : Z; f_big : Z; f_size : Z; f_label : Z; f_mutable : Z; f_childish : Z
}.

Definition fields_of (h : Z) : fields :=
  {| f_gen := field_get h 0 2;
     f_big := field_get h 2 1;
     f_size := field_get h 3 (STORE_WORD_WIDTH - 12);
     f_label := field_get h (STORE_WORD_WIDTH - 9) 7;
     f_mutable := field_get h (STORE_WORD_WIDTH - 2) 1;
     f_childish := field_get h (STORE_WORD_WIDTH - 1) 1 |}.

Lemma size_field_big : 2 ^ 20 <= 2 ^ (STORE_WORD_WIDTH - 12).
Proof. apply Z.pow_le_mono_r; [lia |]. pose proof width_bounds. lia. Qed.

Lemma fields_lor a b :
  fields_of (Z.lor a b) =
    Fields (Z.lor (f_gen (fields_of a)) (f_gen (fields_of b)))
           (Z.lor (f_big (fields_of a)) (f_big (fields_of b)))
           (Z.lor (f_size (fields_of a)) (f_size (fields_of b)))
           (Z.lor (f_label (fields_of a)) (f_label (fields_of b)))
           (Z.lor (f_mutable (fields_of a)) (f_mutable (fields_of b)))
           (Z.lor (f_childish (fields_of a)) (f_childish (fields_of b))).
Proof.
  pose proof width_bounds. unfold fields_of; simpl. by rewrite !field_get_lor_low by lia.
Qed.

(** The fields of a value shifted to one field's position. *)
Lemma fields_gen v : 0 <= v < 4 -> fields_of (Z.shiftl v 0) = Fields v 0 0 0 0 0.
Proof.
  pose proof width_bounds. intros Hv. unfold fields_of.
  rewrite field_get_shiftl_same by lia.
  by rewrite !(field_get_shiftl_other v 0 2) by lia.
Qed.

Lemma fields_big v : 0 <= v < 2 -> fields_of (Z.shiftl v 2) = Fields 0 v 0 0 0 0.
Proof.
  pose proof width_bounds. intros Hv. unfold fields_of.
  rewrite (field_get_shiftl_same v 2 1) by lia.
  by rewrite !(field_get_shiftl_other v 2 1) by lia.
Qed.

Lemma fields_size v :
  0 <= v < 2 ^ (STORE_WORD_WIDTH - 12) -> fields_of (Z.shiftl v 3) = Fields 0 0 v 0 0 0.
Proof.
  pose proof width_bounds. intros Hv. unfold fields_of.
  rewrite (field_get_shiftl_same v 3) by lia.
  by rewrite !(field_get_shiftl_other v 3 (STORE_WORD_WIDTH - 12)) by lia.
Qed.

Lemma fields_label v :
  0 <= v < 128 -> fields_of (Z.shiftl v (STORE_WORD_WIDTH - 9)) = Fields 0 0 0 v 0 0.
Proof.
  pose proof width_bounds. intros Hv. unfold fields_of.
  rewrite (field_get_shiftl_same v (STORE_WORD_WIDTH - 9)) by lia.
  by rewrite !(field_get_shiftl_other v (STORE_WORD_WIDTH - 9) 7) by lia.
Qed.

Lemma fields_mutable v :
  0 <= v < 2 -> fields_of (Z.shiftl v (STORE_WORD_WIDTH - 2)) = Fields 0 0 0 0 v 0.
Proof.
  pose proof width_bounds. intros Hv. unfold fields_of.
  rewrite (field_get_shiftl_same v (STORE_WORD_WIDTH - 2)) by lia.
  by rewrite !(field_get_shiftl_other v (STORE_WORD_WIDTH - 2) 1) by lia.
Qed.

(** All the fields of a new header at once. *)
Lemma EncodeHeader_fields l s gen m :
  0 <= l < 128 -> 0 <= s <= hw_MAX_BIGBLOCKSIZE HW -> 0 <= gen < 3 -> 0 <= m < 2 ->
  fields_of (EncodeHeader l s gen m) =
    if hw_MAX_BLOCKSIZE HW <? s then Fields (gen + 1) 1 (s / 16) l m 0
    else Fields (gen + 1) 0 s l m 0.
Proof.
  intros Hl Hs Hg Hm. unfold EncodeHeader.
  pose proof size_field_big. destruct hw_fields as (_&_&_&_&_&E4&->&->&->&->&->&_&->&Eb&_).
  rewrite Eb in Hs. rewrite E4. destruct (Z.ltb_spec 1048575 s).
  - rewrite Z.shiftr_div_pow2 by lia. change (2 ^ 4) with 16.
    assert (0 <= s / 16 < 2 ^ 20)
      by (split; [apply Z.div_pos; lia | apply Z.div_lt_upper_bound; lia]).
    rewrite !fields_lor, fields_gen, fields_big, fields_size, fields_label, fields_mutable by lia.
    simpl. by rewrite !Z.lor_0_r.
  - rewrite !fields_lor, fields_gen, fields_size, fields_label, fields_mutable by lia.
    simpl. by rewrite !Z.lor_0_r.
Qed.

(** The decoded size in terms of the fields. *)
Lemma DecodeSize_fields h :
  DecodeSize h = u_int (f_size (fields_of h) * 2 ^ (4 * f_big (fields_of h))).
Proof. apply DecodeSize_field. Qed.

Lemma TranslateSize_bounds s :
  0 <= s <= hw_MAX_BIGBLOCKSIZE HW ->
  s <= TranslateSize s < s + 16 /\ 0 <= TranslateSize s <= hw_MAX_BIGBLOCKSIZE HW.
Proof.
  unfold TranslateSize. destruct hw_fields as (_&_&_&_&_&->&_&_&_&_&_&_&->&->&->).
  intros Hs. destruct (Z.leb_spec s 1048575); [lia |].
  rewrite Z.shiftr_div_pow2, Z.shiftl_mul_pow2 by lia. change (2 ^ 4) with 16.
  pose proof (Z.div_mod (s + 16 - 1) 16). pose proof (Z.mod_pos_bound (s + 16 - 1) 16).
  assert ((s + 16 - 1) / 16 < 1048576) by (apply Z.div_lt_upper_bound; lia). lia.
Qed.

Lemma TranslateSize_small s : s <= hw_MAX_BLOCKSIZE HW -> TranslateSize s = s.
Proof. unfold TranslateSize. destruct (Z.leb_spec s (hw_MAX_BLOCKSIZE HW)); lia. Qed.

Lemma TranslateSize_big s :
  hw_MAX_BLOCKSIZE HW < s <= hw_MAX_BIGBLOCKSIZE HW -> TranslateSize s mod 16 = 0.
Proof.
  unfold TranslateSize. destruct hw_fields as (_&_&_&_&_&->&_&_&_&_&_&_&->&->&->).
  intros Hs. destruct (Z.leb_spec s 1048575); [lia |].
  rewrite Z.shiftl_mul_pow2 by lia. change (2 ^ 4) with 16. apply Z.mod_mul. lia.
Qed.

(** Decoding the size of a new header whose size was translated. *)
Lemma TranslateSize_idem s : 0 <= s <= hw_MAX_BIGBLOCKSIZE HW -> TranslateSize (TranslateSize s) = TranslateSize s.
Proof.
  intros Hs. destruct (decide (s <= hw_MAX_BLOCKSIZE HW)) as [Hle | Hgt]; [by rewrite !(TranslateSize_small s) by done |].
  pose proof (TranslateSize_bounds s Hs) as [Hb1 Hb2]. pose proof (TranslateSize_big s ltac:(lia)) as Hm.
  unfold TranslateSize at 1. destruct (Z.leb_spec (TranslateSize s) (hw_MAX_BLOCKSIZE HW)); [lia |].
  destruct hw_fields as (_&_&_&_&_&->&_&_&_&_&_&_&_&_&->). change 4 with (Z.of_nat 4).
  rewrite Z.shiftl_mul_pow2, Z.shiftr_div_pow2 by lia. change (2 ^ Z.of_nat 4) with 16. Z.div_mod_to_equations. lia.
Qed.

Lemma DecodeSize_EncodeHeader l s gen m :
  0 <= l < 128 -> 0 <= s <= hw_MAX_BIGBLOCKSIZE HW -> 0 <= gen < 3 -> 0 <= m < 2 ->
  DecodeSize (EncodeHeader l (TranslateSize s) gen m) = TranslateSize s.
Proof.
  intros Hl Hs Hg Hm. pose proof (TranslateSize_bounds s Hs) as [_ Ht].
  rewrite DecodeSize_fields, EncodeHeader_fields by done.
  pose proof hw_fields as (_&_&_&_&_&E4&_&_&_&_&_&_&Em&Eb&Emin).
  rewrite Em. rewrite Eb in Ht.
  destruct (Z.ltb_spec 1048575 (TranslateSize s)) as [Hbig | Hsmall]; simpl f_size; simpl f_big.
  - assert (Hdiv : TranslateSize s mod 16 = 0).
    { unfold TranslateSize in *. rewrite Em, E4 in *.
      destruct (Z.leb_spec s 1048575); [lia |].
      rewrite Z.shiftl_mul_pow2 by lia. apply Z.mod_mul. lia. }
    change (2 ^ (4 * 1)) with 16. pose proof (Z.div_mod (TranslateSize s) 16).
    rewrite u_int_id32; lia.
  - rewrite u_int_id32; lia.
Qed.

End HeaderFacts.

(** ** Properties *)

(** Round trip of header creation: every field a new header is given reads
    back unchanged; the size a block reports is the translated size, never
    smaller than the requested one and at most 15 words larger; the header is
    not mistaken for a forward pointer and is not childish. *)
Theorem header_roundtrip `{Platform} (l s gen m : Z) :
  0 <= l <= hw_MAX_TAGSIZE HW -> 0 <= s <= hw_MAX_BIGBLOCKSIZE HW -> 0 <= gen <= STORE_GEN_OLDEST ->
  0 <= m <= 1 ->
  let h := EncodeHeader l (TranslateSize s) gen m in
  DecodeLabel h = l /\ DecodeGeneration h = gen /\ DecodeMutableFlag h = m /\
  IsChildish h = false /\ AlreadyMoved h = false /\
  DecodeSize h = TranslateSize s /\ s <= DecodeSize h < s + 16.
Proof.
  intros Hl Hs Hg Hm h. subst h.
  change (hw_MAX_TAGSIZE HW) with 127 in Hl. change STORE_GEN_OLDEST with 2 in Hg.
  pose proof (TranslateSize_bounds s Hs) as [Hle Ht].
  pose proof (EncodeHeader_fields l (TranslateSize s) gen m) as Hf.
  specialize (Hf ltac:(lia) Ht ltac:(lia) ltac:(lia)).
  pose proof (f_equal f_label Hf) as Elab. pose proof (f_equal f_gen Hf) as Egen.
  pose proof (f_equal f_mutable Hf) as Emut. pose proof (f_equal f_childish Hf) as Ech.
  unfold DecodeGeneration, AlreadyMoved.
  change (Z.shiftr (Z.land ?h (hw_GEN_GC_MASK HW)) (hw_GEN_GC_SHIFT HW)) with (DecodeGen h).
  rewrite DecodeLabel_field, DecodeMutableFlag_field, IsChildish_field, DecodeGen_field.
  rewrite DecodeSize_EncodeHeader by lia.
  simpl f_label in Elab. simpl f_gen in Egen. simpl f_mutable in Emut. simpl f_childish in Ech.
  rewrite Elab, Egen, Emut, Ech.
  destruct (_ <? _); simpl;
    rewrite Z.add_simpl_r, u_int_id32 by lia; repeat split; lia.
Qed.

Lemma header_roundtrip_witness :
  DecodeSize (H := P32) (EncodeHeader (H := P32) 104 (TranslateSize (H := P32) 1048577) 2 1) = 1048592.
Proof.
  exact (proj1 (proj2 (proj2 (proj2 (proj2 (proj2
    (@header_roundtrip P32 104 1048577 2 1
       ltac:(vm_compute; split; discriminate) ltac:(vm_compute; split; discriminate)
       ltac:(vm_compute; split; discriminate) ltac:(lia)))))))).
Defined.

(** Header updates are independent: changing the label, the mutable flag,
    the generation or the childish flag of any header changes that field and
    no other. *)
Theorem header_updates_independent `{Platform} (h l f gen : Z) :
  0 <= l <= hw_MAX_TAGSIZE HW -> 0 <= f <= 1 -> 0 <= gen <= STORE_GEN_OLDEST ->
  let '(Fields g b s lab m c) := fields_of h in
  fields_of (EncodeLabel h l) = Fields g b s l m c /\
  fields_of (EncodeMutableFlag h f) = Fields g b s lab f c /\
  fields_of (EncodeGen h gen) = Fields (gen + 1) b s lab m c /\
  fields_of (SetChildishFlag h) = Fields g b s lab m 1 /\
  fields_of (ClearChildishFlag h) = Fields g b s lab m 0.
Proof.
  change (hw_MAX_TAGSIZE HW) with 127. change STORE_GEN_OLDEST with 2.
  intros Hl Hf Hg. pose proof width_bounds. unfold fields_of. autorewrite with header.
  repeat split; (f_equal;
    first [apply field_get_set_same; lia | apply field_get_set_other; lia]).
Qed.

Lemma header_updates_independent_witness :
  fields_of (H := P64) (EncodeLabel (H := P64) (EncodeHeader (H := P64) 1 5 0 1) 122)
    = Fields 1 0 5 122 1 0.
Proof.
  exact (proj1 (@header_updates_independent P64 (EncodeHeader (H := P64) 1 5 0 1) 122 0 0
    ltac:(vm_compute; split; discriminate) ltac:(lia) ltac:(vm_compute; split; discriminate))).
Defined.

(** C39. Shrinking a block with [EncodeSize] is exact for a block allocated with
    at most [MAX_BLOCKSIZE] words; for a larger (size-shifted) block the flag
    stays set and the block then reports sixteen times the size written. *)
Theorem EncodeSize_decodes `{Platform} (l s gen m n : Z) :
  0 <= l <= hw_MAX_TAGSIZE HW -> 0 <= s <= hw_MAX_BIGBLOCKSIZE HW -> 0 <= gen <= STORE_GEN_OLDEST ->
  0 <= m <= 1 -> 0 <= n <= hw_MAX_BLOCKSIZE HW ->
  DecodeSize (EncodeSize (EncodeHeader l (TranslateSize s) gen m) n) =
    if TranslateSize s <=? hw_MAX_BLOCKSIZE HW then n else 16 * n.
Proof.
  change (hw_MAX_TAGSIZE HW) with 127. change STORE_GEN_OLDEST with 2.
  intros Hl Hs Hg Hm Hn. pose proof width_bounds. pose proof size_field_big.
  pose proof (TranslateSize_bounds s Hs) as [_ Ht].
  pose proof (EncodeHeader_fields l (TranslateSize s) gen m ltac:(lia) Ht ltac:(lia) ltac:(lia)) as Hf.
  pose proof (f_equal f_big Hf) as Ebig. simpl f_big in Ebig.
  rewrite DecodeSize_field, EncodeSize_field. destruct hw_fields as (_&_&_&_&_&_&_&_&_&_&_&_&Em&_&_).
  rewrite Em in *. rewrite field_get_set_same, field_get_set_other, Ebig by lia.
  destruct (Z.leb_spec (TranslateSize s) 1048575), (Z.ltb_spec 1048575 (TranslateSize s));
    try lia; simpl f_big; change (2 ^ (4 * 1)) with 16; change (2 ^ (4 * 0)) with 1;
    rewrite u_int_id32; lia.
Qed.

Lemma EncodeSize_decodes_witness :
  DecodeSize (H := P32) (EncodeSize (H := P32) (EncodeHeader (H := P32) 0
    (TranslateSize (H := P32) 2000000) 0 1) 100) = 1600.
Proof.
  exact (@EncodeSize_decodes P32 0 2000000 0 1 100
    ltac:(vm_compute; split; discriminate) ltac:(vm_compute; split; discriminate)
    ltac:(vm_compute; split; discriminate) ltac:(lia) ltac:(vm_compute; split; discriminate)).
Defined.
