(* ===== verification/PointerOp.v ===== *)
(** * Tagged words (seam/store/PointerOp.hh, Types.hh, conversions of Store.hh)

    A word is an integer, a block pointer or a transient pointer, told apart by
    its two low bits.  Words are machine words: [Z] in [0 .. 2^w). *)

From S2P Require Import Prelude Config HeaderOp.

(** ** Pointer tags and masks *)

Definition EMPTYTAG : Z := 0.
Definition BLKTAG : Z := 0.
Definition INTTAG : Z := 1.
Definition TRTAG : Z := 2.
Definition INTMASK : Z := 1.
Definition TAGMASK : Z := 3.
Definition INVALID_POINTER : Z := 0.
Definition INT_PRECISION : Z := 31.
Definition MIN_VALID_INT : Z := - Z.shiftl 1 (INT_PRECISION - 1).
Definition MAX_VALID_INT : Z := Z.shiftl 1 (INT_PRECISION - 1) - 1.

Section PointerOp.
Context `{Platform}.

Definition INVALID_INT : Z := s_int (Z.shiftl 1 (STORE_WORD_WIDTH - 1)).

(** ** Core tag operations *)

Definition EncodeTag (p tag : Z) : Z := Z.lor p tag.
Definition DecodeTag (p : Z) : Z := Z.land p TAGMASK.
Definition RemoveTag (p : Z) : Z := Z.land p (Z.lnot TAGMASK).

(** ** Blocks and transients *)

Definition EncodeBlock (p : Z) : Z := Z.lor p BLKTAG.
Definition DirectDecodeBlock (p : Z) : Z := u_int (p - BLKTAG).
Definition DecodeBlock (p : Z) : Z :=
  if Z.land p TAGMASK =? BLKTAG then DirectDecodeBlock p else INVALID_POINTER.

Definition EncodeTransient (p : Z) : Z := Z.lor p TRTAG.
Definition DirectDecodeTransient (p : Z) : Z := u_int (p - TRTAG).
Definition DecodeTransient (p : Z) : Z :=
  if Z.land p TAGMASK =? TRTAG then DirectDecodeTransient p else INVALID_POINTER.

(** ** Integers *)

Definition IsInt (v : Z) : bool := negb (Z.land v INTMASK =? 0).
Definition IsTransient (v : Z) : bool := Z.land v TAGMASK =? TRTAG.

Definition EncodeInt (v : Z) : Z := Z.lor (u_int (Z.shiftl (u_int v) 1)) INTTAG.

(** The sign bit is extended by hand: the top bit of the word is kept when the
    word is shifted right. *)
Definition DirectDecodeInt (v : Z) : Z :=
  s_int (if negb (Z.land v (Z.shiftl 1 (STORE_WORD_WIDTH - 1)) =? 0)
         then Z.lor (Z.shiftl 1 (STORE_WORD_WIDTH - 1)) (Z.shiftr v 1)
         else Z.shiftr v 1).

Definition DecodeInt (v : Z) : Z :=
  if Z.land v INTMASK =? INTTAG then DirectDecodeInt v else INVALID_INT.

Definition EncodeUnmanagedPointer (v : Z) : Z := Z.lor v INTTAG.
Definition DirectDecodeUnmanagedPointer (v : Z) : Z := Z.lxor v INTTAG.

(** ** Dereferencing

    [mem p] is the block at address [p]: its header and its arguments.  The
    loop follows reference transients; [fuel] bounds the number of links, and
    the result is [None] when the fuel runs out or memory is read that is not
    a block. *)
Definition memory := gmap Z (Z * list Z).

Fixpoint Deref (fuel : nat) (mem : memory) (v : Z) : option Z :=
  match fuel with
  | O => None
  | S fuel =>
      if Z.land (Z.lxor v TRTAG) TAGMASK =? 0 then
        let vi := Z.lxor v TRTAG in
        '(h, args) ← mem !! vi;
        if DecodeLabel h =? REF_LABEL then v' ← aget args 0; Deref fuel mem v'
        else Some v
      else Some v
  end.

(** ** Conversions of Store.hh *)

Definition IntToWord (v : Z) : Z := EncodeInt v.
Definition DirectWordToInt (x : Z) : Z := DirectDecodeInt x.
Definition WordToInt (fuel : nat) (mem : memory) (v : Z) : option Z :=
  d ← Deref fuel mem v; Some (DecodeInt d).
Definition WordToBlock (fuel : nat) (mem : memory) (v : Z) : option Z :=
  d ← Deref fuel mem v; Some (DecodeBlock d).
Definition WordToTransient (fuel : nat) (mem : memory) (v : Z) : option Z :=
  d ← Deref fuel mem v; Some (DecodeTransient d).

(** ** Lemmas *)

Lemma tag_mod p : Z.land p TAGMASK = p mod 4.
Proof. apply (land_low p 2). lia. Qed.

Lemma IsInt_odd v : IsInt v = Z.odd v.
Proof.
  unfold IsInt. change INTMASK with (2 ^ 1 - 1). rewrite land_low by lia.
  change (2 ^ 1) with 2. rewrite Zmod_odd. by destruct (Z.odd v).
Qed.

Lemma EncodeBlock_id p : EncodeBlock p = p.
Proof. apply Z.lor_0_r. Qed.

Lemma EncodeTransient_add p : p mod 4 = 0 -> EncodeTransient p = p + 2.
Proof. intros E. apply (lor_low p 2 2); [lia | done | lia]. Qed.

Lemma RemoveTag_mod p : RemoveTag p = p - p mod 4.
Proof. apply (clear_low p 2). lia. Qed.

(** An encoded integer as arithmetic. *)
Lemma EncodeInt_arith v : EncodeInt v = (2 * v) mod 2 ^ STORE_WORD_WIDTH + 1.
Proof.
  pose proof width_bounds. unfold EncodeInt, u_int, INTTAG.
  rewrite Z.shiftl_mul_pow2 by lia. change (2 ^ 1) with 2.
  rewrite Z.mul_mod_idemp_l by (apply Z.pow_nonzero; lia). rewrite (Z.mul_comm v 2).
  replace STORE_WORD_WIDTH with (Z.succ (STORE_WORD_WIDTH - 1)) by lia.
  rewrite Z.pow_succ_r, Z.mul_mod_distr_l by (try apply Z.pow_nonzero; lia).
  apply (lor_low _ 1 1); [lia | | lia]. change (2 ^ 1) with 2.
  rewrite Z.mul_comm. apply Z.mod_mul. lia.
Qed.

Lemma EncodeInt_odd v : Z.odd (EncodeInt v) = true.
Proof.
  pose proof width_bounds. rewrite EncodeInt_arith.
  replace STORE_WORD_WIDTH with (Z.succ (STORE_WORD_WIDTH - 1)) by lia.
  rewrite Z.pow_succ_r, Z.mul_mod_distr_l by (try apply Z.pow_nonzero; lia).
  rewrite Z.add_1_r, Z.odd_succ, Z.even_mul. done.
Qed.

Lemma EncodeInt_shape v : exists x, EncodeInt v = 2 * x + 1.
Proof.
  pose proof (EncodeInt_odd v) as [x Hx]%Z.odd_spec. by exists x.
Qed.

Lemma EncodeInt_range v : 0 <= EncodeInt v < 2 ^ STORE_WORD_WIDTH.
Proof.
  pose proof width_bounds as Hw. rewrite EncodeInt_arith.
  replace STORE_WORD_WIDTH with (Z.succ (STORE_WORD_WIDTH - 1)) by lia.
  rewrite Z.pow_succ_r, Z.mul_mod_distr_l by (try apply Z.pow_nonzero; lia).
  pose proof (Z.mod_pos_bound v (2 ^ (STORE_WORD_WIDTH - 1))).
  assert (0 < 2 ^ (STORE_WORD_WIDTH - 1)) by (apply Z.pow_pos_nonneg; lia). lia.
Qed.

Lemma DirectDecode_EncodeInt v :
  - 2 ^ (STORE_WORD_WIDTH - 2) <= v < 2 ^ (STORE_WORD_WIDTH - 2) ->
  DirectDecodeInt (EncodeInt v) = v.
Proof.
  pose proof width_bounds as Hw. intros Hv.
  assert (E1 : 2 ^ STORE_WORD_WIDTH = 4 * 2 ^ (STORE_WORD_WIDTH - 2))
    by (change 4 with (2 ^ 2); rewrite <- Z.pow_add_r by lia; f_equal; lia).
  assert (E2 : 2 ^ (STORE_WORD_WIDTH - 1) = 2 * 2 ^ (STORE_WORD_WIDTH - 2))
    by (rewrite <- Z.pow_succ_r by lia; f_equal; lia).
  assert (Hp : 0 < 2 ^ (STORE_WORD_WIDTH - 2)) by (apply Z.pow_pos_nonneg; lia).
  assert (Hval : EncodeInt v = 2 * (if v <? 0 then v + 2 ^ (STORE_WORD_WIDTH - 1) else v) + 1).
  { rewrite EncodeInt_arith. destruct (Z.ltb_spec v 0).
    - rewrite <- (Z.mod_add (2 * v) 1), Z.mod_small by lia. lia.
    - rewrite Z.mod_small by lia. lia. }
  assert (Hshift : Z.shiftr (EncodeInt v) 1 = if v <? 0 then v + 2 ^ (STORE_WORD_WIDTH - 1) else v).
  { rewrite Z.shiftr_div_pow2 by lia. change (2 ^ 1) with 2. rewrite Hval.
    symmetry. apply (Z.div_unique _ _ _ 1); lia. }
  assert (Hr : 0 <= EncodeInt v < 2 ^ STORE_WORD_WIDTH) by (rewrite Hval; case_Zb; lia).
  assert (Htop := fun Hw0 => top_bit (EncodeInt v) STORE_WORD_WIDTH Hw0 Hr).
  specialize (Htop ltac:(lia)).
  unfold DirectDecodeInt. rewrite Hshift.
  destruct (Z.eqb_spec (Z.land (EncodeInt v) (Z.shiftl 1 (STORE_WORD_WIDTH - 1))) 0);
    destruct (Z.ltb_spec v 0); try lia; cbn [negb].
  - by apply s_int_id; lia.
  - rewrite Z.shiftl_mul_pow2, Z.mul_1_l by lia.
    rewrite (lor_low _ _ (STORE_WORD_WIDTH - 1)) by (rewrite ?Z_mod_same_full; lia).
    replace (2 ^ (STORE_WORD_WIDTH - 1) + (v + 2 ^ (STORE_WORD_WIDTH - 1)))
      with (v + 2 ^ STORE_WORD_WIDTH) by lia.
    rewrite s_int_shift. apply s_int_id. lia.
Qed.

Lemma valid_int_bound v :
  MIN_VALID_INT <= v <= MAX_VALID_INT ->
  - 2 ^ (STORE_WORD_WIDTH - 2) <= v < 2 ^ (STORE_WORD_WIDTH - 2).
Proof.
  change MIN_VALID_INT with (- 2 ^ 30). change MAX_VALID_INT with (2 ^ 30 - 1).
  pose proof (Z.pow_le_mono_r 2 30 (STORE_WORD_WIDTH - 2)). pose proof width_bounds. lia.
Qed.

Lemma INVALID_INT_value : INVALID_INT = - 2 ^ (STORE_WORD_WIDTH - 1).
Proof.
  unfold INVALID_INT, s_int, u_int, STORE_WORD_WIDTH. destruct MIN_WIDTH_cases as [-> | ->]; done. Qed.

(** ** Reference chains *)

(** The transient at [p] is a reference to [v]. *)
Definition ref_link (mem : memory) (p v : Z) : Prop :=
  exists h args, mem !! p = Some (h, args) /\ DecodeLabel h = REF_LABEL /\ aget args 0 = Some v.

(** The word is where dereferencing stops: no transient, or a transient of
    memory that is not a reference. *)
Definition deref_stop (mem : memory) (v : Z) : Prop :=
  Z.land (Z.lxor v TRTAG) TAGMASK <> 0 \/
  exists h args, mem !! Z.lxor v TRTAG = Some (h, args) /\ DecodeLabel h <> REF_LABEL.

(** A reference chain of [n] links. *)
Fixpoint ref_chain (mem : memory) (n : nat) (v v' : Z) : Prop :=
  match n with
  | O => v = v'
  | S n => Z.land (Z.lxor v TRTAG) TAGMASK = 0 /\ exists u, ref_link mem (Z.lxor v TRTAG) u /\ ref_chain mem n u v'
  end.

Lemma Deref_chain mem n v v' :
  ref_chain mem n v v' -> forall fuel, Deref (n + fuel) mem v = Deref fuel mem v'.
Proof.
  revert v. induction n as [| n IH]; intros v; simpl; [by intros -> |].
  intros (Htag & u & (h & args & Hm & Hl & Ha) & Hc) fuel.
  rewrite Htag. simpl. rewrite Hm. simpl. rewrite Hl, Z.eqb_refl, Ha. simpl. by apply IH.
Qed.

Lemma Deref_short mem n v v' fuel :
  ref_chain mem n v v' -> (fuel <= n)%nat -> Deref fuel mem v = None.
Proof.
  revert v fuel. induction n as [| n IHn]; intros v fuel Hc Hf.
  - by replace fuel with O by lia.
  - destruct fuel as [| fuel]; [done |]. simpl in Hc |- *.
    destruct Hc as (Ht & u & (h & args & Hm & Hl & Ha) & Hc). rewrite Ht. simpl.
    rewrite Hm. simpl. rewrite Hl, Z.eqb_refl, Ha. simpl. apply (IHn u); [done | lia].
Qed.

End PointerOp.

(** ** Properties *)

(** Every integer in the valid range survives the round trip through a
    tagged word on both platforms, decodes as an integer and never as the
    invalid marker, and is not mistaken for a transient. *)
Theorem int_word_roundtrip `{Platform} (v : Z) :
  MIN_VALID_INT <= v <= MAX_VALID_INT ->
  let w := IntToWord v in
  0 <= w < 2 ^ STORE_WORD_WIDTH /\ IsInt w = true /\ IsTransient w = false /\
  DirectWordToInt w = v /\ DecodeInt w = v /\ v <> INVALID_INT /\
  DecodeBlock w = INVALID_POINTER /\ DecodeTransient w = INVALID_POINTER.
Proof.
  intros Hv w. subst w. unfold IntToWord, DirectWordToInt, IsTransient.
  pose proof (valid_int_bound v Hv) as Hb. pose proof (EncodeInt_shape v) as [x Hx].
  unfold DecodeInt, DecodeBlock, DecodeTransient. rewrite !tag_mod.
  change INTMASK with (2 ^ 1 - 1). rewrite land_low, IsInt_odd, EncodeInt_odd by lia.
  rewrite DirectDecode_EncodeInt by done.
  assert (E1 : EncodeInt v mod 2 ^ 1 = 1) by (rewrite Hx; change (2 ^ 1) with 2; Z.div_mod_to_equations; lia).
  assert (E2 : EncodeInt v mod 4 <> 0 /\ EncodeInt v mod 4 <> 2) by (rewrite Hx; Z.div_mod_to_equations; lia).
  destruct E2 as [E20 E22]. rewrite E1. unfold BLKTAG, TRTAG. simpl.
  apply Z.eqb_neq in E20 as ->. apply Z.eqb_neq in E22 as ->.
  pose proof (EncodeInt_range v). pose proof width_bounds.
  assert (v <> INVALID_INT); [| split_and!; done || lia].
  rewrite INVALID_INT_value. change MIN_VALID_INT with (- 2 ^ 30) in Hv.
  pose proof (Z.pow_le_mono_r 2 31 (STORE_WORD_WIDTH - 1)). lia.
Qed.

Lemma int_word_roundtrip_witness : DirectWordToInt (H := P32) (IntToWord (H := P32) (-1073741824)) = -1073741824.
Proof.
  exact (proj1 (proj2 (proj2 (proj2
    (@int_word_roundtrip P32 (-1073741824) ltac:(vm_compute; split; discriminate)))))).
Defined.

(** Tagging is unambiguous for every word-aligned address: a block word and
    a transient word each decode to their address with their own decoder, to
    the invalid pointer with the other, and neither is an integer; removing the
    tag gives back the address. *)
Theorem pointer_tags_unambiguous `{Platform} (p : Z) :
  0 < p < 2 ^ STORE_WORD_WIDTH -> p mod 4 = 0 ->
  let b := EncodeBlock p in let t := EncodeTransient p in
  DecodeBlock b = p /\ DecodeTransient b = INVALID_POINTER /\
  DecodeTransient t = p /\ DecodeBlock t = INVALID_POINTER /\
  IsInt b = false /\ IsInt t = false /\ IsTransient b = false /\ IsTransient t = true /\
  RemoveTag b = p /\ RemoveTag t = p /\
  EncodeTag p (DecodeTag b) = b /\ EncodeTag p (DecodeTag t) = t.
Proof.
  intros Hp Ha b t. subst b t. unfold DecodeTag, IsTransient, DecodeBlock, DecodeTransient, EncodeTag.
  rewrite EncodeBlock_id, EncodeTransient_add, !IsInt_odd, !RemoveTag_mod, !tag_mod by done.
  assert (E2 : (p + 2) mod 4 = 2) by (Z.div_mod_to_equations; lia).
  rewrite Ha, E2. simpl. unfold DirectDecodeBlock, DirectDecodeTransient, BLKTAG, TRTAG.
  replace (p + 2 - 2) with p by lia. rewrite !Z.sub_0_r, u_int_id by lia.
  rewrite (lor_low p 2 2), Z.lor_0_r by (done || lia).
  assert (Ho : Z.odd p = false).
  { pose proof (Zmod_odd p) as Eo. destruct (Z.odd p); [| done].
    exfalso. revert Eo Ha. Z.div_mod_to_equations. lia. }
  replace (Z.odd (p + 2)) with false by (rewrite Z.odd_add, Ho; done).
  split_and!; done || lia.
Qed.

Lemma pointer_tags_unambiguous_witness : DecodeTransient (H := P64) (EncodeTransient 4096) = 4096.
Proof.
  exact (proj1 (proj2 (proj2 (@pointer_tags_unambiguous P64 4096
    ltac:(vm_compute; split; reflexivity) eq_refl)))).
Defined.

(** Dereferencing terminates exactly on finite reference chains: a chain of
    [n] references to a word that is no reference yields that word with any
    larger fuel (and needs it), while on a chain that runs back into itself the
    loop never returns. *)
Theorem Deref_terminates `{Platform} (mem : memory) (n : nat) (v v' : Z) :
  ref_chain mem n v v' ->
  (deref_stop mem v' -> forall fuel, Deref fuel mem v = if decide (n < fuel)%nat then Some v' else None) /\
  ((0 < n)%nat -> v' = v -> forall fuel, Deref fuel mem v = None).
Proof.
  intros Hc. split.
  - intros Hstop fuel. case_decide as Hf; [| apply (Deref_short _ n _ _ _ Hc); lia].
    replace fuel with (n + S (fuel - n - 1))%nat by lia.
    rewrite (Deref_chain _ _ _ _ Hc). simpl.
    destruct (Z.eqb_spec (Z.land (Z.lxor v' TRTAG) TAGMASK) 0) as [Ht | ]; [| done].
    destruct Hstop as [| (h & args & Hm & Hl)]; [done |]. rewrite Hm. simpl.
    by apply Z.eqb_neq in Hl as ->.
  - intros Hn -> fuel. induction fuel as [fuel IH] using (well_founded_induction lt_wf).
    destruct (decide (fuel < n)%nat) as [Hlt | Hge].
    + apply (Deref_short _ n _ _ _ Hc). lia.
    + replace fuel with (n + (fuel - n))%nat by lia. rewrite (Deref_chain _ _ _ _ Hc).
      apply IH. lia.
Qed.

Definition deref_example_mem : memory :=
  <[ 4096 := (EncodeHeader (H := P32) REF_LABEL 1 0 1, [8194]) ]>
  (<[ 8192 := (EncodeHeader (H := P32) REF_LABEL 1 0 1, [17]) ]> ∅).

Lemma Deref_terminates_witness : Deref (H := P32) 3 deref_example_mem 4098 = Some 17.
Proof.
  refine (proj1 (Deref_terminates (H := P32) deref_example_mem 2 4098 17 _) _ 3%nat).
  - split; [reflexivity |]. exists 8194. split.
    + exists (EncodeHeader (H := P32) REF_LABEL 1 0 1), [8194]. by vm_compute.
    + split; [reflexivity |]. exists 17. split; [| reflexivity].
      exists (EncodeHeader (H := P32) REF_LABEL 1 0 1), [17]. by vm_compute.
  - left. by vm_compute.
Defined.
