(* ===== verification/Block.v ===== *)
(** * Blocks, dynamic blocks and chunks (seam/store/Value.hh, Store.hh)

    A block is its header word and its arguments.  The argument type is a
    parameter: the components instantiate it with the words they store.  An
    access outside the block is [None].  A new block's arguments are the
    memory's previous contents, the parameter [undef]. *)

From S2P Require Import Prelude Config HeaderOp.

Record Block (A : Type) := mkBlock { b_header : Z; b_args : list A }.
Arguments mkBlock {A} _ _.
Arguments b_header {A} _.
Arguments b_args {A} _.

(** A dynamic block: its first argument is the number of active entries. *)
Record DynamicBlock (A : Type) := mkDynamicBlock {
  d_header : Z; d_active : Z; d_args : list A
}.
Arguments mkDynamicBlock {A} _ _ _.
Arguments d_header {A} _.
Arguments d_active {A} _.
Arguments d_args {A} _.

(** A chunk: its size in bytes and its bytes. *)
Record Chunk := mkChunk { c_header : Z; c_size : Z; c_bytes : list Z }.

Section Block.
Context `{Platform} {A : Type} (undef : A).
Implicit Types (b : Block A) (d : DynamicBlock A).

(** ** Allocation *)

Definition AllocBlock (l s : Z) : Block A :=
  {| b_header := EncodeHeader l (TranslateSize s) 0 0;
     b_args := replicate (Z.to_nat (TranslateSize s)) undef |}.

Definition AllocMutableBlock (l s : Z) : Block A :=
  let ret := AllocBlock l s in
  {| b_header := EncodeMutableFlag (b_header ret) 1; b_args := b_args ret |}.

Definition AllocDynamicBlock (size scan : Z) : DynamicBlock A :=
  {| d_header := EncodeMutableFlag (EncodeHeader DYNAMIC_LABEL (TranslateSize (size + 1)) 0 0) 1;
     d_active := scan;
     d_args := replicate (Z.to_nat (TranslateSize (size + 1) - 1)) undef |}.

(** ** Block *)

Definition GetLabel b : Z := DecodeLabel (b_header b).
Definition IsMutable b : Z := DecodeMutableFlag (b_header b).
Definition SetMutable b (flag : Z) : Block A :=
  {| b_header := EncodeMutableFlag (b_header b) flag; b_args := b_args b |}.
Definition GetSize b : Z := DecodeSize (b_header b).
Definition GetArg b (f : Z) : option A := aget (b_args b) f.
Definition InitArg b (f : Z) (v : A) : option (Block A) :=
  args ← aset (b_args b) f v; Some {| b_header := b_header b; b_args := args |}.

(** Shrinking a block in place: only the size field of the header changes.  A
    size larger than the block's memory is undefined. *)
Definition ShrinkBlock b (s : Z) : option (Block A) :=
  let h := EncodeSize (b_header b) s in
  if DecodeSize h <=? zlen (b_args b)
  then Some {| b_header := h; b_args := ztake (DecodeSize h) (b_args b) |}
  else None.

(** ** DynamicBlock *)

Definition DynamicBlock_GetSize d : Z := DecodeSize (d_header d) - 1.
Definition GetActiveSize d : Z := d_active d.
Definition GetScanSize d : Z := GetActiveSize d + 1.
Definition SetActiveSize d (size : Z) : DynamicBlock A :=
  {| d_header := d_header d; d_active := size; d_args := d_args d |}.
Definition DynamicBlock_GetArgUnchecked d (f : Z) : option A := aget (d_args d) f.
Definition DynamicBlock_GetArg d (f : Z) : option A :=
  if f <? GetActiveSize d then DynamicBlock_GetArgUnchecked d f else None.
Definition DynamicBlock_InitArg d (f : Z) (v : A) : option (DynamicBlock A) :=
  if f <? GetActiveSize d then
    args ← aset (d_args d) f v;
    Some {| d_header := d_header d; d_active := d_active d; d_args := args |}
  else None.

(** ** Well-formed blocks: the header's size is the size of the memory *)

Definition wf_block b : Prop := GetSize b = zlen (b_args b).
Definition wf_dynamic d : Prop :=
  DynamicBlock_GetSize d = zlen (d_args d) /\ 0 <= d_active d <= zlen (d_args d).

(** A block small enough not to use the size-shift flag. *)
Definition small_block b : Prop :=
  wf_block b /\ zlen (b_args b) <= hw_MAX_BLOCKSIZE HW /\
  f_big (fields_of (b_header b)) = 0.

Lemma mutable_header_size l s :
  0 <= l < 128 -> 0 <= s <= hw_MAX_BIGBLOCKSIZE HW ->
  DecodeSize (EncodeMutableFlag (EncodeHeader l (TranslateSize s) 0 0) 1) = TranslateSize s.
Proof.
  intros Hl Hs. rewrite <- (DecodeSize_EncodeHeader l s 0 0) at 2 by lia.
  pose proof width_bounds. rewrite !DecodeSize_field, EncodeMutableFlag_field.
  by rewrite !field_get_set_other by lia.
Qed.

Lemma AllocMutableBlock_size l s :
  0 <= l < 128 -> 0 <= s <= hw_MAX_BIGBLOCKSIZE HW ->
  GetSize (AllocMutableBlock l s) = TranslateSize s.
Proof. apply mutable_header_size. Qed.

Lemma AllocMutableBlock_zlen l s :
  0 <= s <= hw_MAX_BIGBLOCKSIZE HW -> zlen (b_args (AllocMutableBlock l s)) = TranslateSize s.
Proof.
  intros Hs. pose proof (TranslateSize_bounds s Hs). simpl. apply zlen_replicate. lia.
Qed.

Lemma AllocMutableBlock_wf l s :
  0 <= l < 128 -> 0 <= s <= hw_MAX_BIGBLOCKSIZE HW -> wf_block (AllocMutableBlock l s).
Proof.
  intros Hl Hs. unfold wf_block. by rewrite AllocMutableBlock_size, AllocMutableBlock_zlen.
Qed.

Lemma AllocMutableBlock_small l s :
  0 <= l < 128 -> 0 <= s <= hw_MAX_BLOCKSIZE HW -> small_block (AllocMutableBlock l s).
Proof.
  intros Hl Hs. pose proof hw_fields as (_&_&_&_&_&_&_&_&_&_&_&_&Em&Eb&_).
  assert (Hs' : 0 <= s <= hw_MAX_BIGBLOCKSIZE HW) by lia.
  split; [by apply AllocMutableBlock_wf |]. split.
  - rewrite AllocMutableBlock_zlen, TranslateSize_small by lia. lia.
  - pose proof (EncodeHeader_fields l (TranslateSize s) 0 0) as Hf.
    rewrite TranslateSize_small in Hf by lia.
    specialize (Hf ltac:(lia) ltac:(lia) ltac:(lia) ltac:(lia)).
    pose proof width_bounds. unfold fields_of; simpl f_big; simpl b_header.
    rewrite EncodeMutableFlag_field, field_get_set_other by lia.
    rewrite TranslateSize_small by lia. apply (f_equal f_big) in Hf. simpl in Hf.
    rewrite Hf. destruct (Z.ltb_spec (hw_MAX_BLOCKSIZE HW) s); [lia | done].
Qed.

Lemma InitArg_Some b f v :
  0 <= f < zlen (b_args b) ->
  InitArg b f v = Some {| b_header := b_header b; b_args := <[Z.to_nat f := v]> (b_args b) |}.
Proof. intros Hf. unfold InitArg. by rewrite aset_Some. Qed.

Lemma InitArg_inv b f v b' :
  InitArg b f v = Some b' -> b_header b' = b_header b /\ aset (b_args b) f v = Some (b_args b').
Proof. unfold InitArg. destruct (aset _ _ _); simpl; naive_solver. Qed.

Lemma ShrinkBlock_small b s :
  small_block b -> 0 <= s <= zlen (b_args b) ->
  exists h, ShrinkBlock b s = Some {| b_header := h; b_args := ztake s (b_args b) |} /\
            DecodeSize h = s /\ f_big (fields_of h) = 0.
Proof.
  intros (Hwf & Hmax & Hbig) Hs. pose proof width_bounds. pose proof size_field_big.
  pose proof hw_fields as (_&_&_&_&_&_&_&_&_&_&_&_&Em&_&_). rewrite Em in Hmax.
  unfold fields_of in Hbig; simpl in Hbig.
  assert (Hd : DecodeSize (EncodeSize (b_header b) s) = s).
  { rewrite DecodeSize_field, EncodeSize_field.
    rewrite field_get_set_same, field_get_set_other, Hbig by lia.
    change (2 ^ (4 * 0)) with 1. rewrite u_int_id32; lia. }
  unfold ShrinkBlock. rewrite Hd. destruct (Z.leb_spec s (zlen (b_args b))); [| lia].
  eexists. split; [done |]. split; [done |]. unfold fields_of; simpl.
  rewrite EncodeSize_field, field_get_set_other by lia. done.
Qed.

End Block.

Arguments GetSize {_ A} _ : simpl never.
Arguments AllocBlock {_ A} _ _ _ : simpl never.
Arguments AllocMutableBlock {_ A} _ _ _ : simpl never.
Arguments AllocDynamicBlock {_ A} _ _ _ : simpl never.

(** ** Chunks *)

Section Chunk.
Context `{Platform}.

(** Whether the compiler's [char] is signed. *)
Variable char_signed : bool.

Definition char_of (byte : Z) : Z :=
  if (char_signed && (128 <=? byte))%bool then byte - 256 else byte.

(** The words of a chunk of [s] bytes: the byte size and the data. *)
Definition chunk_words (s : Z) : Z := 1 + (s + MIN_WIDTH - 1) / MIN_WIDTH.

Definition AllocChunk (s : Z) (mem : list Z) : Chunk :=
  {| c_header := EncodeHeader CHUNK_LABEL (TranslateSize (chunk_words s)) 0 0;
     c_size := s; c_bytes := mem |}.

Definition AllocMutableChunk (s : Z) (mem : list Z) : Chunk :=
  let p := AllocChunk s mem in
  {| c_header := EncodeMutableFlag (c_header p) 1; c_size := c_size p; c_bytes := c_bytes p |}.

Definition Chunk_maxSize : Z := (hw_MAX_BIGBLOCKSIZE HW - 1) * MIN_WIDTH.

(** One step of the hash loop, in 32-bit [unsigned] arithmetic. *)
Definition hash_step (h byte : Z) : Z :=
  let h := (Z.shiftl h 4 + char_of byte) mod 2 ^ 32 in
  let g := Z.land h (Z.shiftl 15 28) in
  if g =? 0 then h else Z.lxor (Z.lxor h (Z.shiftr g 24)) g.

Definition Hash (c : Chunk) : Z := fold_left hash_step (ztake (c_size c) (c_bytes c)) 0.

(** ChunkMap.cc: the same function reduced to the table size. *)
Definition HashString (s : list Z) (size : Z) : Z := fold_left hash_step s 0 mod size.

Lemma hash_step_range h byte : 0 <= hash_step h byte < 2 ^ 28.
Proof.
  unfold hash_step. set (x := (Z.shiftl h 4 + char_of byte) mod 2 ^ 32).
  assert (Hx : 0 <= x < 2 ^ 32) by (apply Z.mod_pos_bound; lia).
  change (Z.shiftl 15 28) with (field_mask 28 4).
  assert (Hm : forall i, 28 <= i -> Z.testbit (Z.land x (field_mask 28 4)) i = Z.testbit x i).
  { intros i Hi. rewrite Z.land_spec, testbit_field_mask by lia.
    destruct (decide (i < 32)).
    - replace (28 <=? i) with true by (symmetry; apply Z.leb_le; lia).
      replace (i <? 28 + 4) with true by (symmetry; apply Z.ltb_lt; lia). by rewrite andb_true_r.
    - rewrite (testbit_small x 32) by lia. done. }
  destruct (Z.eqb_spec (Z.land x (field_mask 28 4)) 0) as [E | E].
  - apply testbit_bound; [lia | lia |]. intros i Hi. rewrite <- Hm, E by done. apply Z.bits_0.
  - assert (Hr : 0 <= Z.land x (field_mask 28 4) < 2 ^ 32).
    { apply testbit_bound; [lia | apply Z.land_nonneg; lia |]. intros i Hi.
      rewrite Z.land_spec, (testbit_small x 32) by lia. done. }
    apply testbit_bound; [lia | |].
    + apply Z.lxor_nonneg. split; intros; [lia |].
      apply Z.lxor_nonneg. split; intros; [apply Z.shiftr_nonneg; lia | lia].
    + intros i Hi. rewrite !Z.lxor_spec, Z.shiftr_spec, (Hm i), (Hm (i + 24)) by lia.
      rewrite (testbit_small x 32 (i + 24)) by lia. destruct (Z.testbit x i); done.
Qed.

Lemma hash_range s : 0 <= fold_left hash_step s 0 < 2 ^ 28.
Proof.
  destruct s as [| s b _] using rev_ind; [simpl; lia |].
  rewrite fold_left_app. apply hash_step_range.
Qed.

End Chunk.

(** ** Properties *)

(** A chunk's hash always fits in 28 bits, whatever the bytes and the sign
    of [char], so it is a valid integer word on every platform and the table
    index computed from it is in range. *)
Theorem chunk_hash_bounds (char_signed : bool) (c : Chunk) (size : Z) :
  0 < size ->
  0 <= Hash char_signed c < 2 ^ 28 /\ 0 <= HashString char_signed (c_bytes c) size < size /\
  (c_size c = zlen (c_bytes c) -> HashString char_signed (c_bytes c) size = Hash char_signed c mod size).
Proof.
  intros Hs. split; [apply hash_range |]. split; [apply Z.mod_pos_bound; lia |].
  intros E. unfold HashString, Hash. by rewrite ztake_all by lia.
Qed.

Lemma chunk_hash_bounds_witness :
  HashString true [65; 108; 105; 99; 101] 7 = Hash true {| c_header := 0; c_size := 5; c_bytes := [65; 108; 105; 99; 101] |} mod 7.
Proof.
  exact (proj2 (proj2 (chunk_hash_bounds true
    {| c_header := 0; c_size := 5; c_bytes := [65; 108; 105; 99; 101] |} 7 eq_refl)) eq_refl).
Defined.
