(* ===== verification/Heap.v ===== *)
(** * Memory chunks, heaps and the allocator
    (seam/store/Heap.cc, Heap.hh, StatusWord.hh, Store::Alloc of Store.hh)

    Addresses are integers.  [malloc] is the C library's allocator: given the
    live regions (start, size) and a size it returns the start of a new one. *)

From S2P Require Import Prelude Config HeaderOp PointerOp.

(** ** Data *)

(** [hc_block] is the address [malloc] returned. *)
Record HeapChunk := {
  hc_block : Z; hc_base : Z; hc_top : Z; hc_max : Z
}.

(** The chain of chunks, the current one first. *)
Record Heap := { h_chain : list HeapChunk; h_size : Z; h_limit : Z }.

Record Store := {
  st_roots : list Heap;
  st_total : Z;             (* Heap::total *)
  st_status : Z;            (* StatusWord::status *)
  st_signalLimit : Z;
  st_mem : gmap Z Z         (* the words of memory by address *)
}.

Definition set_top (c : HeapChunk) (p : Z) : HeapChunk :=
  {| hc_block := hc_block c; hc_base := hc_base c; hc_top := p; hc_max := hc_max c |}.

Definition set_mem (st : Store) (m : gmap Z Z) : Store :=
  {| st_roots := st_roots st; st_total := st_total st; st_status := st_status st;
     st_signalLimit := st_signalLimit st; st_mem := m |}.

Definition set_roots (st : Store) (r : list Heap) : Store :=
  {| st_roots := r; st_total := st_total st; st_status := st_status st;
     st_signalLimit := st_signalLimit st; st_mem := st_mem st |}.

(** ** Status word (StatusWord.hh) *)

Definition SetStatus (st : Store) (mask : Z) : Store :=
  {| st_roots := st_roots st; st_total := st_total st; st_status := Z.lor (st_status st) mask;
     st_signalLimit := st_signalLimit st; st_mem := st_mem st |}.
Definition ClearStatus (st : Store) (mask : Z) : Store :=
  {| st_roots := st_roots st; st_total := st_total st;
     st_status := Z.land (st_status st) (Z.lnot mask);
     st_signalLimit := st_signalLimit st; st_mem := st_mem st |}.
Definition GetStatus (st : Store) (mask : Z) : Z := Z.land (st_status st) mask.

Definition STORE_NEED_GC_STATUS : Z := 0.
Definition STORE_SIGNAL_LIMIT_STATUS : Z := 3.
Definition GCStatus : Z := Z.shiftl 1 STORE_NEED_GC_STATUS.
Definition SignalLimitStatus : Z := Z.shiftl 1 STORE_SIGNAL_LIMIT_STATUS.
Definition NeedGC (st : Store) : Z := GetStatus st GCStatus.

Section Heap.
Context `{Platform}.
Variable malloc : list (Z * Z) -> Z -> Z.

Definition STORE_MEM_ALIGN : Z := MIN_WIDTH.
Definition SIZEOF_BLOCK (s : Z) : Z := (s + 1) * MIN_WIDTH.

(** ** Chunks *)

(** The region a chunk got from [malloc]. *)
Definition region (c : HeapChunk) : Z * Z :=
  (hc_block c, hc_max c + MIN_WIDTH - hc_base c + STORE_MEM_ALIGN).

Definition live (st : Store) : list (Z * Z) :=
  concat (map (fun h => map region (h_chain h)) (st_roots st)).

(** The constructor of [HeapChunk]. *)
Definition HeapChunk_new (regions : list (Z * Z)) (size : Z) : HeapChunk :=
  let block := malloc regions (size + STORE_MEM_ALIGN) in
  let base := block + (STORE_MEM_ALIGN - Z.land block (STORE_MEM_ALIGN - 1)) in
  {| hc_block := block; hc_base := base; hc_top := base; hc_max := base + size - MIN_WIDTH |}.

(** ** Heaps *)

Definition Heap_new (regions : list (Z * Z)) (chunkSize limit : Z) : Heap :=
  {| h_chain := [HeapChunk_new regions chunkSize]; h_size := chunkSize; h_limit := limit |}.

(** The size of the chunk needed for a block of [size] words. *)
Definition chunk_size_for (size : Z) : Z :=
  let itemSize := SIZEOF_BLOCK size + MIN_WIDTH in
  if STORE_MEMCHUNK_SIZE <? itemSize then
    (itemSize / STORE_MEMCHUNK_SIZE +
     (if itemSize mod STORE_MEMCHUNK_SIZE =? 0 then 0 else 1)) * STORE_MEMCHUNK_SIZE
  else STORE_MEMCHUNK_SIZE.

(** [Heap::Enlarge] on generation [g]: the size needed is read from the header
    the allocator has just written at the top of the current chunk. *)
Definition Heap_Enlarge (st : Store) (g : nat) : option Store :=
  heap ← st_roots st !! g;
  chunk ← head (h_chain heap);
  header ← st_mem st !! hc_top chunk;
  let chunkSize := chunk_size_for (DecodeSize header) in
  let chunk' := HeapChunk_new (live st) chunkSize in
  let st := if h_limit heap <=? h_size heap then SetStatus st 1 else st in
  let heap' := {| h_chain := chunk' :: h_chain heap; h_size := h_size heap + chunkSize;
                  h_limit := h_limit heap |} in
  Some {| st_roots := <[g := heap']> (st_roots st); st_total := st_total st + chunkSize;
          st_status := st_status st; st_signalLimit := st_signalLimit st; st_mem := st_mem st |}.

(** [Heap::Shrink]: all chunks are freed before the new one is allocated. *)
Definition Heap_Shrink (st : Store) (g : nat) : option Store :=
  heap ← st_roots st !! g;
  let freed := set_roots st (<[g := {| h_chain := []; h_size := h_size heap; h_limit := h_limit heap |}]>
                               (st_roots st)) in
  let chunk := HeapChunk_new (live freed) STORE_MEMCHUNK_SIZE in
  Some {| st_roots := <[g := {| h_chain := [chunk]; h_size := STORE_MEMCHUNK_SIZE;
                                h_limit := h_limit heap |}]> (st_roots st);
          st_total := st_total st - (h_size heap - STORE_MEMCHUNK_SIZE);
          st_status := st_status st; st_signalLimit := st_signalLimit st; st_mem := st_mem st |}.

Definition GetExactSize (h : Heap) : Z :=
  fold_left (fun size c => size + (hc_top c - hc_base c)) (h_chain h) 0.

(** [Store::Enlarge]: signal when the total size passes the limit. *)
Definition Enlarge (st : Store) (g : nat) : option Store :=
  st ← Heap_Enlarge st g;
  Some (if (negb (st_signalLimit st =? 0) && (st_signalLimit st <? st_total st))%bool
        then SetStatus st SignalLimitStatus else st).

(** ** The allocator *)

(** [Store::Alloc]: the loop writes the header at the top of the current chunk
    and either moves the top or enlarges the heap and tries again. *)
Fixpoint Alloc_loop (fuel : nat) (st : Store) (g : nat) (header s : Z) : option (Z * Store) :=
  match fuel with
  | O => None
  | S fuel =>
      heap ← st_roots st !! g;
      match h_chain heap with
      | [] => None
      | current :: rest =>
          let p := hc_top current in
          let st := set_mem st (<[p := header]> (st_mem st)) in
          let newtop := p + SIZEOF_BLOCK s in
          if hc_max current <=? newtop then
            st ← Enlarge st g; Alloc_loop fuel st g header s
          else
            Some (p, set_roots st (<[g := {| h_chain := set_top current newtop :: rest;
                                             h_size := h_size heap; h_limit := h_limit heap |}]>
                                     (st_roots st)))
      end
  end.

Definition Alloc (fuel : nat) (st : Store) (g : nat) (l s : Z) : option (Z * Store) :=
  let header := EncodeHeader l s
    (if Z.of_nat g =? STORE_GENERATION_NUM - 1 then STORE_GENERATION_NUM - 2 else Z.of_nat g) 0 in
  Alloc_loop fuel st g header s.

Definition InternalAlloc (fuel : nat) (st : Store) (g : nat) (l s : Z) : option (Z * Store) :=
  Alloc fuel st g l (TranslateSize s).

(** ** Invariant *)

Definition range_disjoint (r1 r2 : Z * Z) : Prop := r1.1 + r1.2 <= r2.1 \/ r2.1 + r2.2 <= r1.1.

(** The documented behaviour of [malloc]: the new region does not overlap a live one. *)
Definition malloc_fresh : Prop :=
  forall regions n, 0 < malloc regions n /\
    Forall (fun r => range_disjoint r (malloc regions n, n)) regions.

(** A chunk: aligned, its words inside the region it got, some room at the end. *)
Definition chunk_ok (c : HeapChunk) : Prop :=
  hc_block c < hc_base c <= hc_block c + STORE_MEM_ALIGN /\
  hc_base c mod MIN_WIDTH = 0 /\ hc_top c mod MIN_WIDTH = 0 /\ hc_max c mod MIN_WIDTH = 0 /\
  hc_base c <= hc_top c < hc_max c.

Definition all_chunks (st : Store) : list HeapChunk :=
  concat (map h_chain (st_roots st)).

(** The store with the blocks (address, bytes) allocated so far: every block
    lies in the used part of a chunk, and nothing overlaps. *)
Record store_ok (st : Store) (blocks : list (Z * Z)) : Prop := {
  ok_chunks : Forall chunk_ok (all_chunks st);
  ok_nonempty : Forall (fun h => h_chain h <> []) (st_roots st);
  ok_regions : ForallOrdPairs range_disjoint (map region (all_chunks st));
  ok_inside : Forall (fun b => exists c, c ∈ all_chunks st /\ hc_base c <= b.1 /\ 0 < b.2 /\
                                        b.1 + b.2 <= hc_top c) blocks;
  ok_blocks : ForallOrdPairs range_disjoint blocks
}.

End Heap.

Section HeapFacts.
Context `{Platform}.

#[global] Instance range_disjoint_sym : Symmetric range_disjoint.
Proof. intros r1 r2. unfold range_disjoint. tauto. Qed.

Lemma MIN_WIDTH_pos : MIN_WIDTH = 4 \/ MIN_WIDTH = 8.
Proof. apply MIN_WIDTH_cases. Qed.

Lemma SIZEOF_BLOCK_mod s : SIZEOF_BLOCK s mod MIN_WIDTH = 0.
Proof. apply Z.mod_mul. destruct MIN_WIDTH_pos; lia. Qed.

Lemma width_mod_add a b :
  a mod MIN_WIDTH = 0 -> b mod MIN_WIDTH = 0 -> (a + b) mod MIN_WIDTH = 0.
Proof.
  intros Ha Hb. rewrite Z.add_mod, Ha, Hb by (destruct MIN_WIDTH_pos; lia). done.
Qed.

Lemma MEMCHUNK_mod k : (k * STORE_MEMCHUNK_SIZE) mod MIN_WIDTH = 0.
Proof.
  destruct MIN_WIDTH_pos as [-> | ->].
  - replace (k * STORE_MEMCHUNK_SIZE) with (k * 32768 * 4) by (unfold STORE_MEMCHUNK_SIZE; lia).
    apply Z.mod_mul. lia.
  - replace (k * STORE_MEMCHUNK_SIZE) with (k * 16384 * 8) by (unfold STORE_MEMCHUNK_SIZE; lia).
    apply Z.mod_mul. lia.
Qed.

(** The size of an enlarging chunk: a multiple of the chunk size, with strictly
    more room than the block and its slack word need unless these fill the
    chunk exactly. *)
Lemma chunk_size_for_spec s :
  0 <= s ->
  let itemSize := SIZEOF_BLOCK s + MIN_WIDTH in
  (exists k, 0 < k /\ chunk_size_for s = k * STORE_MEMCHUNK_SIZE) /\
  itemSize <= chunk_size_for s /\
  (itemSize < chunk_size_for s <-> itemSize mod STORE_MEMCHUNK_SIZE <> 0).
Proof.
  intros Hs. cbv zeta. assert (Hpos : 0 < SIZEOF_BLOCK s + MIN_WIDTH)
    by (unfold SIZEOF_BLOCK; destruct MIN_WIDTH_pos as [-> | ->]; lia).
  unfold chunk_size_for. set (n := SIZEOF_BLOCK s + MIN_WIDTH) in *. clearbody n.
  unfold STORE_MEMCHUNK_SIZE. change (1024 * 128) with 131072.
  destruct (Z.ltb_spec 131072 n).
  - destruct (Z.eqb_spec (n mod 131072) 0) as [E | E].
    + split; [exists (n / 131072); Z.div_mod_to_equations; lia |].
      Z.div_mod_to_equations; lia.
    + split; [exists (n / 131072 + 1); Z.div_mod_to_equations; lia |].
      Z.div_mod_to_equations; lia.
  - split; [exists 1; lia |]. split; [lia |]. split; Z.div_mod_to_equations; lia.
Qed.

Variable malloc : list (Z * Z) -> Z -> Z.

Lemma HeapChunk_new_ok regions k :
  malloc_fresh malloc -> 0 < k ->
  let c := HeapChunk_new malloc regions (k * STORE_MEMCHUNK_SIZE) in
  chunk_ok c /\ hc_top c = hc_base c /\ hc_max c = hc_base c + k * STORE_MEMCHUNK_SIZE - MIN_WIDTH /\
  Forall (range_disjoint (region c)) regions.
Proof.
  intros Hm Hk c. subst c. unfold HeapChunk_new.
  set (block := malloc regions (k * STORE_MEMCHUNK_SIZE + STORE_MEM_ALIGN)).
  pose proof (Hm regions (k * STORE_MEMCHUNK_SIZE + STORE_MEM_ALIGN)) as [_ Hd].
  assert (Hland : Z.land block (STORE_MEM_ALIGN - 1) = block mod MIN_WIDTH).
  { unfold STORE_MEM_ALIGN. destruct MIN_WIDTH_pos as [-> | ->].
    - apply (land_low block 2). lia.
    - apply (land_low block 3). lia. }
  rewrite Hland. assert (Hw : 4 <= MIN_WIDTH <= 8) by (destruct MIN_WIDTH_pos; lia).
  assert (Hb : 0 <= block mod MIN_WIDTH < MIN_WIDTH) by (apply Z.mod_pos_bound; lia).
  assert (Halign : (block + (STORE_MEM_ALIGN - block mod MIN_WIDTH)) mod MIN_WIDTH = 0).
  { unfold STORE_MEM_ALIGN.
    replace (block + (MIN_WIDTH - block mod MIN_WIDTH))
      with ((block / MIN_WIDTH + 1) * MIN_WIDTH)
      by (pose proof (Z.div_mod block MIN_WIDTH); lia).
    apply Z.mod_mul. lia. }
  split; [| split; [done | split; [done |]]].
  - unfold chunk_ok; simpl. unfold STORE_MEM_ALIGN in *. split; [lia |].
    split; [done |]. split; [done |]. split.
    + rewrite <- Z.add_sub_assoc. apply width_mod_add; [done |].
      rewrite Zminus_mod, MEMCHUNK_mod, Z_mod_same_full. done.
    + unfold STORE_MEMCHUNK_SIZE. lia.
  - eapply Forall_impl; [exact Hd |]. intros r Hr. symmetry. unfold region; simpl.
    unfold range_disjoint in *; simpl in *. unfold STORE_MEM_ALIGN in *. fold block in Hr.
    replace (block + (MIN_WIDTH - block mod MIN_WIDTH) + k * STORE_MEMCHUNK_SIZE - MIN_WIDTH + MIN_WIDTH -
             (block + (MIN_WIDTH - block mod MIN_WIDTH)) + MIN_WIDTH)
      with (k * STORE_MEMCHUNK_SIZE + MIN_WIDTH) by lia. tauto.
Qed.

(** The chunks of a store whose generation [g] is replaced. *)
Lemma all_chunks_insert (roots : list Heap) g h :
  roots !! g = Some h ->
  exists others, concat (map h_chain roots) ≡ₚ h_chain h ++ others /\
    forall h', concat (map h_chain (<[g := h']> roots)) ≡ₚ h_chain h' ++ others.
Proof.
  intros Hg. pose proof (take_drop_middle _ _ _ Hg) as Hsplit.
  exists (concat (map h_chain (take g roots)) ++ concat (map h_chain (drop (S g) roots))). split.
  - rewrite <- Hsplit at 1. rewrite map_app, concat_app. simpl. solve_Permutation.
  - intros h'. rewrite insert_take_drop by (by eapply lookup_lt_Some).
    rewrite map_app, concat_app. simpl. solve_Permutation.
Qed.

Lemma live_all_chunks st : live st = map region (all_chunks st).
Proof.
  unfold live, all_chunks. induction (st_roots st) as [| h r IH]; [done |].
  simpl. by rewrite map_app, IH.
Qed.

(** Replacing the chunks of one generation, as permutations of all chunks. *)
Lemma store_chunks_at st g h :
  st_roots st !! g = Some h ->
  exists others, all_chunks st ≡ₚ h_chain h ++ others /\
    forall h' tot stat lim m, all_chunks {| st_roots := <[g := h']> (st_roots st); st_total := tot;
      st_status := stat; st_signalLimit := lim; st_mem := m |} ≡ₚ h_chain h' ++ others.
Proof.
  intros Hg. destruct (all_chunks_insert _ _ _ Hg) as (others & H1 & H2). eauto.
Qed.

(** [store_ok] in terms of a permutation of the chunks. *)
Lemma store_ok_chunks st blocks chunks :
  all_chunks st ≡ₚ chunks ->
  Forall chunk_ok chunks -> Forall (fun h => h_chain h <> []) (st_roots st) ->
  ForallOrdPairs range_disjoint (map region chunks) ->
  Forall (fun b => exists c, c ∈ chunks /\ hc_base c <= b.1 /\ 0 < b.2 /\ b.1 + b.2 <= hc_top c) blocks ->
  ForallOrdPairs range_disjoint blocks ->
  store_ok st blocks.
Proof.
  intros Hp Hc Hn Hr Hi Hb. constructor; auto.
  - by rewrite Hp.
  - eapply FOP_Permutation; [apply _ | | exact Hr]. by rewrite Hp.
  - eapply Forall_impl; [exact Hi |]. intros b (c & Hin & ?). exists c. by rewrite Hp.
Qed.

(** A block inside one chunk does not meet the free part of another, nor the
    free part of its own. *)
Lemma block_avoids_top c others p n b cb :
  Forall chunk_ok (c :: others) -> ForallOrdPairs range_disjoint (map region (c :: others)) ->
  cb ∈ c :: others -> hc_base cb <= b.1 -> 0 < b.2 -> b.1 + b.2 <= hc_top cb ->
  p = hc_top c -> 0 < n -> p + n < hc_max c -> range_disjoint (p, n) b.
Proof.
  intros Hok Hd Hin Hlo Hn Hhi -> Hpos Hmax. apply Forall_cons in Hok as [Hc Ho].
  apply FOP_cons in Hd as [Hd _]. apply elem_of_cons in Hin as [-> | Hin].
  - right. simpl. lia.
  - assert (Hcb : chunk_ok cb) by (rewrite Forall_forall in Ho; auto).
    rewrite Forall_forall in Hd. specialize (Hd (region cb)).
    assert (Hrd : range_disjoint (region c) (region cb))
      by (apply Hd; apply list_elem_of_In, in_map; by apply list_elem_of_In).
    unfold chunk_ok, region, range_disjoint, STORE_MEM_ALIGN in *; simpl in *. lia.
Qed.

Lemma Alloc_fit st blocks g h c rest fuel header s :
  store_ok st blocks -> st_roots st !! g = Some h -> h_chain h = c :: rest -> 0 <= s ->
  hc_top c + SIZEOF_BLOCK s < hc_max c ->
  exists st' h', Alloc_loop malloc (S fuel) st g header s = Some (hc_top c, st') /\
    store_ok st' ((hc_top c, SIZEOF_BLOCK s) :: blocks) /\
    st_mem st' = <[hc_top c := header]> (st_mem st) /\ hc_top c mod MIN_WIDTH = 0 /\
    st_roots st' !! g = Some h' /\ h_chain h' = set_top c (hc_top c + SIZEOF_BLOCK s) :: rest /\
    (forall g', g' <> g -> st_roots st' !! g' = st_roots st !! g').
Proof.
  intros Hok Hg Hch Hs Hfit.
  destruct (store_chunks_at _ _ _ Hg) as (others & Hperm & Hperm').
  rewrite Hch in Hperm.
  assert (Hcs : Forall chunk_ok (c :: rest ++ others))
    by (pose proof (ok_chunks _ _ Hok) as Hx; by rewrite Hperm in Hx).
  assert (Hrs : ForallOrdPairs range_disjoint (map region (c :: rest ++ others)))
    by (eapply FOP_Permutation; [apply _ | | apply (ok_regions _ _ Hok)]; by rewrite Hperm).
  pose proof Hcs as Hcs'. apply Forall_cons in Hcs' as [(Hb & Hba & Hta & Hma & Ht1 & Ht2) Hrest].
  assert (HS : 0 < SIZEOF_BLOCK s)
    by (unfold SIZEOF_BLOCK; destruct MIN_WIDTH_pos as [-> | ->]; lia).
  simpl. rewrite Hg. simpl. rewrite Hch.
  destruct (Z.leb_spec (hc_max c) (hc_top c + SIZEOF_BLOCK s)); [lia |].
  eexists _, _. split; [done |]. split; [| split; [done |]; split; [done |]].
  2: { simpl. split; [apply list_lookup_insert_eq; by eapply lookup_lt_Some |]. split; [done |].
       intros g' Hne. by rewrite list_lookup_insert_ne. }
  eapply store_ok_chunks with (chunks := set_top c (hc_top c + SIZEOF_BLOCK s) :: rest ++ others).
  - etrans; [apply Hperm' |]. done.
  - constructor; [| done]. unfold chunk_ok; simpl. split_and!; try done; try lia.
    apply width_mod_add; [done | apply SIZEOF_BLOCK_mod].
  - simpl. apply Forall_insert; [apply (ok_nonempty _ _ Hok) | done].
  - exact Hrs.
  - constructor.
    + exists (set_top c (hc_top c + SIZEOF_BLOCK s)). simpl. split; [by left |]. lia.
    + eapply Forall_impl; [apply (ok_inside _ _ Hok) |]. intros b (cb & Hin & H1 & H2 & H3).
      rewrite Hperm in Hin. apply elem_of_cons in Hin as [-> | Hin].
      * exists (set_top c (hc_top c + SIZEOF_BLOCK s)). simpl. split; [by left |]. lia.
      * exists cb. split; [by right | done].
  - apply FOP_cons. split; [| apply (ok_blocks _ _ Hok)].
    eapply Forall_impl; [apply (ok_inside _ _ Hok) |]. intros b (cb & Hin & H1 & H2 & H3).
    rewrite Hperm in Hin. by eapply block_avoids_top.
Qed.

Lemma Enlarge_ok st blocks g h c rest header :
  malloc_fresh malloc ->
  store_ok st blocks -> st_roots st !! g = Some h -> h_chain h = c :: rest ->
  st_mem st !! hc_top c = Some header -> 0 <= DecodeSize header ->
  exists st' h' c', Enlarge malloc st g = Some st' /\ store_ok st' blocks /\
    st_roots st' !! g = Some h' /\ h_chain h' = c' :: c :: rest /\
    hc_top c' = hc_base c' /\
    hc_max c' = hc_base c' + chunk_size_for (DecodeSize header) - MIN_WIDTH /\
    st_mem st' = st_mem st /\ (forall g', g' <> g -> st_roots st' !! g' = st_roots st !! g').
Proof.
  intros Hm Hok Hg Hch Hmem Hd.
  destruct (store_chunks_at _ _ _ Hg) as (others & Hperm & Hperm'). rewrite Hch in Hperm.
  destruct (chunk_size_for_spec (DecodeSize header) Hd) as ((k & Hk & Ek) & _ & _).
  destruct (HeapChunk_new_ok (live st) k Hm Hk) as (Hnew & Htop & Hmax & Hdis).
  rewrite <- Ek in *. set (c' := HeapChunk_new malloc (live st) (chunk_size_for (DecodeSize header))) in *.
  unfold Enlarge, Heap_Enlarge. rewrite Hg. simpl. rewrite Hch. simpl. rewrite Hmem. simpl. fold c'.
  set (h' := {| h_chain := c' :: c :: rest; h_size := _; h_limit := _ |}).
  assert (Hgl : (g < length (st_roots st))%nat) by (by eapply lookup_lt_Some).
  assert (Hnew_ok : forall tot stat lim, store_ok {| st_roots := <[g := h']> (st_roots st);
      st_total := tot; st_status := stat; st_signalLimit := lim; st_mem := st_mem st |} blocks).
  { intros tot stat lim. eapply store_ok_chunks with (chunks := c' :: all_chunks st).
    - etrans; [apply Hperm' |]. simpl. by rewrite Hperm.
    - constructor; [done | apply (ok_chunks _ _ Hok)].
    - simpl. apply Forall_insert; [apply (ok_nonempty _ _ Hok) | done].
    - simpl. apply FOP_cons. split; [by rewrite <- live_all_chunks | apply (ok_regions _ _ Hok)].
    - eapply Forall_impl; [apply (ok_inside _ _ Hok) |]. intros b (cb & Hin & ?).
      exists cb. split; [by right | done].
    - apply (ok_blocks _ _ Hok). }
  destruct (h_limit h <=? h_size h); simpl; (destruct (_ && _)%bool;
    (eexists _, h', c'; split; [done |]; split; [apply Hnew_ok |]; simpl;
     split; [by apply list_lookup_insert_eq |]; split_and!; try done;
     intros g' Hne; by rewrite list_lookup_insert_ne)).
Qed.

Lemma Alloc_misfit_diverges fuel st g h c rest header s :
  malloc_fresh malloc ->
  st_roots st !! g = Some h -> h_chain h = c :: rest ->
  DecodeSize header = s -> 0 <= s ->
  (SIZEOF_BLOCK s + MIN_WIDTH) mod STORE_MEMCHUNK_SIZE = 0 ->
  hc_max c <= hc_top c + SIZEOF_BLOCK s ->
  Alloc_loop malloc fuel st g header s = None.
Proof.
  intros Hm. revert st h c rest. induction fuel as [| fuel IH]; [done |].
  intros st h c rest Hg Hch Hd Hs Hmod Hfull.
  simpl. rewrite Hg. simpl. rewrite Hch.
  destruct (Z.leb_spec (hc_max c) (hc_top c + SIZEOF_BLOCK s)); [| lia].
  unfold Enlarge, Heap_Enlarge. simpl. rewrite Hg. simpl. rewrite Hch. simpl.
  rewrite lookup_insert_eq. simpl. rewrite Hd.
  assert (Hgl : (g < length (st_roots st))%nat) by (by eapply lookup_lt_Some).
  destruct (chunk_size_for_spec s Hs) as (_ & Hle & Hlt).
  assert (Ecs : chunk_size_for s = SIZEOF_BLOCK s + MIN_WIDTH) by (destruct Hlt as [Hlt _]; lia).
  assert (Hend : hc_max (HeapChunk_new malloc (live (set_mem st (<[hc_top c:=header]> (st_mem st)))) (chunk_size_for s))
     <= hc_top (HeapChunk_new malloc (live (set_mem st (<[hc_top c:=header]> (st_mem st)))) (chunk_size_for s)) + SIZEOF_BLOCK s)
    by (simpl; lia).
  destruct (h_limit h <=? h_size h); simpl; (destruct (_ && _)%bool;
    (eapply IH; [simpl; by apply list_lookup_insert_eq | done .. ])).
Qed.

(** How an allocation changes the chain of its generation: the top of the
    current chunk moves, or a new chunk begins with the block. *)
Definition grown (cs cs' : list HeapChunk) (p n : Z) : Prop :=
  (exists c rest, cs = c :: rest /\ p = hc_top c /\ cs' = set_top c (p + n) :: rest) \/
  (exists c, cs' = c :: cs /\ hc_base c = p /\ hc_top c = p + n).

Lemma gen_header (g : nat) l s : (g < 4)%nat -> 0 <= l <= hw_MAX_TAGSIZE HW -> 0 <= s <= hw_MAX_BIGBLOCKSIZE HW -> TranslateSize s = s ->
  let gen := if Z.of_nat g =? STORE_GENERATION_NUM - 1 then STORE_GENERATION_NUM - 2 else Z.of_nat g in
  0 <= gen < 3 /\ 
  fields_of (EncodeHeader l s gen 0) =
    (if hw_MAX_BLOCKSIZE HW <? s then Fields (gen + 1) 1 (s / 16) l 0 0 else Fields (gen + 1) 0 s l 0 0) /\
  DecodeSize (EncodeHeader l s gen 0) = s.
Proof.
  intros Hg Hl Hs Ht gen. change (hw_MAX_TAGSIZE HW) with 127 in Hl.
  assert (Hgen : 0 <= gen < 3).
  { unfold gen. change STORE_GENERATION_NUM with 4. destruct (Z.eqb_spec (Z.of_nat g) (4 - 1)); lia. }
  split; [done |]. split; [apply EncodeHeader_fields; lia |].
  rewrite <- Ht at 1. rewrite DecodeSize_EncodeHeader by lia. done.
Qed.

Lemma Alloc_ok st blocks (g : nat) l s :
  malloc_fresh malloc -> store_ok st blocks -> (g < length (st_roots st))%nat -> (g < 4)%nat ->
  0 <= l <= hw_MAX_TAGSIZE HW -> 0 <= s <= hw_MAX_BIGBLOCKSIZE HW -> TranslateSize s = s ->
  (SIZEOF_BLOCK s + MIN_WIDTH) mod STORE_MEMCHUNK_SIZE <> 0 ->
  exists p st' h h', Alloc malloc 2 st g l s = Some (p, st') /\
    store_ok st' ((p, SIZEOF_BLOCK s) :: blocks) /\ p mod MIN_WIDTH = 0 /\
    st_mem st' !! p = Some (EncodeHeader l s (if Z.of_nat g =? STORE_GENERATION_NUM - 1 then STORE_GENERATION_NUM - 2 else Z.of_nat g) 0) /\
    st_roots st !! g = Some h /\ st_roots st' !! g = Some h' /\ grown (h_chain h) (h_chain h') p (SIZEOF_BLOCK s) /\
    (forall g', g' <> g -> st_roots st' !! g' = st_roots st !! g').
Proof.
  intros Hm Hok Hg Hg4 Hl Hs Ht Hmod. unfold Alloc.
  destruct (gen_header g l s Hg4 Hl Hs Ht) as (_ & _ & Hdec).
  set (header := EncodeHeader l s _ 0) in *. clearbody header.
  destruct (lookup_lt_is_Some_2 _ _ Hg) as [h Hh].
  destruct (h_chain h) as [| c rest] eqn:Hch.
  { exfalso. pose proof (ok_nonempty _ _ Hok) as Hn. rewrite Forall_lookup in Hn. by apply (Hn g h). }
  destruct (decide (hc_top c + SIZEOF_BLOCK s < hc_max c)) as [Hfit | Hfull].
  - destruct (Alloc_fit st blocks g h c rest 1 header s) as (st' & h' & E & Hok' & Emem & Hal & Hg' & Hch' & Hother);
      [done .. | lia | done |].
    exists (hc_top c), st', h, h'. split_and!; try done; [by rewrite Emem, lookup_insert_eq |].
    left. exists c, rest. done.
  - set (st1 := set_mem st (<[hc_top c := header]> (st_mem st))).
    assert (Hok1 : store_ok st1 blocks) by (by destruct Hok; constructor).
    destruct (Enlarge_ok st1 blocks g h c rest header) as
      (st2 & h2 & c2 & E2 & Hok2 & Hg2 & Hch2 & Ht2 & Hm2 & Emem2 & Ho2); [done .. | | rewrite Hdec; lia |].
    { simpl. by rewrite lookup_insert_eq. }
    destruct (chunk_size_for_spec s ltac:(lia)) as (_ & _ & Hlt). rewrite Hdec in Hm2.
    destruct (Alloc_fit st2 blocks g h2 c2 (c :: rest) 0 header s) as
      (st' & h' & E & Hok' & Emem & Hal & Hg' & Hch' & Hother); [done .. | lia | lia |].
    exists (hc_top c2), st', h, h'. split; [| split_and!; try done].
    + cbn [Alloc_loop]. rewrite Hh. simpl. rewrite Hch.
      destruct (Z.leb_spec (hc_max c) (hc_top c + SIZEOF_BLOCK s)); [| lia].
      fold st1. rewrite E2. simpl. exact E.
    + by rewrite Emem, lookup_insert_eq.
    + right. exists (set_top c2 (hc_top c2 + SIZEOF_BLOCK s)). rewrite Hch, Hch'. done.
    + intros g' Hne. rewrite Hother, Ho2 by done. done.
Qed.

End HeapFacts.

(** ** Properties *)

(** C35. Allocation: from any well-formed store, allocating a block whose size
    plus two words is not a multiple of the chunk size returns after at most
    two rounds of the loop; the block is aligned, carries its header, lies
    inside one chunk and overlaps no block allocated before, and the other
    generations are untouched. *)
Theorem Alloc_correct `{Platform} (malloc : list (Z * Z) -> Z -> Z)
    (st : Store) (blocks : list (Z * Z)) (g : nat) (l s : Z) :
  malloc_fresh malloc -> store_ok st blocks -> (g < length (st_roots st))%nat -> (g < 4)%nat ->
  0 <= l <= hw_MAX_TAGSIZE HW -> 0 <= s <= hw_MAX_BIGBLOCKSIZE HW ->
  (SIZEOF_BLOCK (TranslateSize s) + MIN_WIDTH) mod STORE_MEMCHUNK_SIZE <> 0 ->
  exists p st' h, InternalAlloc malloc 2 st g l s = Some (p, st') /\
    store_ok st' ((p, SIZEOF_BLOCK (TranslateSize s)) :: blocks) /\
    p mod MIN_WIDTH = 0 /\ st_mem st' !! p = Some h /\ DecodeSize h = TranslateSize s /\ DecodeLabel h = l /\
    (forall g', g' <> g -> st_roots st' !! g' = st_roots st !! g').
Proof.
  intros Hm Hok Hg Hg4 Hl Hs Hmod. pose proof (TranslateSize_bounds s Hs) as [_ Hts].
  pose proof (TranslateSize_idem s Hs) as Hid.
  destruct (Alloc_ok malloc st blocks g l (TranslateSize s) Hm Hok Hg Hg4 Hl Hts Hid Hmod)
    as (p & st' & h & h' & E & Hok' & Hal & Emem & _ & _ & _ & Hother).
  destruct (gen_header g l (TranslateSize s) Hg4 Hl Hts Hid) as (Hgen & Hf & Hdec).
  exists p, st'. eexists. unfold InternalAlloc. split; [exact E |]. split; [done |]. split; [done |]. split; [exact Emem |].
  split; [done |]. split; [| done]. rewrite DecodeLabel_field. apply (f_equal f_label) in Hf. simpl in Hf.
  rewrite Hf. by destruct (_ <? _).
Qed.

(** C36. The allocator hangs on the block sizes that, with the header and one
    slack word, fill a whole number of memory chunks exactly: when such a block
    does not fit into the current chunk, the chunk [Enlarge] makes is never
    large enough, and the loop enlarges the heap forever. *)
Theorem Alloc_diverges `{Platform} (malloc : list (Z * Z) -> Z -> Z)
    (st : Store) (g : nat) (h : Heap) (c : HeapChunk) (rest : list HeapChunk) (l s : Z) :
  malloc_fresh malloc ->
  st_roots st !! g = Some h -> h_chain h = c :: rest -> (g < 4)%nat ->
  0 <= l <= hw_MAX_TAGSIZE HW -> 0 <= s <= hw_MAX_BIGBLOCKSIZE HW ->
  (SIZEOF_BLOCK (TranslateSize s) + MIN_WIDTH) mod STORE_MEMCHUNK_SIZE = 0 ->
  hc_max c <= hc_top c + SIZEOF_BLOCK (TranslateSize s) ->
  forall fuel, InternalAlloc malloc fuel st g l s = None.
Proof.
  intros Hm Hg Hch Hg4 Hl Hs Hmod Hfull fuel. unfold InternalAlloc, Alloc.
  pose proof (TranslateSize_bounds s Hs). change (hw_MAX_TAGSIZE HW) with 127 in Hl.
  eapply Alloc_misfit_diverges; try done; [| lia].
  apply DecodeSize_EncodeHeader; try lia. change STORE_GENERATION_NUM with 4.
  destruct (Z.eqb_spec (Z.of_nat g) (4 - 1)); lia.
Qed.

(** A [malloc] that serves every request above all live regions. *)
Definition bump_malloc (regions : list (Z * Z)) (n : Z) : Z :=
  fold_right (fun r m => Z.max m (r.1 + r.2)) 4096 regions.

Lemma bump_malloc_fresh : malloc_fresh bump_malloc.
Proof.
  intros regions n. split.
  - induction regions as [| r l IH]; simpl; lia.
  - apply Forall_forall. intros r Hr. left. simpl.
    induction regions as [| r' l IH]; [by apply not_elem_of_nil in Hr |].
    apply elem_of_cons in Hr as [-> | Hr]; simpl; [lia |]. specialize (IH Hr). lia.
Qed.

(** A store with one generation and one empty chunk. *)
Definition one_heap : Store :=
  {| st_roots := [Heap_new (H := P32) bump_malloc [] STORE_MEMCHUNK_SIZE 1000000];
     st_total := STORE_MEMCHUNK_SIZE; st_status := 0; st_signalLimit := 0; st_mem := ∅ |}.

Lemma one_heap_ok : store_ok (H := P32) one_heap [].
Proof.
  constructor; simpl; [| | | constructor ..].
  - constructor; [| constructor]. vm_compute. split_and!; done.
  - by constructor.
  - repeat constructor.
Qed.

Lemma Alloc_correct_witness :
  exists p st', InternalAlloc (H := P32) bump_malloc 2 one_heap 0 5 10 = Some (p, st') /\ p = 4100.
Proof.
  destruct (Alloc_correct (H := P32) bump_malloc one_heap [] 0 5 10 bump_malloc_fresh one_heap_ok)
    as (p & st' & h & E & _); [simpl; lia | lia | vm_compute; split; discriminate
    | vm_compute; split; discriminate | vm_compute; discriminate |].
  exists p, st'. split; [exact E |]. vm_compute in E. congruence.
Defined.

Lemma Alloc_diverges_witness :
  InternalAlloc (H := P32) bump_malloc 1000 one_heap 0 5 32766 = None.
Proof.
  apply (Alloc_diverges (H := P32) bump_malloc one_heap 0
    (Heap_new (H := P32) bump_malloc [] STORE_MEMCHUNK_SIZE 1000000)
    (HeapChunk_new (H := P32) bump_malloc [] STORE_MEMCHUNK_SIZE) [] 5 32766 bump_malloc_fresh);
    [reflexivity | reflexivity | lia | vm_compute; split; discriminate
    | vm_compute; split; discriminate | reflexivity | vm_compute; discriminate].
Defined.
