(* ===== verification/Queue.v ===== *)
(** * Queues (seam/adt/Queue.hh)

    A queue is a ring buffer in a mutable block with a read and a write index.
    The element type is a parameter; [zero] is the integer word 0 that [Blank]
    writes and [undef] the content of fresh memory.  A failing [Assert] and an
    access outside the array are [None]. *)

From S2P Require Import Prelude Config HeaderOp Block.

Record Queue (A : Type) := mkQueue {
  q_header : Z; q_read : Z; q_write : Z; q_array : Block A
}.
Arguments mkQueue {A} _ _ _ _.
Arguments q_header {A} _.
Arguments q_read {A} _.
Arguments q_write {A} _.
Arguments q_array {A} _.

(** [memmove] and [memcpy] between the arguments of two blocks. *)
Definition block_move {A} (src : Block A) (so : Z) (dst : Block A) (d n : Z) : option (Block A) :=
  args ← blit (b_args src) so (b_args dst) d n;
  Some {| b_header := b_header dst; b_args := args |}.

(** A loop that writes the integer word [v] to the indices from [lo] to [hi]. *)
Definition block_fill {A} (b : Block A) (lo hi : Z) (v : A) : option (Block A) :=
  args ← afill (b_args b) lo hi v; Some {| b_header := b_header b; b_args := args |}.

Section Queue.
Context `{Platform} {A : Type} `{EqDecision A} (undef zero : A).
Implicit Types (q : Queue A) (w : A) (array : Block A).

Definition GetWriteIndex q : Z := q_write q.
Definition GetReadIndex q : Z := q_read q.
Definition GetArray q : Block A := q_array q.
Definition SetWriteIndex q (writeIndex : Z) : option (Queue A) :=
  if (0 <=? writeIndex) && (writeIndex <? GetSize (q_array q))
  then Some {| q_header := q_header q; q_read := q_read q; q_write := writeIndex; q_array := q_array q |}
  else None.
Definition SetReadIndex q (readIndex : Z) : option (Queue A) :=
  if (0 <=? readIndex) && (readIndex <? GetSize (q_array q))
  then Some {| q_header := q_header q; q_read := readIndex; q_write := q_write q; q_array := q_array q |}
  else None.
Definition SetArray q array : Queue A :=
  {| q_header := q_header q; q_read := q_read q; q_write := q_write q; q_array := array |}.

Definition New (initialSize : Z) : Queue A :=
  let b := AllocMutableBlock undef QUEUE_LABEL 3 in
  let array := AllocMutableBlock undef MIN_DATA_LABEL initialSize in
  {| q_header := b_header b; q_read := 0; q_write := 0; q_array := array |}.

Definition Enlarge q (threshold : Z) : option (Queue A) :=
  let oldArray := GetArray q in
  let oldSize := GetSize oldArray in
  let newSize := u_int (oldSize + threshold) in
  let newArray := AllocMutableBlock undef MIN_DATA_LABEL newSize in
  let index := GetReadIndex q in
  if negb (index =? GetWriteIndex q) then None else
  newArray ← block_move oldArray index newArray 0 (oldSize - index);
  newArray ← block_move oldArray 0 newArray (oldSize - index) index;
  q ← SetReadIndex (SetArray q newArray) 0;
  SetWriteIndex q oldSize.

Definition GetNumberOfElements q : Z :=
  let size := GetSize (GetArray q) in
  let nentries := u_int (GetWriteIndex q + size - GetReadIndex q) in
  if size <=? nentries then nentries - size else nentries.

Definition GetNthElement q (n : Z) : option A :=
  if n <? GetNumberOfElements q then
    let array := GetArray q in
    let size := GetSize array in
    let index := GetReadIndex q + n in
    GetArg array (if size <=? index then index - size else index)
  else None.

Definition RemoveNthElement q (n : Z) : option (Queue A) :=
  if n <? GetNumberOfElements q then
    let array := GetArray q in
    let size := GetSize array in
    let readIndex := GetReadIndex q in
    let index := readIndex + n in
    if size <=? index then
      let index := index - size in
      let writeIndex := GetWriteIndex q in
      array ← block_move array (index + 1) array index (writeIndex - index - 1);
      SetWriteIndex (SetArray q array) (writeIndex - 1)
    else
      array ← block_move array readIndex array (readIndex + 1) (index - readIndex);
      SetReadIndex (SetArray q array) (if readIndex + 1 =? size then 0 else readIndex + 1)
  else None.

Definition Enqueue q w : option (Queue A) :=
  let array := GetArray q in
  let writeIndex := GetWriteIndex q in
  array ← InitArg array writeIndex w;
  let size := GetSize array in
  let writeIndex := writeIndex + 1 in
  let writeIndex := if writeIndex =? size then 0 else writeIndex in
  q ← SetWriteIndex (SetArray q array) writeIndex;
  if writeIndex =? GetReadIndex q then Enlarge q (size / 2) else Some q.

Definition IsEmpty q : bool := GetWriteIndex q =? GetReadIndex q.

Definition Dequeue q : option (A * Queue A) :=
  if IsEmpty q then None else
  let readIndex := GetReadIndex q in
  let array := GetArray q in
  result ← GetArg array readIndex;
  let readIndex := readIndex + 1 in
  q ← SetReadIndex q (if readIndex =? GetSize array then 0 else readIndex);
  Some (result, q).

(** The scan of [Remove]: the first index from [scanIndex] below [limit] that
    holds [w], if any; [fuel] is the number of indices left. *)
Fixpoint scan (array : Block A) (scanIndex : Z) (fuel : nat) (w : A) : option (option Z) :=
  match fuel with
  | O => Some None
  | S fuel =>
      x ← GetArg array scanIndex;
      if decide (x = w) then Some (Some scanIndex) else scan array (scanIndex + 1) fuel w
  end.

Definition scan_upto array (scanIndex limit : Z) w : option (option Z) :=
  scan array scanIndex (Z.to_nat (limit - scanIndex)) w.

(** The loop over the indices below [writeIndex]. *)
Definition Remove_end q (scanIndex : Z) w : option (Queue A) :=
  let array := GetArray q in
  let writeIndex := GetWriteIndex q in
  found ← scan_upto array scanIndex writeIndex w;
  match found with
  | Some scanIndex =>
      array ← block_move array (scanIndex + 1) array scanIndex (writeIndex - scanIndex);
      SetWriteIndex (SetArray q array) (writeIndex - 1)
  | None => Some q
  end.

Definition Remove q w : option (Queue A) :=
  let readIndex := GetReadIndex q in
  let writeIndex := GetWriteIndex q in
  if readIndex =? writeIndex then Some q else
  let array := GetArray q in
  if writeIndex <? readIndex then
    let length := GetSize array in
    found ← scan_upto array readIndex length w;
    match found with
    | Some scanIndex =>
        array ← block_move array readIndex array (readIndex + 1) (scanIndex - readIndex);
        SetReadIndex (SetArray q array) ((readIndex + 1) mod length)
    | None => Remove_end q 0 w
    end
  else Remove_end q readIndex w.

(** The number of entries as [Blank] computes it: an empty queue counts as full. *)
Definition Blank_entries q : Z :=
  let oldSize := GetSize (GetArray q) in
  let nentries := u_int (GetWriteIndex q + oldSize - GetReadIndex q) in
  if oldSize <? nentries then nentries - oldSize else nentries.

Definition Blank_size (nentries oldSize : Z) : Z :=
  let newSize := (nentries * 3 / 2 + 1 + oldSize) / 2 in
  if newSize <? 2 then 2 else newSize.

(** Moving the entries into the part that remains, then shrinking the array. *)
Definition Blank_compact q (nentries newSize : Z) : option (Queue A) :=
  let array := GetArray q in
  let readIndex := GetReadIndex q in
  let writeIndex := GetWriteIndex q in
  q ← (if readIndex <? writeIndex then
         if newSize <=? writeIndex then
           array ← block_move array readIndex array 0 nentries;
           q ← SetReadIndex (SetArray q array) 0;
           SetWriteIndex q nentries
         else Some q
       else
         let length := GetSize array - readIndex in
         let newReadIndex := u_int (newSize - length) in
         array ← block_move array readIndex array newReadIndex length;
         SetReadIndex (SetArray q array) newReadIndex);
  array ← ShrinkBlock (GetArray q) newSize;
  Some (SetArray q array).

Definition Blank_fill q (newSize : Z) : option (Queue A) :=
  let readIndex := GetReadIndex q in
  let writeIndex := GetWriteIndex q in
  array ← (if readIndex <? writeIndex then
             array ← block_fill (GetArray q) 0 readIndex zero;
             block_fill array writeIndex newSize zero
           else block_fill (GetArray q) writeIndex readIndex zero);
  Some (SetArray q array).

Definition Blank q : option (Queue A) :=
  let oldSize := GetSize (GetArray q) in
  let nentries := Blank_entries q in
  let newSize := (nentries * 3 / 2 + 1 + oldSize) / 2 in
  if (newSize =? 0) || (newSize <=? nentries) then None else
  let newSize := Blank_size nentries oldSize in
  if oldSize <=? newSize then Blank_fill q oldSize
  else q ← Blank_compact q nentries newSize; Blank_fill q newSize.

Definition Clone q : option (Queue A) :=
  let array := GetArray q in
  let clone := New (GetSize array) in
  clone ← SetReadIndex clone (GetReadIndex q);
  clone ← SetWriteIndex clone (GetWriteIndex q);
  cloneArray ← block_move array 0 (GetArray clone) 0 (GetSize array);
  Some (SetArray clone cloneArray).

(** ** Specification: the entries in order *)

Definition contents q : list A :=
  let args := b_args (q_array q) in
  if q_read q <=? q_write q then zseg args (q_read q) (q_write q - q_read q)
  else zdrop (q_read q) args ++ ztake (q_write q) args.

(** The first occurrence of an entry removed. *)
Fixpoint remove_first (w : A) (l : list A) : list A :=
  match l with
  | [] => []
  | x :: l => if decide (x = w) then l else x :: remove_first w l
  end.

(** The invariant; [sm] says whether the array must be small enough to be
    allocated without the size-shift flag, as [Blank] needs it. *)
Definition queue_cap (sm : bool) : Z :=
  if sm then hw_MAX_BLOCKSIZE HW else hw_MAX_BIGBLOCKSIZE HW.

Definition queue_ok (sm : bool) q : Prop :=
  wf_block (q_array q) /\ (sm = true -> small_block (q_array q)) /\
  2 <= zlen (b_args (q_array q)) <= hw_MAX_BIGBLOCKSIZE HW /\
  0 <= q_read q < zlen (b_args (q_array q)) /\ 0 <= q_write q < zlen (b_args (q_array q)).

End Queue.

(** ** The two layouts of the ring *)

Section Layout.
Context `{Platform} {A : Type} `{EqDecision A}.
Implicit Types (q : Queue A) (w : A) (array : Block A) (l : list A).

Inductive layout : list A -> Z -> Z -> list A -> Prop :=
  | straight p c s r wr :
      r = zlen p -> wr = zlen p + zlen c -> 0 < zlen s -> layout (p ++ c ++ s) r wr c
  | wrapped c2 g c1 r wr :
      wr = zlen c2 -> r = zlen c2 + zlen g -> 0 < zlen g -> 0 < zlen c1 ->
      layout (c2 ++ g ++ c1) r wr (c1 ++ c2).

Lemma layout_contents q l :
  layout (b_args (q_array q)) (q_read q) (q_write q) l -> contents q = l.
Proof.
  unfold contents. intros Hl. inversion Hl as [p c s r wr Er Ew Hs Ea | c2 g c1 r wr Ew Er Hg Hc Ea]; subst.
  - pose proof (zlen_nonneg l). rewrite Er, Ew. case_Zb; [| lia]. apply zseg_pieces; lia.
  - rewrite Er, Ew. case_Zb; [lia |]. rewrite app_assoc, zdrop_pieces by (rewrite zlen_app; lia).
    f_equal. by rewrite <- app_assoc, ztake_pieces.
Qed.

Lemma contents_layout sm q :
  queue_ok sm q -> layout (b_args (q_array q)) (q_read q) (q_write q) (contents q).
Proof.
  intros (_ & _ & Hn & Hr & Hw).
  assert (exists l, layout (b_args (q_array q)) (q_read q) (q_write q) l) as [l Hl].
  { destruct (decide (q_read q <= q_write q)) as [Hle | Hgt].
    - destruct (zsplit (b_args (q_array q)) (q_read q)) as (p & s & Es & Hp); [lia |].
      rewrite Es, zlen_app in *. destruct (zsplit s (q_write q - q_read q)) as (c & t & -> & Hc); [lia |].
      rewrite zlen_app in *. exists c. constructor; lia.
    - destruct (zsplit (b_args (q_array q)) (q_write q)) as (p & s & Es & Hp); [lia |].
      rewrite Es, zlen_app in *. destruct (zsplit s (q_read q - q_write q)) as (c & t & -> & Hc); [lia |].
      rewrite zlen_app in *. exists (t ++ p). constructor; lia. }
  by rewrite (layout_contents _ _ Hl).
Qed.

Lemma layout_zlen args r wr l : layout args r wr l -> 0 <= r < zlen args /\ 0 <= wr < zlen args.
Proof.
  destruct 1; subst; rewrite !zlen_app;
    repeat match goal with |- context [zlen ?x] => pose proof (zlen_nonneg x); generalize dependent (zlen x); intros end; lia.
Qed.

(** Replacing the entries and the indices. *)
Definition with_ring q (args : list A) (r wr : Z) : Queue A :=
  {| q_header := q_header q; q_read := r; q_write := wr;
     q_array := {| b_header := b_header (q_array q); b_args := args |} |}.

Lemma ring_ok sm h (na : Block A) args r wr l :
  wf_block na -> (sm = true -> small_block na) ->
  2 <= zlen (b_args na) <= hw_MAX_BIGBLOCKSIZE HW ->
  layout args r wr l -> zlen args = zlen (b_args na) ->
  let q := {| q_header := h; q_read := r; q_write := wr;
              q_array := {| b_header := b_header na; b_args := args |} |} in
  queue_ok sm q /\ contents q = l.
Proof.
  intros Hwf Hsm Hn Hl Hlen q. split; [| by apply layout_contents].
  apply layout_zlen in Hl as [Hr Hw]. unfold queue_ok, wf_block, small_block, GetSize in *; simpl.
  rewrite Hlen in *. split_and!; try done; try lia.
  intros Esm. destruct (Hsm Esm) as (_ & ? & ?). split; [| done].
  unfold wf_block, GetSize. simpl. by rewrite Hlen.
Qed.

Lemma with_ring_ok sm q args r wr l :
  queue_ok sm q -> layout args r wr l -> zlen args = zlen (b_args (q_array q)) ->
  queue_ok sm (with_ring q args r wr) /\ contents (with_ring q args r wr) = l.
Proof. intros (Hwf & Hsm & Hn & _) Hl Hlen. by apply ring_ok. Qed.

Lemma with_ring_id q : with_ring q (b_args (q_array q)) (q_read q) (q_write q) = q.
Proof. by destruct q as [? ? ? []]. Qed.

Lemma ok_size sm q : queue_ok sm q -> GetSize (q_array q) = zlen (b_args (q_array q)).
Proof. by intros [Hwf _]. Qed.

Lemma ok_width sm q : queue_ok sm q -> 2 <= zlen (b_args (q_array q)) < 2 ^ 30.
Proof.
  intros (_ & _ & Hn & _). split; [lia |].
  rewrite MAX_BIGBLOCKSIZE_eq in Hn. lia.
Qed.

Lemma SetReadIndex_Some q i :
  0 <= i < GetSize (q_array q) ->
  SetReadIndex q i = Some (with_ring q (b_args (q_array q)) i (q_write q)).
Proof.
  intros. unfold SetReadIndex. rewrite (proj2 (Z.leb_le _ _)), (proj2 (Z.ltb_lt _ _)) by lia.
  simpl. unfold with_ring. by destruct q as [? ? ? []].
Qed.

Lemma SetWriteIndex_Some q i :
  0 <= i < GetSize (q_array q) ->
  SetWriteIndex q i = Some (with_ring q (b_args (q_array q)) (q_read q) i).
Proof.
  intros. unfold SetWriteIndex. rewrite (proj2 (Z.leb_le _ _)), (proj2 (Z.ltb_lt _ _)) by lia.
  simpl. unfold with_ring. by destruct q as [? ? ? []].
Qed.

(** *** The operations on layouts *)

Lemma layout_length args r wr l :
  layout args r wr l -> zlen l = (if r <=? wr then wr - r else wr + zlen args - r).
Proof.
  destruct 1; subst; rewrite ?zlen_app; case_Zb; try lia.
  - pose proof (zlen_nonneg c). lia.
Qed.

Lemma layout_empty args r wr l : layout args r wr l -> (r = wr <-> l = []).
Proof.
  intros Hl. pose proof (layout_length _ _ _ _ Hl) as E. pose proof (layout_zlen _ _ _ _ Hl).
  split; [intros -> | intros ->; rewrite zlen_nil in E].
  - apply zlen_0_nil. rewrite E. case_Zb; lia.
  - revert E. case_Zb; lia.
Qed.

Lemma layout_push args r wr l w :
  layout args r wr l ->
  exists args', aset args wr w = Some args' /\ zlen args' = zlen args /\
    let wr' := if wr + 1 =? zlen args then 0 else wr + 1 in
    (wr' <> r -> layout args' r wr' (l ++ [w])) /\
    (wr' = r -> l ++ [w] = zdrop r args' ++ ztake r args' /\ zlen args' = zlen l + 1).
Proof.
  intros Hl. pose proof (layout_zlen _ _ _ _ Hl) as [_ Hb].
  destruct (aset args wr w) as [args' |] eqn:Ha; [| by rewrite aset_Some in Ha].
  exists args'. split; [done |]. split; [by eapply aset_zlen |].
  destruct Hl as [p c s r wr Er Ew Hs | c2 g c1 r wr Ew Er Hg Hc]; cbv zeta.
  - destruct (zlen_pos_cons s Hs) as (x & s' & ->).
    rewrite app_assoc, aset_mid in Ha by (rewrite zlen_app; lia). injection Ha as <-.
    rewrite !zlen_app, zlen_cons. pose proof (zlen_nonneg s'). pose proof (zlen_nonneg p).
    destruct (Z.eqb_spec (wr + 1) (zlen p + (zlen c + (1 + zlen s')))) as [E | E].
    + assert (Es : s' = []) by (apply zlen_0_nil; lia). subst s'. split.
      * intros Hne. pose proof (wrapped [] p (c ++ [w]) r 0) as Hw. rewrite app_nil_r in Hw.
        rewrite <- app_assoc. apply Hw; rewrite ?zlen_app, ?zlen_cons, ?zlen_nil; pose proof (zlen_nonneg c); lia.
      * intros Er'. assert (Ep : p = []) by (apply zlen_0_nil; lia). subst p.
        rewrite <- Er'. rewrite zdrop_0, ztake_0, app_nil_r. split; [done |].
        rewrite ?zlen_app, ?zlen_cons, ?zlen_nil. lia.
    + split; [| pose proof (zlen_nonneg c); lia]. intros _.
      replace ((p ++ c) ++ w :: s') with (p ++ (c ++ [w]) ++ s') by (by rewrite <- !app_assoc).
      apply straight; rewrite ?zlen_app, ?zlen_cons, ?zlen_nil; lia.
  - destruct (zlen_pos_cons g Hg) as (x & g' & ->). simpl in Ha.
    rewrite aset_mid in Ha by lia. injection Ha as <-.
    rewrite !zlen_app, !zlen_cons, !zlen_app in *. pose proof (zlen_nonneg g').
    destruct (Z.eqb_spec (wr + 1) (zlen c2 + (1 + zlen g' + zlen c1))) as [E | E]; [lia |]. split.
    + intros Hne. replace (c2 ++ w :: g' ++ c1) with ((c2 ++ [w]) ++ g' ++ c1) by (by rewrite <- app_assoc).
      rewrite <- (app_assoc c1). apply wrapped; rewrite ?zlen_app, ?zlen_cons, ?zlen_nil; lia.
    + intros Er'. assert (Eg : g' = []) by (apply zlen_0_nil; lia). subst g'.
      replace (c2 ++ w :: [] ++ c1) with ((c2 ++ [w]) ++ c1) by (by rewrite <- app_assoc).
      rewrite zdrop_pieces, ztake_pieces by (rewrite zlen_app, zlen_cons, zlen_nil; lia).
      rewrite <- app_assoc. split; [done |]. rewrite ?zlen_app, ?zlen_cons, ?zlen_nil in *. lia.
Qed.

Lemma layout_pop args r wr x l :
  layout args r wr (x :: l) ->
  aget args r = Some x /\ layout args (if r + 1 =? zlen args then 0 else r + 1) wr l.
Proof.
  intros Hl. inversion Hl as [p c s r' wr' Er Ew Hs Ea | c2 g c1 r' wr' Ew Er Hg Hc Ea Er' Ew' El]; subst.
  - split; [by apply aget_mid |]. rewrite !zlen_app, zlen_cons. pose proof (zlen_nonneg l).
    case_Zb; [lia |]. replace (p ++ (x :: l) ++ s) with ((p ++ [x]) ++ l ++ s) by (by rewrite <- app_assoc).
    apply straight; zl.
  - destruct (zlen_pos_cons c1 Hc) as (x' & c1' & ->). injection El as -> <-.
    split; [rewrite app_assoc; apply aget_mid; by rewrite zlen_app |].
    pose proof (zlen_nonneg c1'). rewrite !zlen_app, zlen_cons. case_Zb.
    + assert (Ec : c1' = []) by (apply zlen_0_nil; lia). subst c1'. simpl.
      apply (straight [] c2); zl.
    + replace (c2 ++ g ++ x :: c1') with (c2 ++ (g ++ [x]) ++ c1') by (by rewrite <- !app_assoc).
      apply wrapped; zl.
Qed.

Lemma layout_nth args r wr l k :
  layout args r wr l -> 0 <= k < zlen l ->
  aget args (if zlen args <=? r + k then r + k - zlen args else r + k) = aget l k.
Proof.
  intros Hl Hk. destruct Hl as [p c s r wr Er Ew Hs | c2 g c1 r wr Ew Er Hg Hc]; rewrite ?zlen_app in *.
  - case_Zb; [lia |]. rewrite aget_app_r, aget_app_l by lia. f_equal. lia.
  - case_Zb.
    + rewrite aget_app_l, aget_app_r by lia. f_equal. lia.
    + rewrite app_assoc, aget_app_r, aget_app_l by (rewrite ?zlen_app; lia).
      rewrite zlen_app. f_equal. lia.
Qed.

(** Closing the gap of a removed entry from its right and from its left. *)
Lemma shift_left (a b rest : list A) x y m :
  m = zlen b \/ m = zlen b + 1 ->
  exists z, blit (a ++ x :: b ++ y :: rest) (zlen a + 1) (a ++ x :: b ++ y :: rest) (zlen a) m
    = Some (a ++ b ++ z :: y :: rest).
Proof.
  intros [-> | ->].
  - assert (exists b' z, x :: b = b' ++ [z]) as (b' & z & E).
    { destruct (exists_last (l := x :: b) ltac:(done)) as (b' & z & E). eauto. }
    exists z. replace (a ++ b ++ z :: y :: rest) with (a ++ b ++ ([z] ++ y :: rest)) by done.
    apply (blit_pieces _ _ _ _ _ (a ++ [x]) b (y :: rest) a b'); try done.
    + by rewrite <- app_assoc.
    + zl.
    + simpl. change (x :: b ++ y :: rest) with ((x :: b) ++ y :: rest). by rewrite E, <- app_assoc.
    + apply (f_equal zlen) in E. rewrite zlen_app, !zlen_cons, zlen_nil in E. lia.
  - exists y. replace (a ++ b ++ y :: y :: rest) with (a ++ (b ++ [y]) ++ y :: rest) by (by rewrite <- !app_assoc).
    apply (blit_pieces _ _ _ _ _ (a ++ [x]) (b ++ [y]) rest a (x :: b)); try done.
    + by rewrite <- !app_assoc.
    + zl.
    + zl.
    + rewrite zlen_cons. lia.
Qed.

Lemma shift_right (a b rest : list A) x :
  exists y, blit (a ++ b ++ x :: rest) (zlen a) (a ++ b ++ x :: rest) (zlen a + 1) (zlen b)
    = Some (a ++ y :: b ++ rest).
Proof.
  assert (exists y b', b ++ [x] = y :: b') as (y & b' & E) by (destruct b; simpl; eauto).
  exists y. replace (a ++ y :: b ++ rest) with ((a ++ [y]) ++ b ++ rest) by (by rewrite <- app_assoc).
  apply (blit_pieces _ _ _ _ _ a b (x :: rest) (a ++ [y]) b'); try done.
  - rewrite <- app_assoc. simpl. rewrite app_comm_cons, <- E. by rewrite <- app_assoc.
  - zl.
  - apply (f_equal zlen) in E. rewrite zlen_app, !zlen_cons, zlen_nil in E. lia.
Qed.

(** Removing from the front part of the ring, up to the end of the array. *)
Lemma layout_cut_front args r wr l1 x l2 :
  layout args r wr (l1 ++ x :: l2) -> r + zlen l1 < zlen args ->
  exists args', blit args r args (r + 1) (zlen l1) = Some args' /\ zlen args' = zlen args /\
    layout args' (if r + 1 =? zlen args then 0 else r + 1) wr (l1 ++ l2).
Proof.
  intros Hl Hk. inversion Hl as [p c s r' wr' Er Ew Hs Ea | c2 g c1 r' wr' Ew Er Hg Hc Ea Er' Ew' El]; subst.
  - destruct (shift_right p l1 (l2 ++ s) x) as (y & E). rewrite <- app_assoc. simpl. rewrite E.
    eexists. split; [reflexivity |]. split; [zl |].
    rewrite !zlen_app, zlen_cons, !zlen_app. pose proof (zlen_nonneg l1). pose proof (zlen_nonneg l2).
    case_Zb; [lia |].
    replace (p ++ y :: l1 ++ l2 ++ s) with ((p ++ [y]) ++ (l1 ++ l2) ++ s) by (by rewrite <- !app_assoc).
    apply straight; zl.
  - rewrite !zlen_app in Hk. assert (exists b, c1 = l1 ++ x :: b /\ l2 = b ++ c2) as (b & -> & ->).
    { apply app_eq_app in El as (k & [[-> Ek] | [-> Ek]]).
      - destruct k as [| x' k]; simpl in Ek; [| injection Ek as -> ->; eauto].
        rewrite app_nil_r in *. lia.
      - destruct k as [| x' k]; simpl in Ek.
        + rewrite app_nil_r in *. lia.
        + rewrite zlen_app, zlen_cons in Hk. pose proof (zlen_nonneg k). lia. }
    destruct (shift_right (c2 ++ g) l1 b x) as (y & E). rewrite zlen_app, <- !app_assoc in E. rewrite E.
    eexists. split; [reflexivity |]. split; [zl |].
    rewrite !zlen_app, zlen_cons. pose proof (zlen_nonneg l1). pose proof (zlen_nonneg b). case_Zb.
    + rewrite (zlen_0_nil l1), (zlen_0_nil b) by lia. simpl.
      apply (straight [] c2); zl.
    + replace (c2 ++ g ++ y :: l1 ++ b) with (c2 ++ (g ++ [y]) ++ (l1 ++ b)) by (by rewrite <- !app_assoc).
      rewrite (app_assoc l1). apply wrapped; zl.
Qed.

(** Removing from the part that ends at the write index. *)
Lemma layout_cut_back args r wr l1 x l2 i m :
  layout args r wr (l1 ++ x :: l2) ->
  i = wr - 1 - zlen l2 -> 0 <= i -> m = zlen l2 \/ m = zlen l2 + 1 ->
  exists args', blit args (i + 1) args i m = Some args' /\ zlen args' = zlen args /\
    0 <= wr - 1 /\ layout args' r (wr - 1) (l1 ++ l2).
Proof.
  intros Hl Hi Hi0 Hm. inversion Hl as [p c s r' wr' Er Ew Hs Ea | c2 g c1 r' wr' Ew Er Hg Hc Ea Er' Ew' El]; subst r' wr'.
  - subst c. destruct (zlen_pos_cons s Hs) as (y & s' & ->).
    destruct (shift_left (p ++ l1) l2 s' x y m Hm) as (z & E).
    rewrite zlen_app, zlen_cons in Ew. assert (Ei : i = zlen (p ++ l1)) by (rewrite zlen_app; lia).
    rewrite <- Ei, <- !app_assoc in E. replace (p ++ (l1 ++ x :: l2) ++ y :: s') with (p ++ l1 ++ x :: l2 ++ y :: s')
      by (by rewrite <- !app_assoc). rewrite E. eexists. split; [reflexivity |].
    split; [zl |].
    pose proof (zlen_nonneg p). pose proof (zlen_nonneg l1). pose proof (zlen_nonneg l2). split; [lia |].
    rewrite (app_assoc l1). apply straight; rewrite ?zlen_app, ?zlen_cons in *; pose proof (zlen_nonneg s'); zl.
  - assert (exists a, c2 = a ++ x :: l2 /\ l1 = c1 ++ a) as (a & -> & ->).
    { apply app_eq_app in El as (k & [[-> Ek] | [-> Ek]]).
      - destruct k as [| x' k]; simpl in Ek.
        + exists []. by rewrite !app_nil_r.
        + injection Ek as -> ->. rewrite zlen_app in Hi. pose proof (zlen_nonneg k). lia.
      - exists k. done. }
    destruct (zlen_pos_cons g Hg) as (y & g' & ->).
    destruct (shift_left a l2 (g' ++ c1) x y m Hm) as (z & E).
    rewrite zlen_app, zlen_cons in Ew. assert (Ei : i = zlen a) by lia. rewrite <- Ei in E.
    replace ((a ++ x :: l2) ++ (y :: g') ++ c1) with (a ++ x :: l2 ++ y :: g' ++ c1) by (by rewrite <- !app_assoc).
    rewrite E. eexists. split; [reflexivity |].
    split; [zl |].
    pose proof (zlen_nonneg a). pose proof (zlen_nonneg l2). split; [lia |].
    replace (a ++ l2 ++ z :: y :: g' ++ c1) with ((a ++ l2) ++ (z :: y :: g') ++ c1) by (by rewrite <- !app_assoc).
    rewrite <- (app_assoc c1). apply wrapped; zl.
Qed.

End Layout.

(** ** The operations on the entries *)

Section QueueOps.
Context `{Platform} {A : Type} `{EqDecision A} (undef zero : A).
Implicit Types (q : Queue A) (w : A) (l : list A).

Lemma queue_cap_le sm : queue_cap sm <= hw_MAX_BIGBLOCKSIZE HW.
Proof. destruct sm; simpl; rewrite ?MAX_BLOCKSIZE_eq, ?MAX_BIGBLOCKSIZE_eq; lia. Qed.

Lemma New_spec sm n :
  2 <= n <= queue_cap sm ->
  queue_ok sm (New undef n) /\ contents (New undef n) = [].
Proof.
  intros Hn. pose proof (queue_cap_le sm) as Hb.
  assert (Hnn : 0 <= n <= hw_MAX_BIGBLOCKSIZE HW) by lia.
  pose proof (TranslateSize_bounds _ Hnn) as [Ht1 Ht2].
  assert (Hl : 0 <= MIN_DATA_LABEL < 128) by done.
  unfold queue_ok; simpl. rewrite zlen_replicate by lia. split_and!; try lia.
  - apply AllocMutableBlock_wf; lia.
  - intros ->. apply AllocMutableBlock_small; simpl in Hn; lia.
  - apply layout_contents. simpl. apply (straight [] []); rewrite ?zlen_replicate by lia; done || lia.
Qed.

Lemma Enlarge_spec sm q l :
  queue_ok sm q -> q_read q = q_write q ->
  l = zdrop (q_read q) (b_args (q_array q)) ++ ztake (q_read q) (b_args (q_array q)) ->
  zlen (b_args (q_array q)) + zlen (b_args (q_array q)) / 2 <= queue_cap sm ->
  exists q', Enlarge undef q (zlen (b_args (q_array q)) / 2) = Some q' /\
    queue_ok sm q' /\ contents q' = l.
Proof.
  intros Hok Erw -> Hcap. pose proof (ok_size _ _ Hok) as Es. pose proof (ok_width _ _ Hok) as Hw.
  pose proof (queue_cap_le sm) as Hb.
  pose proof Hok as (_ & _ & Hn & Hr & _).
  set (old := b_args (q_array q)) in *. set (n := zlen old) in *.
  assert (Hl : 0 <= MIN_DATA_LABEL < 128) by done.
  unfold Enlarge, GetArray, GetReadIndex, GetWriteIndex. rewrite Es, Erw, Z.eqb_refl. simpl.
  assert (Hh : 1 <= n / 2) by (apply Z.div_le_lower_bound; lia).
  assert (Hh' : n / 2 <= n) by (apply Z.div_le_upper_bound; lia).
  rewrite u_int_id32 by lia.
  set (na := AllocMutableBlock undef MIN_DATA_LABEL (n + n / 2)).
  assert (Hnn : 0 <= n + n / 2 <= hw_MAX_BIGBLOCKSIZE HW) by lia.
  pose proof (TranslateSize_bounds _ Hnn) as [Ht1 Ht2].
  assert (Hlen : zlen (b_args na) = TranslateSize (n + n / 2)) by (apply AllocMutableBlock_zlen; lia).
  assert (Hwf : wf_block na) by (apply AllocMutableBlock_wf; lia).
  assert (Hsm : sm = true -> small_block na).
  { intros ->. apply AllocMutableBlock_small; simpl in Hcap; lia. }
  clearbody na. unfold wf_block in Hwf.
  destruct (zsplit old (q_write q)) as (a & b & Eab & Ha); [lia |].
  assert (Hab : n = zlen a + zlen b) by (unfold n; by rewrite Eab, zlen_app).
  pose proof (zlen_nonneg b).
  destruct (zsplit (b_args na) (zlen b)) as (o1 & s1 & Eo & Ho1); [lia |].
  assert (Hs1 : zlen s1 = TranslateSize (n + n / 2) - zlen b) by (rewrite Eo, zlen_app in Hlen; lia).
  destruct (zsplit s1 (zlen a)) as (o2 & s2 & -> & Ho2); [lia |].
  rewrite zlen_app in Hs1. unfold block_move. fold old. rewrite <- Ha. replace (n - zlen a) with (zlen b) by lia.
  rewrite (blit_pieces _ _ _ _ _ a b [] [] o1 (o2 ++ s2)) by (rewrite ?app_nil_r; done || lia). simpl.
  rewrite (blit_pieces _ _ _ _ _ [] a b b o2 s2) by done || lia. simpl.
  rewrite SetReadIndex_Some by (change (GetSize (q_array _)) with (GetSize na); lia). simpl.
  rewrite SetWriteIndex_Some by (change (GetSize (q_array _)) with (GetSize na); lia). simpl.
  eexists. split; [reflexivity |].
  assert (El : layout (b ++ a ++ s2) 0 n (zdrop (zlen a) old ++ ztake (zlen a) old)).
  { rewrite Eab, zdrop_pieces, ztake_pieces by lia. rewrite (app_assoc b).
    apply (straight []); rewrite ?zlen_app; try done; simpl; rewrite ?zlen_nil; lia. }
  apply (ring_ok sm (q_header q) na); try done; rewrite ?Eo, ?zlen_app in *; lia.
Qed.

(** The size after an [Enqueue] that has to enlarge must still fit. *)
Lemma Enqueue_spec sm q w :
  queue_ok sm q ->
  zlen (contents q) + 1 + (zlen (contents q) + 1) / 2 <= queue_cap sm ->
  exists q', Enqueue undef q w = Some q' /\ queue_ok sm q' /\ contents q' = contents q ++ [w].
Proof.
  intros Hok Hcap. pose proof (contents_layout _ _ Hok) as Hl. pose proof (ok_size _ _ Hok) as Es.
  destruct (layout_push _ _ _ _ w Hl) as (args & Ea & Elen & Hne & Heq).
  unfold Enqueue, GetArray, GetWriteIndex, GetReadIndex, InitArg. rewrite Ea. simpl.
  change (GetSize {| b_header := b_header (q_array q); b_args := args |}) with (GetSize (q_array q)).
  rewrite Es. set (wr := if _ =? _ then _ else _) in *.
  assert (Hwr : 0 <= wr < zlen (b_args (q_array q))).
  { pose proof (layout_zlen _ _ _ _ Hl). unfold wr. destruct (Z.eqb_spec (q_write q + 1) (zlen (b_args (q_array q)))); lia. }
  rewrite SetWriteIndex_Some by (change (0 <= wr < GetSize (q_array q)); lia). simpl.
  change (with_ring (SetArray q _) _ _ _) with (with_ring q args (q_read q) wr).
  destruct (Z.eqb_spec wr (q_read q)) as [E | E].
  - destruct (Heq E) as [El Ell].
    set (q1 := with_ring q args (q_read q) wr).
    assert (Hok1 : queue_ok sm q1).
    { destruct Hok as (Hwf & Hsm & Hn & Hr & _). unfold queue_ok, small_block, wf_block, GetSize in *; simpl.
      rewrite Elen. by split_and!; try lia. }
    rewrite <- Elen. apply (Enlarge_spec sm q1); try done.
    simpl. rewrite <- Ell in Hcap. lia.
  - eexists. split; [reflexivity |]. by apply with_ring_ok; auto.
Qed.

Lemma scan_spec (b : Block A) w p c s :
  b_args b = p ++ c ++ s ->
  (w ∉ c -> scan b (zlen p) (length c) w = Some None) /\
  (forall c1 c2, c = c1 ++ w :: c2 -> w ∉ c1 ->
     scan b (zlen p) (length c) w = Some (Some (zlen p + zlen c1))).
Proof.
  revert p. induction c as [| x c IH]; intros p Eb; simpl in *.
  { split; [done |]. intros c1 c2 E. by destruct c1. }
  unfold GetArg. rewrite Eb, aget_mid by done. simpl.
  destruct (IH (p ++ [x])) as [IHn IHs]; [by rewrite Eb, <- app_assoc |].
  replace (zlen (p ++ [x])) with (zlen p + 1) in * by zl. case_decide as Hx.
  - subst x. split; [intros Hw; exfalso; apply Hw; by left |].
    intros c1 c2 E Hn. destruct c1 as [| y c1]; [by rewrite zlen_nil, Z.add_0_r |].
    injection E as -> ->. exfalso. apply Hn. by left.
  - split.
    + intros Hw. apply IHn. intros Hc. apply Hw. by right.
    + intros c1 c2 E Hn. destruct c1 as [| y c1]; [by injection E as -> ->|].
      injection E as -> ->. rewrite (IHs c1 c2 eq_refl); [| intros Hc; apply Hn; by right].
      rewrite zlen_cons. f_equal. f_equal. lia.
Qed.

Lemma scan_upto_spec (b : Block A) w p c s lo hi :
  b_args b = p ++ c ++ s -> lo = zlen p -> hi = zlen p + zlen c ->
  (w ∉ c -> scan_upto b lo hi w = Some None) /\
  (forall c1 c2, c = c1 ++ w :: c2 -> w ∉ c1 -> scan_upto b lo hi w = Some (Some (lo + zlen c1))).
Proof.
  intros Eb -> ->. unfold scan_upto. replace (Z.to_nat _) with (length c) by (unfold zlen; lia).
  by eapply scan_spec.
Qed.

Lemma remove_first_notin w l : w ∉ l -> remove_first w l = l.
Proof.
  induction l as [| x l IH]; simpl; [done |]. intros Hw. case_decide as E.
  - exfalso. apply Hw. subst. by left.
  - f_equal. apply IH. intros Hl. apply Hw. by right.
Qed.

Lemma remove_first_split w l1 l2 : w ∉ l1 -> remove_first w (l1 ++ w :: l2) = l1 ++ l2.
Proof.
  induction l1 as [| x l IH]; simpl; intros Hw.
  - by rewrite decide_True.
  - rewrite decide_False by (intros ->; apply Hw; by left). f_equal. apply IH.
    intros Hl. apply Hw. by right.
Qed.

Lemma remove_first_NoDup w l :
  NoDup l -> NoDup (remove_first w l) /\ forall x, x ∈ remove_first w l <-> x ∈ l /\ x <> w.
Proof.
  induction 1 as [| y l Hy Hl [IH1 IH2]]; simpl.
  - split; [constructor |]. intros x. rewrite elem_of_nil. naive_solver.
  - case_decide as E; [subst y |].
    + split; [done |]. intros x. rewrite elem_of_cons. split; [| naive_solver].
      intros Hx. split; [by right |]. by intros ->.
    + split; [constructor; [rewrite IH2; by intros [? _] | done] |].
      intros x. rewrite !elem_of_cons, IH2. naive_solver.
Qed.

Lemma elem_of_first w l : w ∈ l -> exists l1 l2, l = l1 ++ w :: l2 /\ w ∉ l1.
Proof.
  induction l as [| x l IH]; [by intros ?%not_elem_of_nil |].
  destruct (decide (x = w)) as [-> | Hne].
  - intros _. exists [], l. split; [done | apply not_elem_of_nil].
  - intros [-> | Hl]%elem_of_cons; [done |]. destruct (IH Hl) as (l1 & l2 & -> & Hn).
    exists (x :: l1), l2. split; [done |]. by intros [-> | ?]%elem_of_cons.
Qed.

(** [array_step] is the effect of a [block_move] inside the array on the ring. *)
Lemma block_move_self q so d n args :
  blit (b_args (q_array q)) so (b_args (q_array q)) d n = Some args ->
  block_move (q_array q) so (q_array q) d n = Some {| b_header := b_header (q_array q); b_args := args |}.
Proof. intros E. unfold block_move. by rewrite E. Qed.

Lemma IsEmpty_spec sm q : queue_ok sm q -> IsEmpty q = bool_decide (contents q = []).
Proof.
  intros Hok. pose proof (layout_empty _ _ _ _ (contents_layout _ _ Hok)) as He.
  unfold IsEmpty, GetWriteIndex, GetReadIndex. destruct (Z.eqb_spec (q_write q) (q_read q)) as [E | E].
  - symmetry. apply bool_decide_eq_true. by apply He.
  - symmetry. apply bool_decide_eq_false. intros Hc. apply E. symmetry. by apply He.
Qed.

Lemma Count_spec sm q : queue_ok sm q -> GetNumberOfElements q = zlen (contents q).
Proof.
  intros Hok. pose proof (contents_layout _ _ Hok) as Hl. pose proof (ok_width _ _ Hok).
  rewrite (layout_length _ _ _ _ Hl). pose proof (layout_zlen _ _ _ _ Hl).
  unfold GetNumberOfElements, GetWriteIndex, GetReadIndex, GetArray. rewrite (ok_size _ _ Hok).
  rewrite u_int_id32 by lia. repeat case_Zb; lia.
Qed.

Lemma Nth_spec sm q k :
  queue_ok sm q -> 0 <= k -> GetNthElement q k = aget (contents q) k.
Proof.
  intros Hok Hk. unfold GetNthElement. rewrite (Count_spec _ _ Hok). case_Zb.
  - unfold GetArg, GetReadIndex, GetArray. rewrite (ok_size _ _ Hok).
    eapply layout_nth; [by eapply contents_layout | lia].
  - by rewrite aget_None by lia.
Qed.

Lemma Dequeue_spec sm q x l :
  queue_ok sm q -> contents q = x :: l ->
  exists q', Dequeue q = Some (x, q') /\ queue_ok sm q' /\ contents q' = l.
Proof.
  intros Hok Hc. pose proof (contents_layout _ _ Hok) as Hl. rewrite Hc in Hl.
  unfold Dequeue. rewrite (IsEmpty_spec _ _ Hok), Hc. simpl.
  destruct (layout_pop _ _ _ _ _ Hl) as [Eg Hl']. unfold GetArg, GetReadIndex, GetArray. rewrite Eg. simpl.
  rewrite (ok_size _ _ Hok). pose proof (layout_zlen _ _ _ _ Hl').
  rewrite SetReadIndex_Some by (rewrite (ok_size _ _ Hok); lia). simpl.
  eexists. split; [reflexivity |]. by apply with_ring_ok.
Qed.

Lemma Dequeue_empty sm q : queue_ok sm q -> contents q = [] -> Dequeue q = None.
Proof. intros Hok Hc. unfold Dequeue. by rewrite (IsEmpty_spec _ _ Hok), Hc. Qed.

Lemma RemoveNth_spec sm q l1 x l2 :
  queue_ok sm q -> contents q = l1 ++ x :: l2 ->
  exists q', RemoveNthElement q (zlen l1) = Some q' /\ queue_ok sm q' /\ contents q' = l1 ++ l2.
Proof.
  intros Hok Hc. pose proof (contents_layout _ _ Hok) as Hl. pose proof (layout_length _ _ _ _ Hl) as El.
  pose proof (layout_zlen _ _ _ _ Hl) as [Hr Hw]. rewrite Hc in *. pose proof (zlen_nonneg l2).
  unfold RemoveNthElement. rewrite (Count_spec _ _ Hok), Hc, zlen_app, zlen_cons in *.
  pose proof (zlen_nonneg l1). rewrite (proj2 (Z.ltb_lt _ _)) by lia.
  unfold GetArray, GetReadIndex, GetWriteIndex. rewrite (ok_size _ _ Hok).
  destruct (Z.leb_spec (zlen (b_args (q_array q))) (q_read q + zlen l1)).
  - set (i := q_read q + zlen l1 - zlen (b_args (q_array q))) in *.
    assert (Hi : i = q_write q - 1 - zlen l2) by (revert El; case_Zb; lia).
    destruct (layout_cut_back _ _ _ _ _ _ i (q_write q - i - 1) Hl Hi) as (args & Eb & Elen & Hw0 & Hl'); [lia | lia |].
    rewrite (block_move_self _ _ _ _ _ Eb). simpl.
    rewrite SetWriteIndex_Some by (change (GetSize _) with (GetSize (q_array q)); rewrite (ok_size _ _ Hok); lia).
    eexists. split; [reflexivity |]. by apply (with_ring_ok sm q).
  - destruct (layout_cut_front _ _ _ _ _ _ Hl) as (args & Eb & Elen & Hl'); [lia |].
    replace (q_read q + zlen l1 - q_read q) with (zlen l1) by lia.
    rewrite (block_move_self _ _ _ _ _ Eb). simpl. pose proof (layout_zlen _ _ _ _ Hl').
    rewrite SetReadIndex_Some by (change (GetSize _) with (GetSize (q_array q)); rewrite (ok_size _ _ Hok); lia).
    eexists. split; [reflexivity |]. by apply (with_ring_ok sm q).
Qed.

Lemma Remove_end_spec sm q lo w l0 p c s :
  queue_ok sm q -> layout (b_args (q_array q)) (q_read q) (q_write q) (l0 ++ c) ->
  b_args (q_array q) = p ++ c ++ s -> lo = zlen p -> q_write q = zlen p + zlen c -> w ∉ l0 ->
  exists q', Remove_end q lo w = Some q' /\ queue_ok sm q' /\ contents q' = remove_first w (l0 ++ c).
Proof.
  intros Hok Hl Ea Elo Ew Hn. unfold Remove_end, GetArray, GetWriteIndex.
  destruct (scan_upto_spec (q_array q) w p c s lo (q_write q) Ea Elo Ew) as [Sn Ss].
  destruct (decide (w ∈ c)) as [Hc | Hc].
  - destruct (elem_of_first _ _ Hc) as (c1 & c2 & -> & Hc1). rewrite (Ss c1 c2 eq_refl Hc1). simpl.
    rewrite app_assoc in Hl. pose proof (zlen_nonneg p). pose proof (zlen_nonneg c1).
    destruct (layout_cut_back _ _ _ _ _ _ (lo + zlen c1) (q_write q - (lo + zlen c1)) Hl)
      as (args & Eb & Elen & Hw0 & Hl'); [zl | lia | right; zl |].
    rewrite (block_move_self _ _ _ _ _ Eb). simpl. pose proof (layout_zlen _ _ _ _ Hl').
    rewrite SetWriteIndex_Some by (change (GetSize _) with (GetSize (q_array q)); rewrite (ok_size _ _ Hok); lia).
    eexists. split; [reflexivity |]. rewrite app_assoc, remove_first_split, <- app_assoc.
    + rewrite app_assoc. by apply (with_ring_ok sm q).
    + by rewrite elem_of_app; intros [|].
  - rewrite (Sn Hc). simpl. exists q. rewrite remove_first_notin.
    + split; [done |]. split; [done | by apply layout_contents].
    + by rewrite elem_of_app; intros [|].
Qed.

Lemma Remove_spec sm q w :
  queue_ok sm q ->
  exists q', Remove q w = Some q' /\ queue_ok sm q' /\ contents q' = remove_first w (contents q).
Proof.
  intros Hok. pose proof (contents_layout _ _ Hok) as Hl. unfold Remove, GetReadIndex, GetWriteIndex, GetArray.
  destruct (Z.eqb_spec (q_read q) (q_write q)) as [E | E].
  { exists q. apply (layout_empty _ _ _ _ Hl) in E. by rewrite E. }
  pose proof (ok_size _ _ Hok) as Es. remember (contents q) as l eqn:Ec.
  inversion Hl as [p c s r wr Er Ew Hs Ea | c2 g c1 r wr Ew Er Hg Hc Ea Er' Ew' El].
  - assert (Hrw : q_read q <= q_write q) by (pose proof (zlen_nonneg l); lia).
    rewrite (proj2 (Z.ltb_ge _ _)) by lia.
    subst c. apply (Remove_end_spec sm q _ w [] p l s); try done. apply not_elem_of_nil.
  - rewrite (proj2 (Z.ltb_lt _ _)) by lia. rewrite Es.
    destruct (scan_upto_spec (q_array q) w (c2 ++ g) c1 [] (q_read q) (zlen (b_args (q_array q)))) as [Sn Ss];
      [by rewrite app_nil_r, <- app_assoc | zl | rewrite <- Ea; zl |].
    destruct (decide (w ∈ c1)) as [Hw | Hw].
    + destruct (elem_of_first _ _ Hw) as (a & b & -> & Hna). rewrite (Ss a b eq_refl Hna). simpl.
      assert (Hl1 : layout (b_args (q_array q)) (q_read q) (q_write q) (a ++ w :: (b ++ c2)))
        by (rewrite <- El in Hl; by rewrite <- app_assoc in Hl).
      destruct (layout_cut_front _ _ _ _ _ _ Hl1) as (args & Eb & Elen & Hl');
        [rewrite <- Ea; pose proof (zlen_nonneg b); zl |].
      replace (q_read q + zlen a - q_read q) with (zlen a) by lia.
      rewrite (block_move_self _ _ _ _ _ Eb). simpl. pose proof (layout_zlen _ _ _ _ Hl') as [H1 _].
      assert (Emod : (q_read q + 1) mod zlen (b_args (q_array q)) =
                     (if q_read q + 1 =? zlen (b_args (q_array q)) then 0 else q_read q + 1)).
      { pose proof (layout_zlen _ _ _ _ Hl) as [H2 _]. destruct (Z.eqb_spec (q_read q + 1) (zlen (b_args (q_array q)))) as [E2 | E2]; [rewrite E2; apply Z.mod_same; lia |].
        apply Z.mod_small. lia. }
      rewrite Emod.
      rewrite SetReadIndex_Some by (change (GetSize _) with (GetSize (q_array q)); rewrite Es; lia).
      eexists. split; [reflexivity |]. rewrite <- app_assoc. simpl. rewrite remove_first_split by done.
      by apply (with_ring_ok sm q).
    + rewrite (Sn Hw). simpl. apply (Remove_end_spec sm q 0 w c1 [] c2 (g ++ c1)); try done.
      by rewrite El.
Qed.

Lemma Clone_spec sm q :
  queue_ok sm q -> zlen (b_args (q_array q)) <= hw_MAX_BLOCKSIZE HW ->
  exists q', Clone undef q = Some q' /\ queue_ok sm q' /\ contents q' = contents q.
Proof.
  intros Hok Hcap. pose proof (contents_layout _ _ Hok) as Hl. pose proof (ok_size _ _ Hok) as Es.
  pose proof (layout_zlen _ _ _ _ Hl) as [Hr Hw]. pose proof Hok as (_ & _ & Hn & _ & _).
  unfold Clone, GetArray, GetReadIndex, GetWriteIndex. rewrite Es.
  set (n := zlen (b_args (q_array q))) in *.
  destruct (New_spec sm n) as [(Hwf & Hsm & Hn' & _) _].
  { rewrite MAX_BLOCKSIZE_eq in Hcap. destruct sm; simpl; rewrite ?MAX_BLOCKSIZE_eq, ?MAX_BIGBLOCKSIZE_eq; lia. }
  set (c := New undef n) in *.
  assert (Hlen : zlen (b_args (q_array c)) = n).
  { simpl. rewrite TranslateSize_small by lia. apply zlen_replicate. lia. }
  assert (Hgs : GetSize (q_array c) = n) by (rewrite <- Hlen; done).
  rewrite SetReadIndex_Some by lia. simpl.
  rewrite SetWriteIndex_Some by (change (GetSize _) with (GetSize (q_array c)); lia). simpl.
  unfold block_move. rewrite (blit_pieces _ _ _ _ _ [] (b_args (q_array q)) [] [] (replicate (Z.to_nat (TranslateSize n)) undef) [])
    by (rewrite ?app_nil_r; done). simpl. rewrite app_nil_r.
  eexists. split; [reflexivity |]. by apply (ring_ok sm (q_header c) (q_array c)).
Qed.

(** The slots of the array that hold an entry. *)
Definition slot_live q (i : Z) : Prop :=
  if q_read q <=? q_write q then q_read q <= i < q_write q else i < q_write q \/ q_read q <= i.

(** Every other slot holds the integer 0. *)
Definition blanked q : Prop :=
  forall i, 0 <= i < zlen (b_args (q_array q)) -> ~ slot_live q i -> aget (b_args (q_array q)) i = Some zero.

Lemma aget_replicate_mid (p s : list A) n (v : A) i :
  zlen p <= i < zlen p + n -> aget (p ++ replicate (Z.to_nat n) v ++ s) i = Some v.
Proof.
  intros Hi. rewrite aget_app_r, aget_app_l by (rewrite ?zlen_replicate; lia).
  apply aget_replicate. lia.
Qed.

Lemma Blank_fill_spec sm q :
  queue_ok sm q -> contents q <> [] ->
  exists q', Blank_fill zero q (zlen (b_args (q_array q))) = Some q' /\ queue_ok sm q' /\
    contents q' = contents q /\ zlen (b_args (q_array q')) = zlen (b_args (q_array q)) /\ blanked q'.
Proof.
  intros Hok Hne. pose proof (contents_layout _ _ Hok) as Hl. unfold Blank_fill, GetReadIndex, GetWriteIndex, GetArray, block_fill.
  remember (contents q) as l eqn:Ec.
  inversion Hl as [p c s r wr Er Ew Hs Ea | c2 g c1 r wr Ew Er Hg Hc Ea Er' Ew' El].
  - subst c. pose proof (zlen_nonneg p). assert (0 < zlen l).
    { pose proof (zlen_nonneg l). destruct (decide (zlen l = 0)) as [E%zlen_0_nil |]; [done | lia]. }
    rewrite (proj2 (Z.ltb_lt _ _)) by lia.
    rewrite (afill_pieces (p ++ l ++ s) 0 (q_read q) zero [] p (l ++ s)) by done. simpl.
    assert (Hrp : zlen (replicate (Z.to_nat (zlen p)) zero) = zlen p) by (apply zlen_replicate; lia).
    rewrite (afill_pieces _ (q_write q) (zlen (p ++ l ++ s)) zero (replicate (Z.to_nat (zlen p)) zero ++ l) s [])
      by (rewrite ?app_nil_r, <- ?app_assoc; try done; zl). simpl.
    eexists. split; [reflexivity |]. rewrite app_nil_r, <- app_assoc.
    assert (Hrs : zlen (replicate (Z.to_nat (zlen s)) zero) = zlen s) by (apply zlen_replicate; lia).
    match goal with |- queue_ok _ ?q' /\ _ => assert (Hq : queue_ok sm q' /\ contents q' = l) end.
    { apply (with_ring_ok sm q); [done | | rewrite <- Ea; zl]. apply straight; lia. }
    destruct Hq as [Hq1 Hq2]. split; [done |]. split; [done |]. split; [simpl; zl |].
    intros i Hi Hlive. unfold slot_live in Hlive. simpl in *. rewrite (proj2 (Z.leb_le _ _)) in Hlive by lia.
    destruct (decide (i < q_read q)).
    + rewrite aget_app_l by lia. apply aget_replicate. lia.
    + rewrite app_assoc, <- (app_nil_r (replicate (Z.to_nat (zlen s)) zero)).
      apply aget_replicate_mid. zl.
  - pose proof (zlen_nonneg c2). rewrite (proj2 (Z.ltb_ge _ _)) by lia.
    rewrite (afill_pieces (c2 ++ g ++ c1) (q_write q) (q_read q) zero c2 g c1) by (done || lia). simpl.
    eexists. split; [reflexivity |].
    assert (Hrs : zlen (replicate (Z.to_nat (zlen g)) zero) = zlen g) by (apply zlen_replicate; lia).
    match goal with |- queue_ok _ ?q' /\ _ => assert (Hq : queue_ok sm q' /\ contents q' = c1 ++ c2) end.
    { apply (with_ring_ok sm q); [done | | rewrite <- Ea; zl]. apply wrapped; lia. }
    destruct Hq as [Hq1 Hq2]. split; [done |]. split; [done |]. split; [simpl; zl |].
    intros i Hi Hlive. unfold slot_live in Hlive. simpl in *. rewrite (proj2 (Z.leb_gt _ _)) in Hlive by lia.
    apply aget_replicate_mid. lia.
Qed.

Lemma shrink_ring q (args : list A) r wr n l :
  queue_ok true q -> zlen args = zlen (b_args (q_array q)) ->
  2 <= n <= zlen args -> layout (ztake n args) r wr l ->
  exists h, ShrinkBlock {| b_header := b_header (q_array q); b_args := args |} n =
      Some {| b_header := h; b_args := ztake n args |} /\
    let q' := {| q_header := q_header q; q_read := r; q_write := wr;
                 q_array := {| b_header := h; b_args := ztake n args |} |} in
    queue_ok true q' /\ contents q' = l.
Proof.
  intros Hok Elen Hn Hl. pose proof Hok as (_ & Hsm & Hb & _). destruct (Hsm eq_refl) as (Hwf & Hmax & Hbig).
  set (b := {| b_header := b_header (q_array q); b_args := args |}).
  assert (Hsmall : small_block b).
  { split; [| split; simpl; [lia | done]]. unfold wf_block, GetSize in *. simpl. lia. }
  destruct (ShrinkBlock_small b n Hsmall) as (h & E & Hd & Hb'); [simpl; lia |].
  exists h. split; [exact E |]. simpl in *.
  apply (ring_ok true (q_header q) {| b_header := h; b_args := ztake n args |}); try done; simpl.
  - unfold wf_block, GetSize. simpl. rewrite zlen_ztake; lia.
  - intros _. unfold small_block, wf_block, GetSize. simpl. rewrite zlen_ztake by lia. split_and!; try done; lia.
  - rewrite zlen_ztake; lia.
Qed.

Lemma Blank_compact_spec q n :
  queue_ok true q -> contents q <> [] -> zlen (contents q) < n < zlen (b_args (q_array q)) ->
  exists q', Blank_compact q (zlen (contents q)) n = Some q' /\ queue_ok true q' /\
    contents q' = contents q /\ zlen (b_args (q_array q')) = n.
Proof.
  intros Hok Hne Hn. pose proof (contents_layout _ _ Hok) as Hl. pose proof (ok_size _ _ Hok) as Es.
  unfold Blank_compact, GetReadIndex, GetWriteIndex, GetArray. remember (contents q) as l eqn:Ec.
  assert (0 < zlen l).
  { pose proof (zlen_nonneg l). destruct (decide (zlen l = 0)) as [E%zlen_0_nil |]; [done | lia]. }
  pose proof (ok_width _ _ Hok) as Hwd.
  inversion Hl as [p c s r wr Er Ew Hs Ea | c2 g c1 r wr Ew Er Hg Hc Ea Er' Ew' El].
  - subst c. pose proof (zlen_nonneg p). rewrite (proj2 (Z.ltb_lt _ _)) by lia.
    destruct (Z.leb_spec n (q_write q)).
    + destruct (zsplit (b_args (q_array q)) (zlen l)) as (o & rest & Eo & Ho); [lia |].
      rewrite (block_move_self q (q_read q) 0 (zlen l) (l ++ rest)).
      2: { rewrite Eo at 2. by apply (blit_pieces _ _ _ _ _ p l s [] o rest). } simpl.
      assert (Elen : zlen (l ++ rest) = zlen (b_args (q_array q))) by (rewrite Eo; zl).
      assert (Hg : GetSize {| b_header := b_header (q_array q); b_args := l ++ rest |} = zlen (b_args (q_array q))) by done.
      rewrite SetReadIndex_Some by (simpl; lia). simpl.
      rewrite SetWriteIndex_Some by (simpl; lia). simpl.
      destruct (shrink_ring q (l ++ rest) 0 (zlen l) n l) as (h & E & Hq1 & Hq2); [done.. | lia | |].
      { rewrite ztake_app_ge by lia. apply (straight []); [done | done |].
        rewrite zlen_ztake; zl. }
      rewrite E. simpl. eexists. split; [reflexivity |]. split; [exact Hq1 |]. split; [exact Hq2 |].
      simpl. apply zlen_ztake. lia.
    + simpl. destruct (shrink_ring q (b_args (q_array q)) (q_read q) (q_write q) n l) as (h & E & Hq1 & Hq2); [done.. | lia | |].
      { rewrite <- Ea in Hn |- *. rewrite app_assoc, ztake_app_ge, <- app_assoc by zl.
        apply straight; [lia.. |]. rewrite zlen_ztake; zl. }
      replace {| b_header := _; b_args := _ |} with (q_array q) in E by (by destruct (q_array q)).
      rewrite E. simpl. eexists. split; [reflexivity |]. split; [exact Hq1 |]. split; [exact Hq2 |].
      simpl. apply zlen_ztake. lia.
  - pose proof (zlen_nonneg c2). rewrite (proj2 (Z.ltb_ge _ _)) by lia. rewrite Es.
    assert (Hn1 : zlen (b_args (q_array q)) - q_read q = zlen c1) by (rewrite <- Ea; zl). rewrite Hn1.
    assert (Hn2 : zlen c2 < n - zlen c1) by (rewrite <- El, zlen_app in Hn; lia).
    rewrite u_int_id32 by (pose proof (zlen_nonneg c1); lia).
    destruct (zsplit (b_args (q_array q)) (n - zlen c1)) as (o1 & s1 & Eo & Ho1); [lia |].
    destruct (zsplit s1 (zlen c1)) as (o2 & s2 & -> & Ho2); [rewrite Eo in Hn; zl |].
    rewrite (block_move_self q (q_read q) (n - zlen c1) (zlen c1) (o1 ++ c1 ++ s2)).
    2: { rewrite Eo at 2. apply (blit_pieces _ _ _ _ _ (c2 ++ g) c1 [] o1 o2 s2); try done.
         - by rewrite <- Ea, app_nil_r, app_assoc.
         - zl. }
    assert (Elen : zlen (o1 ++ c1 ++ s2) = zlen (b_args (q_array q))) by (rewrite Eo; zl).
    assert (Hgz : GetSize {| b_header := b_header (q_array q); b_args := o1 ++ c1 ++ s2 |} = zlen (b_args (q_array q))) by done.
    simpl. rewrite SetReadIndex_Some by (simpl; pose proof (zlen_nonneg c1); lia). simpl.
    assert (Ho : exists o, o1 = c2 ++ o).
    { rewrite <- Ea in Eo. apply app_eq_app in Eo as (k & [[E _] | [E _]]); [| by exists k].
      apply (f_equal zlen) in E. rewrite zlen_app in E. pose proof (zlen_nonneg k). exists []. zl. }
    destruct Ho as (o & ->).
    destruct (shrink_ring q ((c2 ++ o) ++ c1 ++ s2) (n - zlen c1) (q_write q) n (c1 ++ c2)) as (h & E & Hq1 & Hq2);
      [done.. | lia | |].
    { rewrite app_assoc, ztake_pieces by zl. rewrite <- app_assoc. apply wrapped; zl. }
    rewrite E. simpl. eexists. split; [reflexivity |]. split; [exact Hq1 |]. split; [exact Hq2 |].
    simpl. apply zlen_ztake. lia.
Qed.

(** [Blank] of a queue with entries keeps them, may shrink the array and
    clears every free slot; on an empty queue it does nothing at all. *)
Lemma Blank_spec q :
  queue_ok true q -> contents q <> [] ->
  exists q', Blank zero q = Some q' /\ queue_ok true q' /\ contents q' = contents q /\
    zlen (b_args (q_array q')) <= zlen (b_args (q_array q)) /\ blanked q'.
Proof.
  intros Hok Hne. pose proof (contents_layout _ _ Hok) as Hl. pose proof (ok_size _ _ Hok) as Es.
  pose proof (ok_width _ _ Hok) as Hwd. pose proof (layout_length _ _ _ _ Hl) as Hlen.
  pose proof (layout_zlen _ _ _ _ Hl) as [Hr Hw].
  assert (Hpos : 0 < zlen (contents q)).
  { pose proof (zlen_nonneg (contents q)). destruct (decide (zlen (contents q) = 0)) as [E%zlen_0_nil |]; [done | lia]. }
  set (n := zlen (contents q)) in *. set (old := zlen (b_args (q_array q))) in *.
  assert (Hn : Blank_entries q = n).
  { unfold Blank_entries, GetArray, GetWriteIndex, GetReadIndex. rewrite Es. fold old.
    rewrite u_int_id32 by lia. revert Hlen. repeat case_Zb; lia. }
  assert (Hno : n < old) by (revert Hlen; case_Zb; lia).
  unfold Blank, GetArray. rewrite Hn, Es. fold old.
  set (ns := (n * 3 / 2 + 1 + old) / 2).
  assert (Hns : n < ns) by (unfold ns; Z.div_mod_to_equations; lia).
  rewrite (proj2 (Z.eqb_neq _ _)), (proj2 (Z.leb_gt _ _)) by lia. simpl.
  assert (Eb : Blank_size n old = ns).
  { unfold Blank_size. fold ns. rewrite (proj2 (Z.ltb_ge _ _)); lia. }
  rewrite Eb. destruct (Z.leb_spec old ns).
  - destruct (Blank_fill_spec _ q Hok Hne) as (q' & E & Hq1 & Hq2 & Hq3 & Hq4).
    exists q'. split_and!; try done. unfold old. lia.
  - destruct (Blank_compact_spec q ns Hok Hne) as (q1 & E1 & Hk1 & Hc1 & Hz1); [lia |].
    fold n in E1. rewrite E1. simpl.
    destruct (Blank_fill_spec _ q1 Hk1) as (q' & E & Hq1 & Hq2 & Hq3 & Hq4); [by rewrite Hc1 |].
    rewrite Hz1 in *. exists q'. split_and!; try done; [by rewrite Hq2 | lia].
Qed.

Lemma Blank_empty sm q : queue_ok sm q -> contents q = [] -> Blank zero q = Some q.
Proof.
  intros Hok Hc. pose proof (contents_layout _ _ Hok) as Hl. pose proof (ok_size _ _ Hok) as Es.
  pose proof (ok_width _ _ Hok) as Hwd. pose proof (proj2 (layout_empty _ _ _ _ Hl) Hc) as Erw.
  assert (Hn : Blank_entries q = zlen (b_args (q_array q))).
  { unfold Blank_entries, GetArray, GetWriteIndex, GetReadIndex. rewrite Es, Erw.
    rewrite u_int_id32 by lia. case_Zb; lia. }
  unfold Blank, GetArray. rewrite Hn, Es. set (n := zlen (b_args (q_array q))) in *.
  set (ns := (n * 3 / 2 + 1 + n) / 2).
  assert (Hns : n < ns) by (unfold ns; Z.div_mod_to_equations; lia).
  rewrite (proj2 (Z.eqb_neq _ _)), (proj2 (Z.leb_gt _ _)) by lia. simpl.
  unfold Blank_size. fold ns. rewrite (proj2 (Z.ltb_ge ns 2)) by lia. rewrite (proj2 (Z.leb_le _ _)) by lia.
  unfold Blank_fill, GetReadIndex, GetWriteIndex. rewrite Erw, Z.ltb_irrefl.
  unfold block_fill, afill. rewrite decide_True by lia. simpl. by destruct q as [? ? ? []].
Qed.

End QueueOps.

(** ** The queue interface

    What the clients of a queue (the scheduler's thread queues) rely on: an
    order of entries and the effect of each operation on it. *)

Class FIFO (Q A : Type) `{EqDecision A} := {
  fifo_ok : Q -> Prop;
  fifo_list : Q -> list A;
  fifo_cap : Z;
  fifo_new : Z -> Q;
  fifo_enqueue : Q -> A -> option Q;
  fifo_dequeue : Q -> option (A * Q);
  fifo_remove : Q -> A -> option Q;
  fifo_blank : Q -> option Q;
  fifo_is_empty : Q -> bool;
  fifo_new_law n : 2 <= n <= 1048575 -> fifo_ok (fifo_new n) /\ fifo_list (fifo_new n) = [];
  fifo_enqueue_law q w : fifo_ok q -> zlen (fifo_list q) < fifo_cap ->
    exists q', fifo_enqueue q w = Some q' /\ fifo_ok q' /\ fifo_list q' = fifo_list q ++ [w];
  fifo_dequeue_law q x l : fifo_ok q -> fifo_list q = x :: l ->
    exists q', fifo_dequeue q = Some (x, q') /\ fifo_ok q' /\ fifo_list q' = l;
  fifo_remove_law q w : fifo_ok q ->
    exists q', fifo_remove q w = Some q' /\ fifo_ok q' /\ fifo_list q' = remove_first w (fifo_list q);
  fifo_blank_law q : fifo_ok q ->
    exists q', fifo_blank q = Some q' /\ fifo_ok q' /\ fifo_list q' = fifo_list q;
  fifo_is_empty_law q : fifo_ok q -> fifo_is_empty q = bool_decide (fifo_list q = [])
}.

Section Interface.
Context `{Platform} {A : Type} `{EqDecision A} (undef zero : A).

(** The entries for which growing by half still gives a small block. *)
Definition ring_cap : Z := 699050.

Lemma ring_enqueue_law (q : Queue A) w :
  queue_ok true q -> zlen (contents q) < ring_cap ->
  exists q', Enqueue undef q w = Some q' /\ queue_ok true q' /\ contents q' = contents q ++ [w].
Proof.
  intros Hok Hcap. apply Enqueue_spec; [done |]. simpl. rewrite MAX_BLOCKSIZE_eq.
  unfold ring_cap in Hcap. pose proof (zlen_nonneg (contents q)). Z.div_mod_to_equations. lia.
Qed.

Lemma ring_blank_law (q : Queue A) :
  queue_ok true q -> exists q', Blank zero q = Some q' /\ queue_ok true q' /\ contents q' = contents q.
Proof.
  intros Hok. destruct (decide (contents q = [])) as [E | E].
  - exists q. by rewrite (Blank_empty _ _ _ Hok E).
  - destruct (Blank_spec zero q Hok E) as (q' & ? & ? & ? & _). by exists q'.
Qed.

Lemma ring_new_law (n : Z) :
  2 <= n <= hw_MAX_BLOCKSIZE HW -> queue_ok true (New undef n) /\ contents (New undef n) = [].
Proof. apply (New_spec undef true). Qed.

(** The ring buffer is a FIFO queue. *)
#[refine] Instance ring_fifo : FIFO (Queue A) A := {
  fifo_ok := queue_ok true;
  fifo_list := contents;
  fifo_cap := ring_cap;
  fifo_new := New undef;
  fifo_enqueue := Enqueue undef;
  fifo_dequeue := Dequeue;
  fifo_remove := Remove;
  fifo_blank := Blank zero;
  fifo_is_empty := IsEmpty
}.
Proof.
  - intros n Hn. apply ring_new_law. by rewrite MAX_BLOCKSIZE_eq.
  - apply ring_enqueue_law.
  - apply Dequeue_spec.
  - apply Remove_spec.
  - apply ring_blank_law.
  - apply IsEmpty_spec.
Defined.

End Interface.

(** ** Traces of queue operations against lists *)

Section Trace.
Context `{Platform} {A : Type} `{EqDecision A} (undef zero : A).

Inductive op :=
  | OEnqueue (w : A) | ODequeue | ORemove (w : A) | OIsEmpty | OCount
  | ONth (n : Z) | ORemoveNth (n : Z) | OBlank.

Inductive result := RNone | RWord (w : A) | RBool (b : bool) | RNumber (n : Z).

Definition run_op (q : Queue A) (o : op) : option (result * Queue A) :=
  match o with
  | OEnqueue w => q ← Enqueue undef q w; Some (RNone, q)
  | ODequeue => p ← Dequeue q; Some (RWord p.1, p.2)
  | ORemove w => q ← Remove q w; Some (RNone, q)
  | OIsEmpty => Some (RBool (IsEmpty q), q)
  | OCount => Some (RNumber (GetNumberOfElements q), q)
  | ONth n => w ← GetNthElement q n; Some (RWord w, q)
  | ORemoveNth n => q ← RemoveNthElement q n; Some (RNone, q)
  | OBlank => q ← Blank zero q; Some (RNone, q)
  end.

(** The same operations on a list of at most [ring_cap] entries. *)
Definition spec_op (l : list A) (o : op) : option (result * list A) :=
  match o with
  | OEnqueue w => if zlen l <? ring_cap then Some (RNone, l ++ [w]) else None
  | ODequeue => match l with [] => None | x :: l => Some (RWord x, l) end
  | ORemove w => Some (RNone, remove_first w l)
  | OIsEmpty => Some (RBool (bool_decide (l = [])), l)
  | OCount => Some (RNumber (zlen l), l)
  | ONth n => w ← aget l n; Some (RWord w, l)
  | ORemoveNth n => w ← aget l n; Some (RNone, ztake n l ++ zdrop (n + 1) l)
  | OBlank => Some (RNone, l)
  end.

Fixpoint run {S} (step : S -> op -> option (result * S)) (s : S) (ops : list op) : option (list result * S) :=
  match ops with
  | [] => Some ([], s)
  | o :: ops => p ← step s o; r ← run step p.2 ops; Some (p.1 :: r.1, r.2)
  end.

Lemma run_op_refines q o r l :
  queue_ok true q -> spec_op (contents q) o = Some (r, l) ->
  exists q', run_op q o = Some (r, q') /\ queue_ok true q' /\ contents q' = l.
Proof.
  intros Hok. destruct o as [w | | w | | | n | n |]; simpl; intros E.
  - destruct (Z.ltb_spec (zlen (contents q)) ring_cap); [| done]. injection E as <- <-.
    destruct (ring_enqueue_law undef q w Hok) as (q' & -> & ? & ?); [done |]. by exists q'.
  - destruct (contents q) as [| x l'] eqn:Ec; [done |]. injection E as <- <-.
    destruct (Dequeue_spec _ _ _ _ Hok Ec) as (q' & -> & ? & ?). by exists q'.
  - injection E as <- <-. destruct (Remove_spec _ _ w Hok) as (q' & -> & ? & ?). by exists q'.
  - injection E as <- <-. rewrite (IsEmpty_spec _ _ Hok). by exists q.
  - injection E as <- <-. rewrite (Count_spec _ _ Hok). by exists q.
  - inv_bind E. injection E as <- <-. pose proof (aget_Some_lt _ _ _ E0).
    rewrite (Nth_spec _ _ _ Hok) by lia. rewrite E0. by exists q.
  - inv_bind E. injection E as <- <-. pose proof (aget_Some_lt _ _ _ E0).
    destruct (RemoveNth_spec _ _ _ _ _ Hok (aget_split _ _ _ E0)) as (q' & E' & ? & ?).
    rewrite zlen_ztake in E' by lia. rewrite E'. by exists q'.
  - injection E as <- <-. destruct (ring_blank_law zero q Hok) as (q' & -> & ? & ?). by exists q'.
Qed.

End Trace.

(** ** Properties *)

(** C26. Refinement: the ring buffer implements a list.  Starting from a new
    queue whose initial size is at least 2, as the comment in Queue.hh asks,
    and at most MAX_BLOCKSIZE, every sequence of operations that is meaningful on lists (no dequeue
    of an empty queue, indices in range, at most [ring_cap] entries) runs
    without leaving the array, returns the results the list gives, and ends
    with the list as its entries in order. *)
Theorem queue_refines_list `{Platform} {A} `{EqDecision A} (undef zero : A) (n : Z)
    (ops : list (op (A := A))) (rs : list result) (l : list A) :
  2 <= n <= hw_MAX_BLOCKSIZE HW ->
  run spec_op [] ops = Some (rs, l) ->
  exists q, run (run_op undef zero) (New undef n) ops = Some (rs, q) /\ queue_ok true q /\ contents q = l.
Proof.
  intros Hn. destruct (ring_new_law undef n Hn) as [Hok Hc]. rewrite <- Hc.
  revert Hok. generalize (New undef n). clear Hc. revert rs. induction ops as [| o ops IH]; intros rs q Hok E.
  - injection E as <- <-. by exists q.
  - simpl in E. inv_bind E. destruct x as [r l1]. inv_bind E. destruct x as [rs' l']. injection E as <- <-.
    destruct (run_op_refines undef zero _ _ _ _ Hok E0) as (q1 & E2 & Hok1 & <-). simpl. rewrite E2. simpl.
    destruct (IH rs' q1 Hok1 E1) as (q' & -> & ? & ?). by exists q'.
Qed.

Lemma queue_refines_list_witness :
  exists q, run (run_op (H := P32) 99 0) (New (H := P32) 99 2)
      [OEnqueue 1; OEnqueue 2; ODequeue; OEnqueue 3; OEnqueue 4; ORemove 3; OBlank; OCount; ONth 1]
    = Some ([RNone; RNone; RWord 1; RNone; RNone; RNone; RNone; RNumber 2; RWord 4], q) /\
    queue_ok (H := P32) true q /\ contents q = [2; 4].
Proof.
  apply (queue_refines_list (H := P32) 99 0 2); [vm_compute; split; discriminate | reflexivity].
Defined.

(** [Blank] before a garbage collection: a queue with entries keeps them
    in order, its array does not grow, and every free slot is overwritten by
    the integer 0; an empty queue is left as it is, with all its stale slots. *)
Theorem queue_blank_clears `{Platform} {A} `{EqDecision A} (zero : A) (q : Queue A) :
  queue_ok true q ->
  (contents q <> [] ->
   exists q', Blank zero q = Some q' /\ queue_ok true q' /\ contents q' = contents q /\
     zlen (b_args (q_array q')) <= zlen (b_args (q_array q)) /\
     forall i, 0 <= i < zlen (b_args (q_array q')) -> ~ slot_live q' i ->
       aget (b_args (q_array q')) i = Some zero) /\
  (contents q = [] -> Blank zero q = Some q).
Proof. intros Hok. split; [by apply Blank_spec | by eapply Blank_empty]. Qed.

(** A queue of size 8 with the entries 5 and 6 in slots 6 and 7 and an empty
    queue of size 4. *)
Definition blank_example : Queue Z :=
  {| q_header := 0; q_read := 6; q_write := 0;
     q_array := {| b_header := b_header (AllocMutableBlock (H := P32) 0 MIN_DATA_LABEL 8);
                   b_args := [1; 2; 3; 4; 9; 9; 5; 6] |} |}.

Definition stale_example : Queue Z :=
  {| q_header := 0; q_read := 1; q_write := 1;
     q_array := {| b_header := b_header (AllocMutableBlock (H := P32) 0 MIN_DATA_LABEL 4);
                   b_args := [7; 8; 9; 10] |} |}.

Lemma queue_blank_clears_witness :
  (exists q', Blank (H := P32) 0 blank_example = Some q' /\ contents q' = [5; 6] /\
              b_args (q_array q') = [0; 0; 0; 0; 5; 6]) /\
  Blank (H := P32) 0 stale_example = Some stale_example.
Proof.
  split.
  - destruct (proj1 (queue_blank_clears (H := P32) 0 blank_example
      ltac:(vm_compute; repeat split; discriminate)) ltac:(discriminate)) as (q' & E & _ & Ec & _).
    exists q'. split; [exact E |]. split; [exact Ec |]. vm_compute in E. injection E as <-. reflexivity.
  - apply (proj2 (queue_blank_clears (H := P32) 0 stale_example
      ltac:(vm_compute; repeat split; discriminate)) eq_refl).
Defined.
