(* ===== verification/Stack.v ===== *)
(** * Stacks (seam/adt/Stack.hh)

    A stack is a top index and a mutable block.  [zero] is the integer word 0
    that [SlowPop] and [Blank] write, [undef] the content of fresh memory.  A
    failing [Assert] and an access outside the array are [None]. *)

From S2P Require Import Prelude Config HeaderOp Block Queue.

Record Stack (A : Type) := mkStack { s_header : Z; s_top : Z; s_array : Block A }.
Arguments mkStack {A} _ _ _.
Arguments s_header {A} _.
Arguments s_top {A} _.
Arguments s_array {A} _.

Section Stack.
Context `{Platform} {A : Type} (undef zero : A).
Implicit Types (s : Stack A) (v : A) (a : Block A).

Definition GetTop s : Z := s_top s.
Definition SetTop s (top : Z) : Stack A :=
  {| s_header := s_header s; s_top := top; s_array := s_array s |}.
Definition Stack_GetArray s : Block A := s_array s.
Definition Stack_SetArray s a : Stack A :=
  {| s_header := s_header s; s_top := s_top s; s_array := a |}.

Definition Stack_Enlarge s (oldsize newsize : Z) : option (Stack A) :=
  let oa := Stack_GetArray s in
  let na := AllocMutableBlock undef MIN_DATA_LABEL newsize in
  na ← block_move oa 0 na 0 oldsize;
  Some (Stack_SetArray s na).

Definition GetStackSize s : Z := GetTop s.

(** [(size * 3) >> 1] *)
Definition grown (size : Z) : Z := Z.shiftr (u_int (size * 3)) 1.

Definition AllocArgFrame s (fsize : Z) : option (Stack A) :=
  let top := GetTop s in
  let max := GetSize (Stack_GetArray s) in
  let size := u_int (top + fsize) in
  let s := SetTop s size in
  if max <=? size then Stack_Enlarge s max (grown size) else Some s.

Definition ClearArgFrame s (fsize : Z) : option (Stack A) :=
  let top := GetTop s in
  let newtop := u_int (top - fsize) in
  let a := Stack_GetArray s in
  if top <? fsize then None else
  let s := SetTop s newtop in
  v ← GetArg a (u_int (top - 1));
  a ← InitArg a (u_int (newtop - 1)) v;
  Some (Stack_SetArray s a).

Definition ClearArgFrameZero s (fsize : Z) : option (Stack A) :=
  let top := GetTop s in
  if top <? fsize then None else Some (SetTop s (u_int (top - fsize))).

Definition AllocFrame s (fsize : Z) : option (Stack A) :=
  let top := GetTop s in
  let max := GetSize (Stack_GetArray s) in
  let size := u_int (top + fsize) in
  if max <=? size then Stack_Enlarge s max (grown size) else Some s.

Definition ClearFrame s (fsize : Z) : option (Stack A) :=
  let top := GetTop s in
  if top <=? fsize then None else Some (SetTop s (u_int (top - fsize))).

Definition Push s v : option (Stack A) :=
  let top := GetTop s in
  if GetSize (Stack_GetArray s) <=? top then None else
  let s := SetTop s (u_int (top + 1)) in
  a ← InitArg (Stack_GetArray s) top v; Some (Stack_SetArray s a).

Definition SlowPush s v : option (Stack A) :=
  let top := GetTop s in
  let a := Stack_GetArray s in
  let max := GetSize a in
  let s := SetTop s (u_int (top + 1)) in
  if top <? max then a ← InitArg a top v; Some (Stack_SetArray s a)
  else
    s ← Stack_Enlarge s max (grown max);
    a ← InitArg (Stack_GetArray s) top v; Some (Stack_SetArray s a).

Definition Top s : option A := GetArg (Stack_GetArray s) (u_int (GetTop s - 1)).

Definition GetFrameArg s (f : Z) : option A :=
  let top := GetTop s in
  let pos := u_int (top - 1 - f) in
  if top <? f + 1 then None else GetArg (Stack_GetArray s) pos.

Definition GetAbsoluteArg s (f : Z) : option A :=
  if f <? GetTop s then GetArg (Stack_GetArray s) f else None.

Definition PutFrameArg s (f : Z) v : option (Stack A) :=
  let top := GetTop s in
  let pos := u_int (top - 1 - f) in
  if top <? f + 1 then None else
  a ← InitArg (Stack_GetArray s) pos v; Some (Stack_SetArray s a).

Definition Pop s : option (A * Stack A) :=
  let top := u_int (GetTop s - 1) in
  let a := Stack_GetArray s in
  value ← GetArg a top; Some (value, SetTop s top).

Definition SlowPop s : option (A * Stack A) :=
  let top := u_int (GetTop s - 1) in
  let a := Stack_GetArray s in
  value ← GetArg a top;
  a ← InitArg a top zero;
  Some (value, SetTop (Stack_SetArray s a) top).

Definition Stack_IsEmpty s : bool := GetTop s =? 0.

Definition Stack_Blank s (threshold : Z) : option (Stack A) :=
  let top := GetTop s in
  let a := Stack_GetArray s in
  let max := GetSize a in
  let newmax := u_int (top + threshold) in
  let newmax := if newmax <=? max then newmax else max in
  a ← block_fill a top newmax zero;
  a ← ShrinkBlock a newmax;
  Some (Stack_SetArray s a).

Definition Stack_New (n : Z) : Stack A :=
  let p := AllocMutableBlock undef STACK_LABEL 2 in
  let a := AllocMutableBlock undef MIN_DATA_LABEL n in
  {| s_header := b_header p; s_top := 0; s_array := a |}.

(** ** Specification: the entries from the bottom to the top *)

Definition entries s : list A := ztake (s_top s) (b_args (s_array s)).

(** Arrays of fewer than two slots do not grow, so they are excluded. *)
Definition stack_ok s : Prop :=
  wf_block (s_array s) /\ 2 <= zlen (b_args (s_array s)) <= hw_MAX_BIGBLOCKSIZE HW /\
  0 <= s_top s <= zlen (b_args (s_array s)).

(** The size a stack with top [n] and array size [max] may grow to. *)
Definition stack_room s (n : Z) : Prop :=
  0 <= n /\ (n `max` zlen (b_args (s_array s))) * 3 / 2 <= hw_MAX_BIGBLOCKSIZE HW.

End Stack.

(** ** The operations on the entries *)

Section StackOps.
Context `{Platform} {A : Type} (undef zero : A).
Implicit Types (s : Stack A) (v : A) (l : list A).

Lemma grown_eq n : 0 <= n < 2 ^ 30 -> grown n = n * 3 / 2.
Proof. intros. unfold grown. rewrite u_int_id32 by lia. by rewrite Z.shiftr_div_pow2. Qed.

Lemma grown_room s n :
  stack_room s n -> 0 <= n < 2 ^ 30 /\ n * 3 / 2 <= 16777200 /\ zlen (b_args (s_array s)) * 3 / 2 <= 16777200.
Proof.
  intros [Hn Hr]. pose proof (zlen_nonneg (b_args (s_array s))). rewrite MAX_BIGBLOCKSIZE_eq in *.
  Z.div_mod_to_equations. lia.
Qed.

Lemma stack_width s : stack_ok s -> 0 <= s_top s <= zlen (b_args (s_array s)) /\ zlen (b_args (s_array s)) <= 16777200.
Proof. intros (_ & Hn & Ht). rewrite MAX_BIGBLOCKSIZE_eq in Hn. lia. Qed.

Lemma entries_zlen s : stack_ok s -> zlen (entries s) = s_top s.
Proof. intros Hs. apply stack_width in Hs. unfold entries. rewrite zlen_ztake; lia. Qed.

(** Any stack with the same array size is well formed. *)
Lemma stack_step s h top (args : list A) :
  stack_ok s -> zlen args = zlen (b_args (s_array s)) -> 0 <= top <= zlen args ->
  stack_ok {| s_header := h; s_top := top; s_array := {| b_header := b_header (s_array s); b_args := args |} |}.
Proof.
  intros (Hwf & Hn & _) E Ht. unfold stack_ok, wf_block, GetSize in *. simpl. rewrite E in *. done.
Qed.

Lemma Stack_Enlarge_ok s n :
  stack_ok s -> zlen (b_args (s_array s)) <= n <= 16777200 ->
  forall top, exists args,
    Stack_Enlarge undef (SetTop s top) (zlen (b_args (s_array s))) n =
      Some {| s_header := s_header s; s_top := top;
              s_array := {| b_header := b_header (AllocMutableBlock undef MIN_DATA_LABEL n); b_args := args |} |} /\
    n <= zlen args <= hw_MAX_BIGBLOCKSIZE HW /\
    GetSize {| b_header := b_header (AllocMutableBlock undef MIN_DATA_LABEL n); b_args := args |} = zlen args /\
    exists rest, args = b_args (s_array s) ++ rest.
Proof.
  intros Hs Hn top. pose proof (stack_width s Hs) as Hw. destruct Hs as (Hwf & Hb & _).
  assert (Hnn : 0 <= n <= hw_MAX_BIGBLOCKSIZE HW) by (rewrite MAX_BIGBLOCKSIZE_eq; lia).
  pose proof (TranslateSize_bounds _ Hnn) as [Ht1 Ht2].
  assert (Hl : 0 <= MIN_DATA_LABEL < 128) by done.
  assert (Hwn : GetSize (AllocMutableBlock undef MIN_DATA_LABEL n) = zlen (b_args (AllocMutableBlock undef MIN_DATA_LABEL n)))
    by (apply AllocMutableBlock_wf; lia).
  assert (Hz : zlen (b_args (AllocMutableBlock undef MIN_DATA_LABEL n)) = TranslateSize n) by (apply AllocMutableBlock_zlen; lia).
  unfold Stack_Enlarge, Stack_GetArray, block_move. cbn [s_array SetTop].
  set (na := AllocMutableBlock undef MIN_DATA_LABEL n) in *. clearbody na.
  destruct (zsplit (b_args na) (zlen (b_args (s_array s)))) as (o & rest & Eo & Ho); [lia |].
  rewrite (blit_pieces _ _ _ _ _ [] (b_args (s_array s)) [] [] o rest) by (rewrite ?app_nil_r; done). simpl.
  eexists. split; [reflexivity |]. rewrite Eo in Hz, Hwn. split; [zl |]. split; [| by exists rest].
  change (GetSize na = zlen (b_args (s_array s) ++ rest)). rewrite Hwn. zl.
Qed.

Lemma SlowPush_spec s v :
  stack_ok s -> stack_room s (s_top s) ->
  exists s', SlowPush undef s v = Some s' /\ stack_ok s' /\ entries s' = entries s ++ [v].
Proof.
  intros Hs Hroom. pose proof (stack_width s Hs) as [Ht Hb]. pose proof Hs as (Hwf & Hn & _).
  unfold SlowPush, GetTop, Stack_GetArray. rewrite Hwf. unfold InitArg. rewrite u_int_id32 by lia.
  destruct (Z.ltb_spec (s_top s) (zlen (b_args (s_array s)))) as [Hlt | Hge].
  - destruct (aset (b_args (s_array s)) (s_top s) v) as [args |] eqn:E; [| by rewrite aset_Some in E by lia].
    simpl. eexists. split; [reflexivity |]. pose proof (aset_zlen _ _ _ _ E) as El. split.
    + apply (stack_step s); [done | done | simpl; lia].
    + unfold entries. simpl. rewrite (ztake_succ_aget _ _ v) by (by eapply aget_aset_eq). f_equal.
      rewrite (aset_split _ _ _ _ E). rewrite ztake_pieces; [done | rewrite zlen_ztake; lia].
  - assert (Et : s_top s = zlen (b_args (s_array s))) by lia.
    destruct (grown_room s (s_top s) Hroom) as (Hg0 & Hg1 & Hg2).
    rewrite grown_eq by lia.
    assert (Hgn : zlen (b_args (s_array s)) + 1 <= zlen (b_args (s_array s)) * 3 / 2 <= 16777200)
      by (rewrite <- Et in *; Z.div_mod_to_equations; lia).
    destruct (Stack_Enlarge_ok s (zlen (b_args (s_array s)) * 3 / 2) Hs ltac:(lia) (s_top s + 1))
      as (args & E &  Hz & Hgs & rest & Er). rewrite E. simpl.
    assert (Hst : s_top s + 1 <= zlen args) by (Z.div_mod_to_equations; lia).
    rewrite Er in *. destruct (zlen_pos_cons rest) as (x & rest' & ->); [zl |].
    rewrite aset_mid by done. simpl. eexists. split; [reflexivity |].
    unfold stack_ok, wf_block, entries, GetSize in *. simpl in *. split.
    + split_and!; zl.
    + rewrite (ztake_all (b_args (s_array s))) by lia.
      change (v :: rest') with ([v] ++ rest'). rewrite app_assoc. apply ztake_pieces. zl.
Qed.

(** *** Reading and writing below the top *)

Lemma entries_aget s i : i < s_top s -> aget (entries s) i = aget (b_args (s_array s)) i.
Proof. intros. unfold entries. by apply aget_ztake. Qed.

Lemma Pop_spec s x l :
  stack_ok s -> entries s = l ++ [x] ->
  GetArg (s_array s) (u_int (s_top s - 1)) = Some x /\ s_top s = zlen l + 1 /\
  u_int (s_top s - 1) = zlen l /\ ztake (zlen l) (b_args (s_array s)) = l.
Proof.
  intros Hs El. pose proof (stack_width s Hs). pose proof (entries_zlen s Hs) as Ez.
  rewrite El in Ez. pose proof (zlen_nonneg l). autorewrite with arrays in Ez.
  assert (Eu : u_int (s_top s - 1) = zlen l) by (rewrite u_int_id32; lia).
  rewrite Eu. split_and!; try lia.
  - unfold GetArg. rewrite <- entries_aget by lia. rewrite El. by apply aget_mid.
  - unfold entries in El. replace (ztake (zlen l) (b_args (s_array s)))
      with (ztake (zlen l) (ztake (s_top s) (b_args (s_array s)))).
    + rewrite El. by apply ztake_pieces.
    + rewrite ztake_ztake. f_equal. lia.
Qed.

(** Writing one entry. *)
Lemma write_spec s i v :
  stack_ok s -> 0 <= i < s_top s ->
  exists a, InitArg (s_array s) i v = Some a /\ b_header a = b_header (s_array s) /\
    zlen (b_args a) = zlen (b_args (s_array s)) /\
    aset (entries s) i v = Some (ztake (s_top s) (b_args a)).
Proof.
  intros Hs Hi. pose proof (stack_width s Hs). unfold InitArg.
  destruct (aset (b_args (s_array s)) i v) as [args |] eqn:E; [| by rewrite aset_Some in E by lia].
  simpl. eexists. split; [reflexivity |]. split; [done |]. split; [by eapply aset_zlen |].
  rewrite aset_Some by (rewrite entries_zlen; done || lia). f_equal. simpl.
  rewrite aset_Some in E by lia. injection E as <-. unfold entries, ztake.
  by rewrite take_insert_lt by lia.
Qed.

(** The contract of [AllocFrame] and [AllocArgFrame]: enough room. *)
Lemma Alloc_room s n top :
  stack_ok s -> 0 <= n -> stack_room s (s_top s + n) -> s_top s <= top <= s_top s + n ->
  exists s', (if GetSize (s_array s) <=? u_int (s_top s + n)
              then Stack_Enlarge undef (SetTop s top) (GetSize (s_array s)) (grown (u_int (s_top s + n)))
              else Some (SetTop s top)) = Some s' /\
    stack_ok s' /\ s_top s' = top /\ s_top s + n <= zlen (b_args (s_array s')) /\
    ztake (s_top s) (b_args (s_array s')) = entries s.
Proof.
  intros Hs Hn Hroom Htop. pose proof (stack_width s Hs) as [Ht Hb]. pose proof Hs as (Hwf & Hsz & _).
  destruct (grown_room _ _ Hroom) as (Hlt & Hg1 & Hg2). rewrite Hwf, u_int_id32 by lia.
  destruct (Z.leb_spec (zlen (b_args (s_array s))) (s_top s + n)).
  - rewrite grown_eq by lia.
    destruct (Stack_Enlarge_ok s ((s_top s + n) * 3 / 2) Hs) with (top := top) as (args & -> & Hz & Hgs & rest & Er);
      [Z.div_mod_to_equations; lia |].
    assert (s_top s + n <= zlen args) by (Z.div_mod_to_equations; lia).
    eexists. split; [reflexivity |]. unfold stack_ok, wf_block. simpl. split_and!; try done; try lia.
    rewrite Er. by rewrite ztake_app_le by lia.
  - eexists. split; [reflexivity |]. unfold stack_ok in *. simpl. split_and!; done || lia.
Qed.

Lemma Blank_stack_spec s threshold :
  stack_ok s -> small_block (s_array s) -> 0 <= threshold < 2 ^ 30 -> 2 <= s_top s + threshold ->
  exists s', Stack_Blank zero s threshold = Some s' /\ stack_ok s' /\ entries s' = entries s /\
    zlen (b_args (s_array s')) = Z.min (s_top s + threshold) (zlen (b_args (s_array s))) /\
    forall i, s_top s <= i < zlen (b_args (s_array s')) -> aget (b_args (s_array s')) i = Some zero.
Proof.
  intros Hs Hsm Hth Hmin. pose proof (stack_width s Hs) as [Ht Hb]. pose proof Hs as (Hwf & Hsz & _).
  unfold Stack_Blank, GetTop, Stack_GetArray. rewrite Hwf, u_int_id32 by lia.
  set (m := if _ <=? _ then _ else _).
  assert (Em : m = Z.min (s_top s + threshold) (zlen (b_args (s_array s)))) by (unfold m; case_Zb; lia).
  clearbody m. unfold block_fill.
  destruct (zsplit (b_args (s_array s)) (s_top s)) as (p & r & Er & Hp); [lia |].
  destruct (zsplit r (m - s_top s)) as (o & rest & -> & Ho); [rewrite Er, zlen_app in *; lia |].
  rewrite (afill_pieces _ (s_top s) m zero p o rest) by (done || lia). simpl.
  set (b := {| b_header := _; b_args := _ |}).
  assert (Hz : zlen (b_args b) = zlen (b_args (s_array s)))
    by (unfold b; simpl; pose proof (zlen_nonneg o); rewrite Er, !zlen_app, zlen_replicate; lia).
  assert (Hsb : small_block b).
  { destruct Hsm as (_ & Hm & Hbig). split; [| split; [rewrite Hz; lia | done]].
    unfold wf_block in *. rewrite Hz, <- Hwf. done. }
  destruct (ShrinkBlock_small b m Hsb) as (h & E & Hd & _); [lia |]. rewrite E. simpl.
  eexists. split; [reflexivity |].
  assert (Ez : ztake m (b_args b) = p ++ replicate (Z.to_nat (zlen o)) zero).
  { unfold b; simpl. rewrite app_assoc. apply ztake_pieces. pose proof (zlen_nonneg o). rewrite zlen_app, zlen_replicate; lia. }
  simpl. unfold b in Ez. simpl in Ez. rewrite Ez.
  assert (Hlen : zlen (p ++ replicate (Z.to_nat (zlen o)) zero) = m)
    by (pose proof (zlen_nonneg o); rewrite zlen_app, zlen_replicate; lia).
  unfold stack_ok, wf_block, GetSize, entries. simpl. rewrite Hlen. split_and!; try done; try lia.
  - rewrite Er, !ztake_pieces by lia. done.
  - intros i Hi. rewrite aget_app_r by lia. apply aget_replicate. lia.
Qed.

End StackOps.

(** ** The contract of every operation *)

Section Contract.
Context `{Platform} {A : Type} (undef zero : A).
Implicit Types (s : Stack A) (v : A).

Inductive stack_op :=
  | SPush (v : A) | SSlowPush (v : A) | SPop | SSlowPop | STop
  | SGetFrameArg (f : Z) | SPutFrameArg (f : Z) (v : A) | SGetAbsoluteArg (f : Z)
  | SAllocFrame (fsize : Z) | SAllocArgFrame (fsize : Z)
  | SClearFrame (fsize : Z) | SClearArgFrame (fsize : Z) | SClearArgFrameZero (fsize : Z)
  | SBlank (threshold : Z).

Definition quiet (m : option (Stack A)) : option (option A * Stack A) := s ← m; Some (None, s).
Definition value (m : option (A * Stack A)) : option (option A * Stack A) := p ← m; Some (Some p.1, p.2).
Definition reading (s : Stack A) (m : option A) : option (option A * Stack A) := x ← m; Some (Some x, s).

Definition run_stack (s : Stack A) (o : stack_op) : option (option A * Stack A) :=
  match o with
  | SPush v => quiet (Push s v)
  | SSlowPush v => quiet (SlowPush undef s v)
  | SPop => value (Pop s)
  | SSlowPop => value (SlowPop zero s)
  | STop => reading s (Top s)
  | SGetFrameArg f => reading s (GetFrameArg s f)
  | SPutFrameArg f v => quiet (PutFrameArg s f v)
  | SGetAbsoluteArg f => reading s (GetAbsoluteArg s f)
  | SAllocFrame fsize => quiet (AllocFrame undef s fsize)
  | SAllocArgFrame fsize => quiet (AllocArgFrame undef s fsize)
  | SClearFrame fsize => quiet (ClearFrame s fsize)
  | SClearArgFrame fsize => quiet (ClearArgFrame s fsize)
  | SClearArgFrameZero fsize => quiet (ClearArgFrameZero s fsize)
  | SBlank threshold => quiet (Stack_Blank zero s threshold)
  end.

(** What the caller has to ensure. *)
Definition op_pre (s : Stack A) (o : stack_op) : Prop :=
  match o with
  | SPush _ => s_top s < zlen (b_args (s_array s))
  | SSlowPush _ => stack_room s (s_top s)
  | SPop | SSlowPop | STop => 0 < s_top s
  | SGetFrameArg f | SPutFrameArg f _ | SGetAbsoluteArg f => 0 <= f < s_top s
  | SAllocFrame n | SAllocArgFrame n => 0 <= n /\ stack_room s (s_top s + n)
  | SClearFrame n | SClearArgFrame n => 0 <= n < s_top s
  | SClearArgFrameZero n => 0 <= n <= s_top s
  | SBlank n => small_block (s_array s) /\ 0 <= n < 2 ^ 30 /\ 2 <= s_top s + n
  end.

(** The entries [l], the result and the new stack. *)
Definition op_post (l : list A) (o : stack_op) (r : option A) (s' : Stack A) : Prop :=
  match o with
  | SPush v | SSlowPush v => entries s' = l ++ [v]
  | SPop | SSlowPop => exists x, r = Some x /\ l = entries s' ++ [x]
  | STop => entries s' = l /\ exists l' x, r = Some x /\ l = l' ++ [x]
  | SGetFrameArg f => entries s' = l /\ r = aget l (zlen l - 1 - f)
  | SPutFrameArg f v => aset l (zlen l - 1 - f) v = Some (entries s')
  | SGetAbsoluteArg f => entries s' = l /\ r = aget l f
  | SAllocFrame n => entries s' = l /\ zlen l + n <= zlen (b_args (s_array s'))
  | SAllocArgFrame n => exists frame, zlen frame = n /\ entries s' = l ++ frame
  | SClearFrame n | SClearArgFrameZero n => entries s' = ztake (zlen l - n) l
  | SClearArgFrame n => exists x, aget l (zlen l - 1) = Some x /\
      entries s' = ztake (zlen l - n - 1) l ++ [x]
  | SBlank n => entries s' = l /\
      forall i, zlen l <= i < zlen (b_args (s_array s')) -> aget (b_args (s_array s')) i = Some zero
  end.

Lemma entries_snoc s : stack_ok s -> 0 < s_top s -> exists l x, entries s = l ++ [x].
Proof.
  intros Hs Ht. pose proof (entries_zlen s Hs) as Ez.
  destruct (exists_last (l := entries s)) as (l & x & E); [| by exists l, x].
  intros En. rewrite En, zlen_nil in Ez. lia.
Qed.

Lemma contract_push s v :
  stack_ok s -> s_top s < zlen (b_args (s_array s)) ->
  exists s', Push s v = Some s' /\ stack_ok s' /\ entries s' = entries s ++ [v].
Proof.
  intros Hs Ht. pose proof (stack_width s Hs). pose proof Hs as (Hwf & _).
  unfold Push, GetTop, Stack_GetArray, InitArg. rewrite Hwf, u_int_id32 by lia.
  rewrite (proj2 (Z.leb_gt _ _)) by lia. simpl.
  destruct (aset (b_args (s_array s)) (s_top s) v) as [args |] eqn:E; [| by rewrite aset_Some in E by lia].
  simpl. eexists. split; [reflexivity |]. pose proof (aset_zlen _ _ _ _ E). split.
  - apply (stack_step s); [done | done | simpl; lia].
  - unfold entries. simpl. rewrite (ztake_succ_aget _ _ v) by (by eapply aget_aset_eq). f_equal.
    rewrite (aset_split _ _ _ _ E). by rewrite ztake_pieces by (rewrite zlen_ztake; lia).
Qed.

Lemma contract_pop s :
  stack_ok s -> 0 < s_top s ->
  exists x s1 s2, Pop s = Some (x, s1) /\ SlowPop zero s = Some (x, s2) /\ Top s = Some x /\
    stack_ok s1 /\ stack_ok s2 /\ entries s = entries s1 ++ [x] /\ entries s = entries s2 ++ [x].
Proof.
  intros Hs Ht. destruct (entries_snoc s Hs Ht) as (l & x & El). pose proof (stack_width s Hs).
  destruct (Pop_spec s x l Hs El) as (Eg & Etop & Eu & Etake).
  destruct (write_spec s (zlen l) zero Hs) as (a & Ea & Eh & Ez & _); [pose proof (zlen_nonneg l); lia |].
  unfold Pop, SlowPop, Top, GetTop, Stack_GetArray. rewrite Eg, Eu. simpl. rewrite Ea. simpl.
  eexists x, _, _. split; [reflexivity |]. split; [reflexivity |]. split; [done |].
  pose proof (zlen_nonneg l). rewrite El. split_and!.
  - unfold stack_ok in *. simpl. split_and!; try apply Hs; lia.
  - destruct a as [h args]. simpl in *. subst h. apply (stack_step s); [done.. |]. simpl. lia.
  - unfold entries. simpl. by rewrite Etake.
  - unfold entries. simpl. unfold InitArg in Ea. rewrite aset_Some in Ea by lia.
    injection Ea as <-. simpl. unfold ztake in *. by rewrite take_insert_ge, Etake by lia.
Qed.

Lemma contract_frame s f v :
  stack_ok s -> 0 <= f < s_top s ->
  GetFrameArg s f = aget (entries s) (zlen (entries s) - 1 - f) /\
  GetAbsoluteArg s f = aget (entries s) f /\
  exists s', PutFrameArg s f v = Some s' /\ stack_ok s' /\
    aset (entries s) (zlen (entries s) - 1 - f) v = Some (entries s').
Proof.
  intros Hs Hf. pose proof (stack_width s Hs). rewrite (entries_zlen s Hs).
  unfold GetFrameArg, GetAbsoluteArg, PutFrameArg, GetTop, Stack_GetArray, GetArg.
  rewrite u_int_id32 by lia. rewrite (proj2 (Z.ltb_ge _ _)), (proj2 (Z.ltb_lt _ _)) by lia.
  rewrite !entries_aget by lia. split; [done |]. split; [done |].
  destruct (write_spec s (s_top s - 1 - f) v Hs) as ([h args] & -> & Eh & Ez & Ee); [lia |]. simpl in *. subst h.
  eexists. split; [reflexivity |]. split; [apply (stack_step s); [done.. | simpl; lia] | done].
Qed.

Lemma contract_clear s n :
  stack_ok s -> 0 <= n <= s_top s ->
  let s' := SetTop s (s_top s - n) in
  stack_ok s' /\ entries s' = ztake (zlen (entries s) - n) (entries s) /\ u_int (s_top s - n) = s_top s - n.
Proof.
  intros Hs Hn. pose proof (stack_width s Hs). rewrite (entries_zlen s Hs). simpl. split_and!.
  - unfold stack_ok in *. simpl. split_and!; try apply Hs; lia.
  - unfold entries. simpl. rewrite ztake_ztake. f_equal. lia.
  - apply u_int_id32. lia.
Qed.

Lemma contract_clear_arg s n :
  stack_ok s -> 0 <= n < s_top s ->
  exists x s', ClearArgFrame s n = Some s' /\ stack_ok s' /\
    aget (entries s) (zlen (entries s) - 1) = Some x /\
    entries s' = ztake (zlen (entries s) - n - 1) (entries s) ++ [x].
Proof.
  intros Hs Hn. pose proof (stack_width s Hs). rewrite (entries_zlen s Hs).
  destruct (aget_is_Some (entries s) (s_top s - 1)) as [x Ex]; [rewrite (entries_zlen s Hs); lia |].
  unfold ClearArgFrame, GetTop, Stack_GetArray, GetArg. rewrite (proj2 (Z.ltb_ge _ _)) by lia.
  rewrite !u_int_id32 by (rewrite ?u_int_id32; lia). rewrite <- entries_aget, Ex by lia. simpl. unfold InitArg.
  destruct (aset (b_args (s_array s)) (s_top s - n - 1) x) as [args |] eqn:E; [| by rewrite aset_Some in E by lia].
  pose proof (aset_zlen _ _ _ _ E). simpl. eexists x, _. split; [reflexivity |].
  split; [apply (stack_step s); [done.. | simpl; lia] |]. split; [done |].
  unfold entries. simpl. rewrite ztake_ztake. rewrite (aset_split _ _ _ _ E).
  rewrite Z.min_l by lia. change (x :: zdrop ?a ?b) with ([x] ++ zdrop a b). rewrite app_assoc. apply ztake_pieces.
  rewrite zlen_app, zlen_ztake by lia. change (zlen [x]) with 1. lia.
Qed.

End Contract.

(** ** Properties *)

(** Every stack operation meets its contract: under the precondition its
    callers establish it does not leave the array, keeps the stack well formed
    and has exactly the stated effect on the entries, including growing by
    half when full; [AllocFrame] really makes room for the frame, and [Blank]
    keeps the entries and clears every slot above the top. *)
Theorem stack_contract `{Platform} {A} (undef zero : A) (s : Stack A) (o : stack_op) :
  stack_ok s -> op_pre s o ->
  exists r s', run_stack undef zero s o = Some (r, s') /\ stack_ok s' /\ op_post zero (entries s) o r s'.
Proof.
  intros Hs Hpre. pose proof (stack_width s Hs) as Hw.
  destruct o as [v | v | | | | f | f v | f | n | n | n | n | n | n]; simpl in Hpre; cbn [run_stack op_post].
  - destruct (contract_push s v Hs Hpre) as (s' & -> & ? & ?). by exists None, s'.
  - destruct (SlowPush_spec undef s v Hs Hpre) as (s' & -> & ? & ?). by exists None, s'.
  - destruct (contract_pop zero s Hs Hpre) as (x & s1 & s2 & -> & _ & _ & ? & _ & ? & _). exists (Some x), s1. eauto.
  - destruct (contract_pop zero s Hs Hpre) as (x & s1 & s2 & _ & -> & _ & _ & ? & _ & ?). exists (Some x), s2. eauto.
  - destruct (contract_pop zero s Hs Hpre) as (x & s1 & s2 & _ & _ & -> & _ & _ & ? & _). exists (Some x), s. eauto 8.
  - destruct (contract_frame s f zero Hs Hpre) as (E & _ & _).
    destruct (aget_is_Some (entries s) (zlen (entries s) - 1 - f)) as [x Ex]; [rewrite (entries_zlen s Hs); lia |].
    unfold reading. rewrite E, Ex. by exists (Some x), s.
  - destruct (contract_frame s f v Hs Hpre) as (_ & _ & s' & -> & ? & ?). by exists None, s'.
  - destruct (contract_frame s f zero Hs Hpre) as (_ & E & _).
    destruct (aget_is_Some (entries s) f) as [x Ex]; [rewrite (entries_zlen s Hs); lia |].
    unfold reading. rewrite E, Ex. by exists (Some x), s.
  - destruct Hpre as [Hn Hroom]. destruct (Alloc_room undef s n (s_top s) Hs Hn Hroom) as (s' & E & Hs' & Et & Hr & Ez); [lia |].
    unfold AllocFrame, GetTop, Stack_GetArray. replace (SetTop s (s_top s)) with s in E by (by destruct s).
    rewrite E. exists None, s'. split; [done |]. split; [done |]. rewrite entries_zlen by done.
    split; [| done]. unfold entries at 1. by rewrite Et.
  - destruct Hpre as [Hn Hroom]. destruct (grown_room _ _ Hroom) as (Hlt & _ & _).
    destruct (Alloc_room undef s n (s_top s + n) Hs Hn Hroom) as (s' & E & Hs' & Et & Hr & Ez); [lia |].
    unfold AllocArgFrame, GetTop, Stack_GetArray. rewrite (u_int_id32 (s_top s + n)) in * by lia.
    cbn zeta. rewrite E. exists None, s'. split; [done |]. split; [done |].
    exists (zseg (b_args (s_array s')) (s_top s) n). split; [apply zlen_zseg; lia |].
    unfold entries at 1. rewrite Et, <- Ez. unfold zseg.
    rewrite <- (ztake_zdrop (s_top s) (b_args (s_array s'))) at 1.
    rewrite ztake_app_ge, zlen_ztake by (rewrite ?zlen_ztake; lia). do 2 f_equal. lia.
  - destruct (contract_clear s n Hs) as (? & ? & E); [lia |].
    unfold ClearFrame, GetTop. rewrite (proj2 (Z.leb_gt _ _)), E by lia. by eexists None, _.
  - destruct (contract_clear_arg s n Hs Hpre) as (x & s' & -> & ? & ? & ?). exists None, s'. eauto 8.
  - destruct (contract_clear s n Hs) as (? & ? & E); [lia |].
    unfold ClearArgFrameZero, GetTop. rewrite (proj2 (Z.ltb_ge _ _)), E by lia. by eexists None, _.
  - destruct Hpre as (Hsm & Hn & Hmin).
    destruct (Blank_stack_spec zero s n Hs Hsm Hn Hmin) as (s' & -> & Hs' & Ee & _ & Hz).
    exists None, s'. split; [done |]. split; [done |]. rewrite (entries_zlen s Hs). done.
Qed.

Lemma stack_contract_witness :
  exists r s', run_stack (H := P32) 99 0 (Stack_New (H := P32) 99 2) (SSlowPush 7) = Some (r, s') /\
    stack_ok (H := P32) s' /\ entries s' = [7].
Proof.
  apply (stack_contract (H := P32) 99 0 (Stack_New (H := P32) 99 2) (SSlowPush 7));
    vm_compute; repeat split; discriminate.
Defined.

(** Growing by half does not help an array of fewer than two slots: on a
    full array [SlowPush] writes behind its end exactly when the array has no
    or one slot (which [New] and [Blank] can produce). *)
Theorem SlowPush_bounds `{Platform} {A} (undef : A) (n : Z) (args : list A) (v : A) :
  0 <= n <= 1 -> zlen args = n ->
  SlowPush undef {| s_header := 0; s_top := n;
    s_array := {| b_header := b_header (AllocMutableBlock undef MIN_DATA_LABEL n); b_args := args |} |} v = None.
Proof.
  intros Hn El. unfold SlowPush. cbn [GetTop s_top Stack_GetArray s_array].
  change (GetSize {| b_header := b_header (AllocMutableBlock undef MIN_DATA_LABEL n); b_args := args |})
    with (GetSize (AllocMutableBlock undef MIN_DATA_LABEL n)).
  assert (Hs : 0 <= n <= hw_MAX_BIGBLOCKSIZE HW) by (rewrite MAX_BIGBLOCKSIZE_eq; lia).
  rewrite AllocMutableBlock_size by done.
  rewrite TranslateSize_small by (rewrite MAX_BLOCKSIZE_eq; lia). rewrite Z.ltb_irrefl.
  assert (Eg : grown n = n) by (rewrite grown_eq by lia; Z.div_mod_to_equations; lia).
  unfold Stack_Enlarge, block_move. rewrite Eg. simpl.
  rewrite TranslateSize_small by (rewrite MAX_BLOCKSIZE_eq; lia).
  destruct (blit args 0 _ 0 n) as [b |] eqn:E; [| done]. simpl.
  apply blit_zlen in E. rewrite zlen_replicate in E by lia.
  unfold InitArg. simpl. unfold aset. by rewrite decide_False by lia.
Qed.

Lemma SlowPush_bounds_witness :
  SlowPush (H := P32) 99 {| s_header := 0; s_top := 1;
    s_array := {| b_header := b_header (AllocMutableBlock (H := P32) 99 MIN_DATA_LABEL 1); b_args := [5] |} |} 6 = None.
Proof. apply (SlowPush_bounds (H := P32) 99 1 [5] 6); [lia | reflexivity]. Defined.
