(* ===== verification/DynamicArray.v ===== *)
(** * Dynamic arrays (seam/adt/DynamicArray.cc)

    An array that grows when an element behind its end is updated.  [invalid]
    is the word INVALID_ARRAY_ELEM that marks a missing element. *)

From S2P Require Import Prelude Config HeaderOp Block Queue.

Record DynamicArray (A : Type) := mkDynamicArray {
  da_header : Z; da_size : Z; da_init : A; da_array : Block A
}.
Arguments mkDynamicArray {A} _ _ _ _.
Arguments da_header {A} _.
Arguments da_size {A} _.
Arguments da_init {A} _.
Arguments da_array {A} _.

Section DynamicArray.
Context `{Platform} {A : Type} (undef invalid : A).
Implicit Types (d : DynamicArray A) (value : A).

Definition DynamicArray_New (initialSize : Z) : DynamicArray A :=
  let p := AllocMutableBlock undef MIN_DATA_LABEL 3 in
  let a := AllocMutableBlock undef MIN_DATA_LABEL initialSize in
  {| da_header := b_header p; da_size := initialSize; da_init := invalid; da_array := a |}.

Definition NewInit (initialSize : Z) (initElem : A) : option (DynamicArray A) :=
  let p := AllocMutableBlock undef MIN_DATA_LABEL 3 in
  let a := AllocMutableBlock undef MIN_DATA_LABEL initialSize in
  a ← block_fill a 0 initialSize initElem;
  Some {| da_header := b_header p; da_size := initialSize; da_init := initElem; da_array := a |}.

Definition GetLength d : Z := da_size d.

Definition EnlargeArray d (upTo : Z) : option (DynamicArray A) :=
  let a := da_array d in
  let initElem := da_init d in
  let length := GetLength d in
  let newLength := u_int (length * 2) in
  let newLength := if newLength <=? upTo then u_int (upTo + 1) else newLength in
  let newA := AllocMutableBlock undef MIN_DATA_LABEL newLength in
  newA ← block_move a 0 newA 0 length;
  newA ← block_fill newA length newLength initElem;
  Some {| da_header := da_header d; da_size := newLength; da_init := da_init d; da_array := newA |}.

Definition set_array d (a : Block A) : DynamicArray A :=
  {| da_header := da_header d; da_size := da_size d; da_init := da_init d; da_array := a |}.

(** [Init] enlarges with the default argument 0 of [EnlargeArray]. *)
Definition Init d (index : Z) value : option (DynamicArray A) :=
  let length := GetLength d in
  d ← (if length <=? index then EnlargeArray d 0 else Some d);
  a ← InitArg (da_array d) index value; Some (set_array d a).

Definition Update d (index : Z) value : option (DynamicArray A) :=
  let length := GetLength d in
  d ← (if length <=? index then EnlargeArray d index else Some d);
  a ← InitArg (da_array d) index value; Some (set_array d a).

Definition Sub d (index : Z) : option A :=
  let a := da_array d in
  let length := GetLength d in
  if length <=? index then Some invalid else GetArg a index.

Definition Clear d : option (DynamicArray A) :=
  a ← block_fill (da_array d) 0 (GetLength d) (da_init d); Some (set_array d a).

Definition da_ok d : Prop :=
  0 <= da_size d <= zlen (b_args (da_array d)) /\ da_size d <= hw_MAX_BIGBLOCKSIZE HW.

(** ** Growing *)

Lemma new_length_bounds length upTo :
  0 <= length -> 0 <= upTo -> 2 * (length + upTo + 1) <= hw_MAX_BIGBLOCKSIZE HW ->
  let n := if u_int (length * 2) <=? upTo then u_int (upTo + 1) else u_int (length * 2) in
  length <= n <= hw_MAX_BIGBLOCKSIZE HW /\ upTo < n /\ n = Z.max (length * 2) (upTo + 1).
Proof. rewrite MAX_BIGBLOCKSIZE_eq. intros ? ? ?. cbv zeta. rewrite !u_int_id32 by lia. case_Zb; lia. Qed.

Lemma EnlargeArray_spec d upTo :
  da_ok d -> 0 <= upTo -> 2 * (da_size d + upTo + 1) <= hw_MAX_BIGBLOCKSIZE HW ->
  exists d', EnlargeArray d upTo = Some d' /\ da_ok d' /\
    da_size d' = Z.max (da_size d * 2) (upTo + 1) /\ da_init d' = da_init d /\
    zlen (b_args (da_array d')) = TranslateSize (da_size d') /\
    (forall j, 0 <= j < da_size d -> aget (b_args (da_array d')) j = aget (b_args (da_array d)) j) /\
    (forall j, da_size d <= j < da_size d' -> aget (b_args (da_array d')) j = Some (da_init d)).
Proof.
  intros [Hd Hm] Hu Hroom. unfold EnlargeArray, GetLength.
  destruct (new_length_bounds (da_size d) upTo) as (Hn1 & Hn2 & En); [lia.. |].
  set (n := if u_int (da_size d * 2) <=? upTo then _ else _) in *.
  assert (Hnn : 0 <= n <= hw_MAX_BIGBLOCKSIZE HW) by lia.
  pose proof (TranslateSize_bounds _ Hnn) as [Ht1 Ht2].
  assert (Hz : zlen (b_args (AllocMutableBlock undef MIN_DATA_LABEL n)) = TranslateSize n) by (apply AllocMutableBlock_zlen; lia).
  set (na := AllocMutableBlock undef MIN_DATA_LABEL n) in *. clearbody na. clearbody n. subst n.
  set (n := Z.max (da_size d * 2) (upTo + 1)) in *.
  destruct (zsplit (b_args (da_array d)) (da_size d)) as (c & s & Ec & Hc); [lia |].
  destruct (zsplit (b_args na) (da_size d)) as (o & r & Eo & Ho); [lia |].
  destruct (zsplit r (n - da_size d)) as (f & rest & -> & Hf); [rewrite Eo, zlen_app in Hz; lia |].
  unfold block_move. rewrite Ec, Eo. rewrite (blit_pieces _ _ _ _ _ [] c s [] o (f ++ rest)) by (done || lia). simpl.
  unfold block_fill. simpl.
  rewrite (afill_pieces _ (da_size d) n (da_init d) c f rest) by (done || lia). simpl.
  rewrite Hf. eexists. split; [reflexivity |]. unfold da_ok. simpl.
  assert (Hlen : zlen (c ++ replicate (Z.to_nat (n - da_size d)) (da_init d) ++ rest) = TranslateSize n).
  { rewrite Eo, !zlen_app in Hz. rewrite !zlen_app, zlen_replicate by lia. lia. }
  rewrite Hlen. split_and!; try done; try lia.
  - intros j Hj. rewrite !aget_app_l by lia. done.
  - intros j Hj. apply aget_replicate_mid. lia.
Qed.

Lemma Update_in_range d i v :
  da_ok d -> 0 <= i < da_size d ->
  exists a, InitArg (da_array d) i v = Some a /\ da_ok (set_array d a) /\
    aget (b_args a) i = Some v /\ (forall j, j <> i -> aget (b_args a) j = aget (b_args (da_array d)) j).
Proof.
  intros [Hd Hm] Hi. unfold InitArg.
  destruct (aset (b_args (da_array d)) i v) as [args |] eqn:E; [| by rewrite aset_Some in E by lia].
  simpl. eexists. split; [reflexivity |]. pose proof (aset_zlen _ _ _ _ E). unfold da_ok. simpl.
  split; [lia |]. split; [by eapply aget_aset_eq |]. intros j Hj. by eapply aget_aset_ne.
Qed.

End DynamicArray.

(** ** Properties *)

(** [Update] behaves like assignment to a growing array: the element
    reads back, every other index below the old length is unchanged, the
    indices gained hold the initial element and those behind the new length
    the invalid marker; the update never leaves the array's memory. *)
Theorem dynarray_update `{Platform} {A} (undef invalid : A) (d : DynamicArray A) (i : Z) (v : A) :
  da_ok d -> 0 <= i -> 2 * (da_size d + i + 1) <= hw_MAX_BIGBLOCKSIZE HW ->
  exists d', Update undef d i v = Some d' /\ da_ok d' /\ i < GetLength d' /\
    GetLength d <= GetLength d' /\ Sub invalid d' i = Some v /\
    forall j, 0 <= j -> j <> i ->
      Sub invalid d' j = if j <? GetLength d then Sub invalid d j
                         else Some (if j <? GetLength d' then da_init d else invalid).
Proof.
  intros Hd Hi Hroom. unfold Update, GetLength, Sub, GetArg. destruct (Z.leb_spec (da_size d) i) as [Hge | Hlt].
  - destruct (EnlargeArray_spec undef d i Hd Hi Hroom) as (d1 & -> & Hd1 & Es & Ei & _ & Hold & Hnew). simpl.
    destruct (Update_in_range d1 i v Hd1) as (a & -> & Hok & Hv & Ho); [lia |]. simpl.
    eexists. split; [reflexivity |]. unfold GetLength. simpl.
    rewrite (proj2 (Z.leb_gt _ _)) by lia. split_and!; try done; try lia.
    intros j Hj Hne. rewrite Ho by done. destruct (Z.ltb_spec j (da_size d)).
    + rewrite !(proj2 (Z.leb_gt _ _)) by lia. apply Hold. lia.
    + destruct (Z.ltb_spec j (da_size d1)); [rewrite (proj2 (Z.leb_gt _ _)) by lia; apply Hnew; lia |].
      by rewrite (proj2 (Z.leb_le _ _)) by lia.
  - simpl. destruct (Update_in_range d i v Hd) as (a & -> & Hok & Hv & Ho); [lia |]. simpl.
    eexists. split; [reflexivity |]. unfold GetLength. simpl.
    rewrite (proj2 (Z.leb_gt _ _)) by lia. split_and!; try done; try lia.
    intros j Hj Hne. rewrite Ho by done. destruct (Z.ltb_spec j (da_size d)); [done |].
    by rewrite (proj2 (Z.leb_le _ _)) by lia.
Qed.

Lemma dynarray_update_witness :
  exists d', Update (H := P32) 9 (DynamicArray_New (H := P32) 9 (-1) 2) 5 7 = Some d' /\
    Sub (-1) d' 5 = Some 7 /\ GetLength d' = 6.
Proof.
  destruct (dynarray_update (H := P32) 9 (-1) (DynamicArray_New (H := P32) 9 (-1) 2) 5 7)
    as (d' & E & _ & _ & _ & Es & _); [vm_compute; repeat split; discriminate | lia | vm_compute; discriminate |].
  exists d'. split; [exact E |]. split; [exact Es |]. vm_compute in E. injection E as <-. reflexivity.
Defined.

(** [Init] only doubles the array, whatever the index: initialising an
    index of at least twice the length writes behind the end of the array. *)
Theorem dynarray_init_bounds `{Platform} {A} (undef : A) (d : DynamicArray A) (i : Z) (v : A) :
  da_ok d -> 0 < da_size d -> 2 * (da_size d + 1) <= hw_MAX_BLOCKSIZE HW -> da_size d <= i ->
  (2 * da_size d <= i -> Init undef d i v = None) /\
  (i < 2 * da_size d -> exists d', Init undef d i v = Some d' /\ GetLength d' = 2 * da_size d).
Proof.
  intros Hd Hpos Hmax Hi. unfold Init, GetLength. rewrite (proj2 (Z.leb_le _ _)) by done.
  pose proof MAX_BLOCKSIZE_eq as E1. pose proof MAX_BIGBLOCKSIZE_eq as E2.
  destruct (EnlargeArray_spec undef d 0 Hd) as (d1 & -> & Hd1 & Es & _ & Ez & _); [lia.. |]. simpl.
  rewrite Z.max_l in Es by lia. rewrite TranslateSize_small in Ez by lia. split; intros Hlt.
  - unfold InitArg, aset. by rewrite decide_False by lia.
  - destruct (Update_in_range d1 i v Hd1) as (a & -> & _); [lia |]. simpl. eexists. split; [done |]. simpl. lia.
Qed.

Lemma dynarray_init_bounds_witness :
  Init (H := P32) 9 (DynamicArray_New (H := P32) 9 (-1) 2) 4 7 = None.
Proof.
  apply (dynarray_init_bounds (H := P32) 9 (DynamicArray_New (H := P32) 9 (-1) 2) 4 7);
    vm_compute; repeat split; discriminate.
Defined.
