(* ===== verification/BaseMap.v ===== *)
(** * Hash tables (seam/store/BaseMap.cc, MapNode.hh, Map.cc, adt/IntMap.hh,
    adt/ChunkMap.cc)

    The table is a block of bucket chains.  The nodes of a chain belong to one
    bucket and never leave the map, so a chain is the list of its nodes: the
    [prev] pointer of the code is the position of the node before.  A slot
    whose memory was never written is [None]: following it is an access the
    code must not make. *)

From S2P Require Import Prelude Config HeaderOp Block Queue.

(** The interface of a key type: the template argument of [BaseMap]. *)
Class MapKey (K : Type) := {
  Hash : K -> Z -> Z;
  Equals : K -> K -> bool;
  Hash_range k size : 0 < size -> 0 <= Hash k size < size;
  Equals_refl k : Equals k k = true;
  Equals_sym k1 k2 : Equals k1 k2 = Equals k2 k1;
  Equals_trans k1 k2 k3 : Equals k1 k2 = true -> Equals k2 k3 = true -> Equals k1 k3 = true;
  Hash_Equals k1 k2 size : Equals k1 k2 = true -> Hash k1 size = Hash k2 size
}.

Record MapNode (K V : Type) := mkMapNode { mn_key : K; mn_value : V }.
Arguments mkMapNode {K V} _ _.
Arguments mn_key {K V} _.
Arguments mn_value {K V} _.

Record BaseMap (K V : Type) := mkBaseMap {
  m_header : Z; m_counter : Z; m_percent : Z;
  m_table : Block (option (list (MapNode K V)))
}.
Arguments mkBaseMap {K V} _ _ _ _.
Arguments m_header {K V} _.
Arguments m_counter {K V} _.
Arguments m_percent {K V} _.
Arguments m_table {K V} _.

Section BaseMap.
Context `{Platform} {K V : Type} `{MapKey K}.
Implicit Types (m : BaseMap K V) (nodes : list (MapNode K V)) (key : K) (value : V).

Definition GetCounter m : Z := m_counter m.
Definition SetCounter m (counter : Z) : BaseMap K V :=
  {| m_header := m_header m; m_counter := counter; m_percent := m_percent m; m_table := m_table m |}.
Definition GetPercent m : Z := m_percent m.
Definition SetPercent m (percent : Z) : BaseMap K V :=
  {| m_header := m_header m; m_counter := m_counter m; m_percent := percent; m_table := m_table m |}.
Definition GetTable m : Block (option (list (MapNode K V))) := m_table m.
Definition SetTable m (t : Block (option (list (MapNode K V)))) : BaseMap K V :=
  {| m_header := m_header m; m_counter := m_counter m; m_percent := m_percent m; m_table := t |}.
Definition GetTableSize m : Z := GetSize (m_table m).

(** Following a slot of a table: fails out of bounds and on garbage. *)
Definition slot (t : Block (option (list (MapNode K V)))) (i : Z) : option (list (MapNode K V)) :=
  mjoin (GetArg t i).
Definition GetEntry m (i : Z) : option (list (MapNode K V)) :=
  if i <? GetTableSize m then slot (m_table m) i else None.
Definition SetEntry m (i : Z) (entry : list (MapNode K V)) : option (BaseMap K V) :=
  if i <? GetTableSize m then t ← InitArg (m_table m) i (Some entry); Some (SetTable m t) else None.

(** The position of the node with an equal key; [prev] is the node before. *)
Fixpoint FindKey key nodes : option nat :=
  match nodes with
  | [] => None
  | node :: nodes => if Equals key (mn_key node) then Some O else S <$> FindKey key nodes
  end.

(** [MapNode::Fill] and [MapNode::SetValue] on the node at a position. *)
Definition Fill nodes (pos : nat) key value : list (MapNode K V) :=
  <[pos := {| mn_key := key; mn_value := value |}]> nodes.

Definition unlink nodes (pos : nat) : list (MapNode K V) := delete pos nodes.

Definition RemoveEntry m (i : Z) (pos : nat) : option (BaseMap K V) :=
  nodes ← GetEntry m i;
  m ← SetEntry m i (unlink nodes pos);
  Some (SetCounter m (u_int (GetCounter m - 1))).

(** [1.0 + newsize * 0.75], truncated. *)
Definition percent_of (newsize : Z) : Z := 1 + newsize * 3 / 4.

(** Reinserting the nodes of one old chain into the new table. *)
Fixpoint reinsert (newsize : Z) (newp : Block (option (list (MapNode K V)))) nodes :
    option (Block (option (list (MapNode K V)))) :=
  match nodes with
  | [] => Some newp
  | node :: nodes =>
      let hashedKey := Hash (mn_key node) newsize in
      keyNodes ← slot newp hashedKey;
      newp ← InitArg newp hashedKey (Some ({| mn_key := mn_key node; mn_value := mn_value node |} :: keyNodes));
      reinsert newsize newp nodes
  end.

(** [for (i = n; i--;)] over the old table. *)
Fixpoint reinsert_all (newsize : Z) (oldp newp : Block (option (list (MapNode K V)))) (n : nat) :
    option (Block (option (list (MapNode K V)))) :=
  match n with
  | O => Some newp
  | S i =>
      nodes ← slot oldp (Z.of_nat i);
      newp ← reinsert newsize newp nodes;
      reinsert_all newsize oldp newp i
  end.

Definition Resize m : option (BaseMap K V) :=
  let oldsize := GetTableSize m in
  let newsize := Z.shiftr (u_int (3 * oldsize)) 1 in
  if newsize <=? oldsize then None else
  let oldp := GetTable m in
  let newp := AllocMutableBlock None HASHNODEARRAY_LABEL newsize in
  let newsize := GetSize newp in
  let m := SetPercent m (percent_of newsize) in
  newp ← block_fill newp 0 newsize (Some []);
  newp ← reinsert_all newsize oldp newp (Z.to_nat oldsize);
  Some (SetTable m newp).

Definition Put m key value : option (BaseMap K V) :=
  m ← (if GetPercent m <? GetCounter m then Resize m else Some m);
  let hashedKey := Hash key (GetTableSize m) in
  nodes ← GetEntry m hashedKey;
  match FindKey key nodes with
  | Some entry => SetEntry m hashedKey (Fill nodes entry key value)
  | None =>
      m ← SetEntry m hashedKey ({| mn_key := key; mn_value := value |} :: nodes);
      Some (SetCounter m (GetCounter m + 1))
  end.

Definition Remove m key : option (BaseMap K V) :=
  let hashedKey := Hash key (GetTableSize m) in
  nodes ← GetEntry m hashedKey;
  match FindKey key nodes with
  | Some entry => RemoveEntry m hashedKey entry
  | None => Some m
  end.

Definition IsMember m key : option bool :=
  nodes ← GetEntry m (Hash key (GetTableSize m));
  Some (match FindKey key nodes with Some _ => true | None => false end).

(** [Get] asserts that the key is there. *)
Definition Get m key : option V :=
  nodes ← GetEntry m (Hash key (GetTableSize m));
  entry ← FindKey key nodes; mn_value <$> nodes !! entry.

(** The result [None] inside is the default alternative, the invalid pointer. *)
Definition CondGet m key (alternative : option V) : option (option V) :=
  nodes ← GetEntry m (Hash key (GetTableSize m));
  Some (match FindKey key nodes with
        | Some entry => mn_value <$> nodes !! entry
        | None => alternative
        end).

Definition Map_GetSize m : Z := m_counter m.
Definition Map_IsEmpty m : bool := GetCounter m =? 0.

Definition Map_Clear m : option (BaseMap K V) :=
  let arr := GetTable m in
  let size := GetSize arr in
  let m := SetCounter m 0 in
  arr ← block_fill arr 0 size (Some []); Some (SetTable m arr).

(** The nodes in the order in which [Apply] and [Fold] visit them, and those
    two functions: [Apply] is the sequence of the calls it makes. *)
Fixpoint visit (table : Block (option (list (MapNode K V)))) (n : nat) : option (list (MapNode K V)) :=
  match n with
  | O => Some []
  | S i => nodes ← slot table (Z.of_nat i); rest ← visit table i; Some (nodes ++ rest)
  end.

Definition Apply m : option (list (MapNode K V)) := visit (GetTable m) (Z.to_nat (GetTableSize m)).

Definition Fold {A} m (func : K -> V -> A -> A) (accum : A) : option A :=
  nodes ← Apply m; Some (fold_left (fun acc n => func (mn_key n) (mn_value n) acc) nodes accum).

(** [PartialMap] on one chain: the nodes kept, with their new values, and the
    number of nodes removed. *)
Fixpoint PartialMap_chain (func : K -> V -> option V) nodes : list (MapNode K V) * Z :=
  match nodes with
  | [] => ([], 0)
  | node :: nodes =>
      let '(kept, removed) := PartialMap_chain func nodes in
      match func (mn_key node) (mn_value node) with
      | Some newValue => ({| mn_key := mn_key node; mn_value := newValue |} :: kept, removed)
      | None => (kept, removed + 1)
      end
  end.

Fixpoint PartialMap_from m (func : K -> V -> option V) (n : nat) : option (BaseMap K V) :=
  match n with
  | O => Some m
  | S i =>
      cur ← GetEntry m (Z.of_nat i);
      let '(kept, removed) := PartialMap_chain func cur in
      m ← SetEntry m (Z.of_nat i) kept;
      PartialMap_from (SetCounter m (u_int (GetCounter m - removed))) func i
  end.

Definition PartialMap m (func : K -> V -> option V) : option (BaseMap K V) :=
  PartialMap_from m func (Z.to_nat (GetTableSize m)).

Definition Map_New (l size : Z) : option (BaseMap K V) :=
  let size := if size <? 2 then 2 else size in
  let map := AllocMutableBlock (A := unit) tt l 4 in
  let arr := AllocMutableBlock None HASHNODEARRAY_LABEL size in
  let percent := size * 3 / 4 in
  arr ← block_fill arr 0 size (Some []);
  Some {| m_header := b_header map; m_counter := 0; m_percent := percent; m_table := arr |}.

(** [Map::Rehash], after the keys' addresses have changed: each node of chain
    [i] whose hash is no longer [i] moves to the front of its new chain.  The
    walk of one chain: [kept] are the nodes before, in order. *)
Fixpoint Rehash_chain (size i : Z) (table : Block (option (list (MapNode K V)))) (kept nodes : list (MapNode K V)) :
    option (Block (option (list (MapNode K V)))) :=
  match nodes with
  | [] => Some table
  | node :: nodes =>
      let hashedKey := Hash (mn_key node) size in
      if hashedKey =? i then Rehash_chain size i table (kept ++ [node]) nodes
      else
        table ← InitArg table i (Some (kept ++ nodes));
        other ← slot table hashedKey;
        table ← InitArg table hashedKey (Some (node :: other));
        Rehash_chain size i table kept nodes
  end.

Fixpoint Rehash_from (size : Z) (table : Block (option (list (MapNode K V)))) (n : nat) :
    option (Block (option (list (MapNode K V)))) :=
  match n with
  | O => Some table
  | S i =>
      nodes ← slot table (Z.of_nat i);
      table ← Rehash_chain size (Z.of_nat i) table [] nodes;
      Rehash_from size table i
  end.

Definition Rehash m : option (BaseMap K V) :=
  let table := GetTable m in
  let size := GetSize table in
  table ← Rehash_from size table (Z.to_nat size); Some (SetTable m table).

End BaseMap.

(** ** The key types *)

(** Words compared as words (Map.hh, WeakMap.hh): the word's address is the
    hash. *)
Section WordKey.
Definition WordKey_Hash (key : Z) (size : Z) : Z := key mod size.
Definition WordKey_Equals (a b : Z) : bool := a =? b.

#[export] Program Instance WordKey : MapKey Z := {
  Hash := WordKey_Hash; Equals := WordKey_Equals
}.
Next Obligation. intros. unfold WordKey_Hash. apply Z.mod_pos_bound. lia. Qed.
Next Obligation. intros. apply Z.eqb_refl. Qed.
Next Obligation. intros. apply Z.eqb_sym. Qed.
Next Obligation. unfold WordKey_Equals. intros k1 k2 k3. rewrite !Z.eqb_eq. congruence. Qed.
Next Obligation. unfold WordKey_Equals. intros k1 k2 size. rewrite Z.eqb_eq. congruence. Qed.
End WordKey.

(** Integers (IntMap.hh): the decoded integer, converted to unsigned for the
    remainder. *)
Section IntKey.
Context `{Platform}.
Record IntWord := { int_value : Z }.
Definition IntKey_Hash (key : IntWord) (size : Z) : Z := u_int (int_value key) mod size.
Definition IntKey_Equals (a b : IntWord) : bool := int_value a =? int_value b.

#[export] Program Instance IntKey : MapKey IntWord := {
  Hash := IntKey_Hash; Equals := IntKey_Equals
}.
Next Obligation. intros. unfold IntKey_Hash. apply Z.mod_pos_bound. lia. Qed.
Next Obligation. intros. apply Z.eqb_refl. Qed.
Next Obligation. intros. apply Z.eqb_sym. Qed.
Next Obligation. unfold IntKey_Equals. intros k1 k2 k3. rewrite !Z.eqb_eq. congruence. Qed.
Next Obligation.
  unfold IntKey_Equals, IntKey_Hash. intros k1 k2 size. rewrite Z.eqb_eq. congruence.
Qed.
End IntKey.

(** Chunks (ChunkMap.cc): compared by their bytes, whatever their address. *)
Section ChunkKey.
Variable char_signed : bool.
Record ChunkRef := { chunk_address : Z; chunk_bytes : list Z }.
Definition ChunkKey_Hash (key : ChunkRef) (size : Z) : Z := HashString char_signed (chunk_bytes key) size.
Definition memcmp_eq (a b : list Z) : bool := bool_decide (a = b).
Definition ChunkKey_Equals (a b : ChunkRef) : bool :=
  if zlen (chunk_bytes a) =? zlen (chunk_bytes b) then memcmp_eq (chunk_bytes a) (chunk_bytes b) else false.

Lemma ChunkKey_Equals_spec a b : ChunkKey_Equals a b = bool_decide (chunk_bytes a = chunk_bytes b).
Proof.
  unfold ChunkKey_Equals, memcmp_eq. destruct (Z.eqb_spec (zlen (chunk_bytes a)) (zlen (chunk_bytes b))) as [E | E]; [done |].
  symmetry. apply bool_decide_eq_false. congruence.
Qed.

#[export] Program Instance ChunkKey : MapKey ChunkRef := {
  Hash := ChunkKey_Hash; Equals := ChunkKey_Equals
}.
Next Obligation. intros. apply Z.mod_pos_bound. lia. Qed.
Next Obligation. intros. rewrite ChunkKey_Equals_spec. by apply bool_decide_eq_true. Qed.
Next Obligation. intros. rewrite !ChunkKey_Equals_spec. by apply bool_decide_ext. Qed.
Next Obligation. intros k1 k2 k3. rewrite !ChunkKey_Equals_spec, !bool_decide_eq_true. congruence. Qed.
Next Obligation.
  intros k1 k2 size. rewrite ChunkKey_Equals_spec, bool_decide_eq_true. unfold ChunkKey_Hash. congruence.
Qed.
End ChunkKey.

(** ** Specification: the nodes as a list of pairwise different keys, in any order *)

Section Spec.
Context {K V : Type} `{MapKey K}.
Implicit Types (l nodes : list (MapNode K V)) (n : MapNode K V) (key : K) (value : V).

Definition different n1 n2 : Prop := Equals (mn_key n1) (mn_key n2) = false.
Definition distinct l : Prop := ForallOrdPairs different l.

#[export] Instance different_sym : Symmetric different.
Proof. intros n1 n2. unfold different. by rewrite Equals_sym. Qed.

Fixpoint a_get key l : option V :=
  match l with
  | [] => None
  | n :: l => if Equals key (mn_key n) then Some (mn_value n) else a_get key l
  end.
Definition a_remove key l : list (MapNode K V) := filter (fun n => Equals key (mn_key n) = false) l.
Definition a_put key value l : list (MapNode K V) := {| mn_key := key; mn_value := value |} :: a_remove key l.

Lemma distinct_perm l l' : l ≡ₚ l' -> distinct l -> distinct l'.
Proof. apply FOP_Permutation. apply _. Qed.

Lemma distinct_app l1 l2 : distinct (l1 ++ l2) -> distinct l1 /\ distinct l2.
Proof.
  induction l1 as [| n l1 IH]; simpl; [split; [constructor | done] |].
  intros [Hn Hd]%FOP_cons. destruct (IH Hd). split; [| done]. apply FOP_cons. split; [| done].
  by apply Forall_app in Hn as [? _].
Qed.

(** In a distinct list an equal key is found only at its node. *)
Lemma a_remove_absent key l :
  Forall (fun n => Equals key (mn_key n) = false) l -> a_remove key l = l /\ a_get key l = None.
Proof.
  unfold a_remove. induction 1 as [| n l Hn _ [IH1 IH2]]; [done |]. split.
  - by rewrite filter_cons_True, IH1.
  - simpl. by rewrite Hn.
Qed.

Lemma distinct_others key n l :
  Equals key (mn_key n) = true -> Forall (different n) l -> Forall (fun n => Equals key (mn_key n) = false) l.
Proof.
  intros E Hf. eapply Forall_impl; [exact Hf |]. intros n' Hd. unfold different in Hd.
  destruct (Equals key (mn_key n')) eqn:E'; [| done]. rewrite Equals_sym in E.
  by rewrite (Equals_trans _ _ _ E E') in Hd.
Qed.

Lemma a_ops_found key n rest :
  Equals key (mn_key n) = true -> distinct (n :: rest) ->
  a_remove key (n :: rest) = rest /\ a_get key (n :: rest) = Some (mn_value n).
Proof.
  intros E [Hn Hd]%FOP_cons. destruct (a_remove_absent key rest) as [E1 _]; [by eapply distinct_others |].
  unfold a_remove in *. simpl. rewrite E. split; [| done]. rewrite filter_cons_False by congruence. done.
Qed.

#[export] Instance a_remove_perm key : Proper ((≡ₚ) ==> (≡ₚ)) (a_remove key).
Proof. intros l l' E. unfold a_remove. by rewrite E. Qed.

Lemma a_get_perm key l l' : l ≡ₚ l' -> distinct l -> a_get key l = a_get key l'.
Proof.
  intros Hp Hd. induction Hp as [| n l l' Hp IH | n1 n2 l | l1 l2 l3 H1 IH1 H2 IH2]; simpl; [done | | |].
  - apply FOP_cons in Hd as [_ Hd]. by rewrite IH.
  - apply FOP_cons in Hd as [Hn _]. inversion Hn as [| ? ? Hd _]; subst.
    destruct (Equals key (mn_key n2)) eqn:E2, (Equals key (mn_key n1)) eqn:E1; try done.
    unfold different in Hd. rewrite Equals_sym in E2. by rewrite (Equals_trans _ _ _ E2 E1) in Hd.
  - rewrite IH1 by done. apply IH2. by eapply distinct_perm.
Qed.

Lemma a_remove_distinct key l : distinct l -> distinct (a_remove key l).
Proof.
  unfold a_remove. induction l as [| n l IH]; [done |]. intros [Hn Hd]%FOP_cons. rewrite filter_cons.
  case_decide; [| by apply IH]. apply FOP_cons. split; [| by apply IH].
  rewrite Forall_forall in *. intros x Hx. apply Hn. by apply list_elem_of_filter in Hx as [_ ?].
Qed.

Lemma a_put_distinct key value l : distinct l -> distinct (a_put key value l).
Proof.
  intros Hd. apply FOP_cons. split; [| by apply a_remove_distinct].
  apply Forall_forall. intros x [Hx _]%list_elem_of_filter. done.
Qed.

Lemma a_get_remove key key' l :
  a_get key' (a_remove key l) = if Equals key key' then None else a_get key' l.
Proof.
  unfold a_remove. induction l as [| n l IH]; simpl; [by destruct (Equals _ _) |].
  rewrite filter_cons. case_decide as E.
  - simpl. rewrite IH. destruct (Equals key' (mn_key n)) eqn:E'; [| done].
    destruct (Equals key key') eqn:E2; [| done]. by rewrite (Equals_trans _ _ _ E2 E') in E.
  - rewrite IH. destruct (Equals key key') eqn:E2; [done |].
    destruct (Equals key' (mn_key n)) eqn:E'; [| done]. apply not_false_is_true in E.
    rewrite Equals_sym in E'. by rewrite (Equals_trans _ _ _ E E') in E2.
Qed.

(** The chain search in terms of the list operations. *)
Lemma FindKey_spec key nodes :
  match FindKey key nodes with
  | Some pos => exists l1 n l2, nodes = l1 ++ n :: l2 /\ length l1 = pos /\ Equals key (mn_key n) = true
  | None => Forall (fun n => Equals key (mn_key n) = false) nodes
  end.
Proof.
  induction nodes as [| n nodes IH]; simpl; [constructor |].
  destruct (Equals key (mn_key n)) eqn:E; [by exists [], n, nodes |].
  destruct (FindKey key nodes) as [pos |]; simpl; [| by constructor].
  destruct IH as (l1 & n' & l2 & -> & <- & ?). by exists (n :: l1), n', l2.
Qed.

End Spec.

(** ** The invariant *)

Section Invariant.
Context `{Platform} {K V : Type} `{MapKey K}.
Implicit Types (m : BaseMap K V) (nodes : list (MapNode K V)) (key : K) (value : V)
  (t : Block (option (list (MapNode K V)))) (bs : list (list (MapNode K V))).

(** The table [t] holds the chains [bs]. *)
Definition table_rep t bs : Prop := b_args t = map Some bs /\ GetSize t = zlen bs.

(** Every node is in the chain of its hash. *)
Definition placed bs : Prop :=
  forall i nodes n, bs !! i = Some nodes -> n ∈ nodes -> Hash (mn_key n) (zlen bs) = Z.of_nat i.

Definition map_ok_with m bs : Prop :=
  table_rep (m_table m) bs /\ 2 <= zlen bs <= hw_MAX_BIGBLOCKSIZE HW /\ placed bs /\
  distinct (concat bs) /\ m_counter m = zlen (concat bs) /\
  m_counter m <= m_percent m + 1 /\ zlen bs * 3 / 4 <= m_percent m <= percent_of (zlen bs).

Definition map_ok m : Prop := exists bs, map_ok_with m bs.

Definition items m : list (MapNode K V) := concat (omap id (b_args (m_table m))).

(** The table may still grow by half. *)
Definition map_room m : Prop := GetTableSize m * 3 / 2 <= hw_MAX_BIGBLOCKSIZE HW.

Lemma omap_id_Some {A} (l : list A) : omap id (map Some l) = l.
Proof. induction l as [| a l IH]; [done |]. by csimpl; rewrite IH. Qed.

Lemma items_rep m bs : table_rep (m_table m) bs -> items m = concat bs.
Proof. intros [E _]. unfold items. by rewrite E, omap_id_Some. Qed.

Lemma zlen_map {A B} (f : A -> B) (l : list A) : zlen (map f l) = zlen l.
Proof. unfold zlen. by rewrite length_map. Qed.

Lemma slot_rep t bs i : table_rep t bs -> 0 <= i < zlen bs -> exists l, bs !! Z.to_nat i = Some l /\ slot t i = Some l.
Proof.
  intros [E _] Hi. destruct (lookup_lt_is_Some_2 bs (Z.to_nat i)) as [l Hl]; [unfold zlen in Hi; lia |].
  exists l. split; [done |]. unfold slot, GetArg, aget. rewrite E, decide_True by lia.
  rewrite list_lookup_fmap, Hl. done.
Qed.

Lemma InitArg_rep t bs i l :
  table_rep t bs -> 0 <= i < zlen bs ->
  exists t', InitArg t i (Some l) = Some t' /\ table_rep t' (<[Z.to_nat i := l]> bs).
Proof.
  intros [E Es] Hi. rewrite InitArg_Some by (rewrite E, zlen_map; lia). eexists. split; [reflexivity |].
  split; [simpl; by rewrite E, list_fmap_insert |].
  unfold zlen. rewrite length_insert. exact Es.
Qed.

(** One chain replaced: the other nodes stay. *)
Lemma concat_insert bs i l :
  bs !! i = Some l -> exists rest, concat bs ≡ₚ l ++ rest /\ forall l', concat (<[i := l']> bs) ≡ₚ l' ++ rest.
Proof.
  intros Hi. pose proof (lookup_lt_Some _ _ _ Hi) as Hlt. exists (concat (take i bs) ++ concat (drop (S i) bs)). split.
  - rewrite <- (take_drop_middle _ _ _ Hi) at 1. rewrite concat_app. simpl. solve_Permutation.
  - intros l'. rewrite insert_take_drop by done. rewrite concat_app. simpl. solve_Permutation.
Qed.

Lemma placed_insert bs i l :
  placed bs -> (forall n, n ∈ l -> Hash (mn_key n) (zlen bs) = Z.of_nat i) -> placed (<[i := l]> bs).
Proof.
  intros Hp Hl j nodes n Hj Hn. unfold zlen. rewrite length_insert. fold (zlen bs).
  destruct (decide (i = j)) as [<- | Hne].
  - destruct (decide (i < length bs)%nat).
    + rewrite list_lookup_insert_eq in Hj by done. injection Hj as <-. auto.
    + rewrite list_insert_ge in Hj by lia. eauto.
  - rewrite list_lookup_insert_ne in Hj by done. eauto.
Qed.

(** The chain of a key determines what the map knows of it. *)
Lemma chain_absent bs key nodes :
  placed bs -> 0 < zlen bs -> bs !! Z.to_nat (Hash key (zlen bs)) = Some nodes ->
  Forall (fun n => Equals key (mn_key n) = false) nodes ->
  Forall (fun n => Equals key (mn_key n) = false) (concat bs).
Proof.
  intros Hp Hpos Hi Hn. apply Forall_concat. rewrite Forall_lookup. intros j l Hj.
  rewrite Forall_forall in *. intros n Hin. destruct (Equals key (mn_key n)) eqn:E; [| done].
  pose proof (Hash_Equals _ _ (zlen bs) E) as Eh. rewrite (Hp j l n Hj Hin) in Eh.
  rewrite Eh, Nat2Z.id, Hj in Hi. injection Hi as ->. by rewrite Hn in E.
Qed.

Lemma zlen_perm {A} (l l' : list A) : l ≡ₚ l' -> zlen l = zlen l'.
Proof. intros E. unfold zlen. by rewrite E. Qed.

End Invariant.

(** ** The operations *)

Section Operations.
Context `{Platform} {K V : Type} `{MapKey K}.
Implicit Types (m : BaseMap K V) (nodes : list (MapNode K V)) (key : K) (value : V)
  (t : Block (option (list (MapNode K V)))) (bs : list (list (MapNode K V))).

Lemma GetEntry_ok m bs key :
  map_ok_with m bs ->
  exists nodes, GetEntry m (Hash key (GetTableSize m)) = Some nodes /\
    bs !! Z.to_nat (Hash key (zlen bs)) = Some nodes /\ GetTableSize m = zlen bs /\
    0 <= Hash key (zlen bs) < zlen bs.
Proof.
  intros ([E Es] & Hn & _). pose proof (Hash_range key (zlen bs)) as Hr.
  unfold GetEntry, GetTableSize. rewrite Es. rewrite (proj2 (Z.ltb_lt _ _)) by lia.
  destruct (slot_rep (m_table m) bs (Hash key (zlen bs))) as (l & Hl & ->); [done | lia |].
  exists l. split_and!; try done; lia.
Qed.

Lemma SetEntry_ok m bs i l :
  table_rep (m_table m) bs -> 0 <= i < zlen bs ->
  exists t', SetEntry m i l = Some (SetTable m t') /\ table_rep t' (<[Z.to_nat i := l]> bs).
Proof.
  intros Hrep Hi. unfold SetEntry, GetTableSize. rewrite (proj2 Hrep), (proj2 (Z.ltb_lt _ _)) by lia.
  destruct (InitArg_rep _ _ i l Hrep Hi) as (t' & -> & ?). by exists t'.
Qed.

(** Replacing a chain by one whose nodes have the same hash. *)
Lemma replace_chain m bs i nodes l counter :
  map_ok_with m bs -> bs !! i = Some nodes ->
  (forall n, n ∈ l -> Hash (mn_key n) (zlen bs) = Z.of_nat i) ->
  (forall rest, concat bs ≡ₚ nodes ++ rest -> distinct (l ++ rest)) ->
  counter = m_counter m - zlen nodes + zlen l -> counter <= m_percent m + 1 ->
  forall t', table_rep t' (<[i := l]> bs) ->
  map_ok_with (SetCounter (SetTable m t') counter) (<[i := l]> bs).
Proof.
  intros (Hrep & Hn & Hp & Hd & Hc & Hload & Hperc) Hi Hl Hdis Hcnt Hcl t' Ht'.
  destruct (concat_insert bs i nodes Hi) as (rest & Hrest & Hins).
  assert (Hz : zlen (<[i:=l]> bs) = zlen bs) by (unfold zlen; by rewrite length_insert).
  unfold map_ok_with. rewrite Hz. simpl. split_and!; try done; try lia.
  - by apply placed_insert.
  - eapply distinct_perm; [symmetry; apply Hins |]. by apply Hdis.
  - rewrite (zlen_perm _ _ (Hins l)). rewrite (zlen_perm _ _ Hrest) in Hc.
    rewrite zlen_app in *. lia.
Qed.

Lemma lookups_ok m key :
  map_ok m ->
  (forall alternative, CondGet m key alternative =
     Some (match a_get key (items m) with Some v => Some v | None => alternative end)) /\
  IsMember m key = Some (match a_get key (items m) with Some _ => true | None => false end) /\
  Get m key = a_get key (items m).
Proof.
  intros (bs & Hok). pose proof Hok as (Hrep & Hn & Hp & Hd & _).
  destruct (GetEntry_ok m bs key Hok) as (nodes & E & Hi & _). rewrite (items_rep m bs Hrep).
  unfold CondGet, IsMember, Get. rewrite E. simpl. pose proof (FindKey_spec key nodes) as Hf.
  destruct (FindKey key nodes) as [pos |]; simpl.
  - destruct Hf as (l1 & n & l2 & -> & <- & Ek). rewrite list_lookup_middle by done. simpl.
    destruct (concat_insert bs _ _ Hi) as (rest & Hrest & _).
    assert (Hp' : concat bs ≡ₚ n :: (l1 ++ l2 ++ rest)) by (rewrite Hrest; solve_Permutation).
    rewrite (a_get_perm key _ _ Hp' Hd). destruct (a_ops_found key n (l1 ++ l2 ++ rest) Ek) as [_ ->]; [| done].
    by eapply distinct_perm.
  - destruct (a_remove_absent key (concat bs)) as [_ ->]; [| done]. by eapply chain_absent; [| lia | ..].
Qed.

Lemma Remove_ok m key :
  map_ok m -> exists m', Remove m key = Some m' /\ map_ok m' /\ items m' ≡ₚ a_remove key (items m) /\
    GetTableSize m' = GetTableSize m.
Proof.
  intros (bs & Hok). pose proof Hok as (Hrep & Hn & Hp & Hd & Hc & Hload & Hperc).
  destruct (GetEntry_ok m bs key Hok) as (nodes & E & Hi & Es & Hr).
  unfold Remove. rewrite E. simpl. pose proof (FindKey_spec key nodes) as Hf.
  destruct (concat_insert bs _ _ Hi) as (rest & Hrest & Hins).
  destruct (FindKey key nodes) as [pos |].
  - destruct Hf as (l1 & n & l2 & -> & <- & Ek).
    unfold RemoveEntry. rewrite E. simpl. rewrite Es.
    destruct (SetEntry_ok m bs (Hash key (zlen bs)) (unlink (l1 ++ n :: l2) (length l1)) Hrep Hr) as (t' & -> & Ht').
    unfold unlink in *. rewrite delete_middle in *. simpl.
    assert (Hzl : zlen (concat bs) = zlen (l1 ++ n :: l2) + zlen rest) by (rewrite (zlen_perm _ _ Hrest); zl).
    assert (Hdn : distinct (n :: (l1 ++ l2) ++ rest)) by (eapply distinct_perm; [| exact Hd]; rewrite Hrest; solve_Permutation).
    assert (Hu : u_int (m_counter m - 1) = m_counter m - 1).
    { apply u_int_id32. unfold percent_of in Hperc. rewrite MAX_BIGBLOCKSIZE_eq in Hn.
      rewrite Hc in *. autorewrite with arrays in Hzl. pose proof (zlen_nonneg l1). pose proof (zlen_nonneg l2).
      pose proof (zlen_nonneg rest). Z.div_mod_to_equations. lia. }
    unfold GetCounter. simpl. rewrite Hu. eexists. split; [reflexivity |]. split; [| split].
    + exists (<[Z.to_nat (Hash key (zlen bs)) := l1 ++ l2]> bs).
      eapply (replace_chain m bs); try done; [| | zl..].
      * intros x Hx%elem_of_app. apply (Hp _ _ _ Hi). rewrite elem_of_app, elem_of_cons. tauto.
      * intros rest' Hr'. apply FOP_cons in Hdn as [_ Hdn]. eapply distinct_perm; [| exact Hdn].
        apply Permutation_app_head. rewrite Hrest in Hr'. by apply Permutation_app_inv_l in Hr'.
    + rewrite (items_rep m bs Hrep). rewrite (items_rep _ (<[Z.to_nat (Hash key (zlen bs)) := l1 ++ l2]> bs)) by done.
      rewrite Hins. assert (Hp' : concat bs ≡ₚ n :: ((l1 ++ l2) ++ rest)) by (rewrite Hrest; solve_Permutation).
      rewrite Hp'. destruct (a_ops_found key n ((l1 ++ l2) ++ rest) Ek Hdn) as [-> _]. done.
    + unfold GetTableSize in *. simpl. rewrite (proj2 Ht'). unfold zlen. by rewrite length_insert.
  - exists m. split; [done |]. split; [by exists bs |]. split; [| done].
    rewrite (items_rep m bs Hrep). destruct (a_remove_absent key (concat bs)) as [-> _]; [| done].
    by eapply chain_absent; [| lia | ..].
Qed.

(** [Put] when no resizing is needed. *)
Definition Put_entry m key value : option (BaseMap K V) :=
  let hashedKey := Hash key (GetTableSize m) in
  nodes ← GetEntry m hashedKey;
  match FindKey key nodes with
  | Some entry => SetEntry m hashedKey (Fill nodes entry key value)
  | None =>
      m ← SetEntry m hashedKey ({| mn_key := key; mn_value := value |} :: nodes);
      Some (SetCounter m (GetCounter m + 1))
  end.

Lemma Put_entry_ok m key value :
  map_ok m -> m_counter m <= m_percent m ->
  exists m', Put_entry m key value = Some m' /\ map_ok m' /\ items m' ≡ₚ a_put key value (items m) /\
    GetTableSize m' = GetTableSize m.
Proof.
  intros (bs & Hok) Hroom. pose proof Hok as (Hrep & Hn & Hp & Hd & Hc & Hload & Hperc).
  destruct (GetEntry_ok m bs key Hok) as (nodes & E & Hi & Es & Hr).
  unfold Put_entry. rewrite E. simpl. pose proof (FindKey_spec key nodes) as Hf.
  destruct (concat_insert bs _ _ Hi) as (rest & Hrest & Hins). rewrite Es.
  set (new := {| mn_key := key; mn_value := value |}).
  assert (Hhash : Hash (mn_key new) (zlen bs) = Z.of_nat (Z.to_nat (Hash key (zlen bs)))) by (simpl; lia).
  destruct (FindKey key nodes) as [pos |].
  - destruct Hf as (l1 & n & l2 & -> & <- & Ek).
    destruct (SetEntry_ok m bs (Hash key (zlen bs)) (Fill (l1 ++ n :: l2) (length l1) key value) Hrep Hr) as (t' & -> & Ht').
    unfold Fill in *. rewrite insert_app_r_alt, Nat.sub_diag in Ht' by done. simpl in Ht'. fold new in Ht'.
    assert (Hdn : distinct (n :: (l1 ++ l2) ++ rest)) by (eapply distinct_perm; [| exact Hd]; rewrite Hrest; solve_Permutation).
    assert (Habs : a_remove key (concat bs) ≡ₚ (l1 ++ l2) ++ rest).
    { assert (Hp' : concat bs ≡ₚ n :: ((l1 ++ l2) ++ rest)) by (rewrite Hrest; solve_Permutation).
      rewrite Hp'. by destruct (a_ops_found key n ((l1 ++ l2) ++ rest) Ek Hdn) as [-> _]. }
    assert (Hnew : distinct (new :: (l1 ++ l2) ++ rest)).
    { eapply distinct_perm; [| apply (a_put_distinct key value _ Hd)]. unfold a_put. by rewrite Habs. }
    eexists. split; [reflexivity |]. split; [| split].
    + exists (<[Z.to_nat (Hash key (zlen bs)) := l1 ++ new :: l2]> bs).
      replace (SetTable m t') with (SetCounter (SetTable m t') (m_counter m)) by done.
      eapply (replace_chain m bs); try done; [| | zl..].
      * intros x [Hx | [-> | Hx]%elem_of_cons]%elem_of_app; [| done |]; apply (Hp _ _ _ Hi); rewrite elem_of_app, elem_of_cons; tauto.
      * intros rest' Hr'. eapply distinct_perm; [| exact Hnew]. rewrite Hrest in Hr'.
        apply Permutation_app_inv_l in Hr'. rewrite Hr'. solve_Permutation.
    + rewrite (items_rep m bs Hrep), (items_rep _ (<[Z.to_nat (Hash key (zlen bs)) := l1 ++ new :: l2]> bs)) by done.
      rewrite Hins. unfold a_put. rewrite Habs. fold new. solve_Permutation.
    + unfold GetTableSize in *. simpl. rewrite (proj2 Ht'). unfold zlen. by rewrite length_insert.
  - destruct (SetEntry_ok m bs (Hash key (zlen bs)) (new :: nodes) Hrep Hr) as (t' & -> & Ht'). simpl.
    assert (Habs : Forall (fun n => Equals key (mn_key n) = false) (concat bs)) by (by eapply chain_absent; [| lia | ..]).
    destruct (a_remove_absent key (concat bs) Habs) as [Erem _].
    eexists. split; [reflexivity |]. split; [| split].
    + exists (<[Z.to_nat (Hash key (zlen bs)) := new :: nodes]> bs).
      eapply (replace_chain m bs); try done; unfold GetCounter; simpl; [| | zl..].
      * intros x [-> | Hx]%elem_of_cons; [done |]. by apply (Hp _ _ _ Hi).
      * intros rest' Hr'. apply (distinct_perm (new :: concat bs)); [simpl; by rewrite Hr' |].
        by apply FOP_cons.
    + rewrite (items_rep m bs Hrep), (items_rep _ (<[Z.to_nat (Hash key (zlen bs)) := new :: nodes]> bs)) by done.
      rewrite Hins. unfold a_put. rewrite Erem, Hrest. done.
    + unfold GetTableSize in *. simpl. rewrite (proj2 Ht'). unfold zlen. by rewrite length_insert.
Qed.

End Operations.

(** ** Resizing, traversal and rehashing *)

Section Tables.
Context `{Platform} {K V : Type} `{MapKey K}.
Implicit Types (m : BaseMap K V) (nodes : list (MapNode K V)) (key : K) (value : V)
  (t : Block (option (list (MapNode K V)))) (bs : list (list (MapNode K V))).

Lemma concat_replicate_nil {A} n : concat (replicate n ([] : list A)) = [].
Proof. by induction n. Qed.

Lemma map_replicate {A B} (f : A -> B) n x : map f (replicate n x) = replicate n (f x).
Proof. induction n; simpl; congruence. Qed.

(** Filling a whole table with the integer 0 makes every chain empty. *)
Lemma clear_table t n :
  zlen (b_args t) = n -> GetSize t = n ->
  exists t', block_fill t 0 n (Some []) = Some t' /\ table_rep t' (replicate (Z.to_nat n) ([] : list (MapNode K V))).
Proof.
  intros Hz Hg. pose proof (zlen_nonneg (b_args t)). unfold block_fill.
  rewrite (afill_pieces (b_args t) 0 n (Some []) [] (b_args t) []) by (rewrite ?app_nil_r; done || lia).
  simpl. eexists. split; [reflexivity |]. split.
  - simpl. by rewrite app_nil_r, map_replicate, Hz.
  - rewrite zlen_replicate by lia. exact Hg.
Qed.

Lemma reinsert_ok nodes t bs n :
  table_rep t bs -> placed bs -> zlen bs = n -> 0 < n ->
  exists t' bs', reinsert n t nodes = Some t' /\ table_rep t' bs' /\ placed bs' /\ zlen bs' = n /\
    concat bs' ≡ₚ nodes ++ concat bs.
Proof.
  revert t bs. induction nodes as [| nd nodes IH]; intros t bs Hrep Hp Hz Hpos; simpl.
  { by exists t, bs. }
  pose proof (Hash_range (mn_key nd) n Hpos) as Hr.
  destruct (slot_rep t bs (Hash (mn_key nd) n) Hrep) as (l & Hl & ->); [lia |]. simpl.
  destruct (InitArg_rep t bs (Hash (mn_key nd) n) ({| mn_key := mn_key nd; mn_value := mn_value nd |} :: l) Hrep)
    as (t1 & -> & Hrep1); [lia |]. simpl.
  replace {| mn_key := mn_key nd; mn_value := mn_value nd |} with nd in * by (by destruct nd).
  destruct (concat_insert bs _ _ Hl) as (rest & Hrest & Hins).
  destruct (IH t1 _ Hrep1) as (t' & bs' & -> & Hrep' & Hp' & Hz' & Hc').
  - apply placed_insert; [done |]. intros x [-> | Hx]%elem_of_cons; [rewrite Hz; lia |]. by apply (Hp _ l).
  - unfold zlen. by rewrite length_insert.
  - done.
  - exists t', bs'. split_and!; try done. rewrite Hc', Hins, Hrest. solve_Permutation.
Qed.

Lemma reinsert_all_ok oldp obs k t bs n :
  table_rep oldp obs -> (k <= length obs)%nat -> table_rep t bs -> placed bs -> zlen bs = n -> 0 < n ->
  exists t' bs', reinsert_all n oldp t k = Some t' /\ table_rep t' bs' /\ placed bs' /\ zlen bs' = n /\
    concat bs' ≡ₚ concat (take k obs) ++ concat bs.
Proof.
  intros Ho. revert t bs. induction k as [| k IH]; intros t bs Hk Hrep Hp Hz Hpos; simpl.
  { by exists t, bs. }
  destruct (slot_rep oldp obs (Z.of_nat k) Ho) as (l & Hl & ->); [unfold zlen; lia |]. simpl.
  rewrite Nat2Z.id in Hl.
  destruct (reinsert_ok l t bs n Hrep Hp Hz Hpos) as (t1 & bs1 & -> & Hrep1 & Hp1 & Hz1 & Hc1). simpl.
  destruct (IH t1 bs1) as (t' & bs' & -> & Hrep' & Hp' & Hz' & Hc'); [lia | done.. |].
  exists t', bs'. split_and!; try done. change (match obs with [] => [] | a :: l0 => a :: take k l0 end) with (take (S k) obs).
  rewrite (take_S_r _ _ _ Hl), concat_app, Hc', Hc1. simpl. solve_Permutation.
Qed.

Lemma Resize_ok m :
  map_ok m -> map_room m ->
  exists m', Resize m = Some m' /\ map_ok m' /\ items m' ≡ₚ items m /\ m_counter m' <= m_percent m' /\
    m_counter m' = m_counter m /\ GetTableSize m < GetTableSize m'.
Proof.
  intros (bs & Hok) Hroom. pose proof Hok as (Hrep & Hn & Hp & Hd & Hc & Hload & Hperc).
  unfold map_room, GetTableSize in Hroom. unfold Resize, GetTableSize, GetTable. rewrite (proj2 Hrep) in *.
  rewrite MAX_BIGBLOCKSIZE_eq in *. rewrite u_int_id32 by lia. rewrite Z.shiftr_div_pow2 by lia.
  change (2 ^ 1) with 2. set (n := 3 * zlen bs / 2).
  assert (En : n = zlen bs * 3 / 2) by (unfold n; f_equal; lia).
  assert (Hgrow : zlen bs < n) by (unfold n; Z.div_mod_to_equations; lia).
  rewrite (proj2 (Z.leb_gt _ _)) by done.
  assert (Hnn : 0 <= n <= hw_MAX_BIGBLOCKSIZE HW) by (rewrite MAX_BIGBLOCKSIZE_eq; lia).
  pose proof (TranslateSize_bounds _ Hnn) as [Ht1 Ht2]. rewrite MAX_BIGBLOCKSIZE_eq in Ht2.
  set (na := AllocMutableBlock None HASHNODEARRAY_LABEL n).
  assert (Hl : 0 <= HASHNODEARRAY_LABEL < 128) by done.
  assert (Hsz : GetSize na = TranslateSize n) by (apply AllocMutableBlock_size; lia).
  assert (Hza : zlen (b_args na) = TranslateSize n) by (apply AllocMutableBlock_zlen; lia).
  rewrite Hsz. set (n' := TranslateSize n) in *. clearbody na n'.
  destruct (clear_table na n' Hza Hsz) as (t0 & -> & Hrep0). simpl.
  destruct (reinsert_all_ok (m_table m) bs (Z.to_nat (zlen bs)) t0 (replicate (Z.to_nat n') []) n' Hrep) as (t' & bs' & -> & Hrep' & Hp' & Hz' & Hc').
  { unfold zlen. lia. }
  { exact Hrep0. }
  { intros i l x [-> _]%lookup_replicate Hx. by apply not_elem_of_nil in Hx. }
  { rewrite zlen_replicate; lia. }
  { lia. }
  rewrite concat_replicate_nil, app_nil_r in Hc'.
  rewrite take_ge in Hc' by (unfold zlen; lia). simpl. eexists. split; [reflexivity |].
  assert (Hcount : m_counter m <= percent_of n').
  { unfold percent_of in *. unfold n in *. Z.div_mod_to_equations. lia. }
  split; [| split; [| split; [| split]]].
  - exists bs'. unfold map_ok_with. rewrite MAX_BIGBLOCKSIZE_eq. simpl. rewrite Hz'. split_and!; try done; try lia.
    + by eapply distinct_perm.
    + by rewrite Hc, (zlen_perm _ _ Hc').
    + unfold percent_of. lia.
  - rewrite (items_rep _ bs'), (items_rep m bs) by done. done.
  - simpl. lia.
  - done.
  - simpl. rewrite (proj2 Hrep'), Hz'. lia.
Qed.

(** With at most this many entries the table never needs to outgrow a block. *)
Definition map_cap : Z := 8000000.

Lemma cap_room m : map_ok m -> m_percent m < m_counter m -> m_counter m <= map_cap -> map_room m.
Proof.
  intros (bs & Hrep & Hn & _ & _ & _ & _ & Hperc) Hc Hcap. unfold map_room, GetTableSize, map_cap in *.
  rewrite (proj2 Hrep), MAX_BIGBLOCKSIZE_eq. Z.div_mod_to_equations. lia.
Qed.

Lemma Put_ok m key value :
  map_ok m -> m_counter m <= map_cap ->
  exists m', Put m key value = Some m' /\ map_ok m' /\ items m' ≡ₚ a_put key value (items m) /\
    (m_counter m <= m_percent m -> GetTableSize m' = GetTableSize m).
Proof.
  intros Hok Hcap. change (Put m key value) with
    (m' ← (if GetPercent m <? GetCounter m then Resize m else Some m); Put_entry m' key value).
  unfold GetPercent, GetCounter. destruct (Z.ltb_spec (m_percent m) (m_counter m)).
  - destruct (Resize_ok m Hok) as (m1 & -> & Hok1 & Hi1 & Hc1 & _); [by apply cap_room |]. simpl.
    destruct (Put_entry_ok m1 key value Hok1 Hc1) as (m' & -> & Hok' & Hi' & _).
    exists m'. split; [done |]. split; [done |]. split; [| lia]. rewrite Hi'. unfold a_put. by rewrite Hi1.
  - simpl. destruct (Put_entry_ok m key value Hok) as (m' & -> & Hok' & Hi' & Es); [lia |]. by exists m'.
Qed.

Lemma Map_New_ok l size :
  size <= hw_MAX_BLOCKSIZE HW ->
  exists m : BaseMap K V, Map_New l size = Some m /\ map_ok m /\ items m = [] /\ m_counter m = 0 /\
    GetTableSize m = Z.max 2 size.
Proof.
  intros Hs. unfold Map_New. set (n := if _ <? _ then _ else _).
  assert (En : n = Z.max 2 size) by (unfold n; case_Zb; lia). rewrite <- En. clearbody n.
  pose proof MAX_BLOCKSIZE_eq as E1. pose proof MAX_BIGBLOCKSIZE_eq as E2.
  assert (Hl : 0 <= HASHNODEARRAY_LABEL < 128) by done.
  set (arr := AllocMutableBlock None HASHNODEARRAY_LABEL n).
  assert (Hsz : GetSize arr = n) by (unfold arr; rewrite AllocMutableBlock_size, TranslateSize_small; lia).
  assert (Hza : zlen (b_args arr) = n) by (unfold arr; rewrite AllocMutableBlock_zlen, TranslateSize_small; lia).
  destruct (clear_table arr n Hza Hsz) as (t & -> & Hrep). simpl. eexists. split; [reflexivity |].
  split; [| split; [| split; [done | unfold GetTableSize; simpl; rewrite (proj2 Hrep), zlen_replicate; lia]]].
  - exists (replicate (Z.to_nat n) []). unfold map_ok_with. simpl. rewrite zlen_replicate, concat_replicate_nil by lia.
    split_and!; try done; try lia.
    + intros i nodes x [-> _]%lookup_replicate Hx. by apply not_elem_of_nil in Hx.
    + constructor.
    + Z.div_mod_to_equations. lia.
    + unfold percent_of. lia.
  - rewrite (items_rep _ (replicate (Z.to_nat n) [])) by done. apply concat_replicate_nil.
Qed.

Lemma Map_Clear_ok m :
  map_ok m -> exists m', Map_Clear m = Some m' /\ map_ok m' /\ items m' = [] /\ m_counter m' = 0 /\
    GetTableSize m' = GetTableSize m.
Proof.
  intros (bs & [E Es] & Hn & _ & _ & _ & _ & Hperc). unfold Map_Clear, GetTable. rewrite Es.
  destruct (clear_table (m_table m) (zlen bs)) as (t & -> & Hrep); [by rewrite E, zlen_map | done |].
  simpl. eexists. split; [reflexivity |].
  split; [| split; [| split; [done | unfold GetTableSize; simpl; rewrite (proj2 Hrep), zlen_replicate; lia]]].
  - exists (replicate (Z.to_nat (zlen bs)) []). unfold map_ok_with. simpl.
    rewrite zlen_replicate, concat_replicate_nil by lia. split_and!; try done; try lia.
    + intros i nodes x [-> _]%lookup_replicate Hx. by apply not_elem_of_nil in Hx.
    + constructor.
    + Z.div_mod_to_equations. lia.
  - rewrite (items_rep _ (replicate (Z.to_nat (zlen bs)) [])) by done. apply concat_replicate_nil.
Qed.

(** [Apply] visits every node exactly once. *)
Lemma visit_ok t bs n :
  table_rep t bs -> (n <= length bs)%nat -> exists l, visit t n = Some l /\ l ≡ₚ concat (take n bs).
Proof.
  intros Hrep. induction n as [| n IH]; intros Hn; simpl; [by exists [] |].
  destruct (slot_rep t bs (Z.of_nat n) Hrep) as (l & Hl & ->); [unfold zlen; lia |]. rewrite Nat2Z.id in Hl.
  destruct IH as (r & -> & Hr); [lia |]. simpl. eexists. split; [reflexivity |].
  change (match bs with [] => [] | a :: l0 => a :: take n l0 end) with (take (S n) bs).
  rewrite (take_S_r _ _ _ Hl), concat_app, Hr. simpl. solve_Permutation.
Qed.

Lemma Apply_ok m : map_ok m -> exists l, Apply m = Some l /\ l ≡ₚ items m.
Proof.
  intros (bs & Hrep & Hn & _). unfold Apply, GetTable, GetTableSize. rewrite (proj2 Hrep), (items_rep m bs Hrep).
  destruct (visit_ok _ _ (Z.to_nat (zlen bs)) Hrep) as (l & -> & Hl); [unfold zlen; lia |].
  exists l. split; [done |]. by rewrite take_ge in Hl by (unfold zlen; lia).
Qed.

End Tables.

(** ** [PartialMap] and [Rehash] *)

Section Traversals.
Context `{Platform} {K V : Type} `{MapKey K}.
Implicit Types (m : BaseMap K V) (nodes : list (MapNode K V)) (key : K) (value : V)
  (t : Block (option (list (MapNode K V)))) (bs : list (list (MapNode K V))) (func : K -> V -> option V).

Definition a_map func nodes : list (MapNode K V) :=
  omap (fun n => (fun v => {| mn_key := mn_key n; mn_value := v |}) <$> func (mn_key n) (mn_value n)) nodes.

Lemma a_map_app func l1 l2 : a_map func (l1 ++ l2) = a_map func l1 ++ a_map func l2.
Proof. apply omap_app. Qed.

Lemma PartialMap_chain_spec func nodes :
  PartialMap_chain func nodes = (a_map func nodes, zlen nodes - zlen (a_map func nodes)).
Proof.
  induction nodes as [| n nodes IH]; [done |]. cbn [PartialMap_chain]. rewrite IH. unfold a_map. csimpl.
  destruct (func (mn_key n) (mn_value n)); simpl; rewrite ?zlen_cons; f_equal; lia.
Qed.

Lemma a_map_key func nodes x :
  x ∈ a_map func nodes -> exists n, n ∈ nodes /\ mn_key n = mn_key x.
Proof.
  unfold a_map. intros (n & Hn & Hx)%list_elem_of_omap. exists n. split; [done |].
  destruct (func (mn_key n) (mn_value n)); simpl in Hx; [by injection Hx as <- | done].
Qed.

Lemma a_map_distinct func nodes rest : distinct (nodes ++ rest) -> distinct (a_map func nodes ++ rest).
Proof.
  induction nodes as [| n nodes IH]; [done |]. simpl. intros [Hn Hd]%FOP_cons. unfold a_map. csimpl.
  destruct (func (mn_key n) (mn_value n)) as [v |]; simpl; [| by apply IH].
  apply FOP_cons. split; [| by apply IH]. rewrite Forall_forall in *. intros x [Hx | Hx]%elem_of_app.
  - apply a_map_key in Hx as (n' & Hn' & E). specialize (Hn n'). unfold different in *. simpl. rewrite <- E.
    apply Hn. apply elem_of_app. by left.
  - apply (Hn x). apply elem_of_app. by right.
Qed.

Lemma a_map_zlen func nodes : zlen (a_map func nodes) <= zlen nodes.
Proof.
  induction nodes as [| n nodes IH]; [done |]. unfold a_map in *. csimpl.
  destruct (func (mn_key n) (mn_value n)); simpl; rewrite ?zlen_cons; lia.
Qed.

Lemma map_count_bound m bs : map_ok_with m bs -> 0 <= m_counter m < 2 ^ 32.
Proof.
  intros (_ & Hn & _ & _ & Hc & Hload & Hperc). unfold percent_of in Hperc. rewrite MAX_BIGBLOCKSIZE_eq in Hn.
  pose proof (zlen_nonneg (concat bs)). Z.div_mod_to_equations. lia.
Qed.

Lemma PartialMap_from_ok func n m bs :
  map_ok_with m bs -> (n <= length bs)%nat ->
  exists m', PartialMap_from m func n = Some m' /\ map_ok_with m' (map (a_map func) (take n bs) ++ drop n bs).
Proof.
  revert m bs. induction n as [| i IH]; intros m bs Hok Hn; [by exists m |]. cbn [PartialMap_from].
  pose proof Hok as (Hrep & Hb & Hp & Hd & Hc & Hload & Hperc).
  destruct (lookup_lt_is_Some_2 bs i) as [l Hl]; [lia |].
  assert (Hi : 0 <= Z.of_nat i < zlen bs) by (unfold zlen; lia).
  assert (E : GetEntry m (Z.of_nat i) = Some l).
  { unfold GetEntry, GetTableSize. rewrite (proj2 Hrep), (proj2 (Z.ltb_lt _ _)) by lia.
    destruct (slot_rep _ _ _ Hrep Hi) as (l' & Hl' & ->). rewrite Nat2Z.id, Hl in Hl'. congruence. }
  rewrite E. simpl. rewrite PartialMap_chain_spec.
  destruct (SetEntry_ok m bs (Z.of_nat i) (a_map func l) Hrep Hi) as (t' & -> & Ht'). rewrite Nat2Z.id in Ht'. simpl.
  set (c := m_counter m - zlen l + zlen (a_map func l)).
  destruct (concat_insert bs i l Hl) as (rest & Hrest & _).
  assert (Hcb : zlen l <= m_counter m).
  { rewrite Hc, (zlen_perm _ _ Hrest), zlen_app. pose proof (zlen_nonneg rest). lia. }
  pose proof (a_map_zlen func l). pose proof (zlen_nonneg (a_map func l)).
  assert (Hu : u_int (m_counter m - (zlen l - zlen (a_map func l))) = c).
  { pose proof (map_count_bound m bs Hok). rewrite u_int_id32; unfold c; lia. }
  rewrite Hu.
  assert (Hok1 : map_ok_with (SetCounter (SetTable m t') c) (<[i := a_map func l]> bs)).
  { eapply (replace_chain m bs); try done; [| | unfold c; lia].
    - intros x (n & Hn1 & <-)%a_map_key. by apply (Hp i l).
    - intros rest' Hr'. apply a_map_distinct. by eapply distinct_perm. }
  destruct (IH _ _ Hok1) as (m' & -> & Hok'); [rewrite length_insert; lia |].
  exists m'. split; [done |]. rewrite take_insert_ge in Hok' by lia.
  rewrite (take_S_r _ _ _ Hl), map_app, <- app_assoc. simpl.
  by rewrite (drop_S (<[i := a_map func l]> bs) (a_map func l) i), drop_insert_lt in Hok'
    by (done || lia || (apply list_lookup_insert_eq; lia)).
Qed.

Lemma PartialMap_ok func m :
  map_ok m -> exists m', PartialMap m func = Some m' /\ map_ok m' /\ items m' = a_map func (items m).
Proof.
  intros (bs & Hok). pose proof Hok as (Hrep & _). unfold PartialMap, GetTableSize. rewrite (proj2 Hrep).
  destruct (PartialMap_from_ok func (Z.to_nat (zlen bs)) m bs Hok) as (m' & -> & Hok'); [unfold zlen; lia |].
  rewrite take_ge, drop_ge, app_nil_r in Hok' by (unfold zlen; lia).
  exists m'. split; [done |]. split; [by eexists |].
  rewrite (items_rep m bs Hrep), (items_rep m' (map (a_map func) bs)) by apply Hok'.
  clear. induction bs as [| l bs IH]; [done |]. simpl. by rewrite a_map_app, IH.
Qed.

(** The chains from [j0] on are correct. *)
Definition clean_from (j0 : nat) bs : Prop :=
  forall j nodes n, bs !! j = Some nodes -> (j0 <= j)%nat -> n ∈ nodes -> Hash (mn_key n) (zlen bs) = Z.of_nat j.

Lemma Rehash_chain_ok size i nodes t kept bs :
  table_rep t bs -> zlen bs = size -> (i < length bs)%nat -> bs !! i = Some (kept ++ nodes) ->
  (forall n, n ∈ kept -> Hash (mn_key n) size = Z.of_nat i) -> clean_from (S i) bs ->
  exists t' bs', Rehash_chain size (Z.of_nat i) t kept nodes = Some t' /\ table_rep t' bs' /\
    zlen bs' = size /\ clean_from i bs' /\ concat bs' ≡ₚ concat bs.
Proof.
  revert t kept bs. induction nodes as [| n nodes IH]; intros t kept bs Hrep Hz Hi Hl Hk Hcl; cbn [Rehash_chain].
  { exists t, bs. split_and!; try done. intros j l x Hj Hle Hx. destruct (decide (j = i)) as [-> |].
    - rewrite Hl, app_nil_r in Hj. injection Hj as <-. rewrite Hz. by apply Hk.
    - apply (Hcl j l x Hj); [lia | done]. }
  pose proof (Hash_range (mn_key n) size) as Hr.
  destruct (Z.eqb_spec (Hash (mn_key n) size) (Z.of_nat i)) as [E | E].
  - apply IH; try done; [by rewrite <- app_assoc |].
    intros x [Hx | ->%list_elem_of_singleton]%elem_of_app; auto.
  - set (h := Hash (mn_key n) size) in *. assert (Hh : 0 <= h < size) by (apply Hr; unfold zlen in *; lia).
    destruct (InitArg_rep t bs (Z.of_nat i) (kept ++ nodes) Hrep) as (t1 & -> & Hrep1); [unfold zlen; lia |].
    rewrite Nat2Z.id in Hrep1. simpl. set (bs1 := <[i := kept ++ nodes]> bs) in *.
    assert (Hz1 : zlen bs1 = size) by (unfold bs1, zlen; rewrite length_insert; exact Hz).
    destruct (slot_rep t1 bs1 h Hrep1) as (other & Ho & ->); [lia |]. simpl.
    destruct (InitArg_rep t1 bs1 h (n :: other) Hrep1) as (t2 & -> & Hrep2); [lia |]. simpl.
    set (bs2 := <[Z.to_nat h := n :: other]> bs1) in *.
    destruct (concat_insert bs i _ Hl) as (rest & Hrest & Hins). specialize (Hins (kept ++ nodes)).
    destruct (concat_insert bs1 _ _ Ho) as (rest2 & Hrest2 & Hins2). specialize (Hins2 (n :: other)).
    assert (Hne : i <> Z.to_nat h) by lia.
    destruct (IH t2 kept bs2) as (t' & bs' & -> & Hrep' & Hz' & Hcl' & Hp'); try done.
    + unfold bs2, zlen. by rewrite length_insert.
    + unfold bs2, bs1. rewrite !length_insert. done.
    + unfold bs2. rewrite list_lookup_insert_ne by done. unfold bs1. by apply list_lookup_insert_eq.
    + intros j l x Hj Hle Hx. assert (Hz2 : zlen bs2 = zlen bs) by (unfold bs2, bs1, zlen; by rewrite !length_insert).
      rewrite Hz2. destruct (decide (j = Z.to_nat h)) as [-> | Hjh].
      * unfold bs2 in Hj. rewrite list_lookup_insert_eq in Hj by (unfold zlen in Hz1; lia). injection Hj as <-.
        apply elem_of_cons in Hx as [-> | Hx]; [rewrite Hz; unfold h in *; lia |].
        apply (Hcl _ other); [| lia | done]. unfold bs1 in Ho. by rewrite list_lookup_insert_ne in Ho.
      * unfold bs2 in Hj. rewrite list_lookup_insert_ne in Hj by done.
        unfold bs1 in Hj. rewrite list_lookup_insert_ne in Hj by lia. by apply (Hcl j l).
    + exists t', bs'. split_and!; try done. rewrite Hp'. unfold bs2 in *. rewrite Hins2, Hrest.
      simpl. rewrite <- Hrest2. unfold bs1. rewrite Hins. solve_Permutation.
Qed.

Lemma Rehash_from_ok size k t bs :
  table_rep t bs -> zlen bs = size -> (k <= length bs)%nat -> clean_from k bs ->
  exists t' bs', Rehash_from size t k = Some t' /\ table_rep t' bs' /\ zlen bs' = size /\
    placed bs' /\ concat bs' ≡ₚ concat bs.
Proof.
  revert t bs. induction k as [| i IH]; intros t bs Hrep Hz Hk Hcl; cbn [Rehash_from].
  { exists t, bs. split_and!; try done. intros j l x Hj Hx. apply (Hcl j l x Hj); [lia | done]. }
  destruct (slot_rep t bs (Z.of_nat i) Hrep) as (l & Hl & ->); [unfold zlen; lia |]. rewrite Nat2Z.id in Hl. simpl.
  destruct (Rehash_chain_ok size i l t [] bs) as (t1 & bs1 & -> & Hrep1 & Hz1 & Hcl1 & Hp1); try done;
    [by intros ? ?%not_elem_of_nil |].
  simpl. destruct (IH t1 bs1) as (t' & bs' & -> & Hrep' & Hz' & Hp' & Hperm); try done; [unfold zlen in *; lia |].
  exists t', bs'. split_and!; try done. by rewrite Hperm.
Qed.

End Traversals.

(** ** Traces of map operations against lists *)

Section MapTrace.
Context `{Platform} {K V : Type} `{MapKey K}.

Inductive map_op :=
  | MPut (key : K) (value : V) | MRemove (key : K) | MIsMember (key : K) | MGet (key : K)
  | MCondGet (key : K) (alternative : option V) | MSize | MIsEmpty | MClear
  | MPartialMap (func : K -> V -> option V).

Inductive map_result := MUnit | MBool (b : bool) | MValue (v : V) | MOption (v : option V) | MNumber (n : Z).

Definition run_map (m : BaseMap K V) (o : map_op) : option (map_result * BaseMap K V) :=
  match o with
  | MPut key value => m ← Put m key value; Some (MUnit, m)
  | MRemove key => m ← Remove m key; Some (MUnit, m)
  | MIsMember key => b ← IsMember m key; Some (MBool b, m)
  | MGet key => v ← Get m key; Some (MValue v, m)
  | MCondGet key alternative => v ← CondGet m key alternative; Some (MOption v, m)
  | MSize => Some (MNumber (Map_GetSize m), m)
  | MIsEmpty => Some (MBool (Map_IsEmpty m), m)
  | MClear => m ← Map_Clear m; Some (MUnit, m)
  | MPartialMap func => m ← PartialMap m func; Some (MUnit, m)
  end.

(** The same operations on an association list. *)
Definition spec_map (l : list (MapNode K V)) (o : map_op) : option (map_result * list (MapNode K V)) :=
  match o with
  | MPut key value => if zlen l <=? map_cap then Some (MUnit, a_put key value l) else None
  | MRemove key => Some (MUnit, a_remove key l)
  | MIsMember key => Some (MBool (match a_get key l with Some _ => true | None => false end), l)
  | MGet key => v ← a_get key l; Some (MValue v, l)
  | MCondGet key alternative =>
      Some (MOption (match a_get key l with Some v => Some v | None => alternative end), l)
  | MSize => Some (MNumber (zlen l), l)
  | MIsEmpty => Some (MBool (bool_decide (l = [])), l)
  | MClear => Some (MUnit, [])
  | MPartialMap func => Some (MUnit, a_map func l)
  end.

Fixpoint run_trace {S} (step : S -> map_op -> option (map_result * S)) (s : S) (ops : list map_op) :
    option (list map_result * S) :=
  match ops with
  | [] => Some ([], s)
  | o :: ops => p ← step s o; r ← run_trace step p.2 ops; Some (p.1 :: r.1, r.2)
  end.

End MapTrace.

Section MapRefinement.
Context `{Platform} {K V : Type} `{MapKey K}.
Implicit Types (m : BaseMap K V) (l : list (MapNode K V)) (key : K) (value : V).

(** The map [m] holds exactly the nodes of [l]. *)
Definition holds m l : Prop := map_ok m /\ items m ≡ₚ l.

Lemma holds_facts m l :
  holds m l -> distinct (items m) /\ distinct l /\ m_counter m = zlen l /\
  forall key, a_get key (items m) = a_get key l.
Proof.
  intros [(bs & Hok) Hp]. pose proof Hok as (Hrep & _ & _ & Hd & Hc & _).
  rewrite <- (items_rep m bs Hrep) in Hd, Hc. split; [done |].
  split; [by eapply distinct_perm |]. split; [by rewrite Hc; apply zlen_perm |].
  intros key. by apply a_get_perm.
Qed.

Lemma a_map_perm (func : K -> V -> option V) l l' : l ≡ₚ l' -> a_map func l ≡ₚ a_map func l'.
Proof. intros E. unfold a_map. by rewrite E. Qed.

Lemma run_map_refines m l o r l' :
  holds m l -> spec_map l o = Some (r, l') ->
  exists m', run_map m o = Some (r, m') /\ holds m' l'.
Proof.
  intros Hm. pose proof (holds_facts m l Hm) as (Hdm & Hdl & Hc & Hget). destruct Hm as [Hok Hp].
  destruct o as [key value | key | key | key | key alternative | | | | func]; simpl; intros E.
  - destruct (Z.leb_spec (zlen l) map_cap); [| done]. injection E as <- <-.
    destruct (Put_ok m key value Hok) as (m' & -> & Hok' & Hi & _); [lia |].
    exists m'. split; [done |]. split; [done |]. rewrite Hi. unfold a_put. by rewrite Hp.
  - injection E as <- <-. destruct (Remove_ok m key Hok) as (m' & -> & Hok' & Hi & _).
    exists m'. split; [done |]. split; [done |]. by rewrite Hi, Hp.
  - injection E as <- <-. destruct (lookups_ok m key Hok) as (_ & -> & _). rewrite Hget. by exists m.
  - inv_bind E. injection E as <- <-. destruct (lookups_ok m key Hok) as (_ & _ & ->).
    rewrite Hget, E0. by exists m.
  - injection E as <- <-. destruct (lookups_ok m key Hok) as (-> & _). rewrite Hget. by exists m.
  - injection E as <- <-. unfold Map_GetSize. rewrite Hc. by exists m.
  - injection E as <- <-. unfold Map_IsEmpty, GetCounter. rewrite Hc. exists m. split; [| done].
    do 3 f_equal. destruct l as [| n l]; [done |].
    rewrite zlen_cons. pose proof (zlen_nonneg l). by apply Z.eqb_neq; lia.
  - injection E as <- <-. destruct (Map_Clear_ok m Hok) as (m' & -> & Hok' & Hi & _).
    exists m'. split; [done |]. split; [done |]. by rewrite Hi.
  - injection E as <- <-. destruct (PartialMap_ok func m Hok) as (m' & -> & Hok' & Hi).
    exists m'. split; [done |]. split; [done |]. rewrite Hi. by apply a_map_perm.
Qed.

End MapRefinement.

(** ** Properties *)

(** C25. Refinement: for every key type whose hash respects its equality, a
    hash table behaves like an association list.  From a new table that was
    asked for with at most MAX_BLOCKSIZE slots, every sequence of insertions,
    removals, lookups, traversals and clearings (with at most [map_cap]
    entries) runs without touching memory outside the table or a slot that was
    never written, through all the resizings it causes, and returns what the
    list returns.  Of a larger table slots may stay uninitialised, which a
    theorem below shows. *)
Theorem basemap_refines_list `{Platform} {K V} `{MapKey K} (l size : Z)
    (ops : list (map_op (K := K) (V := V))) (rs : list map_result) (final : list (MapNode K V)) :
  size <= hw_MAX_BLOCKSIZE HW ->
  run_trace spec_map [] ops = Some (rs, final) ->
  exists m0 m, Map_New l size = Some m0 /\ run_trace run_map m0 ops = Some (rs, m) /\
    map_ok m /\ items m ≡ₚ final.
Proof.
  intros Hs E. destruct (Map_New_ok (K := K) (V := V) l size Hs) as (m0 & E0 & Hok & Hi & _).
  assert (Hh : holds m0 []) by (split; [done | by rewrite Hi]). exists m0.
  enough (exists m, run_trace run_map m0 ops = Some (rs, m) /\ holds m final) as (m & ? & ? & ?) by (by exists m).
  clear E0 Hok Hi. revert m0 Hh E. generalize (@nil (MapNode K V)) as l0. revert rs.
  induction ops as [| o ops IH]; intros rs l0 m0 Hh E.
  - injection E as <- <-. by exists m0.
  - simpl in E. inv_bind E. destruct x as [r l1]. inv_bind E. destruct x as [rs' l']. injection E as <- <-.
    destruct (run_map_refines m0 l0 o r l1 Hh E0) as (m1 & E2 & Hh1). simpl. rewrite E2. simpl.
    destruct (IH rs' l1 m1 Hh1 E1) as (m' & -> & ?). by exists m'.
Qed.

Lemma basemap_refines_list_witness :
  exists m0 m, Map_New (H := P32) (K := Z) (V := Z) MAP_LABEL 0 = Some m0 /\
    run_trace (run_map (H := P32)) m0
      [MPut 3 30; MPut 5 50; MPut 9 90; MPut 3 31; MGet 3; MRemove 5; MIsMember 5; MCondGet 5 (Some 0); MSize]
      = Some ([MUnit; MUnit; MUnit; MUnit; MValue 31; MUnit; MBool false; MOption (Some 0); MNumber 2], m) /\
    map_ok (H := P32) m /\ items m ≡ₚ [{| mn_key := 3; mn_value := 31 |}; {| mn_key := 9; mn_value := 90 |}].
Proof.
  apply (basemap_refines_list (H := P32) MAP_LABEL 0); [vm_compute; discriminate | reflexivity].
Defined.

(** [Map::Rehash] after a garbage collection: whatever the new hashes of
    the keys, the walk that splices nodes between the chains while it traverses
    them ends, keeps every node exactly once, and leaves the map well formed,
    so that every key is found again. *)
Theorem rehash_restores `{Platform} {K V} `{MapKey K} (m : BaseMap K V) (bs : list (list (MapNode K V))) :
  table_rep (m_table m) bs -> 2 <= zlen bs <= hw_MAX_BIGBLOCKSIZE HW -> distinct (concat bs) ->
  m_counter m = zlen (concat bs) -> m_counter m <= m_percent m + 1 ->
  zlen bs * 3 / 4 <= m_percent m <= percent_of (zlen bs) ->
  exists m', Rehash m = Some m' /\ map_ok m' /\ items m' ≡ₚ items m /\
    forall key, Get m' key = a_get key (items m).
Proof.
  intros Hrep Hn Hd Hc Hload Hperc. unfold Rehash, GetTable. rewrite (proj2 Hrep).
  destruct (Rehash_from_ok (zlen bs) (Z.to_nat (zlen bs)) (m_table m) bs) as (t' & bs' & -> & Hrep' & Hz' & Hp' & Hperm);
    [done | done | unfold zlen; lia | |].
  { intros j l n Hj Hle _. apply lookup_lt_Some in Hj. unfold zlen in Hle. lia. }
  simpl. eexists. split; [reflexivity |].
  assert (Hok : map_ok (SetTable m t')).
  { exists bs'. unfold map_ok_with. simpl. rewrite Hz'. split_and!; try done; try lia.
    - by eapply distinct_perm.
    - by rewrite Hc, (zlen_perm _ _ Hperm). }
  assert (Hi : items (SetTable m t') ≡ₚ items m).
  { by rewrite (items_rep _ bs'), (items_rep m bs) by done. }
  split; [done |]. split; [done |]. intros key. destruct (lookups_ok _ key Hok) as (_ & _ & ->).
  apply a_get_perm; [done |]. eapply distinct_perm; [symmetry; exact Hi |]. by rewrite (items_rep m bs).
Qed.

(** A table whose keys 10, 11 and 13 are still in the chains of old hashes. *)
Definition moved_table : BaseMap Z Z :=
  {| m_header := 0; m_counter := 3; m_percent := 3;
     m_table := {| b_header := b_header (AllocMutableBlock (H := P32) (@None (list (MapNode Z Z))) HASHNODEARRAY_LABEL 4);
                   b_args := [Some [{| mn_key := 13; mn_value := 1 |}; {| mn_key := 10; mn_value := 2 |}];
                              Some []; Some []; Some [{| mn_key := 11; mn_value := 3 |}]] |} |}.

Lemma rehash_restores_witness :
  exists m', Rehash (H := P32) moved_table = Some m' /\ Get (H := P32) m' 13 = Some 1 /\
    Get (H := P32) m' 10 = Some 2.
Proof.
  destruct (rehash_restores (H := P32) moved_table
    [[{| mn_key := 13; mn_value := 1 |}; {| mn_key := 10; mn_value := 2 |}]; []; []; [{| mn_key := 11; mn_value := 3 |}]])
    as (m' & E & _ & _ & Hg);
    [split; reflexivity | vm_compute; split; discriminate | repeat constructor | reflexivity
    | vm_compute; discriminate | vm_compute; split; discriminate |].
  exists m'. split; [exact E |]. split; [rewrite Hg; reflexivity | rewrite Hg; reflexivity].
Defined.

(** Iteration: [Fold] calls its function exactly once for every entry, in
    some order of the entries, whatever the layout of the table. *)
Theorem fold_visits_all `{Platform} {K V B} `{MapKey K} (m : BaseMap K V) (func : K -> V -> B -> B) (accum : B) :
  map_ok m ->
  exists order, order ≡ₚ items m /\
    Fold m func accum = Some (fold_left (fun acc n => func (mn_key n) (mn_value n) acc) order accum).
Proof.
  intros Hok. destruct (Apply_ok m Hok) as (l & E & Hl). exists l. split; [done |].
  unfold Fold. by rewrite E.
Qed.

Lemma fold_visits_all_witness :
  exists order m, Rehash (H := P32) moved_table = Some m /\ order ≡ₚ items m /\
    Fold (H := P32) m (fun _ v acc => v + acc) 0 =
      Some (fold_left (fun acc n => mn_value n + acc) order 0).
Proof.
  assert (exists m, Rehash (H := P32) moved_table = Some m /\ map_ok (H := P32) m) as (m & E & Hok).
  { eexists. split; [vm_compute; reflexivity |].
    exists [[]; [{| mn_key := 13; mn_value := 1 |}]; [{| mn_key := 10; mn_value := 2 |}]; [{| mn_key := 11; mn_value := 3 |}]].
    split; [split; reflexivity |]. split; [vm_compute; split; discriminate |]. split; [| split; [repeat constructor |]].
    - intros i nodes n Hi Hn. destruct i as [| [| [| [| i]]]]; [.. | done]; injection Hi as <-;
        [by apply not_elem_of_nil in Hn | apply list_elem_of_singleton in Hn as ->; reflexivity ..].
    - vm_compute. repeat split; discriminate. }
  destruct (fold_visits_all (H := P32) m (fun _ v acc => v + acc) 0 Hok) as (order & Hp & Ef).
  exists order, m. split; [exact E |]. split; [exact Hp | exact Ef].
Defined.

(** [New] does not correct a table size that allocation rounds up: in a
    table asked for with more than MAX_BLOCKSIZE slots, not a multiple of 16,
    the slots behind the requested size are never initialised, and inserting
    a key that hashes there follows garbage. *)
Theorem new_big_table_garbage `{Platform} (l n : Z) (v : Z) :
  hw_MAX_BLOCKSIZE HW < n <= hw_MAX_BIGBLOCKSIZE HW -> n mod 16 <> 0 ->
  exists m : BaseMap Z Z, Map_New l n = Some m /\ Put m n v = None.
Proof.
  pose proof MAX_BLOCKSIZE_eq as E1. pose proof MAX_BIGBLOCKSIZE_eq as E2. intros Hn Hmod.
  unfold Map_New. rewrite (proj2 (Z.ltb_ge n 2)) by lia.
  assert (Hs : 0 <= n <= hw_MAX_BIGBLOCKSIZE HW) by lia.
  pose proof (TranslateSize_bounds n Hs) as [Ht1 Ht2]. pose proof (TranslateSize_big n Hn) as Hmul.
  assert (Hl : 0 <= HASHNODEARRAY_LABEL < 128) by done.
  assert (Hgs : GetSize (AllocMutableBlock (@None (list (MapNode Z Z))) HASHNODEARRAY_LABEL n) = TranslateSize n)
    by (by rewrite AllocMutableBlock_size).
  assert (Hlt : n < TranslateSize n) by (destruct (decide (n = TranslateSize n)) as [E |]; [congruence | lia]).
  set (arr := AllocMutableBlock None HASHNODEARRAY_LABEL n) in *.
  assert (Ea : b_args arr = replicate (Z.to_nat (TranslateSize n)) None) by done. clearbody arr.
  unfold block_fill. rewrite Ea.
  rewrite (afill_pieces _ 0 n (Some []) [] (replicate (Z.to_nat n) None) (replicate (Z.to_nat (TranslateSize n - n)) None)).
  2: { simpl. rewrite <- replicate_add. f_equal. lia. }
  2: done.
  2: { rewrite zlen_replicate; lia. }
  rewrite (zlen_replicate n) by lia. simpl. eexists. split; [reflexivity |]. unfold Put. cbn [GetPercent GetCounter m_percent m_counter].
  rewrite (proj2 (Z.ltb_ge _ _)) by (Z.div_mod_to_equations; lia). cbn [mbind option_bind].
  unfold GetEntry, GetTableSize. cbn [m_table].
  change (GetSize {| b_header := b_header arr; b_args := _ |}) with (GetSize arr). rewrite Hgs.
  change (Hash n (TranslateSize n)) with (n mod TranslateSize n). rewrite Z.mod_small by lia.
  rewrite (proj2 (Z.ltb_lt _ _)) by done. unfold slot, GetArg. cbn [b_args].
  cbn [app]. rewrite aget_app_r by (rewrite zlen_replicate; lia). rewrite zlen_replicate by lia.
  by rewrite aget_replicate by lia.
Qed.

Lemma new_big_table_garbage_witness :
  exists m : BaseMap Z Z, Map_New (H := P32) MAP_LABEL 1048577 = Some m /\ Put (H := P32) m 1048577 5 = None.
Proof.
  apply (new_big_table_garbage (H := P32) MAP_LABEL 1048577 5); [vm_compute; split; congruence | vm_compute; discriminate].
Defined.
