(* ===== verification/GC.v ===== *)
(** * The garbage collector (seam/store/Store.cc, Set.hh, GCHelper.hh, Map.cc)

    A generational copying collector: blocks of the collected generations that
    are reached from the root, from the recorded blocks of older generations
    or from weak dictionaries are copied to the target generation, which is
    scanned in the order of allocation.  A block of memory is its header and
    its arguments by address; a moved block's header is the address of its
    copy.  A failed assertion and an access to memory that holds no block are
    [None].  [Finalize] is the virtual method of the finalization handlers. *)

From S2P Require Import Prelude Config HeaderOp PointerOp Heap.

Definition STORE_GEN_YOUNGEST : Z := 0.

Record GC := mkGC {
  gc_heap : Store;          (* roots, status word, signal limit *)
  gc_mem : gmap Z (Z * list Z);        (* the blocks *)
  gc_intgen : Z;            (* intgenSet *)
  gc_wkdict : Z;            (* wkDictSet *)
  gc_fin : Z;               (* finSet *)
  gc_mapLs : Z              (* Map::mapLs *)
}.

Definition with_heap (s : GC) (h : Store) : GC := mkGC h (gc_mem s) (gc_intgen s) (gc_wkdict s) (gc_fin s) (gc_mapLs s).
Definition with_mem (s : GC) (m : memory) : GC := mkGC (gc_heap s) m (gc_intgen s) (gc_wkdict s) (gc_fin s) (gc_mapLs s).
Definition with_intgen (s : GC) (p : Z) : GC := mkGC (gc_heap s) (gc_mem s) p (gc_wkdict s) (gc_fin s) (gc_mapLs s).
Definition with_wkdict (s : GC) (p : Z) : GC := mkGC (gc_heap s) (gc_mem s) (gc_intgen s) p (gc_fin s) (gc_mapLs s).
Definition with_fin (s : GC) (p : Z) : GC := mkGC (gc_heap s) (gc_mem s) (gc_intgen s) (gc_wkdict s) p (gc_mapLs s).
Definition with_mapLs (s : GC) (w : Z) : GC := mkGC (gc_heap s) (gc_mem s) (gc_intgen s) (gc_wkdict s) (gc_fin s) w.

Section Collector.
Context `{Platform} (undef : Z) (malloc : list (Z * Z) -> Z -> Z).
Implicit Types (s : GC) (p w v : Z) (gen : nat).

(** ** Blocks in memory (Value.hh) *)

Definition Header s p : option Z := fst <$> gc_mem s !! p.
Definition SetHeader s p (h : Z) : option GC :=
  b ← gc_mem s !! p; Some (with_mem s (<[p := (h, b.2)]> (gc_mem s))).
Definition Block_GetArg s p (i : Z) : option Z := b ← gc_mem s !! p; aget b.2 i.
Definition Block_InitArg s p (i : Z) v : option GC :=
  b ← gc_mem s !! p; args ← aset b.2 i v; Some (with_mem s (<[p := (b.1, args)]> (gc_mem s))).

(** [Store::Alloc]; two rounds of its loop are enough for every size for which
    it ends. *)
Definition Store_Alloc s gen (l size : Z) : option (Z * GC) :=
  '(p, heap) ← Alloc malloc 2 (gc_heap s) gen l size;
  h ← st_mem heap !! p;
  Some (p, with_mem (with_heap s heap) (<[p := (h, replicate (Z.to_nat size) undef)]> (gc_mem s))).

Definition AllocDynamicBlock s (size scan : Z) gen : option (Z * GC) :=
  '(p, s) ← Store_Alloc s gen DYNAMIC_LABEL (TranslateSize (size + 1));
  s ← Block_InitArg s p 0 (EncodeInt scan);
  h ← Header s p;
  s ← SetHeader s p (EncodeMutableFlag h 1);
  Some (p, s).

(** [memcpy] of the first [n] words of a block. *)
Definition memcpy_words s (src dst n : Z) : option GC :=
  b ← gc_mem s !! src; d ← gc_mem s !! dst;
  args ← blit b.2 0 d.2 0 n;
  Some (with_mem s (<[dst := (d.1, args)]> (gc_mem s))).

(** ** Sets (Set.hh): dynamic blocks whose first argument is the active size *)

Definition GetActiveSize s p : option Z :=
  w ← Block_GetArg s p 0; if IsInt w then Some (DirectDecodeInt w) else None.
Definition GetScanSize s p : option Z := n ← GetActiveSize s p; Some (n + 1).
Definition SetActiveSize s p (n : Z) : option GC :=
  h ← Header s p;
  if DecodeSize h - 1 <? n then None else Block_InitArg s p 0 (EncodeInt n).
Definition Set_GetArgUnchecked s p (i : Z) : option Z := Block_GetArg s p (1 + i).
Definition Set_GetArg s p (i : Z) : option Z :=
  n ← GetActiveSize s p; if n <=? i then None else Set_GetArgUnchecked s p i.
Definition Set_InitArg s p (i : Z) w : option GC :=
  n ← GetActiveSize s p; if n <=? i then None else Block_InitArg s p (1 + i) w.

Definition Set_Clear s p : option GC := SetActiveSize s p 0.

Definition Set_Enlarge s p (oldsize newsize : Z) gen : option (Z * GC) :=
  '(q, s) ← AllocDynamicBlock s newsize 0 gen;
  s ← memcpy_words s p q (oldsize + 1);
  Some (q, s).

Definition Set_Add s p w gen : option (Z * GC) :=
  top ← GetActiveSize s p;
  h ← Header s p;
  let max := DecodeSize h - 1 in
  '(q, s) ← (if top + 1 <? max then Some (p, s) else Set_Enlarge s p max (Z.shiftr (max * 3) 1) gen);
  s ← SetActiveSize s q (top + 1);
  s ← Set_InitArg s q top w;
  Some (q, s).

Definition Set_AddUnchecked s p w : option GC :=
  top ← GetActiveSize s p; s ← SetActiveSize s p (top + 1); Set_InitArg s p top w.

Definition Set_Export s p gen : option (Z * GC) :=
  size ← GetActiveSize s p; Set_Enlarge s p size size gen.

Definition OLDEST : nat := 2.

(** [Store::AddToIntgenSet], and the write barrier of [Block::ReplaceArg]. *)
Definition AddToIntgenSet s p : option GC :=
  h ← Header s p; s ← SetHeader s p (SetChildishFlag h);
  '(q, s) ← Set_Add s (gc_intgen s) (EncodeBlock p) OLDEST;
  Some (with_intgen s q).

Definition ReplaceArg s p (i : Z) v : option GC :=
  s ← Block_InitArg s p i v;
  if IsInt v then Some s
  else
    hv ← Header s (RemoveTag v); h ← Header s p;
    if (DecodeGeneration hv <? DecodeGeneration h) && negb (IsChildish h) then AddToIntgenSet s p else Some s.

Definition RegisterWeakDict s p : option GC :=
  '(q, s) ← Set_Add s (gc_wkdict s) (EncodeBlock p) OLDEST; Some (with_wkdict s q).

(** ** Copying *)

Definition CloneBlock s p gen : option (Z * GC) :=
  h ← Header s p;
  let size := DecodeSize h in
  '(newp, s) ← Store_Alloc s gen (DecodeLabel h) size;
  hn ← Header s newp;
  s ← (if DecodeMutableFlag h =? 0 then Some s else SetHeader s newp (EncodeMutableFlag hn 1));
  s ← memcpy_words s p newp size;
  if negb (AlreadyMoved newp) then None
  else s ← SetHeader s p (MarkMoved h newp); Some (newp, s).

(** [GCHelper::Deref]: like [PointerOp.Deref], but it stops at moved blocks. *)
Fixpoint GC_Deref_loop (fuel : nat) (mem : memory) v : option Z :=
  match fuel with
  | O => None
  | S fuel =>
      if Z.land (Z.lxor v TRTAG) TAGMASK =? 0 then
        b ← mem !! Z.lxor v TRTAG;
        if negb (AlreadyMoved b.1) && (DecodeLabel b.1 =? REF_LABEL)
        then v ← aget b.2 0; GC_Deref_loop fuel mem v
        else Some v
      else Some v
  end.

(** A chain without a cycle visits every block at most once. *)
Definition GC_Deref s v : option Z := GC_Deref_loop (S (size (gc_mem s))) (gc_mem s) v.

Definition ForwardBlock s w gen : option (Z * GC) :=
  if IsInt w then None
  else
    let sp := RemoveTag w in
    h ← Header s sp;
    if AlreadyMoved h then Some (EncodeTag (GetForwardPtr h) (DecodeTag w), s)
    else if DecodeGeneration h <? Z.of_nat gen then
      '(newp, s) ← CloneBlock s sp gen; Some (EncodeTag newp (DecodeTag w), s)
    else Some (w, s).

Definition FORWARD s w gen : option (Z * GC) :=
  if IsInt w then Some (w, s) else ForwardBlock s w gen.

(** ** Scanning *)

(** The loop over the arguments, from the last one down. *)
Fixpoint scan_args (forward : GC -> Z -> option (Z * GC)) s p (i : nat) : option GC :=
  match i with
  | O => Some s
  | S i =>
      w ← Block_GetArg s p (Z.of_nat i);
      item ← GC_Deref s w;
      '(w, s) ← forward s item;
      s ← Block_InitArg s p (Z.of_nat i) w;
      scan_args forward s p i
  end.

(** One block: chunks and weak dictionaries are not scanned, dynamic blocks up
    to their active size. *)
Definition scan_block (forward : GC -> Z -> option (Z * GC)) s p : option GC :=
  h ← Header s p;
  let l := DecodeLabel h in
  if l <? CHUNK_LABEL then scan_args forward s p (Z.to_nat (DecodeSize h))
  else if l =? DYNAMIC_LABEL then n ← GetScanSize s p; scan_args forward s p (Z.to_nat n)
  else Some s.

(** The [k]-th chunk of a generation, the oldest first: [GetPrev] leads from
    a chunk to the one allocated after it. *)
Definition chunk_at s gen (k : nat) : option HeapChunk :=
  heap ← st_roots (gc_heap s) !! gen; rev (h_chain heap) !! k.

(** [CheneyScan] and [FinalizeCheneyScan]: from the address [scan] in chunk [k]
    to the end of the newest chunk. *)
Fixpoint scan_loop (fuel : nat) (forward : GC -> Z -> option (Z * GC)) s gen (k : nat) (scan : Z) : option GC :=
  match fuel with
  | O => None
  | S fuel =>
      chunk ← chunk_at s gen k;
      if scan <? hc_top chunk then
        h ← Header s scan;
        let next := scan + SIZEOF_BLOCK (DecodeSize h) in
        s ← scan_block forward s scan;
        scan_loop fuel forward s gen k next
      else
        match chunk_at s gen (S k) with
        | Some chunk => scan_loop fuel forward s gen (S k) (hc_base chunk)
        | None => Some s
        end
  end.

Definition CheneyScan (fuel : nat) s gen (k : nat) (scan : Z) : option GC :=
  scan_loop fuel (fun s w => FORWARD s w gen) s gen k scan.

Definition in_chunk (c : HeapChunk) p : bool := (hc_base c <=? p) && (p <=? hc_top c).
Definition IsInFromSpace s p : bool :=
  existsb (fun h => existsb (fun c => in_chunk c p) (h_chain h)) (take (Z.to_nat (STORE_GENERATION_NUM - 1)) (st_roots (gc_heap s))).

(** The scan after finalization, which cannot tell the semispaces by generation. *)
Definition FinalizeForward s w : option (Z * GC) :=
  if IsInt w then Some (w, s)
  else
    let sp := RemoveTag w in
    h ← Header s sp;
    if AlreadyMoved h then Some (EncodeTag (GetForwardPtr h) (DecodeTag w), s)
    else if IsInFromSpace s sp then
      '(newp, s) ← CloneBlock s sp (Z.to_nat (STORE_GENERATION_NUM - 1)); Some (EncodeTag newp (DecodeTag w), s)
    else Some (w, s).

Definition FinalizeCheneyScan (fuel : nat) s (k : nat) (scan : Z) : option GC :=
  scan_loop fuel FinalizeForward s (Z.to_nat (STORE_GENERATION_NUM - 1)) k scan.

(** The scan position at the end of a generation. *)
Definition scan_start s gen : option (nat * Z) :=
  heap ← st_roots (gc_heap s) !! gen;
  chunk ← head (h_chain heap);
  Some (pred (length (h_chain heap)), hc_top chunk).

(** ** Inter-generational pointers *)

(** The arguments of an old block; [young] is set by one that stays younger. *)
Fixpoint intgen_args s (entry : Z) (k : nat) (entryGen : Z) gen (young : bool) : option (bool * GC) :=
  match k with
  | O => Some (young, s)
  | S k =>
      w ← Block_GetArg s entry (Z.of_nat k);
      wItem ← GC_Deref s w;
      if IsInt wItem then
        s ← Block_InitArg s entry (Z.of_nat k) wItem;
        intgen_args s entry k entryGen gen young
      else
        '(wItem, s) ← ForwardBlock s wItem (S gen);
        s ← Block_InitArg s entry (Z.of_nat k) wItem;
        h ← Header s (RemoveTag wItem);
        intgen_args s entry k entryGen gen (young || (DecodeGeneration h <? entryGen))
  end.

Definition intgen_entry s (intgen_set : Z) gen (wEntry : Z) : option GC :=
  if IsInt wEntry then None
  else
    let entry := RemoveTag wEntry in
    h ← Header s entry;
    if AlreadyMoved h then
      hn ← Header s (GetForwardPtr h); SetHeader s (GetForwardPtr h) (ClearChildishFlag hn)
    else
      let entryGen := DecodeGeneration h in
      if Z.of_nat gen <? entryGen then
        entrySize ← (if DecodeLabel h =? DYNAMIC_LABEL then GetScanSize s entry else Some (DecodeSize h));
        '(young, s) ← intgen_args s entry (Z.to_nat entrySize) entryGen gen false;
        if (young : bool) then Set_AddUnchecked s intgen_set wEntry
        else h ← Header s entry; SetHeader s entry (ClearChildishFlag h)
      else Some s.

(** Upward: entry [i] is read before the entries up to [i] are written. *)
Fixpoint intgen_entries s (intgen_set : Z) gen (i : Z) (n : nat) : option GC :=
  match n with
  | O => Some s
  | S n =>
      wEntry ← Set_GetArgUnchecked s intgen_set i;
      s ← intgen_entry s intgen_set gen wEntry;
      intgen_entries s intgen_set gen (i + 1) n
  end.

Definition HandleInterGenerationalPointers s gen : option GC :=
  let intgen_set := gc_intgen s in
  size ← GetActiveSize s intgen_set;
  s ← Set_Clear s intgen_set;
  intgen_entries s intgen_set gen 0 (Z.to_nat size).

(** ** Hash tables in memory (BaseMap.hh, MapNode.hh, WeakMap.hh) *)

Definition COUNTER_POS : Z := 0.
Definition TABLE_POS : Z := 2.
Definition RESERVED_POS : Z := 3.
Definition KEY_POS : Z := 0.
Definition VALUE_POS : Z := 1.
Definition NEXT_POS : Z := 2.

Definition DirectWordToBlock w : option Z := if Z.land w TAGMASK =? BLKTAG then Some (DirectDecodeBlock w) else None.
Definition GetCounter s p : option Z :=
  w ← Block_GetArg s p COUNTER_POS; if IsInt w then Some (DirectDecodeInt w) else None.
Definition GetHandler s p : option Z := Block_GetArg s p RESERVED_POS.
Definition GetTable s p : option Z := w ← Block_GetArg s p TABLE_POS; DirectWordToBlock w.
Definition NULL_NODE : Z := EncodeInt 0.

Definition RemoveEntry s (map : Z) (i : Z) (prev node : Z) : option GC :=
  next ← Block_GetArg s node NEXT_POS;
  s ← (if prev =? NULL_NODE then table ← GetTable s map; ReplaceArg s table i next
       else pn ← DirectWordToBlock prev; ReplaceArg s pn NEXT_POS next);
  c ← GetCounter s map;
  Block_InitArg s map COUNTER_POS (EncodeInt (c - 1)).

(** ** Weak dictionaries *)

Definition fin_add s w gen : option GC := '(q, s) ← Set_Add s (gc_fin s) w gen; Some (with_fin s q).

(** Forward the nodes of a chain but not their contents. *)
Fixpoint forward_nodes (fuel : nat) s (nodes : Z) gen : option GC :=
  if nodes =? NULL_NODE then Some s
  else
    match fuel with
    | O => None
    | S fuel =>
        node ← DirectWordToBlock nodes;
        next ← Block_GetArg s node NEXT_POS;
        '(next, s) ← FORWARD s next gen;
        s ← Block_InitArg s node NEXT_POS next;
        forward_nodes fuel s next gen
    end.

Fixpoint forward_table (fuel : nat) s (table : Z) (k : nat) gen : option GC :=
  match k with
  | O => Some s
  | S k =>
      nodes ← Block_GetArg s table (Z.of_nat k);
      '(nodes, s) ← FORWARD s nodes gen;
      s ← Block_InitArg s table (Z.of_nat k) nodes;
      s ← forward_nodes fuel s nodes gen;
      forward_table fuel s table k gen
  end.

(** Phase one for one dictionary: its new word. *)
Definition forward_dict s (wkdict_set : Z) (dict : Z) gen : option (Z * GC) :=
  dp ← DirectWordToBlock dict;
  h ← Header s dp;
  if AlreadyMoved h then
    let ndict := EncodeTag (GetForwardPtr h) (DecodeTag dict) in
    s ← Set_AddUnchecked s wkdict_set ndict; Some (ndict, s)
  else if DecodeGeneration h <? Z.of_nat gen then
    '(newp, s) ← CloneBlock s dp gen;
    let ndict := EncodeTag newp (DecodeTag dict) in
    c ← GetCounter s newp;
    if c =? 0 then
      handler ← GetHandler s newp;
      s ← fin_add s ndict gen;
      s ← fin_add s handler gen;
      Some (ndict, s)
    else s ← Set_AddUnchecked s wkdict_set ndict; Some (ndict, s)
  else s ← Set_AddUnchecked s wkdict_set dict; Some (dict, s).

Fixpoint weak_phase_one (fuel : nat) s (wkdict_set db_set : Z) (i : nat) gen : option GC :=
  match i with
  | O => Some s
  | S i =>
      dict ← Set_GetArg s db_set (Z.of_nat i);
      '(ndict, s) ← forward_dict s wkdict_set dict gen;
      s ← Set_InitArg s db_set (Z.of_nat i) ndict;
      p ← DirectWordToBlock ndict;
      table ← GetTable s p;
      '(arr, s) ← ForwardBlock s (EncodeBlock table) gen;
      s ← ReplaceArg s p TABLE_POS arr;
      table ← DirectWordToBlock arr;
      h ← Header s table;
      s ← forward_table fuel s table (Z.to_nat (DecodeSize h)) gen;
      weak_phase_one fuel s wkdict_set db_set i gen
  end.

(** Phase two for one node: whether it was deleted.  The label that decides
    whether the value may be finalized is read after the value was moved. *)
Definition weak_node s (dict : Z) (k : Z) (prev node : Z) (handler : Z) gen : option (bool * GC) :=
  v ← Block_GetArg s node VALUE_POS;
  val ← GC_Deref s v;
  if IsInt val then
    s ← RemoveEntry s dict k prev node;
    s ← fin_add s val gen;
    s ← fin_add s handler gen;
    Some (true, s)
  else
    let valp := RemoveTag val in
    h ← Header s valp;
    if AlreadyMoved h then
      s ← ReplaceArg s node VALUE_POS (EncodeTag (GetForwardPtr h) (DecodeTag val)); Some (false, s)
    else if DecodeGeneration h <? Z.of_nat gen then
      '(fVal, s) ← ForwardBlock s val gen;
      h ← Header s valp;
      permitted ← (if DecodeLabel h =? WEAK_MAP_LABEL then c ← GetCounter s valp; Some (c =? 0) else Some true);
      if (permitted : bool) then
        s ← RemoveEntry s dict k prev node;
        s ← fin_add s fVal gen;
        s ← fin_add s handler gen;
        Some (true, s)
      else s ← ReplaceArg s node VALUE_POS fVal; Some (false, s)
    else s ← ReplaceArg s node VALUE_POS val; Some (false, s).

Fixpoint weak_nodes (fuel : nat) s (dict : Z) (k : Z) (prev nodes : Z) (handler : Z) gen : option GC :=
  if nodes =? NULL_NODE then Some s
  else
    match fuel with
    | O => None
    | S fuel =>
        node ← DirectWordToBlock nodes;
        '(deleted, s) ← weak_node s dict k prev node handler gen;
        next ← Block_GetArg s node NEXT_POS;
        weak_nodes fuel s dict k (if deleted : bool then prev else nodes) next handler gen
    end.

Fixpoint weak_table (fuel : nat) s (dict table : Z) (k : nat) (handler : Z) gen : option GC :=
  match k with
  | O => Some s
  | S k =>
      nodes ← Block_GetArg s table (Z.of_nat k);
      s ← weak_nodes fuel s dict (Z.of_nat k) NULL_NODE nodes handler gen;
      weak_table fuel s dict table k handler gen
  end.

Fixpoint weak_phase_two (fuel : nat) s (db_set : Z) (i : nat) gen : option GC :=
  match i with
  | O => Some s
  | S i =>
      w ← Set_GetArg s db_set (Z.of_nat i);
      dict ← DirectWordToBlock w;
      handler ← GetHandler s dict;
      table ← GetTable s dict;
      h ← Header s table;
      s ← weak_table fuel s dict table (Z.to_nat (DecodeSize h)) handler gen;
      weak_phase_two fuel s db_set i gen
  end.

Definition HandleWeakDictionaries (fuel : nat) s gen : option GC :=
  let wkdict_set := gc_wkdict s in
  size ← GetActiveSize s wkdict_set;
  '(db_set, s) ← Set_Export s wkdict_set gen;
  s ← Set_Clear s wkdict_set;
  s ← Set_Clear s (gc_fin s);
  s ← weak_phase_one fuel s wkdict_set db_set (Z.to_nat size) gen;
  '(k, scan) ← scan_start s gen;
  s ← weak_phase_two fuel s db_set (Z.to_nat size) gen;
  if Z.of_nat gen =? STORE_GENERATION_NUM - 1 then FinalizeCheneyScan fuel s k scan
  else CheneyScan fuel s gen k scan.

(** ** Rehashing the tables with address keys (Map.cc) *)

Definition WordKey_Hash (key size : Z) : Z := key mod size.

(** One chain of bucket [i]. *)
Fixpoint rehash_chain (fuel : nat) s (table size i : Z) (prev nodes : Z) : option GC :=
  if nodes =? NULL_NODE then Some s
  else
    match fuel with
    | O => None
    | S fuel =>
        node ← DirectWordToBlock nodes;
        key ← Block_GetArg s node KEY_POS;
        next ← Block_GetArg s node NEXT_POS;
        let hashedKey := WordKey_Hash key size in
        if negb (hashedKey =? i) then
          s ← (if prev =? NULL_NODE then ReplaceArg s table i next
               else pn ← DirectWordToBlock prev; ReplaceArg s pn NEXT_POS next);
          old ← Block_GetArg s table hashedKey;
          s ← ReplaceArg s node NEXT_POS old;
          s ← ReplaceArg s table hashedKey (EncodeBlock node);
          rehash_chain fuel s table size i prev next
        else rehash_chain fuel s table size i nodes next
    end.

Fixpoint rehash_table (fuel : nat) s (table size : Z) (i : nat) : option GC :=
  match i with
  | O => Some s
  | S i =>
      nodes ← Block_GetArg s table (Z.of_nat i);
      s ← rehash_chain fuel s table size (Z.of_nat i) NULL_NODE nodes;
      rehash_table fuel s table size i
  end.

Definition Map_Rehash (fuel : nat) s (map : Z) : option GC :=
  table ← GetTable s map;
  h ← Header s table;
  rehash_table fuel s table (DecodeSize h) (Z.to_nat (DecodeSize h)).

(** The list of the maps, rebuilt from those that are alive. *)
Fixpoint rehash_maps (fuel : nat) (steps : nat) s (oldMapLs : Z) gen : option GC :=
  if oldMapLs =? NULL_NODE then Some s
  else
    match steps with
    | O => None
    | S steps =>
        node ← DirectWordToBlock oldMapLs;
        w ← Block_GetArg s node 0;
        map ← DirectWordToBlock w;
        h ← Header s map;
        let alive := if AlreadyMoved h then Some (GetForwardPtr h)
                     else if DecodeGeneration h <? Z.of_nat gen then None else Some map in
        s ← match alive with
            | Some map =>
                s ← Map_Rehash fuel s map;
                '(node, s) ← Store_Alloc s gen MIN_DATA_LABEL 2;
                s ← Block_InitArg s node 0 (EncodeBlock map);
                s ← Block_InitArg s node 1 (gc_mapLs s);
                Some (with_mapLs s (EncodeBlock node))
            | None => Some s
            end;
        next ← Block_GetArg s node 1;
        rehash_maps fuel steps s next gen
    end.

Definition RehashAll (fuel : nat) s gen : option GC :=
  let oldMapLs := gc_mapLs s in rehash_maps fuel fuel (with_mapLs s NULL_NODE) oldMapLs gen.

(** ** A collection *)

Definition collect (fuel : nat) s (root : Z) gen : option (Z * GC) :=
  '(k, scan) ← scan_start s gen;
  rp ← DirectWordToBlock root;
  '(newp, s) ← CloneBlock s rp gen;
  s ← CheneyScan fuel s gen k scan;
  '(k, scan) ← scan_start s gen;
  s ← HandleInterGenerationalPointers s (pred gen);
  s ← CheneyScan fuel s gen k scan;
  dicts ← GetActiveSize s (gc_wkdict s);
  s ← (if dicts =? 0 then Some s else HandleWeakDictionaries fuel s gen);
  s ← RehashAll fuel s gen;
  Some (EncodeBlock newp, s).

(** The oldest generation that is over its limit, or the youngest. *)
Fixpoint gc_range (roots : list Heap) (gen : nat) : option nat :=
  match gen with
  | O => Some O
  | S gen' => h ← roots !! gen; if h_size h <=? h_limit h then gc_range roots gen' else Some gen
  end.

(** [Heap::Shrink] of a generation: the blocks in its chunks are gone. *)
Definition Release s gen : option GC :=
  heap ← st_roots (gc_heap s) !! gen;
  h ← Heap_Shrink malloc (gc_heap s) gen;
  Some (with_heap (with_mem s (filter (fun b => existsb (fun c => (hc_base c <=? b.1) && (b.1 <? hc_top c)) (h_chain heap) = false)
                                 (gc_mem s))) h).

Fixpoint release_all s (n : nat) : option GC :=
  match n with O => Some s | S n => s ← Release s n; release_all s n end.

(** The limit of the next major collection. *)
Definition wanted_limit (usage memTolerance : Z) : Z :=
  let wanted := Z.max (u_int (usage * 2)) (35 * 1024 * 1024) in
  let block_dist := wanted mod STORE_MEMCHUNK_SIZE in
  let block_dist := if 0 <? block_dist then STORE_MEMCHUNK_SIZE - block_dist else block_dist in
  u_int (wanted + Z.min block_dist (u_int (wanted * memTolerance) / 100)).

Definition set_limit (h : Heap) (l : Z) : Heap := {| h_chain := h_chain h; h_size := h_size h; h_limit := l |}.

Definition SEMISPACE : nat := 3.

Definition major_collection (fuel : nat) s (root memTolerance : Z) : option (Z * GC) :=
  '(p, s) ← CloneBlock s (gc_intgen s) SEMISPACE; let s := with_intgen s p in
  '(p, s) ← CloneBlock s (gc_wkdict s) SEMISPACE; let s := with_wkdict s p in
  '(p, s) ← CloneBlock s (gc_fin s) SEMISPACE; let s := with_fin s p in
  '(root, s) ← collect fuel s root SEMISPACE;
  heap ← st_roots (gc_heap s) !! SEMISPACE;
  let heap := set_limit heap (wanted_limit (h_size heap) memTolerance) in
  Some (root, with_heap s (set_roots (gc_heap s) (<[SEMISPACE := heap]> (st_roots (gc_heap s))))).

Definition switch_semispaces s : option GC :=
  a ← st_roots (gc_heap s) !! OLDEST; b ← st_roots (gc_heap s) !! SEMISPACE;
  Some (with_heap s (set_roots (gc_heap s) (<[SEMISPACE := a]> (<[OLDEST := b]> (st_roots (gc_heap s)))))).

Definition DoGCWithoutFinalize (fuel : nat) s (root memTolerance : Z) : option (Z * GC) :=
  gen ← gc_range (st_roots (gc_heap s)) OLDEST;
  '(root, s) ← (if decide (gen = OLDEST) then major_collection fuel s root memTolerance
                else collect fuel s root (S gen));
  s ← release_all s (S gen);
  s ← (if decide (gen = OLDEST) then switch_semispaces s else Some s);
  Some (root, with_heap s (ClearStatus (gc_heap s) GCStatus)).

(** [DoFinalize]: the set holds pairs of a value and its handler, the last first. *)
Variable Finalize : Z -> Z -> GC -> option GC.

Fixpoint finalize_pairs s (set : Z) (i : nat) : option GC :=
  match i with
  | O => Some s
  | S O => None
  | S (S i) =>
      handler ← Set_GetArg s set (Z.of_nat (S i));
      value ← Set_GetArg s set (Z.of_nat i);
      s ← Finalize (DirectDecodeUnmanagedPointer handler) value s;
      finalize_pairs s set i
  end.

Definition DoFinalize s : option GC := n ← GetActiveSize s (gc_fin s); finalize_pairs s (gc_fin s) (Z.to_nat n).

Definition DoGC (fuel : nat) s (root memTolerance : Z) : option (Z * GC) :=
  '(root, s) ← DoGCWithoutFinalize fuel s root memTolerance;
  s ← DoFinalize s; Some (root, s).

End Collector.
