(* ===== verification/GCMem.v ===== *)
(** * Memory of the collector: allocation, cloning and layout

    What one allocation of the collector does to memory and to the chain of
    chunks of its generation: the facts about [Store::Alloc] and
    [Store::CloneBlock] that the proofs about the scans use, and the layout of
    the blocks a scan has still to visit. *)

From S2P Require Import Prelude Config HeaderOp PointerOp Heap GC.

Section GCMem.
Context `{Platform}.
Implicit Types (s : GC) (p q w : Z) (gen : nat).

(** ** Headers *)

(** All fields of a header but the childish flag. *)
Definition hkey (h : Z) : fields :=
  let f := fields_of h in Fields (f_gen f) (f_big f) (f_size f) (f_label f) (f_mutable f) 0.

Lemma AlreadyMoved_gen h : AlreadyMoved h = (f_gen (fields_of h) =? 0).
Proof.
  unfold AlreadyMoved. change (Z.shiftr (Z.land h (hw_GEN_GC_MASK HW)) (hw_GEN_GC_SHIFT HW)) with (DecodeGen h).
  by rewrite DecodeGen_field.
Qed.

Lemma DecodeGeneration_gen h : DecodeGeneration h = u_int (f_gen (fields_of h) - 1).
Proof.
  unfold DecodeGeneration. change (Z.shiftr (Z.land h (hw_GEN_GC_MASK HW)) (hw_GEN_GC_SHIFT HW)) with (DecodeGen h).
  by rewrite DecodeGen_field.
Qed.

Lemma hkey_decode h h' : hkey h = hkey h' ->
  DecodeLabel h = DecodeLabel h' /\ DecodeSize h = DecodeSize h' /\ DecodeMutableFlag h = DecodeMutableFlag h' /\
  DecodeGeneration h = DecodeGeneration h' /\ AlreadyMoved h = AlreadyMoved h'.
Proof.
  intros E. rewrite !DecodeLabel_field, !DecodeSize_fields, !DecodeMutableFlag_field, !AlreadyMoved_gen, !DecodeGeneration_gen.
  unfold hkey, fields_of in *. cbn [f_gen f_big f_size f_label f_mutable] in *.
  injection E as -> -> -> -> ->. done.
Qed.

Lemma unmoved_generation h : AlreadyMoved h = false -> 0 <= DecodeGeneration h <= 2.
Proof.
  rewrite AlreadyMoved_gen, DecodeGeneration_gen. intros E%Z.eqb_neq.
  pose proof (field_get_range h 0 2 ltac:(lia)) as Hr. change (2 ^ 2) with 4 in Hr. cbn [fields_of f_gen] in *.
  rewrite u_int_id32; lia.
Qed.

Lemma ClearChildish_hkey h : hkey (ClearChildishFlag h) = hkey h.
Proof.
  pose proof width_bounds. unfold hkey, fields_of. autorewrite with header. simpl.
  rewrite !(field_get_set_other h (STORE_WORD_WIDTH - 1) 1 0) by lia. done.
Qed.

Lemma SetChildish_hkey h : hkey (SetChildishFlag h) = hkey h.
Proof.
  pose proof width_bounds. unfold hkey, fields_of. autorewrite with header. simpl.
  rewrite !(field_get_set_other h (STORE_WORD_WIDTH - 1) 1 1) by lia. done.
Qed.

Lemma childish_flags h : IsChildish (SetChildishFlag h) = true /\ IsChildish (ClearChildishFlag h) = false.
Proof. pose proof width_bounds. autorewrite with header. by rewrite !field_get_set_same by lia. Qed.

Lemma ClearChildish_id h : IsChildish h = false -> ClearChildishFlag h = h.
Proof.
  unfold IsChildish, ClearChildishFlag. rewrite childish_bit. destruct hw_fields as (_&_&_&_&->&_).
  intros E%negb_false_iff%Z.eqb_eq. apply Z.bits_inj'. intros i Hi. apply (f_equal (fun x => Z.testbit x i)) in E.
  rewrite Z.land_spec, Z.bits_0 in E. rewrite Z.land_spec, Z.lnot_spec by lia.
  by destruct (Z.testbit h i), (Z.testbit (field_mask _ _) i).
Qed.

Lemma DecodeLabel_range h : 0 <= DecodeLabel h <= 127.
Proof. rewrite DecodeLabel_field. pose proof (field_get_range h (STORE_WORD_WIDTH - 9) 7 ltac:(lia)). lia. Qed.

Lemma DecodeMutableFlag_range h : DecodeMutableFlag h = 0 \/ DecodeMutableFlag h = 1.
Proof.
  rewrite DecodeMutableFlag_field. pose proof (field_get_range h (STORE_WORD_WIDTH - 2) 1 ltac:(lia)) as Hr.
  change (2 ^ 1) with 2 in Hr. lia.
Qed.

(** The generation a block of root [gen] carries in its header. *)
Definition hgen gen : Z :=
  if Z.of_nat gen =? STORE_GENERATION_NUM - 1 then STORE_GENERATION_NUM - 2 else Z.of_nat gen.

Lemma hgen_min gen : (gen < 4)%nat -> hgen gen = Z.min (Z.of_nat gen) 2.
Proof. unfold hgen. change STORE_GENERATION_NUM with 4. intros. destruct (Z.eqb_spec (Z.of_nat gen) (4 - 1)); lia. Qed.

(** The sizes of allocated blocks: translated, and not those on which the
    allocator hangs. *)
Definition size_ok (n : Z) : Prop :=
  0 <= n <= hw_MAX_BIGBLOCKSIZE HW /\ TranslateSize n = n /\ (SIZEOF_BLOCK n + MIN_WIDTH) mod STORE_MEMCHUNK_SIZE <> 0.

Definition new_header gen (l n : Z) : Z := EncodeHeader l n (hgen gen) 0.
Definition copy_header gen (h : Z) : Z :=
  let hn := new_header gen (DecodeLabel h) (DecodeSize h) in
  if DecodeMutableFlag h =? 0 then hn else EncodeMutableFlag hn 1.

Lemma new_header_spec gen l n : (gen < 4)%nat -> 0 <= l <= 127 -> size_ok n ->
  let h := new_header gen l n in
  DecodeLabel h = l /\ DecodeSize h = n /\ DecodeMutableFlag h = 0 /\ DecodeGeneration h = hgen gen /\
  AlreadyMoved h = false /\ IsChildish h = false.
Proof.
  intros Hg Hl (Hn & Ht & _) h. subst h. destruct (gen_header gen l n Hg Hl Hn Ht) as (Hgen & Hf & Hd).
  fold (hgen gen) in *. fold (new_header gen l n) in *.
  rewrite DecodeLabel_field, DecodeMutableFlag_field, IsChildish_field, AlreadyMoved_gen, DecodeGeneration_gen, Hd, Hf.
  apply (f_equal f_label) in Hf as El. apply (f_equal f_mutable) in Hf as Em. apply (f_equal f_childish) in Hf as Ec.
  simpl in El, Em, Ec. rewrite El, Em, Ec.
  destruct (_ <? _); cbn [f_gen f_label f_mutable f_childish]; (split_and!; try done;
    [rewrite u_int_id32 by lia; lia | apply Z.eqb_neq; lia]).
Qed.

Lemma copy_header_spec gen h : (gen < 4)%nat -> size_ok (DecodeSize h) ->
  let h' := copy_header gen h in
  DecodeLabel h' = DecodeLabel h /\ DecodeSize h' = DecodeSize h /\ DecodeMutableFlag h' = DecodeMutableFlag h /\
  DecodeGeneration h' = hgen gen /\ AlreadyMoved h' = false /\ IsChildish h' = false.
Proof.
  intros Hg Hs. pose proof (new_header_spec gen (DecodeLabel h) (DecodeSize h) Hg (DecodeLabel_range h) Hs) as Hn.
  cbv zeta in *. unfold copy_header. destruct (DecodeMutableFlag_range h) as [-> | ->]; [exact Hn |]. simpl.
  revert Hn. generalize (new_header gen (DecodeLabel h) (DecodeSize h)). intros hn.
  rewrite !AlreadyMoved_gen, !DecodeGeneration_gen, !DecodeSize_fields. pose proof width_bounds.
  unfold fields_of. cbn [f_gen f_big f_size]. autorewrite with header.
  rewrite !field_get_set_same, !(field_get_set_other hn (STORE_WORD_WIDTH - 2) 1 1) by lia. tauto.
Qed.

(** ** Memory *)

(** Every block of memory lies in the heap, and no two overlap. *)
Definition mem_in (mem : gmap Z (Z * list Z)) (blocks : list (Z * Z)) : Prop :=
  forall p h args, mem !! p = Some (h, args) -> p mod MIN_WIDTH = 0 /\ (p, SIZEOF_BLOCK (zlen args)) ∈ blocks.

Definition mem_ok s : Prop :=
  length (st_roots (gc_heap s)) = 4%nat /\ exists blocks, store_ok (gc_heap s) blocks /\ mem_in (gc_mem s) blocks.

(** The block at [p] lies in the used part of a chunk of generation [g]. *)
Definition in_gen s (g : nat) p : Prop :=
  exists h c, st_roots (gc_heap s) !! g = Some h /\ c ∈ h_chain h /\ hc_base c <= p < hc_top c.

Definition same_sets s s' : Prop :=
  gc_intgen s' = gc_intgen s /\ gc_wkdict s' = gc_wkdict s /\ gc_fin s' = gc_fin s /\ gc_mapLs s' = gc_mapLs s.

(** One allocation of [n] words at [p] in generation [gen]. *)
Definition grew s s' gen p (n : Z) : Prop :=
  (exists h h', st_roots (gc_heap s) !! gen = Some h /\ st_roots (gc_heap s') !! gen = Some h' /\
     grown (h_chain h) (h_chain h') p (SIZEOF_BLOCK n)) /\
  (forall g, g <> gen -> st_roots (gc_heap s') !! g = st_roots (gc_heap s) !! g).

Lemma aligned_word p : p mod MIN_WIDTH = 0 -> p mod 4 = 0.
Proof. destruct MIN_WIDTH_pos as [-> | ->]; [done |]. intros E. Z.div_mod_to_equations. lia. Qed.

Lemma SIZEOF_BLOCK_pos n : 0 <= n -> 0 < SIZEOF_BLOCK n.
Proof. intros. unfold SIZEOF_BLOCK. destruct MIN_WIDTH_pos as [-> | ->]; lia. Qed.

Lemma mem_aligned s p b : mem_ok s -> gc_mem s !! p = Some b -> p mod 4 = 0.
Proof. intros (_ & bs & _ & Hb) Hp. destruct b as [h args]. apply aligned_word. by destruct (Hb _ _ _ Hp). Qed.

Lemma mem_in_insert mem blocks p h args h' args' :
  mem_in mem blocks -> mem !! p = Some (h, args) -> zlen args' = zlen args -> mem_in (<[p := (h', args')]> mem) blocks.
Proof.
  intros Hin Hp Hz q hq aq. rewrite lookup_insert_Some. intros [[<- [= <- <-]] | [_ Hq]]; [| by apply Hin in Hq].
  rewrite Hz. by apply Hin in Hp.
Qed.

Lemma with_mem_ok s p h args h' args' :
  mem_ok s -> gc_mem s !! p = Some (h, args) -> zlen args' = zlen args ->
  mem_ok (with_mem s (<[p := (h', args')]> (gc_mem s))).
Proof. intros (Hl & bs & Hok & Hin) Hp Hz. split; [done |]. exists bs. split; [done |]. by eapply mem_in_insert. Qed.

Lemma grown_in_gen s s' gen p n g q : 0 <= n -> grew s s' gen p n -> in_gen s g q -> in_gen s' g q.
Proof.
  intros Hn ((h & h' & Hh & Hh' & Hg) & Hother) (hq & c & Hhq & Hc & Hr). apply SIZEOF_BLOCK_pos in Hn.
  destruct (decide (g = gen)) as [-> |]; [| exists hq, c; by rewrite Hother].
  rewrite Hh in Hhq. injection Hhq as <-. exists h'.
  destruct Hg as [(c0 & rest & E & -> & E') | (c0 & E' & _)]; rewrite E'.
  - rewrite E in Hc. apply elem_of_cons in Hc as [-> | Hc].
    + exists (set_top c0 (hc_top c0 + SIZEOF_BLOCK n)). split; [done |]. split; [by left |]. simpl. lia.
    + exists c. split; [done |]. split; [by right | done].
  - exists c. split; [done |]. split; [by right | done].
Qed.

Lemma in_all_chunks (st : Store) c :
  c ∈ all_chunks st <-> exists g h, st_roots st !! g = Some h /\ c ∈ h_chain h.
Proof.
  unfold all_chunks. rewrite list_elem_of_In, in_concat. split.
  - intros (l & (h & <- & Hh)%in_map_iff & Hc). apply list_elem_of_In, list_elem_of_lookup in Hh as [g Hg].
    exists g, h. split; [done |]. by apply list_elem_of_In.
  - intros (g & h & Hg & Hc). exists (h_chain h). split; [| by apply list_elem_of_In].
    apply in_map, list_elem_of_In, list_elem_of_lookup. eauto.
Qed.

Lemma chain_chunk_ok s g h c : mem_ok s -> st_roots (gc_heap s) !! g = Some h -> c ∈ h_chain h -> chunk_ok c.
Proof.
  intros (_ & bs & Hok & _) Hg Hc. pose proof (ok_chunks _ _ Hok) as Ho. rewrite Forall_forall in Ho.
  apply Ho, in_all_chunks. eauto.
Qed.

Lemma grown_new s s' gen p n : mem_ok s -> 0 <= n -> grew s s' gen p n -> in_gen s' gen p.
Proof.
  intros Hok Hn ((h & h' & Hh & Hh' & Hg) & _). apply SIZEOF_BLOCK_pos in Hn. exists h'.
  destruct Hg as [(c0 & rest & E & -> & E') | (c0 & E' & E1 & E2)]; rewrite E'.
  - exists (set_top c0 (hc_top c0 + SIZEOF_BLOCK n)). split; [done |]. split; [by left |]. simpl.
    assert (Hc : chunk_ok c0) by (apply (chain_chunk_ok s gen h); [done | done | rewrite E; by left]).
    unfold chunk_ok in Hc. lia.
  - exists c0. split; [done |]. split; [by left |]. lia.
Qed.

(** ** Layout of the blocks a scan has still to visit *)

(** The blocks (address, words) that fill memory from [a] to [b]. *)
Fixpoint contig (a : Z) (l : list (Z * Z)) (b : Z) : Prop :=
  match l with
  | [] => a = b
  | (p, n) :: l => p = a /\ 0 <= n /\ contig (a + SIZEOF_BLOCK n) l b
  end.

(** The blocks from [scan] in the first chunk to the top of the last. *)
Fixpoint laid_chunks (cs : list HeapChunk) (scan : Z) (pend : list (Z * Z)) : Prop :=
  match cs with
  | [] => False
  | c :: cs => exists l1 l2, pend = l1 ++ l2 /\ contig scan l1 (hc_top c) /\
      match cs with [] => l2 = [] | c2 :: _ => laid_chunks cs (hc_base c2) l2 end
  end.

Definition laid s gen (k : nat) (scan : Z) (pend : list (Z * Z)) : Prop :=
  exists h, st_roots (gc_heap s) !! gen = Some h /\ laid_chunks (drop k (rev (h_chain h))) scan pend.

Definition nchunks s gen : nat := from_option (fun h => length (h_chain h)) O (st_roots (gc_heap s) !! gen).

Lemma contig_snoc a l b n : 0 <= n -> contig a l b -> contig a (l ++ [(b, n)]) (b + SIZEOF_BLOCK n).
Proof. intros Hn. revert a. induction l as [| [p m] l IH]; intros a; simpl; [by intros -> |]. naive_solver. Qed.

Lemma contig_le a l b : contig a l b -> a <= b.
Proof.
  revert a. induction l as [| [p m] l IH]; intros a; simpl; [lia |].
  intros (_ & Hm & Hc). apply IH in Hc. pose proof (SIZEOF_BLOCK_pos m Hm). lia.
Qed.

Lemma laid_top cs c scan pend n : 0 <= n ->
  laid_chunks (cs ++ [c]) scan pend ->
  laid_chunks (cs ++ [set_top c (hc_top c + SIZEOF_BLOCK n)]) scan (pend ++ [(hc_top c, n)]).
Proof.
  intros Hn. revert scan pend. induction cs as [| c0 cs IH]; intros scan pend (l1 & l2 & -> & Hc & Hr); cbn [app] in *.
  - subst l2. exists (l1 ++ [(hc_top c, n)]), []. rewrite !app_nil_r. split; [done |]. split; [| done].
    by apply contig_snoc.
  - exists l1, (l2 ++ [(hc_top c, n)]). rewrite app_assoc. split; [done |]. split; [done |].
    destruct cs as [| c1 cs]; by apply IH.
Qed.

Lemma laid_chunk cs c scan pend n : 0 <= n -> hc_top c = hc_base c + SIZEOF_BLOCK n ->
  laid_chunks cs scan pend -> laid_chunks (cs ++ [c]) scan (pend ++ [(hc_base c, n)]).
Proof.
  intros Hn Ht. revert scan pend. induction cs as [| c0 cs IH]; intros scan pend; [done |].
  intros (l1 & l2 & -> & Hc & Hr). cbn [app].
  exists l1, (l2 ++ [(hc_base c, n)]). rewrite app_assoc. split; [done |]. split; [done |].
  destruct cs as [| c1 cs]; [| by apply IH]. subst l2. exists [(hc_base c, n)], []. simpl. rewrite Ht. done.
Qed.

Lemma laid_grow s s' gen p n k scan pend : 0 <= n -> grew s s' gen p n ->
  laid s gen k scan pend -> laid s' gen k scan (pend ++ [(p, n)]).
Proof.
  intros Hn ((h & h' & Hh & Hh' & Hg) & _) (h0 & Hh0 & Hl). rewrite Hh in Hh0. injection Hh0 as <-.
  exists h'. split; [done |].
  assert (Hk : (k < length (rev (h_chain h)))%nat).
  { apply Nat.nle_gt. intros Hle. by rewrite drop_ge in Hl. }
  destruct Hg as [(c & rest & E & -> & E') | (c & E' & E1 & E2)]; rewrite E'.
  - rewrite E in Hl, Hk. cbn [rev] in *. rewrite length_app in Hk. simpl in Hk.
    rewrite drop_app_le in Hl |- * by lia. by apply laid_top.
  - cbn [rev]. rewrite drop_app_le by lia. subst p. by apply laid_chunk.
Qed.

Lemma nchunks_grow s s' gen p n : grew s s' gen p n -> (nchunks s gen <= nchunks s' gen <= S (nchunks s gen))%nat.
Proof.
  intros ((h & h' & Hh & Hh' & Hg) & _). unfold nchunks. rewrite Hh, Hh'. simpl.
  destruct Hg as [(c & rest & -> & _ & ->) | (c & -> & _)]; simpl; lia.
Qed.

Lemma scan_start_ok s gen : mem_ok s -> (gen < 4)%nat ->
  exists k scan, scan_start s gen = Some (k, scan) /\ laid s gen k scan [] /\ nchunks s gen = S k.
Proof.
  intros (Hlen & bs & Hok & _) Hg. unfold scan_start, laid, nchunks.
  destruct (lookup_lt_is_Some_2 (st_roots (gc_heap s)) gen) as [h Hh]; [lia |]. rewrite Hh. simpl.
  pose proof (ok_nonempty _ _ Hok) as Hn. rewrite Forall_lookup in Hn. specialize (Hn _ _ Hh).
  destruct (h_chain h) as [| c rest] eqn:E; [done |]. simpl. eexists _, _. split; [done |]. split; [| done].
  exists h. split; [done |]. rewrite E. cbn [rev]. rewrite drop_app_length' by (by rewrite length_rev).
  by exists [], [].
Qed.

(** What the scan finds at its position. *)
Lemma laid_step s gen k scan pend : laid s gen k scan pend ->
  exists c, chunk_at s gen k = Some c /\ (k < nchunks s gen)%nat /\
    ((exists n pend', pend = (scan, n) :: pend' /\ scan < hc_top c /\ laid s gen k (scan + SIZEOF_BLOCK n) pend') \/
     (hc_top c <= scan /\ exists c2, chunk_at s gen (S k) = Some c2 /\ laid s gen (S k) (hc_base c2) pend) \/
     (hc_top c <= scan /\ chunk_at s gen (S k) = None /\ pend = [])).
Proof.
  intros (h & Hh & Hl). unfold chunk_at, nchunks, laid. rewrite Hh. simpl.
  destruct (drop k (rev (h_chain h))) as [| c cs] eqn:Ed; [done |].
  assert (Hk : rev (h_chain h) !! k = Some c) by (by rewrite <- (Nat.add_0_r k), <- lookup_drop, Ed).
  assert (HS : forall j, rev (h_chain h) !! (S k + j)%nat = cs !! j).
  { intros j. replace (S k + j)%nat with (k + S j)%nat by lia. by rewrite <- lookup_drop, Ed. }
  exists c. split; [done |]. split; [apply lookup_lt_Some in Hk; by rewrite length_rev in Hk |].
  destruct Hl as (l1 & l2 & -> & Hc & Hr). destruct l1 as [| [p n] l1]; simpl in Hc.
  - right. subst scan. specialize (HS O). rewrite Nat.add_0_r in HS.
    destruct cs as [| c2 cs]; [right | left]; (split; [lia |]); [by subst |].
    exists c2. split; [done |]. exists h. split; [done |]. replace (S k) with (k + 1)%nat by lia.
    by rewrite <- drop_drop, Ed.
  - left. destruct Hc as (-> & Hn & Hc). exists n, (l1 ++ l2). split; [done |].
    pose proof (contig_le _ _ _ Hc). pose proof (SIZEOF_BLOCK_pos n Hn). split; [lia |].
    exists h. split; [done |]. rewrite Ed. by exists l1, l2.
Qed.

(** ** Access to blocks *)

Lemma Header_Some s p h args : gc_mem s !! p = Some (h, args) -> Header s p = Some h.
Proof. unfold Header. by intros ->. Qed.

Lemma SetHeader_Some s p h args h' :
  gc_mem s !! p = Some (h, args) -> SetHeader s p h' = Some (with_mem s (<[p := (h', args)]> (gc_mem s))).
Proof. unfold SetHeader. by intros ->. Qed.

Lemma GetArg_Some s p h args i : gc_mem s !! p = Some (h, args) -> Block_GetArg s p i = aget args i.
Proof. unfold Block_GetArg. by intros ->. Qed.

Lemma Block_InitArg_Some s p h args i v :
  gc_mem s !! p = Some (h, args) -> 0 <= i < zlen args ->
  Block_InitArg s p i v = Some (with_mem s (<[p := (h, <[Z.to_nat i := v]> args)]> (gc_mem s))).
Proof. unfold Block_InitArg. intros -> Hi. simpl. by rewrite aset_Some. Qed.

Lemma with_mem_self s : with_mem s (gc_mem s) = s.
Proof. by destruct s. Qed.

Lemma blit_copy (src dst : list Z) n : zlen src = n -> zlen dst = n -> blit src 0 dst 0 n = Some src.
Proof.
  intros Hs Hd. pose proof (zlen_nonneg src). rewrite blit_Some by lia.
  by rewrite ztake_0, (zdrop_all dst) by lia; unfold zseg; rewrite zdrop_0, ztake_all, app_nil_r by lia.
Qed.

End GCMem.

(** ** Allocation *)

Section Allocation.
Context `{Platform} (undef : Z) (malloc : list (Z * Z) -> Z -> Z).
Implicit Types (s : GC) (p q w : Z) (gen : nat).
Hypothesis malloc_ok : malloc_fresh malloc.

Lemma Store_Alloc_ok s gen l n :
  mem_ok s -> (gen < 4)%nat -> 0 <= l <= 127 -> size_ok n ->
  exists p s', Store_Alloc undef malloc s gen l n = Some (p, s') /\ mem_ok s' /\ gc_mem s !! p = None /\
    p mod MIN_WIDTH = 0 /\ gc_mem s' = <[p := (new_header gen l n, replicate (Z.to_nat n) undef)]> (gc_mem s) /\
    grew s s' gen p n /\ same_sets s s'.
Proof.
  intros (Hlen & bs & Hok & Hin) Hg Hl (Hn & Ht & Hmod).
  destruct (Alloc_ok malloc (gc_heap s) bs gen l n malloc_ok Hok ltac:(lia) Hg ltac:(done) Hn Ht Hmod)
    as (p & st' & h & h' & E & Hok' & Hal & Hmem & Hh & Hh' & Hgr & Hother).
  unfold Store_Alloc. rewrite E. simpl. rewrite Hmem. simpl.
  exists p. eexists. split; [done |]. simpl.
  assert (Hfresh : gc_mem s !! p = None).
  { destruct (gc_mem s !! p) as [[hp ap] |] eqn:Hp; [| done]. exfalso. destruct (Hin _ _ _ Hp) as [_ Hpb].
    pose proof (ok_blocks _ _ Hok') as Hd. apply FOP_cons in Hd as [Hd _]. rewrite Forall_forall in Hd.
    specialize (Hd _ Hpb). pose proof (SIZEOF_BLOCK_pos n ltac:(lia)). pose proof (SIZEOF_BLOCK_pos (zlen ap) (zlen_nonneg ap)).
    destruct Hd; simpl in *; lia. }
  split_and!; try done; [split | split; [by exists h, h' | done]].
  - simpl. rewrite <- Hlen. apply Nat.le_antisymm.
    + apply Nat.nlt_ge. intros Hlt. destruct (decide (length (st_roots (gc_heap s)) = gen)); [lia |].
      destruct (lookup_lt_is_Some_2 _ _ Hlt) as [x Hx]. rewrite Hother in Hx by done.
      apply lookup_lt_Some in Hx. lia.
    + apply Nat.nlt_ge. intros Hlt. destruct (decide (length (st_roots st') = gen)) as [Heq |].
      * apply lookup_lt_Some in Hh'. lia.
      * destruct (lookup_lt_is_Some_2 _ _ Hlt) as [x Hx]. rewrite <- Hother in Hx by done.
        apply lookup_lt_Some in Hx. lia.
  - exists ((p, SIZEOF_BLOCK n) :: bs). split; [done |]. simpl. intros q hq aq.
    rewrite lookup_insert_Some. intros [[<- [= <- <-]] | [_ Hq]].
    + split; [done |]. unfold zlen. rewrite length_replicate, Z2Nat.id by lia. by left.
    + destruct (Hin _ _ _ Hq). split; [done | by right].
Qed.

(** Cloning: the copy carries the arguments and the header of its root, the
    old block points to it. *)
Lemma CloneBlock_ok s p gen h args :
  mem_ok s -> (gen < 4)%nat -> gc_mem s !! p = Some (h, args) -> DecodeSize h = zlen args -> size_ok (zlen args) ->
  exists q s', CloneBlock undef malloc s p gen = Some (q, s') /\ mem_ok s' /\ gc_mem s !! q = None /\
    q mod MIN_WIDTH = 0 /\
    gc_mem s' = <[p := (q, args)]> (<[q := (copy_header gen h, args)]> (gc_mem s)) /\
    grew s s' gen q (zlen args) /\ in_gen s' gen q /\ same_sets s s'.
Proof.
  intros Hok Hg Hp Hsz Hn. pose proof (zlen_nonneg args) as H0.
  destruct (Store_Alloc_ok s gen (DecodeLabel h) (zlen args) Hok Hg (DecodeLabel_range h) Hn)
    as (q & s1 & E & Hok1 & Hq & Hal & Hm1 & Hgr & Hsets).
  assert (Hpq : q <> p) by (intros ->; congruence).
  assert (Hrep : zlen (replicate (Z.to_nat (zlen args)) undef) = zlen args) by (by apply zlen_replicate).
  set (s2 := with_mem s1 (<[q := (copy_header gen h, replicate (Z.to_nat (zlen args)) undef)]> (gc_mem s))).
  assert (E2 : (if DecodeMutableFlag h =? 0 then Some s1
                else SetHeader s1 q (EncodeMutableFlag (new_header gen (DecodeLabel h) (zlen args)) 1)) = Some s2).
  { subst s2. unfold copy_header. rewrite Hsz. destruct (DecodeMutableFlag h =? 0).
    - rewrite <- Hm1. by rewrite with_mem_self.
    - erewrite SetHeader_Some by (by rewrite Hm1, lookup_insert_eq). by rewrite Hm1, insert_insert_eq. }
  set (s3 := with_mem s1 (<[q := (copy_header gen h, args)]> (gc_mem s))).
  assert (E3 : memcpy_words s2 p q (zlen args) = Some s3).
  { unfold memcpy_words. subst s2. simpl. rewrite (lookup_insert_ne _ q p), Hp, lookup_insert_eq by done. simpl.
    rewrite blit_copy by done. simpl. by rewrite insert_insert_eq. }
  exists q, (with_mem s1 (<[p := (q, args)]> (<[q := (copy_header gen h, args)]> (gc_mem s)))).
  assert (Hok' : mem_ok (with_mem s1 (<[p := (q, args)]> (<[q := (copy_header gen h, args)]> (gc_mem s))))).
  { assert (Hok3 : mem_ok s3).
    { pose proof (with_mem_ok s1 q _ _ (copy_header gen h) args Hok1 ltac:(by rewrite Hm1, lookup_insert_eq) ltac:(done)) as Hx.
      by rewrite Hm1, insert_insert_eq in Hx. }
    apply (with_mem_ok s3 p h args q args Hok3); [| done]. simpl. by rewrite lookup_insert_ne. }
  split; [| split_and!; try done].
  - unfold CloneBlock. erewrite Header_Some by done. simpl. rewrite Hsz, E. simpl.
    erewrite Header_Some by (by rewrite Hm1, lookup_insert_eq). simpl. rewrite E2. simpl. rewrite E3. simpl.
    assert (Hmoved : AlreadyMoved q = true).
    { unfold AlreadyMoved. change (Z.shiftr (Z.land q (hw_GEN_GC_MASK HW)) (hw_GEN_GC_SHIFT HW)) with (DecodeGen q).
      rewrite DecodeGen_field. unfold field_get. rewrite Z.shiftr_0_r. change (2 ^ 2) with 4.
      by rewrite aligned_word. }
    rewrite Hmoved. simpl. erewrite SetHeader_Some by (simpl; rewrite lookup_insert_ne by done; exact Hp). done.
  - by apply (grown_new s s1 gen q (zlen args)).
Qed.

End Allocation.
