(* ===== verification/GCGraph.v ===== *)
(** * The graph the collector copies

    Dereferencing of the collector as a relation, with the bound on the number
    of links; the well-formed graphs of ordinary blocks; where a word points
    after the live blocks have moved; and the invariant of a collection: every
    block of the graph is unmoved, moved with a copy of the same shape, or old
    with each argument either untouched or replaced by its relocated value. *)

From S2P Require Import Prelude Config HeaderOp PointerOp Heap GC GCMem.

Section Deref.
Context `{Platform}.
Implicit Types mem : gmap Z (Z * list Z).

(** ** Tags *)

Lemma deref_tag v : (Z.land (Z.lxor v TRTAG) TAGMASK =? 0) = (v mod 4 =? 2).
Proof.
  assert (E : Z.land (Z.lxor v TRTAG) TAGMASK = Z.lxor (Z.land v TAGMASK) TRTAG).
  { change TRTAG with (Z.land TRTAG TAGMASK) at 2. apply Z.bits_inj'. intros i Hi.
    rewrite !Z.land_spec, !Z.lxor_spec, !Z.land_spec. by destruct (Z.testbit v i), (Z.testbit TRTAG i), (Z.testbit TAGMASK i). }
  rewrite E, tag_mod. pose proof (Z.mod_pos_bound v 4 ltac:(lia)).
  assert (v mod 4 = 0 \/ v mod 4 = 1 \/ v mod 4 = 2 \/ v mod 4 = 3) as [-> | [-> | [-> | ->]]] by lia; done.
Qed.

Lemma untag_transient v : v mod 4 = 2 -> Z.lxor v TRTAG = RemoveTag v.
Proof.
  intros E. rewrite RemoveTag_mod, E. assert (Hd : (v - 2) mod 4 = 0) by (Z.div_mod_to_equations; lia).
  pose proof (EncodeTransient_add _ Hd) as Ha. replace (v - 2 + 2) with v in Ha by lia.
  assert (Hl : Z.land (v - 2) TRTAG = 0).
  { change TRTAG with (Z.land TAGMASK TRTAG). by rewrite Z.land_assoc, tag_mod, Hd. }
  rewrite <- Ha at 1. unfold EncodeTransient. by rewrite <- Z.lxor_lor, Z.lxor_assoc, Z.lxor_nilpotent, Z.lxor_0_r.
Qed.

(** A word retagged for another address. *)
Lemma retag q d : q mod 4 = 0 -> IsInt d = false ->
  let y := EncodeTag q (DecodeTag d) in IsInt y = false /\ RemoveTag y = q /\ y mod 4 = d mod 4.
Proof.
  intros Hq Hd y. subst y. unfold EncodeTag, DecodeTag. rewrite IsInt_odd in Hd. rewrite tag_mod.
  pose proof (Z.mod_pos_bound d 4 ltac:(lia)) as Hb. rewrite (lor_low q (d mod 4) 2) by (done || lia).
  assert (E : (q + d mod 4) mod 4 = d mod 4) by (rewrite Z.add_mod, Hq by lia; rewrite Z.add_0_l; by rewrite !Z.mod_mod).
  rewrite RemoveTag_mod, E, IsInt_odd. split_and!; [| lia | done].
  rewrite <- Z.bit0_odd in *. rewrite <- (Z.mod_pow2_bits_low (q + d mod 4) 2 0), <- (Z.mod_pow2_bits_low d 2 0) in * by lia.
  change (2 ^ 2) with 4 in *. by rewrite E.
Qed.

(** ** Reference chains *)

(** [derefs mem n v d]: the chain from [v] has [n] references and ends at [d],
    which is no transient, or a transient that moved or is no reference. *)
Inductive derefs mem : nat -> Z -> Z -> Prop :=
  | derefs_word v : v mod 4 <> 2 -> derefs mem 0 v v
  | derefs_block v h args : v mod 4 = 2 -> mem !! RemoveTag v = Some (h, args) ->
      AlreadyMoved h = true \/ DecodeLabel h <> REF_LABEL -> derefs mem 0 v v
  | derefs_link v h args u n d : v mod 4 = 2 -> mem !! RemoveTag v = Some (h, args) ->
      AlreadyMoved h = false -> DecodeLabel h = REF_LABEL -> aget args 0 = Some u ->
      derefs mem n u d -> derefs mem (S n) v d.

Lemma Deref_loop_S f mem v :
  GC_Deref_loop (S f) mem v =
    if v mod 4 =? 2 then
      b ← mem !! RemoveTag v;
      if negb (AlreadyMoved b.1) && (DecodeLabel b.1 =? REF_LABEL) then v ← aget b.2 0; GC_Deref_loop f mem v else Some v
    else Some v.
Proof. simpl. rewrite deref_tag. destruct (Z.eqb_spec (v mod 4) 2) as [E |]; [| done]. by rewrite untag_transient. Qed.

Lemma derefs_loop mem n v d : derefs mem n v d -> forall f, (n < f)%nat -> GC_Deref_loop f mem v = Some d.
Proof.
  induction 1 as [v Hv | v h args Hv Hm Hs | v h args u n d Hv Hm Hn Hl Ha _ IH]; intros [| f] Hf; try lia;
    rewrite Deref_loop_S.
  - by apply Z.eqb_neq in Hv as ->.
  - rewrite Hv, Z.eqb_refl, Hm. simpl. destruct Hs as [-> | Hs%Z.eqb_neq]; [done |]. by rewrite Hs, andb_false_r.
  - rewrite Hv, Z.eqb_refl, Hm. simpl. rewrite Hn, Hl, Z.eqb_refl, Ha. simpl. apply IH. lia.
Qed.

Lemma loop_derefs mem f v d : GC_Deref_loop f mem v = Some d -> exists n, derefs mem n v d.
Proof.
  revert v. induction f as [| f IH]; intros v; [done |]. rewrite Deref_loop_S.
  destruct (Z.eqb_spec (v mod 4) 2) as [Hv | Hv]; [| intros [= <-]; exists O; by constructor].
  destruct (mem !! RemoveTag v) as [[h args] |] eqn:Hm; [simpl | done].
  destruct (AlreadyMoved h) eqn:Hmv; simpl; [intros [= <-]; exists O; eapply derefs_block; eauto |].
  destruct (Z.eqb_spec (DecodeLabel h) REF_LABEL) as [Hl | Hl]; [| intros [= <-]; exists O; eapply derefs_block; eauto].
  destruct (aget args 0) as [u |] eqn:Ha; [simpl | done]. intros [n Hn]%IH. exists (S n). by eapply derefs_link.
Qed.

Lemma derefs_fun mem n n' v d d' : derefs mem n v d -> derefs mem n' v d' -> n = n' /\ d = d'.
Proof.
  intros Hd. revert n' d'. induction Hd as [v Hv | v h args Hv Hm Hs | v h args u n d Hv Hm Hn Hl Ha _ IH]; intros n' d' Hd'.
  - inversion Hd'; subst; [done | congruence ..].
  - inversion Hd'; subst; [done | done |]. destruct Hs; congruence.
  - inversion Hd' as [| ? h' args' ? Hm' Hs' | ? h' args' u' m ? ? Hm' ? ? ? Hu]; subst; [congruence | |].
    + rewrite Hm in Hm'. injection Hm' as <- <-. destruct Hs'; congruence.
    + rewrite Hm in Hm'. injection Hm' as <- <-. rewrite Ha in *. simplify_eq. by destruct (IH _ _ Hu) as [-> ->].
Qed.

(** The transients on a chain are distinct blocks of memory. *)
Lemma derefs_chain mem n v d : derefs mem n v d ->
  exists l, length l = n /\ NoDup l /\
    Forall (fun w => w mod 4 = 2 /\ is_Some (mem !! RemoveTag w) /\ exists m, (m <= n)%nat /\ derefs mem m w d) l.
Proof.
  induction 1 as [v Hv | v h args Hv Hm Hs | v h args u n d Hv Hm Hn Hl Ha Hu (l & Hlen & Hnd & Hall)].
  1, 2: by exists []; split_and!; constructor.
  assert (Hdv : derefs mem (S n) v d) by (by eapply derefs_link). exists (v :: l). split; [simpl; lia |]. split.
  - constructor; [| done]. intros Hin. rewrite Forall_forall in Hall.
    destruct (Hall _ Hin) as (_ & _ & m & Hle & Hd). destruct (derefs_fun _ _ _ _ _ _ Hd Hdv). lia.
  - constructor; [split_and!; eauto |]. eapply Forall_impl; [exact Hall |]. intros w (? & ? & m & ? & ?).
    split_and!; eauto.
Qed.

Lemma derefs_bound mem n v d : derefs mem n v d -> (n <= size mem)%nat.
Proof.
  intros (l & <- & Hnd & Hall)%derefs_chain.
  assert (Hsub : list_to_set (RemoveTag <$> l) ⊆ dom mem).
  { intros p (w & -> & Hw)%elem_of_list_to_set%list_elem_of_fmap. rewrite Forall_forall in Hall. apply elem_of_dom. by apply Hall. }
  apply subseteq_size in Hsub. rewrite size_dom, size_list_to_set, length_fmap in Hsub; [done |].
  apply NoDup_fmap_2_strong; [| done]. intros x y Hx Hy E. rewrite Forall_forall in Hall.
  destruct (Hall _ Hx) as [Ex _], (Hall _ Hy) as [Ey _]. rewrite !RemoveTag_mod in E. lia.
Qed.

End Deref.

#[export] Hint Constructors derefs : core.

Section Graph.
Context `{Platform}.
Implicit Types (O mem : gmap Z (Z * list Z)) (phi : gmap Z Z) (s : GC) (p q w d : Z).

(** ** Well-formed graphs *)

Definition deref_to mem v d : Prop := exists n, derefs mem n v d.

(** A word at the end of a chain: an integer, or a block that is no reference. *)
Definition good O d : Prop :=
  IsInt d = true \/ exists h args, O !! RemoveTag d = Some (h, args) /\ DecodeLabel h <> REF_LABEL.

(** The number of arguments the scan visits. *)
Definition scan_size (h : Z) (args : list Z) : Z :=
  if DecodeLabel h <? CHUNK_LABEL then zlen args
  else if DecodeLabel h =? DYNAMIC_LABEL then from_option (fun w => DirectDecodeInt w + 1) 0 (aget args 0)
  else 0.

Record block_ok O (h : Z) (args : list Z) : Prop := {
  bo_unmoved : AlreadyMoved h = false;
  bo_size : DecodeSize h = zlen args;
  bo_size_ok : size_ok (zlen args);
  bo_weak : DecodeLabel h <> WEAK_MAP_LABEL;
  bo_dynamic : DecodeLabel h = DYNAMIC_LABEL ->
    exists w, aget args 0 = Some w /\ IsInt w = true /\ 0 <= DirectDecodeInt w < zlen args;
  bo_ref : DecodeLabel h = REF_LABEL -> 0 < zlen args;
  bo_words : forall i w, aget args i = Some w -> i < scan_size h args -> exists d, deref_to O w d /\ good O d
}.

Definition graph_ok O : Prop := forall p h args, O !! p = Some (h, args) -> block_ok O h args.

Lemma scan_size_range O h args : block_ok O h args -> 0 <= scan_size h args <= zlen args.
Proof.
  intros Hb. pose proof (zlen_nonneg args). unfold scan_size. case_Zb; [lia |]. case_Zb; [| lia].
  destruct (bo_dynamic _ _ _ Hb) as (w & -> & _ & ?); [done |]. simpl. lia.
Qed.

Lemma scan_size_ref O h args : block_ok O h args -> DecodeLabel h = REF_LABEL -> scan_size h args = zlen args.
Proof. unfold scan_size. intros _ ->. done. Qed.

Lemma deref_to_fun mem v d d' : deref_to mem v d -> deref_to mem v d' -> d = d'.
Proof. intros [n Hn] [n' Hn']. by destruct (derefs_fun _ _ _ _ _ _ Hn Hn'). Qed.

Lemma GC_Deref_ok s v d : GC_Deref s v = Some d <-> deref_to (gc_mem s) v d.
Proof.
  unfold GC_Deref. split; [apply loop_derefs |]. intros [n Hn]. eapply derefs_loop; [exact Hn |].
  apply derefs_bound in Hn. lia.
Qed.

(** ** Relocation *)

Context (undef : Z) (malloc : list (Z * Z) -> Z -> Z) (O : gmap Z (Z * list Z)) (gen : nat) (root : Z).

(** The blocks a collection into generation [gen] moves: those of younger
    generations, and the root block, which is always copied. *)
Definition fromb p : bool :=
  match O !! p with Some b => (DecodeGeneration b.1 <? Z.of_nat gen) || (p =? root) | None => false end.

(** Where a dereferenced word points when the blocks in [phi] have moved. *)
Definition reloc phi d : option Z :=
  if IsInt d then Some d
  else if fromb (RemoveTag d) then q ← phi !! RemoveTag d; Some (EncodeTag q (DecodeTag d))
  else Some d.

(** The generation of the block a word points to after the collection. *)
Definition tgen d : Z :=
  if fromb (RemoveTag d) then hgen gen
  else from_option (fun b => DecodeGeneration b.1) 0 (O !! RemoveTag d).

Definition settled phi a x : Prop := exists d, deref_to O a d /\ good O d /\ reloc phi d = Some x.

Lemma reloc_mono phi phi' d x : phi ⊆ phi' -> reloc phi d = Some x -> reloc phi' d = Some x.
Proof.
  unfold reloc. intros Hs. destruct (IsInt d); [done |]. destruct (fromb _); [| done].
  destruct (phi !! RemoveTag d) as [q |] eqn:E; [| done]. by rewrite (lookup_weaken _ _ _ _ E Hs).
Qed.

Lemma settled_mono phi phi' a x : phi ⊆ phi' -> settled phi a x -> settled phi' a x.
Proof. intros Hs (d & ? & ? & ?). exists d. split_and!; try done. by eapply reloc_mono. Qed.

(** The blocks a collection may copy: reachable, through scanned arguments and
    reference chains, from the root or from a block that is not moved. *)
Inductive reach : Z -> Prop :=
  | reach_root : reach root
  | reach_old p b : O !! p = Some b -> fromb p = false -> reach p
  | reach_arg p h args i a d : reach p -> O !! p = Some (h, args) -> aget args i = Some a -> i < scan_size h args ->
      deref_to O a d -> IsInt d = false -> reach (RemoveTag d).

(** ** The invariant *)

Record Inv s phi : Prop := {
  inv_mem : mem_ok s;
  inv_old : forall p h args, O !! p = Some (h, args) -> fromb p = false ->
    exists h' args', gc_mem s !! p = Some (h', args') /\ hkey h' = hkey h /\ zlen args' = zlen args /\
      forall i a, aget args i = Some a -> exists x, aget args' i = Some x /\ (x = a \/ i < scan_size h args /\ settled phi a x);
  inv_from : forall p b, O !! p = Some b -> fromb p = true -> phi !! p = None -> gc_mem s !! p = Some b;
  inv_copy : forall p q, phi !! p = Some q ->
    exists h args h' args', O !! p = Some (h, args) /\ fromb p = true /\ DecodeLabel h <> REF_LABEL /\
      gc_mem s !! p = Some (q, args) /\ gc_mem s !! q = Some (h', args') /\ h' = copy_header gen h /\
      zlen args' = zlen args /\ O !! q = None /\ in_gen s gen q;
  inv_inj : forall p p' q, phi !! p = Some q -> phi !! p' = Some q -> p = p';
  inv_reach : forall p q, phi !! p = Some q -> reach p
}.

End Graph.
