(* ===== verification/GCForward.v ===== *)
(** * Forwarding

    One word: dereferencing in the memory of a running collection, forwarding
    the result, and writing it back, each with the invariant and with what it
    leaves alone. *)

From S2P Require Import Prelude Config HeaderOp PointerOp Heap GC GCMem GCGraph.

Section Forward.
Context `{Platform} (undef : Z) (malloc : list (Z * Z) -> Z -> Z) (malloc_ok : malloc_fresh malloc).
Context (O : gmap Z (Z * list Z)) (O_ok : graph_ok O) (gen : nat) (gen_ok : (gen < 4)%nat) (root : Z).
Implicit Types (phi : gmap Z Z) (s : GC) (p q w d : Z) (news pend : list (Z * Z)).

#[local] Abbreviation fromb := (fromb O gen root).
#[local] Abbreviation reloc := (reloc O gen root).
#[local] Abbreviation settled := (settled O gen root).
#[local] Abbreviation Inv := (Inv O gen root).
#[local] Abbreviation laid s := (laid s gen).

Lemma fromb_out p : O !! p = None -> fromb p = false.
Proof. unfold GCGraph.fromb. by intros ->. Qed.

Lemma fromb_old p h args : O !! p = Some (h, args) -> fromb p = false ->
  (gen <= 2)%nat /\ Z.of_nat gen <= DecodeGeneration h /\ p <> root.
Proof.
  intros Hp Hf. unfold GCGraph.fromb in Hf. rewrite Hp in Hf. simpl in Hf.
  pose proof (unmoved_generation _ (bo_unmoved _ _ _ (O_ok _ _ _ Hp))).
  apply orb_false_iff in Hf as [Hg Hr]. apply Z.ltb_ge in Hg. apply Z.eqb_neq in Hr. lia.
Qed.

Lemma inv_aligned s phi p q : Inv s phi -> phi !! p = Some q -> q mod 4 = 0.
Proof.
  intros HI Hp. destruct (inv_copy _ _ _ _ _ HI _ _ Hp) as (h & args & h' & args' & _ & _ & _ & _ & Hq & _).
  eapply mem_aligned; [apply (inv_mem _ _ _ _ _ HI) | exact Hq].
Qed.

Lemma moved_header q : q mod 4 = 0 -> AlreadyMoved q = true.
Proof.
  intros E. rewrite AlreadyMoved_gen. cbn [fields_of f_gen]. unfold field_get.
  rewrite Z.shiftr_0_r. change (2 ^ 2) with 4. by rewrite E.
Qed.

Lemma tgen_min d : good O d -> IsInt d = false -> Z.min (Z.of_nat gen) 2 <= tgen O gen root d.
Proof.
  intros [| (h & args & Hp & _)] Hd; [congruence |]. unfold tgen. destruct (fromb (RemoveTag d)) eqn:Hf.
  - rewrite hgen_min by done. lia.
  - rewrite Hp. simpl. destruct (fromb_old _ _ _ Hp Hf) as (_ & ? & _). lia.
Qed.

(** A relocated word that is no integer points to an unmoved block that is no
    reference and that no later step of a minor collection moves. *)
Lemma reloc_target s phi d y : Inv s phi -> good O d -> reloc phi d = Some y ->
  (IsInt d = true /\ y = d) \/
  (IsInt d = false /\ IsInt y = false /\ exists h args, gc_mem s !! RemoveTag y = Some (h, args) /\
     AlreadyMoved h = false /\ DecodeLabel h <> REF_LABEL /\ DecodeGeneration h = tgen O gen root d).
Proof.
  intros HI Hg. unfold GCGraph.reloc. destruct (IsInt d) eqn:Hd; [intros [= <-]; by left |]. intros Hy. right.
  split; [done |]. destruct Hg as [| (h & args & Hp & Hl)]; [congruence |].
  destruct (fromb (RemoveTag d)) eqn:Hf.
  - destruct (phi !! RemoveTag d) as [q |] eqn:Hq; [| done]. injection Hy as <-.
    destruct (retag q d (inv_aligned _ _ _ _ HI Hq) Hd) as (-> & -> & _). split; [done |].
    destruct (inv_copy _ _ _ _ _ HI _ _ Hq) as (h0 & args0 & h' & args' & Hp0 & _ & _ & _ & Hq' & Hk & _).
    rewrite Hp in Hp0. injection Hp0 as <- <-. pose proof (O_ok _ _ _ Hp) as Hb. subst h'.
    destruct (copy_header_spec gen h gen_ok) as (Cl & _ & _ & Cg & Cm & _);
      [rewrite (bo_size _ _ _ Hb); apply (bo_size_ok _ _ _ Hb) |].
    exists (copy_header gen h), args'. unfold tgen. by rewrite Hf, Cl, Cg, Cm.
  - injection Hy as <-. split; [done |]. destruct (inv_old _ _ _ _ _ HI _ _ _ Hp Hf) as (h' & args' & Hp' & Hk & _).
    destruct (hkey_decode _ _ Hk) as (El & _ & _ & Eg & Em). 
    exists h', args'. unfold tgen. rewrite Hf, Hp, El, Eg, Em, (bo_unmoved _ _ _ (O_ok _ _ _ Hp)). done.
Qed.

(** ** Dereferencing during a collection *)

(** What dereferencing yields where the original graph yields [d]. *)
Definition item_ok phi d y : Prop := y = d \/ ((gen <= 2)%nat /\ reloc phi d = Some y).

(** An argument on its way from [a] to its relocated value. *)
Definition slot phi a x : Prop := x = a \/ ((gen <= 2)%nat /\ settled phi a x).

Lemma settled_deref s phi a x : Inv s phi -> settled phi a x -> derefs (gc_mem s) 0 x x.
Proof.
  intros HI (d & Hd & Hg & Hr). destruct (reloc_target _ _ _ _ HI Hg Hr) as [[Hi ->] | (_ & _ & h & args & Hm & _ & Hl & _)].
  - apply derefs_word. rewrite IsInt_odd in Hi. intros E. apply Z.odd_spec in Hi as [k ->]. Z.div_mod_to_equations. lia.
  - destruct (decide (x mod 4 = 2)); [eapply derefs_block; eauto | by apply derefs_word].
Qed.

Lemma chain_deref s phi n a d : Inv s phi -> derefs O n a d -> good O d ->
  exists y, deref_to (gc_mem s) a y /\ item_ok phi d y.
Proof.
  intros HI Hd Hg. induction Hd as [v Hv | v h args Hv Hm Hs | v h args u n d Hv Hm Hn Hl Ha Hu IH].
  - exists v. split; [exists 0%nat; eauto | by left].
  - exists v. split; [exists 0%nat | by left]. destruct (fromb (RemoveTag v)) eqn:Hf.
    + destruct (phi !! RemoveTag v) as [q |] eqn:Hq.
      * destruct (inv_copy _ _ _ _ _ HI _ _ Hq) as (h0 & args0 & _ & _ & _ & _ & _ & Hp & _).
        eapply derefs_block; [done | exact Hp |]. left. apply moved_header. by eapply inv_aligned.
      * eapply derefs_block; [done | by apply (inv_from _ _ _ _ _ HI _ _ Hm Hf Hq) | done].
    + destruct (inv_old _ _ _ _ _ HI _ _ _ Hm Hf) as (h' & args' & Hp' & Hk & _).
      destruct (hkey_decode _ _ Hk) as (El & _ & _ & _ & Em). eapply derefs_block; [done | exact Hp' | by rewrite Em, El].
  - destruct (IH Hg) as (y & [m Hy] & Hi). destruct (fromb (RemoveTag v)) eqn:Hf.
    + assert (Hq : phi !! RemoveTag v = None).
      { destruct (phi !! RemoveTag v) eqn:Hq; [| done].
        destruct (inv_copy _ _ _ _ _ HI _ _ Hq) as (h0 & args0 & _ & _ & Hp & _ & Hl' & _). congruence. }
      exists y. split; [| done]. exists (S m). eapply derefs_link; eauto. by apply (inv_from _ _ _ _ _ HI).
    + destruct (inv_old _ _ _ _ _ HI _ _ _ Hm Hf) as (h' & args' & Hp' & Hk & _ & Hargs).
      destruct (hkey_decode _ _ Hk) as (El & _ & _ & _ & Em). destruct (Hargs _ _ Ha) as (x & Hx & [-> | (_ & Hset)]).
      * exists y. split; [| done]. exists (S m). eapply derefs_link; [done | exact Hp' | congruence | congruence | exact Hx | done].
      * exists x. split; [exists 1%nat; eapply derefs_link; [done | exact Hp' | congruence | congruence | exact Hx | by eapply settled_deref] |].
        right. split; [by eapply fromb_old |]. destruct Hset as (d' & [n' Hd'] & _ & Hr).
        by destruct (derefs_fun _ _ _ _ _ _ Hu Hd') as [_ ->].
Qed.

Lemma slot_deref s phi a x d : Inv s phi -> deref_to O a d -> good O d -> slot phi a x ->
  exists y, GC_Deref s x = Some y /\ item_ok phi d y.
Proof.
  intros HI [n Hd] Hg [-> | (Hgen & Hset)].
  - destruct (chain_deref _ _ _ _ _ HI Hd Hg) as (y & Hy & Hi). exists y. split; [by apply GC_Deref_ok | done].
  - exists x. split; [apply GC_Deref_ok; exists 0%nat; by eapply settled_deref |]. right. split; [done |].
    destruct Hset as (d' & Hd' & _ & Hr). by rewrite (deref_to_fun _ _ _ _ (ex_intro _ _ Hd) Hd').
Qed.

(** ** Steps of a collection *)

(** The copy at [q] has [n] arguments, all still those of the original. *)
Definition raw s phi q (n : Z) : Prop :=
  exists p h args h', phi !! p = Some q /\ O !! p = Some (h, args) /\ n = zlen args /\ gc_mem s !! q = Some (h', args).

(** A step: it copies the blocks [news], which lie behind those already
    allocated, and writes to no block outside [X] but the moved ones. *)
Record ext (X : Z -> Prop) s phi s' phi' news : Prop := {
  ext_phi : phi ⊆ phi';
  ext_frame : forall q b, fromb q = false -> ~ X q -> gc_mem s !! q = Some b -> gc_mem s' !! q = Some b;
  ext_dom : forall q, is_Some (gc_mem s !! q) -> is_Some (gc_mem s' !! q);
  ext_only : forall q, is_Some (gc_mem s' !! q) -> is_Some (gc_mem s !! q) \/ exists p, phi' !! p = Some q;
  ext_new : forall q n, (q, n) ∈ news -> gc_mem s !! q = None /\ raw s' phi' q n;
  ext_cover : forall p q, phi' !! p = Some q -> phi !! p = Some q \/ exists n, (q, n) ∈ news;
  ext_nodup : NoDup news.*1;
  ext_size : size phi' = (size phi + length news)%nat;
  ext_laid : forall k scan pend, laid s k scan pend -> laid s' k scan (pend ++ news);
  ext_chunks : (nchunks s' gen <= nchunks s gen + length news)%nat;
  ext_in_gen : forall g q, in_gen s g q -> in_gen s' g q;
  ext_sets : same_sets s s'
}.

Definition nothing (q : Z) : Prop := False.

Lemma same_sets_trans s1 s2 s3 : same_sets s1 s2 -> same_sets s2 s3 -> same_sets s1 s3.
Proof. unfold same_sets. intuition congruence. Qed.

Lemma ext_refl X s phi : ext X s phi s phi [].
Proof.
  constructor; try done; try (by intros; rewrite ?app_nil_r); try (simpl; lia).
  - intros. by left.
  - by intros q n ?%not_elem_of_nil.
  - intros. by left.
  - constructor.
Qed.

Lemma ext_weaken (X Y : Z -> Prop) s phi s' phi' news :
  (forall q, X q -> Y q) -> ext X s phi s' phi' news -> ext Y s phi s' phi' news.
Proof. intros HXY []. constructor; auto. Qed.

Lemma inv_in_mem s phi p b : Inv s phi -> O !! p = Some b -> is_Some (gc_mem s !! p).
Proof.
  intros HI Hp. destruct b as [h args]. destruct (fromb p) eqn:Hf.
  - destruct (phi !! p) as [q |] eqn:Hq; [| by rewrite (inv_from _ _ _ _ _ HI _ _ Hp Hf Hq)].
    destruct (inv_copy _ _ _ _ _ HI _ _ Hq) as (? & ? & ? & ? & _ & _ & _ & -> & _). done.
  - destruct (inv_old _ _ _ _ _ HI _ _ _ Hp Hf) as (? & ? & -> & _). done.
Qed.

Lemma ext_trans X s1 phi1 s2 phi2 s3 phi3 news1 news2 :
  (forall q, X q -> is_Some (gc_mem s1 !! q)) -> Inv s2 phi2 ->
  ext X s1 phi1 s2 phi2 news1 -> ext X s2 phi2 s3 phi3 news2 -> ext X s1 phi1 s3 phi3 (news1 ++ news2).
Proof.
  intros HX HI E1 E2.
  assert (Hraw : forall q n, (q, n) ∈ news1 -> is_Some (gc_mem s2 !! q) /\ raw s3 phi3 q n).
  { intros q n Hin. destruct (ext_new _ _ _ _ _ _ E1 _ _ Hin) as (Hq & p & h & args & h' & Hp & HO & -> & Hm).
    split; [by rewrite Hm |]. exists p, h, args, h'. split; [by eapply lookup_weaken; [| apply (ext_phi _ _ _ _ _ _ E2)] |].
    split_and!; try done. apply (ext_frame _ _ _ _ _ _ E2); [| | done].
    - destruct (inv_copy _ _ _ _ _ HI _ _ Hp) as (? & ? & ? & ? & _ & _ & _ & _ & _ & _ & _ & Hn & _). by apply fromb_out.
    - intros [x Hx]%HX. congruence. }
  constructor.
  - etrans; [apply (ext_phi _ _ _ _ _ _ E1) | apply (ext_phi _ _ _ _ _ _ E2)].
  - intros q b Hf Hn Hq. apply (ext_frame _ _ _ _ _ _ E2); try done. by apply (ext_frame _ _ _ _ _ _ E1).
  - intros q Hq. by apply (ext_dom _ _ _ _ _ _ E2), (ext_dom _ _ _ _ _ _ E1).
  - intros q [[| [p Hp]]%(ext_only _ _ _ _ _ _ E1) | Hp]%(ext_only _ _ _ _ _ _ E2); [by left | right | by right].
    exists p. eapply lookup_weaken; [exact Hp | apply (ext_phi _ _ _ _ _ _ E2)].
  - intros q n [Hin | Hin]%elem_of_app.
    + split; [by eapply (ext_new _ _ _ _ _ _ E1) | by apply Hraw].
    + destruct (ext_new _ _ _ _ _ _ E2 _ _ Hin) as [Hq Hr]. split; [| done].
      apply eq_None_not_Some. intros Hs%(ext_dom _ _ _ _ _ _ E1). by rewrite Hq in Hs; destruct Hs.
  - intros p q [Hp | [n Hn]]%(ext_cover _ _ _ _ _ _ E2); [| right; exists n; apply elem_of_app; by right].
    apply (ext_cover _ _ _ _ _ _ E1) in Hp as [| [n Hn]]; [by left | right; exists n; apply elem_of_app; by left].
  - rewrite fmap_app. apply NoDup_app. split_and!; [apply (ext_nodup _ _ _ _ _ _ E1) | | apply (ext_nodup _ _ _ _ _ _ E2)].
    intros q ([? n] & -> & Hin)%list_elem_of_fmap ([? n'] & Eq & Hin')%list_elem_of_fmap. simpl in *. subst.
    destruct (ext_new _ _ _ _ _ _ E2 _ _ Hin') as [Hq _]. destruct (Hraw _ _ Hin) as [[x Hx] _]. congruence.
  - rewrite (ext_size _ _ _ _ _ _ E2), (ext_size _ _ _ _ _ _ E1), length_app. lia.
  - intros. rewrite app_assoc. by apply (ext_laid _ _ _ _ _ _ E2), (ext_laid _ _ _ _ _ _ E1).
  - pose proof (ext_chunks _ _ _ _ _ _ E1). pose proof (ext_chunks _ _ _ _ _ _ E2). rewrite length_app. lia.
  - intros. by apply (ext_in_gen _ _ _ _ _ _ E2), (ext_in_gen _ _ _ _ _ _ E1).
  - eapply same_sets_trans; [apply (ext_sets _ _ _ _ _ _ E1) | apply (ext_sets _ _ _ _ _ _ E2)].
Qed.

(** ** Cloning one block *)

Section Clone.
Variables (s s' : GC) (phi : gmap Z Z) (p q h : Z) (args : list Z).
Hypothesis (HI : Inv s phi) (Hp : O !! p = Some (h, args)) (Hf : fromb p = true) (Hl : DecodeLabel h <> REF_LABEL).
Hypothesis (Hreach : reach O gen root p).
Hypothesis (Hnew : phi !! p = None) (Hok' : mem_ok s') (Hq : gc_mem s !! q = None).
Hypothesis (Hm' : gc_mem s' = <[p := (q, args)]> (<[q := (copy_header gen h, args)]> (gc_mem s))).
Hypothesis (Hgr : grew s s' gen q (zlen args)) (Hin : in_gen s' gen q) (Hsets : same_sets s s').

Lemma clone_fresh : O !! q = None /\ p <> q.
Proof.
  split; [apply eq_None_not_Some; intros [b Hb]; destruct (inv_in_mem _ _ _ _ HI Hb); congruence |].
  intros <-. destruct (inv_in_mem _ _ _ _ HI Hp). congruence.
Qed.

Lemma clone_other r b : r <> p -> gc_mem s !! r = Some b -> gc_mem s' !! r = Some b.
Proof. intros Hr Hb. rewrite Hm', !lookup_insert_ne; [done | congruence | done]. Qed.

Lemma clone_sub : phi ⊆ <[p := q]> phi.
Proof. by apply insert_subseteq. Qed.

Lemma clone_copy_new : gc_mem s' !! q = Some (copy_header gen h, args) /\ gc_mem s' !! p = Some (q, args).
Proof. destruct clone_fresh. rewrite Hm'. split; [rewrite lookup_insert_ne by done |]; by rewrite lookup_insert_eq. Qed.

Lemma clone_Inv : Inv s' (<[p := q]> phi).
Proof.
  destruct clone_fresh as [HOq Hpq], clone_copy_new as [Hcq Hcp]. pose proof (zlen_nonneg args) as Hz. constructor.
  - done.
  - intros r hr ar Hr Hfr. destruct (inv_old _ _ _ _ _ HI _ _ _ Hr Hfr) as (h' & args' & Hm & Hk & Hlen & Ha).
    exists h', args'. split; [apply clone_other; [congruence | done] |]. split_and!; try done.
    intros i a Hi. destruct (Ha i a Hi) as (x & Hx & [-> | [Hs Hset]]); exists x || exists a; (split; [done |]); [by left |].
    right. split; [done |]. eapply settled_mono; [apply clone_sub | done].
  - intros r b Hr Hfr [Hn Hne]%lookup_insert_None. apply clone_other; [done |]. by apply (inv_from _ _ _ _ _ HI).
  - intros r q' [[<- <-] | [Hne Hr]]%lookup_insert_Some.
    + exists h, args, (copy_header gen h), args. split_and!; done.
    + destruct (inv_copy _ _ _ _ _ HI _ _ Hr) as (h0 & args0 & h' & args' & HO & Hf0 & Hl0 & Hm0 & Hq' & Hk & Hlen & HOq' & Hg).
      exists h0, args0, h', args'. split_and!; try done; [by apply clone_other | apply clone_other; [congruence | done] |].
      by eapply grown_in_gen.
  - intros r1 r2 q' [[<- <-] | [Hne1 Hr1]]%lookup_insert_Some [[<- Hq2] | [Hne2 Hr2]]%lookup_insert_Some; try done.
    + destruct (inv_copy _ _ _ _ _ HI _ _ Hr2) as (? & ? & ? & ? & _ & _ & _ & _ & ? & _). congruence.
    + subst q'. destruct (inv_copy _ _ _ _ _ HI _ _ Hr1) as (? & ? & ? & ? & _ & _ & _ & _ & ? & _). congruence.
    + by apply (inv_inj _ _ _ _ _ HI _ _ q').
  - intros r q' [[<- _] | [_ Hr]]%lookup_insert_Some; [done | by apply (inv_reach _ _ _ _ _ HI _ _ Hr)].
Qed.

Lemma clone_ext : ext nothing s phi s' (<[p := q]> phi) [(q, zlen args)].
Proof.
  destruct clone_fresh as [HOq Hpq], clone_copy_new as [Hcq Hcp]. pose proof (zlen_nonneg args) as Hz. constructor.
  - apply clone_sub.
  - intros r b Hfr _ Hr. apply clone_other; [congruence | done].
  - intros r [b Hb]. destruct (decide (r = p)) as [-> |]; [by rewrite Hcp | by rewrite (clone_other _ _ ltac:(done) Hb)].
  - intros r Hr. destruct (decide (r = q)) as [-> |]; [right; exists p; by rewrite lookup_insert_eq | left].
    rewrite Hm' in Hr. destruct (decide (r = p)) as [-> |]; [by eapply inv_in_mem | by rewrite !lookup_insert_ne in Hr].
  - intros r n [= -> ->]%list_elem_of_singleton. split; [done |].
    exists p, h, args, (copy_header gen h). by rewrite lookup_insert_eq.
  - intros r q' [[<- <-] | [_ Hr]]%lookup_insert_Some; [right; exists (zlen args); by left | by left].
  - apply NoDup_singleton.
  - rewrite map_size_insert_None by done. simpl. lia.
  - intros. by apply (laid_grow s s').
  - pose proof (nchunks_grow _ _ _ _ _ Hgr). simpl. lia.
  - intros. by eapply grown_in_gen.
  - done.
Qed.

End Clone.

Lemma clone_step s phi p h args :
  Inv s phi -> O !! p = Some (h, args) -> fromb p = true -> DecodeLabel h <> REF_LABEL -> reach O gen root p -> phi !! p = None ->
  exists q s', CloneBlock undef malloc s p gen = Some (q, s') /\ Inv s' (<[p := q]> phi) /\
    ext nothing s phi s' (<[p := q]> phi) [(q, zlen args)].
Proof.
  intros HI Hp Hf Hl Hre Hn. pose proof (O_ok _ _ _ Hp) as Hb.
  destruct (CloneBlock_ok undef malloc malloc_ok s p gen h args (inv_mem _ _ _ _ _ HI) gen_ok
    (inv_from _ _ _ _ _ HI _ _ Hp Hf Hn) (bo_size _ _ _ Hb) (bo_size_ok _ _ _ Hb))
    as (q & s' & E & Hok' & Hq & _ & Hm' & Hgr & Hin & Hsets).
  exists q, s'. split; [done |]. split; [by eapply clone_Inv | by eapply clone_ext].
Qed.

(** Forwarding a dereferenced word. *)
Lemma FORWARD_block s w h args : IsInt w = false -> gc_mem s !! RemoveTag w = Some (h, args) ->
  FORWARD undef malloc s w gen =
    if AlreadyMoved h then Some (EncodeTag h (DecodeTag w), s)
    else if DecodeGeneration h <? Z.of_nat gen then
      '(newp, s) ← CloneBlock undef malloc s (RemoveTag w) gen; Some (EncodeTag newp (DecodeTag w), s)
    else Some (w, s).
Proof. intros Hi Hm. unfold FORWARD, ForwardBlock. rewrite Hi. by erewrite Header_Some. Qed.

Lemma forward_ok s phi d y :
  Inv s phi -> is_Some (phi !! root) -> good O d -> item_ok phi d y -> (IsInt d = false -> reach O gen root (RemoveTag d)) ->
  exists w s' phi' news, FORWARD undef malloc s y gen = Some (w, s') /\ Inv s' phi' /\
    ext nothing s phi s' phi' news /\ reloc phi' d = Some w.
Proof.
  intros HI Hroot Hg Hy Hre.
  assert (Hdone : forall x, reloc phi d = Some x -> FORWARD undef malloc s y gen = Some (x, s) ->
    exists w s' phi' news, FORWARD undef malloc s y gen = Some (w, s') /\ Inv s' phi' /\
      ext nothing s phi s' phi' news /\ reloc phi' d = Some w).
  { intros x Hr HF. exists x, s, phi, []. split_and!; try done. apply ext_refl. }
  destruct Hy as [-> | [Hgen Hr]].
  - destruct (IsInt d) eqn:Hi.
    { apply (Hdone d); [unfold GCGraph.reloc | unfold FORWARD]; by rewrite Hi. }
    destruct Hg as [| (h & args & Hp & Hl)]; [congruence |]. pose proof (bo_unmoved _ _ _ (O_ok _ _ _ Hp)) as Hmv.
    destruct (fromb (RemoveTag d)) eqn:Hf.
    + destruct (phi !! RemoveTag d) as [q |] eqn:Hq.
      * destruct (inv_copy _ _ _ _ _ HI _ _ Hq) as (h0 & args0 & _ & _ & _ & _ & _ & Hm & _).
        apply (Hdone (EncodeTag q (DecodeTag d))); [unfold GCGraph.reloc; by rewrite Hi, Hf, Hq |].
        by rewrite (FORWARD_block _ _ _ _ Hi Hm), moved_header by (by eapply inv_aligned).
      * pose proof (inv_from _ _ _ _ _ HI _ _ Hp Hf Hq) as Hm. clear Hdone.
        assert (Hlt : DecodeGeneration h <? Z.of_nat gen = true).
        { unfold GCGraph.fromb in Hf. rewrite Hp in Hf. simpl in Hf. apply orb_true_iff in Hf as [| Er%Z.eqb_eq]; [done |].
          rewrite <- Er, Hq in Hroot. by destruct Hroot. }
        destruct (clone_step s phi _ h args HI Hp Hf Hl (Hre eq_refl) Hq) as (q & s' & E & HI' & Hext).
        rewrite (FORWARD_block _ _ _ _ Hi Hm), Hmv, Hlt, E. simpl.
        exists (EncodeTag q (DecodeTag d)), s', (<[RemoveTag d := q]> phi), [(q, zlen args)].
        split_and!; try done. unfold GCGraph.reloc. by rewrite Hi, Hf, lookup_insert_eq.
    + destruct (inv_old _ _ _ _ _ HI _ _ _ Hp Hf) as (h' & args' & Hm & Hk & _).
      destruct (hkey_decode _ _ Hk) as (_ & _ & _ & Eg & Em). destruct (fromb_old _ _ _ Hp Hf) as (_ & Hge & _).
      apply (Hdone d); [unfold GCGraph.reloc; by rewrite Hi, Hf |].
      rewrite (FORWARD_block _ _ _ _ Hi Hm), Em, Eg, Hmv.
      destruct (Z.ltb_spec (DecodeGeneration h) (Z.of_nat gen)); [lia | done].
  - apply (Hdone y Hr). pose proof (tgen_min d Hg) as Hmin.
    destruct (reloc_target _ _ _ _ HI Hg Hr) as [[Hi ->] | (Hd & Hi & h & args & Hm & Hmv & _ & Hge)];
      [unfold FORWARD; by rewrite Hi |].
    rewrite (FORWARD_block _ _ _ _ Hi Hm), Hmv.
    specialize (Hmin Hd). destruct (Z.ltb_spec (DecodeGeneration h) (Z.of_nat gen)); [lia | done].
Qed.

End Forward.

#[global] Arguments inv_mem {_ _ _ _ _ _} _.
#[global] Arguments inv_old {_ _ _ _ _ _} _ {_ _ _} _ _.
#[global] Arguments inv_from {_ _ _ _ _ _} _ {_ _} _ _ _.
#[global] Arguments inv_copy {_ _ _ _ _ _} _ {_ _} _.
#[global] Arguments inv_inj {_ _ _ _ _ _} _ {_ _ _} _ _.
#[global] Arguments inv_reach {_ _ _ _ _ _} _ {_ _} _.
#[global] Arguments ext_phi {_ _ _ _ _ _ _ _ _ _} _.
#[global] Arguments ext_frame {_ _ _ _ _ _ _ _ _ _} _ {_ _} _ _ _.
#[global] Arguments ext_dom {_ _ _ _ _ _ _ _ _ _} _ {_} _.
#[global] Arguments ext_only {_ _ _ _ _ _ _ _ _ _} _ {_} _.
#[global] Arguments ext_new {_ _ _ _ _ _ _ _ _ _} _ {_ _} _.
#[global] Arguments ext_cover {_ _ _ _ _ _ _ _ _ _} _ {_ _} _.
#[global] Arguments ext_nodup {_ _ _ _ _ _ _ _ _ _} _.
#[global] Arguments ext_size {_ _ _ _ _ _ _ _ _ _} _.
#[global] Arguments ext_laid {_ _ _ _ _ _ _ _ _ _} _ {_ _ _} _.
#[global] Arguments ext_chunks {_ _ _ _ _ _ _ _ _ _} _.
#[global] Arguments ext_in_gen {_ _ _ _ _ _ _ _ _ _} _ {_ _} _.
#[global] Arguments ext_sets {_ _ _ _ _ _ _ _ _ _} _.
#[global] Arguments ext_refl {_ _ _} _ {_} _ _ _.
#[global] Arguments ext_trans {_ _ _} _ {_} _ {_ _ _ _ _ _ _ _} _ _ _ _.
#[global] Arguments bo_unmoved {_ _ _ _} _.
#[global] Arguments bo_size {_ _ _ _} _.
#[global] Arguments bo_size_ok {_ _ _ _} _.
#[global] Arguments bo_weak {_ _ _ _} _.
#[global] Arguments bo_dynamic {_ _ _ _} _ _.
#[global] Arguments bo_ref {_ _ _ _} _ _.
#[global] Arguments bo_words {_ _ _ _} _ {_ _} _ _.
#[global] Arguments fromb_out {_ _ _ _ _} _.
#[global] Arguments fromb_old {_ _} _ {_} _ {_ _ _ _} _ _.
#[global] Arguments inv_aligned {_ _ _ _ _ _ _ _} _ _.
#[global] Arguments inv_in_mem {_ _ _ _ _ _ _ _} _ _.
#[global] Arguments reloc_target {_ _} _ {_} _ {_ _ _ _ _} _ _ _.
#[global] Arguments settled_mono {_ _ _ _ _ _ _ _} _ _.
#[global] Arguments reloc_mono {_ _ _ _ _ _ _ _} _ _.
#[global] Arguments slot_deref {_ _} _ {_} _ {_ _ _ _ _ _} _ _ _ _.
#[global] Arguments settled_deref {_ _} _ {_} _ {_ _ _ _ _} _ _.
#[global] Arguments hkey_decode {_ _ _} _.
