(* ===== verification/GCScan.v ===== *)
(** * Scanning

    The scan of one block and the Cheney scan of a generation: the loop ends
    within a fuel bounded by the number of blocks of the graph, and afterwards
    every copy has all its arguments relocated. *)

From S2P Require Import Prelude Config HeaderOp PointerOp Heap GC GCMem GCGraph GCForward.

Section Scan.
Context `{Platform} (undef : Z) (malloc : list (Z * Z) -> Z -> Z) (malloc_ok : malloc_fresh malloc).
Context (O : gmap Z (Z * list Z)) (O_ok : graph_ok O) (gen : nat) (gen_ok : (gen < 4)%nat) (root : Z).
Implicit Types (phi : gmap Z Z) (s : GC) (p q w d : Z) (news pend : list (Z * Z)).

#[local] Abbreviation fromb := (fromb O gen root).
#[local] Abbreviation reloc := (reloc O gen root).
#[local] Abbreviation settled := (settled O gen root).
#[local] Abbreviation slot := (slot O gen root).
#[local] Abbreviation Inv := (Inv O gen root).
#[local] Abbreviation ext := (ext O gen root).
#[local] Abbreviation raw := (raw O).
#[local] Abbreviation laid s := (laid s gen).

(** ** Writing a block *)

Lemma inv_write s phi p hp cur hp' cur' :
  Inv s phi -> fromb p = false -> gc_mem s !! p = Some (hp, cur) -> hkey hp' = hkey hp ->
  (O !! p = None -> hp' = hp) -> zlen cur' = zlen cur ->
  (forall h args i a, O !! p = Some (h, args) -> aget args i = Some a ->
     exists x, aget cur' i = Some x /\ (x = a \/ i < scan_size h args /\ settled phi a x)) ->
  Inv (with_mem s (<[p := (hp', cur')]> (gc_mem s))) phi.
Proof.
  intros HI Hf Hp Hk Hh Hz Hargs. constructor; simpl.
  - by eapply with_mem_ok; [apply (inv_mem HI) | exact Hp |].
  - intros r h args Hr Hfr. destruct (inv_old HI Hr Hfr) as (h' & args' & Hm & Hk' & Hlen & Ha).
    destruct (decide (r = p)) as [-> |].
    + rewrite Hp in Hm. injection Hm as <- <-. exists hp', cur'. rewrite lookup_insert_eq. split_and!; try done; try congruence.
      intros i a Hi. by apply (Hargs h args).
    + exists h', args'. rewrite lookup_insert_ne by done. done.
  - intros r b Hr Hfr Hn. rewrite lookup_insert_ne by congruence. by apply (inv_from HI).
  - intros r q Hr. destruct (inv_copy HI Hr) as (h & args & h' & args' & HO & Hf0 & Hl & Hm & Hq & Hk' & Hlen & HOq & Hg).
    rewrite (lookup_insert_ne _ p r) by congruence. destruct (decide (q = p)) as [-> |].
    + rewrite Hp in Hq. injection Hq as <- <-. rewrite lookup_insert_eq.
      exists h, args, hp', cur'. rewrite (Hh HOq). split_and!; try done; congruence.
    + rewrite lookup_insert_ne by done. exists h, args, h', args'. done.
  - intros p1 p2 q; apply (inv_inj HI).
  - intros p1 q; apply (inv_reach HI).
Qed.

Lemma ext_write s phi p b b' :
  gc_mem s !! p = Some b -> ext (eq p) s phi (with_mem s (<[p := b']> (gc_mem s))) phi [].
Proof.
  intros Hp. assert (Hr : ext (eq p) s phi s phi []) by (by apply ext_refl). destruct Hr. constructor; try done; simpl.
  - intros q b0 _ Hne Hq. by rewrite lookup_insert_ne.
  - intros q Hq. destruct (decide (p = q)) as [-> |]; [by rewrite lookup_insert_eq | by rewrite lookup_insert_ne].
  - intros q Hq. left. destruct (decide (p = q)) as [<- |]; [by rewrite Hp | by rewrite lookup_insert_ne in Hq].
  - by intros q n ?%not_elem_of_nil.
Qed.

(** ** One argument *)

(** The block at [p], which stands for the original [(h, args)], with its
    arguments from index [i] on settled. *)
Definition progress s phi p hp h args (i : Z) : Prop :=
  exists cur, gc_mem s !! p = Some (hp, cur) /\ zlen cur = zlen args /\
    forall j a, aget args j = Some a -> exists x, aget cur j = Some x /\
      if j <? i then slot phi a x else if j <? scan_size h args then settled phi a x else x = a.

(** [p] is where the block [(h, args)] of the graph lives. *)
Definition stands phi p h args : Prop :=
  (O !! p = Some (h, args) /\ fromb p = false) \/ (exists p0, phi !! p0 = Some p /\ O !! p0 = Some (h, args)).

Lemma stands_facts s phi p h args : Inv s phi -> stands phi p h args ->
  fromb p = false /\ block_ok O h args /\ (forall h' args', O !! p = Some (h', args') -> h' = h /\ args' = args) /\
  exists p0, O !! p0 = Some (h, args) /\ reach O gen root p0.
Proof.
  intros HI [[Hp Hf] | (p0 & Hphi & Hp)].
  - split; [done |]. split; [by eapply O_ok |]. split; [intros; by simplify_eq |]. exists p. split; [done |]. by eapply reach_old.
  - destruct (inv_copy HI Hphi) as (? & ? & ? & ? & _ & _ & _ & _ & _ & _ & _ & Hn & _).
    split; [by apply fromb_out |]. split; [by eapply O_ok |]. split; [intros; congruence |].
    exists p0. split; [done |]. by apply (inv_reach HI Hphi).
Qed.

Lemma stands_mono phi phi' p h args : phi ⊆ phi' -> stands phi p h args -> stands phi' p h args.
Proof. intros Hs [|(p0 & ? & ?)]; [by left |]. right. exists p0. split; [by eapply lookup_weaken | done]. Qed.

Lemma slot_mono phi phi' a x : phi ⊆ phi' -> slot phi a x -> slot phi' a x.
Proof. intros Hs [| []]; [by left | right]. split; [done |]. by eapply settled_mono. Qed.

Lemma progress_ext X s phi s' phi' news p hp h args i :
  ext X s phi s' phi' news -> fromb p = false -> ~ X p -> progress s phi p hp h args i -> progress s' phi' p hp h args i.
Proof.
  intros Hext Hf Hx (cur & Hm & Hz & Ha). exists cur. split; [by apply (ext_frame Hext) |].
  split; [done |]. intros j a Hj. destruct (Ha j a Hj) as (x & Hx' & Hs). exists x. split; [done |].
  pose proof (ext_phi Hext) as Hp.
  destruct (j <? i); [by eapply slot_mono |]. destruct (j <? scan_size h args); [by eapply settled_mono | done].
Qed.

Lemma progress_write s phi p hp h args i a w cur :
  gc_mem s !! p = Some (hp, cur) -> progress s phi p hp h args (i + 1) -> 0 <= i < scan_size h args -> aget args i = Some a ->
  settled phi a w -> progress (with_mem s (<[p := (hp, <[Z.to_nat i := w]> cur)]> (gc_mem s))) phi p hp h args i.
Proof.
  intros Hp (cur0 & Hm & Hz & Ha) Hi Hai Hw. rewrite Hp in Hm. injection Hm as <-.
  pose proof (aget_Some_lt _ _ _ Hai) as Hr. rewrite <- Hz in Hr. pose proof (aset_Some cur i w Hr) as Hset.
  exists (<[Z.to_nat i := w]> cur). simpl. rewrite lookup_insert_eq. split; [done |].
  split; [by rewrite (aset_zlen _ _ _ _ Hset) |]. intros j b Hj. destruct (decide (j = i)) as [-> |].
  - rewrite (aget_aset_eq _ _ _ _ Hset). exists w. rewrite Z.ltb_irrefl. destruct (Z.ltb_spec i (scan_size h args)); [| lia].
    simplify_eq. done.
  - rewrite (aget_aset_ne _ _ _ _ _ Hset) by done. destruct (Ha j b Hj) as (x & Hx & Hs). exists x. split; [done |].
    destruct (Z.ltb_spec j i), (Z.ltb_spec j (i + 1)); try lia; done.
Qed.

Lemma item_int s phi d item : Inv s phi -> good O d -> item_ok O gen root phi d item -> IsInt item = IsInt d.
Proof.
  intros HI Hg [-> | [_ Hr]]; [done |].
  destruct (reloc_target O_ok gen_ok HI Hg Hr) as [[_ ->] | (-> & -> & _)]; done.
Qed.

(** Dereferencing, forwarding and writing back argument [i]. *)
Lemma arg_step s phi p hp h args i :
  Inv s phi -> is_Some (phi !! root) -> stands phi p h args -> 0 <= i < scan_size h args ->
  progress s phi p hp h args (i + 1) ->
  exists x item w s1 s2 phi' news,
    Block_GetArg s p i = Some x /\ GC_Deref s x = Some item /\ FORWARD undef malloc s item gen = Some (w, s1) /\
    Block_InitArg s1 p i w = Some s2 /\ Inv s2 phi' /\ ext (eq p) s phi s2 phi' news /\
    progress s2 phi' p hp h args i /\ (exists a d, aget args i = Some a /\ deref_to O a d /\ good O d /\ reloc phi' d = Some w /\ IsInt item = IsInt d).
Proof.
  intros HI Hroot Hst Hi Hpr. destruct (stands_facts _ _ _ _ _ HI Hst) as (Hf & Hb & Huniq & p0 & Hp0 & Hre).
  pose proof (scan_size_range _ _ _ Hb) as Hss. destruct (aget_is_Some args i ltac:(lia)) as [a Ha].
  destruct (bo_words Hb Ha ltac:(lia)) as (d & Hd & Hg). pose proof Hpr as (cur & Hm & Hz & Hcur).
  destruct (Hcur i a Ha) as (x & Hx & Hslot). destruct (Z.ltb_spec i (i + 1)); [| lia].
  destruct (slot_deref O_ok gen_ok HI Hd Hg Hslot) as (item & Hitem & Hok).
  destruct (forward_ok undef malloc malloc_ok O O_ok gen gen_ok root s phi d item HI Hroot Hg Hok
               (reach_arg O gen root _ _ _ _ _ _ Hre Hp0 Ha (proj2 Hi) Hd))
    as (w & s1 & phi1 & news & HF & HI1 & Hext1 & Hr).
  assert (Hset : settled phi1 a w) by (by exists d).
  pose proof (progress_ext _ _ _ _ _ _ _ _ _ _ _ Hext1 Hf (fun F => F) Hpr) as Hpr1.
  assert (Hm1 : gc_mem s1 !! p = Some (hp, cur)) by (by apply (ext_frame Hext1); [| intros [] |]).
  set (s2 := with_mem s1 (<[p := (hp, <[Z.to_nat i := w]> cur)]> (gc_mem s1))).
  pose proof (progress_write s1 phi1 p hp h args i a w cur Hm1 Hpr1 Hi Ha Hset) as Hpr2. fold s2 in Hpr2.
  assert (HI2 : Inv s2 phi1).
  { eapply inv_write; [done | done | exact Hm1 | done | done | |].
    - by rewrite (aset_zlen cur i w) by (apply aset_Some; lia).
    - intros h0 args0 j b Hp Hj. destruct (Huniq _ _ Hp) as [-> ->]. destruct Hpr2 as (cur2 & Hm2 & _ & Hc2).
      subst s2. simpl in Hm2. rewrite lookup_insert_eq in Hm2. injection Hm2 as <-.
      destruct (Hc2 j b Hj) as (y & Hy & Hs). exists y. split; [done |].
      destruct (Z.ltb_spec j i); [destruct Hs as [-> | []]; [by left |]; right; split; [lia | done] |].
      destruct (Z.ltb_spec j (scan_size h args)); [by right | by left]. }
  assert (Hext2 : ext (eq p) s phi s2 phi1 news).
  { rewrite <- (app_nil_r news). eapply (ext_trans gen_ok); [| exact HI1 | | ].
    - intros q <-. by rewrite Hm.
    - eapply ext_weaken; [| exact Hext1]. by intros q [].
    - by eapply ext_write. }
  exists x, item, w, s1, s2, phi1, news. split_and!; try done.
  - erewrite GetArg_Some by exact Hm. done.
  - erewrite Block_InitArg_Some; [done | exact Hm1 | lia].
  - exists a, d. split; [done |]. split; [done |]. split; [done |]. split; [done |]. eapply item_int; [exact HI | exact Hg | exact Hok].
Qed.

(** ** One block *)

Lemma scan_args_ok s phi p hp h args (i : nat) :
  Inv s phi -> is_Some (phi !! root) -> stands phi p h args -> Z.of_nat i <= scan_size h args ->
  progress s phi p hp h args (Z.of_nat i) ->
  exists s' phi' news, scan_args (fun s w => FORWARD undef malloc s w gen) s p i = Some s' /\ Inv s' phi' /\
    ext (eq p) s phi s' phi' news /\ progress s' phi' p hp h args 0.
Proof.
  revert s phi. induction i as [| i IH]; intros s phi HI Hroot Hst Hi Hpr.
  { exists s, phi, []. split_and!; try done. by apply ext_refl. }
  replace (Z.of_nat (S i)) with (Z.of_nat i + 1) in * by lia.
  destruct (arg_step s phi p hp h args (Z.of_nat i) HI Hroot Hst ltac:(lia) Hpr)
    as (x & item & w & s1 & s2 & phi1 & news1 & Hx & Hitem & HF & Hw & HI2 & Hext & Hpr2 & _).
  pose proof (ext_phi Hext) as Hsub.
  destruct (IH s2 phi1 HI2 (lookup_weaken_is_Some _ _ _ Hroot Hsub) (stands_mono _ _ _ _ _ Hsub Hst) ltac:(lia) Hpr2)
    as (s3 & phi3 & news3 & E & HI3 & Hext3 & Hpr3).
  exists s3, phi3, (news1 ++ news3). simpl. rewrite Hx. simpl. rewrite Hitem. simpl. rewrite HF. simpl. rewrite Hw. simpl.
  split_and!; try done. eapply (ext_trans gen_ok); [| exact HI2 | exact Hext | exact Hext3].
  intros q <-. destruct Hpr as (cur & -> & _). done.
Qed.

(** A copy with all its arguments relocated. *)
Definition done s phi q : Prop :=
  exists p h args hp, phi !! p = Some q /\ O !! p = Some (h, args) /\ progress s phi q hp h args 0.

Lemma raw_progress s phi q n : Inv s phi -> raw s phi q n ->
  exists h args hp, stands phi q h args /\ n = zlen args /\ gc_mem s !! q = Some (hp, args) /\
    hp = copy_header gen h /\ progress s phi q hp h args (scan_size h args).
Proof.
  intros HI (p & h & args & hp & Hphi & HO & -> & Hm).
  destruct (inv_copy HI Hphi) as (h0 & args0 & hp0 & args1 & HO0 & _ & _ & _ & Hm0 & Hk & _).
  assert (h0 = h) as -> by congruence. assert (hp0 = hp) as -> by congruence.
  exists h, args, hp. split; [right; eauto |]. split; [done |]. split; [done |]. split; [done |].
  exists args. split_and!; try done. intros j a Hj. exists a. split; [done |].
  destruct (j <? scan_size h args); [by left | done].
Qed.

Lemma scan_block_ok s phi q n : Inv s phi -> is_Some (phi !! root) -> raw s phi q n ->
  exists s' phi' news, scan_block (fun s w => FORWARD undef malloc s w gen) s q = Some s' /\ Inv s' phi' /\
    ext (eq q) s phi s' phi' news /\ done s' phi' q.
Proof.
  intros HI Hroot Hraw. destruct (raw_progress _ _ _ _ HI Hraw) as (h & args & hp & Hst & -> & Hm & Hk & Hpr).
  destruct (stands_facts _ _ _ _ _ HI Hst) as (_ & Hb & _). pose proof (scan_size_range _ _ _ Hb) as Hr.
  destruct (scan_args_ok s phi q hp h args (Z.to_nat (scan_size h args)) HI Hroot Hst ltac:(lia))
    as (s' & phi' & news & E & HI' & Hext & Hpr'); [by rewrite Z2Nat.id by lia |].
  exists s', phi', news. split; [| split; [done |]; split; [done |]].
  - assert (Hs : size_ok (DecodeSize h)) by (rewrite (bo_size Hb); apply (bo_size_ok Hb)).
    destruct (copy_header_spec gen h gen_ok Hs) as (Cl & Cs & _).
    unfold scan_block. erewrite Header_Some by exact Hm. simpl. rewrite Hk, Cl, Cs, (bo_size Hb).
    unfold scan_size in E. destruct (Z.ltb_spec (DecodeLabel h) CHUNK_LABEL); [exact E |].
    destruct (Z.eqb_spec (DecodeLabel h) DYNAMIC_LABEL) as [Hd |]; [| exact E].
    destruct (bo_dynamic Hb Hd) as (w & Hw & Hi & _). rewrite Hw in E. simpl in E.
    unfold GetScanSize, GetActiveSize. erewrite GetArg_Some by exact Hm. rewrite Hw. simpl. rewrite Hi. simpl. exact E.
  - destruct Hst as [[HO _] | (p0 & Hphi & HO)].
    + destruct Hraw as (p0 & h0 & args0 & ? & Hphi & _). destruct (inv_copy HI Hphi) as (? & ? & ? & ? & _ & _ & _ & _ & _ & _ & _ & Hn & _).
      congruence.
    + exists p0, h, args, hp. split_and!; try done. eapply lookup_weaken; [exact Hphi | apply (ext_phi Hext)].
Qed.

(** ** The loop *)

(** A longer piece of a collection, which may write to the blocks in [X]. *)
Record evolves (X : Z -> Prop) s phi s' phi' : Prop := {
  ev_phi : phi ⊆ phi';
  ev_frame : forall q b, fromb q = false -> ~ X q -> gc_mem s !! q = Some b -> gc_mem s' !! q = Some b;
  ev_dom : forall q, is_Some (gc_mem s !! q) -> is_Some (gc_mem s' !! q);
  ev_only : forall q, is_Some (gc_mem s' !! q) -> is_Some (gc_mem s !! q) \/ exists p, phi' !! p = Some q;
  ev_fresh : forall p q, phi' !! p = Some q -> phi !! p = Some q \/ gc_mem s !! q = None;
  ev_in_gen : forall g q, in_gen s g q -> in_gen s' g q;
  ev_sets : same_sets s s'
}.

Lemma ext_evolves X s phi s' phi' news : ext X s phi s' phi' news -> evolves X s phi s' phi'.
Proof.
  intros E. constructor; [apply (ext_phi E) | | | | | | apply (ext_sets E)]; intros *;
    [apply (ext_frame E) | apply (ext_dom E) | apply (ext_only E) | | apply (ext_in_gen E)].
  intros [Hp | [n Hn]]%(ext_cover E); [by left | right; by apply (ext_new E Hn)].
Qed.

Lemma evolves_weaken (X Y : Z -> Prop) s phi s' phi' :
  (forall q, X q -> Y q) -> evolves X s phi s' phi' -> evolves Y s phi s' phi'.
Proof. intros HXY []. constructor; auto. Qed.

Lemma evolves_refl X s phi : evolves X s phi s phi.
Proof. constructor; try done; by left. Qed.

Lemma evolves_trans (X Y : Z -> Prop) s1 phi1 s2 phi2 s3 phi3 :
  evolves X s1 phi1 s2 phi2 -> evolves Y s2 phi2 s3 phi3 -> (forall q, Y q -> is_Some (gc_mem s1 !! q) -> X q) ->
  evolves X s1 phi1 s3 phi3.
Proof.
  intros E1 E2 HY. constructor.
  - etrans; [apply (ev_phi _ _ _ _ _ E1) | apply (ev_phi _ _ _ _ _ E2)].
  - intros q b Hf HX Hq. apply (ev_frame _ _ _ _ _ E2); [done | | by apply (ev_frame _ _ _ _ _ E1)]. intros HYq. eauto.
  - intros q Hq. by apply (ev_dom _ _ _ _ _ E2), (ev_dom _ _ _ _ _ E1).
  - intros q [[| [p Hp]]%(ev_only _ _ _ _ _ E1) | Hp]%(ev_only _ _ _ _ _ E2); [by left | right | by right].
    exists p. eapply lookup_weaken; [exact Hp | apply (ev_phi _ _ _ _ _ E2)].
  - intros p q [Hp | Hq]%(ev_fresh _ _ _ _ _ E2); [by apply (ev_fresh _ _ _ _ _ E1) | right].
    apply eq_None_not_Some. intros Hs%(ev_dom _ _ _ _ _ E1). rewrite Hq in Hs. by destruct Hs.
  - intros g q Hq. by apply (ev_in_gen _ _ _ _ _ E2), (ev_in_gen _ _ _ _ _ E1).
  - eapply same_sets_trans; [apply (ev_sets _ _ _ _ _ E1) | apply (ev_sets _ _ _ _ _ E2)].
Qed.

(** Between two rounds of the loop: the blocks still to visit are raw copies,
    all other copies are done. *)
Record cheney s phi pend : Prop := {
  ch_nodup : NoDup pend.*1;
  ch_raw : forall q n, (q, n) ∈ pend -> raw s phi q n;
  ch_done : forall p q, phi !! p = Some q -> (exists n, (q, n) ∈ pend) \/ done s phi q
}.

Lemma inv_size s phi : Inv s phi -> (size phi <= size O)%nat.
Proof.
  intros HI. rewrite <- !size_dom. apply subseteq_size. intros p [q Hq]%elem_of_dom.
  destruct (inv_copy HI Hq) as (h & args & ? & ? & HO & _). apply elem_of_dom. by rewrite HO.
Qed.

Lemma copy_out s phi p q : Inv s phi -> phi !! p = Some q -> fromb q = false.
Proof. intros HI Hq. destruct (inv_copy HI Hq) as (? & ? & ? & ? & _ & _ & _ & _ & _ & _ & _ & Hn & _). by apply fromb_out. Qed.

Lemma done_ext X s phi s' phi' news q : Inv s phi -> ext X s phi s' phi' news -> ~ X q -> done s phi q -> done s' phi' q.
Proof.
  intros HI Hext HX (p & h & args & hp & Hphi & HO & Hpr). exists p, h, args, hp.
  split; [eapply lookup_weaken; [exact Hphi | apply (ext_phi Hext)] |]. split; [done |].
  eapply progress_ext; [exact Hext | by eapply copy_out | done | done].
Qed.

Lemma raw_ext X s phi s' phi' news q n : Inv s phi -> ext X s phi s' phi' news -> ~ X q -> raw s phi q n -> raw s' phi' q n.
Proof.
  intros HI Hext HX (p & h & args & hp & Hphi & HO & Hn & Hm). exists p, h, args, hp.
  split; [eapply lookup_weaken; [exact Hphi | apply (ext_phi Hext)] |]. split; [done |]. split; [done |].
  apply (ext_frame Hext); [by eapply copy_out | done | done].
Qed.

(** New copies join the blocks to visit. *)
Lemma cheney_ext X s phi s' phi' news pend :
  Inv s phi -> cheney s phi pend -> ext X s phi s' phi' news -> (forall p q, phi !! p = Some q -> ~ X q) ->
  cheney s' phi' (pend ++ news).
Proof.
  intros HI [Hnd Hraw Hdone] Hext HX.
  assert (HXraw : forall q n, raw s phi q n -> ~ X q) by (intros q n (p & ? & ? & ? & Hp & _); by eapply HX).
  constructor.
  - rewrite fmap_app. apply NoDup_app. split_and!; [done | | apply (ext_nodup Hext)].
    intros q ([? n] & -> & Hin)%list_elem_of_fmap ([? n'] & Eq & Hin')%list_elem_of_fmap. simpl in *. subst.
    destruct (Hraw _ _ Hin) as (? & ? & ? & ? & _ & _ & _ & Hm). destruct (ext_new Hext Hin'). congruence.
  - intros q n [Hin | Hin]%elem_of_app; [| by apply (ext_new Hext)]. by eapply raw_ext; eauto.
  - intros p q [Hp | [n Hn]]%(ext_cover Hext); [| left; exists n; apply elem_of_app; by right].
    destruct (Hdone _ _ Hp) as [[n Hn] | Hd]; [left; exists n; apply elem_of_app; by left |].
    right. by eapply done_ext; eauto.
Qed.

(** One block of the loop. *)
Lemma cheney_step s phi q n pend :
  Inv s phi -> is_Some (phi !! root) -> cheney s phi ((q, n) :: pend) ->
  exists s' phi' news, scan_block (fun s w => FORWARD undef malloc s w gen) s q = Some s' /\ Inv s' phi' /\
    ext (eq q) s phi s' phi' news /\ cheney s' phi' (pend ++ news).
Proof.
  intros HI Hroot [Hnd Hraw Hdone].
  destruct (scan_block_ok s phi q n HI Hroot) as (s' & phi' & news & E & HI' & Hext & Hq); [apply Hraw; by left |].
  exists s', phi', news. split; [done |]. split; [done |]. split; [done |].
  rewrite fmap_cons in Hnd. apply NoDup_cons in Hnd as [Hnq Hnd]. simpl in Hnq.
  assert (Hother : forall q' n', (q', n') ∈ pend -> q <> q').
  { intros q' n' Hin ->. apply Hnq. apply list_elem_of_fmap. by exists (q', n'). }
  assert (Hraw' : forall q' n', (q', n') ∈ pend -> raw s' phi' q' n').
  { intros q' n' Hin. eapply raw_ext; [exact HI | exact Hext | by eapply Hother | apply Hraw; by right]. }
  constructor.
  - rewrite fmap_app. apply NoDup_app. split_and!; [done | | apply (ext_nodup Hext)].
    intros r ([r1 m] & -> & Hin)%list_elem_of_fmap ([r2 m'] & Eq & Hin')%list_elem_of_fmap. simpl in *. subst r2.
    destruct (Hraw r1 m) as (? & ? & ? & ? & _ & _ & _ & Hm); [by right |]. destruct (ext_new Hext Hin'). congruence.
  - intros r m [Hin | Hin]%elem_of_app; [by apply Hraw' | by apply (ext_new Hext)].
  - intros p r [Hp | [m Hm]]%(ext_cover Hext); [| left; exists m; apply elem_of_app; by right].
    destruct (decide (q = r)) as [<- |]; [by right |].
    destruct (Hdone _ _ Hp) as [[m [[= -> ->] | Hm]%elem_of_cons] | Hd]; [done | left; exists m; apply elem_of_app; by left |].
    right. eapply done_ext; [exact HI | exact Hext | done | done].
Qed.

Lemma scan_loop_ok (fuel : nat) s phi (k : nat) scan pend :
  Inv s phi -> is_Some (phi !! root) -> laid s k scan pend -> cheney s phi pend ->
  (2 * (size O - size phi) + length pend + (nchunks s gen - k) <= fuel)%nat ->
  exists s' phi', scan_loop fuel (fun s w => FORWARD undef malloc s w gen) s gen k scan = Some s' /\ Inv s' phi' /\
    evolves (fun q => exists n, (q, n) ∈ pend) s phi s' phi' /\ cheney s' phi' [].
Proof.
  revert s phi k scan pend. induction fuel as [| fuel IH]; intros s phi k scan pend HI Hroot Hl Hc Hfuel;
    destruct (laid_step _ _ _ _ _ Hl) as (c & Hc1 & Hk & Hcase); [lia |].
  simpl. rewrite Hc1. simpl. destruct Hcase as [(n & pend' & -> & Hlt & Hl') | [(Hge & c2 & Hc2 & Hl') | (Hge & Hc2 & ->)]].
  - destruct (Z.ltb_spec scan (hc_top c)); [| lia].
    pose proof (ch_raw _ _ _ Hc scan n ltac:(by left)) as Hraw.
    destruct (raw_progress _ _ _ _ HI Hraw) as (h & args & hp & Hst & Hn & Hm & Hkey & _).
    destruct (stands_facts _ _ _ _ _ HI Hst) as (_ & Hb & _).
    assert (Hsz : DecodeSize hp = n).
    { rewrite Hkey.
      assert (Hs : size_ok (DecodeSize h)) by (rewrite (bo_size Hb); apply (bo_size_ok Hb)).
      destruct (copy_header_spec gen h gen_ok Hs) as (_ & -> & _). by rewrite (bo_size Hb). }
    erewrite Header_Some by exact Hm. simpl. rewrite Hsz.
    destruct (cheney_step s phi scan n pend' HI Hroot Hc) as (s1 & phi1 & news & E & HI1 & Hext & Hc').
    rewrite E. simpl. pose proof (inv_size _ _ HI1) as Hs1. pose proof (ext_size Hext) as Hs. pose proof (ext_chunks Hext) as Hch.
    destruct (IH s1 phi1 k (scan + SIZEOF_BLOCK n) (pend' ++ news)) as (s2 & phi2 & E2 & HI2 & Hev & Hc2); try done.
    + eapply lookup_weaken_is_Some; [exact Hroot | apply (ext_phi Hext)].
    + by apply (ext_laid Hext).
    + rewrite length_app. simpl in Hfuel. lia.
    + exists s2, phi2. split_and!; try done.
      eapply evolves_trans; [| exact Hev |].
      * apply ext_evolves with news. eapply ext_weaken; [| exact Hext]. intros q <-. exists n. by left.
      * intros q [m [Hin | Hin]%elem_of_app] [b Hb']; [exists m; by right |]. destruct (ext_new Hext Hin). congruence.
  - destruct (Z.ltb_spec scan (hc_top c)); [lia |]. rewrite Hc2. apply IH; try done. lia.
  - destruct (Z.ltb_spec scan (hc_top c)); [lia |]. rewrite Hc2. exists s, phi. split_and!; done || apply evolves_refl.
Qed.

End Scan.

#[global] Arguments ev_phi {_ _ _ _ _ _ _ _ _} _.
#[global] Arguments ev_frame {_ _ _ _ _ _ _ _ _} _ {_ _} _ _ _.
#[global] Arguments ev_dom {_ _ _ _ _ _ _ _ _} _ {_} _.
#[global] Arguments ev_only {_ _ _ _ _ _ _ _ _} _ {_} _.
#[global] Arguments ev_fresh {_ _ _ _ _ _ _ _ _} _ {_ _} _.
#[global] Arguments ev_in_gen {_ _ _ _ _ _ _ _ _} _ {_ _} _.
#[global] Arguments ev_sets {_ _ _ _ _ _ _ _ _} _.
#[global] Arguments ch_nodup {_ _ _ _ _ _ _} _.
#[global] Arguments ch_raw {_ _ _ _ _ _ _} _ {_ _} _.
#[global] Arguments ch_done {_ _ _ _ _ _ _} _ {_ _} _.
