(* ===== verification/GCSet.v ===== *)
(** * The sets of the collector

    [Set.hh]: the remembered set, the weak dictionaries and the values to
    finalize are sets of words in memory.  The lemmas relate the block of a set
    to the list of its words, also while a traversal reuses its slots. *)

From S2P Require Import Prelude Config HeaderOp PointerOp Heap GC GCMem.

Section Sets.
Context `{Platform}.
Implicit Types (s : GC) (p w e : Z) (kept rest : list Z).

(** The set at [p] with the words [kept]; the slots from [i] on still hold
    [rest], the words that a traversal has not reached. *)
Definition set_prog s p (h i : Z) rest kept : Prop :=
  exists args, gc_mem s !! p = Some (h, args) /\ DecodeSize h = zlen args /\ size_ok (zlen args) /\
    aget args 0 = Some (EncodeInt (zlen kept)) /\ zlen kept <= i /\ i + zlen rest + 1 <= zlen args /\
    (forall k e, aget kept k = Some e -> aget args (1 + k) = Some e) /\
    (forall k e, aget rest k = Some e -> aget args (1 + i + k) = Some e).

(** The set at [p] with the words [es]. *)
Definition set_at s p (h : Z) es : Prop := set_prog s p h (zlen es) [] es.

Lemma small_int n : 0 <= n <= 2 ^ 29 -> DirectDecodeInt (EncodeInt n) = n /\ IsInt (EncodeInt n) = true.
Proof.
  intros Hn. pose proof width_bounds. split; [| by rewrite IsInt_odd, EncodeInt_odd].
  apply DirectDecode_EncodeInt. assert (2 ^ 30 <= 2 ^ (STORE_WORD_WIDTH - 2)) by (apply Z.pow_le_mono_r; lia). lia.
Qed.

Lemma size_ok_small n : size_ok n -> 0 <= n <= 2 ^ 29.
Proof. intros (Hn & _). destruct hw_fields as (_&_&_&_&_&_&_&_&_&_&_&_&_&Eb&_). rewrite Eb in Hn. lia. Qed.

Lemma set_active s p h i rest kept : set_prog s p h i rest kept -> GetActiveSize s p = Some (zlen kept).
Proof.
  intros (args & Hm & _ & Hs & H0 & Hk & Hi & _). apply size_ok_small in Hs.
  pose proof (zlen_nonneg kept). pose proof (zlen_nonneg rest).
  destruct (small_int (zlen kept)) as [Hd Hint]; [lia |].
  unfold GetActiveSize. rewrite (GetArg_Some _ _ _ _ _ Hm), H0. simpl. by rewrite Hint, Hd.
Qed.

Lemma set_get s p h i e rest kept : set_prog s p h i (e :: rest) kept -> Set_GetArgUnchecked s p i = Some e.
Proof.
  intros (args & Hm & _ & _ & _ & _ & _ & _ & Hr). unfold Set_GetArgUnchecked. rewrite (GetArg_Some _ _ _ _ _ Hm).
  specialize (Hr 0 e eq_refl). by rewrite Z.add_0_r in Hr.
Qed.

Lemma Set_GetArg_ok s p h es i e : set_at s p h es -> aget es i = Some e -> Set_GetArg s p i = Some e.
Proof.
  intros Hs He. pose proof (aget_Some_lt _ _ _ He). unfold Set_GetArg. rewrite (set_active _ _ _ _ _ _ Hs). cbn [mbind option_bind].
  destruct (Z.leb_spec (zlen es) i); [lia |]. destruct Hs as (args & Hm & _ & _ & _ & _ & _ & Hes & _).
  unfold Set_GetArgUnchecked. rewrite (GetArg_Some _ _ _ _ _ Hm). by apply Hes.
Qed.

Lemma set_skip s p h i e rest kept : set_prog s p h i (e :: rest) kept -> set_prog s p h (i + 1) rest kept.
Proof.
  intros (args & Hm & Hd & Hs & H0 & Hk & Hi & Hkept & Hr). exists args. rewrite zlen_cons in Hi. split_and!; try done; try lia.
  intros k e' Hk'. replace (1 + (i + 1) + k) with (1 + i + (k + 1)) by lia. apply Hr.
  pose proof (aget_Some_lt _ _ _ Hk'). rewrite aget_cons by lia. by replace (k + 1 - 1) with k by lia.
Qed.

Lemma set_frame s s' p h i rest kept :
  gc_mem s' !! p = gc_mem s !! p -> set_prog s p h i rest kept -> set_prog s' p h i rest kept.
Proof. intros E (args & Hm & ?). exists args. by rewrite E. Qed.

Lemma SetActiveSize_ok s p h args n :
  gc_mem s !! p = Some (h, args) -> DecodeSize h = zlen args -> 0 <= n < zlen args ->
  SetActiveSize s p n = Some (with_mem s (<[p := (h, <[0%nat := EncodeInt n]> args)]> (gc_mem s))).
Proof.
  intros Hm Hd Hn. unfold SetActiveSize. rewrite (Header_Some _ _ _ _ Hm). simpl. rewrite Hd.
  destruct (Z.ltb_spec (zlen args - 1) n); [lia |]. by rewrite (Block_InitArg_Some _ _ _ _ _ _ Hm) by lia.
Qed.

Lemma set_clear s p h es : set_at s p h es ->
  exists args args', gc_mem s !! p = Some (h, args) /\ zlen args' = zlen args /\
    Set_Clear s p = Some (with_mem s (<[p := (h, args')]> (gc_mem s))) /\
    set_prog (with_mem s (<[p := (h, args')]> (gc_mem s))) p h 0 es [].
Proof.
  intros (args & Hm & Hd & Hs & H0 & _ & Hi & Hkept & _). rewrite zlen_nil in Hi.
  pose proof (zlen_nonneg es). exists args, (<[0%nat := EncodeInt 0]> args).
  assert (Hset : aset args 0 (EncodeInt 0) = Some (<[0%nat := EncodeInt 0]> args)) by (by rewrite aset_Some by lia).
  pose proof (aset_zlen _ _ _ _ Hset) as Hz. split; [done |]. split; [done |]. split; [by apply SetActiveSize_ok; [| | lia] |].
  exists (<[0%nat := EncodeInt 0]> args). simpl. rewrite lookup_insert_eq, Hz. split_and!; try done; try lia.
  - apply (aget_aset_eq _ _ _ _ Hset).
  - intros k e He%aget_Some_lt. unfold zlen in He. simpl in He. lia.
  - intros k e He. pose proof (aget_Some_lt _ _ _ He). rewrite (aget_aset_ne _ _ _ _ _ Hset) by lia.
    replace (1 + 0 + k) with (1 + k) by lia. by apply Hkept.
Qed.

Lemma set_add_unchecked s p h i e0 w rest kept : set_prog s p h i (e0 :: rest) kept ->
  exists args args', gc_mem s !! p = Some (h, args) /\ zlen args' = zlen args /\
    Set_AddUnchecked s p w = Some (with_mem s (<[p := (h, args')]> (gc_mem s))) /\
    set_prog (with_mem s (<[p := (h, args')]> (gc_mem s))) p h (i + 1) rest (kept ++ [w]).
Proof.
  intros Hset. pose proof (set_active _ _ _ _ _ _ Hset) as Hact. pose proof (set_skip _ _ _ _ _ _ _ Hset) as Hskip.
  destruct Hset as (args & Hm & Hd & Hs & H0 & Hk & Hi & Hkept & Hr). rewrite zlen_cons in Hi.
  pose proof (zlen_nonneg kept). pose proof (zlen_nonneg rest). pose proof (size_ok_small _ Hs).
  set (n := zlen kept) in *. set (a1 := <[0%nat := EncodeInt (n + 1)]> args).
  assert (Hs1 : aset args 0 (EncodeInt (n + 1)) = Some a1) by (by rewrite aset_Some by lia).
  pose proof (aset_zlen _ _ _ _ Hs1) as Hz1. set (a2 := <[Z.to_nat (1 + n) := w]> a1).
  assert (Hs2 : aset a1 (1 + n) w = Some a2) by (by rewrite aset_Some by lia).
  pose proof (aset_zlen _ _ _ _ Hs2) as Hz2. exists args, a2. split; [done |]. split; [congruence |]. split.
  - unfold Set_AddUnchecked. rewrite Hact. simpl. rewrite (SetActiveSize_ok _ _ _ _ _ Hm Hd) by lia. simpl. fold a1.
    destruct (small_int (n + 1)) as [Hdec Hint]; [lia |].
    unfold Set_InitArg, GetActiveSize. erewrite GetArg_Some by (simpl; by rewrite lookup_insert_eq).
    rewrite (aget_aset_eq _ _ _ _ Hs1). simpl. rewrite Hint, Hdec. simpl. destruct (Z.leb_spec (n + 1) n); [lia |].
    erewrite Block_InitArg_Some; [| simpl; by rewrite lookup_insert_eq | lia]. simpl. by rewrite insert_insert_eq.
  - destruct Hskip as (args0 & Hm0 & _ & _ & _ & _ & _ & _ & Hr'). rewrite Hm in Hm0. injection Hm0 as <-.
    assert (Hzk : zlen (kept ++ [w]) = n + 1) by (unfold n, zlen; rewrite length_app; simpl; lia).
    exists a2. simpl. rewrite lookup_insert_eq, Hzk, Hz2, Hz1. split_and!; try done; try lia.
    + rewrite (aget_aset_ne _ _ _ _ _ Hs2) by lia. by rewrite (aget_aset_eq _ _ _ _ Hs1).
    + intros k e He. pose proof (aget_Some_lt _ _ _ He) as Hlt. rewrite Hzk in Hlt.
      destruct (decide (k = n)) as [-> |].
      * rewrite aget_app_r in He by (fold n; lia). replace (n - zlen kept) with 0 in He by (fold n; lia). injection He as <-.
        by rewrite (aget_aset_eq _ _ _ _ Hs2).
      * rewrite aget_app_l in He by (fold n; lia). rewrite (aget_aset_ne _ _ _ _ _ Hs2), (aget_aset_ne _ _ _ _ _ Hs1) by lia. auto.
    + intros k e He. pose proof (aget_Some_lt _ _ _ He). fold n in Hk.
      rewrite (aget_aset_ne _ _ _ _ _ Hs2), (aget_aset_ne _ _ _ _ _ Hs1) by lia. auto.
Qed.

Lemma set_prog_at s p h i kept : set_prog s p h i [] kept -> set_at s p h kept.
Proof.
  intros (args & Hm & Hd & Hs & H0 & Hk & Hi & Hkept & _). exists args. split_and!; try done; [lia |].
  intros k e He%aget_Some_lt. unfold zlen in He. simpl in He. lia.
Qed.

End Sets.
