(* ===== verification/GCIntgen.v ===== *)
(** * Inter-generational pointers

    The loop over the recorded blocks of older generations: every recorded
    block that is still old gets all its arguments relocated, and stays
    recorded exactly if one of them points to a younger generation. *)

From S2P Require Import Prelude Config HeaderOp PointerOp Heap GC GCMem GCGraph GCForward GCScan GCSet.

Section Intgen.
Context `{Platform} (undef : Z) (malloc : list (Z * Z) -> Z -> Z) (malloc_ok : malloc_fresh malloc).
Context (O : gmap Z (Z * list Z)) (O_ok : graph_ok O) (gen : nat) (gen_ok : (gen < 4)%nat) (gen_pos : (0 < gen)%nat) (root : Z).
Implicit Types (phi : gmap Z Z) (s : GC) (p q w d e : Z) (news pend : list (Z * Z)) (es : list Z).

#[local] Abbreviation fromb := (fromb O gen root).
#[local] Abbreviation reloc := (reloc O gen root).
#[local] Abbreviation Inv := (Inv O gen root).
#[local] Abbreviation ext := (ext O gen root).
#[local] Abbreviation progress := (progress O gen root).

(** No argument from index [i] on points to a generation younger than that
    of the block itself. *)
Definition no_young h args (i : Z) : Prop :=
  forall j a d, i <= j < scan_size h args -> aget args j = Some a -> deref_to O a d -> IsInt d = false ->
    DecodeGeneration h <= tgen O gen root d.

Lemma no_young_step h args i a d : aget args i = Some a -> deref_to O a d ->
  (IsInt d = false -> DecodeGeneration h <= tgen O gen root d) -> no_young h args (i + 1) -> no_young h args i.
Proof.
  intros Ha Hd Ht Hn j b d' Hj Hb Hd' Hi. destruct (decide (j = i)) as [-> |].
  - rewrite Ha in Hb. injection Hb as <-. rewrite (deref_to_fun _ _ _ _ Hd' Hd) in *. auto.
  - apply (Hn j b d'); done || lia.
Qed.

(** ** The arguments of one recorded block *)

Lemma intgen_args_ok s phi p hp h args (i : nat) (young : bool) :
  Inv s phi -> is_Some (phi !! root) -> O !! p = Some (h, args) -> fromb p = false -> Z.of_nat i <= scan_size h args ->
  progress s phi p hp h args (Z.of_nat i) -> (young = false -> no_young h args (Z.of_nat i)) ->
  exists young' s' phi' news, intgen_args undef malloc s p i (DecodeGeneration h) (pred gen) young = Some (young', s') /\
    Inv s' phi' /\ ext (eq p) s phi s' phi' news /\ progress s' phi' p hp h args 0 /\ (young' = false -> no_young h args 0).
Proof.
  intros HI Hroot HO Hf. revert s phi young HI Hroot.
  induction i as [| i IH]; intros s phi young HI Hroot Hi Hpr Hy.
  { exists young, s, phi, []. split_and!; try done. by apply ext_refl. }
  replace (Z.of_nat (S i)) with (Z.of_nat i + 1) in * by lia.
  assert (Hst : stands O gen root phi p h args) by (by left).
  destruct (arg_step undef malloc malloc_ok O O_ok gen gen_ok root s phi p hp h args (Z.of_nat i) HI Hroot Hst ltac:(lia) Hpr)
    as (x & item & w & s1 & s2 & phi1 & news1 & Hx & Hitem & HF & Hw & HI2 & Hext & Hpr2 & (a & d & Ha & Hd & Hg & Hr & Hint)).
  assert (Hgo : forall young', (young' = false -> no_young h args (Z.of_nat i)) ->
    exists young'' s' phi' news, intgen_args undef malloc s2 p i (DecodeGeneration h) (pred gen) young' = Some (young'', s') /\
    Inv s' phi' /\ ext (eq p) s phi s' phi' news /\ progress s' phi' p hp h args 0 /\ (young'' = false -> no_young h args 0)).
  { intros young' Hy'. pose proof (ext_phi Hext) as Hsub.
    destruct (IH s2 phi1 young' HI2 (lookup_weaken_is_Some _ _ _ Hroot Hsub) ltac:(lia) Hpr2 Hy')
      as (y' & s3 & phi3 & news3 & E & HI3 & Hext3 & Hpr3 & Hy3).
    exists y', s3, phi3, (news1 ++ news3). split_and!; try done.
    eapply (ext_trans gen_ok); [| exact HI2 | exact Hext | exact Hext3]. intros q <-. destruct Hpr as (cur & -> & _). done. }
  unfold FORWARD in HF. simpl. rewrite Hx. simpl. rewrite Hitem. simpl. destruct (IsInt item).
  - injection HF as <- <-. rewrite Hw. simpl. apply Hgo. intros Hyf.
    eapply no_young_step; [exact Ha | exact Hd | congruence | by apply Hy].
  - replace (S (pred gen)) with gen by lia. rewrite HF. simpl. rewrite Hw. simpl.
    destruct (reloc_target O_ok gen_ok HI2 Hg Hr) as [[Hdi _] | (_ & _ & hx & ax & Hmx & _ & _ & Hgx)]; [congruence |].
    erewrite Header_Some by exact Hmx. simpl. apply Hgo. rewrite Hgx. intros [Hyf Hlt]%orb_false_iff.
    apply Z.ltb_ge in Hlt. eapply no_young_step; [exact Ha | exact Hd | done | by apply Hy].
Qed.

(** ** One recorded block *)

(** The block of the set is none of the graph and no copy. *)
Definition apart phi p : Prop := O !! p = None /\ forall p0, phi !! p0 <> Some p.

(** Recorded are blocks of the graph with scanned arguments. *)
Definition entry_ok e : Prop :=
  IsInt e = false /\ exists h args, O !! RemoveTag e = Some (h, args) /\
    (DecodeLabel h < CHUNK_LABEL \/ DecodeLabel h = DYNAMIC_LABEL).

Lemma apart_ext X s phi s' phi' news p :
  ext X s phi s' phi' news -> is_Some (gc_mem s !! p) -> apart phi p -> apart phi' p.
Proof.
  intros Hext [b Hb] [Hn Hc]. split; [done |]. intros p0 [Hp | [n Hin]]%(ext_cover Hext); [by eapply Hc |].
  destruct (ext_new Hext Hin). congruence.
Qed.

Lemma settled_int phi a x : IsInt a = true -> settled O gen root phi a x -> x = a.
Proof.
  intros Ha (d & Hd & _ & Hr).
  assert (Hda : deref_to O a a).
  { exists 0%nat. apply derefs_word. rewrite IsInt_odd in Ha. intros E. apply Z.odd_spec in Ha as [k ->].
    clear -E. Z.div_mod_to_equations. lia. }
  rewrite (deref_to_fun _ _ _ _ Hd Hda) in Hr. unfold GCGraph.reloc in Hr. rewrite Ha in Hr. congruence.
Qed.

(** An old block before its arguments are visited. *)
Lemma old_progress s phi p h args : Inv s phi -> O !! p = Some (h, args) -> fromb p = false ->
  exists hp cur, gc_mem s !! p = Some (hp, cur) /\ hkey hp = hkey h /\ zlen cur = zlen args /\
    progress s phi p hp h args (scan_size h args) /\
    (forall a, aget args 0 = Some a -> IsInt a = true -> aget cur 0 = Some a).
Proof.
  intros HI HO Hf. destruct (inv_old HI HO Hf) as (hp & cur & Hm & Hk & Hz & Ha).
  destruct (fromb_old O_ok gen_ok HO Hf) as (Hg2 & _). exists hp, cur. split_and!; try done.
  - exists cur. split_and!; try done. intros j a Hj. destruct (Ha j a Hj) as (x & Hx & Hcase). exists x. split; [done |].
    destruct (Z.ltb_spec j (scan_size h args)).
    + destruct Hcase as [-> | [_ Hs]]; [by left | by right].
    + destruct Hcase as [-> | [? _]]; [done | lia].
  - intros a Ha0 Hint. destruct (Ha 0 a Ha0) as (x & Hx & [-> | [_ Hs]]); [done |]. by rewrite (settled_int _ _ _ Hint Hs) in Hx.
Qed.

Lemma intgen_entry_from s phi q hI i e rest kept h args :
  Inv s phi -> is_Some (phi !! root) -> set_prog s q hI i (e :: rest) kept ->
  IsInt e = false -> O !! RemoveTag e = Some (h, args) -> fromb (RemoveTag e) = true ->
  intgen_entry undef malloc s q (pred gen) e = Some s.
Proof.
  intros HI Hroot Hset He HO Hf. unfold intgen_entry. rewrite He.
  destruct (phi !! RemoveTag e) as [r |] eqn:Hphi.
  - destruct (inv_copy HI Hphi) as (h0 & args0 & h' & args' & HO0 & _ & _ & Hm & Hr & -> & _).
    rewrite HO in HO0. injection HO0 as <- <-. pose proof (O_ok _ _ _ HO) as Hb.
    erewrite Header_Some by exact Hm. simpl. rewrite moved_header by (by eapply inv_aligned).
    unfold GetForwardPtr. erewrite Header_Some by exact Hr. simpl. erewrite SetHeader_Some by exact Hr.
    destruct (copy_header_spec gen h gen_ok) as (_ & _ & _ & _ & _ & Hc); [rewrite (bo_size Hb); apply (bo_size_ok Hb) |].
    rewrite (ClearChildish_id _ Hc), insert_id by done. by rewrite with_mem_self.
  - pose proof (inv_from HI HO Hf Hphi) as Hm. erewrite Header_Some by exact Hm. simpl.
    rewrite (bo_unmoved (O_ok _ _ _ HO)).
    unfold GCGraph.fromb in Hf. rewrite HO in Hf. simpl in Hf. apply orb_true_iff in Hf as [Hlt%Z.ltb_lt | Er%Z.eqb_eq].
    + destruct (Z.ltb_spec (Z.of_nat (pred gen)) (DecodeGeneration h)); [lia | done].
    + rewrite <- Er, Hphi in Hroot. by destruct Hroot.
Qed.

Definition entry_done s s' phi' e kept kept' : Prop :=
  (fromb (RemoveTag e) = true /\ kept' = kept) \/
  (fromb (RemoveTag e) = false /\ exists h args hp hp', O !! RemoveTag e = Some (h, args) /\
     Header s (RemoveTag e) = Some hp /\ progress s' phi' (RemoveTag e) hp' h args 0 /\
     ((kept' = kept ++ [e] /\ hp' = hp) \/ (kept' = kept /\ no_young h args 0 /\ IsChildish hp' = false))).

Lemma intgen_entry_old s phi q hI i e rest kept h args :
  Inv s phi -> is_Some (phi !! root) -> apart phi q -> set_prog s q hI i (e :: rest) kept ->
  IsInt e = false -> O !! RemoveTag e = Some (h, args) -> DecodeLabel h < CHUNK_LABEL \/ DecodeLabel h = DYNAMIC_LABEL ->
  fromb (RemoveTag e) = false ->
  exists s' phi' news kept', intgen_entry undef malloc s q (pred gen) e = Some s' /\ Inv s' phi' /\
    ext (fun r => r = q \/ r = RemoveTag e) s phi s' phi' news /\ set_prog s' q hI (i + 1) rest kept' /\
    entry_done s s' phi' e kept kept'.
Proof.
  intros HI Hroot Hap Hset He HO Hlab Hf. pose proof (O_ok _ _ _ HO) as Hb. set (p := RemoveTag e) in *.
  destruct (old_progress _ _ _ _ _ HI HO Hf) as (hp & cur & Hm & Hk & Hz & Hpr & H0).
  destruct (fromb_old O_ok gen_ok HO Hf) as (Hg2 & Hge & _). pose proof (scan_size_range _ _ _ Hb) as Hss.
  destruct (hkey_decode Hk) as (El & Es & _ & Eg & Emv).
  assert (Hpq : p <> q) by (intros ->; destruct Hap; congruence).
  assert (Hfq : fromb q = false) by (apply fromb_out, Hap).
  destruct (intgen_args_ok s phi p hp h args (Z.to_nat (scan_size h args)) false HI Hroot HO Hf ltac:(lia))
    as (young & s1 & phi1 & news & E & HI1 & Hext & Hpr1 & Hy); [by rewrite Z2Nat.id by lia |..].
  { intros _ j a d Hj. lia. }
  assert (Hsize : (if DecodeLabel hp =? DYNAMIC_LABEL then GetScanSize s p else Some (DecodeSize hp)) = Some (scan_size h args)).
  { rewrite El, Es, (bo_size Hb). unfold scan_size.
    destruct Hlab as [Hlt | Hd]; [destruct (Z.eqb_spec (DecodeLabel h) DYNAMIC_LABEL) as [Hd |] |].
    - exfalso. rewrite Hd in Hlt. by vm_compute in Hlt.
    - destruct (Z.ltb_spec (DecodeLabel h) CHUNK_LABEL); [done | lia].
    - rewrite Hd, Z.eqb_refl. destruct (bo_dynamic Hb Hd) as (w & Hw & Hint & _).
      unfold GetScanSize, GetActiveSize. erewrite GetArg_Some by exact Hm. rewrite (H0 _ Hw Hint), Hw. simpl. by rewrite Hint. }
  assert (Hs1 : set_prog s1 q hI i (e :: rest) kept).
  { destruct Hset as (qa & Hq & Hrest). exists qa. split; [| done]. by apply (ext_frame Hext). }
  assert (Hgo : (if young then Set_AddUnchecked s1 q e else h ← Header s1 p; SetHeader s1 p (ClearChildishFlag h)) =
    intgen_entry undef malloc s q (pred gen) e).
  { unfold intgen_entry. rewrite He. fold p. rewrite (Header_Some s p _ _ Hm). simpl. rewrite Emv, (bo_unmoved Hb), Eg.
    destruct (Z.ltb_spec (Z.of_nat (pred gen)) (DecodeGeneration h)); [| lia]. rewrite Hsize. simpl. by rewrite E. }
  rewrite <- Hgo. pose proof Hpr1 as (cur1 & Hm1 & Hz1 & Hc1).
  assert (Hext' : forall s2 b, gc_mem s1 !! (if young then q else p) = Some b ->
    forall b', s2 = with_mem s1 (<[(if young then q else p) := b']> (gc_mem s1)) ->
    ext (fun r => r = q \/ r = p) s phi s2 phi1 news).
  { intros s2 b Hb1 b' ->. rewrite <- (app_nil_r news). eapply (ext_trans gen_ok); [| exact HI1 | |].
    - intros r [-> | ->]; [destruct Hset as (? & -> & _) | rewrite Hm]; done.
    - eapply ext_weaken; [| exact Hext]. intros r <-. by right.
    - eapply ext_weaken; [| by eapply ext_write]. intros r <-. destruct young; tauto. }
  destruct young.
  - destruct (set_add_unchecked s1 q hI i e e rest kept Hs1) as (qa & qa' & Hqa & Hqz & -> & Hs2).
    eexists _, phi1, news, (kept ++ [e]). split; [done |]. split; [| split; [by eapply Hext' | split; [done |]]].
    + eapply inv_write; [done | done | exact Hqa | done | done | done |]. intros h1 args1 j a HOq. destruct Hap. congruence.
    + right. split; [done |]. exists h, args, hp, hp. split_and!; [done | by erewrite Header_Some by exact Hm | | by left].
      exists cur1. simpl. by rewrite lookup_insert_ne.
  - erewrite Header_Some by exact Hm1. simpl. erewrite SetHeader_Some by exact Hm1.
    eexists _, phi1, news, kept. split; [done |]. split; [| split; [by eapply Hext' | split]].
    + eapply inv_write; [done | done | exact Hm1 | apply ClearChildish_hkey | congruence | done |].
      intros h1 args1 j a HO1 Hj. fold p in HO1. rewrite HO in HO1. injection HO1 as <- <-.
      destruct (Hc1 j a Hj) as (x & Hx & Hs). exists x. split; [done |]. pose proof (aget_Some_lt _ _ _ Hj).
      destruct (Z.ltb_spec j 0); [lia |]. destruct (Z.ltb_spec j (scan_size h args)); [by right | by left].
    + apply set_skip in Hs1. eapply set_frame; [| exact Hs1]. simpl. by rewrite lookup_insert_ne.
    + right. split; [done |]. exists h, args, hp, (ClearChildishFlag hp).
      split_and!; [done | by erewrite Header_Some by exact Hm | | right; split_and!; [done | by apply Hy | apply childish_flags]].
      exists cur1. simpl. by rewrite lookup_insert_eq.
Qed.

Lemma intgen_entry_ok s phi q hI i e rest kept :
  Inv s phi -> is_Some (phi !! root) -> apart phi q -> set_prog s q hI i (e :: rest) kept -> entry_ok e ->
  exists s' phi' news kept', intgen_entry undef malloc s q (pred gen) e = Some s' /\ Inv s' phi' /\
    ext (fun r => r = q \/ r = RemoveTag e) s phi s' phi' news /\ set_prog s' q hI (i + 1) rest kept' /\
    entry_done s s' phi' e kept kept'.
Proof.
  intros HI Hroot Hap Hset (He & h & args & HO & Hlab). destruct (fromb (RemoveTag e)) eqn:Hf.
  - exists s, phi, [], kept. split; [by eapply intgen_entry_from |]. split; [done |].
    split; [by apply ext_refl |]. split; [by eapply set_skip |]. by left.
  - by eapply intgen_entry_old.
Qed.

(** ** The loop *)

(** What the loop leaves of a recorded block that is still old: its arguments
    are relocated, and it is among [more] with its header as it was, or has no
    pointer to a younger generation and is no longer marked. *)
Definition old_done s s' phi' e (more : list Z) : Prop :=
  exists h args hp hp', O !! RemoveTag e = Some (h, args) /\ Header s (RemoveTag e) = Some hp /\
    progress s' phi' (RemoveTag e) hp' h args 0 /\
    ((e ∈ more /\ hp' = hp) \/ (e ∉ more /\ no_young h args 0 /\ IsChildish hp' = false)).

Lemma intgen_entries_ok es s phi q hI i kept :
  Inv s phi -> is_Some (phi !! root) -> apart phi q -> set_prog s q hI i es kept ->
  Forall entry_ok es -> NoDup (RemoveTag <$> es) ->
  exists s' phi' news more, intgen_entries undef malloc s q (pred gen) i (length es) = Some s' /\ Inv s' phi' /\
    ext (fun r => r = q \/ r ∈ RemoveTag <$> es) s phi s' phi' news /\ set_prog s' q hI (i + zlen es) [] (kept ++ more) /\
    sublist more es /\ Forall (fun e => fromb (RemoveTag e) = false) more /\
    (forall e, e ∈ es -> fromb (RemoveTag e) = false -> old_done s s' phi' e more).
Proof.
  revert s phi i kept. induction es as [| e es IH]; intros s phi i kept HI Hroot Hap Hset Hok Hnd.
  { exists s, phi, [], []. rewrite app_nil_r. unfold zlen. simpl. rewrite Z.add_0_r.
    split_and!; try done; [by apply ext_refl | by intros e ?%not_elem_of_nil]. }
  apply Forall_cons in Hok as [He Hok]. rewrite fmap_cons in Hnd. apply NoDup_cons in Hnd as [Hnew Hnd].
  destruct (intgen_entry_ok s phi q hI i e es kept HI Hroot Hap Hset He)
    as (s1 & phi1 & news1 & kept1 & E1 & HI1 & Hext1 & Hset1 & Hdone1).
  assert (Hq : is_Some (gc_mem s !! q)) by (destruct Hset as (? & -> & _); done).
  destruct (IH s1 phi1 (i + 1) kept1 HI1 (lookup_weaken_is_Some _ _ _ Hroot (ext_phi Hext1))
              (apart_ext _ _ _ _ _ _ _ Hext1 Hq Hap) Hset1 Hok Hnd)
    as (s2 & phi2 & news2 & more & E2 & HI2 & Hext2 & Hset2 & Hsub & Hold & Hdone2).
  assert (Hpq : RemoveTag e <> q).
  { destruct He as (_ & h & args & HO & _). intros Eq. rewrite Eq in HO. destruct Hap. congruence. }
  assert (Hmem : forall e', e' ∈ e :: es -> is_Some (gc_mem s !! RemoveTag e')).
  { intros e' [-> | Hin]%elem_of_cons; [| rewrite Forall_forall in Hok; destruct (Hok _ Hin) as (_ & h & args & HO & _);
      by eapply inv_in_mem]. destruct He as (_ & h & args & HO & _). by eapply inv_in_mem. }
  set (more' := if decide (kept1 = kept) then more else e :: more).
  assert (Hmore : kept1 ++ more = kept ++ more' /\ sublist more' (e :: es) /\ Forall (fun e => fromb (RemoveTag e) = false) more' /\
            (fromb (RemoveTag e) = false -> old_done s s2 phi2 e more')).
  { assert (Hnin : e ∉ more).
    { intros Hin. apply Hnew, list_elem_of_fmap. exists e. split; [done |]. by eapply elem_of_sublist. }
    subst more'. destruct Hdone1 as [[Hfe ->] | (Hfe & h & args & hp & hp' & HO & Hhp & Hpr & Hcase)].
    - rewrite decide_True by done. split_and!; [done | by apply sublist_cons | done | congruence].
    - assert (Hpr2 : progress s2 phi2 (RemoveTag e) hp' h args 0).
      { eapply progress_ext; [exact Hext2 | done | | exact Hpr]. intros [| Hin]; done. }
      destruct Hcase as [[-> ->] | (-> & Hny & Hch)].
      + assert (Hne : kept ++ [e] <> kept) by (intros Eq%(f_equal length); rewrite length_app in Eq; simpl in Eq; lia).
        rewrite decide_False by done. split_and!; [by rewrite <- app_assoc | by apply sublist_skip | by constructor |].
        intros _. exists h, args, hp, hp. split_and!; try done. left. split; [by left | done].
      + rewrite decide_True by done. split_and!; [done | by apply sublist_cons | done |].
        intros _. exists h, args, hp, hp'. split_and!; try done. by right. }
  destruct Hmore as (Hk & Hsub' & Hold' & He').
  exists s2, phi2, (news1 ++ news2), more'. split_and!; try done.
  - simpl. erewrite set_get by exact Hset. simpl. by rewrite E1.
  - eapply (ext_trans gen_ok); [| exact HI1 | eapply ext_weaken; [| exact Hext1] | eapply ext_weaken; [| exact Hext2]].
    + intros r [-> | (e' & -> & Hin)%list_elem_of_fmap]; [done | by apply Hmem].
    + intros r [-> | ->]; [by left | right; by left].
    + intros r [-> | Hin]; [by left | right; by right].
  - rewrite <- Hk. unfold zlen in *. simpl. replace (i + Z.of_nat (S (length es))) with (i + 1 + Z.of_nat (length es)) by lia. done.
  - intros e' [-> | Hin]%elem_of_cons Hf; [by apply He' |].
    destruct (Hdone2 _ Hin Hf) as (h & args & hp & hp' & HO & Hhp & Hpr & Hcase).
    assert (Hne : RemoveTag e' <> RemoveTag e).
    { intros Eq. apply Hnew, list_elem_of_fmap. by exists e'. }
    assert (Hne' : RemoveTag e' <> q).
    { intros Eq. rewrite Eq in HO. destruct Hap. congruence. }
    destruct (Hmem e') as [b Hb]; [by right |]. exists h, args, hp, hp'. split_and!; try done.
    + unfold Header in *. assert (Hb1 : gc_mem s1 !! RemoveTag e' = Some b) by (apply (ext_frame Hext1); [done | tauto | done]).
      by rewrite Hb1 in Hhp; rewrite Hb.
    + assert (Hmm : e' ∈ more' <-> e' ∈ more).
      { subst more'. destruct (decide _); [done |]. rewrite elem_of_cons. split; [intros [-> |]; done | by right]. }
      rewrite Hmm. done.
Qed.

Lemma HandleInterGenerationalPointers_ok s phi hI es :
  Inv s phi -> is_Some (phi !! root) -> apart phi (gc_intgen s) -> set_at s (gc_intgen s) hI es ->
  Forall entry_ok es -> NoDup (RemoveTag <$> es) ->
  exists s' phi' news more, HandleInterGenerationalPointers undef malloc s (pred gen) = Some s' /\ Inv s' phi' /\
    ext (fun r => r = gc_intgen s \/ r ∈ RemoveTag <$> es) s phi s' phi' news /\ set_at s' (gc_intgen s) hI more /\
    sublist more es /\ Forall (fun e => fromb (RemoveTag e) = false) more /\
    (forall e, e ∈ es -> fromb (RemoveTag e) = false -> old_done s s' phi' e more).
Proof.
  intros HI Hroot Hap Hset Hok Hnd. pose proof (set_active _ _ _ _ _ _ Hset) as Hact.
  destruct (set_clear _ _ _ _ Hset) as (args & args' & Hm & Hz & Hclear & Hset1). set (q := gc_intgen s) in *.
  assert (HI1 : Inv (with_mem s (<[q := (hI, args')]> (gc_mem s))) phi).
  { eapply inv_write; [done | apply fromb_out, Hap | exact Hm | done | done | done |]. intros h a j b HO. destruct Hap. congruence. }
  destruct (intgen_entries_ok es _ phi q hI 0 [] HI1 Hroot Hap Hset1 Hok Hnd)
    as (s2 & phi2 & news & more & E & HI2 & Hext & Hset2 & Hsub & Hold & Hdone).
  exists s2, phi2, news, more. unfold HandleInterGenerationalPointers. fold q. rewrite Hact. simpl. rewrite Hclear. simpl.
  replace (Z.to_nat (zlen es)) with (length es) by (unfold zlen; lia). split_and!; try done.
  - change news with ([] ++ news). eapply (ext_trans gen_ok); [| exact HI1 | | exact Hext].
    + intros r [-> | (e & -> & Hin)%list_elem_of_fmap]; [by rewrite Hm |].
      rewrite Forall_forall in Hok. destruct (Hok _ Hin) as (_ & h & a & HO & _). by eapply inv_in_mem.
    + eapply ext_weaken; [| by eapply ext_write]. intros r <-. by left.
  - eapply set_prog_at. exact Hset2.
  - intros e Hin Hf. destruct (Hdone e Hin Hf) as (h & a & hp & hp' & HO & Hhp & Hrest).
    exists h, a, hp, hp'. split; [done |]. split; [| done]. unfold Header in *. simpl in Hhp.
    rewrite lookup_insert_ne in Hhp; [done |]. intros Eq. destruct Hap. congruence.
Qed.

End Intgen.
