(* ===== verification/GCCollect.v ===== *)
(** * One collection

    [Store::GC]: cloning the root, scanning, the recorded blocks, scanning
    again.  Without weak dictionaries and hash tables with address keys the
    collection ends, every copy and every recorded old block has its arguments
    relocated, and nothing else is written. *)

From S2P Require Import Prelude Config HeaderOp PointerOp Heap GC GCMem GCGraph GCForward GCScan GCSet GCIntgen.

Section Collect.
Context `{Platform} (undef : Z) (malloc : list (Z * Z) -> Z -> Z) (malloc_ok : malloc_fresh malloc).
Context (O : gmap Z (Z * list Z)) (O_ok : graph_ok O) (gen : nat) (gen_ok : (gen < 4)%nat) (gen_pos : (0 < gen)%nat) (root : Z).
Implicit Types (phi : gmap Z Z) (s : GC) (p q w d e : Z) (news pend : list (Z * Z)) (es : list Z).

#[local] Abbreviation fromb := (fromb O gen root).
#[local] Abbreviation Inv := (Inv O gen root).
#[local] Abbreviation ext := (ext O gen root).
#[local] Abbreviation progress := (progress O gen root).

(** The state a collection starts in: the sets, and the recorded blocks [es]. *)
Record ready s (hI hW : Z) es : Prop := {
  rd_mem : mem_ok s;
  rd_graph : O ⊆ gc_mem s;
  rd_intgen : set_at s (gc_intgen s) hI es;
  rd_wkdict : set_at s (gc_wkdict s) hW [];
  rd_out : O !! gc_intgen s = None /\ O !! gc_wkdict s = None;
  rd_distinct : gc_intgen s <> gc_wkdict s;
  rd_maps : gc_mapLs s = NULL_NODE;
  rd_entries : Forall (entry_ok O) es;
  rd_nodup : NoDup (RemoveTag <$> es)
}.

Lemma ready_Inv s hI hW es : ready s hI hW es -> Inv s ∅.
Proof.
  intros Hr. constructor; [apply (rd_mem _ _ _ _ Hr) | | | | |]; try (intros p; by rewrite lookup_empty).
  - intros p h args HO _. exists h, args. split; [eapply lookup_weaken; [exact HO | apply (rd_graph _ _ _ _ Hr)] |].
    split_and!; try done. intros i a Ha. exists a. split; [done | by left].
  - intros p b HO _ _. eapply lookup_weaken; [exact HO | apply (rd_graph _ _ _ _ Hr)].
Qed.

Lemma progress_evolves X s phi s' phi' p hp h args i :
  evolves O gen root X s phi s' phi' -> fromb p = false -> ~ X p -> progress s phi p hp h args i -> progress s' phi' p hp h args i.
Proof.
  intros Hev Hf Hx (cur & Hm & Hz & Ha). exists cur. split; [by apply (ev_frame Hev) |].
  split; [done |]. intros j a Hj. destruct (Ha j a Hj) as (x & Hx' & Hs). exists x. split; [done |].
  pose proof (ev_phi Hev) as Hp. destruct (j <? i); [by eapply slot_mono |].
  destruct (j <? scan_size h args); [by eapply settled_mono | done].
Qed.

(** The blocks the collection may write to: the remembered set and the recorded blocks. *)
Definition touched s es (r : Z) : Prop := r = gc_intgen s \/ r ∈ RemoveTag <$> es.

(** An old recorded block afterwards. *)
Definition old_settled s' phi e (more : list Z) : Prop :=
  exists h args hp, O !! RemoveTag e = Some (h, args) /\ progress s' phi (RemoveTag e) hp h args 0 /\
    ((e ∈ more /\ hp = h) \/ ((e ∉ more) /\ no_young O gen root h args 0 /\ IsChildish hp = false /\ hkey hp = hkey h)).

(** The copying of the root, up to the first scan. *)
Lemma collect_root s hI hW es fuel hr ar :
  ready s hI hW es -> O !! root = Some (hr, ar) -> DecodeLabel hr <> REF_LABEL -> (2 * size O + 1 <= fuel)%nat ->
  exists k scan q s1 s2 phi2, scan_start s gen = Some (k, scan) /\ CloneBlock undef malloc s root gen = Some (q, s1) /\
    CheneyScan undef malloc fuel s1 gen k scan = Some s2 /\ phi2 !! root = Some q /\ Inv s2 phi2 /\
    evolves O gen root nothing s ∅ s2 phi2 /\ cheney O gen root s2 phi2 [].
Proof.
  intros Hr HO Hl Hfuel. pose proof (ready_Inv _ _ _ _ Hr) as HI. pose proof (bo_unmoved (O_ok _ _ _ HO)).
  destruct (scan_start_ok s gen (rd_mem _ _ _ _ Hr) gen_ok) as (k & scan & Ess & Hlaid & Hn).
  assert (Hf : fromb root = true) by (unfold GCGraph.fromb; rewrite HO, Z.eqb_refl; apply orb_true_r).
  destruct (clone_step undef malloc malloc_ok O O_ok gen gen_ok root s ∅ root hr ar HI HO Hf Hl (reach_root _ _ _) (lookup_empty _))
    as (q & s1 & E1 & HI1 & Hext1).
  assert (Hc0 : cheney O gen root s ∅ []).
  { constructor; [constructor | by intros ? ? ?%not_elem_of_nil | by intros p r; rewrite lookup_empty]. }
  assert (Hc1 : cheney O gen root s1 (<[root := q]> ∅) [(q, zlen ar)]).
  { change [(q, zlen ar)] with ([] ++ [(q, zlen ar)]). eapply cheney_ext; [exact HI | exact Hc0 | exact Hext1 |].
    intros p r; by rewrite lookup_empty. }
  pose proof (ext_laid Hext1 Hlaid) as Hl1. pose proof (ext_chunks Hext1) as Hch. simpl in Hl1, Hch.
  assert (Hsz : size (<[root := q]> (∅ : gmap Z Z)) = 1%nat) by (rewrite map_size_insert_None by done; by rewrite map_size_empty).
  assert (HsO : (1 <= size O)%nat) by (rewrite <- Hsz; by eapply inv_size).
  destruct (scan_loop_ok undef malloc malloc_ok O O_ok gen gen_ok root fuel s1 _ k scan _ HI1
    ltac:(by rewrite lookup_insert_eq) Hl1 Hc1) as (s2 & phi2 & E2 & HI2 & Hev2 & Hc2); [rewrite Hsz; simpl; lia |].
  exists k, scan, q, s1, s2, phi2. split_and!; try done.
  - eapply lookup_weaken; [| apply (ev_phi Hev2)]. by rewrite lookup_insert_eq.
  - eapply evolves_trans; [by eapply ext_evolves | exact Hev2 |].
    intros r [n [= -> ->]%list_elem_of_singleton] Hs. destruct (ext_new Hext1 (q := q) (n := zlen ar)) as [Hq _]; [by left |].
    rewrite Hq in Hs. by destruct Hs.
Qed.

(** The recorded blocks and the second scan. *)
Lemma collect_intgen s1 phi1 hI es fuel :
  Inv s1 phi1 -> is_Some (phi1 !! root) -> cheney O gen root s1 phi1 [] ->
  set_at s1 (gc_intgen s1) hI es -> apart O phi1 (gc_intgen s1) -> Forall (entry_ok O) es -> NoDup (RemoveTag <$> es) ->
  (2 * size O + 1 <= fuel)%nat ->
  exists k scan s2 s3 phi3 more, scan_start s1 gen = Some (k, scan) /\
    HandleInterGenerationalPointers undef malloc s1 (pred gen) = Some s2 /\
    CheneyScan undef malloc fuel s2 gen k scan = Some s3 /\ Inv s3 phi3 /\ cheney O gen root s3 phi3 [] /\
    evolves O gen root (touched s1 es) s1 phi1 s3 phi3 /\ set_at s3 (gc_intgen s1) hI more /\ sublist more es /\
    Forall (fun e => fromb (RemoveTag e) = false) more /\
    (forall e, e ∈ es -> fromb (RemoveTag e) = false -> old_done O gen root s1 s3 phi3 e more).
Proof.
  intros HI Hroot Hc Hset Hap Hok Hnd Hfuel.
  destruct (scan_start_ok s1 gen (inv_mem HI) gen_ok) as (k & scan & Ess & Hlaid & Hn).
  destruct (HandleInterGenerationalPointers_ok undef malloc malloc_ok O O_ok gen gen_ok gen_pos root s1 phi1 hI es HI Hroot Hap Hset Hok Hnd)
    as (s2 & phi2 & news & more & E2 & HI2 & Hext & Hset2 & Hsub & Hold & Hdone).
  assert (Hout : forall p q, phi1 !! p = Some q -> ~ (q = gc_intgen s1 \/ q ∈ RemoveTag <$> es)).
  { intros p q Hp [-> | (e & -> & Hin)%list_elem_of_fmap]; [by eapply Hap |].
    rewrite Forall_forall in Hok. destruct (Hok _ Hin) as (_ & h & a & HO & _).
    destruct (inv_copy HI Hp) as (? & ? & ? & ? & _ & _ & _ & _ & _ & _ & _ & Hx & _). congruence. }
  pose proof (cheney_ext O gen root _ _ _ _ _ _ _ HI Hc Hext Hout) as Hc2. simpl in Hc2.
  pose proof (ext_laid Hext Hlaid) as Hl2. simpl in Hl2.
  pose proof (ext_chunks Hext) as Hch. pose proof (ext_size Hext) as Hsz. pose proof (inv_size _ _ _ _ _ HI2) as HsO.
  destruct (scan_loop_ok undef malloc malloc_ok O O_ok gen gen_ok root fuel s2 phi2 k scan news HI2
    (lookup_weaken_is_Some _ _ _ Hroot (ext_phi Hext)) Hl2 Hc2) as (s3 & phi3 & E3 & HI3 & Hev & Hc3); [lia |].
  assert (Hnews : forall r, (exists n, (r, n) ∈ news) -> gc_mem s1 !! r = None) by (intros r [n Hin]; by destruct (ext_new Hext Hin)).
  exists k, scan, s2, s3, phi3, more. split_and!; try done.
  - eapply evolves_trans; [by eapply ext_evolves | exact Hev |]. intros r Hr%Hnews [b Hb]. congruence.
  - destruct Hset2 as (qa & Hq & Hrest). exists qa. split; [| done]. apply (ev_frame Hev); [apply fromb_out, Hap | | done].
    intros Hr%Hnews. destruct Hset as (? & Hq1 & _). congruence.
  - intros e Hin Hf. destruct (Hdone e Hin Hf) as (h & args & hp & hp' & HO & Hhp & Hpr & Hcase).
    exists h, args, hp, hp'. split_and!; try done. eapply progress_evolves; [exact Hev | done | | done].
    intros Hr%Hnews. unfold Header in Hhp. by rewrite Hr in Hhp.
Qed.

Lemma rehash_none s fuel : gc_mapLs s = NULL_NODE -> RehashAll undef malloc fuel s gen = Some s.
Proof.
  intros E. unfold RehashAll. rewrite E. destruct fuel; simpl; unfold with_mapLs; rewrite <- E; by destruct s.
Qed.

Theorem collect_ok s hI hW es fuel hr ar :
  ready s hI hW es -> 0 <= root < 2 ^ STORE_WORD_WIDTH ->
  O !! root = Some (hr, ar) -> DecodeLabel hr <> REF_LABEL -> (2 * size O + 1 <= fuel)%nat ->
  exists q s' phi more, collect undef malloc fuel s root gen = Some (q, s') /\ phi !! root = Some q /\ Inv s' phi /\
    evolves O gen root (touched s es) s ∅ s' phi /\ cheney O gen root s' phi [] /\
    set_at s' (gc_intgen s) hI more /\ sublist more es /\ Forall (fun e => fromb (RemoveTag e) = false) more /\
    (forall e, e ∈ es -> fromb (RemoveTag e) = false -> old_settled s' phi e more).
Proof.
  intros Hr Hrange HO Hl Hfuel. pose proof (ready_Inv _ _ _ _ Hr) as HI0. destruct (rd_out _ _ _ _ Hr) as [HoI HoW].
  destruct (collect_root s hI hW es fuel hr ar Hr HO Hl Hfuel)
    as (k & scan & q & s1 & s2 & phi2 & Ess & E1 & E2 & Hq & HI2 & Hev2 & Hc2).
  pose proof (ev_sets Hev2) as (Hs1 & Hs2 & Hs3 & Hs4).
  assert (Hkeep : forall r h rest, set_at s r h rest -> O !! r = None -> gc_mem s2 !! r = gc_mem s !! r).
  { intros r h rest (a & Ha & _) Hn. rewrite Ha. apply (ev_frame Hev2); [by apply fromb_out | by intros [] | done]. }
  assert (Hset2 : set_at s2 (gc_intgen s2) hI es).
  { rewrite Hs1. eapply set_frame; [by eapply Hkeep, HoI; apply (rd_intgen _ _ _ _ Hr) | apply (rd_intgen _ _ _ _ Hr)]. }
  assert (Hap : apart O phi2 (gc_intgen s2)).
  { rewrite Hs1. split; [done |]. intros p [Hp | Hn]%(ev_fresh Hev2); [by rewrite lookup_empty in Hp |].
    destruct (rd_intgen _ _ _ _ Hr) as (a & Ha & _). congruence. }
  destruct (collect_intgen s2 phi2 hI es fuel HI2 ltac:(by rewrite Hq) Hc2 Hset2 Hap (rd_entries _ _ _ _ Hr) (rd_nodup _ _ _ _ Hr) Hfuel)
    as (k3 & scan3 & s3 & s4 & phi4 & more & Ess3 & E3 & E4 & HI4 & Hc4 & Hev4 & Hset4 & Hsub & Hold & Hdone).
  assert (Hev : evolves O gen root (touched s es) s ∅ s4 phi4).
  { eapply evolves_trans; [eapply evolves_weaken; [| exact Hev2]; by intros r [] | exact Hev4 |].
    intros r Hx _. unfold touched in *. by rewrite Hs1 in Hx. }
  pose proof (ev_sets Hev4) as (_ & Hs6 & _ & Hs8).
  assert (HW4 : set_at s4 (gc_wkdict s4) hW []).
  { rewrite Hs6, Hs2. eapply set_frame; [| apply (rd_wkdict _ _ _ _ Hr)].
    destruct (rd_wkdict _ _ _ _ Hr) as (a & Ha & _). rewrite Ha. apply (ev_frame Hev); [by apply fromb_out | | done].
    intros [Eq | (e & Eq & Hin)%list_elem_of_fmap]; [by apply (rd_distinct _ _ _ _ Hr) |].
    pose proof (rd_entries _ _ _ _ Hr) as Hok. rewrite Forall_forall in Hok. destruct (Hok _ Hin) as (_ & h & b & HOe & _). congruence. }
  assert (Hmem : gc_mem s !! root = Some (hr, ar)) by (eapply lookup_weaken; [exact HO | apply (rd_graph _ _ _ _ Hr)]).
  pose proof (mem_aligned _ _ _ (rd_mem _ _ _ _ Hr) Hmem) as Hal.
  exists q, s4, phi4, more. split; [| split; [eapply lookup_weaken; [exact Hq | apply (ev_phi Hev4)] |]].
  { unfold collect, DirectWordToBlock. rewrite Ess. simpl. rewrite tag_mod, Hal. simpl.
    unfold DirectDecodeBlock, BLKTAG. rewrite Z.sub_0_r, u_int_id by done. rewrite E1. simpl. rewrite E2. simpl.
    rewrite Ess3. simpl. rewrite E3. simpl. rewrite E4. simpl. rewrite (set_active _ _ _ _ _ _ HW4). simpl.
    rewrite rehash_none by (rewrite Hs8, Hs4; apply (rd_maps _ _ _ _ Hr)). simpl. by rewrite EncodeBlock_id. }
  rewrite <- Hs1. split_and!; try done.
  intros e Hin Hf. destruct (Hdone e Hin Hf) as (h & args & hp & hp' & HOe & Hhp & Hpr & Hcase).
  assert (Hhp2 : hp = h).
  { assert (Hm2 : gc_mem s2 !! RemoveTag e = Some (h, args)).
    { apply (ev_frame Hev2); [done | by intros [] |]. eapply lookup_weaken; [exact HOe | apply (rd_graph _ _ _ _ Hr)]. }
    rewrite (Header_Some _ _ _ _ Hm2) in Hhp. congruence. }
  subst hp. exists h, args, hp'. split_and!; try done.
  destruct Hcase as [| (? & ? & ?)]; [by left | right]. split_and!; try done.
  destruct (inv_old HI4 HOe Hf) as (h' & a' & Hm & Hk & _). destruct Hpr as (cur & Hm' & _). congruence.
Qed.

End Collect.
