(* ===== verification/GCWf.v ===== *)
(** * What a collection computes

    The well-formed states of the store between collections, isomorphism of
    graphs up to dereferencing, and the facts about the state after a
    collection from which both follow for the graph that is left. *)

From S2P Require Import Prelude Config HeaderOp PointerOp Heap GC GCMem GCGraph GCForward GCScan GCSet GCIntgen GCCollect.

Section Wf.
Context `{Platform}.
Implicit Types (s : GC) (p q w d : Z) (O : gmap Z (Z * list Z)) (es : list Z).

(** ** Well-formed states *)

(** The ordinary blocks [O] of a state whose remembered set holds [es], with the
    words [fs] to finalize and no weak dictionary: each
    block lies in the generation of its header, the blocks marked as recorded
    are those of [es], and all others point to no younger generation. *)
Record gc_wf s O es (fs : list Z) : Prop := {
  gw_mem : mem_ok s;
  gw_graph : graph_ok O;
  gw_sub : O ⊆ gc_mem s;
  gw_place : forall p h args, O !! p = Some (h, args) -> in_gen s (Z.to_nat (DecodeGeneration h)) p;
  gw_intgen : exists h, set_at s (gc_intgen s) h es;
  gw_wkdict : exists h, set_at s (gc_wkdict s) h [];
  gw_fin : exists h, set_at s (gc_fin s) h fs;
  gw_distinct : NoDup [gc_intgen s; gc_wkdict s; gc_fin s];
  gw_sets : Forall (fun p => O !! p = None /\ in_gen s OLDEST p) [gc_intgen s; gc_wkdict s; gc_fin s];
  gw_maps : gc_mapLs s = NULL_NODE;
  gw_entries : Forall (entry_ok O) es;
  gw_nodup : NoDup (RemoveTag <$> es);
  gw_marked : forall p h args, O !! p = Some (h, args) -> IsChildish h = true <-> p ∈ RemoveTag <$> es;
  gw_barrier : forall p h args i a, O !! p = Some (h, args) -> p ∉ RemoveTag <$> es ->
    aget args i = Some a -> i < scan_size h args -> IsInt a = false ->
    exists h' args', O !! RemoveTag a = Some (h', args') /\ DecodeGeneration h <= DecodeGeneration h'
}.

(** The root block: no reference, and no block of the graph points to it. *)
Record root_ok O (root : Z) : Prop := {
  ro_word : 0 <= root < 2 ^ STORE_WORD_WIDTH;
  ro_block : exists h args, O !! root = Some (h, args) /\ DecodeLabel h <> REF_LABEL;
  ro_private : forall p h args i a, O !! p = Some (h, args) -> aget args i = Some a -> i < scan_size h args ->
    IsInt a = false -> RemoveTag a <> root
}.

(** ** Isomorphism *)

(** A dereferenced word under a renaming of addresses. *)
Definition rename (m : Z -> option Z) d : option Z :=
  if IsInt d then Some d else q ← m (RemoveTag d); Some (EncodeTag q (DecodeTag d)).

(** [m] maps blocks of [O] one-to-one onto the blocks of [O'], with the root,
    the labels, sizes and mutable flags, the arguments that are data, and the
    targets of the arguments that are words. *)
Record heap_iso O O' (m : Z -> option Z) root root' : Prop := {
  iso_root : m root = Some root';
  iso_inj : forall p p' q, m p = Some q -> m p' = Some q -> p = p';
  iso_onto : forall q b, O' !! q = Some b -> exists p, m p = Some q;
  iso_block : forall p q, m p = Some q -> exists h args h' args', O !! p = Some (h, args) /\ O' !! q = Some (h', args') /\
    DecodeLabel h' = DecodeLabel h /\ DecodeMutableFlag h' = DecodeMutableFlag h /\ zlen args' = zlen args /\
    scan_size h' args' = scan_size h args /\
    forall i a, aget args i = Some a -> exists a', aget args' i = Some a' /\
      if i <? scan_size h args then exists d d', deref_to O a d /\ deref_to O' a' d' /\ rename m d = Some d' else a' = a
}.

End Wf.

(** ** The state after a collection *)

Section Result.
Context `{Platform} (O : gmap Z (Z * list Z)) (O_ok : graph_ok O) (gen : nat) (gen_ok : (gen < 4)%nat) (root : Z).
Variables (s0 s : GC) (phi : gmap Z Z) (es more : list Z).
Hypothesis (s0_mem : mem_ok s0) (s0_sub : O ⊆ gc_mem s0).
Hypothesis (s_inv : Inv O gen root s phi) (s_ev : evolves O gen root (touched s0 es) s0 ∅ s phi).
Hypothesis (s_done : cheney O gen root s phi []).
Hypothesis (es_ok : Forall (entry_ok O) es) (es_nodup : NoDup (RemoveTag <$> es)) (set_out : O !! gc_intgen s0 = None).
Hypothesis (more_sub : sublist more es) (more_old : Forall (fun e => fromb O gen root (RemoveTag e) = false) more).
Hypothesis (old_ok : forall e, e ∈ es -> fromb O gen root (RemoveTag e) = false -> old_settled O gen root s phi e more).
Hypothesis (root_is : root_ok O root).
Hypothesis (marked : forall p h args, O !! p = Some (h, args) -> IsChildish h = true <-> p ∈ RemoveTag <$> es).
Hypothesis (barrier : forall p h args i a, O !! p = Some (h, args) -> p ∉ RemoveTag <$> es ->
    aget args i = Some a -> i < scan_size h args -> IsInt a = false ->
    exists h' args', O !! RemoveTag a = Some (h', args') /\ DecodeGeneration h <= DecodeGeneration h').
Implicit Types (p q w d : Z).

#[local] Abbreviation fromb := (fromb O gen root).

(** Where the blocks are: the old ones in place, the others at their copy. *)
Definition moved p : option Z :=
  match O !! p with Some _ => if fromb p then phi !! p else Some p | None => None end.

(** The graph that is left. *)
Definition result : gmap Z (Z * list Z) :=
  filter (fun b => (is_Some (O !! b.1) /\ fromb b.1 = false) \/ b.1 ∈ (map_to_list phi).*2) (gc_mem s).

Lemma result_lookup q b : result !! q = Some b <-> gc_mem s !! q = Some b /\ exists p, moved p = Some q.
Proof.
  unfold result. rewrite map_lookup_filter_Some. simpl. split; intros [Hq Hc]; (split; [done |]).
  - destruct Hc as [[[x Hx] Hf] | ([p q'] & -> & Hp%elem_of_map_to_list)%list_elem_of_fmap].
    + exists q. unfold moved. by rewrite Hx, Hf.
    + exists p. unfold moved. simpl. destruct (inv_copy s_inv Hp) as (h & args & ? & ? & -> & -> & _). done.
  - destruct Hc as [p Hm]. unfold moved in Hm. destruct (O !! p) eqn:HO; [| done]. destruct (fromb p) eqn:Hf.
    + right. apply list_elem_of_fmap. exists (p, q). split; [done |]. by apply elem_of_map_to_list.
    + injection Hm as <-. left. by rewrite HO.
Qed.

Lemma moved_cases p q : moved p = Some q ->
  (phi !! p = Some q /\ fromb p = true) \/ (q = p /\ fromb p = false /\ is_Some (O !! p)).
Proof. unfold moved. destruct (O !! p) eqn:E; [| done]. destruct (fromb p); intros Hq; [by left | right; by simplify_eq]. Qed.

Lemma moved_inj p p' q : moved p = Some q -> moved p' = Some q -> p = p'.
Proof.
  intros [[H1 _] | (-> & _ & [x Hx])]%moved_cases [[H2 _] | (Hq & _ & [y Hy])]%moved_cases.
  - by apply (inv_inj s_inv H1).
  - subst q. destruct (inv_copy s_inv H1) as (? & ? & ? & ? & _ & _ & _ & _ & _ & _ & _ & Hn & _). congruence.
  - destruct (inv_copy s_inv H2) as (? & ? & ? & ? & _ & _ & _ & _ & _ & _ & _ & Hn & _). congruence.
  - done.
Qed.

(** Relocation in terms of [moved]. *)
Lemma retag_id d : EncodeTag (RemoveTag d) (DecodeTag d) = d.
Proof.
  unfold EncodeTag, DecodeTag. rewrite tag_mod, RemoveTag_mod. pose proof (Z.mod_pos_bound d 4 ltac:(lia)).
  rewrite (lor_low _ _ 2); [lia | lia | | done]. change (2 ^ 2) with 4. Z.div_mod_to_equations; lia.
Qed.

Lemma reloc_rename d : good O d -> reloc O gen root phi d = rename moved d.
Proof.
  unfold reloc, rename, moved. intros [-> | (h & args & -> & _)]; [done |]. destruct (IsInt d); [done |].
  destruct (fromb _); [done |]. simpl. by rewrite retag_id.
Qed.

(** ** The blocks *)

Definition recorded p : Prop := p ∈ RemoveTag <$> es.

Lemma more_marks p : p ∈ RemoveTag <$> more -> recorded p /\ fromb p = false.
Proof.
  intros (e & -> & He)%list_elem_of_fmap. split.
  - apply list_elem_of_fmap. exists e. split; [done |]. by eapply elem_of_sublist.
  - pose proof more_old as Hm. rewrite Forall_forall in Hm. by apply Hm.
Qed.

Lemma recorded_unique e e' : e ∈ es -> e' ∈ es -> RemoveTag e = RemoveTag e' -> e = e'.
Proof.
  intros [i Hi]%list_elem_of_lookup [j Hj]%list_elem_of_lookup E.
  assert (i = j) as ->; [| congruence]. eapply NoDup_lookup; [exact es_nodup | |]; rewrite list_lookup_fmap;
    [by rewrite Hi | by rewrite Hj, E].
Qed.

(** The block at [q] for the block [(h, args)] of the graph at [p]. *)
Definition left_block p q h args h' args' : Prop :=
  DecodeLabel h' = DecodeLabel h /\ DecodeSize h' = DecodeSize h /\ DecodeMutableFlag h' = DecodeMutableFlag h /\
  AlreadyMoved h' = false /\ DecodeGeneration h' = (if fromb p then hgen gen else DecodeGeneration h) /\
  (IsChildish h' = true <-> q ∈ RemoveTag <$> more) /\ zlen args' = zlen args /\
  forall i a, aget args i = Some a -> exists x, aget args' i = Some x /\
    if i <? scan_size h args
    then (fromb p = true \/ recorded p) /\ settled O gen root phi a x \/ (x = a /\ fromb p = false /\ ~ recorded p) else x = a.

Lemma copy_left p q h args : phi !! p = Some q -> O !! p = Some (h, args) ->
  exists h' args', gc_mem s !! q = Some (h', args') /\ left_block p q h args h' args'.
Proof.
  intros Hphi HO. pose proof (O_ok _ _ _ HO) as Hb.
  destruct (inv_copy s_inv Hphi) as (h0 & a0 & h' & args' & HO0 & Hf & _ & _ & Hm & Hh & Hz & Hout & _).
  rewrite HO in HO0. injection HO0 as <- <-. exists h', args'. split; [done |].
  destruct (ch_done s_done Hphi) as [[n Hn] | (p0 & h1 & a1 & hp & Hphi0 & HO1 & Hpr)]; [by apply not_elem_of_nil in Hn |].
  rewrite (inv_inj s_inv Hphi0 Hphi) in HO1. rewrite HO in HO1. injection HO1 as <- <-.
  destruct Hpr as (cur & Hm' & _ & Hcur). rewrite Hm in Hm'. injection Hm' as <- <-.
  destruct (copy_header_spec gen h gen_ok) as (Cl & Cs & Cm & Cg & Cv & Cc); [rewrite (bo_size Hb); apply (bo_size_ok Hb) |].
  subst h'. split_and!; try done; [by rewrite Hf | |].
  - rewrite Cc. split; [done |]. intros [(e & He & Hin)%list_elem_of_fmap _]%more_marks. exfalso.
    pose proof es_ok as Hes. rewrite Forall_forall in Hes. destruct (Hes _ Hin) as (_ & h1 & a1 & HO1 & _). congruence.
  - intros i a Ha. destruct (Hcur i a Ha) as (x & Hx & Hs). exists x. split; [done |].
    pose proof (aget_Some_lt _ _ _ Ha). destruct (Z.ltb_spec i 0); [lia |]. destruct (i <? scan_size h args); [left; auto | done].
Qed.

Lemma old_left p h args : O !! p = Some (h, args) -> fromb p = false ->
  exists h' args', gc_mem s !! p = Some (h', args') /\ left_block p p h args h' args'.
Proof.
  intros HO Hf. pose proof (O_ok _ _ _ HO) as Hb.
  destruct (decide (p ∈ RemoveTag <$> es)) as [Hin | Hin].
  - pose proof Hin as (e & -> & He)%list_elem_of_fmap. destruct (old_ok e He Hf) as (h0 & a0 & hp & HO0 & (cur & Hm & Hz & Hcur) & Hcase).
    rewrite HO in HO0. injection HO0 as <- <-. exists hp, cur. split; [done |].
    assert (Hk : hkey hp = hkey h) by (destruct Hcase as [(_ & ->) | (_ & _ & _ & ?)]; done).
    destruct (hkey_decode Hk) as (El & Es & Em & Eg & Ev). split_and!; try done; [by rewrite Ev; apply (bo_unmoved Hb) | by rewrite Hf | |].
    + destruct Hcase as [(Hmore & ->) | (Hmore & _ & Hch & _)].
      * rewrite (marked _ _ _ HO). split; [| done]. intros _. apply list_elem_of_fmap. by exists e.
      * rewrite Hch. split; [done |]. intros (e' & Ee & He')%list_elem_of_fmap. exfalso. apply Hmore.
        rewrite (recorded_unique e e'); [done | done | by eapply elem_of_sublist | done].
    + intros i a Ha. destruct (Hcur i a Ha) as (x & Hx & Hs). exists x. split; [done |].
      pose proof (aget_Some_lt _ _ _ Ha). destruct (Z.ltb_spec i 0); [lia |]. destruct (i <? scan_size h args); [left; auto | done].
  - exists h, args. split.
    { apply (ev_frame s_ev); [done | | by eapply lookup_weaken]. intros [-> | ?]; [congruence | done]. }
    split_and!; try done; [apply (bo_unmoved Hb) | by rewrite Hf | |].
    + rewrite (marked _ _ _ HO). split; [done |]. by intros [? _]%more_marks.
    + intros i a Ha. exists a. split; [done |]. destruct (i <? scan_size h args); [by right | done].
Qed.

Lemma moved_block p q : moved p = Some q ->
  exists h args h' args', O !! p = Some (h, args) /\ result !! q = Some (h', args') /\ left_block p q h args h' args'.
Proof.
  intros Hm. assert (Hr : forall b, gc_mem s !! q = Some b -> result !! q = Some b) by (intros b Hb; apply result_lookup; eauto).
  destruct (moved_cases _ _ Hm) as [[Hphi Hf] | (-> & Hf & [[h args] HO])].
  - destruct (inv_copy s_inv Hphi) as (h & args & _ & _ & HO & _).
    destruct (copy_left p q h args Hphi HO) as (h' & args' & Hb & Hl). exists h, args, h', args'. auto.
  - destruct (old_left p h args HO Hf) as (h' & args' & Hb & Hl). exists h, args, h', args'. auto.
Qed.

(** ** The words *)

Lemma word_target d x : good O d -> reloc O gen root phi d = Some x ->
  (IsInt d = true /\ x = d) \/
  (IsInt d = false /\ IsInt x = false /\ x mod 4 = d mod 4 /\ moved (RemoveTag d) = Some (RemoveTag x) /\
     exists hx ax, result !! RemoveTag x = Some (hx, ax) /\ DecodeLabel hx <> REF_LABEL /\
       DecodeGeneration hx = tgen O gen root d).
Proof.
  intros Hg Hr. pose proof Hr as Hr'. rewrite reloc_rename in Hr' by done. unfold rename in Hr'.
  destruct (IsInt d) eqn:Hd; [left; by simplify_eq | right]. split; [done |].
  destruct (moved (RemoveTag d)) as [q |] eqn:Hq; [| done]. injection Hr' as <-.
  destruct (moved_block _ _ Hq) as (h & args & h' & args' & HO & Hres & El & _ & _ & _ & Eg & _).
  assert (Hal : q mod 4 = 0) by (apply result_lookup in Hres as [Hb _]; eapply mem_aligned; [apply (inv_mem s_inv) | exact Hb]).
  destruct (retag q d Hal Hd) as (Hi & Ht & Hm). rewrite Ht. split_and!; try done. exists h', args'. split; [done |].
  destruct Hg as [| (h0 & a0 & HO0 & Hl)]; [congruence |]. rewrite HO in HO0. injection HO0 as <- <-.
  rewrite El, Eg. unfold tgen. by rewrite HO.
Qed.

Lemma int_not_transient d : IsInt d = true -> d mod 4 <> 2.
Proof. rewrite IsInt_odd. intros [k ->]%Z.odd_spec E. Z.div_mod_to_equations. lia. Qed.

Lemma target_derefs d x : good O d -> reloc O gen root phi d = Some x -> derefs result 0 x x /\ good result x.
Proof.
  intros Hg Hr. destruct (word_target d x Hg Hr) as [[Hi ->] | (_ & _ & _ & _ & hx & ax & Hm & Hl & _)].
  - split; [by apply derefs_word, int_not_transient | by left].
  - split; [| right; eauto]. destruct (decide (x mod 4 = 2)); [eapply derefs_block; eauto | by apply derefs_word].
Qed.

(** An argument of a block that was not visited points past no moved block. *)
Lemma unvisited_arg p h args i a : O !! p = Some (h, args) -> fromb p = false -> ~ recorded p ->
  aget args i = Some a -> i < scan_size h args -> IsInt a = true \/ fromb (RemoveTag a) = false.
Proof.
  intros HO Hf Hrec Ha Hi. destruct (IsInt a) eqn:Hint; [by left | right].
  destruct (barrier _ _ _ _ _ HO Hrec Ha Hi Hint) as (h' & a' & HO' & Hge).
  destruct (fromb_old O_ok gen_ok HO Hf) as (_ & Hg & _). unfold GCGraph.fromb. rewrite HO'. simpl.
  apply orb_false_iff. split; [apply Z.ltb_ge; lia | apply Z.eqb_neq]. by apply (ro_private _ _ root_is _ _ _ _ _ HO Ha Hi).
Qed.

Lemma chain_result n a d : derefs O n a d -> good O d -> IsInt a = true \/ fromb (RemoveTag a) = false ->
  exists d', deref_to result a d' /\ good result d' /\ reloc O gen root phi d = Some d'.
Proof.
  intros Hd Hg. induction Hd as [v Hv | v h args Hv Hm Hs | v h args u n d Hv Hm Hn Hl Ha Hu IH]; intros Hold.
  1, 2: assert (Hr : reloc O gen root phi v = Some v) by (unfold reloc; destruct (IsInt v); [done |]; by destruct Hold as [| ->]);
    destruct (target_derefs v v Hg Hr); exists v; split_and!; [by exists 0%nat | done | done].
  destruct Hold as [Hi | Hf]; [by apply int_not_transient in Hi |].
  destruct (old_left _ _ _ Hm Hf) as (h' & args' & Hm' & El & _ & _ & Ev & _ & _ & _ & Hargs).
  destruct (Hargs _ _ Ha) as (x & Hx & Hcase). pose proof (O_ok _ _ _ Hm) as Hb.
  assert (Hlt : 0 < scan_size h args) by (rewrite (scan_size_ref O h args Hb Hl); by apply (bo_ref Hb)).
  destruct (Z.ltb_spec 0 (scan_size h args)); [| lia].
  assert (Hres : result !! RemoveTag v = Some (h', args')).
  { apply result_lookup. split; [done |]. exists (RemoveTag v). unfold moved. by rewrite Hm, Hf. }
  assert (Hlink : forall y, deref_to result x y -> deref_to result v y).
  { intros y [m Hy]. exists (S m). eapply derefs_link; [done | exact Hres | done | congruence | exact Hx | done]. }
  destruct Hcase as [(_ & d0 & [n0 Hd0] & Hg0 & Hr) | (-> & _ & Hrec)].
  - destruct (derefs_fun _ _ _ _ _ _ Hu Hd0) as [_ <-]. destruct (target_derefs d x Hg Hr) as [Hdx Hgx].
    exists x. split_and!; try done. apply Hlink. by exists 0%nat.
  - destruct (IH Hg (unvisited_arg _ _ _ _ _ Hm Hf Hrec Ha Hlt)) as (d' & Hd' & Hg' & Hr').
    exists d'. split_and!; try done. by apply Hlink.
Qed.

(** An argument of a block that is left, against the original. *)
Lemma left_word p q h args h' args' i a x :
  O !! p = Some (h, args) -> left_block p q h args h' args' -> aget args i = Some a -> i < scan_size h args -> aget args' i = Some x ->
  exists d d', deref_to O a d /\ good O d /\ deref_to result x d' /\ good result d' /\ reloc O gen root phi d = Some d'.
Proof.
  intros HO (_ & _ & _ & _ & _ & _ & _ & Hargs) Ha Hi Hx. destruct (Hargs i a Ha) as (x0 & Hx0 & Hcase).
  rewrite Hx in Hx0. injection Hx0 as <-. destruct (Z.ltb_spec i (scan_size h args)); [| lia].
  destruct Hcase as [(_ & d & Hd & Hg & Hr) | (-> & Hf & Hrec)].
  - destruct (target_derefs d x Hg Hr) as [Hdx Hgx]. exists d, x. split_and!; try done. by exists 0%nat.
  - destruct (bo_words (O_ok _ _ _ HO) Ha Hi) as (d & [n Hd] & Hg).
    destruct (chain_result n a d Hd Hg (unvisited_arg _ _ _ _ _ HO Hf Hrec Ha Hi)) as (d' & Hd' & Hg' & Hr').
    exists d, d'. split_and!; try done. by exists n.
Qed.

(** ** The graph that is left *)

Lemma left_dynamic p q h args h' args' w : O !! p = Some (h, args) -> left_block p q h args h' args' ->
  DecodeLabel h = DYNAMIC_LABEL -> aget args 0 = Some w -> IsInt w = true -> aget args' 0 = Some w.
Proof.
  intros HO (_ & _ & _ & _ & _ & _ & _ & Hargs) Hl Hw Hint. destruct (Hargs 0 w Hw) as (x & Hx & Hcase).
  destruct (0 <? scan_size h args); [destruct Hcase as [[_ Hs] | (-> & _)] | by subst]; [| done].
  assert (x = w) as -> by (eapply settled_int; [exact Hint | exact Hs]). done.
Qed.

Lemma left_scan_size p q h args h' args' : O !! p = Some (h, args) -> left_block p q h args h' args' ->
  scan_size h' args' = scan_size h args.
Proof.
  intros HO Hleft. pose proof Hleft as (El & _ & _ & _ & _ & _ & Hz & _). unfold scan_size. rewrite El, Hz.
  destruct (_ <? _); [done |]. destruct (Z.eqb_spec (DecodeLabel h) DYNAMIC_LABEL) as [Hd |]; [| done].
  destruct (bo_dynamic (O_ok _ _ _ HO) Hd) as (w & Hw & Hint & _).
  by rewrite Hw, (left_dynamic _ _ _ _ _ _ _ HO Hleft Hd Hw Hint).
Qed.

Lemma zlen_arg (args args' : list Z) i x : zlen args' = zlen args -> aget args' i = Some x -> exists a, aget args i = Some a.
Proof. intros Hz Hx%aget_Some_lt. destruct (aget_is_Some args i ltac:(lia)) as [a Ha]. by exists a. Qed.

Lemma result_block q h' args' : result !! q = Some (h', args') ->
  exists p h args, moved p = Some q /\ O !! p = Some (h, args) /\ left_block p q h args h' args'.
Proof.
  intros Hq. pose proof Hq as [_ [p Hm]]%result_lookup.
  destruct (moved_block _ _ Hm) as (h & args & h1 & a1 & HO & Hres & Hleft).
  rewrite Hq in Hres. injection Hres as <- <-. exists p, h, args. done.
Qed.

Lemma result_graph : graph_ok result.
Proof.
  intros q h' args' (p & h & args & Hm & HO & Hleft)%result_block. pose proof (O_ok _ _ _ HO) as Hb.
  pose proof (left_scan_size _ _ _ _ _ _ HO Hleft) as Hss. pose proof Hleft as (El & Es & _ & Ev & _ & _ & Hz & _).
  constructor.
  - done.
  - rewrite Es, Hz. apply (bo_size Hb).
  - rewrite Hz. apply (bo_size_ok Hb).
  - rewrite El. apply (bo_weak Hb).
  - rewrite El, Hz. intros Hd. destruct (bo_dynamic Hb Hd) as (w & Hw & Hint & Hr). exists w.
    split; [by eapply left_dynamic | done].
  - rewrite El, Hz. apply (bo_ref Hb).
  - intros i x Hx Hi. rewrite Hss in Hi. destruct (zlen_arg _ _ _ _ Hz Hx) as [a Ha].
    destruct (left_word _ _ _ _ _ _ _ _ _ HO Hleft Ha Hi Hx) as (d & d' & _ & _ & Hd & Hg & _). eauto.
Qed.

Lemma result_iso root' : phi !! root = Some root' -> heap_iso O result moved root root'.
Proof.
  intros Hroot. constructor.
  - destruct (inv_copy s_inv Hroot) as (h & args & _ & _ & HO & Hf & _). unfold moved. by rewrite HO, Hf.
  - apply moved_inj.
  - intros q b [_ Hq]%result_lookup. done.
  - intros p q Hm. destruct (moved_block _ _ Hm) as (h & args & h' & args' & HO & Hres & Hleft).
    exists h, args, h', args'. pose proof (left_scan_size _ _ _ _ _ _ HO Hleft) as Hss.
    pose proof Hleft as (El & _ & Em & _ & _ & _ & Hz & Hargs). split_and!; try done.
    intros i a Ha. destruct (Hargs i a Ha) as (x & Hx & Hcase). exists x. split; [done |].
    destruct (Z.ltb_spec i (scan_size h args)); [| done].
    destruct (left_word _ _ _ _ _ _ _ _ _ HO Hleft Ha ltac:(done) Hx) as (d & d' & Hd & Hg & Hd' & _ & Hr).
    exists d, d'. by rewrite <- reloc_rename.
Qed.

Lemma result_reach p q : moved p = Some q -> reach O gen root p.
Proof. intros [[Hphi _] | (-> & Hf & [b HO])]%moved_cases; [by apply (inv_reach s_inv Hphi) | by eapply reach_old]. Qed.

(** ** Well-formedness *)

Lemma sublist_fmap {A B} (f : A -> B) (l k : list A) : sublist l k -> sublist (f <$> l) (f <$> k).
Proof. induction 1; simpl; by constructor. Qed.

Lemma more_nodup : NoDup (RemoveTag <$> more).
Proof. eapply sublist_NoDup; [exact es_nodup | by apply sublist_fmap]. Qed.

Lemma more_entries : Forall (entry_ok result) more.
Proof.
  apply Forall_forall. intros e He. pose proof es_ok as Hes. rewrite Forall_forall in Hes.
  assert (Hin : e ∈ es) by (by eapply elem_of_sublist). destruct (Hes _ Hin) as (Hint & h & args & HO & Hl).
  split; [done |]. pose proof more_old as Hold. rewrite Forall_forall in Hold.
  destruct (moved_block (RemoveTag e) (RemoveTag e)) as (h0 & a0 & h' & args' & HO0 & Hres & El & _).
  { unfold moved. by rewrite HO, (Hold _ He). }
  rewrite HO in HO0. injection HO0 as <- <-. exists h', args'. by rewrite El.
Qed.

Lemma result_marked q h' args' : result !! q = Some (h', args') -> IsChildish h' = true <-> q ∈ RemoveTag <$> more.
Proof. intros (p & h & args & _ & _ & (_ & _ & _ & _ & _ & Hm & _))%result_block. done. Qed.

Lemma result_barrier q h' args' i x : result !! q = Some (h', args') -> q ∉ RemoveTag <$> more ->
  aget args' i = Some x -> i < scan_size h' args' -> IsInt x = false ->
  exists hx ax, result !! RemoveTag x = Some (hx, ax) /\ DecodeGeneration h' <= DecodeGeneration hx.
Proof.
  intros Hq Hnm Hx Hi Hint. destruct (result_block _ _ _ Hq) as (p & h & args & Hm & HO & Hleft).
  rewrite (left_scan_size _ _ _ _ _ _ HO Hleft) in Hi. pose proof Hleft as (_ & _ & _ & _ & Eg & _ & Hz & Hargs).
  destruct (zlen_arg _ _ _ _ Hz Hx) as [a Ha]. destruct (Hargs i a Ha) as (x0 & Hx0 & Hcase).
  rewrite Hx in Hx0. injection Hx0 as <-. destruct (Z.ltb_spec i (scan_size h args)); [| lia].
  destruct Hcase as [(Hvis & d & Hd & Hg & Hr) | (-> & Hf & Hrec)].
  - destruct (word_target d x Hg Hr) as [[Hi' ->] | (Hdi & _ & _ & _ & hx & ax & Hres & _ & Egx)]; [congruence |].
    exists hx, ax. split; [done |]. rewrite Eg, Egx. destruct (fromb p) eqn:Hf.
    + rewrite hgen_min by done. by apply (tgen_min O O_ok gen gen_ok root).
    + destruct Hvis as [| (e & -> & He)%list_elem_of_fmap]; [done |].
      destruct (old_ok e He Hf) as (h0 & a0 & hp & HO0 & _ & Hcase). rewrite HO in HO0. injection HO0 as <- <-.
      destruct Hcase as [(Hmore & _) | (_ & Hny & _)].
      * exfalso. apply Hnm. destruct (moved_cases _ _ Hm) as [[_ ?] | (-> & _)]; [congruence |].
        apply list_elem_of_fmap. by exists e.
      * pose proof (aget_Some_lt _ _ _ Ha). apply (Hny i a d); [lia | done ..].
  - destruct (barrier _ _ _ _ _ HO Hrec Ha Hi Hint) as (ht & at' & HOt & Hge).
    destruct (unvisited_arg _ _ _ _ _ HO Hf Hrec Ha Hi) as [| Hft]; [congruence |].
    destruct (moved_block (RemoveTag a) (RemoveTag a)) as (h0 & a0 & hx & ax & HO0 & Hres & _ & _ & _ & _ & Egx & _).
    { unfold moved. by rewrite HOt, Hft. }
    rewrite HOt in HO0. injection HO0 as <- <-. rewrite Hft in Egx. exists hx, ax. split; [done |]. by rewrite Eg, Egx, Hf.
Qed.

Hypothesis (place : forall p h args, O !! p = Some (h, args) -> in_gen s0 (Z.to_nat (DecodeGeneration h)) p).

(** The generations that hold the blocks that are left. *)
Definition held (g : nat) : Prop := g = gen \/ (gen <= g <= 2)%nat.

Lemma result_place q h' args' : result !! q = Some (h', args') ->
  exists g : nat, held g /\ in_gen s g q /\ DecodeGeneration h' = Z.of_nat (Nat.min g 2).
Proof.
  intros (p & h & args & Hm & HO & (_ & _ & _ & _ & Eg & _))%result_block. rewrite Eg.
  destruct (moved_cases _ _ Hm) as [[Hphi Hf] | (-> & Hf & _)]; rewrite Hf.
  - exists gen. destruct (inv_copy s_inv Hphi) as (? & ? & ? & ? & _ & _ & _ & _ & _ & _ & _ & _ & Hg).
    rewrite hgen_min by done. split_and!; [by left | done | lia].
  - destruct (fromb_old O_ok gen_ok HO Hf) as (_ & Hge & _).
    pose proof (unmoved_generation _ (bo_unmoved (O_ok _ _ _ HO))).
    exists (Z.to_nat (DecodeGeneration h)). split_and!; [right; lia | | lia]. by apply (ev_in_gen s_ev), (place _ _ args).
Qed.

(** The state at the end, when the collected generations are released. *)
Variable s' : GC.
Hypothesis (s'_mem : mem_ok s') (s'_sets : same_sets s s').
Hypothesis (s'_keep : forall (g : nat) p b, held g -> in_gen s g p -> gc_mem s !! p = Some b -> gc_mem s' !! p = Some b).
Hypothesis (s'_place : forall (g : nat) p, held g -> in_gen s g p -> in_gen s' (Nat.min g 2) p).
Hypothesis (sets_in : Forall (fun p => is_Some (gc_mem s0 !! p) /\ O !! p = None /\ exists g : nat, held g /\ (2 <= g)%nat /\ in_gen s g p)
  [gc_intgen s0; gc_wkdict s0; gc_fin s0]).
Hypothesis (sets_distinct : NoDup [gc_intgen s0; gc_wkdict s0; gc_fin s0]) (maps_none : gc_mapLs s0 = NULL_NODE).
Hypothesis (intgen_is : exists h, set_at s (gc_intgen s0) h more).
Hypothesis (wkdict_is : exists h, set_at s (gc_wkdict s0) h []).
Variable fs : list Z.
Hypothesis (fin_is : exists h, set_at s (gc_fin s0) h fs).

Lemma keep_set p h rest : p ∈ [gc_intgen s0; gc_wkdict s0; gc_fin s0] -> set_at s p h rest -> set_at s' p h rest.
Proof.
  intros Hp Hset. pose proof sets_in as Hs. rewrite Forall_forall in Hs. destruct (Hs _ Hp) as (_ & _ & g & Hg & _ & Hin).
  eapply set_frame; [| exact Hset]. destruct Hset as (args & Hm & _). rewrite Hm. by apply (s'_keep g).
Qed.

Lemma result_wf : gc_wf s' result more fs.
Proof.
  pose proof (ev_sets s_ev) as (E1 & E2 & E3 & E4). destruct s'_sets as (F1 & F2 & F3 & F4).
  assert (Hsets : [gc_intgen s'; gc_wkdict s'; gc_fin s'] = [gc_intgen s0; gc_wkdict s0; gc_fin s0]) by congruence.
  constructor.
  - done.
  - apply result_graph.
  - apply map_subseteq_spec. intros q [h' args'] Hq. destruct (result_place _ _ _ Hq) as (g & Hg & Hin & _).
    apply result_lookup in Hq as [Hq _]. by apply (s'_keep g).
  - intros q h' args' Hq. destruct (result_place _ _ _ Hq) as (g & Hg & Hin & ->). rewrite Nat2Z.id. by apply s'_place.
  - rewrite F1, E1. destruct intgen_is as [h Hs]. exists h. apply keep_set; [by left | done].
  - rewrite F2, E2. destruct wkdict_is as [h Hs]. exists h. apply keep_set; [by right; left | done].
  - rewrite F3, E3. destruct fin_is as (h & Hs). exists h. apply keep_set; [by right; right; left | done].
  - by rewrite Hsets.
  - rewrite Hsets. eapply Forall_impl; [exact sets_in |]. intros p ([b Hb] & Hn & g & Hg & H2 & Hin). split.
    + apply eq_None_not_Some. intros [b' [_ [p0 Hm]]%result_lookup].
      destruct (moved_cases _ _ Hm) as [[Hphi _] | (-> & _ & [? ?])]; [| congruence].
      destruct (ev_fresh s_ev Hphi) as [Hx |]; [by rewrite lookup_empty in Hx | congruence].
    + pose proof (s'_place g p Hg Hin) as Hp. by rewrite Nat.min_r in Hp by lia.
  - congruence.
  - apply more_entries.
  - apply more_nodup.
  - apply result_marked.
  - apply result_barrier.
Qed.

End Result.
