(* ===== verification/GCRelease.v ===== *)
(** * Releasing the collected generations

    [Heap::Shrink] after a collection and the switch of the semispaces: the
    blocks outside the released generations stay, and the store is well-formed. *)

From S2P Require Import Prelude Config HeaderOp PointerOp Heap GC GCMem.

Section Release.
Context `{Platform} (undef : Z) (malloc : list (Z * Z) -> Z -> Z) (malloc_ok : malloc_fresh malloc).
Implicit Types (s : GC) (p q : Z) (g : nat) (c : HeapChunk).

Lemma FOP_app {A} (R : A -> A -> Prop) (l1 l2 : list A) :
  ForallOrdPairs R (l1 ++ l2) -> forall x y, x ∈ l1 -> y ∈ l2 -> R x y.
Proof.
  induction l1 as [| a l1 IH]; intros Hd x y Hx Hy; [by apply not_elem_of_nil in Hx |].
  simpl in Hd. apply FOP_cons in Hd as [Ha Hd]. apply elem_of_cons in Hx as [-> | Hx]; [| by apply IH].
  rewrite Forall_forall in Ha. apply Ha, elem_of_app. by right.
Qed.

Lemma FOP_app_r {A} (R : A -> A -> Prop) (l1 l2 : list A) : ForallOrdPairs R (l1 ++ l2) -> ForallOrdPairs R l2.
Proof. induction l1 as [| a l1 IH]; [done |]. simpl. intros [_ Hd]%FOP_cons. by apply IH. Qed.

(** Chunks of different generations do not overlap. *)
Lemma gens_disjoint (roots : list Heap) g g' h h' c c' :
  ForallOrdPairs range_disjoint (map region (concat (map h_chain roots))) ->
  roots !! g = Some h -> roots !! g' = Some h' -> (g < g')%nat -> c ∈ h_chain h -> c' ∈ h_chain h' ->
  range_disjoint (region c) (region c').
Proof.
  revert g g'. induction roots as [| h0 roots IH]; intros g g' Hd Hg Hg' Hlt Hc Hc'; [done |].
  simpl in Hd. rewrite map_app in Hd. destruct g' as [| g']; [lia |]. simpl in Hg'. destruct g as [| g].
  - injection Hg as <-. eapply FOP_app; [exact Hd | by apply list_elem_of_In, in_map, list_elem_of_In |].
    apply list_elem_of_In, in_map, in_concat. exists (h_chain h'). rewrite <- !list_elem_of_In. split; [| done].
    apply list_elem_of_In, in_map, list_elem_of_In, list_elem_of_lookup. eauto.
  - apply FOP_app_r in Hd. eapply (IH g g'); eauto. lia.
Qed.

Lemma in_gen_unique s g g' p : mem_ok s -> in_gen s g p -> in_gen s g' p -> g = g'.
Proof.
  intros Hok (h & c & Hg & Hc & Hr) (h' & c' & Hg' & Hc' & Hr').
  pose proof (chain_chunk_ok _ _ _ _ Hok Hg Hc) as Ho. pose proof (chain_chunk_ok _ _ _ _ Hok Hg' Hc') as Ho'.
  destruct Hok as (_ & bs & Hs & _). pose proof (ok_regions _ _ Hs) as Hd. unfold all_chunks in Hd.
  assert (Hdis : g = g' \/ range_disjoint (region c) (region c')).
  { destruct (Nat.lt_trichotomy g g') as [Hlt | [-> | Hlt]]; [right | by left | right].
    - by apply (gens_disjoint _ g g' h h' c c' Hd).
    - pose proof (gens_disjoint _ g' g h' h c' c Hd Hg' Hg Hlt Hc' Hc) as Hx. unfold range_disjoint in *. tauto. }
  destruct Hdis as [| Hdis]; [done | exfalso]. destruct MIN_WIDTH_pos;
    unfold chunk_ok, region, range_disjoint, STORE_MEM_ALIGN in *; simpl in *; lia.
Qed.

(** Every block lies in some generation. *)
Lemma mem_in_gen s p b : mem_ok s -> gc_mem s !! p = Some b -> exists g, in_gen s g p.
Proof.
  intros (_ & bs & Hs & Hin) Hp. destruct b as [h args]. destruct (Hin _ _ _ Hp) as [_ Hb].
  pose proof (ok_inside _ _ Hs) as Hi. rewrite Forall_forall in Hi. destruct (Hi _ Hb) as (c & (g & h0 & Hg & Hc)%in_all_chunks & Hr).
  exists g, h0, c. split; [done |]. split; [done |]. pose proof (SIZEOF_BLOCK_pos (zlen args) (zlen_nonneg args)). simpl in Hr. lia.
Qed.

Lemma FOP_filter {A} (R : A -> A -> Prop) (P : A -> Prop) `{!forall x, Decision (P x)} (l : list A) :
  ForallOrdPairs R l -> ForallOrdPairs R (filter P l).
Proof.
  induction l as [| a l IH]; [done |]. intros [Ha Hl]%FOP_cons. rewrite filter_cons. destruct (decide (P a)); [| by apply IH].
  apply FOP_cons. split; [| by apply IH]. rewrite Forall_forall in *. intros x [_ Hx]%list_elem_of_filter. by apply Ha.
Qed.

(** The address lies in the used part of a chunk. *)
Definition used (cs : list HeapChunk) p : bool := existsb (fun c => (hc_base c <=? p) && (p <? hc_top c)) cs.

Lemma used_spec cs p : used cs p = true <-> exists c, c ∈ cs /\ hc_base c <= p < hc_top c.
Proof.
  unfold used. rewrite existsb_exists. split; intros (c & Hc & Hr); exists c;
    (split; [by apply list_elem_of_In |]); rewrite andb_true_iff, Z.leb_le, Z.ltb_lt in *; done.
Qed.

(** The store after [Shrink], with the blocks outside the generation. *)
Lemma Shrink_ok st blocks g h :
  store_ok st blocks -> st_roots st !! g = Some h ->
  exists st' h', Heap_Shrink malloc st g = Some st' /\ st_roots st' = <[g := h']> (st_roots st) /\
    store_ok st' (filter (fun b => used (h_chain h) b.1 = false) blocks).
Proof.
  intros Hok Hg. unfold Heap_Shrink. rewrite Hg. simpl. eexists _, _. split; [done |]. split; [done |].
  set (freed := {| h_chain := []; h_size := h_size h; h_limit := h_limit h |}).
  set (regions := live (set_roots st (<[g := freed]> (st_roots st)))).
  destruct (all_chunks_insert _ _ _ Hg) as (others & Hp & Hp').
  destruct (HeapChunk_new_ok malloc regions 1 malloc_ok ltac:(lia)) as (Hc & _ & _ & Hdis).
  change (1 * STORE_MEMCHUNK_SIZE) with STORE_MEMCHUNK_SIZE in *.
  set (chunk := HeapChunk_new malloc regions STORE_MEMCHUNK_SIZE) in *.
  assert (Hlive : regions ≡ₚ map region others).
  { subst regions. rewrite live_all_chunks. unfold all_chunks. simpl. by rewrite (Hp' freed). }
  assert (Hall : all_chunks st ≡ₚ h_chain h ++ others) by done.
  pose proof (ok_chunks _ _ Hok) as Ho. rewrite Hall in Ho. apply Forall_app in Ho as [Hh Ho].
  pose proof (ok_regions _ _ Hok) as Hr. eapply FOP_Permutation in Hr; [| apply _ | by rewrite Hall].
  rewrite map_app in Hr. apply FOP_app_r in Hr.
  eapply store_ok_chunks with (chunks := chunk :: others).
  - apply (Hp' {| h_chain := [chunk]; h_size := STORE_MEMCHUNK_SIZE; h_limit := h_limit h |}).
  - by constructor.
  - simpl. by apply Forall_insert; [apply (ok_nonempty _ _ Hok) |].
  - simpl. apply FOP_cons. split; [by rewrite <- Hlive | done].
  - apply Forall_forall. intros b [Hu Hb]%list_elem_of_filter.
    pose proof (ok_inside _ _ Hok) as Hi. rewrite Forall_forall in Hi. destruct (Hi _ Hb) as (c & Hcin & H1 & H2 & H3).
    rewrite Hall in Hcin. apply elem_of_app in Hcin as [Hcin | Hcin]; [| exists c; split; [by right | done]].
    exfalso. assert (Ht : used (h_chain h) b.1 = true) by (apply used_spec; exists c; split; [done | lia]). congruence.
  - apply FOP_filter, (ok_blocks _ _ Hok).
Qed.

Lemma Release_ok s g : mem_ok s -> (g < 4)%nat ->
  exists s', Release malloc s g = Some s' /\ mem_ok s' /\ gc_mem s' ⊆ gc_mem s /\ same_sets s s' /\
    (forall g', g' <> g -> st_roots (gc_heap s') !! g' = st_roots (gc_heap s) !! g') /\
    (forall g' p b, g' <> g -> in_gen s g' p -> gc_mem s !! p = Some b -> gc_mem s' !! p = Some b) /\
    (forall p, in_gen s g p -> gc_mem s' !! p = None).
Proof.
  intros Hok Hg. pose proof Hok as (Hlen & bs & Hs & Hin).
  destruct (lookup_lt_is_Some_2 (st_roots (gc_heap s)) g) as [h Hh]; [lia |].
  destruct (Shrink_ok _ _ _ _ Hs Hh) as (st' & h' & E & Hroots & Hs'). unfold Release. rewrite Hh. simpl. rewrite E. simpl.
  eexists. split; [done |]. split_and!; try done.
  - split; [simpl; by rewrite Hroots, length_insert |]. eexists. split; [exact Hs' |]. simpl.
    intros p hp ap [Hp Hu]%map_lookup_filter_Some. destruct (Hin _ _ _ Hp) as [Hal Hb]. split; [done |].
    apply list_elem_of_filter. done.
  - simpl. apply map_filter_subseteq.
  - simpl. intros g' Hne. by rewrite Hroots, list_lookup_insert_ne.
  - simpl. intros g' p b Hne Hp Hb. apply map_lookup_filter_Some. split; [done |]. simpl.
    destruct (used (h_chain h) p) eqn:Hu; [| done]. exfalso. apply used_spec in Hu as (c & Hc & Hr).
    apply Hne. apply (in_gen_unique s g' g p Hok Hp). by exists h, c.
  - simpl. intros p (h0 & c & Hh0 & Hc & Hr). rewrite Hh in Hh0. injection Hh0 as <-. apply map_lookup_filter_None. right.
    intros b _ Hu. simpl in Hu. fold (used (h_chain h) p) in Hu. rewrite (proj2 (used_spec _ _)) in Hu; [done | by exists c].
Qed.

Lemma in_gen_roots s s' g p : st_roots (gc_heap s') !! g = st_roots (gc_heap s) !! g -> in_gen s g p -> in_gen s' g p.
Proof. intros E (h & c & Hh & Hr). exists h, c. by rewrite E. Qed.

(** The releases after a collection: generations [n - 1] down to 0. *)
Lemma release_all_ok s n : mem_ok s -> (n <= 4)%nat ->
  exists s', release_all malloc s n = Some s' /\ mem_ok s' /\ gc_mem s' ⊆ gc_mem s /\ same_sets s s' /\
    (forall g, (n <= g)%nat -> st_roots (gc_heap s') !! g = st_roots (gc_heap s) !! g) /\
    (forall g p b, (n <= g)%nat -> in_gen s g p -> gc_mem s !! p = Some b -> gc_mem s' !! p = Some b) /\
    (forall g p, (g < n)%nat -> in_gen s g p -> gc_mem s' !! p = None).
Proof.
  revert s. induction n as [| n IH]; intros s Hok Hn; [exists s; split_and!; done || lia |].
  destruct (Release_ok s n Hok ltac:(lia)) as (s1 & E1 & Hok1 & Hsub1 & Hs1 & Hr1 & Hm1 & Hz1).
  destruct (IH s1 Hok1 ltac:(lia)) as (s2 & E2 & Hok2 & Hsub2 & Hs2 & Hr2 & Hm2 & Hz2).
  exists s2. simpl. rewrite E1. simpl. split_and!; try done.
  - by etrans.
  - unfold same_sets in *. intuition congruence.
  - intros g Hg. rewrite Hr2, Hr1 by lia. done.
  - intros g p b Hg Hp Hb. apply (Hm2 g); [lia | | apply (Hm1 g); done || lia].
    eapply in_gen_roots; [| exact Hp]. apply Hr1. lia.
  - intros g p Hg Hp. destruct (decide (g = n)) as [-> |].
    + apply eq_None_not_Some. intros [b Hb]. pose proof (lookup_weaken _ _ _ _ Hb Hsub2). by rewrite (Hz1 p Hp) in *.
    + apply (Hz2 g); [lia |]. eapply in_gen_roots; [| exact Hp]. by apply Hr1.
Qed.

(** The switch of the semispaces permutes the generations. *)
Lemma switch_ok s : mem_ok s ->
  exists s', switch_semispaces s = Some s' /\ mem_ok s' /\ gc_mem s' = gc_mem s /\ same_sets s s' /\
    (forall p, in_gen s SEMISPACE p -> in_gen s' OLDEST p).
Proof.
  intros (Hlen & bs & Hs & Hin). unfold switch_semispaces.
  destruct (st_roots (gc_heap s)) as [| h0 [| h1 [| h2 [| h3 []]]]] eqn:Er; try done. simpl.
  eexists. split; [done |]. split_and!; try done.
  - split; [done |]. exists bs. split; [| done]. simpl.
    assert (Hp : all_chunks (gc_heap s) ≡ₚ all_chunks (set_roots (gc_heap s) [h0; h1; h3; h2])).
    { unfold all_chunks. rewrite Er. simpl. rewrite !app_nil_r. solve_Permutation. }
    pose proof (ok_nonempty _ _ Hs) as Hn. rewrite Er in Hn.
    eapply store_ok_chunks with (chunks := all_chunks (gc_heap s)).
    + by symmetry.
    + apply (ok_chunks _ _ Hs).
    + simpl. repeat (apply Forall_cons in Hn as [? Hn]). by repeat constructor.
    + apply (ok_regions _ _ Hs).
    + apply (ok_inside _ _ Hs).
    + apply (ok_blocks _ _ Hs).
  - intros p (h & c & Hh & Hr). rewrite Er in Hh. injection Hh as <-. by exists h3, c.
Qed.

End Release.
