(* ===== verification/GCThm.v ===== *)
(** * Garbage collection

    [Store::DoGCWithoutFinalize] from a well-formed state without weak
    dictionaries and hash tables with address keys: it ends, the state is
    well-formed again, and the graph that is left is isomorphic to the original
    one up to dereferencing, for minor and major collections. *)

From S2P Require Import Prelude Config HeaderOp PointerOp Heap GC GCMem GCGraph GCForward GCScan GCSet GCIntgen GCCollect.
From S2P Require Import GCWf GCRelease.

Section Collection.
Context `{Platform} (undef : Z) (malloc : list (Z * Z) -> Z -> Z) (malloc_ok : malloc_fresh malloc).
Implicit Types (s : GC) (O : gmap Z (Z * list Z)) (p q : Z) (es fs : list Z).

(** A collection into root [gen] does not look at a block: it lies in an older
    generation and is no ordinary block, or was the root and has been copied. *)
Definition left_alone (gen : nat) s O root q : Prop :=
  is_Some (gc_mem s !! q) /\ (q = root \/ O !! q = None) /\ exists g, (gen <= g)%nat /\ in_gen s g q.

(** The memory afterwards: the collected generations are empty, and every block
    is an image under [m], a set of the collector or one that was left alone. *)
Definition swept (gen : nat) s O root (m : Z -> option Z) s' : Prop :=
  (forall p h args, O !! p = Some (h, args) -> DecodeGeneration h < Z.of_nat gen -> gc_mem s' !! p = None) /\
  (forall q, is_Some (gc_mem s' !! q) ->
     (exists p, m p = Some q) \/ q ∈ [gc_intgen s'; gc_wkdict s'; gc_fin s'] \/ left_alone gen s O root q).

(** What a collection into root [gen] leaves. *)
Definition collected (gen : nat) s O root root' s' O' es' fs : Prop :=
  gc_wf s' O' es' fs /\ exists m, heap_iso O O' m root root' /\
    (forall p q, m p = Some q -> reach O gen root p) /\
    (forall p h args, O !! p = Some (h, args) -> Z.of_nat gen <= DecodeGeneration h -> p <> root -> m p = Some p) /\
    swept gen s O root m s'.

Lemma heap_mem_ok s h : st_roots h = st_roots (gc_heap s) -> mem_ok s -> mem_ok (with_heap s h).
Proof.
  intros E (Hlen & bs & [] & Hin). split; [simpl; by rewrite E |]. exists bs. split; [| done].
  constructor; simpl; unfold all_chunks in *; by rewrite ?E.
Qed.

Lemma heap_in_gen s h g p : st_roots h = st_roots (gc_heap s) -> in_gen s g p -> in_gen (with_heap s h) g p.
Proof. intros E. apply in_gen_roots. simpl. by rewrite E. Qed.

Lemma moved_old O gen root phi p h args : O !! p = Some (h, args) -> Z.of_nat gen <= DecodeGeneration h -> p <> root ->
  moved O gen root phi p = Some p.
Proof.
  intros HO Hg Hr. unfold moved, fromb. rewrite HO. simpl. destruct (Z.ltb_spec (DecodeGeneration h) (Z.of_nat gen)); [lia |].
  by apply Z.eqb_neq in Hr as ->.
Qed.

(** After the release, only copies and what is outside the collected
    generations is in memory. *)
Lemma result_swept gen s O root s1 phi X s' :
  mem_ok s -> Inv O gen root s1 phi -> evolves O gen root X s ∅ s1 phi ->
  (forall p h args, O !! p = Some (h, args) -> in_gen s (Z.to_nat (DecodeGeneration h)) p) ->
  (forall p h args, O !! p = Some (h, args) -> 0 <= DecodeGeneration h) ->
  gc_mem s' ⊆ gc_mem s1 -> (forall g p, (g < gen)%nat -> in_gen s1 g p -> gc_mem s' !! p = None) ->
  swept gen s O root (moved O gen root phi) s'.
Proof.
  intros Hok HI Hev Hplace Hpos Hsub Hzero.
  assert (Hz : forall g p, (g < gen)%nat -> in_gen s g p -> gc_mem s' !! p = None) by (intros g p Hg Hp; by apply (Hzero g), (ev_in_gen Hev)).
  assert (Hyoung : forall p h args, O !! p = Some (h, args) -> DecodeGeneration h < Z.of_nat gen -> gc_mem s' !! p = None).
  { intros p h args HO Hlt. apply (Hz (Z.to_nat (DecodeGeneration h))); [pose proof (Hpos _ _ _ HO); lia | by eapply Hplace]. }
  split; [done |]. intros q [b Hq]. assert (Hnot : gc_mem s' !! q <> None) by (by rewrite Hq).
  destruct (ev_only Hev (q := q)) as [Hs | [p Hp]]; [exists b; by eapply lookup_weaken | |].
  - destruct (O !! q) as [[h args] |] eqn:HO.
    + assert (Hge : Z.of_nat gen <= DecodeGeneration h) by (destruct (Z.lt_ge_cases (DecodeGeneration h) (Z.of_nat gen)); [by destruct Hnot; eapply Hyoung | done]).
      destruct (decide (q = root)) as [-> | Hne]; [right; right | left; exists q; by eapply moved_old].
      split; [done |]. split; [by left |]. exists (Z.to_nat (DecodeGeneration h)). split; [lia | by eapply Hplace].
    + right; right. split; [done |]. split; [by right |]. destruct Hs as [b0 Hs]. destruct (mem_in_gen s q b0 Hok Hs) as [g Hg].
      exists g. split; [| done]. destruct (Nat.lt_ge_cases g gen) as [Hlt |]; [| done]. by destruct Hnot; eapply Hz.
  - left. exists p. destruct (inv_copy HI Hp) as (h & args & ? & ? & HO & Hf & _). unfold moved. by rewrite HO, Hf.
Qed.

(** From the state in which [Store::GC] starts to the end: [fin] stands for the
    release of the collected generations. *)
Lemma collect_finish gen s O es fs root fuel (hI hW : Z) :
  (0 < gen < 4)%nat -> graph_ok O -> root_ok O root -> ready O s hI hW es ->
  (forall p h args, O !! p = Some (h, args) -> in_gen s (Z.to_nat (DecodeGeneration h)) p) ->
  (exists h, set_at s (gc_fin s) h fs) -> NoDup [gc_intgen s; gc_wkdict s; gc_fin s] ->
  Forall (fun p => O !! p = None /\ exists g : nat, held gen g /\ (2 <= g)%nat /\ in_gen s g p) [gc_intgen s; gc_wkdict s; gc_fin s] ->
  (forall p h args, O !! p = Some (h, args) -> IsChildish h = true <-> p ∈ RemoveTag <$> es) ->
  (forall p h args i a, O !! p = Some (h, args) -> p ∉ RemoveTag <$> es -> aget args i = Some a -> i < scan_size h args ->
    IsInt a = false -> exists h' args', O !! RemoveTag a = Some (h', args') /\ DecodeGeneration h <= DecodeGeneration h') ->
  (2 * size O + 1 <= fuel)%nat ->
  exists q s1, collect undef malloc fuel s root gen = Some (q, s1) /\ mem_ok s1 /\ same_sets s s1 /\
    forall s', mem_ok s' -> same_sets s1 s' ->
      (forall (g : nat) p b, held gen g -> in_gen s1 g p -> gc_mem s1 !! p = Some b -> gc_mem s' !! p = Some b) ->
      (forall (g : nat) p, held gen g -> in_gen s1 g p -> in_gen s' (Nat.min g 2) p) ->
      gc_mem s' ⊆ gc_mem s1 -> (forall g p, (g < gen)%nat -> in_gen s1 g p -> gc_mem s' !! p = None) ->
      exists O' es', collected gen s O root q s' O' es' fs.
Proof.
  intros [Hg0 Hg4] Hgr Hroot Hrd Hplace Hfin Hdist Hsets Hmark Hbar Hfuel.
  destruct (ro_block _ _ Hroot) as (hr & ar & HOr & Hlr).
  destruct (collect_ok undef malloc malloc_ok O Hgr gen Hg4 Hg0 root s hI hW es fuel hr ar Hrd (ro_word _ _ Hroot) HOr Hlr Hfuel)
    as (q & s1 & phi & more & E & Hq & HI & Hev & Hch & Hset & Hsub & Hold & Hdone).
  exists q, s1. split; [done |]. split; [apply (inv_mem HI) |]. split; [apply (ev_sets Hev) |]. intros s' Hok' Hss Hkeep Hpl Hmem Hzero.
  exists (result O gen root s1 phi), more.
  pose proof (ev_sets Hev) as (E1 & E2 & E3 & E4). apply Forall_cons in Hsets as [HsI Hsets]. apply Forall_cons in Hsets as [HsW HsF].
  apply Forall_cons in HsF as [HsF _].
  assert (Hent : forall r, r ∈ RemoveTag <$> es -> is_Some (O !! r)).
  { intros r (e & -> & Hin)%list_elem_of_fmap. pose proof (rd_entries _ _ _ _ _ Hrd) as He. rewrite Forall_forall in He.
    by destruct (He _ Hin) as (_ & h & a & -> & _). }
  assert (Hkept : forall r h rest, O !! r = None -> r <> gc_intgen s -> set_at s r h rest -> set_at s1 r h rest).
  { intros r h rest Hn Hne Hsr. eapply set_frame; [| exact Hsr]. destruct Hsr as (a & Hm & _). rewrite Hm.
    apply (ev_frame Hev); [by apply fromb_out | | done]. intros [? | Hin%Hent]; [done |]. rewrite Hn in Hin. by destruct Hin. }
  assert (HWI : gc_wkdict s <> gc_intgen s) by (pose proof (rd_distinct _ _ _ _ _ Hrd); congruence).
  assert (HFI : gc_fin s <> gc_intgen s).
  { intros Eq. rewrite Eq in Hdist. apply NoDup_cons in Hdist as [Hn _]. apply Hn. right. by left. }
  destruct Hfin as (hF & HF).
  pose proof (rd_graph _ _ _ _ _ Hrd) as Hsub0. pose proof (rd_entries _ _ _ _ _ Hrd) as Hes.
  pose proof (rd_nodup _ _ _ _ _ Hrd) as Hnd. destruct (rd_out _ _ _ _ _ Hrd) as [HoI _].
  assert (Hins : Forall (fun p => is_Some (gc_mem s !! p) /\ O !! p = None /\
    exists g : nat, held gen g /\ (2 <= g)%nat /\ in_gen s1 g p) [gc_intgen s; gc_wkdict s; gc_fin s]).
  { repeat constructor; [destruct (rd_intgen _ _ _ _ _ Hrd) as (? & -> & _) | | | destruct (rd_wkdict _ _ _ _ _ Hrd) as (? & -> & _) | | |
      destruct HF as (? & -> & _) | | ]; try done; try tauto;
    [destruct HsI as (_ & g & ? & ? & ?) | destruct HsW as (_ & g & ? & ? & ?) | destruct HsF as (_ & g & ? & ? & ?)];
      exists g; split_and!; try done; by apply (ev_in_gen Hev). }
  split; [| exists (moved O gen root phi); split; [| split; [| split]]].
  - eapply (result_wf O Hgr gen Hg4 root s s1 phi es more); try done; [by apply (rd_maps _ _ _ _ _ Hrd) | by exists hI | |].
    + exists hW. apply Hkept; [apply HsW | done | apply (rd_wkdict _ _ _ _ _ Hrd)].
    + exists hF. by apply Hkept; [apply HsF | |].
  - by eapply (result_iso O Hgr gen Hg4 root s s1 phi es more).
  - intros p r. by eapply result_reach.
  - intros p h args HO Hge Hne. by eapply moved_old.
  - eapply result_swept; try done; [apply (rd_mem _ _ _ _ _ Hrd) |].
    intros p h args HO. pose proof (unmoved_generation _ (bo_unmoved (Hgr _ _ _ HO))). lia.
Qed.

Lemma wf_ready s O es fs : gc_wf s O es fs -> exists hI hW, ready O s hI hW es.
Proof.
  intros W. destruct (gw_intgen _ _ _ _ W) as [hI HI], (gw_wkdict _ _ _ _ W) as [hW HW]. exists hI, hW.
  pose proof (gw_sets _ _ _ _ W) as Hs. pose proof (gw_distinct _ _ _ _ W) as Hd.
  apply Forall_cons in Hs as [[H1 _] Hs]. apply Forall_cons in Hs as [[H2 _] _].
  apply NoDup_cons in Hd as [Hd _]. constructor; try done; try (by destruct W).
  intros Eq. apply Hd. rewrite Eq. by left.
Qed.

(** ** Minor collections *)

Lemma minor_ok (g : nat) s O es fs root fuel :
  (g < 2)%nat -> gc_wf s O es fs -> root_ok O root -> (2 * size O + 1 <= fuel)%nat ->
  exists q s1 s2, collect undef malloc fuel s root (S g) = Some (q, s1) /\ release_all malloc s1 (S g) = Some s2 /\
    exists O' es', collected (S g) s O root q (with_heap s2 (ClearStatus (gc_heap s2) GCStatus)) O' es' fs.
Proof.
  intros Hg W Hroot Hfuel. destruct (wf_ready _ _ _ _ W) as (hI & hW & Hrd).
  destruct (collect_finish (S g) s O es fs root fuel hI hW) as (q & s1 & E & Hok1 & _ & Hfin); try done; try lia; try (by destruct W).
  { eapply Forall_impl; [apply (gw_sets _ _ _ _ W) |]. intros p [Hn Hin]. split; [done |]. exists OLDEST. unfold held, OLDEST in *.
    split_and!; [right; lia | lia | done]. }
  destruct (release_all_ok malloc malloc_ok s1 (S g) Hok1 ltac:(lia)) as (s2 & E2 & Hok2 & Hmem & Hss & Hroots & Hkeep & Hzero).
  exists q, s1, s2. split; [done |]. split; [done |]. apply Hfin.
  - by apply heap_mem_ok.
  - done.
  - intros g' p b Hh. simpl. apply Hkeep. destruct Hh; lia.
  - intros g' p Hh Hin. apply heap_in_gen; [done |].
    assert (Hle : (g' <= 2 /\ S g <= g')%nat) by (destruct Hh; lia). rewrite Nat.min_l by lia.
    eapply in_gen_roots; [| exact Hin]. apply Hroots. lia.
  - done.
  - done.
Qed.

(** ** Major collections *)

Lemma clone_set s O p h rest : mem_ok s -> O ⊆ gc_mem s -> O !! p = None -> set_at s p h rest ->
  exists q s', CloneBlock undef malloc s p SEMISPACE = Some (q, s') /\ mem_ok s' /\ O ⊆ gc_mem s' /\
    (forall r, is_Some (gc_mem s' !! r) -> is_Some (gc_mem s !! r) \/ r = q) /\
    set_at s' q (copy_header SEMISPACE h) rest /\ gc_mem s !! q = None /\ in_gen s' SEMISPACE q /\ same_sets s s' /\
    (forall r b, r <> p -> gc_mem s !! r = Some b -> gc_mem s' !! r = Some b) /\ (forall g r, in_gen s g r -> in_gen s' g r).
Proof.
  intros Hok Hsub Hn Hset. pose proof Hset as (args & Hm & Hd & Hs & Hrest).
  destruct (CloneBlock_ok undef malloc malloc_ok s p SEMISPACE h args Hok ltac:(unfold SEMISPACE; lia) Hm Hd Hs)
    as (q & s' & E & Hok' & Hq & _ & Hm' & Hgr & Hin & Hss).
  assert (Hpq : p <> q) by congruence.
  assert (Hother : forall r b, r <> p -> gc_mem s !! r = Some b -> gc_mem s' !! r = Some b).
  { intros r b Hr Hb. rewrite Hm', !lookup_insert_ne; [done | congruence | done]. }
  exists q, s'. split_and!; try done.
  - apply map_subseteq_spec. intros r b Hr. apply Hother; [congruence |]. by eapply lookup_weaken.
  - intros r Hr. destruct (decide (r = q)) as [-> |]; [by right | left]. rewrite Hm' in Hr.
    destruct (decide (r = p)) as [-> |]; [by rewrite Hm | by rewrite !lookup_insert_ne in Hr].
  - exists args. split; [rewrite Hm', lookup_insert_ne, lookup_insert_eq by done; done |]. split; [| done].
    destruct (copy_header_spec SEMISPACE h ltac:(unfold SEMISPACE; lia)) as (_ & -> & _); [by rewrite Hd | done].
  - intros g r. eapply grown_in_gen; [apply (zlen_nonneg args) | exact Hgr].
Qed.

(** The state after the sets were cloned, which is [ready]. *)
Lemma clone_sets s O es fs : gc_wf s O es fs ->
  exists p1 p2 p3 s1 s2 s3 hI hW, CloneBlock undef malloc s (gc_intgen s) SEMISPACE = Some (p1, s1) /\
    CloneBlock undef malloc (with_intgen s1 p1) (gc_wkdict (with_intgen s1 p1)) SEMISPACE = Some (p2, s2) /\
    CloneBlock undef malloc (with_wkdict s2 p2) (gc_fin (with_wkdict s2 p2)) SEMISPACE = Some (p3, s3) /\
    ready O (with_fin s3 p3) hI hW es /\ (exists h, set_at s3 p3 h fs) /\
    gc_intgen s3 = p1 /\ gc_wkdict s3 = p2 /\ NoDup [p1; p2; p3] /\
    Forall (fun p => O !! p = None /\ in_gen s3 SEMISPACE p) [p1; p2; p3] /\
    (forall g r, in_gen s g r -> in_gen s3 g r) /\
    (forall r, is_Some (gc_mem s3 !! r) -> is_Some (gc_mem s !! r) \/ r ∈ [p1; p2; p3]).
Proof.
  intros W. destruct (gw_intgen _ _ _ _ W) as [hI HI], (gw_wkdict _ _ _ _ W) as [hW HW], (gw_fin _ _ _ _ W) as (hF & HF).
  pose proof (gw_sets _ _ _ _ W) as Hs. apply Forall_cons in Hs as [[N1 _] Hs]. apply Forall_cons in Hs as [[N2 _] Hs].
  apply Forall_cons in Hs as [[N3 _] _].
  pose proof (gw_distinct _ _ _ _ W) as Hd. rewrite !NoDup_cons, !elem_of_cons in Hd. destruct Hd as (D1 & D2 & _).
  assert (D12 : gc_wkdict s <> gc_intgen s) by (intros Eq; apply D1; left; done).
  assert (D13 : gc_fin s <> gc_intgen s) by (intros Eq; apply D1; right; left; done).
  assert (D23 : gc_fin s <> gc_wkdict s) by (intros Eq; apply D2; left; done).
  destruct (clone_set s O _ _ _ (gw_mem _ _ _ _ W) (gw_sub _ _ _ _ W) N1 HI) as (p1 & s1 & E1 & Hok1 & Sub1 & New1 & Set1 & F1 & In1 & (_ & W1 & G1 & M1) & Keep1 & Pl1).
  assert (HW1 : set_at s1 (gc_wkdict s1) hW []).
  { rewrite W1. eapply set_frame; [| exact HW]. destruct HW as (a & Ha & _). rewrite Ha. by apply Keep1. }
  assert (HF1 : set_at s1 (gc_fin s1) hF fs).
  { rewrite G1. eapply set_frame; [| exact HF]. destruct HF as (a & Ha & _). rewrite Ha. by apply Keep1. }
  destruct (clone_set (with_intgen s1 p1) O (gc_wkdict s1) hW [] Hok1 Sub1 ltac:(by rewrite W1) HW1)
    as (p2 & s2 & E2 & Hok2 & Sub2 & New2 & Set2 & F2 & In2 & (I2 & _ & G2 & M2) & Keep2 & Pl2). simpl in *.
  assert (HF2 : set_at s2 (gc_fin s2) hF fs).
  { rewrite G2. eapply set_frame; [| exact HF1]. destruct HF1 as (a & Ha & _). rewrite Ha. apply Keep2; [congruence | done]. }
  assert (HI2 : set_at s2 p1 (copy_header SEMISPACE hI) es).
  { eapply set_frame; [| exact Set1]. destruct Set1 as (a & Ha & _). rewrite Ha. apply Keep2; [| done].
    intros Eq. destruct HW as (b & Hb & _). congruence. }
  destruct (clone_set (with_wkdict s2 p2) O (gc_fin s2) hF fs Hok2 Sub2 ltac:(by rewrite G2, G1) HF2)
    as (p3 & s3 & E3 & Hok3 & Sub3 & New3 & Set3 & F3 & In3 & (I3 & W3 & _ & M3) & Keep3 & Pl3). simpl in *.
  destruct HF as (aF & HmF & _), HW as (aW & HmW & _). pose proof Set2 as (a2 & Hm2 & _). pose proof HI2 as (a1 & Hm1 & _).
  pose proof Set1 as (a1' & Hm1' & _).
  assert (HI3 : set_at s3 p1 (copy_header SEMISPACE hI) es).
  { eapply set_frame; [| exact HI2]. rewrite Hm1. apply Keep3; [| done]. intros Eq. rewrite Eq, G2, G1 in F1. congruence. }
  assert (HW3 : set_at s3 p2 (copy_header SEMISPACE hW) []).
  { eapply set_frame; [| exact Set2]. rewrite Hm2. apply Keep3; [| done]. intros Eq. rewrite Eq, G2, G1 in F2.
    rewrite (Keep1 _ _ D13 HmF) in F2. done. }
  assert (Hout : forall r, gc_mem s !! r = None -> O !! r = None).
  { intros r Hr. apply eq_None_not_Some. intros [b Hb]. rewrite (lookup_weaken _ _ _ _ Hb (gw_sub _ _ _ _ W)) in Hr. done. }
  assert (O2 : O !! p2 = None) by (apply eq_None_not_Some; intros [b Hb]; by rewrite (lookup_weaken _ _ _ _ Hb Sub1) in F2).
  assert (O3 : O !! p3 = None) by (apply eq_None_not_Some; intros [b Hb]; by rewrite (lookup_weaken _ _ _ _ Hb Sub2) in F3).
  assert (D : NoDup [p1; p2; p3]).
  { rewrite !NoDup_cons, !elem_of_cons. split_and!; try (by intros ?%not_elem_of_nil); [| | by constructor].
    - intros [-> | [-> | ?%not_elem_of_nil]]; congruence.
    - intros [-> | ?%not_elem_of_nil]; congruence. }
  change (forall g r, in_gen s1 g r -> in_gen s2 g r) in Pl2. change (forall g r, in_gen s2 g r -> in_gen s3 g r) in Pl3.
  exists p1, p2, p3, s1, s2, s3, (copy_header SEMISPACE hI), (copy_header SEMISPACE hW). split_and!; try done; try congruence.
  - constructor; simpl; [done | done | by rewrite I3, I2 | by rewrite W3 | rewrite I3, I2, W3; auto | | | by destruct W | by destruct W].
    + rewrite I3, I2, W3. intros Eq. rewrite Eq, NoDup_cons in D. destruct D as [D _]. apply D. by left.
    + by rewrite M3, M2, M1, (gw_maps _ _ _ _ W).
  - by exists (copy_header SEMISPACE hF).
  - repeat constructor; auto.
  - auto.
  - intros r [[[| ->]%New1 | ->]%New2 | ->]%New3; [by left | right ..]; [left | right; left | right; right; left].
Qed.

(** Setting the limit of a generation does not touch its chunks. *)
Lemma limit_ok s g h l : mem_ok s -> st_roots (gc_heap s) !! g = Some h ->
  let s' := with_heap s (set_roots (gc_heap s) (<[g := set_limit h l]> (st_roots (gc_heap s)))) in
  mem_ok s' /\ forall g' p, in_gen s g' p -> in_gen s' g' p.
Proof.
  intros (Hlen & bs & Hs & Hin) Hg s'. subst s'. split.
  - split; [simpl; by rewrite length_insert |]. exists bs. split; [| done]. destruct (all_chunks_insert _ _ _ Hg) as (others & Hp & Hp').
    eapply store_ok_chunks with (chunks := all_chunks (gc_heap s)).
    + unfold all_chunks. simpl. rewrite (Hp' (set_limit h l)), Hp. done.
    + apply (ok_chunks _ _ Hs).
    + simpl. apply Forall_insert; [apply (ok_nonempty _ _ Hs) |].
      pose proof (ok_nonempty _ _ Hs) as Hn. rewrite Forall_lookup in Hn. by apply (Hn g h).
    + apply (ok_regions _ _ Hs).
    + apply (ok_inside _ _ Hs).
    + apply (ok_blocks _ _ Hs).
  - intros g' p (h' & c & Hh' & Hr). unfold in_gen. simpl. destruct (decide (g' = g)) as [-> |].
    + rewrite Hg in Hh'. injection Hh' as <-. exists (set_limit h l), c.
      rewrite list_lookup_insert_eq by (by eapply lookup_lt_Some). done.
    + exists h', c. by rewrite list_lookup_insert_ne.
Qed.

(** In a major collection, the sets of the collector are copied first. *)
Lemma major_swept s s0 O root m s' (sets : list Z) :
  mem_ok s -> mem_ok s0 -> (forall g r, in_gen s g r -> in_gen s0 g r) ->
  (forall r, is_Some (gc_mem s0 !! r) -> is_Some (gc_mem s !! r) \/ r ∈ sets) ->
  sets = [gc_intgen s'; gc_wkdict s'; gc_fin s'] -> swept SEMISPACE s0 O root m s' -> swept SEMISPACE s O root m s'.
Proof.
  intros Hok Hok0 Hin Hnew -> [Hyoung Hall]. split; [done |]. intros q Hq.
  destruct (Hall q Hq) as [| [| (Hs & Hr & g & Hg & Hgq)]]; [by left | by right; left |].
  destruct (Hnew q Hs) as [[b Hb] |]; [right; right | by right; left]. split; [done |]. split; [done |].
  destruct (mem_in_gen s q b Hok Hb) as [g' Hg']. exists g'. split; [| done]. by rewrite (in_gen_unique s0 g' g q Hok0 (Hin _ _ Hg') Hgq).
Qed.

Lemma major_ok s O es fs root fuel tol :
  gc_wf s O es fs -> root_ok O root -> (2 * size O + 1 <= fuel)%nat ->
  exists q s1 s2 s3, major_collection undef malloc fuel s root tol = Some (q, s1) /\
    release_all malloc s1 SEMISPACE = Some s2 /\ switch_semispaces s2 = Some s3 /\
    exists O' es', collected SEMISPACE s O root q (with_heap s3 (ClearStatus (gc_heap s3) GCStatus)) O' es' fs.
Proof.
  intros W Hroot Hfuel.
  destruct (clone_sets s O es fs W) as (p1 & p2 & p3 & a1 & a2 & a3 & hI & hW & E1 & E2 & E3 & Hrd & Hfin & I3 & W3 & Hd & Hsets & Hpl & Hnew).
  destruct (collect_finish SEMISPACE (with_fin a3 p3) O es fs root fuel hI hW) as (q & s0 & E & Hok0 & Hss0 & Hend);
    try done; try (by destruct W); try (unfold SEMISPACE; lia).
  { intros p h args HO. apply Hpl. by apply (gw_place _ _ _ _ W p h args). }
  { simpl. by rewrite I3, W3. }
  { simpl. rewrite I3, W3. eapply Forall_impl; [exact Hsets |]. intros p [Hn Hin]. split; [done |].
    exists SEMISPACE. split; [by left |]. split; [unfold SEMISPACE; lia | done]. }
  destruct Hok0 as [Hlen0 Hok0']. assert (Hok0 : mem_ok s0) by done.
  destruct (lookup_lt_is_Some_2 (st_roots (gc_heap s0)) SEMISPACE) as [h3 Hh3]; [unfold SEMISPACE; lia |].
  destruct (limit_ok s0 SEMISPACE h3 (wanted_limit (h_size h3) tol) Hok0 Hh3) as [Hok1 Hpl1].
  set (s1 := with_heap s0 (set_roots (gc_heap s0) (<[SEMISPACE := set_limit h3 (wanted_limit (h_size h3) tol)]> (st_roots (gc_heap s0))))) in *.
  destruct (release_all_ok malloc malloc_ok s1 SEMISPACE Hok1 ltac:(unfold SEMISPACE; lia)) as (s2 & Er & Hok2 & Hmem2 & Hss2 & Hroots2 & Hkeep2 & Hzero2).
  destruct (switch_ok s2 Hok2) as (s3 & Es & Hok3 & Hmem3 & Hss3 & Hpl3).
  exists q, s1, s2, s3. split.
  { unfold major_collection. rewrite E1. cbn [mbind option_bind]. rewrite E2. cbn [mbind option_bind]. rewrite E3.
    cbn [mbind option_bind]. rewrite E. cbn [mbind option_bind]. by rewrite Hh3. }
  split; [done |]. split; [done |].
  assert (Hc : exists O' es', collected SEMISPACE (with_fin a3 p3) O root q (with_heap s3 (ClearStatus (gc_heap s3) GCStatus)) O' es' fs).
  2: { destruct Hc as (O' & es' & W' & m & Hi & Hre & Ho & Hsw). exists O', es'. split; [done |]. exists m. split_and!; try done.
       eapply major_swept; [apply W | exact (rd_mem _ _ _ _ _ Hrd) | exact Hpl | exact Hnew | | exact Hsw].
       unfold same_sets in *. simpl in *. destruct Hss0 as (Ea & Eb & Ec & _), Hss2 as (Fa & Fb & Fc & _), Hss3 as (Ga & Gb & Gc & _). congruence. }
  apply Hend.
  - by apply heap_mem_ok.
  - unfold same_sets in *. simpl in *. intuition congruence.
  - intros g p b [-> | Hg] Hin Hb; [| unfold SEMISPACE in *; lia]. simpl. rewrite Hmem3.
    apply (Hkeep2 SEMISPACE); [done | by apply Hpl1 | done].
  - intros g p [-> | Hg] Hin; [| unfold SEMISPACE in *; lia]. apply heap_in_gen; [done |].
    apply Hpl3. eapply in_gen_roots; [| by apply Hpl1]. by apply Hroots2.
  - simpl. by rewrite Hmem3.
  - intros g p Hg Hin. simpl. rewrite Hmem3. apply (Hzero2 g); [done | by apply Hpl1].
Qed.

(** ** The whole collection *)

Lemma gc_range_ok (roots : list Heap) (g : nat) : (g < length roots)%nat -> exists g', gc_range roots g = Some g' /\ (g' <= g)%nat.
Proof.
  induction g as [| g IH]; intros Hl; [by exists 0%nat |]. cbn [gc_range].
  destruct (lookup_lt_is_Some_2 roots (S g) Hl) as [h ->]. simpl. destruct (_ <=? _); [| by exists (S g)].
  destruct (IH ltac:(lia)) as (g' & -> & ?). exists g'. split; [done | lia].
Qed.

Lemma DoGC_collects fuel s O es fs root tol :
  gc_wf s O es fs -> root_ok O root -> (2 * size O + 1 <= fuel)%nat ->
  exists (g : nat) root' s' O' es', gc_range (st_roots (gc_heap s)) OLDEST = Some g /\ (g <= OLDEST)%nat /\
    DoGCWithoutFinalize undef malloc fuel s root tol = Some (root', s') /\ collected (S g) s O root root' s' O' es' fs /\
    NeedGC (gc_heap s') = 0.
Proof.
  intros W Hroot Hfuel. pose proof (gw_mem _ _ _ _ W) as [Hlen _].
  destruct (gc_range_ok (st_roots (gc_heap s)) OLDEST) as (g & Eg & Hg); [unfold OLDEST; lia |].
  assert (Hclear : forall s2, NeedGC (ClearStatus (gc_heap s2) GCStatus) = 0).
  { intros s2. unfold NeedGC, GetStatus, ClearStatus, GCStatus. simpl. apply Z.bits_inj'. intros i Hi.
    rewrite !Z.land_spec, Z.lnot_spec, Z.bits_0 by lia. by destruct (Z.testbit _ i), (Z.testbit (Z.shiftl 1 STORE_NEED_GC_STATUS) i). }
  unfold DoGCWithoutFinalize. rewrite Eg. cbn [mbind option_bind]. destruct (decide (g = OLDEST)) as [-> | Hne].
  - destruct (major_ok s O es fs root fuel tol W Hroot Hfuel) as (q & s1 & s2 & s3 & E1 & E2 & E3 & O' & es' & Hc).
    exists OLDEST, q, (with_heap s3 (ClearStatus (gc_heap s3) GCStatus)), O', es'. rewrite E1.
    cbn [mbind option_bind]. change (S OLDEST) with SEMISPACE. rewrite E2. cbn [mbind option_bind]. rewrite E3. split_and!; done || apply Hclear.
  - destruct (minor_ok g s O es fs root fuel ltac:(unfold OLDEST in *; lia) W Hroot Hfuel) as (q & s1 & s2 & E1 & E2 & O' & es' & Hc).
    exists g, q, (with_heap s2 (ClearStatus (gc_heap s2) GCStatus)), O', es'. rewrite E1.
    cbn [mbind option_bind]. rewrite E2. split_and!; done || apply Hclear.
Qed.

End Collection.
