(* ===== verification/GCSample.v ===== *)
(** * A sample state of the store

    A small well-formed state on the 32-bit platform on which the theorems
    about collections are applied: a young root block with a pointer, a pointer
    through a reference and an integer, a dead young block, and a recorded
    block of the oldest generation that points to a young one. *)

From S2P Require Import Prelude Config HeaderOp PointerOp Heap GC GCMem GCGraph GCSet GCIntgen GCWf.

#[local] Existing Instance P32.

Definition sample_chunk (i top : Z) : HeapChunk :=
  let block := 4096 + i * 131076 in {| hc_block := block; hc_base := block + 4; hc_top := top; hc_max := block + 131072 |}.

Definition sample_heap (i top : Z) : Heap := {| h_chain := [sample_chunk i top]; h_size := 131072; h_limit := 1000000 |}.

Definition sample_store : Store :=
  {| st_roots := [sample_heap 0 4140; sample_heap 1 135176; sample_heap 2 266320; sample_heap 3 397328];
     st_total := 524288; st_status := 1; st_signalLimit := 0; st_mem := ∅ |}.

Definition sample_root : Z := 4100.

Definition sample_graph : gmap Z (Z * list Z) :=
  <[ 4100 := (EncodeHeader 5 3 0 0, [4116; 4126; 19]) ]>
  (<[ 4116 := (EncodeHeader 6 1 0 1, [15]) ]>
  (<[ 4124 := (EncodeHeader REF_LABEL 1 0 1, [4116]) ]>
  (<[ 4132 := (EncodeHeader 6 1 0 0, [4116]) ]>
  (<[ 266312 := (SetChildishFlag (EncodeHeader 7 1 2 1), [4116]) ]> ∅)))).

Definition set_header : Z := EncodeHeader DYNAMIC_LABEL 4 2 1.

Definition sample_gc : GC :=
  {| gc_heap := sample_store;
     gc_mem := <[ 266252 := (set_header, [3; 266312; 0; 0]) ]> (<[ 266272 := (set_header, [1; 0; 0; 0]) ]>
                 (<[ 266292 := (set_header, [5; 41; 43; 0]) ]> sample_graph));
     gc_intgen := 266252; gc_wkdict := 266272; gc_fin := 266292; gc_mapLs := NULL_NODE |}.

Definition sample_blocks : list (Z * Z) :=
  [(4100, 16); (4116, 8); (4124, 8); (4132, 8); (266252, 20); (266272, 20); (266292, 20); (266312, 8)].

(** Case analysis on the blocks of a literal map. *)
Ltac map_cases Hp :=
  apply elem_of_map_to_list in Hp;
  match type of Hp with ?x ∈ ?l =>
    let l' := eval vm_compute in l in let E := fresh in assert (E : l = l') by (vm_compute; reflexivity); rewrite E in Hp; clear E end;
  repeat (apply elem_of_cons in Hp as [Hp | Hp]; [injection Hp as -> -> -> |]); [.. | by apply not_elem_of_nil in Hp].

Lemma sample_mem_ok : mem_ok sample_gc.
Proof.
  split; [done |]. exists sample_blocks. split.
  - constructor.
    + repeat (apply Forall_cons; split; [vm_compute; split_and!; done |]). constructor.
    + by repeat constructor.
    + repeat (apply FOP_cons; split; [repeat (apply Forall_cons; split; [vm_compute; by (left + right) |]); constructor |]). constructor.
    + repeat (apply Forall_cons; split;
        [first [exists (sample_chunk 0 4140); vm_compute; split; [by left |]; split_and!; done
               | exists (sample_chunk 2 266320); vm_compute; split; [by right; right; left |]; split_and!; done] |]). constructor.
    + repeat (apply FOP_cons; split; [repeat (apply Forall_cons; split; [vm_compute; by (left + right) |]); constructor |]). constructor.
  - intros p h args Hp. map_cases Hp; (split; [done |]); vm_compute; repeat (try (left; done); right).
Qed.


(** Case analysis on the index of an argument of a literal block. *)
Ltac arg_cases i Hw :=
  let Hr := fresh "Hr" in pose proof (aget_Some_lt _ _ _ Hw) as Hr; unfold zlen in Hr; cbn [length Z.of_nat Pos.of_succ_nat Pos.succ] in Hr;
  let Hi := fresh "Hi" in assert (Hi : i = 0 \/ i = 1 \/ i = 2) by lia; destruct Hi as [-> | [-> | ->]]; try lia;
  vm_compute in Hw; injection Hw as <-.

Lemma small_size_ok n : 0 <= n <= 4 -> size_ok n.
Proof.
  intros Hn. assert (n = 0 \/ n = 1 \/ n = 2 \/ n = 3 \/ n = 4) as Hc by lia.
  destruct Hc as [-> | [-> | [-> | [-> | ->]]]]; vm_compute; split_and!; done.
Qed.

Lemma sample_graph_ok : graph_ok sample_graph.
Proof.
  assert (Hg : good sample_graph 4116).
  { right. exists (EncodeHeader 6 1 0 1), [15]. split; [vm_compute; reflexivity | vm_compute; discriminate]. }
  assert (Ha : forall w, w = 4116 -> exists d, deref_to sample_graph w d /\ good sample_graph d).
  { intros w ->. exists 4116. split; [exists O; apply derefs_word; vm_compute; discriminate | done]. }
  assert (Hf : exists d, deref_to sample_graph 4126 d /\ good sample_graph d).
  { exists 4116. split; [exists 1%nat | done].
    apply (derefs_link sample_graph 4126 (EncodeHeader REF_LABEL 1 0 1) [4116] 4116 0 4116); try (vm_compute; reflexivity).
    apply derefs_word. vm_compute. discriminate. }
  assert (Hint : forall k, IsInt k = true -> k mod 4 <> 2 -> exists d, deref_to sample_graph k d /\ good sample_graph d).
  { intros k Hk Hm. exists k. split; [exists O; by apply derefs_word | by left]. }
  intros p h args Hp. map_cases Hp; (constructor; [by vm_compute | by vm_compute | by apply small_size_ok | by vm_compute | intros Hl; by vm_compute in Hl | by vm_compute |]);
    intros i w Hw _; arg_cases i Hw; try (by apply Ha); try (by apply Hf); by apply Hint.
Qed.

Lemma sample_root_ok : root_ok sample_graph sample_root.
Proof.
  constructor; [by vm_compute | eexists _, _; split; [by vm_compute | by vm_compute] |].
  intros p h args i a Hp Ha _ _. map_cases Hp; arg_cases i Ha; by vm_compute.
Qed.

Lemma sample_sets : set_at sample_gc 266252 set_header [266312] /\ set_at sample_gc 266272 set_header [] /\
  set_at sample_gc 266292 set_header [41; 43].
Proof.
  split_and!; eexists; (split; [by vm_compute |]); (split; [by vm_compute |]); (split; [by apply small_size_ok |]);
    (split; [by vm_compute |]); (split; [by vm_compute |]); (split; [by vm_compute |]); split;
    intros k e Hk; try (by apply aget_Some_lt in Hk; unfold zlen in Hk; simpl in Hk; lia); arg_cases k Hk; done.
Qed.

Lemma sample_wf : gc_wf sample_gc sample_graph [266312] [41; 43].
Proof.
  destruct sample_sets as (S1 & S2 & S3). constructor.
  - apply sample_mem_ok.
  - apply sample_graph_ok.
  - apply map_subseteq_spec. intros p [h args] Hp. map_cases Hp; done.
  - intros p h args Hp. map_cases Hp; [eexists _, (sample_chunk 0 4140) .. | eexists _, (sample_chunk 2 266320)];
      (split; [done |]); (split; [by left |]); done.
  - by exists set_header.
  - by exists set_header.
  - by exists set_header.
  - repeat constructor; set_solver.
  - repeat constructor; eexists _, (sample_chunk 2 266320); (split; [done |]); (split; [by left |]); done.
  - done.
  - repeat constructor. eexists _, _. split; [by vm_compute | by left].
  - repeat constructor; set_solver.
  - intros p h args Hp. map_cases Hp; vm_compute; split; try done; try (by intros; left);
      intros [? | ?%not_elem_of_nil]%elem_of_cons; done.
  - intros p h args i a Hp Hnot Ha _ Hint. map_cases Hp; arg_cases i Ha; try done;
      try (by exfalso; apply Hnot; left); eexists _, _; (split; [by vm_compute |]); by vm_compute.
Qed.
