(* ===== verification/GCBarrier.v ===== *)
(** * The write barrier

    [Block::ReplaceArg] between collections: adding to the remembered set, with
    the growth of the set, and the preservation of well-formedness. *)

From S2P Require Import Prelude Config HeaderOp PointerOp Heap GC GCMem GCGraph GCForward GCScan GCSet GCIntgen GCCollect.
From S2P Require Import GCWf GCSample.

Section Barrier.
Context `{Platform} (undef : Z) (malloc : list (Z * Z) -> Z -> Z) (malloc_ok : malloc_fresh malloc).
Implicit Types (s : GC) (O : gmap Z (Z * list Z)) (p q w v : Z) (es fs : list Z).

(** ** Adding to a set *)

(** The size of the block of a set that is enlarged. *)
Definition enlarged_size (h : Z) : Z := TranslateSize (Z.shiftr ((DecodeSize h - 1) * 3) 1 + 1).

(** There is a free slot, or the set can be enlarged. *)
Definition set_room (h : Z) es : Prop :=
  2 <= DecodeSize h - 1 /\
  (zlen es + 1 < DecodeSize h - 1 \/
   (Z.shiftr ((DecodeSize h - 1) * 3) 1 + 1 <= hw_MAX_BIGBLOCKSIZE HW /\ size_ok (enlarged_size h))).

Lemma set_store s q h args es w :
  gc_mem s !! q = Some (h, args) -> DecodeSize h = zlen args -> size_ok (zlen args) ->
  zlen es + 2 <= zlen args ->
  (forall k e, aget es k = Some e -> aget args (1 + k) = Some e) ->
  exists args', (s ← SetActiveSize s q (zlen es + 1); Set_InitArg s q (zlen es) w) = Some (with_mem s (<[q := (h, args')]> (gc_mem s))) /\
    zlen args' = zlen args /\ set_at (with_mem s (<[q := (h, args')]> (gc_mem s))) q h (es ++ [w]).
Proof.
  intros Hm Hd Hs Hroom Hes. set (n := zlen es) in *. pose proof (zlen_nonneg es). pose proof (size_ok_small _ Hs).
  set (a1 := <[0%nat := EncodeInt (n + 1)]> args).
  assert (Hs1 : aset args 0 (EncodeInt (n + 1)) = Some a1) by (by rewrite aset_Some by lia).
  pose proof (aset_zlen _ _ _ _ Hs1) as Hz1. set (a2 := <[Z.to_nat (1 + n) := w]> a1).
  assert (Hs2 : aset a1 (1 + n) w = Some a2) by (by rewrite aset_Some by lia).
  pose proof (aset_zlen _ _ _ _ Hs2) as Hz2. exists a2. split; [| split; [congruence |]].
  - rewrite (SetActiveSize_ok _ _ _ _ _ Hm Hd) by lia. simpl. fold a1.
    destruct (small_int (n + 1)) as [Hdec Hint]; [lia |].
    unfold Set_InitArg, GetActiveSize. erewrite GetArg_Some by (simpl; by rewrite lookup_insert_eq).
    rewrite (aget_aset_eq _ _ _ _ Hs1). simpl. rewrite Hint, Hdec. simpl. destruct (Z.leb_spec (n + 1) n); [lia |].
    erewrite Block_InitArg_Some; [| simpl; by rewrite lookup_insert_eq | lia]. simpl. by rewrite insert_insert_eq.
  - assert (Hzk : zlen (es ++ [w]) = n + 1) by (unfold n, zlen; rewrite length_app; simpl; lia).
    exists a2. simpl. rewrite lookup_insert_eq, Hzk, Hz2, Hz1. split_and!; try done; try lia.
    + rewrite (aget_aset_ne _ _ _ _ _ Hs2) by lia. by rewrite (aget_aset_eq _ _ _ _ Hs1).
    + change (zlen (@nil Z)) with 0. lia.
    + intros k e He. pose proof (aget_Some_lt _ _ _ He) as Hlt. rewrite Hzk in Hlt.
      destruct (decide (k = n)) as [-> |].
      * rewrite aget_app_r in He by (fold n; lia). replace (n - zlen es) with 0 in He by (fold n; lia). injection He as <-.
        by rewrite (aget_aset_eq _ _ _ _ Hs2).
      * rewrite aget_app_l in He by (fold n; lia). rewrite (aget_aset_ne _ _ _ _ _ Hs2), (aget_aset_ne _ _ _ _ _ Hs1) by lia. auto.
    + intros k e He%aget_Some_lt. unfold zlen in He. simpl in He. lia.
Qed.

Definition grows_set s p w s' q es : Prop :=
  mem_ok s' /\ (exists h', set_at s' q h' (es ++ [w])) /\
  (forall r b, r <> p -> gc_mem s !! r = Some b -> gc_mem s' !! r = Some b) /\ (q = p \/ (gc_mem s !! q = None /\ in_gen s' OLDEST q)) /\
  (forall g r, in_gen s g r -> in_gen s' g r) /\ same_sets s s'.

(** The block of an enlarged set: the old words, in a new block. *)
Lemma Set_Enlarge_ok s p h args n :
  mem_ok s -> gc_mem s !! p = Some (h, args) -> DecodeSize h = zlen args -> 2 <= zlen args - 1 ->
  n = Z.shiftr ((zlen args - 1) * 3) 1 -> n + 1 <= hw_MAX_BIGBLOCKSIZE HW -> size_ok (TranslateSize (n + 1)) ->
  exists q s' hq aq, Set_Enlarge undef malloc s p (zlen args - 1) n OLDEST = Some (q, s') /\ mem_ok s' /\
    gc_mem s !! q = None /\ gc_mem s' = <[q := (hq, aq)]> (gc_mem s) /\ DecodeSize hq = zlen aq /\ size_ok (zlen aq) /\
    zlen args + 1 <= zlen aq /\ (forall k, k < zlen args -> aget aq k = aget args k) /\ in_gen s' OLDEST q /\
    (forall g r, in_gen s g r -> in_gen s' g r) /\ same_sets s s'.
Proof.
  intros Hok Hm Hd Hmax En Hle Hsz. set (m := TranslateSize (n + 1)) in *.
  rewrite Z.shiftr_div_pow2 in En by lia. change (2 ^ 1) with 2 in En.
  assert (Hn : zlen args <= n) by (clear -En Hmax; subst n; Z.div_mod_to_equations; lia).
  destruct (TranslateSize_bounds (n + 1)) as [Hm1 Hm2]; [split; [lia | exact Hle] |]. fold m in Hm1, Hm2.
  destruct (Store_Alloc_ok undef malloc malloc_ok s OLDEST DYNAMIC_LABEL m Hok ltac:(unfold OLDEST; lia) ltac:(vm_compute; split; discriminate) Hsz)
    as (q & s1 & E & Hok1 & Hq & Hal & Hmem & Hgr & Hss).
  destruct (new_header_spec OLDEST DYNAMIC_LABEL m ltac:(unfold OLDEST; lia) ltac:(vm_compute; split; discriminate) Hsz)
    as (_ & Hds & _). cbv zeta in Hds. set (h1 := new_header OLDEST DYNAMIC_LABEL m) in *.
  set (a0 := replicate (Z.to_nat m) undef) in *. assert (Hz0 : zlen a0 = m) by (apply zlen_replicate; lia).
  assert (Hset : aset a0 0 (EncodeInt 0) = Some (<[0%nat := EncodeInt 0]> a0)) by (by rewrite aset_Some by lia).
  set (a1 := <[0%nat := EncodeInt 0]> a0) in *. pose proof (aset_zlen _ _ _ _ Hset) as Hz1.
  set (hq := EncodeMutableFlag h1 1).
  assert (Hdq : DecodeSize hq = m).
  { rewrite <- Hds. unfold hq. rewrite !DecodeSize_fields. pose proof width_bounds. unfold fields_of. cbn [f_big f_size].
    autorewrite with header. by rewrite !(field_get_set_other h1 (STORE_WORD_WIDTH - 2) 1 1) by lia. }
  assert (Hpq : q <> p) by congruence.
  assert (Hblit : exists aq, blit args 0 a1 0 (zlen args) = Some aq /\ zlen aq = m /\ forall k, k < zlen args -> aget aq k = aget args k).
  { pose proof (zlen_nonneg args). rewrite blit_Some by lia. eexists. split; [done |]. split.
    - transitivity (zlen a1); [| congruence]. apply (blit_zlen args 0 a1 0 (zlen args)). by rewrite blit_Some by lia.
    - intros k Hk. rewrite ztake_0. unfold zseg. rewrite zdrop_0, ztake_all by lia. simpl. by rewrite aget_app_l by lia. }
  destruct Hblit as (aq & Hb & Hzq & Haq).
  exists q, (with_mem s1 (<[q := (hq, aq)]> (gc_mem s))), hq, aq.
  assert (Hq1 : gc_mem s1 !! q = Some (h1, a0)) by (by rewrite Hmem, lookup_insert_eq).
  split; [| split_and!; try done].
  - unfold Set_Enlarge, AllocDynamicBlock. fold m. rewrite E. cbn [mbind option_bind].
    rewrite (Block_InitArg_Some _ _ _ _ _ _ Hq1) by lia. cbn [mbind option_bind]. fold a1.
    erewrite Header_Some by (simpl; by rewrite lookup_insert_eq). cbn [mbind option_bind].
    erewrite SetHeader_Some by (simpl; by rewrite lookup_insert_eq). cbn [mbind option_bind]. simpl gc_mem.
    rewrite Hmem, !insert_insert_eq. fold hq. unfold memcpy_words. simpl. rewrite (lookup_insert_ne _ q p) by done; rewrite Hm; simpl; rewrite lookup_insert_eq. simpl.
    replace (zlen args - 1 + 1) with (zlen args) by lia. change (<[Z.to_nat 0:=EncodeInt 0]> a0) with a1; rewrite Hb. simpl. by rewrite insert_insert_eq.
  - pose proof (with_mem_ok s1 q h1 a0 hq aq Hok1 Hq1 ltac:(congruence)) as Hx. by rewrite Hmem, insert_insert_eq in Hx.
  - congruence.
  - by rewrite Hzq.
  - lia.
  - apply (grown_new s s1 OLDEST q m); [done | lia | done].
  - intros g r Hr. apply (grown_in_gen s s1 OLDEST q m g r); [lia | done | done].
Qed.

Lemma Set_Add_ok s p h es w : mem_ok s -> set_at s p h es -> set_room h es ->
  exists q s', Set_Add undef malloc s p w OLDEST = Some (q, s') /\ grows_set s p w s' q es.
Proof.
  intros Hok Hset [H2 Hroom]. pose proof (set_active _ _ _ _ _ _ Hset) as Hact.
  destruct Hset as (args & Hm & Hd & Hs & H0 & _ & Hcap & Hes & _). change (zlen (@nil Z)) with 0 in Hcap. rewrite Hd in *.
  unfold Set_Add. rewrite Hact. cbn [mbind option_bind]. rewrite (Header_Some _ _ _ _ Hm). cbn [mbind option_bind]. rewrite Hd.
  destruct (Z.ltb_spec (zlen es + 1) (zlen args - 1)) as [Hlt | Hge].
  - destruct (set_store s p h args es w Hm Hd Hs ltac:(lia) Hes) as (a' & E & Hz & Hset').
    exists p, (with_mem s (<[p := (h, a')]> (gc_mem s))). split.
    { cbn [mbind option_bind]. apply bind_Some_inv in E as (s1 & -> & E). cbn [mbind option_bind]. by rewrite E. }
    split; [by eapply with_mem_ok |]. split; [by exists h |]. split_and!; try done; [| by left].
    intros r b Hr Hb. simpl. by rewrite lookup_insert_ne.
  - destruct Hroom as [| [Hle Hsz]]; [lia |]. unfold enlarged_size in Hsz. rewrite Hd in Hsz.
    destruct (Set_Enlarge_ok s p h args _ Hok Hm Hd ltac:(lia) eq_refl Hle Hsz)
      as (q & s1 & hq & aq & E & Hok1 & Hq & Hm1 & Hdq & Hsq & Hbig & Haq & Hin & Hpl & Hss).
    rewrite E. cbn [mbind option_bind].
    assert (Hq1 : gc_mem s1 !! q = Some (hq, aq)) by (by rewrite Hm1, lookup_insert_eq).
    destruct (set_store s1 q hq aq es w Hq1 Hdq Hsq ltac:(lia)) as (a' & E' & Hz & Hset').
    { intros k e He. pose proof (aget_Some_lt _ _ _ He). rewrite Haq by lia. by apply Hes. }
    exists q, (with_mem s1 (<[q := (hq, a')]> (gc_mem s1))). split.
    { apply bind_Some_inv in E' as (s2 & -> & E'). cbn [mbind option_bind]. by rewrite E'. }
    split; [by eapply with_mem_ok |]. split; [by exists hq |]. split_and!; try done; [| by right].
    intros r b Hr Hb. simpl. rewrite lookup_insert_ne by congruence. rewrite Hm1, lookup_insert_ne by congruence. done.
Qed.

(** ** The graph after the update of an argument *)

Lemma derefs_update O p h args h' args' n w d : O !! p = Some (h, args) -> DecodeLabel h <> REF_LABEL ->
  DecodeLabel h' = DecodeLabel h -> derefs O n w d -> derefs (<[p := (h', args')]> O) n w d.
Proof.
  intros HO Hl El. induction 1 as [w Hw | w hw aw Hw Hm Hs | w hw aw u n d Hw Hm Hn Hlw Ha _ IH]; [by apply derefs_word | |].
  - destruct (decide (RemoveTag w = p)) as [E |].
    + eapply derefs_block; [done | by rewrite E, lookup_insert_eq | right; congruence].
    + eapply derefs_block; [done | by rewrite lookup_insert_ne | done].
  - assert (RemoveTag w <> p) by (intros E; simplify_eq; congruence).
    eapply derefs_link; [done | by rewrite lookup_insert_ne | done ..].
Qed.

(** The words a graph may store: those that dereference to an integer or a block
    of the graph. *)
Definition word_in O w : Prop := exists d, deref_to O w d /\ good O d.

Lemma word_in_block O w : word_in O w -> IsInt w = false -> exists h args, O !! RemoveTag w = Some (h, args).
Proof.
  intros (d & [n Hd] & Hg) Hi. inversion Hd; subst; eauto. destruct Hg as [| (h & args & ? & _)]; [congruence | eauto].
Qed.

Lemma word_in_update O p h args h' args' w : O !! p = Some (h, args) -> DecodeLabel h <> REF_LABEL ->
  DecodeLabel h' = DecodeLabel h -> word_in O w -> word_in (<[p := (h', args')]> O) w.
Proof.
  intros HO Hl El (d & [n Hd] & Hg). exists d. split; [exists n; by eapply derefs_update |].
  destruct Hg as [| (hd & ad & Hm & Hd')]; [by left | right]. destruct (decide (RemoveTag d = p)) as [E |].
  - rewrite E, lookup_insert_eq. exists h', args'. split; [done | congruence].
  - exists hd, ad. by rewrite lookup_insert_ne.
Qed.

(** Argument [i] of the block [(h, args)] is a word that is not the number of
    scanned words. *)
Definition field_ok (h : Z) (args : list Z) (i : Z) : Prop :=
  DecodeLabel h <> REF_LABEL /\ 0 <= i < scan_size h args /\ (DecodeLabel h = DYNAMIC_LABEL -> i <> 0).

Lemma aset_scan_size h h' args args' i v : aset args i v = Some args' -> DecodeLabel h' = DecodeLabel h ->
  (DecodeLabel h = DYNAMIC_LABEL -> i <> 0) -> scan_size h' args' = scan_size h args.
Proof.
  intros Ha El Hd. unfold scan_size. rewrite El, (aset_zlen _ _ _ _ Ha). case_Zb; [done |]. case_Zb; [| done].
  by rewrite (aget_aset_ne _ _ _ _ _ Ha) by auto.
Qed.

Lemma graph_update O p h args h' args' i v : graph_ok O -> O !! p = Some (h, args) -> hkey h' = hkey h ->
  aset args i v = Some args' -> field_ok h args i -> word_in O v -> graph_ok (<[p := (h', args')]> O).
Proof.
  intros HO Hp Hk Ha (Hl & Hi & Hdyn) Hv q hq aq Hq. destruct (hkey_decode Hk) as (El & Es & Em & Eg & Ev).
  assert (Hwords : forall w, word_in O w -> word_in (<[p := (h', args')]> O) w) by (intros w; by eapply word_in_update).
  destruct (decide (q = p)) as [-> | Hne].
  2: { rewrite lookup_insert_ne in Hq by done. destruct (HO _ _ _ Hq) as [B1 B2 B3 B4 B5 B6 B7]. constructor; try done. intros k w Hw Hk1.
       apply Hwords. by apply (B7 k w). }
  rewrite lookup_insert_eq in Hq. injection Hq as <- <-. destruct (HO _ _ _ Hp) as [B1 B2 B3 B4 B5 B6 B7].
  pose proof (aset_zlen _ _ _ _ Ha) as Hz. constructor; rewrite ?El, ?Es, ?Ev, ?Hz; try done.
  - intros Hd. destruct (B5 Hd) as (w & Hw & ? & ?). exists w. by rewrite (aget_aset_ne _ _ _ _ _ Ha) by auto.
  - intros k w Hw Hk'. rewrite (aset_scan_size h h' _ _ _ _ Ha El Hdyn) in Hk'. apply Hwords. destruct (decide (k = i)) as [-> |].
    + rewrite (aget_aset_eq _ _ _ _ Ha) in Hw. by injection Hw as <-.
    + rewrite (aget_aset_ne _ _ _ _ _ Ha) in Hw by done. by apply (B7 k w).
Qed.

(** The blocks of the state after an update, when no older set was touched. *)
Lemma update_wf s s' O es es' fs p h args h' args' i v :
  gc_wf s O es fs -> O !! p = Some (h, args) -> hkey h' = hkey h -> aset args i v = Some args' -> field_ok h args i ->
  word_in O v -> mem_ok s' -> gc_mem s' !! p = Some (h', args') ->
  (forall r b, r <> p -> r <> gc_intgen s -> gc_mem s !! r = Some b -> gc_mem s' !! r = Some b) ->
  (forall g r, in_gen s g r -> in_gen s' g r) ->
  gc_wkdict s' = gc_wkdict s -> gc_fin s' = gc_fin s -> gc_mapLs s' = gc_mapLs s ->
  (exists hs, set_at s' (gc_intgen s') hs es') ->
  (gc_intgen s' = gc_intgen s \/ (gc_mem s !! gc_intgen s' = None /\ in_gen s' OLDEST (gc_intgen s'))) ->
  (es' = es /\ h' = h /\ (p ∈ RemoveTag <$> es \/ IsInt v = true \/
       exists hv av, O !! RemoveTag v = Some (hv, av) /\ DecodeGeneration h <= DecodeGeneration hv) \/
   es' = es ++ [EncodeBlock p] /\ IsChildish h = false /\ IsChildish h' = true) ->
  gc_wf s' (<[p := (h', args')]> O) es' fs.
Proof.
  intros W HO Hk Ha Hf Hv Hok Hp Hother Hgen E2 E3 E4 Hset Hnew Hcase. pose proof Hf as (Hl & Hi & Hdyn).
  destruct (hkey_decode Hk) as (El & Es & Em & Eg & Ev). pose proof (gw_sub _ _ _ _ W) as Hsub.
  assert (Hp4 : p mod 4 = 0) by (apply (mem_aligned s p (h, args)); [apply (gw_mem _ _ _ _ W) | by eapply lookup_weaken]).
  pose proof (gw_sets _ _ _ _ W) as Hsets. pose proof (gw_distinct _ _ _ _ W) as Hdist.
  rewrite !Forall_cons in Hsets. destruct Hsets as ([HI1 HI2] & [HW1 HW2] & [HF1 HF2] & _).
  assert (HpE : RemoveTag (EncodeBlock p) = p) by (rewrite EncodeBlock_id, RemoveTag_mod; lia).
  assert (Hframe : forall q hq l, q <> gc_intgen s -> O !! q = None -> set_at s q hq l -> set_at s' q hq l).
  { intros q hq l Hne Hout Hq. eapply set_frame; [| exact Hq]. destruct Hq as (a & Hm & _). rewrite Hm. apply Hother; [congruence | done | done]. }
  rewrite !NoDup_cons, !elem_of_cons in Hdist. destruct Hdist as (Hd1 & Hd2 & _).
  assert (Hrec : forall q, q ∈ RemoveTag <$> es' <-> q ∈ RemoveTag <$> es \/ (q = p /\ IsChildish h = false /\ IsChildish h' = true)).
  { intros q. destruct Hcase as [(-> & -> & _) | (-> & Hc)]; [split; [by left | intros [| (_ & ? & ?)]; [done | congruence]] |].
    rewrite fmap_app, elem_of_app. simpl. rewrite list_elem_of_singleton, HpE. clear - Hc. tauto. }
  constructor.
  - done.
  - eapply graph_update; eauto. apply (gw_graph _ _ _ _ W).
  - apply map_subseteq_spec. intros q b. destruct (decide (q = p)) as [-> |]; [by rewrite lookup_insert_eq, Hp |].
    rewrite lookup_insert_ne by done. intros Hq. apply Hother; [done | congruence |]. by eapply lookup_weaken.
  - intros q hq aq Hq. apply Hgen. destruct (decide (q = p)) as [-> |].
    + rewrite lookup_insert_eq in Hq. injection Hq as <- <-. rewrite Eg. by apply (gw_place _ _ _ _ W _ _ _ HO).
    + rewrite lookup_insert_ne in Hq by done. by apply (gw_place _ _ _ _ W _ _ _ Hq).
  - done.
  - destruct (gw_wkdict _ _ _ _ W) as [hw Hw]. exists hw. rewrite E2. apply Hframe; [intros E; apply Hd1; by left | done | done].
  - destruct (gw_fin _ _ _ _ W) as [hw Hw]. exists hw. rewrite E3. apply Hframe; [intros E; apply Hd1; by right; left | done | done].
  - rewrite E2, E3. destruct Hnew as [-> | [Hn _]]; [apply (gw_distinct _ _ _ _ W) |].
    pose proof (gw_distinct _ _ _ _ W) as [_ Hnd]%NoDup_cons. apply NoDup_cons. split; [| done].
    destruct (gw_wkdict _ _ _ _ W) as (? & ? & ? & _), (gw_fin _ _ _ _ W) as (? & ? & ? & _).
    rewrite !elem_of_cons. intros [E | [E | []%elem_of_nil]]; congruence.
  - rewrite E2, E3. assert (Hout : forall q, O !! q = None -> <[p := (h', args')]> O !! q = None).
    { intros q Hq. rewrite lookup_insert_ne by congruence. done. }
    rewrite !Forall_cons. split; [| split; [auto | split; [auto | done]]]. destruct Hnew as [-> | [Hn Hin]]; [auto |].
    split; [apply Hout | done]. destruct (O !! gc_intgen s') eqn:E; [| done]. by rewrite (lookup_weaken _ _ _ _ E Hsub) in Hn.
  - rewrite E4. apply (gw_maps _ _ _ _ W).
  - assert (Hent : Forall (entry_ok (<[p := (h', args')]> O)) es).
    { eapply Forall_impl; [apply (gw_entries _ _ _ _ W) |]. intros e (He & he & ae & Hm & Hle). split; [done |].
      destruct (decide (RemoveTag e = p)) as [E |]; [| exists he, ae; by rewrite lookup_insert_ne].
      rewrite E in Hm |- *. rewrite lookup_insert_eq. exists h', args'. split; [done |]. rewrite El. congruence. }
    destruct Hcase as [(-> & _) | (-> & _)]; [done |]. apply Forall_app. split; [done |]. apply Forall_singleton. split.
    + rewrite EncodeBlock_id, IsInt_odd. apply negb_true_iff. rewrite Z.negb_odd, Z.even_spec. exists (p / 2). Z.div_mod_to_equations. lia.
    + rewrite HpE, lookup_insert_eq. exists h', args'. split; [done |]. rewrite El. unfold scan_size in Hi.
      destruct (Z.ltb_spec (DecodeLabel h) CHUNK_LABEL); [by left | right]. destruct (Z.eqb_spec (DecodeLabel h) DYNAMIC_LABEL); [done | lia].
  - destruct Hcase as [(-> & _) | (-> & Hc & _)]; [apply (gw_nodup _ _ _ _ W) |].
    rewrite fmap_app. simpl. rewrite HpE. apply NoDup_app. split_and!; [apply (gw_nodup _ _ _ _ W) | | apply NoDup_singleton].
    intros q Hq ->%list_elem_of_singleton. apply (gw_marked _ _ _ _ W _ _ _ HO) in Hq. congruence.
  - intros q hq aq. rewrite Hrec. destruct (decide (q = p)) as [-> |].
    + rewrite lookup_insert_eq. intros [= <- <-]. rewrite <- (gw_marked _ _ _ _ W _ _ _ HO).
      destruct Hcase as [(_ & -> & _) | (_ & -> & ->)]; [| tauto]. destruct (IsChildish h); [tauto |]. split; [done |]. by intros [|(_ & _ & ?)].
    + rewrite lookup_insert_ne by done. intros Hq. rewrite (gw_marked _ _ _ _ W _ _ _ Hq). tauto.
  - assert (Hkeep : forall q hq aq, O !! q = Some (hq, aq) -> exists h1 a1, <[p := (h', args')]> O !! q = Some (h1, a1) /\ DecodeGeneration h1 = DecodeGeneration hq).
    { intros q hq aq Hq. destruct (decide (q = p)) as [-> |]; [rewrite lookup_insert_eq | rewrite lookup_insert_ne by done; eauto].
      exists h', args'. split; [done | congruence]. }
    assert (Hkeep' : forall g w, (exists h1 a1, O !! RemoveTag w = Some (h1, a1) /\ g <= DecodeGeneration h1) ->
      exists h1 a1, <[p := (h', args')]> O !! RemoveTag w = Some (h1, a1) /\ g <= DecodeGeneration h1).
    { intros g w (h1 & a1 & Hm & Hle). destruct (Hkeep _ _ _ Hm) as (h2 & a2 & ? & ?). exists h2, a2. split; [done | lia]. }
    intros q hq aq k w Hq Hn Hw Hk1 Hint. rewrite Hrec in Hn. destruct (decide (q = p)) as [-> |].
    2: { rewrite lookup_insert_ne in Hq by done. apply Hkeep'. eapply (gw_barrier _ _ _ _ W); eauto. }
    rewrite lookup_insert_eq in Hq. injection Hq as <- <-. rewrite Eg. rewrite (aset_scan_size h h' _ _ _ _ Ha El Hdyn) in Hk1.
    destruct Hcase as [(-> & -> & Hc) | (-> & Hc)]; [| tauto]. apply Hkeep'. destruct (decide (k = i)) as [-> |].
    + rewrite (aget_aset_eq _ _ _ _ Ha) in Hw. injection Hw as <-. destruct Hc as [| [|]]; [tauto | congruence | done].
    + rewrite (aget_aset_ne _ _ _ _ _ Ha) in Hw by done. eapply (gw_barrier _ _ _ _ W); eauto.
Qed.

(** Recording a block of the graph in the remembered set. *)
Lemma AddToIntgenSet_ok s O es fs p h args i v args' :
  gc_wf s O es fs -> O !! p = Some (h, args) -> IsChildish h = false -> aset args i v = Some args' -> field_ok h args i ->
  word_in O v -> (forall hs, set_at s (gc_intgen s) hs es -> set_room hs es) ->
  exists s', AddToIntgenSet undef malloc (with_mem s (<[p := (h, args')]> (gc_mem s))) p = Some s' /\
    gc_wf s' (<[p := (SetChildishFlag h, args')]> O) (es ++ [EncodeBlock p]) fs.
Proof.
  intros W HO Hc Ha Hf Hv Hroom. pose proof (lookup_weaken _ _ _ _ HO (gw_sub _ _ _ _ W)) as Hm.
  destruct (gw_intgen _ _ _ _ W) as [hs Hset]. specialize (Hroom _ Hset).
  pose proof (gw_sets _ _ _ _ W) as Hsets. rewrite !Forall_cons in Hsets. destruct Hsets as ([Hout _] & _).
  set (s2 := with_mem s (<[p := (SetChildishFlag h, args')]> (gc_mem s))).
  assert (Hok2 : mem_ok s2) by (eapply with_mem_ok; [apply (gw_mem _ _ _ _ W) | exact Hm | by eapply aset_zlen]).
  assert (Hset2 : set_at s2 (gc_intgen s) hs es).
  { eapply set_frame; [| exact Hset]. simpl. rewrite lookup_insert_ne; [done | congruence]. }
  destruct (Set_Add_ok s2 (gc_intgen s) hs es (EncodeBlock p) Hok2 Hset2 Hroom) as (q & s3 & E & Hok3 & Hset3 & Hother & Hq & Hgen & Hss).
  destruct Hss as (S1 & S2 & S3 & S4). exists (with_intgen s3 q). split.
  - unfold AddToIntgenSet. erewrite Header_Some by (simpl; by rewrite lookup_insert_eq). cbn [mbind option_bind].
    erewrite SetHeader_Some by (simpl; by rewrite lookup_insert_eq). cbn [mbind option_bind]. simpl gc_mem. rewrite insert_insert_eq.
    change (with_mem (with_mem s (<[p := (h, args')]> (gc_mem s))) (<[p := (SetChildishFlag h, args')]> (gc_mem s))) with s2.
    change (gc_intgen s2) with (gc_intgen s). by rewrite E.
  - apply (update_wf s _ O es _ fs p h args _ _ i v W HO (SetChildish_hkey h) Ha Hf Hv); try done.
    + apply Hother; [congruence |]. simpl. by rewrite lookup_insert_eq.
    + intros r b Hr Hr' Hb. apply Hother; [done |]. simpl. by rewrite lookup_insert_ne.
    + simpl. destruct Hq as [-> | [Hn Hin]]; [by left | right]. split; [| done]. simpl in Hn.
      destruct (decide (q = p)) as [-> |]; [by rewrite lookup_insert_eq in Hn | by rewrite lookup_insert_ne in Hn].
    + right. split_and!; [done | done |]. by destruct (childish_flags h).
Qed.

End Barrier.

(** C3. The write barrier preserves the well-formedness of the store: replacing
    a word of a block by a word that dereferences within the graph succeeds and
    changes that word and nothing else of the graph; a block that now points to
    a younger generation is marked and recorded, once, in the remembered set,
    which grows into a larger block when it is full. *)
Theorem ReplaceArg_preserves_wf `{Platform} (undef : Z) (malloc : list (Z * Z) -> Z -> Z) (s : GC) (O : gmap Z (Z * list Z))
    (es fs : list Z) (p h i v : Z) (args : list Z) :
  malloc_fresh malloc -> gc_wf s O es fs -> O !! p = Some (h, args) -> field_ok h args i -> word_in O v ->
  (forall hs, set_at s (gc_intgen s) hs es -> set_room hs es) ->
  exists s' args', ReplaceArg undef malloc s p i v = Some s' /\ aset args i v = Some args' /\
    let young := negb (IsInt v) && (from_option (fun b => DecodeGeneration b.1) 0 (O !! RemoveTag v) <? DecodeGeneration h) in
    if young && negb (IsChildish h)
    then gc_wf s' (<[p := (SetChildishFlag h, args')]> O) (es ++ [EncodeBlock p]) fs
    else gc_wf s' (<[p := (h, args')]> O) es fs.
Proof.
  intros Hmalloc W HO Hf Hv Hroom. pose proof (lookup_weaken _ _ _ _ HO (gw_sub _ _ _ _ W)) as Hm.
  pose proof (gw_graph _ _ _ _ W _ _ _ HO) as Hb. pose proof Hf as (_ & Hi & _). pose proof (scan_size_range O h args Hb).
  assert (Ha : aset args i v = Some (<[Z.to_nat i := v]> args)) by (apply aset_Some; lia). set (args' := <[Z.to_nat i := v]> args) in *.
  set (s1 := with_mem s (<[p := (h, args')]> (gc_mem s))).
  assert (Hplain : p ∈ RemoveTag <$> es \/ IsInt v = true \/
      (exists hv av, O !! RemoveTag v = Some (hv, av) /\ DecodeGeneration h <= DecodeGeneration hv) ->
      gc_wf s1 (<[p := (h, args')]> O) es fs).
  { intros Hc. pose proof (gw_sets _ _ _ _ W) as Hsets. rewrite !Forall_cons in Hsets. destruct Hsets as ([Hout _] & _).
    apply (update_wf s s1 O es es fs p h args h args' i v W HO eq_refl Ha Hf Hv); try done; [| | | | by left | left; by split_and!].
    - eapply with_mem_ok; [apply (gw_mem _ _ _ _ W) | exact Hm | by eapply aset_zlen].
    - simpl. by rewrite lookup_insert_eq.
    - intros r b Hr _ Hr'. simpl. by rewrite lookup_insert_ne.
    - destruct (gw_intgen _ _ _ _ W) as [hs Hset]. exists hs. eapply set_frame; [| exact Hset]. simpl.
      rewrite lookup_insert_ne; [done | congruence]. }
  unfold ReplaceArg. rewrite (Block_InitArg_Some s p h args i v Hm) by lia. fold args' s1. cbn [mbind option_bind].
  destruct (IsInt v) eqn:Hint; simpl negb.
  { exists s1, args'. split; [done |]. split; [done |]. apply Hplain. by right; left. }
  destruct (word_in_block O v Hv Hint) as (hv & av & HOv). rewrite HOv. simpl from_option. cbn [andb].
  pose proof (lookup_weaken _ _ _ _ HOv (gw_sub _ _ _ _ W)) as Hmv.
  assert (Hhv : exists av', gc_mem s1 !! RemoveTag v = Some (hv, av')).
  { simpl. destruct (decide (RemoveTag v = p)) as [E |]; [rewrite E, lookup_insert_eq | rewrite lookup_insert_ne by done; eauto].
    rewrite E in HOv. rewrite HO in HOv. injection HOv as -> ->. eauto. }
  destruct Hhv as [av' Hhv]. rewrite (Header_Some _ _ _ _ Hhv), (Header_Some s1 p h args') by (simpl; by rewrite lookup_insert_eq).
  cbn [mbind option_bind]. destruct (Z.ltb_spec (DecodeGeneration hv) (DecodeGeneration h)) as [Hlt | Hge].
  2: { exists s1, args'. split_and!; try done. apply Hplain. right; right; eauto. }
  destruct (IsChildish h) eqn:Hc; simpl.
  - exists s1, args'. split_and!; try done. apply Hplain. left. by apply (gw_marked _ _ _ _ W _ _ _ HO).
  - destruct (AddToIntgenSet_ok undef malloc Hmalloc s O es fs p h args i v args' W HO Hc Ha Hf Hv Hroom) as (s' & E & W').
    exists s', args'. done.
Qed.

(** The integer of the sample root is replaced by a pointer through a reference. *)
Lemma ReplaceArg_preserves_wf_witness :
  exists s', ReplaceArg (H := P32) 0 bump_malloc sample_gc sample_root 2 4126 = Some s' /\
    gc_wf (H := P32) s' (<[sample_root := (EncodeHeader (H := P32) 5 3 0 0, [4116; 4126; 4126])]> sample_graph) [266312] [41; 43].
Proof.
  destruct (ReplaceArg_preserves_wf (H := P32) 0 bump_malloc sample_gc sample_graph [266312] [41; 43] sample_root
    (EncodeHeader (H := P32) 5 3 0 0) 2 4126 [4116; 4126; 19] bump_malloc_fresh sample_wf) as (s' & args' & E & Ea & W).
  - vm_compute. reflexivity.
  - vm_compute. split; [intros E; discriminate E |]. split; [split; [intros E; discriminate E | reflexivity] | intros _ E; discriminate E].
  - apply (bo_words (H := P32) (O := sample_graph) (h := EncodeHeader (H := P32) 5 3 0 0) (args := [4116; 4126; 19])
      (sample_graph_ok sample_root _ _ ltac:(vm_compute; reflexivity)) (i := 1)); vm_compute; reflexivity.
  - intros hs (args & Hm & _). vm_compute in Hm. injection Hm as <- _. split; [vm_compute; discriminate | left; vm_compute; reflexivity].
  - injection Ea as <-. exists s'. split; [exact E | exact W].
Defined.
