(* ===== verification/GCProps.v ===== *)
(** * Properties of the garbage collector *)

From S2P Require Import Prelude Config HeaderOp PointerOp Heap GC GCMem GCGraph GCForward GCScan GCSet GCIntgen GCCollect.
From S2P Require Import GCWf GCRelease GCThm GCSample.

Section Reach.
Context `{Platform}.
Implicit Types (O : gmap Z (Z * list Z)) (p : Z).

(** The blocks an isomorphism defined on the old blocks keeps are at least the
    reachable ones. *)
Lemma iso_reach O O' gen m root root' p :
  heap_iso O O' m root root' ->
  (forall q b, O !! q = Some b -> fromb O gen root q = false -> m q = Some q) ->
  reach O gen root p -> is_Some (m p).
Proof.
  intros Hiso Hold. induction 1 as [| p b HO Hf | p h args i a d _ [q Hq] HO Ha Hi Hd Hint].
  - by rewrite (iso_root _ _ _ _ _ Hiso).
  - by rewrite (Hold _ _ HO Hf).
  - destruct (iso_block _ _ _ _ _ Hiso _ _ Hq) as (h0 & a0 & h' & args' & HO0 & _ & _ & _ & _ & _ & Hargs).
    rewrite HO in HO0. injection HO0 as <- <-. destruct (Hargs i a Ha) as (a' & _ & Hw).
    destruct (Z.ltb_spec i (scan_size h args)); [| lia]. destruct Hw as (d0 & d' & Hd0 & _ & Hr).
    rewrite (deref_to_fun _ _ _ _ Hd Hd0). unfold rename in Hr. rewrite <- (deref_to_fun _ _ _ _ Hd Hd0), Hint in *.
    by destruct (m (RemoveTag d)).
Qed.

End Reach.

(** C2. A collection ends and preserves the well-formedness of the store: from
    any well-formed state, with the root block reached from nowhere else and
    fuel for twice the number of blocks, [DoGCWithoutFinalize] returns, minor
    or major, in a state whose ordinary blocks again have valid headers and
    words, lie in the generation of their header, and whose remembered set
    holds exactly the marked blocks, among them every block that points to a
    younger generation; the status word no longer asks for a collection. *)
Theorem DoGC_preserves_wf `{Platform} (undef : Z) (malloc : list (Z * Z) -> Z -> Z) (fuel : nat) (s : GC)
    (O : gmap Z (Z * list Z)) (es fs : list Z) (root tol : Z) :
  malloc_fresh malloc -> gc_wf s O es fs -> root_ok O root -> (2 * size O + 1 <= fuel)%nat ->
  exists root' s' O' es', DoGCWithoutFinalize undef malloc fuel s root tol = Some (root', s') /\
    gc_wf s' O' es' fs /\ is_Some (O' !! root') /\ NeedGC (gc_heap s') = 0.
Proof.
  intros Hm W Hr Hf. destruct (DoGC_collects undef malloc Hm fuel s O es fs root tol W Hr Hf)
    as (g & root' & s' & O' & es' & _ & _ & E & (W' & m & Hiso & _) & Hn).
  exists root', s', O', es'. split_and!; try done.
  destruct (iso_block _ _ _ _ _ Hiso _ _ (iso_root _ _ _ _ _ Hiso)) as (? & ? & ? & ? & _ & -> & _). done.
Qed.

(** C1. The graph that a collection leaves is isomorphic to the original one, up
    to the reference chains it shortens: a one-to-one map of addresses takes
    the root to the new root and every block to one with the same label, size,
    mutable flag and data, whose words dereference to the images of what the
    original words dereference to; blocks of older generations stay in place. *)
Theorem DoGC_isomorphic `{Platform} (undef : Z) (malloc : list (Z * Z) -> Z -> Z) (fuel : nat) (s : GC)
    (O : gmap Z (Z * list Z)) (es fs : list Z) (root tol : Z) :
  malloc_fresh malloc -> gc_wf s O es fs -> root_ok O root -> (2 * size O + 1 <= fuel)%nat ->
  exists (g : nat) root' s' O' m, gc_range (st_roots (gc_heap s)) OLDEST = Some g /\
    DoGCWithoutFinalize undef malloc fuel s root tol = Some (root', s') /\ O' ⊆ gc_mem s' /\
    heap_iso O O' m root root' /\
    (forall p h args, O !! p = Some (h, args) -> Z.of_nat g < DecodeGeneration h -> p <> root -> m p = Some p).
Proof.
  intros Hm W Hr Hf. destruct (DoGC_collects undef malloc Hm fuel s O es fs root tol W Hr Hf)
    as (g & root' & s' & O' & es' & Eg & _ & E & (W' & m & Hiso & _ & Hold & _) & Hn).
  exists g, root', s', O', m. split_and!; try done; [apply (gw_sub _ _ _ _ W') |].
  intros p h args HO Hlt. apply (Hold p h args HO). lia.
Qed.

(** C4. What a collection of the generations up to [g] leaves in memory is
    exactly what is reachable from the root or from a block of an older
    generation.  Every reachable block is in the memory of the final state, at
    its image under an isomorphism.  Every block that is not reachable is gone,
    and so are the originals of those that were moved out of the collected
    generations.  And nothing else is in memory than these images, the three
    sets of the collector, and what lay in older generations and is no ordinary
    block or is the old copy of the root ([left_alone]).  In a collection of all
    generations only the root makes blocks reachable. *)
Theorem DoGC_keeps_reachable `{Platform} (undef : Z) (malloc : list (Z * Z) -> Z -> Z) (fuel : nat) (s : GC)
    (O : gmap Z (Z * list Z)) (es fs : list Z) (root tol : Z) :
  malloc_fresh malloc -> gc_wf s O es fs -> root_ok O root -> (2 * size O + 1 <= fuel)%nat ->
  exists (g : nat) root' s' O' m, gc_range (st_roots (gc_heap s)) OLDEST = Some g /\
    DoGCWithoutFinalize undef malloc fuel s root tol = Some (root', s') /\
    heap_iso O O' m root root' /\ O' ⊆ gc_mem s' /\
    (forall p, is_Some (m p) <-> reach O (S g) root p) /\
    (forall p, is_Some (O !! p) -> ~ reach O (S g) root p -> gc_mem s' !! p = None) /\
    (forall p h args, O !! p = Some (h, args) -> DecodeGeneration h <= Z.of_nat g -> gc_mem s' !! p = None) /\
    (forall q, is_Some (gc_mem s' !! q) -> (exists p, reach O (S g) root p /\ m p = Some q) \/
       q ∈ [gc_intgen s'; gc_wkdict s'; gc_fin s'] \/ left_alone (S g) s O root q) /\
    (g = OLDEST -> forall p, reach O (S g) root p -> p = root \/
       exists p0 h args i a d, reach O (S g) root p0 /\ O !! p0 = Some (h, args) /\ aget args i = Some a /\
         i < scan_size h args /\ deref_to O a d /\ IsInt d = false /\ p = RemoveTag d).
Proof.
  intros Hm W Hr Hf. destruct (DoGC_collects undef malloc Hm fuel s O es fs root tol W Hr Hf)
    as (g & root' & s' & O' & es' & Eg & _ & E & (W' & m & Hiso & Hre & Hold & Hyoung & Hall) & Hn).
  assert (Hlt : forall p h args, O !! p = Some (h, args) -> DecodeGeneration h <= Z.of_nat g -> gc_mem s' !! p = None).
  { intros p h args HO Hle. apply (Hyoung p h args HO). lia. }
  exists g, root', s', O', m. split_and!; try done; [apply (gw_sub _ _ _ _ W') | | | |].
  - intros p. split; [intros [q Hq]; by apply (Hre p q) | apply (iso_reach O O' (S g) m root root' p Hiso)].
    intros q [h args] HO Hfq. apply (Hold q h args HO); unfold fromb in Hfq; rewrite HO in Hfq; simpl in Hfq;
      apply orb_false_iff in Hfq as [Hge%Z.ltb_ge Hne%Z.eqb_neq]; done.
  - intros p [[h args] HO] Hnot. apply (Hlt p h args HO). destruct (Z.le_gt_cases (DecodeGeneration h) (Z.of_nat g)) as [| Hgt]; [done |].
    destruct Hnot. destruct (decide (p = root)) as [-> | Hne]; [apply reach_root |]. apply (reach_old O (S g) root p (h, args) HO).
    unfold fromb. rewrite HO. simpl. apply orb_false_iff. split; [apply Z.ltb_ge; lia | by apply Z.eqb_neq].
  - intros q Hq. destruct (Hall q Hq) as [[p Hp] | Hc]; [left; exists p; split; [by apply (Hre p q) | done] | by right].
  - intros -> p. destruct 1 as [| p [h args] HO Hfp | p h args i a d Hp HO Ha Hi Hd Hint]; [by left | | right].
    + exfalso. pose proof (unmoved_generation _ (bo_unmoved (gw_graph _ _ _ _ W _ _ _ HO))).
      unfold fromb in Hfp. rewrite HO in Hfp. simpl in Hfp. apply orb_false_iff in Hfp as [Hge%Z.ltb_ge _]. unfold OLDEST in Hge. lia.
    + exists p, h, args, i, a, d. done.
Qed.

(** C40. Without weak dictionaries the set of values to finalize survives a
    collection unchanged: it is not cleared, and its words are not even
    relocated, so that [DoFinalize] calls the handlers of the previous
    collection again, with words that may point into released memory. *)
Theorem DoGC_finalizes_again `{Platform} (undef : Z) (malloc : list (Z * Z) -> Z -> Z) (Finalize : Z -> Z -> GC -> option GC)
    (fuel : nat) (s : GC) (O : gmap Z (Z * list Z)) (es : list Z) (value handler root tol : Z) :
  malloc_fresh malloc -> gc_wf s O es [value; handler] -> root_ok O root -> (2 * size O + 1 <= fuel)%nat ->
  exists root' s', DoGCWithoutFinalize undef malloc fuel s root tol = Some (root', s') /\
    DoGC undef malloc Finalize fuel s root tol =
      (s'' ← Finalize (DirectDecodeUnmanagedPointer handler) value s'; Some (root', s'')).
Proof.
  intros Hm W Hr Hf. destruct (DoGC_collects undef malloc Hm fuel s O es _ root tol W Hr Hf)
    as (g & root' & s' & O' & es' & _ & _ & E & (W' & _) & _).
  exists root', s'. split; [done |]. destruct (gw_fin _ _ _ _ W') as [h Hset].
  unfold DoGC. rewrite E. cbn [mbind option_bind]. unfold DoFinalize. rewrite (set_active _ _ _ _ _ _ Hset). cbn [mbind option_bind].
  change (Z.to_nat (zlen [value; handler])) with 2%nat. cbn [finalize_pairs]. change (Z.of_nat 1) with 1; change (Z.of_nat 0) with 0.
  rewrite (Set_GetArg_ok _ _ _ _ 1 handler Hset eq_refl), (Set_GetArg_ok _ _ _ _ 0 value Hset eq_refl).
  cbn [mbind option_bind]. by destruct (Finalize _ _ _).
Qed.

(** A cloned block's header is the address of its copy. *)
Lemma CloneBlock_marks `{Platform} (undef : Z) (malloc : list (Z * Z) -> Z -> Z) s p gen newp s1 :
  CloneBlock undef malloc s p gen = Some (newp, s1) -> Header s1 p = Some newp.
Proof.
  unfold CloneBlock. intros Hc. inv_bind Hc. inv_bind Hc. destruct x0 as [q s2]. inv_bind Hc. inv_bind Hc. inv_bind Hc.
  destruct (negb (AlreadyMoved q)); [done |]. inv_bind Hc. injection Hc as <- <-.
  match goal with Hs : SetHeader _ _ _ = Some _ |- _ => unfold SetHeader in Hs; inv_bind Hs; injection Hs as <- end.
  unfold Header. simpl. by rewrite lookup_insert_eq.
Qed.

(** In the weak phase the label of a value that was not reached is read from
    the forward pointer that replaced its header: unless the address happens to
    carry the label of a weak dictionary, the value is removed and recorded for
    finalization, also when it is a dictionary with entries. *)
Theorem weak_value_always_finalized `{Platform} (undef : Z) (malloc : list (Z * Z) -> Z -> Z) (s : GC) (gen : nat)
    (dict k prev node handler v val h newp : Z) (args : list Z) (s1 : GC) :
  Block_GetArg s node VALUE_POS = Some v -> GC_Deref s v = Some val -> IsInt val = false ->
  gc_mem s !! RemoveTag val = Some (h, args) -> AlreadyMoved h = false -> DecodeGeneration h < Z.of_nat gen ->
  CloneBlock undef malloc s (RemoveTag val) gen = Some (newp, s1) -> DecodeLabel newp <> WEAK_MAP_LABEL ->
  weak_node undef malloc s dict k prev node handler gen =
    (s2 ← RemoveEntry undef malloc s1 dict k prev node;
     s3 ← fin_add undef malloc s2 (EncodeTag newp (DecodeTag val)) gen;
     s4 ← fin_add undef malloc s3 handler gen; Some (true, s4)).
Proof.
  intros Hv Hd Hi Hm Hmv Hg Hc Hl. unfold weak_node. rewrite Hv. cbn [mbind option_bind]. rewrite Hd. cbn [mbind option_bind].
  rewrite Hi, (Header_Some _ _ _ _ Hm). cbn [mbind option_bind]. rewrite Hmv.
  destruct (Z.ltb_spec (DecodeGeneration h) (Z.of_nat gen)) as [_ |]; [| lia].
  unfold ForwardBlock. rewrite Hi, (Header_Some _ _ _ _ Hm). cbn [mbind option_bind]. rewrite Hmv.
  destruct (Z.ltb_spec (DecodeGeneration h) (Z.of_nat gen)) as [_ |]; [| lia]. rewrite Hc. cbn [mbind option_bind].
  rewrite (CloneBlock_marks _ _ _ _ _ _ _ Hc). cbn [mbind option_bind]. by apply Z.eqb_neq in Hl as ->.
Qed.

(** ** Witnesses *)

Lemma DoGC_preserves_wf_witness :
  exists root' s' O' es', DoGCWithoutFinalize (H := P32) 0 bump_malloc 11 sample_gc sample_root 40 = Some (root', s') /\
    gc_wf (H := P32) s' O' es' [41; 43] /\ is_Some (O' !! root') /\ NeedGC (gc_heap s') = 0.
Proof.
  apply (DoGC_preserves_wf (H := P32) 0 bump_malloc 11 sample_gc sample_graph [266312] [41; 43] sample_root 40
    bump_malloc_fresh sample_wf sample_root_ok). vm_compute. lia.
Defined.

Lemma DoGC_isomorphic_witness :
  exists (g : nat) root' s' O' m, gc_range (st_roots (gc_heap sample_gc)) OLDEST = Some g /\
    DoGCWithoutFinalize (H := P32) 0 bump_malloc 11 sample_gc sample_root 40 = Some (root', s') /\ O' ⊆ gc_mem s' /\
    heap_iso (H := P32) sample_graph O' m sample_root root' /\
    (forall p h args, sample_graph !! p = Some (h, args) -> Z.of_nat g < DecodeGeneration (H := P32) h -> p <> sample_root -> m p = Some p).
Proof.
  apply (DoGC_isomorphic (H := P32) 0 bump_malloc 11 sample_gc sample_graph [266312] [41; 43] sample_root 40
    bump_malloc_fresh sample_wf sample_root_ok). vm_compute. lia.
Defined.

(** The dead block of the sample state is not kept. *)
Lemma DoGC_keeps_reachable_witness :
  exists (g : nat) root' s' O' m, gc_range (st_roots (gc_heap sample_gc)) OLDEST = Some g /\
    DoGCWithoutFinalize (H := P32) 0 bump_malloc 11 sample_gc sample_root 40 = Some (root', s') /\
    heap_iso (H := P32) sample_graph O' m sample_root root' /\ O' ⊆ gc_mem s' /\
    (forall p, is_Some (m p) <-> reach (H := P32) sample_graph (S g) sample_root p) /\
    (forall p, is_Some (sample_graph !! p) -> ~ reach (H := P32) sample_graph (S g) sample_root p -> gc_mem s' !! p = None) /\
    (forall p h args, sample_graph !! p = Some (h, args) -> DecodeGeneration (H := P32) h <= Z.of_nat g -> gc_mem s' !! p = None) /\
    (forall q, is_Some (gc_mem s' !! q) -> (exists p, reach (H := P32) sample_graph (S g) sample_root p /\ m p = Some q) \/
       q ∈ [gc_intgen s'; gc_wkdict s'; gc_fin s'] \/ left_alone (S g) sample_gc sample_graph sample_root q) /\
    (g = OLDEST -> forall p, reach (H := P32) sample_graph (S g) sample_root p -> p = sample_root \/
       exists p0 h args i a d, reach (H := P32) sample_graph (S g) sample_root p0 /\ sample_graph !! p0 = Some (h, args) /\ aget args i = Some a /\
         i < scan_size (H := P32) h args /\ deref_to (H := P32) sample_graph a d /\ IsInt d = false /\ p = RemoveTag d).
Proof.
  apply (DoGC_keeps_reachable (H := P32) 0 bump_malloc 11 sample_gc sample_graph [266312] [41; 43] sample_root 40
    bump_malloc_fresh sample_wf sample_root_ok). vm_compute. lia.
Defined.

Lemma DoGC_finalizes_again_witness :
  exists root' s', DoGCWithoutFinalize (H := P32) 0 bump_malloc 11 sample_gc sample_root 40 = Some (root', s') /\
    DoGC (H := P32) 0 bump_malloc (fun _ _ _ => None) 11 sample_gc sample_root 40 = None.
Proof.
  destruct (DoGC_finalizes_again (H := P32) 0 bump_malloc (fun _ _ _ => None) 11 sample_gc sample_graph [266312] 41 43 sample_root 40
    bump_malloc_fresh sample_wf sample_root_ok) as (root' & s' & E & E'); [vm_compute; lia |]. exists root', s'. split; [exact E | exact E'].
Defined.

(** A dictionary with three entries as the value of a node. *)
Definition weak_sample : GC :=
  with_mem sample_gc (<[ 4140 := (EncodeHeader (H := P32) WEAK_MAP_LABEL 4 0 1, [7; 1; 1; 1]) ]>
    (<[ 4160 := (EncodeHeader (H := P32) HASHNODE_LABEL 3 0 1, [3; 4140; 1]) ]> (gc_mem sample_gc))).

Lemma weak_value_always_finalized_witness :
  GetCounter (H := P32) weak_sample 4140 = Some 3 /\
  match CloneBlock (H := P32) 0 bump_malloc weak_sample 4140 1 with
  | Some (newp, s1) => weak_node (H := P32) 0 bump_malloc weak_sample 4180 0 1 4160 43 1 =
      (s2 ← RemoveEntry (H := P32) 0 bump_malloc s1 4180 0 1 4160;
       s3 ← fin_add (H := P32) 0 bump_malloc s2 (EncodeTag newp (DecodeTag 4140)) 1;
       s4 ← fin_add (H := P32) 0 bump_malloc s3 43 1; Some (true, s4))
  | None => False
  end.
Proof.
  split; [vm_compute; reflexivity |].
  assert (Hf : option_map fst (CloneBlock (H := P32) 0 bump_malloc weak_sample 4140 1) = Some 135176) by (vm_compute; reflexivity).
  destruct (CloneBlock (H := P32) 0 bump_malloc weak_sample 4140 1) as [[newp s1] |] eqn:E; [| discriminate Hf].
  injection Hf as ->.
  apply (weak_value_always_finalized (H := P32) 0 bump_malloc weak_sample 1 4180 0 1 4160 43 4140 4140
    (EncodeHeader (H := P32) WEAK_MAP_LABEL 4 0 1) 135176 [7; 1; 1; 1] s1); try (vm_compute; reflexivity);
    [exact E | vm_compute; discriminate].
Defined.
