(* ===== verification/Thread.v ===== *)
(** * Threads, task stacks and exception handlers
    (seam/generic/Thread.hh, TaskStack.cc, StackFrame.hh, Worker.hh)

    [I] is the type of the interpreters (the language layer's workers), which
    the generic VM calls through the Worker interface.  A task stack is the
    list of its frames, the top frame first, with the size of its memory; the
    word index of a frame is the height of the stack below its top. *)

From S2P Require Import Prelude Config HeaderOp.

(** ** Words, workers and frames *)

(** The primitives on threads, futures and holes (alice/vm-seam/alice/
    primitives/Thread.cc, Future.cc, Hole.cc). *)
Inductive primitive :=
  | Thread_current | Thread_isSuspended | Thread_raiseIn | Thread_resume | Thread_state
  | Thread_suspend | Thread_yield
  | Future_await | Future_byneed | Future_concur | Future_isByneed | Future_status
  | Hole_fail | Hole_fill | Hole_future | Hole_hole | Hole_isHole.

Inductive worker (I : Type) :=
  | EmptyTaskWorker | UncaughtExceptionWorker | BindFutureWorker | PushCallWorker | RaiseWorker
  | PrimitiveWorker (p : primitive)
  | UserWorker (i : I).
Arguments EmptyTaskWorker {I}.
Arguments UncaughtExceptionWorker {I}.
Arguments BindFutureWorker {I}.
Arguments PushCallWorker {I}.
Arguments RaiseWorker {I}.
Arguments PrimitiveWorker {I} _.
Arguments UserWorker {I} _.

(** Words as the VM sees them: integers, unmanaged worker pointers, references
    to transients, threads and backtraces, and immutable blocks. *)
Inductive word (I : Type) :=
  | WInt (z : Z)
  | WWorker (w : worker I)
  | WTransient (a : positive)
  | WThread (t : positive)
  | WBacktrace (b : positive)
  | WTuple (l : list (word I))
  | WClosure (concreteCode : word I) (globals : list (word I))
  | WConcreteCode (interpreter : worker I).
Arguments WInt {I} _.
Arguments WWorker {I} _.
Arguments WTransient {I} _.
Arguments WThread {I} _.
Arguments WBacktrace {I} _.
Arguments WTuple {I} _.
Arguments WClosure {I} _ _.
Arguments WConcreteCode {I} _.

Record Frame (I : Type) := mkFrame { f_worker : worker I; f_args : list (word I) }.
Arguments mkFrame {I} _ _.
Arguments f_worker {I} _.
Arguments f_args {I} _.

Record TaskStack (I : Type) := mkTaskStack { ts_frames : list (Frame I); ts_size : Z }.
Arguments mkTaskStack {I} _ _.
Arguments ts_frames {I} _.
Arguments ts_size {I} _.

Inductive handler_state := TRYING | HANDLING.

Record Handler (I : Type) := mkHandler { h_frame : Z; h_state : handler_state; h_data : word I }.
Arguments mkHandler {I} _ _ _.
Arguments h_frame {I} _.
Arguments h_state {I} _.
Arguments h_data {I} _.

Inductive state := BLOCKED | RUNNABLE | TERMINATED.
#[export] Instance state_eq_dec : EqDecision state.
Proof. solve_decision. Defined.

Record Thread (I : Type) := mkThread {
  t_state : state;
  t_suspended : bool;
  t_stack : TaskStack I;
  t_args : list (word I);          (* NARGS_POS and ARGS_POS *)
  t_future : option positive;      (* FUTURE_POS: the future blocked on *)
  t_handlers : list (Handler I);   (* the top handler first *)
  t_handlers_size : Z              (* the size of the handler stack's memory *)
}.
Arguments mkThread {I} _ _ _ _ _ _ _.
Arguments t_state {I} _.
Arguments t_suspended {I} _.
Arguments t_stack {I} _.
Arguments t_args {I} _.
Arguments t_future {I} _.
Arguments t_handlers {I} _.
Arguments t_handlers_size {I} _.

Section Thread.
Context `{Platform} {I : Type}.
Implicit Types (f : Frame I) (ts : TaskStack I) (th : Thread I) (w : word I).

(** ** Stack frames (StackFrame.hh) *)

Definition GetFrameSize f : Z := 1 + zlen (f_args f).

(** [Clone]: the worker word and the arguments in a block. *)
Definition Clone f : word I := WTuple (WWorker (f_worker f) :: f_args f).

(** [Worker::Traceable]: the generic workers override it, interpreters and
    RaiseWorker keep the default. *)
Definition Traceable (wk : worker I) : bool :=
  match wk with
  | EmptyTaskWorker | UncaughtExceptionWorker | BindFutureWorker | PushCallWorker => false
  | RaiseWorker | PrimitiveWorker _ | UserWorker _ => true
  end.

(** ** Task stacks (TaskStack.cc) *)

Definition frames_size (l : list (Frame I)) : Z := fold_right (fun f n => GetFrameSize f + n) 0 l.
Definition GetTop ts : Z := frames_size (ts_frames ts).

(** The size a dynamic block really gets. *)
Definition dynamic_size (size : Z) : Z := TranslateSize (size + 1) - 1.

Definition INITIAL_SIZE : Z := 20.
Definition emptyTask : Frame I := {| f_worker := EmptyTaskWorker; f_args := [] |}.

Definition TaskStack_New (size : Z) : TaskStack I :=
  {| ts_frames := [emptyTask]; ts_size := dynamic_size size |}.

(** The new size of [TaskStack::Enlarge]; [None] is the jump to the stack
    overflow handler. *)
Definition enlarged_size (size : Z) : option Z :=
  let newSize := size * 3 / 2 in
  if hw_MAX_DYNBLOCKSIZE HW <? newSize then
    if size <? hw_MAX_DYNBLOCKSIZE HW then Some (hw_MAX_DYNBLOCKSIZE HW) else None
  else Some newSize.

Definition TaskStack_Enlarge ts : option (TaskStack I) :=
  newSize ← enlarged_size (ts_size ts);
  Some {| ts_frames := ts_frames ts; ts_size := dynamic_size newSize |}.

(** [Scheduler::PushFrame]: enlarge until the frame fits.  The flag tells a push
    from an overflow, which leaves the stack as enlarged so far. *)
Fixpoint Scheduler_PushFrame (fuel : nat) ts f : option (TaskStack I * bool) :=
  match fuel with
  | O => None
  | S fuel =>
      let newTop := GetTop ts + GetFrameSize f in
      if ts_size ts <=? newTop then
        match TaskStack_Enlarge ts with
        | Some ts => Scheduler_PushFrame fuel ts f
        | None => Some (ts, false)
        end
      else Some ({| ts_frames := f :: ts_frames ts; ts_size := ts_size ts |}, true)
  end.

(** ** Thread operations (Thread.hh) *)

Definition INITIAL_HANDLERS_SIZE : Z := 10.
Definition HANDLER_FRAME_SIZE : Z := 3.

Definition Thread_New (args : list (word I)) : Thread I :=
  {| t_state := RUNNABLE; t_suspended := false; t_stack := TaskStack_New INITIAL_SIZE;
     t_args := args; t_future := None;
     t_handlers := [{| h_frame := 0; h_state := TRYING; h_data := WInt 0 |}];
     t_handlers_size := dynamic_size INITIAL_HANDLERS_SIZE |}.

Definition set_state th (s : state) : Thread I :=
  {| t_state := s; t_suspended := t_suspended th; t_stack := t_stack th; t_args := t_args th;
     t_future := None; t_handlers := t_handlers th; t_handlers_size := t_handlers_size th |}.
Definition set_suspended th (b : bool) : Thread I :=
  {| t_state := t_state th; t_suspended := b; t_stack := t_stack th; t_args := t_args th;
     t_future := t_future th; t_handlers := t_handlers th; t_handlers_size := t_handlers_size th |}.
Definition set_stack th ts : Thread I :=
  {| t_state := t_state th; t_suspended := t_suspended th; t_stack := ts; t_args := t_args th;
     t_future := t_future th; t_handlers := t_handlers th; t_handlers_size := t_handlers_size th |}.
Definition SetArgs th (args : list (word I)) : Thread I :=
  {| t_state := t_state th; t_suspended := t_suspended th; t_stack := t_stack th; t_args := args;
     t_future := t_future th; t_handlers := t_handlers th; t_handlers_size := t_handlers_size th |}.
Definition set_future th (fut : option positive) : Thread I :=
  {| t_state := t_state th; t_suspended := t_suspended th; t_stack := t_stack th; t_args := t_args th;
     t_future := fut; t_handlers := t_handlers th; t_handlers_size := t_handlers_size th |}.
Definition set_handlers th (hs : list (Handler I)) (size : Z) : Thread I :=
  {| t_state := t_state th; t_suspended := t_suspended th; t_stack := t_stack th; t_args := t_args th;
     t_future := t_future th; t_handlers := hs; t_handlers_size := size |}.

Definition SetState th (s : state) : Thread I := set_state th s.
Definition Suspend th : Thread I := set_suspended th true.
Definition Resume th : Thread I := set_suspended th false.
Definition SetTerminated th : Thread I := SetState (SetArgs th []) TERMINATED.
Definition BlockOn th (future : positive) : Thread I := set_future (SetState th BLOCKED) (Some future).
Definition Wakeup th : Thread I := SetState (set_future th None) RUNNABLE.

(** [Thread::PushFrame]: enlarges at most once.  The outer [None] is a failing
    assertion, the inner one the stack overflow. *)
Definition Thread_PushFrame th f : option (option (Thread I)) :=
  let ts := t_stack th in
  let newTop := GetTop ts + GetFrameSize f in
  match (if ts_size ts <=? newTop then TaskStack_Enlarge ts else Some ts) with
  | None => Some None
  | Some ts =>
      if newTop <? ts_size ts
      then Some (Some (set_stack th {| ts_frames := f :: ts_frames ts; ts_size := ts_size ts |}))
      else None
  end.

(** The active size of the handler stack. *)
Definition handlers_top th : Z := HANDLER_FRAME_SIZE * zlen (t_handlers th).

Definition PushHandler_at th (frame : Z) (data : word I) : option (Thread I) :=
  let top := handlers_top th in
  let size := t_handlers_size th in
  let size := if size <=? top + HANDLER_FRAME_SIZE then dynamic_size (size * 3 / 2) else size in
  if top + HANDLER_FRAME_SIZE <? size
  then Some (set_handlers th ({| h_frame := frame; h_state := TRYING; h_data := data |} :: t_handlers th) size)
  else None.

Definition PushHandler th (data : word I) : option (Thread I) :=
  let top := GetTop (t_stack th) in
  if top <? HANDLER_FRAME_SIZE then None else PushHandler_at th (top - 1) data.

(** The loop of [ActivateNextHandler]: drop the handlers that are already
    handling, mark the next one with the package and return its frame and
    data.  An empty handler stack is a failing assertion. *)
Fixpoint activate (hs : list (Handler I)) (package : word I) : option (Z * word I * list (Handler I)) :=
  match hs with
  | [] => None
  | h :: hs' =>
      match h_state h with
      | TRYING => Some (h_frame h, h_data h, {| h_frame := h_frame h; h_state := HANDLING; h_data := package |} :: hs')
      | HANDLING => activate hs' package
      end
  end.

Definition ActivateNextHandler th (package : word I) : option (Z * word I * Thread I) :=
  r ← activate (t_handlers th) package;
  let '(frame, data, hs) := r in
  Some (frame, data, set_handlers th hs (t_handlers_size th)).

(** The package of the exception being handled, if any. *)
Fixpoint GetCurrentPackage_from (hs : list (Handler I)) : option (word I) :=
  match hs with
  | [] => None
  | h :: hs => match h_state h with HANDLING => Some (h_data h) | TRYING => GetCurrentPackage_from hs end
  end.
Definition GetCurrentPackage th : option (word I) := GetCurrentPackage_from (t_handlers th).

Definition PopHandler th : option (Thread I) :=
  match t_handlers th with
  | [] => None
  | _ :: hs => Some (set_handlers th hs (t_handlers_size th))
  end.

(** ** Well-formed stacks *)

(** The index of a frame's worker word in the stack. *)
Definition frame_index (l : list (Frame I)) : Z := frames_size l - 1.

(** The handlers that are still trying belong to frames of the stack and are
    nested like them; a handler that is handling may have outlived its frame. *)
Inductive handlers_nested : list (Frame I) -> list (Handler I) -> Prop :=
  | nested_nil l : handlers_nested l []
  | nested_handling l h hs :
      h_state h = HANDLING -> handlers_nested l hs -> handlers_nested l (h :: hs)
  | nested_trying l fs h hs :
      h_state h = TRYING -> fs `suffix_of` l -> fs <> [] -> h_frame h = frame_index fs ->
      handlers_nested fs hs -> handlers_nested l (h :: hs).

(** The sizes a task stack can have: those of big blocks are rounded. *)
Definition stack_size_ok (sz : Z) : Prop :=
  4 <= sz /\ (sz = hw_MAX_DYNBLOCKSIZE HW \/ sz <= hw_MAX_DYNBLOCKSIZE HW - 16).

Definition stack_wf ts : Prop :=
  (exists fs, ts_frames ts = fs ++ [emptyTask]) /\ GetTop ts < ts_size ts /\ stack_size_ok (ts_size ts).

Definition thread_wf th : Prop :=
  stack_wf (t_stack th) /\ handlers_nested (ts_frames (t_stack th)) (t_handlers th) /\
  Exists (fun h => h_state h = TRYING) (t_handlers th) /\
  handlers_top th < t_handlers_size th /\ 10 <= t_handlers_size th.

(** ** Lemmas *)

Lemma MAX_DYNBLOCKSIZE_eq : hw_MAX_DYNBLOCKSIZE HW = 16777199.
Proof. unfold HW. destruct MIN_WIDTH_cases as [-> | ->]; done. Qed.

Lemma GetFrameSize_pos f : 1 <= GetFrameSize f.
Proof. unfold GetFrameSize. pose proof (zlen_nonneg (f_args f)). lia. Qed.

Lemma frames_size_nonneg (l : list (Frame I)) : 0 <= frames_size l.
Proof. induction l as [| f l IH]; simpl; [done |]. pose proof (GetFrameSize_pos f). lia. Qed.

Lemma frames_size_app (l l' : list (Frame I)) : frames_size (l ++ l') = frames_size l + frames_size l'.
Proof. induction l as [| f l IH]; simpl; lia. Qed.

Lemma frames_size_suffix (fs l : list (Frame I)) :
  fs `suffix_of` l -> frames_size fs <= frames_size l /\ (frames_size fs = frames_size l -> fs = l).
Proof.
  intros [k ->]. rewrite frames_size_app. pose proof (frames_size_nonneg k). split; [lia |].
  destruct k as [| f k]; [done |]. simpl. pose proof (GetFrameSize_pos f). pose proof (frames_size_nonneg k). lia.
Qed.

Lemma dynamic_size_bounds n :
  0 <= n <= hw_MAX_DYNBLOCKSIZE HW -> n <= dynamic_size n <= hw_MAX_DYNBLOCKSIZE HW.
Proof.
  rewrite MAX_DYNBLOCKSIZE_eq. intros Hn. unfold dynamic_size.
  assert (Hb : 0 <= n + 1 <= hw_MAX_BIGBLOCKSIZE HW) by (rewrite MAX_BIGBLOCKSIZE_eq; lia).
  pose proof (TranslateSize_bounds (n + 1) Hb) as [? ?]. rewrite MAX_BIGBLOCKSIZE_eq in *. lia.
Qed.

Lemma dynamic_size_ok n : 4 <= n <= hw_MAX_DYNBLOCKSIZE HW -> stack_size_ok (dynamic_size n).
Proof.
  intros Hn. pose proof (dynamic_size_bounds n) as Hd. split; [lia |].
  rewrite MAX_DYNBLOCKSIZE_eq in *. unfold dynamic_size in *.
  destruct (Z.leb_spec (n + 1) (hw_MAX_BLOCKSIZE HW)) as [Hle | Hgt].
  - rewrite TranslateSize_small, MAX_BLOCKSIZE_eq in * by done. lia.
  - assert (Hm : TranslateSize (n + 1) mod 16 = 0) by (apply TranslateSize_big; rewrite MAX_BIGBLOCKSIZE_eq; lia).
    Z.div_mod_to_equations. lia.
Qed.

Lemma TaskStack_New_wf : stack_wf (TaskStack_New INITIAL_SIZE).
Proof.
  assert (Hn : 4 <= INITIAL_SIZE <= hw_MAX_DYNBLOCKSIZE HW) by (rewrite MAX_DYNBLOCKSIZE_eq; done).
  pose proof (dynamic_size_bounds INITIAL_SIZE) as Hb. unfold INITIAL_SIZE in Hb at 1 3.
  split_and!; simpl; [by exists [] | | by apply dynamic_size_ok]; unfold GetTop; simpl; unfold GetFrameSize; simpl; rewrite ?zlen_nil; lia.
Qed.

(** Enlarging keeps the frames and adds at least a third; it is refused only at
    the largest size. *)
Lemma TaskStack_Enlarge_spec ts :
  stack_size_ok (ts_size ts) ->
  match TaskStack_Enlarge ts with
  | Some ts' =>
      ts_frames ts' = ts_frames ts /\ stack_size_ok (ts_size ts') /\
      ts_size ts < ts_size ts' /\
      (ts_size ts' = hw_MAX_DYNBLOCKSIZE HW \/ ts_size ts * 3 / 2 <= ts_size ts')
  | None => ts_size ts = hw_MAX_DYNBLOCKSIZE HW
  end.
Proof.
  intros Hs. unfold TaskStack_Enlarge, enlarged_size. pose proof Hs as [H4 Hs'].
  pose proof MAX_DYNBLOCKSIZE_eq.
  assert (Hg : ts_size ts < ts_size ts * 3 / 2) by (Z.div_mod_to_equations; lia).
  destruct (Z.ltb_spec (hw_MAX_DYNBLOCKSIZE HW) (ts_size ts * 3 / 2)) as [Hbig | Hsmall].
  - destruct (Z.ltb_spec (ts_size ts) (hw_MAX_DYNBLOCKSIZE HW)) as [Hlt | Hge]; simpl; [| lia].
    pose proof (dynamic_size_bounds (hw_MAX_DYNBLOCKSIZE HW)).
    split_and!; [done | apply dynamic_size_ok; lia | lia ..].
  - simpl. pose proof (dynamic_size_bounds (ts_size ts * 3 / 2)).
    split_and!; [done | apply dynamic_size_ok; lia | lia ..].
Qed.

Lemma Scheduler_PushFrame_S n ts f :
  Scheduler_PushFrame (S n) ts f =
  if ts_size ts <=? GetTop ts + GetFrameSize f
  then match TaskStack_Enlarge ts with
       | Some ts' => Scheduler_PushFrame n ts' f
       | None => Some (ts, false)
       end
  else Some ({| ts_frames := f :: ts_frames ts; ts_size := ts_size ts |}, true).
Proof. done. Qed.

(** Pushing a frame ends when the fuel makes up for the growth by a third. *)
Lemma Scheduler_PushFrame_fuel fuel ts f :
  stack_size_ok (ts_size ts) ->
  hw_MAX_DYNBLOCKSIZE HW * 3 ^ Z.of_nat fuel <= ts_size ts * 4 ^ Z.of_nat fuel ->
  exists ts' b, Scheduler_PushFrame (S fuel) ts f = Some (ts', b) /\
    ts_size ts <= ts_size ts' /\ stack_size_ok (ts_size ts') /\
    if b then ts_frames ts' = f :: ts_frames ts /\ GetTop ts' < ts_size ts'
    else ts_frames ts' = ts_frames ts /\ hw_MAX_DYNBLOCKSIZE HW <= GetTop ts + GetFrameSize f.
Proof.
  revert ts. induction fuel as [| fuel IH]; intros ts Hs Hf;
    rewrite Scheduler_PushFrame_S.
  all: destruct (Z.leb_spec (ts_size ts) (GetTop ts + GetFrameSize f)) as [Hfull | Hroom];
    [| eexists _, true; split; [reflexivity |]; unfold GetTop in *; simpl; split_and!; (done || lia)].
  all: pose proof (TaskStack_Enlarge_spec ts Hs) as He; pose proof Hs as [H4 Hs'].
  all: destruct (TaskStack_Enlarge ts) as [ts' |];
    [| eexists ts, false; split; [reflexivity |]; split_and!; (done || lia)].
  - destruct He as (_ & [_ Hmax] & ?). simpl in Hf. lia.
  - destruct He as (Hfr & Hmax & Hgrow & Hsize).
    destruct (IH ts') as (ts2 & b & -> & Hle & Hs2 & Hb); [done | |].
    + rewrite Nat2Z.inj_succ, !Z.pow_succ_r in Hf by lia.
      assert (0 < 3 ^ Z.of_nat fuel <= 4 ^ Z.of_nat fuel)
        by (split; [apply Z.pow_pos_nonneg; lia | apply Z.pow_le_mono_l; lia]).
      destruct Hsize as [-> | Hsize]; [nia |].
      assert (4 * ts_size ts <= 3 * ts_size ts') by (Z.div_mod_to_equations; lia). nia.
    + exists ts2, b. split; [done |]. split; [lia |]. split; [done |].
      unfold GetTop in *. rewrite Hfr in Hb. exact Hb.
Qed.

Lemma stack_wf_frames ts f ts' :
  stack_wf ts -> ts_frames ts' = f :: ts_frames ts -> GetTop ts' < ts_size ts' ->
  stack_size_ok (ts_size ts') -> stack_wf ts'.
Proof. intros ([fs E] & ? & ?) Ef Ht Hs. split; [exists (f :: fs); by rewrite Ef, E | done]. Qed.

End Thread.

(** ** Properties *)

(** Pushing a frame on the current stack always ends: it succeeds exactly
    when the frame fits below the largest dynamic block, keeping the frames
    below it and the invariant; otherwise the stack has overflowed and keeps
    its frames. *)
Theorem PushFrame_total `{Platform} {I : Type} (ts : TaskStack I) (f : Frame I) :
  stack_wf ts ->
  exists ts' b, Scheduler_PushFrame 64 ts f = Some (ts', b) /\
    b = (GetTop ts + GetFrameSize f <? hw_MAX_DYNBLOCKSIZE HW) /\
    ts_frames ts' = (if b then f :: ts_frames ts else ts_frames ts) /\ stack_wf ts'.
Proof.
  intros Hwf. pose proof Hwf as ([fs Ef] & Ht & Hs).
  destruct (Scheduler_PushFrame_fuel 63 ts f) as (ts' & b & -> & Hle & Hs' & Hb).
  - done.
  - destruct Hs as [Hs _]. rewrite MAX_DYNBLOCKSIZE_eq in *. change (Z.of_nat 63) with 63.
    assert (16777199 * 3 ^ 63 <= 4 * 4 ^ 63) by (vm_compute; discriminate).
    assert (0 < 4 ^ 63) by (vm_compute; done). nia.
  - exists ts', b. split; [done |]. destruct b; destruct Hb as [Hf Hb].
    + assert (GetTop ts' = GetFrameSize f + GetTop ts) by (unfold GetTop; by rewrite Hf).
      split_and!; [symmetry; apply Z.ltb_lt; destruct Hs' as [_ ?]; lia | done |].
      by eapply stack_wf_frames.
    + split_and!; [symmetry; apply Z.ltb_ge; lia | done |].
      split; [exists fs; by rewrite Hf |]. split; [| done].
      unfold GetTop in *. rewrite Hf. lia.
Qed.

Lemma PushFrame_total_witness :
  exists ts' b, @Scheduler_PushFrame P32 unit 64 (@TaskStack_New P32 unit INITIAL_SIZE) (mkFrame PushCallWorker [WInt 0])
                  = Some (ts', b) /\ b = true.
Proof.
  destruct (@PushFrame_total P32 unit _ (mkFrame PushCallWorker [WInt 0]) (@TaskStack_New_wf P32 unit))
    as (ts' & b & E & Eb & _).
  exists ts', b. split; [exact E |]. rewrite Eb. reflexivity.
Defined.

(** A frame of at most two words can be pushed on any other thread's stack
    with one enlargement, and a handler on any thread: the assertions in
    Thread::PushFrame and Thread::PushHandler, which check the room after
    enlarging once, never fail. *)
Theorem thread_push_one_enlarge `{Platform} {I : Type} (th : Thread I) (f : Frame I) (frame : Z) (data : word I) :
  thread_wf th -> GetFrameSize f <= 2 -> t_handlers_size th * 3 / 2 <= hw_MAX_DYNBLOCKSIZE HW ->
  (exists th', PushHandler_at th frame data = Some th' /\
     t_handlers th' = mkHandler frame TRYING data :: t_handlers th /\
     handlers_top th' < t_handlers_size th') /\
  exists r, Thread_PushFrame th f = Some r /\
    match r with
    | Some th' => ts_frames (t_stack th') = f :: ts_frames (t_stack th) /\ stack_wf (t_stack th') /\
                  t_handlers th' = t_handlers th /\ t_state th' = t_state th
    | None => hw_MAX_DYNBLOCKSIZE HW <= GetTop (t_stack th) + GetFrameSize f
    end.
Proof.
  intros (Hwf & _ & _ & Hht & Hhs) Hf Hmax. split.
  - unfold PushHandler_at, HANDLER_FRAME_SIZE, handlers_top in *.
    pose proof (dynamic_size_bounds (t_handlers_size th * 3 / 2)) as Hd.
    assert (t_handlers_size th + 3 < t_handlers_size th * 3 / 2 + 1) by (Z.div_mod_to_equations; lia).
    set (sz := if _ <=? _ then _ else _).
    assert (Hsz : 3 * zlen (t_handlers th) + 3 < sz) by (unfold sz, HANDLER_FRAME_SIZE in *; case_Zb; lia).
    unfold HANDLER_FRAME_SIZE. rewrite (proj2 (Z.ltb_lt _ _) Hsz). eexists. split; [reflexivity |].
    simpl. rewrite zlen_cons. split; [done |]. lia.
  - pose proof Hwf as (_ & Ht & Hs). unfold Thread_PushFrame. pose proof (TaskStack_Enlarge_spec _ Hs) as He.
    set (ts := t_stack th) in *. destruct (Z.leb_spec (ts_size ts) (GetTop ts + GetFrameSize f)) as [Hfull | Hroom].
    + destruct (TaskStack_Enlarge ts) as [ts' |]; [| exists None; split; [done | lia]].
      destruct He as (Hfr & Hm & Hg & Hsz).
      assert (ts_size ts + 1 < ts_size ts * 3 / 2) by (destruct Hs; Z.div_mod_to_equations; lia).
      destruct (Z.ltb_spec (GetTop ts + GetFrameSize f) (ts_size ts')) as [Hok | Hbad].
      * eexists. split; [reflexivity |]. simpl. split_and!; [by rewrite Hfr | | done ..].
        apply (stack_wf_frames ts f); [done | by rewrite Hfr | | done].
        unfold GetTop in *. simpl. rewrite Hfr. lia.
      * destruct Hs. lia.
    + destruct (Z.ltb_spec (GetTop ts + GetFrameSize f) (ts_size ts)) as [Hok | Hbad]; [| lia].
      eexists. split; [reflexivity |]. simpl. split_and!; [done | | done ..].
      apply (stack_wf_frames ts f); [done .. | | done]. unfold GetTop in *. simpl. lia.
Qed.

Lemma thread_push_one_enlarge_witness :
  exists r, @Thread_PushFrame P32 unit (@Thread_New P32 unit []) (mkFrame RaiseWorker [WInt 7]) = Some r.
Proof.
  destruct (@thread_push_one_enlarge P32 unit (@Thread_New P32 unit []) (mkFrame RaiseWorker [WInt 7]) 0 (WInt 0)) as [_ (r & E & _)].
  - split; [apply (@TaskStack_New_wf P32 unit) |].
    split; [apply (nested_trying _ [emptyTask]); [done .. | apply nested_nil] |].
    split; [by apply Exists_cons_hd | by vm_compute].
  - done.
  - by vm_compute.
  - exists r. exact E.
Defined.
