(* ===== verification/Scheduler.v ===== *)
(** * The scheduler, transients and the thread primitives
    (seam/generic/Scheduler.cc, Scheduler.hh, Transients.hh,
    BindFutureWorker.cc, PushCallWorker.cc, TaskStack.cc, Primitive.cc,
    alice/vm-seam/alice/primitives/Thread.cc, Future.cc, Hole.cc)

    The state of the VM is a record; threads, transients and backtraces are
    objects with an identity, kept in finite maps.  An operation returns its
    result and the new state, or the state in which the task stack overflowed
    (the [longjmp] of TaskStack::Enlarge), or [Stuck] where an assertion fails.
    The run queue and the wait queues are used through the [FIFO] interface. *)

From S2P Require Import Prelude Config HeaderOp Block Queue Thread.

(** ** State *)

Inductive Transient (I Q : Type) :=
  | Hole (future : option positive)     (* the associated future, if created *)
  | Future (waitQueue : option Q)       (* the wait queue, if created *)
  | Cancelled (package : word I)
  | Byneed (closure : word I)
  | Ref (w : word I).
Arguments Hole {I Q} _.
Arguments Future {I Q} _.
Arguments Cancelled {I Q} _.
Arguments Byneed {I Q} _.
Arguments Ref {I Q} _.

Record VM (I Q : Type) := mkVM {
  vm_threads : gmap positive (Thread I);
  vm_transients : gmap positive (Transient I Q);
  vm_backtraces : gmap positive (list (word I));
  vm_queue : Q;                         (* wThreadQueue *)
  vm_current : option positive;         (* currentThread *)
  vm_stack : TaskStack I;               (* currentTaskStack up to stackTop *)
  vm_args : list (word I);              (* the first nArgs of currentArgs *)
  vm_data : word I;                     (* currentData *)
  vm_backtrace : positive;              (* currentBacktrace *)
  vm_status : Z;                        (* the status word *)
  vm_uncaught : word I                  (* uncaughtExceptionClosures *)
}.
Arguments mkVM {I Q} _ _ _ _ _ _ _ _ _ _ _.
Arguments vm_threads {I Q} _.
Arguments vm_transients {I Q} _.
Arguments vm_backtraces {I Q} _.
Arguments vm_queue {I Q} _.
Arguments vm_current {I Q} _.
Arguments vm_stack {I Q} _.
Arguments vm_args {I Q} _.
Arguments vm_data {I Q} _.
Arguments vm_backtrace {I Q} _.
Arguments vm_status {I Q} _.
Arguments vm_uncaught {I Q} _.

(** Worker::Result *)
Inductive Result := CONTINUE | PREEMPT | SUSPEND | RAISE | REQUEST | RERAISE | TERMINATE | EXIT.

(** ** The monad of VM operations *)

Inductive outcome (S A : Type) := Ok (a : A) (s : S) | Overflow (s : S) | Stuck.
Arguments Ok {S A} _ _.
Arguments Overflow {S A} _.
Arguments Stuck {S A}.

Definition M (S A : Type) : Type := S -> outcome S A.
Definition ret {S A} (a : A) : M S A := fun s => Ok a s.
Definition bind {S A B} (m : M S A) (k : A -> M S B) : M S B := fun s =>
  match m s with Ok a s => k a s | Overflow s => Overflow s | Stuck => Stuck end.
Definition stuck {S A} : M S A := fun _ => Stuck.
Definition overflow {S A} : M S A := fun s => Overflow s.
Definition get {S} : M S S := fun s => Ok s s.
Definition modify {S} (f : S -> S) : M S unit := fun s => Ok tt (f s).
Definition lift {S A} (o : option A) : M S A := fun s => match o with Some a => Ok a s | None => Stuck end.
Definition assert {S} (b : bool) : M S unit := fun s => if b then Ok tt s else Stuck.

Declare Scope vm_scope.
Delimit Scope vm_scope with vm.
Notation "x <- m ;; k" := (bind m (fun x => k)) (at level 100, m at next level, right associativity) : vm_scope.
Notation "m ;; k" := (bind m (fun _ => k)) (at level 100, right associativity) : vm_scope.

(** A key not in the map: the address of a new object. *)
Definition new_key {A} (m : gmap positive A) : positive :=
  map_fold (fun k _ acc => Pos.max (Pos.succ k) acc) 1%positive m.

Section Scheduler.
Context `{Platform} {I Q : Type} `{!FIFO Q positive}.

(** The interpreters of the language layer: the frame that [PushCall] of an
    interpreter pushes for a closure. *)
Variable interpreter_frame : I -> word I -> list (word I).

Notation VM := (VM I Q).
Notation word := (word I).
Notation M := (M VM).
#[local] Open Scope vm_scope.

(** ** Field updates *)

Definition set_threads (x : gmap positive (Thread I)) (s : VM) : VM :=
  mkVM x (vm_transients s) (vm_backtraces s) (vm_queue s) (vm_current s) (vm_stack s) (vm_args s)
    (vm_data s) (vm_backtrace s) (vm_status s) (vm_uncaught s).
Definition set_transients (x : gmap positive (Transient I Q)) (s : VM) : VM :=
  mkVM (vm_threads s) x (vm_backtraces s) (vm_queue s) (vm_current s) (vm_stack s) (vm_args s)
    (vm_data s) (vm_backtrace s) (vm_status s) (vm_uncaught s).
Definition set_backtraces (x : gmap positive (list word)) (s : VM) : VM :=
  mkVM (vm_threads s) (vm_transients s) x (vm_queue s) (vm_current s) (vm_stack s) (vm_args s)
    (vm_data s) (vm_backtrace s) (vm_status s) (vm_uncaught s).
Definition set_queue (x : Q) (s : VM) : VM :=
  mkVM (vm_threads s) (vm_transients s) (vm_backtraces s) x (vm_current s) (vm_stack s) (vm_args s)
    (vm_data s) (vm_backtrace s) (vm_status s) (vm_uncaught s).
Definition set_current (x : option positive) (s : VM) : VM :=
  mkVM (vm_threads s) (vm_transients s) (vm_backtraces s) (vm_queue s) x (vm_stack s) (vm_args s)
    (vm_data s) (vm_backtrace s) (vm_status s) (vm_uncaught s).
Definition set_vmstack (x : TaskStack I) (s : VM) : VM :=
  mkVM (vm_threads s) (vm_transients s) (vm_backtraces s) (vm_queue s) (vm_current s) x (vm_args s)
    (vm_data s) (vm_backtrace s) (vm_status s) (vm_uncaught s).
Definition set_args (x : list word) (s : VM) : VM :=
  mkVM (vm_threads s) (vm_transients s) (vm_backtraces s) (vm_queue s) (vm_current s) (vm_stack s) x
    (vm_data s) (vm_backtrace s) (vm_status s) (vm_uncaught s).
Definition set_data (x : word) (s : VM) : VM :=
  mkVM (vm_threads s) (vm_transients s) (vm_backtraces s) (vm_queue s) (vm_current s) (vm_stack s) (vm_args s)
    x (vm_backtrace s) (vm_status s) (vm_uncaught s).
Definition set_backtrace (x : positive) (s : VM) : VM :=
  mkVM (vm_threads s) (vm_transients s) (vm_backtraces s) (vm_queue s) (vm_current s) (vm_stack s) (vm_args s)
    (vm_data s) x (vm_status s) (vm_uncaught s).
Definition set_status (x : Z) (s : VM) : VM :=
  mkVM (vm_threads s) (vm_transients s) (vm_backtraces s) (vm_queue s) (vm_current s) (vm_stack s) (vm_args s)
    (vm_data s) (vm_backtrace s) x (vm_uncaught s).

Definition SetCurrentData (w : word) : M unit := modify (set_data w).
Definition SetNArgs (args : list word) : M unit := modify (set_args args).
Definition get_thread (t : positive) : M (Thread I) := s <- get;; lift (vm_threads s !! t).
Definition put_thread (t : positive) (th : Thread I) : M unit :=
  s <- get;; modify (set_threads (<[t := th]> (vm_threads s))).
Definition get_transient (a : positive) : M (Transient I Q) := s <- get;; lift (vm_transients s !! a).
Definition put_transient (a : positive) (x : Transient I Q) : M unit :=
  s <- get;; modify (set_transients (<[a := x]> (vm_transients s))).
Definition current : M positive := s <- get;; lift (vm_current s).

(** ** Dereferencing (PointerOp::Deref): follow bound transients *)

Fixpoint deref (fuel : nat) (m : gmap positive (Transient I Q)) (w : word) : option word :=
  match w with
  | WTransient a =>
      x ← m !! a;
      match x with
      | Ref w => match fuel with O => None | S fuel => deref fuel m w end
      | _ => Some w
      end
  | _ => Some w
  end.

Definition Deref (w : word) : M word :=
  s <- get;; lift (deref (size (vm_transients s)) (vm_transients s) w).

(** [Store::WordToTransient]: [None] is INVALID_POINTER. *)
Definition WordToTransient (w : word) : M (option positive) :=
  w <- Deref w;; ret (match w with WTransient a => Some a | _ => None end).

(** ** Backtraces *)

Definition Backtrace_New : M positive :=
  s <- get;;
  let b := new_key (vm_backtraces s) in
  modify (set_backtraces (<[b := []]> (vm_backtraces s)));; ret b.
Definition Backtrace_Enqueue (b : positive) (w : word) : M unit :=
  s <- get;;
  l <- lift (vm_backtraces s !! b);;
  modify (set_backtraces (<[b := l ++ [w]]> (vm_backtraces s))).
Definition Backtrace_Clone (b : positive) : M positive :=
  s <- get;;
  l <- lift (vm_backtraces s !! b);;
  let b' := new_key (vm_backtraces s) in
  modify (set_backtraces (<[b' := l]> (vm_backtraces s)));; ret b'.

(** ** Threads (Scheduler.hh) *)

Definition ThreadQueue_Enqueue (t : positive) : M unit :=
  s <- get;; q <- lift (fifo_enqueue (vm_queue s) t);; modify (set_queue q).
Definition ThreadQueue_Remove (t : positive) : M unit :=
  s <- get;; q <- lift (fifo_remove (vm_queue s) t);; modify (set_queue q).
Definition ThreadQueue_Dequeue : M (option positive) :=
  s <- get;;
  if fifo_is_empty (vm_queue s) then ret None
  else p <- lift (fifo_dequeue (vm_queue s));; modify (set_queue p.2);; ret (Some p.1).

Definition Scheduler_NewThread (args : list word) : M positive :=
  s <- get;;
  let t := new_key (vm_threads s) in
  put_thread t (Thread_New args);;
  ThreadQueue_Enqueue t;; ret t.

Definition ScheduleThread (t : positive) : M unit :=
  th <- get_thread t;;
  assert (bool_decide (t_state th = RUNNABLE));;
  ThreadQueue_Enqueue t.

Definition WakeupThread (t : positive) : M unit :=
  th <- get_thread t;;
  assert (bool_decide (t_state th = BLOCKED));;
  put_thread t (Wakeup th);;
  if t_suspended th then ret tt else ScheduleThread t.

(** [Thread::Purge] lets the workers clean their frames; the generic workers
    have nothing to clean. *)
Definition SuspendThread (t : positive) : M unit :=
  th <- get_thread t;;
  put_thread t (Suspend th);;
  if bool_decide (t_state th = RUNNABLE) then ThreadQueue_Remove t else ret tt.

Definition ResumeThread (t : positive) : M unit :=
  th <- get_thread t;;
  if t_suspended th then
    put_thread t (Resume th);;
    if bool_decide (t_state th = RUNNABLE) then ScheduleThread t else ret tt
  else ret tt.

(** ** Transients (Transients.hh) *)

Definition AllocTransient (x : Transient I Q) : M positive :=
  s <- get;; let a := new_key (vm_transients s) in put_transient a x;; ret a.
Definition Future_New : M positive := AllocTransient (Future None).
Definition Hole_New : M positive := AllocTransient (Hole None).
Definition Byneed_New (closure : word) : M positive := AllocTransient (Byneed closure).

Definition is_ref (x : Transient I Q) : bool := match x with Ref _ => true | _ => false end.

(** [Transient::Become] with the label REF: the argument is dereferenced. *)
Definition Become_Ref (a : positive) (w : word) : M unit :=
  x <- get_transient a;; assert (negb (is_ref x));;
  w <- Deref w;; put_transient a (Ref w).
Definition Become_Cancelled (a : positive) (package : word) : M unit :=
  x <- get_transient a;; assert (negb (is_ref x));; put_transient a (Cancelled package).
Definition Become_Future (a : positive) : M unit :=
  x <- get_transient a;; assert (negb (is_ref x));; put_transient a (Future None).

Definition wait_queue (a : positive) : M (option Q) :=
  x <- get_transient a;; match x with Future wq => ret wq | _ => stuck end.

Definition AddToWaitQueue (a t : positive) : M unit :=
  wq <- wait_queue a;;
  q <- lift (fifo_enqueue (match wq with Some q => q | None => fifo_new 2 end) t);;
  put_transient a (Future (Some q)).

Definition RemoveFromWaitQueue (a t : positive) : M unit :=
  wq <- wait_queue a;;
  q <- lift wq;;
  q <- lift (fifo_remove q t);;
  put_transient a (Future (Some q)).

(** The loop of [ScheduleWaitingThreads]; the fuel bounds the entries. *)
Fixpoint wakeup_all (fuel : nat) (a : positive) : M unit :=
  wq <- wait_queue a;;
  match wq with
  | None => ret tt
  | Some q =>
      if fifo_is_empty q then ret tt else
      match fuel with
      | O => stuck
      | S fuel =>
          p <- lift (fifo_dequeue q);;
          put_transient a (Future (Some p.2));;
          WakeupThread p.1;;
          wakeup_all fuel a
      end
  end.

Definition ScheduleWaitingThreads (a : positive) : M unit :=
  s <- get;; wakeup_all (size (vm_threads s)) a.

(** The hole's associated future, dereferenced. *)
Definition Hole_associated (a : positive) : M (option positive) :=
  x <- get_transient a;;
  match x with
  | Hole (Some f) => WordToTransient (WTransient f)
  | Hole None => ret None
  | _ => stuck
  end.

(** [Hole::GetFuture] *)
Definition Hole_GetFuture (a : positive) : M positive :=
  future <- Hole_associated a;;
  match future with
  | Some f => ret f
  | None => f <- Future_New;; put_transient a (Hole (Some f));; ret f
  end.

Definition Hole_Fill (a : positive) (w : word) : M bool :=
  t <- WordToTransient w;;
  if bool_decide (t = Some a) then ret false else
  future <- Hole_associated a;;
  match future with
  | Some f =>
      if bool_decide (t = Some f) then ret false else
      ScheduleWaitingThreads f;;
      Become_Ref f w;;
      Become_Ref a w;; ret true
  | None => Become_Ref a w;; ret true
  end.

Definition Hole_Fail (a : positive) (exn : word) : M unit :=
  future <- Hole_associated a;;
  b <- Backtrace_New;;
  let package := WTuple [exn; WBacktrace b] in
  (match future with
   | Some f => ScheduleWaitingThreads f;; Become_Cancelled f package
   | None => ret tt
   end);;
  Become_Cancelled a package.

(** The exceptions Hole.Cyclic and Hole.Hole (Transients.cc) and
    Thread.Terminated, and the stack overflow exception. *)
Definition cyclicExn : word := WTuple [WInt 1].
Definition holeExn : word := WTuple [WInt 2].
Definition Thread_Terminated : word := WTuple [WInt 3].
Definition StackError : word := WTuple [WInt 4].

(** ** The current task stack *)

Definition push_fuel : nat := 64.
Definition PushFrame (f : Frame I) : M unit :=
  s <- get;;
  r <- lift (Scheduler_PushFrame push_fuel (vm_stack s) f);;
  modify (set_vmstack r.1);;
  if r.2 then ret tt else overflow.

Definition GetFrame : M (Frame I) :=
  s <- get;; lift (head (ts_frames (vm_stack s))).
(** [PopFrame(size)] asserts that a frame is left, [PopFrame()] does not. *)
Definition PopFrame : M unit :=
  s <- get;;
  match ts_frames (vm_stack s) with
  | _ :: ((_ :: _) as fs) => modify (set_vmstack {| ts_frames := fs; ts_size := ts_size (vm_stack s) |})
  | _ => stuck
  end.
Definition PopFrame_any : M unit :=
  s <- get;;
  match ts_frames (vm_stack s) with
  | _ :: fs => modify (set_vmstack {| ts_frames := fs; ts_size := ts_size (vm_stack s) |})
  | [] => stuck
  end.
Definition set_top_args (args : list word) : M unit :=
  s <- get;;
  match ts_frames (vm_stack s) with
  | f :: fs => modify (set_vmstack {| ts_frames := {| f_worker := f_worker f; f_args := args |} :: fs;
                                      ts_size := ts_size (vm_stack s) |})
  | [] => stuck
  end.

Definition update_current (g : Thread I -> option (Thread I)) : M unit :=
  t <- current;; th <- get_thread t;; th <- lift (g th);; put_thread t th.

(** [Scheduler::PushHandler] and [PopHandler] *)
Definition Scheduler_PushHandler (data : word) : M unit :=
  s <- get;; update_current (fun th => PushHandler_at th (GetTop (vm_stack s) - 1) data).
Definition Scheduler_PopHandler : M unit := update_current PopHandler.

(** Pushing a frame on another thread's stack. *)
Definition PushFrame_on (t : positive) (f : Frame I) : M unit :=
  th <- get_thread t;;
  r <- lift (Thread_PushFrame th f);;
  match r with Some th => put_thread t th | None => overflow end.
Definition BindFutureWorker_PushFrame (t future : positive) : M unit :=
  PushFrame_on t {| f_worker := BindFutureWorker; f_args := [WTransient future] |};;
  th <- get_thread t;; th <- lift (PushHandler th (WInt 0));; put_thread t th.
Definition PushCallWorker_PushFrame_on (t : positive) (closure : word) : M unit :=
  PushFrame_on t {| f_worker := PushCallWorker; f_args := [closure] |}.
Definition RaiseWorker_PushFrame (t : positive) (exn : word) : M unit :=
  PushFrame_on t {| f_worker := RaiseWorker; f_args := [exn] |}.

(** [Scheduler::PushCall] *)
Definition PushCall (wClosure : word) : M Result :=
  let request a := PushFrame {| f_worker := PushCallWorker; f_args := [wClosure] |};;
                   SetCurrentData (WTransient a);; ret REQUEST in
  transient <- WordToTransient wClosure;;
  match transient with
  | Some a => request a
  | None =>
      closure <- Deref wClosure;;
      match closure with
      | WClosure concreteCodeWord _ =>
          transient <- WordToTransient concreteCodeWord;;
          match transient with
          | Some a => request a
          | None =>
              concreteCode <- Deref concreteCodeWord;;
              match concreteCode with
              | WConcreteCode wk =>
                  PushFrame {| f_worker := wk;
                               f_args := match wk with UserWorker i => interpreter_frame i closure | _ => [] end |};;
                  s <- get;;
                  if vm_status s =? 0 then ret CONTINUE else ret PREEMPT
              | _ => stuck
              end
          end
      | _ => stuck
      end
  end.

(** ** Calling conventions (Worker.cc) *)

Definition Construct : M unit :=
  s <- get;;
  match vm_args s with
  | [] => SetNArgs [WInt 0]
  | [_] => ret tt
  | args => SetNArgs [WTuple args]
  end.

(** [Deconstruct]: true if the argument has to be requested. *)
Definition Deconstruct : M bool :=
  s <- get;;
  match vm_args s with
  | [] => ret false
  | [arg] =>
      t <- WordToTransient arg;;
      match t with
      | None => tuple <- Deref arg;; match tuple with WTuple l => SetNArgs l;; ret false | _ => stuck end
      | Some _ => SetCurrentData arg;; ret true
      end
  | _ => ret false
  end.

(** ** The primitives *)

(** The macros of Authoring.hh: each primitive pops its frame first, and
    pushes it again to raise or to request an argument. *)
Definition RETURN (w : word) : M Result := SetNArgs [w];; ret CONTINUE.
Definition RETURN_UNIT : M Result := RETURN (WInt 0).
Definition RETURN_INT (i : Z) : M Result := RETURN (WInt i).
Definition RETURN_BOOL (b : bool) : M Result := RETURN (WInt (if b then 1 else 0)).
Definition PUSH_PRIM_SELF (p : primitive) : M unit := PushFrame {| f_worker := PrimitiveWorker p; f_args := [] |}.
Definition prim_RAISE (p : primitive) (w : word) : M Result :=
  PUSH_PRIM_SELF p;; SetCurrentData w;;
  b <- Backtrace_New;; modify (set_backtrace b);; ret RAISE.
Definition prim_REQUEST (p : primitive) (w : word) : M Result :=
  SetCurrentData w;; PUSH_PRIM_SELF p;; ret REQUEST.

Definition DECLARE_THREAD (p : primitive) (x : word) (k : positive -> M Result) : M Result :=
  w <- Deref x;;
  match w with
  | WThread t => k t
  | WTransient _ => prim_REQUEST p x
  | _ => stuck
  end.

(** A hole, or the exception Hole.Hole. *)
Definition with_hole (p : primitive) (x : word) (k : positive -> M Result) : M Result :=
  t <- WordToTransient x;;
  match t with
  | None => prim_RAISE p holeExn
  | Some a =>
      tr <- get_transient a;;
      match tr with Hole _ => k a | _ => prim_RAISE p holeExn end
  end.

Definition run_Thread_raiseIn (x0 x1 : word) : M Result :=
  DECLARE_THREAD Thread_raiseIn x0 (fun thread =>
    transient <- WordToTransient x1;;
    match transient with
    | Some a => prim_REQUEST Thread_raiseIn (WTransient a)
    | None =>
        cur <- current;;
        if bool_decide (thread = cur) then prim_RAISE Thread_raiseIn x1 else
        th <- get_thread thread;;
        if bool_decide (t_state th = TERMINATED) then prim_RAISE Thread_raiseIn Thread_Terminated else
        RaiseWorker_PushFrame thread x1;;
        th1 <- get_thread thread;;
        put_thread thread (SetArgs th1 []);;
        (if bool_decide (t_state th = BLOCKED) then
           th2 <- get_thread thread;;
           fut <- lift (t_future th2);;
           future <- WordToTransient (WTransient fut);;
           future <- lift future;;
           RemoveFromWaitQueue future thread;;
           WakeupThread thread
         else ret tt);;
        RETURN_UNIT
    end).

Definition run_Future_concur (x0 : word) : M Result :=
  future <- Future_New;;
  thread <- Scheduler_NewThread [];;
  BindFutureWorker_PushFrame thread future;;
  PushCallWorker_PushFrame_on thread x0;;
  RETURN (WTransient future).

Definition run_Thread_current : M Result := t <- current;; RETURN (WThread t).
Definition run_Thread_isSuspended (x0 : word) : M Result :=
  DECLARE_THREAD Thread_isSuspended x0 (fun thread =>
    th <- get_thread thread;; RETURN_BOOL (t_suspended th)).
Definition run_Thread_resume (x0 : word) : M Result :=
  DECLARE_THREAD Thread_resume x0 (fun thread => ResumeThread thread;; RETURN_UNIT).
Definition run_Thread_state (x0 : word) : M Result :=
  DECLARE_THREAD Thread_state x0 (fun thread =>
    th <- get_thread thread;;
    RETURN_INT (match t_state th with BLOCKED => 0 | RUNNABLE => 1 | TERMINATED => 2 end)).
Definition run_Thread_suspend (x0 : word) : M Result :=
  DECLARE_THREAD Thread_suspend x0 (fun thread =>
    self <- current;;
    if bool_decide (thread = self) then SetNArgs [];; ret SUSPEND
    else SuspendThread thread;; RETURN_UNIT).
Definition run_Thread_yield (x0 : word) : M Result := SetNArgs [];; ret PREEMPT.

Definition run_Future_await (x0 : word) : M Result :=
  t <- WordToTransient x0;;
  match t with Some _ => prim_REQUEST Future_await x0 | None => RETURN x0 end.
Definition run_Future_byneed (x0 : word) : M Result := a <- Byneed_New x0;; RETURN (WTransient a).
Definition run_Future_isByneed (x0 : word) : M Result :=
  t <- WordToTransient x0;;
  match t with
  | None => RETURN_BOOL false
  | Some a => tr <- get_transient a;; RETURN_BOOL (match tr with Byneed _ => true | _ => false end)
  end.
Definition run_Future_status (x0 : word) : M Result :=
  t <- WordToTransient x0;;
  match t with
  | None => RETURN_INT 0
  | Some a =>
      tr <- get_transient a;;
      match tr with
      | Hole _ => prim_RAISE Future_status holeExn
      | Future _ | Byneed _ => RETURN_INT 2
      | Cancelled _ => RETURN_INT 1
      | Ref _ => stuck
      end
  end.

Definition run_Hole_fail (x0 x1 : word) : M Result :=
  with_hole Hole_fail x0 (fun hole =>
    t <- WordToTransient x1;;
    match t with
    | Some a => prim_REQUEST Hole_fail (WTransient a)
    | None => Hole_Fail hole x1;; RETURN_UNIT
    end).
Definition run_Hole_fill (x0 x1 : word) : M Result :=
  with_hole Hole_fill x0 (fun hole =>
    ok <- Hole_Fill hole x1;;
    if (ok : bool) then RETURN_UNIT else prim_RAISE Hole_fill cyclicExn).
Definition run_Hole_future (x0 : word) : M Result :=
  t <- WordToTransient x0;;
  match t with
  | None => RETURN x0
  | Some a =>
      tr <- get_transient a;;
      match tr with Hole _ => f <- Hole_GetFuture a;; RETURN (WTransient f) | _ => RETURN x0 end
  end.
Definition run_Hole_hole : M Result := a <- Hole_New;; RETURN (WTransient a).
Definition run_Hole_isHole (x0 : word) : M Result :=
  t <- WordToTransient x0;;
  match t with
  | None => RETURN_BOOL false
  | Some a => tr <- get_transient a;; RETURN_BOOL (match tr with Hole _ => true | _ => false end)
  end.

(** A primitive checks the number of its arguments, pops its frame and runs. *)
Definition run_primitive (p : primitive) : M Result :=
  s <- get;;
  PopFrame;;
  match p, vm_args s with
  | Thread_current, [] => run_Thread_current
  | Thread_isSuspended, [x0] => run_Thread_isSuspended x0
  | Thread_raiseIn, [x0; x1] => run_Thread_raiseIn x0 x1
  | Thread_resume, [x0] => run_Thread_resume x0
  | Thread_state, [x0] => run_Thread_state x0
  | Thread_suspend, [x0] => run_Thread_suspend x0
  | Thread_yield, [x0] => run_Thread_yield x0
  | Future_await, [x0] => run_Future_await x0
  | Future_byneed, [x0] => run_Future_byneed x0
  | Future_concur, [x0] => run_Future_concur x0
  | Future_isByneed, [x0] => run_Future_isByneed x0
  | Future_status, [x0] => run_Future_status x0
  | Hole_fail, [x0; x1] => run_Hole_fail x0 x1
  | Hole_fill, [x0; x1] => run_Hole_fill x0 x1
  | Hole_future, [x0] => run_Hole_future x0
  | Hole_hole, [] => run_Hole_hole
  | Hole_isHole, [x0] => run_Hole_isHole x0
  | _, _ => stuck
  end.

Definition inArity (p : primitive) : nat :=
  match p with
  | Thread_current | Hole_hole => 0
  | Thread_raiseIn | Hole_fail | Hole_fill => 2
  | _ => 1
  end.

(** [PrimitiveInterpreter::Run]: convert the arguments, then the function. *)
Definition run_PrimitiveInterpreter (p : primitive) : M Result :=
  match inArity p with
  | O =>
      s <- get;;
      match vm_args s with
      | [x] =>
          t <- WordToTransient x;;
          match t with
          | None => SetNArgs [];; run_primitive p
          | Some _ => SetCurrentData x;; ret REQUEST
          end
      | _ => run_primitive p
      end
  | S O => Construct;; run_primitive p
  | _ => r <- Deconstruct;; if (r : bool) then ret REQUEST else run_primitive p
  end.

End Scheduler.
