(* ===== verification/SchedulerRun.v ===== *)
(** * The main loop of the scheduler
    (seam/generic/Scheduler.cc: Run, SwitchToThread, FlushThread, DoRaise; the
    Run and Handle methods of the generic workers in TaskStack.cc,
    BindFutureWorker.cc, PushCallWorker.cc, Worker.cc, and RaiseWorker in
    alice/vm-seam/alice/primitives/Thread.cc)

    The loop is a step relation on the VM and a phase that says where the loop
    is.  The interpreters of the language layer are arbitrary: a run of one is
    any sequence of calls to the VM's interface followed by any result. *)

From S2P Require Import Prelude Config HeaderOp Block Queue Thread Scheduler.

(** The calls an interpreter makes while it runs a frame. *)
Inductive user_call (I : Type) :=
  | CPushFrame (i : I) (args : list (word I))
  | CPopFrame
  | CReplaceArgs (args : list (word I))
  | CPushHandler (data : word I)
  | CPopHandler
  | CSetArgs (args : list (word I))
  | CSetData (w : word I)
  | CNewBacktrace.
Arguments CPushFrame {I} _ _.
Arguments CPopFrame {I}.
Arguments CReplaceArgs {I} _.
Arguments CPushHandler {I} _.
Arguments CPopHandler {I}.
Arguments CSetArgs {I} _.
Arguments CSetData {I} _.
Arguments CNewBacktrace {I}.

(** How the run ends: with a result, with a call of a closure, or with a
    primitive called as a C function (Primitive::Execute). *)
Inductive user_end (I : Type) := EResult (r : Result) | EPushCall (closure : word I) | EPrimitive (p : primitive).
Arguments EResult {I} _.
Arguments EPushCall {I} _.
Arguments EPrimitive {I} _.

(** Where the loop of [Scheduler::Run] is: about to dequeue a thread, about to
    run the top frame, interpreting a result, after a stack overflow, or
    returned. *)
Inductive phase := Idle | Running | Interpret (r : Result) | Overflowed | Exited (code : Z).

Section Run.
Context `{Platform} {I Q : Type} `{!FIFO Q positive}.
Variable interpreter_frame : I -> word I -> list (word I).

Notation VM := (VM I Q).
Notation word := (word I).
Notation M := (M VM).
#[local] Open Scope vm_scope.

(** ** Switching between threads *)

Definition maxArgs : Z := 16.
Definition nargs_ok (args : list word) : bool := (zlen args =? 1) || (zlen args <? maxArgs).

(** The arguments of a thread: the count and the word are one list here. *)
Definition SwitchToThread : M unit :=
  t <- current;; th <- get_thread t;;
  assert (bool_decide (t_state th = RUNNABLE));;
  assert (negb (t_suspended th));;
  modify (set_vmstack (t_stack th));;
  assert (nargs_ok (t_args th));;
  modify (set_args (t_args th)).

Definition FlushThread : M unit :=
  s <- get;;
  t <- current;; th <- get_thread t;;
  assert (nargs_ok (vm_args s));;
  put_thread t (SetArgs (set_stack th (vm_stack s)) (vm_args s)).

(** ** The generic workers *)

Definition EmptyTask_Handle : M Result :=
  s <- get;;
  match vm_uncaught s with
  | WInt 0 => SetCurrentData (WInt 1);; ret EXIT
  | closures =>
      PushFrame {| f_worker := UncaughtExceptionWorker;
                   f_args := [vm_data s; WBacktrace (vm_backtrace s); closures] |};;
      Scheduler_PushHandler (WInt 0);;
      SetNArgs [];; ret CONTINUE
  end.

Definition UncaughtException_Run (args : list word) : M Result :=
  match args with
  | [exn; backtrace; WInt 0] =>
      PopFrame;; Scheduler_PopHandler;; SetCurrentData (WInt 1);; ret EXIT
  | [exn; backtrace; WTuple [closure; rest]] =>
      set_top_args [exn; backtrace; rest];;
      SetNArgs [exn; backtrace];;
      PushCall interpreter_frame closure
  | _ => stuck
  end.

(** After the messages on stderr. *)
Definition UncaughtException_Handle : M Result :=
  Scheduler_PushHandler (WInt 0);; SetNArgs [];; ret CONTINUE.

(** [BindFutureFrame::GetFuture]: the transient must be a future. *)
Definition GetFuture (args : list word) : M positive :=
  match args with
  | [w] =>
      t <- WordToTransient w;;
      a <- lift t;;
      x <- get_transient a;;
      match x with Future _ => ret a | _ => stuck end
  | _ => stuck
  end.

Definition IsCyclic (x : word) (future : positive) : M bool :=
  t <- WordToTransient x;; ret (bool_decide (t = Some future)).

Definition first_arg : M word := s <- get;; lift (head (vm_args s)).

Definition BindFuture_Run (args : list word) : M Result :=
  Scheduler_PopHandler;;
  future <- GetFuture args;;
  PopFrame;;
  ScheduleWaitingThreads future;;
  Construct;;
  arg <- first_arg;;
  cyclic <- IsCyclic arg future;;
  if (cyclic : bool) then
    backtrace <- Backtrace_New;;
    Become_Cancelled future (WTuple [cyclicExn; WBacktrace backtrace]);;
    SetNArgs [WTransient future];; ret CONTINUE
  else
    Become_Ref future arg;; ret CONTINUE.

Definition BindFuture_Handle (args : list word) (package : word) : M Result :=
  future <- GetFuture args;;
  PopFrame;;
  ScheduleWaitingThreads future;;
  Become_Cancelled future package;;
  SetNArgs [WTransient future];; ret CONTINUE.

Definition PushCallWorker_Run (args : list word) : M Result :=
  match args with
  | [wClosure] => PopFrame;; PushCall interpreter_frame wClosure
  | _ => stuck
  end.

Definition RaiseWorker_Run (args : list word) : M Result :=
  match args with
  | [exn] => SetCurrentData exn;; b <- Backtrace_New;; modify (set_backtrace b);; ret RAISE
  | _ => stuck
  end.

(** ** Interpreters *)

Definition run_call (c : user_call I) : M unit :=
  match c with
  | CPushFrame i args => PushFrame {| f_worker := UserWorker i; f_args := args |}
  | CPopFrame => PopFrame
  | CReplaceArgs args => set_top_args args
  | CPushHandler data => Scheduler_PushHandler data
  | CPopHandler => Scheduler_PopHandler
  | CSetArgs args => SetNArgs args
  | CSetData w => SetCurrentData w
  | CNewBacktrace => b <- Backtrace_New;; modify (set_backtrace b)
  end.

Fixpoint run_calls (cs : list (user_call I)) : M unit :=
  match cs with
  | [] => ret tt
  | c :: cs => run_call c;; run_calls cs
  end.

Definition run_user (cs : list (user_call I)) (e : user_end I) : M Result :=
  run_calls cs;;
  match e with
  | EResult r => ret r
  | EPushCall closure => PushCall interpreter_frame closure
  | EPrimitive p => PUSH_PRIM_SELF p;; run_primitive p
  end.

(** [Worker::Run] and [Worker::Handle] by the frame's worker; the behaviour
    of an interpreter is an argument. *)
Definition worker_Run (cs : list (user_call I)) (e : user_end I) (f : Frame I) : M Result :=
  match f_worker f with
  | EmptyTaskWorker => SetNArgs [];; ret TERMINATE
  | UncaughtExceptionWorker => UncaughtException_Run (f_args f)
  | BindFutureWorker => BindFuture_Run (f_args f)
  | PushCallWorker => PushCallWorker_Run (f_args f)
  | RaiseWorker => RaiseWorker_Run (f_args f)
  | PrimitiveWorker p => run_PrimitiveInterpreter p
  | UserWorker _ => run_user cs e
  end.

Definition worker_Handle (cs : list (user_call I)) (e : user_end I) (f : Frame I) (data package : word) : M Result :=
  match f_worker f with
  | EmptyTaskWorker => EmptyTask_Handle
  | UncaughtExceptionWorker => UncaughtException_Handle
  | BindFutureWorker => BindFuture_Handle (f_args f) package
  | PushCallWorker | RaiseWorker | PrimitiveWorker _ => ret RAISE
  | UserWorker _ => run_user cs e
  end.

(** ** Raising *)

(** The frame enters the backtrace unless it is the reraising top frame. *)
Definition trace_frame (f : Frame I) (skip : bool) : M unit :=
  if negb skip && Traceable (f_worker f)
  then s <- get;; Backtrace_Enqueue (vm_backtrace s) (Clone f)
  else ret tt.

(** Unroll the stack down to the handler's frame: pop while the frame is above
    it.  [is_top] says whether the frame is still the top one; the fuel is the
    number of frames. *)
Fixpoint unroll (fuel : nat) (handler : Z) (reraise is_top : bool) : M (Frame I) :=
  f <- GetFrame;;
  s <- get;;
  if handler <? frame_index (ts_frames (vm_stack s)) then
    match fuel with
    | O => stuck
    | S fuel =>
        trace_frame f (is_top && reraise);;
        PopFrame_any;;
        unroll fuel handler reraise false
    end
  else trace_frame f (is_top && reraise);; ret f.

Definition DoRaise (cs : list (user_call I)) (e : user_end I) (reraise : bool) : M Result :=
  s <- get;;
  let package := WTuple [vm_data s; WBacktrace (vm_backtrace s)] in
  t <- current;; th <- get_thread t;;
  r <- lift (ActivateNextHandler th package);;
  let '(handler, data, th) := r in
  put_thread t th;;
  assert (handler <=? GetTop (vm_stack s));;
  f <- unroll (length (ts_frames (vm_stack s))) handler reraise true;;
  worker_Handle cs e f data package.

(** ** Interpreting a result *)

(** The end of a thread's turn clears the status word. *)
Definition next_thread : M phase := modify (set_status 0);; ret Idle.

Definition block_on (a : positive) : M phase :=
  FlushThread;;
  t <- current;;
  AddToWaitQueue a t;;
  th <- get_thread t;;
  put_thread t (BlockOn th a);;
  next_thread.

(** A raise is followed by the interpretation of the handler's result. *)
Definition raise cs e (reraise : bool) : M phase := r <- DoRaise cs e reraise;; ret (Interpret r).

Definition interpret_request cs e : M phase :=
  s <- get;;
  transient <- WordToTransient (vm_data s);;
  a <- lift transient;;
  x <- get_transient a;;
  match x with
  | Hole _ =>
      SetCurrentData holeExn;;
      b <- Backtrace_New;; modify (set_backtrace b);;
      raise cs e false
  | Future _ => block_on a
  | Cancelled (WTuple [exn; WBacktrace backtrace]) =>
      SetCurrentData exn;;
      b <- Backtrace_Clone backtrace;; modify (set_backtrace b);;
      raise cs e false
  | Cancelled _ => stuck
  | Byneed closure =>
      newThread <- Scheduler_NewThread [];;
      BindFutureWorker_PushFrame newThread a;;
      PushCallWorker_PushFrame_on newThread closure;;
      Become_Future a;;
      block_on a
  | Ref _ => stuck
  end.

Definition interpret cs e (r : Result) : M phase :=
  match r with
  | CONTINUE => s <- get;; assert (nargs_ok (vm_args s));; ret Running
  | PREEMPT => FlushThread;; t <- current;; ThreadQueue_Enqueue t;; next_thread
  | SUSPEND =>
      FlushThread;; t <- current;; th <- get_thread t;; put_thread t (Suspend th);; next_thread
  | RERAISE => raise cs e true
  | RAISE => raise cs e false
  | REQUEST => interpret_request cs e
  | TERMINATE =>
      FlushThread;; t <- current;; th <- get_thread t;; put_thread t (SetTerminated th);; next_thread
  | EXIT =>
      s <- get;;
      match vm_data s with WInt code => ret (Exited code) | _ => stuck end
  end.

(** The recovery from a stack overflow. *)
Definition recover cs e : M phase :=
  SetCurrentData StackError;;
  b <- Backtrace_New;; modify (set_backtrace b);;
  raise cs e false.

(** ** The loop *)

Definition dequeue : M phase :=
  t <- ThreadQueue_Dequeue;;
  modify (set_current t);;
  match t with
  | None => next_thread
  | Some _ => SwitchToThread;; ret Running
  end.

Definition run_frame cs e : M phase := f <- GetFrame;; r <- worker_Run cs e f;; ret (Interpret r).

Definition turn cs e (p : phase) : M phase :=
  match p with
  | Idle => dequeue
  | Running => run_frame cs e
  | Interpret r => interpret cs e r
  | Overflowed => recover cs e
  | Exited code => ret (Exited code)
  end.

(** One turn of the loop.  A stack overflow jumps out of whatever was being
    done, to the recovery, which raises in the current thread.  The timer may
    set the status at any time, and a collection between two threads blanks
    the run queue ([ThreadQueue::Purge]). *)
Inductive step : phase * VM -> phase * VM -> Prop :=
  | step_turn cs e p s p' s' : turn cs e p s = Ok p' s' -> step (p, s) (p', s')
  | step_overflow cs e p s s' : turn cs e p s = Overflow s' -> step (p, s) (Overflowed, s')
  | step_status p s x : step (p, s) (p, set_status x s)
  | step_gc s q : fifo_blank (vm_queue s) = Some q -> step (Idle, s) (Idle, set_queue q s).

End Run.
