(* ===== verification/SchedulerInv.v ===== *)
(** * The invariant of the scheduler

    Every thread that is neither terminated nor suspended is the running
    thread, an entry of the run queue, or an entry of the wait queue of the
    unbound future it blocks on, once; bound transients form no cycle, so
    dereferencing ends.  The operations of the VM are shown to keep this
    through a weakest precondition over the monad; the ones that only touch
    stacks, arguments or backtraces are neutral. *)

From S2P Require Import Prelude Config HeaderOp Block Queue Thread Scheduler SchedulerRun.

Create HintDb neutral.

(** ** Weakest preconditions *)

Section Wp.
Context {S : Type}.

Definition wp {A} (m : M S A) (s : S) (Q : A -> S -> Prop) (O : S -> Prop) : Prop :=
  match m s with Ok a s' => Q a s' | Overflow s' => O s' | Stuck => True end.

Lemma wp_bind {A B} (m : M S A) (k : A -> M S B) s Q O :
  wp m s (fun a s' => wp (k a) s' Q O) O -> wp (bind m k) s Q O.
Proof. unfold wp, bind. destruct (m s); auto. Qed.

Lemma wp_mono {A} (m : M S A) s (Q Q' : A -> S -> Prop) (O O' : S -> Prop) :
  wp m s Q O -> (forall a s', Q a s' -> Q' a s') -> (forall s', O s' -> O' s') -> wp m s Q' O'.
Proof. unfold wp. destruct (m s); auto. Qed.

Lemma wp_ret {A} (a : A) s (Q : A -> S -> Prop) O : Q a s -> wp (ret a) s Q O.
Proof. done. Qed.
Lemma wp_get s (Q : S -> S -> Prop) O : Q s s -> wp get s Q O.
Proof. done. Qed.
Lemma wp_modify f s (Q : unit -> S -> Prop) O : Q tt (f s) -> wp (modify f) s Q O.
Proof. done. Qed.
Lemma wp_lift {A} (o : option A) s (Q : A -> S -> Prop) O : (forall a, o = Some a -> Q a s) -> wp (lift o) s Q O.
Proof. unfold wp, lift. destruct o; auto. Qed.
Lemma wp_assert b s (Q : unit -> S -> Prop) O : (b = true -> Q tt s) -> wp (assert b) s Q O.
Proof. unfold wp, assert. destruct b; auto. Qed.
Lemma wp_stuck {A} s (Q : A -> S -> Prop) O : wp stuck s Q O.
Proof. done. Qed.
Lemma wp_overflow {A} s (Q : A -> S -> Prop) (O : S -> Prop) : O s -> wp overflow s Q O.
Proof. done. Qed.

Lemma wp_run {A} (m : M S A) s a s' (Q : A -> S -> Prop) O : m s = Ok a s' -> Q a s' -> wp m s Q O.
Proof. unfold wp. by intros ->. Qed.

Lemma bind_Ok {A B} (m : M S A) (k : A -> M S B) s a s' : m s = Ok a s' -> bind m k s = k a s'.
Proof. unfold bind. by intros ->. Qed.

Lemma bind_bind_Ok {A B C} (m : M S A) (n : A -> M S B) (k : B -> M S C) s b s' :
  bind m n s = Ok b s' -> bind m (fun x => bind (n x) k) s = k b s'.
Proof. unfold bind. destruct (m s) as [x s1 | |]; try done. by intros ->. Qed.

End Wp.

(** Symbolic execution of the monad's own operations. *)
Ltac wp_prim :=
  lazymatch goal with
  | |- wp (bind _ _) _ _ _ => apply wp_bind
  | |- wp (ret _) _ _ _ => apply wp_ret
  | |- wp get _ _ _ => apply wp_get
  | |- wp (modify _) _ _ _ => apply wp_modify
  | |- wp (lift _) _ _ _ => apply wp_lift; intros ? ?
  | |- wp (assert _) _ _ _ => apply wp_assert; intros ?
  | |- wp stuck _ _ _ => apply wp_stuck
  | |- wp overflow _ _ _ => apply wp_overflow
  end.
Ltac wp_prims := repeat (wp_prim; cbv beta).

(** ** Dereferencing *)

Section Deref.
Context {I Q : Type}.
Implicit Types (T : gmap positive (Transient I Q)) (w r : word I) (a : positive).

(** [derefs T n w r]: after [n] bound transients [w] leads to [r]. *)
Inductive derefs T : nat -> word I -> word I -> Prop :=
  | derefs_value w : (forall a, w <> WTransient a) -> derefs T 0 w w
  | derefs_unbound a x : T !! a = Some x -> is_ref x = false -> derefs T 0 (WTransient a) (WTransient a)
  | derefs_ref a n w r : T !! a = Some (Ref w) -> derefs T n w r -> derefs T (S n) (WTransient a) r.

Lemma derefs_det T n w r n' r' : derefs T n w r -> derefs T n' w r' -> n = n' /\ r = r'.
Proof.
  intros Hd. revert n' r'. induction Hd as [w Hw | a x Ha Hx | a n w r Ha Hd IH]; intros n' r' Hd'.
  - inversion Hd'; subst; [done | by destruct (Hw a) ..].
  - inversion Hd'; subst; simplify_eq; done.
  - inversion Hd' as [? Hn | ? ? Hy Hb | ? n2 w2 ? Hy Hd2]; subst; [by destruct (Hn a) | |].
    + by simplify_eq.
    + simplify_eq. destruct (IH _ _ Hd2) as [-> ->]. done.
Qed.

(** The transients on the way are distinct, as they have different depths. *)
Lemma derefs_path T n w r :
  derefs T n w r ->
  exists l, length l = n /\ NoDup l /\ forall a, a ∈ l -> is_Some (T !! a) /\ exists m r', (m <= n)%nat /\ derefs T m (WTransient a) r'.
Proof.
  induction 1 as [w Hw | a x Ha Hx | a n w r Ha Hd IH].
  - exists []. split_and!; [done | constructor | by intros a ?%elem_of_nil].
  - exists []. split_and!; [done | constructor | by intros b ?%elem_of_nil].
  - destruct IH as (l & Hl & Hnd & Hall). exists (a :: l). split_and!.
    + simpl. by rewrite Hl.
    + constructor; [| done]. intros Hin. destruct (Hall a Hin) as (_ & m & r' & Hm & Hd').
      assert (Hda : derefs T (S n) (WTransient a) r) by (by eapply derefs_ref).
      destruct (derefs_det _ _ _ _ _ _ Hda Hd') as [E _]. lia.
    + intros b [-> | Hin]%elem_of_cons.
      * split; [by exists (Ref w) |]. exists (S n), r. split; [lia | by eapply derefs_ref].
      * destruct (Hall b Hin) as (Hb & m & r' & Hm & Hd'). split; [done |]. exists m, r'. split; [lia | done].
Qed.

Lemma derefs_size T n w r : derefs T n w r -> (n <= size T)%nat.
Proof.
  intros (l & <- & Hnd & Hall)%derefs_path. rewrite <- size_dom.
  replace (length l) with (size (list_to_set l : gset positive)) by (by apply size_list_to_set).
  apply subseteq_size. intros a Ha%elem_of_list_to_set. apply elem_of_dom. by apply Hall.
Qed.

Lemma deref_derefs T fuel n w r : derefs T n w r -> (n <= fuel)%nat -> deref fuel T w = Some r.
Proof.
  intros Hd. revert fuel. induction Hd as [w Hw | a x Ha Hx | a n w r Ha Hd IH]; intros fuel Hf.
  - destruct fuel, w; try done; by destruct (Hw a).
  - destruct fuel; simpl; rewrite Ha; simpl; by destruct x.
  - destruct fuel as [| fuel]; [lia |]. simpl. rewrite Ha. simpl. apply IH. lia.
Qed.

Lemma deref_inv T fuel w r : deref fuel T w = Some r -> exists n, derefs T n w r.
Proof.
  revert w. induction fuel as [| fuel IH]; intros w Hd.
  all: destruct w as [| | a | | | | |]; simpl in Hd; simplify_eq; try (by exists O; constructor).
  all: destruct (T !! a) as [x |] eqn:Ea; simpl in Hd; [| done].
  all: destruct x as [| | | | w]; simplify_eq; try (by exists O; eapply derefs_unbound).
  destruct (IH _ Hd) as [n Hn]. exists (S n). by eapply derefs_ref.
Qed.

(** The result of dereferencing is a value or an unbound transient. *)
Lemma derefs_result T n w r : derefs T n w r -> derefs T 0 r r.
Proof. induction 1; [by constructor | by eapply derefs_unbound | done]. Qed.

Lemma derefs_result_unbound T n w a : derefs T n w (WTransient a) -> exists x, T !! a = Some x /\ is_ref x = false.
Proof. intros Hd%derefs_result. inversion Hd as [? Hn | ? x |]; subst; [by destruct (Hn a) | by exists x]. Qed.

(** An update of an entry that is not on the way changes nothing. *)
Lemma derefs_insert_other T n w r a x :
  derefs T n w r -> (forall y, T !! a = Some y -> is_ref y = false) -> r <> WTransient a -> derefs (<[a := x]> T) n w r.
Proof.
  intros Hd Hy. induction Hd as [w Hw | b z Hb Hz | b n w r Hb Hd IH]; intros Hr.
  - by constructor.
  - eapply derefs_unbound; [| done]. rewrite lookup_insert_ne; [done | congruence].
  - eapply derefs_ref; [| by apply IH]. rewrite lookup_insert_ne; [done |].
    intros ->. specialize (Hy _ Hb). done.
Qed.

Lemma derefs_insert_unbound T n w r a x :
  derefs T n w r -> (forall y, T !! a = Some y -> is_ref y = false) -> is_ref x = false ->
  derefs (<[a := x]> T) n w r.
Proof.
  intros Hd Hy Hx. induction Hd as [w Hw | b z Hb Hz | b n w r Hb Hd IH].
  - by constructor.
  - destruct (decide (a = b)) as [-> | Hne].
    + eapply derefs_unbound; [apply lookup_insert_eq | done].
    + eapply derefs_unbound; [by rewrite lookup_insert_ne | done].
  - eapply derefs_ref; [| done]. rewrite lookup_insert_ne; [done |].
    intros ->. specialize (Hy _ Hb). done.
Qed.

(** Binding an unbound transient redirects what led to it. *)
Lemma derefs_bind T n w r a v m u :
  derefs T n w r -> (exists y, T !! a = Some y /\ is_ref y = false) ->
  derefs T m v u -> u <> WTransient a ->
  exists k r', derefs (<[a := Ref v]> T) k w r'.
Proof.
  intros Hd (y & Hy & Hny) Hv Hu.
  assert (Hna : forall z, T !! a = Some z -> is_ref z = false) by (intros; simplify_eq; done).
  induction Hd as [w Hw | b z Hb Hz | b n w r Hb Hd IH].
  - exists O, w. by constructor.
  - destruct (decide (a = b)) as [-> | Hne].
    + exists (S m), u. eapply derefs_ref; [apply lookup_insert_eq |]. by apply derefs_insert_other.
    + exists O, (WTransient b). eapply derefs_unbound; [by rewrite lookup_insert_ne | done].
  - destruct IH as (k & r' & Hk). exists (S k), r'. eapply derefs_ref; [| done].
    rewrite lookup_insert_ne; [done |]. intros ->. specialize (Hna _ Hb). done.
Qed.

End Deref.

(** ** The invariant *)

(** What scheduling depends on of a thread: its state, whether it is suspended
    and the future it blocks on. *)
Notation tview := (state * bool * option positive)%type.
Definition sview {I} (th : Thread I) : tview := (t_state th, t_suspended th, t_future th).

Section Inv.
Context `{Platform} {I Q : Type} `{!FIFO Q positive}.
Variable interpreter_frame : I -> word I -> list (word I).
Implicit Types (T : gmap positive (Transient I Q)) (w r : word I) (a t : positive).
Implicit Types (V : gmap positive tview) (q : Q) (cur : option positive) (s : VM I Q).

Definition views s : gmap positive tview := sview <$> vm_threads s.

(** Nobody waits for the transient. *)
Definition no_waiters T a : Prop := forall wq, T !! a = Some (Future (Some wq)) -> fifo_list wq = [].

(** [cur] is the running thread. *)
Record sched_inv V q T cur : Prop := {
  si_queue : fifo_ok q;
  si_nodup : NoDup (fifo_list q);
  si_ready t : t ∈ fifo_list q <-> (exists f, V !! t = Some (RUNNABLE, false, f)) /\ cur <> Some t;
  si_running t : cur = Some t -> exists f, V !! t = Some (RUNNABLE, false, f);
  si_wait a wq : T !! a = Some (Future (Some wq)) ->
    fifo_ok wq /\ NoDup (fifo_list wq) /\ forall t, t ∈ fifo_list wq -> exists b, V !! t = Some (BLOCKED, b, Some a);
  si_blocked t b f : V !! t = Some (BLOCKED, b, f) ->
    exists a wq, f = Some a /\ T !! a = Some (Future (Some wq)) /\ t ∈ fifo_list wq;
  si_acyclic a : is_Some (T !! a) -> exists n r, derefs T n (WTransient a) r
}.

(** The invariant of a VM in which [k] more threads fit the queues. *)
Definition inv cur (k : Z) s : Prop :=
  sched_inv (views s) (vm_queue s) (vm_transients s) cur /\
  (forall t, cur = Some t -> vm_current s = Some t) /\
  Z.of_nat (size (vm_threads s)) + k <= fifo_cap.

(** ** Neutral operations *)

Definition sched_eq s s' : Prop :=
  views s' = views s /\ vm_queue s' = vm_queue s /\ vm_transients s' = vm_transients s /\
  vm_current s' = vm_current s.

#[global] Instance sched_eq_preorder : PreOrder sched_eq.
Proof. split; [done |]. intros x y z (? & ? & ? & ?) (? & ? & ? & ?). split_and!; congruence. Qed.

Definition neutral {A} (m : M (VM I Q) A) : Prop :=
  forall s, wp m s (fun _ s' => sched_eq s s') (fun s' => sched_eq s s').

Lemma inv_sched_eq cur k s s' : sched_eq s s' -> inv cur k s -> inv cur k s'.
Proof.
  intros (Ev & Eq & Et & Ec) (Hi & Hc & Hs). split; [by rewrite Ev, Eq, Et |]. split; [by rewrite Ec |].
  replace (size (vm_threads s')) with (size (vm_threads s)); [done |].
  transitivity (size (views s)); [by unfold views; rewrite map_size_fmap | rewrite <- Ev].
  unfold views. by rewrite map_size_fmap.
Qed.

Lemma inv_weaken cur k k' s : k' <= k -> inv cur k s -> inv cur k' s.
Proof. intros ? (? & ? & ?). split_and!; [done .. | lia]. Qed.

Lemma wp_neutral {A} (m : M (VM I Q) A) s (R : A -> VM I Q -> Prop) O :
  neutral m -> (forall x s', sched_eq s s' -> R x s') -> (forall s', sched_eq s s' -> O s') -> wp m s R O.
Proof. intros Hm HR HO. eapply wp_mono; [apply Hm | done ..]. Qed.

Lemma neutral_bind {A B} (m : M (VM I Q) A) (k : A -> M (VM I Q) B) :
  neutral m -> (forall x, neutral (k x)) -> neutral (bind m k).
Proof.
  intros Hm Hk s. apply wp_bind. eapply wp_mono; [apply Hm | | done]. simpl. intros a s' E.
  eapply wp_mono; [apply Hk | |]; simpl; intros; by etransitivity.
Qed.

Lemma neutral_ret {A} (x : A) : neutral (ret x).
Proof. intros s. apply wp_ret. done. Qed.
Lemma neutral_get : neutral get.
Proof. intros s. apply wp_get. done. Qed.
Lemma neutral_lift {A} (o : option A) : neutral (lift o).
Proof. intros s. by apply wp_lift. Qed.
Lemma neutral_assert b : neutral (assert b).
Proof. intros s. by apply wp_assert. Qed.
Lemma neutral_stuck {A} : neutral (A := A) stuck.
Proof. intros s. apply wp_stuck. Qed.
Lemma neutral_overflow {A} : neutral (A := A) overflow.
Proof. intros s. by apply wp_overflow. Qed.
Lemma neutral_set_vmstack x : neutral (modify (set_vmstack x)).
Proof. intros s. by apply wp_modify. Qed.
Lemma neutral_set_args x : neutral (modify (set_args x)).
Proof. intros s. by apply wp_modify. Qed.
Lemma neutral_set_data x : neutral (modify (set_data x)).
Proof. intros s. by apply wp_modify. Qed.
Lemma neutral_set_backtrace x : neutral (modify (set_backtrace x)).
Proof. intros s. by apply wp_modify. Qed.
Lemma neutral_set_backtraces x : neutral (modify (set_backtraces x)).
Proof. intros s. by apply wp_modify. Qed.
Lemma neutral_set_status x : neutral (modify (set_status x)).
Proof. intros s. by apply wp_modify. Qed.

End Inv.

#[export] Hint Resolve neutral_ret neutral_get neutral_lift neutral_assert neutral_stuck neutral_overflow
  neutral_set_vmstack neutral_set_args neutral_set_data neutral_set_backtrace neutral_set_backtraces
  neutral_set_status : neutral.
#[export] Hint Unfold Deref WordToTransient SetNArgs SetCurrentData get_thread get_transient current Backtrace_New
  Backtrace_Enqueue Backtrace_Clone PushFrame GetFrame PopFrame PopFrame_any set_top_args
  PushCallWorker_PushFrame_on RaiseWorker_PushFrame PushCall Construct Deconstruct RETURN RETURN_UNIT
  RETURN_INT RETURN_BOOL PUSH_PRIM_SELF prim_RAISE prim_REQUEST
  run_Thread_current run_Thread_isSuspended run_Thread_state run_Thread_yield run_Future_await
  run_Future_isByneed run_Future_status run_Hole_isHole
  EmptyTask_Handle UncaughtException_Run UncaughtException_Handle PushCallWorker_Run RaiseWorker_Run
  GetFuture IsCyclic first_arg : neutral.

(** Splits binds and matches and closes the rest by the hints. *)
Ltac neutral :=
  repeat first
    [ match goal with |- neutral (bind _ _) => apply neutral_bind end
    | match goal with |- forall _, _ => intro end
    | solve [eauto with neutral]
    | progress cbv beta zeta
    | progress autounfold with neutral
    | match goal with |- neutral (match ?x with _ => _ end) => destruct x end
    | match goal with |- neutral (if ?x then _ else _) => destruct x end ].

Section Neutral.
Context `{Platform} {I Q : Type} `{!FIFO Q positive}.
Variable interpreter_frame : I -> word I -> list (word I).
Implicit Types (w r : word I) (a t : positive) (s : VM I Q).

(** Updating the parts of a thread that scheduling does not depend on. *)
Lemma sched_eq_put_thread s t th th' :
  vm_threads s !! t = Some th -> sview th' = sview th ->
  sched_eq s (set_threads (<[t := th']> (vm_threads s)) s).
Proof.
  intros Ht Ev. split; [| done]. unfold views. simpl. rewrite fmap_insert, Ev.
  apply insert_id. by rewrite lookup_fmap, Ht.
Qed.

(** A thread is read, computed with and written back. *)
Lemma neutral_update_thread t (g : Thread I -> M (VM I Q) (Thread I)) :
  (forall th s, wp (g th) s (fun th' s' => s' = s /\ sview th' = sview th) (fun s' => s' = s)) ->
  neutral (bind (get_thread t) (fun th => bind (g th) (put_thread t))).
Proof.
  intros Hg s. unfold get_thread, put_thread. wp_prims.
  eapply wp_mono; [apply Hg | | by intros ? ->]. simpl. intros th' ? [-> Ev]. wp_prims.
  by eapply sched_eq_put_thread.
Qed.

Lemma neutral_update_current (g : Thread I -> option (Thread I)) :
  (forall th th', g th = Some th' -> sview th' = sview th) -> neutral (I := I) (Q := Q) (update_current g).
Proof.
  intros Hg. unfold update_current. apply neutral_bind; [neutral |]. intros t.
  apply (neutral_update_thread t (fun th => lift (g th))). intros th s. by apply wp_lift; eauto.
Qed.

Lemma neutral_PushHandler data : neutral (I := I) (Q := Q) (Scheduler_PushHandler data).
Proof.
  unfold Scheduler_PushHandler. apply neutral_bind; [neutral |]. intros s. apply neutral_update_current.
  intros th th'. unfold PushHandler_at. intros. by case_match; simplify_eq.
Qed.
Lemma neutral_PopHandler : neutral (I := I) (Q := Q) Scheduler_PopHandler.
Proof. apply neutral_update_current. intros th th'. unfold PopHandler. intros. by case_match; simplify_eq. Qed.

Lemma neutral_PushFrame_on t f : neutral (I := I) (Q := Q) (PushFrame_on t f).
Proof.
  unfold PushFrame_on. intros s. unfold get_thread. wp_prims.
  match goal with Hr : Thread_PushFrame _ _ = Some ?r |- _ => destruct r as [th' |] eqn:Er; unfold Thread_PushFrame in Hr end;
    unfold put_thread; wp_prims; [| done].
  eapply sched_eq_put_thread; [done |]. repeat case_match; by simplify_eq.
Qed.
Hint Resolve neutral_PushHandler neutral_PopHandler neutral_PushFrame_on : neutral.

Lemma neutral_BindFutureWorker_PushFrame t a : neutral (I := I) (Q := Q) (BindFutureWorker_PushFrame t a).
Proof.
  unfold BindFutureWorker_PushFrame. apply neutral_bind; [neutral |]. intros [].
  apply (neutral_update_thread t (fun th => lift (PushHandler th (WInt 0)))). intros th s. apply wp_lift.
  unfold PushHandler, PushHandler_at. intros. repeat case_match; by simplify_eq.
Qed.
Hint Resolve neutral_BindFutureWorker_PushFrame : neutral.

Lemma neutral_PushCall closure : neutral (I := I) (Q := Q) (PushCall interpreter_frame closure).
Proof. unfold PushCall. neutral. Qed.
Hint Resolve neutral_PushCall : neutral.

Lemma neutral_FlushThread : neutral (I := I) (Q := Q) FlushThread.
Proof.
  intros s. unfold FlushThread, current, get_thread, put_thread. wp_prims.
  by eapply sched_eq_put_thread.
Qed.
Lemma neutral_SwitchToThread : neutral (I := I) (Q := Q) SwitchToThread.
Proof. unfold SwitchToThread. neutral. Qed.
Hint Resolve neutral_FlushThread neutral_SwitchToThread : neutral.

Lemma neutral_trace_frame f b : neutral (I := I) (Q := Q) (trace_frame f b).
Proof. unfold trace_frame. neutral. Qed.
Hint Resolve neutral_trace_frame : neutral.

Lemma neutral_unroll fuel handler b b' : neutral (I := I) (Q := Q) (unroll fuel handler b b').
Proof. revert b'. induction fuel as [| fuel IH]; intros b'; simpl; neutral. Qed.

Lemma neutral_run_calls cs : neutral (I := I) (Q := Q) (run_calls cs).
Proof.
  induction cs as [| c cs IH]; simpl; [neutral |]. apply neutral_bind; [| done].
  destruct c; simpl; neutral.
Qed.
Hint Resolve neutral_unroll neutral_run_calls : neutral.
End Neutral.

#[export] Hint Resolve neutral_PushHandler neutral_PopHandler neutral_PushFrame_on neutral_BindFutureWorker_PushFrame
  neutral_PushCall neutral_FlushThread neutral_SwitchToThread neutral_trace_frame neutral_unroll neutral_run_calls : neutral.
