(* ===== verification/SchedulerOps.v ===== *)
(** * The operations on threads and transients keep the scheduler's invariant

    First the effect of each operation on the abstract state (the threads'
    views, the run queue, the transients and the running thread), then the
    operations themselves.  Waking the waiting threads, which the filling and
    failing of holes and the binding of futures share, is specified exactly. *)

From S2P Require Import Prelude Config HeaderOp Block Queue Thread Scheduler SchedulerRun SchedulerInv.

Section Abstract.
Context {I Q : Type} `{!FIFO Q positive}.
Implicit Types (T : gmap positive (Transient I Q)) (a t u : positive) (V : gmap positive tview) (q wq : Q).

(** The queues only hold threads: they have room for one more. *)
Lemma elements_bound {A} (m : gmap positive A) (l : list positive) :
  NoDup l -> (forall t, t ∈ l -> is_Some (m !! t)) -> (length l <= size m)%nat.
Proof.
  intros Hnd Hall. rewrite <- size_dom.
  replace (length l) with (size (list_to_set l : gset positive)) by (by apply size_list_to_set).
  apply subseteq_size. intros t Ht%elem_of_list_to_set. apply elem_of_dom. by apply Hall.
Qed.

Lemma queue_room V q t :
  NoDup (fifo_list q) -> (forall u, u ∈ fifo_list q -> is_Some (V !! u)) -> is_Some (V !! t) -> t ∉ fifo_list q ->
  Z.of_nat (size V) <= fifo_cap -> zlen (fifo_list q) < fifo_cap.
Proof.
  intros Hnd Hall Ht Hn Hc. assert (Hl : (length (t :: fifo_list q) <= size V)%nat).
  { apply elements_bound; [by constructor |]. intros u [-> | Hu]%elem_of_cons; auto. }
  simpl in Hl. unfold zlen. lia.
Qed.

Section Fields.
Context {V T q cur} (Hi : sched_inv (I := I) V q T cur).

Lemma ready_view t : t ∈ fifo_list q -> exists f, V !! t = Some (RUNNABLE, false, f).
Proof. intros Ht. by apply (si_ready _ _ _ _ Hi) in Ht as [? _]. Qed.

Lemma running_not_ready t : cur = Some t -> t ∉ fifo_list q.
Proof. intros Hc Ht. by apply (si_ready _ _ _ _ Hi) in Ht as [_ ?]. Qed.

Lemma blocked_not_ready t b f : V !! t = Some (BLOCKED, b, f) -> t ∉ fifo_list q.
Proof. intros Hv Ht. destruct (ready_view t Ht). congruence. Qed.

Lemma waiting_unique a b wq wq' t :
  T !! a = Some (Future (Some wq)) -> t ∈ fifo_list wq -> T !! b = Some (Future (Some wq')) -> t ∈ fifo_list wq' -> a = b.
Proof.
  intros Ha Ht Hb Ht'. apply (si_wait _ _ _ _ Hi) in Ha as (_ & _ & Ha). apply (si_wait _ _ _ _ Hi) in Hb as (_ & _ & Hb).
  destruct (Ha _ Ht), (Hb _ Ht'). congruence.
Qed.

(** A transient changes while nobody waits for it. *)
Lemma inv_set_transient a x :
  no_waiters T a -> (forall wq, x <> Future (Some wq)) ->
  (forall y, T !! a = Some y -> is_ref y = false) ->
  (forall v, x = Ref v -> is_Some (T !! a) /\ exists n r, derefs T n v r /\ r <> WTransient a) ->
  sched_inv V q (<[a := x]> T) cur.
Proof.
  intros Hw Hx Hy Hr. destruct Hi as [Hq Hnd Hre Hru Hwa Hbl Hac]. split; try done.
  - intros b wq. destruct (decide (a = b)) as [<- | Hne].
    + rewrite lookup_insert_eq. intros [= ?]. by destruct (Hx wq).
    + rewrite lookup_insert_ne by done. apply Hwa.
  - intros t b f Ht. destruct (Hbl t b f Ht) as (c & wq & -> & Hc & Hin). exists c, wq.
    split_and!; [done | | done]. rewrite lookup_insert_ne; [done |].
    intros ->. specialize (Hw _ Hc). rewrite Hw in Hin. by apply elem_of_nil in Hin.
  - intros b Hb. destruct (is_ref x) eqn:Ex.
    + destruct x as [| | | | v]; try done. destruct (Hr v eq_refl) as ([y Ha] & m & u & Hd & Hu).
      assert (Hb' : is_Some (T !! b)).
      { destruct (decide (a = b)) as [<- |]; [by exists y |]. by rewrite lookup_insert_ne in Hb. }
      destruct (Hac b Hb') as (n & r & Hn). eapply derefs_bind; eauto.
    + destruct (decide (a = b)) as [<- | Hne].
      * exists O, (WTransient a). eapply derefs_unbound; [apply lookup_insert_eq | done].
      * rewrite lookup_insert_ne in Hb by done. destruct (Hac b Hb) as (n & r & Hn).
        exists n, r. by apply derefs_insert_unbound.
Qed.

(** A waiting thread leaves its wait queue and becomes runnable. *)
Lemma inv_unblock a wq wq' t (b : bool) q' :
  T !! a = Some (Future (Some wq)) -> V !! t = Some (BLOCKED, b, Some a) ->
  fifo_ok wq' -> NoDup (fifo_list wq') -> (forall u, u ∈ fifo_list wq' <-> u ∈ fifo_list wq /\ u <> t) ->
  fifo_ok q' -> fifo_list q' = fifo_list q ++ (if b then [] else [t]) ->
  sched_inv (<[t := (RUNNABLE, b, None)]> V) q' (<[a := Future (Some wq')]> T) cur.
Proof.
  intros Ha Ht Hok' Hnd' Hwq' Hq' El. pose proof (blocked_not_ready _ _ _ Ht) as Hnq.
  destruct Hi as [Hq Hnd Hre Hru Hwa Hbl Hac].
  assert (Hct : cur <> Some t) by (intros Hc; destruct (Hru t Hc); congruence).
  split; try done.
  - rewrite El. apply NoDup_app. split_and!; [done | | destruct b; constructor; [set_solver | constructor]].
    intros u Hu. destruct b; [apply not_elem_of_nil |]. intros ->%list_elem_of_singleton. done.
  - intros u. rewrite El, elem_of_app, Hre. destruct (decide (t = u)) as [<- | Hne].
    + rewrite lookup_insert_eq. destruct b.
      * split; [intros [[[f Hf] _] | Hn] | intros [[f [=]] _]]; [congruence | by apply elem_of_nil in Hn].
      * split; [intros _; split; [by eexists | done] | intros _; right; by apply list_elem_of_singleton].
    + rewrite lookup_insert_ne by done. split; [intros [Hu | Hu]; [done |] | by left].
      destruct b; [by apply elem_of_nil in Hu | apply list_elem_of_singleton in Hu; congruence].
  - intros u Hu. rewrite lookup_insert_ne by congruence. by apply Hru.
  - intros c wq2. destruct (decide (a = c)) as [<- | Hne].
    + rewrite lookup_insert_eq. intros [= <-]. split_and!; [done .. |].
      intros u [Hu Hne]%Hwq'. rewrite lookup_insert_ne by done. by apply (Hwa _ _ Ha).
    + rewrite lookup_insert_ne by done. intros Hc. destruct (Hwa _ _ Hc) as (? & ? & Hall).
      split_and!; [done .. |]. intros u Hu. destruct (Hall u Hu) as [b' Hb'].
      rewrite lookup_insert_ne by congruence. by exists b'.
  - intros u b' f. destruct (decide (t = u)) as [<- | Hne]; [by rewrite lookup_insert_eq |].
    rewrite lookup_insert_ne by done. intros Hu. destruct (Hbl _ _ _ Hu) as (c & wq2 & -> & Hc & Hin).
    destruct (decide (a = c)) as [<- | Hac'].
    + exists a, wq'. rewrite lookup_insert_eq. simplify_eq. split_and!; [done .. |]. by apply Hwq'.
    + exists c, wq2. by rewrite lookup_insert_ne.
  - intros c Hc. assert (Hc' : is_Some (T !! c)).
    { destruct (decide (a = c)) as [<- |]; [by eexists |]. by rewrite lookup_insert_ne in Hc. }
    destruct (Hac c Hc') as (n & r & Hn). exists n, r. apply derefs_insert_unbound; [done | | done].
    intros y Hy. by simplify_eq.
Qed.

(** The running thread blocks on a future. *)
Lemma inv_block t f a wo wq' :
  cur = Some t -> V !! t = Some (RUNNABLE, false, f) -> T !! a = Some (Future wo) ->
  fifo_ok wq' -> fifo_list wq' = default [] (fifo_list <$> wo) ++ [t] ->
  sched_inv (<[t := (BLOCKED, false, Some a)]> V) q (<[a := Future (Some wq')]> T) None.
Proof.
  intros Hc Ht Ha Hok' El. pose proof (running_not_ready _ Hc) as Hnq.
  destruct Hi as [Hq Hnd Hre Hru Hwa Hbl Hac]. subst cur.
  assert (Hold : NoDup (default [] (fifo_list <$> wo)) /\
                 forall u, u ∈ default [] (fifo_list <$> wo) -> exists b, V !! u = Some (BLOCKED, b, Some a)).
  { destruct wo as [wq |]; simpl; [by apply (Hwa _ _ Ha) |]. split; [constructor | by intros u ?%elem_of_nil]. }
  destruct Hold as [Hnd0 Hall].
  assert (Hnt : t ∉ default [] (fifo_list <$> wo)) by (intros Hin; destruct (Hall t Hin); congruence).
  split; try done.
  - intros u. rewrite Hre. destruct (decide (t = u)) as [<- | Hne].
    + rewrite lookup_insert_eq. naive_solver.
    + rewrite lookup_insert_ne by done. naive_solver.
  - intros c wq2. destruct (decide (a = c)) as [<- | Hne].
    + rewrite lookup_insert_eq. intros [= <-]. rewrite El. split_and!; [done | |].
      * apply NoDup_app. split_and!; [done | | apply NoDup_singleton].
        intros u Hu ->%list_elem_of_singleton. done.
      * intros u [Hu | ->%list_elem_of_singleton]%elem_of_app; [| rewrite lookup_insert_eq; by eexists].
        rewrite lookup_insert_ne by (intros ->; done). by apply Hall.
    + rewrite lookup_insert_ne by done. intros Hc. destruct (Hwa _ _ Hc) as (? & ? & Hall').
      split_and!; [done .. |]. intros u Hu. destruct (Hall' u Hu) as [b' Hb'].
      rewrite lookup_insert_ne by congruence. by exists b'.
  - intros u b f'. destruct (decide (t = u)) as [<- | Hne].
    + rewrite lookup_insert_eq. intros [= <- <-]. exists a, wq'. rewrite lookup_insert_eq.
      split_and!; [done .. |]. rewrite El. set_solver.
    + rewrite lookup_insert_ne by done. intros Hu. destruct (Hbl _ _ _ Hu) as (c & wq2 & -> & Hc & Hin).
      destruct (decide (a = c)) as [<- | Hac'].
      * exists a, wq'. rewrite lookup_insert_eq. simplify_eq. split_and!; [done .. |]. rewrite El. set_solver.
      * exists c, wq2. by rewrite lookup_insert_ne.
  - intros c Hc. assert (Hc' : is_Some (T !! c)).
    { destruct (decide (a = c)) as [<- |]; [by eexists |]. by rewrite lookup_insert_ne in Hc. }
    destruct (Hac c Hc') as (n & r & Hn). exists n, r. apply derefs_insert_unbound; [done | | done].
    intros y Hy. by simplify_eq.
Qed.

(** The running thread goes back to the queue. *)
Lemma inv_preempt t q' :
  cur = Some t -> fifo_ok q' -> fifo_list q' = fifo_list q ++ [t] -> sched_inv V q' T None.
Proof.
  intros Hc Hok El. pose proof (running_not_ready _ Hc) as Hnq. destruct Hi as [Hq Hnd Hre Hru Hwa Hbl Hac].
  split; try done.
  - rewrite El. apply NoDup_app. split_and!; [done | | apply NoDup_singleton]. intros u Hu ->%list_elem_of_singleton. done.
  - intros u. rewrite El, elem_of_app, Hre, list_elem_of_singleton. specialize (Hru t Hc).
    destruct (decide (u = t)) as [-> | Hne]; [naive_solver |]. split; [naive_solver |].
    intros [? _]. left. split; [done |]. congruence.
Qed.

(** The first thread of the queue becomes the running one. *)
Lemma inv_dequeue t l q' :
  cur = None -> fifo_list q = t :: l -> fifo_ok q' -> fifo_list q' = l -> sched_inv V q' T (Some t).
Proof.
  intros -> El Hok El'. destruct Hi as [Hq Hnd Hre Hru Hwa Hbl Hac]. rewrite El in *.
  apply NoDup_cons in Hnd as [Hnt Hnd]. split; try done.
  - by rewrite El'.
  - intros u. rewrite El'. specialize (Hre u). rewrite elem_of_cons in Hre. split.
    + intros Hu. split; [apply Hre; by right |]. by intros [= ->].
    + intros [Hv Hne]. assert (Hin : u = t \/ u ∈ l) by (apply Hre; done).
      destruct Hin; [congruence | done].
  - intros u [= <-]. apply (Hre t). by left.
Qed.

(** A thread that is not scheduled stays so. *)
Lemma inv_set_idle t v (q' : Q) :
  (forall b f, V !! t <> Some (BLOCKED, b, f)) -> (forall b f, v <> (BLOCKED, b, f)) -> (forall f, v <> (RUNNABLE, false, f)) ->
  fifo_ok q' -> NoDup (fifo_list q') -> (forall u, u ∈ fifo_list q' <-> u ∈ fifo_list q /\ u <> t) ->
  sched_inv (<[t := v]> V) q' T (if decide (cur = Some t) then None else cur).
Proof.
  intros Hb Hv Hv' Hok Hnd' Hq'. destruct Hi as [Hq Hnd Hre Hru Hwa Hbl Hac]. split; try done.
  - intros u. rewrite Hq', Hre. destruct (decide (t = u)) as [<- | Hne].
    + rewrite lookup_insert_eq. split; [naive_solver |]. intros [[f [= ->]] _]. by destruct (Hv' f).
    + rewrite lookup_insert_ne by done. case_decide; naive_solver.
  - intros u. case_decide; [done |]. intros Hu. rewrite lookup_insert_ne by congruence. by apply Hru.
  - intros c wq Hc. destruct (Hwa _ _ Hc) as (? & ? & Hall). split_and!; [done .. |].
    intros u Hu. destruct (Hall u Hu) as [b' Hb']. exists b'. rewrite lookup_insert_ne; [done |].
    intros ->. by apply (Hb b' (Some c)).
  - intros u b f. destruct (decide (t = u)) as [<- | Hne].
    + rewrite lookup_insert_eq. intros [= ->]. by destruct (Hv b f).
    + rewrite lookup_insert_ne by done. apply Hbl.
Qed.

(** A blocked thread changes its suspension. *)
Lemma inv_set_blocked t b b' f :
  V !! t = Some (BLOCKED, b, f) -> sched_inv (<[t := (BLOCKED, b', f)]> V) q T cur.
Proof.
  intros Ht. destruct Hi as [Hq Hnd Hre Hru Hwa Hbl Hac]. split; try done.
  - intros u. rewrite Hre. destruct (decide (t = u)) as [<- | Hne]; [rewrite lookup_insert_eq, Ht; naive_solver |].
    by rewrite lookup_insert_ne.
  - intros u Hu. destruct (Hru u Hu). rewrite lookup_insert_ne by congruence. by eexists.
  - intros c wq Hc. destruct (Hwa _ _ Hc) as (? & ? & Hall). split_and!; [done .. |].
    intros u Hu. destruct (Hall u Hu) as [b2 Hb2]. destruct (decide (t = u)) as [<- |].
    + rewrite lookup_insert_eq. exists b'. congruence.
    + rewrite lookup_insert_ne by done. by eexists.
  - intros u b2 f2. destruct (decide (t = u)) as [<- | Hne].
    + rewrite lookup_insert_eq. intros [= <- <-]. by eapply Hbl.
    + rewrite lookup_insert_ne by done. apply Hbl.
Qed.

(** A new or resumed thread enters the queue. *)
Lemma inv_enter t q' f :
  (forall b g, V !! t <> Some (BLOCKED, b, g)) -> (forall g, V !! t <> Some (RUNNABLE, false, g)) ->
  fifo_ok q' -> fifo_list q' = fifo_list q ++ [t] -> sched_inv (<[t := (RUNNABLE, false, f)]> V) q' T cur.
Proof.
  intros Hb Hr Hok El. destruct Hi as [Hq Hnd Hre Hru Hwa Hbl Hac].
  assert (Hnt : t ∉ fifo_list q) by (intros [[g Hg] _]%Hre; by apply (Hr g)).
  assert (Hct : cur <> Some t) by (intros Hc; destruct (Hru t Hc) as [g Hg]; by apply (Hr g)).
  split; try done.
  - rewrite El. apply NoDup_app. split_and!; [done | | apply NoDup_singleton]. intros u Hu ->%list_elem_of_singleton. done.
  - intros u. rewrite El, elem_of_app, Hre, list_elem_of_singleton. destruct (decide (t = u)) as [<- | Hne].
    + rewrite lookup_insert_eq. naive_solver.
    + rewrite lookup_insert_ne by done. naive_solver.
  - intros u Hu. rewrite lookup_insert_ne by congruence. by apply Hru.
  - intros c wq Hc. destruct (Hwa _ _ Hc) as (? & ? & Hall). split_and!; [done .. |].
    intros u Hu. destruct (Hall u Hu) as [b' Hb']. exists b'. rewrite lookup_insert_ne; [done |].
    intros ->. by apply (Hb b' (Some c)).
  - intros u b2 f2. destruct (decide (t = u)) as [<- | Hne]; [by rewrite lookup_insert_eq |].
    rewrite lookup_insert_ne by done. apply Hbl.
Qed.

End Fields.

End Abstract.

(** ** New objects *)

Lemma new_key_fresh {A} (m : gmap positive A) : m !! new_key m = None.
Proof.
  unfold new_key.
  assert (Hlt : forall k, is_Some (m !! k) -> (k < map_fold (fun k _ acc => Pos.max (Pos.succ k) acc) 1 m)%positive).
  { apply (map_fold_weak_ind (fun r m => forall k, is_Some (m !! k) -> (k < r)%positive)).
    - intros k. rewrite lookup_empty. by intros [].
    - intros i x m' r Hi IH k. destruct (decide (i = k)) as [<- | Hne].
      + intros _. lia.
      + rewrite lookup_insert_ne by done. intros Hk%IH. lia. }
  match goal with |- ?l = None => destruct l eqn:E; [| done] end.
  specialize (Hlt _ (ex_intro _ _ E)). lia.
Qed.

(** ** Waking threads *)

Section Ops.
Context `{Platform} {I Q : Type} `{!FIFO Q positive}.
Variable interpreter_frame : I -> word I -> list (word I).
Implicit Types (T : gmap positive (Transient I Q)) (w r : word I) (a t : positive) (cur : option positive).
Implicit Types (s : VM I Q) (th : Thread I).

Lemma views_lookup s t th : vm_threads s !! t = Some th -> views s !! t = Some (sview th).
Proof. intros E. unfold views. by rewrite lookup_fmap, E. Qed.

Lemma views_inv s t v : views s !! t = Some v -> exists th, vm_threads s !! t = Some th /\ v = sview th.
Proof. unfold views. rewrite lookup_fmap. intros E%fmap_Some. done. Qed.

Lemma views_put s t th : views (set_threads (<[t := th]> (vm_threads s)) s) = <[t := sview th]> (views s).
Proof. unfold views. simpl. by rewrite fmap_insert. Qed.

Lemma lift_Ok {A} (o : option A) x s : o = Some x -> lift o s = Ok x s.
Proof. by intros ->. Qed.

Lemma get_transient_Ok s a x : vm_transients s !! a = Some x -> get_transient a s = Ok x s.
Proof. intros E. unfold get_transient. rewrite (bind_Ok _ _ s s s) by done. by apply lift_Ok. Qed.

Lemma wait_queue_Ok s a wo : vm_transients s !! a = Some (Future wo) -> wait_queue a s = Ok wo s.
Proof. intros E. unfold wait_queue. by rewrite (bind_Ok _ _ _ _ _ (get_transient_Ok _ _ _ E)). Qed.

Lemma enqueue_Ok s t :
  fifo_ok (vm_queue s) -> zlen (fifo_list (vm_queue s)) < fifo_cap ->
  exists q, ThreadQueue_Enqueue t s = Ok tt (set_queue q s) /\ fifo_ok q /\
            fifo_list q = fifo_list (vm_queue s) ++ [t].
Proof.
  intros Hok Hcap. destruct (fifo_enqueue_law _ t Hok Hcap) as (q & E & ? & ?). exists q.
  split; [| done]. unfold ThreadQueue_Enqueue, bind, get, lift. by rewrite E.
Qed.

(** A blocked thread is made runnable, and queued unless it is suspended. *)
Lemma WakeupThread_Ok s t th :
  vm_threads s !! t = Some th -> t_state th = BLOCKED ->
  fifo_ok (vm_queue s) -> zlen (fifo_list (vm_queue s)) < fifo_cap ->
  exists q, WakeupThread t s = Ok tt (set_queue q (set_threads (<[t := Wakeup th]> (vm_threads s)) s)) /\
    fifo_ok q /\ fifo_list q = fifo_list (vm_queue s) ++ (if t_suspended th then [] else [t]).
Proof.
  intros Ht Hb Hok Hcap. set (s1 := set_threads (<[t := Wakeup th]> (vm_threads s)) s).
  assert (E1 : WakeupThread t s = (if t_suspended th then ret tt else ScheduleThread t) s1).
  { unfold WakeupThread, get_thread, put_thread, bind, get, lift, assert. rewrite Ht.
    by rewrite (bool_decide_eq_true_2 _ Hb). }
  rewrite E1. destruct (t_suspended th).
  - exists (vm_queue s). by rewrite app_nil_r.
  - destruct (enqueue_Ok s1 t) as (q & E & ? & ?); [done .. |]. exists q. split; [| done].
    unfold ScheduleThread, get_thread, bind, get, lift, assert. simpl. rewrite lookup_insert_eq. simpl.
    by rewrite E.
Qed.

(** The threads of a list that are not suspended. *)
Definition awake (m : gmap positive (Thread I)) (l : list positive) : list positive :=
  filter (fun t => t_suspended <$> m !! t = Some false) l.

Definition wake_list (m : gmap positive (Thread I)) (l : list positive) : gmap positive (Thread I) :=
  foldl (fun m t => alter Wakeup t m) m l.

Lemma insert_Wakeup (m : gmap positive (Thread I)) t th :
  m !! t = Some th -> <[t := Wakeup th]> m = alter Wakeup t m.
Proof.
  intros Ht. apply map_eq. intros u. destruct (decide (t = u)) as [<- | Hne].
  - by rewrite lookup_insert_eq, lookup_alter_eq, Ht.
  - by rewrite lookup_insert_ne, lookup_alter_ne.
Qed.

Lemma awake_alter m t l : awake (alter Wakeup t m) l = awake m l.
Proof.
  unfold awake. apply list_filter_iff. intros u. destruct (decide (t = u)) as [<- | Hne].
  - rewrite lookup_alter_eq. by destruct (m !! t).
  - by rewrite lookup_alter_ne.
Qed.

(** No thread runs out of room in a queue. *)
Lemma inv_room cur k s t :
  inv cur k s -> 0 <= k -> is_Some (vm_threads s !! t) -> t ∉ fifo_list (vm_queue s) ->
  zlen (fifo_list (vm_queue s)) < fifo_cap.
Proof.
  intros (Hi & _ & Hc) Hk Ht Hn. apply (queue_room (views s) (vm_queue s) t); try done.
  - apply (si_nodup _ _ _ _ Hi).
  - intros u Hu. destruct (ready_view Hi u Hu) as [f Hf]. by eexists.
  - unfold views. rewrite lookup_fmap. by apply fmap_is_Some.
  - unfold views. rewrite map_size_fmap. lia.
Qed.

(** Waking all the threads that wait on a future: they become runnable and
    those not suspended enter the run queue, in the order of waiting. *)
Lemma wakeup_all_Ok fuel cur k s a wo l :
  inv cur k s -> 0 <= k -> vm_transients s !! a = Some (Future wo) ->
  default [] (fifo_list <$> wo) = l -> (length l <= fuel)%nat ->
  exists q wo', wakeup_all fuel a s =
      Ok tt (set_queue q (set_transients (<[a := Future wo']> (vm_transients s))
              (set_threads (wake_list (vm_threads s) l) s))) /\
    inv cur k (set_queue q (set_transients (<[a := Future wo']> (vm_transients s))
              (set_threads (wake_list (vm_threads s) l) s))) /\
    fifo_list q = fifo_list (vm_queue s) ++ awake (vm_threads s) l /\
    (forall wq, wo' = Some wq -> fifo_list wq = []).
Proof.
  revert fuel s wo. induction l as [| t l IH]; intros fuel s wo Hinv Hk Ha El Hf.
  - exists (vm_queue s), wo. pose proof Hinv as ([Hq _ _ _ Hwa _ _] & _).
    assert (Hs : set_queue (vm_queue s) (set_transients (<[a := Future wo]> (vm_transients s)) (set_threads (vm_threads s) s)) = s).
    { rewrite insert_id by done. by destruct s. }
    simpl wake_list. rewrite Hs. split_and!; [| done | by rewrite app_nil_r | by intros wq ->].
    destruct fuel; simpl; rewrite (bind_Ok _ _ _ _ _ (wait_queue_Ok _ _ _ Ha)).
    all: destruct wo as [wq |]; [| done].
    all: destruct (Hwa _ _ Ha) as [Hok _]; rewrite fifo_is_empty_law, bool_decide_eq_true_2 by done; done.
  - destruct wo as [wq |]; [| done]. simpl in El. pose proof Hinv as (Hi & Hc & Hcap).
    destruct (si_wait _ _ _ _ Hi _ _ Ha) as (Hok & Hnd & Hall). rewrite El in Hnd, Hall.
    destruct (Hall t) as [b Hv]; [by left |]. destruct (views_inv _ _ _ Hv) as (th & Hth & Ev).
    injection Ev as Est Esu Efu.
    destruct (fifo_dequeue_law _ _ _ Hok El) as (wq' & Edq & Hok' & El').
    assert (Hroom : zlen (fifo_list (vm_queue s)) < fifo_cap).
    { apply (inv_room cur k s t); [done .. | by eexists | by eapply blocked_not_ready]. }
    set (s1 := set_transients (<[a := Future (Some wq')]> (vm_transients s)) s).
    destruct (WakeupThread_Ok s1 t th) as (q1 & Ew & Hq1 & Elq1); [done | done | apply Hi | done |].
    set (s2 := set_queue q1 (set_threads (<[t := Wakeup th]> (vm_threads s1)) s1)) in *.
    apply NoDup_cons in Hnd as [Hnt Hnd].
    assert (Hinv2 : inv cur k s2).
    { split; [| split; [done |]].
      - replace (views s2) with (<[t := (RUNNABLE, b, None)]> (views s)).
        + apply (inv_unblock Hi a wq wq' t b q1); try done; [by rewrite El' | | by rewrite Esu].
          intros u. rewrite El, El', elem_of_cons. naive_solver.
        + unfold s2, s1, views. simpl. rewrite fmap_insert.
          unfold Wakeup, SetState, set_state, sview at 1. simpl. by rewrite Esu.
      - unfold s2, s1. simpl. rewrite map_size_insert_Some; eauto. }
    destruct fuel as [| fuel]; [simpl in Hf; lia |].
    destruct (IH fuel s2 (Some wq')) as (q & wo' & E & Hinv' & Elq & Hwo').
    { done. } { done. } { apply lookup_insert_eq. } { done. } { simpl in Hf; lia. }
    assert (Es : set_queue q (set_transients (<[a := Future wo']> (vm_transients s2)) (set_threads (wake_list (vm_threads s2) l) s2))
      = set_queue q (set_transients (<[a := Future wo']> (vm_transients s)) (set_threads (wake_list (vm_threads s) (t :: l)) s))).
    { unfold s2, s1. simpl wake_list. rewrite <- (insert_Wakeup _ _ _ Hth). destruct s.
      unfold set_queue, set_transients, set_threads; simpl. by rewrite insert_insert_eq. }
    exists q, wo'. rewrite <- Es. split_and!; [| done | | done].
    + rewrite <- E. simpl wakeup_all. rewrite (bind_Ok _ _ _ _ _ (wait_queue_Ok _ _ _ Ha)).
      rewrite fifo_is_empty_law, bool_decide_eq_false_2 by (done || by rewrite El).
      rewrite (bind_Ok _ _ _ _ _ (lift_Ok _ _ _ Edq)), (bind_Ok _ _ s tt s1) by done.
      cbn [fst]. by rewrite (bind_Ok _ _ _ _ _ Ew).
    + rewrite Elq. unfold s2, s1. simpl. rewrite Elq1, (insert_Wakeup _ _ _ Hth), awake_alter.
      unfold awake. rewrite filter_cons, <- app_assoc. f_equal. rewrite Hth. simpl.
      destruct (t_suspended th); [rewrite decide_False by done | rewrite decide_True by done]; done.
Qed.

Lemma ScheduleWaitingThreads_Ok cur k s a wo :
  inv cur k s -> 0 <= k -> vm_transients s !! a = Some (Future wo) ->
  let l := default [] (fifo_list <$> wo) in
  exists q wo', ScheduleWaitingThreads a s =
      Ok tt (set_queue q (set_transients (<[a := Future wo']> (vm_transients s))
              (set_threads (wake_list (vm_threads s) l) s))) /\
    inv cur k (set_queue q (set_transients (<[a := Future wo']> (vm_transients s))
              (set_threads (wake_list (vm_threads s) l) s))) /\
    fifo_list q = fifo_list (vm_queue s) ++ awake (vm_threads s) l /\
    (forall wq, wo' = Some wq -> fifo_list wq = []).
Proof.
  intros Hinv Hk Ha l. apply (wakeup_all_Ok _ cur k s a wo l); try done.
  unfold l. destruct wo as [wq |]; simpl; [| lia]. destruct Hinv as (Hi & _).
  destruct (si_wait _ _ _ _ Hi _ _ Ha) as (_ & Hnd & Hall).
  transitivity (size (views s)); [| unfold views; by rewrite map_size_fmap].
  apply elements_bound; [done |]. intros t Ht. destruct (Hall t Ht). by eexists.
Qed.

(** ** The operations on transients *)

Lemma wp_ScheduleWaitingThreads cur k s a R O :
  inv cur k s -> 0 <= k ->
  (forall wo wo' s', vm_transients s !! a = Some (Future wo) -> inv cur k s' ->
     vm_transients s' = <[a := Future wo']> (vm_transients s) -> no_waiters (vm_transients s') a -> R tt s') ->
  wp (ScheduleWaitingThreads a) s R O.
Proof.
  intros Hinv Hk HR. destruct (vm_transients s !! a) as [x |] eqn:Ha.
  - destruct x as [| wo | | |].
    2: { destruct (ScheduleWaitingThreads_Ok cur k s a wo Hinv Hk Ha) as (q & wo' & E & Hinv' & _ & Hw).
         eapply wp_run; [exact E |]. apply (HR wo wo'); [done .. |]. intros wq. simpl.
         rewrite lookup_insert_eq. intros [= ->]. by apply Hw. }
    all: unfold wp, ScheduleWaitingThreads, bind at 1, get; destruct (size (vm_threads s)); simpl;
      unfold wait_queue, bind; by rewrite (get_transient_Ok _ _ _ Ha).
  - unfold wp, ScheduleWaitingThreads, bind at 1, get. destruct (size (vm_threads s)); simpl;
      unfold wait_queue, get_transient, bind, get, lift; by rewrite Ha.
Qed.

Lemma inv_put_transient cur k s a x :
  inv cur k s -> no_waiters (vm_transients s) a -> (forall wq, x <> Future (Some wq)) ->
  (forall y, vm_transients s !! a = Some y -> is_ref y = false) ->
  (forall v, x = Ref v -> is_Some (vm_transients s !! a) /\ exists n r, derefs (vm_transients s) n v r /\ r <> WTransient a) ->
  inv cur k (set_transients (<[a := x]> (vm_transients s)) s).
Proof. intros (Hi & Hc & Hcap) ????. split; [by apply inv_set_transient | done]. Qed.

Lemma wp_Become_Cancelled cur k s a package R O :
  inv cur k s -> no_waiters (vm_transients s) a ->
  (forall s', inv cur k s' -> vm_transients s' = <[a := Cancelled package]> (vm_transients s) -> R tt s') ->
  wp (Become_Cancelled a package) s R O.
Proof.
  intros Hinv Hw HR. unfold Become_Cancelled, get_transient, put_transient. wp_prims. apply HR; [| done].
  apply inv_put_transient; [done .. | | done]. intros y Hy. simplify_eq. by apply negb_true_iff.
Qed.

Lemma wp_Become_Future cur k s a R O :
  inv cur k s -> no_waiters (vm_transients s) a ->
  (forall s', inv cur k s' -> vm_transients s' = <[a := Future None]> (vm_transients s) -> R tt s') ->
  wp (Become_Future a) s R O.
Proof.
  intros Hinv Hw HR. unfold Become_Future, get_transient, put_transient. wp_prims. apply HR; [| done].
  apply inv_put_transient; [done .. | | done]. intros y Hy. simplify_eq. by apply negb_true_iff.
Qed.

Lemma wp_Deref s w R O :
  (forall n r, derefs (vm_transients s) n w r -> R r s) -> wp (Deref w) s R O.
Proof.
  intros HR. unfold Deref. wp_prims. match goal with Hd : deref _ _ _ = _ |- _ => apply deref_inv in Hd as [n Hn] end.
  by eapply HR.
Qed.

Lemma wp_WordToTransient s w R O :
  (forall n r, derefs (vm_transients s) n w r ->
     R (match r with WTransient a => Some a | _ => None end) s) -> wp (WordToTransient w) s R O.
Proof. intros HR. unfold WordToTransient. apply wp_bind, wp_Deref. intros n r Hd. wp_prims. by eapply HR. Qed.

Lemma wp_Become_Ref cur k s a w R O :
  inv cur k s -> no_waiters (vm_transients s) a ->
  (forall n, ~ derefs (vm_transients s) n w (WTransient a)) ->
  (forall r n s', inv cur k s' -> derefs (vm_transients s) n w r ->
     vm_transients s' = <[a := Ref r]> (vm_transients s) -> R tt s') ->
  wp (Become_Ref a w) s R O.
Proof.
  intros Hinv Hw Hna HR. unfold Become_Ref, get_transient, put_transient. wp_prims. apply wp_Deref. intros n r Hd.
  wp_prims. apply (HR r n); [| done ..]. apply inv_put_transient; [done .. | |].
  - intros y Hy. simplify_eq. by apply negb_true_iff.
  - intros v [= <-]. split; [by eexists |]. exists 0%nat, r. split; [by eapply derefs_result |].
    intros ->. by apply (Hna n).
Qed.

Lemma wp_AllocTransient cur k s x R O :
  inv cur k s -> (forall wq, x <> Future (Some wq)) -> is_ref x = false ->
  (forall s', inv cur k s' -> vm_transients s' = <[new_key (vm_transients s) := x]> (vm_transients s) ->
     R (new_key (vm_transients s)) s') ->
  wp (AllocTransient x) s R O.
Proof.
  intros Hinv Hx Hr HR. unfold AllocTransient, put_transient. wp_prims. apply HR; [| done].
  assert (Hn : vm_transients s !! new_key (vm_transients s) = None) by apply new_key_fresh.
  apply inv_put_transient; [done | | done | |].
  - intros wq. by rewrite Hn.
  - intros y. by rewrite Hn.
  - intros v ->. done.
Qed.

End Ops.
