(* ===== verification/SchedulerSafe.v ===== *)
(** * Every step of the virtual machine keeps the scheduler's invariant

    The threads, holes and futures primitives, the generic workers, raising
    and the interpretation of results, for any behaviour of the interpreters. *)

From S2P Require Import Prelude Config HeaderOp Block Queue Thread Scheduler SchedulerRun SchedulerInv SchedulerOps.

Section Safe.
Context `{Platform} {I Q : Type} `{!FIFO Q positive}.
Variable interpreter_frame : I -> word I -> list (word I).
Implicit Types (w r : word I) (a t : positive) (cur : option positive) (k : Z).
Implicit Types (s : VM I Q) (th : Thread I).

Definition keeps cur k {A} (m : M (VM I Q) A) : Prop :=
  forall s, inv cur k s -> wp m s (fun _ => inv cur k) (inv cur k).

Lemma keeps_neutral cur k {A} (m : M (VM I Q) A) : neutral m -> keeps cur k m.
Proof. intros Hm s Hs. apply wp_neutral; [done | |]; intros; by eapply inv_sched_eq. Qed.

Lemma keeps_bind cur k {A B} (m : M (VM I Q) A) (f : A -> M (VM I Q) B) :
  keeps cur k m -> (forall x, keeps cur k (f x)) -> keeps cur k (bind m f).
Proof.
  intros Hm Hf s Hs. apply wp_bind. eapply wp_mono; [by apply Hm | | done]. intros x s' Hs'. by apply Hf.
Qed.

(** A neutral prefix of an execution. *)
Lemma wp_bind_neutral cur k {A B} (m : M (VM I Q) A) (f : A -> M (VM I Q) B) s R O :
  neutral m -> inv cur k s -> (forall s', inv cur k s' -> O s') ->
  (forall x s', sched_eq s s' -> inv cur k s' -> wp (f x) s' R O) -> wp (bind m f) s R O.
Proof.
  intros Hm Hs HO Hf. apply wp_bind, wp_neutral; [done | |]; intros; [apply Hf; [done |] | apply HO];
    by eapply inv_sched_eq.
Qed.

(** ** Threads *)

Lemma wp_NewThread cur k s args R O :
  inv cur (k + 1) s -> 0 <= k ->
  (forall s', inv cur k s' -> vm_transients s' = vm_transients s ->
     R (new_key (vm_threads s)) s') ->
  wp (Scheduler_NewThread args) s R O.
Proof.
  intros (Hi & Hc & Hcap) Hk HR. unfold Scheduler_NewThread, put_thread. wp_prims.
  set (t := new_key (vm_threads s)). assert (Hn : vm_threads s !! t = None) by apply new_key_fresh.
  assert (Hnv : views s !! t = None) by (unfold views; by rewrite lookup_fmap, Hn).
  set (s1 := set_threads _ s).
  assert (Hq : zlen (fifo_list (vm_queue s1)) < fifo_cap).
  { assert (Hl : (length (fifo_list (vm_queue s)) <= size (views s))%nat).
    { apply elements_bound; [apply Hi |]. intros u Hu. destruct (ready_view Hi u Hu). by eexists. }
    unfold views in Hl. rewrite map_size_fmap in Hl. unfold zlen. simpl. lia. }
  destruct (enqueue_Ok s1 t (si_queue _ _ _ _ Hi) Hq) as (q & E & Hok & El).
  eapply wp_run; [exact E |]. apply wp_ret, HR; [| done]. split; [| split; [done |]].
  - replace (views (set_queue q s1)) with (<[t := (RUNNABLE, false, None)]> (views s)).
    + apply (inv_enter Hi t q None); [by intros *; rewrite Hnv .. | done | done].
    + unfold s1, views. simpl. by rewrite fmap_insert.
  - simpl. rewrite map_size_insert_None by done. lia.
Qed.

(** Replacing a thread does not change how many there are. *)
Lemma size_put (s : VM I Q) t th th' : vm_threads s !! t = Some th -> size (<[t := th']> (vm_threads s)) = size (vm_threads s).
Proof. intros E. apply map_size_insert_Some. by eexists. Qed.

Lemma SuspendThread_keeps cur k t : cur <> Some t -> keeps cur k (SuspendThread t).
Proof.
  intros Hct s (Hi & Hc & Hcap). unfold SuspendThread, get_thread, put_thread. wp_prims.
  match goal with E : vm_threads s !! t = Some ?x |- _ => rename x into th; rename E into Ht end.
  pose proof (views_lookup _ _ _ Ht) as Hv.
  assert (Hs : forall q, fifo_ok q -> NoDup (fifo_list q) -> t_state th <> BLOCKED ->
    (forall u : positive, u ∈ fifo_list q <-> u ∈ fifo_list (vm_queue s) /\ u <> t) ->
    inv cur k (set_queue q (set_threads (<[t := Suspend th]> (vm_threads s)) s))).
  { intros q Hok Hnd Hb Hq. split; [| split; [done | simpl; by erewrite size_put]].
    pose proof (inv_set_idle Hi t (t_state th, true, t_future th) q) as Hset. rewrite decide_False in Hset by done.
    replace (views _) with (<[t := (t_state th, true, t_future th)]> (views s)); [| unfold views; simpl; by rewrite fmap_insert].
    unfold sview in Hv. apply Hset; try done; intros *; rewrite ?Hv; congruence. }
  case_bool_decide as Hr.
  - unfold ThreadQueue_Remove. wp_prims. simpl in *.
    match goal with E : fifo_remove _ _ = Some ?x |- _ => rename x into q; rename E into Eq end.
    destruct (fifo_remove_law (vm_queue s) t (si_queue _ _ _ _ Hi)) as (q' & E & Hok & El).
    rewrite Eq in E. injection E as <-.
    pose proof (remove_first_NoDup t _ (si_nodup _ _ _ _ Hi)) as [Hnd Hin].
    apply (Hs q); [done | by rewrite El | congruence | intros u; by rewrite El].
  - wp_prims. destruct (decide (t_state th = BLOCKED)) as [Hb | Hnb].
    + split; [| split; [done | simpl; by erewrite size_put]].
      replace (views _) with (<[t := (BLOCKED, true, t_future th)]> (views s));
        [| unfold views; simpl; rewrite fmap_insert; unfold sview; simpl; by rewrite Hb].
      eapply (inv_set_blocked Hi). rewrite Hv. unfold sview. by rewrite Hb.
    + replace (set_threads _ s) with (set_queue (vm_queue s) (set_threads (<[t := Suspend th]> (vm_threads s)) s)) by (by destruct s).
      apply Hs; [apply Hi | apply Hi | done |]. intros u. split; [| by intros []]. intros Hu. split; [done |].
      intros ->. destruct (ready_view Hi t Hu) as [f Hf]. rewrite Hv in Hf. by injection Hf.
Qed.

Lemma ResumeThread_keeps cur k t : 0 <= k -> keeps cur k (ResumeThread t).
Proof.
  intros Hk s Hinv. pose proof Hinv as (Hi & Hc & Hcap). unfold ResumeThread, get_thread, put_thread. wp_prims.
  match goal with E : vm_threads s !! t = Some ?x |- _ => rename x into th; rename E into Ht end.
  pose proof (views_lookup _ _ _ Ht) as Hv. destruct (t_suspended th) eqn:Esu; wp_prims; [| done].
  assert (Hnq : t ∉ fifo_list (vm_queue s)).
  { intros Hin. destruct (ready_view Hi t Hin) as [f Hf]. rewrite Hv in Hf. injection Hf. congruence. }
  assert (Hvs : forall q, views (set_queue q (set_threads (<[t := Resume th]> (vm_threads s)) s)) = <[t := (t_state th, false, t_future th)]> (views s)).
  { intros q. unfold views. simpl. by rewrite fmap_insert. }
  case_bool_decide as Hr.
  - unfold ScheduleThread, get_thread. wp_prims. set (s1 := set_threads _ s).
    destruct (enqueue_Ok s1 t) as (q & E & Hok & El); [apply Hi | by apply (inv_room cur k s t) |].
    eapply wp_run; [exact E |]. split; [| split; [done | simpl; by erewrite size_put]].
    unfold s1. rewrite Hvs, Hr. unfold sview in Hv. apply (inv_enter Hi); [intros *; rewrite Hv; congruence .. | done | done].
  - wp_prims. split; [| split; [done | simpl; by erewrite size_put]].
    change (views _) with (views (set_queue (vm_queue s) (set_threads (<[t := Resume th]> (vm_threads s)) s))). rewrite Hvs.
    destruct (decide (t_state th = BLOCKED)) as [Hb | Hnb].
    + rewrite Hb. eapply (inv_set_blocked Hi). rewrite Hv. unfold sview. by rewrite Hb.
    + pose proof (inv_set_idle Hi t (t_state th, false, t_future th) (vm_queue s)) as Hset.
      rewrite decide_False in Hset by (intros Hcu; destruct (si_running _ _ _ _ Hi t Hcu) as [f Hf]; rewrite Hv in Hf; injection Hf; congruence).
      unfold sview in Hv. apply Hset; [intros *; rewrite ?Hv; congruence .. | apply Hi | apply Hi |].
      intros u. split; [| by intros []]. intros Hu. split; [done |]. by intros ->.
Qed.

(** ** Holes *)

Lemma wp_Hole_associated s a R O :
  (forall fo h, vm_transients s !! a = Some (Hole h) ->
     (forall f, fo = Some f -> exists x, vm_transients s !! f = Some x /\ is_ref x = false) -> R fo s) ->
  wp (Hole_associated a) s R O.
Proof.
  intros HR. unfold Hole_associated, get_transient. wp_prims.
  match goal with E : vm_transients s !! a = Some ?x |- _ => rename x into y; rename E into Ha end.
  destruct y as [[f |] | | | |]; try done; [| apply wp_ret, (HR None None); [done |]; by intros f].
  apply wp_WordToTransient. intros n r Hd. apply (HR _ (Some f) Ha). intros g Eg.
  destruct r as [| | b | | | | |]; try done. injection Eg as ->. by eapply derefs_result_unbound.
Qed.

Lemma hole_no_waiters T a h : T !! a = Some (Hole h) -> no_waiters (I := I) (Q := Q) T a.
Proof. intros Ha wq. by rewrite Ha. Qed.

Lemma not_transient r a : match r with WTransient b => Some b | _ => None end <> Some a -> r <> WTransient (I := I) a.
Proof. intros Hr ->. done. Qed.

(** The two bindings of [Hole::Fill], once the future's threads are woken. *)
Lemma wp_bind_both cur k s a h f w n r (R : bool -> VM I Q -> Prop) O :
  inv cur k s -> vm_transients s !! a = Some (Hole h) -> no_waiters (vm_transients s) f ->
  (exists wo, vm_transients s !! f = Some (Future wo)) -> derefs (vm_transients s) n w r ->
  r <> WTransient a -> r <> WTransient f -> (forall s', inv cur k s' -> R true s') ->
  wp (bind (Become_Ref f w) (fun _ => bind (Become_Ref a w) (fun _ => ret true))) s R O.
Proof.
  intros Hinv Ha Hw [wo Hf] Hd Hra Hrf HR. assert (Haf : a <> f) by congruence.
  apply wp_bind, (wp_Become_Ref cur k); [done .. | |].
  - intros m Hm. by destruct (derefs_det _ _ _ _ _ _ Hd Hm) as [_ ->].
  - intros r' m s1 Hs1 Hr' E1. destruct (derefs_det _ _ _ _ _ _ Hd Hr') as [_ <-].
    assert (Hd1 : derefs (vm_transients s1) n w r).
    { rewrite E1. apply derefs_insert_other; [done | | done]. intros y Hy. by simplify_eq. }
    apply wp_bind, (wp_Become_Ref cur k); [done | | |].
    + apply (hole_no_waiters _ a h). by rewrite E1, lookup_insert_ne.
    + intros m' Hm'. by destruct (derefs_det _ _ _ _ _ _ Hd1 Hm') as [_ ->].
    + intros. apply wp_ret. by apply HR.
Qed.

Lemma Hole_Fill_keeps cur k a w : 0 <= k -> keeps cur k (Hole_Fill a w).
Proof.
  intros Hk s Hinv. unfold Hole_Fill. apply wp_bind, wp_WordToTransient. intros n r Hd.
  case_bool_decide as Hra; [by apply wp_ret |]. apply not_transient in Hra.
  apply wp_bind, wp_Hole_associated. intros fo h Ha Hfo. destruct fo as [f |].
  - case_bool_decide as Hrf; [by apply wp_ret |]. apply not_transient in Hrf.
    apply wp_bind, (wp_ScheduleWaitingThreads cur k); [done .. |]. intros wo wo' s1 Hf Hs1 E1 Hw.
    assert (Hfa : f <> a) by congruence.
    eapply (wp_bind_both cur k s1 a h f w n r); try done.
    + by rewrite E1, lookup_insert_ne.
    + exists wo'. by rewrite E1, lookup_insert_eq.
    + rewrite E1. apply derefs_insert_unbound; [done | | done]. intros y Hy. by simplify_eq.
  - apply wp_bind, (wp_Become_Ref cur k); [done | by eapply hole_no_waiters | |].
    + intros m Hm. by destruct (derefs_det _ _ _ _ _ _ Hd Hm) as [_ ->].
    + intros. by apply wp_ret.
Qed.

Lemma Hole_Fail_keeps cur k a exn : 0 <= k -> keeps cur k (Hole_Fail a exn).
Proof.
  intros Hk s Hinv. unfold Hole_Fail. apply wp_bind, wp_Hole_associated. intros fo h Ha Hfo.
  apply (wp_bind_neutral cur k); [unfold Backtrace_New; neutral | done | done |]. intros b s1 (_ & _ & E1 & _) Hs1.
  apply wp_bind. destruct fo as [f |].
  - apply wp_bind, (wp_ScheduleWaitingThreads cur k); [done .. |]. intros wo wo' s2 Hf Hs2 E2 Hw.
    apply (wp_Become_Cancelled cur k); [done .. |]. intros s3 Hs3 E3.
    apply (wp_Become_Cancelled cur k); [done | | done].
    assert (Hfa : f <> a) by (rewrite E1 in Hf; congruence).
    apply (hole_no_waiters _ a h). by rewrite E3, lookup_insert_ne, E2, lookup_insert_ne, E1.
  - apply wp_ret, (wp_Become_Cancelled cur k); [done | | done]. apply (hole_no_waiters _ a h). by rewrite E1.
Qed.

Lemma Hole_GetFuture_keeps cur k a : keeps cur k (Hole_GetFuture a).
Proof.
  intros s Hinv. unfold Hole_GetFuture. apply wp_bind, wp_Hole_associated. intros fo h Ha _.
  destruct fo as [f |]; [by apply wp_ret |].
  apply wp_bind, (wp_AllocTransient cur k); [done .. |]. intros s1 Hs1 E1. unfold put_transient. wp_prims.
  assert (Ha1 : vm_transients s1 !! a = Some (Hole h)).
  { rewrite E1, lookup_insert_ne; [done |]. intros En. pose proof (new_key_fresh (vm_transients s)). congruence. }
  apply inv_put_transient; [done | by eapply hole_no_waiters | done | | done]. intros y Hy. by simplify_eq.
Qed.

(** ** Binding futures *)

Lemma BindFuture_Handle_keeps cur k args package : 0 <= k -> keeps cur k (BindFuture_Handle args package).
Proof.
  intros Hk s Hinv. unfold BindFuture_Handle.
  apply (wp_bind_neutral cur k); [neutral | done | done |]. intros f s1 _ Hs1.
  apply (wp_bind_neutral cur k); [neutral | done | done |]. intros _ s2 _ Hs2.
  apply wp_bind, (wp_ScheduleWaitingThreads cur k); [done .. |]. intros wo wo' s3 _ Hs3 _ Hw.
  apply wp_bind, (wp_Become_Cancelled cur k); [done .. |]. intros s4 Hs4 _.
  apply keeps_neutral; [neutral | done].
Qed.

Lemma BindFuture_Run_keeps cur k args : 0 <= k -> keeps cur k (BindFuture_Run args).
Proof.
  intros Hk s Hinv. unfold BindFuture_Run.
  apply (wp_bind_neutral cur k); [neutral | done | done |]. intros _ s1 _ Hs1.
  apply (wp_bind_neutral cur k); [neutral | done | done |]. intros f s2 _ Hs2.
  apply (wp_bind_neutral cur k); [neutral | done | done |]. intros _ s3 _ Hs3.
  apply wp_bind, (wp_ScheduleWaitingThreads cur k); [done .. |]. intros wo wo' s4 _ Hs4 _ Hw.
  apply (wp_bind_neutral cur k); [neutral | done | done |]. intros _ s5 (_ & _ & E5 & _) Hs5.
  apply (wp_bind_neutral cur k); [neutral | done | done |]. intros arg s6 (_ & _ & E6 & _) Hs6.
  assert (Hw6 : no_waiters (vm_transients s6) f) by (by rewrite E6, E5).
  apply wp_bind. unfold IsCyclic. apply wp_bind, wp_WordToTransient. intros n r Hd. apply wp_ret.
  case_bool_decide as Hr.
  - apply (wp_bind_neutral cur k); [neutral | done | done |]. intros b s7 (_ & _ & E7 & _) Hs7.
    apply wp_bind, (wp_Become_Cancelled cur k); [done | by rewrite E7 |]. intros s8 Hs8 _.
    apply keeps_neutral; [neutral | done].
  - apply not_transient in Hr. apply wp_bind, (wp_Become_Ref cur k); [done .. | |].
    + intros m Hm. by destruct (derefs_det _ _ _ _ _ _ Hd Hm) as [_ ->].
    + intros. by apply wp_ret.
Qed.

(** ** The primitives *)

Lemma DECLARE_THREAD_keeps cur k p x f :
  (forall t, keeps cur k (f t)) -> keeps cur k (DECLARE_THREAD p x f).
Proof.
  intros Hf. apply keeps_bind; [apply keeps_neutral; neutral |].
  intros w. destruct w; try (by apply keeps_neutral; neutral). apply Hf.
Qed.

Lemma with_hole_keeps cur k p x f : (forall a, keeps cur k (f a)) -> keeps cur k (with_hole p x f).
Proof.
  intros Hf. apply keeps_bind; [apply keeps_neutral; neutral |]. intros [a |]; [| apply keeps_neutral; neutral].
  apply keeps_bind; [apply keeps_neutral; neutral |]. intros y. destruct y; try (by apply keeps_neutral; neutral). apply Hf.
Qed.

Lemma AllocTransient_keeps cur k x :
  (forall wq, x <> Future (Some wq)) -> is_ref x = false -> keeps cur k (AllocTransient x).
Proof. intros Hx Hr s Hs. by apply (wp_AllocTransient cur k). Qed.

(** A blocked thread is taken out of its wait queue and woken. *)
Lemma unblock_keeps cur k t th :
  0 <= k -> t_state th = BLOCKED ->
  forall s, inv cur k s -> views s !! t = Some (sview th) ->
  wp (bind (get_thread t) (fun th2 => bind (lift (t_future th2)) (fun fut =>
      bind (WordToTransient (WTransient fut)) (fun future => bind (lift future) (fun future =>
      bind (RemoveFromWaitQueue future t) (fun _ => WakeupThread t)))))) s (fun _ => inv cur k) (inv cur k).
Proof.
  intros Hk Hb s Hinv Hv. pose proof Hinv as (Hi & Hc & Hcap). unfold get_thread. wp_prims.
  match goal with E : vm_threads s !! t = Some ?x |- _ => rename x into th2; rename E into Ht end.
  match goal with E : t_future th2 = Some ?x |- _ => rename x into a; rename E into Hfa end.
  rewrite (views_lookup _ _ _ Ht) in Hv. injection Hv as Est Esu Efu.
  assert (Hv : views s !! t = Some (BLOCKED, t_suspended th, Some a)).
  { rewrite (views_lookup _ _ _ Ht). unfold sview. congruence. }
  destruct (si_blocked _ _ _ _ Hi _ _ _ Hv) as (a' & wq & [= <-] & Ha & Hin).
  apply wp_WordToTransient. intros n r Hd. wp_prims.
  match goal with E : _ = Some ?x |- context [RemoveFromWaitQueue ?x] => rename x into b; rename E into Eb end.
  assert (Hb' : b = a).
  { assert (Hda : derefs (vm_transients s) 0 (WTransient a) (WTransient a)) by (by eapply derefs_unbound).
    destruct (derefs_det _ _ _ _ _ _ Hda Hd) as [_ <-]. congruence. }
  subst b. unfold RemoveFromWaitQueue, put_transient.
  apply wp_bind, (wp_run _ _ _ _ _ _ (wait_queue_Ok _ _ _ Ha)).
  apply wp_bind, (wp_run _ _ _ _ _ _ (lift_Ok (Some wq) wq s eq_refl)). wp_prims.
  match goal with E : fifo_remove _ _ = Some ?x |- _ => rename x into wq'; rename E into Eq end.
  destruct (si_wait _ _ _ _ Hi _ _ Ha) as (Hok & Hnd & Hall).
  destruct (fifo_remove_law wq t Hok) as (q' & E & Hok' & El'). rewrite Eq in E. injection E as <-.
  pose proof (remove_first_NoDup t _ Hnd) as [Hnd' Hin'].
  set (s1 := set_transients (<[a := Future (Some wq')]> (vm_transients s)) s).
  destruct (WakeupThread_Ok s1 t th2) as (q1 & Ew & Hq1 & Elq1); [done | congruence | apply Hi | |].
  { apply (inv_room cur k s t); [done .. | by eexists | by eapply blocked_not_ready]. }
  eapply wp_run; [exact Ew |]. split; [| split; [done | unfold s1; simpl; by erewrite size_put]].
  replace (views _) with (<[t := (RUNNABLE, t_suspended th, None)]> (views s)).
  - apply (inv_unblock Hi a wq wq' t _ q1); try done; [by rewrite El' | | by rewrite Elq1, Esu].
    intros u. by rewrite El'.
  - unfold s1, views. simpl. rewrite fmap_insert. unfold Wakeup, SetState, set_state, sview at 2. simpl. by rewrite Esu.
Qed.

(** Operations that may create a thread. *)
Definition keeps_new cur k {A} (m : M (VM I Q) A) : Prop :=
  forall s, inv cur (k + 1) s -> wp m s (fun _ => inv cur k) (inv cur k).

Lemma keeps_keeps_new cur k {A} (m : M (VM I Q) A) : keeps cur (k + 1) m -> keeps_new cur k m.
Proof. intros Hm s Hs. eapply wp_mono; [by apply Hm | |]; simpl; intros; (eapply inv_weaken; [| done]; lia). Qed.

Lemma keeps_new_bind_l cur k {A B} (m : M (VM I Q) A) (f : A -> M (VM I Q) B) :
  keeps cur (k + 1) m -> (forall x, keeps_new cur k (f x)) -> keeps_new cur k (bind m f).
Proof.
  intros Hm Hf s Hs. apply wp_bind. eapply wp_mono; [by apply Hm | |]; simpl.
  - intros x s' Hs'. by apply Hf.
  - intros. eapply inv_weaken; [| done]. lia.
Qed.

Lemma run_Future_concur_keeps cur k x0 : 0 <= k -> keeps_new cur k (run_Future_concur x0).
Proof.
  intros Hk. unfold run_Future_concur. apply keeps_new_bind_l; [by apply AllocTransient_keeps |].
  intros f s Hs. apply wp_bind, (wp_NewThread cur k); [done .. |]. intros s1 Hs1 _.
  apply keeps_neutral; [neutral | done].
Qed.

Lemma run_Thread_raiseIn_keeps cur k x0 x1 : 0 <= k -> keeps cur k (run_Thread_raiseIn x0 x1).
Proof.
  intros Hk. unfold run_Thread_raiseIn. apply DECLARE_THREAD_keeps. intros t.
  apply keeps_bind; [apply keeps_neutral; neutral |]. intros [a |]; [apply keeps_neutral; neutral |].
  apply keeps_bind; [apply keeps_neutral; neutral |]. intros c.
  case_bool_decide as Etc; [apply keeps_neutral; neutral |].
  intros s Hinv. unfold get_thread at 1. wp_prims.
  match goal with E : vm_threads s !! t = Some ?x |- _ => rename x into th; rename E into Ht end.
  case_bool_decide as Eterm; [apply keeps_neutral; [neutral | done] |].
  apply (wp_bind_neutral cur k); [neutral | done | done |]. intros _ s1 (Ev1 & _) Hs1.
  apply wp_bind. unfold get_thread at 1, put_thread at 1. wp_prims.
  match goal with E : vm_threads s1 !! t = Some ?x |- _ => rename x into th1; rename E into Ht1 end.
  set (s2 := set_threads _ s1).
  assert (E2 : sched_eq s1 s2) by (by apply (sched_eq_put_thread _ _ th1)).
  assert (Hs2 : inv cur k s2) by (by eapply inv_sched_eq).
  assert (Hv2 : views s2 !! t = Some (sview th)).
  { destruct E2 as (Ev2 & _). rewrite Ev2, Ev1. by apply views_lookup. }
  case_bool_decide as Eb.
  - eapply wp_mono; [by apply (unblock_keeps cur k t th) | | done]. simpl. intros _ s3 Hs3.
    apply keeps_neutral; [neutral | done].
  - wp_prims. apply keeps_neutral; [neutral | done].
Qed.

(** A thread's own suspension is left to the scheduler: the primitive never
    suspends the running thread. *)
Lemma run_Thread_suspend_keeps cur k c x0 : cur = Some c -> keeps cur k (run_Thread_suspend x0).
Proof.
  intros Hcur. apply DECLARE_THREAD_keeps. intros t s Hs. unfold current. wp_prims.
  match goal with E : vm_current s = Some ?x |- _ => rename x into c'; rename E into Ec end.
  pose proof Hs as (_ & Hc & _). rewrite (Hc _ Hcur) in Ec. injection Ec as <-.
  case_bool_decide as Et; [apply keeps_neutral; [neutral | done] |].
  apply wp_bind. eapply wp_mono; [apply (SuspendThread_keeps cur k t); [congruence | done] | | done].
  simpl. intros _ s' Hs'. apply keeps_neutral; [neutral | done].
Qed.

Lemma run_primitive_keeps cur c k p : 0 <= k -> cur = Some c -> keeps_new cur k (run_primitive p).
Proof.
  intros Hk Hcur. unfold run_primitive. apply keeps_new_bind_l; [apply keeps_neutral; neutral |]. intros s0.
  apply keeps_new_bind_l; [apply keeps_neutral; neutral |]. intros _.
  destruct p, (vm_args s0) as [| x0 [| x1 [| x2 l]]];
    try (by apply keeps_keeps_new, keeps_neutral; neutral);
    try (by apply run_Future_concur_keeps); apply keeps_keeps_new.
  - apply DECLARE_THREAD_keeps. intros t. apply keeps_neutral. neutral.
  - apply run_Thread_raiseIn_keeps. lia.
  - apply DECLARE_THREAD_keeps. intros t. apply keeps_bind; [apply ResumeThread_keeps; lia |].
    intros _. apply keeps_neutral. neutral.
  - apply DECLARE_THREAD_keeps. intros t. apply keeps_neutral. neutral.
  - by apply (run_Thread_suspend_keeps _ _ c).
  - apply keeps_bind; [by apply AllocTransient_keeps |]. intros a. apply keeps_neutral. neutral.
  - apply with_hole_keeps. intros a. apply keeps_bind; [apply keeps_neutral; neutral |]. intros [b |].
    + apply keeps_neutral. neutral.
    + apply keeps_bind; [apply Hole_Fail_keeps; lia |]. intros _. apply keeps_neutral. neutral.
  - apply with_hole_keeps. intros a. apply keeps_bind; [apply Hole_Fill_keeps; lia |]. intros b. apply keeps_neutral. neutral.
  - apply keeps_bind; [apply keeps_neutral; neutral |]. intros [a |]; [| apply keeps_neutral; neutral].
    apply keeps_bind; [apply keeps_neutral; neutral |]. intros y. destruct y; try (by apply keeps_neutral; neutral).
    apply keeps_bind; [apply Hole_GetFuture_keeps |]. intros f. apply keeps_neutral. neutral.
  - apply keeps_bind; [by apply AllocTransient_keeps |]. intros a. apply keeps_neutral. neutral.
Qed.

Lemma run_PrimitiveInterpreter_keeps cur c k p :
  0 <= k -> cur = Some c -> keeps_new cur k (run_PrimitiveInterpreter p).
Proof.
  intros Hk Hcur. pose proof (run_primitive_keeps cur c k p Hk Hcur) as Hp. unfold run_PrimitiveInterpreter.
  destruct (inArity p) as [| [| n]].
  - apply keeps_new_bind_l; [apply keeps_neutral; neutral |]. intros s0.
    destruct (vm_args s0) as [| x [| y l]]; [done | | done].
    apply keeps_new_bind_l; [apply keeps_neutral; neutral |]. intros [a |].
    + apply keeps_keeps_new, keeps_neutral. neutral.
    + apply keeps_new_bind_l; [apply keeps_neutral; neutral | by intros []].
  - apply keeps_new_bind_l; [apply keeps_neutral; neutral | by intros []].
  - apply keeps_new_bind_l; [apply keeps_neutral; neutral |]. intros [|]; [| done].
    apply keeps_keeps_new, keeps_neutral. neutral.
Qed.

(** ** Workers and raising *)

Lemma run_user_keeps cur c k cs e : 0 <= k -> cur = Some c -> keeps_new cur k (run_user interpreter_frame cs e).
Proof.
  intros Hk Hcur. unfold run_user. apply keeps_new_bind_l; [apply keeps_neutral; neutral |]. intros _.
  destruct e as [r | closure | p].
  - apply keeps_keeps_new, keeps_neutral. neutral.
  - apply keeps_keeps_new, keeps_neutral. neutral.
  - apply keeps_new_bind_l; [apply keeps_neutral; neutral |]. intros _. by eapply run_primitive_keeps.
Qed.

Lemma worker_Run_keeps cur c k cs e f :
  0 <= k -> cur = Some c -> keeps_new cur k (worker_Run interpreter_frame cs e f).
Proof.
  intros Hk Hcur. unfold worker_Run. destruct (f_worker f).
  3: { apply keeps_keeps_new, BindFuture_Run_keeps. lia. }
  5: { by eapply run_PrimitiveInterpreter_keeps. }
  5: { by eapply run_user_keeps. }
  all: apply keeps_keeps_new, keeps_neutral; neutral.
Qed.

Lemma worker_Handle_keeps cur c k cs e f data package :
  0 <= k -> cur = Some c -> keeps_new cur k (worker_Handle interpreter_frame cs e f data package).
Proof.
  intros Hk Hcur. unfold worker_Handle. destruct (f_worker f).
  3: { apply keeps_keeps_new, BindFuture_Handle_keeps. lia. }
  6: { by eapply run_user_keeps. }
  all: apply keeps_keeps_new, keeps_neutral; neutral.
Qed.

Lemma DoRaise_keeps cur c k cs e reraise :
  0 <= k -> cur = Some c -> keeps_new cur k (DoRaise interpreter_frame cs e reraise).
Proof.
  intros Hk Hcur s Hs. unfold DoRaise, current, get_thread, put_thread. wp_prims.
  match goal with E : ActivateNextHandler ?th _ = Some ?x |- _ => rename x into p; rename E into Ea; rename th into th0 end.
  destruct p as [[handler data] th1]. unfold put_thread. wp_prims.
  match goal with E : vm_threads s !! ?t = Some th0 |- _ => rename E into Ht; rename t into t0 end.
  assert (Hs1 : inv cur (k + 1) (set_threads (<[t0 := th1]> (vm_threads s)) s)).
  { eapply inv_sched_eq; [| done]. eapply sched_eq_put_thread; [done |].
    unfold ActivateNextHandler in Ea. destruct (activate _ _) as [[[? ?] ?] |]; simpl in Ea; by simplify_eq. }
  apply wp_neutral; [neutral | |].
  - intros f s2 E2. eapply worker_Handle_keeps; [done .. |]. by eapply inv_sched_eq.
  - intros s2 E2. eapply inv_weaken, inv_sched_eq; [| done ..]. lia.
Qed.

(** ** Results *)

(** The invariant in a phase of the loop: between two threads none is running. *)
Definition phase_inv (p : phase) k s : Prop :=
  match p with Idle => inv None k s | _ => exists t, inv (Some t) k s end.

Definition turn_ok k (m : M (VM I Q) phase) s : Prop :=
  wp m s (fun p => phase_inv p k) (fun s' => exists t, inv (Some t) k s').

Lemma raise_ok t k cs e reraise s :
  0 <= k -> inv (Some t) (k + 1) s -> turn_ok k (raise interpreter_frame cs e reraise) s.
Proof.
  intros Hk Hs. unfold raise. apply wp_bind. eapply wp_mono; [by eapply (DoRaise_keeps (Some t)) | |]; simpl.
  - intros r s' Hs'. apply wp_ret. by exists t.
  - intros s' Hs'. by exists t.
Qed.

Lemma turn_neutral t k {A} (m : M (VM I Q) A) (f : A -> M (VM I Q) phase) s :
  0 <= k -> neutral m -> inv (Some t) (k + 1) s ->
  (forall x s', inv (Some t) (k + 1) s' -> vm_transients s' = vm_transients s -> turn_ok k (f x) s') -> turn_ok k (bind m f) s.
Proof.
  intros Hk Hm Hs Hf. apply wp_bind, wp_neutral; [done | |].
  - intros x s' E. apply Hf; [by eapply inv_sched_eq | apply E].
  - intros s' E. exists t. eapply inv_weaken, inv_sched_eq; [| done ..]. lia.
Qed.

Lemma next_thread_ok k s : inv None k s -> turn_ok k next_thread s.
Proof. intros Hs. unfold next_thread. unfold turn_ok. wp_prims. simpl. by eapply inv_sched_eq. Qed.

Lemma inv_current t k s : inv (Some t) k s -> vm_current s = Some t.
Proof. intros (_ & Hc & _). by apply Hc. Qed.

(** The running thread joins the future's wait queue, creating it if needed. *)
Lemma block_on_ok t k a s wo :
  0 <= k -> inv (Some t) k s -> vm_transients s !! a = Some (Future wo) ->
  turn_ok k (block_on a) s.
Proof.
  intros Hk Hs Ha. unfold block_on, turn_ok.
  apply wp_bind, wp_neutral; [neutral | | intros; exists t; by eapply inv_sched_eq].
  intros _ s1 E1. assert (Hs1 : inv (Some t) k s1) by (by eapply inv_sched_eq).
  destruct E1 as (_ & _ & ET & _). rewrite <- ET in Ha. pose proof (inv_current _ _ _ Hs1) as Hcur.
  pose proof Hs1 as (Hi & Hc & Hcap). unfold current. wp_prims.
  match goal with E : vm_current s1 = Some ?x |- _ => rename x into t' end. replace t' with t in * by congruence. clear t'.
  unfold AddToWaitQueue, put_transient. apply wp_bind, (wp_run _ _ _ _ _ _ (wait_queue_Ok _ _ _ Ha)). wp_prims.
  match goal with E : fifo_enqueue _ _ = Some ?x |- _ => rename x into wq'; rename E into Eq end.
  destruct (si_running _ _ _ _ Hi t eq_refl) as [f Hv]. destruct (views_inv _ _ _ Hv) as (th & Hth & Ev).
  set (wq0 := match wo with Some q => q | None => fifo_new 2 end) in *.
  assert (Hwq : fifo_ok wq0 /\ fifo_list wq0 = default [] (fifo_list <$> wo)).
  { destruct wo as [wq |]; simpl; [split; [apply (si_wait _ _ _ _ Hi _ _ Ha) | done] | by apply (fifo_new_law 2)]. }
  destruct Hwq as [Hok0 El0].
  assert (Hroom : zlen (fifo_list wq0) < fifo_cap).
  { rewrite El0. destruct wo as [wq |]; simpl.
    - destruct (si_wait _ _ _ _ Hi _ _ Ha) as (_ & Hnd & Hall).
      apply (queue_room (views s1) wq t); [done | | by eexists | | unfold views; rewrite map_size_fmap; lia].
      + intros u Hu. destruct (Hall u Hu). by eexists.
      + intros Hin. destruct (Hall t Hin). congruence.
    - assert (0 < size (vm_threads s1))%nat.
      { apply Nat.neq_0_lt_0. intros E0%map_size_empty_inv. by rewrite E0, lookup_empty in Hth. }
      rewrite zlen_nil. lia. }
  destruct (fifo_enqueue_law wq0 t Hok0 Hroom) as (q' & E & Hok' & El'). rewrite Eq in E. injection E as <-.
  unfold get_thread, put_thread. wp_prims. simpl in *. simplify_eq.
  apply next_thread_ok. split; [| split; [done | simpl; by erewrite size_put]].
  pose proof (inv_block Hi t f a wo wq' eq_refl Hv Ha Hok') as Hb. rewrite El', El0 in Hb. specialize (Hb eq_refl).
  replace (views _) with (<[t := (BLOCKED, false, Some a)]> (views s1)); [done |].
  unfold views. simpl. rewrite fmap_insert. unfold BlockOn, SetState, set_future, set_state, sview at 2. simpl.
  injection Ev as _ <- _. done.
Qed.

(** Raising after setting the exception and the backtrace. *)
Lemma raise_with_ok t k cs e w (m : M (VM I Q) positive) s :
  0 <= k -> neutral m -> inv (Some t) (k + 1) s ->
  turn_ok k (bind (SetCurrentData w) (fun _ => bind m (fun b =>
    bind (modify (set_backtrace b)) (fun _ => raise interpreter_frame cs e false)))) s.
Proof.
  intros Hk Hm Hs. apply (turn_neutral t); [done | neutral | done |]. intros _ s1 Hs1 _.
  apply (turn_neutral t); [done .. |]. intros b s2 Hs2 _.
  apply (turn_neutral t); [done | neutral | done |]. intros _ s3 Hs3 _. by eapply raise_ok.
Qed.

Lemma interpret_request_ok t k cs e s :
  0 <= k -> inv (Some t) (k + 1) s -> turn_ok k (interpret_request interpreter_frame cs e) s.
Proof.
  intros Hk Hs. unfold interpret_request. apply (turn_neutral t); [done | neutral | done |]. intros s0 s1 Hs1 E1.
  apply (turn_neutral t); [done | neutral | done |]. intros tr s2 Hs2 E2.
  apply (turn_neutral t); [done | neutral | done |]. intros a s3 Hs3 E3.
  unfold turn_ok, get_transient. wp_prims.
  match goal with E : vm_transients s3 !! a = Some ?y |- _ => rename y into x; rename E into Ha end.
  assert (Hs3' : inv (Some t) k s3) by (eapply inv_weaken; [| done]; lia).
  destruct x as [h | wo | package | closure | w].
  - by apply (raise_with_ok t); [| neutral |].
  - by eapply block_on_ok.
  - destruct package as [| | | | | [| exn [| [| | | | b | | |] [| ? ?]]] | |]; try done.
    by apply (raise_with_ok t); [| neutral |].
  - apply wp_bind, (wp_NewThread (Some t) k); [done .. |]. intros s4 Hs4 E4.
    assert (HO : forall s', sched_eq s4 s' -> exists t0, inv (Some t0) k s').
    { intros s' E. exists t. by eapply inv_sched_eq. }
    apply wp_bind, wp_neutral; [neutral | | done]. intros _ s5 E5.
    apply wp_bind, wp_neutral; [neutral | | intros s' E; apply HO; by etransitivity]. intros _ s6 E6.
    assert (Hs6 : inv (Some t) k s6) by (eapply inv_sched_eq; [| exact Hs4]; by etransitivity).
    assert (Ha6 : vm_transients s6 !! a = Some (Byneed closure)).
    { destruct E5 as (_ & _ & E5 & _), E6 as (_ & _ & E6 & _). by rewrite E6, E5, E4. }
    apply wp_bind, (wp_Become_Future (Some t) k); [done | intros wq; by rewrite Ha6 |].
    intros s7 Hs7 E7. eapply (block_on_ok t k a s7 None); [done .. |]. by rewrite E7, lookup_insert_eq.
  - done.
Qed.

(** The running thread leaves the processor for another reason than blocking. *)
Lemma leave_ok t k s v (f : Thread I -> Thread I) :
  0 <= k -> inv (Some t) k s ->
  (forall th, sview (f th) = v (sview th)) ->
  (forall g, (forall b h, v (RUNNABLE, false, g) <> (BLOCKED, b, h)) /\ forall h, v (RUNNABLE, false, g) <> (RUNNABLE, false, h)) ->
  turn_ok k (bind FlushThread (fun _ => bind current (fun t => bind (get_thread t) (fun th =>
               bind (put_thread t (f th)) (fun _ => next_thread))))) s.
Proof.
  intros Hk Hs Hf Hv. unfold turn_ok.
  apply wp_bind, wp_neutral; [neutral | | intros; exists t; by eapply inv_sched_eq].
  intros _ s1 E1. assert (Hs1 : inv (Some t) k s1) by (by eapply inv_sched_eq). pose proof Hs1 as (Hi & Hc & Hcap).
  unfold current, get_thread, put_thread. wp_prims.
  match goal with E : vm_current s1 = Some ?x |- _ => rename x into t'; rename E into Ec end.
  rewrite (Hc t eq_refl) in Ec. injection Ec as <-.
  match goal with E : vm_threads s1 !! t = Some ?x |- _ => rename x into th; rename E into Ht end.
  destruct (si_running _ _ _ _ Hi t eq_refl) as [g Hg].
  assert (Ev : sview th = (RUNNABLE, false, g)) by (rewrite (views_lookup _ _ _ Ht) in Hg; congruence).
  destruct (Hv g) as [Hv1 Hv2].
  apply next_thread_ok. split; [| split; [done | simpl; by erewrite size_put]].
  pose proof (inv_set_idle Hi t (v (RUNNABLE, false, g)) (vm_queue s1)) as Hset. rewrite decide_True in Hset by done.
  replace (views _) with (<[t := v (RUNNABLE, false, g)]> (views s1)); [| rewrite views_put, Hf, Ev; done].
  apply Hset; [intros *; rewrite Hg; congruence | done | done | apply Hi | apply Hi |].
  intros u. split; [| by intros []]. intros Hu. split; [done |]. intros ->. by apply (running_not_ready Hi t).
Qed.

Lemma interpret_ok t k cs e (r : Result) s :
  0 <= k -> inv (Some t) (k + 1) s -> turn_ok k (interpret interpreter_frame cs e r) s.
Proof.
  intros Hk Hs. assert (Hs' : inv (Some t) k s) by (eapply inv_weaken; [| done]; lia). destruct r; simpl.
  - unfold turn_ok. wp_prims. by exists t.
  - unfold turn_ok. apply wp_bind, wp_neutral; [neutral | | intros; exists t; by eapply inv_sched_eq].
    intros _ s1 E1. assert (Hs1 : inv (Some t) k s1) by (by eapply inv_sched_eq). pose proof Hs1 as (Hi & Hc & Hcap).
    unfold current. wp_prims. match goal with E : vm_current s1 = Some ?x |- _ => rename x into t'; rename E into Ec end.
    rewrite (Hc t eq_refl) in Ec. injection Ec as <-.
    destruct (si_running _ _ _ _ Hi t eq_refl) as [g Hg]. destruct (views_inv _ _ _ Hg) as (th & Ht & _).
    destruct (enqueue_Ok s1 t) as (q & E & Hok & El).
    { apply Hi. } { eapply (inv_room _ k s1 t); [done .. | by eexists | by apply (running_not_ready Hi)]. }
    eapply wp_run; [exact E |]. apply next_thread_ok. split; [by apply (inv_preempt Hi t) | done].
  - apply (leave_ok t k s (fun v => (v.1.1, true, v.2))); done.
  - by eapply raise_ok.
  - by apply (interpret_request_ok t).
  - by eapply raise_ok.
  - apply (leave_ok t k s (fun v => (TERMINATED, v.1.2, None))); done.
  - unfold turn_ok. wp_prims. destruct (vm_data s); try done. wp_prims. by exists t.
Qed.

Lemma dequeue_ok k s : 0 <= k -> inv None k s -> turn_ok k dequeue s.
Proof.
  intros Hk Hs. pose proof Hs as (Hi & Hc & Hcap). unfold dequeue, turn_ok, ThreadQueue_Dequeue. wp_prims.
  rewrite (fifo_is_empty_law _ (si_queue _ _ _ _ Hi)). case_bool_decide as He; wp_prims.
  - apply next_thread_ok. split; [apply Hi | done].
  - match goal with E : fifo_dequeue _ = Some ?x |- _ => destruct x as [t q]; rename E into Ed end. simpl.
    destruct (fifo_list (vm_queue s)) as [| t' l] eqn:El; [done |].
    destruct (fifo_dequeue_law _ _ _ (si_queue _ _ _ _ Hi) El) as (q' & E & Hok & El'). rewrite Ed in E. injection E as -> ->.
    set (s1 := set_current (Some t') (set_queue q' s)).
    assert (Hs1 : inv (Some t') k s1).
    { split; [| split; [by intros t [= ->] | done]]. by apply (inv_dequeue Hi t' l q'). }
    apply wp_neutral; [neutral | |].
    + intros _ s2 E2. apply wp_ret. exists t'. by eapply inv_sched_eq.
    + intros s2 E2. exists t'. by eapply inv_sched_eq.
Qed.

Lemma turn_phase_ok p k cs e s : 0 <= k -> phase_inv p (k + 1) s -> turn_ok k (turn interpreter_frame cs e p) s.
Proof.
  intros Hk. destruct p as [| | r | | code]; simpl.
  - intros Hs. apply dequeue_ok; [done |]. eapply inv_weaken; [| done]. lia.
  - intros [t Hs]. unfold run_frame. apply (turn_neutral t); [done | neutral | done |]. intros f s1 Hs1 _.
    apply wp_bind. eapply wp_mono; [by eapply (worker_Run_keeps (Some t)) | |]; simpl.
    + intros r s2 Hs2. apply wp_ret. by exists t.
    + intros s2 Hs2. by exists t.
  - intros [t Hs]. by apply (interpret_ok t).
  - intros [t Hs]. unfold recover. by apply (raise_with_ok t); [| neutral |].
  - intros [t Hs]. apply wp_ret. exists t. eapply inv_weaken; [| done]. lia.
Qed.

Lemma step_ok p k s p' s' :
  0 <= k -> phase_inv p (k + 1) s -> step interpreter_frame (p, s) (p', s') -> phase_inv p' k s'.
Proof.
  intros Hk Hs Hst.
  inversion Hst as [cs e p0 s0 p1 s1 E | cs e p0 s0 s1 E | p0 s0 x | s0 q E]; subst.
  - pose proof (turn_phase_ok p k cs e s Hk Hs) as Ht. unfold turn_ok, wp in Ht. by rewrite E in Ht.
  - pose proof (turn_phase_ok p k cs e s Hk Hs) as Ht. unfold turn_ok, wp in Ht. by rewrite E in Ht.
  - assert (Hst' : forall cur, inv cur (k + 1) s -> inv cur k (set_status x s)).
    { intros cur Hc. eapply inv_weaken, inv_sched_eq; [| done ..]. lia. }
    destruct p'; simpl in *; [by apply Hst' | destruct Hs as [t Hs]; exists t; by apply Hst' ..].
  - simpl in *. destruct Hs as (Hi & Hc & Hcap).
    destruct (fifo_blank_law _ (si_queue _ _ _ _ Hi)) as (q' & E' & Hok & El). rewrite E in E'. injection E' as <-.
    split; [| split; [done | simpl; lia]]. destruct Hi as [Hq Hnd Hre Hru Hwa Hbl Hac].
    split; try done; simpl; rewrite El; done.
Qed.

End Safe.
