(* ===== verification/SchedulerThm.v ===== *)
(** * Properties of the scheduler

    Reachability of VM states from the boot state, the invariant spelled out
    for every thread, the exact behaviour of filling a hole, of requesting a
    by-need future, of raising, and of flushing and resuming a thread. *)

From S2P Require Import Prelude Config HeaderOp Block Queue Thread Scheduler SchedulerRun SchedulerInv SchedulerOps SchedulerSafe.

Section Boot.
Context `{Platform} {I Q : Type} `{!FIFO Q positive}.
Variable interpreter_frame : I -> word I -> list (word I).
Implicit Types (w r : word I) (a t : positive) (s : VM I Q).

(** The VM after [Scheduler::Init] and [TaskStack::Init]. *)
Definition init_vm : VM I Q :=
  {| vm_threads := ∅; vm_transients := ∅; vm_backtraces := {[ 1%positive := [] ]}; vm_queue := fifo_new 8;
     vm_current := None; vm_stack := TaskStack_New INITIAL_SIZE; vm_args := []; vm_data := WInt 0;
     vm_backtrace := 1%positive; vm_status := 0; vm_uncaught := WInt 0 |}.

(** [Start] of the language layer: the root thread with the linker's frame. *)
Definition boot (linker : Frame I) : M (VM I Q) positive :=
  bind (Scheduler_NewThread []) (fun t => bind (PushFrame_on t linker) (fun _ => ret t)).

(** Steps of a machine that never has more threads than its queues can hold. *)
Definition bounded_step (x y : phase * VM I Q) : Prop :=
  step interpreter_frame x y /\ Z.of_nat (size (vm_threads x.2)) + 1 <= fifo_cap /\
  Z.of_nat (size (vm_threads y.2)) <= fifo_cap.

Definition reachable (linker : Frame I) (p : phase) s : Prop :=
  exists t s0, boot linker init_vm = Ok t s0 /\ rtc bounded_step (Idle, s0) (p, s).

(** The thread that has the processor. *)
Definition running (p : phase) s : option positive := match p with Idle => None | _ => vm_current s end.

Lemma init_inv : 1 <= fifo_cap -> inv None 1 init_vm.
Proof.
  intros Hc. split; [| split; [done | simpl; rewrite map_size_empty; lia]].
  destruct (fifo_new_law (Q := Q) 8) as [Hok El]; [done |].
  unfold views; simpl. rewrite fmap_empty. split; try done.
  - by rewrite El; constructor.
  - intros t. rewrite El, lookup_empty, elem_of_nil. naive_solver.
  - intros a [x Hx]. done.
Qed.

Lemma reachable_inv linker p s : 1 <= fifo_cap -> reachable linker p s -> phase_inv p 0 s.
Proof.
  intros Hc (t & s0 & E0 & Hr).
  assert (H0 : phase_inv Idle 0 s0).
  { assert (Hb : wp (boot linker) init_vm (fun _ s => inv None 0 s) (inv None 0)).
    { unfold boot. apply wp_bind, (wp_NewThread None 0); [by apply init_inv | done |]. intros s1 Hs1 _.
      apply (keeps_neutral None 0); [neutral | done]. }
    unfold wp in Hb. by rewrite E0 in Hb. }
  assert (Hgen : forall x y, rtc bounded_step x y -> phase_inv x.1 0 x.2 -> phase_inv y.1 0 y.2).
  { induction 1 as [x | x y z (Hst & Hcap & _) Hr' IH]; [done |]. intros Hx. apply IH. destruct x as [p1 s1], y as [p2 s2].
    eapply (step_ok interpreter_frame p1); [done | | exact Hst]. simpl in *.
    destruct p1; simpl in *; [| destruct Hx as [t' Hx]; exists t' ..];
      (match goal with Hx : inv _ _ _ |- _ => destruct Hx as (? & ? & ?) end; split_and!; [done .. | lia]). }
  by apply (Hgen _ _ Hr).
Qed.

Lemma reachable_sched linker p s : 1 <= fifo_cap -> reachable linker p s -> inv (running p s) 0 s.
Proof.
  intros Hc Hr%reachable_inv; [| done].
  destruct p; simpl in *; [done | destruct Hr as [t Ht]; pose proof Ht as (_ & E & _); by rewrite (E t eq_refl) ..].
Qed.

(** Running the loop with given interpreter behaviours, one per turn. *)
Fixpoint run_turns (script : list (list (user_call I) * user_end I)) (p : phase) s : option (phase * VM I Q) :=
  match script with
  | [] => Some (p, s)
  | (cs, e) :: script =>
      match turn interpreter_frame cs e p s with
      | Ok p' s' =>
          if (Z.of_nat (size (vm_threads s)) + 1 <=? fifo_cap) && (Z.of_nat (size (vm_threads s')) <=? fifo_cap)
          then run_turns script p' s' else None
      | _ => None
      end
  end.

Lemma run_turns_steps script p s p' s' : run_turns script p s = Some (p', s') -> rtc bounded_step (p, s) (p', s').
Proof.
  revert p s. induction script as [| [cs e] script IH]; intros p s Hr; simpl in Hr; [by injection Hr as -> -> |].
  destruct (turn interpreter_frame cs e p s) as [p1 s1 | |] eqn:E; try done.
  destruct (_ && _) eqn:Eb; [| done]. apply andb_true_iff in Eb as [Eb1%Z.leb_le Eb2%Z.leb_le].
  eapply rtc_l; [| by apply IH]. split; [by eapply step_turn | done].
Qed.

(** ** Executions that succeed *)

Lemma Deref_Ok s n w r : derefs (vm_transients s) n w r -> Deref w s = Ok r s.
Proof.
  intros Hd. unfold Deref. rewrite (bind_Ok _ _ s s s) by done.
  apply lift_Ok. by eapply deref_derefs, derefs_size.
Qed.

Lemma WordToTransient_Ok s n w r :
  derefs (vm_transients s) n w r ->
  WordToTransient w s = Ok (match r with WTransient a => Some a | _ => None end) s.
Proof. intros Hd. unfold WordToTransient. by rewrite (bind_Ok _ _ _ _ _ (Deref_Ok _ _ _ _ Hd)). Qed.

Lemma Become_Ref_Ok s a x n w r :
  vm_transients s !! a = Some x -> is_ref x = false -> derefs (vm_transients s) n w r ->
  Become_Ref a w s = Ok tt (set_transients (<[a := Ref r]> (vm_transients s)) s).
Proof.
  intros Ha Hx Hd. unfold Become_Ref. rewrite (bind_Ok _ _ _ _ _ (get_transient_Ok _ _ _ Ha)).
  rewrite (bind_Ok _ _ s tt s) by (unfold assert; by rewrite Hx).
  by rewrite (bind_Ok _ _ _ _ _ (Deref_Ok _ _ _ _ Hd)).
Qed.

Lemma Hole_associated_Ok s a ho :
  vm_transients s !! a = Some (Hole ho) ->
  (forall f, ho = Some f -> exists wo, vm_transients s !! f = Some (Future wo)) ->
  Hole_associated a s = Ok ho s.
Proof.
  intros Ha Hf. unfold Hole_associated. rewrite (bind_Ok _ _ _ _ _ (get_transient_Ok _ _ _ Ha)).
  destruct ho as [f |]; [| done]. destruct (Hf f eq_refl) as [wo Ef].
  by apply (WordToTransient_Ok s 0 (WTransient f) (WTransient f)), (derefs_unbound _ f (Future wo)).
Qed.

(** The waiting threads of a hole's future. *)
Definition waiting s (ho : option positive) : list positive :=
  match ho with
  | Some f => match vm_transients s !! f with Some (Future (Some wq)) => fifo_list wq | _ => [] end
  | None => []
  end.

Lemma wp_Ok {A} (m : M (VM I Q) A) s x s' (R : A -> VM I Q -> Prop) O : wp m s R O -> m s = Ok x s' -> R x s'.
Proof. unfold wp. intros Hw E. by rewrite E in Hw. Qed.

Lemma Hole_Fill_Ok cur k s a ho w n r :
  inv cur k s -> 0 <= k -> vm_transients s !! a = Some (Hole ho) ->
  (forall f, ho = Some f -> exists wo, vm_transients s !! f = Some (Future wo)) ->
  derefs (vm_transients s) n w r -> r <> WTransient a -> (forall f, ho = Some f -> r <> WTransient f) ->
  exists q T, Hole_Fill a w s = Ok true (set_queue q (set_transients T (set_threads (wake_list (vm_threads s) (waiting s ho)) s))) /\
    fifo_list q = fifo_list (vm_queue s) ++ awake (vm_threads s) (waiting s ho) /\
    T = <[a := Ref r]> (match ho with Some f => <[f := Ref r]> (vm_transients s) | None => vm_transients s end).
Proof.
  intros Hinv Hk Ha Hf Hd Hra Hrf. unfold Hole_Fill.
  rewrite (bind_Ok _ _ _ _ _ (WordToTransient_Ok _ _ _ _ Hd)), bool_decide_eq_false_2 by (by destruct r; congruence).
  rewrite (bind_Ok _ _ _ _ _ (Hole_associated_Ok _ _ _ Ha Hf)). destruct ho as [f |].
  - specialize (Hrf f eq_refl). destruct (Hf f eq_refl) as [wo Ef]. assert (Hfa : f <> a) by congruence.
    rewrite bool_decide_eq_false_2 by (by destruct r; congruence).
    destruct (ScheduleWaitingThreads_Ok cur k s f wo Hinv Hk Ef) as (q & wo' & E & _ & Elq & _).
    assert (Ew : waiting s (Some f) = default [] (fifo_list <$> wo)) by (simpl; rewrite Ef; by destruct wo).
    rewrite (bind_Ok _ _ _ _ _ E), Ew. set (s1 := set_queue q _).
    assert (Hd1 : derefs (vm_transients s1) n w r).
    { apply derefs_insert_unbound; [done | | done]. intros y Hy. by simplify_eq. }
    rewrite (bind_Ok _ _ _ _ _ (Become_Ref_Ok s1 f (Future wo') n w r (lookup_insert_eq _ _ _) eq_refl Hd1)).
    set (s2 := set_transients _ s1).
    assert (Hd2 : derefs (vm_transients s2) n w r).
    { apply derefs_insert_other; [done | | done]. intros y. simpl. rewrite lookup_insert_eq. by intros [= <-]. }
    assert (Ha2 : vm_transients s2 !! a = Some (Hole (Some f))) by (simpl; by rewrite !lookup_insert_ne).
    rewrite (bind_Ok _ _ _ _ _ (Become_Ref_Ok s2 a _ n w r Ha2 eq_refl Hd2)).
    exists q, (<[a := Ref r]> (<[f := Ref r]> (vm_transients s))). split_and!; [| done | done].
    unfold s2, s1. destruct s. unfold set_queue, set_transients, set_threads. simpl. by rewrite insert_insert_eq.
  - rewrite (bind_Ok _ _ _ _ _ (Become_Ref_Ok s a _ n w r Ha eq_refl Hd)).
    exists (vm_queue s), (<[a := Ref r]> (vm_transients s)).
    split_and!; [by destruct s | by rewrite app_nil_r | done].
Qed.

End Boot.

(** ** Unrolling the stack *)

Section Unroll.
Context `{Platform} {I Q : Type} `{!FIFO Q positive}.
Implicit Types (s : VM I Q) (f : Frame I) (hs : list (Handler I)).

(** The frames that enter the backtrace, from the top down; a reraise leaves
    out the top frame. *)
Definition traced (skip : bool) (fs : list (Frame I)) : list (word I) :=
  map Clone (filter (fun f => Traceable (f_worker f) = true) (if skip then tail fs else fs)).

Lemma set_backtraces_same s l :
  vm_backtraces s !! vm_backtrace s = Some l ->
  set_backtraces (<[vm_backtrace s := l]> (vm_backtraces s)) s = s.
Proof. intros E. rewrite insert_id by done. by destruct s. Qed.

Lemma trace_frame_Ok f skip s l :
  vm_backtraces s !! vm_backtrace s = Some l ->
  trace_frame f skip s =
    Ok tt (set_backtraces (<[vm_backtrace s := l ++ traced skip [f]]> (vm_backtraces s)) s).
Proof.
  intros Hl. unfold trace_frame, traced. destruct skip; simpl.
  { by rewrite app_nil_r, set_backtraces_same. }
  destruct (Traceable (f_worker f)) eqn:Et; simpl.
  - rewrite (bind_Ok _ _ s s s) by done. unfold Backtrace_Enqueue.
    rewrite (bind_Ok _ _ s s s) by done. rewrite (bind_Ok _ _ _ _ _ (lift_Ok _ _ _ Hl)).
    by rewrite filter_cons_True.
  - rewrite filter_cons_False by congruence. simpl. by rewrite app_nil_r, set_backtraces_same.
Qed.

Lemma unroll_Ok fuel above f below (reraise top : bool) s l :
  ts_frames (vm_stack s) = above ++ f :: below -> (length above <= fuel)%nat ->
  vm_backtraces s !! vm_backtrace s = Some l ->
  unroll fuel (frame_index (f :: below)) reraise top s =
    Ok f (set_backtraces (<[vm_backtrace s := l ++ traced (top && reraise) (above ++ [f])]> (vm_backtraces s))
           (set_vmstack {| ts_frames := f :: below; ts_size := ts_size (vm_stack s) |} s)).
Proof.
  revert fuel top s l. induction above as [| g above IH]; intros fuel top s l Hfr Hfuel Hl.
  - simpl in Hfr. set (h := frame_index _).
    assert (Hlt : (h <? frame_index (ts_frames (vm_stack s))) = false) by (apply Z.ltb_ge; unfold h; rewrite Hfr; lia).
    destruct fuel; simpl; rewrite (bind_Ok _ _ s f s) by (unfold GetFrame, bind, get, lift; by rewrite Hfr);
      rewrite (bind_Ok _ _ s s s), Hlt by done; rewrite (bind_Ok _ _ _ _ _ (trace_frame_Ok f _ s l Hl)).
    all: unfold ret; f_equal; destruct s as [? ? ? ? ? [] ? ? ? ? ?]; simpl in Hfr; by subst.
  - destruct fuel as [| fuel]; [simpl in Hfuel; lia |]. simpl in Hfr, Hfuel.
    assert (Hlt : (frame_index (f :: below) <? frame_index (ts_frames (vm_stack s))) = true).
    { apply Z.ltb_lt. unfold frame_index. rewrite Hfr. simpl. rewrite frames_size_app. simpl.
      pose proof (GetFrameSize_pos g). pose proof (frames_size_nonneg above). lia. }
    simpl. rewrite (bind_Ok _ _ s g s) by (unfold GetFrame, bind, get, lift; by rewrite Hfr).
    rewrite (bind_Ok _ _ s s s), Hlt by done. rewrite (bind_Ok _ _ _ _ _ (trace_frame_Ok g _ s l Hl)).
    set (s1 := set_backtraces _ s). set (s2 := set_vmstack {| ts_frames := above ++ f :: below; ts_size := ts_size (vm_stack s) |} s1).
    rewrite (bind_Ok _ _ s1 tt s2).
    2: { unfold PopFrame_any. rewrite (bind_Ok _ _ s1 s1 s1) by done. simpl. by rewrite Hfr. }
    erewrite (IH fuel false s2) by (simpl; try lia; try apply lookup_insert_eq; done).
    unfold s2, s1. destruct s. unfold set_backtraces, set_vmstack. simpl. rewrite insert_insert_eq, <- app_assoc.
    do 4 f_equal. unfold traced. simpl. destruct (top && reraise); simpl; rewrite ?map_app, ?app_nil_l; [done |].
    rewrite !filter_cons. by case_decide.
Qed.

(** The innermost handler that is still trying is found, and its frame is on
    the stack. *)
Lemma activate_Ok frames hs package :
  handlers_nested frames hs -> Exists (fun h => h_state h = TRYING) hs ->
  exists done_hs h hs' fs, hs = done_hs ++ h :: hs' /\ Forall (fun h => h_state h = HANDLING) done_hs /\
    h_state h = TRYING /\ fs `suffix_of` frames /\ fs <> [] /\ h_frame h = frame_index fs /\ handlers_nested fs hs' /\
    activate hs package = Some (h_frame h, h_data h, mkHandler (h_frame h) HANDLING package :: hs').
Proof.
  induction 1 as [l | l h hs Hh Hn IH | l fs h hs Hh Hs Hne Hf Hn IH]; intros Hex.
  - by apply Exists_nil in Hex.
  - apply Exists_cons in Hex as [Hex | Hex]; [congruence |].
    destruct (IH Hex) as (dh & h' & hs' & fs & -> & Hd & Ht & Hsf & Hne & Hf & Hn' & Ha).
    exists (h :: dh), h', hs', fs. split_and!; [done | by constructor | done .. |]. simpl. by rewrite Hh.
  - exists [], h, hs, fs. split_and!; [done .. |]. simpl. by rewrite Hh.
Qed.

End Unroll.

(** ** Creating and blocking threads *)

Section Spawn.
Context `{Platform} {I Q : Type} `{!FIFO Q positive}.
Implicit Types (s : VM I Q) (th : Thread I).

Lemma get_thread_Ok s t th : vm_threads s !! t = Some th -> get_thread t s = Ok th s.
Proof. intros E. unfold get_thread. rewrite (bind_Ok _ _ s s s) by done. by apply lift_Ok. Qed.

Lemma current_Ok s t : vm_current s = Some t -> current s = Ok t s.
Proof. intros E. unfold current. rewrite (bind_Ok _ _ s s s) by done. by apply lift_Ok. Qed.

Lemma NewThread_Ok t k s :
  inv (Some t) (k + 1) s -> 0 <= k ->
  exists q, Scheduler_NewThread [] s =
      Ok (new_key (vm_threads s)) (set_queue q (set_threads (<[new_key (vm_threads s) := Thread_New []]> (vm_threads s)) s)) /\
    fifo_ok q /\ fifo_list q = fifo_list (vm_queue s) ++ [new_key (vm_threads s)].
Proof.
  intros (Hi & _ & Hcap) Hk. unfold Scheduler_NewThread. rewrite (bind_Ok _ _ s s s) by done.
  set (u := new_key _). set (s1 := set_threads _ s). rewrite (bind_Ok _ _ s tt s1) by done.
  destruct (enqueue_Ok s1 u) as (q & E & Hok & El); [apply Hi | |].
  - destruct (si_running _ _ _ _ Hi t eq_refl) as [g Hg].
    apply (queue_room (views s) (vm_queue s) t); [apply Hi | | by eexists | by apply (running_not_ready Hi) |].
    + intros v Hv. destruct (ready_view Hi v Hv). by eexists.
    + unfold views. rewrite map_size_fmap. lia.
  - exists q. split; [| done]. by rewrite (bind_Ok _ _ _ _ _ E).
Qed.

Lemma FlushThread_Ok s t th :
  vm_current s = Some t -> vm_threads s !! t = Some th -> nargs_ok (vm_args s) = true ->
  FlushThread s = Ok tt (set_threads (<[t := SetArgs (set_stack th (vm_stack s)) (vm_args s)]> (vm_threads s)) s).
Proof.
  intros Hc Ht Hn. unfold FlushThread. rewrite (bind_Ok _ _ s s s) by done.
  rewrite (bind_Ok _ _ _ _ _ (current_Ok _ _ Hc)), (bind_Ok _ _ _ _ _ (get_thread_Ok _ _ _ Ht)).
  by rewrite (bind_Ok _ _ s tt s) by (unfold assert; by rewrite Hn).
Qed.

(** The running thread, blocking on a future nobody waits on. *)
Lemma block_on_new_Ok s t th a :
  vm_current s = Some t -> vm_threads s !! t = Some th -> nargs_ok (vm_args s) = true ->
  vm_transients s !! a = Some (Future None) -> 0 < fifo_cap ->
  exists wq s', block_on a s = Ok Idle s' /\ fifo_list wq = [t] /\ vm_queue s' = vm_queue s /\
    vm_transients s' = <[a := Future (Some wq)]> (vm_transients s) /\
    (forall v, v <> t -> vm_threads s' !! v = vm_threads s !! v).
Proof.
  intros Hc Ht Hn Ha Hcap. unfold block_on. rewrite (bind_Ok _ _ _ _ _ (FlushThread_Ok _ _ _ Hc Ht Hn)).
  set (s1 := set_threads _ s). rewrite (bind_Ok _ _ _ _ _ (current_Ok s1 t Hc)).
  destruct (fifo_new_law (Q := Q) (A := positive) 2) as [Hok El]; [done |].
  destruct (fifo_enqueue_law _ t Hok) as (wq & E & Hok' & El'); [by rewrite El |]. rewrite El in El'.
  set (s2 := set_transients (<[a := Future (Some wq)]> (vm_transients s1)) s1).
  rewrite (bind_Ok _ _ s1 tt s2).
  2: { unfold AddToWaitQueue. rewrite (bind_Ok _ _ _ _ _ (wait_queue_Ok s1 a None Ha)).
       by rewrite (bind_Ok _ _ _ _ _ (lift_Ok _ _ s1 E)). }
  assert (Ht2 : vm_threads s2 !! t = Some (SetArgs (set_stack th (vm_stack s)) (vm_args s))) by apply lookup_insert_eq.
  rewrite (bind_Ok _ _ _ _ _ (get_thread_Ok _ _ _ Ht2)). eexists wq, _.
  split; [reflexivity |]. split_and!; [done .. |]. intros v Hv. simpl. by rewrite !lookup_insert_ne.
Qed.

(** The thread that computes a future: call the closure, then bind. *)
Definition spawned (future : positive) (closure : word I) : Thread I :=
  {| t_state := RUNNABLE; t_suspended := false;
     t_stack := {| ts_frames := [mkFrame PushCallWorker [closure]; mkFrame BindFutureWorker [WTransient future]; emptyTask];
                   ts_size := 20 |};
     t_args := []; t_future := None;
     t_handlers := [mkHandler 2 TRYING (WInt 0); mkHandler 0 TRYING (WInt 0)]; t_handlers_size := 10 |}.

Lemma initial_sizes : dynamic_size INITIAL_SIZE = 20 /\ dynamic_size INITIAL_HANDLERS_SIZE = 10.
Proof. unfold dynamic_size. rewrite !TranslateSize_small by (by rewrite MAX_BLOCKSIZE_eq). done. Qed.

Lemma spawn_frames_Ok s t a closure :
  vm_threads s !! t = Some (Thread_New []) ->
  bind (BindFutureWorker_PushFrame t a) (fun _ => PushCallWorker_PushFrame_on t closure) s =
    Ok tt (set_threads (<[t := spawned a closure]> (vm_threads s)) s).
Proof.
  intros Ht. unfold BindFutureWorker_PushFrame, PushCallWorker_PushFrame_on, PushFrame_on.
  unfold Thread_New, TaskStack_New in Ht. rewrite (proj1 initial_sizes), (proj2 initial_sizes) in Ht.
  set (f1 := {| f_worker := BindFutureWorker; f_args := _ |}).
  set (th0 := {| t_state := RUNNABLE; t_suspended := false |}) in Ht.
  set (th1 := set_stack th0 {| ts_frames := [f1; emptyTask]; ts_size := 20 |}).
  set (th2 := set_handlers th1 [mkHandler 2 TRYING (WInt 0); mkHandler 0 TRYING (WInt 0)] 10).
  set (s1 := set_threads (<[t := th1]> (vm_threads s)) s). set (s2 := set_threads (<[t := th2]> (vm_threads s1)) s1).
  assert (Ht1 : vm_threads s1 !! t = Some th1) by apply lookup_insert_eq.
  assert (Ht2 : vm_threads s2 !! t = Some th2) by apply lookup_insert_eq.
  rewrite (bind_Ok _ _ s tt s2).
  - rewrite (bind_Ok _ _ _ _ _ (get_thread_Ok _ _ _ Ht2)), (bind_Ok _ _ s2 (Some (spawned a closure)) s2) by done.
    unfold put_thread. rewrite (bind_Ok _ _ s2 s2 s2) by done. unfold modify, s2, s1. destruct s.
    unfold set_threads. simpl. by rewrite !insert_insert_eq.
  - rewrite (bind_Ok _ _ s tt s1).
    + rewrite (bind_Ok _ _ _ _ _ (get_thread_Ok _ _ _ Ht1)). by rewrite (bind_Ok _ _ s1 th2 s1) by done.
    + rewrite (bind_Ok _ _ _ _ _ (get_thread_Ok _ _ _ Ht)). by rewrite (bind_Ok _ _ s (Some th1) s) by done.
Qed.

End Spawn.

(** A concrete machine: one kind of interpreter, queues as ring buffers.  The
    root thread spawns a thread for a future and awaits the future. *)
#[local] Instance witness_fifo : FIFO (Queue positive) positive := @ring_fifo P32 positive _ 1%positive 1%positive.

Definition one_interpreter (_ : unit) (closure : word unit) : list (word unit) := [closure].
Definition root_frame : Frame unit := mkFrame (UserWorker tt) [].

Definition script_await : list (list (user_call unit) * user_end unit) :=
  [([], EResult CONTINUE);
   ([CSetArgs [WClosure (WConcreteCode (UserWorker tt)) []]], EPrimitive Future_concur);
   ([], EResult CONTINUE);
   ([CSetArgs [WTransient 1]], EPrimitive Future_await);
   ([], EResult CONTINUE)].

Definition boot_state : option (VM unit (Queue positive)) :=
  match @boot P32 unit _ _ root_frame (@init_vm P32 unit _ _) with Ok _ s => Some s | _ => None end.

Definition script_state (script : list (list (user_call unit) * user_end unit)) : option (phase * VM unit (Queue positive)) :=
  s ← boot_state; @run_turns P32 unit _ _ one_interpreter script Idle s.

(** The root thread makes a hole, spawns a thread and awaits the hole's future. *)
Definition script_hole : list (list (user_call unit) * user_end unit) :=
  [([], EResult CONTINUE);
   ([], EPrimitive Hole_hole); ([], EResult CONTINUE);
   ([CSetArgs [WTransient 1]], EPrimitive Hole_future); ([], EResult CONTINUE);
   ([CSetArgs [WClosure (WConcreteCode (UserWorker tt)) []]], EPrimitive Future_concur); ([], EResult CONTINUE);
   ([CSetArgs [WTransient 2]], EPrimitive Future_await); ([], EResult CONTINUE);
   ([], EResult CONTINUE)].

Lemma script_reachable script p s :
  script_state script = Some (p, s) -> @reachable P32 unit _ _ one_interpreter root_frame p s.
Proof.
  intros E. unfold script_state in E. destruct boot_state as [s0 |] eqn:E0; [| done].
  exists 1%positive, s0. split; [| by eapply run_turns_steps].
  unfold boot_state in E0. destruct (boot _ _) as [t s1 | |] eqn:Eb; [| done ..].
  vm_compute in Eb. injection Eb as <- _. by injection E0 as ->.
Qed.

(** ** Properties *)

(** C13. No wakeup is lost and no thread is scheduled twice.  In every state
    reachable from the boot state, for any interpreters, the run queue has no
    duplicates and each thread is exactly where its state says: a terminated
    one nowhere; a runnable one on the processor or in the run queue, unless
    it is suspended; a blocked one in the wait queue of one future, the one it
    blocks on, which is still unbound, and in no other queue. *)
Theorem no_lost_wakeups `{Platform} {I Q : Type} `{!FIFO Q positive}
    (interpreter_frame : I -> word I -> list (word I)) (linker : Frame I) (p : phase) (s : VM I Q) :
  1 <= fifo_cap -> reachable interpreter_frame linker p s ->
  let ready := fifo_list (vm_queue s) in
  let waits t a := exists wq, vm_transients s !! a = Some (Future (Some wq)) /\ t ∈ fifo_list wq in
  NoDup ready /\
  forall t th, vm_threads s !! t = Some th ->
    match t_state th with
    | TERMINATED => running p s <> Some t /\ t ∉ ready /\ forall a, ~ waits t a
    | RUNNABLE =>
        (forall a, ~ waits t a) /\
        (if t_suspended th then running p s <> Some t /\ t ∉ ready
         else (running p s = Some t <-> t ∉ ready))
    | BLOCKED =>
        running p s <> Some t /\ t ∉ ready /\
        exists a, t_future th = Some a /\ waits t a /\ forall b, waits t b -> b = a
    end.
Proof.
  intros Hcap Hr ready waits. pose proof (reachable_sched _ _ _ _ Hcap Hr) as (Hi & _ & _).
  split; [apply Hi |]. intros t th Ht. pose proof (views_lookup _ _ _ Ht) as Hv. unfold sview in Hv.
  assert (Hw : forall a, waits t a -> t_state th = BLOCKED /\ t_future th = Some a).
  { intros a (wq & Ha & Hin). apply (si_wait _ _ _ _ Hi) in Ha as (_ & _ & Ha). destruct (Ha t Hin). by simplify_eq. }
  assert (Hq : t ∈ ready -> t_state th = RUNNABLE /\ t_suspended th = false).
  { intros Hin. destruct (ready_view Hi t Hin). by simplify_eq. }
  assert (Hrun : running p s = Some t -> t_state th = RUNNABLE /\ t_suspended th = false).
  { intros Hc. destruct (si_running _ _ _ _ Hi t Hc). by simplify_eq. }
  destruct (t_state th) eqn:Est.
  - split_and!; [naive_solver .. |]. destruct (si_blocked _ _ _ _ Hi _ _ _ Hv) as (a & wq & Ef & Ha & Hin).
    exists a. split_and!; [done | by exists wq |]. intros b Hb. destruct (Hw b Hb). congruence.
  - split; [naive_solver |]. destruct (t_suspended th) eqn:Esu; [naive_solver |]. split.
    + intros Hc. by apply (running_not_ready Hi).
    + intros Hn. destruct (decide (running p s = Some t)) as [| Hne]; [done |].
      destruct Hn. apply (si_ready _ _ _ _ Hi). split; [by eexists | done].
  - split_and!; naive_solver.
Qed.

(** In the example the root thread is blocked on the future and the new thread
    is ready. *)
Lemma no_lost_wakeups_witness :
  exists p s, script_state script_await = Some (p, s) /\ fifo_list (vm_queue s) = [2%positive] /\
    (t_state <$> vm_threads s !! 1%positive) = Some BLOCKED /\ NoDup (fifo_list (vm_queue s)).
Proof.
  destruct (script_state script_await) as [[p s] |] eqn:E; [| by vm_compute in E].
  pose proof (script_reachable _ _ _ E) as Hr. exists p, s. split; [reflexivity |].
  split_and!; [by vm_compute in E; injection E as <- <- .. |].
  eapply (@no_lost_wakeups P32 unit _ _ one_interpreter root_frame p s); [by vm_compute | exact Hr].
Defined.

(** C27. In every reachable state every word whose transient exists can be
    dereferenced: the chain of bound transients is finite, at most as long as
    there are transients, and ends in a value or in an unbound transient. *)
Theorem deref_total `{Platform} {I Q : Type} `{!FIFO Q positive}
    (interpreter_frame : I -> word I -> list (word I)) (linker : Frame I) (p : phase) (s : VM I Q) (w : word I) :
  1 <= fifo_cap -> reachable interpreter_frame linker p s ->
  (forall a, w = WTransient a -> is_Some (vm_transients s !! a)) ->
  exists r, Deref w s = Ok r s /\
    forall a, r = WTransient a -> exists x, vm_transients s !! a = Some x /\ is_ref x = false.
Proof.
  intros Hcap Hr Hw. pose proof (reachable_sched _ _ _ _ Hcap Hr) as (Hi & _ & _).
  assert (Hd : exists n r, derefs (vm_transients s) n w r).
  { destruct w as [| | a | | | | |]; try (by exists 0%nat; eexists; constructor).
    apply (si_acyclic _ _ _ _ Hi). by apply Hw. }
  destruct Hd as (n & r & Hd). exists r. split; [by eapply Deref_Ok |].
  intros a ->. by eapply derefs_result_unbound.
Qed.

Lemma deref_total_witness :
  exists p s r, script_state script_await = Some (p, s) /\ Deref (WTransient 1) s = Ok r s /\ r = WTransient 1.
Proof.
  destruct (script_state script_await) as [[p s] |] eqn:E; [| by vm_compute in E].
  pose proof (script_reachable _ _ _ E) as Hr. exists p, s, (WTransient 1). split; [reflexivity |].
  destruct (@deref_total P32 unit _ _ one_interpreter root_frame p s (WTransient 1)) as (r & Er & _); [by vm_compute | exact Hr | |].
  - intros a [= <-]. vm_compute in E. injection E as <- <-. by eexists.
  - split; [| done]. rewrite Er. f_equal. vm_compute in E. injection E as <- <-. vm_compute in Er. by injection Er.
Defined.

(** C28. Filling a hole.  If the value is the hole itself or its own future the
    hole is left alone and the result is false; otherwise the hole and its
    future are both bound to the dereferenced value, every thread waiting on
    the future becomes runnable, those not suspended enter the run queue in
    the order in which they blocked, and the invariant holds again. *)
Theorem hole_fill_correct `{Platform} {I Q : Type} `{!FIFO Q positive}
    (cur : option positive) (k : Z) (s : VM I Q) (a : positive) (ho : option positive) (w r : word I) :
  inv cur k s -> 0 <= k -> vm_transients s !! a = Some (Hole ho) ->
  (forall f, ho = Some f -> exists wo, vm_transients s !! f = Some (Future wo)) ->
  Deref w s = Ok r s ->
  if match r with WTransient b => bool_decide (b = a \/ ho = Some b) | _ => false end
  then Hole_Fill a w s = Ok false s
  else exists s', Hole_Fill a w s = Ok true s' /\ inv cur k s' /\
         Deref (WTransient a) s' = Ok r s' /\
         (forall f, ho = Some f -> Deref (WTransient f) s' = Ok r s') /\
         fifo_list (vm_queue s') = fifo_list (vm_queue s) ++ awake (vm_threads s) (waiting s ho) /\
         vm_threads s' = wake_list (vm_threads s) (waiting s ho).
Proof.
  intros Hinv Hk Ha Hf Hw.
  assert (Hd : exists n, derefs (vm_transients s) n w r).
  { unfold Deref, bind, get, lift in Hw. destruct (deref _ _ _) as [r' |] eqn:E; [| done].
    injection Hw as ->. by eapply deref_inv. }
  destruct Hd as [n Hd].
  assert (Hcase : (r = WTransient a \/ WTransient <$> ho = Some r) \/
    (r <> WTransient a /\ (forall f, ho = Some f -> r <> WTransient f))).
  { destruct r as [| | b | | | | |]; try (right; split; [done | by intros]).
    destruct (decide (b = a)) as [-> |]; [by left; left |].
    destruct (decide (ho = Some b)) as [-> |]; [by left; right |]. right. split; congruence. }
  destruct Hcase as [Hc | [Hra Hrf]].
  - assert (Et : match r with WTransient b => bool_decide (b = a \/ ho = Some b) | _ => false end = true).
    { destruct Hc as [-> | Hc]; [apply bool_decide_eq_true; by left |].
      destruct ho as [f |]; [injection Hc as <-; apply bool_decide_eq_true; by right | done]. }
    rewrite Et. unfold Hole_Fill. rewrite (bind_Ok _ _ _ _ _ (WordToTransient_Ok _ _ _ _ Hd)). case_bool_decide as Eq; [done |].
    rewrite (bind_Ok _ _ _ _ _ (Hole_associated_Ok _ _ _ Ha Hf)). destruct Hc as [-> | Hc]; [done |].
    destruct ho as [f |]; [| done]. injection Hc as <-. by rewrite bool_decide_eq_true_2.
  - assert (Et : match r with WTransient b => bool_decide (b = a \/ ho = Some b) | _ => false end = false).
    { destruct r as [| | b | | | | |]; try done. apply bool_decide_eq_false. intros [-> | ->]; [done |].
      by apply (Hrf b). }
    rewrite Et. destruct (Hole_Fill_Ok _ _ _ _ _ _ _ _ Hinv Hk Ha Hf Hd Hra Hrf) as (q & T & E & Eq & ET).
    eexists. split; [exact E |]. pose proof (Hole_Fill_keeps cur k a w Hk s Hinv) as Hkeep.
    apply (wp_Ok _ _ _ _ _ _ Hkeep) in E. split; [exact E |].
    assert (Hrr : forall f x, (r = WTransient f -> vm_transients s !! f = Some x -> is_ref x = false)).
    { intros f x -> Hx. destruct (derefs_result_unbound _ _ _ _ Hd) as (y & Hy & Hny). by simplify_eq. }
    assert (Hr0 : derefs T 0 r r).
    { pose proof (derefs_result _ _ _ _ Hd) as H0. rewrite ET. destruct ho as [f |].
      - destruct (Hf f eq_refl) as [wo Ef]. assert (f <> a) by congruence.
        apply derefs_insert_other; [apply derefs_insert_other; [done | | by apply Hrf] | | done].
        + intros y Hy. by simplify_eq.
        + intros y. rewrite lookup_insert_ne by done. intros Hy. by simplify_eq.
      - apply derefs_insert_other; [done | | done]. intros y Hy. by simplify_eq. }
    split_and!; [| | exact Eq | done].
    + apply (Deref_Ok _ 1). simpl. eapply derefs_ref; [| exact Hr0]. rewrite ET. apply lookup_insert_eq.
    + intros f ->. apply (Deref_Ok _ 1). simpl. eapply derefs_ref; [| exact Hr0]. rewrite ET.
      destruct (Hf f eq_refl) as [wo Ef]. rewrite lookup_insert_ne by congruence. apply lookup_insert_eq.
Qed.

Lemma hole_fill_correct_witness :
  exists p s s', script_state script_hole = Some (p, s) /\ fifo_list (vm_queue s) = [] /\
    Hole_Fill 1 (WInt 42) s = Ok true s' /\ fifo_list (vm_queue s') = [1%positive].
Proof.
  destruct (script_state script_hole) as [[p s] |] eqn:E; [| by vm_compute in E].
  pose proof (script_reachable _ _ _ E) as Hr. exists p, s.
  assert (Hi : @inv unit _ _ (running p s) 0 s) by (eapply (@reachable_sched P32 unit _ _ one_interpreter); [by vm_compute | exact Hr]).
  vm_compute in E. injection E as <- <-.
  match type of Hi with inv _ _ ?x => set (s1 := x) in * end.
  destruct (@hole_fill_correct P32 unit _ _ (running Running s1) 0 s1 1 (Some 2%positive) (WInt 42) (WInt 42)) as (s' & Ef & _ & _ & _ & Eq & _).
  - exact Hi.
  - done.
  - by vm_compute.
  - intros f [= <-]. by eexists.
  - by vm_compute.
  - exists s'. split_and!; [reflexivity | by vm_compute | exact Ef | rewrite Eq; by vm_compute].
Defined.

(** C29. Raising an exception.  On a stack whose trying handlers belong to its
    frames, DoRaise marks the innermost trying handler as handling with the
    package of exception and backtrace, drops the handlers above it, pops the
    frames above the handler's frame and no other, adds the traceable frames
    from the top down to the handler's frame to the backtrace (without the
    top one on a reraise), and runs that frame's handler; the remaining
    handlers are again nested in the remaining stack. *)
Theorem raise_reaches_handler `{Platform} {I Q : Type} `{!FIFO Q positive}
    (interpreter_frame : I -> word I -> list (word I)) cs e (reraise : bool) (s : VM I Q) (t : positive) (th : Thread I) l :
  vm_current s = Some t -> vm_threads s !! t = Some th ->
  handlers_nested (ts_frames (vm_stack s)) (t_handlers th) ->
  Exists (fun h => h_state h = TRYING) (t_handlers th) ->
  vm_backtraces s !! vm_backtrace s = Some l ->
  let package := WTuple [vm_data s; WBacktrace (vm_backtrace s)] in
  exists done_hs h hs above f below s',
    t_handlers th = done_hs ++ h :: hs /\ Forall (fun h => h_state h = HANDLING) done_hs /\ h_state h = TRYING /\
    ts_frames (vm_stack s) = above ++ f :: below /\ h_frame h = frame_index (f :: below) /\
    DoRaise interpreter_frame cs e reraise s = worker_Handle interpreter_frame cs e f (h_data h) package s' /\
    ts_frames (vm_stack s') = f :: below /\
    (t_handlers <$> vm_threads s' !! t) = Some (mkHandler (h_frame h) HANDLING package :: hs) /\
    handlers_nested (f :: below) (mkHandler (h_frame h) HANDLING package :: hs) /\
    vm_backtraces s' !! vm_backtrace s' = Some (l ++ traced reraise (above ++ [f])).
Proof.
  intros Hcur Hth Hn Hex Hl package.
  destruct (activate_Ok _ _ package Hn Hex) as (dh & h & hs & fs & Eh & Hd & Ht & [above Es] & Hne & Hf & Hn' & Ha).
  destruct fs as [| f below]; [done |].
  set (s1 := set_threads (<[t := set_handlers th (mkHandler (h_frame h) HANDLING package :: hs) (t_handlers_size th)]> (vm_threads s)) s).
  eexists dh, h, hs, above, f, below, _. split_and!; [done .. | | | | | ].
  - unfold DoRaise, current, get_thread, put_thread. rewrite (bind_Ok _ _ s s s) by done.
    rewrite (bind_Ok _ _ s t s) by (unfold bind, get, lift; by rewrite Hcur).
    rewrite (bind_Ok _ _ s th s) by (unfold bind, get, lift; by rewrite Hth).
    fold package. unfold ActivateNextHandler. rewrite Ha. simpl.
    rewrite (bind_Ok _ _ s (h_frame h, h_data h, set_handlers th (mkHandler (h_frame h) HANDLING package :: hs) (t_handlers_size th)) s) by done.
    rewrite (bind_Ok _ _ s tt s1) by done.
    rewrite (bind_Ok _ _ s1 tt s1).
    2: { unfold assert. rewrite (proj2 (Z.leb_le _ _)); [done |]. rewrite Hf. unfold GetTop, frame_index.
         rewrite Es, frames_size_app. pose proof (frames_size_nonneg above). lia. }
    erewrite (bind_Ok _ _ s1); [reflexivity |]. rewrite Hf. apply (unroll_Ok _ above _ _ _ _ _ l); [done | | done].
    rewrite Es, length_app. lia.
  - done.
  - simpl. by rewrite lookup_insert_eq.
  - by apply nested_handling.
  - simpl. rewrite lookup_insert_eq. by destruct reraise.
Qed.

(** In the example the root thread raises with two frames above its handler. *)
Definition raising_state : VM unit (Queue positive) :=
  let frames := [mkFrame (UserWorker tt) [WInt 1]; mkFrame (PrimitiveWorker Future_await) []; emptyTask] in
  {| vm_threads := {[ 1%positive := @Thread_New P32 unit [] ]}; vm_transients := ∅;
     vm_backtraces := {[ 1%positive := [] ]}; vm_queue := fifo_new 8; vm_current := Some 1%positive;
     vm_stack := {| ts_frames := frames; ts_size := 20 |}; vm_args := []; vm_data := WInt 7;
     vm_backtrace := 1%positive; vm_status := 0; vm_uncaught := WInt 0 |}.

Lemma raise_reaches_handler_witness :
  exists f s', f = emptyTask /\
    @DoRaise P32 unit _ _ one_interpreter [] (EResult RAISE) false raising_state =
      @worker_Handle P32 unit _ _ one_interpreter [] (EResult RAISE) f (WInt 0) (WTuple [WInt 7; WBacktrace 1]) s'.
Proof.
  destruct (@raise_reaches_handler P32 unit _ _ one_interpreter [] (EResult RAISE) false raising_state 1
              (@Thread_New P32 unit []) []) as (dh & h & hs & above & f & below & s' & Eh & Hd & Ht & Es & Hf & E & _).
  - done.
  - done.
  - apply (nested_trying _ [emptyTask]); [done | by exists [mkFrame (UserWorker tt) [WInt 1]; mkFrame (PrimitiveWorker Future_await) []] | done .. | apply nested_nil].
  - by apply Exists_cons_hd.
  - done.
  - exists f, s'.
    assert (Hh : h = mkHandler 0 TRYING (WInt 0)).
    { destruct dh as [| d dh]; simpl in Eh; [by injection Eh | by injection Eh as _ Eh; destruct dh]. }
    subst h. split; [| exact E]. simpl in Hf. 
    destruct above as [| ? [| ? [| ? [| ? ?]]]]; simpl in Es; injection Es; intros; simplify_eq; done.
Defined.

(** A thread that leaves the processor with at most fifteen arguments, or
    one, gets its stack and its arguments back when it is switched to again,
    whatever happened to the rest of the machine in between, as long as nobody
    touched the thread's own stack and arguments.  With the sixteen arguments
    that SetNArgs admits, flushing fails its assertion. *)
Theorem flush_switch_roundtrip `{Platform} {I Q : Type} `{!FIFO Q positive} (s : VM I Q) (t : positive) (th : Thread I) :
  vm_current s = Some t -> vm_threads s !! t = Some th ->
  if nargs_ok (vm_args s) then
    exists s1 th1, FlushThread s = Ok tt s1 /\ vm_threads s1 !! t = Some th1 /\ sview th1 = sview th /\
      forall (s2 : VM I Q) th2, vm_threads s2 !! t = Some th2 -> vm_current s2 = Some t ->
        t_state th2 = RUNNABLE -> t_suspended th2 = false ->
        t_stack th2 = t_stack th1 -> t_args th2 = t_args th1 ->
        SwitchToThread s2 = Ok tt (set_args (vm_args s) (set_vmstack (vm_stack s) s2))
  else FlushThread s = Stuck /\ 16 <= zlen (vm_args s).
Proof.
  intros Hc Ht. destruct (nargs_ok (vm_args s)) eqn:En.
  - rewrite (FlushThread_Ok _ _ _ Hc Ht En). eexists _, _. split; [reflexivity |]. simpl. rewrite lookup_insert_eq.
    split; [reflexivity |]. split; [done |]. intros s2 th2 Ht2 Hc2 Hs2 Hu2 Est Ear. simpl in Est, Ear.
    unfold SwitchToThread. rewrite (bind_Ok _ _ _ _ _ (current_Ok _ _ Hc2)), (bind_Ok _ _ _ _ _ (get_thread_Ok _ _ _ Ht2)).
    rewrite (bind_Ok _ _ s2 tt s2) by (unfold assert; by rewrite (bool_decide_eq_true_2 _ Hs2)).
    rewrite (bind_Ok _ _ s2 tt s2) by (unfold assert; by rewrite Hu2).
    rewrite Est, Ear. rewrite (bind_Ok _ _ s2 tt (set_vmstack (vm_stack s) s2)) by done.
    by rewrite (bind_Ok _ _ (set_vmstack (vm_stack s) s2) tt (set_vmstack (vm_stack s) s2)) by (unfold assert; by rewrite En).
  - split.
    { unfold FlushThread. rewrite (bind_Ok _ _ s s s) by done.
      rewrite (bind_Ok _ _ _ _ _ (current_Ok _ _ Hc)), (bind_Ok _ _ _ _ _ (get_thread_Ok _ _ _ Ht)).
      unfold bind, assert. by rewrite En. }
    unfold nargs_ok, maxArgs in En.
    apply orb_false_iff in En as [_ En]. by apply Z.ltb_ge in En.
Qed.

Lemma flush_switch_roundtrip_witness :
  exists s1, @FlushThread unit (Queue positive) (set_args [WInt 3; WInt 4] raising_state) = Ok tt s1.
Proof.
  pose proof (@flush_switch_roundtrip P32 unit (Queue positive) witness_fifo (set_args [WInt 3; WInt 4] raising_state) 1
                (@Thread_New P32 unit []) eq_refl eq_refl) as (s1 & th1 & E & _).
  exists s1. exact E.
Defined.

(** Requesting a by-need future makes it an ordinary future that the
    running thread waits on, and creates one new thread, at the end of the run
    queue, whose stack calls the closure and then binds that future; nothing
    else is scheduled. *)
Theorem byneed_request `{Platform} {I Q : Type} `{!FIFO Q positive}
    (interpreter_frame : I -> word I -> list (word I)) cs e (s : VM I Q) (t a : positive) (closure : word I) (k : Z) :
  inv (Some t) (k + 1) s -> 0 <= k -> nargs_ok (vm_args s) = true ->
  vm_data s = WTransient a -> vm_transients s !! a = Some (Byneed closure) ->
  let u := new_key (vm_threads s) in
  exists s' wq tu, interpret interpreter_frame cs e REQUEST s = Ok Idle s' /\ inv None k s' /\
    vm_transients s' = <[a := Future (Some wq)]> (vm_transients s) /\ fifo_list wq = [t] /\
    fifo_list (vm_queue s') = fifo_list (vm_queue s) ++ [u] /\
    vm_threads s !! u = None /\ vm_threads s' !! u = Some tu /\
    ts_frames (t_stack tu) = [mkFrame PushCallWorker [closure]; mkFrame BindFutureWorker [WTransient a]; emptyTask] /\
    (forall v, v <> t -> v <> u -> vm_threads s' !! v = vm_threads s !! v).
Proof.
  intros Hinv Hk Hn Hd Ha u. pose proof Hinv as (Hi & Hc & Hcap).
  pose proof (interpret_ok interpreter_frame t k cs e REQUEST s Hk Hinv) as Hok.
  assert (Hu : vm_threads s !! u = None) by apply new_key_fresh.
  destruct (si_running _ _ _ _ Hi t eq_refl) as [g Hg]. destruct (views_inv _ _ _ Hg) as (th & Hth & _).
  assert (Htu : t <> u) by congruence.
  destruct (NewThread_Ok t k s) as (q & E1 & Hq & Elq); [done .. |]. fold u in E1.
  set (s1 := set_queue q _) in E1.
  assert (E2 := spawn_frames_Ok s1 u a closure (lookup_insert_eq _ _ _)). set (s2 := set_threads _ s1) in E2.
  assert (E3 : Become_Future a s2 = Ok tt (set_transients (<[a := Future None]> (vm_transients s)) s2)).
  { unfold Become_Future. by rewrite (bind_Ok _ _ _ _ _ (get_transient_Ok s2 a (Byneed closure) Ha)). }
  set (s3 := set_transients _ s2) in E3.
  assert (Hth3 : vm_threads s3 !! t = Some th) by (simpl; by rewrite !lookup_insert_ne).
  destruct (block_on_new_Ok s3 t th a) as (wq & s' & E4 & Ewq & Eq4 & Et4 & Ev4); try done.
  { by apply Hc. } { apply lookup_insert_eq. } { lia. }
  assert (E : interpret interpreter_frame cs e REQUEST s = Ok Idle s').
  { simpl. unfold interpret_request. rewrite (bind_Ok _ _ s s s), Hd by done.
    rewrite (bind_Ok _ _ _ _ _ (WordToTransient_Ok s 0 _ _ (derefs_unbound _ _ _ Ha eq_refl))).
    rewrite (bind_Ok _ _ s a s), (bind_Ok _ _ _ _ _ (get_transient_Ok _ _ _ Ha)) by done.
    rewrite (bind_Ok _ _ _ _ _ E1), (bind_bind_Ok _ _ _ _ _ _ E2), (bind_Ok _ _ _ _ _ E3). exact E4. }
  exists s', wq, (spawned a closure). split_and!; [exact E | | | done | | done | | done |].
  - by apply (wp_Ok _ _ _ _ _ _ Hok) in E.
  - rewrite Et4. simpl. by rewrite insert_insert_eq.
  - by rewrite Eq4.
  - rewrite Ev4 by congruence. apply lookup_insert_eq.
  - intros v Hv Hvu. rewrite Ev4 by done. simpl. by rewrite !lookup_insert_ne.
Qed.

(** The root thread makes a by-need future. *)
Definition script_byneed : list (list (user_call unit) * user_end unit) :=
  [([], EResult CONTINUE);
   ([CSetArgs [WClosure (WConcreteCode (UserWorker tt)) []]], EPrimitive Future_byneed); ([], EResult CONTINUE);
   ([CSetArgs [WTransient 1]], EPrimitive Future_await)].

Lemma byneed_request_witness :
  exists p s s', script_state script_byneed = Some (p, s) /\ p = Interpret REQUEST /\
    @interpret P32 unit _ _ one_interpreter [] (EResult CONTINUE) REQUEST s = Ok Idle s' /\
    fifo_list (vm_queue s') = [2%positive].
Proof.
  destruct (script_state script_byneed) as [[p s] |] eqn:E; [| by vm_compute in E].
  pose proof (script_reachable _ _ _ E) as Hr. exists p, s.
  assert (Hi : @inv unit _ _ (running p s) 0 s) by (eapply (@reachable_sched P32 unit _ _ one_interpreter); [by vm_compute | exact Hr]).
  vm_compute in E. injection E as <- <-.
  match type of Hi with inv _ _ ?x => set (s1 := x) in * end.
  assert (Hi1 : inv (Some 1%positive) (0 + 1) s1) by (destruct Hi as (Hi & Hc & _); split_and!; [exact Hi | exact Hc | by vm_compute]).
  destruct (@byneed_request P32 unit _ _ one_interpreter [] (EResult CONTINUE) s1 1 1
              (WClosure (WConcreteCode (UserWorker tt)) []) 0 Hi1) as (s' & wq & tu & Ei & _ & _ & _ & Eq & _).
  - done.
  - by vm_compute.
  - by vm_compute.
  - by vm_compute.
  - exists s'. split_and!; [reflexivity | done | exact Ei | rewrite Eq; by vm_compute].
Defined.
