(* ===== verification/OutputStream.v ===== *)
(** * Pickle output: streams and the output buffer (seam/generic/Pickler.cc)

    [StringOutputStream] and [FileOutputStream] are the two kinds of
    [OutputStream]; [OutputBuffer] collects the pickle and the table of local
    variables before it is written.  A [u_char *] into a chunk is a list of
    bytes and an index, so an access outside the chunk is [None], as is a
    failed assertion.  The compressed file is a parameter. *)

From S2P Require Import Prelude Config HeaderOp PointerOp Block.

Definition u_char (z : Z) : Z := z mod 256.

(** [u_int] values of at most 31 bits. *)
Definition CanPickle `{Platform} (i : Z) : bool :=
  Z.land i (u_int (Z.shiftl 1 INT_PRECISION) - 1) =? i.

(** ** FinalizationSet: a weak dictionary with increasing keys *)

Record FinalizationSet (V : Type) := mkFinalizationSet {
  fs_keyCounter : Z; fs_weakDictionary : gmap Z V
}.
Arguments mkFinalizationSet {V} _ _.
Arguments fs_keyCounter {V} _.
Arguments fs_weakDictionary {V} _.

Definition FinalizationSet_New {V} : FinalizationSet V := mkFinalizationSet 0 ∅.

Definition Register `{Platform} {V} (f : FinalizationSet V) (value : V) : FinalizationSet V * Z :=
  let key := fs_keyCounter f in
  (mkFinalizationSet (u_int (key + 1)) (<[key := value]> (fs_weakDictionary f)), key).

Definition Unregister {V} (f : FinalizationSet V) (key : Z) : FinalizationSet V :=
  mkFinalizationSet (fs_keyCounter f) (delete key (fs_weakDictionary f)).

(** ** Encoding of an unsigned integer: the loop shared by all streams *)

Section PutUInt.
Context {S : Type} (put : S -> Z -> option S).

(** [while (i >= 0x80) { put(i & 0x7F | 0x80); i >>= 7; } put(i);] *)
Fixpoint put_uint_loop (fuel : nat) (s : S) (i : Z) : option S :=
  if 0x80 <=? i then
    match fuel with
    | O => None
    | Datatypes.S fuel =>
        s ← put s (u_char (Z.lor (Z.land i 0x7F) 0x80)); put_uint_loop fuel s (Z.shiftr i 7)
    end
  else put s (u_char i).

End PutUInt.

Section Streams.
Context `{Platform} (undef : Z).

Definition fresh (n : Z) : list Z := replicate (Z.to_nat n) undef.

(** ** Strings (generic/String.hh) *)

Definition String_New (len : Z) : Chunk := AllocChunk len (fresh len).

Definition String_NewFrom (str : list Z) (len : Z) : option Chunk :=
  bytes ← blit str 0 (fresh len) 0 len; Some (AllocChunk len bytes).

(** Overwriting the bytes of a chunk in place. *)
Definition set_bytes (c : Chunk) (bytes : list Z) : Chunk :=
  {| c_header := c_header c; c_size := c_size c; c_bytes := bytes |}.

Definition ExportC (s : Chunk) : option Chunk :=
  let n := c_size s in
  let p := String_New (u_int (n + 1)) in
  bytes ← blit (c_bytes s) 0 (c_bytes p) 0 n;
  bytes ← aset bytes n 0;
  Some (set_bytes p bytes).

(** ** StringOutputStream *)

Record StringOutputStream := mkSOS { so_pos : Z; so_size : Z; so_string : Chunk }.

Definition SOS_INITIAL_SIZE : Z := 256.

Definition SOS_New : StringOutputStream :=
  {| so_pos := 0; so_size := SOS_INITIAL_SIZE; so_string := String_New SOS_INITIAL_SIZE |}.

Definition SOS_Enlarge (s : StringOutputStream) : option StringOutputStream :=
  let newSize := Z.shiftr (u_int (so_size s * 3)) 1 in
  let newString := String_New newSize in
  bytes ← blit (c_bytes (so_string s)) 0 (c_bytes newString) 0 (so_pos s);
  Some {| so_pos := so_pos s; so_size := newSize; so_string := set_bytes newString bytes |}.

Definition SOS_PutByte (s : StringOutputStream) (byte : Z) : option StringOutputStream :=
  let pos := so_pos s in
  let size := so_size s in
  c ← aset (c_bytes (so_string s)) pos byte;
  let pos := u_int (pos + 1) in
  let s := {| so_pos := pos; so_size := so_size s; so_string := set_bytes (so_string s) c |} in
  if pos =? size then SOS_Enlarge s else Some s.

(** [while (pos + n >= GetSize()) Enlarge();] *)
Fixpoint SOS_Enlarge_loop (fuel : nat) (pos n : Z) (s : StringOutputStream)
    : option StringOutputStream :=
  if so_size s <=? u_int (pos + n) then
    match fuel with
    | O => None
    | Datatypes.S fuel => s ← SOS_Enlarge s; SOS_Enlarge_loop fuel pos n s
    end
  else Some s.

Definition SOS_PutBytes (s : StringOutputStream) (buf : list Z) (size : Z)
    : option StringOutputStream :=
  let pos := so_pos s in
  s ← SOS_Enlarge_loop (Z.to_nat (pos + size)) pos size s;
  c ← blit buf 0 (c_bytes (so_string s)) pos size;
  Some {| so_pos := u_int (pos + size); so_size := so_size s;
          so_string := set_bytes (so_string s) c |}.

Definition SOS_PutChunk (s : StringOutputStream) (c : Chunk) : option StringOutputStream :=
  let cSize := c_size c in
  let pos := so_pos s in
  s ← SOS_Enlarge_loop (Z.to_nat (pos + cSize)) pos cSize s;
  bytes ← blit (c_bytes c) 0 (c_bytes (so_string s)) pos cSize;
  Some {| so_pos := u_int (pos + cSize); so_size := so_size s;
          so_string := set_bytes (so_string s) bytes |}.

(** The size field of the string's header, which counts words, is set to the
    number of bytes written; the byte size is left. *)
Definition SOS_Close (s : StringOutputStream) : Chunk :=
  let str := so_string s in
  {| c_header := EncodeSize (c_header str) (so_pos s); c_size := c_size str;
     c_bytes := c_bytes str |}.

(** ** FileOutputStream: the gzip file is a parameter *)

Context {F : Type} (gzputc : F -> Z -> F) (gzwrite : F -> list Z -> F) (gzclose : F -> F).

Record FileOutputStream := mkFOS { fo_file : F; fo_key : Z }.

Definition UINT_MAX : Z := 2 ^ 32 - 1.

Definition FOS_New (file : F) (fs : FinalizationSet F) : FileOutputStream * FinalizationSet F :=
  let '(fs, key) := Register fs file in ({| fo_file := file; fo_key := key |}, fs).

Definition FOS_PutByte (s : FileOutputStream) (byte : Z) : option FileOutputStream :=
  Some {| fo_file := gzputc (fo_file s) byte; fo_key := fo_key s |}.

Definition FOS_PutBytes (s : FileOutputStream) (buf : list Z) (size : Z) : option FileOutputStream :=
  if UINT_MAX <? size then None
  else if zlen buf <? size then None
  else Some {| fo_file := gzwrite (fo_file s) (ztake size buf); fo_key := fo_key s |}.

Definition FOS_PutChunk (s : FileOutputStream) (c : Chunk) : option FileOutputStream :=
  FOS_PutBytes s (c_bytes c) (c_size c).

Definition FOS_Close (s : FileOutputStream) (fs : FinalizationSet F) : F * FinalizationSet F :=
  (gzclose (fo_file s), Unregister fs (fo_key s)).

(** ** OutputStream: dispatch on the label *)

Inductive OutputStream :=
  | FILE_OUTPUT_STREAM (s : FileOutputStream)
  | STRING_OUTPUT_STREAM (s : StringOutputStream).

Definition PutByte (s : OutputStream) (byte : Z) : option OutputStream :=
  match s with
  | FILE_OUTPUT_STREAM s => FILE_OUTPUT_STREAM <$> FOS_PutByte s byte
  | STRING_OUTPUT_STREAM s => STRING_OUTPUT_STREAM <$> SOS_PutByte s byte
  end.

Definition PutChunk (s : OutputStream) (c : Chunk) : option OutputStream :=
  match s with
  | FILE_OUTPUT_STREAM s => FILE_OUTPUT_STREAM <$> FOS_PutChunk s c
  | STRING_OUTPUT_STREAM s => STRING_OUTPUT_STREAM <$> SOS_PutChunk s c
  end.

Definition PutBytes (s : OutputStream) (buf : list Z) (size : Z) : option OutputStream :=
  match s with
  | FILE_OUTPUT_STREAM s => FILE_OUTPUT_STREAM <$> FOS_PutBytes s buf size
  | STRING_OUTPUT_STREAM s => STRING_OUTPUT_STREAM <$> SOS_PutBytes s buf size
  end.

Definition PutUInt (s : OutputStream) (i : Z) : option OutputStream :=
  if CanPickle i then put_uint_loop PutByte 5 s i else None.

End Streams.

Arguments OutputStream : clear implicits.

(** ** OutputBuffer *)

Record OutputBuffer := mkOutputBuffer {
  ob_buffer : Chunk;
  ob_locals : Block Z;
  ob_pos : Z;
  ob_size : Z;
  ob_loc_count : Z;
  ob_loc_size : Z
}.

Section OutputBuffer.
Context `{Platform} (undef : Z).
Implicit Types (o : OutputBuffer) (b : Block Z).

Definition OB_initialSize : Z := 8192.
Definition OB_locInitialSize : Z := 64.

Definition OB_New : option OutputBuffer :=
  let locBuf := AllocMutableBlock undef MIN_DATA_LABEL (OB_locInitialSize * 2) in
  locBuf ← InitArg locBuf 0 0;
  locBuf ← InitArg locBuf 1 0;
  Some {| ob_buffer := AllocChunk OB_initialSize (fresh undef OB_initialSize);
          ob_locals := locBuf; ob_pos := 0; ob_size := OB_initialSize;
          ob_loc_count := 0; ob_loc_size := OB_locInitialSize * 2 |}.

Definition OB_Reset o : option OutputBuffer :=
  locBuf ← InitArg (ob_locals o) 0 0;
  locBuf ← InitArg locBuf 1 0;
  Some {| ob_buffer := ob_buffer o; ob_locals := locBuf; ob_pos := 0; ob_size := ob_size o;
          ob_loc_count := 0; ob_loc_size := ob_loc_size o |}.

(** *** Sorting the locals by their position in the buffer *)

Definition Swap b (i j : Z) : option (Block Z) :=
  v ← GetArg b (i * 2);
  l ← GetArg b (i * 2 + 1);
  vj ← GetArg b (j * 2);
  b ← InitArg b (i * 2) vj;
  lj ← GetArg b (j * 2 + 1);
  b ← InitArg b (i * 2 + 1) lj;
  b ← InitArg b (j * 2) v;
  InitArg b (j * 2 + 1) l.

(** [while (GetArg((++i)*2) < v);] *)
Fixpoint scan_up (fuel : nat) b (i v : Z) : option Z :=
  match fuel with
  | O => None
  | Datatypes.S fuel =>
      let i := i + 1 in
      x ← GetArg b (i * 2);
      if x <? v then scan_up fuel b i v else Some i
  end.

(** [while (v < GetArg((--j)*2)) if (j==l) break;] *)
Fixpoint scan_down (fuel : nat) b (j v l : Z) : option Z :=
  match fuel with
  | O => None
  | Datatypes.S fuel =>
      let j := j - 1 in
      x ← GetArg b (j * 2);
      if v <? x then if j =? l then Some j else scan_down fuel b j v l else Some j
  end.

Fixpoint partition_loop (fuel : nat) b (i j v l r : Z) : option (Block Z * Z) :=
  match fuel with
  | O => None
  | Datatypes.S fuel =>
      i ← scan_up (Z.to_nat (r - i)) b i v;
      j ← scan_down (Z.to_nat (j - l)) b j v l;
      if j <=? i then Some (b, i)
      else b ← Swap b i j; partition_loop fuel b i j v l r
  end.

Definition Partition b (l r : Z) : option (Block Z * Z) :=
  v ← GetArg b (r * 2);
  '(b, i) ← partition_loop (Z.to_nat (r - l + 1)) b (l - 1) r v l r;
  b ← Swap b i r;
  Some (b, i).

Fixpoint Sort (fuel : nat) b (l r : Z) : option (Block Z) :=
  if r <=? l then Some b
  else match fuel with
  | O => None
  | Datatypes.S fuel =>
      '(b, i) ← Partition b l r;
      b ← Sort fuel b l (i - 1);
      Sort fuel b (i + 1) r
  end.

(** *** Growing *)

Definition ResizeBuffer o : option OutputBuffer :=
  let size := ob_size o in
  let newSize := Z.shiftr (u_int (size * 3)) 1 in
  let newBuf := AllocChunk newSize (fresh undef newSize) in
  bytes ← blit (c_bytes (ob_buffer o)) 0 (c_bytes newBuf) 0 (ob_pos o);
  Some {| ob_buffer := set_bytes newBuf bytes; ob_locals := ob_locals o; ob_pos := ob_pos o;
          ob_size := newSize; ob_loc_count := ob_loc_count o; ob_loc_size := ob_loc_size o |}.

(** [for (u_int i=pos+1; i--;)] copies the pairs [pos] down to 0. *)
Fixpoint copy_locals (i : nat) (buf newBuf : Block Z) : option (Block Z) :=
  match i with
  | O => Some newBuf
  | Datatypes.S i =>
      let k := Z.of_nat i in
      v ← GetArg buf (k * 2);
      newBuf ← InitArg newBuf (k * 2) v;
      l ← GetArg buf (k * 2 + 1);
      newBuf ← InitArg newBuf (k * 2 + 1) l;
      copy_locals i buf newBuf
  end.

Definition ResizeLocals o : option OutputBuffer :=
  let size := ob_loc_size o in
  let newSize := Z.shiftr (u_int (size * 3 * 2)) 1 in
  let pos := ob_loc_count o in
  let newBuf := AllocMutableBlock undef MIN_DATA_LABEL newSize in
  newBuf ← copy_locals (Z.to_nat (pos + 1)) (ob_locals o) newBuf;
  Some {| ob_buffer := ob_buffer o; ob_locals := newBuf; ob_pos := ob_pos o;
          ob_size := ob_size o; ob_loc_count := ob_loc_count o; ob_loc_size := newSize |}.

Definition OB_GetSize o : Z := ob_size o.
Definition OB_GetPos o : Z := ob_pos o.
Definition OB_GetBuffer o : Chunk := ob_buffer o.
Definition GetNoOfLocals o : Z := ob_loc_count o.

Definition GetLocals o : option (OutputBuffer * Block Z) :=
  let n := GetNoOfLocals o in
  if 0 <? n then
    b ← Sort (Z.to_nat n) (ob_locals o) 0 n;
    Some ({| ob_buffer := ob_buffer o; ob_locals := b; ob_pos := ob_pos o; ob_size := ob_size o;
             ob_loc_count := ob_loc_count o; ob_loc_size := ob_loc_size o |}, b)
  else Some (o, ob_locals o).

Definition set_buffer o (bytes : list Z) (pos : Z) : OutputBuffer :=
  {| ob_buffer := set_bytes (ob_buffer o) bytes; ob_locals := ob_locals o; ob_pos := pos;
     ob_size := ob_size o; ob_loc_count := ob_loc_count o; ob_loc_size := ob_loc_size o |}.

Definition OB_PutByte o (byte : Z) : option OutputBuffer :=
  let pos := ob_pos o in
  let size := ob_size o in
  o ← (if size <=? pos then ResizeBuffer o else Some o);
  c ← aset (c_bytes (ob_buffer o)) pos byte;
  Some (set_buffer o c (pos + 1)).

(** [while (pos + size >= GetSize()) ResizeBuffer();] *)
Fixpoint ResizeBuffer_loop (fuel : nat) (pos size : Z) o : option OutputBuffer :=
  if OB_GetSize o <=? u_int (pos + size) then
    match fuel with
    | O => None
    | Datatypes.S fuel => o ← ResizeBuffer o; ResizeBuffer_loop fuel pos size o
    end
  else Some o.

Definition OB_PutBytes o (c : Chunk) : option OutputBuffer :=
  let pos := ob_pos o in
  let size := c_size c in
  o ← ResizeBuffer_loop (Z.to_nat (pos + size)) pos size o;
  bytes ← blit (c_bytes c) 0 (c_bytes (ob_buffer o)) pos size;
  Some (set_buffer o bytes (pos + size)).

(** One [c[pos] = byte; pos++]. *)
Definition poke (s : list Z * Z) (byte : Z) : option (list Z * Z) :=
  let '(c, pos) := s in c ← aset c pos byte; Some (c, pos + 1).

Definition OB_PutUInt o (i : Z) : option OutputBuffer :=
  if CanPickle i then
    let pos := ob_pos o in
    let size := ob_size o in
    o ← (if size <=? u_int (pos + 5) then ResizeBuffer o else Some o);
    '(c, pos) ← put_uint_loop poke 5 (c_bytes (ob_buffer o), pos) i;
    Some (set_buffer o c pos)
  else None.

Definition PutLocal o (ref : Z) : option (OutputBuffer * Z) :=
  let lpos := ob_loc_count o in
  let lsize := ob_loc_size o in
  let lpos := lpos + 1 in
  o ← (if lsize <=? u_int (lpos * 2 + 1) then ResizeLocals o else Some o);
  buf ← InitArg (ob_locals o) (lpos * 2) ref;
  buf ← InitArg buf (lpos * 2 + 1) lpos;
  let o := {| ob_buffer := ob_buffer o; ob_locals := buf; ob_pos := ob_pos o; ob_size := ob_size o;
              ob_loc_count := ob_loc_count o; ob_loc_size := ob_loc_size o |} in
  o ← OB_PutUInt o lpos;
  Some ({| ob_buffer := ob_buffer o; ob_locals := ob_locals o; ob_pos := ob_pos o;
           ob_size := ob_size o; ob_loc_count := lpos; ob_loc_size := ob_loc_size o |}, lpos).

End OutputBuffer.

(** ** Encoding of unsigned integers *)

(** Seven bits a byte, least significant group first, the top bit set on every
    byte but the last. *)
Fixpoint uint_bytes (fuel : nat) (i : Z) : list Z :=
  match fuel with
  | O => [i]
  | Datatypes.S fuel => if i <? 128 then [i] else (i mod 128 + 128) :: uint_bytes fuel (i / 128)
  end.

Lemma uint_bytes_S fuel i :
  uint_bytes (Datatypes.S fuel) i = if i <? 128 then [i] else (i mod 128 + 128) :: uint_bytes fuel (i / 128).
Proof. done. Qed.

Definition uint_enc (i : Z) : list Z := uint_bytes 5 i.

Lemma byte_high i : 0 <= i -> u_char (Z.lor (Z.land i 0x7F) 0x80) = i mod 128 + 128.
Proof.
  intros Hi. unfold u_char. change 0x7F with (2 ^ 7 - 1). rewrite land_low by lia.
  pose proof (Z.mod_pos_bound i (2 ^ 7)). rewrite Z.lor_comm, (lor_low _ _ 7) by first [reflexivity | lia].
  change (2 ^ 7) with 128 in *. rewrite Z.mod_small by lia. lia.
Qed.

Lemma uint_bytes_zlen fuel i : 1 <= zlen (uint_bytes fuel i) <= Z.of_nat fuel + 1.
Proof.
  revert i. induction fuel as [| fuel IH]; intros i; simpl; rewrite ?zlen_cons, ?zlen_nil; [lia |].
  destruct (i <? 128); rewrite zlen_cons, ?zlen_nil; [lia |]. specialize (IH (i / 128)). lia.
Qed.

Lemma uint_bytes_range fuel i :
  0 <= i < 2 ^ (7 * (Z.of_nat fuel + 1)) -> Forall (fun b => 0 <= b < 256) (uint_bytes fuel i).
Proof.
  revert i. induction fuel as [| fuel IH]; intros i Hi; simpl.
  { change (2 ^ (7 * (Z.of_nat 0 + 1))) with 128 in Hi. constructor; [lia | constructor]. }
  destruct (Z.ltb_spec i 128); constructor; [lia | constructor | |].
  - pose proof (Z.mod_pos_bound i 128). lia.
  - apply IH. replace (7 * (Z.of_nat (Datatypes.S fuel) + 1)) with (7 + 7 * (Z.of_nat fuel + 1)) in Hi by lia.
    rewrite Z.pow_add_r in Hi by lia. change (2 ^ 7) with 128 in Hi.
    split; [apply Z.div_pos; lia | apply Z.div_lt_upper_bound; lia].
Qed.

Lemma uint_bytes_zlen_le fuel i k :
  0 <= i < 2 ^ (7 * k) -> 1 <= k -> zlen (uint_bytes fuel i) <= k.
Proof.
  revert i k. induction fuel as [| fuel IH]; intros i k Hi Hk; simpl; rewrite ?zlen_cons, ?zlen_nil; [lia |].
  destruct (Z.ltb_spec i 128); rewrite zlen_cons, ?zlen_nil; [lia |].
  replace (7 * k) with (7 + 7 * (k - 1)) in Hi by lia.
  destruct (decide (k = 1)) as [-> | ?]; [change (2 ^ (7 + 7 * (1 - 1))) with 128 in Hi; lia |].
  rewrite Z.pow_add_r in Hi by lia. change (2 ^ 7) with 128 in Hi.
  assert (zlen (uint_bytes fuel (i / 128)) <= k - 1); [| lia].
  apply IH; [| lia]. split; [apply Z.div_pos; lia | apply Z.div_lt_upper_bound; lia].
Qed.

Lemma uint_enc_zlen i : 0 <= i < 2 ^ 31 -> 1 <= zlen (uint_enc i) <= 5.
Proof.
  intros Hi. split; [apply uint_bytes_zlen |]. apply uint_bytes_zlen_le; [| lia].
  change (2 ^ (7 * 5)) with (16 * 2 ^ 31). lia.
Qed.

Lemma CanPickle_spec `{Platform} i : CanPickle i = true <-> 0 <= i < 2 ^ 31.
Proof.
  unfold CanPickle, INT_PRECISION. rewrite u_int_id32 by (change (Z.shiftl 1 31) with (2 ^ 31); lia).
  change (Z.shiftl 1 31 - 1) with (2 ^ 31 - 1). rewrite land_low, Z.eqb_eq by lia.
  pose proof (Z.mod_pos_bound i (2 ^ 31)). split; intros E; [lia | by apply Z.mod_small].
Qed.

(** Any state that appends the bytes put into it receives the encoding. *)
Lemma put_uint_loop_ok {S} (put : S -> Z -> option S) (R : S -> list Z -> Prop) (lim : Z) :
  (forall s bs b, R s bs -> zlen bs < lim -> 0 <= b < 256 -> exists s', put s b = Some s' /\ R s' (bs ++ [b])) ->
  forall fuel i s bs, 0 <= i < 2 ^ (7 * (Z.of_nat fuel + 1)) -> R s bs ->
    zlen bs + zlen (uint_bytes fuel i) <= lim ->
    exists s', put_uint_loop put fuel s i = Some s' /\ R s' (bs ++ uint_bytes fuel i).
Proof.
  intros Hput. induction fuel as [| fuel IH]; intros i s bs Hi HR Hlim.
  - change (2 ^ (7 * (Z.of_nat 0 + 1))) with 128 in Hi. simpl in *. rewrite zlen_cons, zlen_nil in Hlim.
    destruct (Z.leb_spec 128 i); [lia |]. unfold u_char. rewrite Z.mod_small by lia. apply Hput; [done | lia | lia].
  - replace (7 * (Z.of_nat (Datatypes.S fuel) + 1)) with (7 + 7 * (Z.of_nat fuel + 1)) in Hi by lia.
    rewrite Z.pow_add_r in Hi by lia. change (2 ^ 7) with 128 in Hi.
    cbn [put_uint_loop uint_bytes] in *.
    destruct (Z.leb_spec 128 i) as [Hge | Hlt]; destruct (Z.ltb_spec i 128); try lia.
    + rewrite byte_high by lia. pose proof (Z.mod_pos_bound i 128).
      rewrite zlen_cons in Hlim. pose proof (uint_bytes_zlen fuel (i / 128)).
      destruct (Hput s bs (i mod 128 + 128) HR) as (s1 & -> & HR1); [lia | lia |]. simpl.
      rewrite Z.shiftr_div_pow2 by lia. change (2 ^ 7) with 128.
      destruct (IH (i / 128) s1 (bs ++ [i mod 128 + 128])) as (s2 & -> & HR2).
      * split; [apply Z.div_pos; lia | apply Z.div_lt_upper_bound; lia].
      * done.
      * rewrite zlen_app, zlen_cons, zlen_nil. lia.
      * exists s2. split; [done |]. by rewrite <- app_assoc in HR2.
    + rewrite zlen_cons, zlen_nil in Hlim. unfold u_char. rewrite Z.mod_small by lia. apply Hput; [done | lia | lia].
Qed.

(** What every write preserves holds after the loop. *)
Lemma put_uint_loop_inv {S} (put : S -> Z -> option S) (P : S -> Prop) :
  (forall s b s', P s -> put s b = Some s' -> P s') ->
  forall fuel s i s', P s -> put_uint_loop put fuel s i = Some s' -> P s'.
Proof.
  intros Hput. induction fuel as [| fuel IH]; intros s i s' Hs E; cbn [put_uint_loop] in E;
    destruct (0x80 <=? i); try done; eauto.
  apply bind_Some in E as (s1 & E1 & E). eauto.
Qed.

#[global] Arguments put_uint_loop : simpl never.
#[global] Arguments uint_enc : simpl never.
#[global] Arguments uint_bytes : simpl never.

(** ** Sinks: what a stream promises to its clients *)

(** The streams are proved for at most 16 MB, within a chunk's maximal size. *)
Definition STREAM_MAX : Z := 2 ^ 24.

Definition is_byte (b : Z) : Prop := 0 <= b < 256.

(** A sink holds the bytes written so far; writing appends. *)
Class Sink (S : Type) := {
  sink_byte : S -> Z -> option S;
  sink_bytes : S -> list Z -> Z -> option S;
  sink_rep : S -> list Z -> Prop;
  sink_byte_ok s bs b :
    sink_rep s bs -> zlen bs < STREAM_MAX -> is_byte b ->
    exists s', sink_byte s b = Some s' /\ sink_rep s' (bs ++ [b]);
  sink_bytes_ok s bs buf n :
    sink_rep s bs -> 0 <= n <= zlen buf -> zlen bs + n <= STREAM_MAX ->
    exists s', sink_bytes s buf n = Some s' /\ sink_rep s' (bs ++ ztake n buf)
}.

Section SinkUInt.
Context {T : Type} `{Sink T}.

Lemma sink_uint_ok s bs i :
  sink_rep s bs -> 0 <= i < 2 ^ 31 -> zlen bs + 5 <= STREAM_MAX ->
  exists s', put_uint_loop sink_byte 5 s i = Some s' /\ sink_rep s' (bs ++ uint_enc i).
Proof.
  intros HR Hi Hlim. pose proof (uint_enc_zlen i Hi). unfold uint_enc in *.
  apply (put_uint_loop_ok _ _ STREAM_MAX); [| simpl; lia | done | lia].
  intros. by apply sink_byte_ok.
Qed.

End SinkUInt.

(** Copying the first [n] bytes of a list into an array after [p]. *)
Lemma blit_append (buf c : list Z) (d n : Z) p o s :
  0 <= n <= zlen buf -> c = p ++ o ++ s -> d = zlen p -> n = zlen o ->
  blit buf 0 c d n = Some (p ++ ztake n buf ++ s).
Proof.
  intros Hn Hc Hd Ho. apply (blit_pieces _ _ _ _ _ [] (ztake n buf) (zdrop n buf) p o s); try done.
  - by rewrite app_nil_l, ztake_zdrop.
  - by rewrite zlen_ztake.
Qed.

Lemma zlen_fresh undef n : 0 <= n -> zlen (fresh undef n) = n.
Proof. apply zlen_replicate. Qed.

Section StringSink.
Context `{Platform} (undef : Z).

(** The bytes written are the first [so_pos] bytes of the string, and there is
    always room for one more. *)
Definition SOS_rep (s : StringOutputStream) (bs : list Z) : Prop :=
  so_pos s = zlen bs /\ so_size s = zlen (c_bytes (so_string s)) /\ zlen bs < so_size s /\
  256 <= so_size s <= 2 * STREAM_MAX /\ c_size (so_string s) = so_size s /\
  exists rest, c_bytes (so_string s) = bs ++ rest.

Lemma SOS_New_rep : SOS_rep (SOS_New undef) [].
Proof.
  unfold SOS_rep, SOS_New; simpl. rewrite zlen_fresh by (unfold SOS_INITIAL_SIZE; lia).
  unfold SOS_INITIAL_SIZE, STREAM_MAX. change (zlen (@nil Z)) with 0. split_and!; try lia. by eexists.
Qed.

(** Enlarging needs only that the bytes written fit the old string. *)
Definition SOS_pre (s : StringOutputStream) (bs : list Z) : Prop :=
  so_pos s = zlen bs /\ so_size s = zlen (c_bytes (so_string s)) /\ zlen bs <= so_size s /\
  256 <= so_size s <= 2 * STREAM_MAX /\ c_size (so_string s) = so_size s /\
  exists rest, c_bytes (so_string s) = bs ++ rest.

Lemma SOS_Enlarge_ok s bs :
  SOS_pre s bs -> so_size s <= STREAM_MAX ->
  exists s', SOS_Enlarge undef s = Some s' /\ SOS_rep s' bs /\
             so_size s' = so_size s * 3 / 2 /\ so_size s < so_size s'.
Proof.
  intros (Hp & Hs & Hlt & Hmin & Hc & rest & E) Hmax. unfold STREAM_MAX in *.
  unfold SOS_Enlarge. rewrite u_int_id32 by lia. rewrite Z.shiftr_div_pow2 by lia.
  change (2 ^ 1) with 2. set (n := so_size s * 3 / 2).
  assert (Hn : so_size s < n <= 2 * 2 ^ 24) by (subst n; Z.div_mod_to_equations; lia).
  pose proof (zlen_nonneg bs). cbn [String_New AllocChunk c_bytes].
  destruct (zsplit (fresh undef n) (zlen bs)) as (o & f & Ef & Ho); [rewrite zlen_fresh; lia |].
  rewrite (blit_append _ _ _ _ [] o f).
  - simpl. eexists. split; [done |]. unfold SOS_rep; simpl.
    rewrite Hp, E, ztake_pieces by done.
    assert (zlen (bs ++ f) = n).
    { pose proof (zlen_fresh undef n ltac:(lia)) as Hl. rewrite Ef in Hl. zl. }
    unfold STREAM_MAX. split_and!; try lia. by eexists.
  - rewrite Hp, E. rewrite zlen_app in *. pose proof (zlen_nonneg rest). lia.
  - done.
  - done.
  - lia.
Qed.

Lemma SOS_rep_pre s bs : SOS_rep s bs -> SOS_pre s bs.
Proof. intros (?&?&?&?&?&?). split_and!; (lia || done). Qed.

Lemma SOS_Enlarge_loop_ok fuel s bs n :
  SOS_rep s bs -> 0 <= n -> zlen bs + n <= STREAM_MAX ->
  zlen bs + n - so_size s < Z.of_nat fuel ->
  exists s', SOS_Enlarge_loop undef fuel (zlen bs) n s = Some s' /\ SOS_rep s' bs /\
             zlen bs + n < so_size s'.
Proof.
  revert s. induction fuel as [| fuel IH]; intros s HR Hn Hmax Hf;
    pose proof (zlen_nonneg bs); unfold STREAM_MAX in Hmax; cbn [SOS_Enlarge_loop];
    rewrite u_int_id32 by lia; destruct (Z.leb_spec (so_size s) (zlen bs + n)); try lia.
  - by exists s.
  - destruct (SOS_Enlarge_ok s bs) as (s1 & -> & HR1 & _ & Hlt).
    { by apply SOS_rep_pre. } { unfold STREAM_MAX. lia. }
    simpl. apply IH; [done | done | unfold STREAM_MAX; lia | lia].
  - by exists s.
Qed.

Lemma SOS_PutByte_ok s bs b :
  SOS_rep s bs -> zlen bs < STREAM_MAX ->
  exists s', SOS_PutByte undef s b = Some s' /\ SOS_rep s' (bs ++ [b]).
Proof.
  intros (Hp & Hs & Hlt & Hmin & Hc & rest & E) Hmax.
  unfold SOS_PutByte. pose proof (zlen_nonneg bs).
  destruct (zlen_pos_cons rest) as (x & rest' & ->); [rewrite E in Hs; zl |].
  rewrite Hp, E, (aset_mid bs x rest') by done. simpl.
  unfold STREAM_MAX in Hmax. rewrite u_int_id32 by lia.
  set (s1 := {| so_pos := zlen bs + 1; so_size := so_size s;
                so_string := set_bytes (so_string s) (bs ++ b :: rest') |}).
  assert (HP : SOS_pre s1 (bs ++ [b])).
  { unfold SOS_pre; simpl. rewrite E in Hs. rewrite (zlen_app bs (b :: rest')), zlen_cons.
    rewrite zlen_app, !zlen_cons, ?zlen_nil in *. split_and!; try lia.
    exists rest'. by rewrite <- app_assoc. }
  destruct (Z.eqb_spec (zlen bs + 1) (so_size s)) as [Eq | Ne].
  - destruct (SOS_Enlarge_ok s1 _ HP) as (s2 & -> & HR & _); [simpl; unfold STREAM_MAX; lia |].
    by exists s2.
  - exists s1. split; [done |]. destruct HP as (?&?&?&?&?&?). split_and!; (simpl in *; zl) || done.
Qed.

Lemma SOS_PutBytes_ok s bs buf n :
  SOS_rep s bs -> 0 <= n <= zlen buf -> zlen bs + n <= STREAM_MAX ->
  exists s', SOS_PutBytes undef s buf n = Some s' /\ SOS_rep s' (bs ++ ztake n buf).
Proof.
  intros HR Hn Hmax. pose proof (zlen_nonneg bs). unfold SOS_PutBytes.
  pose proof HR as (Hp & _ & _ & Hmin & _). rewrite Hp.
  destruct (SOS_Enlarge_loop_ok (Z.to_nat (zlen bs + n)) s bs n) as (s1 & -> & HR1 & Hroom); try lia; [done |].
  simpl. destruct HR1 as (Hp1 & Hs1 & _ & Hmin1 & Hc1 & rest & E).
  destruct (zsplit rest n) as (o & f & -> & Ho); [rewrite E in Hs1; zl |].
  rewrite (blit_append _ _ _ _ bs o f) by (done || lia). simpl.
  eexists. split; [done |]. unfold SOS_rep; simpl. unfold STREAM_MAX in Hmax.
  rewrite u_int_id32 by lia. rewrite E in Hs1. rewrite !zlen_app in *. rewrite zlen_ztake by lia.
  split_and!; try lia. exists f. by rewrite <- app_assoc.
Qed.

#[export] Instance string_sink : Sink StringOutputStream := {|
  sink_byte := SOS_PutByte undef;
  sink_bytes := SOS_PutBytes undef;
  sink_rep := SOS_rep;
  sink_byte_ok s bs b HR Hm _ := SOS_PutByte_ok s bs b HR Hm;
  sink_bytes_ok := SOS_PutBytes_ok
|}.

End StringSink.

Section OutputSink.
Context `{Platform} (undef : Z).
Context {F : Type} (gzputc : F -> Z -> F) (gzwrite : F -> list Z -> F).

(** The documented effect of the compressed file operations: the uncompressed
    contents grow by the bytes written. *)
Variable written : F -> list Z.
Hypothesis gzputc_appends : forall f b, written (gzputc f b) = written f ++ [b].
Hypothesis gzwrite_appends : forall f bs, written (gzwrite f bs) = written f ++ bs.

Definition OS_rep (s : OutputStream F) (bs : list Z) : Prop :=
  match s with
  | FILE_OUTPUT_STREAM s => written (fo_file s) = bs
  | STRING_OUTPUT_STREAM s => SOS_rep s bs
  end.

Lemma OS_PutByte_ok s bs b :
  OS_rep s bs -> zlen bs < STREAM_MAX -> is_byte b ->
  exists s', PutByte undef gzputc s b = Some s' /\ OS_rep s' (bs ++ [b]).
Proof.
  intros HR Hm Hb. destruct s as [s | s]; simpl in *.
  - eexists. split; [done |]. simpl. by rewrite gzputc_appends, HR.
  - destruct (SOS_PutByte_ok undef s bs b HR Hm) as (s' & -> & HR'). by eexists.
Qed.

Lemma OS_PutBytes_ok s bs buf n :
  OS_rep s bs -> 0 <= n <= zlen buf -> zlen bs + n <= STREAM_MAX ->
  exists s', PutBytes undef gzwrite s buf n = Some s' /\ OS_rep s' (bs ++ ztake n buf).
Proof.
  intros HR Hn Hm. pose proof (zlen_nonneg bs). unfold STREAM_MAX in Hm. destruct s as [s | s]; simpl in *.
  - unfold FOS_PutBytes, UINT_MAX. destruct (Z.ltb_spec (2 ^ 32 - 1) n); [lia |].
    destruct (Z.ltb_spec (zlen buf) n); [lia |].
    eexists. split; [done |]. simpl. by rewrite gzwrite_appends, HR.
  - destruct (SOS_PutBytes_ok undef s bs buf n HR Hn Hm) as (s' & -> & HR'). by eexists.
Qed.

#[export] Instance output_sink : Sink (OutputStream F) := {|
  sink_byte := PutByte undef gzputc;
  sink_bytes := PutBytes undef gzwrite;
  sink_rep := OS_rep;
  sink_byte_ok := OS_PutByte_ok;
  sink_bytes_ok := OS_PutBytes_ok
|}.

Lemma PutUInt_ok s bs i :
  OS_rep s bs -> 0 <= i < 2 ^ 31 -> zlen bs + 5 <= STREAM_MAX ->
  exists s', PutUInt undef gzputc s i = Some s' /\ OS_rep s' (bs ++ uint_enc i).
Proof.
  intros HR Hi Hm. unfold PutUInt. rewrite (proj2 (CanPickle_spec i)) by done.
  apply (sink_uint_ok (H := output_sink)); done.
Qed.

End OutputSink.

(** ** Sorting the locals *)

Section Sorting.
Context `{Platform}.
Implicit Types (b : Block Z) (ps : list (Z * Z)).

(** The pairs (position, variable) of a locals block. *)
Definition flat ps : list Z := ps ≫= (fun p => [p.1; p.2]).

Definition locals_rep b ps : Prop := exists rest, b_args b = flat ps ++ rest.

Lemma flat_app ps qs : flat (ps ++ qs) = flat ps ++ flat qs.
Proof. apply bind_app. Qed.

Lemma zlen_flat ps : zlen (flat ps) = 2 * zlen ps.
Proof.
  induction ps as [| p ps IH]; [done |].
  change (flat (p :: ps)) with (p.1 :: p.2 :: flat ps). rewrite !zlen_cons. lia.
Qed.

Lemma locals_split b ps k x :
  locals_rep b ps -> aget ps k = Some x ->
  exists p s, b_args b = flat p ++ x.1 :: x.2 :: s /\ zlen (flat p) = k * 2 /\
    zlen p = k /\ forall x' : Z * Z, flat p ++ x'.1 :: x'.2 :: s =
      (flat (<[Z.to_nat k := x']> ps) ++ drop (length (flat ps)) (b_args b))%list.
Proof.
  intros [rest E] Hk. pose proof (aget_Some_lt _ _ _ Hk) as Hb.
  apply aget_split in Hk as Hs. pose proof (zlen_ztake k ps ltac:(lia)) as Hl.
  exists (ztake k ps), (flat (zdrop (k + 1) ps) ++ rest). split_and!; [| rewrite zlen_flat; lia | done |].
  - rewrite E, Hs at 1. rewrite flat_app. by rewrite <- app_assoc.
  - intros x'. rewrite E, drop_app_length.
    rewrite insert_take_drop by (unfold zlen in Hb; lia). rewrite flat_app, <- app_assoc.
    unfold ztake, zdrop. by replace (Datatypes.S (Z.to_nat k)) with (Z.to_nat (k + 1)) by lia.
Qed.

Lemma GetArg_pair b ps k x :
  locals_rep b ps -> aget ps k = Some x ->
  GetArg b (k * 2) = Some x.1 /\ GetArg b (k * 2 + 1) = Some x.2.
Proof.
  intros HR Hk. destruct (locals_split b ps k x HR Hk) as (p & s & E & Hp & _).
  unfold GetArg. rewrite E. split; [by apply aget_mid |].
  replace (flat p ++ x.1 :: x.2 :: s) with ((flat p ++ [x.1]) ++ x.2 :: s) by (by rewrite <- app_assoc).
  apply aget_mid. zl.
Qed.

(** Replacing a whole pair. *)
Lemma InitArg_pair b ps k x :
  locals_rep b ps -> 0 <= k < zlen ps ->
  exists b1 b2, InitArg b (k * 2) x.1 = Some b1 /\ InitArg b1 (k * 2 + 1) x.2 = Some b2 /\
    locals_rep b2 (<[Z.to_nat k := x]> ps) /\ b_header b2 = b_header b.
Proof.
  intros HR Hb. destruct (aget_is_Some ps k Hb) as [y Hy].
  destruct (locals_split b ps k y HR Hy) as (p & s & E & Hp & _ & Hx).
  unfold InitArg. rewrite E, (aset_mid (flat p)) by done. simpl.
  replace (flat p ++ x.1 :: y.2 :: s) with ((flat p ++ [x.1]) ++ y.2 :: s) by (by rewrite <- app_assoc).
  eexists _, _. split; [done |]. simpl.
  replace (flat p ++ x.1 :: y.2 :: s) with ((flat p ++ [x.1]) ++ y.2 :: s) by (by rewrite <- app_assoc).
  rewrite aset_mid by zl. split_and!; [done | | done].
  eexists. simpl. rewrite <- app_assoc. apply Hx.
Qed.

Lemma Swap_ok b ps i j x y :
  locals_rep b ps -> aget ps i = Some x -> aget ps j = Some y ->
  exists b', Swap b i j = Some b' /\
    locals_rep b' (<[Z.to_nat j := x]> (<[Z.to_nat i := y]> ps)) /\ b_header b' = b_header b.
Proof.
  intros HR Hx Hy. pose proof (aget_Some_lt _ _ _ Hx). pose proof (aget_Some_lt _ _ _ Hy).
  destruct (GetArg_pair b ps i x HR Hx) as [E1 E2]. destruct (GetArg_pair b ps j y HR Hy) as [E3 E4].
  destruct (InitArg_pair b ps i y HR ltac:(lia)) as (b1 & b2 & F1 & F2 & HR2 & Hh2).
  unfold Swap. rewrite E1, E2, E3. simpl. rewrite F1. simpl.
  assert (G : GetArg b1 (j * 2 + 1) = Some y.2).
  { apply InitArg_inv in F1 as [_ F1]. unfold GetArg in *.
    rewrite (aget_aset_ne _ _ _ _ _ F1) by lia. done. }
  rewrite G. simpl. rewrite F2. simpl.
  destruct (InitArg_pair b2 (<[Z.to_nat i := y]> ps) j x HR2) as (b3 & b4 & F3 & F4 & HR4 & Hh4).
  { unfold zlen in *. rewrite length_insert. lia. }
  rewrite F3. simpl. rewrite F4. exists b4. split_and!; [done | done | congruence].
Qed.

(** [rearr l r ps ps']: [ps'] permutes the entries [l..r] of [ps]. *)
Definition rearr (l r : Z) ps ps' : Prop :=
  ps ≡ₚ ps' /\ (forall k, ~ (l <= k <= r) -> aget ps' k = aget ps k) /\
  (forall P : Z * Z -> Prop, (forall k x, l <= k <= r -> aget ps k = Some x -> P x) ->
     forall k x, l <= k <= r -> aget ps' k = Some x -> P x).

Lemma rearr_refl l r ps : rearr l r ps ps.
Proof. split_and!; [done | done |]. eauto. Qed.

Lemma rearr_trans l r ps qs rs : rearr l r ps qs -> rearr l r qs rs -> rearr l r ps rs.
Proof.
  intros (P1 & O1 & F1) (P2 & O2 & F2). split_and!.
  - by etrans.
  - intros k Hk. rewrite O2, O1; done.
  - intros P HP. apply F2, F1, HP.
Qed.

Lemma rearr_widen l r l' r' ps qs : l' <= l -> r <= r' -> rearr l r ps qs -> rearr l' r' ps qs.
Proof.
  intros Hl Hr (P1 & O1 & F1). split_and!; [done | intros; apply O1; lia |].
  intros P HP k x Hk Hx. destruct (decide (l <= k <= r)) as [Hin | Hout].
  - apply (F1 P) with k; [| done | done]. intros k' x' ? ?. apply (HP k'); [lia | done].
  - rewrite O1 in Hx by done. by apply (HP k).
Qed.

Lemma rearr_zlen l r ps qs : rearr l r ps qs -> zlen qs = zlen ps.
Proof. intros (Hp & _ & _). unfold zlen. by rewrite Hp. Qed.

Lemma aget_insert_ne ps i k (x : Z * Z) : 0 <= i -> k <> i -> aget (<[Z.to_nat i := x]> ps) k = aget ps k.
Proof.
  intros Hi Hk. unfold aget. case_decide; [| done]. apply list_lookup_insert_ne. lia.
Qed.

Lemma aget_insert_eq ps i (x : Z * Z) : 0 <= i < zlen ps -> aget (<[Z.to_nat i := x]> ps) i = Some x.
Proof.
  intros Hi. unfold aget. rewrite decide_True by lia. apply list_lookup_insert_eq. unfold zlen in Hi. lia.
Qed.

(** Exchanging two entries. *)
Definition exch ps (i j : Z) (x y : Z * Z) : list (Z * Z) :=
  <[Z.to_nat j := x]> (<[Z.to_nat i := y]> ps).

Lemma exch_get ps i j x y k :
  aget ps i = Some x -> aget ps j = Some y ->
  aget (exch ps i j x y) k = if decide (k = j) then Some x else if decide (k = i) then Some y else aget ps k.
Proof.
  intros Hx Hy. apply aget_Some_lt in Hx as Hi. apply aget_Some_lt in Hy as Hj. unfold exch.
  repeat case_decide; subst.
  - apply aget_insert_eq. unfold zlen in *. rewrite length_insert. lia.
  - rewrite aget_insert_ne by lia. apply aget_insert_eq. lia.
  - by rewrite !aget_insert_ne by lia.
Qed.

Lemma exch_rearr ps l r i j x y :
  aget ps i = Some x -> aget ps j = Some y -> l <= i <= r -> l <= j <= r ->
  rearr l r ps (exch ps i j x y).
Proof.
  intros Hx Hy Hi Hj. pose proof (aget_Some_lt _ _ _ Hx). pose proof (aget_Some_lt _ _ _ Hy).
  split_and!.
  - symmetry. apply Permutation_inj. split; [unfold exch; by rewrite !length_insert |].
    exists (fun k => if decide (k = Z.to_nat j) then Z.to_nat i else if decide (k = Z.to_nat i) then Z.to_nat j else k).
    split; [intros k1 k2; repeat case_decide; lia |].
    intros k. pose proof (exch_get ps i j x y (Z.of_nat k) Hx Hy) as G. unfold aget in G, Hx, Hy.
    rewrite !decide_True, Nat2Z.id in * by lia.
    rewrite G. repeat case_decide; try lia; by subst.
  - intros k Hk. rewrite (exch_get _ _ _ _ _ _ Hx Hy). by rewrite !decide_False by lia.
  - intros P HP k z Hk. rewrite (exch_get _ _ _ _ _ _ Hx Hy).
    repeat case_decide; intros; simplify_eq; eauto.
Qed.

(** *** The scans *)

Lemma scan_up_ok fuel b ps i r v xr :
  locals_rep b ps -> -1 <= i < r -> aget ps r = Some xr -> v <= xr.1 -> r - i <= Z.of_nat fuel ->
  exists i' x, scan_up fuel b i v = Some i' /\ i < i' <= r /\ aget ps i' = Some x /\ v <= x.1 /\
    (forall k y, i < k < i' -> aget ps k = Some y -> y.1 <= v).
Proof.
  intros HR Hi Hr Hv Hf. revert i Hi Hf. induction fuel as [| fuel IH]; intros i Hi Hf; [lia |].
  pose proof (aget_Some_lt _ _ _ Hr).
  destruct (aget_is_Some ps (i + 1) ltac:(lia)) as [x Hx]. cbn [scan_up].
  rewrite (proj1 (GetArg_pair b ps (i + 1) x HR Hx)). simpl.
  destruct (Z.ltb_spec x.1 v) as [Hlt | Hge].
  - assert (i + 1 <> r) by (intros <-; rewrite Hx in Hr; simplify_eq; lia).
    destruct (IH (i + 1)) as (i' & y & E & Hi' & Hy & Hvy & Hall); [lia | lia |].
    exists i', y. split_and!; try (done || lia).
    intros k z Hk Hz. destruct (decide (k = i + 1)) as [-> | ?]; [rewrite Hx in Hz; simplify_eq; lia |].
    apply (Hall k); [lia | done].
  - exists (i + 1), x. split_and!; (done || lia).
Qed.

Lemma scan_down_ok fuel b ps j l v :
  locals_rep b ps -> 0 <= l < j -> j <= zlen ps -> j - l <= Z.of_nat fuel ->
  exists j' x, scan_down fuel b j v l = Some j' /\ l <= j' < j /\ aget ps j' = Some x /\
    (x.1 <= v \/ j' = l /\ v < x.1) /\
    (forall k y, j' < k < j -> aget ps k = Some y -> v <= y.1).
Proof.
  intros HR Hj Hlen Hf. revert j Hj Hlen Hf. induction fuel as [| fuel IH]; intros j Hj Hlen Hf; [lia |].
  destruct (aget_is_Some ps (j - 1) ltac:(lia)) as [x Hx]. cbn [scan_down].
  rewrite (proj1 (GetArg_pair b ps (j - 1) x HR Hx)). simpl.
  destruct (Z.ltb_spec v x.1) as [Hlt | Hge].
  - destruct (Z.eqb_spec (j - 1) l) as [El | Nl].
    + exists (j - 1), x. split_and!; (done || lia).
    + destruct (IH (j - 1)) as (j' & y & E & Hj' & Hy & Hvy & Hall); [lia | lia | lia |].
      exists j', y. split_and!; try (done || lia).
      intros k z Hk Hz. destruct (decide (k = j - 1)) as [-> | ?]; [rewrite Hx in Hz; simplify_eq; lia |].
      apply (Hall k); [lia | done].
  - exists (j - 1), x. split_and!; (done || lia).
Qed.

(** *** Partition *)

Definition part_post (l r v : Z) ps ps' (i : Z) : Prop :=
  rearr l (r - 1) ps ps' /\ l <= i <= r /\
  (forall k y, l <= k < i -> aget ps' k = Some y -> y.1 <= v) /\
  (forall k y, i <= k < r -> aget ps' k = Some y -> v <= y.1).

Lemma partition_loop_ok fuel b ps i j l r v xr :
  locals_rep b ps -> 0 <= l -> l - 1 <= i < j -> l < j <= r -> j - i <= Z.of_nat fuel ->
  aget ps r = Some xr -> xr.1 = v ->
  (forall k y, l <= k <= i -> aget ps k = Some y -> y.1 <= v) ->
  (forall k y, j <= k < r -> aget ps k = Some y -> v <= y.1) ->
  exists b' ps' i', partition_loop fuel b i j v l r = Some (b', i') /\ locals_rep b' ps' /\
    b_header b' = b_header b /\ part_post l r v ps ps' i'.
Proof.
  revert b ps i j. induction fuel as [| fuel IH]; intros b ps i j HR H0 Hi Hj Hf Hr Hv Hlo Hhi; [lia |].
  pose proof (aget_Some_lt _ _ _ Hr). cbn [partition_loop].
  destruct (scan_up_ok (Z.to_nat (r - i)) b ps i r v xr) as (i1 & x & -> & Hi1 & Hx & Hvx & Hup); try (done || lia).
  simpl.
  destruct (scan_down_ok (Z.to_nat (j - l)) b ps j l v) as (j1 & y & -> & Hj1 & Hy & Hvy & Hdn); try (done || lia).
  simpl.
  assert (Hlo' : forall k z, l <= k < i1 -> aget ps k = Some z -> z.1 <= v).
  { intros k z Hk. destruct (decide (k <= i)); [apply Hlo; lia | apply Hup; lia]. }
  assert (Hhi' : forall k z, j1 < k < r -> aget ps k = Some z -> v <= z.1).
  { intros k z Hk. destruct (decide (j <= k)); [apply Hhi; lia | apply Hdn; lia]. }
  destruct (Z.leb_spec j1 i1) as [Hc | Hc].
  - exists b, ps, i1. do 3 (split; [done |]). split; [apply rearr_refl |]. split; [lia |]. split; [done |].
    intros k z Hk Hz. destruct (decide (k = i1)) as [-> | ?]; [by simplify_eq |].
    apply (Hhi' k); [lia | done].
  - destruct (Swap_ok b ps i1 j1 x y HR Hx Hy) as (b1 & -> & HR1 & Hh1). simpl.
    fold (exch ps i1 j1 x y) in HR1. pose proof (fun k => exch_get ps i1 j1 x y k Hx Hy) as G.
    destruct (IH b1 (exch ps i1 j1 x y) i1 j1) as (b2 & ps2 & i2 & E & HR2 & Hh2 & HP); try (done || lia).
    + rewrite G, !decide_False by lia. done.
    + intros k z Hk. rewrite G. repeat case_decide; intros; simplify_eq; try lia.
      eapply Hlo'; [| done]. lia.
    + intros k z Hk. rewrite G. repeat case_decide; intros; simplify_eq; try lia.
      eapply Hhi'; [| done]. lia.
    + exists b2, ps2, i2. split_and!; [done | done | congruence |].
      destruct HP as (HP & ?). split; [| done].
      eapply rearr_trans; [| exact HP]. eapply exch_rearr; done || lia.
Qed.

Lemma Partition_ok b ps l r :
  locals_rep b ps -> 0 <= l < r -> r < zlen ps ->
  exists b' ps' i v, Partition b l r = Some (b', i) /\ locals_rep b' ps' /\
    b_header b' = b_header b /\ rearr l r ps ps' /\ l <= i <= r /\ 
    (forall k y, l <= k <= i -> aget ps' k = Some y -> y.1 <= v) /\
    (forall k y, i <= k <= r -> aget ps' k = Some y -> v <= y.1).
Proof.
  intros HR Hl Hr. destruct (aget_is_Some ps r ltac:(lia)) as [xr Hxr]. unfold Partition.
  rewrite (proj1 (GetArg_pair b ps r xr HR Hxr)). simpl.
  destruct (partition_loop_ok (Z.to_nat (r - l + 1)) b ps (l - 1) r l r xr.1 xr)
    as (b1 & ps1 & i & -> & HR1 & Hh1 & HP & Hi & Hlo & Hhi); try (done || lia).
  simpl. pose proof (rearr_zlen _ _ _ _ HP) as Hz.
  assert (Hr1 : aget ps1 r = Some xr) by (destruct HP as (_ & -> & _); [done | lia]).
  destruct (aget_is_Some ps1 i ltac:(lia)) as [x Hx].
  destruct (Swap_ok b1 ps1 i r x xr HR1 Hx Hr1) as (b2 & -> & HR2 & Hh2). simpl.
  fold (exch ps1 i r x xr) in HR2. pose proof (fun k => exch_get ps1 i r x xr k Hx Hr1) as G.
  exists b2, (exch ps1 i r x xr), i, xr.1. split_and!; [done | done | congruence | | lia | lia | |].
  - eapply rearr_trans; [eapply rearr_widen; [| | exact HP]; lia |].
    eapply exch_rearr; done || lia.
  - intros k y Hk. rewrite G. repeat case_decide; intros; simplify_eq; try lia.
    + assert (i = r) as -> by lia. rewrite Hx in Hr1. simplify_eq. lia.
    + eapply Hlo; [| done]. lia.
  - intros k y Hk. rewrite G. repeat case_decide; intros; simplify_eq; try lia.
    + destruct (decide (i = r)) as [-> | ?]; [rewrite Hx in Hr1; simplify_eq; lia |].
      eapply Hhi; [| done]. lia.
    + eapply Hhi; [| done]. lia.
Qed.

(** *** Sort *)

Definition sorted_on (l r : Z) ps : Prop :=
  forall i j x y, l <= i < j -> j <= r -> aget ps i = Some x -> aget ps j = Some y -> x.1 <= y.1.

Lemma Sort_ok fuel b ps l r :
  locals_rep b ps -> 0 <= l -> r < zlen ps -> r - l <= Z.of_nat fuel ->
  exists b' ps', Sort fuel b l r = Some b' /\ locals_rep b' ps' /\ b_header b' = b_header b /\
    rearr l r ps ps' /\ sorted_on l r ps'.
Proof.
  revert b ps l r. induction fuel as [| fuel IH]; intros b ps l r HR Hl Hr Hf; cbn [Sort];
    destruct (Z.leb_spec r l); try lia.
  1, 2: exists b, ps; do 3 (split; [done |]); split; [apply rearr_refl |]; intros i j x y; lia.
  destruct (Partition_ok b ps l r HR) as (b1 & ps1 & i & v & -> & HR1 & Hh1 & HP1 & Hi & Hlo & Hhi); [lia | lia |].
  simpl. pose proof (rearr_zlen _ _ _ _ HP1) as Hz1.
  destruct (IH b1 ps1 l (i - 1) HR1) as (b2 & ps2 & -> & HR2 & Hh2 & HP2 & Hs2); try lia.
  simpl. pose proof (rearr_zlen _ _ _ _ HP2) as Hz2.
  destruct (IH b2 ps2 (i + 1) r HR2) as (b3 & ps3 & -> & HR3 & Hh3 & HP3 & Hs3); try lia.
  exists b3, ps3. split_and!; [done | done | congruence | |].
  { eapply rearr_trans; [exact HP1 |]. eapply rearr_trans; eapply rearr_widen; [| | exact HP2 | | | exact HP3]; lia. }
  (* entries below i are at most v, those above at least v *)
  assert (B2 : forall k y, l <= k <= i -> aget ps3 k = Some y -> y.1 <= v).
  { intros k y Hk Hy. rewrite (proj1 (proj2 HP3)) in Hy by lia.
    destruct (decide (k = i)) as [-> | ?].
    - rewrite (proj1 (proj2 HP2)) in Hy by lia. by apply (Hlo i); [lia |].
    - apply (proj2 (proj2 HP2) (fun z => z.1 <= v)) with k; [| lia | done].
      intros k' z ? ?. apply (Hlo k'); [lia | done]. }
  assert (B3 : forall k y, i <= k <= r -> aget ps3 k = Some y -> v <= y.1).
  { intros k y Hk Hy. destruct (decide (k = i)) as [-> | ?].
    - rewrite (proj1 (proj2 HP3)), (proj1 (proj2 HP2)) in Hy by lia. by apply (Hhi i); [lia |].
    - apply (proj2 (proj2 HP3) (fun z => v <= z.1)) with k; [| lia | done].
      intros k' z ? Hz. rewrite (proj1 (proj2 HP2)) in Hz by lia. apply (Hhi k'); [lia | done]. }
  intros i' j' x y Hij Hj Hx Hy.
  destruct (decide (j' < i)) as [? | ?].
  - apply (Hs2 i' j'); [lia | lia | |]; rewrite <- (proj1 (proj2 HP3)) by lia; done.
  - destruct (decide (i < i')) as [? | ?]; [by apply (Hs3 i' j'); [lia | lia | |] |].
    pose proof (B2 i' x ltac:(lia) Hx). pose proof (B3 j' y ltac:(lia) Hy). lia.
Qed.

End Sorting.

(** ** The output buffer refines a byte list and a list of locals *)

Section BufferSpec.
Context `{Platform} (undef : Z).

Definition LOCALS_MAX : Z := 2 ^ 20.

Record OB_rep (o : OutputBuffer) (bs : list Z) (locs : list (Z * Z)) : Prop := {
  obr_pos : ob_pos o = zlen bs;
  obr_bytes : exists rest, c_bytes (ob_buffer o) = bs ++ rest;
  obr_size : ob_size o = zlen (c_bytes (ob_buffer o));
  obr_min : 256 <= ob_size o;
  obr_locals : locals_rep (ob_locals o) ((0, 0) :: locs);
  obr_count : ob_loc_count o = zlen locs;
  obr_room : 2 * zlen locs + 1 < ob_loc_size o;
  obr_lsize : 128 <= ob_loc_size o <= zlen (b_args (ob_locals o))
}.

Lemma InitArg_zlen (b b' : Block Z) f v : InitArg b f v = Some b' -> zlen (b_args b') = zlen (b_args b).
Proof. intros E. apply InitArg_inv in E as [_ E]. by apply aset_zlen in E. Qed.

Lemma aget_0_cons {A} (x : A) l : aget (x :: l) 0 = Some x.
Proof. done. Qed.

(** Overwriting the first pair of a block with room for it. *)
Lemma init_first_pair (b : Block Z) :
  2 <= zlen (b_args b) ->
  exists b1 b2, InitArg b 0 0 = Some b1 /\ InitArg b1 1 0 = Some b2 /\ locals_rep b2 [(0, 0)] /\
    zlen (b_args b2) = zlen (b_args b).
Proof.
  intros Hl. destruct b as [h a]; simpl in *.
  destruct (zlen_pos_cons a) as (x & a' & ->); [lia |].
  destruct (zlen_pos_cons a') as (y & a'' & ->); [rewrite zlen_cons in Hl; lia |].
  exists (mkBlock h (0 :: y :: a'')), (mkBlock h (0 :: 0 :: a'')). unfold InitArg; simpl.
  pose proof (aset_mid [0] y a'' 1 0 eq_refl) as E2. simpl in E2. rewrite E2.
  split_and!; [done | done | by exists a'' | by rewrite !zlen_cons].
Qed.

Lemma OB_New_ok : exists o, OB_New undef = Some o /\ OB_rep o [] [].
Proof.
  pose proof hw_fields as (_&_&_&_&_&_&_&_&_&_&_&_&_&EM&_).
  set (b0 := AllocMutableBlock undef MIN_DATA_LABEL (OB_locInitialSize * 2)).
  assert (Hz : 128 <= zlen (b_args b0)).
  { unfold b0, OB_locInitialSize. rewrite AllocMutableBlock_zlen by lia.
    pose proof (TranslateSize_bounds (64 * 2)). lia. }
  unfold OB_New. fold b0. destruct (init_first_pair b0) as (b1 & b2 & -> & E2 & HR & Hz2); [lia |].
  simpl. rewrite E2. simpl. eexists. split; [done |].
  unfold OB_initialSize, OB_locInitialSize.
  constructor; cbn [ob_pos ob_buffer ob_size ob_locals ob_loc_count ob_loc_size c_bytes AllocChunk]; rewrite ?zlen_fresh;
    try done; try (change (zlen (@nil (Z * Z))) with 0); try lia. by eexists.
Qed.

Lemma OB_Reset_ok o bs locs : OB_rep o bs locs -> exists o', OB_Reset o = Some o' /\ OB_rep o' [] [].
Proof.
  intros [Hp Hb Hs Hm Hl Hc Hr Hls]. unfold OB_Reset.
  destruct (init_first_pair (ob_locals o)) as (b1 & b2 & -> & E2 & HR & Hz2); [lia |].
  simpl. rewrite E2. simpl. eexists. split; [done |].
  constructor; simpl; try done; try (change (zlen (@nil (Z * Z))) with 0); try lia. by eexists.
Qed.

(** *** The byte buffer *)

Lemma ResizeBuffer_ok o bs locs :
  OB_rep o bs locs -> ob_size o <= 2 * STREAM_MAX ->
  exists o', ResizeBuffer undef o = Some o' /\ OB_rep o' bs locs /\
    ob_size o' = ob_size o * 3 / 2.
Proof.
  intros [Hp [rest E] Hs Hm Hl Hc Hr Hls] Hmax. unfold STREAM_MAX in Hmax.
  unfold ResizeBuffer. rewrite u_int_id32 by lia. rewrite Z.shiftr_div_pow2 by lia.
  change (2 ^ 1) with 2. set (n := ob_size o * 3 / 2). cbn [AllocChunk c_bytes].
  assert (Hn : ob_size o < n) by (subst n; Z.div_mod_to_equations; lia).
  pose proof (zlen_nonneg bs). pose proof (zlen_nonneg rest).
  rewrite E, zlen_app in Hs.
  destruct (zsplit (fresh undef n) (zlen bs)) as (w & f & Ef & Hw); [rewrite zlen_fresh; lia |].
  rewrite Hp, E, (blit_append _ _ _ _ [] w f) by (done || lia || (rewrite zlen_app; lia)). simpl.
  rewrite ztake_pieces by done. eexists. split; [done |]. split; [| done].
  assert (Hf : zlen (bs ++ f) = n).
  { pose proof (zlen_fresh undef n ltac:(lia)) as Hl'. rewrite Ef in Hl'. zl. }
  constructor; simpl; try done; try lia. by eexists.
Qed.

Lemma ResizeBuffer_loop_ok fuel o bs locs n :
  OB_rep o bs locs -> 0 <= n -> zlen bs + n <= STREAM_MAX ->
  zlen bs + n - ob_size o < Z.of_nat fuel ->
  exists o', ResizeBuffer_loop undef fuel (zlen bs) n o = Some o' /\ OB_rep o' bs locs /\
    zlen bs + n < ob_size o'.
Proof.
  revert o. induction fuel as [| fuel IH]; intros o HR Hn Hmax Hf; pose proof (zlen_nonneg bs);
    unfold STREAM_MAX in Hmax; cbn [ResizeBuffer_loop]; unfold OB_GetSize; rewrite u_int_id32 by lia;
    destruct (Z.leb_spec (ob_size o) (zlen bs + n)); try lia.
  - by exists o.
  - destruct (ResizeBuffer_ok o bs locs HR) as (o1 & -> & HR1 & E1); [unfold STREAM_MAX; lia |].
    pose proof (obr_min _ _ _ HR). simpl. apply IH; [done | done | unfold STREAM_MAX; lia |].
    Z.div_mod_to_equations; lia.
  - by exists o.
Qed.

(** Room for [n] more bytes after a conditional resize. *)
Lemma resize_if_ok (t : bool) o bs locs n :
  OB_rep o bs locs -> zlen bs < STREAM_MAX -> 0 <= n <= 127 ->
  (t = false -> zlen bs + n <= ob_size o) -> (t = true -> ob_size o <= zlen bs + n) ->
  exists o', (if t then ResizeBuffer undef o else Some o) = Some o' /\ OB_rep o' bs locs /\
    zlen bs + n <= ob_size o'.
Proof.
  intros HR Hm Hn Hf Ht. destruct t; [| exists o; eauto].
  assert (Hb : zlen bs <= ob_size o).
  { destruct HR as [Hp [rest E] Hs]. rewrite Hs, E, zlen_app. pose proof (zlen_nonneg rest). lia. }
  specialize (Ht eq_refl). unfold STREAM_MAX in Hm.
  destruct (ResizeBuffer_ok o bs locs HR) as (o1 & -> & HR1 & E1); [unfold STREAM_MAX; lia |].
  exists o1. split_and!; [done | done |]. pose proof (obr_min _ _ _ HR).
  rewrite E1. Z.div_mod_to_equations; lia.
Qed.

(** Replacing the bytes after [bs]. *)
Lemma set_buffer_rep o bs new rest locs :
  OB_rep o bs locs -> zlen (bs ++ new ++ rest) = ob_size o ->
  OB_rep (set_buffer o (bs ++ new ++ rest) (zlen bs + zlen new)) (bs ++ new) locs.
Proof.
  intros [Hp Hb Hs Hm Hl Hc Hr Hls] Hz. constructor; simpl; try done.
  - by rewrite zlen_app.
  - exists rest. by rewrite <- app_assoc.
Qed.

Lemma OB_room o bs locs n :
  OB_rep o bs locs -> 0 <= n -> zlen bs + n <= ob_size o ->
  exists w f, c_bytes (ob_buffer o) = bs ++ w ++ f /\ zlen w = n /\ zlen (bs ++ w ++ f) = ob_size o.
Proof.
  intros [Hp [rest E] Hs Hm Hl Hc Hr Hls] Hn Hz. rewrite E, zlen_app in Hs.
  destruct (zsplit rest n) as (w & f & -> & Hw); [lia |]. exists w, f.
  split_and!; [done | done |]. rewrite zlen_app. lia.
Qed.

Lemma OB_PutByte_ok o bs locs b :
  OB_rep o bs locs -> zlen bs < STREAM_MAX ->
  exists o', OB_PutByte undef o b = Some o' /\ OB_rep o' (bs ++ [b]) locs.
Proof.
  intros HR Hm. unfold OB_PutByte. pose proof (obr_pos _ _ _ HR) as Hp. rewrite Hp.
  destruct (resize_if_ok (ob_size o <=? zlen bs) o bs locs 1 HR Hm) as (o1 & -> & HR1 & Hroom);
    [lia | intros ?%Z.leb_gt; lia | intros ?%Z.leb_le; lia |].
  simpl. destruct (OB_room o1 bs locs 1 HR1) as (w & f & E & Hw & Hz); [lia | lia |].
  destruct (zlen_pos_cons w) as (x & w' & ->); [lia |]. rewrite zlen_cons in Hw.
  assert (w' = []) as -> by (apply zlen_0_nil; lia). rewrite E. simpl in *. rewrite aset_mid by done. simpl.
  eexists. split; [done |]. apply (set_buffer_rep o1 bs [b] f); [done |].
  rewrite <- Hz. by rewrite !zlen_app, !zlen_cons.
Qed.

Lemma OB_PutBytes_ok o bs locs c :
  OB_rep o bs locs -> 0 <= c_size c <= zlen (c_bytes c) -> zlen bs + c_size c <= STREAM_MAX ->
  exists o', OB_PutBytes undef o c = Some o' /\ OB_rep o' (bs ++ ztake (c_size c) (c_bytes c)) locs.
Proof.
  intros HR Hc Hm. unfold OB_PutBytes. pose proof (obr_pos _ _ _ HR) as Hp. rewrite Hp.
  pose proof (zlen_nonneg bs). pose proof (obr_min _ _ _ HR).
  destruct (ResizeBuffer_loop_ok (Z.to_nat (zlen bs + c_size c)) o bs locs (c_size c) HR)
    as (o1 & -> & HR1 & Hroom); [lia | lia | lia |].
  simpl. destruct (OB_room o1 bs locs (c_size c) HR1) as (w & f & E & Hw & Hz); [lia | lia |].
  rewrite (blit_append _ _ _ _ bs w f) by (done || lia). simpl. eexists. split; [done |].
  replace (zlen bs + c_size c) with (zlen bs + zlen (ztake (c_size c) (c_bytes c))) by (rewrite zlen_ztake; lia).
  apply set_buffer_rep; [done |]. rewrite <- Hz. rewrite !zlen_app, zlen_ztake by lia. lia.
Qed.

(** Writing bytes one by one into an array with room for them. *)
Definition poke_rep (pre : list Z) (cap : Z) (s : list Z * Z) (bs : list Z) : Prop :=
  s.2 = zlen pre + zlen bs /\ exists rest, s.1 = pre ++ bs ++ rest /\ zlen s.1 = cap.

Lemma poke_ok pre cap s bs b :
  poke_rep pre cap s bs -> zlen bs < cap - zlen pre -> 0 <= b < 256 ->
  exists s', poke s b = Some s' /\ poke_rep pre cap s' (bs ++ [b]).
Proof.
  destruct s as [c pos]. intros (Hp & rest & E & Hz) Hm _; simpl in *; subst.
  destruct (zlen_pos_cons rest) as (x & rest' & ->); [zl |].
  rewrite (app_assoc pre bs), aset_mid by (by rewrite zlen_app). simpl. eexists. split; [done |].
  split; simpl; [zl |]. exists rest'. rewrite <- !app_assoc. split; [done | zl].
Qed.

Lemma OB_PutUInt_ok o bs locs i :
  OB_rep o bs locs -> 0 <= i < 2 ^ 31 -> zlen bs < STREAM_MAX ->
  exists o', OB_PutUInt undef o i = Some o' /\ OB_rep o' (bs ++ uint_enc i) locs /\
    ob_locals o' = ob_locals o /\ ob_loc_count o' = ob_loc_count o /\ ob_loc_size o' = ob_loc_size o.
Proof.
  intros HR Hi Hm. unfold OB_PutUInt. rewrite (proj2 (CanPickle_spec i)) by done.
  pose proof (obr_pos _ _ _ HR) as Hp. rewrite Hp. pose proof (zlen_nonneg bs).
  unfold STREAM_MAX in Hm. rewrite u_int_id32 by lia.
  destruct (resize_if_ok (ob_size o <=? zlen bs + 5) o bs locs 5 HR) as (o1 & E1 & HR1 & Hroom);
    [unfold STREAM_MAX; lia | lia | intros ?%Z.leb_gt; lia | intros ?%Z.leb_le; lia |].
  rewrite E1. simpl. destruct (OB_room o1 bs locs 5 HR1) as (w & f & E & Hw & Hz); [lia | lia |].
  pose proof (uint_enc_zlen i Hi) as Hlen. unfold uint_enc in *.
  destruct (put_uint_loop_ok poke (poke_rep bs (ob_size o1)) 5) with (fuel := 5%nat) (i := i)
    (s := (c_bytes (ob_buffer o1), zlen bs)) (bs := @nil Z) as (s' & -> & Hs' & rest & Er & Hcap).
  - intros s bs' b Hs Hb. apply poke_ok; [done |]. lia.
  - assert (2 ^ 31 <= 2 ^ (7 * (Z.of_nat 5 + 1))) by (apply Z.pow_le_mono_r; lia). lia.
  - split; [simpl; change (zlen (@nil Z)) with 0; lia |]. exists (w ++ f). simpl. rewrite E. done.
  - change (zlen (@nil Z)) with 0. lia.
  - simpl in Er, Hs'. destruct s' as [c pos]; simpl in *. subst c pos. eexists. split; [done |].
    split; [by apply set_buffer_rep |].
    destruct (ob_size o <=? zlen bs + 5); simplify_eq; [| done].
    unfold ResizeBuffer in E1. apply bind_Some in E1 as (? & _ & E1). by simplify_eq.
Qed.

(** *** The table of locals *)

Lemma InitArg_mid (b : Block Z) p x s i v :
  b_args b = p ++ x :: s -> i = zlen p ->
  InitArg b i v = Some {| b_header := b_header b; b_args := p ++ v :: s |}.
Proof. intros E Hi. unfold InitArg. by rewrite E, aset_mid. Qed.

Lemma copy_locals_ok i (buf newBuf : Block Z) ps w rest :
  locals_rep buf ps -> Z.of_nat i <= zlen ps ->
  b_args newBuf = w ++ flat (drop i ps) ++ rest -> zlen w = 2 * Z.of_nat i ->
  exists nb, copy_locals i buf newBuf = Some nb /\ b_args nb = flat ps ++ rest.
Proof.
  revert newBuf w. induction i as [| i IH]; intros newBuf w HR Hi E Hw; cbn [copy_locals].
  { rewrite (zlen_0_nil w) in E by lia. by exists newBuf. }
  destruct (aget_is_Some ps (Z.of_nat i) ltac:(lia)) as [x Hx].
  destruct (GetArg_pair buf ps _ x HR Hx) as [G1 G2]. rewrite G1. simpl.
  destruct (zsplit w (2 * Z.of_nat i)) as (w' & t & -> & Hw'); [lia |]. rewrite zlen_app in Hw.
  destruct (zlen_pos_cons t) as (a & t' & ->); [lia |]. rewrite zlen_cons in Hw.
  destruct (zlen_pos_cons t') as (b & t'' & ->); [lia |]. rewrite zlen_cons in Hw.
  assert (t'' = []) as -> by (apply zlen_0_nil; lia).
  rewrite <- app_assoc in E. simpl in E. rewrite (InitArg_mid _ _ _ _ _ _ E) by lia. simpl.
  rewrite G2. simpl.
  erewrite (InitArg_mid _ (w' ++ [x.1])) by first [simpl; by rewrite <- app_assoc | zl]. simpl.
  apply (IH _ w'); [done | lia | | done]. simpl. rewrite <- app_assoc. simpl. f_equal.
  unfold aget in Hx. rewrite decide_True, Nat2Z.id in Hx by lia.
  by rewrite (drop_S ps x i Hx).
Qed.

Lemma ResizeLocals_ok o bs locs :
  OB_rep o bs locs -> ob_loc_size o * 3 <= hw_MAX_BIGBLOCKSIZE HW ->
  exists o', ResizeLocals undef o = Some o' /\ OB_rep o' bs locs /\ ob_loc_size o' = ob_loc_size o * 3.
Proof.
  intros [Hp Hb Hs Hm Hl Hc Hr Hls] Hmax.
  pose proof hw_fields as (_&_&_&_&_&_&_&_&_&_&_&_&_&EM&_).
  unfold ResizeLocals. rewrite u_int_id32 by lia. rewrite Z.shiftr_div_pow2 by lia.
  change (2 ^ 1) with 2. replace (ob_loc_size o * 3 * 2 / 2) with (ob_loc_size o * 3) by (by rewrite Z.div_mul).
  set (n := ob_loc_size o * 3) in *.
  assert (Hn : 384 <= n) by (unfold n; lia).
  set (nb := AllocMutableBlock undef MIN_DATA_LABEL n).
  pose proof (zlen_nonneg locs). assert (Hn' : 0 <= n <= hw_MAX_BIGBLOCKSIZE HW) by lia.
  pose proof (TranslateSize_bounds n Hn') as [Ht _].
  assert (Hnb : n <= zlen (b_args nb)) by (unfold nb; rewrite AllocMutableBlock_zlen by lia; lia).
  rewrite Hc.
  destruct (zsplit (b_args nb) (2 * (zlen locs + 1))) as (w & rest & E & Hw); [lia |].
  destruct (copy_locals_ok (Z.to_nat (zlen locs + 1)) (ob_locals o) nb ((0, 0) :: locs) w rest)
    as (nb' & -> & E'); try done.
  - rewrite zlen_cons. lia.
  - rewrite E. f_equal. rewrite drop_ge; [done |]. unfold zlen. simpl. lia.
  - lia.
  - simpl. eexists. split; [done |]. split; [| done].
    assert (zlen (b_args nb') = zlen (b_args nb)).
    { rewrite E', E, !zlen_app, zlen_flat, zlen_cons. lia. }
    constructor; simpl; try done; try lia. by exists rest.
Qed.

Lemma locals_snoc (b : Block Z) ps x :
  locals_rep b ps -> 2 * zlen ps + 1 < zlen (b_args b) ->
  exists b1 b2, InitArg b (zlen ps * 2) x.1 = Some b1 /\ InitArg b1 (zlen ps * 2 + 1) x.2 = Some b2 /\
    locals_rep b2 (ps ++ [x]) /\ zlen (b_args b2) = zlen (b_args b).
Proof.
  intros [rest E] Hz. destruct b as [h a]; simpl in *. subst a.
  rewrite zlen_app, zlen_flat in Hz.
  destruct (zlen_pos_cons rest) as (u & r' & ->); [lia |]. rewrite zlen_cons in Hz.
  destruct (zlen_pos_cons r') as (v & r'' & ->); [lia |].
  pose proof (zlen_flat ps). unfold InitArg; simpl. rewrite aset_mid by lia. simpl.
  eexists _, _. split; [done |]. simpl.
  replace (flat ps ++ x.1 :: v :: r'') with ((flat ps ++ [x.1]) ++ v :: r'') by (by rewrite <- app_assoc).
  rewrite aset_mid by zl. split_and!; [done | |].
  - exists r''. simpl. rewrite flat_app, <- !app_assoc. done.
  - simpl. zl.
Qed.

Lemma PutLocal_ok o bs locs ref :
  OB_rep o bs locs -> zlen locs < LOCALS_MAX -> zlen bs < STREAM_MAX ->
  exists o', PutLocal undef o ref = Some (o', zlen locs + 1) /\
    OB_rep o' (bs ++ uint_enc (zlen locs + 1)) (locs ++ [(ref, zlen locs + 1)]).
Proof.
  intros HR Hlm Hm. unfold LOCALS_MAX in Hlm. pose proof (zlen_nonneg locs).
  pose proof hw_fields as (_&_&_&_&_&_&_&_&_&_&_&_&_&EM&_).
  unfold PutLocal. rewrite (obr_count _ _ _ HR). rewrite u_int_id32 by lia.
  set (t := ob_loc_size o <=? (zlen locs + 1) * 2 + 1).
  assert (Hex : exists o1, (if t then ResizeLocals undef o else Some o) = Some o1 /\ OB_rep o1 bs locs /\
                  2 * (zlen locs + 1) + 1 < ob_loc_size o1).
  { pose proof HR as [_ _ _ _ _ _ Hr Hls]. unfold t. destruct (Z.leb_spec (ob_loc_size o) ((zlen locs + 1) * 2 + 1)).
    - destruct (ResizeLocals_ok o bs locs HR) as (o1 & -> & HR1 & Hn); [lia |]. exists o1. split_and!; [done | done | lia].
    - exists o. split_and!; [done | done | lia]. }
  destruct Hex as (o1 & -> & HR1 & Hroom). simpl. pose proof HR1 as [Hp1 Hb1 Hs1 Hm1 Hl1 Hc1 Hr1 Hls1].
  destruct (locals_snoc (ob_locals o1) ((0, 0) :: locs) (ref, zlen locs + 1) Hl1) as (b1 & b2 & E1 & E2 & HR2 & Hz2).
  { rewrite zlen_cons. lia. }
  rewrite zlen_cons in E1, E2. rewrite Z.add_comm in E1. simpl in E1. rewrite E1. simpl.
  replace ((1 + zlen locs) * 2 + 1) with ((zlen locs + 1) * 2 + 1) in E2 by lia. simpl in E2. rewrite E2. simpl.
  match goal with |- context [OB_PutUInt undef ?o2] => set (o' := o2) end.
  (* until the count is written back the table still represents [locs] *)
  assert (HRo : OB_rep o' bs locs).
  { destruct HR2 as [rest ER2]. constructor; simpl; try done; try lia.
    exists (flat [(ref, zlen locs + 1)] ++ rest). by rewrite ER2, flat_app, <- app_assoc. }
  destruct (OB_PutUInt_ok o' bs locs (zlen locs + 1) HRo) as (o2 & -> & HR3 & El & Ec & Es); [lia | done |].
  simpl. eexists. split; [done |]. destruct HR3 as [Hp3 Hb3 Hs3 Hm3 _ _ _ _].
  constructor; simpl; rewrite ?El, ?Es; simpl; try done; rewrite ?zlen_app, ?zlen_cons; change (zlen (@nil (Z * Z))) with 0; try lia.
Qed.

(** [GetLocals] sorts the table in place. *)
Lemma GetLocals_ok o bs locs :
  OB_rep o bs locs ->
  exists o' b ps, GetLocals o = Some (o', b) /\ locals_rep b ps /\ ps ≡ₚ (0, 0) :: locs /\
    sorted_on 0 (zlen locs) ps /\ o' = {| ob_buffer := ob_buffer o; ob_locals := b; ob_pos := ob_pos o;
      ob_size := ob_size o; ob_loc_count := ob_loc_count o; ob_loc_size := ob_loc_size o |}.
Proof.
  intros HR. pose proof (obr_count _ _ _ HR) as Hc. pose proof (obr_locals _ _ _ HR) as Hl.
  unfold GetLocals, GetNoOfLocals. rewrite Hc. pose proof (zlen_nonneg locs).
  destruct (Z.ltb_spec 0 (zlen locs)) as [Hpos | Hz].
  - destruct (Sort_ok (Z.to_nat (zlen locs)) (ob_locals o) _ 0 (zlen locs) Hl)
      as (b & ps & -> & HRb & _ & HP & Hs); [lia | rewrite zlen_cons; lia | lia |].
    simpl. eexists _, b, ps. do 2 (split; [done |]). split; [symmetry; apply HP |]. split; [done |]. done.
  - assert (locs = []) as -> by (apply zlen_0_nil; lia).
    exists o, (ob_locals o), [(0, 0)]. do 3 (split; [done |]). split.
    + intros i j x y. change (zlen (@nil (Z * Z))) with 0. lia.
    + rewrite <- Hc. by destruct o.
Qed.

(** *** Operation sequences *)

Inductive ob_op :=
  | Op_PutByte (b : Z)
  | Op_PutBytes (c : Chunk)
  | Op_PutUInt (i : Z)
  | Op_PutLocal (ref : Z)
  | Op_Reset.

Definition ob_step (o : OutputBuffer) (op : ob_op) : option OutputBuffer :=
  match op with
  | Op_PutByte b => OB_PutByte undef o b
  | Op_PutBytes c => OB_PutBytes undef o c
  | Op_PutUInt i => OB_PutUInt undef o i
  | Op_PutLocal ref => fst <$> PutLocal undef o ref
  | Op_Reset => OB_Reset o
  end.

(** The same operation on the bytes and the locals. *)
Definition spec_step (s : list Z * list (Z * Z)) (op : ob_op) : list Z * list (Z * Z) :=
  let '(bs, locs) := s in
  match op with
  | Op_PutByte b => (bs ++ [b], locs)
  | Op_PutBytes c => (bs ++ ztake (c_size c) (c_bytes c), locs)
  | Op_PutUInt i => (bs ++ uint_enc i, locs)
  | Op_PutLocal ref => (bs ++ uint_enc (zlen locs + 1), locs ++ [(ref, zlen locs + 1)])
  | Op_Reset => ([], [])
  end.

(** The operations the pickler performs: bytes, whole chunks, 31-bit integers,
    within the proved sizes. *)
Definition op_ok (s : list Z * list (Z * Z)) (op : ob_op) : Prop :=
  zlen (spec_step s op).1 < STREAM_MAX /\
  match op with
  | Op_PutByte b => is_byte b
  | Op_PutBytes c => 0 <= c_size c <= zlen (c_bytes c)
  | Op_PutUInt i => 0 <= i < 2 ^ 31
  | Op_PutLocal _ => zlen s.2 < LOCALS_MAX
  | Op_Reset => True
  end.

Fixpoint ops_ok (s : list Z * list (Z * Z)) (ops : list ob_op) : Prop :=
  match ops with
  | [] => True
  | op :: ops => op_ok s op /\ ops_ok (spec_step s op) ops
  end.

Fixpoint ob_run (o : OutputBuffer) (ops : list ob_op) : option OutputBuffer :=
  match ops with
  | [] => Some o
  | op :: ops => o ← ob_step o op; ob_run o ops
  end.

Lemma ob_step_ok o s op :
  OB_rep o s.1 s.2 -> zlen s.1 < STREAM_MAX -> op_ok s op ->
  exists o', ob_step o op = Some o' /\ OB_rep o' (spec_step s op).1 (spec_step s op).2.
Proof.
  destruct s as [bs locs]. intros HR Hm [Hmax Hop]; simpl in *.
  destruct op as [b | c | i | ref |]; simpl in *.
  - by apply OB_PutByte_ok.
  - apply OB_PutBytes_ok; [done | done |]. rewrite zlen_app, zlen_ztake in Hmax by lia. lia.
  - destruct (OB_PutUInt_ok o bs locs i HR Hop Hm) as (o' & -> & HR' & _). eauto.
  - destruct (PutLocal_ok o bs locs ref HR Hop Hm) as (o' & -> & HR'). simpl. eauto.
  - by eapply OB_Reset_ok.
Qed.

Lemma ob_run_ok ops o s :
  OB_rep o s.1 s.2 -> zlen s.1 < STREAM_MAX -> ops_ok s ops ->
  exists o', ob_run o ops = Some o' /\
    OB_rep o' (foldl spec_step s ops).1 (foldl spec_step s ops).2.
Proof.
  revert o s. induction ops as [| op ops IH]; intros o s HR Hm Hok; simpl in *; [eauto |].
  destruct Hok as [Hop Hok]. destruct (ob_step_ok o s op HR Hm Hop) as (o1 & -> & HR1). simpl.
  apply IH; [done | apply Hop | done].
Qed.

End BufferSpec.

(** ** Operation sequences on streams *)

Section StreamOps.
Context `{Platform} (undef : Z).
Context {F : Type} (gzputc : F -> Z -> F) (gzwrite : F -> list Z -> F).

Inductive os_op :=
  | Os_PutByte (b : Z)
  | Os_PutChunk (c : Chunk)
  | Os_PutBytes (buf : list Z) (size : Z)
  | Os_PutUInt (i : Z).

Definition os_step (s : OutputStream F) (op : os_op) : option (OutputStream F) :=
  match op with
  | Os_PutByte b => PutByte undef gzputc s b
  | Os_PutChunk c => PutChunk undef gzwrite s c
  | Os_PutBytes buf size => PutBytes undef gzwrite s buf size
  | Os_PutUInt i => PutUInt undef gzputc s i
  end.

(** The bytes an operation appends. *)
Definition os_bytes (op : os_op) : list Z :=
  match op with
  | Os_PutByte b => [b]
  | Os_PutChunk c => ztake (c_size c) (c_bytes c)
  | Os_PutBytes buf size => ztake size buf
  | Os_PutUInt i => uint_enc i
  end.

Definition os_op_ok (op : os_op) : Prop :=
  match op with
  | Os_PutByte b => is_byte b
  | Os_PutChunk c => 0 <= c_size c <= zlen (c_bytes c)
  | Os_PutBytes buf size => 0 <= size <= zlen buf
  | Os_PutUInt i => 0 <= i < 2 ^ 31
  end.

Fixpoint os_run (s : OutputStream F) (ops : list os_op) : option (OutputStream F) :=
  match ops with
  | [] => Some s
  | op :: ops => s ← os_step s op; os_run s ops
  end.

Variable written : F -> list Z.
Hypothesis gzputc_appends : forall f b, written (gzputc f b) = written f ++ [b].
Hypothesis gzwrite_appends : forall f bs, written (gzwrite f bs) = written f ++ bs.

Lemma PutChunk_PutBytes s c :
  PutChunk undef gzwrite s c = PutBytes undef gzwrite s (c_bytes c) (c_size c).
Proof. by destruct s. Qed.

Lemma os_step_ok s bs op :
  OS_rep written s bs -> os_op_ok op -> zlen bs + zlen (os_bytes op) + 5 <= STREAM_MAX ->
  exists s', os_step s op = Some s' /\ OS_rep written s' (bs ++ os_bytes op).
Proof.
  intros HR Hop Hm. destruct op as [b | c | buf size | i]; cbn [os_step os_bytes os_op_ok] in *.
  - rewrite zlen_cons in Hm. change (zlen (@nil Z)) with 0 in Hm. eapply OS_PutByte_ok; (done || lia).
  - rewrite PutChunk_PutBytes. rewrite zlen_ztake in Hm by lia. eapply OS_PutBytes_ok; (done || lia).
  - rewrite zlen_ztake in Hm by lia. eapply OS_PutBytes_ok; (done || lia).
  - pose proof (uint_enc_zlen i Hop). eapply PutUInt_ok; (done || lia).
Qed.

Lemma os_run_ok ops s bs :
  OS_rep written s bs -> Forall os_op_ok ops ->
  zlen (bs ++ (ops ≫= os_bytes)) + 5 <= STREAM_MAX ->
  exists s', os_run s ops = Some s' /\ OS_rep written s' (bs ++ (ops ≫= os_bytes)).
Proof.
  revert s bs. induction ops as [| op ops IH]; intros s bs HR Hok Hm; cbn [os_run].
  { simpl. rewrite app_nil_r. eauto. }
  inversion Hok as [| ? ? Hop Hok']; subst. rewrite bind_cons in Hm |- *.
  destruct (os_step_ok s bs op HR Hop) as (s1 & -> & HR1).
  { rewrite !zlen_app in Hm. pose proof (zlen_nonneg (ops ≫= os_bytes)). lia. }
  simpl. rewrite app_assoc in Hm |- *. by apply IH.
Qed.

(** A string stream stays one. *)
Lemma os_run_string ops s r :
  os_run (STRING_OUTPUT_STREAM s) ops = Some r -> exists s', r = STRING_OUTPUT_STREAM s'.
Proof.
  set (P := fun r : OutputStream F => exists s', r = STRING_OUTPUT_STREAM s').
  assert (Hput : forall s b s', P s -> PutByte undef gzputc s b = Some s' -> P s').
  { intros ? b s' [s1 ->] E. simpl in E. destruct (SOS_PutByte _ _ _); simplify_eq/=. by eexists. }
  assert (Hstep : forall s op s', P s -> os_step s op = Some s' -> P s').
  { intros ? op s' [s1 ->] E. destruct op; cbn [os_step] in E.
    - eapply Hput; [| exact E]. by eexists.
    - simpl in E. destruct (SOS_PutChunk _ _ _); simplify_eq/=. by eexists.
    - simpl in E. destruct (SOS_PutBytes _ _ _ _); simplify_eq/=. by eexists.
    - unfold PutUInt in E. destruct (CanPickle i); [| done].
      eapply (put_uint_loop_inv _ P Hput); [| exact E]. by eexists. }
  assert (Hrun : forall ops s, P s -> os_run s ops = Some r -> P r).
  { clear s ops. induction ops as [| op ops IH]; intros s Hs E; cbn [os_run] in E; [by simplify_eq |].
    apply bind_Some in E as (s1 & E1 & E). eauto. }
  intros E. eapply Hrun; [| exact E]. by eexists.
Qed.

End StreamOps.

(** ** Properties *)

Section Properties.
Context `{Platform} (undef : Z).

(** C31. The output buffer implements a byte list and a table of locals: any
    sequence of the pickler's writes and resets from a new buffer runs without
    an access outside its memory, however often it is enlarged; afterwards the
    first [GetPos] bytes are the bytes written, and [GetLocals] returns the
    table - with its sentinel (0,0) - as a permutation sorted by position. *)
Theorem output_buffer_refines (ops : list ob_op) :
  ops_ok ([], []) ops ->
  exists o0 o o' b ps, OB_New undef = Some o0 /\ ob_run undef o0 ops = Some o /\
    let '(bs, locs) := foldl spec_step ([], []) ops in
    OB_GetPos o = zlen bs /\ ztake (OB_GetPos o) (c_bytes (OB_GetBuffer o)) = bs /\
    zlen bs <= OB_GetSize o /\ OB_GetSize o = zlen (c_bytes (ob_buffer o)) /\
    GetNoOfLocals o = zlen locs /\
    GetLocals o = Some (o', b) /\ locals_rep b ps /\ ps ≡ₚ (0, 0) :: locs /\
    sorted_on 0 (zlen locs) ps.
Proof.
  intros Hok. destruct (OB_New_ok undef) as (o0 & E0 & HR0).
  destruct (ob_run_ok undef ops o0 ([], []) HR0 ltac:(done) Hok) as (o & E & HR).
  destruct (GetLocals_ok _ _ _ HR) as (o' & b & ps & EL & HL & HP & HS & _).
  exists o0, o, o', b, ps. do 2 (split; [done |]).
  destruct (foldl spec_step ([], []) ops) as [bs locs]; simpl in *.
  pose proof HR as [Hp [rest Eb] Hs _ _ Hc _ _]. unfold OB_GetPos, OB_GetBuffer, OB_GetSize, GetNoOfLocals.
  split; [done |]. split; [by rewrite Hp, Eb, ztake_pieces |].
  split; [rewrite Hs, Eb, zlen_app; pose proof (zlen_nonneg rest); lia |]. do 2 (split; [done |]).
  split; [exact EL |]. split; [done |]. by split.
Qed.

(** Closing a string stream does not restrict the string to the bytes
    written: its size field, which counts words, is set to the number of bytes -
    more words than the string has as soon as that many are written - while its
    byte size remains that of the whole buffer. *)
Theorem string_close_size (buf : list Z) :
  zlen buf < SOS_INITIAL_SIZE ->
  exists s, SOS_PutBytes undef (SOS_New undef) buf (zlen buf) = Some s /\ SOS_rep s buf /\
    DecodeSize (c_header (so_string s)) = chunk_words SOS_INITIAL_SIZE /\
    DecodeSize (c_header (SOS_Close s)) = zlen buf /\ c_size (SOS_Close s) = SOS_INITIAL_SIZE.
Proof.
  unfold SOS_INITIAL_SIZE. intros Hb. pose proof (zlen_nonneg buf).
  pose proof hw_fields as (_&_&_&_&_&_&_&_&_&_&_&_&Em&EM&_).
  assert (Hw : 0 <= chunk_words 256 <= 65).
  { unfold chunk_words. destruct MIN_WIDTH_cases as [-> | ->]; vm_compute; split; discriminate. }
  destruct (SOS_PutBytes_ok undef (SOS_New undef) [] buf (zlen buf)) as (s & E & HR);
    [apply SOS_New_rep | lia | change (zlen (@nil Z)) with 0; unfold STREAM_MAX; lia |].
  rewrite ztake_all in HR by lia. exists s. split; [done |]. split; [done |].
  assert (Hs : c_header (so_string s) = EncodeHeader CHUNK_LABEL (TranslateSize (chunk_words 256)) 0 0 /\
               so_pos s = zlen buf /\ c_size (so_string s) = 256).
  { unfold SOS_PutBytes in E. cbn [so_pos SOS_New] in E.
    destruct (Z.to_nat (0 + zlen buf)) eqn:En; cbn [SOS_Enlarge_loop so_size SOS_New] in E;
      unfold SOS_INITIAL_SIZE in E; rewrite u_int_id32 in E by lia;
      destruct (Z.leb_spec 256 (0 + zlen buf)) in E; try lia; simpl in E;
      apply bind_Some in E as (c & _ & E); simplify_eq; done. }
  destruct Hs as (Hh & Hp & Hc). unfold SOS_Close; simpl. rewrite Hh, Hp.
  assert (Hbig : f_big (fields_of (EncodeHeader CHUNK_LABEL (TranslateSize (chunk_words 256)) 0 0)) = 0).
  { rewrite (EncodeHeader_fields CHUNK_LABEL (TranslateSize (chunk_words 256)) 0 0); rewrite ?TranslateSize_small by lia; try lia.
    - simpl. destruct (Z.ltb_spec (hw_MAX_BLOCKSIZE HW) (chunk_words 256)); [lia | done].
    - vm_compute. split; [discriminate | done]. }
  split; [rewrite DecodeSize_EncodeHeader, TranslateSize_small; try lia; vm_compute; split; [discriminate | done] |].
  split; [| done].
  pose proof width_bounds. unfold fields_of in Hbig; simpl in Hbig.
  assert (Hr : zlen buf < 2 ^ (STORE_WORD_WIDTH - 12)).
  { apply Z.lt_le_trans with (2 ^ 20); [lia | apply Z.pow_le_mono_r; lia]. }
  rewrite DecodeSize_field, EncodeSize_field, field_get_set_same, field_get_set_other, Hbig by lia.
  change (2 ^ (4 * 0)) with 1. rewrite Z.mul_1_r. apply u_int_id32. lia.
Qed.

(** C38. Both kinds of output stream implement a byte list: any sequence of
    writes from an empty stream runs without an access outside its memory, and
    the stream then holds the concatenation of the bytes of the writes, an
    integer in the variable-length encoding.  For a file the compressed file
    operations are assumed to append to the uncompressed contents. *)
Theorem output_stream_refines {F} (gzputc : F -> Z -> F) (gzwrite : F -> list Z -> F)
    (written : F -> list Z) (s : OutputStream F) (ops : list os_op) :
  (forall f b, written (gzputc f b) = written f ++ [b]) ->
  (forall f bs, written (gzwrite f bs) = written f ++ bs) ->
  match s with
  | FILE_OUTPUT_STREAM f => written (fo_file f) = []
  | STRING_OUTPUT_STREAM s => s = SOS_New undef
  end ->
  Forall os_op_ok ops -> zlen (ops ≫= os_bytes) + 5 <= STREAM_MAX ->
  exists s', os_run undef gzputc gzwrite s ops = Some s' /\
    match s' with
    | FILE_OUTPUT_STREAM f => written (fo_file f) = ops ≫= os_bytes
    | STRING_OUTPUT_STREAM s' =>
        ztake (so_pos s') (c_bytes (so_string s')) = ops ≫= os_bytes /\
        so_pos s' < so_size s' /\ so_size s' = c_size (so_string s')
    end.
Proof.
  intros Hc Hw Hs Hok Hm.
  assert (HR : OS_rep written s []).
  { destruct s as [s | s]; simpl; [done | subst s; apply SOS_New_rep]. }
  destruct (os_run_ok undef gzputc gzwrite written Hc Hw ops s [] HR Hok Hm) as (s' & E & HR').
  exists s'. split; [done |]. destruct s' as [f | s']; simpl in *; [done |].
  destruct HR' as (Hp & Hsz & Hlt & _ & Hcs & rest & Eb).
  rewrite Hp, Eb, ztake_pieces by done. split_and!; [done | lia | lia].
Qed.

End Properties.

Definition chunk_of (bs : list Z) : Chunk := {| c_header := 0; c_size := zlen bs; c_bytes := bs |}.

Lemma output_buffer_refines_witness :
  let ops := [Op_PutByte 2; Op_PutLocal 7; Op_Reset; Op_PutBytes (chunk_of [1; 2; 3]); Op_PutUInt 300;
              Op_PutLocal 4; Op_PutLocal 2; Op_PutLocal 0] in
  exists o0 o o' b ps, @OB_New P32 0 = Some o0 /\ @ob_run P32 0 o0 ops = Some o /\
    ztake (OB_GetPos o) (c_bytes (OB_GetBuffer o)) = [1; 2; 3; 172; 2; 1; 2; 3] /\
    GetLocals o = Some (o', b) /\ locals_rep b ps /\ ps ≡ₚ [(0, 0); (4, 1); (2, 2); (0, 3)] /\
    sorted_on 0 3 ps.
Proof.
  destruct (@output_buffer_refines P32 0 [Op_PutByte 2; Op_PutLocal 7; Op_Reset;
    Op_PutBytes (chunk_of [1; 2; 3]); Op_PutUInt 300; Op_PutLocal 4; Op_PutLocal 2; Op_PutLocal 0])
    as (o0 & o & o' & b & ps & E0 & E & _ & Hb & _ & _ & _ & EL & HL & HP & HS).
  - repeat split; vm_compute; (reflexivity || discriminate).
  - exists o0, o, o', b, ps. do 6 (split; [assumption |]). assumption.
Defined.

Lemma string_close_size_witness :
  exists s, @SOS_PutBytes P32 0 (@SOS_New P32 0) (replicate 200 7) 200 = Some s /\
    @DecodeSize P32 (c_header (so_string s)) = 65 /\
    @DecodeSize P32 (c_header (@SOS_Close P32 s)) = 200.
Proof.
  destruct (@string_close_size P32 0 (replicate 200 7)) as (s & E & _ & H1 & H2 & _); [reflexivity |].
  exists s. split; [exact E |]. split; [exact H1 | exact H2].
Defined.

Lemma output_stream_refines_witness :
  exists s', @os_run P64 0 (list Z) (fun f b => f ++ [b]) (fun f bs => f ++ bs)
    (FILE_OUTPUT_STREAM {| fo_file := []; fo_key := 0 |})
    [Os_PutBytes [115; 101; 97; 109; 99] 4; Os_PutUInt 5; Os_PutByte 0; Os_PutUInt 1000] = Some s' /\
    match s' with
    | FILE_OUTPUT_STREAM f => fo_file f = [115; 101; 97; 109; 5; 0; 232; 7]
    | STRING_OUTPUT_STREAM _ => False
    end.
Proof.
  destruct (@output_stream_refines P64 0 (list Z) (fun f b => f ++ [b]) (fun f bs => f ++ bs) id
    (FILE_OUTPUT_STREAM {| fo_file := []; fo_key := 0 |})
    [Os_PutBytes [115; 101; 97; 109; 99] 4; Os_PutUInt 5; Os_PutByte 0; Os_PutUInt 1000]) as (s' & E & _).
  - reflexivity.
  - reflexivity.
  - reflexivity.
  - repeat constructor; vm_compute; (reflexivity || discriminate).
  - vm_compute. discriminate.
  - exists s'. split; [exact E |]. vm_compute in E. injection E as <-. reflexivity.
Defined.
