(* ===== verification/InputStream.v ===== *)
(** * Pickle input: the input stream (seam/generic/Unpickler.cc)

    Bytes are read from a buffer between a committed position [hd] and the end
    [tl]; a read that finds too little data sets the end-of-buffer flag, and
    [FillBuffer] undoes the reads since the last [Commit] and gets more data.
    [None] is an access outside the buffer, an undefined shift or a call of
    [Error].  The compressed file is a parameter. *)

From S2P Require Import Prelude Config HeaderOp PointerOp Block OutputStream.

Definition READ_BUFFER_SIZE : Z := 8192.
Definition READ_BUFFER_OVERSHOOT : Z := 20.

(** The operations of the compressed file library the stream calls. *)
Record gz_ops (G : Type) := {
  gzread : G -> Z -> Z * list Z * G;
  gzgetc : G -> Z * G;
  gzseek : G -> Z -> G;
  gzrewind : G -> G;
  gzcloser : G -> G
}.
Arguments gzread {G} _ _ _.
Arguments gzgetc {G} _ _.
Arguments gzseek {G} _ _ _.
Arguments gzrewind {G} _ _.
Arguments gzcloser {G} _ _.

(** The exceptions of [FillBuffer]. *)
Inductive exn := IOError | Corrupt.

Inductive fill_result := Fill_RAISE (e : exn) | Fill_CONTINUE.

(** [FILE_INPUT_STREAM] with its file and finalization key, or
    [STRING_INPUT_STREAM]. *)
Inductive in_stream_type (G : Type) :=
  | FILE_INPUT_STREAM (file : G) (key : Z)
  | STRING_INPUT_STREAM.
Arguments FILE_INPUT_STREAM {G} _ _.
Arguments STRING_INPUT_STREAM {G}.

Record InputStream (G : Type) := mkInputStream {
  is_hd : Z; is_tl : Z; is_rd : Z; is_eob : bool; is_buffer : Chunk; is_type : in_stream_type G
}.
Arguments mkInputStream {G} _ _ _ _ _ _.
Arguments is_hd {G} _.
Arguments is_tl {G} _.
Arguments is_rd {G} _.
Arguments is_eob {G} _.
Arguments is_buffer {G} _.
Arguments is_type {G} _.

Section InputStream.
Context `{Platform} (undef : Z) {G : Type} (gz : gz_ops G).
Implicit Types t : InputStream G.

Definition SetHd t (v : Z) := mkInputStream v (is_tl t) (is_rd t) (is_eob t) (is_buffer t) (is_type t).
Definition SetTl t (v : Z) := mkInputStream (is_hd t) v (is_rd t) (is_eob t) (is_buffer t) (is_type t).
Definition SetRd t (v : Z) := mkInputStream (is_hd t) (is_tl t) v (is_eob t) (is_buffer t) (is_type t).
Definition SetEOB t (v : bool) := mkInputStream (is_hd t) (is_tl t) (is_rd t) v (is_buffer t) (is_type t).
Definition SetBuffer t (v : Chunk) := mkInputStream (is_hd t) (is_tl t) (is_rd t) (is_eob t) v (is_type t).
Definition SetType t (v : in_stream_type G) :=
  mkInputStream (is_hd t) (is_tl t) (is_rd t) (is_eob t) (is_buffer t) v.

(** A file that could not be opened leaves the stream without a buffer; the
    caller tests it with [HasException] and drops the stream. *)
Definition NewFromFile (file : G) (fs : FinalizationSet G) : InputStream G * FinalizationSet G :=
  let n := READ_BUFFER_SIZE + READ_BUFFER_OVERSHOOT in
  let buffer := AllocMutableChunk n (fresh undef n) in
  let '(fs, key) := Register fs file in
  (mkInputStream 0 0 0 false buffer (FILE_INPUT_STREAM file key), fs).

Definition NewFromString (s : Chunk) : InputStream G :=
  mkInputStream 0 (c_size s) 0 false s STRING_INPUT_STREAM.

Definition IsEOB t : bool := is_eob t.

Definition IsEOF t : bool * InputStream G :=
  match is_type t with
  | FILE_INPUT_STREAM file key =>
      if is_tl t <=? is_rd t then
        let '(c, file) := gzgetc gz file in
        if c <? 0 then (true, SetType t (FILE_INPUT_STREAM (gzseek gz file (-1)) key))
        else (false, SetType t (FILE_INPUT_STREAM file key))
      else (false, t)
  | STRING_INPUT_STREAM => (is_tl t <=? is_rd t, t)
  end.

Definition GetByte t : option (Z * InputStream G) :=
  let rd := is_rd t in
  if is_tl t <=? rd then Some (0, SetEOB t true)
  else
    b ← aget (c_bytes (is_buffer t)) rd;
    Some (b, SetRd t (u_int (rd + 1))).

(** The result is the position of the bytes in the buffer. *)
Definition GetBytes t (n : Z) : Z * InputStream G :=
  let rd := is_rd t in
  (rd, if is_tl t <=? u_int (rd + n) then SetEOB t true else SetRd t (u_int (rd + n))).

(** Conversion to [int]. *)
Definition int32 (z : Z) : Z :=
  let u := z mod 2 ^ 32 in if u <? 2 ^ 31 then u else u - 2 ^ 32.

Fixpoint GetUInt_loop (fuel : nat) t (shift freeBits value : Z) : option (Z * InputStream G) :=
  match fuel with
  | O => None
  | Datatypes.S fuel =>
      '(b, t) ← GetByte t;
      if IsEOB t then Some (0, t)
      else
        let c := Z.land b 0x7F in
        if freeBits <? 0 then None
        else if u_int (int32 (Z.shiftl 1 freeBits)) <=? c then None
        else
          let value := Z.lor value (u_int (int32 (Z.shiftl c shift))) in
          if Z.land b 0x80 =? 0 then Some (value, t)
          else GetUInt_loop fuel t (shift + 7) (freeBits - 7) value
  end.

Definition GetUInt t : option (Z * InputStream G) := GetUInt_loop 6 t 0 INT_PRECISION 0.

Definition Commit t : InputStream G := SetHd t (is_rd t).

Definition IS_Close t (fs : FinalizationSet G) : InputStream G * FinalizationSet G :=
  match is_type t with
  | FILE_INPUT_STREAM file key => (SetType t (FILE_INPUT_STREAM (gzcloser gz file) key), Unregister fs key)
  | STRING_INPUT_STREAM => (t, fs)
  end.

Definition Rewind t : InputStream G :=
  let t :=
    match is_type t with
    | FILE_INPUT_STREAM file key => SetTl (SetType t (FILE_INPUT_STREAM (gzrewind gz file) key)) 0
    | STRING_INPUT_STREAM => SetTl t (c_size (is_buffer t))
    end in
  SetEOB (SetRd (SetHd t 0) 0) false.

(** *** FillBuffer *)

(** Make room: the stream, the value of [tl] to be written back, the place to
    fill and the number of bytes that fit there. *)
Definition make_room t : option (InputStream G * Z * Z * Z) :=
  let hd := is_hd t in
  let tl := is_tl t in
  let buffer := is_buffer t in
  let size := c_size buffer in
  if 0 <? hd then
    let tl := tl - hd in
    bytes ← blit (c_bytes buffer) hd (c_bytes buffer) 0 tl;
    Some (SetHd (SetBuffer t (set_bytes buffer bytes)) 0, tl, tl, size - tl)
  else if tl =? size then
    let newBuffer := String_New undef (u_int (size + READ_BUFFER_SIZE)) in
    bytes ← blit (c_bytes buffer) 0 (c_bytes newBuffer) 0 size;
    Some (SetBuffer t (set_bytes newBuffer bytes), tl, size, READ_BUFFER_SIZE)
  else Some (t, tl, tl, size - tl).

Definition FillBuffer t : option (fill_result * InputStream G) :=
  match is_type t with
  | FILE_INPUT_STREAM file key =>
      '(t, tl, pos, size) ← make_room t;
      let t := SetEOB (SetRd t (is_hd t)) false in
      if UINT_MAX <? size then None
      else
        let '(nread, data, file) := gzread gz file size in
        let t := SetType t (FILE_INPUT_STREAM file key) in
        if nread <? 0 then Some (Fill_RAISE IOError, t)
        else if nread =? 0 then Some (Fill_RAISE Corrupt, t)
        else
          bytes ← blit data 0 (c_bytes (is_buffer t)) pos nread;
          Some (Fill_CONTINUE, SetTl (SetBuffer t (set_bytes (is_buffer t) bytes)) (tl + nread))
  | STRING_INPUT_STREAM => Some (Fill_RAISE Corrupt, t)
  end.

End InputStream.

(** ** Positions in the buffer *)

Section Reading.
Context `{Platform} {G : Type}.
Implicit Types t : InputStream G.

(** The stream's positions lie in its buffer, which is within the proved size. *)
Definition IS_MAX : Z := 2 ^ 30.

Record IS_ok t : Prop := {
  iso_hd : 0 <= is_hd t <= is_rd t;
  iso_rd : is_rd t <= is_tl t;
  iso_tl : is_tl t <= c_size (is_buffer t);
  iso_size : c_size (is_buffer t) = zlen (c_bytes (is_buffer t));
  iso_max : c_size (is_buffer t) <= IS_MAX
}.

(** The bytes not yet read, and those not yet committed. *)
Definition buffered t : list Z := zseg (c_bytes (is_buffer t)) (is_rd t) (is_tl t - is_rd t).
Definition uncommitted t : list Z := zseg (c_bytes (is_buffer t)) (is_hd t) (is_tl t - is_hd t).

(** [t'] differs from [t] at most in the read position and the flag. *)
Definition same_data t t' : Prop :=
  is_hd t' = is_hd t /\ is_tl t' = is_tl t /\ is_buffer t' = is_buffer t /\ is_type t' = is_type t /\
  is_rd t <= is_rd t' <= is_tl t.

Lemma same_data_refl t : is_rd t <= is_tl t -> same_data t t.
Proof. repeat split; lia. Qed.

Lemma same_data_SetEOB t v : IS_ok t -> same_data t (SetEOB t v).
Proof. intros [? ? ? ? ?]. repeat split; simpl; lia. Qed.

Lemma same_data_trans t1 t2 t3 : same_data t1 t2 -> same_data t2 t3 -> same_data t1 t3.
Proof.
  intros (A1&A2&A3&A4&A5) (B1&B2&B3&B4&B5).
  split_and!; congruence || lia.
Qed.

Lemma buffered_zlen t : IS_ok t -> zlen (buffered t) = is_tl t - is_rd t.
Proof. intros [? ? ? ? ?]. unfold buffered. rewrite zlen_zseg; lia. Qed.

Lemma uncommitted_zlen t : IS_ok t -> zlen (uncommitted t) = is_tl t - is_hd t.
Proof. intros [? ? ? ? ?]. unfold uncommitted. rewrite zlen_zseg; lia. Qed.

(** Reading on within the buffered bytes. *)
Lemma buffered_SetRd t bs rest :
  IS_ok t -> buffered t = bs ++ rest ->
  IS_ok (SetRd t (is_rd t + zlen bs)) /\ buffered (SetRd t (is_rd t + zlen bs)) = rest.
Proof.
  intros Ht E. pose proof (buffered_zlen t Ht) as Hz. rewrite E, zlen_app in Hz.
  pose proof (zlen_nonneg bs). pose proof (zlen_nonneg rest). destruct Ht as [? ? ? ? ?].
  split; [constructor; simpl; lia |].
  unfold buffered, zseg in *; simpl. rewrite Z.add_comm, <- zdrop_zdrop by lia.
  replace (is_tl t - (zlen bs + is_rd t)) with (is_tl t - is_rd t - zlen bs) by lia.
  rewrite <- zdrop_ztake by lia. by rewrite E, zdrop_pieces.
Qed.

Lemma SetRd_same t bs rest :
  IS_ok t -> buffered t = bs ++ rest -> same_data t (SetRd t (is_rd t + zlen bs)).
Proof.
  intros Ht E. pose proof (buffered_zlen t Ht) as Hz. rewrite E, zlen_app in Hz.
  pose proof (zlen_nonneg bs). pose proof (zlen_nonneg rest). repeat split; simpl; lia.
Qed.

Lemma aget_buffered t b rest :
  IS_ok t -> buffered t = b :: rest -> aget (c_bytes (is_buffer t)) (is_rd t) = Some b.
Proof.
  intros Ht E. pose proof (buffered_zlen t Ht) as Hz. rewrite E, zlen_cons in Hz.
  pose proof (zlen_nonneg rest). destruct Ht as [? ? ? ? ?].
  assert (A : aget (buffered t) 0 = Some b) by (by rewrite E).
  unfold buffered, zseg in A. rewrite aget_ztake in A by lia.
  rewrite aget_zdrop in A by lia. by rewrite Z.add_0_r in A.
Qed.

(** ** GetByte and GetBytes *)

Lemma GetByte_ok t b rest :
  IS_ok t -> buffered t = b :: rest -> GetByte t = Some (b, SetRd t (is_rd t + 1)).
Proof.
  intros Ht E. pose proof (buffered_zlen t Ht) as Hz. rewrite E, zlen_cons in Hz.
  pose proof (zlen_nonneg rest). unfold GetByte. destruct (Z.leb_spec (is_tl t) (is_rd t)); [lia |].
  rewrite (aget_buffered t b rest Ht E). simpl. destruct Ht as [? ? ? ? Hm]. unfold IS_MAX in Hm.
  by rewrite u_int_id32 by lia.
Qed.

Lemma GetByte_short t : IS_ok t -> buffered t = [] -> GetByte t = Some (0, SetEOB t true).
Proof.
  intros Ht E. pose proof (buffered_zlen t Ht) as Hz. rewrite E in Hz. change (zlen (@nil Z)) with 0 in Hz.
  unfold GetByte. destruct (Z.leb_spec (is_tl t) (is_rd t)); [done | lia].
Qed.

Lemma GetBytes_ok t n :
  IS_ok t -> 0 <= n < zlen (buffered t) -> GetBytes t n = (is_rd t, SetRd t (is_rd t + n)).
Proof.
  intros Ht Hn. rewrite buffered_zlen in Hn by done. destruct Ht as [? ? ? ? Hm]. unfold IS_MAX in Hm.
  unfold GetBytes. rewrite u_int_id32 by lia. destruct (Z.leb_spec (is_tl t) (is_rd t + n)); [lia | done].
Qed.

Lemma GetBytes_short t n :
  IS_ok t -> 0 <= n < 2 ^ 31 -> zlen (buffered t) <= n -> GetBytes t n = (is_rd t, SetEOB t true).
Proof.
  intros Ht Hn Hs. rewrite buffered_zlen in Hs by done. destruct Ht as [? ? ? ? Hm]. unfold IS_MAX in Hm.
  unfold GetBytes. rewrite u_int_id32 by lia. destruct (Z.leb_spec (is_tl t) (is_rd t + n)); [done | lia].
Qed.

(** ** GetUInt *)

Lemma int32_id z : 0 <= z < 2 ^ 31 -> int32 z = z.
Proof. intros Hz. unfold int32. rewrite Z.mod_small by lia. destruct (Z.ltb_spec z (2 ^ 31)); lia. Qed.

(** The range check passes for every group of bits below [2 ^ freeBits]. *)
Lemma range_check_ok c fb :
  0 <= c < 128 -> 0 <= fb <= 31 -> c < 2 ^ fb -> (u_int (int32 (Z.shiftl 1 fb)) <=? c) = false.
Proof.
  intros Hc Hf Hlt. apply Z.leb_gt. rewrite Z.shiftl_mul_pow2, Z.mul_1_l by lia.
  pose proof width_cases as Hw. destruct (decide (fb = 31)) as [-> | ?].
  - assert (int32 (2 ^ 31) = - 2 ^ 31) as -> by (vm_compute; reflexivity). unfold u_int.
    destruct Hw as [-> | ->].
    + assert (- 2 ^ 31 mod 2 ^ 32 = 2 ^ 31) as -> by (vm_compute; reflexivity). lia.
    + assert (- 2 ^ 31 mod 2 ^ 64 = 2 ^ 64 - 2 ^ 31) as -> by (vm_compute; reflexivity). lia.
  - assert (2 ^ fb <= 2 ^ 30) by (apply Z.pow_le_mono_r; lia).
    rewrite int32_id, u_int_id32 by lia. lia.
Qed.

Lemma low7 i : 0 <= i < 128 -> Z.land i 0x7F = i /\ Z.land i 0x80 = 0.
Proof.
  intros Hi. change 0x7F with (2 ^ 7 - 1). rewrite land_low by lia. change (2 ^ 7) with 128.
  split; [by apply Z.mod_small |].
  apply Z.bits_inj'. intros k Hk. rewrite Z.land_spec, Z.bits_0.
  destruct (decide (k < 7)).
  - assert (Z.testbit 0x80 k = false) as ->; [| by rewrite andb_false_r].
    change 0x80 with (2 ^ 7). by rewrite Z.pow2_bits_false by lia.
  - rewrite (testbit_small i 7); [done | change (2 ^ 7) with 128; lia | lia].
Qed.

Lemma high7 i : 0 <= i < 128 -> Z.land (i + 128) 0x7F = i /\ (Z.land (i + 128) 0x80 =? 0) = false.
Proof.
  intros Hi. split.
  - change 0x7F with (2 ^ 7 - 1). rewrite land_low by lia. change (2 ^ 7) with 128.
    replace (i + 128) with (i + 1 * 128) by lia. by rewrite Z.mod_add, Z.mod_small by lia.
  - apply Z.eqb_neq. intros E. apply (f_equal (fun z => Z.testbit z 7)) in E.
    rewrite Z.land_spec, Z.bits_0 in E. change (Z.testbit 0x80 7) with true in E.
    rewrite andb_true_r, Z.testbit_odd, Z.shiftr_div_pow2 in E by lia.
    change (2 ^ 7) with 128 in E. replace (i + 128) with (i + 1 * 128) in E by lia.
    rewrite Z.div_add, Z.div_small in E by lia. done.
Qed.

Lemma lor_shift value c sh :
  0 <= sh <= 31 -> 0 <= value < 2 ^ sh -> 0 <= c -> c * 2 ^ sh < 2 ^ 31 ->
  Z.lor value (u_int (int32 (Z.shiftl c sh))) = value + c * 2 ^ sh.
Proof.
  intros Hs Hv Hc Hm. rewrite Z.shiftl_mul_pow2 by lia.
  assert (0 <= c * 2 ^ sh) by (apply Z.mul_nonneg_nonneg; lia).
  rewrite int32_id, u_int_id32 by lia. rewrite Z.lor_comm, (lor_low _ _ sh); [lia | lia | | done].
  by rewrite Z.mod_mul by lia.
Qed.

(** One step of the loop, at a byte that is not refused. *)
Lemma GetUInt_step fuel t b rest shift fb value :
  IS_ok t -> is_eob t = false -> buffered t = b :: rest ->
  0 <= fb <= 31 -> 0 <= Z.land b 0x7F < 128 -> Z.land b 0x7F < 2 ^ fb ->
  GetUInt_loop (Datatypes.S fuel) t shift fb value =
    let value' := Z.lor value (u_int (int32 (Z.shiftl (Z.land b 0x7F) shift))) in
    if Z.land b 0x80 =? 0 then Some (value', SetRd t (is_rd t + 1))
    else GetUInt_loop fuel (SetRd t (is_rd t + 1)) (shift + 7) (fb - 7) value'.
Proof.
  intros Ht He E Hf Hc Hlt. cbn [GetUInt_loop]. rewrite (GetByte_ok t b rest Ht E).
  cbn [mbind option_bind]. unfold IsEOB. simpl is_eob. rewrite He.
  destruct (Z.ltb_spec fb 0); [lia |]. by rewrite range_check_ok.
Qed.

Lemma GetUInt_loop_ok n fuel t i shift value rest :
  IS_ok t -> is_eob t = false -> buffered t = uint_bytes n i ++ rest ->
  (n < fuel)%nat -> 0 <= shift <= 31 -> 0 <= i -> i * 2 ^ shift < 2 ^ 31 -> i < 2 ^ (7 * (Z.of_nat n + 1)) ->
  0 <= value < 2 ^ shift ->
  GetUInt_loop fuel t shift (31 - shift) value =
    Some (value + i * 2 ^ shift, SetRd t (is_rd t + zlen (uint_bytes n i))).
Proof.
  revert fuel t i shift value. induction n as [| n IH]; intros fuel t i shift value Ht He E Hf Hs Hi Hm Hn Hv;
    (destruct fuel as [| fuel]; [lia |]);
    assert (Hfb : 2 ^ 31 = 2 ^ shift * 2 ^ (31 - shift)) by (rewrite <- Z.pow_add_r by lia; f_equal; lia);
    assert (Hib : i < 2 ^ (31 - shift)) by nia.
  - change (uint_bytes 0 i) with [i] in *. change (2 ^ (7 * (Z.of_nat 0 + 1))) with 128 in Hn. destruct (low7 i ltac:(lia)) as [E7 E8].
    rewrite (GetUInt_step fuel t i rest) by (rewrite ?E7; (done || lia)). cbn zeta. rewrite E7, E8.
    rewrite lor_shift by lia. done.
  - rewrite uint_bytes_S in *. destruct (Z.ltb_spec i 128) as [Hsm | Hbg].
    + destruct (low7 i ltac:(lia)) as [E7 E8].
      rewrite (GetUInt_step fuel t i rest) by (rewrite ?E7; (done || lia)). cbn zeta. rewrite E7, E8.
      rewrite lor_shift by lia. done.
    + pose proof (Z.mod_pos_bound i 128 ltac:(lia)). destruct (high7 (i mod 128)) as [E7 E8]; [lia |].
      assert (Hdm : i = 128 * (i / 128) + i mod 128) by (apply Z.div_mod; lia).
      set (q := i / 128) in *. set (c := i mod 128) in *. assert (1 <= q) by lia.
      assert (Hs7 : shift + 7 <= 31).
      { destruct (decide (shift + 7 <= 31)); [done |]. exfalso.
        assert (2 ^ (31 - shift) <= 2 ^ 6) by (apply Z.pow_le_mono_r; lia). lia. }
      simpl app in E.
      rewrite (GetUInt_step fuel t (c + 128) (uint_bytes n q ++ rest)) by (rewrite ?E7; (done || lia)).
      cbn zeta. rewrite E7, E8. rewrite lor_shift by nia.
      destruct (buffered_SetRd t [c + 128] (uint_bytes n q ++ rest) Ht E) as [Ht' E'].
      rewrite zlen_cons in Ht', E'. change (1 + zlen (@nil Z)) with 1 in Ht', E'.
      replace (31 - shift - 7) with (31 - (shift + 7)) by lia.
      assert (Hp : 2 ^ (shift + 7) = 2 ^ shift * 128) by (rewrite Z.pow_add_r by lia; done).
      rewrite (IH fuel _ q (shift + 7)); try (done || lia).
      * f_equal. f_equal; [rewrite Hp; nia |]. unfold SetRd; simpl. f_equal. rewrite zlen_cons. lia.
      * replace (7 * (Z.of_nat (Datatypes.S n) + 1)) with (7 + 7 * (Z.of_nat n + 1)) in Hn by lia.
        rewrite Z.pow_add_r in Hn by lia. change (2 ^ 7) with 128 in Hn. lia.
      * rewrite Hp. nia.
Qed.

Lemma GetUInt_ok t i rest :
  IS_ok t -> is_eob t = false -> buffered t = uint_enc i ++ rest -> 0 <= i < 2 ^ 31 ->
  GetUInt t = Some (i, SetRd t (is_rd t + zlen (uint_enc i))).
Proof.
  intros Ht He E Hi. unfold GetUInt, uint_enc, INT_PRECISION in *.
  rewrite <- (Z.sub_0_r 31), (GetUInt_loop_ok 5 6 t i 0 0 rest); try (done || lia).
  - by rewrite Z.mul_1_r.
Qed.

(** A proper prefix of an encoding sets the flag. *)
Lemma GetUInt_loop_short n fuel t i shift value more :
  IS_ok t -> is_eob t = false -> uint_bytes n i = buffered t ++ more -> more <> [] ->
  (n < fuel)%nat -> 0 <= shift <= 31 -> 0 <= i -> i * 2 ^ shift < 2 ^ 31 ->
  exists t', GetUInt_loop fuel t shift (31 - shift) value = Some (0, t') /\ is_eob t' = true /\ same_data t t'.
Proof.
  revert fuel t i shift value. induction n as [| n IH]; intros fuel t i shift value Ht He E Hm Hf Hs Hi Hlt;
    (destruct fuel as [| fuel]; [lia |]); (destruct (buffered t) as [| b rest] eqn:Eb;
    [cbn [GetUInt_loop]; rewrite GetByte_short by done; exists (SetEOB t true); split_and!; [done | done |];
     by apply same_data_SetEOB |]).
  { change (uint_bytes 0 i) with [i] in E. injection E as -> Er. destruct rest; [| done].
    simpl in Er. by subst. }
  rewrite uint_bytes_S in E. destruct (Z.ltb_spec i 128).
  { injection E as -> Er. destruct rest; [| done]. simpl in Er. by subst. }
  injection E as <- Er. pose proof (Z.mod_pos_bound i 128 ltac:(lia)).
  destruct (high7 (i mod 128)) as [E7 E8]; [lia |].
  assert (Hfb : 2 ^ 31 = 2 ^ shift * 2 ^ (31 - shift)) by (rewrite <- Z.pow_add_r by lia; f_equal; lia).
  assert (Hib : i < 2 ^ (31 - shift)) by nia.
  assert (Hdm : i = 128 * (i / 128) + i mod 128) by (apply Z.div_mod; lia).
  set (q := i / 128) in *. set (c := i mod 128) in *. assert (1 <= q) by lia.
  assert (Hs7 : shift + 7 <= 31).
  { destruct (decide (shift + 7 <= 31)); [done |]. exfalso.
    assert (2 ^ (31 - shift) <= 2 ^ 6) by (apply Z.pow_le_mono_r; lia). lia. }
  rewrite (GetUInt_step fuel t (c + 128) rest) by (rewrite ?E7; (done || lia)).
  cbn zeta. rewrite E7, E8. replace (31 - shift - 7) with (31 - (shift + 7)) by lia.
  destruct (buffered_SetRd t [c + 128] rest Ht Eb) as [Ht' E'].
  rewrite zlen_cons in Ht', E'. change (1 + zlen (@nil Z)) with 1 in Ht', E'.
  assert (Hp : 2 ^ (shift + 7) = 2 ^ shift * 128) by (rewrite Z.pow_add_r by lia; done).
  destruct (IH fuel (SetRd t (is_rd t + 1)) q (shift + 7) (Z.lor value (u_int (int32 (Z.shiftl c shift)))))
    as (t' & -> & Heob & Hsame); try (done || lia).
  - by rewrite E'.
  - exists t'. split_and!; [done | done |].
    eapply same_data_trans; [| exact Hsame]. apply (SetRd_same t [c + 128] rest Ht Eb).
Qed.

Lemma GetUInt_short t i more :
  IS_ok t -> is_eob t = false -> uint_enc i = buffered t ++ more -> more <> [] -> 0 <= i < 2 ^ 31 ->
  exists t', GetUInt t = Some (0, t') /\ is_eob t' = true /\ same_data t t'.
Proof.
  intros Ht He E Hm Hi. unfold GetUInt, uint_enc, INT_PRECISION in *.
  destruct (GetUInt_loop_short 5 6 t i 0 0 more) as (t' & E' & R); try (done || lia).
  exists t'. by rewrite Z.sub_0_r in E'.
Qed.

(** ** Readers: reads followed by the end-of-buffer check *)

(** The result [None] is the early return of the check. *)
Definition reader (A : Type) : Type := InputStream G -> option (option A * InputStream G).

Definition checked {A} (r : InputStream G -> option (A * InputStream G)) : reader A := fun t =>
  '(x, t) ← r t; if IsEOB t then Some (None, t) else Some (Some x, t).

Definition rret {A} (a : A) : reader A := fun t => Some (Some a, t).

Definition rbind {A B} (r : reader A) (k : A -> reader B) : reader B := fun t =>
  '(x, t) ← r t; match x with Some a => k a t | None => Some (None, t) end.

(** The bytes behind the pointer [GetBytes] returns, copied at once. *)
Definition ReadBytes (n : Z) : InputStream G -> option (list Z * InputStream G) := fun t =>
  let '(p, t') := GetBytes t n in Some (zseg (c_bytes (is_buffer t)) p n, t').

(** [reads r enc slack a]: from the bytes [enc] - and [slack] more bytes in the
    buffer - the reader [r] yields [a] and consumes [enc]; from less it returns
    early, with no data lost. *)
Record reads {A} (r : reader A) (enc : list Z) (slack : Z) (a : A) : Prop := {
  reads_full t rest :
    IS_ok t -> is_eob t = false -> buffered t = enc ++ rest -> slack <= zlen rest ->
    r t = Some (Some a, SetRd t (is_rd t + zlen enc));
  reads_short t rest more :
    IS_ok t -> is_eob t = false -> enc ++ rest = buffered t ++ more ->
    zlen (buffered t) < zlen enc + slack ->
    exists t', r t = Some (None, t') /\ is_eob t' = true /\ same_data t t'
}.

(** A shorter list agreeing with a longer one is a prefix of it. *)
Lemma app_prefix {A} (a b c d : list A) :
  (a ++ b = c ++ d)%list -> zlen c <= zlen a -> exists k, a = c ++ k /\ d = k ++ b.
Proof.
  intros E Hl. exists (zdrop (zlen c) a).
  assert (Ec : ztake (zlen c) a = c).
  { apply (f_equal (ztake (zlen c))) in E. by rewrite ztake_app_le, ztake_pieces in E by (done || lia). }
  split.
  - rewrite <- Ec at 1. by rewrite ztake_zdrop.
  - apply (f_equal (zdrop (zlen c))) in E. by rewrite zdrop_app_le, zdrop_pieces in E by (done || lia).
Qed.

Lemma reads_ret {A} (a : A) : reads (rret a) [] 0 a.
Proof.
  constructor.
  - intros t rest _ _ _ _. unfold rret. change (zlen (@nil Z)) with 0. rewrite Z.add_0_r. by destruct t.
  - intros t rest more Ht _ _ Hz. pose proof (zlen_nonneg (buffered t)).
    change (zlen (@nil Z)) with 0 in Hz. lia.
Qed.

Lemma reads_byte b : reads (checked GetByte) [b] 0 b.
Proof.
  constructor.
  - intros t rest Ht He E _. unfold checked. rewrite (GetByte_ok t b rest Ht E). simpl.
    unfold IsEOB; simpl. by rewrite He.
  - intros t rest more Ht He E Hz. change (zlen [b]) with 1 in Hz.
    assert (Eb : buffered t = []) by (apply zlen_0_nil; pose proof (zlen_nonneg (buffered t)); lia).
    unfold checked. rewrite GetByte_short by done. simpl. exists (SetEOB t true).
    split_and!; [done | done |]. by apply same_data_SetEOB.
Qed.

Lemma reads_uint i : 0 <= i < 2 ^ 31 -> reads (checked GetUInt) (uint_enc i) 0 i.
Proof.
  intros Hi. constructor.
  - intros t rest Ht He E _. unfold checked. rewrite (GetUInt_ok t i rest Ht He E Hi). simpl.
    unfold IsEOB; simpl. by rewrite He.
  - intros t rest more Ht He E Hz. destruct (app_prefix _ _ _ _ E ltac:(lia)) as (k & Ek & _).
    destruct (GetUInt_short t i k Ht He Ek) as (t' & E' & He' & Hs); [| done |].
    { intros ->. rewrite app_nil_r in Ek. rewrite Ek in Hz. lia. }
    exists t'. unfold checked. rewrite E'. simpl. unfold IsEOB. by rewrite He'.
Qed.

(** [GetBytes] wants a byte beyond those it returns. *)
Lemma reads_bytes bs : zlen bs < 2 ^ 31 -> reads (checked (ReadBytes (zlen bs))) bs 1 bs.
Proof.
  intros Hb. pose proof (zlen_nonneg bs). constructor.
  - intros t rest Ht He E Hr. unfold checked, ReadBytes.
    rewrite GetBytes_ok by (done || (rewrite E, zlen_app; lia)). simpl. unfold IsEOB; simpl. rewrite He.
    do 3 f_equal. pose proof (buffered_zlen t Ht) as Hz. rewrite E, zlen_app in Hz.
    assert (Ez : ztake (zlen bs) (buffered t) = bs) by (by rewrite E, ztake_pieces).
    rewrite <- Ez at 2. unfold buffered, zseg. rewrite ztake_ztake. f_equal. lia.
  - intros t rest more Ht He E Hz. unfold checked, ReadBytes.
    rewrite GetBytes_short by (done || lia). simpl. exists (SetEOB t true). split_and!; [done | done |]. by apply same_data_SetEOB.
Qed.

Lemma reads_bind {A B} (r : reader A) (k : A -> reader B) e1 e2 slack a b :
  0 <= slack -> reads r e1 0 a -> reads (k a) e2 slack b -> reads (rbind r k) (e1 ++ e2) slack b.
Proof.
  intros Hsl [F1 S1] [F2 S2]. constructor.
  - intros t rest Ht He E Hr. rewrite <- app_assoc in E. unfold rbind.
    rewrite (F1 t (e2 ++ rest) Ht He E) by apply zlen_nonneg. simpl.
    destruct (buffered_SetRd t e1 _ Ht E) as [Ht' E']. rewrite (F2 _ rest Ht' He E' Hr).
    unfold SetRd; simpl. do 3 f_equal. rewrite zlen_app. lia.
  - intros t rest more Ht He E Hz. unfold rbind. rewrite <- app_assoc in E. rewrite zlen_app in Hz.
    destruct (decide (zlen (buffered t) < zlen e1)) as [Hlt | Hge].
    + destruct (S1 t (e2 ++ rest) more Ht He E) as (t' & -> & He' & Hs); [lia |]. by exists t'.
    + destruct (app_prefix (buffered t) more e1 (e2 ++ rest)) as (u & Eb & Eu); [done | lia |].
      rewrite (F1 t u Ht He Eb) by apply zlen_nonneg. simpl.
      destruct (buffered_SetRd t e1 u Ht Eb) as [Ht' E'].
      destruct (S2 _ rest more Ht' He) as (t' & -> & He' & Hs).
      * by rewrite E'.
      * rewrite E'. rewrite Eb, zlen_app in Hz. lia.
      * exists t'. split_and!; [done | done |]. eapply same_data_trans; [| exact Hs].
        apply (SetRd_same t e1 u Ht Eb).
Qed.

End Reading.

#[global] Arguments GetUInt_loop : simpl never.

(** ** Refilling the buffer *)

Section Filling.
Context `{Platform} (undef : Z) {G : Type} (gz : gz_ops G).
Implicit Types t : InputStream G.

(** The uncompressed data of a file not yet read, and the documented behaviour
    of reading it: some of the data, none only at the end. *)
Variable remaining : G -> list Z.
Hypothesis gzread_ok : forall g n, 0 < n <= UINT_MAX ->
  let '(k, data, g') := gzread gz g n in
  remaining g = data ++ remaining g' /\ k = zlen data /\ k <= n /\ (remaining g <> [] -> data <> []).

Definition file_data t : list Z :=
  match is_type t with FILE_INPUT_STREAM g _ => remaining g | STRING_INPUT_STREAM => [] end.

(** Everything a reader can still get, from the last commit on. *)
Definition view t : list Z := uncommitted t ++ file_data t.

Definition is_file t : Prop := exists g key, is_type t = FILE_INPUT_STREAM g key.

(** The largest item a file is read for. *)
Definition ITEM_MAX : Z := 2 ^ 29.

Lemma make_room_ok t :
  IS_ok t -> zlen (uncommitted t) <= ITEM_MAX ->
  exists t1 tl pos n, make_room undef t = Some (t1, tl, pos, n) /\
    tl = pos /\ is_hd t1 <= pos /\ 0 < n <= IS_MAX /\ 0 <= is_hd t1 /\ is_type t1 = is_type t /\
    pos + n = c_size (is_buffer t1) /\ c_size (is_buffer t1) = zlen (c_bytes (is_buffer t1)) /\
    c_size (is_buffer t1) <= IS_MAX /\
    zseg (c_bytes (is_buffer t1)) (is_hd t1) (pos - is_hd t1) = uncommitted t.
Proof.
  intros Ht Hmax. rewrite uncommitted_zlen in Hmax by done. pose proof Ht as [Hhd Hrd Htl Hsz Hm].
  unfold IS_MAX, ITEM_MAX in *.
  unfold make_room. destruct (Z.ltb_spec 0 (is_hd t)) as [Hpos | Hz].
  - assert (Hu : zlen (uncommitted t) = is_tl t - is_hd t) by (apply uncommitted_zlen; done).
    destruct (zsplit (c_bytes (is_buffer t)) (is_tl t - is_hd t)) as (o & s & E & Ho); [lia |].
    destruct (zsplit (c_bytes (is_buffer t)) (is_hd t)) as (p & q & E1 & Hp); [lia |].
    assert (Eu : uncommitted t = ztake (is_tl t - is_hd t) q).
    { unfold uncommitted, zseg. by rewrite E1, zdrop_pieces. }
    rewrite (blit_pieces _ _ _ _ _ p (uncommitted t) (zdrop (is_tl t - is_hd t) q) [] o s); try done; try lia.
    2: { by rewrite Eu, ztake_zdrop. }
    simpl. eexists _, _, _, _. split; [done |]. simpl. pose proof (zlen_nonneg s).
    assert (zlen (uncommitted t ++ s) = zlen (c_bytes (is_buffer t))) by (rewrite E, !zlen_app; lia).
    split_and!; try done; try lia. unfold zseg. rewrite zdrop_0, ztake_pieces; [done | lia].
  - assert (E0 : is_hd t = 0) by lia. destruct (Z.eqb_spec (is_tl t) (c_size (is_buffer t))) as [Ef | Nf].
    + rewrite u_int_id32 by (unfold READ_BUFFER_SIZE; lia). cbn [String_New AllocChunk c_bytes c_size].
      set (n := c_size (is_buffer t) + READ_BUFFER_SIZE).
      assert (Hn : c_size (is_buffer t) + 8192 = n) by done.
      destruct (zsplit (fresh undef n) (c_size (is_buffer t))) as (o & s & E & Ho); [rewrite zlen_fresh; lia |].
      rewrite (blit_append _ _ _ _ [] o s) by (done || lia). simpl.
      rewrite ztake_all by lia. eexists _, _, _, _. split; [done |]. simpl. unfold READ_BUFFER_SIZE.
      assert (zlen (c_bytes (is_buffer t) ++ s) = n).
      { pose proof (zlen_fresh undef n ltac:(lia)) as Hl. rewrite E in Hl. rewrite zlen_app in *. lia. }
      split_and!; try done; try lia. unfold uncommitted, zseg. rewrite E0, !zdrop_0, Z.sub_0_r, Ef.
      rewrite ztake_pieces by done. by rewrite ztake_all by lia.
    + eexists _, _, _, _. split; [done |]. split_and!; try done; try lia.
Qed.

Lemma FillBuffer_ok t :
  IS_ok t -> is_file t -> zlen (uncommitted t) <= ITEM_MAX -> file_data t <> [] ->
  exists t', FillBuffer undef gz t = Some (Fill_CONTINUE, t') /\ IS_ok t' /\ is_file t' /\
    view t' = view t /\ is_rd t' = is_hd t' /\ is_eob t' = false /\
    zlen (uncommitted t) < zlen (uncommitted t').
Proof.
  intros Ht (g & key & Ety) Hmax Hd. unfold file_data in Hd. rewrite Ety in Hd.
  destruct (make_room_ok t Ht Hmax) as (t1 & tl & pos & n & E & -> & Hp & Hn & Hh & Ety1 & Hpn & Hsz & Hm & Hseg).
  unfold FillBuffer. rewrite Ety, E. simpl. unfold IS_MAX in *.
  destruct (Z.ltb_spec UINT_MAX n) as [Hbad | _]; [unfold UINT_MAX in Hbad; lia |].
  pose proof (gzread_ok g n) as Hgz. destruct (gzread gz g n) as [[k data] g'].
  destruct Hgz as (Er & Hk & Hkn & Hne); [unfold UINT_MAX; lia |].
  assert (0 < k).
  { specialize (Hne Hd). pose proof (zlen_nonneg data). destruct (decide (zlen data = 0)) as [Z0 | ?]; [| lia].
    by apply zlen_0_nil in Z0. }
  destruct (Z.ltb_spec k 0); [lia |]. destruct (Z.eqb_spec k 0); [lia |].
  destruct (zsplit (c_bytes (is_buffer t1)) pos) as (p & q & Ep & Hlp); [lia |].
  assert (Hq : zlen q = n) by (rewrite Ep, zlen_app in Hsz; lia).
  destruct (zsplit q k) as (o & s & Eq & Ho); [lia |].
  rewrite (blit_append _ _ _ _ p o s) by first [lia | by rewrite Ep, Eq]. simpl.
  rewrite ztake_all by lia. eexists. split; [done |].
  assert (Hlen : zlen (p ++ data ++ s) = zlen (c_bytes (is_buffer t1))).
  { rewrite Ep, Eq, !zlen_app. lia. }
  assert (Hu : zseg (p ++ data ++ s) (is_hd t1) (pos + k - is_hd t1) = uncommitted t ++ data).
  { rewrite <- Hseg. rewrite Ep. unfold zseg. rewrite !zdrop_app_le by lia.
    replace (pos + k - is_hd t1) with (zlen (zdrop (is_hd t1) p ++ data)) by (rewrite zlen_app, zlen_zdrop by lia; lia).
    rewrite app_assoc, ztake_pieces by done. f_equal. by rewrite ztake_pieces by (rewrite zlen_zdrop; lia). }
  split; [constructor; simpl; unfold IS_MAX; lia |]. split; [by exists g', key |].
  unfold view, uncommitted, file_data; simpl. rewrite Hu, Ety. fold (uncommitted t).
  split_and!; try done.
  - rewrite Er. by rewrite app_assoc.
  - rewrite zlen_app. lia.
Qed.

(** At the end of the data [FillBuffer] raises [Corrupt]. *)
Lemma FillBuffer_end t :
  IS_ok t -> zlen (uncommitted t) <= ITEM_MAX -> file_data t = [] ->
  exists t', FillBuffer undef gz t = Some (Fill_RAISE Corrupt, t').
Proof.
  intros Ht Hmax Hd. unfold FillBuffer, file_data in *. destruct (is_type t) as [g key |] eqn:Ety; [| by eexists].
  destruct (make_room_ok t Ht Hmax) as (t1 & tl & pos & n & E & -> & Hp & Hn & _). rewrite E. simpl.
  unfold IS_MAX in *. destruct (Z.ltb_spec UINT_MAX n) as [Hbad | _]; [unfold UINT_MAX in Hbad; lia |].
  pose proof (gzread_ok g n) as Hgz. destruct (gzread gz g n) as [[k data] g'].
  destruct Hgz as (Er & Hk & _); [unfold UINT_MAX; lia |]. rewrite Hd in Er.
  symmetry in Er. apply app_nil in Er as [-> _]. change (zlen (@nil Z)) with 0 in Hk. subst k. simpl. by eexists.
Qed.

(** ** A worker's read with the refills it causes

    On an early return the worker pushes an [InputWorker], which fills the
    buffer and pops itself, and the worker runs again. *)
Fixpoint with_input {A} (r : reader A) (fuel : nat) t : option ((A + exn) * InputStream G) :=
  '(x, t) ← r t;
  match x with
  | Some a => Some (inl a, t)
  | None =>
      match fuel with
      | O => None
      | Datatypes.S fuel =>
          '(res, t) ← FillBuffer undef gz t;
          match res with
          | Fill_CONTINUE => with_input r fuel t
          | Fill_RAISE e => Some (inr e, t)
          end
      end
  end.

Lemma same_data_view t t' : same_data t t' -> IS_ok t -> IS_ok t' /\ view t' = view t /\
  uncommitted t' = uncommitted t /\ file_data t' = file_data t /\ (is_file t -> is_file t').
Proof.
  intros (E1 & E2 & E3 & E4 & E5) [? ? ? ? ?]. unfold view, uncommitted, file_data, is_file.
  rewrite E1, E2, E3, E4. split; [constructor; rewrite ?E1, ?E2, ?E3; lia |]. done.
Qed.

Lemma buffered_committed t : is_rd t = is_hd t -> buffered t = uncommitted t.
Proof. intros E. unfold buffered, uncommitted. by rewrite E. Qed.

Lemma view_commit t bs : IS_ok t -> is_rd t = is_hd t -> forall rest, uncommitted t = bs ++ rest ->
  let t' := Commit (SetRd t (is_rd t + zlen bs)) in
  IS_ok t' /\ is_rd t' = is_hd t' /\ view t' = rest ++ file_data t /\ is_eob t' = is_eob t.
Proof.
  intros Ht Ehd rest E. rewrite <- buffered_committed in E by done.
  destruct (buffered_SetRd t bs rest Ht E) as [Ht1 E1]. cbn zeta.
  split; [destruct Ht1 as [? ? ? ? ?]; constructor; simpl in *; lia |].
  split; [done |]. split; [| done]. unfold view. f_equal. exact E1.
Qed.

Lemma file_data_is_file t : file_data t <> [] -> is_file t.
Proof. unfold file_data, is_file. destruct (is_type t); [eauto | done]. Qed.

(** The item is in the data: it is read, however the data arrives. *)
Lemma with_input_ok {A} (r : reader A) enc slack a rest fuel t :
  reads r enc slack a -> IS_ok t -> is_eob t = false -> is_rd t = is_hd t ->
  view t = enc ++ rest -> 0 <= slack <= zlen rest -> zlen enc + slack <= ITEM_MAX ->
  zlen enc + slack - zlen (uncommitted t) <= Z.of_nat fuel ->
  exists t', with_input r fuel t = Some (inl a, t') /\ IS_ok (Commit t') /\ is_rd (Commit t') = is_hd (Commit t') /\ is_eob (Commit t') = false /\
    view (Commit t') = rest.
Proof.
  intros Hr. revert t. induction fuel as [| fuel IH]; intros t Ht He Ehd Hv Hsl Hmax Hfuel;
    cbn [with_input]; pose proof (buffered_committed t Ehd) as Eb; unfold view in Hv;
    (destruct (decide (zlen (uncommitted t) < zlen enc + slack)) as [Hlt | Hge]; [try lia |]).
  1, 3: destruct (app_prefix (uncommitted t) (file_data t) enc rest Hv) as (u & Eu & Er); [lia |];
    rewrite (reads_full _ _ _ _ Hr t u) by first [done | by rewrite Eb | (rewrite Eu, zlen_app in Hge; lia)];
    simpl; eexists; split; [done |];
    destruct (view_commit t enc Ht Ehd u Eu) as (K1 & K2 & K3 & K4);
    split; [exact K1 |]; split; [exact K2 |]; split; [exact (eq_trans K4 He) | exact (eq_trans K3 (eq_sym Er))].
  destruct (reads_short _ _ _ _ Hr t rest (file_data t)) as (t1 & -> & _ & Hs);
    [done | done | by rewrite Eb | by rewrite Eb |].
  simpl. destruct (same_data_view t t1 Hs Ht) as (Ht1 & Ev1 & Eu1 & Ef1 & Hf1).
  assert (Hd : file_data t1 <> []).
  { rewrite Ef1. intros E0. rewrite E0, app_nil_r in Hv. apply (f_equal zlen) in Hv. rewrite zlen_app in Hv. lia. }
  destruct (FillBuffer_ok t1) as (t2 & -> & Ht2 & Hf2 & Ev2 & Ehd2 & He2 & Hmore);
    [done | by apply file_data_is_file | rewrite Eu1; lia | done |].
  simpl. apply IH; try done.
  - rewrite Ev2, Ev1. exact Hv.
  - rewrite Eu1 in Hmore. lia.
Qed.

(** The data ends within the item: [Corrupt] is raised. *)
Lemma with_input_corrupt {A} (r : reader A) enc slack a rest more fuel t :
  reads r enc slack a -> IS_ok t -> is_eob t = false -> is_rd t = is_hd t ->
  enc ++ rest = view t ++ more -> zlen (view t) < zlen enc + slack -> zlen enc + slack <= ITEM_MAX ->
  zlen enc + slack - zlen (uncommitted t) <= Z.of_nat fuel ->
  exists t', with_input r fuel t = Some (inr Corrupt, t').
Proof.
  intros Hr. revert t. induction fuel as [| fuel IH]; intros t Ht He Ehd Hv Hlt Hmax Hfuel;
    cbn [with_input]; pose proof (buffered_committed t Ehd) as Eb;
    assert (Hu : zlen (uncommitted t) < zlen enc + slack)
      by (unfold view in Hlt; rewrite zlen_app in Hlt; pose proof (zlen_nonneg (file_data t)); lia); [lia |].
  destruct (reads_short _ _ _ _ Hr t rest (file_data t ++ more)) as (t1 & -> & _ & Hs);
    [done | done | rewrite Eb, app_assoc; exact Hv | by rewrite Eb |].
  simpl. destruct (same_data_view t t1 Hs Ht) as (Ht1 & Ev1 & Eu1 & Ef1 & Hf1).
  destruct (decide (file_data t = [])) as [E0 | N0].
  { destruct (FillBuffer_end t1) as (t2 & ->); [done | rewrite Eu1; lia | by rewrite Ef1 |].
    simpl. by eexists. }
  destruct (FillBuffer_ok t1) as (t2 & -> & Ht2 & Hf2 & Ev2 & Ehd2 & He2 & Hmore);
    [done | apply file_data_is_file; by rewrite Ef1 | rewrite Eu1; lia | by rewrite Ef1 |].
  simpl. rewrite Eu1 in Hmore. apply IH; try done; rewrite ?Ev2, ?Ev1; (done || lia).
Qed.

End Filling.

(** ** Properties *)

Section Properties.
Context `{Platform} (undef : Z).

(** Reading [n] integers one after the other. *)
Fixpoint read_uints {G} (n : nat) : reader (G := G) (list Z) :=
  match n with
  | O => rret []
  | Datatypes.S n => rbind (checked GetUInt) (fun i => rbind (read_uints n) (fun l => rret (i :: l)))
  end.

Lemma reads_uints {G} (l : list Z) :
  Forall (fun i => 0 <= i < 2 ^ 31) l -> reads (G := G) (read_uints (length l)) (l ≫= uint_enc) 0 l.
Proof.
  induction 1 as [| i l Hi _ IH]; simpl read_uints; [apply reads_ret |]. rewrite bind_cons.
  apply (reads_bind _ _ _ _ 0 i); [done | by apply reads_uint |].
  rewrite <- (app_nil_r (l ≫= uint_enc)).
  apply (reads_bind _ _ _ _ 0 l); [done | exact IH | apply reads_ret].
Qed.

(** C30. Integers survive writing and reading: after any list of 31-bit integers
    is written to a new string stream, reading as many integers from the
    stream's string returns the list, at the position where writing stopped. *)
Theorem uint_roundtrip {F G} (gzputc : F -> Z -> F) (gzwrite : F -> list Z -> F)
    (written : F -> list Z) (l : list Z) :
  (forall f b, written (gzputc f b) = written f ++ [b]) ->
  (forall f bs, written (gzwrite f bs) = written f ++ bs) ->
  Forall (fun i => 0 <= i < 2 ^ 31) l -> zlen (l ≫= uint_enc) + 5 <= STREAM_MAX ->
  exists s t', os_run undef gzputc gzwrite (STRING_OUTPUT_STREAM (SOS_New undef)) (Os_PutUInt <$> l) =
      Some (STRING_OUTPUT_STREAM s) /\
    read_uints (length l) (NewFromString (G := G) (so_string s)) = Some (Some l, t') /\
    is_rd t' = so_pos s /\ IsEOB t' = false.
Proof.
  intros Hc Hw Hl Hm.
  assert (Eb : (Os_PutUInt <$> l) ≫= os_bytes = l ≫= uint_enc).
  { clear. induction l as [| i l IH]; [done |]. by rewrite fmap_cons, !bind_cons, IH. }
  destruct (os_run_ok undef gzputc gzwrite written Hc Hw (Os_PutUInt <$> l)
    (STRING_OUTPUT_STREAM (SOS_New undef)) []) as (r & E & HR); [apply SOS_New_rep | | by rewrite Eb |].
  { apply Forall_fmap. eapply Forall_impl; [exact Hl |]. done. }
  destruct (os_run_string _ _ _ _ _ _ E) as [s ->]. rewrite Eb in HR. simpl in HR.
  destruct HR as (Hp & Hs & Hlt & Hmin & Hcs & rest & Ebytes). unfold STREAM_MAX in Hmin.
  set (t := NewFromString (G := G) (so_string s)).
  assert (Ht : IS_ok t) by (constructor; simpl; unfold IS_MAX; lia).
  assert (Et : buffered t = (l ≫= uint_enc) ++ rest).
  { unfold buffered, zseg; simpl. rewrite zdrop_0, Z.sub_0_r, ztake_all by lia. exact Ebytes. }
  eexists s, _. split; [exact E |].
  split; [apply (reads_full _ _ _ _ (reads_uints l Hl) t rest Ht eq_refl Et), zlen_nonneg |].
  split; [simpl; lia | done].
Qed.

(** [IsEOF] loses a byte of a file: when the buffer has been read up and the
    file has more data, it takes the next byte from the file without putting it
    into the buffer or back, so the byte is missing from everything read later. *)
Theorem IsEOF_loses_byte {G} (gz : gz_ops G) (remaining : G -> list Z) (t : InputStream G) g key b :
  (forall g, let '(c, g') := gzgetc gz g in
     match remaining g with [] => c < 0 | b :: l => c = b /\ remaining g' = l end) ->
  IS_ok t -> is_type t = FILE_INPUT_STREAM g key -> is_rd t = is_tl t ->
  head (remaining g) = Some b -> is_byte b ->
  exists t', IsEOF gz t = (false, t') /\ uncommitted t' = uncommitted t /\
    file_data remaining t = b :: file_data remaining t'.
Proof.
  intros Hgz Ht Ety Erd Hb Hbyte. unfold IsEOF, file_data. rewrite Ety.
  destruct (Z.leb_spec (is_tl t) (is_rd t)); [| lia]. specialize (Hgz g).
  destruct (gzgetc gz g) as [c g']. destruct (remaining g) as [| b' l] eqn:Er; [done |].
  destruct Hgz as [-> El]. injection Hb as ->. destruct Hbyte as [Hb0 _].
  destruct (Z.ltb_spec b 0); [lia |]. eexists. split; [done |]. split; [done |]. simpl. by rewrite El.
Qed.

(** An integer that continues past its fifth byte makes [GetUInt] shift by a
    negative number of bits - the sixth byte is checked against
    [1 << -4] - which has no defined value, instead of being refused. *)
Theorem GetUInt_overlong {G} (t : InputStream G) b0 b1 b2 b3 b4 b5 rest :
  IS_ok t -> IsEOB t = false -> buffered t = [b0; b1; b2; b3; b4; b5] ++ rest ->
  Forall (fun b => 128 <= b < 256) [b0; b1; b2; b3] -> 128 <= b4 < 136 ->
  exists t5 value, GetUInt t = GetUInt_loop 1 t5 35 (-4) value /\ buffered t5 = b5 :: rest /\
    GetUInt t = None.
Proof.
  intros Ht He E Hb H4. rewrite !Forall_cons in Hb. destruct Hb as (B0 & B1 & B2 & B3 & _).
  assert (Hstep : forall fuel (t : InputStream G) b r sh fb v, IS_ok t -> IsEOB t = false -> buffered t = b :: r ->
            128 <= b < 256 -> 0 <= fb <= 31 -> b - 128 < 2 ^ fb ->
            exists (t' : InputStream G) v', GetUInt_loop (Datatypes.S fuel) t sh fb v = GetUInt_loop fuel t' (sh + 7) (fb - 7) v' /\
              IS_ok t' /\ IsEOB t' = false /\ buffered t' = r).
  { intros fuel t' b r sh fb v Ht' He' E' Hb' Hf Hlt.
    destruct (high7 (b - 128)) as [E7 E8]; [lia |]. replace (b - 128 + 128) with b in E7, E8 by lia.
    destruct (buffered_SetRd t' [b] r Ht' E') as [K1 K2]. change (zlen [b]) with 1 in K1, K2.
    eexists (SetRd t' (is_rd t' + 1)), _. split; [| split; [done | split; done]].
    rewrite (GetUInt_step fuel t' b r) by (rewrite ?E7; (done || lia)). cbn zeta. by rewrite E8. }
  unfold GetUInt, INT_PRECISION.
  destruct (Hstep 5%nat t b0 _ 0 31 0 Ht He E ltac:(lia) ltac:(lia)) as (t1 & v1 & -> & K1 & L1 & M1); [simpl; lia |].
  destruct (Hstep 4%nat t1 b1 _ (0 + 7) (31 - 7) v1 K1 L1 M1 ltac:(lia) ltac:(lia)) as (t2 & v2 & -> & K2 & L2 & M2); [simpl; lia |].
  destruct (Hstep 3%nat t2 b2 _ (0 + 7 + 7) (31 - 7 - 7) v2 K2 L2 M2 ltac:(lia) ltac:(lia)) as (t3 & v3 & -> & K3 & L3 & M3); [simpl; lia |].
  destruct (Hstep 2%nat t3 b3 _ (0 + 7 + 7 + 7) (31 - 7 - 7 - 7) v3 K3 L3 M3 ltac:(lia) ltac:(lia)) as (t4 & v4 & -> & K4 & L4 & M4); [simpl; lia |].
  destruct (Hstep 1%nat t4 b4 _ (0 + 7 + 7 + 7 + 7) (31 - 7 - 7 - 7 - 7) v4 K4 L4 M4 ltac:(lia) ltac:(lia)) as (t5 & v5 & -> & K5 & L5 & M5); [simpl; lia |].
  exists t5, v5. split; [done |]. split; [done |].
  change (GetUInt_loop 1 t5 35 (-4) v5 = None).
  cbn -[GetByte IsEOB]. unfold GetUInt_loop. rewrite (GetByte_ok t5 b5 rest K5 M5). simpl. unfold IsEOB in *. simpl. by rewrite L5.
Qed.

End Properties.

Lemma uint_roundtrip_witness :
  exists s t', @os_run P32 0 (list Z) (fun f b => f ++ [b]) (fun f bs => f ++ bs)
      (STRING_OUTPUT_STREAM (@SOS_New P32 0)) (Os_PutUInt <$> [0; 127; 128; 2147483647]) =
      Some (STRING_OUTPUT_STREAM s) /\
    @read_uints P32 unit 4 (NewFromString (so_string s)) = Some (Some [0; 127; 128; 2147483647], t') /\
    is_rd t' = so_pos s.
Proof.
  destruct (@uint_roundtrip P32 0 (list Z) unit (fun f b => f ++ [b]) (fun f bs => f ++ bs) id
    [0; 127; 128; 2147483647]) as (s & t' & E1 & E2 & E3 & _); try reflexivity.
  - repeat constructor; lia.
  - vm_compute. discriminate.
  - exists s, t'. split; [exact E1 | split; [exact E2 | exact E3]].
Defined.

(** A compressed file as the list of its uncompressed bytes, read at most
    [step] at a time. *)
Definition list_gz (step : Z) : gz_ops (list Z) := {|
  gzread g n := let k := Z.min step (Z.min n (zlen g)) in (k, ztake k g, zdrop k g);
  gzgetc g := match g with [] => (-1, []) | b :: g => (b, g) end;
  gzseek g _ := g;
  gzrewind g := g;
  gzcloser g := g
|}.

Definition file_stream (bytes : list Z) (g : list Z) : InputStream (list Z) :=
  mkInputStream 0 (zlen bytes) (zlen bytes) false (chunk_of bytes) (FILE_INPUT_STREAM g 0).

Lemma IsEOF_loses_byte_witness :
  exists t', IsEOF (list_gz 1) (file_stream [115; 101; 97; 109] [5; 0; 3]) = (false, t') /\
    [5; 0; 3] = 5 :: file_data id t'.
Proof.
  destruct (IsEOF_loses_byte (list_gz 1) id (file_stream [115; 101; 97; 109] [5; 0; 3]) [5; 0; 3] 0 5)
    as (t' & E & _ & F).
  - intros [| b l]; simpl; [lia | done].
  - constructor; vm_compute; (reflexivity || (split; discriminate) || discriminate).
  - reflexivity.
  - reflexivity.
  - reflexivity.
  - split; [discriminate | reflexivity].
  - exists t'. split; [exact E | exact F].
Defined.

Lemma GetUInt_overlong_witness :
  @GetUInt P32 unit (NewFromString (chunk_of [255; 255; 255; 255; 135; 1; 0])) = None.
Proof.
  destruct (@GetUInt_overlong P32 unit (NewFromString (chunk_of [255; 255; 255; 255; 135; 1; 0]))
    255 255 255 255 135 1 [0]) as (t5 & v & _ & _ & E).
  - constructor; vm_compute; (reflexivity || (split; discriminate) || discriminate).
  - reflexivity.
  - reflexivity.
  - repeat constructor; lia.
  - lia.
  - exact E.
Defined.
