(* ===== verification/Gzip.v ===== *)
(** * Reading gzip members (seam/generic/Unpickler.cc, namespace gzip; Unzip)

    A pointer into the string is an index into its bytes; a read outside is
    [None].  [unsigned long] is as wide as a word.  The inflate routines of the
    bundled zlib are a parameter. *)

From S2P Require Import Prelude Config HeaderOp PointerOp Block OutputStream.

Section Gzip.
Context `{Platform}.

Definition ulong (z : Z) : Z := u_int z.

(** ** Header and trailer: sizes and the offsets of the fields used *)

Definition sizeof_header : Z := 10.
Definition sizeof_trailer : Z := 8.

(** An array of bytes at an address of the string. *)
Definition number2 (mem : list Z) (arr : Z) : option Z :=
  a0 ← aget mem arr;
  a1 ← aget mem (arr + 1);
  Some (ulong (a0 + a1 * 256)).

Definition number4 (mem : list Z) (arr : Z) : option Z :=
  a0 ← aget mem arr;
  a1 ← aget mem (arr + 1);
  a2 ← aget mem (arr + 2);
  a3 ← aget mem (arr + 3);
  Some (ulong (a0 + a1 * 256 + a2 * 256 * 256 + a3 * 256 * 256)).

(** ** Flags *)

Definition flag_text : Z := 0.
Definition flag_hcrc : Z := 1.
Definition flag_extra : Z := 2.
Definition flag_name : Z := 3.
Definition flag_comment : Z := 4.

Definition is_set (b flag : Z) : bool := negb (Z.land b (Z.shiftl 1 flag) =? 0).

(** [srclen <= 0] on an unsigned number. *)
Definition is_zero (srclen : Z) : bool := srclen <=? 0.

(** The result, the pointer and the length left. *)
Fixpoint skip_loop (fuel : nat) (mem : list Z) (s srclen : Z) : option (bool * Z * Z) :=
  match fuel with
  | O => None
  | S fuel =>
      c ← aget mem s;
      let s := s + 1 in
      let srclen := ulong (srclen - 1) in
      if c =? 0 then Some (negb (is_zero srclen), s, srclen)
      else if is_zero srclen then Some (false, s, srclen)
      else skip_loop fuel mem s srclen
  end.

(** Each step reads one more byte, so the bytes bound the steps. *)
Definition skip_cstr (mem : list Z) (s srclen : Z) : option (bool * Z * Z) :=
  skip_loop (S (length mem)) mem s srclen.

(** ** parse_meta_data

    [Some None] is the result [false]; otherwise the start and length of the
    compressed data and the uncompressed length. *)

Definition skip_extra (mem : list Z) (flags src srclen : Z) : option (bool * Z * Z) :=
  if is_set flags flag_extra then
    xlen ← number2 mem src;
    let src := src + 2 + xlen in
    let srclen := ulong (srclen - (2 + xlen)) in
    Some (negb (is_zero srclen), src, srclen)
  else Some (true, src, srclen).

Definition skip_string (flag : Z) (mem : list Z) (flags src srclen : Z) : option (bool * Z * Z) :=
  if is_set flags flag then skip_cstr mem src srclen else Some (true, src, srclen).

Definition skip_hcrc (flags src srclen : Z) : bool * Z * Z :=
  if is_set flags flag_hcrc then
    let srclen := ulong (srclen - 2) in
    if is_zero srclen then (false, src, srclen) else (true, src + 2, srclen)
  else (true, src, srclen).

Definition parse_meta_data (mem : list Z) (srclen : Z) : option (option (Z * Z * Z)) :=
  if srclen <? sizeof_header + sizeof_trailer then Some None
  else
    let src := sizeof_header in
    let srclen := ulong (srclen - (sizeof_header + sizeof_trailer)) in
    id1 ← aget mem 0;
    id2 ← aget mem 1;
    if negb (id1 =? 0x1f) || negb (id2 =? 0x8b) then Some None
    else
      cm ← aget mem 2;
      if negb (cm =? 8) then Some None
      else
        flags ← aget mem 3;
        '(ok, src, srclen) ← skip_extra mem flags src srclen;
        if negb ok then Some None else
        '(ok, src, srclen) ← skip_string flag_name mem flags src srclen;
        if negb ok then Some None else
        '(ok, src, srclen) ← skip_string flag_comment mem flags src srclen;
        if negb ok then Some None else
        let '(ok, src, srclen) := skip_hcrc flags src srclen in
        if negb ok then Some None else
        uncompressed_len ← number4 mem (src + srclen + 4);
        Some (Some (src, srclen, uncompressed_len)).

(** ** Unzip *)

(** The zlib calls: raw inflation with a window of the given bits. *)
Record inflate_ops (Z_S : Type) := {
  inflateInit2 : Z -> Z * Z_S;
  inflate : Z_S -> list Z -> Z -> Z * list Z * Z_S;
  inflateEnd : Z_S -> Z
}.
Arguments inflateInit2 {Z_S} _ _.
Arguments inflate {Z_S} _ _ _ _.
Arguments inflateEnd {Z_S} _ _.

Definition Z_OK : Z := 0.
Definition Z_STREAM_END : Z := 1.

Definition uInt (z : Z) : Z := z mod 2 ^ 32.

(** [Some None] is the result 0. *)
Definition Unzip {Z_S} (undef : Z) (zl : inflate_ops Z_S) (s : Chunk) : option (option Chunk) :=
  meta ← parse_meta_data (c_bytes s) (c_size s);
  match meta with
  | None => Some None
  | Some (compressed_start, compressed_len, uncompressed_len) =>
      if negb (uInt compressed_len =? compressed_len) || negb (uInt uncompressed_len =? uncompressed_len)
      then None
      else
        let res := String_New undef uncompressed_len in
        let next_in := zseg (c_bytes s) compressed_start compressed_len in
        let '(err, stream) := inflateInit2 zl (-15) in
        if negb (err =? Z_OK) then Some None
        else
          let '(err, out, stream) := inflate zl stream next_in (uInt uncompressed_len) in
          bytes ← blit out 0 (c_bytes res) 0 (zlen out);
          if ((err =? Z_OK) || (err =? Z_STREAM_END)) && (inflateEnd zl stream =? Z_OK)
          then Some (Some (set_bytes res bytes))
          else Some None
  end.

End Gzip.

Arguments inflateInit2 {Z_S} _ _.
Arguments inflate {Z_S} _ _ _ _.
Arguments inflateEnd {Z_S} _ _.
Arguments Build_inflate_ops {Z_S} _ _ _.

(** ** gzip members (RFC 1952) *)

Record gz_header := mkGzHeader {
  gh_text : bool;
  gh_mtime : Z * Z * Z * Z;
  gh_xfl : Z;
  gh_os : Z;
  gh_extra : option (list Z);
  gh_name : option (list Z);
  gh_comment : option (list Z);
  gh_hcrc : option (Z * Z)
}.

Definition opt_flag {A} (o : option A) (v : Z) : Z := match o with Some _ => v | None => 0 end.

Definition gh_flags (h : gz_header) : Z :=
  (if gh_text h then 1 else 0) + opt_flag (gh_hcrc h) 2 + opt_flag (gh_extra h) 4 +
  opt_flag (gh_name h) 8 + opt_flag (gh_comment h) 16.

Definition extra_bytes (o : option (list Z)) : list Z :=
  match o with Some x => [zlen x mod 256; zlen x / 256] ++ x | None => [] end.
Definition cstr_bytes (o : option (list Z)) : list Z :=
  match o with Some x => x ++ [0] | None => [] end.
Definition hcrc_bytes (o : option (Z * Z)) : list Z :=
  match o with Some (a, b) => [a; b] | None => [] end.

Definition fixed_bytes (h : gz_header) : list Z :=
  let '(m0, m1, m2, m3) := gh_mtime h in
  [0x1f; 0x8b; 8; gh_flags h; m0; m1; m2; m3; gh_xfl h; gh_os h].

Definition header_bytes (h : gz_header) : list Z :=
  fixed_bytes h ++ extra_bytes (gh_extra h) ++ cstr_bytes (gh_name h) ++ cstr_bytes (gh_comment h) ++
  hcrc_bytes (gh_hcrc h).

(** Four bytes, least significant first. *)
Definition le4 (n : Z) : list Z := [n mod 256; n / 256 mod 256; n / 2 ^ 16 mod 256; n / 2 ^ 24 mod 256].

Definition member (h : gz_header) (body crc : list Z) (isize : Z) : list Z :=
  header_bytes h ++ body ++ crc ++ le4 isize.

Definition no_zero (o : option (list Z)) : Prop := match o with Some x => Forall (fun c => c <> 0) x | None => True end.

Definition header_ok (h : gz_header) : Prop :=
  match gh_extra h with Some x => zlen x < 2 ^ 16 | None => True end /\
  no_zero (gh_name h) /\ no_zero (gh_comment h).

(** The length [number4] computes from the four bytes of [n]. *)
Definition number4_value (n : Z) : Z := n mod 2 ^ 24 + n / 2 ^ 24 * 2 ^ 16.

Section GzipFacts.
Context `{Platform}.

(** Reading at an offset from the end of a prefix. *)
Lemma aget_off (p q : list Z) i : 0 <= i -> aget (p ++ q) (zlen p + i) = aget q i.
Proof. intros Hi. rewrite aget_app_r by lia. f_equal. lia. Qed.

Lemma aget_off0 (p q : list Z) : aget (p ++ q) (zlen p) = aget q 0.
Proof. rewrite <- (Z.add_0_r (zlen p)). by apply aget_off. Qed.

Lemma ulong_id z : 0 <= z < 2 ^ 32 -> ulong z = z.
Proof. apply u_int_id32. Qed.

Lemma is_zero_pos z : 0 < z -> is_zero z = false.
Proof. intros Hz. unfold is_zero. by apply Z.leb_gt. Qed.

Lemma gh_flags_spec h :
  is_set (gh_flags h) flag_extra = (if gh_extra h is Some _ then true else false) /\
  is_set (gh_flags h) flag_name = (if gh_name h is Some _ then true else false) /\
  is_set (gh_flags h) flag_comment = (if gh_comment h is Some _ then true else false) /\
  is_set (gh_flags h) flag_hcrc = (if gh_hcrc h is Some _ then true else false).
Proof. destruct h as [[] ? ? ? [] [] [] []]; repeat split. Qed.

Lemma aget_cons4 (a b c d : Z) q :
  aget (a :: q) 0 = Some a /\ aget (a :: b :: q) 1 = Some b /\ aget (a :: b :: c :: q) 2 = Some c /\
  aget (a :: b :: c :: d :: q) 3 = Some d.
Proof. done. Qed.

Lemma skip_loop_ok fuel mem p x q srclen :
  mem = p ++ x ++ 0 :: q -> Forall (fun c => c <> 0) x -> (length x < fuel)%nat ->
  zlen x + 1 < srclen < 2 ^ 32 ->
  skip_loop fuel mem (zlen p) srclen = Some (true, zlen p + (zlen x + 1), srclen - (zlen x + 1)).
Proof.
  revert p x srclen. induction fuel as [| fuel IH]; intros p x srclen E Hx Hf Hs; [lia |].
  cbn [skip_loop]. destruct x as [| c x].
  - rewrite E at 1. rewrite (aget_mid p 0 q) by done. simpl. change (zlen (@nil Z)) with 0 in *.
    rewrite ulong_id by lia. rewrite is_zero_pos by lia. done.
  - apply Forall_cons in Hx as [Hc Hx']. rewrite zlen_cons in *. pose proof (zlen_nonneg x).
    rewrite E at 1. rewrite (aget_mid p c (x ++ 0 :: q)) by done. simpl. destruct (Z.eqb_spec c 0); [done |].
    rewrite ulong_id by lia. rewrite is_zero_pos by lia.
    replace (zlen p + 1) with (zlen (p ++ [c])) by zl.
    rewrite (IH (p ++ [c]) x (srclen - 1)); [| | done | simpl in Hf; lia | lia].
    + f_equal. f_equal; [f_equal |]; zl.
    + rewrite E, <- !app_assoc. done.
Qed.

Lemma skip_string_ok flag mem p o q flags srclen :
  mem = p ++ cstr_bytes o ++ q -> no_zero o -> is_set flags flag = (if o is Some _ then true else false) ->
  zlen (cstr_bytes o) < srclen < 2 ^ 32 ->
  skip_string flag mem flags (zlen p) srclen =
    Some (true, zlen (p ++ cstr_bytes o), srclen - zlen (cstr_bytes o)).
Proof.
  intros E Hz Hset Hs. unfold skip_string. rewrite Hset. destruct o as [x |]; simpl in *.
  - unfold skip_cstr. rewrite <- app_assoc in E. rewrite zlen_app, zlen_cons in *.
    change (zlen (@nil Z)) with 0 in *. rewrite (skip_loop_ok _ mem p x q); [| done | done | | lia].
    + f_equal. f_equal; [f_equal |]; zl.
    + rewrite E, !length_app. simpl. lia.
  - rewrite app_nil_r. change (zlen (@nil Z)) with 0. by rewrite Z.sub_0_r.
Qed.

Lemma skip_extra_ok mem p o q flags srclen :
  mem = p ++ extra_bytes o ++ q -> match o with Some x => zlen x < 2 ^ 16 | None => True end ->
  is_set flags flag_extra = (if o is Some _ then true else false) ->
  zlen (extra_bytes o) < srclen < 2 ^ 32 ->
  skip_extra mem flags (zlen p) srclen =
    Some (true, zlen (p ++ extra_bytes o), srclen - zlen (extra_bytes o)).
Proof.
  intros E Hz Hset Hs. unfold skip_extra. rewrite Hset. destruct o as [x |]; simpl in *.
  - pose proof (zlen_nonneg x). rewrite !zlen_cons in *. unfold number2. rewrite E.
    rewrite aget_off0, aget_off by lia.
    destruct (aget_cons4 (zlen x mod 256) (zlen x / 256) 0 0 (x ++ q)) as (_ & -> & _).
    rewrite aget_0_cons. cbn [mbind option_bind].
    assert (Hx : zlen x mod 256 + zlen x / 256 * 256 = zlen x) by (Z.div_mod_to_equations; lia).
    rewrite Hx, (ulong_id (zlen x)), (ulong_id (srclen - (2 + zlen x))) by lia.
    rewrite is_zero_pos by lia. simpl.
    f_equal. f_equal; [f_equal |]; zl.
  - rewrite app_nil_r. change (zlen (@nil Z)) with 0. by rewrite Z.sub_0_r.
Qed.

Lemma skip_hcrc_ok o flags src srclen :
  is_set flags flag_hcrc = (if o is Some _ then true else false) -> zlen (hcrc_bytes o) < srclen < 2 ^ 32 ->
  skip_hcrc flags src srclen = (true, src + zlen (hcrc_bytes o), srclen - zlen (hcrc_bytes o)).
Proof.
  intros Hset Hs. unfold skip_hcrc. rewrite Hset. destruct o as [[a b] |]; simpl in *.
  - change (zlen [a; b]) with 2 in *. rewrite ulong_id by lia. by rewrite is_zero_pos by lia.
  - change (zlen (@nil Z)) with 0. by rewrite Z.add_0_r, Z.sub_0_r.
Qed.

Lemma number4_ok mem p n q :
  mem = p ++ le4 n ++ q -> 0 <= n < 2 ^ 32 -> number4 mem (zlen p) = Some (number4_value n).
Proof.
  intros -> Hn. unfold number4, le4, number4_value. simpl app.
  set (a := n mod 256). set (b := n / 256 mod 256). set (c := n / 2 ^ 16 mod 256). set (d := n / 2 ^ 24 mod 256).
  rewrite aget_off0, !aget_off by lia. rewrite aget_0_cons.
  destruct (aget_cons4 a b c d q) as (_ & _ & _ & ->). destruct (aget_cons4 a b c d (d :: q)) as (_ & _ & -> & _).
  destruct (aget_cons4 a b c d (c :: d :: q)) as (_ & -> & _). cbn [mbind option_bind]. f_equal.
  assert (E : a + b * 256 + c * 256 * 256 = n mod 2 ^ 24).
  { subst a b c. change (2 ^ 16) with 65536. change (2 ^ 24) with 16777216. Z.div_mod_to_equations; lia. }
  assert (Ed : d = n / 2 ^ 24).
  { subst d. apply Z.mod_small. change (2 ^ 24) with 16777216. Z.div_mod_to_equations; lia. }
  rewrite Ed, E. rewrite <- Z.mul_assoc. change (256 * 256) with (2 ^ 16).
  apply ulong_id. change (2 ^ 24) with 16777216. change (2 ^ 16) with 65536. Z.div_mod_to_equations; lia.
Qed.

Lemma zlen_fixed h : zlen (fixed_bytes h) = 10.
Proof. unfold fixed_bytes. by destruct (gh_mtime h) as [[[? ?] ?] ?]. Qed.

Lemma parse_member_ok h body crc isize :
  header_ok h -> body <> [] -> zlen crc = 4 -> 0 <= isize < 2 ^ 32 ->
  zlen (member h body crc isize) < 2 ^ 32 ->
  parse_meta_data (member h body crc isize) (zlen (member h body crc isize)) =
    Some (Some (zlen (header_bytes h), zlen body, number4_value isize)).
Proof.
  intros (Hx & Hn & Hc) Hb Hcrc Hi Hm. destruct (gh_flags_spec h) as (Sx & Sn & Sc & Sh).
  assert (Hb0 : 0 < zlen body).
  { pose proof (zlen_nonneg body). destruct (decide (zlen body = 0)) as [E0 |]; [| lia]. by apply zlen_0_nil in E0. }
  unfold member, header_bytes in *. rewrite <- !app_assoc in *.
  set (X := extra_bytes (gh_extra h)) in *. set (N := cstr_bytes (gh_name h)) in *.
  set (K := cstr_bytes (gh_comment h)) in *. set (C := hcrc_bytes (gh_hcrc h)) in *.
  set (tail := body ++ crc ++ le4 isize) in *. pose proof (zlen_fixed h) as Hf.
  assert (Htail : zlen tail = zlen body + 8) by (unfold tail, le4; zl).
  pose proof (zlen_nonneg X). pose proof (zlen_nonneg N). pose proof (zlen_nonneg K). pose proof (zlen_nonneg C).
  set (mem := fixed_bytes h ++ X ++ N ++ K ++ C ++ tail) in *.
  assert (Hlen : zlen mem = 18 + (zlen X + zlen N + zlen K + zlen C + zlen body)) by (unfold mem; zl).
  assert (Hhead : aget mem 0 = Some 0x1f /\ aget mem 1 = Some 0x8b /\ aget mem 2 = Some 8 /\ aget mem 3 = Some (gh_flags h)).
  { unfold mem, fixed_bytes. destruct (gh_mtime h) as [[[? ?] ?] ?]. done. }
  destruct Hhead as (G0 & G1 & G2 & G3).
  unfold parse_meta_data, sizeof_header, sizeof_trailer. destruct (Z.ltb_spec (zlen mem) (10 + 8)); [lia |].
  rewrite G0, G1. simpl. rewrite G2. simpl. rewrite G3. simpl. rewrite ulong_id by lia.
  rewrite <- Hf. rewrite (skip_extra_ok mem (fixed_bytes h) (gh_extra h) (N ++ K ++ C ++ tail)) by (done || (fold X; lia)).
  simpl. fold X.
  rewrite (skip_string_ok flag_name mem (fixed_bytes h ++ X) (gh_name h) (K ++ C ++ tail)); [| by rewrite <- app_assoc | done | done | fold N; lia].
  simpl. fold N.
  rewrite (skip_string_ok flag_comment mem ((fixed_bytes h ++ X) ++ N) (gh_comment h) (C ++ tail));
    [| by rewrite <- !app_assoc | done | done | fold K; lia].
  simpl. fold K. rewrite (skip_hcrc_ok (gh_hcrc h)) by (done || (fold C; lia)). simpl. fold C.
  replace (zlen (((fixed_bytes h ++ X) ++ N) ++ K) + zlen C +
    (zlen mem - (zlen (fixed_bytes h) + 8) - zlen X - zlen N - zlen K - zlen C) + 4)
    with (zlen (fixed_bytes h ++ X ++ N ++ K ++ C ++ body ++ crc)) by zl.
  rewrite (number4_ok mem _ isize []); [| | done].
  - simpl. do 3 f_equal. rewrite !zlen_app in *. f_equal; lia.
  - unfold mem, tail. rewrite app_nil_r, <- !app_assoc. done.
Qed.

End GzipFacts.

(** ** Properties *)

Section Properties.
Context `{Platform}.

(** C37. Unzipping a gzip member returns the data: for every header with any of
    the optional fields, whatever inflation routine satisfies zlib's contract
    (it inflates what [deflate] compressed when the output has room, and fails
    otherwise), the string returned holds exactly the data when it is shorter
    than 16 MB.  From 16 MB on the length read from the trailer is too small
    and the result is 0. *)
Theorem gunzip_roundtrip {Z_S} (zl : inflate_ops Z_S) (deflate : list Z -> list Z) (undef : Z)
    (h : gz_header) (crc d : list Z) :
  (forall d, deflate d <> []) ->
  inflateInit2 zl (-15) = (Z_OK, (inflateInit2 zl (-15)).2) ->
  (forall d avail, 0 <= avail -> let '(err, out, st) := inflate zl (inflateInit2 zl (-15)).2 (deflate d) avail in
     if zlen d <=? avail then err = Z_STREAM_END /\ out = d /\ inflateEnd zl st = Z_OK
     else err <> Z_OK /\ err <> Z_STREAM_END /\ zlen out <= avail) ->
  header_ok h -> zlen crc = 4 -> zlen d < 2 ^ 32 ->
  zlen (member h (deflate d) crc (zlen d)) < 2 ^ 32 ->
  let r := Unzip undef zl (chunk_of (member h (deflate d) crc (zlen d))) in
  (zlen d < 2 ^ 24 -> exists res, r = Some (Some res) /\ c_bytes res = d /\ c_size res = zlen d) /\
  (2 ^ 24 <= zlen d -> r = Some None).
Proof.
  intros Hd Hinit Hinf Hh Hcrc Hz Hm r. subst r. pose proof (zlen_nonneg d) as Hz0.
  unfold Unzip, chunk_of. cbn [c_bytes c_size].
  rewrite parse_member_ok by (done || lia). cbn [mbind option_bind].
  set (n := number4_value (zlen d)).
  assert (Hb : zlen (deflate d) < 2 ^ 32).
  { unfold member in Hm. rewrite !zlen_app in Hm. pose proof (zlen_nonneg (header_bytes h)).
    pose proof (zlen_nonneg (le4 (zlen d))). lia. }
  pose proof (zlen_nonneg (deflate d)).
  assert (Hn : 0 <= n < 2 ^ 32 /\ (zlen d < 2 ^ 24 -> n = zlen d) /\ (2 ^ 24 <= zlen d -> n < zlen d)).
  { unfold n, number4_value. change (2 ^ 24) with 16777216. change (2 ^ 16) with 65536.
    change (2 ^ 32) with 4294967296 in *. Z.div_mod_to_equations; lia. }
  destruct Hn as (Hn0 & Hn1 & Hn2).
  unfold uInt. rewrite !Z.mod_small by lia. rewrite !Z.eqb_refl. cbn [negb orb].
  assert (Eseg : zseg (member h (deflate d) crc (zlen d)) (zlen (header_bytes h)) (zlen (deflate d)) = deflate d).
  { unfold member. by apply zseg_pieces. }
  rewrite Eseg, Hinit. cbn [negb Z.eqb Z_OK]. specialize (Hinf d n (proj1 Hn0)).
  destruct (inflate zl (inflateInit2 zl (-15)).2 (deflate d) n) as [[err out] st].
  destruct (Z.leb_spec (zlen d) n) as [Hfit | Hno].
  - destruct Hinf as (-> & -> & Hend). split; [| lia]. intros Hsm. specialize (Hn1 Hsm).
    cbn [String_New AllocChunk c_bytes].
    rewrite (blit_append d _ 0 (zlen d) [] (fresh undef n) []); [| lia | by rewrite app_nil_r | done | rewrite zlen_fresh; lia].
    simpl. rewrite Hend. simpl. eexists. split; [done |]. simpl.
    rewrite ztake_all, app_nil_r by lia. split; [done | lia].
  - destruct Hinf as (He1 & He2 & Hout). split; [lia |]. intros _.
    pose proof (zlen_nonneg out). cbn [String_New AllocChunk c_bytes].
    destruct (zsplit (fresh undef n) (zlen out)) as (o & s & E & Ho); [rewrite zlen_fresh; lia |].
    rewrite (blit_append out _ 0 (zlen out) [] o s) by (done || lia). simpl.
    destruct (Z.eqb_spec err Z_OK); [done |]. destruct (Z.eqb_spec err Z_STREAM_END); [done |]. done.
Qed.

(** The check of the extra field cannot fail on a field that is too long:
    the remaining length is unsigned, so subtracting the size of a field longer
    than the file wraps to a huge length instead of a negative one, and the
    parser goes on behind the end of the data instead of refusing the file. *)
Theorem gzip_extra_overread (mem : list Z) (xlen : Z) :
  18 <= zlen mem < 2 ^ 31 -> aget mem 0 = Some 0x1f -> aget mem 1 = Some 0x8b -> aget mem 2 = Some 8 ->
  aget mem 3 = Some 4 -> number2 mem 10 = Some xlen -> 0 <= xlen < 2 ^ 16 ->
  zlen mem - 18 < 2 + xlen ->
  parse_meta_data mem (zlen mem) = None /\
  skip_extra mem 4 10 (zlen mem - 18) =
    Some (true, 12 + xlen, zlen mem - 18 - (2 + xlen) + 2 ^ STORE_WORD_WIDTH).
Proof.
  intros Hz G0 G1 G2 G3 Gx Hx Hs. pose proof width_pow_pos as Hw.
  assert (Ewrap : ulong (zlen mem - 18 - (2 + xlen)) = zlen mem - 18 - (2 + xlen) + 2 ^ STORE_WORD_WIDTH).
  { unfold ulong, u_int. rewrite <- (Z.mod_add _ 1) by lia. rewrite Z.mod_small by lia. lia. }
  assert (E : skip_extra mem 4 10 (zlen mem - 18) =
    Some (true, 12 + xlen, zlen mem - 18 - (2 + xlen) + 2 ^ STORE_WORD_WIDTH)).
  { unfold skip_extra. change (is_set 4 flag_extra) with true. cbn iota. rewrite Gx. cbn [mbind option_bind].
    rewrite Ewrap, is_zero_pos by lia. cbn [negb]. replace (10 + 2 + xlen) with (12 + xlen) by lia. done. }
  split; [| exact E].
  unfold parse_meta_data, sizeof_header, sizeof_trailer. destruct (Z.ltb_spec (zlen mem) (10 + 8)); [lia |].
  rewrite G0, G1. cbn [mbind option_bind negb orb Z.eqb Pos.eqb]. rewrite G2. cbn [mbind option_bind negb Z.eqb Pos.eqb].
  rewrite G3. cbn [mbind option_bind]. change (10 + 8) with 18. rewrite ulong_id by lia. rewrite E.
  cbn [mbind option_bind negb]. unfold skip_string, skip_hcrc.
  change (is_set 4 flag_name) with false. change (is_set 4 flag_comment) with false. change (is_set 4 flag_hcrc) with false.
  assert (N : forall a, zlen mem <= a -> number4 mem a = None).
  { intros a Ha. unfold number4. rewrite (aget_None mem a) by lia. reflexivity. }
  cbn beta iota delta [mbind option_bind negb]. rewrite N by lia. done.
Qed.

End Properties.

(** A stored "compression" for the witness: a marker byte and the data. *)
Definition stored_zl : inflate_ops unit := Build_inflate_ops
  (fun _ => (Z_OK, tt))
  (fun _ inp avail => let d := tail inp in
     if zlen d <=? avail then (Z_STREAM_END, d, tt) else (-5, ztake avail d, tt))
  (fun _ => Z_OK).

Lemma gunzip_roundtrip_witness :
  let h := mkGzHeader true (0, 0, 0, 0) 2 3 (Some [7; 8; 9]) (Some [97; 46; 97]) None (Some (1, 2)) in
  exists res, @Unzip P64 unit 0 stored_zl (chunk_of (member h (cons 1 [104; 105]) [0; 0; 0; 0] 2)) = Some (Some res) /\
    c_bytes res = [104; 105].
Proof.
  destruct (@gunzip_roundtrip P64 unit stored_zl (cons 1) 0
    (mkGzHeader true (0, 0, 0, 0) 2 3 (Some [7; 8; 9]) (Some [97; 46; 97]) None (Some (1, 2)))
    [0; 0; 0; 0] [104; 105]) as [Hok _].
  - intros d E. discriminate E.
  - reflexivity.
  - intros d avail Ha. simpl. destruct (Z.leb_spec (zlen d) avail).
    + repeat split.
    + split_and!; [discriminate | discriminate |]. rewrite zlen_ztake; lia.
  - split_and!; [reflexivity | repeat constructor; discriminate | exact I].
  - reflexivity.
  - reflexivity.
  - reflexivity.
  - destruct (Hok eq_refl) as (res & E & Eb & _). exists res. split; [exact E | exact Eb].
Defined.

Lemma gzip_extra_overread_witness :
  let mem := [0x1f; 0x8b; 8; 4; 0; 0; 0; 0; 0; 0] ++ [255; 0; 1; 2; 3; 4; 5; 6; 7; 8; 9; 10] in
  @parse_meta_data P64 mem 22 = None.
Proof.
  apply (@gzip_extra_overread P64
    ([0x1f; 0x8b; 8; 4; 0; 0; 0; 0; 0; 0] ++ [255; 0; 1; 2; 3; 4; 5; 6; 7; 8; 9; 10]) 255);
    try reflexivity; split; (reflexivity || discriminate).
Defined.
