(* ===== verification/Pickle.v ===== *)
(** * Pickles: tags, graphs and instructions (seam/generic/Pickle.hh)

    The format version and the tags, the store as the pickler and the
    unpickler see it - nodes at addresses - and the instructions of a pickle
    with their encoding.  The grammar of Pickle.hh is the type [instr]. *)

From S2P Require Import Prelude Config HeaderOp PointerOp Block OutputStream.

Definition majorVersion : Z := 5.
Definition minorVersion : Z := 0.

Module Tag.
Definition INIT : Z := 0.
Definition STORE : Z := 1.
Definition LOAD : Z := 2.
Definition POSINT : Z := 3.
Definition NEGINT : Z := 4.
Definition CHUNK : Z := 5.
Definition MCHUNK : Z := 6.
Definition UNIQUE : Z := 7.
Definition BLOCK : Z := 8.
Definition MBLOCK : Z := 9.
Definition TUPLE : Z := 10.
Definition CLOSURE : Z := 11.
Definition TRANSFORM : Z := 12.
Definition aBLOCK : Z := 13.
Definition aMBLOCK : Z := 14.
Definition aTUPLE : Z := 15.
Definition aCLOSURE : Z := 16.
Definition aTRANSFORM : Z := 17.
Definition FULFILL : Z := 18.
Definition ENDOFSTREAM : Z := 19.
End Tag.

(** ** The store *)

(** An untagged word: an integer or the address of a node. *)
Inductive word := WInt (i : Z) | WPtr (a : Z).

#[export] Instance word_eq_dec : EqDecision word.
Proof. solve_decision. Defined.

Inductive node :=
  | NBlock (l : Z) (mutable : bool) (args : list word)
  | NChunk (mutable : bool) (bytes : list Z)
  | NRef (w : word)
  | NTransient (l : Z).

#[export] Instance node_eq_dec : EqDecision node.
Proof. solve_decision. Defined.

Record store := mkStore { st_next : Z; st_nodes : gmap Z node }.

Definition st_get (s : store) (a : Z) : option node := st_nodes s !! a.

Definition st_set (s : store) (a : Z) (n : node) : store :=
  mkStore (st_next s) (<[a := n]> (st_nodes s)).

Definition st_alloc (s : store) (n : node) : store * Z :=
  (mkStore (st_next s + 1) (<[st_next s := n]> (st_nodes s)), st_next s).

(** Following bound transients; a chain visits every node at most once. *)
Fixpoint deref_loop (fuel : nat) (s : store) (w : word) : option word :=
  match w with
  | WInt _ => Some w
  | WPtr a =>
      match st_get s a with
      | Some (NRef w') => match fuel with O => None | S fuel => deref_loop fuel s w' end
      | _ => Some w
      end
  end.

Definition st_deref (s : store) (w : word) : option word := deref_loop (size (st_nodes s)) s w.

(** [Store::WordToTransient], [WordToInt] and [WordToBlock]; [None] in the
    result stands for [INVALID_POINTER] and [INVALID_INT]. *)
Definition WordToTransient (s : store) (w : word) : option (option Z) :=
  w ← st_deref s w;
  match w with
  | WPtr a => match st_get s a with Some (NTransient _) => Some (Some a) | _ => Some None end
  | WInt _ => Some None
  end.

Definition WordToInt (s : store) (w : word) : option (option Z) :=
  w ← st_deref s w; Some (match w with WInt i => Some i | WPtr _ => None end).

Definition WordToBlock (s : store) (w : word) : option (option Z) :=
  w ← st_deref s w;
  match w with
  | WPtr a => match st_get s a with Some (NBlock _ _ _) | Some (NChunk _ _) => Some (Some a) | _ => Some None end
  | WInt _ => Some None
  end.

(** ** Instructions *)

Inductive instr :=
  | I_STORE (addr : Z)
  | I_LOAD (addr : Z)
  | I_POSINT (y : Z)
  | I_NEGINT (y : Z)
  | I_CHUNK (mutable : bool) (bytes : list Z)
  | I_UNIQUE
  | I_BLOCK (mutable : bool) (label size : Z)
  | I_TUPLE (size : Z)
  | I_CLOSURE (size : Z)
  | I_TRANSFORM
  | I_aBLOCK (mutable : bool) (label size addr : Z)
  | I_aTUPLE (size addr : Z)
  | I_aCLOSURE (size addr : Z)
  | I_aTRANSFORM (addr : Z)
  | I_FULFILL (addr : Z)
  | I_ENDOFSTREAM.

Definition enc (i : instr) : list Z :=
  match i with
  | I_STORE a => Tag.STORE :: uint_enc a
  | I_LOAD a => Tag.LOAD :: uint_enc a
  | I_POSINT y => Tag.POSINT :: uint_enc y
  | I_NEGINT y => Tag.NEGINT :: uint_enc y
  | I_CHUNK m bs => (if m then Tag.MCHUNK else Tag.CHUNK) :: uint_enc (zlen bs) ++ bs
  | I_UNIQUE => [Tag.UNIQUE]
  | I_BLOCK m l s => (if m then Tag.MBLOCK else Tag.BLOCK) :: uint_enc l ++ uint_enc s
  | I_TUPLE s => Tag.TUPLE :: uint_enc s
  | I_CLOSURE s => Tag.CLOSURE :: uint_enc s
  | I_TRANSFORM => [Tag.TRANSFORM]
  | I_aBLOCK m l s a => (if m then Tag.aMBLOCK else Tag.aBLOCK) :: uint_enc l ++ uint_enc s ++ uint_enc a
  | I_aTUPLE s a => Tag.aTUPLE :: uint_enc s ++ uint_enc a
  | I_aCLOSURE s a => Tag.aCLOSURE :: uint_enc s ++ uint_enc a
  | I_aTRANSFORM a => Tag.aTRANSFORM :: uint_enc a
  | I_FULFILL a => Tag.FULFILL :: uint_enc a
  | I_ENDOFSTREAM => [Tag.ENDOFSTREAM]
  end.

Definition enc_code (c : list instr) : list Z := c ≫= enc.

(** The operands that can be written: 31-bit integers, and bytes. *)
Definition u31 (i : Z) : Prop := 0 <= i < 2 ^ 31.

Definition instr_ok (i : instr) : Prop :=
  match i with
  | I_STORE a | I_LOAD a | I_aTRANSFORM a | I_FULFILL a => u31 a
  | I_POSINT y | I_NEGINT y => u31 y
  | I_CHUNK _ bs => u31 (zlen bs)
  | I_BLOCK _ l s => u31 l /\ u31 s
  | I_TUPLE s | I_CLOSURE s => u31 s
  | I_aBLOCK _ l s a => u31 l /\ u31 s /\ u31 a
  | I_aTUPLE s a | I_aCLOSURE s a => u31 s /\ u31 a
  | I_UNIQUE | I_TRANSFORM | I_ENDOFSTREAM => True
  end.

Lemma enc_code_app c d : enc_code (c ++ d) = enc_code c ++ enc_code d.
Proof. apply bind_app. Qed.

Lemma enc_code_cons i c : enc_code (i :: c) = enc i ++ enc_code c.
Proof. done. Qed.

Lemma enc_code_nil : enc_code [] = [].
Proof. done. Qed.

Lemma enc_pos i : 1 <= zlen (enc i).
Proof.
  destruct i; unfold enc; rewrite ?zlen_cons; change (zlen (@nil Z)) with 0;
    match goal with |- _ <= 1 + ?z => assert (0 <= z) by (apply zlen_nonneg || lia) end; lia.
Qed.
