(* ===== verification/Pickler.v ===== *)
(** * The pickler (seam/generic/Pickler.cc)

    [PickleWorker::Run] traverses a graph depth first with an explicit stack
    and writes it to the output buffer; [PickleSaveWorker::WriteToStream]
    writes the buffer to the stream with the missing [STORE]s filled in.  The
    result of a worker is a [Worker::Result]; failed assertions and accesses
    outside memory are [None]. *)

From S2P Require Import Prelude Config HeaderOp PointerOp Block Stack OutputStream Pickle.

(** ** Seen: the sharing detector

    The table is the finite map that [Map] implements ([BaseMap]); an entry
    holds the index in the output buffer and the variable number. *)

Definition Seen : Type := gmap Z (Z * Z).

Definition NOT_WRITTEN : Z := -1.

Definition Seen_New : Seen := ∅.
Definition Seen_Reset (s : Seen) : Seen := ∅.
Definition Seen_Add (s : Seen) (v : Z) (index : Z) : Seen := <[v := (index, 0)]> s.
Definition Seen_SetIndex (s : Seen) (v : Z) (index : Z) : option Seen :=
  b ← s !! v; Some (<[v := (index, b.2)]> s).
(** [None] is [NOT_FOUND]. *)
Definition Seen_Find (s : Seen) (v : Z) : option Z := fst <$> s !! v.
Definition Seen_SetVarNo (s : Seen) (v : Z) (varNo : Z) : option Seen :=
  b ← s !! v; Some (<[v := (b.1, varNo)]> s).
Definition Seen_GetVarNo (s : Seen) (v : Z) : option Z := snd <$> s !! v.

(** ** PickleStack: frames of two words *)

Section PickleStack.
Context `{Platform} (undef : word).
Implicit Types s : Stack word.

Definition DATA_POS : Z := 0.
Definition BACK_POS : Z := 1.
Definition FRAME_SIZE : Z := 2.
Definition PS_initialSize : Z := 128 * FRAME_SIZE.

Definition PS_New : Stack word := Stack_New undef PS_initialSize.
Definition PS_IsEmpty s : bool := Stack_IsEmpty s.
Definition PS_Push s (data : word) : option (Stack word) :=
  s ← AllocArgFrame undef s FRAME_SIZE;
  s ← PutFrameArg s DATA_POS data;
  PutFrameArg s BACK_POS (WInt 0).
Definition PS_GetData s : option word := GetFrameArg s DATA_POS.
Definition PS_SetBack s : option (Stack word) := PutFrameArg s BACK_POS (WInt 1).
Definition PS_GetBack s : option bool :=
  w ← GetFrameArg s BACK_POS;
  match w with WInt i => Some (i =? 1) | WPtr _ => None end.
Definition PS_PopTopFrame s : option (Stack word) := ClearArgFrameZero s FRAME_SIZE.
Definition PS_Reset s (data : word) : option (Stack word) := PS_Push (SetTop s 0) data.

End PickleStack.

(** ** PickleArgs *)

Section Pickler.
Context `{Platform} (undef : Z) (wundef : word) {F : Type}.
Context (gzputc : F -> Z -> F) (gzwrite : F -> list Z -> F) (gzclose : F -> F).

(** [ConcreteRepresentationHandler::GetAbstractRepresentation]: the transform
    of a concrete node, or none; it may allocate. *)
Context (GetAbstractRepresentation : store -> Z -> option Z * store).

Record PickleArgs := mkPickleArgs {
  pa_stream : OutputStream F;
  pa_buffer : OutputBuffer;
  pa_seen : Seen;
  pa_stack : Stack word;
  pa_root : word;
  pa_cur : Z;
  pa_max : Z;
  pa_transient : bool
}.
Implicit Types (pa : PickleArgs) (s : store).

Definition with_buffer pa o := mkPickleArgs (pa_stream pa) o (pa_seen pa) (pa_stack pa) (pa_root pa) (pa_cur pa) (pa_max pa) (pa_transient pa).
Definition with_seen pa sn := mkPickleArgs (pa_stream pa) (pa_buffer pa) sn (pa_stack pa) (pa_root pa) (pa_cur pa) (pa_max pa) (pa_transient pa).
Definition with_stack pa st := mkPickleArgs (pa_stream pa) (pa_buffer pa) (pa_seen pa) st (pa_root pa) (pa_cur pa) (pa_max pa) (pa_transient pa).
Definition with_height pa c m := mkPickleArgs (pa_stream pa) (pa_buffer pa) (pa_seen pa) (pa_stack pa) (pa_root pa) c m (pa_transient pa).

Definition PickleArgs_New (stream : OutputStream F) (root : word) : option PickleArgs :=
  o ← OB_New undef;
  ps ← PS_Push wundef (PS_New wundef) root;
  Some (mkPickleArgs stream o Seen_New ps root 0 0 false).

Definition SimulatePush pa : PickleArgs :=
  let cur := u_int (pa_cur pa + 1) in
  with_height pa cur (if pa_max pa <? cur then cur else pa_max pa).

(** The argument is a [u_int]: popping size - 1 of an empty block adds one. *)
Definition SimulatePop pa (i : Z) : option PickleArgs :=
  let cur := pa_cur pa in
  if 0 <? cur then Some (with_height pa (u_int (cur - i)) (pa_max pa)) else None.

Definition SetTransientFound pa : PickleArgs :=
  mkPickleArgs (pa_stream pa) (pa_buffer pa) (pa_seen pa) (pa_stack pa) (pa_root pa) (pa_cur pa) (pa_max pa) true.

Definition PickleArgs_Reset pa : option PickleArgs :=
  o ← OB_Reset (pa_buffer pa);
  ps ← PS_Reset wundef (pa_stack pa) (pa_root pa);
  Some (mkPickleArgs (pa_stream pa) o (Seen_Reset (pa_seen pa)) ps (pa_root pa) 0 0 false).

(** Writing to the buffer of the arguments. *)
Definition out_byte pa (b : Z) : option PickleArgs := with_buffer pa <$> OB_PutByte undef (pa_buffer pa) b.
Definition out_uint pa (i : Z) : option PickleArgs := with_buffer pa <$> OB_PutUInt undef (pa_buffer pa) i.
Definition out_chunk pa (c : Chunk) : option PickleArgs := with_buffer pa <$> OB_PutBytes undef (pa_buffer pa) c.
Definition out_local pa (ref : Z) : option (PickleArgs * Z) :=
  '(o, ann) ← PutLocal undef (pa_buffer pa) ref; Some (with_buffer pa o, ann).
Definition PopTopFrame pa : option PickleArgs := with_stack pa <$> PS_PopTopFrame (pa_stack pa).
Definition SetIndexHere pa (v : Z) : option PickleArgs :=
  with_seen pa <$> Seen_SetIndex (pa_seen pa) v (OB_GetPos (pa_buffer pa)).

(** ** PickleWorker::Run *)

Inductive exception := Sited.

(** What one round of the loop does: go on, or return from [Run]. *)
Inductive pickle_result :=
  | P_Next (s : store) (pa : PickleArgs)
  | P_Done (pa : PickleArgs)
  | P_Request (w : word) (pa : PickleArgs)
  | P_Raise (e : exception) (s : store) (pa : PickleArgs).

(** Labels of blocks that have a side effect on the world. *)
Definition sited_label (l : Z) : bool :=
  (l =? WEAK_MAP_LABEL) || (l =? MAP_LABEL) || (l =? INT_MAP_LABEL) || (l =? CHUNK_MAP_LABEL) ||
  (l =? THREAD_LABEL) || (l =? TASKSTACK_LABEL) || (l =? IODESC_LABEL).

(** Back from recursion: the arguments of [v] have been written. *)
Definition Run_back s pa (v : Z) (l : Z) (mutable : bool) (size : Z) : option PickleArgs :=
  var ← Seen_GetVarNo (pa_seen pa) v;
  if negb (var =? 0) then
    pa ← out_byte pa Tag.FULFILL;
    pa ← out_uint pa var;
    pa ← SimulatePop pa (u_int (size - 1));
    PopTopFrame pa
  else
    pa ← (if l =? UNIQUESTRING_LABEL then
            pa ← out_byte pa Tag.UNIQUE;
            SetIndexHere pa v
          else if l =? CONCRETE_LABEL then
            pa ← out_byte pa Tag.TRANSFORM;
            pa ← SimulatePop pa 1;
            SetIndexHere pa v
          else if l =? CLOSURE_LABEL then
            pa ← out_byte pa Tag.CLOSURE;
            pa ← out_uint pa size;
            pa ← SimulatePop pa (u_int (size - 1));
            SetIndexHere pa v
          else if l =? TUPLE_LABEL then
            pa ← out_byte pa Tag.TUPLE;
            pa ← out_uint pa size;
            pa ← SimulatePop pa (u_int (size - 1));
            SetIndexHere pa v
          else
            pa ← out_byte pa (if mutable then Tag.MBLOCK else Tag.BLOCK);
            pa ← out_uint pa l;
            pa ← out_uint pa size;
            pa ← SimulatePop pa (u_int (size - 1));
            SetIndexHere pa v);
    PopTopFrame pa.

(** An integer. *)
Definition Run_int pa (i : Z) : option PickleArgs :=
  pa ← (if 0 <=? i then pa ← out_byte pa Tag.POSINT; out_uint pa i
        else pa ← out_byte pa Tag.NEGINT; out_uint pa (- (i + 1)));
  PopTopFrame (SimulatePush pa).

(** Announce a block that is part of a cycle. *)
Definition Run_announce pa (v : Z) (l : Z) (mutable : bool) (size : Z) : option PickleArgs :=
  pa ← (if l =? CONCRETE_LABEL then out_byte pa Tag.aTRANSFORM
        else if l =? CLOSURE_LABEL then pa ← out_byte pa Tag.aCLOSURE; out_uint pa size
        else if l =? TUPLE_LABEL then pa ← out_byte pa Tag.aTUPLE; out_uint pa size
        else
          pa ← out_byte pa (if mutable then Tag.aMBLOCK else Tag.aBLOCK);
          pa ← out_uint pa l;
          out_uint pa size);
  '(pa, ann) ← out_local pa 0;
  sn ← Seen_SetVarNo (pa_seen pa) v ann;
  Some (SimulatePush (with_seen pa sn)).

(** A node that has been seen before. *)
Definition Run_seen pa (v : Z) (ref : Z) (l : Z) (mutable : bool) (size : Z) : option PickleArgs :=
  pa ← (if ref =? NOT_WRITTEN then
          vn ← Seen_GetVarNo (pa_seen pa) v;
          if 0 <? vn then
            pa ← out_byte pa Tag.LOAD;
            pa ← out_uint pa vn;
            Some (SimulatePush pa)
          else Run_announce pa v l mutable size
        else
          pa ← out_byte pa Tag.LOAD;
          vn ← Seen_GetVarNo (pa_seen pa) v;
          let pa := SimulatePush pa in
          if 0 <? vn then out_uint pa vn
          else
            '(pa, ann) ← out_local pa ref;
            sn ← Seen_SetVarNo (pa_seen pa) v ann;
            Some (with_seen pa sn));
  PopTopFrame pa.

Fixpoint push_all (st : Stack word) (args : list word) : option (Stack word) :=
  match args with
  | [] => Some st
  | w :: args => st ← PS_Push wundef st w; push_all st args
  end.

(** Mark the node and push what it refers to. *)
Definition open_node pa (v : Z) : option PickleArgs :=
  st ← PS_SetBack (pa_stack pa);
  Some (with_seen (with_stack pa st) (Seen_Add (pa_seen pa) v NOT_WRITTEN)).

Definition Run_chunk pa (v : Z) (mutable : bool) (bytes : list Z) : option PickleArgs :=
  pa ← out_byte pa (if mutable then Tag.MCHUNK else Tag.CHUNK);
  pa ← out_uint pa (zlen bytes);
  pa ← out_chunk pa (chunk_of bytes);
  let idx := OB_GetPos (pa_buffer pa) in
  PopTopFrame (SimulatePush (with_seen pa (Seen_Add (pa_seen pa) v idx))).

Definition Run_unique pa (v : Z) (args : list word) : option PickleArgs :=
  pa ← open_node pa v;
  str ← head args;
  st ← PS_Push wundef (pa_stack pa) str;
  Some (with_stack pa st).

Definition Run_concrete s pa (v : Z) : option pickle_result :=
  pa ← open_node pa v;
  let '(abstract, s) := GetAbstractRepresentation s v in
  match abstract with
  | None => Some (P_Raise Sited s pa)
  | Some ablock =>
      let pa := with_seen pa (Seen_Add (pa_seen pa) ablock NOT_WRITTEN) in
      match st_get s ablock with
      | Some (NBlock _ _ [name; argument]) =>
          st ← PS_Push wundef (pa_stack pa) name;
          st ← PS_Push wundef st argument;
          Some (P_Next s (with_stack pa st))
      | _ => None
      end
  end.

Definition Run_block pa (v : Z) (args : list word) : option PickleArgs :=
  pa ← open_node pa v;
  st ← push_all (pa_stack pa) args;
  Some (with_stack pa st).

(** One round of the loop. *)
Definition Run_step s pa : option pickle_result :=
  if PS_IsEmpty (pa_stack pa) then Some (P_Done pa)
  else
    x0 ← PS_GetData (pa_stack pa);
    back ← PS_GetBack (pa_stack pa);
    if (back : bool) then
      mv ← WordToBlock s x0;
      v ← mv;
      n ← st_get s v;
      match n with
      | NBlock l m args => P_Next s <$> Run_back s pa v l m (zlen args)
      | _ => None
      end
    else
      tr ← WordToTransient s x0;
      match tr with
      | Some _ => Some (P_Request x0 (SetTransientFound pa))
      | None =>
          i ← WordToInt s x0;
          match i with
          | Some i => P_Next s <$> Run_int pa i
          | None =>
              mv ← WordToBlock s x0;
              v ← mv;
              n ← st_get s v;
              match Seen_Find (pa_seen pa) v, n with
              | Some ref, NBlock l m args => P_Next s <$> Run_seen pa v ref l m (zlen args)
              | Some ref, NChunk m bytes => P_Next s <$> Run_seen pa v ref CHUNK_LABEL m 0
              | None, NChunk m bytes => P_Next s <$> Run_chunk pa v m bytes
              | None, NBlock l m args =>
                  if sited_label l then Some (P_Raise Sited s pa)
                  else if l =? UNIQUESTRING_LABEL then P_Next s <$> Run_unique pa v args
                  else if l =? CONCRETE_LABEL then Run_concrete s pa v
                  else if l =? TRANSFORM_LABEL then Some (P_Raise Sited s pa)
                  else P_Next s <$> Run_block pa v args
              | _, _ => None
              end
          end
      end.

(** [Run]: rounds until it returns. *)
Fixpoint PickleWorker_Run (fuel : nat) s pa : option pickle_result :=
  match fuel with
  | O => None
  | S fuel =>
      r ← Run_step s pa;
      match r with
      | P_Next s pa => PickleWorker_Run fuel s pa
      | r => Some r
      end
  end.

(** ** PickleSaveWorker and PicklePackWorker *)

Definition magic : list Z := [115; 101; 97; 109].

(** The loop over the sorted locals: the stream and the position reached. *)
Fixpoint write_locals (n : nat) (i : Z) (vars : Block Z) (ibf : list Z) (os : OutputStream F) (curPos : Z)
    : option (OutputStream F * Z) :=
  match n with
  | O => Some (os, curPos)
  | S n =>
      nextLoc ← GetArg vars (i * 2);
      nextVar ← GetArg vars (i * 2 + 1);
      if 0 <? nextLoc then
        if nextLoc <=? curPos then None
        else
          os ← PutBytes undef gzwrite os (zdrop curPos ibf) (nextLoc - curPos);
          os ← PutByte undef gzputc os Tag.STORE;
          os ← PutUInt undef gzputc os nextVar;
          write_locals n (i + 1) vars ibf os nextLoc
      else write_locals n (i + 1) vars ibf os curPos
  end.

Definition WriteToStream (stackHeight : Z) (obf : OutputBuffer) (os : OutputStream F)
    : option (OutputStream F) :=
  let c := OB_GetBuffer obf in
  '(obf, vars) ← GetLocals obf;
  let pos := OB_GetPos obf in
  let noOfLoc := GetNoOfLocals obf in
  os ← PutBytes undef gzwrite os magic 4;
  os ← PutUInt undef gzputc os majorVersion;
  os ← PutUInt undef gzputc os minorVersion;
  os ← PutByte undef gzputc os Tag.INIT;
  os ← PutUInt undef gzputc os stackHeight;
  os ← PutUInt undef gzputc os (noOfLoc + 1);
  let ibf := c_bytes c in
  '(os, curPos) ← write_locals (Z.to_nat noOfLoc) 1 vars ibf os 0;
  os ← PutBytes undef gzwrite os (zdrop curPos ibf) (u_int (pos - curPos));
  os ← PutByte undef gzputc os Tag.STORE;
  os ← PutUInt undef gzputc os 0;
  PutByte undef gzputc os Tag.ENDOFSTREAM.

(** The save and pack workers restart the pickling when a transient was found. *)
Inductive save_result :=
  | S_Restart (pa : PickleArgs)
  | S_Saved (file : F) (fs : FinalizationSet F)
  | S_Packed (str : Chunk).

Definition PickleSaveWorker_Run pa (fs : FinalizationSet F) : option save_result :=
  if pa_transient pa then S_Restart <$> PickleArgs_Reset pa
  else
    os ← WriteToStream (pa_max pa) (pa_buffer pa) (pa_stream pa);
    match os with
    | FILE_OUTPUT_STREAM os => let '(f, fs) := FOS_Close gzclose os fs in Some (S_Saved f fs)
    | STRING_OUTPUT_STREAM _ => None
    end.

Definition PicklePackWorker_Run pa : option save_result :=
  if pa_transient pa then S_Restart <$> PickleArgs_Reset pa
  else
    os ← WriteToStream (pa_max pa) (pa_buffer pa) (pa_stream pa);
    match os with
    | STRING_OUTPUT_STREAM os => Some (S_Packed (SOS_Close os))
    | FILE_OUTPUT_STREAM _ => None
    end.

(** [Pickler::Pack] up to the first round of the worker. *)
Definition Pack (x : word) : option PickleArgs :=
  PickleArgs_New (STRING_OUTPUT_STREAM (SOS_New undef)) x.

(** The workers that [Pack] pushed, in order: the pickle worker, and when it is
    done the pack worker.  A request for a transient, or a raise, ends the run. *)
Definition Pack_run (fuel : nat) s (x : word) : option (pickle_result + save_result) :=
  pa ← Pack x;
  r ← PickleWorker_Run fuel s pa;
  match r with
  | P_Done pa => inr <$> PicklePackWorker_Run pa
  | r => Some (inl r)
  end.

(** [Pickler::Save] to a file that was opened, with the workers it pushes. *)
Definition Save_run (fuel : nat) s (file : F) (fs : FinalizationSet F) (x : word) : option (pickle_result + save_result) :=
  let '(os, fs) := FOS_New file fs in
  pa ← PickleArgs_New (FILE_OUTPUT_STREAM os) x;
  r ← PickleWorker_Run fuel s pa;
  match r with
  | P_Done pa => inr <$> PickleSaveWorker_Run pa fs
  | r => Some (inl r)
  end.

End Pickler.
