(* ===== verification/Unpickler.v ===== *)
(** * The unpickler (seam/generic/Unpickler.cc)

    [PickleCheckWorker::Run] checks the header of a pickle and
    [UnpickleWorker::Run] executes its instructions on a frame with local
    variables and a stack.  Handlers of transforms, which other components
    register, are a parameter; failed assertions and accesses outside memory
    are [None].  The frame has the layout of the build with assertions. *)

From S2P Require Import Prelude Config HeaderOp PointerOp Block OutputStream InputStream Pickle.

(** ** UnpickleFrame *)

Record UnpickleFrame := mkFrame {
  uf_SIZE : Z; uf_TOP : Z; uf_LOCALS : Z; uf_slots : list word
}.

Section Frame.
Context `{Platform}.
Implicit Types fr : UnpickleFrame.

(** The slots of the frame before the locals: SIZE_POS, TOP_POS, LOCALS_POS. *)
Definition FRAME_BASE : Z := 3.
Definition StackFrame_BASE_SIZE : Z := 1.

Definition Frame_New (stackSize locals : Z) : UnpickleFrame :=
  let frSize := u_int (FRAME_BASE + stackSize + locals) in
  {| uf_SIZE := StackFrame_BASE_SIZE + frSize; uf_TOP := FRAME_BASE + locals; uf_LOCALS := locals;
     uf_slots := replicate (Z.to_nat (stackSize + locals)) (WInt 0) |}.

Definition Frame_GetSize fr : Z := uf_SIZE fr.

Definition Frame_GetArg fr (k : Z) : option word := aget (uf_slots fr) (k - FRAME_BASE).
Definition Frame_ReplaceArg fr (k : Z) (w : word) : option UnpickleFrame :=
  slots ← aset (uf_slots fr) (k - FRAME_BASE) w;
  Some (mkFrame (uf_SIZE fr) (uf_TOP fr) (uf_LOCALS fr) slots).
Definition set_TOP fr (tp : Z) : UnpickleFrame := mkFrame (uf_SIZE fr) tp (uf_LOCALS fr) (uf_slots fr).

Definition Frame_Push fr (value : word) : option UnpickleFrame :=
  let tp := uf_TOP fr in
  if (tp <? uf_LOCALS fr) || (Frame_GetSize fr <=? tp) then None
  else fr ← Frame_ReplaceArg fr tp value; Some (set_TOP fr (tp + 1)).

Definition Frame_Pop fr : option (word * UnpickleFrame) :=
  let tp := uf_TOP fr in
  if tp <=? uf_LOCALS fr then None
  else result ← Frame_GetArg fr (tp - 1); Some (result, set_TOP fr (tp - 1)).

Definition Frame_Top fr : option word :=
  let tp := uf_TOP fr in
  if tp <=? uf_LOCALS fr then None else Frame_GetArg fr (tp - 1).

(** A local is stored once: its slot holds the integer 0 before. *)
Definition Frame_Store (s : store) fr (i : Z) (value : word) : option UnpickleFrame :=
  if uf_LOCALS fr <=? i then None
  else
    old ← Frame_GetArg fr (FRAME_BASE + i);
    oi ← WordToInt s old;
    if bool_decide (oi = Some 0) then Frame_ReplaceArg fr (FRAME_BASE + i) value else None.

Definition Frame_Load (s : store) fr (i : Z) : option word :=
  if uf_LOCALS fr <=? i then None
  else
    w ← Frame_GetArg fr (FRAME_BASE + i);
    if i =? 0 then Some w
    else wi ← WordToInt s w; if bool_decide (wi = None) then Some w else None.

Definition Frame_PushStore (s : store) fr (i : Z) (value : word) : option UnpickleFrame :=
  fr ← Frame_Store s fr i value; Frame_Push fr value.

(** Popping [n] words, the first popped first. *)
Fixpoint Frame_PopN (n : nat) fr : option (list word * UnpickleFrame) :=
  match n with
  | O => Some ([], fr)
  | S n => '(w, fr) ← Frame_Pop fr; '(ws, fr) ← Frame_PopN n fr; Some (w :: ws, fr)
  end.

End Frame.

(** ** The state of unpickling *)

Record unpickler (G : Type) := mkUnpickler {
  un_store : store;
  un_stream : InputStream G;
  un_frame : UnpickleFrame;
  un_unique : gmap (list Z) Z;
  un_transforms : list (Z * list Z * word * list Z)
}.
Arguments mkUnpickler {G} _ _ _ _ _.
Arguments un_store {G} _.
Arguments un_stream {G} _.
Arguments un_frame {G} _.
Arguments un_unique {G} _.
Arguments un_transforms {G} _.

Section Unpickler.
Context `{Platform} (undef : Z) (wundef : word) (char_signed : bool) {G : Type} (gz : gz_ops G).

(** The handler table: a handler turns the argument of a transform into a word. *)
Context (handlerTable : gmap (list Z) (store -> word -> option (word * store))).

Implicit Types (u : unpickler G) (fr : UnpickleFrame) (s : store) (t : InputStream G).

Definition with_stream u t := mkUnpickler (un_store u) t (un_frame u) (un_unique u) (un_transforms u).
Definition with_frame u fr := mkUnpickler (un_store u) (un_stream u) fr (un_unique u) (un_transforms u).
Definition with_store u s := mkUnpickler s (un_stream u) (un_frame u) (un_unique u) (un_transforms u).

(** ** UniqueString::New: one node for every string *)

Definition Unique_New u (str : Z) (bytes : list Z) : unpickler G * Z :=
  match un_unique u !! bytes with
  | Some b => (u, b)
  | None =>
      let hash := Hash char_signed (chunk_of bytes) in
      let '(s, b) := st_alloc (un_store u) (NBlock UNIQUESTRING_LABEL false [WPtr str; WInt hash]) in
      (mkUnpickler s (un_stream u) (un_frame u) (<[bytes := b]> (un_unique u)) (un_transforms u), b)
  end.

(** ** ApplyTransform *)

(** The characters before the first '.', which is asserted to exist. *)
Fixpoint language_id (name : list Z) : option (list Z) :=
  match name with
  | [] => None
  | c :: name => if c =? 46 then Some [] else l ← language_id name; Some (c :: l)
  end.

(** The new word, and whether the worker must return: then a [TransformWorker]
    frame for the future [f] has been pushed and the language is being loaded. *)
Definition ApplyTransform u (name : list Z) (argument : word) (f : Z) : option (word * bool * unpickler G) :=
  match handlerTable !! name with
  | Some handler => '(w, s) ← handler (un_store u) argument; Some (w, false, with_store u s)
  | None =>
      languageId ← language_id name;
      Some (WPtr f, true,
            mkUnpickler (un_store u) (un_stream u) (un_frame u) (un_unique u)
              ((f, name, argument, languageId) :: un_transforms u))
  end.

(** [TransformWorker::Run]: the language has been loaded. *)
Definition TransformWorker_Run s (f : Z) (name : list Z) (argument : word) : option (option store) :=
  match handlerTable !! name with
  | Some handler => '(w, s) ← handler s argument; w ← st_deref s w; Some (Some (st_set s f (NRef w)))
  | None => Some None
  end.

(** [String::FromWordDirect] *)
Definition string_of s (w : word) : option (list Z) :=
  match w with
  | WPtr a => match st_get s a with Some (NChunk _ bs) => Some bs | _ => None end
  | WInt _ => None
  end.

Definition Future_New s : store * Z := st_alloc s (NTransient FUTURE_LABEL).

(** ** StoreAbstraction *)

(** A block of [size] words, all still undefined. *)
Definition alloc_block s (l : Z) (mutable : bool) (size : Z) : option (store * Z) :=
  if size <=? hw_MAX_BIGBLOCKSIZE HW
  then Some (st_alloc s (NBlock l mutable (replicate (Z.to_nat (TranslateSize size)) wundef)))
  else None.

(** Filling the first arguments of a block. *)
Definition fill_block s (b : Z) (ws : list word) : option store :=
  n ← st_get s b;
  match n with
  | NBlock l m args =>
      if zlen ws <=? zlen args then Some (st_set s b (NBlock l m (ws ++ zdrop (zlen ws) args))) else None
  | _ => None
  end.

Definition block_mutable (l : Z) (allocMutable : bool) : bool := if l =? CLOSURE_LABEL then true else allocMutable.

Definition AllocBlock u (label size : Z) (allocMutable : bool) : option (word * bool * unpickler G) :=
  if label =? TRANSFORM_LABEL then
    if negb (size =? 2) then None else
    '(wname, fr) ← Frame_Pop (un_frame u);
    '(argument, fr) ← Frame_Pop fr;
    name ← string_of (un_store u) wname;
    let '(s, f) := Future_New (un_store u) in
    ApplyTransform (with_store (with_frame u fr) s) name argument f
  else
    '(s, b) ← alloc_block (un_store u) label (block_mutable label allocMutable) size;
    '(ws, fr) ← Frame_PopN (Z.to_nat size) (un_frame u);
    s ← fill_block s b ws;
    Some (WPtr b, false, with_store (with_frame u fr) s).

Definition AnnounceBlock s (label size : Z) (allocMutable : bool) : option (word * store) :=
  if label =? TRANSFORM_LABEL then let '(s, f) := Future_New s in Some (WPtr f, s)
  else '(s, b) ← alloc_block s label (block_mutable label allocMutable) size; Some (WPtr b, s).

Definition MakeFulfilledBlock u (future : word) : option (word * bool * unpickler G) :=
  tr ← WordToTransient (un_store u) future;
  match future, tr with
  | WPtr b, None =>
      n ← st_get (un_store u) b;
      match n with
      | NBlock l m args =>
          '(ws, fr) ← Frame_PopN (length args) (un_frame u);
          s ← fill_block (un_store u) b ws;
          Some (WPtr b, false, with_store (with_frame u fr) s)
      | _ => None
      end
  | WPtr f, Some _ =>
      '(argument, fr) ← Frame_Pop (un_frame u);
      '(wname, fr) ← Frame_Pop fr;
      name ← string_of (un_store u) wname;
      ApplyTransform (with_frame u fr) name argument f
  | WInt _, _ => None
  end.

(** ** UnpickleWorker::Run *)

(** Reading an instruction: its tag and its operands, each read followed by
    the end-of-buffer check.  [INIT] and unknown tags are corrupt. *)
Inductive fetched := F_instr (i : instr) | F_corrupt.

Definition u1 (k : Z -> instr) : reader (G := G) fetched :=
  rbind (checked GetUInt) (fun a => rret (F_instr (k a))).
Definition u2 (k : Z -> Z -> instr) : reader (G := G) fetched :=
  rbind (checked GetUInt) (fun a => rbind (checked GetUInt) (fun b => rret (F_instr (k a b)))).
Definition u3 (k : Z -> Z -> Z -> instr) : reader (G := G) fetched :=
  rbind (checked GetUInt) (fun a => rbind (checked GetUInt) (fun b =>
    rbind (checked GetUInt) (fun c => rret (F_instr (k a b c))))).
Definition uchunk (m : bool) : reader (G := G) fetched :=
  rbind (checked GetUInt) (fun size => rbind (checked (ReadBytes size)) (fun bs => rret (F_instr (I_CHUNK m bs)))).

Definition operands (tag : Z) : reader (G := G) fetched :=
  if tag =? Tag.STORE then u1 I_STORE
  else if tag =? Tag.LOAD then u1 I_LOAD
  else if tag =? Tag.POSINT then u1 I_POSINT
  else if tag =? Tag.NEGINT then u1 I_NEGINT
  else if tag =? Tag.CHUNK then uchunk false
  else if tag =? Tag.MCHUNK then uchunk true
  else if tag =? Tag.UNIQUE then rret (F_instr I_UNIQUE)
  else if tag =? Tag.MBLOCK then u2 (I_BLOCK true)
  else if tag =? Tag.BLOCK then u2 (I_BLOCK false)
  else if tag =? Tag.TUPLE then u1 I_TUPLE
  else if tag =? Tag.CLOSURE then u1 I_CLOSURE
  else if tag =? Tag.TRANSFORM then rret (F_instr I_TRANSFORM)
  else if tag =? Tag.aBLOCK then u3 (I_aBLOCK false)
  else if tag =? Tag.aMBLOCK then u3 (I_aBLOCK true)
  else if tag =? Tag.aTUPLE then u2 I_aTUPLE
  else if tag =? Tag.aCLOSURE then u2 I_aCLOSURE
  else if tag =? Tag.aTRANSFORM then u1 I_aTRANSFORM
  else if tag =? Tag.FULFILL then u1 I_FULFILL
  else if tag =? Tag.ENDOFSTREAM then rret (F_instr I_ENDOFSTREAM)
  else rret F_corrupt.

Definition fetch : reader (G := G) fetched := rbind (checked GetByte) operands.

(** The effect of an instruction: go on (with [mustContinue]), raise [Corrupt],
    or finish with the result. *)
Inductive executed :=
  | E_next (mustContinue : bool) (u : unpickler G)
  | E_corrupt
  | E_result (w : word).

(** Push the new block. *)
Definition push_new (r : word * bool * unpickler G) : option executed :=
  let '(w, mustContinue, u) := r in
  fr ← Frame_Push (un_frame u) w; Some (E_next mustContinue (with_frame u fr)).

Definition push_word u (w : word) : option executed := push_new (w, false, u).

Definition announce u (label size addr : Z) (m : bool) : option executed :=
  '(w, s) ← AnnounceBlock (un_store u) label size m;
  fr ← Frame_PushStore s (un_frame u) addr w;
  Some (E_next false (with_store (with_frame u fr) s)).

Definition exec u (i : instr) : option executed :=
  match i with
  | I_STORE addr =>
      if MAX_VALID_INT <? addr then Some E_corrupt
      else
        top ← Frame_Top (un_frame u);
        fr ← Frame_Store (un_store u) (un_frame u) addr top;
        Some (E_next false (with_frame u fr))
  | I_LOAD addr =>
      if MAX_VALID_INT <? addr then Some E_corrupt
      else w ← Frame_Load (un_store u) (un_frame u) addr; push_word u w
  | I_POSINT y => if MAX_VALID_INT <? y then Some E_corrupt else push_word u (WInt y)
  | I_NEGINT y => if MAX_VALID_INT <? y then Some E_corrupt else push_word u (WInt (- (y + 1)))
  | I_CHUNK m bs =>
      let '(s, a) := st_alloc (un_store u) (NChunk m bs) in push_word (with_store u s) (WPtr a)
  | I_UNIQUE =>
      '(top, fr) ← Frame_Pop (un_frame u);
      match top with
      | WPtr str =>
          bytes ← string_of (un_store u) top;
          let '(u, b) := Unique_New (with_frame u fr) str bytes in push_word u (WPtr b)
      | WInt _ => None
      end
  | I_BLOCK m label size => r ← AllocBlock u label size m; push_new r
  | I_TUPLE size => r ← AllocBlock u TUPLE_LABEL size false; push_new r
  | I_CLOSURE size => r ← AllocBlock u CLOSURE_LABEL size false; push_new r
  | I_TRANSFORM => r ← AllocBlock u TRANSFORM_LABEL 2 false; push_new r
  | I_aBLOCK m label size addr => announce u label size addr m
  | I_aTUPLE size addr => announce u TUPLE_LABEL size addr false
  | I_aCLOSURE size addr => announce u CLOSURE_LABEL size addr false
  | I_aTRANSFORM addr => announce u TRANSFORM_LABEL 2 addr false
  | I_FULFILL addr =>
      if MAX_VALID_INT <? addr then Some E_corrupt
      else
        future ← Frame_Load (un_store u) (un_frame u) addr;
        r ← MakeFulfilledBlock u future; push_new r
  | I_ENDOFSTREAM => w ← Frame_Load (un_store u) (un_frame u) 0; Some (E_result w)
  end.

(** What one round of the loop does: go on, or return from [Run] after pushing
    an input worker, because of the status word, because of a transform, by
    raising, or with the result. *)
Inductive unpickle_result :=
  | U_Next (u : unpickler G)
  | U_Input (u : unpickler G)
  | U_Preempt (mustContinue : bool) (u : unpickler G)
  | U_Continue (u : unpickler G)
  | U_Raise (e : exn) (u : unpickler G)
  | U_Done (w : word) (u : unpickler G).

(** [Commit] follows the operands of every instruction but the last. *)
Definition commit_after u (i : instr) : unpickler G :=
  match i with I_ENDOFSTREAM => u | _ => with_stream u (Commit (un_stream u)) end.

(** [status]: whether [StatusWord::GetStatus()] is not 0. *)
Definition Unpickle_step (status : bool) u : option unpickle_result :=
  '(mi, t) ← fetch (un_stream u);
  let u := with_stream u t in
  match mi with
  | None => Some (U_Input u)
  | Some F_corrupt => Some (U_Raise Corrupt u)
  | Some (F_instr i) =>
      let u := commit_after u i in
      r ← exec u i;
      match r with
      | E_corrupt => Some (U_Raise Corrupt u)
      | E_result w => Some (U_Done w u)
      | E_next mustContinue u =>
          if status then Some (U_Preempt mustContinue u)
          else if mustContinue then Some (U_Continue u) else Some (U_Next u)
      end
  end.

(** [Run] and the runs that follow when it was preempted or wanted input: the
    scheduler runs the [InputWorker], which fills the buffer and pops itself.
    When a transform is pending - after [U_Continue] or [U_Preempt true] - the
    scheduler runs its [TransformWorker] first, so this returns to the caller. *)
Fixpoint UnpickleWorker_Run (fuel : nat) (status : nat -> bool) u : option unpickle_result :=
  match fuel with
  | O => None
  | S fuel =>
      r ← Unpickle_step (status fuel) u;
      match r with
      | U_Next u | U_Preempt false u => UnpickleWorker_Run fuel status u
      | U_Input u =>
          '(res, t) ← FillBuffer undef gz (un_stream u);
          let u := with_stream u t in
          match res with
          | Fill_CONTINUE => UnpickleWorker_Run fuel status u
          | Fill_RAISE e => Some (U_Raise e u)
          end
      | r => Some r
      end
  end.

(** ** PickleCheckWorker::Run

    The stack and locals size, [Corrupt], or a return for more input. *)
Inductive check_result := C_Input | C_Corrupt | C_Ok (stackSize localsSize : Z).

Definition magic_ok (bs : list Z) : bool := bool_decide (bs = [115; 101; 97; 109]).

(** A read and its check; [C_Input] returns to the scheduler. *)
Definition chk {A} (r : reader (G := G) A) (k : A -> InputStream G -> option (check_result * InputStream G))
    t : option (check_result * InputStream G) :=
  '(x, t) ← r t; match x with None => Some (C_Input, t) | Some a => k a t end.

Definition PickleCheckWorker_Run t : option (check_result * InputStream G) :=
  chk (checked (ReadBytes 4)) (fun m t =>
    if magic_ok m then
      chk (checked GetUInt) (fun major t =>
        let t := Commit t in
        if major =? majorVersion then
          chk (checked GetUInt) (fun minor t =>
            let t := Commit t in
            if minor <=? minorVersion then
              chk (checked GetByte) (fun tag t =>
                if tag =? Tag.INIT then
                  chk (checked GetUInt) (fun stackSize t =>
                    let t := Commit t in
                    if MAX_VALID_INT <? stackSize then Some (C_Corrupt, t)
                    else
                      let '(eof, t) := IsEOF gz t in
                      if eof then Some (C_Corrupt, t)
                      else
                        chk (checked GetUInt) (fun localsSize t =>
                          let t := Commit t in
                          if MAX_VALID_INT <? localsSize then Some (C_Corrupt, t)
                          else Some (C_Ok stackSize localsSize, t)) t) (Commit t)
                else Some (C_Corrupt, t)) t
            else Some (C_Corrupt, t)) t
        else Some (C_Corrupt, t)) (Commit t)
    else Some (C_Corrupt, t)) t.

(** Its runs until it has decided. *)
Fixpoint Check_Run (fuel : nat) t : option ((Z * Z + exn) * InputStream G) :=
  match fuel with
  | O => None
  | S fuel =>
      '(r, t) ← PickleCheckWorker_Run t;
      match r with
      | C_Ok stackSize localsSize => Some (inl (stackSize, localsSize), t)
      | C_Corrupt => Some (inr Corrupt, t)
      | C_Input =>
          '(res, t) ← FillBuffer undef gz t;
          match res with
          | Fill_CONTINUE => Check_Run fuel t
          | Fill_RAISE e => Some (inr e, t)
          end
      end
  end.

(** The workers that [Unpack] and [Load] push: check the pickle, push the frame
    of the [UnpickleWorker] and run it. *)
Definition Unpickle (fuel : nat) (status : nat -> bool) s (unique : gmap (list Z) Z) t
    : option (unpickle_result + exn) :=
  '(r, t) ← Check_Run fuel t;
  match r with
  | inr e => Some (inr e)
  | inl (stackSize, localsSize) =>
      inl <$> UnpickleWorker_Run fuel status (mkUnpickler s t (Frame_New stackSize localsSize) unique [])
  end.

Definition Unpack (fuel : nat) (status : nat -> bool) s (unique : gmap (list Z) Z) (str : Chunk) :
    option (unpickle_result + exn) :=
  Unpickle fuel status s unique (NewFromString str).

(** [PickleLoadWorker::Run]: close the stream. *)
Definition PickleLoadWorker_Run u (fs : FinalizationSet G) : unpickler G * FinalizationSet G :=
  let '(t, fs) := IS_Close gz (un_stream u) fs in (with_stream u t, fs).

(** [Load] of a file that was opened. *)
Definition Load (fuel : nat) (status : nat -> bool) s (unique : gmap (list Z) Z) (file : G) (fs : FinalizationSet G) :
    option ((unpickle_result + exn) * FinalizationSet G) :=
  let '(t, fs) := NewFromFile undef file fs in
  r ← Unpickle fuel status s unique t;
  match r with
  | inl (U_Done w u) => let '(u, fs) := PickleLoadWorker_Run u fs in Some (inl (U_Done w u), fs)
  | r => Some (r, fs)
  end.

End Unpickler.
