(* ===== verification/PickleRead.v ===== *)
(** * Executing a pickle from a stream

    Fetching inverts the encoding of an instruction, from any stream and
    however its data arrives; running [UnpickleWorker] on an encoded
    instruction list is executing the list. *)

From S2P Require Import Prelude Config HeaderOp PointerOp Block OutputStream InputStream Pickle Unpickler.

Section Fetch.
Context `{Platform} {G : Type}.

Definition slack_of (i : instr) : Z := match i with I_CHUNK _ _ => 1 | _ => 0 end.

Lemma reads_map {A B} (r : reader (G := G) A) e slack a (f : A -> B) :
  reads r e slack a -> reads (rbind r (fun x => rret (f x))) e slack (f a).
Proof.
  intros [Fu Sh]. constructor.
  - intros t rest Ht He E Hr. unfold rbind. by rewrite (Fu t rest).
  - intros t rest more Ht He E Hz. destruct (Sh t rest more Ht He E Hz) as (t' & Er & R).
    exists t'. unfold rbind. by rewrite Er.
Qed.

Lemma reads_u1 k a : u31 a -> reads (G := G) (u1 k) (uint_enc a) 0 (F_instr (k a)).
Proof. intros Ha. unfold u1. apply (reads_map _ _ _ _ (fun a => F_instr (k a))), reads_uint, Ha. Qed.

Lemma reads_u2 k a b : u31 a -> u31 b -> reads (G := G) (u2 k) (uint_enc a ++ uint_enc b) 0 (F_instr (k a b)).
Proof.
  intros Ha Hb. unfold u2. eapply reads_bind; [done | by apply reads_uint |].
  apply (reads_map _ _ _ _ (fun b => F_instr (k a b))), reads_uint, Hb.
Qed.

Lemma reads_u3 k a b c : u31 a -> u31 b -> u31 c ->
  reads (G := G) (u3 k) (uint_enc a ++ uint_enc b ++ uint_enc c) 0 (F_instr (k a b c)).
Proof.
  intros Ha Hb Hc. unfold u3. eapply reads_bind; [done | by apply reads_uint |].
  eapply reads_bind; [done | by apply reads_uint |].
  apply (reads_map _ _ _ _ (fun c => F_instr (k a b c))), reads_uint, Hc.
Qed.

Lemma reads_uchunk m bs : u31 (zlen bs) -> reads (G := G) (uchunk m) (uint_enc (zlen bs) ++ bs) 1 (F_instr (I_CHUNK m bs)).
Proof.
  intros Hb. unfold uchunk. eapply reads_bind; [done | by apply reads_uint |].
  apply (reads_map _ _ _ _ (fun bs => F_instr (I_CHUNK m bs))), reads_bytes, Hb.
Qed.

(** Fetching an instruction from its encoding. *)
Lemma reads_fetch i : instr_ok i -> reads (G := G) fetch (enc i) (slack_of i) (F_instr i).
Proof.
  intros Hi.
  assert (Hop : forall tag e, reads (G := G) (operands tag) e (slack_of i) (F_instr i) ->
            reads (G := G) fetch (tag :: e) (slack_of i) (F_instr i)).
  { intros tag e Hr. unfold fetch. change (tag :: e) with ([tag] ++ e).
    eapply reads_bind; [by destruct i | apply reads_byte | exact Hr]. }
  destruct i as [a | a | y | y | m bs | | m l s | s | s | | m l s a | s a | s a | a | a |]; simpl in Hi; unfold enc;
    try (destruct m); apply Hop;
    first [ by apply reads_u1 | by apply reads_u2; apply Hi | by apply reads_u3; apply Hi
          | by apply reads_uchunk | apply (reads_ret (F_instr _)) ].
Qed.

End Fetch.

(** ** Executing does not depend on the stream *)

Section Exec.
Context `{Platform} (undef : Z) (wundef : word) (char_signed : bool) {G : Type} (gz : gz_ops G).
Context (handlerTable : gmap (list Z) (store -> word -> option (word * store))).
Implicit Types (u : unpickler G) (t : InputStream G) (c : list instr).

Abbreviation exec := (exec wundef char_signed handlerTable).
Abbreviation Run := (UnpickleWorker_Run undef wundef char_signed gz handlerTable).

Definition exec_map (f : unpickler G -> unpickler G) (r : executed (G := G)) : executed :=
  match r with E_next m u => E_next m (f u) | E_corrupt => E_corrupt | E_result w => E_result w end.

Definition new_map (f : unpickler G -> unpickler G) (r : word * bool * unpickler G) : word * bool * unpickler G :=
  (r.1, f r.2).

Lemma push_new_stream r t :
  push_new (new_map (fun u => with_stream u t) r) = exec_map (fun u => with_stream u t) <$> push_new r.
Proof. destruct r as [[w m] u]. unfold push_new, new_map; simpl. by destruct (Frame_Push _ _). Qed.

Lemma ApplyTransform_stream u t name w f :
  ApplyTransform handlerTable (with_stream u t) name w f =
    new_map (fun u => with_stream u t) <$> ApplyTransform handlerTable u name w f.
Proof.
  unfold ApplyTransform; simpl. destruct (handlerTable !! name) as [hd |].
  - by destruct (hd _ _) as [[? ?] |].
  - by destruct (language_id name).
Qed.

Lemma AllocBlock_stream u t l s m :
  AllocBlock wundef handlerTable (with_stream u t) l s m =
    new_map (fun u => with_stream u t) <$> AllocBlock wundef handlerTable u l s m.
Proof.
  unfold AllocBlock; simpl. destruct (l =? TRANSFORM_LABEL).
  - destruct (negb (s =? 2)); [done |]. destruct (Frame_Pop (un_frame u)) as [[w1 fr1] |]; [| done]. simpl.
    destruct (Frame_Pop fr1) as [[w2 fr2] |]; [| done]. simpl. destruct (string_of _ _); [| done]. simpl.
    apply (ApplyTransform_stream (with_store (with_frame u fr2) _) t).
  - destruct (alloc_block _ _ _ _ _) as [[s1 b] |]; [| done]. simpl.
    destruct (Frame_PopN _ _) as [[ws fr] |]; [| done]. simpl. by destruct (fill_block _ _ _).
Qed.

Lemma MakeFulfilledBlock_stream u t w :
  MakeFulfilledBlock handlerTable (with_stream u t) w =
    new_map (fun u => with_stream u t) <$> MakeFulfilledBlock handlerTable u w.
Proof.
  unfold MakeFulfilledBlock; simpl. destruct (WordToTransient _ _) as [tr |]; [| done]. simpl.
  destruct w as [| b]; [done |]. destruct tr as [f |].
  - destruct (Frame_Pop (un_frame u)) as [[w1 fr1] |]; [| done]. simpl.
    destruct (Frame_Pop fr1) as [[w2 fr2] |]; [| done]. simpl. destruct (string_of _ _); [| done]. simpl.
    apply (ApplyTransform_stream (with_frame u fr2) t).
  - destruct (st_get _ _) as [[l m args | | |] |]; try done. simpl.
    destruct (Frame_PopN _ _) as [[ws fr] |]; [| done]. simpl. by destruct (fill_block _ _ _).
Qed.

Lemma exec_stream u t i : exec (with_stream u t) i = exec_map (fun u => with_stream u t) <$> exec u i.
Proof.
  assert (Hann : forall l s a m, announce wundef (with_stream u t) l s a m =
            exec_map (fun u => with_stream u t) <$> announce wundef u l s a m).
  { intros. unfold announce; simpl. destruct (AnnounceBlock _ _ _ _ _) as [[w s1] |]; [| done]. simpl.
    by destruct (Frame_PushStore _ _ _ _). }
  assert (Hpush : forall w, push_word (with_stream u t) w = exec_map (fun u => with_stream u t) <$> push_word u w).
  { intros. apply (push_new_stream (w, false, u)). }
  assert (Halloc : forall l s m, (r ← AllocBlock wundef handlerTable (with_stream u t) l s m; push_new r) =
            exec_map (fun u => with_stream u t) <$> (r ← AllocBlock wundef handlerTable u l s m; push_new r)).
  { intros. rewrite AllocBlock_stream. destruct (AllocBlock _ _ _ _ _ _) as [r |]; [| done]. apply push_new_stream. }
  destruct i; cbn [Unpickler.exec]; try apply Hann; try apply Halloc; try (case_match; [done | apply Hpush]).
  - case_match; [done |]. simpl. destruct (Frame_Top _); [| done]. simpl. by destruct (Frame_Store _ _ _ _).
  - case_match; [done |]. simpl. destruct (Frame_Load _ _ _); [| done]. apply Hpush.
  - apply (push_new_stream (_, false, with_store u _)).
  - simpl. destruct (Frame_Pop _) as [[w fr] |]; [| done]. simpl. destruct w as [| str]; [done |].
    destruct (string_of _ _) as [bs |]; [| done]. simpl. unfold Unique_New; simpl.
    destruct (un_unique u !! bs); unfold push_word, push_new; simpl; by destruct (Frame_Push _ _).
  - case_match; [done |]. simpl. destruct (Frame_Load _ _ _) as [w |]; [| done]. simpl.
    rewrite MakeFulfilledBlock_stream. destruct (MakeFulfilledBlock _ _ _) as [r |]; [| done]. apply push_new_stream.
  - simpl. by destruct (Frame_Load _ _ _).
Qed.

(** ** Fetching with the refills *)

Variable remaining : G -> list Z.

(** The documented behaviour of reading a compressed file: some of the data,
    none only at the end.  It matters only when the stream is a file. *)
Definition gzread_ok : Prop := forall g n, 0 < n <= UINT_MAX ->
  let '(k, data, g') := gzread gz g n in
  remaining g = data ++ remaining g' /\ k = zlen data /\ k <= n /\ (remaining g <> [] -> data <> []).

Abbreviation view := (view remaining).

(** A stream between two instructions. *)
Definition source_ok t : Prop := IS_ok t /\ is_rd t = is_hd t /\ is_eob t = false.

Lemma with_stream_stream u t1 t2 : with_stream (with_stream u t1) t2 = with_stream u t2.
Proof. done. Qed.

Lemma Run_fetch u i rest :
  instr_ok i -> source_ok (un_stream u) -> view (un_stream u) = enc i ++ rest ->
  slack_of i <= zlen rest -> zlen (enc i) + slack_of i <= ITEM_MAX -> (is_file (un_stream u) -> gzread_ok) ->
  exists k t t', (is_file (Commit t') -> is_file (un_stream u)) /\ (forall fuel status, Run (k + fuel)%nat status u = Run fuel status (with_stream u t)) /\
    fetch t = Some (Some (F_instr i), t') /\ source_ok (Commit t') /\ view (Commit t') = rest.
Proof.
  intros Hi Hsrc Hv Hsl Hmax Hgz. pose proof (reads_fetch (G := G) i Hi) as Hr.
  assert (Hs0 : 0 <= slack_of i) by (by destruct i).
  remember (Z.to_nat (zlen (enc i) + slack_of i - zlen (uncommitted (un_stream u)))) as n eqn:En.
  assert (Hn : zlen (enc i) + slack_of i - zlen (uncommitted (un_stream u)) <= Z.of_nat n) by lia. clear En.
  revert u Hsrc Hv Hgz Hn. induction n as [| n IH]; intros u (Ht & Ehd & He) Hv Hgz Hn;
    pose proof (buffered_committed (un_stream u) Ehd) as Eb;
    (destruct (decide (zlen (uncommitted (un_stream u)) < zlen (enc i) + slack_of i)) as [Hlt | Hge]; [try lia |]).
  1, 3: unfold InputStream.view in Hv;
    destruct (app_prefix (uncommitted (un_stream u)) (file_data remaining (un_stream u)) (enc i) rest Hv) as (x & Eu & Er); [lia |];
    exists O, (un_stream u), (SetRd (un_stream u) (is_rd (un_stream u) + zlen (enc i)));
    split; [done |]; split; [intros; by destruct u |];
    split; [apply (reads_full _ _ _ _ Hr _ x); [done | done | by rewrite Eb | rewrite Eu, zlen_app in Hge; lia] |];
    destruct (view_commit remaining (un_stream u) (enc i) Ht Ehd x Eu) as (K1 & K2 & K3 & K4);
    split; [split; [exact K1 | split; [exact K2 | exact (eq_trans K4 He)]] | exact (eq_trans K3 (eq_sym Er))].
  destruct (reads_short _ _ _ _ Hr (un_stream u) rest (file_data remaining (un_stream u))) as (t1 & E1 & _ & Hs);
    [done | done | by rewrite Eb | by rewrite Eb |].
  destruct (same_data_view remaining _ t1 Hs Ht) as (Ht1 & Ev1 & Eu1 & Ef1 & _).
  assert (Hd : file_data remaining t1 <> []).
  { rewrite Ef1. intros E0. unfold InputStream.view in Hv. rewrite E0, app_nil_r in Hv.
    apply (f_equal zlen) in Hv. rewrite zlen_app in Hv. lia. }
  assert (Hfile : is_file (un_stream u)).
  { apply file_data_is_file in Hd. destruct Hs as (_ & _ & _ & Ety & _). unfold is_file in *. by rewrite <- Ety. }
  destruct (FillBuffer_ok undef gz remaining (Hgz Hfile) t1) as (t2 & E2 & Ht2 & _ & Ev2 & Ehd2 & He2 & Hmore);
    [done | by eapply file_data_is_file | rewrite Eu1; lia | done |].
  destruct (IH (with_stream u t2)) as (k & t & t' & _ & Hrun & R); simpl.
  - done.
  - by rewrite Ev2, Ev1.
  - by intros _; apply Hgz.
  - rewrite Eu1 in Hmore. lia.
  - exists (S k), t, t'. split; [done |]. split; [| exact R]. intros fuel status. rewrite with_stream_stream in Hrun. rewrite <- Hrun.
    simpl plus. cbn [UnpickleWorker_Run]. unfold Unpickle_step. rewrite E1. simpl. by rewrite E2.
Qed.

(** ** Running an encoded instruction list *)

Fixpoint exec_all u c : option (unpickler G) :=
  match c with
  | [] => Some u
  | i :: c => r ← exec u i; match r with E_next false u => exec_all u c | _ => None end
  end.

Lemma exec_all_app u c d : exec_all u (c ++ d) = u' ← exec_all u c; exec_all u' d.
Proof.
  revert u. induction c as [| i c IH]; intros u; [done |]. simpl.
  destruct (exec u i) as [[[] u' | |] |]; simpl; done.
Qed.

Lemma exec_all_stream u t c : exec_all (with_stream u t) c = (fun u => with_stream u t) <$> exec_all u c.
Proof.
  revert u. induction c as [| i c IH]; intros u; [done |]. cbn [exec_all]. rewrite exec_stream.
  destruct (exec u i) as [[[] u' | |] |]; simpl; done.
Qed.

Lemma exec_all_keeps_stream u c u' : exec_all u c = Some u' -> un_stream u' = un_stream u.
Proof.
  intros E. pose proof (exec_all_stream u (un_stream u) c) as Es.
  assert (Eu : with_stream u (un_stream u) = u) by (by destruct u). rewrite Eu, E in Es. simpl in Es.
  injection Es as Es. rewrite Es. done.
Qed.

Definition size_ok (i : instr) : Prop := zlen (enc i) + slack_of i <= ITEM_MAX.

Lemma Run_code c u u1 w rest :
  Forall instr_ok c -> Forall size_ok c -> source_ok (un_stream u) ->
  view (un_stream u) = enc_code (c ++ [I_ENDOFSTREAM]) ++ rest ->
  exec_all u c = Some u1 -> exec u1 I_ENDOFSTREAM = Some (E_result w) -> (is_file (un_stream u) -> gzread_ok) ->
  exists n t, forall fuel status, Run (n + fuel)%nat status u = Some (U_Done w (with_stream u1 t)).
Proof.
  intros Hok Hsz. revert u u1. induction c as [| i c IH]; intros u u1 Hsrc Hv E Ew Hgz.
  - injection E as <-. rewrite app_nil_l, enc_code_cons, enc_code_nil, app_nil_r in Hv.
    destruct (Run_fetch u I_ENDOFSTREAM rest) as (k & t & t' & _ & Hrun & Ef & _); try done.
    { simpl. apply zlen_nonneg. }
    exists (k + 1)%nat, t'. intros fuel status. rewrite <- Nat.add_assoc, Hrun. simpl.
    unfold Unpickle_step. simpl un_stream. rewrite Ef. cbn [mbind option_bind commit_after].
    rewrite (exec_stream _ t'), exec_stream, Ew. done.
  - apply Forall_cons in Hok as [Hi Hok]. apply Forall_cons in Hsz as [Hsi Hsz].
    rewrite <- app_comm_cons, enc_code_cons, <- app_assoc in Hv.
    destruct (Run_fetch u i _ Hi Hsrc Hv) as (k & t & t' & Hty & Hrun & Ef & Hsrc' & Hv').
    { rewrite enc_code_app, <- app_assoc, zlen_app, zlen_app. pose proof (zlen_nonneg (enc_code c)).
      pose proof (zlen_nonneg rest). change (zlen (enc_code [I_ENDOFSTREAM])) with 1. destruct i; simpl; lia. }
    { exact Hsi. }
    { exact Hgz. }
    cbn [exec_all] in E. destruct (exec u i) as [[[] u2 | |] |] eqn:E2; simpl in E; try done.
    assert (Hc : commit_after (with_stream u t') i = with_stream u (Commit t')).
    { destruct i; try done. simpl in E2. by destruct (Frame_Load _ _ _). }
    assert (Hx : exec (with_stream u (Commit t')) i = Some (E_next false (with_stream u2 (Commit t')))).
    { rewrite exec_stream, E2. done. }
    destruct (IH Hok Hsz (with_stream u2 (Commit t')) (with_stream u1 (Commit t'))) as (n & t2 & Hn).
    + exact Hsrc'.
    + exact Hv'.
    + rewrite exec_all_stream, E. done.
    + rewrite exec_stream, Ew. done.
    + intros Hf. apply Hgz, Hty, Hf.
    + exists (k + S n)%nat, t2. intros fuel status. rewrite <- Nat.add_assoc, Hrun.
      cbn [plus UnpickleWorker_Run]. unfold Unpickle_step. simpl un_stream. rewrite Ef.
      cbn [mbind option_bind]. rewrite with_stream_stream, Hc, Hx. cbn [mbind option_bind].
      destruct (status _); apply Hn.
Qed.

End Exec.
