(* ===== verification/PickleMachine.v ===== *)
(** * An abstract machine for pickle instructions

    The machine that the instructions of Pickle.hh describe: a store, local
    variables and a stack without bounds, with a record of the stack's maximal
    height.  [exec_refines] shows that the unpickler implements it in a frame
    of that height. *)

From S2P Require Import Prelude Config HeaderOp PointerOp Block OutputStream InputStream Pickle Unpickler PickleRead.

Record machine := mkMachine {
  a_store : store;
  a_locals : gmap Z word;
  a_stack : list word;
  a_max : Z
}.

Section Machine.
Context `{Platform} (wundef : word).
Implicit Types (m : machine) (i : instr) (s : store) (k : Z).

Definition set_local m k (w : word) : machine :=
  mkMachine (a_store m) (<[k := w]> (a_locals m)) (a_stack m) (a_max m).

(** Replacing store and stack. *)
Definition with_stack m s (ws : list word) : machine :=
  mkMachine s (a_locals m) ws (Z.max (a_max m) (zlen ws)).

Definition m_push m (w : word) : machine := with_stack m (a_store m) (w :: a_stack m).

(** A word that refers to a block or a chunk. *)
Definition node_ref s (w : word) : bool :=
  match w with
  | WPtr a => match st_get s a with Some (NBlock _ _ _) | Some (NChunk _ _) => true | _ => false end
  | WInt _ => false
  end.

Definition size_fits (size : Z) : bool := (0 <=? size) && (size <=? hw_MAX_BLOCKSIZE HW).

Definition m_block m (l : Z) (mutable : bool) (size : Z) : option machine :=
  if negb (l =? TRANSFORM_LABEL) && size_fits size && (size <=? zlen (a_stack m)) then
    let '(s, b) := st_alloc (a_store m) (NBlock l (block_mutable l mutable) (ztake size (a_stack m))) in
    Some (with_stack m s (WPtr b :: zdrop size (a_stack m)))
  else None.

Definition m_announce m (l : Z) (mutable : bool) (size k : Z) : option machine :=
  if negb (l =? TRANSFORM_LABEL) && size_fits size && bool_decide (a_locals m !! k = None) then
    let '(s, b) := st_alloc (a_store m) (NBlock l (block_mutable l mutable) (replicate (Z.to_nat size) wundef)) in
    Some (with_stack (set_local m k (WPtr b)) s (WPtr b :: a_stack m))
  else None.

Definition m_fulfill m (k : Z) : option machine :=
  w ← a_locals m !! k;
  match w with
  | WPtr b =>
      match st_get (a_store m) b with
      | Some (NBlock l mu args) =>
          if zlen args <=? zlen (a_stack m) then
            Some (with_stack m (st_set (a_store m) b (NBlock l mu (ztake (zlen args) (a_stack m))))
                    (WPtr b :: zdrop (zlen args) (a_stack m)))
          else None
      | _ => None
      end
  | WInt _ => None
  end.

(** Instructions outside the plain graphs - unique strings, transforms and the
    end - are [None]. *)
Definition m_exec m i : option machine :=
  match i with
  | I_STORE k =>
      match a_stack m, a_locals m !! k with
      | w :: _, None => Some (set_local m k w)
      | _, _ => None
      end
  | I_LOAD k =>
      w ← a_locals m !! k; if node_ref (a_store m) w then Some (m_push m w) else None
  | I_POSINT y => if (0 <=? y) && (y <=? MAX_VALID_INT) then Some (m_push m (WInt y)) else None
  | I_NEGINT y => if (0 <=? y) && (y <=? MAX_VALID_INT) then Some (m_push m (WInt (- (y + 1)))) else None
  | I_CHUNK mu bs =>
      let '(s, a) := st_alloc (a_store m) (NChunk mu bs) in Some (with_stack m s (WPtr a :: a_stack m))
  | I_BLOCK mu l size => m_block m l mu size
  | I_TUPLE size => m_block m TUPLE_LABEL false size
  | I_CLOSURE size => m_block m CLOSURE_LABEL false size
  | I_aBLOCK mu l size k => m_announce m l mu size k
  | I_aTUPLE size k => m_announce m TUPLE_LABEL false size k
  | I_aCLOSURE size k => m_announce m CLOSURE_LABEL false size k
  | I_FULFILL k => m_fulfill m k
  | _ => None
  end.

Fixpoint m_run m (c : list instr) : option machine :=
  match c with
  | [] => Some m
  | i :: c => m ← m_exec m i; m_run m c
  end.

Lemma m_run_app m c d : m_run m (c ++ d) = m ← m_run m c; m_run m d.
Proof.
  revert m. induction c as [| i c IH]; intros m; [done |]. simpl.
  destruct (m_exec m i) as [m1 |]; simpl; [apply IH | done].
Qed.

(** The local variable an instruction uses or defines. *)
Definition instr_local i : option Z :=
  match i with
  | I_STORE k | I_LOAD k | I_aBLOCK _ _ _ k | I_aTUPLE _ k | I_aCLOSURE _ k | I_FULFILL k => Some k
  | _ => None
  end.

Lemma set_local_with_stack m s ws k w : set_local (with_stack m s ws) k w = with_stack (set_local m k w) s ws.
Proof. done. Qed.

Lemma set_local_comm m k w k' w' : k <> k' ->
  set_local (set_local m k w) k' w' = set_local (set_local m k' w') k w.
Proof. intros. unfold set_local; simpl. f_equal. by apply insert_insert_ne. Qed.

(** An instruction does not see the other local variables. *)
Lemma m_exec_set_local m i m' k w : m_exec m i = Some m' -> instr_local i <> Some k ->
  m_exec (set_local m k w) i = Some (set_local m' k w).
Proof.
  assert (Hann : forall l mu size k', k' <> k -> m_announce m l mu size k' = Some m' ->
            m_announce (set_local m k w) l mu size k' = Some (set_local m' k w)).
  { intros l mu size k' Hk. unfold m_announce; simpl. rewrite lookup_insert_ne by done.
    destruct (_ && _); [| done]. intros [= <-]. by rewrite set_local_with_stack, set_local_comm. }
  assert (Hblk : forall l mu size, m_block m l mu size = Some m' ->
            m_block (set_local m k w) l mu size = Some (set_local m' k w)).
  { intros l mu size. unfold m_block; simpl. destruct (_ && _); [| done]. by intros [= <-]. }
  intros E Hk. destruct i; simpl in *; try done; try (by apply Hblk); try (apply Hann; [congruence | done]).
  - rewrite lookup_insert_ne by congruence. destruct (a_stack m) as [| w0 ?]; [done |].
    destruct (a_locals m !! addr); [done |]. injection E as <-. f_equal. apply set_local_comm. congruence.
  - rewrite lookup_insert_ne by congruence. destruct (a_locals m !! addr) as [w0 |]; simpl in *; [| done].
    destruct (node_ref _ _); [| done]. by injection E as <-.
  - destruct (_ && _); [| done]. by injection E as <-.
  - destruct (_ && _); [| done]. by injection E as <-.
  - by injection E as <-.
  - unfold m_fulfill in *; simpl. rewrite lookup_insert_ne by congruence.
    destruct (a_locals m !! addr) as [[| b] |]; simpl in *; try done.
    destruct (st_get _ _) as [[] |]; try done. destruct (_ <=? _); [| done]. by injection E as <-.
Qed.

Lemma m_run_set_local c m m' k w : m_run m c = Some m' -> Forall (fun i => instr_local i <> Some k) c ->
  m_run (set_local m k w) c = Some (set_local m' k w).
Proof.
  revert m. induction c as [| i c IH]; intros m E Hc; simpl in *; [by injection E as <- |].
  inversion Hc; subst. destruct (m_exec m i) as [m1 |] eqn:E1; simpl in E; [| done].
  rewrite (m_exec_set_local m i m1) by done. simpl. by apply IH.
Qed.

(** The recorded height only grows, and bounds the stack. *)
Lemma m_exec_max m i m' : m_exec m i = Some m' -> zlen (a_stack m) <= a_max m ->
  a_max m <= a_max m' /\ zlen (a_stack m') <= a_max m'.
Proof.
  intros E Hz. assert (Hw : forall m0 s ws, a_max m0 = a_max m -> Some (with_stack m0 s ws) = Some m' ->
    a_max m <= a_max m' /\ zlen (a_stack m') <= a_max m').
  { intros m0 s ws E0 [= <-]. simpl. lia. }
  assert (Hann : forall l mu size k', m_announce m l mu size k' = Some m' ->
            a_max m <= a_max m' /\ zlen (a_stack m') <= a_max m').
  { intros l mu size k'. unfold m_announce. destruct (_ && _); [| done]. by apply Hw. }
  assert (Hblk : forall l mu size, m_block m l mu size = Some m' ->
            a_max m <= a_max m' /\ zlen (a_stack m') <= a_max m').
  { intros l mu size. unfold m_block. destruct (_ && _); [| done]. by apply Hw. }
  destruct i; simpl in *; try done; eauto.
  - destruct (a_stack m) as [| w0 ?] eqn:Es; [done |]. destruct (a_locals m !! addr); [done |].
    injection E as <-. simpl. rewrite Es. lia.
  - destruct (a_locals m !! addr) as [w0 |]; simpl in *; [| done]. destruct (node_ref _ _); [| done]. by apply Hw in E.
  - destruct (_ && _); [| done]. by apply Hw in E.
  - destruct (_ && _); [| done]. by apply Hw in E.
  - unfold m_fulfill in *. destruct (a_locals m !! addr) as [[| b] |]; simpl in *; try done.
    destruct (st_get _ _) as [[] |]; try done. destruct (_ <=? _); [| done]. by apply Hw in E.
Qed.

Lemma m_run_max c m m' : m_run m c = Some m' -> zlen (a_stack m) <= a_max m ->
  a_max m <= a_max m' /\ zlen (a_stack m') <= a_max m'.
Proof.
  revert m. induction c as [| i c IH]; intros m E Hz; simpl in *; [injection E as <-; lia |].
  destruct (m_exec m i) as [m1 |] eqn:E1; simpl in E; [| done].
  destruct (m_exec_max _ _ _ E1 Hz). destruct (IH _ E); lia.
Qed.

End Machine.

(** ** The frame of the unpickler implements the machine *)

Section FrameRep.
Context `{Platform}.
Implicit Types (fr : UnpickleFrame) (locals : gmap Z word) (stk : list word).

Record frame_rep (height n : Z) locals stk fr : Prop := {
  fr_SIZE : uf_SIZE fr = 4 + height + n;
  fr_TOP : uf_TOP fr = 3 + n + zlen stk;
  fr_LOCALS : uf_LOCALS fr = n;
  fr_slots : exists ls free, uf_slots fr = ls ++ rev stk ++ free /\ zlen ls = n /\
    zlen (uf_slots fr) = n + height /\
    forall k, 0 <= k < n -> aget ls k = Some (default (WInt 0) (locals !! k))
}.

Lemma zlen_rev {A} (l : list A) : zlen (rev l) = zlen l.
Proof. unfold zlen. by rewrite length_rev. Qed.

Lemma Frame_New_rep height n : 0 <= height -> 0 <= n -> height + n + 3 < 2 ^ 32 ->
  frame_rep height n ∅ [] (Frame_New height n).
Proof.
  intros Hh Hn Hm. unfold Frame_New. rewrite u_int_id32 by (unfold FRAME_BASE; lia).
  split; simpl; unfold FRAME_BASE, StackFrame_BASE_SIZE; change (zlen (@nil word)) with 0; try lia.
  exists (replicate (Z.to_nat n) (WInt 0)), (replicate (Z.to_nat height) (WInt 0)).
  split_and!.
  - simpl; rewrite <- replicate_add. f_equal. lia.
  - by rewrite zlen_replicate by lia.
  - replace (height + n) with (n + height) by lia. rewrite zlen_replicate; lia.
  - intros k Hk. by rewrite aget_replicate by lia.
Qed.

Lemma frame_rep_intro height n locals stk sz tp ls free slots :
  sz = 4 + height + n -> tp = 3 + n + zlen stk -> slots = ls ++ rev stk ++ free -> zlen ls = n ->
  zlen slots = n + height -> (forall k, 0 <= k < n -> aget ls k = Some (default (WInt 0) (locals !! k))) ->
  frame_rep height n locals stk (mkFrame sz tp n slots).
Proof. intros -> -> -> E Hz Hg. split; simpl; try done. by exists ls, free. Qed.

Lemma Frame_Push_ok height n locals stk fr w :
  frame_rep height n locals stk fr -> zlen stk + 1 <= height ->
  exists fr', Frame_Push fr w = Some fr' /\ frame_rep height n locals (w :: stk) fr'.
Proof.
  intros HR Hh. pose proof HR as [Hs Ht Hl (ls & free & E & El & Ez & Hg)]. pose proof (zlen_nonneg stk). pose proof (zlen_nonneg ls).
  unfold Frame_Push, Frame_GetSize, Frame_ReplaceArg, FRAME_BASE. rewrite Ht, Hl, Hs.
  destruct (Z.ltb_spec (3 + n + zlen stk) n); [lia |]. destruct (Z.leb_spec (4 + height + n) (3 + n + zlen stk)); [lia |].
  simpl. rewrite E in Ez |- *. rewrite !zlen_app, zlen_rev in Ez.
  destruct (zlen_pos_cons free) as (x & free' & ->); [lia |].
  rewrite app_assoc, aset_mid by (rewrite zlen_app, zlen_rev; lia). simpl.
  eexists. split; [reflexivity |]. unfold set_TOP; simpl.
  apply (frame_rep_intro _ _ _ (w :: stk) _ _ ls free'); try done; try (rewrite ?zlen_cons; lia).
  - simpl. by rewrite <- !app_assoc.
  - rewrite !zlen_app, zlen_rev. rewrite !zlen_cons in *. lia.
Qed.

Lemma Frame_top_slot height n locals w stk fr :
  frame_rep height n locals (w :: stk) fr ->
  (uf_TOP fr <=? uf_LOCALS fr) = false /\ Frame_GetArg fr (uf_TOP fr - 1) = Some w.
Proof.
  intros [Hs Ht Hl (ls & free & E & El & Ez & Hg)]. rewrite Ht, Hl, zlen_cons. pose proof (zlen_nonneg stk).
  pose proof (zlen_nonneg ls). split; [apply Z.leb_gt; lia |].
  unfold Frame_GetArg, FRAME_BASE. rewrite E. simpl. rewrite <- !app_assoc, app_assoc. apply aget_mid.
  rewrite zlen_app, zlen_rev. lia.
Qed.

Lemma Frame_Pop_ok height n locals w stk fr :
  frame_rep height n locals (w :: stk) fr ->
  exists fr', Frame_Pop fr = Some (w, fr') /\ frame_rep height n locals stk fr'.
Proof.
  intros HR. destruct (Frame_top_slot _ _ _ _ _ _ HR) as [E1 E2]. unfold Frame_Pop. rewrite E1, E2. simpl.
  eexists. split; [reflexivity |]. pose proof HR as [Hs Ht Hl (ls & free & E & El & Ez & Hg)].
  unfold set_TOP. rewrite Hl. apply (frame_rep_intro _ _ _ _ _ _ ls (w :: free)); try done.
  - rewrite Ht, zlen_cons. lia.
  - rewrite E. simpl. by rewrite <- !app_assoc.
Qed.

Lemma Frame_PopN_ok height n locals stk fr k :
  frame_rep height n locals stk fr -> 0 <= k <= zlen stk ->
  exists fr', Frame_PopN (Z.to_nat k) fr = Some (ztake k stk, fr') /\ frame_rep height n locals (zdrop k stk) fr'.
Proof.
  intros HR Hk. remember (Z.to_nat k) as j eqn:Ej. revert k stk fr HR Hk Ej.
  induction j as [| j IH]; intros k stk fr HR Hk Ej.
  - assert (k = 0) as -> by lia. rewrite ztake_0, zdrop_0. by exists fr.
  - destruct stk as [| w stk]; [change (zlen (@nil word)) with 0 in Hk; lia |]. rewrite zlen_cons in Hk.
    destruct (Frame_Pop_ok _ _ _ _ _ _ HR) as (fr1 & E1 & HR1).
    destruct (IH (k - 1) stk fr1 HR1) as (fr2 & E2 & HR2); [lia | lia |].
    exists fr2. simpl. rewrite E1. simpl. rewrite E2. simpl. unfold ztake, zdrop in *. rewrite <- Ej.
    replace (Z.to_nat (k - 1)) with j in * by lia. done.
Qed.

Lemma Frame_Top_ok height n locals w stk fr :
  frame_rep height n locals (w :: stk) fr -> Frame_Top fr = Some w.
Proof. intros HR. destruct (Frame_top_slot _ _ _ _ _ _ HR) as [E1 E2]. unfold Frame_Top. by rewrite E1. Qed.

Lemma Frame_local height n locals stk fr k :
  frame_rep height n locals stk fr -> 0 <= k < n ->
  (uf_LOCALS fr <=? k) = false /\ Frame_GetArg fr (FRAME_BASE + k) = Some (default (WInt 0) (locals !! k)).
Proof.
  intros [Hs Ht Hl (ls & free & E & El & Ez & Hg)] Hk. rewrite Hl. split; [apply Z.leb_gt; lia |].
  unfold Frame_GetArg. replace (FRAME_BASE + k - FRAME_BASE) with k by lia. rewrite E, aget_app_l by lia. by apply Hg.
Qed.

Lemma Frame_Store_ok height n locals stk fr s k w :
  frame_rep height n locals stk fr -> 0 <= k < n -> locals !! k = None ->
  exists fr', Frame_Store s fr k w = Some fr' /\ frame_rep height n (<[k := w]> locals) stk fr'.
Proof.
  intros HR Hk Hn. destruct (Frame_local _ _ _ _ _ _ HR Hk) as [E1 E2]. rewrite Hn in E2.
  unfold Frame_Store. rewrite E1, E2. simpl.
  assert (Ew : WordToInt s (WInt 0) = Some (Some 0)).
  { unfold WordToInt, st_deref. by destruct (size _). }
  rewrite Ew. simpl. unfold Frame_ReplaceArg. replace (FRAME_BASE + k - FRAME_BASE) with k by lia.
  pose proof HR as [Hs Ht Hl (ls & free & E & El & Ez & Hg)].
  destruct (aset ls k w) as [ls' |] eqn:Ea; [| by rewrite aset_Some in Ea by lia].
  pose proof (aset_zlen _ _ _ _ Ea) as Elz.
  assert (Ea' : aset (uf_slots fr) k w = Some (ls' ++ rev stk ++ free)).
  { rewrite E. pose proof (aset_split _ _ _ _ Ea) as Es. rewrite aset_Some in Ea by lia. injection Ea as <-.
    rewrite aset_Some by (rewrite zlen_app; pose proof (zlen_nonneg (rev stk ++ free)); lia).
    f_equal. apply insert_app_l. unfold zlen in El. lia. }
  rewrite Ea'. simpl. eexists. split; [reflexivity |]. rewrite Hl.
  apply (frame_rep_intro _ _ _ _ _ _ ls' free); try done; try lia.
  - rewrite E in Ez. rewrite !zlen_app in *. lia.
  - intros j Hj. destruct (decide (k = j)) as [-> |].
    + rewrite (aget_aset_eq _ _ _ _ Ea). by rewrite lookup_insert_eq.
    + rewrite (aget_aset_ne _ _ _ _ _ Ea) by done. rewrite lookup_insert_ne by done. by apply Hg.
Qed.

Lemma WordToInt_node s w : node_ref s w = true -> WordToInt s w = Some None.
Proof.
  destruct w as [| a]; [done |]. simpl. unfold WordToInt, st_deref. intros Hn.
  destruct (st_get s a) as [[] |] eqn:E; try done; destruct (size _); simpl; by rewrite E.
Qed.

Lemma Frame_Load_ok height n locals stk fr s k w :
  frame_rep height n locals stk fr -> 0 <= k < n -> locals !! k = Some w -> k = 0 \/ node_ref s w = true ->
  Frame_Load s fr k = Some w.
Proof.
  intros HR Hk Hl Hw. destruct (Frame_local _ _ _ _ _ _ HR Hk) as [E1 E2]. rewrite Hl in E2. simpl in E2.
  unfold Frame_Load. rewrite E1, E2. simpl. destruct (Z.eqb_spec k 0); [done |].
  destruct Hw as [? | Hw]; [done |]. by rewrite (WordToInt_node s w Hw).
Qed.

End FrameRep.

(** ** Refinement *)

Section Refine.
Context `{Platform} (wundef : word) (char_signed : bool) {G : Type}.
Context (handlerTable : gmap (list Z) (store -> word -> option (word * store))).
Context (height n : Z) (n_valid : n <= MAX_VALID_INT).
Implicit Types (m : machine) (u : unpickler G) (i : instr).
#[local] Arguments push_new : simpl never.
#[local] Arguments push_word : simpl never.

Record machine_rep m u : Prop := {
  mr_store : un_store u = a_store m;
  mr_frame : frame_rep height n (a_locals m) (a_stack m) (un_frame u)
}.

Definition addr_ok i : Prop := match instr_local i with Some k => 0 <= k < n | None => True end.

Lemma m_announce_unfold m l mu size k m' : m_announce wundef m l mu size k = Some m' ->
  l <> TRANSFORM_LABEL /\ 0 <= size <= hw_MAX_BLOCKSIZE HW /\ a_locals m !! k = None /\
  exists s b, st_alloc (a_store m) (NBlock l (block_mutable l mu) (replicate (Z.to_nat size) wundef)) = (s, b) /\
    m' = with_stack (set_local m k (WPtr b)) s (WPtr b :: a_stack m).
Proof.
  unfold m_announce, size_fits. destruct (Z.eqb_spec l TRANSFORM_LABEL); [done |].
  destruct (Z.leb_spec 0 size), (Z.leb_spec size (hw_MAX_BLOCKSIZE HW)); simpl; try done.
  destruct (bool_decide _) eqn:E; [| done]. apply bool_decide_eq_true in E.
  intros [= <-]. split_and!; try done. eexists _, _. split; reflexivity.
Qed.

Lemma m_block_unfold m l mu size m' : m_block m l mu size = Some m' ->
  l <> TRANSFORM_LABEL /\ 0 <= size <= hw_MAX_BLOCKSIZE HW /\ size <= zlen (a_stack m) /\
  exists s b, st_alloc (a_store m) (NBlock l (block_mutable l mu) (ztake size (a_stack m))) = (s, b) /\
    m' = with_stack m s (WPtr b :: zdrop size (a_stack m)).
Proof.
  unfold m_block, size_fits. destruct (Z.eqb_spec l TRANSFORM_LABEL); [done |].
  destruct (Z.leb_spec 0 size), (Z.leb_spec size (hw_MAX_BLOCKSIZE HW)), (Z.leb_spec size (zlen (a_stack m))); simpl; try done.
  intros [= <-]. split_and!; try done. by eexists _, _.
Qed.

Lemma alloc_block_ok s l mu size : 0 <= size <= hw_MAX_BLOCKSIZE HW ->
  alloc_block wundef s l mu size = Some (st_alloc s (NBlock l mu (replicate (Z.to_nat size) wundef))).
Proof.
  intros Hs. unfold alloc_block. rewrite MAX_BLOCKSIZE_eq in Hs. rewrite MAX_BIGBLOCKSIZE_eq.
  destruct (Z.leb_spec size 16777200); [| lia]. rewrite TranslateSize_small by (rewrite MAX_BLOCKSIZE_eq; lia). done.
Qed.

Lemma fill_block_ok s b l mu args ws : st_get s b = Some (NBlock l mu args) -> zlen ws = zlen args ->
  fill_block s b ws = Some (st_set s b (NBlock l mu ws)).
Proof.
  intros E Hz. unfold fill_block. rewrite E. simpl. rewrite Hz, Z.leb_refl. rewrite zdrop_all by lia.
  by rewrite app_nil_r.
Qed.

(** Pushing the word with which an instruction ends. *)
Lemma push_refines m0 s ws w u :
  un_store u = s -> frame_rep height n (a_locals m0) ws (un_frame u) -> zlen (w :: ws) <= height ->
  exists u', push_new (w, false, u) = Some (E_next false u') /\ machine_rep (with_stack m0 s (w :: ws)) u'.
Proof.
  intros Es HR Hh. rewrite zlen_cons in Hh. unfold push_new.
  destruct (Frame_Push_ok _ _ _ _ _ w HR) as (fr' & -> & HR'); [lia |]. simpl.
  eexists. split; [reflexivity |]. by split.
Qed.

Lemma AllocBlock_refines m m' u l mu size :
  machine_rep m u -> m_block m l mu size = Some m' -> a_max m' <= height ->
  exists u', (r ← AllocBlock wundef handlerTable u l size mu; push_new r) = Some (E_next false u') /\ machine_rep m' u'.
Proof.
  intros [Es HR] E Hh. destruct (m_block_unfold _ _ _ _ _ E) as (Hl & Hs & Hz & s & b & Ea & ->). simpl in Hh.
  unfold AllocBlock. apply Z.eqb_neq in Hl. rewrite Hl, alloc_block_ok by done. rewrite Es.
  unfold st_alloc in Ea |- *. injection Ea as <- <-. cbn [mbind option_bind].
  destruct (Frame_PopN_ok _ _ _ _ _ size HR) as (fr1 & -> & HR1); [lia |]. simpl.
  erewrite fill_block_ok; [| unfold st_get; simpl; by rewrite lookup_insert_eq |].
  2: { rewrite zlen_ztake, zlen_replicate by lia. done. }
  simpl. unfold st_set; simpl. rewrite insert_insert_eq. apply push_refines; [done | done | lia].
Qed.

Lemma announce_refines m m' u l mu size k :
  machine_rep m u -> m_announce wundef m l mu size k = Some m' -> a_max m' <= height -> 0 <= k < n ->
  exists u', announce wundef u l size k mu = Some (E_next false u') /\ machine_rep m' u'.
Proof.
  intros [Es HR] E Hh Hk. destruct (m_announce_unfold _ _ _ _ _ _ E) as (Hl & Hs & Hn & s & b & Ea & ->). simpl in Hh.
  unfold announce, AnnounceBlock. apply Z.eqb_neq in Hl. rewrite Hl, alloc_block_ok by done. rewrite Es, Ea. simpl.
  unfold Frame_PushStore. destruct (Frame_Store_ok _ _ _ _ _ s k (WPtr b) HR Hk Hn) as (fr1 & -> & HR1). simpl.
  rewrite zlen_cons in Hh.
  destruct (Frame_Push_ok _ _ _ _ _ (WPtr b) HR1) as (fr2 & -> & HR2); [lia |]. simpl.
  eexists. split; [reflexivity |]. by split.
Qed.

Lemma WordToTransient_node s a : node_ref s (WPtr a) = true -> WordToTransient s (WPtr a) = Some None.
Proof.
  simpl. unfold WordToTransient, st_deref. intros Hn.
  destruct (st_get s a) as [[] |] eqn:E; try done; destruct (size _); simpl; rewrite E; simpl; by rewrite E.
Qed.

Theorem exec_refines m m' u i :
  machine_rep m u -> m_exec wundef m i = Some m' -> a_max m' <= height -> addr_ok i ->
  exists u', exec wundef char_signed handlerTable u i = Some (E_next false u') /\ machine_rep m' u'.
Proof.
  intros HM E Hh Ha. pose proof HM as [Es HR]. unfold addr_ok in Ha.
  assert (Hk : forall k, 0 <= k < n -> (MAX_VALID_INT <? k) = false) by (intros; apply Z.ltb_ge; lia).
  destruct i; cbn [m_exec exec instr_local] in *; try done;
    try (by eapply AllocBlock_refines); try (by eapply announce_refines).
  - rewrite Hk by done. destruct (a_stack m) as [| w stk] eqn:Est; [done |].
    destruct (a_locals m !! addr) eqn:El; [done |]. injection E as <-.
    rewrite (Frame_Top_ok _ _ _ _ _ _ HR). simpl.
    destruct (Frame_Store_ok _ _ _ _ _ (un_store u) addr w HR Ha El) as (fr1 & -> & HR1). simpl.
    eexists. split; [reflexivity |]. split; simpl; [done |]. by rewrite Est.
  - rewrite Hk by done. destruct (a_locals m !! addr) as [w |] eqn:El; simpl in E; [| done].
    destruct (node_ref (a_store m) w) eqn:Hn; [| done]. injection E as <-.
    rewrite (Frame_Load_ok _ _ _ _ _ (un_store u) addr w HR Ha El) by (rewrite Es; by right). simpl in *.
    by apply push_refines; [| | lia].
  - destruct (Z.leb_spec y MAX_VALID_INT); rewrite ?andb_false_r in E; [| done]. destruct (0 <=? y); [| done].
    injection E as <-. destruct (Z.ltb_spec MAX_VALID_INT y); [lia |]. simpl in *. by apply push_refines; [| | lia].
  - destruct (Z.leb_spec y MAX_VALID_INT); rewrite ?andb_false_r in E; [| done]. destruct (0 <=? y); [| done].
    injection E as <-. destruct (Z.ltb_spec MAX_VALID_INT y); [lia |]. simpl in *. by apply push_refines; [| | lia].
  - destruct (st_alloc (a_store m) (NChunk mutable bytes)) as [s a] eqn:Ea. injection E as <-. rewrite Es, Ea. simpl in *.
    apply (push_refines m s (a_stack m) (WPtr a) (with_store u s)); [done | done | lia].
  - rewrite Hk by done. unfold m_fulfill in E. destruct (a_locals m !! addr) as [w |] eqn:El; simpl in E; [| done].
    destruct w as [| b]; [done |]. destruct (st_get (a_store m) b) as [[l mu args | | |] |] eqn:Eb; try done.
    destruct (Z.leb_spec (zlen args) (zlen (a_stack m))); [| done]. injection E as <-. simpl in Hh.
    assert (Hn : node_ref (un_store u) (WPtr b) = true) by (simpl; by rewrite Es, Eb).
    rewrite (Frame_Load_ok _ _ _ _ _ (un_store u) addr (WPtr b) HR Ha El) by (by right). simpl.
    unfold MakeFulfilledBlock. rewrite (WordToTransient_node _ _ Hn). simpl. rewrite Es, Eb. simpl.
    pose proof (zlen_nonneg args).
    destruct (Frame_PopN_ok _ _ _ _ _ (zlen args) HR) as (fr1 & E1 & HR1); [lia |].
    unfold zlen at 1 in E1. rewrite Nat2Z.id in E1. rewrite E1. simpl.
    erewrite fill_block_ok; [| done | rewrite zlen_ztake; lia]. simpl.
    by apply (push_refines m (st_set (a_store m) b (NBlock l mu (ztake (zlen args) (a_stack m))))); [| | lia].
Qed.

Lemma run_refines c m m' u :
  machine_rep m u -> m_run wundef m c = Some m' -> zlen (a_stack m) <= a_max m -> a_max m' <= height ->
  Forall addr_ok c ->
  exists u', exec_all wundef char_signed handlerTable u c = Some u' /\ machine_rep m' u'.
Proof.
  revert m u. induction c as [| i c IH]; intros m u HM E Hz Hh Hc; simpl in E.
  { injection E as <-. by exists u. }
  inversion Hc; subst. destruct (m_exec wundef m i) as [m1 |] eqn:E1; simpl in E; [| done].
  destruct (m_exec_max _ _ _ _ E1 Hz). destruct (m_run_max _ _ _ _ E); [lia |].
  destruct (exec_refines m m1 u i) as (u1 & Eu & HM1); [done | done | lia | done |].
  cbn [exec_all]. rewrite Eu. simpl. by apply (IH m1).
Qed.

End Refine.
