(* ===== verification/PicklerSpec.v ===== *)
(** * What the pickler's operations do

    The stack of the traversal is a list of frames, the output buffer a list
    of instructions with a table of local variables; every round of
    [PickleWorker::Run] is described on these. *)

From S2P Require Import Prelude Config HeaderOp PointerOp Block Queue Stack OutputStream Pickle Pickler.

(** ** The stack of frames *)

Section PickleStackSpec.
Context `{Platform} (undef : word).
Implicit Types (s : Stack word) (f : word * bool) (fs : list (word * bool)).

(** The words of a frame, from the bottom to the top. *)
Definition frame_words f : list word := [WInt (if f.2 then 1 else 0); f.1].

(** Frames that can be on the stack, and the words its array may have. *)
Definition FRAMES_MAX : Z := 2 ^ 18.
Definition PS_ARRAY_MAX : Z := 2 ^ 20.

Record PS_rep s fs : Prop := {
  ps_ok : stack_ok s;
  ps_entries : entries s = rev fs ≫= frame_words;
  ps_array : zlen (b_args (s_array s)) <= PS_ARRAY_MAX
}.

Lemma frames_zlen fs : zlen (rev fs ≫= frame_words) = 2 * zlen fs.
Proof.
  induction fs as [| f fs IH]; [done |]. simpl. rewrite bind_app, zlen_app, IH, zlen_cons.
  change (zlen ([f] ≫= frame_words)) with 2. lia.
Qed.

Lemma entries_last s x p q : stack_ok s -> entries s = p ++ x :: q ->
  s_top s = zlen p + 1 + zlen q /\ aget (b_args (s_array s)) (zlen p) = Some x.
Proof.
  intros Hs E. pose proof (entries_zlen s Hs) as Ez. rewrite E, zlen_app, zlen_cons in Ez.
  pose proof (zlen_nonneg p). pose proof (zlen_nonneg q). split; [lia |].
  rewrite <- entries_aget by lia. rewrite E. by apply aget_mid.
Qed.

Lemma GetFrameArg_ok s p x q k : stack_ok s -> entries s = p ++ x :: q -> zlen q = k ->
  GetFrameArg s k = Some x.
Proof.
  intros Hs E <-. destruct (entries_last s x p q Hs E) as [Et Ea]. pose proof (stack_width s Hs).
  pose proof (zlen_nonneg p). pose proof (zlen_nonneg q).
  unfold GetFrameArg, GetTop, Stack_GetArray, GetArg. destruct (Z.ltb_spec (s_top s) (zlen q + 1)); [lia |].
  rewrite u_int_id32 by lia. by replace (s_top s - 1 - zlen q) with (zlen p) by lia.
Qed.

Lemma PutFrameArg_ok s p x q k v : stack_ok s -> entries s = p ++ x :: q -> zlen q = k ->
  exists s', PutFrameArg s k v = Some s' /\ stack_ok s' /\ entries s' = p ++ v :: q /\
    zlen (b_args (s_array s')) = zlen (b_args (s_array s)).
Proof.
  intros Hs E <-. destruct (entries_last s x p q Hs E) as [Et Ea]. pose proof (stack_width s Hs).
  pose proof (zlen_nonneg p). pose proof (zlen_nonneg q).
  unfold PutFrameArg, GetTop, Stack_GetArray. destruct (Z.ltb_spec (s_top s) (zlen q + 1)); [lia |].
  rewrite u_int_id32 by lia. replace (s_top s - 1 - zlen q) with (zlen p) by lia.
  destruct (write_spec s (zlen p) v Hs) as ([h args] & -> & Eh & Ez & Een); [lia |]. simpl in *.
  rewrite E, aset_mid in Een by done. injection Een as Een.
  eexists. split; [reflexivity |]. split; [| split; [by unfold entries |]; simpl; lia].
  unfold Stack_SetArray. rewrite Eh. apply stack_step; [done | done |]. lia.
Qed.

Lemma AllocArgFrame_ok s k : stack_ok s -> 0 <= k -> stack_room s (s_top s + k) ->
  exists s' new, AllocArgFrame undef s k = Some s' /\ stack_ok s' /\ entries s' = entries s ++ new /\ zlen new = k /\
    zlen (b_args (s_array s')) <= Z.max (zlen (b_args (s_array s))) ((s_top s + k) * 3 / 2 + 16).
Proof.
  intros Hs Hk Hroom. pose proof (stack_width s Hs). destruct (grown_room _ _ Hroom) as (Hg & Hg1 & _).
  destruct (Alloc_room undef s k (s_top s + k) Hs Hk Hroom) as (s' & E & Hs' & Et & Hz & Een); [lia |].
  assert (E' : AllocArgFrame undef s k = Some s').
  { unfold AllocArgFrame. rewrite <- E. unfold GetTop, Stack_GetArray. rewrite (u_int_id32 (s_top s + k)) by lia. done. }
  exists s', (zseg (b_args (s_array s')) (s_top s) k). split; [done |]. split; [done |]. split_and!.
  - unfold entries at 1. rewrite Et, <- Een. unfold zseg.
    rewrite <- (ztake_zdrop (s_top s) (ztake (s_top s + k) _)). rewrite ztake_ztake, zdrop_ztake by lia.
    f_equal; f_equal; lia.
  - rewrite zlen_zseg; lia.
  - unfold AllocArgFrame in E'. destruct (_ <=? _) in E'; [| injection E' as <-; simpl; lia].
    unfold Stack_Enlarge, block_move in E'. destruct (blit _ _ _ _ _) as [args |] eqn:Eb; simpl in E'; [| done].
    injection E' as <-. simpl. apply blit_zlen in Eb. rewrite Eb. unfold GetTop.
    rewrite u_int_id32, grown_eq by lia.
    assert (Hn : 0 <= (s_top s + k) * 3 / 2 <= hw_MAX_BIGBLOCKSIZE HW) by (rewrite MAX_BIGBLOCKSIZE_eq; Z.div_mod_to_equations; lia).
    change (zlen (b_args (AllocMutableBlock undef MIN_DATA_LABEL ((s_top s + k) * 3 / 2)))
            <= Z.max (zlen (b_args (s_array s))) ((s_top s + k) * 3 / 2 + 16)).
    rewrite AllocMutableBlock_zlen by (done || lia). pose proof (TranslateSize_bounds _ Hn). lia.
Qed.

Lemma PS_Push_ok s fs w : PS_rep s fs -> zlen fs < FRAMES_MAX ->
  exists s', PS_Push undef s w = Some s' /\ PS_rep s' ((w, false) :: fs).
Proof.
  intros [Hs E Ha] Hf. unfold FRAMES_MAX, PS_ARRAY_MAX in *. pose proof (entries_zlen s Hs) as Ez.
  rewrite E, frames_zlen in Ez. pose proof (zlen_nonneg fs).
  assert (Hroom : stack_room s (s_top s + 2)).
  { split; [lia |]. rewrite MAX_BIGBLOCKSIZE_eq. Z.div_mod_to_equations. lia. }
  destruct (AllocArgFrame_ok s 2 Hs ltac:(lia) Hroom) as (s1 & new & E1 & Hs1 & Een1 & Hz & Ha1).
  destruct (zlen_pos_cons new) as (x & new' & ->); [lia |]. rewrite zlen_cons in Hz.
  destruct (zlen_pos_cons new') as (y & new'' & ->); [lia |]. rewrite zlen_cons in Hz.
  assert (new'' = []) as -> by (apply zlen_0_nil; lia).
  unfold PS_Push. unfold FRAME_SIZE, DATA_POS, BACK_POS. rewrite E1. simpl.
  destruct (PutFrameArg_ok s1 (entries s ++ [x]) y [] 0 w Hs1) as (s2 & -> & Hs2 & Een2 & Hz2);
    [by rewrite Een1, <- app_assoc | done |]. simpl.
  destruct (PutFrameArg_ok s2 (entries s) x [w] 1 (WInt 0) Hs2) as (s3 & -> & Hs3 & Een3 & Hz3);
    [by rewrite Een2, <- app_assoc | done |].
  exists s3. split; [done |]. split; [done | |].
  - rewrite Een3, E. simpl. by rewrite bind_app.
  - rewrite Hz3, Hz2. unfold PS_ARRAY_MAX. Z.div_mod_to_equations. lia.
Qed.

Lemma PS_New_ok : PS_rep (PS_New undef) [].
Proof.
  assert (Hn : 0 <= PS_initialSize <= hw_MAX_BIGBLOCKSIZE HW) by (rewrite MAX_BIGBLOCKSIZE_eq; vm_compute; split; discriminate).
  assert (Ht : TranslateSize PS_initialSize = 256) by (rewrite TranslateSize_small; [done |]; rewrite MAX_BLOCKSIZE_eq; vm_compute; discriminate).
  assert (Hz : zlen (b_args (AllocMutableBlock undef MIN_DATA_LABEL PS_initialSize)) = 256)
    by (rewrite AllocMutableBlock_zlen by (done || lia); done).
  split.
  - unfold PS_New, Stack_New, stack_ok; cbn [s_array s_top]. rewrite Hz, MAX_BIGBLOCKSIZE_eq.
    split; [by apply AllocMutableBlock_wf | lia].
  - done.
  - unfold PS_New, Stack_New; cbn [s_array]. rewrite Hz. vm_compute. discriminate.
Qed.

Lemma PS_IsEmpty_ok s fs : PS_rep s fs -> PS_IsEmpty s = match fs with [] => true | _ => false end.
Proof.
  intros [Hs E _]. pose proof (entries_zlen s Hs) as Ez. rewrite E, frames_zlen in Ez.
  unfold PS_IsEmpty, Stack_IsEmpty, GetTop. rewrite <- Ez. destruct fs as [| f fs]; [done |].
  rewrite zlen_cons. pose proof (zlen_nonneg fs). apply Z.eqb_neq. lia.
Qed.

(** The entries with the top frame separate. *)
Lemma PS_top s f fs : PS_rep s (f :: fs) ->
  entries s = (rev fs ≫= frame_words) ++ [WInt (if f.2 then 1 else 0); f.1].
Proof. intros [_ E _]. rewrite E. simpl. by rewrite bind_app. Qed.

Lemma PS_GetData_ok s f fs : PS_rep s (f :: fs) -> PS_GetData s = Some f.1.
Proof.
  intros HR. pose proof (PS_top _ _ _ HR) as E. destruct HR as [Hs _ _].
  apply (GetFrameArg_ok s ((rev fs ≫= frame_words) ++ [WInt (if f.2 then 1 else 0)]) _ []); [done | | done].
  by rewrite E, <- app_assoc.
Qed.

Lemma PS_GetBack_ok s f fs : PS_rep s (f :: fs) -> PS_GetBack s = Some f.2.
Proof.
  intros HR. pose proof (PS_top _ _ _ HR) as E. destruct HR as [Hs _ _]. unfold PS_GetBack.
  rewrite (GetFrameArg_ok s (rev fs ≫= frame_words) (WInt (if f.2 then 1 else 0)) [f.1]) by done.
  simpl. by destruct f.2.
Qed.

Lemma PS_SetBack_ok s w b fs : PS_rep s ((w, b) :: fs) ->
  exists s', PS_SetBack s = Some s' /\ PS_rep s' ((w, true) :: fs).
Proof.
  intros HR. pose proof (PS_top _ _ _ HR) as E. destruct HR as [Hs _ Ha].
  destruct (PutFrameArg_ok s (rev fs ≫= frame_words) _ [w] BACK_POS (WInt 1) Hs E) as (s' & E' & Hs' & Een & Hz); [done |].
  exists s'. split; [done |]. split; [done | | lia]. rewrite Een. simpl. by rewrite bind_app.
Qed.

Lemma PS_PopTopFrame_ok s f fs : PS_rep s (f :: fs) ->
  exists s', PS_PopTopFrame s = Some s' /\ PS_rep s' fs.
Proof.
  intros HR. pose proof (PS_top _ _ _ HR) as E. destruct HR as [Hs _ Ha].
  pose proof (entries_zlen s Hs) as Ez. rewrite E, zlen_app, frames_zlen, zlen_cons in Ez.
  change (zlen [f.1]) with 1 in Ez. pose proof (zlen_nonneg fs). pose proof (stack_width s Hs).
  unfold PS_PopTopFrame, ClearArgFrameZero, FRAME_SIZE, GetTop. destruct (Z.ltb_spec (s_top s) 2); [lia |].
  rewrite u_int_id32 by lia. eexists. split; [reflexivity |].
  destruct s as [h tp [bh args]]; simpl in *. split; simpl.
  - apply (stack_step _ h (tp - 2) args Hs); simpl; [done | lia].
  - unfold entries in *; simpl in *. replace (ztake (tp - 2) args) with (ztake (tp - 2) (ztake tp args)).
    + rewrite E. apply ztake_pieces. rewrite frames_zlen. lia.
    + rewrite ztake_ztake. f_equal. lia.
  - done.
Qed.

Lemma push_all_ok s fs args : PS_rep s fs -> zlen fs + zlen args <= FRAMES_MAX ->
  exists s', push_all undef s args = Some s' /\ PS_rep s' (map (fun w => (w, false)) (rev args) ++ fs).
Proof.
  revert s fs. induction args as [| w args IH]; intros s fs HR Hm; [by exists s |].
  rewrite zlen_cons in Hm. pose proof (zlen_nonneg args). cbn [push_all].
  destruct (PS_Push_ok s fs w HR) as (s1 & -> & HR1); [lia |]. simpl.
  destruct (IH s1 _ HR1) as (s2 & E & HR2); [rewrite zlen_cons; lia |].
  exists s2. split; [done |]. rewrite map_app, <- app_assoc. exact HR2.
Qed.

End PickleStackSpec.

(** ** The state of the pickler *)

Section PicklerSpec.
Context `{Platform} (undef : Z) (wundef : word) {F : Type}.
Implicit Types (pa : PickleArgs (F := F)) (bs : list Z) (locs : list (Z * Z)) (fs : list (word * bool)) (sn : Seen).

(** Bytes written, table of locals, frames, sharing table, simulated heights. *)
Record pstate := mkP {
  q_bytes : list Z; q_locs : list (Z * Z); q_frames : list (word * bool);
  q_seen : Seen; q_cur : Z; q_max : Z
}.

Record PA_rep (stream : OutputStream F) (root : word) pa (q : pstate) : Prop := {
  pr_buffer : OB_rep (pa_buffer pa) (q_bytes q) (q_locs q);
  pr_stack : PS_rep (pa_stack pa) (q_frames q);
  pr_seen : pa_seen pa = q_seen q;
  pr_cur : pa_cur pa = q_cur q;
  pr_max : pa_max pa = q_max q;
  pr_transient : pa_transient pa = false;
  pr_stream : pa_stream pa = stream;
  pr_root : pa_root pa = root
}.

Context (stream : OutputStream F) (root : word).
Abbreviation rep := (PA_rep stream root).

Lemma PickleArgs_New_ok : exists pa, PickleArgs_New undef wundef stream root = Some pa /\
  rep pa (mkP [] [] [(root, false)] ∅ 0 0).
Proof.
  unfold PickleArgs_New. destruct (OB_New_ok undef) as (o & -> & HR). simpl.
  destruct (PS_Push_ok wundef _ _ root (PS_New_ok wundef)) as (ps & -> & HP); [done |]. simpl.
  eexists. split; [reflexivity |]. by split.
Qed.

Lemma out_byte_ok pa bs locs fs sn c m b :
  rep pa (mkP bs locs fs sn c m) -> zlen bs < STREAM_MAX ->
  exists pa', out_byte undef pa b = Some pa' /\ rep pa' (mkP (bs ++ [b]) locs fs sn c m).
Proof.
  intros [HB HS ? ? ? ? ? ?] Hm. simpl in *. unfold out_byte.
  destruct (OB_PutByte_ok undef _ _ _ b HB Hm) as (o & -> & HB'). simpl.
  eexists. split; [reflexivity |]. by split.
Qed.

Lemma out_uint_ok pa bs locs fs sn c m i :
  rep pa (mkP bs locs fs sn c m) -> u31 i -> zlen bs < STREAM_MAX ->
  exists pa', out_uint undef pa i = Some pa' /\ rep pa' (mkP (bs ++ uint_enc i) locs fs sn c m).
Proof.
  intros [HB HS ? ? ? ? ? ?] Hi Hm. simpl in *. unfold out_uint.
  destruct (OB_PutUInt_ok undef _ _ _ i HB Hi Hm) as (o & -> & HB' & _). simpl.
  eexists. split; [reflexivity |]. by split.
Qed.

Lemma out_chunk_ok pa bs locs fs sn c m d :
  rep pa (mkP bs locs fs sn c m) -> zlen bs + zlen d <= STREAM_MAX ->
  exists pa', out_chunk undef pa (chunk_of d) = Some pa' /\ rep pa' (mkP (bs ++ d) locs fs sn c m).
Proof.
  intros [HB HS ? ? ? ? ? ?] Hm. simpl in *. unfold out_chunk.
  destruct (OB_PutBytes_ok undef _ _ _ (chunk_of d) HB) as (o & -> & HB');
    [simpl; pose proof (zlen_nonneg d); lia | simpl; lia |]. simpl in *. rewrite ztake_all in HB' by lia.
  eexists. split; [reflexivity |]. by split.
Qed.

Lemma out_local_ok pa bs locs fs sn c m ref :
  rep pa (mkP bs locs fs sn c m) -> zlen locs < LOCALS_MAX -> zlen bs < STREAM_MAX ->
  exists pa', out_local undef pa ref = Some (pa', zlen locs + 1) /\
    rep pa' (mkP (bs ++ uint_enc (zlen locs + 1)) (locs ++ [(ref, zlen locs + 1)]) fs sn c m).
Proof.
  intros [HB HS ? ? ? ? ? ?] Hl Hm. simpl in *. unfold out_local.
  destruct (PutLocal_ok undef _ _ _ ref HB Hl Hm) as (o & -> & HB'). simpl.
  eexists. split; [reflexivity |]. by split.
Qed.

Lemma SimulatePush_ok pa bs locs fs sn c m :
  rep pa (mkP bs locs fs sn c m) -> 0 <= c < 2 ^ 31 ->
  rep (SimulatePush pa) (mkP bs locs fs sn (c + 1) (Z.max m (c + 1))).
Proof.
  intros [HB HS ? Hc Hmx ? ? ?] Hm. simpl in *. unfold SimulatePush. rewrite Hc, Hmx, u_int_id32 by lia.
  split; simpl; try done. destruct (Z.ltb_spec m (c + 1)); lia.
Qed.

Lemma SimulatePop_ok pa bs locs fs sn c m k :
  rep pa (mkP bs locs fs sn c m) -> 0 < c < 2 ^ 31 -> 0 <= k <= c ->
  exists pa', SimulatePop pa k = Some pa' /\ rep pa' (mkP bs locs fs sn (c - k) m).
Proof.
  intros [HB HS ? Hc Hmx ? ? ?] Hm Hk. simpl in *. unfold SimulatePop. rewrite Hc.
  destruct (Z.ltb_spec 0 c); [| lia]. rewrite u_int_id32 by lia. eexists. split; [reflexivity |]. by split.
Qed.

Lemma PopTopFrame_ok pa bs locs f fs sn c m :
  rep pa (mkP bs locs (f :: fs) sn c m) ->
  exists pa', PopTopFrame pa = Some pa' /\ rep pa' (mkP bs locs fs sn c m).
Proof.
  intros [HB HS ? ? ? ? ? ?]. simpl in *. unfold PopTopFrame.
  destruct (PS_PopTopFrame_ok _ _ _ HS) as (s & -> & HS'). simpl.
  eexists. split; [reflexivity |]. by split.
Qed.

Lemma with_seen_ok pa bs locs fs sn c m sn' :
  rep pa (mkP bs locs fs sn c m) -> rep (with_seen pa sn') (mkP bs locs fs sn' c m).
Proof. intros [HB HS ? ? ? ? ? ?]. by split. Qed.

Lemma SetIndexHere_ok pa bs locs fs sn c m v ix vn :
  rep pa (mkP bs locs fs sn c m) -> sn !! v = Some (ix, vn) ->
  exists pa', SetIndexHere pa v = Some pa' /\ rep pa' (mkP bs locs fs (<[v := (zlen bs, vn)]> sn) c m).
Proof.
  intros HR Hv. pose proof HR as [HB HS Hs ? ? ? ? ?]. simpl in *. unfold SetIndexHere, Seen_SetIndex, OB_GetPos.
  rewrite Hs, Hv, (obr_pos _ _ _ HB). simpl. eexists. split; [reflexivity |]. by eapply with_seen_ok.
Qed.

End PicklerSpec.

(** ** The rounds *)

(** The instructions that close and announce a block, and that push an integer. *)
Definition close_instr (l : Z) (mu : bool) (size : Z) : instr :=
  if l =? CLOSURE_LABEL then I_CLOSURE size else if l =? TUPLE_LABEL then I_TUPLE size else I_BLOCK mu l size.

Definition announce_instr (l : Z) (mu : bool) (size k : Z) : instr :=
  if l =? CLOSURE_LABEL then I_aCLOSURE size k else if l =? TUPLE_LABEL then I_aTUPLE size k
  else I_aBLOCK mu l size k.

Definition int_instr (i : Z) : instr := if 0 <=? i then I_POSINT i else I_NEGINT (- (i + 1)).

(** Labels of blocks that are neither sited nor treated specially. *)
Definition plain_label (l : Z) : Prop :=
  0 <= l < 2 ^ 31 /\ sited_label l = false /\ l <> UNIQUESTRING_LABEL /\ l <> CONCRETE_LABEL /\
  l <> TRANSFORM_LABEL /\ l <> CHUNK_LABEL.

(** Calling the next operation of a round. *)
Ltac room := rewrite ?zlen_app, ?zlen_cons; change (zlen (@nil Z)) with 0; unfold STREAM_MAX in *; lia.
Ltac call L :=
  let E := fresh "E" in let pa := fresh "pa" in let R := fresh "R" in
  edestruct L as (pa & E & R); [eassumption | try assumption; try (by eauto); try room .. | rewrite E; clear E; cbn [mbind option_bind]].
Ltac call_uint :=
  let E := fresh "E" in let q := fresh "pa" in let R := fresh "R" in
  match goal with |- context [out_uint _ ?p ?x] =>
    edestruct @out_uint_ok with (pa := p) (i := x) as (q & E & R);
      [eassumption | assumption | room | rewrite E; clear E; cbn [mbind option_bind]]
  end.
Ltac call_pop :=
  let E := fresh "E" in let q := fresh "pa" in let R := fresh "R" in
  match goal with |- context [SimulatePop ?p ?x] =>
    edestruct @SimulatePop_ok with (pa := p) (k := x) as (q & E & R);
      [eassumption | lia | lia | rewrite E; clear E; cbn [mbind option_bind]]
  end.
Ltac pushes :=
  match goal with R : PA_rep _ _ ?p _ |- context [SimulatePush ?p] => apply SimulatePush_ok in R; [| lia] end.
Ltac seens :=
  match goal with R : PA_rep _ _ ?p _ |- context [with_seen ?p ?x] => apply with_seen_ok with (sn' := x) in R end.
Ltac finish_round :=
  eexists; split; [reflexivity |]; rewrite <- ?app_assoc in *; eassumption.

Section Rounds.
Context `{Platform} (undef : Z) (wundef : word) {F : Type}.
Context (stream : OutputStream F) (root : word).
Implicit Types (pa : PickleArgs (F := F)).
Abbreviation rep := (PA_rep stream root).

Context (bs : list Z) (locs : list (Z * Z)) (fs : list (word * bool)) (sn : Seen) (c m : Z).
Hypothesis bytes_max : zlen bs + 64 <= STREAM_MAX.
Hypothesis locs_max : zlen locs + 1 < LOCALS_MAX.
Hypothesis height_max : 0 <= c < 2 ^ 30.

Lemma local_u31 : u31 (zlen locs + 1).
Proof. pose proof (zlen_nonneg locs). unfold u31, LOCALS_MAX in *. lia. Qed.

Ltac lens := repeat match goal with Hu : u31 ?x |- _ => lazymatch goal with
    | _ : zlen (uint_enc x) <= 5 |- _ => fail
    | _ => assert (zlen (uint_enc x) <= 5) by (apply uint_enc_zlen, Hu) end end.

Lemma Run_int_ok pa i f : rep pa (mkP bs locs (f :: fs) sn c m) -> MIN_VALID_INT <= i <= MAX_VALID_INT ->
  exists pa', Run_int undef pa i = Some pa' /\
    rep pa' (mkP (bs ++ enc (int_instr i)) locs fs sn (c + 1) (Z.max m (c + 1))).
Proof.
  change MIN_VALID_INT with (- 2 ^ 30). change MAX_VALID_INT with (2 ^ 30 - 1).
  intros HR Hi. unfold Run_int, int_instr. destruct (Z.leb_spec 0 i).
  - assert (u31 i) by (unfold u31; lia). call @out_byte_ok. call_uint.
    pushes. call @PopTopFrame_ok. finish_round.
  - assert (u31 (- (i + 1))) by (unfold u31; lia). call @out_byte_ok. call_uint.
    pushes. call @PopTopFrame_ok. finish_round.
Qed.

Lemma out_announce_ok pa f v ix l mu size : rep pa (mkP bs locs (f :: fs) sn c m) ->
  sn !! v = Some (ix, 0) -> plain_label l -> u31 size ->
  exists pa', Run_announce undef pa v l mu size = Some pa' /\
    rep pa' (mkP (bs ++ enc (announce_instr l mu size (zlen locs + 1))) (locs ++ [(0, zlen locs + 1)]) (f :: fs)
               (<[v := (ix, zlen locs + 1)]> sn) (c + 1) (Z.max m (c + 1))).
Proof.
  intros HR Hv (Hl & _ & _ & Hc & _) Hs. pose proof local_u31. unfold Run_announce, announce_instr.
  apply Z.eqb_neq in Hc. rewrite Hc. assert (u31 l) by done. lens.
  assert (Hend : forall pa1 b1 code, rep pa1 (mkP (bs ++ code) locs (f :: fs) sn c m) ->
    zlen (bs ++ code) < STREAM_MAX -> b1 = code ++ uint_enc (zlen locs + 1) ->
    exists pa', ('(pa, ann) ← out_local undef pa1 0; sn ← Seen_SetVarNo (pa_seen pa) v ann;
                 Some (SimulatePush (with_seen pa sn))) = Some pa' /\
      rep pa' (mkP (bs ++ b1) (locs ++ [(0, zlen locs + 1)]) (f :: fs)
                 (<[v := (ix, zlen locs + 1)]> sn) (c + 1) (Z.max m (c + 1)))).
  { intros pa1 b1 code R1 Hm ->. call @out_local_ok. unfold Seen_SetVarNo. rewrite (pr_seen _ _ _ _ R). simpl.
    rewrite Hv. simpl. eexists. split; [reflexivity |]. rewrite <- app_assoc in R.
    apply SimulatePush_ok; [by eapply with_seen_ok | lia]. }
  destruct (l =? CLOSURE_LABEL); [| destruct (l =? TUPLE_LABEL)].
  - call @out_byte_ok. call_uint. eapply Hend; [rewrite <- app_assoc in R0; exact R0 | room | by rewrite <- app_assoc].
  - call @out_byte_ok. call_uint. eapply Hend; [rewrite <- app_assoc in R0; exact R0 | room | by rewrite <- app_assoc].
  - call @out_byte_ok. call_uint. call_uint.
    eapply Hend; [rewrite <- !app_assoc in R1; exact R1 | room | destruct mu; by rewrite <- !app_assoc].
Qed.

(** A node that has been seen: loaded from its variable, ... *)
Lemma Run_seen_load pa f v ix vn l mu size : rep pa (mkP bs locs (f :: fs) sn c m) ->
  sn !! v = Some (ix, vn) -> 0 < vn -> u31 vn ->
  exists pa', Run_seen undef pa v ix l mu size = Some pa' /\
    rep pa' (mkP (bs ++ enc (I_LOAD vn)) locs fs sn (c + 1) (Z.max m (c + 1))).
Proof.
  intros HR Hv Hvn Hu. lens. unfold Run_seen, Seen_GetVarNo. rewrite (pr_seen _ _ _ _ HR). simpl.
  destruct (ix =? NOT_WRITTEN).
  - rewrite Hv. simpl. destruct (Z.ltb_spec 0 vn); [| lia].
    call @out_byte_ok. call_uint. pushes. call @PopTopFrame_ok. finish_round.
  - call @out_byte_ok. rewrite (pr_seen _ _ _ _ R). simpl. rewrite Hv. simpl. destruct (Z.ltb_spec 0 vn); [| lia].
    pushes. call_uint. call @PopTopFrame_ok. finish_round.
Qed.

(** ... announced, since its arguments are still being written, ... *)
Lemma Run_seen_announce pa f v l mu size : rep pa (mkP bs locs (f :: fs) sn c m) ->
  sn !! v = Some (NOT_WRITTEN, 0) -> plain_label l -> u31 size ->
  exists pa', Run_seen undef pa v NOT_WRITTEN l mu size = Some pa' /\
    rep pa' (mkP (bs ++ enc (announce_instr l mu size (zlen locs + 1))) (locs ++ [(0, zlen locs + 1)]) fs
               (<[v := (NOT_WRITTEN, zlen locs + 1)]> sn) (c + 1) (Z.max m (c + 1))).
Proof.
  intros HR Hv Hl Hs. unfold Run_seen, Seen_GetVarNo. rewrite (pr_seen _ _ _ _ HR). simpl. rewrite Hv. simpl.
  destruct (out_announce_ok pa f v _ l mu size HR Hv Hl Hs) as (pa1 & -> & R). simpl.
  call @PopTopFrame_ok. finish_round.
Qed.

(** ... or shared, through a new variable for where it was written. *)
Lemma Run_seen_share pa f v ix l mu size : rep pa (mkP bs locs (f :: fs) sn c m) ->
  sn !! v = Some (ix, 0) -> ix <> NOT_WRITTEN ->
  exists pa', Run_seen undef pa v ix l mu size = Some pa' /\
    rep pa' (mkP (bs ++ enc (I_LOAD (zlen locs + 1))) (locs ++ [(ix, zlen locs + 1)]) fs
               (<[v := (ix, zlen locs + 1)]> sn) (c + 1) (Z.max m (c + 1))).
Proof.
  intros HR Hv Hix. pose proof local_u31. lens. unfold Run_seen, Seen_GetVarNo.
  apply Z.eqb_neq in Hix. rewrite Hix. call @out_byte_ok. rewrite (pr_seen _ _ _ _ R). simpl. rewrite Hv. simpl.
  pushes. call @out_local_ok. unfold Seen_SetVarNo. rewrite (pr_seen _ _ _ _ R0). simpl. rewrite Hv. simpl.
  seens. call @PopTopFrame_ok. finish_round.
Qed.

Lemma Run_chunk_ok pa f v mu d : rep pa (mkP bs locs (f :: fs) sn c m) ->
  zlen bs + 64 + zlen d <= STREAM_MAX ->
  exists pa', Run_chunk undef pa v mu d = Some pa' /\
    rep pa' (mkP (bs ++ enc (I_CHUNK mu d)) locs fs (<[v := (zlen (bs ++ enc (I_CHUNK mu d)), 0)]> sn)
               (c + 1) (Z.max m (c + 1))).
Proof.
  intros HR Hm. pose proof (zlen_nonneg bs). pose proof (zlen_nonneg d).
  assert (u31 (zlen d)) by (unfold u31, STREAM_MAX in *; lia). lens. unfold Run_chunk.
  call @out_byte_ok. call_uint. 
  edestruct @out_chunk_ok with (d := d) as (pa2 & E & R1); [exact R0 | room | rewrite E; clear E; cbn [mbind option_bind]].
  cbv zeta. unfold OB_GetPos.
  rewrite (obr_pos _ _ _ (pr_buffer _ _ _ _ R1)), (pr_seen _ _ _ _ R1). simpl.
  simpl. seens. pushes. call @PopTopFrame_ok.
  eexists; split; [reflexivity |]. rewrite <- !app_assoc in R2. unfold Seen_Add in R2. exact R2.
Qed.

Lemma Run_block_ok pa w v args : rep pa (mkP bs locs ((w, false) :: fs) sn c m) ->
  1 + zlen fs + zlen args <= FRAMES_MAX ->
  exists pa', Run_block wundef pa v args = Some pa' /\
    rep pa' (mkP bs locs (map (fun w => (w, false)) (rev args) ++ (w, true) :: fs)
               (<[v := (NOT_WRITTEN, 0)]> sn) c m).
Proof.
  intros [HB HS Hs ? ? ? ? ?] Hf. simpl in *. unfold Run_block, open_node.
  destruct (PS_SetBack_ok _ _ _ _ HS) as (s1 & -> & HS1). simpl.
  destruct (push_all_ok wundef s1 _ args HS1) as (s2 & -> & HS2); [rewrite zlen_cons; lia |]. simpl.
  eexists. split; [reflexivity |]. split; simpl; try done. by rewrite Hs.
Qed.

Lemma Run_back_fulfill s pa f v ix vn l mu size : rep pa (mkP bs locs (f :: fs) sn c m) ->
  sn !! v = Some (ix, vn) -> vn <> 0 -> u31 vn -> 1 <= size <= c ->
  exists pa', Run_back undef s pa v l mu size = Some pa' /\
    rep pa' (mkP (bs ++ enc (I_FULFILL vn)) locs fs sn (c - (size - 1)) m).
Proof.
  intros HR Hv Hvn Hu Hs. lens. unfold Run_back, Seen_GetVarNo. rewrite (pr_seen _ _ _ _ HR). simpl. rewrite Hv. simpl.
  apply Z.eqb_neq in Hvn. rewrite Hvn. simpl. rewrite u_int_id32 by lia.
  call @out_byte_ok. call_uint. call_pop. call @PopTopFrame_ok. finish_round.
Qed.

Lemma Run_back_close s pa f v ix l mu size : rep pa (mkP bs locs (f :: fs) sn c m) ->
  sn !! v = Some (ix, 0) -> plain_label l -> 1 <= size <= c ->
  exists pa', Run_back undef s pa v l mu size = Some pa' /\
    rep pa' (mkP (bs ++ enc (close_instr l mu size)) locs fs
               (<[v := (zlen (bs ++ enc (close_instr l mu size)), 0)]> sn) (c - (size - 1)) m).
Proof.
  intros HR Hv (Hl & _ & Hu & Hc & _) Hs. unfold Run_back, Seen_GetVarNo, close_instr. rewrite (pr_seen _ _ _ _ HR). simpl.
  rewrite Hv. simpl. apply Z.eqb_neq in Hu. apply Z.eqb_neq in Hc. rewrite Hu, Hc, u_int_id32 by lia.
  assert (u31 l) by done. assert (u31 size) by (unfold u31; lia). lens.
  destruct (l =? CLOSURE_LABEL); [| destruct (l =? TUPLE_LABEL)].
  - call @out_byte_ok. call_uint. call_pop. call @SetIndexHere_ok.
    call @PopTopFrame_ok. finish_round.
  - call @out_byte_ok. call_uint. call_pop. call @SetIndexHere_ok.
    call @PopTopFrame_ok. finish_round.
  - call @out_byte_ok. call_uint. call_uint. call_pop. call @SetIndexHere_ok.
    call @PopTopFrame_ok. destruct mu; finish_round.
Qed.

End Rounds.
