(* ===== verification/PickleCode.v ===== *)
(** * The code of a pickle

    While the pickler runs it knows the instructions in the output buffer and
    a table of variables; the [STORE] instructions are filled in at the end.
    An item is an instruction with the variable stored behind it.  Choosing a
    variable for a value that was written earlier inserts a [STORE] into code
    that the machine has already run; [insert_store] shows that this only adds
    the variable. *)

From S2P Require Import Prelude Config HeaderOp PointerOp Block Queue Stack OutputStream InputStream.
From S2P Require Import Pickle Pickler Unpickler PickleRead PickleMachine PicklerSpec.

Abbreviation item := (instr * option Z)%type.

Definition weave1 (it : item) : list instr := it.1 :: match it.2 with Some k => [I_STORE k] | None => [] end.
Definition weave (items : list item) : list instr := items ≫= weave1.
Definition code (items : list item) : list instr := items.*1.

(** The positions of the [STORE]s in the buffer, in order, with their variables. *)
Fixpoint stores (p : Z) (items : list item) : list (Z * Z) :=
  match items with
  | [] => []
  | it :: items =>
      let p' := p + zlen (enc it.1) in
      match it.2 with Some k => [(p', k)] | None => [] end ++ stores p' items
  end.

Lemma weave_app a b : weave (a ++ b) = weave a ++ weave b.
Proof. apply bind_app. Qed.

Lemma code_app a b : code (a ++ b) = code a ++ code b.
Proof. apply fmap_app. Qed.

Lemma enc_code_item it items : enc_code (code (it :: items)) = enc it.1 ++ enc_code (code items).
Proof. done. Qed.

Lemma stores_app p a b : stores p (a ++ b) = stores p a ++ stores (p + zlen (enc_code (code a))) b.
Proof.
  revert p. induction a as [| it a IH]; intros p; cbn [stores app].
  - change (zlen (enc_code (code []))) with 0. by rewrite Z.add_0_r.
  - rewrite IH, enc_code_item, zlen_app, <- app_assoc. do 3 f_equal. lia.
Qed.

Lemma enc_code_snoc items ins o : enc_code (code (items ++ [(ins, o)])) = enc_code (code items) ++ enc ins.
Proof. rewrite code_app, enc_code_app, enc_code_item. cbn [fst]. by rewrite app_nil_r. Qed.

(** Positions only grow. *)
Lemma stores_pos p items q : q ∈ stores p items -> p < q.1 <= p + zlen (enc_code (code items)).
Proof.
  revert p. induction items as [| it items IH]; intros p Hq; cbn [stores] in *; [by apply not_elem_of_nil in Hq |].
  pose proof (enc_pos it.1). rewrite enc_code_item, zlen_app. pose proof (zlen_nonneg (enc_code (code items))).
  apply elem_of_app in Hq as [Hq | Hq].
  - destruct it.2; [apply list_elem_of_singleton in Hq as -> | by apply not_elem_of_nil in Hq]. simpl. lia.
  - apply IH in Hq. lia.
Qed.

(** Two decompositions of a list around an element. *)
Lemma app_cons_cases {A} (a b a' b' : list A) x x' : a ++ x :: b = a' ++ x' :: b' ->
  (a = a' /\ x = x' /\ b = b') \/ (exists l, a' = a ++ x :: l /\ b = l ++ x' :: b') \/
  (exists l, a = a' ++ x' :: l /\ b' = l ++ x :: b).
Proof.
  revert a'. induction a as [| y a IH]; intros [| y' a'] E; simpl in E; injection E as <- E.
  - by left.
  - right; left. by exists a'.
  - right; right. by exists a.
  - destruct (IH a' E) as [(-> & -> & ->) | [(l & -> & ->) | (l & -> & ->)]]; eauto 10.
Qed.

Section Code.
Context `{Platform} (wundef : word).
Implicit Types (m : machine) (items : list item).

Abbreviation run := (m_run wundef).

(** A run defines only the variables its code mentions. *)
Lemma m_exec_locals m i m' k : m_exec wundef m i = Some m' -> instr_local i <> Some k ->
  a_locals m !! k = None -> a_locals m' !! k = None.
Proof.
  intros E Hk Hn. pose proof (m_exec_set_local wundef m i m' k (WInt 0) E Hk) as E1.
  pose proof (m_exec_set_local wundef m i m' k (WInt 1) E Hk) as E2.
  destruct i; cbn [m_exec instr_local] in E, Hk; try done.
  all: try (by injection E as <-).
  all: try (unfold m_block in E; destruct (_ && _) in E; [by injection E as <- | done]).
  all: try (unfold m_announce in E; destruct (_ && _) in E; [injection E as <-; simpl; by rewrite lookup_insert_ne by congruence | done]).
  all: try (destruct (_ && _) in E; [by injection E as <- | done]).
  - destruct (a_stack m); [done |]. destruct (a_locals m !! addr); [done |]. injection E as <-. simpl.
    by rewrite lookup_insert_ne by congruence.
  - destruct (a_locals m !! addr) as [w |]; simpl in E; [| done]. destruct (node_ref _ _); [by injection E as <- | done].
  - unfold m_fulfill in E. destruct (a_locals m !! addr) as [[| b] |]; simpl in E; try done.
    destruct (st_get _ _) as [[] |]; try done. destruct (_ <=? _); [by injection E as <- | done].
Qed.

Lemma m_run_locals m c m' k : run m c = Some m' -> Forall (fun i => instr_local i <> Some k) c ->
  a_locals m !! k = None -> a_locals m' !! k = None.
Proof.
  revert m. induction c as [| i c IH]; intros m E Hc Hn; simpl in E; [by injection E as <- |].
  inversion Hc; subst. destruct (m_exec wundef m i) as [m1 |] eqn:E1; simpl in E; [| done].
  eapply IH; [done | done |]. by eapply m_exec_locals.
Qed.

(** Inserting a [STORE] of a new variable. *)
Lemma insert_store m0 c1 c2 m1 m w k :
  run m0 c1 = Some m1 -> head (a_stack m1) = Some w -> run m0 (c1 ++ c2) = Some m ->
  Forall (fun i => instr_local i <> Some k) (c1 ++ c2) -> a_locals m0 !! k = None ->
  run m0 (c1 ++ I_STORE k :: c2) = Some (set_local m k w).
Proof.
  intros E1 Hw E Hk Hn. apply Forall_app in Hk as [Hk1 Hk2]. rewrite m_run_app, E1 in E |- *. cbn [mbind option_bind] in *.
  cbn [m_run m_exec]. destruct (a_stack m1) as [| w' stk]; [done |]. injection Hw as ->.
  rewrite (m_run_locals m0 c1 m1 k E1 Hk1 Hn). cbn [mbind option_bind]. by apply m_run_set_local.
Qed.

(** ** The code invariant *)

Variable m0 : machine.
Hypothesis m0_locals : a_locals m0 = ∅.
Hypothesis m0_stack : a_stack m0 = [].
Hypothesis m0_max : a_max m0 = 0.

Definition local_in (n : Z) (i : instr) : Prop := forall k, instr_local i = Some k -> 1 <= k <= n.

Definition good_instr (i : instr) : Prop := instr_ok i /\ size_ok i.

Record code_inv items m (bs : list Z) (locs : list (Z * Z)) : Prop := {
  c_code : bs = enc_code (code items);
  c_run : run m0 (weave items) = Some m;
  c_local : Forall (local_in (zlen locs)) (weave items);
  c_good : Forall good_instr (weave items);
  c_refs : Forall (fun p => 0 <= p.1) locs;
  c_stores : filter (fun p => 0 < p.1) locs ≡ₚ stores 0 items
}.

Lemma code_inv_nil : code_inv [] m0 [] [].
Proof. by split. Qed.

Lemma code_inv_fresh items m bs locs k : code_inv items m bs locs -> zlen locs < k -> a_locals m !! k = None.
Proof.
  intros HC Hk. eapply m_run_locals; [apply (c_run _ _ _ _ HC) | | by rewrite m0_locals].
  eapply Forall_impl; [apply (c_local _ _ _ _ HC) |]. intros i Hi E. specialize (Hi k E). lia.
Qed.

Lemma code_inv_max items m bs locs : code_inv items m bs locs -> zlen (a_stack m) <= a_max m.
Proof.
  intros HC. apply (m_run_max _ _ _ _ (c_run _ _ _ _ HC)). rewrite m0_stack, m0_max. done.
Qed.

Lemma local_in_mono n n' i : local_in n i -> n <= n' -> local_in n' i.
Proof. intros Hi Hn k E. specialize (Hi k E). lia. Qed.

(** Appending an instruction, possibly with a variable for an announced node. *)
Lemma code_inv_append items m bs locs ins m' new :
  code_inv items m bs locs -> m_exec wundef m ins = Some m' -> good_instr ins ->
  Forall (fun p => p.1 = 0) new ->
  local_in (zlen (locs ++ new)) ins ->
  code_inv (items ++ [(ins, None)]) m' (bs ++ enc ins) (locs ++ new).
Proof.
  intros HC E Hg Hnew Hl. pose proof HC as [-> Hr Hloc Hok Href Hst].
  assert (Hw : weave [(ins, None)] = [ins]) by done.
  split.
  - by rewrite enc_code_snoc.
  - rewrite weave_app, m_run_app, Hr, Hw. simpl. by rewrite E.
  - rewrite weave_app, Hw. apply Forall_app. split; [| by apply Forall_singleton].
    eapply Forall_impl; [exact Hloc |]. intros i Hi. eapply local_in_mono; [done |]. rewrite zlen_app.
    pose proof (zlen_nonneg new). lia.
  - rewrite weave_app, Hw. apply Forall_app. split; [done | by apply Forall_singleton].
  - apply Forall_app. split; [done |]. eapply Forall_impl; [exact Hnew |]. simpl. lia.
  - rewrite stores_app, app_nil_r, filter_app.
    assert (En : filter (fun p => 0 < p.1) new = []).
    { clear -Hnew. induction Hnew as [| p new Hp _ IH]; [done |]. by rewrite filter_cons_False by lia. }
    by rewrite En, app_nil_r.
Qed.

(** Storing a value that was written at the end of an item. *)
Lemma code_inv_store i1 ins i2 m bs locs m1 w k :
  code_inv (i1 ++ (ins, None) :: i2) m bs locs ->
  run m0 (weave i1 ++ [ins]) = Some m1 -> head (a_stack m1) = Some w -> k = zlen locs + 1 -> u31 k ->
  let ix := zlen (enc_code (code (i1 ++ [(ins, None)]))) in
  code_inv (i1 ++ (ins, Some k) :: i2) (set_local m k w) bs (locs ++ [(ix, k)]).
Proof.
  intros HC E1 Hw -> Hu ix. pose proof HC as [-> Hr Hloc Hok Href Hst]. set (k := zlen locs + 1) in *.
  assert (Hix : 0 < ix).
  { unfold ix. rewrite enc_code_snoc, zlen_app. pose proof (zlen_nonneg (enc_code (code i1))). pose proof (enc_pos ins). lia. }
  assert (Hw1 : weave (i1 ++ (ins, None) :: i2) = (weave i1 ++ [ins]) ++ weave i2).
  { rewrite weave_app, <- app_assoc. done. }
  assert (Hw2 : weave (i1 ++ (ins, Some k) :: i2) = (weave i1 ++ [ins]) ++ I_STORE k :: weave i2).
  { rewrite weave_app, <- app_assoc. done. }
  assert (Hl : zlen (locs ++ [(ix, k)]) = k) by (rewrite zlen_app; done).
  split.
  - by rewrite !code_app.
  - rewrite Hw2. rewrite Hw1 in Hr. eapply insert_store; [done | done | done | | by rewrite m0_locals].
    rewrite Hw1 in Hloc. eapply Forall_impl; [exact Hloc |]. intros i Hi E. specialize (Hi k E). lia.
  - rewrite Hw2, Hl. rewrite Hw1 in Hloc. apply Forall_app in Hloc as [HA HB].
    assert (Hmono : forall c, Forall (local_in (zlen locs)) c -> Forall (local_in k) c).
    { intros c Hc. eapply Forall_impl; [exact Hc |]. intros i Hi. eapply local_in_mono; [done | lia]. }
    apply Forall_app. split; [by apply Hmono |]. apply Forall_cons. split; [| by apply Hmono].
    intros k' [= <-]. pose proof (zlen_nonneg locs). lia.
  - rewrite Hw2. rewrite Hw1 in Hok. apply Forall_app in Hok as [HA HB]. apply Forall_app. split; [done |].
    apply Forall_cons. split; [| done]. split; [done |]. unfold size_ok. cbn [enc slack_of].
    rewrite zlen_cons. pose proof (uint_enc_zlen k Hu). unfold ITEM_MAX. lia.
  - apply Forall_app. split; [done |]. apply Forall_singleton. simpl. lia.
  - rewrite filter_app, filter_cons_True, filter_nil by (simpl; lia). rewrite Hst, !stores_app. simpl.
    replace (0 + zlen (enc_code (code i1)) + zlen (enc ins)) with ix.
    2: { unfold ix. rewrite enc_code_snoc, zlen_app. lia. }
    rewrite <- app_assoc. apply Permutation_app_head. symmetry. apply Permutation_cons_append.
Qed.

End Code.
