(* ===== verification/PickleGraph.v ===== *)
(** * Copying a graph through a pickle

    The invariant that ties the traversal of the pickler to the machine that
    has run the code written so far: the machine's stack is the image of a
    stack of source words, and finishing the frames of the traversal on that
    stack yields the root; every node that has been written or announced has
    an address in the target store, and every node that is not open has been
    copied there. *)

From S2P Require Import Prelude Config HeaderOp PointerOp Block Queue Stack OutputStream InputStream.
From S2P Require Import Pickle Pickler Unpickler PickleRead PickleMachine PicklerSpec PickleCode.

(** ** Plain graphs *)

Definition plain_word (g : gmap Z node) (w : word) : Prop :=
  match w with
  | WInt i => MIN_VALID_INT <= i <= MAX_VALID_INT
  | WPtr a => is_Some (g !! a)
  end.

(** Chunks, and blocks of at least one word with a label that is not treated
    specially; closures are mutable and tuples are not. *)
Definition plain_node (g : gmap Z node) (n : node) : Prop :=
  match n with
  | NBlock l mu args =>
      plain_label l /\ 1 <= zlen args /\ Forall (plain_word g) args /\
      (l = CLOSURE_LABEL -> mu = true) /\ (l = TUPLE_LABEL -> mu = false)
  | NChunk _ _ => True
  | NRef _ | NTransient _ => False
  end.

(** ** Copies *)

Definition word_copy (phi : gmap Z Z) (w w' : word) : Prop :=
  match w with
  | WInt i => w' = WInt i
  | WPtr a => exists b, phi !! a = Some b /\ w' = WPtr b
  end.

Definition node_copy (phi : gmap Z Z) (n n' : node) : Prop :=
  match n with
  | NBlock l mu args => exists args', n' = NBlock l mu args' /\ Forall2 (word_copy phi) args args'
  | NChunk mu bs => n' = NChunk mu bs
  | NRef _ | NTransient _ => False
  end.

Lemma word_copy_mono phi phi' w w' : phi ⊆ phi' -> word_copy phi w w' -> word_copy phi' w w'.
Proof.
  intros Hs. destruct w as [| a]; [done |]. intros (b & E & ->). exists b. split; [| done].
  by eapply lookup_weaken.
Qed.

Lemma node_copy_mono phi phi' n n' : phi ⊆ phi' -> node_copy phi n n' -> node_copy phi' n n'.
Proof.
  intros Hs. destruct n; simpl; try done. intros (args' & -> & Ha). exists args'. split; [done |].
  eapply Forall2_impl; [done |]. intros ? ?. by apply word_copy_mono.
Qed.

(** ** The traversal's frames *)

Abbreviation frame := (word * bool)%type.

Definition open_of (f : frame) : option Z := match f with (WPtr v, true) => Some v | _ => None end.
Definition opens (fs : list frame) : list Z := omap open_of fs.

(** Finishing the frames: the arguments of an open node are on the stack. *)
Fixpoint finish (g : gmap Z node) (fs : list frame) (stk : list word) : option (list word) :=
  match fs with
  | [] => Some stk
  | (w, false) :: fs => finish g fs (w :: stk)
  | (WPtr v, true) :: fs =>
      match g !! v with
      | Some (NBlock _ _ args) =>
          if bool_decide (ztake (zlen args) stk = args) then finish g fs (WPtr v :: zdrop (zlen args) stk) else None
      | _ => None
      end
  | (WInt _, true) :: _ => None
  end.

Lemma finish_args g args fs stk :
  finish g (map (fun w => (w, false)) (rev args) ++ fs) stk = finish g fs (args ++ stk).
Proof.
  revert fs stk. induction args as [| w args IH] using rev_ind; intros fs stk; [done |].
  rewrite rev_app_distr. simpl. rewrite IH. rewrite <- app_assoc. by destruct w.
Qed.

Lemma opens_args args fs : opens (map (fun w => (w, false)) args ++ fs) = opens fs.
Proof. unfold opens. induction args as [| [|] args IH]; simpl; done. Qed.

(** ** The invariant *)

Section Invariant.
Context `{Platform} (wundef : word) (g : gmap Z node) (x0 : word) (m0 : machine).
Implicit Types (m : machine) (items : list item) (phi : gmap Z Z) (fs : list frame) (sn : gmap Z (Z * Z)) (s : store).

Abbreviation run := (m_run wundef).

(** A node was written at the end of an item, with its variable if it has one. *)
Definition written items phi (v ix vn : Z) : Prop :=
  exists i1 ins i2 m1 b,
    items = i1 ++ (ins, if vn =? 0 then None else Some vn) :: i2 /\
    ix = zlen (enc_code (code (i1 ++ [(ins, None)]))) /\
    run m0 (weave i1 ++ [ins]) = Some m1 /\ head (a_stack m1) = Some (WPtr b) /\ phi !! v = Some b.

(** The entry of a node in the sharing table. *)
Definition seen_ok items phi m fs (n v ix vn : Z) : Prop :=
  is_Some (g !! v) /\ 0 <= vn <= n /\
  (vn <> 0 -> exists b, phi !! v = Some b /\ a_locals m !! vn = Some (WPtr b)) /\
  if decide (ix = NOT_WRITTEN) then vn = 0 -> v ∈ opens fs /\ phi !! v = None
  else written items phi v ix vn.

(** A node with an address: allocated while it is open, copied afterwards. *)
Definition copied phi m fs sn (v b : Z) : Prop :=
  st_next (a_store m0) <= b < st_next (a_store m) /\ is_Some (sn !! v) /\
  exists n, g !! v = Some n /\
    if decide (v ∈ opens fs) then exists l mu args args', n = NBlock l mu args /\
      st_get (a_store m) b = Some (NBlock l mu args') /\ zlen args' = zlen args
    else exists n', node_copy phi n n' /\ st_get (a_store m) b = Some n'.

Record graph_inv items phi m (stk : list word) fs sn (n : Z) : Prop := {
  g_stack : Forall2 (word_copy phi) stk (a_stack m);
  g_finish : finish g fs stk = Some [x0];
  g_plain : Forall (fun f => plain_word g f.1) fs;
  g_nodup : NoDup (opens fs);
  g_opens : forall v, v ∈ opens fs -> exists vn, sn !! v = Some (NOT_WRITTEN, vn);
  g_seen : forall v ix vn, sn !! v = Some (ix, vn) -> seen_ok items phi m fs n v ix vn;
  g_uniq : forall v v' ix vn vn', sn !! v = Some (ix, vn) -> sn !! v' = Some (ix, vn') -> ix <> NOT_WRITTEN -> v = v';
  g_phi : forall v b, phi !! v = Some b -> copied phi m fs sn v b;
  g_inj : forall v v' b, phi !! v = Some b -> phi !! v' = Some b -> v = v';
  g_next : st_next (a_store m0) <= st_next (a_store m);
  g_old : forall a, a < st_next (a_store m0) -> st_get (a_store m) a = st_get (a_store m0) a
}.

Lemma graph_inv_init : a_stack m0 = [] -> plain_word g x0 -> graph_inv [] ∅ m0 [] [(x0, false)] ∅ 0.
Proof.
  intros Hs Hx. split; try done.
  - by rewrite Hs.
  - by destruct x0.
  - by apply Forall_singleton.
  - destruct x0; constructor.
  - intros v Hv. destruct x0; by apply not_elem_of_nil in Hv.
Qed.

Lemma written_append items items' phi phi' v ix vn : phi ⊆ phi' ->
  written items phi v ix vn -> written (items ++ items') phi' v ix vn.
Proof.
  intros Hs (i1 & ins & i2 & m1 & b & -> & Hix & Hr & Hh & Hp).
  exists i1, ins, (i2 ++ items'), m1, b. split; [by rewrite <- app_assoc |]. do 3 (split; [done |]).
  by eapply lookup_weaken.
Qed.

(** ** Pushing a word that has a copy *)

Lemma graph_inv_push items phi m stk f fs sn n items' w w' :
  graph_inv items phi m stk (f :: fs) sn n -> f = (w, false) -> word_copy phi w w' ->
  graph_inv (items ++ items') phi (m_push m w') (w :: stk) fs sn n.
Proof.
  intros [Hst Hf Hp Hnd Ho Hse Hu Hph Hi Hnx Hold] -> Hw.
  assert (Eo : opens ((w, false) :: fs) = opens fs) by (by destruct w).
  rewrite Eo in Hnd. split; try done; simpl.
  - by constructor.
  - by destruct w.
  - by apply Forall_cons in Hp as [_ ?].
  - intros v Hv. apply Ho. by rewrite Eo.
  - intros v ix vn Hv. destruct (Hse v ix vn Hv) as (H1 & H2 & H3 & H4). do 3 (split; [done |]).
    rewrite Eo in H4. destruct (decide _); [done |]. by eapply written_append.
  - intros v b Hv. destruct (Hph v b Hv) as (H1 & H2 & n' & H3 & H4). rewrite Eo in H4. split; [done |].
    split; [done |]. by exists n'.
Qed.

(** ** A step at one node *)

Record node_step items phi m fs sn (n : Z) items' phi' m' fs' sn' (n' u : Z) : Prop := {
  ns_phi : phi ⊆ phi';
  ns_locals : a_locals m ⊆ a_locals m';
  ns_n : n <= n';
  ns_next : st_next (a_store m) <= st_next (a_store m');
  ns_old : forall a, a < st_next (a_store m0) -> st_get (a_store m') a = st_get (a_store m) a;
  ns_opens : forall v, v <> u -> v ∈ opens fs' <-> v ∈ opens fs;
  ns_sn : forall v, v <> u -> sn' !! v = sn !! v;
  ns_phi_u : forall v, v <> u -> phi' !! v = phi !! v;
  ns_get : forall v b, v <> u -> phi !! v = Some b -> st_get (a_store m') b = st_get (a_store m) b;
  ns_written : forall v ix vn, v <> u -> sn !! v = Some (ix, vn) -> ix <> NOT_WRITTEN ->
    written items phi v ix vn -> written items' phi' v ix vn
}.

Lemma graph_inv_node items phi m stk fs sn n items' phi' m' stk' fs' sn' n' u :
  graph_inv items phi m stk fs sn n -> node_step items phi m fs sn n items' phi' m' fs' sn' n' u ->
  Forall2 (word_copy phi') stk' (a_stack m') -> finish g fs' stk' = Some [x0] ->
  Forall (fun f => plain_word g f.1) fs' -> NoDup (opens fs') ->
  (u ∈ opens fs' -> exists vn, sn' !! u = Some (NOT_WRITTEN, vn)) ->
  (forall ix vn, sn' !! u = Some (ix, vn) -> seen_ok items' phi' m' fs' n' u ix vn /\
     (ix <> NOT_WRITTEN -> forall v vn', v <> u -> sn !! v = Some (ix, vn') -> False)) ->
  (forall b, phi' !! u = Some b -> copied phi' m' fs' sn' u b /\ forall v, v <> u -> phi !! v <> Some b) ->
  graph_inv items' phi' m' stk' fs' sn' n'.
Proof.
  intros [Hst Hf Hp Hnd Ho Hse Hu Hph Hi Hnx Hold] [Sp Sl Sn Sx So Sop Ss Spu Sg Sw] Hst' Hf' Hp' Hnd' HuO HuS HuP.
  split; try done.
  - intros v Hv. destruct (decide (v = u)) as [-> |]; [by apply HuO |]. rewrite Ss by done. apply Ho. by apply Sop.
  - intros v ix vn Hv. destruct (decide (v = u)) as [-> | Hne]; [by apply HuS |]. rewrite Ss in Hv by done.
    destruct (Hse v ix vn Hv) as (H1 & H2 & H3 & H4). split; [done |]. split; [lia |]. split.
    + intros Hvn. destruct (H3 Hvn) as (b & E1 & E2). exists b. split; by eapply lookup_weaken.
    + destruct (decide _) as [-> | Hix]; [| by apply Sw].
      intros Hvn. destruct (H4 Hvn) as [H5 H6]. split; [by apply Sop | by rewrite Spu].
  - intros v v' ix vn vn' Hv Hv' Hix. destruct (decide (v = u)) as [-> | Hne], (decide (v' = u)) as [-> | Hne']; try done.
    + rewrite Ss in Hv' by done. destruct (HuS ix vn Hv) as [_ K]. by destruct (K Hix v' vn').
    + rewrite Ss in Hv by done. destruct (HuS ix vn' Hv') as [_ K]. by destruct (K Hix v vn).
    + rewrite Ss in Hv, Hv' by done. by eapply Hu.
  - intros v b Hv. destruct (decide (v = u)) as [-> | Hne]; [by apply HuP |]. rewrite Spu in Hv by done.
    destruct (Hph v b Hv) as (H1 & H2 & nd & H3 & H4). split; [lia |]. split; [by rewrite Ss |].
    exists nd. split; [done |]. rewrite (Sg v b Hne Hv).
    destruct (decide (v ∈ opens fs)) as [Hin | Hin], (decide (v ∈ opens fs')) as [Hin' | Hin']; try done.
    + by apply Sop in Hin.
    + by apply Sop in Hin'.
    + destruct H4 as (nd' & E1 & E2). exists nd'. split; [| done]. by eapply node_copy_mono.
  - intros v v' b Hv Hv'. destruct (decide (v = u)) as [-> | Hne], (decide (v' = u)) as [-> | Hne']; try done.
    + rewrite Spu in Hv' by done. destruct (HuP b Hv) as [_ K]. by destruct (K v' Hne').
    + rewrite Spu in Hv by done. destruct (HuP b Hv') as [_ K]. by destruct (K v Hne).
    + rewrite Spu in Hv, Hv' by done. by eapply Hi.
  - lia.
  - intros a Ha. rewrite So by done. by apply Hold.
Qed.

End Invariant.

(** ** The rounds on the invariant *)

Section Steps.
Context `{Platform} (wundef : word) (g : gmap Z node) (x0 : word) (m0 : machine).
Implicit Types (m : machine) (items : list item) (phi : gmap Z Z) (fs : list frame) (sn : gmap Z (Z * Z)) (s : store).

Abbreviation run := (m_run wundef).
Abbreviation graph_inv := (graph_inv wundef g x0 m0).
Abbreviation written := (written wundef m0).

Hypothesis g_plain_nodes : map_Forall (fun _ n => plain_node g n) g.

Lemma written_le items phi v ix vn : written items phi v ix vn -> ix <= zlen (enc_code (code items)).
Proof.
  intros (i1 & ins & i2 & m1 & b & -> & -> & _). rewrite !code_app, !enc_code_app, !zlen_app, !enc_code_item, !zlen_app.
  cbn [fst]. pose proof (zlen_nonneg (enc_code (code i2))). change (zlen (enc_code (code []))) with 0. lia.
Qed.

(** A node written by the last instruction. *)
Lemma written_last items phi m ins m' v b :
  run m0 (weave items) = Some m -> m_exec wundef m ins = Some m' -> head (a_stack m') = Some (WPtr b) ->
  phi !! v = Some b ->
  written (items ++ [(ins, None)]) phi v (zlen (enc_code (code (items ++ [(ins, None)])))) 0.
Proof.
  intros Hr He Hh Hp. exists items, ins, [], m', b. do 2 (split; [done |]).
  split; [| done]. rewrite m_run_app, Hr. simpl. by rewrite He.
Qed.

Lemma written_fresh items phi ins v ix vn :
  written items phi v ix vn -> ix < zlen (enc_code (code (items ++ [(ins, None)]))).
Proof.
  intros Hw. apply written_le in Hw. rewrite enc_code_snoc, zlen_app. pose proof (enc_pos ins). lia.
Qed.

Lemma finish_open fs v stk r : finish g ((WPtr v, true) :: fs) stk = Some r ->
  exists l mu args rest, g !! v = Some (NBlock l mu args) /\ stk = args ++ rest /\
    finish g fs (WPtr v :: rest) = Some r.
Proof.
  simpl. destruct (g !! v) as [[l mu args | | |] |]; try done. case_bool_decide as E; [| done].
  intros Hf. exists l, mu, args, (zdrop (zlen args) stk). split; [done |]. split; [| done].
  rewrite <- E at 1. symmetry. apply ztake_zdrop.
Qed.

(** Executing the instruction of a block. *)
Lemma exec_close m l mu args : plain_node g (NBlock l mu args) -> zlen args <= hw_MAX_BLOCKSIZE HW ->
  zlen args <= zlen (a_stack m) ->
  m_exec wundef m (close_instr l mu (zlen args)) =
    Some (with_stack m (st_alloc (a_store m) (NBlock l mu (ztake (zlen args) (a_stack m)))).1
            (WPtr (st_next (a_store m)) :: zdrop (zlen args) (a_stack m))).
Proof.
  intros ((_ & _ & _ & _ & Hl & _) & _ & _ & Hclos & Htup) Hz Hs. pose proof (zlen_nonneg args).
  assert (Hb : forall mu', block_mutable l mu' = mu -> m_block m l mu' (zlen args) =
    Some (with_stack m (st_alloc (a_store m) (NBlock l mu (ztake (zlen args) (a_stack m)))).1
            (WPtr (st_next (a_store m)) :: zdrop (zlen args) (a_stack m)))).
  { intros mu' Em. unfold m_block, size_fits. apply Z.eqb_neq in Hl. rewrite Hl, Em.
    rewrite (proj2 (Z.leb_le 0 _)), (proj2 (Z.leb_le (zlen args) (hw_MAX_BLOCKSIZE HW))), (proj2 (Z.leb_le _ _)) by lia.
    done. }
  unfold close_instr. destruct (Z.eqb_spec l CLOSURE_LABEL) as [-> | Hc]; [| destruct (Z.eqb_spec l TUPLE_LABEL) as [-> | Ht]].
  - apply Hb. by rewrite Hclos.
  - apply Hb. by rewrite Htup.
  - apply Hb. unfold block_mutable. apply Z.eqb_neq in Hc. by rewrite Hc.
Qed.

Lemma exec_announce m l mu args k : plain_node g (NBlock l mu args) -> zlen args <= hw_MAX_BLOCKSIZE HW ->
  a_locals m !! k = None ->
  m_exec wundef m (announce_instr l mu (zlen args) k) =
    Some (with_stack (set_local m k (WPtr (st_next (a_store m))))
            (st_alloc (a_store m) (NBlock l mu (replicate (Z.to_nat (zlen args)) wundef))).1
            (WPtr (st_next (a_store m)) :: a_stack m)).
Proof.
  intros ((_ & _ & _ & _ & Hl & _) & _ & _ & Hclos & Htup) Hz Hk. pose proof (zlen_nonneg args).
  assert (Hb : forall mu', block_mutable l mu' = mu -> m_announce wundef m l mu' (zlen args) k =
    Some (with_stack (set_local m k (WPtr (st_next (a_store m))))
            (st_alloc (a_store m) (NBlock l mu (replicate (Z.to_nat (zlen args)) wundef))).1
            (WPtr (st_next (a_store m)) :: a_stack m))).
  { intros mu' Em. unfold m_announce, size_fits. apply Z.eqb_neq in Hl. rewrite Hl, Em.
    rewrite (proj2 (Z.leb_le 0 _)), (proj2 (Z.leb_le (zlen args) _)) by lia.
    by rewrite bool_decide_eq_true_2. }
  unfold announce_instr. destruct (Z.eqb_spec l CLOSURE_LABEL) as [-> | Hc]; [| destruct (Z.eqb_spec l TUPLE_LABEL) as [-> | Ht]].
  - apply Hb. by rewrite Hclos.
  - apply Hb. by rewrite Htup.
  - apply Hb. unfold block_mutable. apply Z.eqb_neq in Hc. by rewrite Hc.
Qed.

(** *** A node gets an address *)

Lemma node_step_alloc items phi m stk fs sn n items' m' fs' sn' n' v nd :
  graph_inv items phi m stk fs sn n -> phi !! v = None ->
  a_store m' = (st_alloc (a_store m) nd).1 -> a_locals m ⊆ a_locals m' -> n <= n' ->
  (forall v', v' <> v -> v' ∈ opens fs' <-> v' ∈ opens fs) ->
  (forall v', v' <> v -> sn' !! v' = sn !! v') ->
  (exists l, items' = items ++ l) ->
  node_step wundef m0 items phi m fs sn n items' (<[v := st_next (a_store m)]> phi) m' fs' sn' n' v.
Proof.
  intros HG Hv Es Hl Hn Ho Hsn [l ->].
  assert (Hsub : phi ⊆ <[v := st_next (a_store m)]> phi) by (by apply insert_subseteq).
  pose proof (g_next _ _ _ _ _ _ _ _ _ _ _ HG).
  split; try done.
  - rewrite Es. simpl. lia.
  - intros a Ha. rewrite Es. unfold st_get; simpl. rewrite lookup_insert_ne by lia. done.
  - intros v' Hne. by rewrite lookup_insert_ne.
  - intros v' b Hne Hb. destruct (g_phi _ _ _ _ _ _ _ _ _ _ _ HG v' b Hb) as ((_ & Hlt) & _).
    rewrite Es. unfold st_get; simpl. by rewrite lookup_insert_ne by lia.
  - intros v' ix vn Hne _ _. by apply written_append.
Qed.

(** The address is new. *)
Lemma alloc_fresh items phi m stk fs sn n v : graph_inv items phi m stk fs sn n ->
  phi !! v <> Some (st_next (a_store m)).
Proof.
  intros HG E. destruct (g_phi _ _ _ _ _ _ _ _ _ _ _ HG v _ E) as ((_ & Hlt) & _). lia.
Qed.

Lemma alloc_get s nd : st_get (st_alloc s nd).1 (st_next s) = Some nd.
Proof. unfold st_get; simpl. apply lookup_insert_eq. Qed.

Lemma word_copies_mono phi phi' ws ws' : phi ⊆ phi' -> Forall2 (word_copy phi) ws ws' -> Forall2 (word_copy phi') ws ws'.
Proof. intros. eapply Forall2_impl; [done |]. intros ? ?. by apply word_copy_mono. Qed.

Lemma finish_open_block fs stk r v : finish g fs stk = Some r -> v ∈ opens fs ->
  exists l mu args, g !! v = Some (NBlock l mu args).
Proof.
  revert stk. induction fs as [| [w b] fs IH]; intros stk Hf Hv; [by apply not_elem_of_nil in Hv |].
  destruct b; [| by destruct w; eapply IH].
  destruct w as [| v']; [done |]. simpl in Hf.
  destruct (g !! v') as [[l mu args | | |] |] eqn:Eg; try done. case_bool_decide; [| done].
  change (v ∈ v' :: opens fs) in Hv. apply elem_of_cons in Hv as [-> | Hv]; [by exists l, mu, args | by eapply IH].
Qed.

(** *** Announcing an open node *)
Lemma step_announce items phi m stk v fs sn n l mu args :
  graph_inv items phi m stk ((WPtr v, false) :: fs) sn n -> 0 <= n ->
  sn !! v = Some (NOT_WRITTEN, 0) -> g !! v = Some (NBlock l mu args) -> zlen args <= hw_MAX_BLOCKSIZE HW ->
  a_locals m !! (n + 1) = None ->
  exists m' phi', m_exec wundef m (announce_instr l mu (zlen args) (n + 1)) = Some m' /\
    graph_inv (items ++ [(announce_instr l mu (zlen args) (n + 1), None)]) phi' m' (WPtr v :: stk) fs
      (<[v := (NOT_WRITTEN, n + 1)]> sn) (n + 1) /\
    a_max m' = Z.max (a_max m) (zlen (a_stack m')).
Proof.
  intros HG Hn Hsn Hg Hz Hk. pose proof (g_plain_nodes v _ Hg) as Hpl.
  destruct (g_seen _ _ _ _ _ _ _ _ _ _ _ HG v _ _ Hsn) as (_ & _ & _ & Hop). rewrite decide_True in Hop by done.
  destruct (Hop eq_refl) as [Hopen Hphi]. simpl in Hopen.
  eexists _, (<[v := st_next (a_store m)]> phi). split; [by apply exec_announce |]. split; [| done].
  assert (Hsub : phi ⊆ <[v := st_next (a_store m)]> phi) by (by apply insert_subseteq).
  eapply (graph_inv_node _ _ _ _ _ _ _ _ _ _ _ _ _ _ _ _ _ _ v HG).
  - eapply node_step_alloc; try done; try lia.
    + simpl. by apply insert_subseteq.
    + intros v' Hne. by rewrite lookup_insert_ne.
    + by eexists.
  - simpl. constructor.
    + exists (st_next (a_store m)). by rewrite lookup_insert_eq.
    + by apply (word_copies_mono phi), HG.
  - apply HG.
  - pose proof (g_plain _ _ _ _ _ _ _ _ _ _ _ HG) as Hp. by apply Forall_cons in Hp as [_ ?].
  - apply (g_nodup _ _ _ _ _ _ _ _ _ _ _ HG).
  - intros _. exists (n + 1). by rewrite lookup_insert_eq.
  - intros ix vn. rewrite lookup_insert_eq. intros [= <- <-]. split; [| done].
    split; [done |]. split; [lia |]. split.
    + intros _. exists (st_next (a_store m)). simpl. by rewrite !lookup_insert_eq.
    + rewrite decide_True by done. lia.
  - intros b. rewrite lookup_insert_eq. intros [= <-]. split.
    + pose proof (g_next _ _ _ _ _ _ _ _ _ _ _ HG). split; [simpl; lia |]. split; [by rewrite lookup_insert_eq |].
      exists (NBlock l mu args). split; [done |]. rewrite decide_True by done.
      exists l, mu, args, (replicate (Z.to_nat (zlen args)) wundef). split; [done |]. split; [apply alloc_get |].
      pose proof (zlen_nonneg args). by rewrite zlen_replicate by lia.
    + intros v' _. by eapply alloc_fresh.
Qed.

(** *** A variable for a node that was written *)
Lemma step_share items phi m stk fs sn bs locs v ix :
  graph_inv items phi m stk fs sn (zlen locs) -> code_inv wundef m0 items m bs locs ->
  a_locals m0 = ∅ -> u31 (zlen locs + 1) ->
  sn !! v = Some (ix, 0) -> ix <> NOT_WRITTEN ->
  exists items' b, phi !! v = Some b /\
    let m' := set_local m (zlen locs + 1) (WPtr b) in
    code_inv wundef m0 items' m' bs (locs ++ [(ix, zlen locs + 1)]) /\
    graph_inv items' phi m' stk fs (<[v := (ix, zlen locs + 1)]> sn) (zlen locs + 1).
Proof.
  intros HG HC H0 Hu Hsn Hix. set (k := zlen locs + 1) in *.
  destruct (g_seen _ _ _ _ _ _ _ _ _ _ _ HG v _ _ Hsn) as (Hgv & _ & _ & Hw). rewrite decide_False in Hw by done.
  destruct Hw as (i1 & ins & i2 & m1 & b & Ei & Eix & Hr & Hh & Hp). simpl in Ei. subst items.
  assert (Hk : a_locals m !! k = None) by (eapply code_inv_fresh; [done | exact HC | unfold k; lia]).
  exists (i1 ++ (ins, Some k) :: i2), b. split; [done |]. split.
  { rewrite Eix. by apply (code_inv_store wundef m0 H0 i1 ins i2 m bs locs m1). }
  eapply (graph_inv_node _ _ _ _ _ _ _ _ _ _ _ _ _ _ _ _ _ _ v HG); try by apply HG.
  - split; try done; simpl.
    + by apply insert_subseteq.
    + lia.
    + intros v' Hne. by rewrite lookup_insert_ne.
    + intros v' ix' vn' Hne Hsn' Hix' (j1 & ins' & j2 & m1' & b' & Ei & Eix' & Hr' & Hh' & Hp').
      destruct (app_cons_cases _ _ _ _ _ _ Ei) as [(<- & [= <- _] & <-) | [(l & -> & ->) | (l & -> & ->)]].
      * exfalso. apply Hne. eapply (g_uniq _ _ _ _ _ _ _ _ _ _ _ HG v' v ix'); [done | | done]. by rewrite Eix', <- Eix.
      * exists (i1 ++ (ins, Some k) :: l), ins', j2, (set_local m1' k (WPtr b)), b'.
        split; [by rewrite <- app_assoc |]. split; [by rewrite Eix', !code_app, <- !app_assoc |]. split; [| done].
        assert (Ew : forall o c, weave (i1 ++ (ins, o) :: l) ++ c = (weave i1 ++ [ins]) ++ match o with Some k => [I_STORE k] | None => [] end ++ weave l ++ c)
          by (intros; rewrite weave_app, <- !app_assoc; simpl; by rewrite <- !app_assoc).
        rewrite Ew in Hr' |- *. simpl in Hr' |- *.
        eapply insert_store; [exact Hr | exact Hh | exact Hr' | | by rewrite H0].
        pose proof (c_local _ _ _ _ _ _ HC) as Hl.
        assert (El : weave (i1 ++ (ins, None) :: l ++ (ins', if vn' =? 0 then None else Some vn') :: j2) =
                     ((weave i1 ++ [ins]) ++ weave l ++ [ins']) ++
                     match (if vn' =? 0 then None else Some vn') with Some k => [I_STORE k] | None => [] end ++ weave j2).
        { rewrite weave_app, <- !app_assoc. f_equal. exact (f_equal (cons ins) (weave_app l (_ :: j2))). }
        rewrite El in Hl. apply Forall_app in Hl as [Hl _].
        eapply Forall_impl; [exact Hl |]. intros i Hi E. specialize (Hi k E). unfold k in Hi. lia.
      * exists j1, ins', (l ++ (ins, Some k) :: i2), m1', b'. split; [by rewrite <- app_assoc |]. done.
  - intros Hin. destruct (g_opens _ _ _ _ _ _ _ _ _ _ _ HG v Hin) as [vn E]. congruence.
  - intros ix' vn. rewrite lookup_insert_eq. intros [= <- <-]. split.
    + split; [done |]. pose proof (zlen_nonneg locs). split; [unfold k; lia |]. split.
      * intros _. exists b. split; [done |]. apply lookup_insert_eq.
      * rewrite decide_False by done. exists i1, ins, i2, m1, b.
        assert (Ek : (k =? 0) = false) by (apply Z.eqb_neq; unfold k; lia). by rewrite Ek.
    + intros _ v' vn' Hne Hv'. apply Hne. eapply (g_uniq _ _ _ _ _ _ _ _ _ _ _ HG v' v ix); done.
  - intros b' Hb'. rewrite Hp in Hb'. injection Hb' as <-. split.
    + destruct (g_phi _ _ _ _ _ _ _ _ _ _ _ HG v b Hp) as (H1 & _ & H3). split; [done |].
      split; [by rewrite lookup_insert_eq | done].
    + intros v' Hne Hv'. apply Hne. by eapply (g_inj _ _ _ _ _ _ _ _ _ _ _ HG).
Qed.

(** *** A node is written at the end of the code *)

(** What the table says about a node that the last instruction allocated. *)
Lemma seen_ok_last items phi m fs n ins m' v :
  run m0 (weave items) = Some m -> m_exec wundef m ins = Some m' -> 0 <= n -> is_Some (g !! v) ->
  head (a_stack m') = Some (WPtr (st_next (a_store m))) ->
  seen_ok wundef g m0 (items ++ [(ins, None)]) (<[v := st_next (a_store m)]> phi) m' fs n v
    (zlen (enc_code (code (items ++ [(ins, None)])))) 0.
Proof.
  intros Hr He Hn Hg Hh. split; [done |]. split; [lia |]. split; [done |].
  rewrite decide_False.
  - eapply written_last; [done | done | done |]. by rewrite lookup_insert_eq.
  - pose proof (zlen_nonneg (enc_code (code (items ++ [(ins, None)])))). unfold NOT_WRITTEN. lia.
Qed.

Lemma step_chunk items phi m stk v fs sn n mu d :
  graph_inv items phi m stk ((WPtr v, false) :: fs) sn n -> 0 <= n -> run m0 (weave items) = Some m ->
  sn !! v = None -> g !! v = Some (NChunk mu d) ->
  let items' := items ++ [(I_CHUNK mu d, None)] in
  exists m' phi', m_exec wundef m (I_CHUNK mu d) = Some m' /\
    graph_inv items' phi' m' (WPtr v :: stk) fs (<[v := (zlen (enc_code (code items')), 0)]> sn) n /\
    a_max m' = Z.max (a_max m) (zlen (a_stack m')).
Proof.
  intros HG Hn Hr Hsn Hg items'.
  assert (Hphi : phi !! v = None).
  { destruct (phi !! v) as [b |] eqn:E; [| done].
    destruct (g_phi _ _ _ _ _ _ _ _ _ _ _ HG v b E) as (_ & [x Hx] & _). congruence. }
  assert (Hclosed : v ∉ opens fs).
  { intros Hin. destruct (g_opens _ _ _ _ _ _ _ _ _ _ _ HG v Hin) as [vn E]. congruence. }
  eexists _, (<[v := st_next (a_store m)]> phi). split; [reflexivity |]. split; [| done].
  assert (Hsub : phi ⊆ <[v := st_next (a_store m)]> phi) by (by apply insert_subseteq).
  eapply (graph_inv_node _ _ _ _ _ _ _ _ _ _ _ _ _ _ _ _ _ _ v HG).
  - eapply node_step_alloc; try done.
    + intros v' Hne. by rewrite lookup_insert_ne.
    + by eexists.
  - simpl. constructor.
    + exists (st_next (a_store m)). by rewrite lookup_insert_eq.
    + by apply (word_copies_mono phi), HG.
  - apply HG.
  - pose proof (g_plain _ _ _ _ _ _ _ _ _ _ _ HG) as Hp. by apply Forall_cons in Hp as [_ ?].
  - apply (g_nodup _ _ _ _ _ _ _ _ _ _ _ HG).
  - done.
  - intros ix vn. rewrite lookup_insert_eq. intros [= <- <-]. split.
    + by eapply seen_ok_last.
    + intros Hix v' vn' Hne Hv'. destruct (g_seen _ _ _ _ _ _ _ _ _ _ _ HG v' _ _ Hv') as (_ & _ & _ & Hw).
      rewrite decide_False in Hw by done. apply (written_fresh _ _ (I_CHUNK mu d)) in Hw. unfold items' in Hw. lia.
  - intros b. rewrite lookup_insert_eq. intros [= <-]. split.
    + pose proof (g_next _ _ _ _ _ _ _ _ _ _ _ HG). split; [simpl; lia |]. split; [by rewrite lookup_insert_eq |].
      exists (NChunk mu d). split; [done |]. rewrite decide_False by done. exists (NChunk mu d).
      split; [done |]. apply alloc_get.
    + intros v' _. by eapply alloc_fresh.
Qed.

(** The arguments of the node on top, and their copies. *)
Lemma open_args items phi m stk v fs sn n : graph_inv items phi m stk ((WPtr v, true) :: fs) sn n ->
  exists l mu args rest args' rest', g !! v = Some (NBlock l mu args) /\ plain_node g (NBlock l mu args) /\
    stk = args ++ rest /\ a_stack m = args' ++ rest' /\ zlen args' = zlen args /\
    Forall2 (word_copy phi) args args' /\ Forall2 (word_copy phi) rest rest' /\
    finish g fs (WPtr v :: rest) = Some [x0].
Proof.
  intros HG. destruct (finish_open _ _ _ _ (g_finish _ _ _ _ _ _ _ _ _ _ _ HG)) as (l & mu & args & rest & Hg & -> & Hf).
  destruct (proj1 (Forall2_app_inv_l _ _ _ _) (g_stack _ _ _ _ _ _ _ _ _ _ _ HG)) as (args' & rest' & H1 & H2 & E).
  exists l, mu, args, rest, args', rest'. pose proof (g_plain_nodes v _ Hg).
  do 4 (split; [done |]). split; [| done]. unfold zlen. by rewrite (Forall2_length _ _ _ H1).
Qed.

Lemma opens_top v fs : opens ((WPtr v, true) :: fs) = v :: opens fs.
Proof. done. Qed.

Lemma open_others v fs v' : v' <> v -> v' ∈ opens fs <-> v' ∈ opens ((WPtr v, true) :: fs).
Proof.
  intros Hne. rewrite opens_top, elem_of_cons. split; [by right | by intros [? | ?]].
Qed.

Lemma step_close items phi m stk v fs sn n :
  graph_inv items phi m stk ((WPtr v, true) :: fs) sn n -> 0 <= n -> run m0 (weave items) = Some m ->
  sn !! v = Some (NOT_WRITTEN, 0) ->
  forall l mu args, g !! v = Some (NBlock l mu args) -> zlen args <= hw_MAX_BLOCKSIZE HW ->
  let ins := close_instr l mu (zlen args) in
  let items' := items ++ [(ins, None)] in
  exists m' phi' rest, stk = args ++ rest /\ m_exec wundef m ins = Some m' /\
    graph_inv items' phi' m' (WPtr v :: rest) fs (<[v := (zlen (enc_code (code items')), 0)]> sn) n /\
    a_max m' = Z.max (a_max m) (zlen (a_stack m')).
Proof.
  intros HG Hn Hr Hsn l mu args Hg Hz ins items'.
  destruct (open_args _ _ _ _ _ _ _ _ HG) as (l' & mu' & args0 & rest & args' & rest' & Hg' & Hpl & Es & Em & Hza & Ha & Hrs & Hf).
  rewrite Hg in Hg'. injection Hg' as <- <- <-.
  destruct (g_seen _ _ _ _ _ _ _ _ _ _ _ HG v _ _ Hsn) as (_ & _ & _ & Hop). rewrite decide_True in Hop by done.
  destruct (Hop eq_refl) as [_ Hphi].
  pose proof (g_nodup _ _ _ _ _ _ _ _ _ _ _ HG) as Hnd. rewrite opens_top in Hnd. apply NoDup_cons in Hnd as [Hclosed Hnd].
  pose proof (zlen_nonneg rest').
  assert (He : m_exec wundef m ins = Some (with_stack m (st_alloc (a_store m) (NBlock l mu args')).1
                                             (WPtr (st_next (a_store m)) :: rest'))).
  { unfold ins. rewrite exec_close by (try done; rewrite Em, zlen_app; lia).
    rewrite Em, ztake_pieces, zdrop_pieces by done. done. }
  eexists _, (<[v := st_next (a_store m)]> phi), rest. split; [done |]. split; [exact He |]. split; [| done].
  assert (Hsub : phi ⊆ <[v := st_next (a_store m)]> phi) by (by apply insert_subseteq).
  eapply (graph_inv_node _ _ _ _ _ _ _ _ _ _ _ _ _ _ _ _ _ _ v HG).
  - eapply node_step_alloc; try done.
    + intros v' Hne. by apply open_others.
    + intros v' Hne. by rewrite lookup_insert_ne.
    + by eexists.
  - simpl. constructor.
    + exists (st_next (a_store m)). by rewrite lookup_insert_eq.
    + by apply (word_copies_mono phi).
  - done.
  - pose proof (g_plain _ _ _ _ _ _ _ _ _ _ _ HG) as Hp. by apply Forall_cons in Hp as [_ ?].
  - done.
  - done.
  - intros ix vn. rewrite lookup_insert_eq. intros [= <- <-]. split.
    + by eapply seen_ok_last.
    + intros Hix v' vn' Hne Hv'. destruct (g_seen _ _ _ _ _ _ _ _ _ _ _ HG v' _ _ Hv') as (_ & _ & _ & Hw).
      rewrite decide_False in Hw by done. apply (written_fresh _ _ ins) in Hw. unfold items' in Hw. lia.
  - intros b. rewrite lookup_insert_eq. intros [= <-]. split.
    + pose proof (g_next _ _ _ _ _ _ _ _ _ _ _ HG). split; [simpl; lia |]. split; [by rewrite lookup_insert_eq |].
      exists (NBlock l mu args). split; [done |]. rewrite decide_False by done. exists (NBlock l mu args').
      split; [| apply alloc_get]. exists args'. split; [done |]. by apply (word_copies_mono phi).
    + intros v' _. by eapply alloc_fresh.
Qed.

Lemma step_fulfill items phi m stk v fs sn n vn :
  graph_inv items phi m stk ((WPtr v, true) :: fs) sn n ->
  sn !! v = Some (NOT_WRITTEN, vn) -> vn <> 0 ->
  forall l mu args, g !! v = Some (NBlock l mu args) ->
  exists m' rest, stk = args ++ rest /\ m_exec wundef m (I_FULFILL vn) = Some m' /\
    graph_inv (items ++ [(I_FULFILL vn, None)]) phi m' (WPtr v :: rest) fs sn n /\
    a_max m' = Z.max (a_max m) (zlen (a_stack m')).
Proof.
  intros HG Hsn Hvn l mu args Hg.
  destruct (open_args _ _ _ _ _ _ _ _ HG) as (l' & mu' & args0 & rest & args' & rest' & Hg' & Hpl & Es & Em & Hza & Ha & Hrs & Hf).
  rewrite Hg in Hg'. injection Hg' as <- <- <-.
  destruct (g_seen _ _ _ _ _ _ _ _ _ _ _ HG v _ _ Hsn) as (Hgv & Hn & Hloc & _).
  destruct (Hloc Hvn) as (b & Hphi & Hl).
  pose proof (g_nodup _ _ _ _ _ _ _ _ _ _ _ HG) as Hnd. rewrite opens_top in Hnd. apply NoDup_cons in Hnd as [Hclosed Hnd].
  destruct (g_phi _ _ _ _ _ _ _ _ _ _ _ HG v b Hphi) as (Hb & _ & n0 & Hg0 & Hc).
  rewrite decide_True in Hc by (rewrite opens_top; by left). destruct Hc as (l0 & mu0 & args0 & old & -> & Hget & Hzo).
  rewrite Hg in Hg0. injection Hg0 as <- <- <-. pose proof (zlen_nonneg rest').
  assert (He : m_exec wundef m (I_FULFILL vn) =
    Some (with_stack m (st_set (a_store m) b (NBlock l mu args')) (WPtr b :: rest'))).
  { simpl. unfold m_fulfill. rewrite Hl. simpl. rewrite Hget, Hzo.
    rewrite (proj2 (Z.leb_le _ _)) by (rewrite Em, zlen_app; lia).
    by rewrite Em, ztake_pieces, zdrop_pieces by done. }
  eexists _, rest. split; [done |]. split; [exact He |]. split; [| done].
  eapply (graph_inv_node _ _ _ _ _ _ _ _ _ _ _ _ _ _ _ _ _ _ v HG).
  - split; try done; simpl.
    + intros a Ha'. unfold st_get, st_set; simpl. by rewrite lookup_insert_ne by lia.
    + intros v' Hne. by apply open_others.
    + intros v' b' Hne Hb'. unfold st_get, st_set; simpl. rewrite lookup_insert_ne; [done |].
      intros <-. apply Hne. by eapply (g_inj _ _ _ _ _ _ _ _ _ _ _ HG).
    + intros v' ix vn' _ _ _. by apply written_append.
  - simpl. constructor; [| done]. by exists b.
  - done.
  - pose proof (g_plain _ _ _ _ _ _ _ _ _ _ _ HG) as Hp. by apply Forall_cons in Hp as [_ ?].
  - done.
  - done.
  - intros ix vn'. rewrite Hsn. intros [= <- <-]. split; [| done].
    split; [done |]. split; [done |]. split; [done |]. by rewrite decide_True.
  - intros b'. rewrite Hphi. intros [= <-]. split.
    + split; [done |]. split; [done |]. exists (NBlock l mu args). split; [done |]. rewrite decide_False by done.
      exists (NBlock l mu args'). split; [by exists args' |]. unfold st_get, st_set; simpl. apply lookup_insert_eq.
    + intros v' Hne Hv'. apply Hne. by eapply (g_inj _ _ _ _ _ _ _ _ _ _ _ HG).
Qed.

Lemma step_open items phi m stk v fs sn n l mu args :
  graph_inv items phi m stk ((WPtr v, false) :: fs) sn n -> 0 <= n ->
  sn !! v = None -> g !! v = Some (NBlock l mu args) ->
  graph_inv items phi m stk (map (fun w => (w, false)) (rev args) ++ (WPtr v, true) :: fs)
    (<[v := (NOT_WRITTEN, 0)]> sn) n.
Proof.
  intros HG Hn Hsn Hg. pose proof (g_plain_nodes v _ Hg) as (_ & _ & Hargs & _).
  assert (Hphi : phi !! v = None).
  { destruct (phi !! v) as [b |] eqn:E; [| done].
    destruct (g_phi _ _ _ _ _ _ _ _ _ _ _ HG v b E) as (_ & [x Hx] & _). congruence. }
  assert (Hclosed : v ∉ opens fs).
  { intros Hin. destruct (g_opens _ _ _ _ _ _ _ _ _ _ _ HG v Hin) as [vn E]. congruence. }
  eapply (graph_inv_node _ _ _ _ _ _ _ _ _ _ _ _ _ _ _ _ _ _ v HG); rewrite ?opens_args, ?opens_top.
  - split; try done.
    + intros v' Hne. rewrite opens_args. symmetry. exact (open_others v fs v' Hne).
    + intros v' Hne. by rewrite lookup_insert_ne.
  - apply HG.
  - rewrite finish_args. simpl. rewrite Hg. rewrite bool_decide_eq_true_2 by (by apply ztake_pieces).
    rewrite zdrop_pieces by done. apply (g_finish _ _ _ _ _ _ _ _ _ _ _ HG).
  - pose proof (g_plain _ _ _ _ _ _ _ _ _ _ _ HG) as Hp. apply Forall_cons in Hp as [Hw Hp].
    apply Forall_app. split; [| by constructor]. apply Forall_map, Forall_rev. exact Hargs.
  - apply NoDup_cons. split; [done |]. apply (g_nodup _ _ _ _ _ _ _ _ _ _ _ HG).
  - intros _. exists 0. by rewrite lookup_insert_eq.
  - intros ix vn. rewrite lookup_insert_eq. intros [= <- <-]. split; [| done].
    split; [done |]. split; [lia |]. split; [done |]. rewrite decide_True by done. intros _. split; [| done].
    rewrite opens_args, opens_top. by left.
  - intros b E. congruence.
Qed.

End Steps.
