(* ===== verification/PickleRun.v ===== *)
(** * Pickling a plain graph

    Every round of [PickleWorker::Run] on a plain graph preserves the
    invariant and spends part of a budget, so the traversal ends; then the
    code written so far builds a copy of the graph and leaves the copy of the
    root on the stack. *)

From S2P Require Import Prelude Config HeaderOp PointerOp Block Queue Stack OutputStream InputStream.
From S2P Require Import Pickle Pickler Unpickler PickleRead PickleMachine PicklerSpec PickleCode PickleGraph.

(** ** The budget *)

(** What writing the references and the bytes of a node costs at most. *)
Definition node_cost (n : node) : Z :=
  match n with NBlock _ _ args => 32 * zlen args | NChunk _ bs => zlen bs | _ => 0 end.

Definition weight (g : gmap Z node) : Z := map_fold (fun _ n acc => node_cost n + acc) 0 g.

Definition unseen (g : gmap Z node) (sn : gmap Z (Z * Z)) : gmap Z node :=
  filter (fun p => sn !! p.1 = None) g.

Definition frame_cost (f : word * bool) : Z := if f.2 then 16 else 32.
Definition frames_cost (fs : list (word * bool)) : Z := foldr (fun f acc => frame_cost f + acc) 0 fs.
Definition budget (g : gmap Z node) (fs : list (word * bool)) (sn : gmap Z (Z * Z)) : Z :=
  frames_cost fs + weight (unseen g sn).

(** The graphs the theorems are about. *)
Definition GRAPH_MAX : Z := 2 ^ 20.

Lemma node_cost_nonneg n : 0 <= node_cost n.
Proof. destruct n as [l mu args | mu bs | |]; simpl; try done; [pose proof (zlen_nonneg args); lia | apply zlen_nonneg]. Qed.

Lemma weight_delete g v n : g !! v = Some n -> weight g = node_cost n + weight (delete v g).
Proof.
  intros Hv. unfold weight. rewrite <- (insert_delete_id g v n) at 1 by done.
  rewrite map_fold_insert_L; [done | intros; lia | apply lookup_delete_eq].
Qed.

Lemma weight_nonneg g : 0 <= weight g.
Proof.
  unfold weight. apply (map_fold_weak_ind (fun acc _ => 0 <= acc)); [done |].
  intros i n m r _ Hr. pose proof (node_cost_nonneg n). lia.
Qed.

Lemma weight_lookup g v n : g !! v = Some n -> node_cost n <= weight g.
Proof. intros Hv. rewrite (weight_delete g v n Hv). pose proof (weight_nonneg (delete v g)). lia. Qed.

Lemma unseen_empty g : unseen g ∅ = g.
Proof. apply map_filter_id. intros i n _. apply lookup_empty. Qed.

(** Seeing a node again does not change the budget; seeing it first spends its cost. *)
Lemma unseen_again g sn v x y : sn !! v = Some x -> unseen g (<[v := y]> sn) = unseen g sn.
Proof.
  intros Hv. apply map_filter_ext. intros i n _. simpl.
  destruct (decide (i = v)) as [-> | Hne]; [rewrite lookup_insert_eq, Hv; done | by rewrite lookup_insert_ne].
Qed.

Lemma unseen_new g sn v n y : sn !! v = None -> g !! v = Some n ->
  weight (unseen g sn) = node_cost n + weight (unseen g (<[v := y]> sn)).
Proof.
  intros Hv Hg. rewrite (weight_delete _ v n).
  - f_equal. f_equal. apply map_eq. intros i. unfold unseen.
    destruct (decide (i = v)) as [-> | Hne].
    + rewrite lookup_delete_eq. symmetry. apply map_lookup_filter_None. right. intros n' _. simpl.
      by rewrite lookup_insert_eq.
    + rewrite lookup_delete_ne by done. destruct (g !! i) as [n' |] eqn:Ei.
      * destruct (decide (sn !! i = None)) as [E | E].
        -- rewrite !(map_lookup_filter_Some_2 _ _ _ n') by (simpl; rewrite ?lookup_insert_ne; done). done.
        -- rewrite !map_lookup_filter_None_2; [done | right; intros ? _; simpl; by rewrite lookup_insert_ne | by right].
      * rewrite !map_lookup_filter_None_2 by (by left). done.
  - by apply map_lookup_filter_Some_2.
Qed.

Lemma frames_cost_app a b : frames_cost (a ++ b) = frames_cost a + frames_cost b.
Proof. induction a as [| f a IH]; simpl; [done |]. unfold frames_cost in *. simpl. rewrite IH. lia. Qed.

Lemma frames_cost_zlen fs : 16 * zlen fs <= frames_cost fs.
Proof.
  induction fs as [| f fs IH]; [done |]. rewrite zlen_cons. unfold frames_cost in *. simpl.
  assert (16 <= frame_cost f) by (unfold frame_cost; destruct f.2; lia). lia.
Qed.

Lemma frames_cost_args args : frames_cost (map (fun w => (w, false)) (rev args)) = 32 * zlen args.
Proof.
  rewrite <- (zlen_rev args). induction (rev args) as [| w l IH]; [done |].
  rewrite zlen_cons. unfold frames_cost in *. simpl. rewrite IH. change (frame_cost (w, false)) with 32. lia.
Qed.

(** ** Lengths of encodings *)

Lemma enc_small i : instr_ok i -> (forall mu bs, i <> I_CHUNK mu bs) -> zlen (enc i) <= 16.
Proof.
  intros Hi Hc. pose proof uint_enc_zlen as Hu.
  destruct i; try (exfalso; by eapply Hc); simpl in Hi; unfold u31 in Hi; try (destruct mutable); unfold enc;
    rewrite ?zlen_cons, ?zlen_app; change (zlen (@nil Z)) with 0; try done;
    repeat match goal with |- context [uint_enc ?x] =>
      lazymatch goal with _ : 1 <= zlen (uint_enc x) <= 5 |- _ => fail | _ => assert (1 <= zlen (uint_enc x) <= 5) by (apply Hu; lia) end
    end; lia.
Qed.

Lemma enc_chunk mu d : u31 (zlen d) -> zlen (enc (I_CHUNK mu d)) <= 6 + zlen d.
Proof. intros Hd. simpl. rewrite zlen_cons, zlen_app. pose proof (uint_enc_zlen (zlen d) Hd). lia. Qed.

Lemma good_small i : instr_ok i -> (forall mu bs, i <> I_CHUNK mu bs) -> good_instr i.
Proof.
  intros Hi Hc. pose proof (enc_small i Hi Hc). split; [done |]. unfold size_ok, ITEM_MAX.
  assert (slack_of i <= 1) by (by destruct i). lia.
Qed.

(** ** Rounds on a plain graph *)

Section Run.
Context `{Platform} (undef : Z) (wundef : word) {F : Type}.
Context (GetAbstractRepresentation : store -> Z -> option Z * store).
Context (stream : OutputStream F) (s : store) (g : gmap Z node) (x0 : word).

Record plain_graph : Prop := {
  pg_store : g ⊆ st_nodes s;
  pg_nodes : map_Forall (fun _ n => plain_node g n) g;
  pg_root : plain_word g x0;
  pg_size : 32 + weight g <= GRAPH_MAX
}.

Hypothesis G : plain_graph.

Context (m0 : machine).
Hypothesis m0_locals : a_locals m0 = ∅.
Hypothesis m0_stack : a_stack m0 = [].
Hypothesis m0_max : a_max m0 = 0.

Abbreviation rep := (PA_rep stream x0).
Abbreviation Run_step := (Run_step undef wundef GetAbstractRepresentation).
Abbreviation graph_inv := (graph_inv wundef g x0 m0).
Abbreviation code_inv := (code_inv wundef m0).

Definition pot (q : pstate) : Z := budget g (q_frames q) (q_seen q).

(** [d]: the room a table entry whose [LOAD] follows still lacks. *)
Record pickling_ (d : Z) items phi m (stk : list word) (q : pstate) : Prop := {
  k_code : code_inv items m (q_bytes q) (q_locs q);
  k_graph : graph_inv items phi m stk (q_frames q) (q_seen q) (zlen (q_locs q));
  k_cur : q_cur q = zlen stk;
  k_max : q_max q = a_max m;
  k_bytes : zlen (q_bytes q) + pot q <= GRAPH_MAX;
  k_height : 16 * zlen stk + pot q <= GRAPH_MAX;
  k_locs : 2 * zlen (q_locs q) <= zlen (q_bytes q) + d;
  k_top : 0 <= q_max q <= GRAPH_MAX
}.
Abbreviation pickling := (pickling_ 0).

Definition round (pa : PickleArgs (F := F)) (q : pstate) : Prop :=
  exists pa' q' items phi m stk, Run_step s pa = Some (P_Next s pa') /\ rep pa' q' /\
    pickling items phi m stk q' /\ pot q' + 16 <= pot q.

(** *** Looking at a word *)

Lemma graph_get v n : g !! v = Some n -> st_get s v = Some n.
Proof. intros Hv. eapply lookup_weaken; [done | apply G]. Qed.

Lemma deref_node v n : g !! v = Some n -> st_deref s (WPtr v) = Some (WPtr v).
Proof.
  intros Hv. pose proof (pg_nodes G v n Hv) as Hn. unfold st_deref.
  destruct n; try done; destruct (size _); simpl; by rewrite (graph_get v _ Hv).
Qed.

Lemma look_node v n : g !! v = Some n ->
  WordToTransient s (WPtr v) = Some None /\ WordToInt s (WPtr v) = Some None /\ WordToBlock s (WPtr v) = Some (Some v).
Proof.
  intros Hv. pose proof (pg_nodes G v n Hv) as Hn.
  unfold WordToTransient, WordToInt, WordToBlock. rewrite (deref_node v n Hv). simpl. rewrite (graph_get v n Hv).
  by destruct n.
Qed.

Lemma look_int i : WordToTransient s (WInt i) = Some None /\ WordToInt s (WInt i) = Some (Some i).
Proof. unfold WordToTransient, WordToInt, st_deref. by destruct (size _). Qed.

(** *** Bounds *)

Lemma pickling_bounds items phi m stk q f fs : pickling items phi m stk q -> q_frames q = f :: fs ->
  zlen (q_bytes q) + 16 <= GRAPH_MAX /\ 0 <= 2 * zlen (q_locs q) <= zlen (q_bytes q) /\
  0 <= zlen stk < 2 ^ 30 /\ zlen fs + 1 <= 2 ^ 16.
Proof.
  intros [HC HG Hc Hm Hb Hh Hlc Htop] Ef. unfold pot, budget in *. rewrite Ef in *.
  pose proof (frames_cost_zlen (f :: fs)) as Hf. rewrite zlen_cons in Hf. pose proof (zlen_nonneg fs).
  pose proof (weight_nonneg (unseen g (q_seen q))). pose proof (zlen_nonneg (q_locs q)). pose proof (zlen_nonneg stk).
  unfold GRAPH_MAX in *. lia.
Qed.

Lemma args_small v l mu args : g !! v = Some (NBlock l mu args) -> 1 <= zlen args <= 2 ^ 15.
Proof.
  intros Hv. pose proof (weight_lookup g v _ Hv) as Hw. pose proof (pg_size G). pose proof (pg_nodes G v _ Hv) as (_ & Ha & _).
  simpl in Hw. unfold GRAPH_MAX in *. lia.
Qed.

(** Appending an instruction to a state of the pickler. *)
Lemma pickling_next d items phi m stk q ins m' new phi' stk' fs' sn' mx' :
  pickling_ d items phi m stk q -> m_exec wundef m ins = Some m' -> good_instr ins ->
  Forall (fun p => p.1 = 0) new -> 2 * zlen (q_locs q ++ new) <= zlen (q_bytes q) + zlen (enc ins) ->
  local_in (zlen (q_locs q ++ new)) ins ->
  graph_inv (items ++ [(ins, None)]) phi' m' stk' fs' sn' (zlen (q_locs q ++ new)) ->
  a_max m' = Z.max (a_max m) (zlen (a_stack m')) -> mx' = Z.max (q_max q) (zlen stk') ->
  zlen (enc ins) + budget g fs' sn' <= pot q ->
  16 * zlen stk' + budget g fs' sn' <= 16 * zlen stk + pot q ->
  pickling (items ++ [(ins, None)]) phi' m' stk'
    (mkP (q_bytes q ++ enc ins) (q_locs q ++ new) fs' sn' (zlen stk') mx').
Proof.
  intros [HC HG Hc Hm Hb Hh Hlc Htop] He Hg Hnew Hlen Hl HG' Hmx Hmx' Hb' Hh'. split; simpl.
  - by eapply code_inv_append.
  - done.
  - done.
  - rewrite Hmx', Hmx, Hm. f_equal. pose proof (g_stack _ _ _ _ _ _ _ _ _ _ _ HG') as Hs.
    unfold zlen. by rewrite (Forall2_length _ _ _ Hs).
  - rewrite zlen_app. unfold pot in *. simpl. lia.
  - unfold pot in *. simpl. lia.
  - rewrite (zlen_app (q_bytes q)). lia.
  - pose proof (zlen_nonneg stk'). pose proof (frames_cost_zlen fs'). pose proof (zlen_nonneg fs').
    pose proof (weight_nonneg (unseen g sn')). unfold budget in Hh'. lia.
Qed.

(** *** The rounds *)

Lemma pickling_next_same items phi m stk q ins m' phi' stk' fs' sn' mx' :
  pickling items phi m stk q -> m_exec wundef m ins = Some m' -> good_instr ins -> local_in (zlen (q_locs q)) ins ->
  graph_inv (items ++ [(ins, None)]) phi' m' stk' fs' sn' (zlen (q_locs q)) ->
  a_max m' = Z.max (a_max m) (zlen (a_stack m')) -> mx' = Z.max (q_max q) (zlen stk') ->
  zlen (enc ins) + budget g fs' sn' <= pot q ->
  16 * zlen stk' + budget g fs' sn' <= 16 * zlen stk + pot q ->
  pickling (items ++ [(ins, None)]) phi' m' stk' (mkP (q_bytes q ++ enc ins) (q_locs q) fs' sn' (zlen stk') mx').
Proof.
  intros HP He Hg Hl HG Hm Hm' Hb Hh.
  pose proof (k_locs _ _ _ _ _ _ HP) as Hlc. pose proof (zlen_nonneg (enc ins)).
  rewrite <- (app_nil_r (q_locs q)) in HG, Hl |- *. rewrite <- (app_nil_r (q_locs q)) at 1. rewrite (app_nil_r (_ ++ [])).
  eapply pickling_next; try done. rewrite app_nil_r. lia.
Qed.

Lemma exec_int m i : MIN_VALID_INT <= i <= MAX_VALID_INT -> m_exec wundef m (int_instr i) = Some (m_push m (WInt i)).
Proof.
  change MIN_VALID_INT with (- 2 ^ 30). change MAX_VALID_INT with (2 ^ 30 - 1). intros Hi. unfold int_instr.
  destruct (Z.leb_spec 0 i); simpl; change MAX_VALID_INT with (2 ^ 30 - 1).
  - rewrite (proj2 (Z.leb_le 0 i)), (proj2 (Z.leb_le i _)) by lia. done.
  - rewrite (proj2 (Z.leb_le 0 _)), (proj2 (Z.leb_le _ (2 ^ 30 - 1))) by lia. simpl. by replace (- (- (i + 1) + 1)) with i by lia.
Qed.

Lemma budget_pop f fs sn : budget g (f :: fs) sn = frame_cost f + budget g fs sn.
Proof. unfold budget, frames_cost. simpl. lia. Qed.

(** The round has read the frame on top. *)
Lemma step_top pa q w b fs : rep pa q -> q_frames q = (w, b) :: fs ->
  PS_IsEmpty (pa_stack pa) = false /\ PS_GetData (pa_stack pa) = Some w /\ PS_GetBack (pa_stack pa) = Some b.
Proof.
  intros HR Ef. pose proof (pr_stack _ _ _ _ HR) as HS. rewrite Ef in HS.
  rewrite (PS_IsEmpty_ok _ _ HS), (PS_GetData_ok _ _ _ HS), (PS_GetBack_ok _ _ _ HS). done.
Qed.

Lemma round_int pa q items phi m stk i fs :
  rep pa q -> pickling items phi m stk q -> q_frames q = (WInt i, false) :: fs -> round pa q.
Proof.
  intros HR HP Ef. destruct (pickling_bounds _ _ _ _ _ _ _ HP Ef) as (Hb & Hl & Hs & _).
  pose proof (k_graph _ _ _ _ _ _ HP) as HG. rewrite Ef in HG.
  assert (Hi : MIN_VALID_INT <= i <= MAX_VALID_INT).
  { pose proof (g_plain _ _ _ _ _ _ _ _ _ _ _ HG) as Hp. by apply Forall_cons in Hp as [Hp _]. }
  destruct (step_top _ _ _ _ _ HR Ef) as (E1 & E2 & E3).
  unfold round, Pickler.Run_step. rewrite E1, E2, E3. simpl. destruct (look_int i) as [-> ->]. simpl.
  destruct q as [bs locs frs sn c mx]; simpl in *; subst frs.
  unfold GRAPH_MAX in *. pose proof (k_cur _ _ _ _ _ _ HP) as Hc. simpl in Hc. subst c.
  destruct (Run_int_ok undef stream x0 bs locs fs sn (zlen stk) mx) with (pa := pa) (i := i) (f := (WInt i, false))
    as (pa' & -> & HR'); try done; try (unfold STREAM_MAX, LOCALS_MAX; lia). simpl.
  assert (Hok : instr_ok (int_instr i)).
  { change MIN_VALID_INT with (- 2 ^ 30) in Hi. change MAX_VALID_INT with (2 ^ 30 - 1) in Hi.
    unfold int_instr. destruct (Z.leb_spec 0 i); simpl; unfold u31; lia. }
  assert (Hnc : forall mu bs, int_instr i <> I_CHUNK mu bs) by (intros; unfold int_instr; by destruct (0 <=? i)).
  pose proof (enc_small _ Hok Hnc).
  eexists _, _, (items ++ [(int_instr i, None)]), phi, (m_push m (WInt i)), (WInt i :: stk).
  split; [reflexivity |]. split; [exact HR' |].
  replace (zlen stk + 1) with (zlen (WInt i :: stk)) by (rewrite zlen_cons; lia).
  pose proof (budget_pop (WInt i, false) fs sn) as Hpot. change (frame_cost (WInt i, false)) with 32 in Hpot.
  split; [| unfold pot; simpl; lia].
  apply (pickling_next_same items phi m stk (mkP bs locs ((WInt i, false) :: fs) sn (zlen stk) mx));
    simpl; try done.
  - by apply exec_int.
  - by apply good_small.
  - intros k. unfold int_instr. by destruct (0 <=? i).
  - by eapply graph_inv_push.
  - unfold pot; simpl. lia.
  - rewrite zlen_cons. unfold pot; simpl. lia.
Qed.

(** A round that pushes a word. *)
Lemma round_leaf d pa q items phi m stk w fs ins m' phi' sn' new pa' :
  pickling_ d items phi m stk q -> q_frames q = (w, false) :: fs -> Run_step s pa = Some (P_Next s pa') ->
  rep pa' (mkP (q_bytes q ++ enc ins) (q_locs q ++ new) fs sn' (q_cur q + 1) (Z.max (q_max q) (q_cur q + 1))) ->
  m_exec wundef m ins = Some m' -> good_instr ins ->
  Forall (fun p => p.1 = 0) new -> 2 * zlen (q_locs q ++ new) <= zlen (q_bytes q) + zlen (enc ins) ->
  local_in (zlen (q_locs q ++ new)) ins ->
  graph_inv (items ++ [(ins, None)]) phi' m' (w :: stk) fs sn' (zlen (q_locs q ++ new)) ->
  a_max m' = Z.max (a_max m) (zlen (a_stack m')) ->
  zlen (enc ins) + weight (unseen g sn') <= 16 + weight (unseen g (q_seen q)) -> 0 <= zlen (enc ins) ->
  round pa q.
Proof.
  intros HP Ef Er HR' He Hg Hnew Hlen Hl HG' Hmx Hw Hz.
  exists pa', (mkP (q_bytes q ++ enc ins) (q_locs q ++ new) fs sn' (q_cur q + 1) (Z.max (q_max q) (q_cur q + 1))).
  exists (items ++ [(ins, None)]), phi', m', (w :: stk). split; [exact Er |]. split; [exact HR' |].
  assert (Hpot : pot q = 32 + frames_cost fs + weight (unseen g (q_seen q))).
  { unfold pot, budget. rewrite Ef. unfold frames_cost. simpl. change (frame_cost (w, false)) with 32. lia. }
  rewrite (k_cur _ _ _ _ _ _ HP). replace (zlen stk + 1) with (zlen (w :: stk)) by (rewrite zlen_cons; lia).
  split; [eapply pickling_next; try done | rewrite Hpot; unfold pot, budget; cbn [q_frames q_seen]; lia].
  - unfold budget. lia.
  - rewrite zlen_cons. unfold budget. lia.
Qed.

(** An address in the target is one of a block or a chunk. *)
Lemma copy_node_ref items phi m stk fs sn n v b :
  graph_inv items phi m stk fs sn n -> phi !! v = Some b -> node_ref (a_store m) (WPtr b) = true.
Proof.
  intros HG Hphi. destruct (g_phi _ _ _ _ _ _ _ _ _ _ _ HG v b Hphi) as (_ & _ & nd & _ & Hcopy). simpl.
  destruct (decide _).
  - destruct Hcopy as (l & mu & args & args' & _ & -> & _). done.
  - destruct Hcopy as (nd' & Hnc & ->). destruct nd; simpl in Hnc; [destruct Hnc as (? & -> & _) | subst nd' | |]; done.
Qed.

(** A round at a node: what is looked up before the sharing table is asked. *)
Lemma step_node pa q v nd fs : rep pa q -> q_frames q = (WPtr v, false) :: fs -> g !! v = Some nd ->
  Run_step s pa =
    match q_seen q !! v, nd with
    | Some (ref, _), NBlock l m args => P_Next s <$> Run_seen undef pa v ref l m (zlen args)
    | Some (ref, _), NChunk m bytes => P_Next s <$> Run_seen undef pa v ref CHUNK_LABEL m 0
    | None, NChunk m bytes => P_Next s <$> Run_chunk undef pa v m bytes
    | None, NBlock l m args => P_Next s <$> Run_block wundef pa v args
    | _, _ => None
    end.
Proof.
  intros HR Ef Hg. destruct (step_top _ _ _ _ _ HR Ef) as (E1 & E2 & E3). destruct (look_node v nd Hg) as (L1 & L2 & L3).
  pose proof (pg_nodes G v nd Hg) as Hpl.
  unfold Pickler.Run_step. rewrite E1, E2, E3. simpl. rewrite L1. simpl. rewrite L2. simpl. rewrite L3. simpl.
  rewrite (graph_get v nd Hg). simpl. rewrite (pr_seen _ _ _ _ HR). unfold Seen_Find.
  destruct (q_seen q !! v) as [[ref vn] |]; simpl; destruct nd as [l mu args | mu d | |]; try done.
  destruct Hpl as ((_ & Hsit & Hu & Hc & Ht & _) & _). rewrite Hsit.
  apply Z.eqb_neq in Hu, Hc, Ht. by rewrite Hu, Hc, Ht.
Qed.

Lemma round_load pa q items phi m stk v fs ix vn :
  rep pa q -> pickling items phi m stk q -> q_frames q = (WPtr v, false) :: fs ->
  q_seen q !! v = Some (ix, vn) -> vn <> 0 -> round pa q.
Proof.
  intros HR HP Ef Hsn Hvn. destruct (pickling_bounds _ _ _ _ _ _ _ HP Ef) as (Hb & Hl & Hs & _). unfold GRAPH_MAX in *.
  pose proof (k_graph _ _ _ _ _ _ HP) as HG. rewrite Ef in HG. pose proof (k_cur _ _ _ _ _ _ HP) as Hc.
  destruct (g_seen _ _ _ _ _ _ _ _ _ _ _ HG v _ _ Hsn) as ([nd Hg] & Hn & Hloc & _).
  destruct (Hloc Hvn) as (b & Hphi & Hlb). pose proof (copy_node_ref _ _ _ _ _ _ _ v b HG Hphi) as Hnode.
  assert (Hu : u31 vn) by (unfold u31; lia).
  assert (Hrun : exists pa', Run_step s pa = Some (P_Next s pa') /\
    rep pa' (mkP (q_bytes q ++ enc (I_LOAD vn)) (q_locs q) fs (q_seen q) (q_cur q + 1) (Z.max (q_max q) (q_cur q + 1)))).
  { rewrite (step_node pa q v nd fs) by done. rewrite Hsn.
    destruct q as [bs locs frs sn c mx]; simpl in *; subst frs.
    pose proof (pg_nodes G v nd Hg) as Hpl.
    assert (Hload : forall l mu size, exists pa', Run_seen undef pa v ix l mu size = Some pa' /\
      rep pa' (mkP (bs ++ enc (I_LOAD vn)) locs fs sn (c + 1) (Z.max mx (c + 1)))).
    { intros. eapply Run_seen_load; try done; unfold STREAM_MAX, LOCALS_MAX; lia. }
    destruct nd as [l mu args | mu d | |]; try done.
    - destruct (Hload l mu (zlen args)) as (pa' & -> & HR'). by exists pa'.
    - destruct (Hload CHUNK_LABEL mu 0) as (pa' & -> & HR'). by exists pa'. }
  destruct Hrun as (pa' & Er & HR').
  assert (Hok : instr_ok (I_LOAD vn)) by done. pose proof (enc_small _ Hok ltac:(done)). pose proof (enc_pos (I_LOAD vn)).
  eapply (round_leaf 0 pa q items phi m stk (WPtr v) fs (I_LOAD vn) (m_push m (WPtr b)) phi (q_seen q) []); try done;
    rewrite ?app_nil_r; try done; try lia.
  - simpl. rewrite Hlb. cbn [mbind option_bind]. by rewrite Hnode.
  - by apply good_small.
  - intros k [= <-]. lia.
  - eapply graph_inv_push; [exact HG | done |]. by exists b.
Qed.

Lemma round_announce pa q items phi m stk v fs :
  rep pa q -> pickling items phi m stk q -> q_frames q = (WPtr v, false) :: fs ->
  q_seen q !! v = Some (NOT_WRITTEN, 0) -> round pa q.
Proof.
  intros HR HP Ef Hsn. destruct (pickling_bounds _ _ _ _ _ _ _ HP Ef) as (Hb & Hl & Hs & _). unfold GRAPH_MAX in *.
  pose proof (k_graph _ _ _ _ _ _ HP) as HG. rewrite Ef in HG. pose proof (k_cur _ _ _ _ _ _ HP) as Hc.
  destruct (g_seen _ _ _ _ _ _ _ _ _ _ _ HG v _ _ Hsn) as ([nd Hg] & Hn & _ & Hop).
  rewrite decide_True in Hop by done. destruct (Hop eq_refl) as [Hopen _]. pose proof (pg_nodes G v nd Hg) as Hpl.
  assert (Hblk : exists l mu args, nd = NBlock l mu args).
  { destruct (finish_open_block g _ _ _ v (g_finish _ _ _ _ _ _ _ _ _ _ _ HG) Hopen) as (l & mu & args & Hv).
    rewrite Hg in Hv. injection Hv as ->. eauto. }
  destruct Hblk as (l & mu & args & ->). pose proof Hpl as (Hlab & _).
  pose proof (args_small v l mu args Hg) as Hsz. set (k := zlen (q_locs q) + 1) in *.
  assert (Hk : a_locals m !! k = None).
  { eapply code_inv_fresh; [done | apply (k_code _ _ _ _ _ _ HP) | unfold k; lia]. }
  assert (Hmb : zlen args <= hw_MAX_BLOCKSIZE HW) by (rewrite MAX_BLOCKSIZE_eq; lia).
  destruct (step_announce wundef g x0 m0 (pg_nodes G) items phi m stk v fs (q_seen q) _ l mu args HG) as (m' & phi' & He & HG' & Hmx);
    [lia | done | done | done | done |]. fold k in He, HG'.
  assert (Hu : u31 k /\ u31 (zlen args) /\ u31 l) by (destruct Hlab as [Hlr _]; unfold u31, k; lia).
  destruct Hu as (Hu1 & Hu2 & Hu3).
  assert (Hok : instr_ok (announce_instr l mu (zlen args) k)).
  { unfold announce_instr. destruct (l =? CLOSURE_LABEL); [| destruct (l =? TUPLE_LABEL)]; done. }
  assert (Hnc : forall mu' d, announce_instr l mu (zlen args) k <> I_CHUNK mu' d).
  { intros. unfold announce_instr. destruct (l =? CLOSURE_LABEL); [done | destruct (l =? TUPLE_LABEL); done]. }
  pose proof (enc_small _ Hok Hnc). pose proof (enc_pos (announce_instr l mu (zlen args) k)).
  assert (Hrun : exists pa', Run_step s pa = Some (P_Next s pa') /\
    rep pa' (mkP (q_bytes q ++ enc (announce_instr l mu (zlen args) k)) (q_locs q ++ [(0, k)]) fs
               (<[v := (NOT_WRITTEN, k)]> (q_seen q)) (q_cur q + 1) (Z.max (q_max q) (q_cur q + 1)))).
  { rewrite (step_node pa q v _ fs HR Ef Hg), Hsn.
    destruct q as [bs locs frs sn c mx]; simpl in *; subst frs.
    destruct (Run_seen_announce undef stream x0 bs locs fs sn c mx) with (pa := pa) (f := (WPtr v, false)) (v := v) (l := l) (mu := mu) (size := zlen args)
      as (pa' & -> & HR'); try done; try (unfold STREAM_MAX, LOCALS_MAX; lia). by exists pa'. }
  destruct Hrun as (pa' & Er & HR').
  assert (Hk1 : zlen (q_locs q ++ [(0, k)]) = k) by (rewrite zlen_app; done).
  eapply (round_leaf 0 pa q items phi m stk (WPtr v) fs _ m' phi' _ [(0, k)]); try done; rewrite ?Hk1; try done.
  - by apply good_small.
  - by apply Forall_singleton.
  - enough (2 <= zlen (enc (announce_instr l mu (zlen args) k))) by (unfold k in *; lia).
    pose proof (uint_enc_zlen (zlen args) ltac:(unfold u31 in Hu2; lia)).
    unfold announce_instr. destruct (l =? CLOSURE_LABEL); [| destruct (l =? TUPLE_LABEL)]; [| | destruct mu];
      unfold enc; rewrite zlen_cons, ?zlen_app; pose proof (zlen_nonneg (uint_enc k)); pose proof (zlen_nonneg (uint_enc l)); lia.
  - intros k'. unfold announce_instr. destruct (l =? CLOSURE_LABEL); [| destruct (l =? TUPLE_LABEL)]; intros [= <-]; unfold k; lia.
  - rewrite (unseen_again g (q_seen q) v _ _ Hsn). lia.
  - lia.
Qed.

Lemma round_share pa q items phi m stk v fs ix :
  rep pa q -> pickling items phi m stk q -> q_frames q = (WPtr v, false) :: fs ->
  q_seen q !! v = Some (ix, 0) -> ix <> NOT_WRITTEN -> round pa q.
Proof.
  intros HR HP Ef Hsn Hix. destruct (pickling_bounds _ _ _ _ _ _ _ HP Ef) as (Hb & Hl & Hs & _). unfold GRAPH_MAX in *.
  pose proof HP as [HC HG Hc Hm Hbb Hh Hlc Htop].
  destruct (g_seen _ _ _ _ _ _ _ _ _ _ _ HG v _ _ Hsn) as ([nd Hg] & Hn & _ & _).
  set (k := zlen (q_locs q) + 1) in *. assert (Hu : u31 k) by (unfold u31, k; lia).
  destruct (step_share wundef g x0 m0 items phi m stk _ _ _ _ v ix HG HC m0_locals Hu Hsn Hix) as (items' & b & Hphi & HC' & HG').
  fold k in HC', HG'. set (m1 := set_local m k (WPtr b)) in *.
  set (q1 := mkP (q_bytes q) (q_locs q ++ [(ix, k)]) (q_frames q) (<[v := (ix, k)]> (q_seen q)) (q_cur q) (q_max q)).
  assert (Hpot : pot q1 = pot q) by (unfold pot, budget; simpl; by rewrite (unseen_again g _ v _ _ Hsn)).
  assert (Hk : zlen (q_locs q ++ [(ix, k)]) = k) by (rewrite zlen_app; done).
  assert (HP1 : pickling_ 2 items' phi m1 stk q1).
  { split; rewrite ?Hpot; simpl; rewrite ?Hk; try done. unfold k. lia. }
  assert (Hrun : exists pa', Run_step s pa = Some (P_Next s pa') /\
    rep pa' (mkP (q_bytes q ++ enc (I_LOAD k)) (q_locs q1) fs (q_seen q1) (q_cur q + 1) (Z.max (q_max q) (q_cur q + 1)))).
  { rewrite (step_node pa q v nd fs HR Ef Hg), Hsn.
    clear HP HP1 HC HC' HG HG' Hm Hpot Hbb Hh. unfold q1, k; destruct q as [bs locs frs sn c mx]; simpl in *; subst frs.
    assert (Hsh : forall l mu size, exists pa', Run_seen undef pa v ix l mu size = Some pa' /\
      rep pa' (mkP (bs ++ enc (I_LOAD (zlen locs + 1))) (locs ++ [(ix, zlen locs + 1)]) fs
                 (<[v := (ix, zlen locs + 1)]> sn) (c + 1) (Z.max mx (c + 1)))).
    { intros. eapply Run_seen_share; try done; unfold STREAM_MAX, LOCALS_MAX; lia. }
    pose proof (pg_nodes G v nd Hg) as Hpl. destruct nd as [l mu args | mu d | |]; try done.
    - destruct (Hsh l mu (zlen args)) as (pa' & -> & HR'). by exists pa'.
    - destruct (Hsh CHUNK_LABEL mu 0) as (pa' & -> & HR'). by exists pa'. }
  destruct Hrun as (pa' & Er & HR').
  assert (Hok : instr_ok (I_LOAD k)) by done. pose proof (enc_small _ Hok ltac:(done)).
  pose proof (uint_enc_zlen k ltac:(unfold u31 in Hu; lia)) as Hlen.
  assert (Henc : zlen (enc (I_LOAD k)) = 1 + zlen (uint_enc k)) by (simpl; by rewrite zlen_cons).
  assert (HR1 : round pa q1).
  { eapply (round_leaf 2 pa q1 items' phi m1 stk (WPtr v) fs (I_LOAD k) (m_push m1 (WPtr b)) phi (q_seen q1) []); try done;
      rewrite ?app_nil_r; simpl q_locs; simpl q_bytes; rewrite ?Hk; try done; try lia.
    - simpl. rewrite lookup_insert_eq. cbn [mbind option_bind]. rewrite (copy_node_ref _ _ _ _ _ _ _ v b HG Hphi). done.
    - by apply good_small.
    - intros k' [= <-]. unfold k. lia.
    - eapply graph_inv_push; [rewrite <- Ef; exact HG' | done |]. by exists b. }
  destruct HR1 as (pa2 & q2 & R). exists pa2, q2. rewrite Hpot in R. exact R.
Qed.

Lemma round_chunk pa q items phi m stk v fs mu d :
  rep pa q -> pickling items phi m stk q -> q_frames q = (WPtr v, false) :: fs ->
  q_seen q !! v = None -> g !! v = Some (NChunk mu d) -> round pa q.
Proof.
  intros HR HP Ef Hsn Hg. destruct (pickling_bounds _ _ _ _ _ _ _ HP Ef) as (Hb & Hl & Hs & _).
  pose proof (k_graph _ _ _ _ _ _ HP) as HG. rewrite Ef in HG. pose proof (k_cur _ _ _ _ _ _ HP) as Hc.
  pose proof (weight_lookup g v _ Hg) as Hw. pose proof (pg_size G). simpl in Hw. unfold GRAPH_MAX in *.
  pose proof (zlen_nonneg d). assert (Hu : u31 (zlen d)) by (unfold u31; lia).
  pose proof (enc_chunk mu d Hu). pose proof (enc_pos (I_CHUNK mu d)).
  pose proof (c_run _ _ _ _ _ _ (k_code _ _ _ _ _ _ HP)) as Hr.
  destruct (step_chunk wundef g x0 m0 items phi m stk v fs _ _ mu d HG (zlen_nonneg _) Hr Hsn Hg) as (m' & phi' & He & HG' & Hmx).
  set (pos := zlen (enc_code (code (items ++ [(I_CHUNK mu d, None)])))) in *.
  assert (Hpos : pos = zlen (q_bytes q ++ enc (I_CHUNK mu d))).
  { unfold pos. by rewrite enc_code_snoc, (c_code _ _ _ _ _ _ (k_code _ _ _ _ _ _ HP)). }
  assert (Hrun : exists pa', Run_step s pa = Some (P_Next s pa') /\
    rep pa' (mkP (q_bytes q ++ enc (I_CHUNK mu d)) (q_locs q) fs (<[v := (pos, 0)]> (q_seen q))
               (q_cur q + 1) (Z.max (q_max q) (q_cur q + 1)))).
  { rewrite (step_node pa q v _ fs HR Ef Hg), Hsn, Hpos.
    destruct q as [bs locs frs sn c mx]; simpl in *; subst frs.
    destruct (Run_chunk_ok undef stream x0 bs locs fs sn c mx) with (pa := pa) (f := (WPtr v, false)) (v := v) (mu := mu) (d := d)
      as (pa' & -> & HR'); try done; try (unfold STREAM_MAX, LOCALS_MAX; lia). by exists pa'. }
  destruct Hrun as (pa' & Er & HR').
  pose proof (unseen_new g (q_seen q) v _ (pos, 0) Hsn Hg) as Hun. simpl in Hun.
  pose proof (k_locs _ _ _ _ _ _ HP).
  eapply (round_leaf 0 pa q items phi m stk (WPtr v) fs (I_CHUNK mu d) m' phi' _ []); try done; rewrite ?app_nil_r; try done; try lia.
  - split; [done |]. unfold size_ok, ITEM_MAX. simpl slack_of. lia.
  - unfold Seen in *. lia.
Qed.

Lemma round_open pa q items phi m stk v fs l mu args :
  rep pa q -> pickling items phi m stk q -> q_frames q = (WPtr v, false) :: fs ->
  q_seen q !! v = None -> g !! v = Some (NBlock l mu args) -> round pa q.
Proof.
  intros HR HP Ef Hsn Hg. destruct (pickling_bounds _ _ _ _ _ _ _ HP Ef) as (Hb & Hl & Hs & Hf).
  pose proof (k_graph _ _ _ _ _ _ HP) as HG. rewrite Ef in HG. pose proof (args_small v l mu args Hg) as Hsz.
  pose proof (step_open wundef g x0 m0 (pg_nodes G) items phi m stk v fs _ _ l mu args HG (zlen_nonneg _) Hsn Hg) as HG'.
  pose proof (unseen_new g (q_seen q) v _ (NOT_WRITTEN, 0) Hsn Hg) as Hun. simpl in Hun.
  set (fs' := map (fun w => (w, false)) (rev args) ++ (WPtr v, true) :: fs) in *.
  assert (Hcost : frames_cost fs' = 32 * zlen args + 16 + frames_cost fs).
  { unfold fs'. rewrite frames_cost_app, frames_cost_args. unfold frames_cost. simpl. unfold frame_cost at 1. simpl. lia. }
  destruct q as [bs locs frs sn c mx]; simpl in *; subst frs. unfold GRAPH_MAX in *.
  assert (Hpot : pot (mkP bs locs ((WPtr v, false) :: fs) sn c mx) = 32 + frames_cost fs + weight (unseen g sn)).
  { unfold pot, budget, frames_cost. simpl. unfold frame_cost at 1. simpl. lia. }
  destruct (Run_block_ok wundef stream x0 bs locs fs sn c mx) with (pa := pa) (w := WPtr v) (v := v) (args := args)
    as (pa' & Er & HR'); try done; try (unfold STREAM_MAX, LOCALS_MAX, FRAMES_MAX; lia).
  exists pa', (mkP bs locs fs' (<[v := (NOT_WRITTEN, 0)]> sn) c mx), items, phi, m, stk.
  assert (Hpot' : pot (mkP bs locs fs' (<[v := (NOT_WRITTEN, 0)]> sn) c mx) + 16 = pot (mkP bs locs ((WPtr v, false) :: fs) sn c mx)).
  { rewrite Hpot. unfold pot, budget. cbn [q_frames q_seen]. rewrite Hcost. unfold Seen in *. lia. }
  split; [| split; [exact HR' | split; [| lia]]].
  - rewrite (step_node pa _ v _ fs HR eq_refl Hg). simpl. rewrite Hsn. by rewrite Er.
  - destruct HP as [HC _ Hc Hm Hbb Hh Hlc Htop]. split; try done; simpl in *; lia.
Qed.

(** Back from the arguments of a node. *)
Lemma step_back pa q v l mu args fs : rep pa q -> q_frames q = (WPtr v, true) :: fs -> g !! v = Some (NBlock l mu args) ->
  Run_step s pa = P_Next s <$> Run_back undef s pa v l mu (zlen args).
Proof.
  intros HR Ef Hg. destruct (step_top _ _ _ _ _ HR Ef) as (E1 & E2 & E3). destruct (look_node v _ Hg) as (_ & _ & L3).
  unfold Pickler.Run_step. rewrite E1, E2, E3. simpl. rewrite L3. simpl. by rewrite (graph_get v _ Hg).
Qed.

Lemma stack_height items phi m stk q : pickling items phi m stk q -> zlen stk <= q_max q.
Proof.
  intros HP. rewrite (k_max _ _ _ _ _ _ HP).
  pose proof (code_inv_max wundef m0 m0_stack m0_max _ _ _ _ (k_code _ _ _ _ _ _ HP)) as Hm.
  pose proof (Forall2_length _ _ _ (g_stack _ _ _ _ _ _ _ _ _ _ _ (k_graph _ _ _ _ _ _ HP))) as El.
  unfold zlen in *. lia.
Qed.

(** A round that replaces the arguments of a node by the node. *)
Lemma round_done pa q items phi m v args rest fs ins m' phi' sn' pa' :
  pickling items phi m (args ++ rest) q -> q_frames q = (WPtr v, true) :: fs -> 1 <= zlen args ->
  Run_step s pa = Some (P_Next s pa') ->
  rep pa' (mkP (q_bytes q ++ enc ins) (q_locs q) fs sn' (q_cur q - (zlen args - 1)) (q_max q)) ->
  m_exec wundef m ins = Some m' -> instr_ok ins -> (forall mu bs, ins <> I_CHUNK mu bs) -> local_in (zlen (q_locs q)) ins ->
  graph_inv (items ++ [(ins, None)]) phi' m' (WPtr v :: rest) fs sn' (zlen (q_locs q)) ->
  a_max m' = Z.max (a_max m) (zlen (a_stack m')) ->
  weight (unseen g sn') = weight (unseen g (q_seen q)) ->
  round pa q.
Proof.
  intros HP Ef Ha Er HR' He Hok Hnc Hl HG' Hmx Hw. pose proof (stack_height _ _ _ _ _ HP) as Hh.
  pose proof (enc_small ins Hok Hnc). pose proof (enc_pos ins). rewrite (k_cur _ _ _ _ _ _ HP) in HR'.
  rewrite zlen_app in Hh, HR'.
  assert (Hpot : pot q = 16 + frames_cost fs + weight (unseen g (q_seen q))).
  { unfold pot, budget. rewrite Ef. unfold frames_cost. simpl. change (frame_cost (WPtr v, true)) with 16. lia. }
  replace (zlen args + zlen rest - (zlen args - 1)) with (zlen (WPtr v :: rest)) in HR' by (rewrite zlen_cons; lia).
  eexists pa', _, (items ++ [(ins, None)]), phi', m', (WPtr v :: rest). split; [exact Er |]. split; [exact HR' |].
  split; [eapply pickling_next_same; try done | rewrite Hpot; unfold pot, budget; cbn [q_frames q_seen]; lia].
  - by apply good_small.
  - rewrite zlen_cons. lia.
  - unfold budget. lia.
  - rewrite zlen_cons, zlen_app. unfold budget. lia.
Qed.

Lemma round_close pa q items phi m stk v fs :
  rep pa q -> pickling items phi m stk q -> q_frames q = (WPtr v, true) :: fs ->
  q_seen q !! v = Some (NOT_WRITTEN, 0) -> round pa q.
Proof.
  intros HR HP Ef Hsn. destruct (pickling_bounds _ _ _ _ _ _ _ HP Ef) as (Hb & Hl & Hs & _). unfold GRAPH_MAX in *.
  pose proof (k_graph _ _ _ _ _ _ HP) as HG. rewrite Ef in HG.
  destruct (finish_open g fs v stk _ (g_finish _ _ _ _ _ _ _ _ _ _ _ HG)) as (l & mu & args & _ & Hg & _).
  pose proof (args_small v l mu args Hg) as Hsz. pose proof (c_run _ _ _ _ _ _ (k_code _ _ _ _ _ _ HP)) as Hr.
  assert (Hmb : zlen args <= hw_MAX_BLOCKSIZE HW) by (rewrite MAX_BLOCKSIZE_eq; lia).
  destruct (step_close wundef g x0 m0 (pg_nodes G) items phi m stk v fs _ _ HG (zlen_nonneg _) Hr Hsn l mu args Hg Hmb)
    as (m' & phi' & rest & -> & He & HG' & Hmx).
  set (ins := close_instr l mu (zlen args)) in *. pose proof (pg_nodes G v _ Hg) as (Hlab & _).
  rewrite enc_code_snoc, <- (c_code _ _ _ _ _ _ (k_code _ _ _ _ _ _ HP)) in HG'.
  assert (Hrun : exists pa', Run_step s pa = Some (P_Next s pa') /\
    rep pa' (mkP (q_bytes q ++ enc ins) (q_locs q) fs (<[v := (zlen (q_bytes q ++ enc ins), 0)]> (q_seen q))
               (q_cur q - (zlen args - 1)) (q_max q))).
  { rewrite (step_back pa q v l mu args fs HR Ef Hg). pose proof (k_cur _ _ _ _ _ _ HP) as Hc. rewrite zlen_app in Hc, Hs.
    pose proof (zlen_nonneg rest).
    destruct q as [bs locs frs sn c mx]; simpl in *; subst frs.
    destruct (Run_back_close undef stream x0 bs locs fs sn c mx) with (s := s) (pa := pa) (f := (WPtr v, true)) (v := v)
      (ix := NOT_WRITTEN) (l := l) (mu := mu) (size := zlen args) as (pa' & -> & HR'); try done;
      try (unfold STREAM_MAX, LOCALS_MAX; lia). by exists pa'. }
  destruct Hrun as (pa' & Er & HR').
  eapply (round_done pa q items phi m v args rest fs ins m' phi'); try done.
  - lia.
  - unfold ins, close_instr. destruct Hlab as [Hlr _]. destruct (l =? CLOSURE_LABEL); [| destruct (l =? TUPLE_LABEL)];
      simpl; unfold u31; lia.
  - intros. unfold ins, close_instr. destruct (l =? CLOSURE_LABEL); [done | destruct (l =? TUPLE_LABEL); done].
  - intros k. unfold ins, close_instr. destruct (l =? CLOSURE_LABEL); [done | destruct (l =? TUPLE_LABEL); done].
  - by rewrite (unseen_again g (q_seen q) v _ _ Hsn).
Qed.

Lemma round_fulfill pa q items phi m stk v fs vn :
  rep pa q -> pickling items phi m stk q -> q_frames q = (WPtr v, true) :: fs ->
  q_seen q !! v = Some (NOT_WRITTEN, vn) -> vn <> 0 -> round pa q.
Proof.
  intros HR HP Ef Hsn Hvn. destruct (pickling_bounds _ _ _ _ _ _ _ HP Ef) as (Hb & Hl & Hs & _). unfold GRAPH_MAX in *.
  pose proof (k_graph _ _ _ _ _ _ HP) as HG. rewrite Ef in HG.
  destruct (g_seen _ _ _ _ _ _ _ _ _ _ _ HG v _ _ Hsn) as (_ & Hn & _).
  destruct (finish_open g fs v stk _ (g_finish _ _ _ _ _ _ _ _ _ _ _ HG)) as (l & mu & args & _ & Hg & _).
  pose proof (args_small v l mu args Hg) as Hsz. assert (Hu : u31 vn) by (unfold u31; lia).
  destruct (step_fulfill wundef g x0 m0 (pg_nodes G) items phi m stk v fs _ _ vn HG Hsn Hvn l mu args Hg)
    as (m' & rest & -> & He & HG' & Hmx).
  assert (Hrun : exists pa', Run_step s pa = Some (P_Next s pa') /\
    rep pa' (mkP (q_bytes q ++ enc (I_FULFILL vn)) (q_locs q) fs (q_seen q) (q_cur q - (zlen args - 1)) (q_max q))).
  { rewrite (step_back pa q v l mu args fs HR Ef Hg). pose proof (k_cur _ _ _ _ _ _ HP) as Hc. rewrite zlen_app in Hc, Hs.
    pose proof (zlen_nonneg rest).
    destruct q as [bs locs frs sn c mx]; simpl in *; subst frs.
    destruct (Run_back_fulfill undef stream x0 bs locs fs sn c mx) with (s := s) (pa := pa) (f := (WPtr v, true)) (v := v)
      (ix := NOT_WRITTEN) (vn := vn) (l := l) (mu := mu) (size := zlen args) as (pa' & -> & HR'); try done;
      try (unfold STREAM_MAX, LOCALS_MAX; lia). by exists pa'. }
  destruct Hrun as (pa' & Er & HR').
  eapply (round_done pa q items phi m v args rest fs (I_FULFILL vn) m' phi (q_seen q)); try done.
  - lia.
  - intros k [= <-]. lia.
Qed.

(** ** The traversal *)

Theorem round_ok pa q items phi m stk : rep pa q -> pickling items phi m stk q -> q_frames q <> [] -> round pa q.
Proof.
  intros HR HP Hne. pose proof (k_graph _ _ _ _ _ _ HP) as HG.
  destruct (q_frames q) as [| [w b] fs] eqn:Ef; [done |].
  pose proof (g_plain _ _ _ _ _ _ _ _ _ _ _ HG) as Hp. apply Forall_cons in Hp as [Hw _]. simpl in Hw.
  destruct b.
  - destruct w as [i | v]; [by pose proof (g_finish _ _ _ _ _ _ _ _ _ _ _ HG) |].
    destruct (g_opens _ _ _ _ _ _ _ _ _ _ _ HG v) as [vn Hsn]; [rewrite opens_top; by left |].
    destruct (decide (vn = 0)) as [-> |]; [by eapply round_close | by eapply round_fulfill].
  - destruct w as [i | v]; [by eapply round_int |]. destruct Hw as [nd Hg].
    destruct (q_seen q !! v) as [[ix vn] |] eqn:Hsn.
    + destruct (decide (vn = 0)) as [-> |]; [| by eapply round_load].
      destruct (decide (ix = NOT_WRITTEN)) as [-> |]; [by eapply round_announce | by eapply round_share].
    + pose proof (pg_nodes G v nd Hg) as Hpl. destruct nd as [l mu args | mu d | |]; try done;
        [by eapply round_open | by eapply round_chunk].
Qed.

(** The rounds end with the work done, within a number of rounds that the budget bounds. *)
Lemma rounds_end pa q items phi m stk n : rep pa q -> pickling items phi m stk q -> pot q < 16 * Z.of_nat n ->
  exists pa' q' items' phi' m', q_frames q' = [] /\ rep pa' q' /\ pickling items' phi' m' [x0] q' /\
    forall fuel, (n <= fuel)%nat ->
      PickleWorker_Run undef wundef GetAbstractRepresentation fuel s pa = Some (P_Done pa').
Proof.
  revert pa q items phi m stk. induction n as [| n IH]; intros pa q items phi m stk HR HP Hn.
  { exfalso. unfold pot, budget in Hn. pose proof (weight_nonneg (unseen g (q_seen q))).
    pose proof (frames_cost_zlen (q_frames q)). pose proof (zlen_nonneg (q_frames q)). lia. }
  destruct (q_frames q) as [| f fs] eqn:Ef.
  - pose proof (g_finish _ _ _ _ _ _ _ _ _ _ _ (k_graph _ _ _ _ _ _ HP)) as Hf. rewrite Ef in Hf. injection Hf as ->.
    exists pa, q, items, phi, m. do 3 (split; [done |]). intros [| fuel] Hfuel; [lia |]. simpl.
    unfold Pickler.Run_step. pose proof (pr_stack _ _ _ _ HR) as HS. rewrite Ef in HS.
    by rewrite (PS_IsEmpty_ok _ _ HS).
  - destruct (round_ok pa q items phi m stk HR HP) as (pa1 & q1 & items1 & phi1 & m1 & stk1 & E1 & HR1 & HP1 & Hpot);
      [by rewrite Ef |].
    destruct (IH pa1 q1 items1 phi1 m1 stk1 HR1 HP1) as (pa' & q' & items' & phi' & m' & H1 & H2 & H3 & H4); [lia |].
    exists pa', q', items', phi', m'. do 3 (split; [done |]). intros [| fuel] Hfuel; [lia |]. simpl. rewrite E1. simpl.
    apply H4. lia.
Qed.

Lemma pickling_init : pickling [] ∅ m0 [] (mkP [] [] [(x0, false)] ∅ 0 0).
Proof.
  pose proof (pg_size G).
  assert (Hpot : pot (mkP [] [] [(x0, false)] ∅ 0 0) = 32 + weight g).
  { unfold pot, budget. cbn [q_frames q_seen]. by rewrite unseen_empty. }
  split; rewrite ?Hpot; simpl; try done.
  - apply graph_inv_init; [done | apply G].
Qed.

End Run.
