(* ===== verification/PickleStream.v ===== *)
(** * Writing a pickle to a stream

    [WriteToStream] writes the header and then the buffer with the [STORE]s at
    the positions in the sorted table of locals: the result is the encoding of
    the woven instruction list. *)

From Stdlib Require Import Sorting.Sorted.
From stdpp Require Import sorting.
From S2P Require Import Prelude Config HeaderOp PointerOp Block Queue Stack OutputStream InputStream.
From S2P Require Import Pickle Pickler Unpickler PickleRead PickleMachine PicklerSpec PickleCode.

(** The header of a pickle. *)
Definition pickle_header (height locals : Z) : list Z :=
  magic ++ uint_enc majorVersion ++ uint_enc minorVersion ++ [Tag.INIT] ++ uint_enc height ++ uint_enc locals.

Definition pickle_bytes (height locals : Z) (c : list instr) : list Z :=
  pickle_header height locals ++ enc_code (c ++ [I_STORE 0; I_ENDOFSTREAM]).

(** What the loop over the table writes from position [c] on, and where it ends. *)
Fixpoint store_out (bs : list Z) (c : Z) (es : list (Z * Z)) : list Z * Z :=
  match es with
  | [] => ([], c)
  | (p, k) :: es => let r := store_out bs p es in (zseg bs c (p - c) ++ enc (I_STORE k) ++ r.1, r.2)
  end.

Lemma zseg_split {A} (l : list A) a n m : 0 <= a -> 0 <= n -> 0 <= m -> zseg l a (n + m) = zseg l a n ++ zseg l (a + n) m.
Proof.
  intros Ha Hn Hm. unfold zseg. rewrite <- (ztake_zdrop n (ztake (n + m) (zdrop a l))), ztake_ztake, zdrop_ztake, zdrop_zdrop by lia.
  f_equal; f_equal; try f_equal; lia.
Qed.

Lemma zseg_app_mid {A} (x y z : list A) a n : a = zlen x -> n = zlen y -> zseg (x ++ y ++ z) a n = y.
Proof. intros. by apply zseg_pieces. Qed.

(** The loop and the bytes behind it are the woven code. *)
Lemma store_out_weave (rest : list Z) done its c : 0 <= c <= zlen (enc_code (code done)) ->
  let p := zlen (enc_code (code done)) in
  let bs := enc_code (code (done ++ its)) ++ rest in
  let r := store_out bs c (stores p its) in
  c <= r.2 <= zlen (enc_code (code (done ++ its))) /\
  r.1 ++ zseg bs r.2 (zlen (enc_code (code (done ++ its))) - r.2) = zseg bs c (p - c) ++ enc_code (weave its).
Proof.
  revert done c. induction its as [| [ins o] its IH]; intros done c Hc p bs r.
  - unfold r, bs. simpl. rewrite app_nil_r. split; [lia |]. change (enc_code (weave [])) with (@nil Z). by rewrite app_nil_r.
  - set (done' := done ++ [(ins, o)]).
    assert (Ed : done ++ (ins, o) :: its = done' ++ its) by (unfold done'; by rewrite <- app_assoc).
    assert (Ep : zlen (enc_code (code done')) = p + zlen (enc ins)) by (unfold done'; rewrite enc_code_snoc, zlen_app; done).
    pose proof (enc_pos ins). pose proof (zlen_nonneg (enc ins)).
    assert (Eseg : zseg bs c (p + zlen (enc ins) - c) = zseg bs c (p - c) ++ enc ins).
    { replace (p + zlen (enc ins) - c) with ((p - c) + zlen (enc ins)) by lia. rewrite zseg_split by lia. f_equal.
      replace (c + (p - c)) with p by lia. unfold bs. rewrite code_app, enc_code_app, enc_code_item, <- !app_assoc. cbn [fst].
      by apply zseg_app_mid. }
    destruct o as [k |].
    + specialize (IH done' (p + zlen (enc ins))). rewrite Ep, <- Ed in IH. cbn zeta in IH. fold bs in IH. destruct IH as [IH1 IH2]; [lia |].
      unfold r. cbn [stores fst snd app store_out]. cbn zeta. cbn [fst snd].
      split; [lia |]. rewrite Eseg, <- !app_assoc. f_equal. f_equal.
      rewrite IH2. replace (p + zlen (enc ins) - (p + zlen (enc ins))) with 0 by lia.
      unfold zseg at 1. by rewrite ztake_0.
    + specialize (IH done' c). rewrite Ep, <- Ed in IH. cbn zeta in IH. fold bs in IH. destruct IH as [IH1 IH2]; [lia |].
      unfold r. cbn [stores fst snd app]. split; [exact IH1 |]. rewrite IH2, Eseg, <- app_assoc. done.
Qed.

(** ** The table of locals, sorted *)

Section Table.
Implicit Types (ps es : list (Z * Z)).

Definition before (x y : Z * Z) : Prop := x.1 <= y.1.

Lemma sorted_on_strongly ps n : sorted_on 0 n ps -> zlen ps <= n + 1 -> StronglySorted before ps.
Proof.
  revert n. induction ps as [| x ps IH]; intros n Hs Hn; [constructor |]. rewrite zlen_cons in Hn.
  apply StronglySorted_cons. split.
  - apply Forall_lookup. intros i y Hy. apply (Hs 0 (Z.of_nat i + 1) x y); [lia | | done |].
    + apply lookup_lt_Some in Hy. unfold zlen in Hn. lia.
    + rewrite aget_cons by lia. unfold aget. rewrite decide_True by lia.
      replace (Z.to_nat (Z.of_nat i + 1 - 1)) with i by lia. done.
  - apply (IH (n - 1)); [| lia]. intros i j a b Hi Hj Ha Hb. apply (Hs (i + 1) (j + 1) a b); [lia | lia | |];
      rewrite aget_cons by lia; [by replace (i + 1 - 1) with i by lia | by replace (j + 1 - 1) with j by lia].
Qed.

Lemma StronglySorted_filter_pos ps : StronglySorted before ps -> StronglySorted before (filter (fun p => 0 < p.1) ps).
Proof.
  induction 1 as [| x ps Hs IH Hf]; [constructor |]. destruct (decide (0 < x.1)).
  - rewrite filter_cons_True by done. apply StronglySorted_cons. split; [| done].
    apply Forall_forall. intros y Hy. apply list_elem_of_filter in Hy as [_ Hy]. by eapply Forall_forall in Hf.
  - by rewrite filter_cons_False.
Qed.

Lemma stores_sorted p items : StronglySorted before (stores p items).
Proof.
  revert p. induction items as [| [ins o] items IH]; intros p; [constructor |]. cbn [stores fst snd].
  destruct o as [k |]; [| apply IH]. apply StronglySorted_cons. split; [| apply IH].
  apply Forall_forall. intros q Hq. apply stores_pos in Hq. unfold before. simpl. lia.
Qed.

Lemma stores_key p items x y : x ∈ stores p items -> y ∈ stores p items -> x.1 = y.1 -> x = y.
Proof.
  revert p. induction items as [| [ins o] items IH]; intros p Hx Hy E; [by apply not_elem_of_nil in Hx |].
  cbn [stores fst snd] in Hx, Hy. destruct o as [k |]; [| by eapply IH].
  apply elem_of_cons in Hx as [-> | Hx], Hy as [-> | Hy]; [done | | | by eapply IH].
  - apply stores_pos in Hy. simpl in E. lia.
  - apply stores_pos in Hx. simpl in E. lia.
Qed.

(** The entries behind the first one that have a position are the stores. *)
Lemma sorted_stores locs ps items :
  ps ≡ₚ (0, 0) :: locs -> sorted_on 0 (zlen locs) ps -> Forall (fun p => 0 <= p.1) locs ->
  filter (fun p => 0 < p.1) locs ≡ₚ stores 0 items ->
  zlen ps = zlen locs + 1 /\ filter (fun p => 0 < p.1) (zdrop 1 ps) = stores 0 items.
Proof.
  intros HP Hs Href Hst. assert (Hz : zlen ps = zlen locs + 1).
  { unfold zlen. rewrite HP. simpl. lia. }
  split; [done |]. apply (sorted_on_strongly ps) in Hs; [| lia].
  destruct ps as [| x ps]; [change (zlen (@nil (Z * Z))) with 0 in Hz; pose proof (zlen_nonneg locs); lia |].
  change (zdrop 1 (x :: ps)) with ps.
  assert (Hx : ~ 0 < x.1).
  { assert (H0 : (0, 0) ∈ x :: ps) by (rewrite HP; by left). apply elem_of_cons in H0 as [<- | H0]; [simpl; lia |].
    apply StronglySorted_cons in Hs as [Hf _]. eapply Forall_forall in Hf; [| exact H0]. unfold before in Hf. simpl in Hf. lia. }
  assert (Ef : filter (fun p => 0 < p.1) ps ≡ₚ stores 0 items).
  { rewrite <- Hst. rewrite <- (filter_cons_False _ _ ps Hx), HP. by rewrite filter_cons_False by (simpl; lia). }
  apply (StronglySorted_unique_strong before); [| | apply stores_sorted | done].
  - intros a b Ha Hb H1 H2. rewrite Ef in Ha. eapply stores_key; [done | done |]. unfold before in *. lia.
  - apply StronglySorted_filter_pos. by apply StronglySorted_cons in Hs as [_ ?].
Qed.

End Table.

(** ** The loop *)

Section Write.
Context `{Platform} (undef : Z) {F : Type} (gzputc : F -> Z -> F) (gzwrite : F -> list Z -> F).

(** What a stream that appends is. *)
Variable R : OutputStream F -> list Z -> Prop.
Hypothesis R_byte : forall s bs b, R s bs -> zlen bs < STREAM_MAX -> is_byte b ->
  exists s', PutByte undef gzputc s b = Some s' /\ R s' (bs ++ [b]).
Hypothesis R_bytes : forall s bs buf n, R s bs -> 0 <= n <= zlen buf -> zlen bs + n <= STREAM_MAX ->
  exists s', PutBytes undef gzwrite s buf n = Some s' /\ R s' (bs ++ ztake n buf).
Hypothesis R_uint : forall s bs i, R s bs -> 0 <= i < 2 ^ 31 -> zlen bs + 5 <= STREAM_MAX ->
  exists s', PutUInt undef gzputc s i = Some s' /\ R s' (bs ++ uint_enc i).

(** Positions that increase within the buffer. *)
Fixpoint positions (n c : Z) (es : list (Z * Z)) : Prop :=
  match es with [] => True | (p, k) :: es => c < p <= n /\ u31 k /\ positions n p es end.

Lemma write_locals_ok n i vars ps ibf os c W :
  locals_rep vars ps -> 0 <= i -> i + Z.of_nat n = zlen ps -> 0 <= c ->
  let es := filter (fun p => 0 < p.1) (zdrop i ps) in
  positions (zlen ibf) c es -> R os W -> zlen W + zlen (store_out ibf c es).1 + 5 <= STREAM_MAX ->
  exists os', write_locals undef gzputc gzwrite n i vars ibf os c = Some (os', (store_out ibf c es).2) /\
    R os' (W ++ (store_out ibf c es).1).
Proof.
  intros HL. revert i os c W. induction n as [| n IH]; intros i os c W Hi Hn Hc es Hes HR Hm.
  { unfold es in *. rewrite zdrop_all in * by lia. simpl. rewrite app_nil_r. by exists os. }
  destruct (aget_is_Some ps i ltac:(lia)) as [[p k] Hp]. pose proof (GetArg_pair vars ps i (p, k) HL Hp) as [G1 G2].
  cbn [write_locals]. rewrite G1, G2. cbn [mbind option_bind fst snd].
  unfold es in *. rewrite (zdrop_cons_aget _ _ _ Hp) in *.
  destruct (Z.ltb_spec 0 p) as [Hpos | Hpos].
  - rewrite filter_cons_True in * by (simpl; lia). cbn [positions] in Hes. destruct Hes as ((H1 & H2) & Hk & Hes).
    cbn [store_out fst snd] in *. set (r := store_out ibf p _) in *.
    rewrite (proj2 (Z.leb_gt p c)) by lia. rewrite !zlen_app in Hm.
    assert (Hz : zlen (zseg ibf c (p - c)) = p - c) by (apply zlen_zseg; lia).
    pose proof (zlen_nonneg r.1). pose proof (uint_enc_zlen k Hk). cbn [enc] in *. rewrite zlen_cons in Hm.
    destruct (R_bytes os W (zdrop c ibf) (p - c) HR) as (os1 & -> & HR1); [rewrite zlen_zdrop by lia; lia | lia |]. simpl.
    change (ztake (p - c) (zdrop c ibf)) with (zseg ibf c (p - c)) in HR1.
    destruct (R_byte os1 _ Tag.STORE HR1) as (os2 & -> & HR2); [rewrite zlen_app; lia | done |]. simpl.
    destruct (R_uint os2 _ k HR2 Hk) as (os3 & -> & HR3); [rewrite !zlen_app; change (zlen [Tag.STORE]) with 1; lia |]. simpl.
    destruct (IH (i + 1) os3 p _ ltac:(lia) ltac:(lia) ltac:(lia) Hes HR3) as (os4 & E & HR4).
    { rewrite !zlen_app. change (zlen [Tag.STORE]) with 1. fold r. lia. }
    exists os4. split; [exact E |]. fold r in HR4. rewrite <- !app_assoc in HR4. exact HR4.
  - rewrite filter_cons_False in * by (simpl; lia). apply IH; try done; lia.
Qed.

Lemma stores_positions n c p items : c <= p -> p + zlen (enc_code (code items)) <= n ->
  Forall good_instr (weave items) -> positions n c (stores p items).
Proof.
  revert c p. induction items as [| [ins o] items IH]; intros c p Hc Hn Hg; [done |].
  rewrite enc_code_item, zlen_app in Hn. cbn [fst] in Hn. pose proof (enc_pos ins) as He. pose proof (zlen_nonneg (enc_code (code items))) as Hzc.
  change (weave ((ins, o) :: items)) with (weave1 (ins, o) ++ weave items) in Hg. apply Forall_app in Hg as [Hi Hg].
  cbn [stores fst snd]. destruct o as [k |]; [| apply IH; (done || lia)].
  cbn [app positions]. split; [lia |]. split; [| apply IH; (done || lia)].
  apply Forall_cons in Hi as [_ Hi]. apply Forall_cons in Hi as [[Hk _] _]. exact Hk.
Qed.

Lemma WriteToStream_ok height obf items locs os :
  OB_rep obf (enc_code (code items)) locs -> Forall (fun p => 0 <= p.1) locs ->
  filter (fun p => 0 < p.1) locs ≡ₚ stores 0 items -> Forall good_instr (weave items) ->
  u31 height -> u31 (zlen locs + 1) -> R os [] -> zlen (enc_code (weave items)) + 64 <= STREAM_MAX ->
  zlen (enc_code (code items)) <= STREAM_MAX ->
  exists os', WriteToStream undef gzputc gzwrite height obf os = Some os' /\
    R os' (pickle_bytes height (zlen locs + 1) (weave items)).
Proof.
  intros HB Href Hst Hg Hh Hlu HR Hm Hbm. pose proof (obr_bytes _ _ _ HB) as [rest Eb].
  destruct (GetLocals_ok _ _ _ HB) as (o' & vars & ps & EL & HL & HP & HS & ->).
  destruct (sorted_stores locs ps items HP HS Href Hst) as [Hzp Hes].
  pose proof (store_out_weave rest [] items 0) as Hw. cbn zeta in Hw. 
  change (code []) with (@nil instr) in Hw. rewrite enc_code_nil in Hw. change (zlen (@nil Z)) with 0 in Hw.
  rewrite app_nil_l in Hw. destruct Hw as [Hc Hw]; [lia |]. rewrite <- Eb in Hc, Hw.
  set (r := store_out (c_bytes (ob_buffer obf)) 0 (stores 0 items)) in *.
  pose proof (uint_enc_zlen height Hh) as Lh. pose proof (uint_enc_zlen _ Hlu) as Ll.
  assert (Hz0 : zseg (c_bytes (ob_buffer obf)) 0 (0 - 0) = []) by (unfold zseg; apply ztake_0).
  rewrite Hz0 in Hw. simpl in Hw.
  assert (Hrl : zlen r.1 + (zlen (enc_code (code items)) - r.2) = zlen (enc_code (weave items))).
  { rewrite <- Hw, zlen_app, zlen_zseg; try lia. rewrite Eb, zlen_app. pose proof (zlen_nonneg rest). lia. }
  unfold WriteToStream. rewrite EL. cbn [mbind option_bind]. unfold OB_GetPos, GetNoOfLocals, OB_GetBuffer. cbn [ob_pos ob_loc_count].
  rewrite (obr_pos _ _ _ HB), (obr_count _ _ _ HB). unfold STREAM_MAX in *. pose proof (zlen_nonneg r.1).
  assert (Emaj : uint_enc majorVersion = [5]) by done. assert (Emin : uint_enc minorVersion = [0]) by done.
  destruct (R_bytes os [] magic 4 HR) as (o1 & -> & K1); [done | done |]. cbn [mbind option_bind].
  destruct (R_uint o1 _ majorVersion K1) as (o2 & -> & K2); [done | done |]. cbn [mbind option_bind]. rewrite Emaj in K2.
  destruct (R_uint o2 _ minorVersion K2) as (o3 & -> & K3); [done | done |]. cbn [mbind option_bind]. rewrite Emin in K3.
  destruct (R_byte o3 _ Tag.INIT K3) as (o4 & -> & K4); [done | done |]. cbn [mbind option_bind].
  change ((((([] ++ ztake 4 magic) ++ [5]) ++ [0]) ++ [Tag.INIT])) with (magic ++ [5; 0; 0]) in K4.
  destruct (R_uint o4 _ height K4) as (o5 & -> & K5); [exact Hh | done |]. cbn [mbind option_bind].
  destruct (R_uint o5 _ (zlen locs + 1) K5) as (o6 & -> & K6); [exact Hlu | rewrite zlen_app; change (zlen (magic ++ [5; 0; 0])) with 7; unfold STREAM_MAX; lia |].
  cbn [mbind option_bind]. set (hd := ((magic ++ [5; 0; 0]) ++ uint_enc height) ++ uint_enc (zlen locs + 1)) in *.
  assert (Hhd : zlen hd <= 17) by (unfold hd; rewrite !zlen_app; change (zlen magic) with 4; change (zlen [5; 0; 0]) with 3; lia).
  pose proof (zlen_nonneg locs). pose proof (zlen_nonneg hd). change (b_args vars) with (b_args vars).
  destruct (write_locals_ok (Z.to_nat (zlen locs)) 1 vars ps (c_bytes (ob_buffer obf)) o6 0 hd HL) as (o7 & E7 & K7);
    try lia; rewrite ?Hes; fold r; try done.
  { rewrite Eb. apply stores_positions; [lia | rewrite zlen_app; pose proof (zlen_nonneg rest); lia | done]. }
  { unfold STREAM_MAX. lia. }
  rewrite Hes in E7, K7. fold r in E7, K7. rewrite E7. cbn [mbind option_bind].
  rewrite u_int_id32 by lia.
  assert (Hbz : zlen (enc_code (code items)) <= zlen (c_bytes (ob_buffer obf))) by (rewrite Eb, zlen_app; pose proof (zlen_nonneg rest); lia).
  destruct (R_bytes o7 _ (zdrop r.2 (c_bytes (ob_buffer obf))) (zlen (enc_code (code items)) - r.2) K7) as (o8 & -> & K8);
    [rewrite zlen_zdrop by lia; lia | rewrite zlen_app; unfold STREAM_MAX; lia |]. cbn [mbind option_bind].
  change (ztake (zlen (enc_code (code items)) - r.2) (zdrop r.2 (c_bytes (ob_buffer obf))))
    with (zseg (c_bytes (ob_buffer obf)) r.2 (zlen (enc_code (code items)) - r.2)) in K8.
  rewrite <- app_assoc, Hw in K8.
  destruct (R_byte o8 _ Tag.STORE K8) as (o9 & -> & K9); [rewrite zlen_app; unfold STREAM_MAX; lia | done |]. cbn [mbind option_bind].
  destruct (R_uint o9 _ 0 K9) as (o10 & -> & K10); [done | rewrite !zlen_app; change (zlen [Tag.STORE]) with 1; unfold STREAM_MAX; lia |].
  cbn [mbind option_bind].
  destruct (R_byte o10 _ Tag.ENDOFSTREAM K10) as (o11 & -> & K11);
    [rewrite !zlen_app; change (zlen [Tag.STORE]) with 1; change (zlen (uint_enc 0)) with 1; unfold STREAM_MAX; lia | done |].
  exists o11. split; [done |]. unfold pickle_bytes, pickle_header. rewrite enc_code_app, Emaj, Emin.
  unfold hd in K11. rewrite <- !app_assoc in K11 |- *. exact K11.
Qed.

End Write.
