(* ===== verification/PickleThm.v ===== *)
(** * Pickling and unpickling

    A plain graph that is pickled and unpickled is copied: the theorems put
    together the traversal ([PickleRun]), the stream ([PickleStream]), the
    check of the header and the execution of the instructions ([PickleRead],
    [PickleMachine]). *)

From S2P Require Import Prelude Config HeaderOp PointerOp Block Queue Stack OutputStream InputStream.
From S2P Require Import Pickle Pickler Unpickler PickleRead PickleMachine PicklerSpec PickleCode PickleGraph PickleRun PickleStream.

(** ** Checking the header *)

Section Header.
Context `{Platform} {G : Type} (gz : gz_ops G).
Implicit Types t : InputStream G.

(** A stream before an item, with the bytes in its buffer. *)
Definition at_item t (bs : list Z) : Prop := source_ok t /\ uncommitted t = bs.

Lemma chk_ok {A} (r : reader (G := G) A) e slack a k t u :
  reads r e slack a -> at_item t (e ++ u) -> slack <= zlen u ->
  exists t1, chk r k t = k a t1 /\ at_item (Commit t1) u /\ is_type (Commit t1) = is_type t /\
    is_rd t1 = is_hd t + zlen e /\ is_tl t1 = is_tl t.
Proof.
  intros Hr ((Ht & Ehd & He) & Eu) Hs. exists (SetRd t (is_rd t + zlen e)).
  pose proof (buffered_committed t Ehd) as Eb. unfold chk.
  rewrite (reads_full _ _ _ _ Hr t u Ht He) by (by rewrite Eb || done). split; [done |].
  destruct (view_commit (fun _ => []) t e Ht Ehd u Eu) as (K1 & K2 & K3 & K4).
  destruct (buffered_SetRd t e u Ht ltac:(by rewrite Eb)) as [_ E1].
  split; [| split; [done | split; [simpl; lia | done]]]. split; [split; [exact K1 | split; [exact K2 | exact (eq_trans K4 He)]] |].
  exact E1.
Qed.

Ltac read_item Rd Hat Hat' Ty :=
  let t1 := fresh "t" in let E := fresh "E" in
  match goal with |- context [chk ?r ?k ?t] =>
    destruct (chk_ok r _ _ _ k t _ Rd Hat) as (t1 & E & Hat' & Ty & _);
      [first [apply zlen_nonneg | assumption | idtac] | rewrite E; clear E; cbn beta iota zeta]
  end.

Lemma Check_header t height locals extra :
  at_item t (pickle_header height locals ++ extra) ->
  0 <= height <= MAX_VALID_INT -> 0 <= locals <= MAX_VALID_INT ->
  exists t', PickleCheckWorker_Run gz t = Some (C_Ok height locals, t') /\ at_item t' extra /\ is_type t' = is_type t.
Proof.
  change MAX_VALID_INT with (2 ^ 30 - 1). intros Ht Hh Hl. unfold pickle_header in Ht. rewrite <- !app_assoc in Ht.
  pose proof (uint_enc_zlen locals ltac:(lia)) as Lz. pose proof (zlen_nonneg extra).
  pose proof (reads_bytes (G := G) magic ltac:(done)) as Rm. change (zlen magic) with 4 in Rm. unfold PickleCheckWorker_Run.
  change MAX_VALID_INT with (2 ^ 30 - 1).
  read_item Rm Ht H1 T1.
  { rewrite zlen_app. change (zlen (uint_enc majorVersion)) with 1.
    pose proof (zlen_nonneg (uint_enc minorVersion ++ [Tag.INIT] ++ uint_enc height ++ uint_enc locals ++ extra)). lia. }
  change (magic_ok magic) with true. cbn iota.
  read_item (reads_uint (G := G) majorVersion ltac:(done)) H1 H2 T2.
  change (majorVersion =? majorVersion) with true. cbn iota.
  read_item (reads_uint (G := G) minorVersion ltac:(done)) H2 H3 T3.
  change (minorVersion <=? minorVersion) with true. cbn iota.
  read_item (reads_byte (G := G) Tag.INIT) H3 H4 T4. change (Tag.INIT =? Tag.INIT) with true. cbn iota.
  read_item (reads_uint (G := G) height ltac:(lia)) H4 H5 T5. rewrite (proj2 (Z.ltb_ge (2 ^ 30 - 1) height)) by lia.
  match goal with |- context [IsEOF gz ?t5] => set (t6 := t5) in *; assert (Heof : IsEOF gz t6 = (false, t6)) end.
  { pose proof H5 as ((Hok & Ehd & _) & Eu). pose proof (uncommitted_zlen _ Hok) as Hz. rewrite Eu, zlen_app in Hz.
    unfold IsEOF. rewrite (proj2 (Z.leb_gt _ _)) by lia. by destruct (is_type t6). }
  rewrite Heof. read_item (reads_uint (G := G) locals ltac:(lia)) H5 H6 T6.
  rewrite (proj2 (Z.ltb_ge (2 ^ 30 - 1) locals)) by lia.
  eexists. split; [reflexivity |]. split; [exact H6 |]. by rewrite T6, T5, T4, T3, T2, T1.
Qed.

End Header.

(** ** Packing *)

Section Packing.
Context `{Platform} (undef : Z) (wundef : word) {F : Type}.
Context (gzputc : F -> Z -> F) (gzwrite : F -> list Z -> F).
Context (GetAbstractRepresentation : store -> Z -> option Z * store).
Context (s : store) (g : gmap Z node) (x0 : word).
Hypothesis G : plain_graph s g x0.

Abbreviation run_pack := (Pack_run undef wundef gzputc gzwrite GetAbstractRepresentation).

(** An empty machine on a store. *)
Definition start (s0 : store) : machine := mkMachine s0 ∅ [] 0.

(** The stores add at most six bytes each. *)
Lemma weave_zlen p items : Forall good_instr (weave items) ->
  zlen (enc_code (weave items)) <= zlen (enc_code (code items)) + 6 * zlen (stores p items).
Proof.
  revert p. induction items as [| [ins o] items IH]; intros p Hg; [done |].
  change (weave ((ins, o) :: items)) with (weave1 (ins, o) ++ weave items) in Hg |- *. apply Forall_app in Hg as [Hi Hg].
  rewrite enc_code_app, enc_code_item, !zlen_app. cbn [stores fst snd]. rewrite zlen_app. specialize (IH (p + zlen (enc ins)) Hg).
  destruct o as [k |]; unfold weave1; cbn [fst snd]; rewrite !enc_code_cons, enc_code_nil, ?app_nil_r, ?zlen_app.
  - apply Forall_cons in Hi as [_ Hi]. apply Forall_cons in Hi as [[Hk _] _].
    change (enc (I_STORE k)) with (Tag.STORE :: uint_enc k). rewrite zlen_cons. pose proof (uint_enc_zlen k Hk).
    change (zlen [(p + zlen (enc ins), k)]) with 1. lia.
  - change (zlen (@nil (Z * Z))) with 0. lia.
Qed.

Lemma stores_zlen items m0 m bs locs : code_inv wundef m0 items m bs locs -> zlen (stores 0 items) <= zlen locs.
Proof.
  intros HC. unfold zlen. rewrite <- (c_stores _ _ _ _ _ _ HC). pose proof (length_filter (fun p => 0 < p.1) locs). lia.
Qed.

(** What the pickle of a graph contains: the code of a machine that copies it. *)
Definition pickle_of (s0 : store) (bs : list Z) : Prop :=
  exists items phi m locs n,
    bs = pickle_bytes (a_max m) (zlen locs + 1) (weave items) /\
    0 <= a_max m <= GRAPH_MAX /\ 2 * zlen locs <= GRAPH_MAX /\
    code_inv wundef (start s0) items m (enc_code (code items)) locs /\
    exists sn, graph_inv wundef g x0 (start s0) items phi m [x0] [] sn n.

(** A stream that appends bytes appends integers. *)
Lemma append_uint (R : OutputStream F -> list Z -> Prop) :
  (forall os bs b, R os bs -> zlen bs < STREAM_MAX -> is_byte b ->
     exists os', PutByte undef gzputc os b = Some os' /\ R os' (bs ++ [b])) ->
  forall os bs i, R os bs -> 0 <= i < 2 ^ 31 -> zlen bs + 5 <= STREAM_MAX ->
    exists os', PutUInt undef gzputc os i = Some os' /\ R os' (bs ++ uint_enc i).
Proof.
  intros R_byte os bs i Hos Hi Hlim. unfold PutUInt. rewrite (proj2 (CanPickle_spec i)) by done.
  pose proof (uint_enc_zlen i Hi). unfold uint_enc in *.
  apply (put_uint_loop_ok _ _ STREAM_MAX); [apply R_byte | simpl; lia | done | lia].
Qed.

(** What a run of the pickle worker leaves to be written, to a stream that
    appends. *)
Lemma pickled stream (R : OutputStream F -> list Z -> Prop) s0 :
  (forall os bs b, R os bs -> zlen bs < STREAM_MAX -> is_byte b ->
     exists os', PutByte undef gzputc os b = Some os' /\ R os' (bs ++ [b])) ->
  (forall os bs buf k, R os bs -> 0 <= k <= zlen buf -> zlen bs + k <= STREAM_MAX ->
     exists os', PutBytes undef gzwrite os buf k = Some os' /\ R os' (bs ++ ztake k buf)) ->
  R stream [] ->
  exists pa n pa' os bs, PickleArgs_New undef wundef stream x0 = Some pa /\
    (forall fuel, (n <= fuel)%nat ->
      PickleWorker_Run undef wundef GetAbstractRepresentation fuel s pa = Some (P_Done pa')) /\
    pa_transient pa' = false /\
    WriteToStream undef gzputc gzwrite (pa_max pa') (pa_buffer pa') (pa_stream pa') = Some os /\
    R os bs /\ pickle_of s0 bs.
Proof.
  intros R_byte R_bytes HR0. pose proof (append_uint R R_byte) as R_uint.
  destruct (PickleArgs_New_ok undef wundef stream x0) as (pa & Epa & HR). set (n := Z.to_nat GRAPH_MAX).
  destruct (rounds_end undef wundef GetAbstractRepresentation stream s g x0 G
    (start s0) eq_refl eq_refl eq_refl pa _ [] ∅ (start s0) [] n HR)
    as (pa' & q & items & phi & m & Ef & HR' & HP & Hrun).
  - apply (pickling_init wundef s g x0 G); done.
  - unfold pot, budget. cbn [q_frames q_seen]. rewrite unseen_empty. pose proof (pg_size _ _ _ G).
    unfold n, GRAPH_MAX in *. simpl. change (frame_cost (x0, false)) with 32. lia.
  - destruct HP as [HC HG Hc Hm Hb Hh Hlc Htop]. rewrite Ef in HG. pose proof (c_code _ _ _ _ _ _ HC) as Ec.
    pose proof (pr_buffer _ _ _ _ HR') as HB. rewrite Ec in HB, HC.
    assert (Hbz : 0 <= zlen (q_bytes q) <= GRAPH_MAX).
    { split; [apply zlen_nonneg |]. unfold pot, budget in Hb. pose proof (weight_nonneg (unseen g (q_seen q))).
      pose proof (frames_cost_zlen (q_frames q)). pose proof (zlen_nonneg (q_frames q)). lia. }
    pose proof (zlen_nonneg (q_locs q)). pose proof (weave_zlen 0 items (c_good _ _ _ _ _ _ HC)) as Hw.
    pose proof (stores_zlen _ _ _ _ _ HC) as Hsz. rewrite Ec in Hbz, Hlc. unfold GRAPH_MAX in *.
    destruct (WriteToStream_ok undef gzputc gzwrite R R_byte R_bytes R_uint) with (height := q_max q) (obf := pa_buffer pa')
      (items := items) (locs := q_locs q) (os := stream) as (os & Ew & HO);
      try (by apply HC); try done; try (unfold u31, STREAM_MAX; lia).
    exists pa, n, pa', os, (pickle_bytes (q_max q) (zlen (q_locs q) + 1) (weave items)).
    split; [done |]. split; [exact Hrun |]. split; [apply (pr_transient _ _ _ _ HR') |].
    split; [by rewrite (pr_max _ _ _ _ HR'), (pr_stream _ _ _ _ HR') |]. split; [exact HO |].
    exists items, phi, m, (q_locs q), (zlen (q_locs q)). rewrite <- Hm. unfold GRAPH_MAX.
    split; [done |]. split; [lia |]. split; [lia |]. split; [done |]. by exists (q_seen q).
Qed.

Definition string_rep (os : OutputStream F) (bs : list Z) : Prop :=
  match os with STRING_OUTPUT_STREAM s => SOS_rep s bs | FILE_OUTPUT_STREAM _ => False end.

Lemma string_byte os bs b : string_rep os bs -> zlen bs < STREAM_MAX -> is_byte b ->
  exists os', PutByte undef gzputc os b = Some os' /\ string_rep os' (bs ++ [b]).
Proof.
  destruct os as [f | os]; [done |]. intros Hos Hlim _. destruct (SOS_PutByte_ok undef os bs b Hos Hlim) as (os' & E & Hos').
  exists (STRING_OUTPUT_STREAM os'). simpl. by rewrite E.
Qed.

Lemma string_bytes os bs buf k : string_rep os bs -> 0 <= k <= zlen buf -> zlen bs + k <= STREAM_MAX ->
  exists os', PutBytes undef gzwrite os buf k = Some os' /\ string_rep os' (bs ++ ztake k buf).
Proof.
  destruct os as [f | os]; [done |]. intros Hos Hk Hlim.
  destruct (SOS_PutBytes_ok undef os bs buf k Hos Hk Hlim) as (os' & E & Hos').
  exists (STRING_OUTPUT_STREAM os'). simpl. by rewrite E.
Qed.

(** The string of a pickle: its bytes come first. *)
Definition string_holds (str : Chunk) (bs : list Z) : Prop :=
  c_size str = zlen (c_bytes str) /\ c_size str <= 2 * STREAM_MAX /\ exists rest, c_bytes str = bs ++ rest.

Lemma Pack_run_ok s0 : exists str n bs, string_holds str bs /\ pickle_of s0 bs /\
  forall fuel, (n <= fuel)%nat -> run_pack fuel s x0 = Some (inr (S_Packed str)).
Proof.
  destruct (pickled (STRING_OUTPUT_STREAM (SOS_New undef)) string_rep s0 string_byte string_bytes)
    as (pa & n & pa' & os & bs & Epa & Hrun & Ht & Ew & HO & HP); [apply SOS_New_rep |].
  destruct os as [f | os]; [done |]. destruct HO as (Hp & Hs & Hlt & Hmin & Hcs & rest & Ebytes).
  exists (SOS_Close os), n, bs. split; [| split; [exact HP |]].
  - split; [simpl; lia |]. split; [simpl; lia |]. by exists rest.
  - intros fuel Hfuel. unfold Pack_run, Pack. rewrite Epa. cbn [mbind option_bind]. rewrite Hrun by done.
    cbn [mbind option_bind]. unfold PicklePackWorker_Run. by rewrite Ht, Ew.
Qed.

End Packing.

(** ** Unpacking *)

Section Unpacking.
Context `{Platform} (undef : Z) (wundef : word) (char_signed : bool) {G : Type} (gz : gz_ops G).
Context (handlerTable : gmap (list Z) (store -> word -> option (word * store))).
Context (g : gmap Z node) (x0 : word) (s0 : store).

(** A copy of the graph at new addresses in a store. *)
Record graph_copy (phi : gmap Z Z) (w : word) (s : store) : Prop := {
  gc_root : word_copy phi x0 w;
  gc_nodes : forall v b, phi !! v = Some b -> st_next s0 <= b /\
    exists n n', g !! v = Some n /\ node_copy phi n n' /\ st_get s b = Some n';
  gc_inj : forall v v' b, phi !! v = Some b -> phi !! v' = Some b -> v = v';
  gc_old : forall a, a < st_next s0 -> st_get s a = st_get s0 a
}.

Lemma graph_inv_copy items phi m sn n : graph_inv wundef g x0 (start s0) items phi m [x0] [] sn n ->
  exists w, a_stack m = [w] /\ graph_copy phi w (a_store m).
Proof.
  intros HG. destruct (Forall2_cons_inv_l _ _ _ _ (g_stack _ _ _ _ _ _ _ _ _ _ _ HG)) as (w & ws & Hw & Hn & Es).
  apply Forall2_nil_inv_l in Hn as ->. exists w. split; [done |]. split.
  - done.
  - intros v b Hv. destruct (g_phi _ _ _ _ _ _ _ _ _ _ _ HG v b Hv) as ([Hb _] & _ & nd & Hg & Hc).
    split; [done |]. destruct (decide (v ∈ opens [])) as [Hin | _]; [by apply not_elem_of_nil in Hin |].
    destruct Hc as (n' & Hc & Hs). by exists nd, n'.
  - apply (g_inj _ _ _ _ _ _ _ _ _ _ _ HG).
  - apply (g_old _ _ _ _ _ _ _ _ _ _ _ HG).
Qed.

(** The frame of the unpickler after the code of a pickle. *)
Lemma run_pickle items m locs (t : InputStream G) unique w :
  code_inv wundef (start s0) items m (enc_code (code items)) locs -> a_stack m = [w] ->
  2 * zlen locs <= GRAPH_MAX -> 0 <= a_max m <= GRAPH_MAX ->
  exists u, exec_all wundef char_signed handlerTable
      (mkUnpickler s0 t (Frame_New (a_max m) (zlen locs + 1)) unique []) (weave items ++ [I_STORE 0]) = Some u /\
    un_store u = a_store m /\ exec wundef char_signed handlerTable u I_ENDOFSTREAM = Some (E_result w).
Proof.
  intros HC Es Hl Hm. unfold GRAPH_MAX in *. pose proof (zlen_nonneg locs).
  assert (Hfree : a_locals m !! 0 = None).
  { eapply m_run_locals; [apply HC | | done]. eapply Forall_impl; [apply HC |].
    intros i Hi E. specialize (Hi 0 E). lia. }
  assert (Hv : zlen locs + 1 <= MAX_VALID_INT) by (change MAX_VALID_INT with (2 ^ 30 - 1); lia).
  destruct (run_refines wundef char_signed (G := G) handlerTable (a_max m) (zlen locs + 1) Hv (weave items ++ [I_STORE 0])
    (start s0) (set_local m 0 w) (mkUnpickler s0 t (Frame_New (a_max m) (zlen locs + 1)) unique []))
    as (u & Eu & [Est HF]).
  - split; [done |]. apply Frame_New_rep; lia.
  - rewrite m_run_app, (c_run _ _ _ _ _ _ HC). simpl. by rewrite Es, Hfree.
  - done.
  - done.
  - apply Forall_app. split; [| apply Forall_singleton; unfold addr_ok; simpl; lia].
    eapply Forall_impl; [apply (c_local _ _ _ _ _ _ HC) |]. intros i Hi. unfold addr_ok.
    destruct (instr_local i) as [k |] eqn:E; [| done]. specialize (Hi k E). lia.
  - exists u. split; [done |]. split; [done |]. cbn [exec].
    rewrite (Frame_Load_ok _ _ _ _ _ (un_store u) 0 w HF); [done | lia | apply lookup_insert_eq | by left].
Qed.

(** The stream holds a pickle whose header is in the buffer. *)
Variable remaining : G -> list Z.

Definition HEADER_MAX : Z := 17.

Lemma Unpickle_ok bs rest (t : InputStream G) unique : pickle_of wundef g x0 s0 bs ->
  source_ok t -> view remaining t = bs ++ rest -> HEADER_MAX <= zlen (uncommitted t) \/ file_data remaining t = [] ->
  (is_file t -> gzread_ok gz remaining) ->
  exists n u w phi h l t1, graph_copy phi w (un_store u) /\
    (forall fuel, Check_Run undef gz (S fuel) t = Some (inl (h, l), t1)) /\
    forall fuel status, (n <= fuel)%nat -> UnpickleWorker_Run undef wundef char_signed gz handlerTable fuel status
      (mkUnpickler s0 t1 (Frame_New h l) unique []) = Some (U_Done w u).
Proof.
  intros (items & phi & m & locs & nv & -> & Hm & Hl & HC & sn & HG) Hsrc0 Hv Hbuf Hgz.
  destruct (graph_inv_copy _ _ _ _ _ HG) as (w & Es & Hcopy).
  pose proof (zlen_nonneg locs) as Hl0. unfold GRAPH_MAX, HEADER_MAX in *.
  assert (Hh : zlen (pickle_header (a_max m) (zlen locs + 1)) <= 17).
  { unfold pickle_header. rewrite !zlen_app. pose proof (uint_enc_zlen (a_max m) ltac:(lia)).
    pose proof (uint_enc_zlen (zlen locs + 1) ltac:(lia)). change (zlen magic) with 4. change (zlen [Tag.INIT]) with 1.
    change (zlen (uint_enc majorVersion)) with 1. change (zlen (uint_enc minorVersion)) with 1. lia. }
  unfold pickle_bytes in Hv. rewrite <- app_assoc in Hv. unfold InputStream.view in Hv.
  assert (Hx : exists x, uncommitted t = pickle_header (a_max m) (zlen locs + 1) ++ x /\
    enc_code (weave items ++ [I_STORE 0; I_ENDOFSTREAM]) ++ rest = x ++ file_data remaining t).
  { destruct Hbuf as [Hbuf | Hbuf].
    - by apply (app_prefix _ _ _ _ Hv); lia.
    - rewrite Hbuf in *. eexists. split; [by rewrite app_nil_r in Hv | by rewrite app_nil_r]. }
  destruct Hx as (x & Eu0 & Ex).
  destruct (Check_header gz t (a_max m) (zlen locs + 1) x (conj Hsrc0 Eu0)) as (t1 & Ech & [Hsrc Eu] & Ety);
    try (change MAX_VALID_INT with (2 ^ 30 - 1); lia).
  destruct (run_pickle items m locs t1 unique w HC Es) as (u & Eex & Est & Een); [unfold GRAPH_MAX; lia .. |].
  pose proof (c_good _ _ _ _ _ _ HC) as Hg.
  destruct (Run_code undef wundef char_signed gz handlerTable remaining (weave items ++ [I_STORE 0])
    (mkUnpickler s0 t1 (Frame_New (a_max m) (zlen locs + 1)) unique []) u w rest) as (n & t2 & Hrun).
  - apply Forall_app. split; [by eapply Forall_impl; [exact Hg |]; intros i [? _] | by apply Forall_singleton].
  - apply Forall_app. split; [by eapply Forall_impl; [exact Hg |]; intros i [_ ?] | by apply Forall_singleton].
  - exact Hsrc.
  - unfold InputStream.view, file_data in *. simpl. rewrite Eu, Ety, <- Ex. by rewrite <- app_assoc.
  - exact Eex.
  - exact Een.
  - intros Hf. apply Hgz. destruct Hf as (gf & key & Hf). simpl in Hf. exists gf, key. by rewrite <- Ety.
  - exists n, (with_stream u t2), w, phi, (a_max m), (zlen locs + 1), t1. split; [by simpl; rewrite Est |]. split.
    + intros fuel. cbn [Check_Run]. by rewrite Ech.
    + intros fuel status Hfuel. replace fuel with (n + (fuel - n))%nat by lia. apply Hrun.
Qed.

End Unpacking.

(** ** Properties *)

Section Properties.
Context `{Platform} (undef undef' : Z) (wundef : word) {F G : Type}.
Context (gzputc : F -> Z -> F) (gzwrite : F -> list Z -> F) (gz : gz_ops G) (char_signed : bool).
Context (GetAbstractRepresentation : store -> Z -> option Z * store).
Context (handlerTable : gmap (list Z) (store -> word -> option (word * store))).

(** C5. Packing and unpacking copies a graph: [Pickler::Pack] of any graph of
    integers, blocks and chunks - with sharing and cycles, up to a size -
    ends with a string, and [Unpickler::Unpack] of the string, into any store
    and whenever it is preempted, ends with a word that is the root of a copy
    of the graph: sharing and cycles are those of the original, the copies are
    new nodes, and the nodes the store had before are unchanged. *)
Theorem pack_unpack_copies (s : store) (g : gmap Z node) (x0 : word) :
  plain_graph s g x0 ->
  exists str np,
    (forall fuel, (np <= fuel)%nat ->
       Pack_run undef wundef gzputc gzwrite GetAbstractRepresentation fuel s x0 = Some (inr (S_Packed str))) /\
    forall s0 unique, exists nu u w phi,
      (forall fuel status, (nu <= fuel)%nat ->
         Unpack undef' wundef char_signed gz handlerTable fuel status s0 unique str = Some (inl (U_Done w u))) /\
      graph_copy g x0 s0 phi w (un_store u).
Proof.
  intros HG. pose proof (Pack_run_ok undef wundef gzputc gzwrite GetAbstractRepresentation s g x0 HG) as Hpack.
  destruct (Hpack (mkStore 0 ∅)) as (str & np & _ & _ & _ & Hstr). exists str, np. split; [exact Hstr |]. intros s0 unique.
  destruct (Hpack s0) as (str' & np' & bs & (Hcs & Hsz & rest & Eb) & Hp & Hstr').
  specialize (Hstr (np `max` np')%nat ltac:(lia)). rewrite Hstr' in Hstr by lia. injection Hstr as ->.
  pose proof (zlen_nonneg (c_bytes str)). unfold STREAM_MAX in *.
  destruct (Unpickle_ok undef' wundef char_signed gz handlerTable g x0 s0 (fun _ => []) bs rest (NewFromString str) unique Hp)
    as (nu & u & w & phi & h & l & t1 & Hc & Hck & Hun).
  - split; [constructor; simpl; unfold IS_MAX; lia | done].
  - unfold view, uncommitted, file_data, zseg; simpl. rewrite zdrop_0, Z.sub_0_r, app_nil_r, Hcs, <- Eb. apply ztake_all. lia.
  - by right.
  - by intros (gf & key & ?).
  - exists (S nu), u, w, phi. split; [| exact Hc]. intros [| fuel] status Hfuel; [lia |].
    unfold Unpack, Unpickle. rewrite Hck. cbn [mbind option_bind]. by rewrite Hun by lia.
Qed.

(** Saving and loading through a compressed file: the documented behaviour of
    the zlib functions. *)
Section Files.
Context (gzclose : F -> F) (written : F -> list Z) (remaining : G -> list Z).
Hypothesis gzputc_appends : forall f b, written (gzputc f b) = written f ++ [b].
Hypothesis gzwrite_appends : forall f bs, written (gzwrite f bs) = written f ++ bs.
Hypothesis gzclose_keeps : forall f, written (gzclose f) = written f.
Hypothesis gzread_reads : forall f n, 0 < n <= UINT_MAX ->
  let '(k, data, f') := gzread gz f n in
  k = Z.min n (zlen (remaining f)) /\ data = ztake k (remaining f) /\ remaining f' = zdrop k (remaining f).

Lemma gzread_is_ok : gzread_ok gz remaining.
Proof.
  intros f n Hn. pose proof (gzread_reads f n Hn) as Hr. destruct (gzread gz f n) as [[k data] f'].
  destruct Hr as (-> & -> & ->). pose proof (zlen_nonneg (remaining f)). split; [by rewrite ztake_zdrop |].
  split; [rewrite zlen_ztake; lia |]. split; [lia |]. intros Hne E. apply (f_equal zlen) in E. rewrite zlen_ztake in E by lia.
  change (zlen (@nil Z)) with 0 in E. apply Hne, zlen_0_nil. lia.
Qed.

(** The first read from a new stream fails; filling gets what fits the buffer. *)
Lemma fill_new f fs : remaining f <> [] ->
  exists t1 t2, PickleCheckWorker_Run gz (NewFromFile undef' f fs).1 = Some (C_Input, t1) /\
    FillBuffer undef' gz t1 = Some (Fill_CONTINUE, t2) /\ source_ok t2 /\ view remaining t2 = remaining f /\
    (HEADER_MAX <= zlen (uncommitted t2) \/ file_data remaining t2 = []).
Proof.
  intros Hne. assert (Hr : 0 < zlen (remaining f)).
  { pose proof (zlen_nonneg (remaining f)). destruct (decide (zlen (remaining f) = 0)) as [E | ?]; [| lia].
    by apply zlen_0_nil in E. }
  set (n := READ_BUFFER_SIZE + READ_BUFFER_OVERSHOOT). set (buf := AllocMutableChunk n (fresh undef' n)).
  set (t1 := mkInputStream 0 0 0 true buf (FILE_INPUT_STREAM f (fs_keyCounter fs))).
  exists t1. assert (Hn : n = 8212) by done.
  pose proof (gzread_reads f n ltac:(rewrite Hn; unfold UINT_MAX; lia)) as Hg.
  destruct (gzread gz f n) as [[k data] f'] eqn:Eg. destruct Hg as (Ek & Ed & Ef').
  destruct (zsplit (fresh undef' n) k) as (o & q & Eo & Ho); [rewrite zlen_fresh by lia; lia |].
  assert (Hz : zlen data = k) by (rewrite Ed, zlen_ztake; lia).
  assert (Em : make_room undef' t1 = Some (t1, 0, 0, n)).
  { unfold make_room. change (is_hd t1) with 0. change (is_tl t1) with 0. change (c_size (is_buffer t1)) with n.
    change (0 <? 0) with false. rewrite (proj2 (Z.eqb_neq 0 n)) by lia. by rewrite Z.sub_0_r. }
  eexists. split.
  { unfold PickleCheckWorker_Run, chk, checked, ReadBytes, GetBytes. simpl. rewrite u_int_id32 by lia. reflexivity. }
  split.
  { unfold FillBuffer. rewrite Em. cbn [is_type t1 mbind option_bind].
    destruct (Z.ltb_spec UINT_MAX n) as [Hbad | _]; [unfold UINT_MAX in Hbad; lia |].
    rewrite Eg. destruct (Z.ltb_spec k 0); [lia |]. destruct (Z.eqb_spec k 0); [lia |].
    cbn [is_buffer is_hd t1 SetRd SetEOB SetType c_bytes buf AllocMutableChunk AllocChunk].
    rewrite Eo, (blit_append data _ _ _ [] o q) by (done || lia). cbn [mbind option_bind app]. rewrite (ztake_all data k) by lia. reflexivity. }
  assert (Hc : zlen (data ++ q) = n).
  { pose proof (zlen_fresh undef' n ltac:(lia)) as Hl. rewrite Eo in Hl. rewrite zlen_app in *. lia. }
  unfold HEADER_MAX. split; [split; [constructor; simpl; unfold IS_MAX; lia | done] |].
  assert (Hu : forall fin, uncommitted (SetTl (SetBuffer (SetType (SetEOB (SetRd t1 0) false) fin) (set_bytes buf (data ++ q))) (0 + k)) = data).
  { intros fin. unfold uncommitted, zseg; simpl. rewrite zdrop_0, Z.sub_0_r. by apply ztake_pieces. }
  cbn [is_hd t1]. unfold view. rewrite Hu. unfold file_data; simpl. rewrite Ef', Ed, ztake_zdrop. split; [done |].
  rewrite zlen_ztake by lia. destruct (decide (17 <= k)); [by left | right]. apply zdrop_all. lia.
Qed.

(** The file as an output stream. *)
Definition file_rep (os : OutputStream F) (bs : list Z) : Prop :=
  match os with FILE_OUTPUT_STREAM s => written (fo_file s) = bs | STRING_OUTPUT_STREAM _ => False end.

Lemma file_byte os bs b : file_rep os bs -> zlen bs < STREAM_MAX -> is_byte b ->
  exists os', PutByte undef gzputc os b = Some os' /\ file_rep os' (bs ++ [b]).
Proof.
  destruct os as [f | os]; [| done]. intros Hf _ _. eexists. split; [done |]. simpl in *. by rewrite gzputc_appends, Hf.
Qed.

Lemma file_bytes os bs buf k : file_rep os bs -> 0 <= k <= zlen buf -> zlen bs + k <= STREAM_MAX ->
  exists os', PutBytes undef gzwrite os buf k = Some os' /\ file_rep os' (bs ++ ztake k buf).
Proof.
  destruct os as [f | os]; [| done]. intros Hf Hk Hlim. pose proof (zlen_nonneg bs). unfold STREAM_MAX in Hlim.
  simpl in *. unfold FOS_PutBytes, UINT_MAX. destruct (Z.ltb_spec (2 ^ 32 - 1) k); [lia |].
  destruct (Z.ltb_spec (zlen buf) k); [lia |]. eexists. split; [done |]. simpl. by rewrite gzwrite_appends, Hf.
Qed.

(** C8. Saving and loading copies a graph, as packing and unpacking does: when
    [Pickler::Save] has written the graph to a new file, [Unpickler::Load] of a
    file with these contents ends with the root of a copy of the graph. *)
Theorem save_load_copies (s : store) (g : gmap Z node) (x0 : word) (file : F) fs :
  plain_graph s g x0 -> written file = [] ->
  exists file' fs' np,
    (forall fuel, (np <= fuel)%nat -> Save_run undef wundef gzputc gzwrite gzclose GetAbstractRepresentation fuel s file fs x0 =
       Some (inr (S_Saved file' fs'))) /\
    forall f fsi s0 unique, remaining f = written file' -> exists nu u w phi fsi',
      (forall fuel status, (nu <= fuel)%nat ->
         Load undef' wundef char_signed gz handlerTable fuel status s0 unique f fsi = Some (inl (U_Done w u), fsi')) /\
      graph_copy g x0 s0 phi w (un_store u).
Proof.
  intros HG Hnew.
  pose proof (fun s0 => pickled undef wundef gzputc gzwrite GetAbstractRepresentation s g x0 HG
    (FILE_OUTPUT_STREAM (FOS_New file fs).1) file_rep s0 file_byte file_bytes Hnew) as Hp.
  destruct (Hp (mkStore 0 ∅)) as (pa & np & pa' & os & bs & Epa & Hrun & Ht & Ew & HO & _).
  destruct os as [fo | ?]; [| done]. exists (gzclose (fo_file fo)), (Unregister (FOS_New file fs).2 (fo_key fo)), np. split.
  { intros fuel Hfuel. unfold Save_run. unfold FOS_New in Epa |- *. destruct (Register fs file) as [fs1 key].
    cbn [fst] in Epa. rewrite Epa. cbn [mbind option_bind]. rewrite Hrun by done. cbn [mbind option_bind].
    unfold PickleSaveWorker_Run. by rewrite Ht, Ew. }
  intros f fsi s0 unique Hf. rewrite gzclose_keeps, HO in Hf.
  destruct (Hp s0) as (pa1 & np1 & pa1' & os1 & bs1 & Epa1 & Hrun1 & _ & Ew1 & HO1 & Hpk).
  rewrite Epa in Epa1. injection Epa1 as <-. specialize (Hrun (np `max` np1)%nat ltac:(lia)).
  rewrite Hrun1 in Hrun by lia. injection Hrun as ->. rewrite Ew in Ew1. injection Ew1 as <-.
  assert (bs1 = bs) as -> by (simpl in HO, HO1; by rewrite <- HO, <- HO1).
  destruct (fill_new f fsi) as (t1 & t2 & Ec & Efill & Hsrc & Hv & Hbuf).
  { rewrite Hf. destruct Hpk as (? & ? & ? & ? & ? & -> & _). done. }
  rewrite Hf, <- (app_nil_r bs) in Hv.
  destruct (Unpickle_ok undef' wundef char_signed gz handlerTable g x0 s0 remaining bs [] t2 unique Hpk Hsrc Hv Hbuf)
    as (nu & u & w & phi & h & l & t3 & Hc & Hck & Hun); [intros _; apply gzread_is_ok |].
  unfold Load, PickleLoadWorker_Run. destruct (NewFromFile undef' f fsi) as [t0 fs1] eqn:Et0. cbn [fst] in Ec.
  destruct (IS_Close gz (un_stream u) fs1) as [t4 fs4] eqn:E4.
  exists (S (S nu)), (with_stream u t4), w, phi, fs4. split; [| exact Hc].
  intros [| [| fuel]] status Hfuel; [lia | lia |]. unfold Unpickle.
  change (Check_Run undef' gz (S (S fuel)) t0) with ('(r, t) ← PickleCheckWorker_Run gz t0;
    match r with
    | C_Ok stackSize localsSize => Some (inl (stackSize, localsSize), t)
    | C_Corrupt => Some (inr Corrupt, t)
    | C_Input =>
        '(res, t) ← FillBuffer undef' gz t;
        match res with Fill_CONTINUE => Check_Run undef' gz (S fuel) t | Fill_RAISE e => Some (inr e, t) end
    end).
  rewrite Ec. cbn [mbind option_bind]. rewrite Efill. cbn [mbind option_bind]. rewrite Hck. cbn [mbind option_bind].
  rewrite Hun by lia. simpl. by rewrite E4.
Qed.

End Files.

End Properties.

(** *** A graph with sharing and a cycle *)

(** A tuple that refers to itself, twice to a string, and to an integer. *)
Definition sample_graph : gmap Z node :=
  {[ 1 := NBlock TUPLE_LABEL false [WPtr 2; WInt (-7); WPtr 1; WPtr 2]; 2 := NChunk false [104; 105] ]}.
Definition sample_store : store := mkStore 3 sample_graph.

#[local] Existing Instance P32.

Lemma sample_plain : plain_graph sample_store sample_graph (WPtr 1).
Proof.
  split.
  - done.
  - intros v n Hv. unfold sample_graph in Hv. apply lookup_insert_Some in Hv as [[<- <-] | [_ Hv]].
    + split; [vm_compute; split_and!; discriminate || done |]. split; [done |]. split.
      * repeat constructor; vm_compute; discriminate || by eexists.
      * split; [done | done].
    + by apply lookup_singleton_Some in Hv as [<- <-].
  - by eexists.
  - vm_compute. discriminate.
Qed.

Definition no_transform (s : store) (v : Z) : option Z * store := (None, s).

Abbreviation sample_pack := (@Pack_run P32 0 (WInt 0) (list Z) (fun f b => f ++ [b]) (fun f bs => f ++ bs) no_transform).
Abbreviation sample_unpack := (@Unpack P32 0 (WInt 0) true (list Z) (list_gz 1) ∅).

Lemma pack_unpack_copies_witness :
  exists str np nu u w phi, sample_pack np sample_store (WPtr 1) = Some (inr (S_Packed str)) /\
    sample_unpack nu (fun _ => true) (mkStore 10 ∅) ∅ str = Some (inl (U_Done w u)) /\
    graph_copy sample_graph (WPtr 1) (mkStore 10 ∅) phi w (un_store u).
Proof.
  destruct (@pack_unpack_copies P32 0 0 (WInt 0) (list Z) (list Z) (fun f b => f ++ [b]) (fun f bs => f ++ bs) (list_gz 1) true
    no_transform ∅ sample_store sample_graph (WPtr 1) sample_plain) as (str & np & Hp & Hu).
  destruct (Hu (mkStore 10 ∅) ∅) as (nu & u & w & phi & Hr & Hc).
  exists str, np, nu, u, w, phi. split; [by apply Hp | split; [by apply Hr | exact Hc]].
Defined.

Abbreviation sample_save := (@Save_run P32 0 (WInt 0) (list Z) (fun f b => f ++ [b]) (fun f bs => f ++ bs) id no_transform).
Abbreviation sample_load := (@Load P32 0 (WInt 0) true (list Z) (list_gz (2 ^ 32)) ∅).

Lemma save_load_copies_witness :
  exists file fs np nu u w phi fsi, sample_save np sample_store [] FinalizationSet_New (WPtr 1) = Some (inr (S_Saved file fs)) /\
    sample_load nu (fun _ => true) (mkStore 10 ∅) ∅ file FinalizationSet_New = Some (inl (U_Done w u), fsi) /\
    graph_copy sample_graph (WPtr 1) (mkStore 10 ∅) phi w (un_store u).
Proof.
  destruct (@save_load_copies P32 0 0 (WInt 0) (list Z) (list Z) (fun f b => f ++ [b]) (fun f bs => f ++ bs)
    (list_gz (2 ^ 32)) true no_transform ∅ id id id) with (s := sample_store) (g := sample_graph) (x0 := WPtr 1)
    (file := @nil Z) (fs := @FinalizationSet_New (list Z)) as (file & fs & np & Hs & Hl).
  - done.
  - done.
  - done.
  - intros f n [_ Hn]. unfold UINT_MAX in Hn. split; [| done]. pose proof (zlen_nonneg f). simpl. lia.
  - exact sample_plain.
  - done.
  - destruct (Hl file FinalizationSet_New (mkStore 10 ∅) ∅ eq_refl) as (nu & u & w & phi & fsi & Hr & Hc).
    exists file, fs, np, nu, u, w, phi, fsi. split; [by apply Hs | split; [by apply Hr | exact Hc]].
Defined.

(** The pickle of the sample: the header, the string stored in variable 2,
    the integer, the announced tuple in variable 1, the two uses and the end. *)
Example sample_pickle :
  match sample_pack 100 sample_store (WPtr 1) with Some (inr (S_Packed str)) => ztake 27 (c_bytes str) | _ => [] end =
  pickle_bytes 4 3 [I_CHUNK false [104; 105]; I_STORE 2; I_aTUPLE 4 1; I_NEGINT 6; I_LOAD 2; I_FULFILL 1].
Proof. vm_compute. reflexivity. Qed.
