(* ===== verification/AliceData.v ===== *)
(** * Alice values (alice/vm-seam/alice/Data.hh, Data.cc)

    The store as the Alice layer sees it - blocks, chunks, transients and
    concrete code at addresses - with the typed views of blocks, the equality
    of values and the selection from records.  [C] is the type of code.  The
    result [None] is a failed assertion or an access outside a block. *)

From S2P Require Import Prelude Config HeaderOp.

(** ** Words and nodes *)

Inductive word := WInt (i : Z) | WPtr (a : Z).

#[export] Instance word_eq_dec : EqDecision word.
Proof. solve_decision. Defined.

Inductive node (C : Type) :=
  | NBlock (l : Z) (mutable : bool) (args : list word)
  | NChunk (mutable : bool) (bytes : list Z)
  | NTransient (l : Z) (w : word)
  | NCode (c : C).
Arguments NBlock {C} _ _ _.
Arguments NChunk {C} _ _.
Arguments NTransient {C} _ _.
Arguments NCode {C} _.

Record store (C : Type) := mkStore { st_next : Z; st_nodes : gmap Z (node C) }.
Arguments mkStore {C} _ _.
Arguments st_next {C} _.
Arguments st_nodes {C} _.

(** ** Labels (class Alice) *)

Module Alice.
Definition Array : Z := MIN_DATA_LABEL.
Definition Promise : Z := MIN_DATA_LABEL + 1.
Definition Cell : Z := MIN_DATA_LABEL + 2.
Definition ConVal : Z := MIN_DATA_LABEL + 3.
Definition Record : Z := MIN_DATA_LABEL + 4.
Definition Vector : Z := MIN_DATA_LABEL + 5.
Definition BIG_TAG : Z := MIN_DATA_LABEL + 6.
Definition MIN_TAG : Z := MIN_DATA_LABEL + 7.
Definition MAX_TAG : Z := bl_MAX_DATA LABELS.
Definition IsTag (l : Z) : bool := (MIN_TAG <=? l) && (l <=? MAX_TAG).
Definition IsBigTagVal (nLabels : Z) : bool := MAX_TAG <? MIN_TAG + nLabels.
Definition TagToLabel (l : Z) : option Z := if l <=? MAX_TAG - MIN_TAG then Some (MIN_TAG + l) else None.
Definition LabelToTag (l : Z) : option Z := if IsTag l then Some (l - MIN_TAG) else None.
End Alice.

Section Data.
Context `{Platform} {C : Type} (wundef : word).
Implicit Types (st : store C) (w : word) (a : Z).

(** ** The store *)

Definition st_get st a : option (node C) := st_nodes st !! a.
Definition st_set st a (n : node C) : store C := mkStore (st_next st) (<[a := n]> (st_nodes st)).
Definition st_alloc st (n : node C) : store C * Z := (mkStore (st_next st + 1) (<[st_next st := n]> (st_nodes st)), st_next st).

(** [PointerOp::Deref]; a chain visits every transient at most once. *)
Fixpoint deref_loop (fuel : nat) st w : option word :=
  match w with
  | WInt _ => Some w
  | WPtr a =>
      n ← st_get st a;
      match n with
      | NTransient l w' =>
          if l =? REF_LABEL then match fuel with O => None | S fuel => deref_loop fuel st w' end else Some w
      | _ => Some w
      end
  end.

Definition deref st w : option word := deref_loop (size (st_nodes st)) st w.

(** [Store::WordToInt], [WordToBlock], [WordToChunk] and [WordToTransient]; the
    inner [None] is [INVALID_INT] or [INVALID_POINTER]. *)
Definition WordToInt st w : option (option Z) :=
  w ← deref st w; Some (match w with WInt i => Some i | WPtr _ => None end).

Definition WordToBlock st w : option (option Z) :=
  w ← deref st w;
  match w with
  | WInt _ => Some None
  | WPtr a => n ← st_get st a; Some (match n with NTransient _ _ => None | _ => Some a end)
  end.

Definition WordToTransient st w : option (option Z) :=
  w ← deref st w;
  match w with
  | WInt _ => Some None
  | WPtr a => n ← st_get st a; Some (match n with NTransient _ _ => Some a | _ => None end)
  end.

Definition DirectWordToInt w : option Z := match w with WInt i => Some i | WPtr _ => None end.
Definition DirectWordToBlock st w : option Z :=
  match w with WPtr a => n ← st_get st a; match n with NTransient _ _ => None | _ => Some a end | WInt _ => None end.

(** ** Blocks (Value.hh) *)

Definition GetLabel st a : option Z :=
  n ← st_get st a;
  match n with
  | NBlock l _ _ => Some l
  | NChunk _ _ => Some CHUNK_LABEL
  | NCode _ => Some CONCRETE_LABEL
  | NTransient _ _ => None
  end.

Definition IsMutable st a : option bool :=
  n ← st_get st a;
  match n with NBlock _ m _ | NChunk m _ => Some m | NCode _ => Some true | NTransient _ _ => None end.

Definition GetArgs st a : option (list word) :=
  n ← st_get st a; match n with NBlock _ _ args => Some args | _ => None end.

Definition GetSize st a : option Z := args ← GetArgs st a; Some (zlen args).
Definition GetArg st a (i : Z) : option word := args ← GetArgs st a; aget args i.

Definition ReplaceArg st a (i : Z) w : option (store C) :=
  n ← st_get st a;
  match n with
  | NBlock l m args => args ← aset args i w; Some (st_set st a (NBlock l m args))
  | _ => None
  end.

(** A block of [size] words: the memory it occupies is rounded up. *)
Definition block_args (args : list word) : list word :=
  args ++ replicate (Z.to_nat (TranslateSize (zlen args) - zlen args)) wundef.

(** A new block with its first words initialised. *)
Definition AllocBlock st (l : Z) (args : list word) : store C * Z := st_alloc st (NBlock l false (block_args args)).
Definition AllocMutableBlock st (l : Z) (args : list word) : store C * Z := st_alloc st (NBlock l true (block_args args)).

(** ** Typed views *)

(** [FromWord] of the classes: the label of the block is asserted. *)
Definition from_word (ok : Z -> bool) st w : option (option Z) :=
  p ← WordToBlock st w;
  match p with
  | None => Some None
  | Some a => l ← GetLabel st a; if ok l then Some (Some a) else None
  end.

Definition from_word_direct (ok : Z -> bool) st w : option Z :=
  a ← DirectWordToBlock st w; l ← GetLabel st a; if ok l then Some a else None.

Definition is_label (k l : Z) : bool := l =? k.
Definition is_conval (l : Z) : bool := (l =? Alice.ConVal) || (l =? UNIQUESTRING_LABEL) || (l =? CONCRETE_LABEL).

Definition Tuple_FromWord st w := from_word (is_label TUPLE_LABEL) st w.
Definition Tuple_FromWordDirect st w := from_word_direct (is_label TUPLE_LABEL) st w.
Definition Cell_FromWord st w := from_word (is_label Alice.Cell) st w.
Definition Vector_FromWord st w := from_word (is_label Alice.Vector) st w.
Definition Record_FromWord st w := from_word (is_label Alice.Record) st w.
Definition TagVal_FromWord st w := from_word Alice.IsTag st w.
Definition BigTagVal_FromWord st w := from_word (is_label Alice.BIG_TAG) st w.
Definition ConVal_FromWord st w := from_word is_conval st w.

(** [Chunk], for strings and reals. *)
Definition Chunk_FromWord st w : option (option (list Z)) :=
  p ← WordToBlock st w;
  match p with
  | None => Some None
  | Some a => n ← st_get st a; match n with NChunk _ bs => Some (Some bs) | _ => None end
  end.

(** [AssertWidth] *)
Definition AssertWidth st a (n : Z) : option unit := s ← GetSize st a; if TranslateSize n =? s then Some tt else None.

(** The vector and the record without elements, which exist once. *)
Variables (emptyVector emptyRecord : Z).

Definition Tuple_New st (args : list word) := AllocBlock st TUPLE_LABEL args.
Definition Cell_New st w := AllocMutableBlock st Alice.Cell [w].
Definition Cell_Access st a : option word := GetArg st a 0.
Definition ConVal_New st (constructor : Z) (args : list word) := AllocBlock st Alice.ConVal (WPtr constructor :: args).
Definition ConVal_Sel st a (i : Z) : option word := GetArg st a (1 + i).
Definition GetConstructor st a : option Z := w ← GetArg st a 0; DirectWordToBlock st w.
Definition Vector_New st (args : list word) : store C * Z :=
  if zlen args =? 0 then (st, emptyVector) else AllocBlock st Alice.Vector (WInt (zlen args) :: args).
Definition Vector_GetLength st a : option Z := w ← GetArg st a 0; DirectWordToInt w.
Definition Vector_Sub st a (i : Z) : option word := GetArg st a (1 + i).
Definition TagVal_New st (tag : Z) (args : list word) : option (store C * Z) :=
  l ← Alice.TagToLabel tag; Some (AllocBlock st l args).
Definition TagVal_GetTag st a : option Z := l ← GetLabel st a; Alice.LabelToTag l.
Definition BigTagVal_New st (tag : Z) (args : list word) : store C * Z := AllocBlock st Alice.BIG_TAG (WInt tag :: args).
Definition BigTagVal_GetTag st a : option Z := w ← GetArg st a 0; DirectWordToInt w.

(** ** Records: open addressing by the hash of the label *)

Definition Hash st (label : Z) : option Z := w ← GetArg st label 1; i ← DirectWordToInt w; Some (u_int i).

(** [Record::New(n)]: the labels are 0 until they are initialised. *)
Definition Record_New st (n : Z) : store C * Z :=
  if n =? 0 then (st, emptyRecord) else
  AllocBlock st Alice.Record (WInt n :: concat (replicate (Z.to_nat n) [WInt 0; wundef])).

(** [Record::New(labels)] and the initialisation of the values. *)
Definition Record_NewLabels st (labels : list Z) (values : list word) : store C * Z :=
  if zlen labels =? 0 then (st, emptyRecord) else
  AllocBlock st Alice.Record (WInt (zlen labels) :: concat (zip_with (fun l v => [WPtr l; v]) labels values)).

(** [Record::Init] from slot [i]; [index] is the first one. *)
Fixpoint Init_loop (fuel : nat) st a (n index i : Z) (label : Z) w : option (store C) :=
  match fuel with
  | O => None
  | S fuel =>
      k ← GetArg st a (1 + i * 2);
      if decide (k = WInt 0) then st ← ReplaceArg st a (1 + i * 2) (WPtr label); ReplaceArg st a (1 + i * 2 + 1) w
      else let i := (i + 1) mod n in if i =? index then None else Init_loop fuel st a n index i label w
  end.

Definition Record_Init st a (label : Z) w : option (store C) :=
  n ← (w ← GetArg st a 0; DirectWordToInt w);
  if n =? 0 then None
  else h ← Hash st label; Init_loop (Z.to_nat n) st a n (h mod n) (h mod n) label w.

(** [Record::PolySel]; a missing label is a fatal error. *)
Fixpoint PolySel_loop (fuel : nat) st a (n index i : Z) (label : Z) : option word :=
  match fuel with
  | O => None
  | S fuel =>
      k ← GetArg st a (1 + i * 2);
      if decide (k = WPtr label) then GetArg st a (1 + i * 2 + 1)
      else let i := (i + 1) mod n in if i =? index then None else PolySel_loop fuel st a n index i label
  end.

Definition PolySel st a (label : Z) : option word :=
  n ← (w ← GetArg st a 0; DirectWordToInt w);
  if n =? 0 then None
  else h ← Hash st label; PolySel_loop (Z.to_nat n) st a n (h mod n) (h mod n) label.

(** ** Equality (Alice::Compare) *)

(** The handler of IntInf's concrete representations, and the number that the
    GMP library keeps behind such a word. *)
Variables (gmpHandler : word) (mpz : word -> Z).

Inductive compare_result := Result (b : bool) | Request (w : word).

(** The number of a block that is an IntInf. *)
Definition big_int st a : option Z :=
  match st_get st a with
  | Some (NBlock l _ args) =>
      if l =? CONCRETE_LABEL then
        h ← aget args 0; if decide (h = gmpHandler) then w ← aget args 1; Some (mpz w) else None
      else None
  | _ => None
  end.

(** Left to right, up to the first result other than 1. *)
Fixpoint compare_args (cmp : word -> word -> option compare_result) (xs ys : list word) : option compare_result :=
  match xs, ys with
  | [], _ => Some (Result true)
  | x :: xs, y :: ys =>
      r ← cmp x y;
      match r with Result true => compare_args cmp xs ys | _ => Some r end
  | _ :: _, [] => None
  end.

Fixpoint Compare (fuel : nat) st (x0 x1 : word) : option compare_result :=
  match fuel with
  | O => None
  | S fuel =>
      a ← WordToBlock st x0;
      b ← WordToBlock st x1;
      match a, b with
      | None, _ =>
          i ← WordToInt st x0;
          match i with
          | None => Some (Request x0)
          | Some i =>
              match b with
              | Some b => Some (Result (bool_decide (big_int st b = Some i)))
              | None =>
                  j ← WordToInt st x1;
                  match j with None => Some (Request x1) | Some j => Some (Result (i =? j)) end
              end
          end
      | Some a, None =>
          j ← WordToInt st x1;
          match j with
          | None => Some (Request x1)
          | Some j => Some (Result (bool_decide (big_int st a = Some j)))
          end
      | Some a, Some b =>
          label ← GetLabel st a;
          lb ← GetLabel st b;
          let structural :=
            xs ← GetArgs st a; ys ← GetArgs st b;
            if negb (zlen ys =? zlen xs) then Some (Result false)
            else compare_args (fun x y => Compare fuel st x y) xs ys in
          let identity := Some (Result (a =? b)) in
          if negb (label =? lb) then Some (Result false)
          else if (label =? TUPLE_LABEL) || (label =? Alice.ConVal) || (label =? Alice.Vector) then structural
          else if label =? CONCRETE_LABEL then
            match big_int st a, big_int st b with
            | Some i, Some j => Some (Result (i =? j))
            | _, _ => identity
            end
          else
            m ← IsMutable st a; mb ← IsMutable st b;
            if (m : bool) then if (mb : bool) then identity else None
            else if label =? CHUNK_LABEL then
              match st_get st a, st_get st b with
              | Some (NChunk _ xs), Some (NChunk _ ys) => Some (Result (bool_decide (xs = ys)))
              | _, _ => None
              end
            else if Alice.IsTag label then structural
            else identity
      end
  end.

End Data.
