(* ===== verification/AliceEq.v ===== *)
(** * Equality of Alice values and selection from records

    [Alice::Compare] decides equality of the trees that values unfold to, or
    finds the first undetermined part from the left; records find what was
    put into them. *)

From S2P Require Import Prelude Config HeaderOp AliceData.

(** ** Values as trees *)

(** A number; a value that is compared by its parts (a tuple, a vector, a
    constructor value or a tagged value whose tag fits its label); a string; a
    mutable value or any other immutable value, both by their identity; or an
    undetermined value. *)
Inductive tree :=
  | TNum (z : Z)
  | TNode (l : Z) (ts : list tree)
  | TChunk (bytes : list Z)
  | TCell (l a : Z)
  | TId (l a : Z)
  | TVar (a : Z).

Fixpoint height (t : tree) : nat :=
  match t with TNode _ ts => S (max_list (map height ts)) | _ => 1 end.

(** No part is undetermined. *)
Fixpoint determined (t : tree) : bool :=
  match t with TNode _ ts => forallb determined ts | TVar _ => false | _ => true end.

(** Equal or not, in need of a transient, or a mutable value against an
    immutable one with the same label, which the code asserts not to happen. *)
Inductive answer := Same (b : bool) | Needs (a : Z) | Clash.

(** The first answer other than "equal". *)
Section Answers.
Variable cmp : tree -> tree -> answer.

Fixpoint answers (xs ys : list tree) : answer :=
  match xs, ys with
  | x :: xs, y :: ys => match cmp x y with Same true => answers xs ys | r => r end
  | _, _ => Same true
  end.
End Answers.

Fixpoint cmp_tree (t0 t1 : tree) : answer :=
  match t0, t1 with
  | TVar a, _ => Needs a
  | _, TVar b => Needs b
  | TNum i, TNum j => Same (i =? j)
  | TNode l xs, TNode l' ys => if (l =? l') && (zlen xs =? zlen ys) then answers cmp_tree xs ys else Same false
  | TChunk xs, TChunk ys => Same (bool_decide (xs = ys))
  | TCell l a, TCell l' b | TId l a, TId l' b => Same ((l =? l') && (a =? b))
  | TNode l _, TCell l' _ | TId l _, TCell l' _ | TCell l _, TNode l' _ | TCell l _, TId l' _ => if l =? l' then Clash else Same false
  | TChunk _, TCell l _ | TCell l _, TChunk _ => if l =? CHUNK_LABEL then Clash else Same false
  | _, _ => Same false
  end.

Lemma cmp_nodes l l' xs ys :
  cmp_tree (TNode l xs) (TNode l' ys) =
    if (l =? l') && (zlen xs =? zlen ys) then answers cmp_tree xs ys else Same false.
Proof. reflexivity. Qed.

(** On determined trees the answer is equality. *)
Lemma cmp_tree_equal (n : nat) : forall t0 t1, (height t0 <= n)%nat -> determined t0 = true -> determined t1 = true ->
  cmp_tree t0 t1 <> Clash -> exists b, cmp_tree t0 t1 = Same b /\ (b = true <-> t0 = t1).
Proof.
  induction n as [| n IH]; intros t0 t1 Hn; [destruct t0; simpl in Hn; lia |].
  assert (Hlist : forall xs ys, Forall (fun t => (height t <= n)%nat) xs -> forallb determined xs = true ->
    forallb determined ys = true -> length xs = length ys -> answers cmp_tree xs ys <> Clash ->
    exists b, answers cmp_tree xs ys = Same b /\ (b = true <-> xs = ys)).
  { induction xs as [| x xs IHxs]; intros [| y ys] Hh Hx Hy Hlen Hc; try done; [by exists true |].
    simpl in Hx, Hy, Hc. apply andb_true_iff in Hx as [Hx Hxs], Hy as [Hy Hys]. rewrite Forall_cons in Hh. destruct Hh as [Hh Hhs].
    destruct (IH x y Hh Hx Hy) as (b & E & Hb); [by destruct (cmp_tree x y) |]. simpl. rewrite E in *. destruct b.
    - destruct (IHxs ys Hhs Hxs Hys) as (b & E' & Hb'); [simpl in Hlen; lia | done |]. exists b. split; [done |].
      destruct Hb as [-> _]; [| done]. rewrite Hb'. split; [by intros -> | by intros [= ->]].
    - exists false. split; [done |]. split; [done |]. intros [= -> _]. by apply Hb. }
  intros H0 H1 Hc. destruct t0, t1; try done; try (exists false; split; [done |]; split; [done | intros [=]; done]);
    try (simpl in Hc |- *; destruct (_ =? _); [done |]; by exists false).
  - exists (z =? z0). split; [done |]. rewrite Z.eqb_eq. split; [by intros -> | by intros [= ->]].
  - rewrite cmp_nodes in *. destruct (Z.eqb_spec l l0) as [-> |]; simpl in Hc |- *.
    2: { exists false. split; [done |]. split; [done | intros [=]; done]. }
    unfold zlen in *. destruct (Z.eqb_spec (Z.of_nat (length ts)) (Z.of_nat (length ts0))) as [Hlen | Hlen].
    + destruct (Hlist ts ts0) as (b & E & Hb); [| done | done | lia | done |].
      { simpl in Hn. apply Forall_forall. intros t Ht. apply le_S_n in Hn. etrans; [| exact Hn].
        clear -Ht. induction Ht as [| t x ts Ht IH]; simpl; lia. }
      exists b. split; [done |]. rewrite Hb. split; [by intros -> | by intros [= ->]].
    + exists false. split; [done |]. split; [done |]. intros [= ->]. done.
  - exists (bool_decide (bytes = bytes0)). split; [done |]. rewrite bool_decide_eq_true. split; [by intros -> | by intros [= ->]].
  - exists ((l =? l0) && (a =? a0)). split; [done |]. rewrite andb_true_iff, !Z.eqb_eq. split; [by intros [-> ->] | by intros [= -> ->]].
  - exists ((l =? l0) && (a =? a0)). split; [done |]. rewrite andb_true_iff, !Z.eqb_eq. split; [by intros [-> ->] | by intros [= -> ->]].
Qed.

Section Compare.
Context `{Platform} {C : Type} (gmpHandler : word) (mpz : word -> Z).
Implicit Types (st : store C) (w x y : word) (a b : Z).

#[local] Abbreviation big_int := (big_int gmpHandler mpz).
#[local] Abbreviation Compare := (Compare gmpHandler mpz).

(** ** Unfolding *)

(** The blocks that are compared by their contents. *)
Definition structural (l : Z) (m : bool) : bool :=
  (l =? TUPLE_LABEL) || (l =? Alice.ConVal) || (l =? Alice.Vector) || (negb m && Alice.IsTag l).

Inductive unfolds st : word -> tree -> Prop :=
  | u_int w i : deref st w = Some (WInt i) -> unfolds st w (TNum i)
  | u_var w a l v : deref st w = Some (WPtr a) -> st_get st a = Some (NTransient l v) -> unfolds st w (TVar a)
  | u_big w a z : deref st w = Some (WPtr a) -> big_int st a = Some z -> unfolds st w (TNum z)
  | u_node w a l m args ts : deref st w = Some (WPtr a) -> st_get st a = Some (NBlock l m args) -> structural l m = true ->
      Forall2 (unfolds st) args ts -> unfolds st w (TNode l ts)
  | u_chunk w a bs : deref st w = Some (WPtr a) -> st_get st a = Some (NChunk false bs) -> unfolds st w (TChunk bs)
  | u_cell w a l : deref st w = Some (WPtr a) -> GetLabel st a = Some l -> IsMutable st a = Some true ->
      structural l true = false -> l <> CONCRETE_LABEL -> unfolds st w (TCell l a)
  | u_id w a l m : deref st w = Some (WPtr a) -> GetLabel st a = Some l -> IsMutable st a = Some m -> structural l m = false ->
      m = false /\ l <> CHUNK_LABEL \/ l = CONCRETE_LABEL -> big_int st a = None -> unfolds st w (TId l a).

Definition answer_of st (r : compare_result) (t : answer) : Prop :=
  match r, t with
  | Result b, Same b' => b = b'
  | Request w, Needs a => deref st w = Some (WPtr a)
  | _, _ => False
  end.

(** What [Compare] sees of a word. *)
Inductive view st w : tree -> Prop :=
  | v_num_int i : WordToBlock st w = Some None -> WordToInt st w = Some (Some i) -> view st w (TNum i)
  | v_var a : WordToBlock st w = Some None -> WordToInt st w = Some None -> deref st w = Some (WPtr a) -> view st w (TVar a)
  | v_block a l m t : WordToBlock st w = Some (Some a) -> GetLabel st a = Some l -> IsMutable st a = Some m ->
      (t = TNum (default 0 (big_int st a)) /\ is_Some (big_int st a) /\ l = CONCRETE_LABEL
       \/ big_int st a = None /\
         ((exists args ts, t = TNode l ts /\ st_get st a = Some (NBlock l m args) /\ structural l m = true /\ Forall2 (unfolds st) args ts) \/
          (exists bs, t = TChunk bs /\ st_get st a = Some (NChunk false bs)) \/
          (t = TCell l a /\ m = true /\ structural l m = false /\ l <> CONCRETE_LABEL) \/
          (t = TId l a /\ structural l m = false /\ (m = false /\ l <> CHUNK_LABEL \/ l = CONCRETE_LABEL)))) -> view st w t.

Lemma structural_concrete m : structural CONCRETE_LABEL m = false.
Proof. by destruct m. Qed.

Lemma structural_immutable l m : structural l m = true -> structural l false = true.
Proof. unfold structural. rewrite !orb_true_iff, !andb_true_iff. by intros [? | [_ ?]]; [left | right]. Qed.

Lemma big_concrete st a z : big_int st a = Some z ->
  GetLabel st a = Some CONCRETE_LABEL /\ exists m, IsMutable st a = Some m.
Proof.
  unfold AliceData.big_int, GetLabel, IsMutable. destruct (st_get st a) as [[l m args | | |] |]; try done.
  destruct (Z.eqb_spec l CONCRETE_LABEL) as [-> |]; [eauto | done].
Qed.

Lemma block_word st w a l : deref st w = Some (WPtr a) -> GetLabel st a = Some l -> WordToBlock st w = Some (Some a).
Proof. unfold WordToBlock, GetLabel. intros ->. simpl. by destruct (st_get st a) as [[] |]. Qed.

Lemma unfolds_view st w t : unfolds st w t -> view st w t.
Proof.
  destruct 1 as [w i Hd | w a l v Hd Hn | w a z Hd Hb | w a l m args ts Hd Hn Hs Hf | w a bs Hd Hn | w a l Hd Hl Hm Hs Hc | w a l m Hd Hl Hm Hs Hk Hb].
  - apply v_num_int; unfold WordToBlock, WordToInt; by rewrite Hd.
  - eapply v_var; [unfold WordToBlock; rewrite Hd; simpl; by rewrite Hn | unfold WordToInt; by rewrite Hd | done].
  - destruct (big_concrete _ _ _ Hb) as [Hl [m Hm]]. eapply v_block; [by eapply block_word | done | done |].
    left. rewrite Hb. split_and!; eauto.
  - assert (Hl : GetLabel st a = Some l) by (unfold GetLabel; by rewrite Hn).
    eapply v_block; [by eapply block_word | done | unfold IsMutable; by rewrite Hn |].
    right. split; [| left; eauto 6]. destruct (big_int st a) eqn:Hb; [| done]. apply big_concrete in Hb as [Hl' _].
    rewrite Hl in Hl'. injection Hl' as ->. by rewrite structural_concrete in Hs.
  - assert (Hl : GetLabel st a = Some CHUNK_LABEL) by (unfold GetLabel; by rewrite Hn).
    eapply v_block; [by eapply block_word | done | unfold IsMutable; by rewrite Hn |].
    right. split; [unfold AliceData.big_int; by rewrite Hn | right; left; eauto].
  - eapply v_block; [by eapply block_word | done | done |]. right. split; [| right; right; left; done].
    destruct (big_int st a) eqn:Hb; [| done]. apply big_concrete in Hb as [Hl' _]. congruence.
  - eapply v_block; [by eapply block_word | done | done |]. right. split; [done |]. right; right; right. done.
Qed.

Lemma compare_args_ok st cmp xs ys ts us :
  length xs = length ys -> Forall2 (unfolds st) xs ts -> Forall2 (unfolds st) ys us ->
  answers cmp_tree ts us <> Clash ->
  (forall x y t u, t ∈ ts -> unfolds st x t -> unfolds st y u -> cmp_tree t u <> Clash ->
    exists r, cmp x y = Some r /\ answer_of st r (cmp_tree t u)) ->
  exists r, compare_args cmp xs ys = Some r /\ answer_of st r (answers cmp_tree ts us).
Proof.
  intros Hlen Hx. revert ys us Hlen. induction Hx as [| x t xs ts Hxt Hx IH]; intros ys us Hlen Hy Hc Hcmp.
  - exists (Result true). split; [done |]. done.
  - destruct Hy as [| y u ys us Hyu Hy]; [done |]. simpl.
    simpl in Hc. destruct (Hcmp x y t u) as (r & -> & Hr); [by left | done | done | by destruct (cmp_tree t u) |]. simpl.
    destruct r as [b | w], (cmp_tree t u) as [b' | a |]; try done; simpl in Hr; [subst b' | by exists (Request w)].
    destruct b; [| by exists (Result false)]. apply IH; [simpl in Hlen; lia | done | done |].
    intros x' y' t' u' Ht'. apply Hcmp. by right.
Qed.

Lemma structural_cases l m : structural l m =
  ((l =? TUPLE_LABEL) || (l =? Alice.ConVal) || (l =? Alice.Vector)) || (negb m && Alice.IsTag l).
Proof. done. Qed.

(** The comparison of two blocks by their labels. *)
Lemma compare_blocks st fuel x0 x1 a b l lb m mb :
  WordToBlock st x0 = Some (Some a) -> WordToBlock st x1 = Some (Some b) ->
  GetLabel st a = Some l -> GetLabel st b = Some lb -> IsMutable st a = Some m -> IsMutable st b = Some mb ->
  Compare (S fuel) st x0 x1 =
    if negb (l =? lb) then Some (Result false)
    else if structural l m then
      xs ← GetArgs st a; ys ← GetArgs st b;
      if negb (zlen ys =? zlen xs) then Some (Result false) else compare_args (fun x y => Compare fuel st x y) xs ys
    else if l =? CONCRETE_LABEL then
      match big_int st a, big_int st b with Some i, Some j => Some (Result (i =? j)) | _, _ => Some (Result (a =? b)) end
    else if m then if mb then Some (Result (a =? b)) else None
    else if l =? CHUNK_LABEL then
      match st_get st a, st_get st b with Some (NChunk _ xs), Some (NChunk _ ys) => Some (Result (bool_decide (xs = ys))) | _, _ => None end
    else Some (Result (a =? b)).
Proof.
  intros E0 E1 Hla Hlb Hma Hmb. simpl. rewrite E0, E1. simpl. rewrite Hla, Hlb, Hma, Hmb. simpl.
  destruct (Z.eqb_spec l lb) as [<- |]; [simpl | done]. rewrite structural_cases.
  destruct ((l =? TUPLE_LABEL) || (l =? Alice.ConVal) || (l =? Alice.Vector)) eqn:Hs; simpl; [done |].
  destruct (Z.eqb_spec l CONCRETE_LABEL) as [-> | Hc]; [by destruct m |].
  destruct m; simpl; [done |]. destruct (Z.eqb_spec l CHUNK_LABEL) as [-> | Hk]; [done |]. done.
Qed.

(** What the view of a block says, by the kind of its tree. *)
Definition block_view st a l m t : Prop :=
  t = TNum (default 0 (big_int st a)) /\ is_Some (big_int st a) /\ l = CONCRETE_LABEL
  \/ big_int st a = None /\
    ((exists args ts, t = TNode l ts /\ st_get st a = Some (NBlock l m args) /\ structural l m = true /\ Forall2 (unfolds st) args ts) \/
     (exists bs, t = TChunk bs /\ st_get st a = Some (NChunk false bs)) \/
     (t = TCell l a /\ m = true /\ structural l m = false /\ l <> CONCRETE_LABEL) \/
     (t = TId l a /\ structural l m = false /\ (m = false /\ l <> CHUNK_LABEL \/ l = CONCRETE_LABEL))).

(** Two blocks with the same label. *)
Lemma compare_same_label st fuel a b l m mb t0 t1 :
  GetLabel st a = Some l -> GetLabel st b = Some l -> IsMutable st a = Some m -> IsMutable st b = Some mb ->
  cmp_tree t0 t1 <> Clash -> block_view st a l m t0 -> block_view st b l mb t1 -> (height t0 <= S fuel)%nat ->
  (forall x y t u, (height t <= fuel)%nat -> unfolds st x t -> unfolds st y u -> cmp_tree t u <> Clash ->
    exists r, Compare fuel st x y = Some r /\ answer_of st r (cmp_tree t u)) ->
  exists r,
    (if structural l m then
       xs ← GetArgs st a; ys ← GetArgs st b;
       if negb (zlen ys =? zlen xs) then Some (Result false) else compare_args (fun x y => Compare fuel st x y) xs ys
     else if l =? CONCRETE_LABEL then
       match big_int st a, big_int st b with Some i, Some j => Some (Result (i =? j)) | _, _ => Some (Result (a =? b)) end
     else if m then if mb then Some (Result (a =? b)) else None
     else if l =? CHUNK_LABEL then
       match st_get st a, st_get st b with Some (NChunk _ xs), Some (NChunk _ ys) => Some (Result (bool_decide (xs = ys))) | _, _ => None end
     else Some (Result (a =? b))) = Some r /\ answer_of st r (cmp_tree t0 t1).
Proof.
  intros Hla Hlb Hma Hmb Hu H0 H1 Hh IH.
  destruct H0 as [(-> & [z Hz] & ->) | [Hz H0]].
  { rewrite structural_concrete, Z.eqb_refl, Hz. destruct H1 as [(-> & [z' Hz'] & _) | [Hz' H1]]; rewrite Hz'; eexists; (split; [done |]); [done |].
    destruct (Z.eqb_spec a b) as [-> |]; [congruence |].
    by destruct H1 as [(? & ? & -> & _) | [(? & -> & _) | [(-> & _) | (-> & _)]]]. }
  destruct H0 as [(args & ts & -> & Hn & Hs & Hf) | [(bs & -> & Hn) | [(-> & -> & Hs & Hc) | (-> & Hs & Hk)]]].
  - rewrite Hs. assert (Hc : l <> CONCRETE_LABEL) by (intros ->; by rewrite structural_concrete in Hs).
    destruct H1 as [(_ & _ & ?) | [_ [(args' & ts' & -> & Hn' & _ & Hf') | [(bs & -> & Hn') | [(-> & _) | (-> & Hs' & Hk')]]]]]; [done | | | |].
    + unfold GetArgs. rewrite Hn, Hn'. simpl mbind. cbn [mbind option_bind]. rewrite cmp_nodes, Z.eqb_refl in *. cbn [andb] in *.
      pose proof (Forall2_length _ _ _ Hf). pose proof (Forall2_length _ _ _ Hf'). unfold zlen in *.
      destruct (Z.eqb_spec (Z.of_nat (length args')) (Z.of_nat (length args))) as [El | El]; cbn [negb].
      * rewrite (proj2 (Z.eqb_eq _ _)) in Hu |- * by lia. apply compare_args_ok; [lia | done | done | done |].
        intros x y t u Ht. apply IH. simpl in Hh. apply le_S_n in Hh. etrans; [| exact Hh].
        clear -Ht. induction Ht as [| t x ts Ht IH]; simpl; lia.
      * rewrite (proj2 (Z.eqb_neq _ _)) by lia. by exists (Result false).
    + unfold GetLabel in Hlb. rewrite Hn' in Hlb. injection Hlb as <-. by destruct m.
    + simpl in Hu. by rewrite Z.eqb_refl in Hu.
    + destruct Hk' as [[-> _] | ?]; [| done]. by rewrite (structural_immutable _ _ Hs) in Hs'.
  - unfold GetLabel in Hla. unfold IsMutable in Hma. rewrite Hn in Hla, Hma. injection Hla as <-. injection Hma as <-.
    destruct H1 as [(_ & _ & ?) | [_ [(args' & ts' & -> & Hn' & Hs & _) | [(bs' & -> & Hn') | [(-> & _) | (-> & _ & [[_ ?] | ?])]]]]]; try done.
    + by destruct mb.
    + change (structural CHUNK_LABEL false) with false. cbn [orb]. rewrite Hn, Hn'. simpl. eexists. split; [done |]. done.
  - rewrite Hs, (proj2 (Z.eqb_neq _ _) Hc).
    destruct H1 as [(_ & _ & ?) | [_ [(args' & ts' & -> & Hn' & ? & _) | [(bs' & -> & Hn') | [(-> & -> & _) | (-> & _)]]]]]; try done.
    + simpl in Hu. by rewrite Z.eqb_refl in Hu.
    + unfold GetLabel in Hlb. rewrite Hn' in Hlb. by injection Hlb as <-.
    + eexists. split; [done |]. simpl. by rewrite Z.eqb_refl.
    + simpl in Hu. by rewrite Z.eqb_refl in Hu.
  - rewrite Hs. destruct (Z.eqb_spec l CONCRETE_LABEL) as [-> | Hc].
    + rewrite Hz. destruct H1 as [(-> & [z' Hz'] & _) | [_ [(args' & ts' & -> & _ & ? & _) | [(bs' & -> & Hn') | [(-> & _ & _ & ?) | (-> & _)]]]]]; try done.
      * destruct (Z.eqb_spec a b) as [-> |]; [congruence |]. by exists (Result false).
      * by rewrite structural_concrete in *.
      * unfold GetLabel in Hlb. by rewrite Hn' in Hlb.
      * exists (Result (a =? b)). done.
    + destruct Hk as [[-> Hk] | ?]; [| done].
      destruct H1 as [(_ & _ & ?) | [_ [(args' & ts' & -> & _ & Hs' & _) | [(bs' & -> & Hn') | [(-> & _) | (-> & _)]]]]]; try done.
      * by rewrite (structural_immutable _ _ Hs') in Hs.
      * unfold GetLabel in Hlb. rewrite Hn' in Hlb. by injection Hlb as <-.
      * simpl in Hu. by rewrite Z.eqb_refl in Hu.
      * rewrite (proj2 (Z.eqb_neq _ _) Hk). exists (Result (a =? b)). split; [done |]. simpl. by rewrite Z.eqb_refl.
Qed.

Lemma other_label st a b l m lb mb t0 t1 : GetLabel st a = Some l -> GetLabel st b = Some lb ->
  block_view st a l m t0 -> block_view st b lb mb t1 -> l <> lb -> cmp_tree t0 t1 = Same false.
Proof.
  intros Hla Hlb H0 H1 Hne. apply Z.eqb_neq in Hne as Hb. unfold GetLabel in *.
  destruct H0 as [(-> & _ & ->) | [_ [(? & ? & -> & _) | [(? & -> & Hn) | [(-> & _) | (-> & _)]]]]],
    H1 as [(-> & _ & ->) | [_ [(? & ? & -> & _) | [(? & -> & Hn') | [(-> & _) | (-> & _)]]]]]; try done;
    try (by rewrite ?cmp_nodes; simpl; rewrite Hb).
  all: rewrite ?Hn in Hla; rewrite ?Hn' in Hlb; simpl in Hla, Hlb; simplify_eq; try done; simpl.
  - by rewrite Z.eqb_sym, Hb.
  - by rewrite Hb.
Qed.

(** ** [Compare] computes the answer for the trees *)

Lemma Compare_refines st fuel : forall x0 x1 t0 t1, unfolds st x0 t0 -> unfolds st x1 t1 -> (height t0 <= fuel)%nat ->
  cmp_tree t0 t1 <> Clash -> exists r, Compare fuel st x0 x1 = Some r /\ answer_of st r (cmp_tree t0 t1).
Proof.
  induction fuel as [| fuel IH]; intros x0 x1 t0 t1 H0 H1 Hh Hc; [destruct t0; simpl in Hh; lia |].
  apply unfolds_view in H0, H1.
  destruct H0 as [i Hb0 Hi0 | a Hb0 Hi0 Hd0 | a l m t0 Hb0 Hl0 Hm0 H0].
  - simpl. rewrite Hb0, Hi0. simpl.
    destruct H1 as [j Hb1 Hi1 | b Hb1 Hi1 Hd1 | b l m t1 Hb1 Hl1 Hm1 H1].
    + rewrite Hb1, Hi1. simpl. by exists (Result (i =? j)).
    + rewrite Hb1, Hi1. simpl. by exists (Request x1).
    + rewrite Hb1. simpl. exists (Result (bool_decide (big_int st b = Some i))). split; [done |].
      destruct H1 as [(-> & [z Hz] & _) | [Hz Hk]].
      * rewrite Hz. simpl. destruct (Z.eqb_spec i z) as [-> |]; [by rewrite bool_decide_eq_true_2 | by rewrite bool_decide_eq_false_2 by congruence].
      * rewrite Hz. rewrite bool_decide_eq_false_2 by done.
        by destruct Hk as [(? & ? & -> & _) | [(? & -> & _) | [(-> & _) | (-> & _)]]].
  - simpl. rewrite Hb0, Hi0. simpl. exists (Request x0). split; [by destruct (WordToBlock st x1) as [[]|] eqn:E; destruct H1; simplify_eq |].
    done.
  - destruct H1 as [j Hb1 Hi1 | b Hb1 Hi1 Hd1 | b lb mb t1 Hb1 Hl1 Hm1 H1].
    + simpl. rewrite Hb0, Hb1, Hi1. simpl. exists (Result (bool_decide (big_int st a = Some j))). split; [done |].
      destruct H0 as [(-> & [z Hz] & _) | [Hz Hk]].
      * rewrite Hz. simpl. destruct (Z.eqb_spec z j) as [-> |]; [by rewrite bool_decide_eq_true_2 | by rewrite bool_decide_eq_false_2 by congruence].
      * rewrite Hz. rewrite bool_decide_eq_false_2 by done.
        by destruct Hk as [(? & ? & -> & _) | [(? & -> & _) | [(-> & _) | (-> & _)]]].
    + simpl. rewrite Hb0, Hb1, Hi1. simpl. exists (Request x1). split; [done |].
      by destruct H0 as [(-> & _) | [_ [(? & ? & -> & _) | [(? & -> & _) | [(-> & _) | (-> & _)]]]]].
    + rewrite (compare_blocks st fuel x0 x1 a b l lb m mb) by done.
      destruct (Z.eqb_spec l lb) as [<- | Hne]; cbn [negb].
      * apply (compare_same_label st fuel a b l m mb); auto.
      * exists (Result false). split; [done |]. by rewrite (other_label st a b l m lb mb t0 t1).
Qed.

End Compare.

(** ** Records *)

Section Records.
Context `{Platform} {C : Type} (wundef : word).
Implicit Types (st : store C) (a n label : Z) (sl : list (word * word)).

(** The slots of the record at [a]. *)
Definition slots st a n sl : Prop := exists m args,
  st_get st a = Some (NBlock Alice.Record m args) /\ aget args 0 = Some (WInt n) /\ zlen sl = n /\
  forall i p, aget sl i = Some p -> aget args (1 + i * 2) = Some p.1 /\ aget args (1 + i * 2 + 1) = Some p.2.

Lemma slot_args st a n sl i p : slots st a n sl -> aget sl i = Some p ->
  GetArg st a (1 + i * 2) = Some p.1 /\ GetArg st a (1 + i * 2 + 1) = Some p.2.
Proof. intros (m & args & Hg & _ & _ & Hs) Hp. unfold GetArg, GetArgs. rewrite Hg. simpl. auto. Qed.

Lemma slot_width st a n sl : slots st a n sl -> (w ← GetArg st a 0; DirectWordToInt w) = Some n.
Proof. intros (m & args & Hg & H0 & _). unfold GetArg, GetArgs. rewrite Hg. simpl. by rewrite H0. Qed.

(** The [k]-th slot of a probe. *)
Definition probe index n k : Z := (index + k) mod n.

Lemma probe_range index n k : 0 < n -> 0 <= probe index n k < n.
Proof. intros. apply Z.mod_pos_bound. lia. Qed.

Lemma probe_next index n k : 0 < n -> (probe index n k + 1) mod n = probe index n (k + 1).
Proof. intros. unfold probe. rewrite Zplus_mod_idemp_l. f_equal. lia. Qed.

Lemma probe_back index n k : 0 <= index < n -> 0 < k < n -> probe index n k <> index.
Proof.
  intros Hi Hk. unfold probe. destruct (Z_lt_ge_dec (index + k) n) as [Hlt | Hge].
  - rewrite Z.mod_small by lia. lia.
  - rewrite <- (Z.mod_unique (index + k) n 1 (index + k - n)) by lia. lia.
Qed.

(** Every slot is probed. *)
Lemma probe_onto index n i : 0 <= index < n -> 0 <= i < n -> exists k, 0 <= k < n /\ probe index n k = i.
Proof.
  intros Hi Hk. destruct (Z_le_gt_dec index i).
  - exists (i - index). split; [lia |]. unfold probe. rewrite Z.mod_small; lia.
  - exists (i - index + n). split; [lia |]. unfold probe. symmetry. apply (Z.mod_unique _ _ 1); lia.
Qed.

Lemma slot_at sl n i : zlen sl = n -> 0 <= i < n -> exists p, aget sl i = Some p.
Proof. intros Hl Hi. destruct (aget_is_Some sl i) as [p ->]; [lia | eauto]. Qed.

(** Selection from the [k]-th probe on. *)
Lemma PolySel_loop_ok st a n sl index label : slots st a n sl -> 0 <= index < n -> forall fuel k, Z.of_nat fuel = n - k -> 0 <= k < n ->
  (forall k', 0 <= k' < k -> forall p, aget sl (probe index n k') = Some p -> p.1 <> WPtr label) ->
  match PolySel_loop fuel st a n index (probe index n k) label with
  | Some w => exists i, aget sl i = Some (WPtr label, w)
  | None => forall i p, aget sl i = Some p -> p.1 <> WPtr label
  end.
Proof.
  intros Hs Hi. assert (Hl : zlen sl = n) by (by destruct Hs as (? & ? & _ & _ & ? & _)).
  induction fuel as [| fuel IH]; intros k Hf Hk Hno; [lia |]. cbn [PolySel_loop].
  destruct (slot_at sl n (probe index n k) Hl (probe_range index n k ltac:(lia))) as [[kw v] Hp].
  destruct (slot_args _ _ _ _ _ _ Hs Hp) as [-> E2]. cbn [mbind option_bind fst snd] in *.
  destruct (decide (kw = WPtr label)) as [-> | Hne]; [rewrite E2; eauto |].
  assert (Hno' : forall k', 0 <= k' < k + 1 -> forall p, aget sl (probe index n k') = Some p -> p.1 <> WPtr label).
  { intros k' Hk' p Hp'. destruct (decide (k' = k)) as [-> |]; [rewrite Hp in Hp'; by injection Hp' as <- | apply (Hno k'); [lia | done]]. }
  rewrite probe_next by lia. destruct (Z.eqb_spec (probe index n (k + 1)) index) as [E |].
  - intros i p Hp'. pose proof (aget_Some_lt _ _ _ Hp') as Hr.
    destruct (probe_onto index n i Hi ltac:(lia)) as (k' & Hk' & <-). apply (Hno' k'); [| done].
    destruct (decide (k + 1 = n)); [lia |]. exfalso. by apply (probe_back index n (k + 1) Hi ltac:(lia)).
  - apply IH; [lia | | done]. destruct (decide (k + 1 = n)) as [E |]; [| lia]. exfalso. apply n0.
    unfold probe. rewrite E. replace (index + n) with (index + 1 * n) by lia. rewrite Z.mod_add, Z.mod_small; lia.
Qed.

Lemma slots_replace st a n sl i p0 w : slots st a n sl -> aget sl i = Some p0 ->
  exists st', (st ← ReplaceArg st a (1 + i * 2) w.1; ReplaceArg st a (1 + i * 2 + 1) w.2) = Some st' /\
    slots st' a n (<[Z.to_nat i := w]> sl) /\ (forall b, b <> a -> st_get st' b = st_get st b).
Proof.
  intros Hs Hp. destruct (slot_args _ _ _ _ _ _ Hs Hp) as [G1 G2]. destruct Hs as (m & args & Hg & H0 & Hl & Hs).
  unfold GetArg, GetArgs in G1, G2. rewrite Hg in G1, G2. cbn [mbind option_bind] in G1, G2.
  pose proof (aget_Some_lt _ _ _ G1) as R1. pose proof (aget_Some_lt _ _ _ G2) as R2. pose proof (aget_Some_lt _ _ _ Hp) as R0.
  assert (S1 : aset args (1 + i * 2) w.1 = Some (<[Z.to_nat (1 + i * 2) := w.1]> args)) by (apply aset_Some; lia).
  set (args1 := <[Z.to_nat (1 + i * 2) := w.1]> args) in *. pose proof (aset_zlen _ _ _ _ S1).
  assert (S2 : aset args1 (1 + i * 2 + 1) w.2 = Some (<[Z.to_nat (1 + i * 2 + 1) := w.2]> args1)) by (apply aset_Some; lia).
  set (args2 := <[Z.to_nat (1 + i * 2 + 1) := w.2]> args1) in *.
  assert (Sl : aset sl i w = Some (<[Z.to_nat i := w]> sl)) by (apply aset_Some; lia).
  eexists. split; [| split].
  - unfold ReplaceArg. rewrite Hg. cbn [mbind option_bind]. rewrite S1. cbn [mbind option_bind].
    unfold st_get, st_set. simpl. rewrite lookup_insert_eq. cbn [mbind option_bind]. rewrite S2. reflexivity.
  - exists m, args2. unfold st_get, st_set. simpl. rewrite lookup_insert_eq. split; [done |].
    rewrite (aget_aset_ne _ _ _ _ _ S2), (aget_aset_ne _ _ _ _ _ S1) by lia. split; [done |].
    split; [by rewrite (aset_zlen _ _ _ _ Sl) |]. intros j p Hj. destruct (decide (j = i)) as [-> |].
    + rewrite (aget_aset_eq _ _ _ _ Sl) in Hj. injection Hj as <-.
      rewrite (aget_aset_ne _ _ _ _ _ S2), (aget_aset_eq _ _ _ _ S1), (aget_aset_eq _ _ _ _ S2) by lia. done.
    + rewrite (aget_aset_ne _ _ _ _ _ Sl) in Hj by done.
      rewrite !(aget_aset_ne _ _ _ _ _ S2), !(aget_aset_ne _ _ _ _ _ S1) by lia. auto.
  - intros b Hb. unfold st_get, st_set. simpl. by rewrite !lookup_insert_ne by done.
Qed.

(** Initialisation takes a free slot, if there is one. *)
Lemma Init_loop_ok st a n sl index label w : slots st a n sl -> 0 <= index < n -> forall fuel k, Z.of_nat fuel = n - k -> 0 <= k < n ->
  (exists k', k <= k' < n /\ exists v, aget sl (probe index n k') = Some (WInt 0, v)) ->
  exists st' i v, Init_loop fuel st a n index (probe index n k) label w = Some st' /\ aget sl i = Some (WInt 0, v) /\
    slots st' a n (<[Z.to_nat i := (WPtr label, w)]> sl) /\ (forall b, b <> a -> st_get st' b = st_get st b).
Proof.
  intros Hs Hi. assert (Hl : zlen sl = n) by (by destruct Hs as (? & ? & _ & _ & ? & _)).
  induction fuel as [| fuel IH]; intros k Hf Hk (k' & Hk' & v & Hv); [lia |]. cbn [Init_loop].
  destruct (slot_at sl n (probe index n k) Hl (probe_range index n k ltac:(lia))) as [[kw u] Hp].
  destruct (slot_args _ _ _ _ _ _ Hs Hp) as [-> _]. cbn [mbind option_bind fst snd].
  destruct (decide (kw = WInt 0)) as [-> | Hne].
  { destruct (slots_replace _ _ _ _ _ _ (WPtr label, w) Hs Hp) as (st' & E & ? & ?). exists st', (probe index n k), u. by split_and!. }
  destruct (decide (k' = k)) as [-> |]; [congruence |]. rewrite probe_next by lia.
  destruct (Z.eqb_spec (probe index n (k + 1)) index) as [E |]; [exfalso; by apply (probe_back index n (k + 1) Hi ltac:(lia)) |].
  apply IH; [lia | lia |]. exists k'. split; [lia | eauto].
Qed.

(** The free slots. *)
Definition free sl : nat := length (filter (fun p => p.1 = WInt 0) sl).

Lemma free_insert sl i v w label : aget sl i = Some (WInt 0, v) -> (S (free (<[Z.to_nat i := (WPtr label, w)]> sl)) = free sl)%nat.
Proof.
  unfold aget, free. case_decide; [| done]. intros Hi. rewrite insert_take_drop by (by eapply lookup_lt_Some).
  rewrite <- (take_drop_middle sl _ _ Hi) at 3. rewrite !filter_app, !filter_cons. simpl. rewrite !length_app. simpl. lia.
Qed.

Lemma free_exists sl : (0 < free sl)%nat -> exists i v, aget sl i = Some (WInt 0, v).
Proof.
  unfold free. intros Hf. destruct (filter _ sl) as [| [k v] rest] eqn:E; [simpl in Hf; lia |].
  assert (Hin : (k, v) ∈ filter (fun p : word * word => p.1 = WInt 0) sl) by (rewrite E; by left).
  apply list_elem_of_filter in Hin as [Hk Hin]. simpl in Hk. subst k. apply list_elem_of_lookup in Hin as [i Hi].
  exists (Z.of_nat i), v. unfold aget. rewrite decide_True by lia. by rewrite Nat2Z.id.
Qed.

Fixpoint init_all st a (fs : list (Z * word)) : option (store C) :=
  match fs with [] => Some st | (l, w) :: fs => st ← Record_Init st a l w; init_all st a fs end.

(** The record after the fields [fs] have been initialised. *)
Record filled st a n (fs : list (Z * word)) sl : Prop := {
  fi_slots : slots st a n sl;
  fi_in : forall l w, (l, w) ∈ fs -> exists i, aget sl i = Some (WPtr l, w);
  fi_out : forall i k w, aget sl i = Some (k, w) -> k = WInt 0 \/ exists l, k = WPtr l /\ (l, w) ∈ fs;
  fi_free : (free sl + length fs = Z.to_nat n)%nat
}.

Lemma Hash_other st st' a label : (forall b, b <> a -> st_get st' b = st_get st b) -> label <> a -> Hash st' label = Hash st label.
Proof. intros E Hne. unfold Hash, GetArg, GetArgs. by rewrite E. Qed.

Lemma Record_Init_ok st a n fs sl label w h : filled st a n fs sl -> label <> a -> Hash st label = Some h -> (length fs < Z.to_nat n)%nat ->
  exists st' sl', Record_Init st a label w = Some st' /\ filled st' a n (fs ++ [(label, w)]) sl' /\
    (forall b, b <> a -> st_get st' b = st_get st b).
Proof.
  intros [Hs Hin Hout Hfree] Hne Hh Hlen. unfold Record_Init. rewrite (slot_width _ _ _ _ Hs). cbn [mbind option_bind].
  destruct (Z.eqb_spec n 0); [lia |]. rewrite Hh. cbn [mbind option_bind].
  pose proof (Z.mod_pos_bound h n ltac:(lia)) as Hi. assert (E0 : probe (h mod n) n 0 = h mod n) by (unfold probe; rewrite Z.add_0_r, Z.mod_small; lia).
  assert (Hl : zlen sl = n) by (by destruct Hs as (? & ? & _ & _ & ? & _)).
  destruct (free_exists sl ltac:(lia)) as (i & v & Hv). pose proof (aget_Some_lt _ _ _ Hv).
  destruct (probe_onto (h mod n) n i Hi ltac:(lia)) as (k & Hk & <-).
  destruct (Init_loop_ok st a n sl (h mod n) label w Hs Hi (Z.to_nat n) 0 ltac:(lia) ltac:(lia)) as (st' & i & u & E & Hu & Hs' & Hother).
  { exists k. split; [lia | eauto]. }
  rewrite E0 in E. set (sl' := <[Z.to_nat i := (WPtr label, w)]> sl) in *. pose proof (aget_Some_lt _ _ _ Hu).
  assert (Ha : aset sl i (WPtr label, w) = Some sl') by (apply aset_Some; lia).
  exists st', sl'. split; [exact E |]. split; [| exact Hother]. constructor; [done | | |].
  - intros l u' [Hold | [= -> ->]%list_elem_of_singleton]%elem_of_app; [| exists i; by apply (aget_aset_eq _ _ _ _ Ha)].
    destruct (Hin _ _ Hold) as [j Hj]. exists j. rewrite (aget_aset_ne _ _ _ _ _ Ha); [done | congruence].
  - intros j key u' Hj. destruct (decide (j = i)) as [-> |].
    + rewrite (aget_aset_eq _ _ _ _ Ha) in Hj. injection Hj as <- <-. right. exists label. split; [done |]. apply elem_of_app. right. by left.
    + rewrite (aget_aset_ne _ _ _ _ _ Ha) in Hj by done. destruct (Hout _ _ _ Hj) as [| (l & -> & Hl')]; [by left | right].
      exists l. split; [done |]. apply elem_of_app. by left.
  - rewrite length_app. simpl. pose proof (free_insert sl i u w label Hu) as Hfi. fold sl' in Hfi. lia.
Qed.

Lemma init_all_ok st a n fs : forall done sl, filled st a n done sl -> Forall (fun p => p.1 <> a /\ is_Some (Hash st p.1)) fs ->
  (length done + length fs <= Z.to_nat n)%nat ->
  exists st' sl', init_all st a fs = Some st' /\ filled st' a n (done ++ fs) sl' /\ (forall b, b <> a -> st_get st' b = st_get st b).
Proof.
  revert st. induction fs as [| [l w] fs IH]; intros st done sl Hf Hok Hlen; [exists st, sl; by rewrite app_nil_r |].
  apply Forall_cons in Hok as [[Hne [h Hh]] Hok]. simpl in *.
  destruct (Record_Init_ok st a n done sl l w h Hf Hne Hh ltac:(lia)) as (st1 & sl1 & E & Hf1 & Ho1). rewrite E. cbn [mbind option_bind].
  destruct (IH st1 (done ++ [(l, w)]) sl1 Hf1) as (st2 & sl2 & E2 & Hf2 & Ho2).
  - eapply Forall_impl; [exact Hok |]. intros p [Hp Hh']. split; [done |]. by rewrite (Hash_other st st1 a).
  - rewrite length_app. simpl. lia.
  - exists st2, sl2. split; [done |]. split; [by rewrite <- app_assoc in Hf2 |]. intros b Hb. rewrite Ho2, Ho1 by done. done.
Qed.

Lemma Record_New_filled emptyRecord st n : 0 < n ->
  let '(st', a) := Record_New wundef emptyRecord st n in filled st' a n [] (replicate (Z.to_nat n) (WInt 0, wundef)) /\
    a = st_next st /\ (forall b, b <> a -> st_get st' b = st_get st b).
Proof.
  intros Hn. unfold Record_New, AllocBlock, st_alloc. rewrite (proj2 (Z.eqb_neq n 0)) by lia. cbn [fst snd]. split; [| split; [done |]].
  2: { intros b Hb. unfold st_get. simpl. by rewrite lookup_insert_ne. }
  constructor.
  - eexists _, _. split; [unfold st_get; simpl; by rewrite lookup_insert_eq |]. split; [done |].
    split; [apply zlen_replicate; lia |]. intros i p Hp. pose proof (aget_Some_lt _ _ _ Hp) as Hr. rewrite zlen_replicate in Hr by lia.
    rewrite aget_replicate in Hp by lia. injection Hp as <-. unfold block_args. cbn [fst snd].
    assert (Hc : forall m j, 0 <= j < Z.of_nat m -> aget (concat (replicate m [WInt 0; wundef])) (j * 2) = Some (WInt 0) /\
      aget (concat (replicate m [WInt 0; wundef])) (j * 2 + 1) = Some wundef).
    { induction m as [| m IH]; intros j Hj; [lia |]. simpl concat. destruct (decide (j = 0)) as [-> |]; [done |].
      rewrite !aget_cons by lia. replace (j * 2 - 1 - 1) with ((j - 1) * 2) by lia. replace (j * 2 + 1 - 1 - 1) with ((j - 1) * 2 + 1) by lia.
      apply IH. lia. }
    destruct (Hc (Z.to_nat n) i ltac:(lia)) as [H1 H2]. rewrite <- app_comm_cons, !aget_cons by lia.
    replace (1 + i * 2 - 1) with (i * 2) by lia. replace (1 + i * 2 + 1 - 1) with (i * 2 + 1) by lia.
    rewrite !aget_app_l by (by eapply aget_Some_lt). done.
  - intros l w Hin. by apply not_elem_of_nil in Hin.
  - intros i k w Hi. pose proof (aget_Some_lt _ _ _ Hi) as Hr. rewrite zlen_replicate in Hr by lia.
    rewrite aget_replicate in Hi by lia. injection Hi as <- <-. by left.
  - unfold free. simpl. rewrite Nat.add_0_r. induction (Z.to_nat n) as [| m IH]; [done |]. cbn [replicate]. rewrite filter_cons_True by done. cbn [length]. by rewrite IH.
Qed.

Lemma PolySel_ok st a n sl label h : slots st a n sl -> Hash st label = Some h -> 0 < n ->
  match PolySel st a label with
  | Some w => exists i, aget sl i = Some (WPtr label, w)
  | None => forall i p, aget sl i = Some p -> p.1 <> WPtr label
  end.
Proof.
  intros Hs Hh Hn. unfold PolySel. rewrite (slot_width _ _ _ _ Hs). cbn [mbind option_bind].
  destruct (Z.eqb_spec n 0); [lia |]. rewrite Hh. cbn [mbind option_bind].
  pose proof (Z.mod_pos_bound h n ltac:(lia)) as Hi. assert (E0 : probe (h mod n) n 0 = h mod n) by (unfold probe; rewrite Z.add_0_r, Z.mod_small; lia).
  pose proof (PolySel_loop_ok st a n sl (h mod n) label Hs Hi (Z.to_nat n) 0 ltac:(lia) ltac:(lia)) as Hp. rewrite E0 in Hp. apply Hp. lia.
Qed.

End Records.

(** C21. A record of [n] slots takes up to [n] fields with different labels, in any
    order and whatever their hash values; then each label selects its value,
    and a label that is not a field is not found. *)
Theorem record_selects `{Platform} {C : Type} (wundef : word) (emptyRecord : Z) (st : store C) (n : Z) (fs : list (Z * word)) :
  0 < n -> (length fs <= Z.to_nat n)%nat -> NoDup (fst <$> fs) -> st_get st (st_next st) = None ->
  Forall (fun p => is_Some (Hash st p.1)) fs ->
  let '(st1, a) := Record_New wundef emptyRecord st n in
  exists st2, init_all st1 a fs = Some st2 /\
    (forall l w, (l, w) ∈ fs -> PolySel st2 a l = Some w) /\
    (forall l, is_Some (Hash st l) -> l ∉ fst <$> fs -> PolySel st2 a l = None).
Proof.
  intros Hn Hlen Hnd Hnew Hfs. pose proof (Record_New_filled wundef emptyRecord st n Hn) as Hr.
  destruct (Record_New wundef emptyRecord st n) as [st1 a]. destruct Hr as (Hf & -> & Ho1).
  assert (Hne : forall l, is_Some (Hash st l) -> l <> st_next st).
  { intros l [h Hh] ->. unfold Hash, GetArg, GetArgs in Hh. by rewrite Hnew in Hh. }
  destruct (init_all_ok st1 (st_next st) n fs [] _ Hf) as (st2 & sl & E & [Hs Hin Hout _] & Ho2).
  { eapply Forall_impl; [exact Hfs |]. intros p Hp. split; [by apply Hne |]. rewrite (Hash_other st st1 (st_next st)); auto. }
  { simpl. lia. }
  exists st2. split; [done |].
  assert (Hhash : forall l, is_Some (Hash st l) -> exists h, Hash st2 l = Some h).
  { intros l Hl. destruct Hl as [h Hh] eqn:El. exists h. rewrite (Hash_other st st2 (st_next st)); auto. intros b Hb. by rewrite Ho2, Ho1. }
  split.
  - intros l w Hl. rewrite Forall_forall in Hfs. destruct (Hhash l (Hfs _ Hl)) as [h Hh].
    pose proof (PolySel_ok st2 _ n sl l h Hs Hh Hn) as Hp. destruct (Hin _ _ Hl) as [i Hi].
    destruct (PolySel st2 (st_next st) l) as [w' |]; [| by destruct (Hp _ _ Hi)]. destruct Hp as [j Hj].
    destruct (Hout _ _ _ Hj) as [| (l' & [= <-] & Hl')]; [done |]. f_equal.
    apply list_elem_of_lookup in Hl as [x Hx], Hl' as [y Hy]. simpl in Hy. assert (x = y) as ->; [| congruence].
    eapply (NoDup_lookup _ x y l Hnd); rewrite list_lookup_fmap; by rewrite ?Hx, ?Hy.
  - intros l Hl Hnot. destruct (Hhash l Hl) as [h Hh]. pose proof (PolySel_ok st2 _ n sl l h Hs Hh Hn) as Hp.
    destruct (PolySel st2 (st_next st) l) as [w |]; [| done]. destruct Hp as [j Hj].
    destruct (Hout _ _ _ Hj) as [| (l' & [= <-] & Hl')]; [done |]. exfalso. apply Hnot. apply list_elem_of_fmap. by exists (l, w).
Qed.

(** C20. [Alice::Compare] ends on values that unfold to finite trees.  If both are
    determined it decides whether the trees are equal; otherwise it compares
    from left to right, up to the first difference, which makes the values
    unequal, or the first undetermined part, whose transient it requests.

    The trees show the parts of tuples, vectors, constructor values and tagged
    values whose tag fits the label, of strings and of numbers, also big ones;
    mutable values and all other immutable ones, among them those with a big
    tag (C33), are their identity.  The hypothesis on [Clash] says that the
    comparison does not come upon a mutable and an immutable value with one
    label, which the code asserts of the values it compares. *)
Theorem Compare_decides {C : Type} (gmpHandler : word) (mpz : word -> Z) (st : store C) (x0 x1 : word) (t0 t1 : tree) (fuel : nat) :
  unfolds gmpHandler mpz st x0 t0 -> unfolds gmpHandler mpz st x1 t1 -> (height t0 <= fuel)%nat -> cmp_tree t0 t1 <> Clash ->
  exists r, Compare gmpHandler mpz fuel st x0 x1 = Some r /\ answer_of st r (cmp_tree t0 t1) /\
    (determined t0 = true -> determined t1 = true -> exists b, r = Result b /\ (b = true <-> t0 = t1)).
Proof.
  intros H0 H1 Hh Hc. destruct (Compare_refines gmpHandler mpz st fuel x0 x1 t0 t1 H0 H1 Hh Hc) as (r & E & Hr).
  exists r. split; [done |]. split; [done |]. intros D0 D1.
  destruct (cmp_tree_equal (height t0) t0 t1 ltac:(lia) D0 D1 Hc) as (b & Eb & Hb). rewrite Eb in Hr.
  destruct r as [b' |]; [| done]. simpl in Hr. subst b'. eauto.
Qed.

(** C32. Values of a data type with so many constructors that their tag does not
    fit the label are compared by identity: two equal values built one after
    the other are different. *)
Theorem Compare_big_tags `{Platform} {C : Type} (wundef gmpHandler : word) (mpz : word -> Z) (st : store C) (tag : Z) (args : list word) (fuel : nat) :
  let '(st1, a) := BigTagVal_New wundef st tag args in
  let '(st2, b) := BigTagVal_New wundef st1 tag args in
  Compare gmpHandler mpz (S (S fuel)) st2 (WPtr a) (WPtr b) = Some (Result false) /\
  Compare gmpHandler mpz (S (S fuel)) st2 (WPtr a) (WPtr a) = Some (Result true).
Proof.
  unfold BigTagVal_New, AllocBlock, st_alloc. cbn [fst snd st_next st_nodes].
  set (n := NBlock Alice.BIG_TAG false (block_args wundef (WInt tag :: args)) : node C). set (k := st_next st).
  set (st2 := mkStore (k + 1 + 1) (<[k + 1 := n]> (<[k := n]> (st_nodes st)))).
  assert (Ga : st_get st2 k = Some n) by (unfold st_get; simpl; rewrite lookup_insert_ne by lia; by rewrite lookup_insert_eq).
  assert (Gb : st_get st2 (k + 1) = Some n) by (unfold st_get; simpl; by rewrite lookup_insert_eq).
  assert (Hd : forall x, st_get st2 x = Some n -> WordToBlock st2 (WPtr x) = Some (Some x) /\ GetLabel st2 x = Some Alice.BIG_TAG /\ IsMutable st2 x = Some false).
  { intros x Gx. unfold WordToBlock, GetLabel, IsMutable, deref. destruct (size _); simpl; rewrite Gx; simpl; by rewrite ?Gx. }
  destruct (Hd _ Ga) as (B1 & L1 & M1), (Hd _ Gb) as (B2 & L2 & M2).
  split.
  - rewrite (compare_blocks gmpHandler mpz st2 (S fuel) (WPtr k) (WPtr (k + 1)) k (k + 1) _ _ _ _ B1 B2 L1 L2 M1 M2).
    change (structural Alice.BIG_TAG false) with false. simpl. f_equal. f_equal. apply Z.eqb_neq. lia.
  - rewrite (compare_blocks gmpHandler mpz st2 (S fuel) (WPtr k) (WPtr k) k k _ _ _ _ B1 B1 L1 L1 M1 M1).
    change (structural Alice.BIG_TAG false) with false. simpl. by rewrite Z.eqb_refl.
Qed.

(** ** Witnesses *)

(** Two labels whose hash values agree modulo 2. *)
Definition sample_labels : store unit :=
  mkStore 3 (<[1 := NBlock UNIQUESTRING_LABEL false [WInt 0; WInt 5]]> (<[2 := NBlock UNIQUESTRING_LABEL false [WInt 1; WInt 9]]> ∅)).

Lemma record_selects_witness :
  exists st2, init_all (H := P32) (Record_New (H := P32) (WInt 0) 0 sample_labels 2).1 3 [(1, WInt 10); (2, WInt 20)] = Some st2 /\
    PolySel (H := P32) st2 3 1 = Some (WInt 10) /\ PolySel (H := P32) st2 3 2 = Some (WInt 20).
Proof.
  destruct (record_selects (H := P32) (WInt 0) 0 sample_labels 2 [(1, WInt 10); (2, WInt 20)]) as (st2 & E & Hsel & _).
  - lia.
  - simpl. lia.
  - apply NoDup_cons. split; [intros [=]%list_elem_of_singleton | apply NoDup_singleton].
  - vm_compute. reflexivity.
  - apply Forall_cons. split; [exists 5; vm_compute; reflexivity |]. apply Forall_singleton. exists 9. vm_compute. reflexivity.
  - exists st2. split; [exact E |]. split; apply Hsel; [left | right; left].
Defined.

(** Triples of a number, a string and a mutable byte array; the second holds
    its string behind a bound transient. *)
Definition sample_pairs : store unit :=
  mkStore 7 (<[1 := NBlock TUPLE_LABEL false [WInt 7; WPtr 3; WPtr 6]]> (<[2 := NBlock TUPLE_LABEL false [WInt 7; WPtr 4; WPtr 6]]>
    (<[3 := NChunk false [97]]> (<[4 := NTransient REF_LABEL (WPtr 5)]> (<[5 := NChunk false [97]]> (<[6 := NChunk true [97]]> ∅)))))).

Lemma Compare_decides_witness :
  Compare (WInt 0) (fun _ => 0) 2 sample_pairs (WPtr 1) (WPtr 2) = Some (Result true).
Proof.
  set (t := TNode TUPLE_LABEL [TNum 7; TChunk [97]; TCell CHUNK_LABEL 6]).
  assert (U : forall a p, (a, p) ∈ [(1, WPtr 3); (2, WPtr 4)] -> unfolds (WInt 0) (fun _ => 0) sample_pairs (WPtr a) t).
  { intros a p Hin. apply (u_node _ _ _ _ a TUPLE_LABEL false [WInt 7; p; WPtr 6]).
    - apply elem_of_cons in Hin as [[= -> ->] | [= -> ->]%list_elem_of_singleton]; vm_compute; reflexivity.
    - apply elem_of_cons in Hin as [[= -> ->] | [= -> ->]%list_elem_of_singleton]; vm_compute; reflexivity.
    - vm_compute. reflexivity.
    - constructor; [apply u_int; vm_compute; reflexivity |]. constructor.
      + apply elem_of_cons in Hin as [[= -> ->] | [= -> ->]%list_elem_of_singleton];
          [apply (u_chunk _ _ _ _ 3) | apply (u_chunk _ _ _ _ 5)]; vm_compute; reflexivity.
      + constructor; [| constructor]. apply u_cell; vm_compute; done. }
  destruct (Compare_decides (WInt 0) (fun _ => 0) sample_pairs (WPtr 1) (WPtr 2) t t 2
    (U 1 (WPtr 3) ltac:(left)) (U 2 (WPtr 4) ltac:(right; left)) ltac:(simpl; lia) ltac:(vm_compute; discriminate)) as (r & E & _ & Hd).
  destruct (Hd eq_refl eq_refl) as (b & -> & Hb). rewrite E. f_equal. f_equal. apply Hb. reflexivity.
Defined.
