(* ===== verification/AbstractCode.v ===== *)
(** * Abstract code (alice/vm-seam/alice/AbstractCode.hh,
    AbstractCodeFrame.hh, AbstractCodeFrame.cc, AbstractCodeInterpreter.cc,
    LazySelInterpreter.hh; Construct and Deconstruct of generic/Worker.cc)

    The instructions of the Alice VM and their interpreter: one step per
    instruction on the frame, the store and the registers of the scheduler.
    Calls of the scheduler that act on the task stack and the handler stack
    are recorded in the order they are made; the result says how the run of
    the frame ends.  Code without the debugger (DEBUGGER is not defined).
    The code that a concrete code stands for is kept in its node; the table
    [closeConcreteCodes], which only shares what [Close] computes, is not
    part of the model. *)

From S2P Require Import Prelude Config HeaderOp AliceData.

(** ** Instructions *)

Inductive idRef := Global (i : Z) | Immediate (w : word) | LastUseLocal (id : Z) | Local (id : Z).
Inductive idDef := IdDef (id : Z) | Wildcard.
Inductive annotation := Debug (localNames : list word) (typ : word) | Simple (nLocals : Z).

(** Coordinates, entry points and liveness tables are data for the debugger
    and the jitter. *)
Inductive instr :=
  | AppPrim (f : word) (args : list idRef) (cont : option (idDef * instr))
  | AppVar (f : idRef) (args : list idRef) (isDirectIn : bool) (cont : option (list idDef * instr))
  | Close (id : Z) (idRefs : list idRef) (t : template) (next : instr)
  | CompactIntTest (x : idRef) (offset : Z) (tests : list instr) (otherwise : instr)
  | CompactTagTest (x : idRef) (nLabels : Z) (tests : list (option (list idDef) * instr)) (otherwise : option instr)
  | ConTest (x : idRef) (nullary : list (idRef * instr)) (nary : list (idRef * list idDef * instr)) (otherwise : instr)
  | Coord (coord : word) (next : instr)
  | EndHandle (next : instr)
  | EndTry (next : instr)
  | Entry (coord entryPoint : word) (next : instr)
  | Exit (coord exitPoint : word) (result : idRef) (next : instr)
  | GetRef (id : Z) (x : idRef) (next : instr)
  | GetTup (idDefs : list idDef) (x : idRef) (next : instr)
  | IntTest (x : idRef) (tests : list (Z * instr)) (otherwise : instr)
  | Kill (ids : list Z) (next : instr)
  | LazyPolySel (ids : list Z) (x : idRef) (labels : list Z) (next : instr)
  | PutCon (id : Z) (constructor : idRef) (args : list idRef) (next : instr)
  | PutNew (id : Z) (name : word) (next : instr)
  | PutPolyRec (id : Z) (labels : list Z) (args : list idRef) (next : instr)
  | PutRef (id : Z) (x : idRef) (next : instr)
  | PutTag (id nLabels tag : Z) (args : list idRef) (next : instr)
  | PutTup (id : Z) (args : list idRef) (next : instr)
  | PutVar (id : Z) (x : idRef) (next : instr)
  | PutVec (id : Z) (args : list idRef) (next : instr)
  | Raise (x : idRef)
  | RealTest (x : idRef) (tests : list (list Z * instr)) (otherwise : instr)
  | Reraise (x : idRef)
  | Return (results : list idRef)
  | Sel (id : Z) (x : idRef) (i : Z) (next : instr)
  | Shared (stamp : Z) (next : instr)
  | Specialize (id : Z) (idRefs : list idRef) (t : template) (next : instr)
  | StringTest (x : idRef) (tests : list (list Z * instr)) (otherwise : instr)
  | TagTest (x : idRef) (nLabels : Z) (nullary : list (Z * instr)) (nary : list (Z * list idDef * instr)) (otherwise : instr)
  | Try (body : instr) (package exn : idDef) (handler : instr)
  | VecTest (x : idRef) (tests : list (list idDef * instr)) (otherwise : instr)
with template :=
  | Template (coord : word) (nGlobals : Z) (annot : annotation) (args : list idDef) (outArity : option Z) (body : instr) (liveness : word).

(** A function: a template with the substitution of its globals. *)
Inductive abstractCode :=
  | Function (coord : word) (subst : list idRef) (annot : annotation) (args : list idDef) (outArity : option Z) (body : instr) (liveness : word).

Definition f_subst (f : abstractCode) : list idRef := let '(Function _ subst _ _ _ _ _) := f in subst.
Definition f_args (f : abstractCode) : list idDef := let '(Function _ _ _ args _ _ _) := f in args.
Definition f_outArity (f : abstractCode) : option Z := let '(Function _ _ _ _ out _ _) := f in out.
Definition f_body (f : abstractCode) : instr := let '(Function _ _ _ _ _ body _) := f in body.

Definition GetNumberOfLocals (f : abstractCode) : Z :=
  let '(Function _ _ annot _ _ _ _) := f in match annot with Simple n => n | Debug names _ => zlen names end.

Definition is_global (x : idRef) : bool := match x with Global _ => true | _ => false end.
Definition GetNumberOfGlobals (idRefs : list idRef) : Z := zlen (filter (fun x => is_global x = true) idRefs).
Definition GetClosureSize (f : abstractCode) : Z := GetNumberOfGlobals (f_subst f).

(** ** The state of a run *)

#[local] Abbreviation store := (store abstractCode).

(** What a frame expects when it is continued: a vector of definitions, or one
    definition or wildcard. *)
Inductive formalArgs := Formals (idDefs : list idDef) | Formal (d : idDef).

Inductive call :=
  | PushHandler (pc : instr) (formals : list idDef)
  | PopHandler
  | PopFrame
  | NewBacktrace
  | SetBacktrace (w : word).

Record state := mkState {
  s_store : store;
  s_locals : list word;       (* the frame: its locals, ... *)
  s_pc : instr;
  s_coord : word;
  s_formals : formalArgs;     (* ... PC_POS, COORD_POS and FORMAL_ARGS_POS *)
  s_args : list word;         (* the first nArgs of currentArgs *)
  s_data : word;              (* currentData *)
  s_calls : list call         (* the calls so far, the last one first *)
}.

Definition with_store x s := mkState x (s_locals s) (s_pc s) (s_coord s) (s_formals s) (s_args s) (s_data s) (s_calls s).
Definition with_locals x s := mkState (s_store s) x (s_pc s) (s_coord s) (s_formals s) (s_args s) (s_data s) (s_calls s).
Definition with_pc x s := mkState (s_store s) (s_locals s) x (s_coord s) (s_formals s) (s_args s) (s_data s) (s_calls s).
Definition with_coord x s := mkState (s_store s) (s_locals s) (s_pc s) x (s_formals s) (s_args s) (s_data s) (s_calls s).
Definition with_formals x s := mkState (s_store s) (s_locals s) (s_pc s) (s_coord s) x (s_args s) (s_data s) (s_calls s).
Definition with_args x s := mkState (s_store s) (s_locals s) (s_pc s) (s_coord s) (s_formals s) x (s_data s) (s_calls s).
Definition with_data x s := mkState (s_store s) (s_locals s) (s_pc s) (s_coord s) (s_formals s) (s_args s) x (s_calls s).
Definition with_call c s := mkState (s_store s) (s_locals s) (s_pc s) (s_coord s) (s_formals s) (s_args s) (s_data s) (c :: s_calls s).

(** How the run of a frame ends: a Worker::Result, or a call of a closure or
    primitive, whose CONTINUE becomes PREEMPT if [preempt]. *)
Inductive stop := SRequest | SRaise | SReraise | SContinue | SPreempt | SPushCall (w : word) (preempt : bool).

Inductive next := Goto (pc : instr) (coord : word) | Stop (r : stop).

(** The result of looking a constructor up among tests. *)
Inductive con_result (A : Type) := CRequest (w : word) | CFound (a : A) | CNone.
Arguments CRequest {A} _.
Arguments CFound {A} _.
Arguments CNone {A}.

(** ** State transformers that may fail *)

Definition M (A : Type) : Type := state -> option (A * state).
Definition ret {A} (a : A) : M A := fun s => Some (a, s).
Definition bind {A B} (m : M A) (k : A -> M B) : M B := fun s => match m s with Some (a, s) => k a s | None => None end.
Definition gets {A} (f : state -> A) : M A := fun s => Some (f s, s).
Definition modify (f : state -> state) : M unit := fun s => Some (tt, f s).
Definition lift {A} (o : option A) : M A := fun s => match o with Some a => Some (a, s) | None => None end.
(** A look at the store. *)
Definition look {A} (f : store -> option A) : M A := fun s => match f (s_store s) with Some a => Some (a, s) | None => None end.
(** An allocation. *)
Definition alloc (f : store -> store * Z) : M word := fun s => let '(st, a) := f (s_store s) in Some (WPtr a, with_store st s).

Declare Scope ac_scope.
Delimit Scope ac_scope with ac.
Notation "x <- m ;; k" := (bind m (fun x => k)) (at level 100, m at next level, right associativity) : ac_scope.
Notation "m ;; k" := (bind m (fun _ => k)) (at level 100, right associativity) : ac_scope.

Section Interpreter.
Context `{Platform}.
(** The value of uninitialised memory, of locals before their definition
    (AliceLanguageLayer::undefinedValue) and of killed locals (integer 0, or
    [dead] if DEBUG_CHECK is defined); the handler of constructors, the
    concrete code of lazy selections and the status word. *)
Variables (wundef undefinedValue : word) (killed : word) (constructorHandler lazySelCode : word) (status : Z).
(** The vector and the record without elements. *)
Variables (emptyVector emptyRecord : Z).
#[local] Open Scope ac_scope.
Implicit Types (g : Z) (id : Z) (x : idRef).

(** ** Frames (AbstractCodeFrame) *)

Definition GetLocal id : M word := l <- gets s_locals;; lift (aget l id).
Definition SetLocal id (w : word) : M unit := l <- gets s_locals;; l <- lift (aset l id w);; modify (with_locals l).
Definition KillLocal id : M unit := SetLocal id killed.

(** ** Code of closures *)

Definition ConcreteToAbstractCode (st : store) (w : word) : option abstractCode :=
  p ← WordToBlock st w; a ← p; n ← st_get st a; match n with NCode f => Some f | _ => None end.

Definition closure_code (st : store) g : option abstractCode := w ← GetArg st g 0; ConcreteToAbstractCode st w.
Definition Closure_Sub (st : store) g (i : Z) : option word := GetArg st g (1 + i).

(** ** Operands *)

Definition GetIdRef g x : M word :=
  match x with
  | Immediate w => ret w
  | Local id | LastUseLocal id => GetLocal id
  | Global i =>
      f <- look (fun st => closure_code st g);;
      x <- lift (aget (f_subst f) i);;
      match x with
      | Immediate w => ret w
      | Local id | LastUseLocal id => GetLocal id
      | Global j => look (fun st => Closure_Sub st g j)
      end
  end.

Definition KillIdRef x : M unit := match x with LastUseLocal id => KillLocal id | _ => ret tt end.
Definition GetIdRefKill g x : M word := w <- GetIdRef g x;; KillIdRef x;; ret w.

(** The loops over a vector of operands, from the last one down. *)
Fixpoint GetIdRefsKill g (xs : list idRef) : M (list word) :=
  match xs with
  | [] => ret []
  | x :: xs => ws <- GetIdRefsKill g xs;; w <- GetIdRefKill g x;; ret (w :: ws)
  end.

(** The loops that define locals, from the last one down; [sel] is the value
    of the [i]-th. *)
Fixpoint set_defs (sel : Z -> M word) (ds : list idDef) (i : Z) : M unit :=
  match ds with
  | [] => ret tt
  | d :: ds =>
      set_defs sel ds (i + 1);;
      match d with IdDef id => w <- sel i;; SetLocal id w | Wildcard => ret tt end
  end.

Definition sel_arg (a off i : Z) : M word := look (fun st => GetArg st a (off + i)).

Definition maxArgs : Z := 16.
Definition SetArgs (ws : list word) : M unit := if zlen ws <=? maxArgs then modify (with_args ws) else lift None.

(** ** Results *)

Definition REQUEST (pc : instr) (coord : word) (w : word) : M next :=
  t <- look (fun st => WordToTransient st w);;
  match t with
  | None => lift None
  | Some _ =>
      modify (fun s => with_args [] (with_data w (with_formals (Formals []) (with_coord coord (with_pc pc s)))));;
      ret (Stop SRequest)
  end.

Definition POP_CHECK_PREEMPT : M next :=
  modify (with_call PopFrame);; ret (Stop (if status =? 0 then SContinue else SPreempt)).

(** Saving the continuation of a call, or popping the frame of a tail call. *)
Definition save_cont (coord : word) (cont : option (formalArgs * instr)) : M unit :=
  match cont with
  | Some (formals, pc) => modify (fun s => with_formals formals (with_coord coord (with_pc pc s)))
  | None => modify (with_call PopFrame)
  end.

(** ** Closures *)

(** The substitution that a closed function inherits: immediate globals of the
    parent stay immediate, the others are numbered from [j]. *)
Fixpoint inherit_subst (parentSubst : list idRef) (idRefs : list idRef) (j : Z) : option (list idRef) :=
  match idRefs with
  | [] => Some []
  | x :: xs =>
      s ← match x with Global i => aget parentSubst i | _ => Some x end;
      match x, s with
      | Global _, Immediate _ => rest ← inherit_subst parentSubst xs j; Some (s :: rest)
      | _, _ => rest ← inherit_subst parentSubst xs (j + 1); Some (Global j :: rest)
      end
  end.

Definition instantiate (t : template) (subst : list idRef) : abstractCode :=
  let '(Template coord _ annot args outArity body liveness) := t in Function coord subst annot args outArity body liveness.

Definition GetCloseConcreteCode g (idRefs : list idRef) (t : template) : M word :=
  f <- look (fun st => closure_code st g);;
  subst <- lift (inherit_subst (f_subst f) idRefs 0);;
  alloc (fun st => st_alloc st (NCode (instantiate t subst))).

(** The values of the closure, from the first operand up: those whose
    substitution is a global. *)
Fixpoint close_values g (idRefs subst : list idRef) : M (list word) :=
  match idRefs, subst with
  | [], _ => ret []
  | x :: xs, s :: ss =>
      w <- GetIdRefKill g x;;
      ws <- close_values g xs ss;;
      ret (if is_global s then w :: ws else ws)
  | _ :: _, [] => lift None
  end.

Definition Closure_New (st : store) (code : word) (globals : list word) : store * Z := AllocMutableBlock wundef st CLOSURE_LABEL (code :: globals).

(** ** Tests *)

Definition find_int {A} (tests : list (Z * A)) (i : Z) : option A := snd <$> find (fun p => p.1 =? i) tests.

(** The constructors of a test are looked up one after the other. *)
Fixpoint find_con {A} g (constructor : Z) (tests : list (idRef * A)) : M (con_result A) :=
  match tests with
  | [] => ret CNone
  | (x, a) :: tests =>
      w <- GetIdRef g x;;
      p <- look (fun st => WordToBlock st w);;
      match p with
      | None => ret (CRequest w)
      | Some c => if c =? constructor then ret (CFound a) else find_con g constructor tests
      end
  end.

(** IEEE equality of doubles by their network representation: no number equals
    a NaN, and the zeros are equal. *)
Definition double_bits (bytes : list Z) : Z := foldl (fun acc b => acc * 256 + b) 0 bytes.
Definition double_nan (d : Z) : bool := (Z.land (Z.shiftr d 52) 2047 =? 2047) && negb (Z.land d (Z.ones 52) =? 0).
Definition double_zero (d : Z) : bool := Z.land d (Z.ones 63) =? 0.
Definition double_eq (x y : list Z) : bool :=
  let d := double_bits x in let e := double_bits y in
  negb (double_nan d) && negb (double_nan e) && ((d =? e) || (double_zero d && double_zero e)).

Definition find_real {A} (tests : list (list Z * A)) (bytes : list Z) : option A := snd <$> find (fun p => double_eq p.1 bytes) tests.
Definition find_string {A} (tests : list (list Z * A)) (bytes : list Z) : option A :=
  snd <$> find (fun p => bool_decide (p.1 = bytes)) tests.

(** ** Lazy selection *)

Definition LazySel (w : word) (label : Z) : M word :=
  c <- alloc (fun st => Closure_New st lazySelCode [w; WPtr label]);;
  alloc (fun st => st_alloc st (NTransient BYNEED_LABEL c)).

Fixpoint lazy_sels (select : Z -> M word) (ids : list Z) (labels : list Z) : M unit :=
  match ids, labels with
  | id :: ids, label :: labels => lazy_sels select ids labels;; w <- select label;; SetLocal id w
  | [], [] => ret tt
  | _, _ => lift None
  end.

(** ** One instruction (AbstractCodeInterpreter::Run) *)

Definition goto (coord : word) (pc : instr) : M next := ret (Goto pc coord).

(** A definition of a local by a new block. *)
Definition put (id : Z) (f : store -> store * Z) : M unit := w <- alloc f;; SetLocal id w.

Definition step_put g (pc : instr) (coord : word) : M next :=
  match pc with
  | PutVar id x pc => w <- GetIdRefKill g x;; SetLocal id w;; goto coord pc
  | PutNew id name pc =>
      put id (fun st => AllocMutableBlock wundef st CONCRETE_LABEL [constructorHandler; name; WInt 0]);; goto coord pc
  | PutTag id nLabels tag args pc =>
      ws <- GetIdRefsKill g args;;
      (if Alice.IsBigTagVal nLabels then put id (fun st => BigTagVal_New wundef st tag ws)
       else l <- lift (Alice.TagToLabel tag);; put id (fun st => AllocBlock wundef st l ws));;
      goto coord pc
  | PutCon id c args pc' =>
      w <- GetIdRef g c;;
      p <- look (fun st => WordToBlock st w);;
      match p with
      | None => REQUEST pc coord w
      | Some constructor =>
          KillIdRef c;;
          ws <- GetIdRefsKill g args;;
          put id (fun st => ConVal_New wundef st constructor ws);; goto coord pc'
      end
  | PutRef id x pc => w <- GetIdRefKill g x;; put id (fun st => Cell_New wundef st w);; goto coord pc
  | PutTup id args pc =>
      (if zlen args =? 0 then SetLocal id (WInt 0)
       else ws <- GetIdRefsKill g args;; put id (fun st => Tuple_New wundef st ws));;
      goto coord pc
  | PutPolyRec id labels args pc =>
      if zlen labels =? zlen args then
        ws <- GetIdRefsKill g args;; put id (fun st => Record_NewLabels wundef emptyRecord st labels ws);; goto coord pc
      else lift None
  | PutVec id args pc => ws <- GetIdRefsKill g args;; put id (fun st => Vector_New wundef emptyVector st ws);; goto coord pc
  | _ => lift None
  end.

Definition step_close g (pc : instr) (coord : word) : M next :=
  match pc with
  | Close id idRefs t pc =>
      code <- GetCloseConcreteCode g idRefs t;;
      f <- look (fun st => ConcreteToAbstractCode st code);;
      ws <- close_values g idRefs (f_subst f);;
      put id (fun st => Closure_New st code ws);; goto coord pc
  | Specialize id idRefs t pc =>
      let '(Template _ nGlobals _ _ _ _ _) := t in
      if nGlobals =? zlen idRefs then
        ws <- GetIdRefsKill g idRefs;;
        code <- alloc (fun st => st_alloc st (NCode (instantiate t (map Immediate ws))));;
        put id (fun st => Closure_New st code []);; goto coord pc
      else lift None
  | _ => lift None
  end.

Definition step_get g (pc : instr) (coord : word) : M next :=
  match pc with
  | GetRef id x pc' =>
      w <- GetIdRef g x;;
      cell <- look (fun st => Cell_FromWord st w);;
      match cell with
      | None => REQUEST pc coord w
      | Some cell => KillIdRef x;; w <- look (fun st => Cell_Access st cell);; SetLocal id w;; goto coord pc'
      end
  | GetTup idDefs x pc' =>
      w <- GetIdRef g x;;
      if zlen idDefs =? 0 then
        i <- look (fun st => WordToInt st w);;
        match i with None => REQUEST pc coord w | Some _ => KillIdRef x;; goto coord pc' end
      else
        tuple <- look (fun st => Tuple_FromWord st w);;
        match tuple with
        | None => REQUEST pc coord w
        | Some tuple =>
            KillIdRef x;;
            look (fun st => AssertWidth st tuple (zlen idDefs));;
            set_defs (sel_arg tuple 0) idDefs 0;; goto coord pc'
        end
  | Sel id x i pc' =>
      w <- GetIdRef g x;;
      tuple <- look (fun st => Tuple_FromWord st w);;
      match tuple with
      | None => REQUEST pc coord w
      | Some tuple => KillIdRef x;; w <- look (fun st => GetArg st tuple i);; SetLocal id w;; goto coord pc'
      end
  | LazyPolySel ids x labels pc' =>
      w <- GetIdRefKill g x;;
      record <- look (fun st => Record_FromWord st w);;
      match record with
      | None => lazy_sels (LazySel w) ids labels
      | Some record => lazy_sels (fun label => look (fun st => PolySel st record label)) ids labels
      end;;
      goto coord pc'
  | _ => lift None
  end.

(** Calls and returns. *)
Definition step_call g (pc : instr) (coord : word) : M next :=
  match pc with
  | AppPrim f args cont =>
      ws <- GetIdRefsKill g args;; SetArgs ws;;
      save_cont coord (option_map (fun c => (Formal c.1, c.2)) cont);;
      ret (Stop (SPushCall f false))
  | AppVar f args _ cont =>
      ws <- GetIdRefsKill g args;; SetArgs ws;;
      closure <- GetIdRefKill g f;;
      save_cont coord (option_map (fun c => (Formals c.1, c.2)) cont);;
      ret (Stop (SPushCall closure (negb (status =? 0))))
  | Return results => ws <- GetIdRefsKill g results;; SetArgs ws;; POP_CHECK_PREEMPT
  | _ => lift None
  end.

(** Exceptions and handlers. *)
Definition step_exn g (pc : instr) (coord : word) : M next :=
  match pc with
  | Raise x =>
      w <- GetIdRef g x;;
      t <- look (fun st => WordToTransient st w);;
      match t with
      | Some a => REQUEST pc coord (WPtr a)
      | None =>
          KillIdRef x;;
          modify (fun s => with_call NewBacktrace (with_data w (with_coord coord s)));; ret (Stop SRaise)
      end
  | Reraise x =>
      w <- GetIdRefKill g x;;
      package <- look (fun st => Tuple_FromWordDirect st w);;
      look (fun st => AssertWidth st package 2);;
      exn <- look (fun st => GetArg st package 0);;
      backtrace <- look (fun st => GetArg st package 1);;
      modify (fun s => with_call (SetBacktrace backtrace) (with_data exn (with_coord coord s)));; ret (Stop SReraise)
  | Try body package exn handler => modify (with_call (PushHandler handler [package; exn]));; goto coord body
  | EndTry pc => modify (with_call PopHandler);; goto coord pc
  | EndHandle pc => modify (with_call PopHandler);; goto coord pc
  | _ => lift None
  end.

(** The view of a tagged value: its integer, or its block. *)
Definition tag_view (big : bool) (w : word) : M (option Z) :=
  look (fun st => if big then BigTagVal_FromWord st w else TagVal_FromWord st w).
Definition tag_of (big : bool) (a : Z) : M Z :=
  look (fun st => if big then BigTagVal_GetTag st a else TagVal_GetTag st a).
Definition tag_offset (big : bool) : Z := if big then 1 else 0.

Definition bind_tag (big : bool) (a : Z) (idDefs : list idDef) : M unit :=
  look (fun st => AssertWidth st a (zlen idDefs + tag_offset big));; set_defs (sel_arg a (tag_offset big)) idDefs 0.

Definition step_test g (pc : instr) (coord : word) : M next :=
  match pc with
  | IntTest x tests otherwise =>
      w <- GetIdRef g x;;
      i <- look (fun st => WordToInt st w);;
      match i with
      | None => REQUEST pc coord w
      | Some i => KillIdRef x;; goto coord (default otherwise (find_int tests i))
      end
  | CompactIntTest x offset tests otherwise =>
      w <- GetIdRef g x;;
      i <- look (fun st => WordToInt st w);;
      match i with
      | None => REQUEST pc coord w
      | Some i => KillIdRef x;; goto coord (default otherwise (aget tests (u_int (i - offset))))
      end
  | RealTest x tests otherwise =>
      w <- GetIdRef g x;;
      c <- look (fun st => Chunk_FromWord st w);;
      match c with
      | None => REQUEST pc coord w
      | Some bytes => KillIdRef x;; goto coord (default otherwise (find_real tests bytes))
      end
  | StringTest x tests otherwise =>
      w <- GetIdRef g x;;
      c <- look (fun st => Chunk_FromWord st w);;
      match c with
      | None => REQUEST pc coord w
      | Some bytes => KillIdRef x;; goto coord (default otherwise (find_string tests bytes))
      end
  | _ => lift None
  end.

Definition step_tag g (pc : instr) (coord : word) : M next :=
  match pc with
  | TagTest x nLabels nullary nary otherwise =>
      let big := Alice.IsBigTagVal nLabels in
      w <- GetIdRef g x;;
      p <- tag_view big w;;
      match p with
      | None =>
          i <- look (fun st => WordToInt st w);;
          match i with
          | None => REQUEST pc coord w
          | Some tag => KillIdRef x;; goto coord (default otherwise (find_int nullary tag))
          end
      | Some a =>
          KillIdRef x;;
          tag <- tag_of big a;;
          match find (fun t => t.1.1 =? tag) nary with
          | Some (_, idDefs, pc) => bind_tag big a idDefs;; goto coord pc
          | None => goto coord otherwise
          end
      end
  | CompactTagTest x nLabels tests otherwise =>
      let big := Alice.IsBigTagVal nLabels in
      w <- GetIdRef g x;;
      p <- tag_view big w;;
      match p with
      | None =>
          i <- look (fun st => WordToInt st w);;
          match i with
          | None => REQUEST pc coord w
          | Some tag =>
              KillIdRef x;;
              match aget tests (u_int tag) with
              | Some (None, pc) => goto coord pc
              | Some (Some _, _) => lift None
              | None => pc <- lift otherwise;; goto coord pc
              end
          end
      | Some a =>
          KillIdRef x;;
          tag <- tag_of big a;;
          match aget tests (u_int tag) with
          | Some (Some idDefs, pc) => bind_tag big a idDefs;; goto coord pc
          | Some (None, _) => lift None
          | None => pc <- lift otherwise;; goto coord pc
          end
      end
  | _ => lift None
  end.

Definition step_con g (pc : instr) (coord : word) : M next :=
  match pc with
  | ConTest x nullary nary otherwise =>
      w <- GetIdRef g x;;
      p <- look (fun st => ConVal_FromWord st w);;
      match p with
      | None => REQUEST pc coord w
      | Some a =>
          l <- look (fun st => GetLabel st a);;
          if l =? Alice.ConVal then
            c <- look (fun st => GetConstructor st a);;
            r <- find_con g c (map (fun t => (t.1.1, (t.1.2, t.2))) nary);;
            match r with
            | CRequest w => REQUEST pc coord w
            | CFound (idDefs, pc) =>
                look (fun st => AssertWidth st a (zlen idDefs + 1));;
                set_defs (sel_arg a 1) idDefs 0;; KillIdRef x;; goto coord pc
            | CNone => goto coord otherwise
            end
          else
            r <- find_con g a nullary;;
            match r with
            | CRequest w => REQUEST pc coord w
            | CFound pc => KillIdRef x;; goto coord pc
            | CNone => goto coord otherwise
            end
      end
  | VecTest x tests otherwise =>
      w <- GetIdRef g x;;
      p <- look (fun st => Vector_FromWord st w);;
      match p with
      | None => REQUEST pc coord w
      | Some a =>
          KillIdRef x;;
          n <- look (fun st => Vector_GetLength st a);;
          match find (fun t => zlen t.1 =? n) tests with
          | Some (idDefs, pc) => set_defs (sel_arg a 1) idDefs 0;; goto coord pc
          | None => goto coord otherwise
          end
      end
  | _ => lift None
  end.

Fixpoint KillLocals (ids : list Z) : M unit :=
  match ids with [] => ret tt | id :: ids => KillLocals ids;; KillLocal id end.

Definition step g (pc : instr) (coord : word) : M next :=
  match pc with
  | Coord coord pc | Entry coord _ pc | Exit coord _ _ pc => goto coord pc
  | Shared _ pc => goto coord pc
  | Kill ids pc => KillLocals ids;; goto coord pc
  | PutVar _ _ _ | PutNew _ _ _ | PutTag _ _ _ _ _ | PutCon _ _ _ _ | PutRef _ _ _ | PutTup _ _ _ | PutPolyRec _ _ _ _
  | PutVec _ _ _ => step_put g pc coord
  | Close _ _ _ _ | Specialize _ _ _ _ => step_close g pc coord
  | GetRef _ _ _ | GetTup _ _ _ | Sel _ _ _ _ | LazyPolySel _ _ _ _ => step_get g pc coord
  | AppPrim _ _ _ | AppVar _ _ _ _ | Return _ => step_call g pc coord
  | Raise _ | Reraise _ | Try _ _ _ _ | EndTry _ | EndHandle _ => step_exn g pc coord
  | IntTest _ _ _ | CompactIntTest _ _ _ _ | RealTest _ _ _ | StringTest _ _ _ => step_test g pc coord
  | TagTest _ _ _ _ _ | CompactTagTest _ _ _ _ => step_tag g pc coord
  | ConTest _ _ _ _ | VecTest _ _ _ => step_con g pc coord
  end.

(** ** Running a frame *)

(** [None] if [fuel] instructions are not enough. *)
Fixpoint run_loop (fuel : nat) g (pc : instr) (coord : word) : M (option stop) :=
  match fuel with
  | O => ret None
  | S fuel =>
      n <- step g pc coord;;
      match n with Goto pc coord => run_loop fuel g pc coord | Stop r => ret (Some r) end
  end.

(** [Worker::Construct] and [Worker::Deconstruct], which returns whether an
    argument must be requested. *)
Definition Construct : M unit :=
  args <- gets s_args;;
  match args with
  | [] => modify (with_args [WInt 0])
  | [_] => ret tt
  | _ => w <- alloc (fun st => Tuple_New wundef st args);; modify (with_args [w])
  end.

Definition Deconstruct : M bool :=
  args <- gets s_args;;
  match args with
  | [arg] =>
      t <- look (fun st => WordToTransient st arg);;
      match t with
      | None =>
          p <- look (fun st => Tuple_FromWord st arg);;
          a <- lift p;;
          ws <- look (fun st => GetArgs st a);;
          SetArgs ws;; ret false
      | Some _ => modify (with_data arg);; ret true
      end
  | _ => ret false
  end.

Definition arg_at (i : Z) : M word := args <- gets s_args;; lift (aget args i).

(** The conversion of the arguments: whether one must be requested. *)
Definition enter_formals (formals : formalArgs) : M bool :=
  match formals with
  | Formal Wildcard => ret false
  | Formal (IdDef id) => Construct;; w <- arg_at 0;; SetLocal id w;; ret false
  | Formals [] =>
      args <- gets s_args;;
      match args with
      | [] => ret false
      | [unit] =>
          i <- look (fun st => WordToInt st unit);;
          match i with None => modify (with_data unit);; ret true | Some _ => ret false end
      | _ => lift None
      end
  | Formals [d] => Construct;; match d with IdDef id => w <- arg_at 0;; SetLocal id w | Wildcard => ret tt end;; ret false
  | Formals idDefs =>
      requested <- Deconstruct;;
      if requested : bool then ret true
      else
        args <- gets s_args;;
        if zlen args =? zlen idDefs then set_defs arg_at idDefs 0;; ret false else lift None
  end.

Definition enter : M bool := formals <- gets s_formals;; enter_formals formals.

Definition Run (fuel : nat) g : M (option stop) :=
  pc <- gets s_pc;;
  coord <- gets s_coord;;
  requested <- enter;;
  if requested : bool then ret (Some SRequest) else run_loop fuel g pc coord.

(** [AbstractCodeFrame::New] for a closure: the state of the new frame. *)
Definition New_frame g (s : state) : option state :=
  f ← closure_code (s_store s) g;
  Some (mkState (s_store s) (replicate (Z.to_nat (GetNumberOfLocals f)) undefinedValue) (f_body f) (WInt 0) (Formals (f_args f))
          (s_args s) (s_data s) (s_calls s)).

(** [AbstractCodeInterpreter::Handle]: the package and the exception become
    the arguments of the handler. *)
Definition Handle (handler : instr * list idDef) (package exn : word) : M stop :=
  modify (fun s => with_formals (Formals handler.2) (with_pc handler.1 (with_args [package; exn] s)));; ret SContinue.

Definition GetInArity (f : abstractCode) : Z := zlen (f_args f).
Definition GetOutArity (f : abstractCode) : option Z := f_outArity f.

End Interpreter.
