(* ===== verification/AbstractCodeWf.v ===== *)
(** * Liveness of abstract code, checked

    The compiler marks the last use of a local and inserts [Kill], so that a
    frame keeps no dead value alive.  [check] is a type system for the
    discipline: a local is read only when it holds a value, and no local that
    a pending handler reads is killed.  [session] is the life of a frame
    between its calls, requests and exceptions.  The development shows that in
    checked code nothing depends on what killed or undefined locals hold. *)

From S2P Require Import Prelude Config HeaderOp AliceData AbstractCode.

Abbreviation lset := (gset Z).

(** ** The checker *)

Definition def_id (d : idDef) : lset := match d with IdDef id => {[id]} | Wildcard => ∅ end.
Definition defs (A : lset) (ds : list idDef) : lset := A ∪ ⋃ (def_id <$> ds).

Definition reads (A : lset) (x : idRef) : bool :=
  match x with Local id | LastUseLocal id => bool_decide (id ∈ A) | Global _ | Immediate _ => true end.

(** Locals that pending handlers need, the innermost handler first. *)
Abbreviation pending := (list lset).
Definition protected (H : pending) : lset := ⋃ H.

Definition kills (H : pending) (A : lset) (id : Z) : option lset :=
  if decide (id ∈ protected H) then None else Some (A ∖ {[id]}).

Definition use (H : pending) (A : lset) (x : idRef) : option lset :=
  if reads A x then match x with LastUseLocal id => kills H A id | _ => Some A end else None.

(** Operands from the last one down, and from the first one up. *)
Fixpoint uses (H : pending) (A : lset) (xs : list idRef) : option lset :=
  match xs with [] => Some A | x :: xs => A ← uses H A xs; use H A x end.
Fixpoint uses_up (H : pending) (A : lset) (xs : list idRef) : option lset :=
  match xs with [] => Some A | x :: xs => A ← use H A x; uses_up H A xs end.
Fixpoint kill_all (H : pending) (A : lset) (ids : list Z) : option lset :=
  match ids with [] => Some A | id :: ids => A ← kill_all H A ids; kills H A id end.

Definition ref_id (x : idRef) : lset := match x with Local id | LastUseLocal id => {[id]} | _ => ∅ end.
Definition ref_ids (xs : list idRef) : lset := ⋃ (ref_id <$> xs).

(** The locals that the instructions mention as operands. *)
Fixpoint mentions (pc : instr) : lset :=
  match pc with
  | AppPrim _ args cont => ref_ids args ∪ match cont with Some (_, pc) => mentions pc | None => ∅ end
  | AppVar f args _ cont => ref_id f ∪ ref_ids args ∪ match cont with Some (_, pc) => mentions pc | None => ∅ end
  | Close _ xs _ pc | PutTag _ _ _ xs pc | PutPolyRec _ _ xs pc | PutTup _ xs pc | PutVec _ xs pc | Specialize _ xs _ pc =>
      ref_ids xs ∪ mentions pc
  | CompactIntTest x _ tests otherwise => ref_id x ∪ ⋃ (map mentions tests) ∪ mentions otherwise
  | CompactTagTest x _ tests otherwise =>
      ref_id x ∪ ⋃ (map (fun t => let '(_, pc) := t in mentions pc) tests) ∪ match otherwise with Some pc => mentions pc | None => ∅ end
  | ConTest x nullary nary otherwise =>
      ref_id x ∪ ⋃ (map (fun t => let '(c, pc) := t in ref_id c ∪ mentions pc) nullary)
        ∪ ⋃ (map (fun t => let '(c, _, pc) := t in ref_id c ∪ mentions pc) nary) ∪ mentions otherwise
  | Coord _ pc | EndHandle pc | EndTry pc | Entry _ _ pc | Exit _ _ _ pc | Kill _ pc | PutNew _ _ pc | Shared _ pc => mentions pc
  | GetRef _ x pc | GetTup _ x pc | LazyPolySel _ x _ pc | PutRef _ x pc | PutVar _ x pc | Sel _ x _ pc => ref_id x ∪ mentions pc
  | IntTest x tests otherwise => ref_id x ∪ ⋃ (map (fun t => let '(_, pc) := t in mentions pc) tests) ∪ mentions otherwise
  | RealTest x tests otherwise => ref_id x ∪ ⋃ (map (fun t => let '(_, pc) := t in mentions pc) tests) ∪ mentions otherwise
  | StringTest x tests otherwise => ref_id x ∪ ⋃ (map (fun t => let '(_, pc) := t in mentions pc) tests) ∪ mentions otherwise
  | TagTest x _ nullary nary otherwise =>
      ref_id x ∪ ⋃ (map (fun t => let '(_, pc) := t in mentions pc) nullary)
        ∪ ⋃ (map (fun t => let '(_, _, pc) := t in mentions pc) nary) ∪ mentions otherwise
  | VecTest x tests otherwise => ref_id x ∪ ⋃ (map (fun t => let '(_, pc) := t in mentions pc) tests) ∪ mentions otherwise
  | PutCon _ c xs pc => ref_id c ∪ ref_ids xs ∪ mentions pc
  | Raise x | Reraise x => ref_id x
  | Return xs => ref_ids xs
  | Try body _ _ handler => mentions body ∪ mentions handler
  end.

Definition holds (o : option lset) (k : lset -> bool) : bool := match o with Some A => k A | None => false end.

Fixpoint check (H : pending) (A : lset) (pc : instr) : bool :=
  match pc with
  | AppPrim _ args cont => holds (uses H A args) (fun A => match cont with Some (d, pc) => check H (defs A [d]) pc | None => true end)
  | AppVar f args _ cont =>
      holds (A ← uses H A args; use H A f) (fun A => match cont with Some (ds, pc) => check H (defs A ds) pc | None => true end)
  | Close id xs _ pc => holds (uses_up H A xs) (fun A => check H (defs A [IdDef id]) pc)
  | PutTag id _ _ xs pc | PutPolyRec id _ xs pc | PutTup id xs pc | PutVec id xs pc | Specialize id xs _ pc =>
      holds (uses H A xs) (fun A => check H (defs A [IdDef id]) pc)
  | PutCon id c xs pc => holds (A ← use H A c; uses H A xs) (fun A => check H (defs A [IdDef id]) pc)
  | PutNew id _ pc => check H (defs A [IdDef id]) pc
  | GetRef id x pc | PutRef id x pc | PutVar id x pc | Sel id x _ pc => holds (use H A x) (fun A => check H (defs A [IdDef id]) pc)
  | GetTup ds x pc => holds (use H A x) (fun A => check H (defs A ds) pc)
  | LazyPolySel ids x _ pc => holds (use H A x) (fun A => check H (defs A (map IdDef ids)) pc)
  | Coord _ pc | Entry _ _ pc | Exit _ _ _ pc | Shared _ pc => check H A pc
  | Kill ids pc => holds (kill_all H A ids) (fun A => check H A pc)
  | Raise x | Reraise x => holds (use H A x) (fun _ => true)
  | Return xs => holds (uses H A xs) (fun _ => true)
  | Try body package exn handler =>
      let P := A ∩ mentions handler in
      check (P :: H) A body && check (∅ :: H) (defs (P ∪ protected H) [package; exn]) handler
  | EndTry pc | EndHandle pc => match H with [] => false | _ :: H => check H A pc end
  | IntTest x tests otherwise =>
      holds (use H A x) (fun A => forallb (fun t => let '(_, pc) := t in check H A pc) tests && check H A otherwise)
  | RealTest x tests otherwise =>
      holds (use H A x) (fun A => forallb (fun t => let '(_, pc) := t in check H A pc) tests && check H A otherwise)
  | StringTest x tests otherwise =>
      holds (use H A x) (fun A => forallb (fun t => let '(_, pc) := t in check H A pc) tests && check H A otherwise)
  | CompactIntTest x _ tests otherwise => holds (use H A x) (fun A => forallb (check H A) tests && check H A otherwise)
  | TagTest x _ nullary nary otherwise =>
      holds (use H A x) (fun A =>
        forallb (fun t => let '(_, pc) := t in check H A pc) nullary
          && forallb (fun t => let '(_, ds, pc) := t in check H (defs A ds) pc) nary && check H A otherwise)
  | CompactTagTest x _ tests otherwise =>
      holds (use H A x) (fun A =>
        forallb (fun t => let '(ds, pc) := t in check H (defs A (default [] ds)) pc) tests
          && match otherwise with Some pc => check H A pc | None => true end)
  | ConTest x nullary nary otherwise =>
      reads A x
        && forallb (fun t => let '(c, pc) := t in reads A c && holds (use H A x) (fun A => check H A pc)) nullary
        && forallb (fun t => let '(c, ds, pc) := t in reads A c && holds (use H (defs A ds) x) (fun A => check H A pc)) nary
        && check H A otherwise
  | VecTest x tests otherwise =>
      holds (use H A x) (fun A => forallb (fun t => let '(ds, pc) := t in check H (defs A ds) pc) tests && check H A otherwise)
  end.

Definition no_locals (subst : list idRef) : bool :=
  forallb (fun x => match x with Local _ | LastUseLocal _ => false | _ => true end) subst.

(** A function whose code starts with its arguments only. *)
Definition check_function (f : abstractCode) : bool := no_locals (f_subst f) && check [] (defs ∅ (f_args f)) (f_body f).

(** ** The life of a frame *)

(** The handlers of the frame, the innermost first; [None] is one that is
    handling. *)
Abbreviation handlers := (list (option (instr * list idDef))).

Definition apply_call (hs : handlers) (c : call) : handlers :=
  match c with PushHandler pc formals => Some (pc, formals) :: hs | PopHandler => tail hs | _ => hs end.

(** The calls of a segment, which are recorded with the last one first. *)
Definition apply_calls (hs : handlers) (cs : list call) : handlers := foldr (fun c hs => apply_call hs c) hs cs.

Definition popped (cs : list call) : bool := existsb (fun c => match c with PopFrame => true | _ => false end) cs.

(** [Thread::ActivateNextHandler] on the entries of this frame. *)
Fixpoint activate (hs : handlers) : option ((instr * list idDef) * handlers) :=
  match hs with
  | [] => None
  | None :: hs => activate hs
  | Some h :: hs => Some (h, None :: hs)
  end.

(** What happens to the frame next, in the store that other code has left: it
    is continued with arguments, or an exception reaches it. *)
Inductive event :=
  | Resume (st : store abstractCode) (args : list word) (data : word)
  | Exn (st : store abstractCode) (package exn data : word).

(** What a segment shows to the rest of the system. *)
Record obs := mkObs {
  o_stop : option stop;
  o_store : store abstractCode;
  o_args : list word;
  o_data : word;
  o_coord : word;
  o_calls : list call
}.

Section Session.
Context `{Platform}.
Variables (wundef : word) (killed : word) (constructorHandler lazySelCode : word) (status emptyVector emptyRecord : Z).

Definition observe (r : option stop) (s : state) : obs :=
  mkObs r (s_store s) (s_args s) (s_data s) (s_coord s) (s_calls s).

(** Whether the frame can be continued, or only reached by an exception. *)
Definition resumable (r : option stop) : bool :=
  match r with Some SRequest | Some (SPushCall _ _) => true | _ => false end.

(** The state at the start of the next segment. *)
Definition deliver (e : event) (can_resume : bool) (hs : handlers) (s : state) : option (state * handlers) :=
  let s := mkState (s_store s) (s_locals s) (s_pc s) (s_coord s) (s_formals s) (s_args s) (s_data s) [] in
  match e with
  | Resume st args data =>
      if can_resume then Some (with_data data (with_args args (with_store st s)), hs) else None
  | Exn st package exn data =>
      h ← activate hs;
      let '(handler, hs) := h in
      r ← Handle handler package exn (with_data data (with_store st s));
      Some (r.2, hs)
  end.

Fixpoint session (fuel : nat) (g : Z) (events : list event) (hs : handlers) (s : state) : list obs :=
  match Run wundef killed constructorHandler lazySelCode status emptyVector emptyRecord fuel g s with
  | None => []
  | Some (r, s) =>
      observe r s ::
      match events with
      | [] => []
      | e :: events =>
          if popped (s_calls s) then []
          else
            match deliver e (resumable r) (apply_calls hs (s_calls s)) s with
            | None => []
            | Some (s, hs) => session fuel g events hs s
            end
      end
  end.

(** The life of a new frame for the closure [g]. *)
Definition life (undefinedValue : word) (fuel : nat) (g : Z) (events : list event) (s : state) : option (list obs) :=
  s ← New_frame undefinedValue g (mkState (s_store s) (s_locals s) (s_pc s) (s_coord s) (s_formals s) (s_args s) (s_data s) []);
  Some (session fuel g events [] s).

End Session.
