(* ===== verification/AbstractCodeSound.v ===== *)
(** * Soundness of the liveness discipline

    A relational logic for the interpreter: two runs that differ only in what
    they leave in killed locals stay in step as long as the code is checked.
    Rules for the operations on the frame, one lemma per group of
    instructions, then runs, the life of a frame and the property. *)

From S2P Require Import Prelude Config HeaderOp AliceData AbstractCode AbstractCodeWf.

Create HintDb live.

(** ** The discipline as facts on sets *)

Lemma defs_nil A : defs A [] = A.
Proof. unfold defs. cbn. set_solver. Qed.

Lemma defs_cons A d ds : defs A (d :: ds) = defs A ds ∪ def_id d.
Proof. unfold defs. cbn. set_solver. Qed.

Lemma defs_mono A ds : A ⊆ defs A ds.
Proof. unfold defs. set_solver. Qed.

Lemma kills_Some K A id A' : kills K A id = Some A' -> A' = A ∖ {[id]} /\ id ∉ protected K.
Proof. unfold kills. case_decide; intros E; [done |]. by injection E. Qed.

Lemma kills_protected K A id A' : kills K A id = Some A' -> protected K ⊆ A -> protected K ⊆ A'.
Proof. intros [-> ?]%kills_Some ?. set_solver. Qed.

Lemma use_protected K A x A' : use K A x = Some A' -> protected K ⊆ A -> protected K ⊆ A'.
Proof. unfold use. destruct (reads A x); [| done]. destruct x; try (intros E; by injection E as <-). apply kills_protected. Qed.

Lemma uses_protected K A xs A' : uses K A xs = Some A' -> protected K ⊆ A -> protected K ⊆ A'.
Proof.
  revert A'. induction xs as [| x xs IH]; intros A' E HA; cbn in E; [by injection E as <- |].
  apply bind_Some in E as (A1 & E & U). eauto using use_protected.
Qed.

Lemma uses_up_protected K A xs A' : uses_up K A xs = Some A' -> protected K ⊆ A -> protected K ⊆ A'.
Proof.
  revert A. induction xs as [| x xs IH]; intros A E HA; cbn in E; [by injection E as <- |].
  apply bind_Some in E as (A1 & U & E). eauto using use_protected.
Qed.

Lemma kill_all_protected K A ids A' : kill_all K A ids = Some A' -> protected K ⊆ A -> protected K ⊆ A'.
Proof.
  revert A'. induction ids as [| id ids IH]; intros A' E HA; cbn in E; [by injection E as <- |].
  apply bind_Some in E as (A1 & E & U). eauto using kills_protected.
Qed.

Lemma use_reads K A x A' : use K A x = Some A' -> reads A x = true.
Proof. unfold use. by destruct (reads A x). Qed.

Lemma holds_true o k : holds o k = true -> exists A, o = Some A /\ k A = true.
Proof. destruct o as [A |]; [by exists A | done]. Qed.

(** ** Code stays in the store *)

Section Fresh.
Context {C : Type}.
Implicit Types st : AliceData.store C.

Lemma deref_fuel st st' : (forall a n, st_get st a = Some n -> st_get st' a = Some n) ->
  forall n m w v, (n <= m)%nat -> deref_loop n st w = Some v -> deref_loop m st' w = Some v.
Proof.
  intros Hg n. induction n as [| n IH]; intros m w v Hm E; destruct w as [i | a]; destruct m as [| m]; try done; try lia;
    cbn in E |- *; apply bind_Some in E as (d & Ea & E); rewrite (Hg _ _ Ea); cbn; destruct d; try done;
    case_match; try done.
  apply (IH m); [lia | done].
Qed.

Lemma st_alloc_get st n : (forall a, st_next st <= a -> st_get st a = None) ->
  forall a d, st_get st a = Some d -> st_get (st_alloc st n).1 a = Some d.
Proof.
  intros Hf a d Ea. unfold st_get, st_alloc in *. cbn. rewrite lookup_insert_ne; [done |]. intros <-.
  rewrite Hf in Ea by lia. done.
Qed.

Lemma deref_alloc st n w v : (forall a, st_next st <= a -> st_get st a = None) -> deref st w = Some v -> deref (st_alloc st n).1 w = Some v.
Proof.
  intros Hf E. unfold deref in *. refine (deref_fuel _ _ (st_alloc_get st n Hf) _ _ _ _ _ E).
  cbn. rewrite map_size_insert_None; [lia |]. apply Hf. lia.
Qed.

Lemma GetArg_alloc st n a i w : (forall a, st_next st <= a -> st_get st a = None) -> GetArg st a i = Some w -> GetArg (st_alloc st n).1 a i = Some w.
Proof.
  intros Hf E. unfold GetArg, GetArgs in *. destruct (st_get st a) as [d |] eqn:Ed; [| done].
  by rewrite (st_alloc_get _ _ Hf _ _ Ed).
Qed.

Lemma WordToBlock_alloc st n w p : (forall a, st_next st <= a -> st_get st a = None) ->
  WordToBlock st w = Some p -> WordToBlock (st_alloc st n).1 w = Some p.
Proof.
  intros Hf E. unfold WordToBlock in *. destruct (deref st w) as [v |] eqn:Ev; [| done].
  rewrite (deref_alloc _ _ _ _ Hf Ev). destruct v as [i | a]; [done |]. cbn [mbind option_bind] in *.
  destruct (st_get st a) as [d |] eqn:Ed; [| done]. by rewrite (st_alloc_get _ _ Hf _ _ Ed).
Qed.
End Fresh.

Lemma closure_code_alloc g (st : AliceData.store abstractCode) n f : (forall a, st_next st <= a -> st_get st a = None) ->
  closure_code st g = Some f -> closure_code (st_alloc st n).1 g = Some f.
Proof.
  intros Hf E. apply bind_Some in E as (w & Ew & E). unfold closure_code. rewrite (GetArg_alloc _ _ _ _ _ Hf Ew).
  cbn [mbind option_bind]. unfold ConcreteToAbstractCode in *. apply bind_Some in E as (p & Ep & E).
  rewrite (WordToBlock_alloc _ _ _ _ Hf Ep). cbn [mbind option_bind]. apply bind_Some in E as (a & -> & E).
  apply bind_Some in E as (k & Ek & E). cbn [mbind option_bind]. by rewrite (st_alloc_get _ _ Hf _ _ Ek).
Qed.

(** The closure [g] has code whose globals are immediate or in the closure. *)
Definition fresh (st : AliceData.store abstractCode) : Prop := forall a, st_next st <= a -> st_get st a = None.
Definition store_ok (g : Z) (st : AliceData.store abstractCode) : Prop :=
  fresh st /\ exists f, closure_code st g = Some f /\ no_locals (f_subst f) = true.

Lemma fresh_alloc st n : fresh st -> fresh (st_alloc st n).1.
Proof. intros Hf a Ha. unfold st_get in *. cbn in *. rewrite lookup_insert_ne by lia. apply Hf. lia. Qed.

Lemma store_ok_alloc g st n : store_ok g st -> store_ok g (st_alloc st n).1.
Proof.
  intros [Hf (f & E & Hn)]. split; [by apply fresh_alloc |]. exists f. split; [by apply closure_code_alloc | done].
Qed.

(** ** A relational logic *)

(** Where a frame is: its calls so far and what [Run] starts from. *)
Record ghost := mkGhost { gh_calls : list call; gh_pc : instr; gh_formals : formalArgs }.
Definition ghost_of (s : state) : ghost := mkGhost (s_calls s) (s_pc s) (s_formals s).

Definition agree (A : lset) (l1 l2 : list word) : Prop :=
  length l1 = length l2 /\ forall id, id ∈ A -> aget l1 id = aget l2 id.

(** Two states that agree but for the locals outside [A]. *)
Definition R (g : Z) (gh : ghost) (A : lset) (s1 s2 : state) : Prop :=
  exists s l1 l2, s1 = with_locals l1 s /\ s2 = with_locals l2 s /\ agree A l1 l2 /\ store_ok g (s_store s) /\ gh = ghost_of s.

Definition rel {X} (P : state -> state -> Prop) (m1 m2 : M X) (Q : X -> state -> state -> Prop) : Prop :=
  forall s1 s2, P s1 s2 ->
    match m1 s1, m2 s2 with
    | Some (a, t1), Some (b, t2) => a = b /\ Q a t1 t2
    | None, None => True
    | _, _ => False
    end.

Lemma rel_bind {X Y} P (m1 m2 : M X) Q (f1 f2 : X -> M Y) Q' :
  rel P m1 m2 Q -> (forall a, rel (Q a) (f1 a) (f2 a) Q') -> rel P (bind m1 f1) (bind m2 f2) Q'.
Proof.
  intros Hm Hf s1 s2 HP. specialize (Hm s1 s2 HP). unfold bind.
  destruct (m1 s1) as [[a t1] |], (m2 s2) as [[b t2] |]; try done. destruct Hm as [<- HQ]. by apply Hf.
Qed.

Lemma rel_conseq {X} (P P' : state -> state -> Prop) (m1 m2 : M X) (Q Q' : X -> state -> state -> Prop) :
  rel P m1 m2 Q -> (forall s1 s2, P' s1 s2 -> P s1 s2) -> (forall a s1 s2, Q a s1 s2 -> Q' a s1 s2) -> rel P' m1 m2 Q'.
Proof.
  intros Hm HP HQ s1 s2 H'. specialize (Hm s1 s2 (HP _ _ H')).
  destruct (m1 s1) as [[a t1] |], (m2 s2) as [[b t2] |]; try done. naive_solver.
Qed.

Lemma rel_assoc {X Y Z} P (m1 m2 : M X) (f1 f2 : X -> M Y) (h1 h2 : Y -> M Z) Q :
  rel P (bind m1 (fun a => bind (f1 a) h1)) (bind m2 (fun a => bind (f2 a) h2)) Q ->
  rel P (bind (bind m1 f1) h1) (bind (bind m2 f2) h2) Q.
Proof.
  intros Hm s1 s2 HP. specialize (Hm s1 s2 HP). unfold bind in *.
  destruct (m1 s1) as [[a t1] |], (m2 s2) as [[b t2] |]; done.
Qed.

Lemma rel_ret {X} (P : X -> state -> state -> Prop) (a : X) : rel (P a) (ret a) (ret a) P.
Proof. by intros s1 s2 HP. Qed.

Lemma rel_fail {X} P (Q : X -> state -> state -> Prop) : rel P (lift None) (lift None) Q.
Proof. by intros s1 s2 HP. Qed.

Lemma rel_bind_lift {X Y} P (o : option X) (f1 f2 : X -> M Y) Q :
  (forall a, o = Some a -> rel P (f1 a) (f2 a) Q) -> rel P (bind (lift o) f1) (bind (lift o) f2) Q.
Proof. intros Hf. destruct o as [a |]; [by apply (Hf a) |]. by intros s1 s2 HP. Qed.

Lemma rel_pure {X} (P : state -> state -> Prop) (F : Prop) (m1 m2 : M X) Q :
  (F -> rel P m1 m2 Q) -> rel (fun s1 s2 => P s1 s2 /\ F) m1 m2 Q.
Proof. intros Hm s1 s2 [HP HF]. by apply Hm. Qed.

Section Rules.
Context `{Platform}.
Variables (wundef undefinedValue : word) (k1 k2 : word) (constructorHandler lazySelCode : word) (status emptyVector emptyRecord : Z) (g : Z).
Implicit Types (gh : ghost) (A : lset) (K : pending) (x : idRef).
#[local] Abbreviation R := (R g).

Lemma R_intro A s l1 l2 : agree A l1 l2 -> store_ok g (s_store s) -> R (ghost_of s) A (with_locals l1 s) (with_locals l2 s).
Proof. intros Ha Hs. by exists s, l1, l2. Qed.

Lemma R_weaken gh A A' s1 s2 : A' ⊆ A -> R gh A s1 s2 -> R gh A' s1 s2.
Proof. intros HA (s & l1 & l2 & -> & -> & [Hl Ha] & Hs & ->). exists s, l1, l2. repeat split; try done. set_solver. apply Hs. apply Hs. Qed.

(** An operation that neither reads nor writes the locals. *)
Definition blind {X} (m : M X) : Prop :=
  forall s l, m (with_locals l s) = match m s with Some (a, s') => Some (a, with_locals l s') | None => None end.

Lemma rel_blind {X} (m : M X) gh A :
  blind m -> (forall s a s', m s = Some (a, s') -> ghost_of s' = ghost_of s /\ (store_ok g (s_store s) -> store_ok g (s_store s'))) ->
  rel (R gh A) m m (fun _ => R gh A).
Proof.
  intros Hb Hm s1 s2 (s & l1 & l2 & -> & -> & Ha & Hs & ->). rewrite !Hb.
  destruct (m s) as [[a s'] |] eqn:E; [| done]. split; [done |]. destruct (Hm _ _ _ E) as [Hg Hok].
  rewrite <- Hg. apply R_intro; [done | by apply Hok].
Qed.

Lemma rel_look {X} (f : store abstractCode -> option X) gh A : rel (R gh A) (look f) (look f) (fun _ => R gh A).
Proof.
  apply rel_blind; unfold look.
  - intros s l. cbn. by destruct (f _).
  - intros s a s' E. destruct (f _); [| done]. by injection E as -> ->.
Qed.

Lemma rel_lift {X} (o : option X) gh A : rel (R gh A) (lift o) (lift o) (fun _ => R gh A).
Proof. apply (rel_look (fun _ => o)). Qed.

Definition allocates (f : store abstractCode -> store abstractCode * Z) : Prop := forall st, (exists n, f st = st_alloc st n) \/ exists a, f st = (st, a).

Ltac alloc_op :=
  intros ?; first [by left; eexists | unfold Vector_New, Record_NewLabels; case_match; [by right; eexists | by left; eexists]].

Lemma rel_alloc f gh A : allocates f -> rel (R gh A) (alloc f) (alloc f) (fun _ => R gh A).
Proof.
  intros Hf. apply rel_blind; unfold alloc.
  - intros s l. cbn. by destruct (f _).
  - intros s a s' E. destruct (Hf (s_store s)) as [[n En] | [b En]]; rewrite En in E; injection E as <- <-; (split; [done |]); [apply (store_ok_alloc g _ n) | done].
Qed.

Lemma rel_modify f gh gh' A : (forall s l, f (with_locals l s) = with_locals l (f s)) ->
  (forall s, gh = ghost_of s -> gh' = ghost_of (f s) /\ s_store (f s) = s_store s) ->
  rel (R gh A) (modify f) (modify f) (fun _ => R gh' A).
Proof.
  intros Hb Hg s1 s2 (s & l1 & l2 & -> & -> & Ha & Hs & Eg). unfold modify. rewrite !Hb. split; [done |].
  destruct (Hg s Eg) as [-> Es]. apply R_intro; [done | by rewrite Es].
Qed.

(** ** Locals *)

Lemma rel_GetLocal gh A id : id ∈ A -> rel (R gh A) (GetLocal id) (GetLocal id) (fun _ => R gh A).
Proof.
  intros Hid s1 s2 (s & l1 & l2 & -> & -> & Ha & Hs & ->). unfold GetLocal, bind, gets, lift. cbn.
  rewrite (proj2 Ha id Hid). destruct (aget l2 id) as [w |]; [| done]. split; [done |]. by apply R_intro.
Qed.

Lemma agree_aset (A B : lset) l1 l2 b1 b2 (id : Z) (v1 v2 : word) : agree A l1 l2 ->
  aset l1 id v1 = Some b1 -> aset l2 id v2 = Some b2 ->
  (forall j, j ∈ B -> j <> id -> j ∈ A) -> (id ∈ B -> v1 = v2) -> agree B b1 b2.
Proof.
  intros [Hl Ha] E1 E2 HB Hv. split.
  - apply aset_inv in E1 as [_ ->], E2 as [_ ->]. by rewrite !length_insert.
  - intros j Hj. destruct (decide (j = id)) as [-> | Hne].
    + by rewrite (aget_aset_eq _ _ _ _ E1), (aget_aset_eq _ _ _ _ E2), Hv.
    + rewrite (aget_aset_ne _ _ j _ _ E1), (aget_aset_ne _ _ j _ _ E2) by done. by apply Ha, HB.
Qed.

Lemma rel_write gh A B id v1 v2 : (forall j, j ∈ B -> j <> id -> j ∈ A) -> (id ∈ B -> v1 = v2) ->
  rel (R gh A) (SetLocal id v1) (SetLocal id v2) (fun _ => R gh B).
Proof.
  intros HB Hv s1 s2 (s & l1 & l2 & -> & -> & Ha & Hs & ->). unfold SetLocal, bind, gets, lift, modify. cbn.
  destruct (decide (0 <= id < zlen l1)) as [Hid | Hid].
  - rewrite (aset_Some l1 id v1 Hid), (aset_Some l2 id v2). 2: { destruct Ha as [Hl _]. unfold zlen in *. by rewrite <- Hl. }
    split; [done |]. apply (R_intro B s _ _); [| done]. refine (agree_aset A B l1 l2 _ _ id v1 v2 Ha _ _ HB Hv); apply aset_Some; [done |].
    destruct Ha as [Hl _]. unfold zlen in *. by rewrite <- Hl.
  - destruct (aset l1 id v1) as [b |] eqn:E; [by apply aset_inv in E as [? _] |].
    destruct (aset l2 id v2) as [b |] eqn:E2; [| done]. apply aset_inv in E2 as [E2 _]. destruct Ha as [Hl _]. unfold zlen in *. by rewrite Hl in Hid.
Qed.

Lemma rel_SetLocal gh A id w : rel (R gh A) (SetLocal id w) (SetLocal id w) (fun _ => R gh (defs A [IdDef id])).
Proof. apply rel_write; [| done]. unfold defs. cbn. set_solver. Qed.

Lemma rel_KillLocal gh K A A' id : kills K A id = Some A' -> rel (R gh A) (KillLocal k1 id) (KillLocal k2 id) (fun _ => R gh A').
Proof. intros [-> _]%kills_Some. apply rel_write; set_solver. Qed.

(** ** Operands *)

Lemma rel_GetIdRef gh A x : reads A x = true -> rel (R gh A) (GetIdRef g x) (GetIdRef g x) (fun _ => R gh A).
Proof.
  intros Hx. destruct x as [i | w | id | id]; cbn [GetIdRef]; cbn in Hx.
  2: by intros s1 s2 HR. 2,3: apply bool_decide_eq_true in Hx; by apply rel_GetLocal.
  intros s1 s2 HR. pose proof HR as (s & l1 & l2 & -> & -> & Ha & [Hf (f & Ef & Hn)] & ->). unfold bind, look. cbn. rewrite Ef. cbn.
  destruct (aget (f_subst f) i) as [y |] eqn:Ey; [| done]. cbn.
  assert (Hy : match y with Local _ | LastUseLocal _ => false | _ => true end = true).
  { unfold aget in Ey. case_decide; [| done]. unfold no_locals in Hn. rewrite forallb_forall in Hn. apply Hn.
    by apply list_elem_of_In, (list_elem_of_lookup_2 _ (Z.to_nat i)). }
  destruct y as [j | w | |]; try done; cbn. unfold look. cbn. by destruct (Closure_Sub (s_store s) g j).
Qed.

Lemma rel_KillIdRef gh K A A' x : use K A x = Some A' -> rel (R gh A) (KillIdRef k1 x) (KillIdRef k2 x) (fun _ => R gh A').
Proof.
  unfold use. destruct (reads A x); [| done]. destruct x; cbn; try (intros E; injection E as <-; apply (rel_ret (fun _ => R gh A))).
  apply rel_KillLocal.
Qed.

Lemma rel_GetIdRefKill gh K A A' x : use K A x = Some A' -> rel (R gh A) (GetIdRefKill k1 g x) (GetIdRefKill k2 g x) (fun _ => R gh A').
Proof.
  intros E. eapply rel_bind; [by eapply rel_GetIdRef, use_reads |]. intros w; cbn.
  eapply rel_bind; [by eapply rel_KillIdRef |]. intros ?; cbn. apply (rel_ret (fun _ => R gh A')).
Qed.

Lemma rel_GetIdRefsKill gh K xs : forall A A', uses K A xs = Some A' ->
  rel (R gh A) (GetIdRefsKill k1 g xs) (GetIdRefsKill k2 g xs) (fun _ => R gh A').
Proof.
  induction xs as [| x xs IH]; intros A A' E; cbn in E |- *.
  - injection E as <-. apply (rel_ret (fun _ => R gh A)).
  - apply bind_Some in E as (A1 & E & U). eapply rel_bind; [by apply IH |]. intros ws; cbn.
    eapply rel_bind; [by eapply rel_GetIdRefKill |]. intros w; cbn. apply (rel_ret (fun _ => R gh A')).
Qed.

Lemma rel_KillLocals gh K ids : forall A A', kill_all K A ids = Some A' ->
  rel (R gh A) (KillLocals k1 ids) (KillLocals k2 ids) (fun _ => R gh A').
Proof.
  induction ids as [| id ids IH]; intros A A' E; cbn in E |- *.
  - injection E as <-. apply (rel_ret (fun _ => R gh A)).
  - apply bind_Some in E as (A1 & E & U). eapply rel_bind; [by apply IH |]. intros ?; cbn. by eapply rel_KillLocal.
Qed.

Lemma rel_close_values gh K xs : forall subst A A', uses_up K A xs = Some A' ->
  rel (R gh A) (close_values k1 g xs subst) (close_values k2 g xs subst) (fun _ => R gh A').
Proof.
  induction xs as [| x xs IH]; intros subst A A' E; cbn in E |- *.
  - injection E as <-. apply (rel_ret (fun _ => R gh A)).
  - destruct subst as [| y subst]; [apply rel_fail |]. apply bind_Some in E as (A1 & U & E).
    eapply rel_bind; [by eapply rel_GetIdRefKill |]. intros w; cbn.
    eapply rel_bind; [by apply IH |]. intros ws; cbn. apply (rel_ret (fun _ => R gh A')).
Qed.

(** Selections that do not depend on the locals. *)
Definition selects (sel : Z -> M word) : Prop := forall gh A i, rel (R gh A) (sel i) (sel i) (fun _ => R gh A).

Lemma rel_set_defs sel ds : selects sel -> forall gh A i,
  rel (R gh A) (set_defs sel ds i) (set_defs sel ds i) (fun _ => R gh (defs A ds)).
Proof.
  intros Hsel gh A. induction ds as [| d ds IH]; intros i; cbn.
  - rewrite defs_nil. apply (rel_ret (fun _ => R gh A)).
  - eapply rel_bind; [apply IH |]. intros ?; cbn. rewrite defs_cons. destruct d as [id |]; cbn.
    + eapply rel_bind; [apply Hsel |]. intros w; cbn. eapply rel_conseq; [apply rel_SetLocal | done |].
      intros ? s1 s2; cbn beta; apply R_weaken. unfold defs. cbn. set_solver.
    + eapply rel_conseq; [apply (rel_ret (fun _ => R gh (defs A ds))) | done |]. intros ? s1 s2; cbn beta; apply R_weaken. set_solver.
Qed.

Lemma selects_arg a off : selects (sel_arg a off).
Proof. intros gh A i. apply rel_look. Qed.

Lemma selects_arg_at : selects arg_at.
Proof.
  intros gh A i. eapply rel_bind; [| intros args; apply rel_lift].
  apply rel_blind; [by intros s l | by intros s a s' [= <- <-]].
Qed.

Lemma rel_bind_tag gh A big a ds :
  rel (R gh A) (bind_tag big a ds) (bind_tag big a ds) (fun _ => R gh (defs A ds)).
Proof. eapply rel_bind; [apply rel_look |]. intros ?; cbn. apply rel_set_defs, selects_arg. Qed.

Lemma rel_LazySel gh A w label : rel (R gh A) (LazySel wundef lazySelCode w label) (LazySel wundef lazySelCode w label) (fun _ => R gh A).
Proof. eapply rel_bind; [apply rel_alloc; alloc_op |]. intros c; cbn. apply rel_alloc. alloc_op. Qed.

Lemma rel_lazy_sels sel ids : selects sel -> forall labels gh A,
  rel (R gh A) (lazy_sels sel ids labels) (lazy_sels sel ids labels) (fun _ => R gh (defs A (map IdDef ids))).
Proof.
  intros Hsel. induction ids as [| id ids IH]; intros [| label labels] gh A; cbn; try apply rel_fail.
  - rewrite defs_nil. apply (rel_ret (fun _ => R gh A)).
  - eapply rel_bind; [apply IH |]. intros ?; cbn. eapply rel_bind; [apply Hsel |]. intros w; cbn. rewrite defs_cons.
    eapply rel_conseq; [apply rel_SetLocal | done |]. intros ? s1 s2; cbn beta; apply R_weaken. unfold defs. cbn. set_solver.
Qed.

Lemma rel_find_con {B} c (tests : list (idRef * B)) gh A : forallb (fun t => reads A t.1) tests = true ->
  rel (R gh A) (find_con g c tests) (find_con g c tests) (fun r s1 s2 => R gh A s1 s2 /\ forall b, r = CFound b -> exists x, (x, b) ∈ tests).
Proof.
  induction tests as [| [x b] tests IH]; cbn; intros Ht.
  - intros s1 s2 HR. by split.
  - apply andb_true_iff in Ht as [Hx Ht]. eapply rel_bind; [by apply rel_GetIdRef |]. intros w; cbn.
    eapply rel_bind; [apply rel_look |]. intros [a |]; cbn.
    + case_match.
      * intros s1 s2 HR. split; [done |]. split; [done |]. intros b' [= <-]. exists x. by left.
      * eapply rel_conseq; [by apply IH | done |]. intros r s1 s2 [HR Hr]. split; [done |]. intros b' E.
        destruct (Hr b' E) as [y Hy]. exists y. by right.
    + intros s1 s2 HR. split; [done |]. by split.
Qed.

(** ** Instructions *)

(** The handlers of the frame against the sets that protect their locals. *)
Fixpoint hs_ok (hs : handlers) (K : pending) : Prop :=
  match hs, K with
  | [], [] => True
  | h :: hs, P :: K =>
      hs_ok hs K /\ match h with Some (pc, ds) => check (∅ :: K) (defs (P ∪ protected K) ds) pc = true | None => True end
  | _, _ => False
  end.

Definition formal_defs (fm : formalArgs) : list idDef := match fm with Formals ds => ds | Formal d => [d] end.

Section Steps.
Variable hs0 : handlers.

Definition inv (gh : ghost) K A : Prop := hs_ok (apply_calls hs0 (gh_calls gh)) K /\ protected K ⊆ A.

(** After an instruction: the next one is checked, or the frame can be
    continued where it is. *)
Definition safe (n : next) (s1 s2 : state) : Prop :=
  exists gh K A, R gh A s1 s2 /\ inv gh K A /\
    match n with
    | Goto pc _ => check K A pc = true
    | Stop r =>
        resumable (Some r) = true -> popped (gh_calls gh) = false ->
        check K (defs A (formal_defs (gh_formals gh))) (gh_pc gh) = true
    end.

Lemma rel_goto gh K A coord pc : inv gh K A -> check K A pc = true -> rel (R gh A) (goto coord pc) (goto coord pc) safe.
Proof. intros Hi Hc s1 s2 HR. split; [done |]. by exists gh, K, A. Qed.

Lemma rel_stop gh K A r : inv gh K A -> resumable (Some r) = false -> rel (R gh A) (ret (Stop r)) (ret (Stop r)) safe.
Proof. intros Hi Hr s1 s2 HR. split; [done |]. exists gh, K, A. by rewrite Hr. Qed.

Lemma rel_REQUEST gh K A pc coord w : inv gh K A -> check K A pc = true ->
  rel (R gh A) (REQUEST pc coord w) (REQUEST pc coord w) safe.
Proof.
  intros Hi Hc. unfold REQUEST. eapply rel_bind; [apply rel_look |]. intros [t |]; cbn; [| apply rel_fail].
  eapply rel_bind; [apply (rel_modify _ _ (mkGhost (gh_calls gh) pc (Formals []))) |].
  - by intros s l.
  - by intros s ->.
  - intros ?; cbn. intros s1 s2 HR. split; [done |]. exists (mkGhost (gh_calls gh) pc (Formals [])), K, A.
    split; [done |]. split; [done |]. intros _ _. cbn. by rewrite defs_nil.
Qed.

Lemma rel_SetArgs gh A ws : rel (R gh A) (SetArgs ws) (SetArgs ws) (fun _ => R gh A).
Proof. unfold SetArgs. case_match; [| apply rel_fail]. apply rel_modify; [by intros s l | by intros s ->]. Qed.

Lemma rel_put gh A id f : allocates f -> rel (R gh A) (put id f) (put id f) (fun _ => R gh (defs A [IdDef id])).
Proof. intros Hf. eapply rel_bind; [by apply rel_alloc |]. intros w; cbn. apply rel_SetLocal. Qed.

Lemma rel_GetCloseConcreteCode gh A xs t :
  rel (R gh A) (GetCloseConcreteCode g xs t) (GetCloseConcreteCode g xs t) (fun _ => R gh A).
Proof.
  eapply rel_bind; [apply rel_look |]. intros f; cbn. eapply rel_bind; [apply rel_lift |]. intros subst; cbn.
  apply rel_alloc. alloc_op.
Qed.

Lemma inv_use gh K A x A' : use K A x = Some A' -> inv gh K A -> inv gh K A'.
Proof. intros U [? ?]. split; [done |]. by eapply use_protected. Qed.

Lemma inv_uses gh K A xs A' : uses K A xs = Some A' -> inv gh K A -> inv gh K A'.
Proof. intros U [? ?]. split; [done |]. by eapply uses_protected. Qed.

Lemma inv_uses_up gh K A xs A' : uses_up K A xs = Some A' -> inv gh K A -> inv gh K A'.
Proof. intros U [? ?]. split; [done |]. by eapply uses_up_protected. Qed.

Lemma inv_kill_all gh K A xs A' : kill_all K A xs = Some A' -> inv gh K A -> inv gh K A'.
Proof. intros U [? ?]. split; [done |]. by eapply kill_all_protected. Qed.

Lemma inv_defs gh K A ds : inv gh K A -> inv gh K (defs A ds).
Proof. intros [? ?]. split; [done |]. pose proof (defs_mono A ds). set_solver. Qed.

#[local] Hint Resolve inv_use inv_uses inv_uses_up inv_kill_all inv_defs : live.

(** One operation of an instruction. *)
Ltac rel_op :=
  lazymatch goal with
  | |- rel _ (match ?a with _ => _ end) _ _ => destruct a eqn:?
  | |- rel _ (bind (match ?a with _ => _ end) _) _ _ => destruct a eqn:?
  | |- rel _ (bind (bind _ _) _) _ _ => apply rel_assoc
  | |- rel _ (bind (lift _) _) _ _ => apply rel_bind_lift; intros ? ?
  | |- rel _ (lift None) _ _ => apply rel_fail
  | |- rel _ (goto _ _) _ _ => eapply rel_goto; [by eauto with live | by eauto]
  | |- rel _ (REQUEST _ _ _) _ _ => eapply rel_REQUEST; [by eauto with live | by eauto]
  | |- rel _ (bind ?m _) _ _ =>
      eapply rel_bind;
      [ lazymatch m with
        | look _ => apply rel_look
        | bind_tag _ _ _ => apply rel_bind_tag
        | SetArgs _ => apply rel_SetArgs
        | SetLocal _ _ => apply rel_SetLocal
        | put _ _ => apply rel_put; alloc_op
        | alloc _ => apply rel_alloc; alloc_op
        | GetCloseConcreteCode _ _ _ => apply rel_GetCloseConcreteCode
        | GetIdRef _ _ => eapply rel_GetIdRef; by eauto using use_reads
        | KillIdRef _ _ => eapply rel_KillIdRef; by eauto
        | GetIdRefKill _ _ _ => eapply rel_GetIdRefKill; by eauto
        | GetIdRefsKill _ _ _ => eapply rel_GetIdRefsKill; by eauto
        | close_values _ _ _ _ => eapply rel_close_values; by eauto
        | KillLocals _ _ => eapply rel_KillLocals; by eauto
        | lazy_sels _ _ _ => apply rel_lazy_sels; intros ? ? ?; first [apply rel_look | apply rel_LazySel]
        | set_defs _ _ _ => apply rel_set_defs, selects_arg
        end
      | intros ?; cbn beta iota ]
  end.

Ltac split_check Hc :=
  repeat match type of Hc with
  | holds _ _ = true => apply holds_true in Hc as (? & ? & Hc)
  | (_ ← _; _) = Some _ => apply bind_Some in Hc as (? & ? & ?)
  end;
  repeat match goal with E : (_ ← _; _) = Some _ |- _ => apply bind_Some in E as (? & ? & ?) end.

Lemma rel_step_put pc coord gh K A : inv gh K A -> check K A pc = true ->
  rel (R gh A) (step_put wundef k1 constructorHandler emptyVector emptyRecord g pc coord) (step_put wundef k2 constructorHandler emptyVector emptyRecord g pc coord) safe.
Proof.
  intros Hi Hc. pose proof Hc as Hpc.
  destruct pc; try apply rel_fail; cbn [step_put]; cbn [check] in Hc; split_check Hc; repeat rel_op.
  destruct args; [| done]. simplify_eq/=. rel_op.
Qed.

Lemma rel_step_close pc coord gh K A : inv gh K A -> check K A pc = true ->
  rel (R gh A) (step_close wundef k1 g pc coord) (step_close wundef k2 g pc coord) safe.
Proof.
  intros Hi Hc. pose proof Hc as Hpc.
  destruct pc; try apply rel_fail; cbn [step_close]; cbn [check] in Hc; split_check Hc; repeat rel_op.
Qed.

Lemma rel_step_get pc coord gh K A : inv gh K A -> check K A pc = true ->
  rel (R gh A) (step_get wundef k1 lazySelCode g pc coord) (step_get wundef k2 lazySelCode g pc coord) safe.
Proof.
  intros Hi Hc. pose proof Hc as Hpc.
  destruct pc; try apply rel_fail; cbn [step_get]; cbn [check] in Hc; split_check Hc; repeat rel_op.
  destruct idDefs; [| done]. rewrite defs_nil in Hc. rel_op.
Qed.

Lemma rel_call gh A c :
  rel (R gh A) (modify (with_call c)) (modify (with_call c)) (fun _ => R (mkGhost (c :: gh_calls gh) (gh_pc gh) (gh_formals gh)) A).
Proof. apply rel_modify; [by intros s l | by intros s ->]. Qed.

Lemma protected_cons P K : protected (P :: K) = P ∪ protected K.
Proof. done. Qed.

Lemma inv_push gh K A P pc ds : inv gh K A -> P ⊆ A -> check (∅ :: K) (defs (P ∪ protected K) ds) pc = true ->
  inv (mkGhost (PushHandler pc ds :: gh_calls gh) (gh_pc gh) (gh_formals gh)) (P :: K) A.
Proof. intros [Hh Hp] HP Hc. split; [by split |]. rewrite protected_cons. set_solver. Qed.

Lemma inv_pop gh K A P : inv gh (P :: K) A -> inv (mkGhost (PopHandler :: gh_calls gh) (gh_pc gh) (gh_formals gh)) K A.
Proof.
  intros [Hh Hp]. rewrite protected_cons in Hp. split; [| set_solver].
  change (hs_ok (tail (apply_calls hs0 (gh_calls gh))) K). destruct (apply_calls hs0 (gh_calls gh)); [done |]. apply Hh.
Qed.

Lemma inv_other gh K A c : inv gh K A -> (forall hs, apply_call hs c = hs) -> inv (mkGhost (c :: gh_calls gh) (gh_pc gh) (gh_formals gh)) K A.
Proof. intros [Hh Hp] Hc. split; [cbn; by rewrite Hc | done]. Qed.

(** The frame that a call leaves. *)
Lemma rel_save_cont gh K A coord cont w preempt : inv gh K A ->
  (forall fm pc, cont = Some (fm, pc) -> check K (defs A (formal_defs fm)) pc = true) ->
  rel (R gh A) (bind (save_cont coord cont) (fun _ => ret (Stop (SPushCall w preempt))))
    (bind (save_cont coord cont) (fun _ => ret (Stop (SPushCall w preempt)))) safe.
Proof.
  intros Hi Hc. destruct cont as [[fm pc] |]; cbn.
  - eapply rel_bind; [apply (rel_modify _ _ (mkGhost (gh_calls gh) pc fm)) |]; [by intros s l | by intros s -> |].
    intros ?; cbn. intros s1 s2 HR. split; [done |]. exists (mkGhost (gh_calls gh) pc fm), K, A. split; [done |]. split; [done |].
    intros _ _. by apply Hc.
  - eapply rel_bind; [apply rel_call |]. intros ?; cbn. intros s1 s2 HR. split; [done |].
    eexists _, K, A. split; [done |]. split; [by apply inv_other |]. done.
Qed.

Lemma rel_step_call pc coord gh K A : inv gh K A -> check K A pc = true ->
  rel (R gh A) (step_call k1 status g pc coord) (step_call k2 status g pc coord) safe.
Proof.
  intros Hi Hc. pose proof Hc as Hpc.
  destruct pc; try apply rel_fail; cbn [step_call]; cbn [check] in Hc; split_check Hc; do 8 try rel_op.
  - eapply rel_save_cont; [by eauto with live |]. intros fm pc Ec. destruct cont as [[d pc'] |]; [| done]. by injection Ec as <- <-.
  - eapply rel_save_cont; [by eauto with live |]. intros fm pc Ec. destruct cont as [[ds pc'] |]; [| done]. by injection Ec as <- <-.
  - eapply rel_bind; [apply rel_call |]. intros ?; cbn. eapply rel_stop; [by eapply inv_other; [eauto with live |] | by case_match].
Qed.

Lemma rel_step_exn pc coord gh K A : inv gh K A -> check K A pc = true ->
  rel (R gh A) (step_exn k1 g pc coord) (step_exn k2 g pc coord) safe.
Proof.
  intros Hi Hc. pose proof Hc as Hpc.
  destruct pc; try apply rel_fail; cbn [step_exn]; cbn [check] in Hc; split_check Hc; do 8 try rel_op.
  - destruct K as [| P K]; [done |]. eapply rel_bind; [apply rel_call |]. intros ?; cbn. eapply rel_goto; [by eapply inv_pop | done].
  - destruct K as [| P K]; [done |]. eapply rel_bind; [apply rel_call |]. intros ?; cbn. eapply rel_goto; [by eapply inv_pop | done].
  - eapply rel_bind; [apply (rel_modify _ gh (mkGhost (NewBacktrace :: gh_calls gh) (gh_pc gh) (gh_formals gh))); [by intros s l | by intros s ->] |].
    intros ?; cbn. eapply rel_stop; [by eapply inv_other; [eauto with live |] | done].
  - eapply rel_bind; [apply (rel_modify _ gh (mkGhost (SetBacktrace a3 :: gh_calls gh) (gh_pc gh) (gh_formals gh))); [by intros s l | by intros s ->] |].
    intros ?; cbn. eapply rel_stop; [by eapply inv_other; [eauto with live |] | done].
  - apply andb_true_iff in Hc as [Hb Hh]. eapply rel_bind; [apply rel_call |]. intros ?; cbn.
    eapply rel_goto; [| done]. apply inv_push; [done | set_solver | done].
Qed.

Lemma forallb_elem {B} (p : B -> bool) l b : forallb p l = true -> b ∈ l -> p b = true.
Proof. intros Hl Hb. rewrite forallb_forall in Hl. by apply Hl, list_elem_of_In. Qed.

Lemma find_snd_elem {B C} (p : B * C -> bool) tests c : snd <$> find p tests = Some c -> exists b, (b, c) ∈ tests.
Proof. intros ([b c'] & E & ->)%fmap_Some. exists b. by apply find_some in E as [E%list_elem_of_In _]. Qed.

(** A branch of a checked test is checked. *)
Lemma find_checked {B} K A (p : B * instr -> bool) tests otherwise :
  forallb (fun t => let '(_, pc) := t in check K A pc) tests && check K A otherwise = true ->
  check K A (default otherwise (snd <$> find p tests)) = true.
Proof.
  intros [Ht Ho]%andb_true_iff. destruct (snd <$> find p tests) as [pc |] eqn:E; [| done].
  apply find_snd_elem in E as [b Hb]. by apply (forallb_elem _ _ _ Ht) in Hb.
Qed.

Lemma aget_checked {B} (p : B -> bool) tests i t : forallb p tests = true -> aget tests i = Some t -> p t = true.
Proof.
  intros Ht E. unfold aget in E. case_decide; [| done]. eapply forallb_elem; [done |]. by eapply list_elem_of_lookup_2.
Qed.

Lemma rel_ConTest x nullary nary otherwise coord gh K A : inv gh K A -> check K A (ConTest x nullary nary otherwise) = true ->
  rel (R gh A) (step_con k1 g (ConTest x nullary nary otherwise) coord) (step_con k2 g (ConTest x nullary nary otherwise) coord) safe.
Proof.
  intros Hi Hc. pose proof Hc as Hpc. cbn [check] in Hc. cbn [step_con].
  apply andb_true_iff in Hc as [Hc Ho]. apply andb_true_iff in Hc as [Hc Hn]. apply andb_true_iff in Hc as [Hx H0].
  eapply rel_bind; [by apply rel_GetIdRef |]. intros w; cbn beta. do 4 rel_op.
  - rel_op. eapply rel_bind; [apply rel_find_con |].
    + apply forallb_forall. intros [c' [ds pc]] ([[c2 ds2] pc2] & [= -> -> ->] & Hin)%in_map_iff. cbn.
      rewrite forallb_forall in Hn. specialize (Hn _ Hin). cbn in Hn. by apply andb_true_iff in Hn as [? _].
    + intros [w' | [ds pc] |]; cbn beta iota; apply rel_pure; intros Hr.
      * by eapply rel_REQUEST.
      * destruct (Hr _ eq_refl) as [c' Hin]. apply list_elem_of_In, in_map_iff in Hin as ([[c2 ds2] pc2] & [= -> -> ->] & Hin).
        rewrite forallb_forall in Hn. specialize (Hn _ Hin). cbn in Hn. apply andb_true_iff in Hn as [_ Hn]. split_check Hn.
        repeat rel_op.
      * by eapply rel_goto.
  - eapply rel_bind; [apply rel_find_con |].
    + apply forallb_forall. intros [c' pc] Hin. rewrite forallb_forall in H0. specialize (H0 _ Hin). cbn in H0. by apply andb_true_iff in H0 as [? _].
    + intros [w' | pc |]; cbn beta iota; apply rel_pure; intros Hr.
      * by eapply rel_REQUEST.
      * destruct (Hr _ eq_refl) as [c' Hin]. apply (forallb_elem _ _ _ H0) in Hin. cbn in Hin. apply andb_true_iff in Hin as [_ Hin]. split_check Hin.
        repeat rel_op.
      * by eapply rel_goto.
Qed.

Lemma rel_step_test pc coord gh K A : inv gh K A -> check K A pc = true ->
  rel (R gh A) (step_test k1 g pc coord) (step_test k2 g pc coord) safe.
Proof.
  intros Hi Hc. pose proof Hc as Hpc.
  destruct pc; try apply rel_fail; cbn [step_test]; cbn [check] in Hc; split_check Hc; repeat rel_op;
    (eapply rel_goto; [by eauto with live |]); try by apply find_checked.
  apply andb_true_iff in Hc as [Ht Ho]. destruct (aget tests _) eqn:E; [by eapply aget_checked | done].
Qed.

Lemma rel_step_tag pc coord gh K A : inv gh K A -> check K A pc = true ->
  rel (R gh A) (step_tag k1 g pc coord) (step_tag k2 g pc coord) safe.
Proof.
  intros Hi Hc. pose proof Hc as Hpc.
  destruct pc; try apply rel_fail; cbn [step_tag]; unfold tag_view, tag_of; cbn [check] in Hc; split_check Hc; repeat rel_op;
    (eapply rel_goto; [by eauto with live |]); apply andb_true_iff in Hc as [Ht Ho]; try by simplify_eq.
  all: subst.
  all: try match goal with E : aget _ _ = Some _ |- _ => apply (aget_checked _ _ _ _ Ht) in E; cbn [default] in E; by rewrite ?defs_nil in E end.
  all: apply andb_true_iff in Ht as [Ht Hn].
  - match goal with E : find _ _ = Some _ |- _ => apply find_some in E as [E%list_elem_of_In _]; by apply (forallb_elem _ _ _ Hn) in E end.
  - apply find_checked. by rewrite Ht, Ho.
Qed.

Lemma rel_step_con pc coord gh K A : inv gh K A -> check K A pc = true ->
  rel (R gh A) (step_con k1 g pc coord) (step_con k2 g pc coord) safe.
Proof.
  intros Hi Hc. pose proof Hc as Hpc.
  destruct pc; try apply rel_fail; [by eapply rel_ConTest |].
  cbn [step_con]; cbn [check] in Hc; split_check Hc; repeat rel_op;
    (eapply rel_goto; [by eauto with live |]); apply andb_true_iff in Hc as [Ht Ho]; [| done].
  match goal with E : find _ _ = Some _ |- _ => apply find_some in E as [E%list_elem_of_In _]; by apply (forallb_elem _ _ _ Ht) in E end.
Qed.

Lemma rel_step pc coord gh K A : inv gh K A -> check K A pc = true ->
  rel (R gh A) (step wundef k1 constructorHandler lazySelCode status emptyVector emptyRecord g pc coord)
    (step wundef k2 constructorHandler lazySelCode status emptyVector emptyRecord g pc coord) safe.
Proof.
  intros Hi Hc. destruct pc; cbn [step]; 
    first [by eapply rel_step_put | by eapply rel_step_close | by eapply rel_step_get | by eapply rel_step_call | by eapply rel_step_exn
      | by eapply rel_step_test | by eapply rel_step_tag | by eapply rel_step_con | by eapply rel_goto | idtac].
  cbn [check] in Hc. split_check Hc. repeat rel_op.
Qed.

(** ** Runs *)

(** The end of a run: where the frame can be continued. *)
Definition ends (r : option stop) (s1 s2 : state) : Prop :=
  exists gh K A, R gh A s1 s2 /\ inv gh K A /\
    (resumable r = true -> popped (gh_calls gh) = false -> check K (defs A (formal_defs (gh_formals gh))) (gh_pc gh) = true).

Lemma rel_run_loop fuel : forall pc coord gh K A, inv gh K A -> check K A pc = true ->
  rel (R gh A) (run_loop wundef k1 constructorHandler lazySelCode status emptyVector emptyRecord fuel g pc coord)
    (run_loop wundef k2 constructorHandler lazySelCode status emptyVector emptyRecord fuel g pc coord) ends.
Proof.
  induction fuel as [| fuel IH]; intros pc coord gh K A Hi Hc; cbn [run_loop].
  - intros s1 s2 HR. split; [done |]. by exists gh, K, A.
  - eapply rel_bind; [by eapply rel_step |]. intros [pc' coord' | r] s1 s2 (gh' & K' & A' & HR & Hi' & Hn).
    + by apply (IH pc' coord' gh' K' A').
    + split; [done |]. by exists gh', K', A'.
Qed.

Lemma rel_gets {X} (f : state -> X) gh A : (forall s l, f (with_locals l s) = f s) -> rel (R gh A) (gets f) (gets f) (fun _ => R gh A).
Proof.
  intros Hf. apply rel_blind; [intros s l; unfold gets; by rewrite Hf | by intros s a s' [= <- <-]].
Qed.

Lemma rel_Construct gh A : rel (R gh A) (Construct wundef) (Construct wundef) (fun _ => R gh A).
Proof.
  unfold Construct. eapply rel_bind; [by apply rel_gets |]. intros [| w [| w' ws]]; cbn.
  - apply rel_modify; [by intros s l | by intros s ->].
  - apply (rel_ret (fun _ => R gh A)).
  - eapply rel_bind; [apply rel_alloc; alloc_op |]. intros v; cbn. apply rel_modify; [by intros s l | by intros s ->].
Qed.

Lemma rel_Deconstruct gh A : rel (R gh A) Deconstruct Deconstruct (fun _ => R gh A).
Proof.
  unfold Deconstruct. eapply rel_bind; [by apply rel_gets |]. intros [| w [| w' ws]]; cbn; try apply (rel_ret (fun _ => R gh A)).
  eapply rel_bind; [apply rel_look |]. intros [t |]; cbn.
  - eapply rel_bind; [apply (rel_modify _ gh gh); [by intros s l | by intros s ->] |]. intros ?; cbn. apply (rel_ret (fun _ => R gh A)).
  - eapply rel_bind; [apply rel_look |]. intros p; cbn. apply rel_bind_lift. intros a _.
    eapply rel_bind; [apply rel_look |]. intros ws; cbn. eapply rel_bind; [apply rel_SetArgs |]. intros ?; cbn. apply (rel_ret (fun _ => R gh A)).
Qed.

(** What [Run] reads of the frame is in its ghost. *)
Lemma rel_bind_ghost {X Y} (f : state -> X) (v : ghost -> X) (h1 h2 : X -> M Y) gh A Q : (forall s, f s = v (ghost_of s)) ->
  rel (R gh A) (h1 (v gh)) (h2 (v gh)) Q -> rel (R gh A) (bind (gets f) h1) (bind (gets f) h2) Q.
Proof.
  intros Hf Hh s1 s2 HR. specialize (Hh s1 s2 HR). destruct HR as (s & l1 & l2 & -> & -> & _ & _ & ->).
  unfold bind, gets. by rewrite !Hf.
Qed.

Lemma rel_enter_formals fm gh A : rel (R gh A) (enter_formals wundef fm) (enter_formals wundef fm)
  (fun requested => R gh (if requested then A else defs A (formal_defs fm))).
Proof.
  assert (Hreq : rel (R gh A) (ret true) (ret true) (fun r : bool => R gh (if r then A else defs A (formal_defs fm))))
    by (intros s1 s2 HR; by split).
  assert (Hdone : forall ds, rel (R gh (defs A ds)) (ret false) (ret false) (fun r : bool => R gh (if r then A else defs A ds)))
    by (intros ds s1 s2 HR; by split).
  assert (Hnil : forall s1 s2, R gh A s1 s2 -> R gh (defs A []) s1 s2) by (intros s1 s2; by rewrite defs_nil).
  assert (Hone : forall d, rel (R gh A)
    (bind (Construct wundef) (fun _ => bind (match d with IdDef id => bind (arg_at 0) (fun w => SetLocal id w) | Wildcard => ret tt end) (fun _ => ret false)))
    (bind (Construct wundef) (fun _ => bind (match d with IdDef id => bind (arg_at 0) (fun w => SetLocal id w) | Wildcard => ret tt end) (fun _ => ret false)))
    (fun r : bool => R gh (if r then A else defs A [d]))).
  { intros d. eapply rel_bind; [apply rel_Construct |]. intros ?; cbn beta. destruct d as [id |].
    - apply rel_assoc. eapply rel_bind; [apply selects_arg_at |]. intros w; cbn beta.
      eapply rel_bind; [apply rel_SetLocal |]. intros ?; cbn beta. apply Hdone.
    - eapply rel_bind; [apply (rel_ret (fun _ => R gh A)) |]. intros ?; cbn beta. eapply rel_conseq; [apply (Hdone [Wildcard]) | | done].
      intros s1 s2. apply R_weaken. unfold defs. cbn. set_solver. }
  destruct fm as [[| d [| d' ds]] | [id |]]; cbn [enter_formals formal_defs] in *.
  - eapply rel_bind; [by apply rel_gets |]. intros [| w [| w' ws]]; cbn beta iota.
    + eapply rel_conseq; [apply (Hdone []) | apply Hnil | done].
    + eapply rel_bind; [apply rel_look |]. intros [i |]; cbn beta iota.
      * eapply rel_conseq; [apply (Hdone []) | apply Hnil | done].
      * eapply rel_bind; [apply (rel_modify _ gh gh); [by intros s l | by intros s ->] |]. intros ?; cbn beta. apply Hreq.
    + apply rel_fail.
  - apply Hone.
  - eapply rel_bind; [apply rel_Deconstruct |]. intros [|]; cbn beta iota; [apply Hreq |].
    eapply rel_bind; [by apply rel_gets |]. intros args; cbn beta iota. case_match; [| apply rel_fail].
    eapply rel_bind; [apply rel_set_defs, selects_arg_at |]. intros ?; cbn beta. apply Hdone.
  - eapply rel_bind; [apply rel_Construct |]. intros ?; cbn beta. eapply rel_bind; [apply selects_arg_at |]. intros w; cbn beta.
    eapply rel_bind; [apply rel_SetLocal |]. intros ?; cbn beta. apply Hdone.
  - eapply rel_conseq; [apply (Hdone [Wildcard]) | | done]. intros s1 s2. apply R_weaken. unfold defs. cbn. set_solver.
Qed.

(** A frame that can be continued. *)
Definition ready gh K A : Prop := inv gh K A /\ check K (defs A (formal_defs (gh_formals gh))) (gh_pc gh) = true.

Lemma rel_Run fuel gh K A : ready gh K A ->
  rel (R gh A) (Run wundef k1 constructorHandler lazySelCode status emptyVector emptyRecord fuel g) (Run wundef k2 constructorHandler lazySelCode status emptyVector emptyRecord fuel g) ends.
Proof.
  intros [Hi Hc]. unfold Run. apply (rel_bind_ghost s_pc gh_pc); [done |].
  eapply rel_bind; [by apply rel_gets |]. intros coord; cbn beta.
  apply rel_bind with (Q := fun requested : bool => R gh (if requested then A else defs A (formal_defs (gh_formals gh)))).
  - apply (rel_bind_ghost s_formals gh_formals); [done |]. apply rel_enter_formals.
  - intros [|]; cbn beta iota.
    + intros s1 s2 HR. split; [done |]. by exists gh, K, A.
    + apply rel_run_loop with (K := K); [by apply inv_defs | done].
Qed.
End Steps.

(** ** The life of a frame *)

Lemma R_observe r gh A s1 s2 : R gh A s1 s2 -> observe r s1 = observe r s2 /\ s_calls s1 = s_calls s2 /\ s_calls s1 = gh_calls gh.
Proof. by intros (s & l1 & l2 & -> & -> & _ & _ & ->). Qed.

(** Handlers can be activated: the locals they need are protected. *)
Lemma activate_ok hs K h hs' : hs_ok hs K -> activate hs = Some (h, hs') ->
  exists K', hs_ok hs' K' /\ protected K' ⊆ protected K /\
    exists P, P ⊆ protected K /\ check K' (defs (P ∪ protected K') h.2) h.1 = true.
Proof.
  revert K. induction hs as [| [h0 |] hs IH]; intros K Hk E; [done | |]; destruct K as [| P K]; try done; cbn in E, Hk.
  - injection E as <- <-. destruct h0 as [pc ds]. destruct Hk as [Hk Hc]. exists (∅ :: K). rewrite !protected_cons. split; [by split |].
    split; [set_solver |]. exists P. split; [set_solver |]. cbn [fst snd]. by rewrite (left_id_L ∅ (∪)).
  - destruct (IH K (proj1 Hk) E) as (K' & Hk' & Hp & P' & HP & Hc). exists K'. rewrite protected_cons.
    split; [done |]. split; [set_solver |]. exists P'. split; [set_solver | done].
Qed.

Definition event_ok (e : event) : Prop := match e with Resume st _ _ | Exn st _ _ _ => store_ok g st end.

Lemma rel_deliver e can gh K A hs s1 s2 : event_ok e -> R gh A s1 s2 -> hs_ok hs K -> protected K ⊆ A ->
  (can = true -> check K (defs A (formal_defs (gh_formals gh))) (gh_pc gh) = true) ->
  match deliver e can hs s1, deliver e can hs s2 with
  | Some (t1, hs1), Some (t2, hs2) => hs1 = hs2 /\ exists gh' K' A', R gh' A' t1 t2 /\ ready hs1 gh' K' A'
  | None, None => True
  | _, _ => False
  end.
Proof.
  intros He (s & l1 & l2 & -> & -> & Ha & Hs & ->) Hh Hp Hc. destruct e as [st args data | st package exn data]; cbn.
  - destruct can; [| done]. split; [done |]. exists (mkGhost [] (s_pc s) (s_formals s)), K, A. split; [| by split; [split |]; [| | apply Hc]].
    by exists (mkState st l1 (s_pc s) (s_coord s) (s_formals s) args data []), l1, l2.
  - destruct (activate hs) as [[h hs'] |] eqn:Eh; [| done]. cbn. split; [done |].
    destruct (activate_ok _ _ _ _ Hh Eh) as (K' & Hk' & Hp' & P & HP & Hc').
    exists (mkGhost [] h.1 (Formals h.2)), K', (P ∪ protected K'). split.
    + apply (R_weaken _ A); [set_solver |].
      by exists (mkState st l1 h.1 (s_coord s) (Formals h.2) [package; exn] data []), l1, l2.
    + split; [split; [done |]; set_solver | done].
Qed.

Lemma session_eq fuel events : Forall event_ok events -> forall hs gh K A s1 s2, R gh A s1 s2 -> ready hs gh K A ->
  session wundef k1 constructorHandler lazySelCode status emptyVector emptyRecord fuel g events hs s1 =
  session wundef k2 constructorHandler lazySelCode status emptyVector emptyRecord fuel g events hs s2.
Proof.
  induction events as [| e events IH]; intros He hs gh K A s1 s2 HR Hr; pose proof (rel_Run hs fuel gh K A Hr s1 s2 HR) as Hrun; cbn [session];
    destruct (Run _ k1 _ _ _ _ _ _ _ s1) as [[r t1] |], (Run _ k2 _ _ _ _ _ _ _ s2) as [[r' t2] |]; try done;
    destruct Hrun as [<- (gh' & K' & A' & HR' & Hi' & Hc')]; destruct (R_observe r _ _ _ _ HR') as (-> & Ec & Eg); [done |].
  f_equal. rewrite <- Ec. destruct (popped (s_calls t1)) eqn:Ep; [done |].
  assert (Hd := rel_deliver e (resumable r) gh' K' A' (apply_calls hs (s_calls t1)) t1 t2).
  rewrite Eg in *. specialize (Hd (Forall_inv He) HR' (proj1 Hi') (proj2 Hi') (fun E => Hc' E Ep)).
  destruct (deliver _ _ _ t1) as [[u1 hs1] |] eqn:E1, (deliver _ _ _ t2) as [[u2 hs2] |]; try done.
  destruct Hd as [<- (gh2 & K2 & A2 & HR2 & Hr2)]. apply (IH (Forall_inv_tail He) hs1 gh2 K2 A2); [done | done].
Qed.
End Rules.
