(* ===== verification/AbstractCodeRun.v ===== *)
(** * Runs of abstract code: termination, requests and closures

    What every instruction does to the position of the frame: the next
    instruction is a part of the current one, so a run ends; a request leaves
    the frame at the instruction that made it, with its locals and its calls as
    they were.  Then the substitution that a closure inherits. *)

From S2P Require Import Prelude Config HeaderOp AliceData AbstractCode.

(** ** The size of code *)

Definition sizes {A} (f : A -> nat) (l : list A) : nat := list_sum (map f l).

Fixpoint isize (pc : instr) : nat :=
  S match pc with
    | AppPrim _ _ cont => match cont with Some (_, pc) => isize pc | None => 0 end
    | AppVar _ _ _ cont => match cont with Some (_, pc) => isize pc | None => 0 end
    | Close _ _ _ pc | PutTag _ _ _ _ pc | PutPolyRec _ _ _ pc | PutTup _ _ pc | PutVec _ _ pc | Specialize _ _ _ pc
    | Coord _ pc | EndHandle pc | EndTry pc | Entry _ _ pc | Exit _ _ _ pc | Kill _ pc | PutNew _ _ pc | Shared _ pc
    | GetRef _ _ pc | GetTup _ _ pc | LazyPolySel _ _ _ pc | PutRef _ _ pc | PutVar _ _ pc | Sel _ _ _ pc | PutCon _ _ _ pc => isize pc
    | CompactIntTest _ _ tests otherwise => sizes isize tests + isize otherwise
    | CompactTagTest _ _ tests otherwise =>
        sizes (fun t => let '(_, pc) := t in isize pc) tests + match otherwise with Some pc => isize pc | None => 0 end
    | ConTest _ nullary nary otherwise =>
        sizes (fun t => let '(_, pc) := t in isize pc) nullary + sizes (fun t => let '(_, _, pc) := t in isize pc) nary + isize otherwise
    | IntTest _ tests otherwise => sizes (fun t => let '(_, pc) := t in isize pc) tests + isize otherwise
    | RealTest _ tests otherwise => sizes (fun t => let '(_, pc) := t in isize pc) tests + isize otherwise
    | StringTest _ tests otherwise => sizes (fun t => let '(_, pc) := t in isize pc) tests + isize otherwise
    | TagTest _ _ nullary nary otherwise =>
        sizes (fun t => let '(_, pc) := t in isize pc) nullary + sizes (fun t => let '(_, _, pc) := t in isize pc) nary + isize otherwise
    | VecTest _ tests otherwise => sizes (fun t => let '(_, pc) := t in isize pc) tests + isize otherwise
    | Raise _ | Reraise _ | Return _ => 0
    | Try body _ _ handler => isize body + isize handler
    end.

Lemma sizes_elem {A} (f : A -> nat) l a : a ∈ l -> (f a <= sizes f l)%nat.
Proof. unfold sizes. induction 1 as [| ? ? ? ? IH]; cbn [map list_sum foldr] in *; [| unfold list_sum in IH]; lia. Qed.

(** ** A logic of results and states *)

Definition from {X} (s0 : state) (m : M X) (Q : X -> state -> Prop) : Prop := forall a s, m s0 = Some (a, s) -> Q a s.

(** Every result of [m], from any state. *)
Definition yields {X} (m : M X) (Q : X -> Prop) : Prop := forall s0, from s0 m (fun a _ => Q a).

Lemma yields_bind {X Y} (m : M X) (f : X -> M Y) P Q : yields m P -> (forall a, P a -> yields (f a) Q) -> yields (bind m f) Q.
Proof.
  intros Hm Hf s0 b s E. unfold bind in E. destruct (m s0) as [[a t] |] eqn:Em; [| done]. by apply (Hf a (Hm _ _ _ Em) t b s).
Qed.

Lemma yields_any {X Y} (m : M X) (f : X -> M Y) Q : (forall a, yields (f a) Q) -> yields (bind m f) Q.
Proof. intros Hf. apply (yields_bind _ _ (fun _ => True)); [done | auto]. Qed.

Lemma yields_lift {X Y} (o : option X) (f : X -> M Y) Q : (forall a, o = Some a -> yields (f a) Q) -> yields (bind (lift o) f) Q.
Proof. intros Hf. apply (yields_bind _ _ (fun a => o = Some a)); [| done]. intros s0 a s. unfold lift. destruct o; [| done]. by intros [= -> _]. Qed.

Lemma yields_ret {X} (a : X) (Q : X -> Prop) : Q a -> yields (ret a) Q.
Proof. by intros HQ s0 b s [= <- _]. Qed.

Lemma yields_fail {X} (Q : X -> Prop) : yields (lift None) Q.
Proof. by intros s0 b s E. Qed.

Lemma yields_find_con {B} g c (tests : list (idRef * B)) : yields (find_con g c tests) (fun r => forall b, r = CFound b -> exists x, (x, b) ∈ tests).
Proof.
  induction tests as [| [x b] tests IH]; cbn; [by apply yields_ret |].
  apply yields_any. intros w. apply yields_any. intros [a |]; [case_match |]; try apply yields_ret; try done.
  - intros b' [= <-]. exists x. by left.
  - intros s0 r s E b' Er. destruct (IH s0 r s E b' Er) as [y Hy]. exists y. by right.
Qed.

(** ** Termination *)

Definition smaller (pc : instr) (n : next) : Prop := match n with Goto pc' _ => (isize pc' < isize pc)%nat | Stop _ => True end.

Lemma find_size {B} (p : B * instr -> bool) tests otherwise :
  (isize (default otherwise (snd <$> find p tests)) <= sizes (fun t => let '(_, pc) := t in isize pc) tests + isize otherwise)%nat.
Proof.
  destruct (find p tests) as [[b pc] |] eqn:E; cbn; [| lia]. apply find_some in E as [E%list_elem_of_In _].
  apply (sizes_elem (fun t : B * instr => let '(_, pc) := t in isize pc)) in E. lia.
Qed.

Lemma aget_size {B} (f : B -> nat) (tests : list B) i t : aget tests i = Some t -> (f t <= sizes f tests)%nat.
Proof. unfold aget. intros E. case_decide; [| done]. by eapply sizes_elem, list_elem_of_lookup_2. Qed.

Lemma yields_REQUEST pc coord w pc' : yields (REQUEST pc coord w) (smaller pc').
Proof. apply yields_any. intros [|]; [| apply yields_fail]. apply yields_any. intros _. by apply yields_ret. Qed.

Ltac yield_op :=
  lazymatch goal with
  | |- yields (match ?a with _ => _ end) _ => destruct a eqn:?
  | |- yields (bind (match ?a with _ => _ end) _) _ => destruct a eqn:?
  | |- yields (lift None) _ => apply yields_fail
  | |- yields (bind (lift _) _) _ => apply yields_lift; intros ? ?
  | |- yields (bind (find_con _ _ _) _) _ => eapply yields_bind; [apply yields_find_con | intros ? ?]
  | |- yields (bind _ _) _ => apply yields_any; intros ?
  | |- yields (REQUEST _ _ _) _ => apply yields_REQUEST
  | |- yields (goto _ _) _ => apply yields_ret; cbn [smaller isize]
  | |- yields (ret _) _ => apply yields_ret; try done; cbn [smaller isize]
  end; cbn beta iota.

Lemma find_elem_size {B} (f : B -> nat) (p : B -> bool) tests t : find p tests = Some t -> (f t <= sizes f tests)%nat.
Proof. intros [E _]%find_some. by apply sizes_elem, list_elem_of_In. Qed.

Lemma default_aget_size tests i otherwise : (isize (default otherwise (aget tests i)) <= sizes isize tests + isize otherwise)%nat.
Proof. destruct (aget tests i) eqn:E; cbn; [apply (aget_size isize) in E |]; lia. Qed.

(** The instruction of a test that was found is a part of the test. *)
Ltac size_op :=
  subst;
  repeat match goal with
  | E : aget ?l _ = Some _ |- context [sizes ?f ?l] => apply (aget_size f) in E
  | E : find _ ?l = Some _ |- context [sizes ?f ?l] => apply (find_elem_size f) in E
  | E : forall b, CFound _ = CFound b -> _ |- _ => destruct (E _ eq_refl) as [? Hin]; clear E
  | E : _ ∈ map _ ?l |- context [sizes ?f ?l] => apply list_elem_of_In, in_map_iff in E as ([[] ?] & [= -> -> ->] & E%list_elem_of_In)
  | E : _ ∈ ?l |- context [sizes ?f ?l] => apply (sizes_elem f) in E
  end; cbn [isize] in *; try lia;
  lazymatch goal with
  | |- (isize (default ?o (aget ?l ?i)) < _)%nat => pose proof (default_aget_size l i o); lia
  | |- (isize (default ?o ?f) < _)%nat =>
      unfold find_int, find_real, find_string;
      lazymatch goal with |- (isize (default ?o (_ <$> find ?p ?l)) < _)%nat => pose proof (find_size p l o); lia end
  end.

Section Runs.
Context `{Platform}.
Variables (wundef undefinedValue : word) (killed : word) (constructorHandler lazySelCode : word) (status emptyVector emptyRecord : Z) (g : Z).
#[local] Abbreviation step := (step wundef killed constructorHandler lazySelCode status emptyVector emptyRecord g).
#[local] Abbreviation run_loop := (fun fuel => run_loop wundef killed constructorHandler lazySelCode status emptyVector emptyRecord fuel g).

Lemma step_smaller pc coord : yields (step pc coord) (smaller pc).
Proof.
  destruct pc; cbn [AbstractCode.step step_put step_close step_get step_call step_exn step_test step_tag step_con]; unfold POP_CHECK_PREEMPT; repeat yield_op; try lia; size_op.
Qed.

Lemma run_loop_ends fuel : forall pc coord, (isize pc <= fuel)%nat -> yields (run_loop fuel pc coord) (fun r => is_Some r).
Proof.
  induction fuel as [| fuel IH]; intros pc coord Hf; [destruct pc; cbn [isize] in Hf; lia |]. cbn [AbstractCode.run_loop].
  eapply yields_bind; [apply (step_smaller pc coord) |]. intros [pc' coord' | r] Hn; cbn beta iota.
  - apply IH. cbn in Hn. lia.
  - by apply yields_ret.
Qed.

Lemma run_loop_fuel fuel : forall fuel' pc coord s, (isize pc <= fuel)%nat -> (isize pc <= fuel')%nat ->
  run_loop fuel pc coord s = run_loop fuel' pc coord s.
Proof.
  induction fuel as [| fuel IH]; intros [| fuel'] pc coord s Hf Hf'; try (destruct pc; cbn [isize] in *; lia).
  cbn [AbstractCode.run_loop]. unfold bind. destruct (step pc coord s) as [[[pc' coord' | r] t] |] eqn:E; try done.
  apply step_smaller in E. cbn in E. apply IH; lia.
Qed.

(** ** Requests *)

(** An operation that leaves the state as it is. *)
Definition observes {X} (m : M X) : Prop := forall s0, from s0 m (fun _ s => s = s0).

Lemma observes_bind {X Y} (m : M X) (f : X -> M Y) : observes m -> (forall a, observes (f a)) -> observes (bind m f).
Proof.
  intros Hm Hf s0 b s E. unfold bind in E. destruct (m s0) as [[a t] |] eqn:Em; [| done].
  rewrite <- (Hm _ _ _ Em). by apply (Hf a t b s).
Qed.

Lemma observes_look {X} (f : store abstractCode -> option X) : observes (look f).
Proof. intros s0 a s. unfold look. destruct (f _); [| done]. by intros [= _ <-]. Qed.

Lemma observes_lift {X} (o : option X) : observes (lift o).
Proof. apply (observes_look (fun _ => o)). Qed.

Lemma observes_ret {X} (a : X) : observes (ret a).
Proof. by intros s0 b s [= _ <-]. Qed.

Lemma observes_GetLocal id : observes (GetLocal id).
Proof. apply observes_bind; [by intros s0 a s [= _ <-] | intros l; apply observes_lift]. Qed.

Lemma observes_GetIdRef x : observes (GetIdRef g x).
Proof.
  destruct x; cbn; try apply observes_GetLocal; [| apply observes_ret].
  apply observes_bind; [apply observes_look |]. intros f. apply observes_bind; [apply observes_lift |].
  intros [| | |]; first [apply observes_look | apply observes_ret | apply observes_GetLocal].
Qed.

Lemma observes_find_con {B} c (tests : list (idRef * B)) : observes (find_con g c tests).
Proof.
  induction tests as [| [x b] tests IH]; cbn; [apply observes_ret |].
  apply observes_bind; [apply observes_GetIdRef |]. intros w. apply observes_bind; [apply observes_look |].
  intros [a |]; [case_match; [apply observes_ret | done] | apply observes_ret].
Qed.

(** What a request at [pc] makes of a state. *)
Definition requested (pc : instr) (coord : word) (s s' : state) : Prop :=
  exists w a, s' = mkState (s_store s) (s_locals s) pc coord (Formals []) [] w (s_calls s) /\ WordToTransient (s_store s) w = Some (Some a).

Definition requests (pc : instr) (coord : word) (m : M next) : Prop :=
  forall s0, from s0 m (fun n s => n = Stop SRequest -> requested pc coord s0 s).

Lemma requests_observe {X} (m : M X) f pc coord : observes m -> (forall a, requests pc coord (f a)) -> requests pc coord (bind m f).
Proof.
  intros Hm Hf s0 n s E. unfold bind in E. destruct (m s0) as [[a t] |] eqn:Em; [| done].
  rewrite <- (Hm _ _ _ Em). by apply (Hf a t n s).
Qed.

Lemma requests_never (m : M next) pc coord : yields m (fun n => n <> Stop SRequest) -> requests pc coord m.
Proof. intros Hm s0 n s E En. by destruct (Hm _ _ _ E En). Qed.

Lemma requests_REQUEST pc coord w : requests pc coord (REQUEST pc coord w).
Proof.
  intros s0 n s. unfold REQUEST, bind, look, modify, ret, lift.
  destruct (WordToTransient (s_store s0) w) as [[a |] |] eqn:Ea; [| done | done]. intros [= <- <-] _. by exists w, a.
Qed.

Ltac request_op :=
  lazymatch goal with
  | |- requests _ _ (match ?a with _ => _ end) => destruct a eqn:?
  | |- requests _ _ (REQUEST _ _ _) => apply requests_REQUEST
  | |- requests _ _ (bind (look _) _) => apply requests_observe; [apply observes_look | intros ?]
  | |- requests _ _ (bind (GetIdRef _ _) _) => apply requests_observe; [apply observes_GetIdRef | intros ?]
  | |- requests _ _ (bind (find_con _ _ _) _) => apply requests_observe; [apply observes_find_con | intros ?]
  | |- requests _ _ _ => apply requests_never
  end; cbn beta iota.

Lemma step_requests pc coord : requests pc coord (step pc coord).
Proof.
  destruct pc; cbn [AbstractCode.step step_put step_close step_get step_call step_exn step_test step_tag step_con]; unfold tag_view, tag_of, POP_CHECK_PREEMPT;
    repeat request_op; repeat yield_op; try done; by case_match.
Qed.
End Runs.
