(* ===== verification/AbstractCodeClose.v ===== *)
(** * Closures capture the values of their globals

    A function that is closed inherits the immediate globals of its parent and
    numbers the others; the closure holds the values of the numbered ones.
    Together they make every global of the new closure read what the operand
    reads in the parent. *)

From S2P Require Import Prelude Config HeaderOp AliceData AbstractCode AbstractCodeWf AbstractCodeSound AbstractCodeRun.

(** An operand that is killed is not used by a later one. *)
Definition kills_of (x : idRef) : lset := match x with LastUseLocal id => {[id]} | _ => ∅ end.
Fixpoint last_uses_last (xs : list idRef) : bool :=
  match xs with
  | [] => true
  | x :: xs => forallb (fun y => bool_decide (kills_of x ## ref_id y)) xs && last_uses_last xs
  end.

Section Close.
Context `{Platform}.
Variables (wundef killed : word) (g : Z).

(** The value of an operand. *)
Definition val (g : Z) (s : state) (x : idRef) : option word := fst <$> GetIdRef g x s.

Lemma val_get s x w s' : GetIdRef g x s = Some (w, s') -> val g s x = Some w /\ s' = s.
Proof. intros E. split; [unfold val; by rewrite E | by apply (observes_GetIdRef g x s w s')]. Qed.

Lemma KillIdRef_frame x s u s' : KillIdRef killed x s = Some (u, s') -> s_store s' = s_store s /\ forall id, id ∉ kills_of x -> aget (s_locals s') id = aget (s_locals s) id.
Proof.
  destruct x as [| | id |]; cbn; try (intros [= _ <-]; by eauto).
  unfold KillLocal, SetLocal, bind, gets, lift, modify. destruct (aset (s_locals s) id killed) as [l |] eqn:E; [| done].
  intros [= _ <-]. split; [done |]. intros j Hj. cbn. eapply aget_aset_ne; [done | set_solver].
Qed.

(** Operands do not depend on locals that they do not mention. *)
Lemma val_frame s s' x f : closure_code (s_store s) g = Some f -> no_locals (f_subst f) = true -> s_store s' = s_store s ->
  (forall id, id ∈ ref_id x -> aget (s_locals s') id = aget (s_locals s) id) -> val g s' x = val g s x.
Proof.
  intros Ef Hn Es Hl. unfold val. destruct x as [i | w | id | id]; cbn; try done.
  2, 3: unfold GetLocal, bind, gets, lift; rewrite Hl by (cbn; set_solver); by destruct (aget _ _).
  unfold bind, look. rewrite Es, Ef. unfold lift. destruct (aget (f_subst f) i) as [y |] eqn:Ey; [| done].
  unfold no_locals, aget in *. case_decide; [| done]. apply list_elem_of_lookup_2 in Ey. apply (forallb_elem _ _ _ Hn) in Ey.
  destruct y as [j | | |]; try done. rewrite Es. by destruct (Closure_Sub _ _ _).
Qed.

(** The operand of a global of the new function is the value the operand of
    the closing instruction had. *)
Definition captured (j : Z) (ws : list word) (s : state) (x y : idRef) : Prop :=
  exists w, val g s x = Some w /\
    match y with Immediate v => v = w | Global k => j <= k /\ aget ws (k - j) = Some w | _ => False end.

Lemma captured_next j w ws s x y : captured (j + 1) ws s x y -> captured j (w :: ws) s x y.
Proof.
  intros (v & Ev & Hy). exists v. split; [done |]. destruct y as [k | | |]; try done. destruct Hy as [Hk Hw]. split; [lia |].
  rewrite aget_cons by lia. by replace (k - j - 1) with (k - (j + 1)) by lia.
Qed.

Lemma inherit_cons ps x xs j ss : inherit_subst ps (x :: xs) j = Some ss ->
  exists y ss', ss = y :: ss' /\
    ((exists k v, x = Global k /\ aget ps k = Some (Immediate v) /\ y = Immediate v /\ inherit_subst ps xs j = Some ss') \/
     (y = Global j /\ inherit_subst ps xs (j + 1) = Some ss')).
Proof.
  cbn. intros (t & Et & E)%bind_Some.
  destruct x as [k | w | |]; [destruct t as [| v | |] | | |]; apply bind_Some in E as (ss' & E & [= <-]); eexists _, ss'; (split; [done |]);
    try (right; by split).
  left. by exists k, v.
Qed.

Lemma close_values_captured f xs : forall ss j s ws s', closure_code (s_store s) g = Some f -> no_locals (f_subst f) = true ->
  inherit_subst (f_subst f) xs j = Some ss -> close_values killed g xs ss s = Some (ws, s') -> last_uses_last xs = true ->
  s_store s' = s_store s /\ Forall2 (captured j ws s) xs ss.
Proof.
  induction xs as [| x xs IH]; intros ss j s ws s' Ef Hn Ei E Hl.
  - injection Ei as <-. injection E as <- <-. by split; [| constructor].
  - apply inherit_cons in Ei as (y & ss' & -> & Hy). cbn in Hl. apply andb_true_iff in Hl as [Hx Hl].
    cbn in E. unfold bind at 1, GetIdRefKill, bind at 1 in E. destruct (GetIdRef g x s) as [[w t] |] eqn:Ew; [| done].
    apply val_get in Ew as [Ew ->]. unfold bind at 1 in E. destruct (KillIdRef killed x s) as [[u t] |] eqn:Ek; [| done].
    apply KillIdRef_frame in Ek as (Es & Hk). cbn in E. unfold bind in E.
    destruct (close_values killed g xs ss' t) as [[ws' t'] |] eqn:Ev; [| done]. injection E as <- <-.
    assert (Hval : forall z, z ∈ xs -> val g t z = val g s z).
    { intros z Hz. apply (val_frame s t z f); [done .. |]. intros id Hid. apply Hk. apply (forallb_elem _ _ _ Hx) in Hz.
      apply bool_decide_eq_true in Hz. set_solver. }
    assert (Hmono : forall j' ws2, Forall2 (captured j' ws2 t) xs ss' -> Forall2 (captured j' ws2 s) xs ss').
    { intros j' ws2 HF. apply Forall2_same_length_lookup. split; [by apply Forall2_length in HF |]. intros i z y' Hz Hy'.
      destruct (Forall2_lookup_lr _ _ _ _ _ _ HF Hz Hy') as (v & Hv & Hc). exists v. split; [| done]. rewrite <- Hv. symmetry. apply Hval. by eapply list_elem_of_lookup_2. }
    destruct Hy as [(k & v & -> & Eps & -> & Ei) | (-> & Ei)]; cbn [is_global].
    + destruct (IH ss' j t ws' t') as [Es' HF]; [by rewrite Es | done .. |]. split; [by rewrite Es', Es |]. constructor; [| by apply Hmono].
      exists w. split; [done |]. unfold val in Ew. cbn in Ew. unfold bind, look, lift in Ew. rewrite Ef, Eps in Ew. by injection Ew.
    + destruct (IH ss' (j + 1) t ws' t') as [Es' HF]; [by rewrite Es | done .. |]. split; [by rewrite Es', Es |]. constructor.
      * exists w. split; [done |]. split; [lia |]. by rewrite Z.sub_diag.
      * eapply Forall2_impl; [by apply Hmono |]. intros z y'. apply captured_next.
Qed.

(** The new closure and its code in the store. *)
Lemma Closure_New_code st a f ws c st' : fresh st -> st_get st a = Some (NCode f) -> Closure_New wundef st (WPtr a) ws = (st', c) ->
  closure_code st' c = Some f /\ forall k w, 0 <= k -> aget ws k = Some w -> Closure_Sub st' c k = Some w.
Proof.
  intros Hf Ea. unfold Closure_New, AllocMutableBlock. set (n := NBlock _ _ _). intros E.
  assert (st' = (st_alloc st n).1 /\ c = st_next st) as [-> ->] by (by injection E as <- <-).
  assert (Hg : forall i w, aget (WPtr a :: ws) i = Some w -> GetArg (st_alloc st n).1 (st_next st) i = Some w).
  { intros i w Ew. unfold GetArg, GetArgs, st_get. cbn [st_alloc fst st_nodes]. rewrite lookup_insert_eq. cbn [mbind option_bind].
    unfold n. cbn iota. cbn [mbind option_bind]. unfold block_args. rewrite aget_app_l; [done |]. apply (aget_Some_lt _ _ _ Ew). }
  split.
  - unfold closure_code. rewrite (Hg 0 (WPtr a)) by done. cbn [mbind option_bind]. unfold ConcreteToAbstractCode, WordToBlock, deref.
    pose proof (st_alloc_get st n Hf a _ Ea) as Ea'. destruct (size _); cbn [deref_loop]; rewrite Ea'; cbn [mbind option_bind];
      rewrite Ea'; cbn [mbind option_bind]; by rewrite Ea'.
  - intros k w Hk Ew. unfold Closure_Sub. apply Hg. rewrite aget_cons by lia. by replace (1 + k - 1) with k by lia.
Qed.

Lemma bind_inv {X Y} (m : M X) (h : X -> M Y) s b s' : bind m h s = Some (b, s') -> exists a t, m s = Some (a, t) /\ h a t = Some (b, s').
Proof. unfold bind. destruct (m s) as [[a t] |]; [| done]. eauto. Qed.

Lemma look_inv {X} (q : store abstractCode -> option X) s a t : look q s = Some (a, t) -> q (s_store s) = Some a /\ t = s.
Proof. unfold look. destruct (q (s_store s)); [| done]. by intros [= -> ->]. Qed.

(** Operands in the store before an allocation. *)
Lemma val_alloc f s n x : fresh (s_store s) -> closure_code (s_store s) g = Some f ->
  val g (with_store (st_alloc (s_store s) n).1 s) x = val g s x.
Proof.
  intros Hf Ef. unfold val. assert (Hloc : forall id st, fst <$> GetLocal id (with_store st s) = fst <$> GetLocal id s).
  { intros id st. unfold GetLocal, bind, gets, lift. cbn [s_locals with_store]. by destruct (aget _ _). }
  destruct x as [i | w | id | id]; cbn [GetIdRef]; [| done | apply Hloc | apply Hloc].
  unfold bind, look. change (s_store (with_store ?a s)) with a. rewrite (closure_code_alloc _ _ n _ Hf Ef), Ef. unfold lift.
  destruct (aget (f_subst f) i) as [[j | | |] |]; try done. unfold look, Closure_Sub, GetArg, GetArgs. change (s_store (with_store ?a s)) with a.
  apply bind_Some in Ef as (w & Ew & _). unfold GetArg, GetArgs in Ew. destruct (st_get (s_store s) g) as [d |] eqn:Ed; [| done].
  rewrite (st_alloc_get _ _ Hf _ _ Ed). destruct d; cbn [mbind option_bind]; try done. by destruct (aget args (1 + j)).
Qed.

(** What the frame holds after [Close]. *)
Lemma Close_state id idRefs t pc coord s s' n f :
  fresh (s_store s) -> closure_code (s_store s) g = Some f ->
  step_close wundef killed g (Close id idRefs t pc) coord s = Some (n, s') ->
  exists ss ws s1 s2 st a c, inherit_subst (f_subst f) idRefs 0 = Some ss /\
    (st, a) = st_alloc (s_store s) (NCode (instantiate t ss)) /\ s1 = with_store st s /\
    close_values killed g idRefs ss s1 = Some (ws, s2) /\
    (s_store s', c) = Closure_New wundef (s_store s2) (WPtr a) ws /\ aget (s_locals s') id = Some (WPtr c).
Proof.
  intros Hf Ef E. cbn [step_close] in E. apply bind_inv in E as (code & s1 & Ec & E).
  apply bind_inv in Ec as (f' & t1 & [Ef' ->]%look_inv & Ec). rewrite Ef in Ef'. injection Ef' as <-.
  apply bind_inv in Ec as (ss & t1 & Ess & Ec). apply (look_inv (fun _ => inherit_subst (f_subst f) idRefs 0)) in Ess as [Ess ->].
  unfold alloc in Ec. destruct (st_alloc (s_store s) (NCode (instantiate t ss))) as [st a] eqn:Ea. injection Ec as <- <-.
  apply bind_inv in E as (f' & t1 & [Ef' ->]%look_inv & E). apply bind_inv in E as (ws & s2 & Ews & E).
  apply bind_inv in E as (u & t2 & Ep & E). injection E as <- <-.
  assert (Ess' : f_subst f' = ss).
  { injection Ea as <- <-. unfold ConcreteToAbstractCode, WordToBlock, deref in Ef'. cbn [s_store with_store] in Ef'.
    destruct (size _); cbn [deref_loop] in Ef'; unfold st_get in Ef'; cbn [st_nodes] in Ef'; rewrite lookup_insert_eq in Ef';
      cbn [mbind option_bind] in Ef'; rewrite lookup_insert_eq in Ef'; cbn [mbind option_bind] in Ef'; rewrite lookup_insert_eq in Ef';
      injection Ef' as <-; by destruct t. }
  rewrite Ess' in Ews. unfold put in Ep. apply bind_inv in Ep as (w & t3 & Ew & Ep). unfold alloc in Ew.
  destruct (Closure_New wundef (s_store s2) (WPtr a) ws) as [st' c] eqn:En. injection Ew as <- <-.
  unfold SetLocal, bind, gets, lift, modify in Ep. cbn [s_locals with_store] in Ep.
  destruct (aset (s_locals s2) id (WPtr c)) as [l |] eqn:El; [| done]. injection Ep as <- <-.
  exists ss, ws, (with_store st s), s2, st, a, c. do 4 (split; [done |]). split; [by rewrite En |]. by apply (aget_aset_eq _ _ _ _ El).
Qed.
End Close.
