(* ===== verification/AbstractCodeThm.v ===== *)
(** * Properties of abstract code

    The discipline of last uses is sound; frames end; requests are
    transparent; closures capture their globals; the compact tests are the
    linear ones. *)

From S2P Require Import Prelude Config HeaderOp PointerOp AliceData AbstractCode.
From S2P Require Import AbstractCodeWf AbstractCodeSound AbstractCodeRun AbstractCodeClose.

(** C9. Killing a local is unobservable.  In the life of a frame whose
    function is checked - calls that return, requests that are repeated,
    exceptions that reach its handlers, in any order and with any store that
    the rest of the system leaves - every result, argument, exception, store
    and scheduler call is the same whatever killed locals are overwritten with
    and whatever locals hold before they are defined. *)
Theorem kills_unobservable `{Platform} (wundef k1 k2 u1 u2 constructorHandler lazySelCode : word) (status emptyVector emptyRecord : Z) (fuel : nat)
    (g : Z) (events : list event) (s : state) (f : abstractCode) :
  fresh (s_store s) -> closure_code (s_store s) g = Some f -> check_function f = true -> Forall (event_ok g) events ->
  life wundef k1 constructorHandler lazySelCode status emptyVector emptyRecord u1 fuel g events s =
  life wundef k2 constructorHandler lazySelCode status emptyVector emptyRecord u2 fuel g events s.
Proof.
  intros Hf Ef [Hn Hc]%andb_true_iff He. unfold life, New_frame. cbn [s_store]. rewrite Ef. cbn [mbind option_bind]. f_equal.
  set (n := Z.to_nat (GetNumberOfLocals f)).
  apply (session_eq wundef k1 k2 constructorHandler lazySelCode status emptyVector emptyRecord g fuel events He [] (mkGhost [] (f_body f) (Formals (f_args f))) [] ∅).
  - exists (mkState (s_store s) [] (f_body f) (WInt 0) (Formals (f_args f)) (s_args s) (s_data s) []), (replicate n u1), (replicate n u2).
    split; [done |]. split; [done |]. split; [| by split; [split; [| exists f] |]].
    split; [by rewrite !length_replicate | set_solver].
  - by split; [split |].
Qed.

(** C19. A frame always ends.  With as much fuel as its code has instructions
    the interpreter never runs out of it - it comes back to the scheduler with
    a result, a request, a call or an exception, or fails an assertion - and
    more fuel gives the same run. *)
Theorem Run_ends `{Platform} (wundef killed constructorHandler lazySelCode : word) (status emptyVector emptyRecord : Z) (fuel : nat) (g : Z) (s : state) :
  (isize (s_pc s) <= fuel)%nat ->
  (forall s', Run wundef killed constructorHandler lazySelCode status emptyVector emptyRecord fuel g s <> Some (None, s')) /\
  Run wundef killed constructorHandler lazySelCode status emptyVector emptyRecord fuel g s =
  Run wundef killed constructorHandler lazySelCode status emptyVector emptyRecord (isize (s_pc s)) g s.
Proof.
  intros Hf. unfold Run, bind, gets. destruct (enter wundef s) as [[[|] t] |]; [by split | | by split]. split.
  - intros s' E. destruct (run_loop_ends wundef killed constructorHandler lazySelCode status emptyVector emptyRecord g fuel (s_pc s) (s_coord s) Hf t None s' E). done.
  - by apply run_loop_fuel.
Qed.

(** C18. A request is transparent.  An instruction that requests a value leaves
    the store, the locals and the calls as they were and hands the scheduler a
    transient; the frame continued in any later store runs the same
    instruction again. *)
Theorem request_resumes `{Platform} (wundef killed constructorHandler lazySelCode : word) (status emptyVector emptyRecord : Z) (g : Z) (pc : instr) (coord : word) (s s' : state) :
  step wundef killed constructorHandler lazySelCode status emptyVector emptyRecord g pc coord s = Some (Stop SRequest, s') ->
  (exists w a, s' = mkState (s_store s) (s_locals s) pc coord (Formals []) [] w (s_calls s)
      /\ WordToTransient (s_store s) w = Some (Some a)) /\
  forall fuel st data,
    let t := with_store st (with_data data s') in
    Run wundef killed constructorHandler lazySelCode status emptyVector emptyRecord fuel g t =
    run_loop wundef killed constructorHandler lazySelCode status emptyVector emptyRecord fuel g pc coord t.
Proof.
  intros E. destruct (step_requests wundef killed constructorHandler lazySelCode status emptyVector emptyRecord g pc coord s _ _ E eq_refl) as (w & a & -> & Ea).
  split; [by exists w, a | done].
Qed.

(** C17. A closure captures: after [Close] the local holds a closure in which
    the [i]-th global reads the value that the [i]-th operand had in the
    parent, whether it is inherited as an immediate or stored. *)
Theorem Close_captures `{Platform} (wundef killed : word) (g : Z) (id : Z) (idRefs : list idRef) (t : template) (pc : instr)
    (coord : word) (s s' : state) (n : next) (f : abstractCode) :
  fresh (s_store s) -> closure_code (s_store s) g = Some f -> no_locals (f_subst f) = true -> last_uses_last idRefs = true ->
  step_close wundef killed g (Close id idRefs t pc) coord s = Some (n, s') ->
  exists c, aget (s_locals s') id = Some (WPtr c) /\
    forall i x, aget idRefs i = Some x ->
      exists w, val g s x = Some w /\ val c s' (Global i) = Some w.
Proof.
  intros Hf Ef Hn Hl E. destruct (Close_state _ _ _ _ _ _ _ _ _ _ _ _ Hf Ef E) as (ss & ws & s1 & s2 & st & a & c & Ess & Ea & -> & Ews & Ec & Eid).
  exists c. split; [done |]. set (n1 := NCode (instantiate t ss)) in *.
  assert (st = (st_alloc (s_store s) n1).1 /\ a = st_next (s_store s)) as [-> ->] by (by injection Ea as -> ->). pose proof (fresh_alloc _ n1 Hf) as Hf1.
  assert (Ef1 : closure_code (s_store (with_store (st_alloc (s_store s) n1).1 s)) g = Some f) by by apply closure_code_alloc.
  destruct (close_values_captured killed g f idRefs ss 0 _ ws s2 Ef1 Hn Ess Ews Hl) as [Es2 HF]. rewrite Es2 in Ec.
  destruct (Closure_New_code wundef _ (st_next (s_store s)) (instantiate t ss) ws c (s_store s') Hf1) as [Hcode Hsub]; [| by symmetry |].
  { unfold st_get. cbn. by rewrite lookup_insert_eq. }
  intros i x Ex. unfold aget in Ex. case_decide; [| done]. destruct (Forall2_lookup_l _ _ _ _ _ HF Ex) as (y & Ey & (w & Ew & Hy)).
  exists w. rewrite (val_alloc g f s n1 x Hf Ef) in Ew. split; [done |].
  unfold val. cbn [GetIdRef]. unfold bind, look. rewrite Hcode. unfold lift, aget.
  replace (f_subst (instantiate t ss)) with ss by (by destruct t). rewrite decide_True, Ey by done.
  destruct y as [k | v | |]; try done; [| by rewrite Hy]. unfold look. destruct Hy as [Hk Hw]. rewrite Z.sub_0_r in Hw.
  by rewrite (Hsub k w Hk Hw).
Qed.

(** ** Compact tests *)

Fixpoint number {B} (i : Z) (l : list B) : list (Z * B) :=
  match l with [] => [] | b :: l => (i, b) :: number (i + 1) l end.

(** The linear tests for the tags without and with arguments. *)
Fixpoint nullary_tests (i : Z) (tests : list (option (list idDef) * instr)) : list (Z * instr) :=
  match tests with
  | [] => []
  | (None, pc) :: tests => (i, pc) :: nullary_tests (i + 1) tests
  | (Some _, _) :: tests => nullary_tests (i + 1) tests
  end.
Fixpoint nary_tests (i : Z) (tests : list (option (list idDef) * instr)) : list (Z * list idDef * instr) :=
  match tests with
  | [] => []
  | (Some ds, pc) :: tests => (i, ds, pc) :: nary_tests (i + 1) tests
  | (None, _) :: tests => nary_tests (i + 1) tests
  end.

Lemma aget_step {B} (b : B) l i j : aget (b :: l) (i - j) = if j =? i then Some b else aget l (i - (j + 1)).
Proof.
  destruct (Z.eqb_spec j i) as [-> | Hne]; [by rewrite Z.sub_diag |].
  destruct (decide (j < i)); [rewrite aget_cons by lia; f_equal; lia |]. unfold aget. by rewrite !decide_False by lia.
Qed.

Lemma find_number {B} (l : list B) i j : find_int (number j l) i = aget l (i - j).
Proof.
  revert j. induction l as [| b l IH]; intros j; [unfold aget; by case_decide |].
  rewrite aget_step, <- IH. unfold find_int. cbn. by destruct (j =? i).
Qed.

Lemma find_nullary tests i j : find_int (nullary_tests j tests) i =
  match aget tests (i - j) with Some (None, pc) => Some pc | _ => None end.
Proof.
  revert j. induction tests as [| [[ds |] pc] tests IH]; intros j; [unfold aget; by case_decide | |];
    rewrite aget_step; cbn [nullary_tests]; unfold find_int in *; cbn [find fst].
  - rewrite IH. destruct (Z.eqb_spec j i) as [-> |]; [| done]. unfold aget. by rewrite decide_False by lia.
  - by destruct (j =? i).
Qed.

Lemma find_nary tests i j : find (fun t => t.1.1 =? i) (nary_tests j tests) =
  match aget tests (i - j) with Some (Some ds, pc) => Some (i, ds, pc) | _ => None end.
Proof.
  revert j. induction tests as [| [[ds |] pc] tests IH]; intros j; [unfold aget; by case_decide | |];
    rewrite aget_step; cbn [nary_tests find fst].
  - destruct (Z.eqb_spec j i) as [-> |]; [done | apply IH].
  - rewrite IH. destruct (Z.eqb_spec j i) as [-> |]; [| done]. unfold aget. by rewrite decide_False by lia.
Qed.

Lemma index_u_int `{Platform} {B} (tests : list B) v offset : MIN_VALID_INT <= v <= MAX_VALID_INT ->
  MIN_VALID_INT <= offset <= MAX_VALID_INT -> zlen tests <= 2 ^ 31 -> aget tests (u_int (v - offset)) = aget tests (v - offset).
Proof.
  change MIN_VALID_INT with (- 2 ^ 30). change MAX_VALID_INT with (2 ^ 30 - 1). intros Hv Ho Hl.
  destruct (decide (offset <= v)); [by rewrite u_int_id32 by lia |].
  rewrite !aget_None; [done | lia |]. pose proof width_pow_pos. unfold u_int.
  rewrite <- (Z.mod_unique (v - offset) (2 ^ STORE_WORD_WIDTH) (-1) (v - offset + 2 ^ STORE_WORD_WIDTH)) by lia. lia.
Qed.

Lemma bind_eval {X Y} (m : M X) (h : X -> M Y) s a t : m s = Some (a, t) -> bind m h s = h a t.
Proof. unfold bind. by intros ->. Qed.

Lemma look_eval {X} (q : store abstractCode -> option X) s a : q (s_store s) = Some a -> look q s = Some (a, s).
Proof. unfold look. by intros ->. Qed.

(** The compact test of integers, a jump through a table at the unsigned
    difference to the offset, is the linear test of the consecutive numbers
    from the offset: for every integer, also below the offset, where the
    difference wraps around. *)
Theorem CompactIntTest_linear `{Platform} (killed : word) (g : Z) (x : idRef) (offset : Z) (tests : list instr) (otherwise : instr)
    (coord w : word) (v : Z) (s : state) :
  val g s x = Some w -> WordToInt (s_store s) w = Some (Some v) ->
  MIN_VALID_INT <= v <= MAX_VALID_INT -> MIN_VALID_INT <= offset <= MAX_VALID_INT -> zlen tests <= 2 ^ 31 ->
  step_test killed g (CompactIntTest x offset tests otherwise) coord s =
  step_test killed g (IntTest x (number offset tests) otherwise) coord s.
Proof.
  intros Ew Ev Hv Ho Hl. unfold val in Ew. apply fmap_Some in Ew as ([w' s1] & Ew & ->). destruct (val_get _ _ _ _ _ Ew) as [_ ->].
  cbn [step_test fst] in *. rewrite !(bind_eval _ _ _ _ _ Ew), !(bind_eval _ _ _ _ _ (look_eval _ _ _ Ev)). cbn beta iota.
  by rewrite index_u_int, find_number.
Qed.

(** The compact test of tags is the linear test of the tags without and
    with arguments, small or big, when the table's entry for the tag fits the
    value; a tag past the table takes the default branch. *)
Theorem CompactTagTest_linear `{Platform} (killed : word) (g : Z) (x : idRef) (nLabels : Z) (tests : list (option (list idDef) * instr))
    (otherwise : instr) (coord w : word) (o : option Z) (tag : Z) (s : state) :
  let big := Alice.IsBigTagVal nLabels in
  val g s x = Some w -> tag_view big w s = Some (o, s) ->
  match o with
  | None => WordToInt (s_store s) w = Some (Some tag) /\ forall ds pc, aget tests tag <> Some (Some ds, pc)
  | Some a => (forall s', s_store s' = s_store s -> tag_of big a s' = Some (tag, s')) /\ forall pc, aget tests tag <> Some (None, pc)
  end ->
  0 <= tag <= MAX_VALID_INT ->
  step_tag killed g (CompactTagTest x nLabels tests (Some otherwise)) coord s =
  step_tag killed g (TagTest x nLabels (nullary_tests 0 tests) (nary_tests 0 tests) otherwise) coord s.
Proof.
  intros big Ew Eo Hv Ht. unfold val in Ew. apply fmap_Some in Ew as ([w' s1] & Ew & ->). destruct (val_get _ _ _ _ _ Ew) as [_ ->].
  cbn [step_tag fst] in *. fold big. rewrite !(bind_eval _ _ _ _ _ Ew). rewrite !(bind_eval _ _ _ _ _ Eo). cbn beta iota.
  assert (Hi : u_int tag = tag) by (change MAX_VALID_INT with (2 ^ 30 - 1) in Ht; apply u_int_id32; lia).
  destruct o as [a |]; destruct Hv as [Hv Hk].
  - destruct (KillIdRef killed x s) as [[u t] |] eqn:Ek; [| unfold bind; by rewrite Ek].
    rewrite !(bind_eval _ _ _ _ _ Ek). apply KillIdRef_frame in Ek as [Es _]. rewrite !(bind_eval _ _ _ _ _ (Hv t Es)).
    rewrite Hi, find_nary, Z.sub_0_r. destruct (aget tests tag) as [[[ds |] pc] |]; [done | by destruct (Hk pc) | done].
  - rewrite !(bind_eval _ _ _ _ _ (look_eval _ _ _ Hv)). cbn beta iota.
    rewrite Hi, find_nullary, Z.sub_0_r. destruct (aget tests tag) as [[[ds |] pc] |]; [by destruct (Hk ds pc) | done | done].
Qed.

(** ** Witnesses *)

(** A function of two arguments that calls its first global under a handler;
    the handler needs the second argument, the first is killed by the call. *)
Definition sample_body : instr :=
  Try
    (AppVar (Global 0) [LastUseLocal 0] false
      (Some ([IdDef 2], EndTry (PutTup 5 [LastUseLocal 2; Local 1] (Kill [1] (Return [LastUseLocal 5]))))))
    (IdDef 3) (IdDef 4)
    (Kill [3] (PutTup 5 [LastUseLocal 4; LastUseLocal 1; Global 1] (EndHandle (Return [LastUseLocal 5])))).
Definition sample_code : abstractCode :=
  Function (WInt 0) [Global 0; Immediate (WInt 5)] (Simple 6) [IdDef 0; IdDef 1] None sample_body (WInt 0).
(** The closure 1 of this code, and a transient. *)
Definition sample_store : AliceData.store abstractCode :=
  mkStore 4 (<[1 := NBlock CLOSURE_LABEL true [WPtr 2; WInt 99]]> (<[2 := NCode sample_code]> (<[3 := NTransient FUTURE_LABEL (WInt 0)]> ∅))).
Definition sample_state : state := mkState sample_store [] sample_body (WInt 0) (Formals []) [WInt 10; WInt 20] (WInt 0) [].

Lemma sample_fresh : fresh sample_store.
Proof.
  intros a Ha. unfold sample_store, st_get in *. cbn [st_next st_nodes] in *. by rewrite !lookup_insert_ne by lia.
Qed.

Lemma sample_closure : closure_code sample_store 1 = Some sample_code.
Proof. vm_compute. reflexivity. Qed.

Lemma kills_unobservable_witness :
  life (H := P32) (WInt 0) (WInt 0) (WInt 0) (WInt 0) 0 0 0 (WInt 0) 20 1 [Exn sample_store (WInt 30) (WInt 31) (WInt 31)] sample_state =
  life (H := P32) (WInt 0) (WPtr 77) (WInt 0) (WInt 0) 0 0 0 (WPtr 78) 20 1 [Exn sample_store (WInt 30) (WInt 31) (WInt 31)] sample_state /\
  check_function sample_code = true /\
  (map o_stop <$> life (H := P32) (WInt 0) (WInt 0) (WInt 0) (WInt 0) 0 0 0 (WInt 0) 20 1 [Exn sample_store (WInt 30) (WInt 31) (WInt 31)] sample_state) =
    Some [Some (SPushCall (WInt 99) false); Some SContinue].
Proof.
  split; [| split; vm_compute; reflexivity].
  apply (kills_unobservable (H := P32) (WInt 0) (WInt 0) (WPtr 77) (WInt 0) (WPtr 78) (WInt 0) (WInt 0) 0 0 0 20 1
    [Exn sample_store (WInt 30) (WInt 31) (WInt 31)] sample_state sample_code).
  - exact sample_fresh.
  - exact sample_closure.
  - vm_compute. reflexivity.
  - repeat constructor; [exact sample_fresh |]. exists sample_code. split; [exact sample_closure | vm_compute; reflexivity].
Defined.

Lemma Run_ends_witness :
  Run (H := P32) (WInt 0) (WInt 0) (WInt 0) (WInt 0) 0 0 0 20 1 sample_state = Run (H := P32) (WInt 0) (WInt 0) (WInt 0) (WInt 0) 0 0 0 (isize sample_body) 1 sample_state.
Proof. apply (Run_ends (H := P32) (WInt 0) (WInt 0) (WInt 0) (WInt 0) 0 0 0 20 1 sample_state). vm_compute. lia. Defined.

(** A test of the transient requests it. *)
Lemma request_resumes_witness :
  exists s', step (H := P32) (WInt 0) (WInt 0) (WInt 0) (WInt 0) 0 0 0 1 (GetRef 0 (Immediate (WPtr 3)) (Return [])) (WInt 0) sample_state = Some (Stop SRequest, s') /\
    forall st data, let t := with_store st (with_data data s') in
      Run (H := P32) (WInt 0) (WInt 0) (WInt 0) (WInt 0) 0 0 0 5 1 t =
      run_loop (H := P32) (WInt 0) (WInt 0) (WInt 0) (WInt 0) 0 0 0 5 1 (GetRef 0 (Immediate (WPtr 3)) (Return [])) (WInt 0) t.
Proof.
  eexists. split; [vm_compute; reflexivity |]. intros st data.
  refine (proj2 (request_resumes (H := P32) (WInt 0) (WInt 0) (WInt 0) (WInt 0) 0 0 0 1 (GetRef 0 (Immediate (WPtr 3)) (Return [])) (WInt 0)
    sample_state _ _) 5%nat st data).
  vm_compute. reflexivity.
Defined.

Definition sample_template : template := Template (WInt 0) 3 (Simple 0) [] None (Return []) (WInt 0).
Definition sample_frame : state := with_locals [WInt 10; WInt 20; WInt 0] sample_state.

Lemma Close_captures_witness :
  exists n s' c, step_close (H := P32) (WInt 0) (WInt 0) 1 (Close 2 [Local 1; Global 1; Global 0; LastUseLocal 1] sample_template (Return [])) (WInt 0) sample_frame = Some (n, s') /\
    aget (s_locals s') 2 = Some (WPtr c) /\ val 1 sample_frame (Global 0) = Some (WInt 99) /\ val c s' (Global 2) = Some (WInt 99).
Proof.
  set (r := step_close (H := P32) (WInt 0) (WInt 0) 1 (Close 2 [Local 1; Global 1; Global 0; LastUseLocal 1] sample_template (Return [])) (WInt 0) sample_frame).
  destruct r as [[n s'] |] eqn:E; [| vm_compute in E; discriminate E].
  destruct (Close_captures (H := P32) (WInt 0) (WInt 0) 1 2 [Local 1; Global 1; Global 0; LastUseLocal 1] sample_template (Return []) (WInt 0)
    sample_frame s' n sample_code sample_fresh sample_closure) as (c & Ec & Hv).
  - vm_compute. reflexivity.
  - vm_compute. reflexivity.
  - exact E.
  - exists n, s', c. split; [reflexivity |]. split; [exact Ec |]. destruct (Hv 2 (Global 0)) as (w & Ew & Hw); [reflexivity |].
    assert (Ev : val 1 sample_frame (Global 0) = Some (WInt 99)) by (vm_compute; reflexivity).
    rewrite Ev in Ew. injection Ew as <-. split; [reflexivity | exact Hw].
Defined.

Lemma CompactIntTest_linear_witness :
  step_test (H := P32) (WInt 0) 1 (CompactIntTest (Immediate (WInt 3)) 7 [Return []; Raise (Local 0)] (Reraise (Local 0))) (WInt 0) sample_frame =
  step_test (H := P32) (WInt 0) 1 (IntTest (Immediate (WInt 3)) [(7, Return []); (8, Raise (Local 0))] (Reraise (Local 0))) (WInt 0) sample_frame.
Proof.
  apply (CompactIntTest_linear (H := P32) (WInt 0) 1 (Immediate (WInt 3)) 7 [Return []; Raise (Local 0)] (Reraise (Local 0)) (WInt 0) (WInt 3) 3 sample_frame).
  - reflexivity.
  - vm_compute. reflexivity.
  - vm_compute. split; discriminate.
  - vm_compute. split; discriminate.
  - vm_compute. discriminate.
Defined.

Lemma CompactTagTest_linear_witness :
  step_tag (H := P32) (WInt 0) 1 (CompactTagTest (Immediate (WInt 1)) 3 [(Some [IdDef 0], Return []); (None, Raise (Local 0))] (Some (Reraise (Local 0)))) (WInt 0) sample_frame =
  step_tag (H := P32) (WInt 0) 1 (TagTest (Immediate (WInt 1)) 3 [(1, Raise (Local 0))] [(0, [IdDef 0], Return [])] (Reraise (Local 0))) (WInt 0) sample_frame.
Proof.
  apply (CompactTagTest_linear (H := P32) (WInt 0) 1 (Immediate (WInt 1)) 3 [(Some [IdDef 0], Return []); (None, Raise (Local 0))] (Reraise (Local 0)) (WInt 0)
    (WInt 1) None 1 sample_frame).
  - reflexivity.
  - vm_compute. reflexivity.
  - split; [vm_compute; reflexivity |]. intros ds pc. vm_compute. discriminate.
  - vm_compute. split; discriminate.
Defined.
