(* ===== verification/Minimizer.v ===== *)
(** * The minimizer of data graphs (seam/generic/Minimizer.cc,
    MinimizerLoader.cc)

    A worker loads the nodes of a graph with their incoming edges into a
    partition; Hopcroft's algorithm refines it and every node is replaced by
    the leader of its block.  A PNode is referred to by its index in [p_nodes],
    the order of creation, as the array of the partition holds references to
    nodes that it permutes.  Dynamic arrays are lists; only that of incoming
    edges, whose length the code uses, grows as DynamicArray.cc says. *)

From S2P Require Import Prelude Config HeaderOp AliceData.

(** ** Blocks of the partition (PBlock) *)

(** [pb_count] and [pb_incoming] are the cells from [SIZE] on: with how many
    edges the block is on the agenda, and for every edge the number of nodes
    that enter the block by it, negated if the block is on the agenda with it. *)
Record PBlock := mkPBlock { pb_start : Z; pb_end : Z; pb_split : Z; pb_count : Z; pb_incoming : list (option Z) }.

Module PBlock.
Definition New (start end_ : Z) : PBlock := mkPBlock start end_ end_ 0 [None].
Definition SetEnd (b : PBlock) (end_ : Z) : PBlock := mkPBlock (pb_start b) end_ (pb_split b) (pb_count b) (pb_incoming b).
Definition SetSplitIndex (b : PBlock) (i : Z) : PBlock := mkPBlock (pb_start b) (pb_end b) i (pb_count b) (pb_incoming b).
Definition SetCount (b : PBlock) (n : Z) : PBlock := mkPBlock (pb_start b) (pb_end b) (pb_split b) n (pb_incoming b).

(** [DynamicArray::Sub] and [Update] of the cell of an edge; there are four
    cells before those of the edges. *)
Definition Sub (b : PBlock) (edge : Z) : option Z := match aget (pb_incoming b) edge with Some (Some n) => Some n | _ => None end.
Definition grow (l : list (option Z)) (edge : Z) : list (option Z) :=
  if zlen l <=? edge then l ++ replicate (Z.to_nat (Z.max (2 * (zlen l + 4)) (edge + 5) - 4 - zlen l)) None else l.
Definition Update (b : PBlock) (edge n : Z) : PBlock :=
  mkPBlock (pb_start b) (pb_end b) (pb_split b) (pb_count b) (<[Z.to_nat edge := Some n]> (grow (pb_incoming b) edge)).

Definition HasToBeSplit (b : PBlock) : bool * PBlock :=
  if pb_split b <? pb_start b then (false, SetSplitIndex b (pb_end b)) else (pb_split b <? pb_end b, b).

Definition IncrementIncoming (b : PBlock) (edge : Z) : PBlock :=
  match Sub b edge with
  | None => Update b edge 1
  | Some old => Update b edge (if old <? 0 then old - 1 else old + 1)
  end.

Definition IsOnAgenda (b : PBlock) : bool := negb (pb_count b =? 0).
Definition IsOnAgendaWith (b : PBlock) (edge : Z) : bool := match Sub b edge with Some n => n <? 0 | None => false end.

Definition PutOnAgenda (b : PBlock) (edge : Z) : PBlock :=
  if IsOnAgendaWith b edge then b
  else
    match Sub b edge with
    | Some old => if old =? 0 then b else SetCount (Update b edge (- old)) (pb_count b + 1)
    | None => b
    end.

Definition RemoveFromAgenda (b : PBlock) (edge : Z) : PBlock :=
  if IsOnAgendaWith b edge then
    match Sub b edge with
    | Some old => if old =? 0 then b else SetCount (Update b edge (- old)) (pb_count b - 1)
    | None => b
    end
  else b.

Definition DecrementIncoming (b : PBlock) (edge : Z) : PBlock :=
  match Sub b edge with
  | None => b
  | Some old =>
      if old =? -1 then Update (RemoveFromAgenda b edge) edge 0
      else Update b edge (if old <? 0 then old + 1 else old - 1)
  end.

Definition GetIncoming (b : PBlock) (edge : Z) : Z := match Sub b edge with Some n => if n <? 0 then - n else n | None => 0 end.
Definition SizeOfIncoming (b : PBlock) : Z := zlen (pb_incoming b).

(** The agenda is a stack of block numbers. *)
Definition put_edge (b : PBlock) (edge : Z) : bool * PBlock :=
  match Sub b edge with Some n => if n =? 0 then (false, b) else (true, PutOnAgenda b edge) | None => (false, b) end.

Fixpoint put_edges (b : PBlock) (edges : list Z) : bool * PBlock :=
  match edges with
  | [] => (false, b)
  | edge :: edges => let '(flag, b) := put_edge b edge in let '(flag', b) := put_edges b edges in (flag || flag', b)
  end.

Definition PutCompleteOnAgenda (b : PBlock) (blockNo : Z) (agenda : list Z) : PBlock * list Z :=
  let '(flag, b) := put_edges b (reverse (seqZ 0 (SizeOfIncoming b))) in (b, if flag : bool then blockNo :: agenda else agenda).
End PBlock.

(** ** Nodes of the partition (PNode) *)

Record PNode := mkPNode { pn_block : Z; pn_node : word; pn_num : Z; pn_preds : list (Z * Z) }.

Module PNode.
Definition New (node : word) : PNode := mkPNode (-1) node (-1) [].
Definition SetNum (n : PNode) (num : Z) : PNode := mkPNode (pn_block n) (pn_node n) num (pn_preds n).
Definition set_block (n : PNode) (blockNo : Z) : PNode := mkPNode blockNo (pn_node n) (pn_num n) (pn_preds n).
Definition AddParent (n : PNode) (edge parent : Z) : PNode := mkPNode (pn_block n) (pn_node n) (pn_num n) (pn_preds n ++ [(edge, parent)]).

(** The edges from the last one down. *)
Definition SetBlock (n : PNode) (newBlock : PBlock) (newBlockNo : Z) : PNode * PBlock :=
  (set_block n newBlockNo, foldr (fun e b => PBlock.IncrementIncoming b e.1) newBlock (pn_preds n)).

Definition ChangeBlock (n : PNode) (oldBlock newBlock : PBlock) (newBlockNo : Z) : PNode * PBlock * PBlock :=
  (set_block n newBlockNo, foldr (fun e b => PBlock.DecrementIncoming b e.1) oldBlock (pn_preds n),
    foldr (fun e b => PBlock.IncrementIncoming b e.1) newBlock (pn_preds n)).

Section Compare.
Context `{Platform} {C : Type} (st : AliceData.store C).

Definition compareLabels (vl wl : Z) : Z :=
  if vl =? wl then 0
  else if vl =? CHUNK_LABEL then -1
  else if wl =? CHUNK_LABEL then 1
  else if vl <? wl then -1 else 1.

Definition compareSize (v w : Z) : option Z :=
  vs ← GetSize st v; ws ← GetSize st w; Some (if vs =? ws then 0 else if vs <? ws then -1 else 1).

(** Only integers count: from the last child down. *)
Fixpoint compareChildren_loop (v w : Z) (ix : list Z) : option Z :=
  match ix with
  | [] => Some 0
  | i :: ix =>
      x ← GetArg st v i; cv ← WordToInt st x;
      y ← GetArg st w i; cw ← WordToInt st y;
      match cv, cw with
      | Some cv, Some cw => if cv <? cw then Some (-1) else if cw <? cv then Some 1 else compareChildren_loop v w ix
      | None, Some _ => Some 1
      | Some _, None => Some (-1)
      | None, None => compareChildren_loop v w ix
      end
  end.

Definition compareChildren (v w : Z) : option Z := vs ← GetSize st v; compareChildren_loop v w (reverse (seqZ 0 vs)).

Fixpoint memcmp (xs ys : list Z) : Z :=
  match xs, ys with
  | x :: xs, y :: ys => if x <? y then -1 else if y <? x then 1 else memcmp xs ys
  | _, _ => 0
  end.

Definition compareChunks (c1 c2 : list Z) : Z :=
  if zlen c1 <? zlen c2 then -1 else if zlen c2 <? zlen c1 then 1 else memcmp c1 c2.

(** Types whose values are compared by address. *)
Definition incomparable (l : Z) : bool :=
  bool_decide (l ∈ [helper_label "GENSET"; INT_MAP_LABEL; CHUNK_MAP_LABEL; MAP_LABEL; HASHNODEARRAY_LABEL; HASHNODE_LABEL;
    QUEUE_LABEL; STACK_LABEL; helper_label "ROOTSETELEMENT"; THREAD_LABEL; TASKSTACK_LABEL; ARGS_LABEL; IODESC_LABEL; HOLE_LABEL;
    FUTURE_LABEL; REF_LABEL; CANCELLED_LABEL; BYNEED_LABEL; WEAK_MAP_LABEL; UNIQUESTRING_LABEL; CONCRETE_LABEL]).

Definition address_order (v w : Z) : Z := if v <? w then -1 else 1.

Definition structural_order (v w : Z) : option Z :=
  cSize ← compareSize v w; if cSize =? 0 then compareChildren v w else Some cSize.

(** Blocks of the same label [vl]. *)
Definition compareBlocks (v vl w : Z) : option Z :=
  if incomparable vl then Some (address_order v w)
  else if (vl =? CLOSURE_LABEL) || (vl =? TUPLE_LABEL) || (vl =? TRANSFORM_LABEL) then structural_order v w
  else if vl =? CHUNK_LABEL then
    match st_get st v, st_get st w with
    | Some (NChunk m xs), Some (NChunk _ ys) => Some (if m : bool then address_order v w else compareChunks xs ys)
    | _, _ => None
    end
  else
    m ← IsMutable st v;
    if m : bool then Some (address_order v w) else structural_order v w.

Definition compare (a b : word) : option Z :=
  da ← deref st a; db ← deref st b;
  if decide (da = db) then Some 0
  else
    p ← WordToBlock st a; v ← p; vl ← GetLabel st v;
    q ← WordToBlock st b; w ← q; wl ← GetLabel st w;
    let c := compareLabels vl wl in
    if c =? 0 then compareBlocks v vl w else Some c.

Definition Compare (n1 n2 : PNode) : option Z := compare (pn_node n1) (pn_node n2).
End Compare.
End PNode.

(** ** The partition and its array of nodes (DynNodeArray, Partition) *)

(** [p_na] and [p_lua] are the array of nodes and the table from initial to
    current indices. *)
Record Partition := mkPartition {
  p_nodes : list PNode;
  p_na : list Z;
  p_lua : list Z;
  p_blocks : list PBlock;
  p_toDo : list Z
}.

Definition with_nodes x p := mkPartition x (p_na p) (p_lua p) (p_blocks p) (p_toDo p).
Definition with_na x y p := mkPartition (p_nodes p) x y (p_blocks p) (p_toDo p).
Definition with_blocks x p := mkPartition (p_nodes p) (p_na p) (p_lua p) x (p_toDo p).
Definition with_toDo x p := mkPartition (p_nodes p) (p_na p) (p_lua p) (p_blocks p) x.

Definition swap (nodes : list PNode) (a lua : list Z) (i j : Z) : option (list Z * list Z) :=
  wi ← aget a i; wj ← aget a j;
  ni ← aget nodes wi; nj ← aget nodes wj;
  let lui := pn_num ni in let luj := pn_num nj in
  a ← aset a i wj; a ← aset a j wi;
  lua ← aset lua lui j; lua ← aset lua luj i;
  Some (a, lua).

(** Quicksort; [cmp] compares nodes by reference. *)
Section Sort.
Variables (nodes : list PNode) (cmp : Z -> Z -> option Z).

Fixpoint scan_up (fuel : nat) (a : list Z) (v i : Z) : option Z :=
  match fuel with
  | O => None
  | S fuel =>
      let i := i + 1 in
      x ← aget a i; c ← cmp x v;
      if c =? -1 then scan_up fuel a v i else Some i
  end.

Fixpoint scan_down (fuel : nat) (a : list Z) (v l j : Z) : option Z :=
  match fuel with
  | O => None
  | S fuel =>
      let j := j - 1 in
      x ← aget a j; c ← cmp v x;
      if c =? -1 then if j =? l then Some j else scan_down fuel a v l j else Some j
  end.

Fixpoint partition_loop (fuel : nat) (a lua : list Z) (v l i j : Z) : option (list Z * list Z * Z) :=
  match fuel with
  | O => None
  | S fuel =>
      i ← scan_up (S (length a)) a v i;
      j ← scan_down (S (length a)) a v l j;
      if j <=? i then Some (a, lua, i)
      else r ← swap nodes a lua i j; partition_loop fuel r.1 r.2 v l i j
  end.

Definition partition (a lua : list Z) (l r : Z) : option (list Z * list Z * Z) :=
  v ← aget a r;
  x ← partition_loop (S (length a)) a lua v l (l - 1) r;
  let '(a, lua, i) := x in
  x ← swap nodes a lua i r; Some (x.1, x.2, i).

Fixpoint sort (fuel : nat) (a lua : list Z) (l r : Z) : option (list Z * list Z) :=
  if r <=? l then Some (a, lua)
  else
    match fuel with
    | O => None
    | S fuel =>
        x ← partition a lua l r;
        let '(a, lua, i) := x in
        x ← sort fuel a lua l (i - 1);
        sort fuel x.1 x.2 (i + 1) r
    end.
End Sort.

Definition LookUp p (i : Z) : option Z := aget (p_lua p) i.
Definition Swap p (i j : Z) : option Partition := r ← swap (p_nodes p) (p_na p) (p_lua p) i j; Some (with_na r.1 r.2 p).
Definition na_Sub p (i : Z) : option PNode := id ← aget (p_na p) i; aget (p_nodes p) id.

Definition Partition_New : Partition := mkPartition [] [] [] [] [].

(** [InitNext] of the array and [InsertNode]; the result is the node's index. *)
Definition InsertNode p (node : word) : Partition * Z :=
  let count := zlen (p_na p) in
  let id := zlen (p_nodes p) in
  (mkPartition (p_nodes p ++ [PNode.SetNum (PNode.New node) count]) (p_na p ++ [id]) (p_lua p ++ [count]) (p_blocks p) (p_toDo p), count).

Definition AddParent p (nodeIndex edge parent : Z) : option Partition :=
  id ← aget (p_na p) nodeIndex; n ← aget (p_nodes p) id;
  nodes ← aset (p_nodes p) id (PNode.AddParent n edge parent); Some (with_nodes nodes p).

Section Minimize.
Context `{Platform} {C : Type}.
Implicit Types (st : AliceData.store C).

Definition cmp_nodes st p (x y : Z) : option Z :=
  n1 ← aget (p_nodes p) x; n2 ← aget (p_nodes p) y; PNode.Compare st n1 n2.

Definition Sort st p : option Partition :=
  r ← sort (p_nodes p) (cmp_nodes st p) (length (p_na p)) (p_na p) (p_lua p) 0 (zlen (p_na p) - 1);
  Some (with_na r.1 r.2 p).

(** The scan of [InitBlocks] from index [i], where [ids] is the rest of the
    array. *)
Fixpoint init_loop st (ids : list Z) (i : Z) (nodes : list PNode) (blocks : list PBlock) (newBlock : PBlock) (lastItem : Z)
    : option (list PNode * list PBlock) :=
  match ids with
  | [] => Some (nodes, blocks ++ [PBlock.SetSplitIndex (PBlock.SetEnd newBlock (i - 1)) (i - 1)])
  | cur :: ids =>
      curItem ← aget nodes cur; last ← aget nodes lastItem;
      c ← PNode.Compare st curItem last;
      if c =? -1 then None
      else
        let '(blocks, newBlock) :=
          if c =? 1 then (blocks ++ [PBlock.SetSplitIndex (PBlock.SetEnd newBlock (i - 1)) (i - 1)], PBlock.New i 0) else (blocks, newBlock) in
        let '(curItem, newBlock) := PNode.SetBlock curItem newBlock (zlen blocks) in
        nodes ← aset nodes cur curItem;
        init_loop st ids (i + 1) nodes blocks newBlock cur
  end.

Definition InitBlocks st p : option Partition :=
  p ← Sort st p;
  match p_na p with
  | [] => None
  | id :: ids =>
      lastItem ← aget (p_nodes p) id;
      let '(lastItem, newBlock) := PNode.SetBlock lastItem (PBlock.New 0 0) 0 in
      nodes ← aset (p_nodes p) id lastItem;
      r ← init_loop st ids 1 nodes [] newBlock id;
      Some (with_blocks r.2 (with_nodes r.1 p))
  end.

Definition splitBlockAtNode p (block theNodeIndex : Z) : option Partition :=
  b ← aget (p_blocks p) block;
  nodeIndex ← LookUp p theNodeIndex;
  let si := pb_split b in let end_ := pb_end b in
  if end_ - pb_start b =? 0 then Some p
  else if negb (nodeIndex <=? end_) || negb (si <=? end_) then None
  else
    let p := if si =? end_ then with_toDo (block :: p_toDo p) p else p in
    if nodeIndex <=? si then
      p ← Swap p si nodeIndex;
      blocks ← aset (p_blocks p) block (PBlock.SetSplitIndex b (si - 1));
      Some (with_blocks blocks p)
    else Some p.

(** The parents of one node, from the last one down; those in the block
    itself are collected. *)
Fixpoint follow_preds p (block edge : Z) (preds : list (Z * Z)) (ownSplit : list Z) : option (Partition * list Z) :=
  match preds with
  | [] => Some (p, ownSplit)
  | (tu_edge, parent) :: preds =>
      r ← follow_preds p block edge preds ownSplit;
      let '(p, ownSplit) := r in
      if tu_edge =? edge then
        realParent ← LookUp p parent;
        parentNode ← na_Sub p realParent;
        let parentBlock := pn_block parentNode in
        if parentBlock =? block then Some (p, parent :: ownSplit)
        else p ← splitBlockAtNode p parentBlock parent; Some (p, ownSplit)
      else Some (p, ownSplit)
  end.

Fixpoint follow_nodes p (block edge : Z) (ix : list Z) (ownSplit : list Z) : option (Partition * list Z) :=
  match ix with
  | [] => Some (p, ownSplit)
  | i :: ix =>
      pn ← na_Sub p i;
      r ← follow_preds p block edge (pn_preds pn) ownSplit;
      follow_nodes r.1 block edge ix r.2
  end.

Fixpoint split_all p (block : Z) (parents : list Z) : option Partition :=
  match parents with [] => Some p | parent :: parents => p ← splitBlockAtNode p block parent; split_all p block parents end.

Definition range (start end_ : Z) : list Z := seqZ start (end_ - start + 1).

Definition FollowBack p (block edge : Z) : option Partition :=
  pb ← aget (p_blocks p) block;
  r ← follow_nodes p block edge (range (pb_start pb) (pb_end pb)) [];
  split_all r.1 block r.2.

(** Moving the nodes at the indices [ix] from block [pb] to [newBlock]. *)
Fixpoint change_blocks p (ix : list Z) (pb newBlock : PBlock) (newBlockNo : Z) : option (Partition * PBlock * PBlock) :=
  match ix with
  | [] => Some (p, pb, newBlock)
  | i :: ix =>
      id ← aget (p_na p) i; node ← aget (p_nodes p) id;
      let '(node, pb, newBlock) := PNode.ChangeBlock node pb newBlock newBlockNo in
      nodes ← aset (p_nodes p) id node;
      change_blocks (with_nodes nodes p) ix pb newBlock newBlockNo
  end.

(** Which of the two blocks goes on the agenda with an edge. *)
Definition choose_edge (blockNo newBlockNo : Z) (edge : Z) (x : PBlock * PBlock * list Z) : PBlock * PBlock * list Z :=
  let '(pb, newBlock, q) := x in
  let pbInc := PBlock.GetIncoming pb edge in
  let nbInc := PBlock.GetIncoming newBlock edge in
  if PBlock.IsOnAgendaWith pb edge then
    if 0 <? nbInc then (pb, PBlock.PutOnAgenda newBlock edge, if PBlock.IsOnAgenda newBlock then q else newBlockNo :: q) else x
  else if (pbInc <? nbInc) && negb (pbInc =? 0) then
    (PBlock.PutOnAgenda pb edge, newBlock, if PBlock.IsOnAgenda pb then q else blockNo :: q)
  else if negb (nbInc =? 0) then
    (pb, PBlock.PutOnAgenda newBlock edge, if PBlock.IsOnAgenda newBlock then q else newBlockNo :: q)
  else x.

Definition split_block p (q : list Z) (blockNo : Z) : option (Partition * list Z) :=
  pb ← aget (p_blocks p) blockNo;
  let '(split, pb) := PBlock.HasToBeSplit pb in
  blocks ← aset (p_blocks p) blockNo pb;
  if split : bool then
    let blockCount := zlen (p_blocks p) in
    let newEnd := pb_end pb in
    let newStart := pb_split pb + 1 in
    let pb := PBlock.SetSplitIndex (PBlock.SetEnd pb (newStart - 1)) (newStart - 1) in
    x ← change_blocks p (range newStart newEnd) pb (PBlock.New newStart newEnd) blockCount;
    let '(p, pb, newBlock) := x in
    let '(pb, newBlock, q) := foldl (fun x edge => choose_edge blockNo blockCount edge x) (pb, newBlock, q) (range 0 (PBlock.SizeOfIncoming pb)) in
    blocks ← aset (p_blocks p) blockNo pb;
    Some (with_blocks (blocks ++ [newBlock]) p, q)
  else Some (with_blocks blocks p, q).

Fixpoint do_splits p (q : list Z) (toDo : list Z) : option (Partition * list Z) :=
  match toDo with
  | [] => Some (p, q)
  | blockNo :: toDo => r ← split_block p q blockNo; do_splits r.1 r.2 toDo
  end.

Definition DoSplits p (q : list Z) : option (Partition * list Z) :=
  r ← do_splits p q (p_toDo p); Some (with_toDo [] r.1, r.2).

(** All blocks from the last one down. *)
Fixpoint init_agenda (blocks : list PBlock) (i : Z) (agenda : list Z) : list PBlock * list Z :=
  match blocks with
  | [] => ([], agenda)
  | b :: blocks =>
      let '(blocks, agenda) := init_agenda blocks (i + 1) agenda in
      let '(b, agenda) := PBlock.PutCompleteOnAgenda b i agenda in
      (b :: blocks, agenda)
  end.

Definition InitAgenda p : Partition * list Z := let '(blocks, agenda) := init_agenda (p_blocks p) 0 [] in (with_blocks blocks p, agenda).

(** The loops of [Partition::Minimize]. *)
Fixpoint edge_loop p (q : list Z) (blockNo : Z) (edges : list Z) : option (Partition * list Z) :=
  match edges with
  | [] => Some (p, q)
  | edge :: edges =>
      pb ← aget (p_blocks p) blockNo;
      if PBlock.IsOnAgendaWith pb edge then
        blocks ← aset (p_blocks p) blockNo (PBlock.RemoveFromAgenda pb edge);
        p ← FollowBack (with_blocks blocks p) blockNo edge;
        r ← DoSplits p q;
        edge_loop r.1 r.2 blockNo edges
      else edge_loop p q blockNo edges
  end.

Fixpoint block_loop (fuel : nat) p (q : list Z) (blockNo pbSize : Z) : option (Partition * list Z) :=
  pb ← aget (p_blocks p) blockNo;
  if PBlock.IsOnAgenda pb then
    match fuel with
    | O => None
    | S fuel => r ← edge_loop p q blockNo (range 0 pbSize); block_loop fuel r.1 r.2 blockNo pbSize
    end
  else Some (p, q).

Fixpoint agenda_loop (fuel : nat) p (q : list Z) : option Partition :=
  match q with
  | [] => Some p
  | blockNo :: q =>
      match fuel with
      | O => None
      | S fuel =>
          pb ← aget (p_blocks p) blockNo;
          r ← block_loop (S fuel) p q blockNo (PBlock.SizeOfIncoming pb);
          agenda_loop fuel r.1 r.2
      end
  end.

(** ** The reduced graph *)

(** The parents of a node get the leader, from the last one down. *)
Fixpoint replace_preds st p (preds : list (Z * Z)) (leader : word) : option (AliceData.store C) :=
  match preds with
  | [] => Some st
  | (edge, parent) :: preds =>
      st ← replace_preds st p preds leader;
      i ← LookUp p parent; parentNode ← na_Sub p i;
      b ← WordToBlock st (pn_node parentNode); b ← b;
      ReplaceArg st b edge leader
  end.

Fixpoint replace_nodes st p (ix : list Z) (leader : word) : option (AliceData.store C) :=
  match ix with
  | [] => Some st
  | j :: ix =>
      curNode ← na_Sub p j;
      st ← replace_preds st p (pn_preds curNode) leader;
      replace_nodes st p ix leader
  end.

Fixpoint replace_blocks st p (blocks : list PBlock) : option (AliceData.store C) :=
  match blocks with
  | [] => Some st
  | pb :: blocks =>
      st ← replace_blocks st p blocks;
      leaderNode ← na_Sub p (pb_start pb);
      replace_nodes st p (range (pb_start pb + 1) (pb_end pb)) (pn_node leaderNode)
  end.

(** The root becomes the leader of its block. *)
Definition root_leads p : option Partition :=
  i ← LookUp p 0; root ← na_Sub p i;
  rootBlock ← aget (p_blocks p) (pn_block root);
  rbStart ← na_Sub p (pb_start rootBlock);
  if pn_num root =? pn_num rbStart then Some p
  else j ← LookUp p (pn_num rbStart); Swap p i j.

Definition ReduceGraph st p : option (AliceData.store C * Partition) :=
  p ← root_leads p; st ← replace_blocks st p (p_blocks p); Some (st, p).

Definition Minimize (fuel : nat) st p : option (AliceData.store C * Partition) :=
  if zlen (p_na p) <? 2 then Some (st, p)
  else
    p ← InitBlocks st p;
    let '(p, agenda) := InitAgenda p in
    p ← agenda_loop fuel p agenda;
    ReduceGraph st p.

(** ** The loader (PartitionLoaderWorker) *)

Record loader := mkLoader {
  ld_stack : list (word * Z * Z);       (* data, edge and parent *)
  ld_seen : gmap Z Z;                   (* PartitionSeen: the map ... *)
  ld_counter : Z;                       (* ... and the counter *)
  ld_part : Partition
}.

Inductive load_result := Loaded (p : Partition) | LoadRequest (w : word) (l : loader).

(** The children of the node [nodeIndex]: the first one on top. *)
Definition push_children (args : list word) (nodeIndex : Z) : list (word * Z * Z) :=
  imap (fun i x => (x, Z.of_nat i, nodeIndex)) args.

Fixpoint load_loop (fuel : nat) st (l : loader) : option load_result :=
  match fuel with
  | O => None
  | S fuel =>
      match ld_stack l with
      | [] => Some (Loaded (ld_part l))
      | (x0, edge, parent) :: stack =>
          t ← WordToTransient st x0;
          match t with
          | Some _ => Some (LoadRequest x0 l)
          | None =>
              i ← WordToInt st x0;
              match i with
              | Some _ => load_loop fuel st (mkLoader stack (ld_seen l) (ld_counter l) (ld_part l))
              | None =>
                  p ← WordToBlock st x0; b ← p;
                  match ld_seen l !! b with
                  | None =>
                      let '(part, nodeIndex) := InsertNode (ld_part l) x0 in
                      let seen := <[b := ld_counter l]> (ld_seen l) in
                      part ← (if negb (parent =? -1) then AddParent part nodeIndex edge parent else Some part);
                      label ← GetLabel st b;
                      stack ← (if label =? CHUNK_LABEL then Some stack
                               else args ← GetArgs st b; Some (push_children args nodeIndex ++ stack));
                      load_loop fuel st (mkLoader stack seen (ld_counter l + 1) part)
                  | Some oldIndex =>
                      part ← (if negb (parent =? -1) then AddParent (ld_part l) oldIndex edge parent else Some (ld_part l));
                      load_loop fuel st (mkLoader stack (ld_seen l) (ld_counter l) part)
                  end
              end
          end
      end
  end.

(** [PartitionLoader::Load] into a new partition. *)
Definition Load (fuel : nat) st (root : word) : option load_result :=
  load_loop fuel st (mkLoader [(root, -1, -1)] ∅ 0 Partition_New).
End Minimize.
