(* ===== verification/MinimizerSort.v ===== *)
(** * The minimizer: sorting the nodes (DynNodeArray::Sort)

    The quicksort of the array of nodes, for any comparison that computes a
    total preorder: it permutes the array, keeps the table of current indices
    its inverse, and leaves the array sorted. *)

From S2P Require Import Prelude Config HeaderOp AliceData Minimizer.

(** The permuted array [a] and its inverse [lua], of the node numbers below [n]. *)
Record arr_ok (n : Z) (a lua : list Z) : Prop := {
  ao_len : zlen a = n;
  ao_lua_len : zlen lua = n;
  ao_lua : forall i x, aget a i = Some x -> aget lua x = Some i;
  ao_a : forall i x, aget lua x = Some i -> aget a i = Some x
}.

(** Every node carries its initial index. *)
Definition num_ok (nodes : list PNode) : Prop := forall x nd, aget nodes x = Some nd -> pn_num nd = x.

Definition transpose (i j k : Z) : Z := if k =? i then j else if k =? j then i else k.

Lemma transpose_involutive i j k : transpose i j (transpose i j k) = k.
Proof. unfold transpose. repeat case_match; lia. Qed.

Lemma transpose_other i j k : k <> i -> k <> j -> transpose i j k = k.
Proof. unfold transpose. repeat case_match; lia. Qed.

Lemma transpose_range i j k l r : l <= i <= r -> l <= j <= r -> l <= k <= r -> l <= transpose i j k <= r.
Proof. unfold transpose. repeat case_match; lia. Qed.

(** [a'] is [a] with the cells from [l] to [r] reordered. *)
Definition reorders (l r : Z) (a a' : list Z) : Prop :=
  (forall k, k < l \/ r < k -> aget a' k = aget a k) /\
  (forall k, l <= k <= r -> exists k', l <= k' <= r /\ aget a' k = aget a k').

Lemma reorders_refl l r a : reorders l r a a.
Proof. split; [done |]. intros k Hk. by exists k. Qed.

Lemma reorders_trans l r a b c : reorders l r a b -> reorders l r b c -> reorders l r a c.
Proof.
  intros [Ho Hi] [Ho' Hi']. split.
  - intros k Hk. by rewrite Ho', Ho.
  - intros k Hk. destruct (Hi' k Hk) as (k1 & ? & ->). by apply Hi.
Qed.

Lemma reorders_mono l r l' r' a b : l' <= l -> r <= r' -> reorders l r a b -> reorders l' r' a b.
Proof.
  intros ?? [Ho Hi]. split.
  - intros k Hk. apply Ho. lia.
  - intros k Hk. destruct (decide (l <= k <= r)) as [Hd | Hd].
    + destruct (Hi k Hd) as (k1 & ? & ->). exists k1. split; [lia | done].
    + exists k. split; [done |]. apply Ho. lia.
Qed.

Lemma reorders_forall (P : Z -> Prop) l r a b :
  reorders l r a b -> (forall k x, l <= k <= r -> aget a k = Some x -> P x) ->
  forall k x, l <= k <= r -> aget b k = Some x -> P x.
Proof. intros [_ Hi] HP k x Hk Hx. destruct (Hi k Hk) as (k1 & Hk1 & E). rewrite E in Hx. eauto. Qed.

Lemma arr_ok_get n a lua i : arr_ok n a lua -> 0 <= i < n -> exists x, aget a i = Some x /\ 0 <= x < n.
Proof.
  intros Ho Hi. destruct (aget_is_Some a i) as [x Hx]. { rewrite (ao_len _ _ _ Ho). lia. }
  exists x. split; [done |]. rewrite <- (ao_lua_len _ _ _ Ho). by eapply aget_Some_lt, ao_lua.
Qed.

Lemma arr_ok_lookup n a lua x : arr_ok n a lua -> 0 <= x < n -> exists i, aget lua x = Some i /\ 0 <= i < n.
Proof.
  intros Ho Hx. destruct (aget_is_Some lua x) as [i Hi]. { rewrite (ao_lua_len _ _ _ Ho). lia. }
  exists i. split; [done |]. rewrite <- (ao_len _ _ _ Ho). by eapply aget_Some_lt, ao_a.
Qed.

(** ** Swapping two cells *)

Lemma swap_ok nodes n a lua i j :
  arr_ok n a lua -> num_ok nodes -> zlen nodes = n -> 0 <= i < n -> 0 <= j < n ->
  exists a' lua', swap nodes a lua i j = Some (a', lua') /\ arr_ok n a' lua' /\
    (forall k, aget a' k = aget a (transpose i j k)) /\
    (forall x, aget lua' x = transpose i j <$> aget lua x).
Proof.
  intros Ho Hnum Hn Hi Hj. pose proof (ao_len _ _ _ Ho) as La. pose proof (ao_lua_len _ _ _ Ho) as Ll.
  destruct (arr_ok_get _ _ _ i Ho Hi) as (wi & Ewi & Hwi). destruct (arr_ok_get _ _ _ j Ho Hj) as (wj & Ewj & Hwj).
  destruct (aget_is_Some nodes wi) as [ni Eni]; [lia |]. destruct (aget_is_Some nodes wj) as [nj Enj]; [lia |].
  pose proof (Hnum _ _ Eni) as Nui. pose proof (Hnum _ _ Enj) as Nuj.
  unfold swap. rewrite Ewi, Ewj. cbn [mbind option_bind]. rewrite Eni, Enj. cbn [mbind option_bind]. rewrite Nui, Nuj.
  destruct (aset a i wj) as [a1 |] eqn:E1; [| rewrite aset_Some in E1 by lia; done].
  pose proof (aset_zlen _ _ _ _ E1) as L1. cbn [mbind option_bind].
  destruct (aset a1 j wi) as [a2 |] eqn:E2; [| rewrite aset_Some in E2 by lia; done]. cbn [mbind option_bind].
  pose proof (aset_zlen _ _ _ _ E2) as L2.
  destruct (aset lua wi j) as [l1 |] eqn:E3; [| rewrite aset_Some in E3 by lia; done]. cbn [mbind option_bind].
  pose proof (aset_zlen _ _ _ _ E3) as L3.
  destruct (aset l1 wj i) as [l2 |] eqn:E4; [| rewrite aset_Some in E4 by lia; done]. cbn [mbind option_bind].
  pose proof (aset_zlen _ _ _ _ E4) as L4.
  assert (Ha : forall k, aget a2 k = aget a (transpose i j k)).
  { intros k. unfold transpose. destruct (Z.eqb_spec k i) as [-> | Hki].
    - destruct (decide (i = j)) as [-> | Hij].
      + rewrite (aget_aset_eq _ _ _ _ E2). congruence.
      + rewrite (aget_aset_ne _ _ _ _ _ E2) by done. rewrite (aget_aset_eq _ _ _ _ E1). congruence.
    - destruct (Z.eqb_spec k j) as [-> | Hkj].
      + rewrite (aget_aset_eq _ _ _ _ E2). congruence.
      + rewrite (aget_aset_ne _ _ _ _ _ E2) by done. by rewrite (aget_aset_ne _ _ _ _ _ E1) by done. }
  assert (Hl : forall x, aget l2 x = transpose i j <$> aget lua x).
  { intros x. pose proof (ao_lua _ _ _ Ho _ _ Ewi) as Li. pose proof (ao_lua _ _ _ Ho _ _ Ewj) as Lj.
    destruct (decide (x = wj)) as [-> | Hxj].
    - rewrite (aget_aset_eq _ _ _ _ E4), Lj. cbn. f_equal. unfold transpose. repeat case_match; lia.
    - rewrite (aget_aset_ne _ _ _ _ _ E4) by done. destruct (decide (x = wi)) as [-> | Hxi].
      + rewrite (aget_aset_eq _ _ _ _ E3), Li. cbn. f_equal. unfold transpose. repeat case_match; lia.
      + rewrite (aget_aset_ne _ _ _ _ _ E3) by done. destruct (aget lua x) as [k |] eqn:Ek; [| done]. cbn. f_equal.
        apply (ao_a _ _ _ Ho) in Ek. symmetry. apply transpose_other; congruence. }
  exists a2, l2. split; [done |]. split; [| done]. split; [congruence .. | |].
  - intros k x. rewrite Ha, Hl. intros Hx. rewrite (ao_lua _ _ _ Ho _ _ Hx). cbn. by rewrite transpose_involutive.
  - intros k x. rewrite Ha, Hl. intros (k0 & Hk & ->)%fmap_Some. rewrite transpose_involutive. by apply (ao_a _ _ _ Ho).
Qed.

Lemma swap_reorders (a a' : list Z) i j l r :
  (forall k, aget a' k = aget a (transpose i j k)) -> l <= i <= r -> l <= j <= r -> reorders l r a a'.
Proof.
  intros Ha Hi Hj. split.
  - intros k Hk. rewrite Ha, transpose_other; [done | lia ..].
  - intros k Hk. exists (transpose i j k). split; [by apply transpose_range | apply Ha].
Qed.

(** ** Quicksort *)

(** A comparison whose results are -1, 0 and 1 and that is a total preorder. *)
Class TotalOrd (ord : Z -> Z -> Z) : Prop := {
  to_anti : forall x y, ord x y = - ord y x;
  to_cases : forall x y, ord x y = -1 \/ ord x y = 0 \/ ord x y = 1;
  to_trans : forall x y z, ord x y <= 0 -> ord y z <= 0 -> ord x z <= 0
}.

Section QuickSort.
Variables (nodes : list PNode) (cmp : Z -> Z -> option Z) (ord : Z -> Z -> Z) (n : Z).
Context `{!TotalOrd ord}.
Hypothesis (Hlen : zlen nodes = n) (Hnum : num_ok nodes).
Hypothesis (Hcmp : forall x y, 0 <= x < n -> 0 <= y < n -> cmp x y = Some (ord x y)).

(** The cells from [l] to [r] are ordered. *)
Definition sorted (a : list Z) (l r : Z) : Prop :=
  forall i j x y, l <= i -> i <= j -> j <= r -> aget a i = Some x -> aget a j = Some y -> ord x y <= 0.

Lemma ord_refl x : ord x x = 0.
Proof. pose proof (to_anti x x). lia. Qed.

Lemma scan_up_spec a lua v r fuel i :
  arr_ok n a lua -> aget a r = Some v -> -1 <= i < r -> r - i <= Z.of_nat fuel ->
  exists i', scan_up cmp fuel a v i = Some i' /\ i < i' <= r /\
    (forall k x, i < k < i' -> aget a k = Some x -> ord x v <= 0) /\
    (forall x, aget a i' = Some x -> ord v x <= 0).
Proof.
  intros Ho Hr. pose proof (aget_Some_lt _ _ _ Hr) as Hrn. rewrite (ao_len _ _ _ Ho) in Hrn.
  assert (Hv : 0 <= v < n). { destruct (arr_ok_get _ _ _ r Ho Hrn) as (v' & E & ?). congruence. }
  revert i. induction fuel as [| fuel IH]; [lia |]. intros i Hi Hf. cbn [scan_up].
  destruct (arr_ok_get _ _ _ (i + 1) Ho) as (x & Ex & Hx); [lia |]. rewrite Ex. cbn [mbind option_bind].
  rewrite Hcmp by done. cbn [mbind option_bind]. destruct (Z.eqb_spec (ord x v) (-1)) as [Hlt | Hge].
  - assert (Hne : i + 1 <> r). { intros E. rewrite E in Ex. replace x with v in Hlt by congruence. rewrite ord_refl in Hlt. lia. }
    destruct (IH (i + 1)) as (i' & E & Hi' & Hb & Hs); [lia .. |]. exists i'. split; [done |]. split; [lia |]. split; [| done].
    intros k y Hk Hy. destruct (decide (k = i + 1)) as [-> | ?]; [| apply (Hb k); [lia | done]]. replace y with x by congruence. lia.
  - exists (i + 1). split; [done |]. split; [lia |]. split; [intros; lia |].
    intros y Hy. replace y with x by congruence. rewrite to_anti. destruct (to_cases x v); lia.
Qed.

Lemma scan_down_spec a lua v l fuel j :
  arr_ok n a lua -> 0 <= v < n -> 0 <= l -> l < j <= n -> j - l <= Z.of_nat fuel ->
  exists j', scan_down cmp fuel a v l j = Some j' /\ l <= j' < j /\
    (forall k x, j' < k < j -> aget a k = Some x -> ord v x <= 0) /\
    (j' = l \/ forall x, aget a j' = Some x -> ord x v <= 0).
Proof.
  intros Ho Hv Hl. revert j. induction fuel as [| fuel IH]; [lia |]. intros j Hj Hf. cbn [scan_down].
  destruct (arr_ok_get _ _ _ (j - 1) Ho) as (x & Ex & Hx); [lia |]. rewrite Ex. cbn [mbind option_bind].
  rewrite Hcmp by done. cbn [mbind option_bind]. destruct (Z.eqb_spec (ord v x) (-1)) as [Hlt | Hge].
  - destruct (Z.eqb_spec (j - 1) l) as [He | Hne].
    + exists (j - 1). split; [done |]. split; [lia |]. split; [intros; lia | by left].
    + destruct (IH (j - 1)) as (j' & E & Hj' & Hb & Hs); [lia .. |]. exists j'. split; [done |]. split; [lia |]. split; [| done].
      intros k y Hk Hy. destruct (decide (k = j - 1)) as [-> | ?]; [| apply (Hb k); [lia | done]]. replace y with x by congruence. lia.
  - exists (j - 1). split; [done |]. split; [lia |]. split; [intros; lia |]. right.
    intros y Hy. replace y with x by congruence. rewrite to_anti. destruct (to_cases v x); lia.
Qed.

Lemma partition_loop_spec l r v fuel : forall a lua i j,
  arr_ok n a lua -> aget a r = Some v -> 0 <= l -> l <= r -> l - 1 <= i -> i < j -> j <= r -> l < j -> j - i <= Z.of_nat fuel ->
  (forall k x, l <= k <= i -> aget a k = Some x -> ord x v <= 0) ->
  (forall k x, j <= k < r -> aget a k = Some x -> ord v x <= 0) ->
  exists a' lua' i', partition_loop nodes cmp fuel a lua v l i j = Some (a', lua', i') /\ arr_ok n a' lua' /\
    reorders l (r - 1) a a' /\ l <= i' <= r /\
    (forall k x, l <= k < i' -> aget a' k = Some x -> ord x v <= 0) /\
    (forall k x, i' <= k <= r -> aget a' k = Some x -> ord v x <= 0).
Proof.
  induction fuel as [| fuel IH]; [lia |]. intros a lua i j Ho Hr Hl Hlr Hi Hij Hjr Hlj Hf HL HR.
  pose proof (ao_len _ _ _ Ho) as La. pose proof (aget_Some_lt _ _ _ Hr) as Hrn.
  assert (Hv : 0 <= v < n). { destruct (arr_ok_get _ _ _ r Ho) as (v' & E & ?); [lia | congruence]. }
  cbn [partition_loop].
  destruct (scan_up_spec a lua v r (S (length a)) i Ho Hr) as (i1 & -> & Hi1 & HL1 & HR1); [lia | unfold zlen in *; lia |].
  destruct (scan_down_spec a lua v l (S (length a)) j Ho Hv Hl) as (j1 & -> & Hj1 & HR2 & HL2); [lia | unfold zlen in *; lia |].
  cbn [mbind option_bind]. destruct (Z.leb_spec j1 i1) as [Hle | Hgt].
  - exists a, lua, i1. split; [done |]. split; [done |]. split; [apply reorders_refl |]. split; [lia |]. split.
    + intros k x Hk Hx. destruct (decide (k <= i)); [apply (HL k); [lia | done] | apply (HL1 k); [lia | done]].
    + intros k x Hk Hx. destruct (decide (k = i1)) as [-> | ?]; [by apply HR1 |].
      destruct (decide (k = r)) as [-> | ?]. { replace x with v by congruence. rewrite ord_refl. lia. }
      destruct (decide (k < j)); [apply (HR2 k); [lia | done] | apply (HR k); [lia | done]].
  - destruct HL2 as [-> | HL2]; [lia |].
    destruct (swap_ok nodes n a lua i1 j1 Ho Hnum Hlen) as (a1 & lua1 & -> & Ho1 & Ha & _); [lia .. |]. cbn [mbind option_bind fst snd].
    destruct (IH a1 lua1 i1 j1) as (a' & lua' & i' & -> & Ho' & Hre & Hi' & HL' & HR'); try done; try lia.
    + rewrite Ha, transpose_other by lia. done.
    + intros k x Hk. rewrite Ha. destruct (decide (k = i1)) as [-> | ?].
      * unfold transpose. rewrite Z.eqb_refl. apply HL2.
      * rewrite transpose_other by lia. destruct (decide (k <= i)); [apply HL | apply HL1]; lia.
    + intros k x Hk. rewrite Ha. destruct (decide (k = j1)) as [-> | ?].
      * unfold transpose. rewrite (proj2 (Z.eqb_neq j1 i1)), Z.eqb_refl by lia. apply HR1.
      * rewrite transpose_other by lia. destruct (decide (k < j)); [apply HR2 | apply HR]; lia.
    + exists a', lua', i'. split; [done |]. split; [done |]. split; [| done].
      eapply reorders_trans; [| exact Hre]. eapply swap_reorders; [exact Ha | lia ..].
Qed.

Lemma partition_ok a lua l r :
  arr_ok n a lua -> 0 <= l -> l < r < n ->
  exists v a' lua' i, partition nodes cmp a lua l r = Some (a', lua', i) /\ arr_ok n a' lua' /\ reorders l r a a' /\
    l <= i <= r /\ aget a' i = Some v /\
    (forall k x, l <= k < i -> aget a' k = Some x -> ord x v <= 0) /\
    (forall k x, i < k <= r -> aget a' k = Some x -> ord v x <= 0).
Proof.
  intros Ho Hl Hr. pose proof (ao_len _ _ _ Ho) as La. destruct (arr_ok_get _ _ _ r Ho) as (v & Ev & Hv); [lia |].
  unfold partition. rewrite Ev. cbn [mbind option_bind].
  destruct (partition_loop_spec l r v (S (length a)) a lua (l - 1) r) as (a1 & lua1 & i & -> & Ho1 & Hre & Hi & HL & HR);
    try done; try lia. { unfold zlen in *; lia. } cbn [mbind option_bind].
  destruct (swap_ok nodes n a1 lua1 i r Ho1 Hnum Hlen) as (a2 & lua2 & -> & Ho2 & Ha & _); [lia .. |]. cbn [mbind option_bind fst snd].
  assert (Er : aget a1 r = Some v). { rewrite (proj1 Hre) by lia. done. }
  exists v, a2, lua2, i. split; [done |]. split; [done |]. split.
  { eapply reorders_trans; [eapply (reorders_mono l (r - 1)); [lia .. | exact Hre] | eapply swap_reorders; [exact Ha | lia ..]]. }
  split; [lia |]. split. { rewrite Ha. unfold transpose. by rewrite Z.eqb_refl. }
  split.
  - intros k x Hk. rewrite Ha, transpose_other by lia. by apply HL.
  - intros k x Hk. rewrite Ha. destruct (decide (k = r)) as [-> | ?].
    + unfold transpose. rewrite (proj2 (Z.eqb_neq r i)), Z.eqb_refl by lia. apply HR. lia.
    + rewrite transpose_other by lia. apply HR. lia.
Qed.

(** Sorting two sides of a pivot sorts the whole. *)
Lemma sorted_join a l i r v :
  sorted a l (i - 1) -> sorted a (i + 1) r -> aget a i = Some v ->
  (forall k x, l <= k <= i - 1 -> aget a k = Some x -> ord x v <= 0) ->
  (forall k x, i + 1 <= k <= r -> aget a k = Some x -> ord v x <= 0) -> sorted a l r.
Proof.
  intros S1 S2 Hv HL HR k1 k2 x y H1 H12 H2 Hx Hy.
  assert (Hxv : k1 <= i -> ord x v <= 0).
  { intros. destruct (decide (k1 = i)) as [-> |]; [replace x with v by congruence; rewrite ord_refl; lia | eapply HL; [| done]; lia]. }
  assert (Hvy : i <= k2 -> ord v y <= 0).
  { intros. destruct (decide (k2 = i)) as [-> |]; [replace y with v by congruence; rewrite ord_refl; lia | eapply HR; [| done]; lia]. }
  destruct (decide (k2 < i)); [by apply (S1 k1 k2); try lia |].
  destruct (decide (i < k1)); [by apply (S2 k1 k2); try lia |]. apply (to_trans x v y); [apply Hxv | apply Hvy]; lia.
Qed.

Lemma sorted_reorders_out a b l r l' r' : reorders l' r' a b -> r < l' \/ r' < l -> sorted a l r -> sorted b l r.
Proof. intros [Ho _] Hd Hs i j x y ???. rewrite !Ho by lia. by apply Hs. Qed.

Lemma sort_ok fuel : forall a lua l r,
  arr_ok n a lua -> 0 <= l -> r < n -> r - l <= Z.of_nat fuel ->
  exists a' lua', sort nodes cmp fuel a lua l r = Some (a', lua') /\ arr_ok n a' lua' /\ reorders l r a a' /\ sorted a' l r.
Proof.
  induction fuel as [| fuel IH]; intros a lua l r Ho Hl Hr Hf; cbn [sort]; destruct (Z.leb_spec r l) as [Hle | Hgt]; try lia;
    try (exists a, lua; split; [done |]; split; [done |]; split; [apply reorders_refl |];
         intros i j x y ??? Hx Hy; replace y with x by (replace i with j in Hx by lia; congruence); rewrite ord_refl; lia).
  destruct (partition_ok a lua l r Ho Hl) as (v & a1 & lua1 & i & -> & Ho1 & Hre1 & Hi & Hv & HL & HR); [lia |]. cbn [mbind option_bind].
  destruct (IH a1 lua1 l (i - 1)) as (a2 & lua2 & -> & Ho2 & Hre2 & Hs2); [done | lia .. |]. cbn [mbind option_bind fst snd].
  destruct (IH a2 lua2 (i + 1) r) as (a3 & lua3 & -> & Ho3 & Hre3 & Hs3); [done | lia .. |].
  exists a3, lua3. split; [done |]. split; [done |]. split.
  - eapply reorders_trans; [exact Hre1 |]. eapply reorders_trans; eapply reorders_mono; [| | exact Hre2 | | | exact Hre3]; lia.
  - apply (sorted_join a3 l i r v); [eapply sorted_reorders_out; [exact Hre3 | lia | done] | done | | |].
    + rewrite (proj1 Hre3), (proj1 Hre2) by lia. done.
    + intros k x Hk. rewrite (proj1 Hre3) by lia. revert k x Hk. eapply (reorders_forall (fun x => ord x v <= 0)); [exact Hre2 |].
      intros k x Hk. apply HL. lia.
    + eapply (reorders_forall (fun x => ord v x <= 0)); [exact Hre3 |]. intros k x Hk. rewrite (proj1 Hre2) by lia. apply HR. lia.
Qed.
End QuickSort.
