(* ===== verification/MinimizerOrder.v ===== *)
(** * The minimizer: the order of the nodes (PNode::compare)

    The comparison of two nodes is the lexicographic order of keys, provided
    that blocks of the same label agree in mutability; nodes of the same key
    have the same label, size, integers and bytes. *)

From S2P Require Import Prelude Config HeaderOp AliceData Minimizer MinimizerSort.

(** ** Lexicographic order *)

Fixpoint lexcmp (xs ys : list Z) : Z :=
  match xs, ys with
  | [], [] => 0
  | [], _ :: _ => -1
  | _ :: _, [] => 1
  | x :: xs, y :: ys => if x <? y then -1 else if y <? x then 1 else lexcmp xs ys
  end.

Lemma lexcmp_anti xs ys : lexcmp xs ys = - lexcmp ys xs.
Proof.
  revert ys. induction xs as [| x xs IH]; intros [| y ys]; cbn; try done.
  destruct (Z.ltb_spec x y), (Z.ltb_spec y x); try lia. apply IH.
Qed.

Lemma lexcmp_cases xs ys : lexcmp xs ys = -1 \/ lexcmp xs ys = 0 \/ lexcmp xs ys = 1.
Proof. revert ys. induction xs as [| x xs IH]; intros [| y ys]; cbn; auto. repeat case_match; auto. Qed.

Lemma lexcmp_refl xs : lexcmp xs xs = 0.
Proof. pose proof (lexcmp_anti xs xs). lia. Qed.

Lemma lexcmp_eq xs ys : lexcmp xs ys = 0 -> xs = ys.
Proof.
  revert ys. induction xs as [| x xs IH]; intros [| y ys]; cbn; try done.
  destruct (Z.ltb_spec x y); [done |]. destruct (Z.ltb_spec y x); [done |]. intros ->%IH. f_equal. lia.
Qed.

Lemma lexcmp_trans xs ys zs : lexcmp xs ys <= 0 -> lexcmp ys zs <= 0 -> lexcmp xs zs <= 0.
Proof.
  revert ys zs. induction xs as [| x xs IH]; intros [| y ys] [| z zs]; cbn; try lia.
  destruct (Z.ltb_spec x y), (Z.ltb_spec y x), (Z.ltb_spec y z), (Z.ltb_spec z y), (Z.ltb_spec x z), (Z.ltb_spec z x); try lia. apply IH.
Qed.

#[export] Instance lexcmp_ord (key : Z -> list Z) : TotalOrd (fun x y => lexcmp (key x) (key y)).
Proof.
  split; intros.
  - apply lexcmp_anti.
  - apply lexcmp_cases.
  - by eapply lexcmp_trans.
Qed.

Lemma lexcmp_same_head x xs ys : lexcmp (x :: xs) (x :: ys) = lexcmp xs ys.
Proof. cbn. by rewrite Z.ltb_irrefl. Qed.

Lemma lexcmp_app ps xs ys : lexcmp (ps ++ xs) (ps ++ ys) = lexcmp xs ys.
Proof. induction ps as [| p ps IH]; [done |]. cbn [app]. by rewrite lexcmp_same_head. Qed.

Section Order.
Context `{Platform} {C : Type} (st : AliceData.store C).

(** ** Keys *)

Definition rank (l : Z) : list Z := if l =? CHUNK_LABEL then [0] else [1; l].

(** What a child counts for: an integer, or any block. *)
Definition child_key (x : word) : option (list Z) := c ← WordToInt st x; Some (match c with Some i => [0; i] | None => [1; 0] end).
Definition arg_key v (i : Z) : option (list Z) := x ← GetArg st v i; child_key x.
Definition children_key v : option (list Z) := n ← GetSize st v; ks ← mapM (arg_key v) (reverse (seqZ 0 n)); Some (n :: concat ks).

(** The values that are compared by size and children. *)
Definition is_structural (l : Z) (m : bool) : bool :=
  negb (PNode.incomparable l) && ((l =? CLOSURE_LABEL) || (l =? TUPLE_LABEL) || (l =? TRANSFORM_LABEL) || negb m).

Definition body_key v l : option (list Z) :=
  m ← IsMutable st v;
  if PNode.incomparable l then Some [v]
  else if (l =? CLOSURE_LABEL) || (l =? TUPLE_LABEL) || (l =? TRANSFORM_LABEL) then children_key v
  else if l =? CHUNK_LABEL then
    match st_get st v with Some (NChunk m xs) => Some (if m : bool then [v] else zlen xs :: xs) | _ => None end
  else if m : bool then Some [v] else children_key v.

Definition key (w : word) : option (list Z) :=
  p ← WordToBlock st w; v ← p; l ← GetLabel st v; b ← body_key v l; Some (rank l ++ b).

(** ** The comparison is that of the keys *)

Lemma address_order_lex v w : v <> w -> PNode.address_order v w = lexcmp [v] [w].
Proof.
  intros. unfold PNode.address_order. cbn [lexcmp]. destruct (Z.ltb_spec v w); [done |]. destruct (Z.ltb_spec w v); [done | lia].
Qed.

Lemma memcmp_lex xs ys : length xs = length ys -> PNode.memcmp xs ys = lexcmp xs ys.
Proof. revert ys. induction xs as [| x xs IH]; intros [| y ys]; cbn; try done. intros [= E]. by rewrite IH. Qed.

Lemma compareChunks_lex xs ys : PNode.compareChunks xs ys = lexcmp (zlen xs :: xs) (zlen ys :: ys).
Proof.
  unfold PNode.compareChunks. cbn [lexcmp]. destruct (Z.ltb_spec (zlen xs) (zlen ys)); [done |].
  destruct (Z.ltb_spec (zlen ys) (zlen xs)); [done |]. apply memcmp_lex. unfold zlen in *. lia.
Qed.

Lemma compareChildren_loop_lex v w ix : forall ks ks',
  mapM (arg_key v) ix = Some ks -> mapM (arg_key w) ix = Some ks' ->
  PNode.compareChildren_loop st v w ix = Some (lexcmp (concat ks) (concat ks')).
Proof.
  induction ix as [| i ix IH]; intros ks ks'; cbn.
  { by intros [= <-] [= <-]. }
  destruct (arg_key v i) as [k |] eqn:Ek; [cbn | done]. destruct (mapM (arg_key v) ix) as [kr |] eqn:Er; [cbn | done]. intros [= <-].
  destruct (arg_key w i) as [k' |] eqn:Ek'; [cbn | done]. destruct (mapM (arg_key w) ix) as [kr' |] eqn:Er'; [cbn | done]. intros [= <-].
  specialize (IH _ _ eq_refl eq_refl). unfold arg_key, child_key in Ek, Ek'.
  destruct (GetArg st v i) as [x |]; [cbn in * | done]. destruct (WordToInt st x) as [c |]; [cbn in * | done]. injection Ek as <-.
  destruct (GetArg st w i) as [y |]; [cbn in * | done]. destruct (WordToInt st y) as [c' |]; [cbn in * | done]. injection Ek' as <-.
  destruct c as [c |], c' as [c' |]; cbn; try done.
  destruct (Z.ltb_spec c c'); [done |]. destruct (Z.ltb_spec c' c); [done |]. apply IH.
Qed.

Lemma structural_order_lex v w k k' :
  children_key v = Some k -> children_key w = Some k' -> PNode.structural_order st v w = Some (lexcmp k k').
Proof.
  unfold children_key, PNode.structural_order, PNode.compareSize, PNode.compareChildren.
  destruct (GetSize st v) as [n |] eqn:En; [cbn | done]. destruct (mapM (arg_key v) _) as [ks |] eqn:Ek; [cbn | done]. intros [= <-].
  destruct (GetSize st w) as [n' |] eqn:En'; [cbn | done]. destruct (mapM (arg_key w) _) as [ks' |] eqn:Ek'; [cbn | done]. intros [= <-].
  destruct (Z.eqb_spec n n') as [-> | Hne]; cbn.
  - rewrite Z.ltb_irrefl. by apply compareChildren_loop_lex.
  - destruct (Z.ltb_spec n n'); cbn; [done |]. destruct (Z.ltb_spec n' n); [done | lia].
Qed.

Lemma compareBlocks_lex v w l k k' :
  v <> w -> IsMutable st v = IsMutable st w -> body_key v l = Some k -> body_key w l = Some k' ->
  PNode.compareBlocks st v l w = Some (lexcmp k k').
Proof.
  intros Hne Hm. unfold body_key, PNode.compareBlocks. rewrite <- Hm.
  destruct (IsMutable st v) as [m |] eqn:Em; [cbn [mbind option_bind] | done]. symmetry in Hm.
  destruct (PNode.incomparable l). { intros [= <-] [= <-]. by rewrite address_order_lex. }
  destruct (_ || _). { apply structural_order_lex. }
  destruct (l =? CHUNK_LABEL).
  - unfold IsMutable in Em, Hm. destruct (st_get st v) as [[| m1 xs | |] |]; try done. destruct (st_get st w) as [[| m2 ys | |] |]; try done.
    cbn in Em, Hm. injection Em as ->. injection Hm as ->. intros [= <-] [= <-].
    destruct m; [by rewrite address_order_lex | by rewrite compareChunks_lex].
  - destruct m; [| apply structural_order_lex]. intros [= <-] [= <-]. by rewrite address_order_lex.
Qed.

Lemma key_WordToBlock a k : key a = Some k ->
  exists v l b, deref st a = Some (WPtr v) /\ WordToBlock st a = Some (Some v) /\ GetLabel st v = Some l /\ body_key v l = Some b /\ k = rank l ++ b.
Proof.
  unfold key. destruct (WordToBlock st a) as [[v |] |] eqn:Ew; cbn; try done.
  destruct (GetLabel st v) as [l |] eqn:El; cbn; [| done]. destruct (body_key v l) as [b |] eqn:Eb; cbn; [| done]. intros [= <-].
  exists v, l, b. split; [| done]. unfold WordToBlock in Ew. destruct (deref st a) as [[i | v'] |]; cbn in Ew; try done.
  destruct (st_get st v') as [[] |]; cbn in Ew; try done; by injection Ew as ->.
Qed.

Lemma compareLabels_rank l l' b b' :
  l <> l' -> lexcmp (rank l ++ b) (rank l' ++ b') = PNode.compareLabels l l' /\ PNode.compareLabels l l' <> 0.
Proof.
  intros Hne. unfold PNode.compareLabels, rank. rewrite (proj2 (Z.eqb_neq l l') Hne).
  destruct (Z.eqb_spec l CHUNK_LABEL), (Z.eqb_spec l' CHUNK_LABEL); cbn; try lia.
  destruct (Z.ltb_spec l l'); [lia |]. destruct (Z.ltb_spec l' l); lia.
Qed.

(** Blocks of the same label agree in mutability. *)
Definition uniform (a b : word) : Prop :=
  forall v w l, WordToBlock st a = Some (Some v) -> WordToBlock st b = Some (Some w) ->
    GetLabel st v = Some l -> GetLabel st w = Some l -> IsMutable st v = IsMutable st w.

Lemma compare_lex a b k k' : uniform a b -> key a = Some k -> key b = Some k' -> PNode.compare st a b = Some (lexcmp k k').
Proof.
  intros Hu (v & l & x & Da & Wa & La & Ba & ->)%key_WordToBlock (w & l' & y & Db & Wb & Lb & Bb & ->)%key_WordToBlock.
  unfold PNode.compare. rewrite Da, Db. cbn [mbind option_bind]. case_decide as E.
  { injection E as ->. rewrite La in Lb. injection Lb as ->. rewrite Ba in Bb. injection Bb as ->. by rewrite lexcmp_refl. }
  rewrite Wa, Wb. cbn [mbind option_bind]. rewrite La, Lb. cbn [mbind option_bind]. destruct (decide (l = l')) as [-> | Hne].
  - unfold PNode.compareLabels. rewrite Z.eqb_refl. cbn. rewrite lexcmp_app. apply compareBlocks_lex; eauto. congruence.
  - destruct (compareLabels_rank l l' x y Hne) as [-> H0]. by rewrite (proj2 (Z.eqb_neq _ _) H0).
Qed.

(** ** What nodes of the same key have in common *)

(** Blocks of the same shape. *)
Inductive similar v w : Prop :=
  | similar_same : v = w -> similar v w
  | similar_chunks bs : st_get st v = Some (NChunk false bs) -> st_get st w = Some (NChunk false bs) -> similar v w
  | similar_blocks l m m' args args' :
      st_get st v = Some (NBlock l m args) -> st_get st w = Some (NBlock l m' args') -> is_structural l m = true -> is_structural l m' = true ->
      Forall2 (fun x y => exists c, WordToInt st x = Some c /\ WordToInt st y = Some c) args args' -> similar v w.

Lemma arg_key_length v i k : arg_key v i = Some k -> length k = 2%nat.
Proof.
  unfold arg_key, child_key. destruct (GetArg st v i) as [x |]; cbn; [| done]. destruct (WordToInt st x) as [[|] |]; cbn; try done; by intros [= <-].
Qed.

Lemma arg_keys_inj v w ix : forall ks ks',
  mapM (arg_key v) ix = Some ks -> mapM (arg_key w) ix = Some ks' -> concat ks = concat ks' ->
  forall i, i ∈ ix -> is_Some (arg_key v i) /\ arg_key v i = arg_key w i.
Proof.
  induction ix as [| i ix IH]; intros ks ks'; cbn. { intros _ _ _ i Hi. by apply not_elem_of_nil in Hi. }
  destruct (arg_key v i) as [k |] eqn:Ek; [cbn | done]. destruct (mapM (arg_key v) ix) as [kr |] eqn:Er; [cbn | done]. intros [= <-].
  destruct (arg_key w i) as [k' |] eqn:Ek'; [cbn | done]. destruct (mapM (arg_key w) ix) as [kr' |] eqn:Er'; [cbn | done]. intros [= <-].
  cbn. intros [-> Hr]%app_inj_1; [| by rewrite (arg_key_length _ _ _ Ek), (arg_key_length _ _ _ Ek')].
  intros j [-> | Hj]%elem_of_cons; [rewrite Ek, Ek'; by eauto | by eapply IH].
Qed.

Lemma child_key_inj x y : is_Some (child_key x) -> child_key x = child_key y -> exists c, WordToInt st x = Some c /\ WordToInt st y = Some c.
Proof.
  unfold child_key. intros [k Hk]. destruct (WordToInt st x) as [[c |] |], (WordToInt st y) as [[c' |] |]; cbn in *; try done; intros E; simplify_eq; eauto.
Qed.

Lemma children_key_inj v w args args' k :
  GetArgs st v = Some args -> GetArgs st w = Some args' -> children_key v = Some k -> children_key w = Some k ->
  Forall2 (fun x y => exists c, WordToInt st x = Some c /\ WordToInt st y = Some c) args args'.
Proof.
  intros Ga Ga'. unfold children_key, GetSize. rewrite Ga, Ga'. cbn.
  destruct (mapM (arg_key v) _) as [ks |] eqn:Ek; [cbn | done]. destruct (mapM (arg_key w) _) as [ks' |] eqn:Ek'; [cbn | done].
  intros E1 E2. rewrite <- E2 in E1. injection E1 as El Ec. rewrite <- El in Ek'.
  apply Forall2_same_length_lookup. split; [unfold zlen in El; lia |]. intros i x y Hx Hy. pose proof (lookup_lt_Some _ _ _ Hx).
  destruct (arg_keys_inj v w _ _ _ Ek Ek' Ec (Z.of_nat i)) as [Hs E].
  { apply elem_of_reverse, elem_of_seqZ. unfold zlen. lia. }
  unfold arg_key, GetArg in Hs, E. rewrite Ga in Hs, E. rewrite Ga' in E. cbn in Hs, E. unfold aget in Hs, E.
  rewrite decide_True, Nat2Z.id, Hx in Hs, E by lia. rewrite Hy, decide_True in E by lia. by apply child_key_inj.
Qed.

Lemma body_key_inj v w l k :
  GetLabel st v = Some l -> GetLabel st w = Some l -> IsMutable st v = IsMutable st w ->
  body_key v l = Some k -> body_key w l = Some k -> similar v w.
Proof.
  intros Lv Lw Hm. unfold body_key. rewrite <- Hm. destruct (IsMutable st v) as [m |] eqn:Em; [cbn [mbind option_bind] | done].
  assert (Hchildren : is_structural l m = true -> children_key v = Some k -> children_key w = Some k -> similar v w).
  { intros Hstr Kv Kw. assert (Hargs : is_Some (GetArgs st v) /\ is_Some (GetArgs st w)).
    { unfold children_key, GetSize in Kv, Kw. destruct (GetArgs st v), (GetArgs st w); cbn in Kv, Kw; try done; eauto. }
    destruct Hargs as [[args Ga] [args' Ga']]. pose proof (children_key_inj _ _ _ _ _ Ga Ga' Kv Kw) as HF.
    unfold GetArgs, GetLabel, IsMutable in *. destruct (st_get st v) as [[l1 m1 a1 | | |] |] eqn:Gv; cbn in *; try done.
    destruct (st_get st w) as [[l2 m2 a2 | | |] |] eqn:Gw; cbn in *; try done. simplify_eq.
    by eapply similar_blocks. }
  unfold is_structural in Hchildren. destruct (PNode.incomparable l) eqn:Ei. { intros [= <-] [= ->]. by constructor. }
  destruct ((l =? CLOSURE_LABEL) || (l =? TUPLE_LABEL) || (l =? TRANSFORM_LABEL)) eqn:Es. { cbn in Hchildren. by apply Hchildren. }
  destruct (l =? CHUNK_LABEL) eqn:Ec.
  - unfold IsMutable in Em, Hm. destruct (st_get st v) as [[| m1 xs | |] |] eqn:Gv; try done. destruct (st_get st w) as [[| m2 ys | |] |] eqn:Gw; try done.
    cbn in Em, Hm. injection Em as ->. injection Hm as ->. destruct m2; intros [= <-] [= E]; [by constructor | subst; by eapply similar_chunks].
  - destruct m; [intros [= <-] [= ->]; by constructor | by apply Hchildren].
Qed.

Lemma key_similar a b k v w : uniform a b -> key a = Some k -> key b = Some k ->
  WordToBlock st a = Some (Some v) -> WordToBlock st b = Some (Some w) -> similar v w.
Proof.
  intros Hu (v' & l & x & Da & Wa & La & Ba & ->)%key_WordToBlock (w' & l' & y & Db & Wb & Lb & Bb & E)%key_WordToBlock Wa' Wb'.
  simplify_eq. assert (l = l' /\ x = y) as [<- <-].
  { unfold rank in E. destruct (Z.eqb_spec l CHUNK_LABEL), (Z.eqb_spec l' CHUNK_LABEL); simplify_eq/=; auto. }
  eapply body_key_inj; eauto.
Qed.
End Order.
