(* ===== verification/MinimizerBlock.v ===== *)
(** * The minimizer: the table of incoming edges of a block (PBlock)

    What the operations of PBlock do to the number of nodes that enter the
    block by an edge and to the edges with which the block is on the agenda. *)

From S2P Require Import Prelude Config HeaderOp AliceData Minimizer MinimizerSort.

Implicit Types (B : PBlock) (e : Z).

(** The number of edges with which the block is on the agenda. *)
Definition negative (c : option Z) : Z := match c with Some v => if v <? 0 then 1 else 0 | None => 0 end.
Fixpoint nmarks (l : list (option Z)) : Z := match l with [] => 0 | c :: l => negative c + nmarks l end.

(** The count of the block is that number. *)
Definition bwf B : Prop := pb_count B = nmarks (pb_incoming B).

(** Blocks of the same nodes and the same split index. *)
Definition same_span B B' : Prop := pb_start B' = pb_start B /\ pb_end B' = pb_end B /\ pb_split B' = pb_split B.

#[export] Instance same_span_refl : Reflexive same_span.
Proof. by intros B. Qed.
#[export] Instance same_span_trans : Transitive same_span.
Proof. intros B1 B2 B3 (? & ? & ?) (? & ? & ?). unfold same_span. by repeat split; etrans. Qed.

Lemma nmarks_app l l' : nmarks (l ++ l') = nmarks l + nmarks l'.
Proof. induction l as [| c l IH]; cbn; [done |]. rewrite IH. lia. Qed.

Lemma nmarks_replicate m : nmarks (replicate m None) = 0.
Proof. induction m; cbn; [done |]. by rewrite IHm. Qed.

Lemma nmarks_bounds l : 0 <= nmarks l <= zlen l.
Proof. induction l as [| c l IH]; cbn; [unfold zlen; cbn; lia |]. rewrite zlen_cons. unfold negative. repeat case_match; lia. Qed.

Lemma nmarks_insert l i c c' : l !! i = Some c -> nmarks (<[i := c']> l) = nmarks l - negative c + negative c'.
Proof.
  revert i. induction l as [| d l IH]; intros [| i] Hi; try done.
  - injection Hi as ->. change (<[0%nat := c']> (c :: l)) with (c' :: l). cbn [nmarks]. lia.
  - change (<[S i := c']> (d :: l)) with (d :: <[i := c']> l). cbn [nmarks]. rewrite (IH i) by done. lia.
Qed.

Lemma nmarks_pos l : nmarks l <> 0 -> exists i v, l !! i = Some (Some v) /\ v < 0.
Proof.
  induction l as [| c l IH]; cbn; [done |]. intros Hn. destruct c as [v |]; cbn in Hn.
  - destruct (Z.ltb_spec v 0); [by exists 0%nat, v |]. destruct IH as (i & v' & ? & ?); [lia |]. by exists (S i), v'.
  - destruct IH as (i & v' & ? & ?); [lia |]. by exists (S i), v'.
Qed.

(** ** The cells *)

Lemma grow_spec l e : 0 <= e -> let l' := PBlock.grow l e in
  e < zlen l' /\ zlen l <= zlen l' <= Z.max (zlen l) (2 * e + 4) /\ nmarks l' = nmarks l /\
  (forall e', 0 <= e' -> match aget l' e' with Some (Some v) => Some v | _ => None end = match aget l e' with Some (Some v) => Some v | _ => None end) /\
  (e < zlen l -> l' = l).
Proof.
  intros He. cbn. unfold PBlock.grow. pose proof (zlen_nonneg l). destruct (Z.leb_spec (zlen l) e) as [Hle | Hgt]; [| repeat split; lia].
  rewrite zlen_app, zlen_replicate by lia. split; [lia |]. split; [lia |]. split; [rewrite nmarks_app, nmarks_replicate; lia |]. split; [| lia].
  intros e' He'. destruct (decide (e' < zlen l)) as [Hlt | Hge]; [by rewrite aget_app_l |].
  rewrite aget_app_r, (aget_None l) by lia. unfold aget. rewrite decide_True by lia.
  destruct (replicate _ _ !! _) as [c |] eqn:E; [| done]. apply lookup_replicate in E as [-> _]. done.
Qed.

Lemma Sub_Update B e e' v : 0 <= e -> 0 <= e' -> PBlock.Sub (PBlock.Update B e v) e' = if decide (e = e') then Some v else PBlock.Sub B e'.
Proof.
  intros He He'. unfold PBlock.Sub, PBlock.Update. cbn [pb_incoming].
  destruct (grow_spec (pb_incoming B) e He) as (Hlt & _ & _ & Hsame & _).
  case_decide as Heq.
  - subst e'. unfold aget. rewrite decide_True by lia. rewrite list_lookup_insert_eq; [done |]. unfold zlen in Hlt. lia.
  - rewrite <- Hsame by done. unfold aget. rewrite !decide_True by lia. by rewrite list_lookup_insert_ne by lia.
Qed.

Lemma Update_marks B e v : 0 <= e ->
  nmarks (pb_incoming (PBlock.Update B e v)) = nmarks (pb_incoming B) - negative (PBlock.Sub B e) + negative (Some v).
Proof.
  intros He. unfold PBlock.Update. cbn [pb_incoming]. destruct (grow_spec (pb_incoming B) e He) as (Hlt & _ & Hm & Hsame & _).
  destruct (lookup_lt_is_Some_2 (PBlock.grow (pb_incoming B) e) (Z.to_nat e)) as [c Hc]. { unfold zlen in Hlt. lia. }
  rewrite (nmarks_insert _ _ _ _ Hc), Hm. do 2 f_equal. unfold PBlock.Sub. rewrite <- Hsame by done. unfold aget.
  rewrite decide_True, Hc by lia. by destruct c.
Qed.

Lemma Update_size B e v : 0 <= e -> zlen (pb_incoming B) <= zlen (pb_incoming (PBlock.Update B e v)) <= Z.max (zlen (pb_incoming B)) (2 * e + 4).
Proof.
  intros He. unfold PBlock.Update. cbn [pb_incoming]. destruct (grow_spec (pb_incoming B) e He) as (_ & Hz & _).
  unfold zlen in *. rewrite length_insert. lia.
Qed.

Lemma Update_size_eq B e v w : 0 <= e -> PBlock.Sub B e = Some w -> zlen (pb_incoming (PBlock.Update B e v)) = zlen (pb_incoming B).
Proof.
  intros He. unfold PBlock.Update, PBlock.Sub. cbn [pb_incoming]. destruct (grow_spec (pb_incoming B) e He) as (_ & _ & _ & _ & Heq).
  destruct (aget (pb_incoming B) e) as [c |] eqn:E; [| done]. intros _. apply aget_Some_lt in E. unfold zlen in *. rewrite length_insert, Heq; lia.
Qed.

Lemma Update_Update B e v w n : 0 <= e -> pb_incoming (PBlock.Update (PBlock.SetCount (PBlock.Update B e v) n) e w) = pb_incoming (PBlock.Update B e w).
Proof.
  intros He. unfold PBlock.Update, PBlock.SetCount. cbn [pb_incoming]. destruct (grow_spec (pb_incoming B) e He) as (Hlt & _).
  destruct (grow_spec (<[Z.to_nat e := Some v]> (PBlock.grow (pb_incoming B) e)) e He) as (_ & _ & _ & _ & ->).
  - by rewrite list_insert_insert_eq.
  - unfold zlen in *. rewrite length_insert. lia.
Qed.

Lemma Sub_in_range B e v : PBlock.Sub B e = Some v -> 0 <= e < zlen (pb_incoming B).
Proof. unfold PBlock.Sub. destruct (aget (pb_incoming B) e) eqn:E; [| done]. by apply aget_Some_lt in E. Qed.

(** ** The operations, by what [GetIncoming] and [IsOnAgendaWith] return *)

Definition inc B e : Z := PBlock.GetIncoming B e.
Definition mark B e : bool := PBlock.IsOnAgendaWith B e.

Lemma inc_nonneg B e : 0 <= inc B e.
Proof. unfold inc, PBlock.GetIncoming. repeat case_match; lia. Qed.

Lemma inc_Sub B e : inc B e = match PBlock.Sub B e with Some v => Z.abs v | None => 0 end.
Proof. unfold inc, PBlock.GetIncoming. repeat case_match; lia. Qed.

Lemma mark_Sub B e : mark B e = match PBlock.Sub B e with Some v => v <? 0 | None => false end.
Proof. done. Qed.

Lemma mark_inc B e : mark B e = true -> 0 < inc B e.
Proof. rewrite mark_Sub, inc_Sub. destruct (PBlock.Sub B e); [| done]. lia. Qed.

Lemma inc_in_range B e : 0 < inc B e -> 0 <= e < zlen (pb_incoming B).
Proof. rewrite inc_Sub. destruct (PBlock.Sub B e) eqn:E; [| lia]. by apply Sub_in_range in E. Qed.

Lemma mark_in_range B e : mark B e = true -> 0 <= e < zlen (pb_incoming B).
Proof. intros Hm. by apply inc_in_range, mark_inc. Qed.

Lemma on_agenda_marked B : bwf B -> PBlock.IsOnAgenda B = true -> exists e, mark B e = true.
Proof.
  unfold bwf, PBlock.IsOnAgenda. intros -> Hn. destruct (nmarks_pos (pb_incoming B)) as (i & v & Hi & Hv); [by destruct (Z.eqb_spec (nmarks (pb_incoming B)) 0) |].
  exists (Z.of_nat i). rewrite mark_Sub. unfold PBlock.Sub, aget. rewrite decide_True, Nat2Z.id, Hi by lia. lia.
Qed.

Lemma marked_on_agenda B e : bwf B -> mark B e = true -> PBlock.IsOnAgenda B = true.
Proof.
  unfold bwf, PBlock.IsOnAgenda. intros -> Hm. pose proof (mark_in_range _ _ Hm) as Hr. rewrite mark_Sub in Hm. unfold PBlock.Sub in Hm.
  destruct (aget (pb_incoming B) e) as [c |] eqn:E; [| done]. destruct c as [v |]; [| done].
  unfold aget in E. rewrite decide_True in E by lia. pose proof (nmarks_insert _ _ _ None E) as Hi.
  pose proof (nmarks_bounds (<[Z.to_nat e := None]> (pb_incoming B))). cbn in Hi. rewrite Hm in Hi.
  destruct (Z.eqb_spec (nmarks (pb_incoming B)) 0); [lia | done].
Qed.

(** A block after a change to one cell. *)
Record one_cell B B' e (i : Z) (m : bool) : Prop := {
  oc_span : same_span B B';
  oc_wf : bwf B -> bwf B';
  oc_inc : inc B' e = i;
  oc_mark : mark B' e = m;
  oc_other : forall e', 0 <= e' -> e' <> e -> inc B' e' = inc B e' /\ mark B' e' = mark B e';
  oc_size : zlen (pb_incoming B) <= zlen (pb_incoming B') <= Z.max (zlen (pb_incoming B)) (2 * e + 4);
  oc_size_eq : 0 < inc B e -> zlen (pb_incoming B') = zlen (pb_incoming B);
  oc_nmarks : nmarks (pb_incoming B') = nmarks (pb_incoming B) - (if mark B e then 1 else 0) + (if m then 1 else 0)
}.

(** An update of the cell, and of the count as the sign of the cell demands. *)
Lemma Update_one_cell B B' e v :
  0 <= e -> same_span B B' -> pb_incoming B' = pb_incoming (PBlock.Update B e v) ->
  pb_count B' = pb_count B - negative (PBlock.Sub B e) + negative (Some v) -> one_cell B B' e (Z.abs v) (v <? 0).
Proof.
  intros He Hs Hi Hc. pose proof (Update_marks B e v He) as Hn.
  assert (Hsub : forall e', 0 <= e' -> PBlock.Sub B' e' = if decide (e = e') then Some v else PBlock.Sub B e').
  { intros e' He'. rewrite <- (Sub_Update B e e' v He He'). unfold PBlock.Sub. by rewrite Hi. }
  split; try done.
  - unfold bwf. intros Hw. rewrite Hc, Hi, Hn, Hw. lia.
  - rewrite inc_Sub, Hsub, decide_True by done. done.
  - rewrite mark_Sub, Hsub, decide_True by done. done.
  - intros e' He' Hne. rewrite !inc_Sub, !mark_Sub, Hsub, decide_False by done. done.
  - rewrite Hi. by apply Update_size.
  - intros Hp. rewrite inc_Sub in Hp. rewrite Hi. destruct (PBlock.Sub B e) eqn:E; [| lia]. by eapply Update_size_eq.
  - rewrite Hi, Hn, mark_Sub. destruct (PBlock.Sub B e) as [w |]; cbn; repeat case_match; lia.
Qed.

Lemma one_cell_refl B e : 0 <= e -> one_cell B B e (inc B e) (mark B e).
Proof. intros. split; try done; try lia. Qed.

Lemma IncrementIncoming_spec B e : 0 <= e -> one_cell B (PBlock.IncrementIncoming B e) e (inc B e + 1) (mark B e).
Proof.
  intros He. unfold PBlock.IncrementIncoming. rewrite inc_Sub, mark_Sub. destruct (PBlock.Sub B e) as [v |] eqn:E.
  - replace (Z.abs v + 1) with (Z.abs (if v <? 0 then v - 1 else v + 1)) by (case_match; lia).
    replace (v <? 0) with ((if v <? 0 then v - 1 else v + 1) <? 0) at 3 by (case_match; lia).
    apply Update_one_cell; [done .. |]. rewrite E. unfold negative. cbn [PBlock.Update pb_count]. repeat case_match; lia.
  - apply (Update_one_cell _ _ _ 1); [done .. |]. rewrite E. cbn. lia.
Qed.

Lemma RemoveFromAgenda_spec B e : 0 <= e -> one_cell B (PBlock.RemoveFromAgenda B e) e (inc B e) false.
Proof.
  intros He. unfold PBlock.RemoveFromAgenda. change (PBlock.IsOnAgendaWith B e) with (mark B e). destruct (mark B e) eqn:Em.
  - rewrite mark_Sub in Em. rewrite inc_Sub. destruct (PBlock.Sub B e) as [v |] eqn:E; [| done]. destruct (Z.eqb_spec v 0); [lia |].
    replace (Z.abs v) with (Z.abs (- v)) by lia. replace false with (- v <? 0) by lia.
    apply Update_one_cell; [done .. |]. rewrite E. unfold negative. cbn [PBlock.SetCount PBlock.Update pb_count]. repeat case_match; lia.
  - rewrite <- Em. by apply one_cell_refl.
Qed.

Lemma PutOnAgenda_spec B e : 0 <= e -> one_cell B (PBlock.PutOnAgenda B e) e (inc B e) (0 <? inc B e).
Proof.
  intros He. unfold PBlock.PutOnAgenda. change (PBlock.IsOnAgendaWith B e) with (mark B e). destruct (mark B e) eqn:Em.
  - replace (0 <? inc B e) with (mark B e); [by apply one_cell_refl |]. rewrite Em. apply mark_inc in Em. lia.
  - rewrite mark_Sub in Em. pose proof (one_cell_refl B e He) as Hr. rewrite mark_Sub, inc_Sub in Hr. rewrite inc_Sub. destruct (PBlock.Sub B e) as [v |] eqn:E; [| done].
    destruct (Z.eqb_spec v 0) as [-> | Hv]; [done |].
    replace (0 <? Z.abs v) with (- v <? 0) by lia. replace (Z.abs v) with (Z.abs (- v)) by lia.
    apply Update_one_cell; [done .. |]. rewrite E. unfold negative. cbn [PBlock.SetCount PBlock.Update pb_count]. repeat case_match; lia.
Qed.

Lemma DecrementIncoming_spec B e : 0 <= e -> 0 < inc B e ->
  one_cell B (PBlock.DecrementIncoming B e) e (inc B e - 1) (mark B e && (1 <? inc B e)).
Proof.
  intros He. unfold PBlock.DecrementIncoming. rewrite inc_Sub, mark_Sub. destruct (PBlock.Sub B e) as [v |] eqn:E; [| lia]. intros Hp.
  destruct (Z.eqb_spec v (-1)) as [-> | Hv].
  - apply (Update_one_cell _ _ _ 0); [done | | |].
    + apply (oc_span _ _ _ _ _ (RemoveFromAgenda_spec B e He)).
    + unfold PBlock.RemoveFromAgenda, PBlock.IsOnAgendaWith. rewrite E. cbn [Z.ltb Z.compare Z.eqb]. by apply Update_Update.
    + unfold PBlock.RemoveFromAgenda, PBlock.IsOnAgendaWith. rewrite E. cbn. lia.
  - replace (Z.abs v - 1) with (Z.abs (if v <? 0 then v + 1 else v - 1)) by (case_match; lia).
    replace ((v <? 0) && (1 <? Z.abs v)) with ((if v <? 0 then v + 1 else v - 1) <? 0) by (repeat case_match; lia).
    apply Update_one_cell; [done .. |]. rewrite E. unfold negative. cbn [PBlock.Update pb_count]. repeat case_match; lia.
Qed.

(** ** All edges into a node *)

Fixpoint occ (preds : list (Z * Z)) e : Z := match preds with [] => 0 | p :: preds => (if p.1 =? e then 1 else 0) + occ preds e end.

Lemma occ_nonneg preds e : 0 <= occ preds e.
Proof. induction preds as [| p preds IH]; cbn; [done |]. case_match; lia. Qed.

Lemma occ_pos preds e y : (e, y) ∈ preds -> 0 < occ preds e.
Proof.
  induction preds as [| p preds IH]; intros Hin; [by apply not_elem_of_nil in Hin |]. pose proof (occ_nonneg preds e).
  apply elem_of_cons in Hin as [<- | Hin]; cbn; [rewrite Z.eqb_refl; lia |]. specialize (IH Hin). case_match; lia.
Qed.

Definition edges_in (W : Z) (preds : list (Z * Z)) : Prop := Forall (fun p : Z * Z => 0 <= p.1 /\ 2 * p.1 + 4 <= W) preds.

Lemma increment_all W preds B :
  edges_in W preds -> let B' := foldr (fun p b => PBlock.IncrementIncoming b p.1) B preds in
  same_span B B' /\ (bwf B -> bwf B') /\ (zlen (pb_incoming B) <= W -> zlen (pb_incoming B') <= W) /\
  forall e, 0 <= e -> inc B' e = inc B e + occ preds e /\ mark B' e = mark B e.
Proof.
  intros HW. cbn. induction preds as [| p preds IH]; cbn.
  { split; [done |]. repeat split; auto. lia. }
  inversion_clear HW as [| ? ? [Hp1 Hp2] HW']. destruct (IH HW') as (IHs & IHw & IHz & IHc). clear IH. set (B1 := foldr _ B preds) in *.
  destruct (IncrementIncoming_spec B1 p.1 Hp1) as [Os Ow Oi Om Oo Oz _ _].
  split; [by etrans |]. split; [auto |]. split; [lia |]. intros e He. destruct (IHc e He) as [IHi IHm].
  destruct (Z.eqb_spec p.1 e) as [<- | Hne]; [rewrite Oi, Om, IHi, IHm; split; [lia | done] |].
  destruct (Oo e He) as [-> ->]; [done |]. rewrite IHi, IHm. split; [lia | done].
Qed.

Lemma decrement_all W preds B :
  edges_in W preds -> (forall e, 0 <= e -> occ preds e <= inc B e) -> let B' := foldr (fun p b => PBlock.DecrementIncoming b p.1) B preds in
  same_span B B' /\ (bwf B -> bwf B') /\ zlen (pb_incoming B') = zlen (pb_incoming B) /\ nmarks (pb_incoming B') <= nmarks (pb_incoming B) /\
  forall e, 0 <= e -> inc B' e = inc B e - occ preds e /\ mark B' e = mark B e && (0 <? inc B' e).
Proof.
  intros HW. cbn. induction preds as [| p preds IH]; intros Hocc; cbn.
  { split; [done |]. split; [done |]. split; [done |]. split; [done |]. intros e He. split; [lia |].
    destruct (mark B e) eqn:E; [| done]. apply mark_inc in E. cbn. lia. }
  inversion_clear HW as [| ? ? [Hp1 Hp2] HW'].
  destruct (IH HW') as (IHs & IHw & IHz & IHn & IHc). { intros e He. specialize (Hocc e He). cbn in Hocc. case_match; lia. }
  clear IH. set (B1 := foldr _ B preds) in *.
  assert (Hpos : 0 < inc B1 p.1).
  { destruct (IHc p.1 Hp1) as [-> _]. specialize (Hocc _ Hp1). cbn in Hocc. rewrite Z.eqb_refl in Hocc. lia. }
  destruct (DecrementIncoming_spec B1 p.1 Hp1 Hpos) as [Os Ow Oi Om Oo Oz Oe On].
  split; [by etrans |]. split; [auto |]. split; [rewrite Oe; lia |]. split; [rewrite On; destruct (mark B1 p.1), (1 <? inc B1 p.1); cbn [andb]; lia |].
  intros e He. destruct (IHc e He) as [IHi IHm].
  destruct (Z.eqb_spec p.1 e) as [<- | Hne].
  - rewrite Oi, Om, IHm, IHi. split; [lia |]. rewrite <- IHi. destruct (mark B p.1); cbn; [| done].
    destruct (Z.ltb_spec 0 (inc B1 p.1)), (Z.ltb_spec 1 (inc B1 p.1)), (Z.ltb_spec 0 (inc B1 p.1 - 1)); cbn; try lia; done.
  - destruct (Oo e He) as [-> ->]; [done |]. rewrite IHi, IHm, <- IHi. split; [lia | done].
Qed.
