(* ===== verification/MinimizerLayout.v ===== *)
(** * The minimizer: the partition and the marking of parents

    The layout of a partition - the blocks are the intervals of the array of
    nodes - and [Partition::splitBlockAtNode] and [FollowBack], which move the
    nodes that have a child in a block behind the split index of theirs. *)

From S2P Require Import Prelude Config HeaderOp AliceData Minimizer MinimizerSort MinimizerBlock.

Implicit Types (p : Partition) (B : PBlock) (b e x y i : Z).

Definition blk p x : Z := match aget (p_nodes p) x with Some nd => pn_block nd | None => -1 end.
Definition pos p x : Z := match aget (p_lua p) x with Some i => i | None => -1 end.

Section Layout.
(** The graph: the number of nodes, the edges that enter a node, and its word. *)
Variables (n : Z) (pr : Z -> list (Z * Z)) (wd : Z -> word).

Definition valid x : Prop := 0 <= x < n.

(** The fields of the nodes that never change. *)
Definition nodes_ok (nodes : list PNode) : Prop :=
  zlen nodes = n /\ forall x nd, aget nodes x = Some nd -> pn_num nd = x /\ pn_preds nd = pr x /\ pn_node nd = wd x.

Record layout p : Prop := {
  ly_nodes : nodes_ok (p_nodes p);
  ly_arr : arr_ok n (p_na p) (p_lua p);
  ly_span : forall b B, aget (p_blocks p) b = Some B ->
    0 <= pb_start B <= pb_end B /\ pb_end B < n /\ pb_start B - 1 <= pb_split B <= pb_end B;
  ly_block : forall x, valid x -> exists B, aget (p_blocks p) (blk p x) = Some B;
  ly_in : forall b B x, aget (p_blocks p) b = Some B -> valid x -> blk p x = b <-> pb_start B <= pos p x <= pb_end B
}.

Lemma pos_aget p x i : aget (p_lua p) x = Some i -> pos p x = i.
Proof. unfold pos. by intros ->. Qed.

Lemma blk_aget p x nd : aget (p_nodes p) x = Some nd -> blk p x = pn_block nd.
Proof. unfold blk. by intros ->. Qed.

Lemma nodes_num nodes : nodes_ok nodes -> num_ok nodes.
Proof. intros [_ Ho] x nd Hx. by apply Ho. Qed.

Lemma node_at p x : layout p -> valid x -> exists nd, aget (p_nodes p) x = Some nd /\ pn_preds nd = pr x /\ pn_node nd = wd x /\ pn_num nd = x.
Proof.
  intros Hl Hx. destruct (ly_nodes _ Hl) as [Hlen Ho]. destruct (aget_is_Some (p_nodes p) x) as [nd Hnd]; [rewrite Hlen; done |].
  destruct (Ho _ _ Hnd) as (? & ? & ?). by exists nd.
Qed.

Lemma pos_lookup p x : layout p -> valid x -> aget (p_lua p) x = Some (pos p x) /\ aget (p_na p) (pos p x) = Some x /\ valid (pos p x).
Proof.
  intros Hl Hx. destruct (arr_ok_lookup _ _ _ x (ly_arr _ Hl) Hx) as (i & Hi & Hv). rewrite (pos_aget _ _ _ Hi).
  split; [done |]. split; [by apply (ao_a _ _ _ (ly_arr _ Hl)) | done].
Qed.

Lemma at_pos p i : layout p -> valid i -> exists x, aget (p_na p) i = Some x /\ valid x /\ pos p x = i.
Proof.
  intros Hl Hi. destruct (arr_ok_get _ _ _ i (ly_arr _ Hl) Hi) as (x & Hx & Hv). exists x. split; [done |]. split; [done |].
  apply pos_aget. by apply (ao_lua _ _ _ (ly_arr _ Hl)).
Qed.

Lemma pos_inj p x y : layout p -> valid x -> valid y -> pos p x = pos p y -> x = y.
Proof. intros Hl Hx Hy E. destruct (pos_lookup p x Hl Hx) as (_ & Ex & _). destruct (pos_lookup p y Hl Hy) as (_ & Ey & _). congruence. Qed.

Lemma LookUp_pos p x : layout p -> valid x -> LookUp p x = Some (pos p x).
Proof. intros Hl Hx. by apply pos_lookup. Qed.

Lemma na_Sub_pos p x : layout p -> valid x -> exists nd, na_Sub p (pos p x) = Some nd /\ pn_preds nd = pr x /\ pn_node nd = wd x /\ pn_num nd = x /\ pn_block nd = blk p x.
Proof.
  intros Hl Hx. destruct (pos_lookup p x Hl Hx) as (_ & E & _). destruct (node_at p x Hl Hx) as (nd & End & ? & ? & ?).
  exists nd. unfold na_Sub. rewrite E. cbn. split; [done |]. split_and!; try done. by rewrite (blk_aget _ _ _ End).
Qed.

(** Blocks are not empty, so there are at most as many as nodes. *)
Lemma blocks_bound p : layout p -> zlen (p_blocks p) <= n.
Proof.
  intros Hl. set (starts := pb_start <$> p_blocks p). assert (Hn : 0 <= n) by (destruct (ly_nodes _ Hl) as [<- _]; apply zlen_nonneg).
  assert (Hnd : NoDup starts).
  { apply NoDup_alt. intros i j z Hi Hj. unfold starts in Hi, Hj. rewrite list_lookup_fmap in Hi, Hj.
    destruct (p_blocks p !! i) as [B |] eqn:Ei; [| done]. destruct (p_blocks p !! j) as [B' |] eqn:Ej; [| done]. cbn in Hi, Hj. simplify_eq.
    assert (Gi : aget (p_blocks p) (Z.of_nat i) = Some B) by (unfold aget; by rewrite decide_True, Nat2Z.id by lia).
    assert (Gj : aget (p_blocks p) (Z.of_nat j) = Some B') by (unfold aget; by rewrite decide_True, Nat2Z.id by lia).
    destruct (ly_span _ Hl _ _ Gi) as (Hb & He & _). destruct (ly_span _ Hl _ _ Gj) as (Hb' & He' & _).
    destruct (at_pos p (pb_start B) Hl) as (x & _ & Vx & Ex); [unfold valid; lia |].
    pose proof (proj2 (ly_in _ Hl _ _ x Gi Vx)). pose proof (proj2 (ly_in _ Hl _ _ x Gj Vx)). lia. }
  assert (Hin : forall z, z ∈ starts -> z ∈ seqZ 0 n).
  { intros z (B & -> & (k & Hk)%list_elem_of_lookup)%list_elem_of_fmap. assert (G : aget (p_blocks p) (Z.of_nat k) = Some B) by (unfold aget; by rewrite decide_True, Nat2Z.id by lia).
    pose proof (ly_span _ Hl _ _ G). rewrite elem_of_seqZ. lia. }
  pose proof (submseteq_length _ _ (NoDup_submseteq _ _ Hnd Hin)) as Hle. unfold starts in Hle. rewrite length_fmap, length_seqZ in Hle. unfold zlen. lia.
Qed.

(** ** Marked nodes *)

(** The nodes of [M] are those behind the split index, but for blocks of one
    node; the blocks that have some are the ones to do. *)
Definition marking p (M : Z -> Prop) : Prop := forall b B, aget (p_blocks p) b = Some B ->
  (pb_start B = pb_end B -> pb_split B = pb_end B) /\
  (pb_start B <> pb_end B -> forall x, valid x -> blk p x = b -> pb_split B < pos p x <-> M x).

Definition todo_ok p : Prop :=
  NoDup (p_toDo p) /\ (forall b, b ∈ p_toDo p -> exists B, aget (p_blocks p) b = Some B /\ pb_split B < pb_end B) /\
  (forall b B, aget (p_blocks p) b = Some B -> pb_split B < pb_end B -> b ∈ p_toDo p).

Definition marked p (M : Z -> Prop) : Prop := layout p /\ todo_ok p /\ marking p M.

Lemma marked_iff p (M M' : Z -> Prop) : (forall x, valid x -> M x <-> M' x) -> marked p M -> marked p M'.
Proof.
  intros HM (? & ? & Hm). split; [done |]. split; [done |]. intros b B HB. destruct (Hm b B HB) as [H1 Hx]. split; [done |].
  intros Hne x Hv Hb. rewrite (Hx Hne x) by done. by apply HM.
Qed.

Definition resplit B B' : Prop := B' = PBlock.SetSplitIndex B (pb_split B').

(** What marking changes: only split indices and positions, the latter only in
    blocks outside [Q]. *)
Record frame (Q : Z -> Prop) p p' : Prop := {
  fr_nodes : p_nodes p' = p_nodes p;
  fr_blocks : Forall2 resplit (p_blocks p) (p_blocks p');
  fr_pos : forall x, valid x -> Q (blk p x) -> pos p' x = pos p x
}.

#[export] Instance resplit_preorder : PreOrder resplit.
Proof. split; [by intros [] | unfold resplit; intros B1 B2 B3 -> ->; done]. Qed.

Lemma resplit_fields B B' : resplit B B' -> pb_start B' = pb_start B /\ pb_end B' = pb_end B /\ pb_count B' = pb_count B /\ pb_incoming B' = pb_incoming B.
Proof. by intros ->. Qed.

Lemma frame_blk Q p p' x : frame Q p p' -> blk p' x = blk p x.
Proof. intros Hf. unfold blk. by rewrite (fr_nodes _ _ _ Hf). Qed.

Lemma frame_refl Q p : frame Q p p.
Proof. by split. Qed.

Lemma frame_trans Q p1 p2 p3 : frame Q p1 p2 -> frame Q p2 p3 -> frame Q p1 p3.
Proof.
  intros F1 F2. split.
  - by rewrite (fr_nodes _ _ _ F2), (fr_nodes _ _ _ F1).
  - etrans; [apply F1 | apply F2].
  - intros x Hx HQ. rewrite (fr_pos _ _ _ F2); [by apply F1 | done |]. by rewrite (frame_blk _ _ _ _ F1).
Qed.

Lemma frame_mono (Q Q' : Z -> Prop) p p' : (forall b, Q' b -> Q b) -> frame Q p p' -> frame Q' p p'.
Proof. intros HQ F. split; [apply F .. |]. intros x Hx Hq. apply F; auto. Qed.

Lemma Forall2_aget {A A'} (R : A -> A' -> Prop) l l' i a : Forall2 R l l' -> aget l i = Some a -> exists a', aget l' i = Some a' /\ R a a'.
Proof.
  unfold aget. intros HF. case_decide; [| done]. intros Hi. destruct (Forall2_lookup_l _ _ _ _ _ HF Hi) as (a' & ? & ?). by exists a'.
Qed.

Lemma frame_block Q p p' b B : frame Q p p' -> aget (p_blocks p) b = Some B -> exists B', aget (p_blocks p') b = Some B' /\ resplit B B'.
Proof. intros F HB. eapply Forall2_aget; [apply F | done]. Qed.

Lemma Forall2_insert_self {A} (R : A -> A -> Prop) (l : list A) (i : nat) a a' :
  Reflexive R -> l !! i = Some a -> R a a' -> Forall2 R l (<[i := a']> l).
Proof.
  intros HR Hi Ha. apply Forall2_same_length_lookup. split; [by rewrite length_insert |]. intros j u v Hx Hy.
  destruct (decide (i = j)) as [<- | Hne].
  - rewrite list_lookup_insert_eq in Hy by (by eapply lookup_lt_Some). by simplify_eq.
  - rewrite list_lookup_insert_ne in Hy by done. simplify_eq. done.
Qed.

(** Only the split index and the list of blocks to do differ. *)
Definition set_split p b B si toDo : Partition :=
  with_toDo toDo (with_blocks (<[Z.to_nat b := PBlock.SetSplitIndex B si]> (p_blocks p)) p).

Lemma set_split_get p b B si toDo b' : aget (p_blocks p) b = Some B ->
  aget (p_blocks (set_split p b B si toDo)) b' = if decide (b = b') then Some (PBlock.SetSplitIndex B si) else aget (p_blocks p) b'.
Proof.
  intros HB. pose proof (aget_Some_lt _ _ _ HB) as Hr. cbn [set_split with_toDo with_blocks p_blocks].
  assert (E : aset (p_blocks p) b (PBlock.SetSplitIndex B si) = Some (<[Z.to_nat b := PBlock.SetSplitIndex B si]> (p_blocks p))) by (by apply aset_Some).
  case_decide as Hd; [subst; by apply (aget_aset_eq _ _ _ _ E) | by apply (aget_aset_ne _ _ _ _ _ E)].
Qed.

Lemma set_split_layout p b B si toDo : layout p -> aget (p_blocks p) b = Some B -> pb_start B - 1 <= si <= pb_end B -> layout (set_split p b B si toDo).
Proof.
  intros Hl HB Hsi. split; [apply Hl .. | | |].
  - intros b' B'. rewrite set_split_get by done. case_decide as Hd; [| by apply Hl]. intros [= <-]. cbn. pose proof (ly_span _ Hl _ _ HB). lia.
  - intros x Hx. change (blk (set_split p b B si toDo) x) with (blk p x). destruct (ly_block _ Hl x Hx) as [B' HB'].
    rewrite set_split_get by done. case_decide; eauto.
  - intros b' B' x. rewrite set_split_get by done. intros HB' Hx. change (blk (set_split p b B si toDo) x) with (blk p x).
    change (pos (set_split p b B si toDo) x) with (pos p x). case_decide as Hd; [| by apply (ly_in _ Hl)].
    injection HB' as <-. subst b'. by apply (ly_in _ Hl b B).
Qed.

(** Swapping two positions of one block. *)
Lemma Swap_layout p b B i j :
  layout p -> aget (p_blocks p) b = Some B -> pb_start B <= i <= pb_end B -> pb_start B <= j <= pb_end B ->
  exists p', Swap p i j = Some p' /\ layout p' /\ p_nodes p' = p_nodes p /\ p_blocks p' = p_blocks p /\ p_toDo p' = p_toDo p /\
    forall x, valid x -> pos p' x = transpose i j (pos p x).
Proof.
  intros Hl HB Hi Hj. destruct (ly_span _ Hl _ _ HB) as (? & ? & _). destruct (ly_nodes _ Hl) as [Hlen Ho].
  destruct (swap_ok (p_nodes p) n (p_na p) (p_lua p) i j) as (a' & lua' & E & Ho' & _ & Hlua); [apply Hl | by apply nodes_num | done | lia | lia |].
  unfold Swap. rewrite E. cbn [mbind option_bind fst snd]. exists (with_na a' lua' p). split; [done |].
  assert (Hpos : forall x, valid x -> pos (with_na a' lua' p) x = transpose i j (pos p x)).
  { intros x Hx. apply pos_aget. cbn [with_na p_lua]. rewrite Hlua. destruct (pos_lookup p x Hl Hx) as (-> & _). done. }
  split; [| done]. split; [apply Hl | done | apply Hl | |].
  - intros x Hx. by apply (ly_block _ Hl x).
  - intros b' B' x HB' Hx. change (blk (with_na a' lua' p) x) with (blk p x). rewrite Hpos by done. cbn [with_na p_blocks] in HB'.
    rewrite (ly_in _ Hl b' B' x HB' Hx). destruct (decide (b = b')) as [<- | Hne].
    { simplify_eq. split; intros Hr; [by apply transpose_range |]. rewrite <- (transpose_involutive i j (pos p x)). by apply transpose_range. }
    assert (Hdis : forall k, pb_start B <= k <= pb_end B -> ~ (pb_start B' <= k <= pb_end B')).
    { intros k Hk Hk'. destruct (at_pos p k Hl) as (z & _ & Hz & Ez); [unfold valid; lia |]. apply Hne.
      transitivity (blk p z); [symmetry; apply (ly_in _ Hl b B z) | apply (ly_in _ Hl b' B' z)]; try done; by rewrite Ez. }
    unfold transpose. destruct (Z.eqb_spec (pos p x) i) as [-> |]; [split; intros Hr; exfalso; [by apply (Hdis i) | by apply (Hdis j)] |].
    destruct (Z.eqb_spec (pos p x) j) as [-> |]; [split; intros Hr; exfalso; [by apply (Hdis j) | by apply (Hdis i)] | done].
Qed.

(** ** Marking a node *)

Lemma layout_toDo p l : layout p -> layout (with_toDo l p).
Proof. intros Hl. split; apply Hl. Qed.

(** A mark of a node in front of the split index. *)
Lemma mark_node p b B x (M : Z -> Prop) :
  marked p M -> valid x -> blk p x = b -> aget (p_blocks p) b = Some B -> pb_start B <> pb_end B -> pos p x <= pb_split B ->
  exists p1, Swap (with_toDo (if pb_split B =? pb_end B then b :: p_toDo p else p_toDo p) p) (pb_split B) (pos p x) = Some p1 /\
    p_blocks p1 = p_blocks p /\
    let p' := set_split p1 b B (pb_split B - 1) (p_toDo p1) in marked p' (fun y => M y \/ y = x) /\ frame (fun b' => b' <> b) p p'.
Proof.
  intros (Hl & (Hnd & Ht1 & Ht2) & Hm) Hx Hb HB Hne Hpx. pose proof (ly_span _ Hl _ _ HB) as (Hse & Hen & Hsi).
  pose proof (proj1 (ly_in _ Hl b B x HB Hx) Hb) as Hpr. set (T := if _ =? _ then _ else _).
  destruct (Swap_layout (with_toDo T p) b B (pb_split B) (pos p x)) as (p1 & -> & Hl1 & En & Eb & Et & Hpos); [by apply layout_toDo | done | lia | done |].
  cbn [with_toDo p_nodes p_blocks p_toDo] in En, Eb, Et. exists p1. split; [done |]. split; [done |]. cbn zeta. rewrite <- Eb in HB.
  assert (Hblk : forall y, blk (set_split p1 b B (pb_split B - 1) (p_toDo p1)) y = blk p y).
  { intros y. unfold blk. cbn [set_split with_toDo with_blocks p_nodes]. by rewrite En. }
  assert (Hp : forall y, valid y -> pos (set_split p1 b B (pb_split B - 1) (p_toDo p1)) y = transpose (pb_split B) (pos p x) (pos p y)).
  { exact Hpos. }
  assert (HT : forall c, c ∈ T <-> c ∈ p_toDo p \/ c = b).
  { intros c. unfold T. destruct (Z.eqb_spec (pb_split B) (pb_end B)); [rewrite elem_of_cons; tauto |].
    split; [by left |]. intros [| ->]; [done |]. apply (Ht2 b B); [by rewrite <- Eb | lia]. }
  assert (HB0 : aget (p_blocks p) b = Some B) by (by rewrite <- Eb).
  split; [split; [| split; [split; [| split] |]] |].
  - apply set_split_layout; [done .. | lia].
  - cbn [set_split with_toDo p_toDo]. rewrite Et. unfold T. destruct (Z.eqb_spec (pb_split B) (pb_end B)); [| done]. constructor; [| done].
    intros Hin. destruct (Ht1 _ Hin) as (B' & HB' & ?). simplify_eq. lia.
  - intros c. cbn [set_split with_toDo p_toDo]. rewrite Et, HT. change (with_toDo ?l ?q) with (with_toDo l q). intros Hc.
    change (exists B0, aget (p_blocks (set_split p1 b B (pb_split B - 1) (p_toDo p1))) c = Some B0 /\ pb_split B0 < pb_end B0).
    rewrite set_split_get by done. case_decide as Hcb; [eexists; split; [done |]; cbn; lia |]. rewrite Eb.
    destruct Hc as [Hc | ->]; [by apply Ht1 | done].
  - intros c B'. rewrite set_split_get by done. cbn [set_split with_toDo p_toDo]. rewrite Et, HT. case_decide as Hcb; [by right |].
    rewrite Eb. intros HB' ?. left. by eapply Ht2.
  - intros c B'. rewrite set_split_get by done. case_decide as Hcb.
    + subst c. intros [= <-]. cbn [PBlock.SetSplitIndex pb_start pb_end pb_split]. split; [done |]. intros _ y Hy. rewrite Hblk. intros Hby.
      rewrite Hp by done. destruct (Hm b B HB0) as [_ Hmk]. specialize (Hmk Hne y Hy Hby).
      destruct (decide (y = x)) as [-> | Hyx]; [unfold transpose; case_match; [lia |]; rewrite Z.eqb_refl; lia |].
      assert (pos p y <> pos p x) by (intros E; by apply Hyx, (pos_inj p)).
      unfold transpose. destruct (Z.eqb_spec (pos p y) (pb_split B)); [split; [lia | intros [HM%Hmk |]; [lia | done]] |].
      destruct (Z.eqb_spec (pos p y) (pos p x)); [done |]. rewrite <- Hmk. lia.
    + rewrite Eb. intros HB'. destruct (Hm c B' HB') as [H1 Hmk]. split; [done |]. intros Hne' y Hy. rewrite Hblk. intros Hby.
      rewrite Hp by done. assert (Hout : ~ (pb_start B <= pos p y <= pb_end B)). { intros Hr. apply (ly_in _ Hl b B) in Hr; congruence. }
      rewrite transpose_other by lia. rewrite (Hmk Hne' y Hy Hby). split; [by left |]. intros [| ->]; [done | congruence].
  - split.
    + exact En.
    + cbn [set_split with_toDo with_blocks p_blocks]. rewrite Eb. apply Forall2_insert_self with (a := B); [apply _ | | done].
      unfold aget in HB0. by case_decide.
    + intros y Hy Hq. rewrite Hp by done. assert (Hout : ~ (pb_start B <= pos p y <= pb_end B)). { intros Hr. by apply Hq, (ly_in _ Hl b B). }
      rewrite transpose_other by lia. done.
Qed.

Lemma splitBlockAtNode_marked p b x (M : Z -> Prop) :
  marked p M -> valid x -> blk p x = b ->
  exists p', splitBlockAtNode p b x = Some p' /\ marked p' (fun y => M y \/ y = x) /\ frame (fun b' => b' <> b) p p'.
Proof.
  intros Hmk Hx Hb. pose proof Hmk as (Hl & Ht & Hm). destruct (ly_block _ Hl x Hx) as [B HB]. rewrite Hb in HB.
  unfold splitBlockAtNode. rewrite HB, (LookUp_pos p x Hl Hx). cbn [mbind option_bind].
  pose proof (ly_span _ Hl _ _ HB) as (Hse & Hen & Hsi). pose proof (proj1 (ly_in _ Hl b B x HB Hx) Hb) as Hpx.
  assert (Hsame : pb_start B <> pb_end B -> M x -> marked p (fun y => M y \/ y = x)).
  { intros _ HMx. eapply marked_iff; [| done]. intros y _. split; [by left |]. by intros [| ->]. }
  destruct (Z.eqb_spec (pb_end B - pb_start B) 0) as [Hone | Hmany].
  { exists p. split; [done |]. split; [| apply frame_refl]. split; [done |]. split; [done |]. intros b' B' HB'.
    destruct (Hm b' B' HB') as [H1 Hmk']. split; [done |]. intros Hne y Hy Hby. rewrite (Hmk' Hne y Hy Hby). split; [by left |].
    intros [| ->]; [done |]. replace b' with b in HB' by congruence. simplify_eq. lia. }
  rewrite (proj2 (Z.leb_le (pos p x) (pb_end B))), (proj2 (Z.leb_le (pb_split B) (pb_end B))) by lia. cbn [negb orb].
  destruct (Z.leb_spec (pos p x) (pb_split B)) as [Hle | Hgt].
  - destruct (mark_node p b B x M Hmk Hx Hb HB) as (p1 & E1 & Eb & Hmk1 & Hf); [lia | done |].
    assert (E : (if pb_split B =? pb_end B then with_toDo (b :: p_toDo p) p else p) = with_toDo (if pb_split B =? pb_end B then b :: p_toDo p else p_toDo p) p).
    { case_match; [done | by destruct p]. }
    rewrite E, E1. cbn [mbind option_bind]. rewrite Eb, aset_Some by (by eapply aget_Some_lt). cbn [mbind option_bind].
    eexists. split; [done |]. replace (with_blocks _ p1) with (set_split p1 b B (pb_split B - 1) (p_toDo p1)); [done |].
    unfold set_split. rewrite Eb. by destruct p1.
  - rewrite (proj2 (Z.eqb_neq _ _)) by lia. exists p. split; [done |]. split; [| apply frame_refl]. apply Hsame; [lia |].
    apply (Hm b B HB); [lia | done ..].
Qed.

(** ** Following the edges into a block *)

Hypothesis Hpr : forall x, valid x -> Forall (fun d : Z * Z => valid d.2) (pr x).

Lemma marked_layout p M : marked p M -> layout p.
Proof. by intros []. Qed.

Lemma follow_preds_marked p b e preds : Forall (fun d : Z * Z => valid d.2) preds -> forall own (M : Z -> Prop),
  marked p M -> exists p' own', follow_preds p b e preds own = Some (p', own') /\
    marked p' (fun y => M y \/ ((e, y) ∈ preds /\ blk p y <> b)) /\ frame (fun c => c = b) p p' /\
    (forall y, y ∈ own' <-> y ∈ own \/ ((e, y) ∈ preds /\ blk p y = b)).
Proof.
  induction preds as [| [e' x] preds IH]; intros HF own M Hmk.
  { exists p, own. split; [done |]. split; [| split; [apply frame_refl |]].
    - eapply marked_iff; [| done]. intros y _. split; [by left |]. intros [| [Hin _]]; [done | by apply not_elem_of_nil in Hin].
    - intros y. split; [by left |]. intros [| [Hin _]]; [done | by apply not_elem_of_nil in Hin]. }
  inversion_clear HF as [| ? ? Hx HF']. cbn in Hx. destruct (IH HF' own M Hmk) as (p1 & own1 & E & Hmk1 & Hf1 & Hown1). clear IH.
  cbn [follow_preds]. rewrite E. cbn [mbind option_bind]. destruct (Z.eqb_spec e' e) as [-> | Hne].
  - pose proof (marked_layout _ _ Hmk1) as Hl1. rewrite (LookUp_pos p1 x Hl1 Hx). cbn [mbind option_bind].
    destruct (na_Sub_pos p1 x Hl1 Hx) as (nd & -> & _ & _ & _ & Hnb). cbn [mbind option_bind]. rewrite Hnb, (frame_blk _ _ _ _ Hf1).
    destruct (Z.eqb_spec (blk p x) b) as [Hxb | Hxb].
    + exists p1, (x :: own1). split; [done |]. split; [| split; [done |]].
      * eapply marked_iff; [| exact Hmk1]. intros y _. rewrite elem_of_cons. split; [tauto |]. intros [| [[[= ->] |] ?]]; tauto.
      * intros y. rewrite !elem_of_cons, Hown1. split; [intros [-> |]; tauto |]. intros [| [[[= ->] |] ?]]; tauto.
    + destruct (splitBlockAtNode_marked p1 (blk p x) x _ Hmk1 Hx) as (p2 & -> & Hmk2 & Hf2); [apply (frame_blk _ _ _ _ Hf1) |]. cbn [mbind option_bind].
      exists p2, own1. split; [done |]. split; [| split].
      * eapply marked_iff; [| exact Hmk2]. intros y _. rewrite elem_of_cons. split; [intros [| ->]; tauto |]. intros [| [[[= ->] |] ?]]; tauto.
      * eapply frame_trans; [done |]. eapply frame_mono; [| done]. cbn. congruence.
      * intros y. rewrite elem_of_cons, Hown1. split; [tauto |]. intros [| [[[= ->] |] ?]]; tauto.
  - exists p1, own1. split; [done |]. split; [| split; [done |]].
    + eapply marked_iff; [| exact Hmk1]. intros y _. rewrite elem_of_cons. split; [tauto |]. intros [| [[[= ->] |] ?]]; tauto.
    + intros y. rewrite elem_of_cons, Hown1. split; [tauto |]. intros [| [[[= ->] |] ?]]; tauto.
Qed.

(** The nodes with an [e]-child at one of the positions [ix]. *)
Definition parents p (ix : list Z) e y : Prop := exists i x, i ∈ ix /\ aget (p_na p) i = Some x /\ (e, y) ∈ pr x.

Lemma frame_at Q p p' i x : layout p -> layout p' -> frame Q p p' -> valid i -> aget (p_na p) i = Some x -> Q (blk p x) -> aget (p_na p') i = Some x.
Proof.
  intros Hl Hl' Hf Hi Hx Hq. destruct (at_pos p i Hl Hi) as (x' & E & Hv & Hp). replace x' with x in * by congruence.
  destruct (pos_lookup p' x Hl' Hv) as (_ & E' & _). by rewrite (fr_pos _ _ _ Hf), Hp in E'.
Qed.

Lemma follow_nodes_marked b e ix : forall p own (M : Z -> Prop),
  marked p M -> (forall i, i ∈ ix -> valid i /\ forall x, aget (p_na p) i = Some x -> blk p x = b) ->
  exists p' own', follow_nodes p b e ix own = Some (p', own') /\
    marked p' (fun y => M y \/ (parents p ix e y /\ blk p y <> b)) /\ frame (fun c => c = b) p p' /\
    (forall y, y ∈ own' <-> y ∈ own \/ (parents p ix e y /\ blk p y = b)).
Proof.
  induction ix as [| i ix IH]; intros p own M Hmk Hix.
  { exists p, own. split; [done |]. assert (Hnil : forall y, ~ parents p [] e y). { intros y (i & x & Hi & _). by apply not_elem_of_nil in Hi. }
    split; [| split; [apply frame_refl |]].
    - eapply marked_iff; [| done]. intros y _. specialize (Hnil y). tauto.
    - intros y. specialize (Hnil y). tauto. }
  pose proof (marked_layout _ _ Hmk) as Hl. destruct (Hix i (list_elem_of_here _ _)) as [Hi Hib].
  destruct (at_pos p i Hl Hi) as (x & Ex & Hx & Hpx). destruct (na_Sub_pos p x Hl Hx) as (nd & End & Hpd & _). rewrite Hpx in End.
  cbn [follow_nodes]. rewrite End. cbn [mbind option_bind]. rewrite Hpd.
  destruct (follow_preds_marked p b e (pr x) (Hpr x Hx) own M Hmk) as (p1 & own1 & -> & Hmk1 & Hf1 & Hown1). cbn [mbind option_bind fst snd].
  pose proof (marked_layout _ _ Hmk1) as Hl1.
  assert (Hsame : forall j y, j ∈ ix -> aget (p_na p1) j = Some y <-> aget (p_na p) j = Some y).
  { intros j y Hj. destruct (Hix j (list_elem_of_further _ _ _ Hj)) as [Hjv Hjb]. destruct (at_pos p j Hl Hjv) as (z & Ez & _).
    pose proof (frame_at _ p p1 j z Hl Hl1 Hf1 Hjv Ez (Hjb z Ez)). split; congruence. }
  destruct (IH p1 own1 _ Hmk1) as (p2 & own2 & -> & Hmk2 & Hf2 & Hown2).
  { intros j Hj. destruct (Hix j (list_elem_of_further _ _ _ Hj)) as [Hjv Hjb]. split; [done |]. intros y Hy%Hsame; [| done].
    rewrite (frame_blk _ _ _ _ Hf1). by apply Hjb. }
  assert (Hpar : forall y, parents p (i :: ix) e y <-> (e, y) ∈ pr x \/ parents p1 ix e y).
  { intros y. split.
    - intros (j & z & [-> | Hj]%elem_of_cons & Ez & Hin); [left; congruence |]. right. exists j, z. by rewrite Hsame.
    - intros [Hin | (j & z & Hj & Ez & Hin)]; [exists i, x; by rewrite elem_of_cons; auto |]. exists j, z. rewrite elem_of_cons. split; [by right |]. by rewrite <- Hsame. }
  exists p2, own2. split; [done |]. split; [| split; [by eapply frame_trans |]].
  - eapply marked_iff; [| exact Hmk2]. intros y _. rewrite Hpar, (frame_blk _ _ _ _ Hf1). tauto.
  - intros y. rewrite Hown2, Hown1, Hpar, (frame_blk _ _ _ _ Hf1). tauto.
Qed.

Lemma split_all_marked b ys : forall p (M : Z -> Prop),
  marked p M -> (forall y, y ∈ ys -> valid y /\ blk p y = b) ->
  exists p', split_all p b ys = Some p' /\ marked p' (fun y => M y \/ y ∈ ys) /\ frame (fun _ => False) p p'.
Proof.
  induction ys as [| y ys IH]; intros p M Hmk Hys.
  { exists p. split; [done |]. split; [| apply frame_refl]. eapply marked_iff; [| done]. intros y _. split; [by left |].
    intros [| Hin]; [done | by apply not_elem_of_nil in Hin]. }
  destruct (Hys y (list_elem_of_here _ _)) as [Hy Hyb].
  destruct (splitBlockAtNode_marked p b y M Hmk Hy Hyb) as (p1 & E & Hmk1 & Hf1). cbn [split_all]. rewrite E. cbn [mbind option_bind].
  destruct (IH p1 _ Hmk1) as (p2 & -> & Hmk2 & Hf2).
  { intros z Hz. rewrite (frame_blk _ _ _ _ Hf1). by apply Hys, list_elem_of_further. }
  exists p2. split; [done |]. split.
  - eapply marked_iff; [| exact Hmk2]. intros z _. rewrite elem_of_cons. tauto.
  - eapply frame_trans; [eapply frame_mono; [| exact Hf1] | exact Hf2]. done.
Qed.

(** The nodes with an [e]-child in block [b]. *)
Definition pre p b e y : Prop := exists x, valid x /\ blk p x = b /\ (e, y) ∈ pr x.

Lemma FollowBack_marked p b B e :
  marked p (fun _ => False) -> aget (p_blocks p) b = Some B ->
  exists p', FollowBack p b e = Some p' /\ marked p' (pre p b e) /\ frame (fun _ => False) p p'.
Proof.
  intros Hmk HB. pose proof (marked_layout _ _ Hmk) as Hl. pose proof (ly_span _ Hl _ _ HB) as (Hse & Hen & _).
  unfold FollowBack. rewrite HB. cbn [mbind option_bind]. set (ix := range _ _).
  assert (Hin : forall i, i ∈ ix <-> pb_start B <= i <= pb_end B). { intros i. unfold ix, range. rewrite elem_of_seqZ. lia. }
  destruct (follow_nodes_marked b e ix p [] _ Hmk) as (p1 & own & -> & Hmk1 & Hf1 & Hown).
  { intros i Hi%Hin. split; [unfold valid; lia |]. intros x Hx. destruct (at_pos p i Hl) as (x' & E & Hv & Hp); [unfold valid; lia |].
    replace x' with x in * by congruence. apply (ly_in _ Hl b B x HB Hv). lia. }
  cbn [mbind option_bind fst snd].
  assert (Hpar : forall y, parents p ix e y <-> pre p b e y).
  { intros y. split.
    - intros (i & x & Hi%Hin & Ex & Hy). destruct (at_pos p i Hl) as (x' & E & Hv & Hp); [unfold valid; lia |]. replace x' with x in * by congruence.
      exists x. split; [done |]. split; [| done]. apply (ly_in _ Hl b B x HB Hv). lia.
    - intros (x & Hx & Hb & Hy). exists (pos p x), x. rewrite Hin. split; [by apply (ly_in _ Hl b B x HB Hx) |]. split; [| done].
      by destruct (pos_lookup p x Hl Hx) as (_ & ? & _). }
  destruct (split_all_marked b own p1 _ Hmk1) as (p2 & -> & Hmk2 & Hf2).
  { intros y [Hnil | [(i & x & _ & Ex & Hy) Hb]]%Hown; [by apply not_elem_of_nil in Hnil |]. rewrite (frame_blk _ _ _ _ Hf1). split; [| done].
    assert (Hx : valid x). { pose proof (ao_lua _ _ _ (ly_arr _ Hl) _ _ Ex) as Hr%aget_Some_lt. rewrite (ao_lua_len _ _ _ (ly_arr _ Hl)) in Hr. done. }
    by apply (proj1 (Forall_forall _ _) (Hpr x Hx) (e, y)). }
  exists p2. split; [done |]. split.
  - eapply marked_iff; [| exact Hmk2]. intros y _. cbn beta. rewrite Hown, Hpar. pose proof (not_elem_of_nil y). destruct (decide (blk p y = b)); tauto.
  - eapply frame_trans; [eapply frame_mono; [| exact Hf1] | exact Hf2]. done.
Qed.
End Layout.
