(* ===== verification/MinimizerSplit.v ===== *)
(** * The minimizer: splitting the marked blocks (Partition::DoSplits)

    A block is divided at its split index; the counters of incoming edges stay
    exact, and for every edge the agenda gets what Hopcroft's algorithm needs. *)

From S2P Require Import Prelude Config HeaderOp AliceData Minimizer MinimizerSort MinimizerBlock MinimizerLayout.

Implicit Types (p : Partition) (B : PBlock) (b e x y i : Z).

(** ** Choosing the blocks for the agenda *)

(** The changes to the two halves of a block and to the agenda while the edges
    [l] are considered. *)
Record chosen (b nw : Z) (l : list Z) (pb nb : PBlock) (q : list Z) (pb' nb' : PBlock) (q' : list Z) : Prop := {
  ch_span : same_span pb pb' /\ same_span nb nb';
  ch_wf : bwf pb -> bwf nb -> bwf pb' /\ bwf nb';
  ch_size : zlen (pb_incoming pb') = zlen (pb_incoming pb) /\ zlen (pb_incoming nb') = zlen (pb_incoming nb);
  ch_inc : forall e, 0 <= e -> inc pb' e = inc pb e /\ inc nb' e = inc nb e;
  ch_mono : forall e, 0 <= e -> (mark pb e = true -> mark pb' e = true) /\ (mark nb e = true -> mark nb' e = true);
  ch_edge : forall e, e ∈ l -> 0 < inc nb e -> mark nb' e = true \/ (mark pb e = false /\ 0 < inc pb e /\ mark pb' e = true);
  ch_q : forall c, c ∈ q' -> c ∈ q \/ c = b \/ c = nw;
  ch_q_mono : forall c, c ∈ q -> c ∈ q';
  ch_agenda : (PBlock.IsOnAgenda pb' = true -> PBlock.IsOnAgenda pb = true \/ b ∈ q') /\
              (PBlock.IsOnAgenda nb' = true -> PBlock.IsOnAgenda nb = true \/ nw ∈ q');
  ch_potential : nmarks (pb_incoming pb') + nmarks (pb_incoming nb') + zlen q' <= nmarks (pb_incoming pb) + nmarks (pb_incoming nb) + zlen q + 2 * zlen l
}.

Lemma chosen_refl b nw e pb nb q :
  (0 < inc nb e -> mark nb e = true) -> chosen b nw [e] pb nb q pb nb q.
Proof.
  intros He. split; auto.
  - by split.
  - intros e' ->%list_elem_of_singleton Hi. left. auto.
  - unfold zlen. cbn. lia.
Qed.

Lemma chosen_trans b nw l l' pb nb q pb1 nb1 q1 pb2 nb2 q2 :
  Forall (fun e => 0 <= e) l -> Forall (fun e => 0 <= e) l' ->
  chosen b nw l pb nb q pb1 nb1 q1 -> chosen b nw l' pb1 nb1 q1 pb2 nb2 q2 -> chosen b nw (l ++ l') pb nb q pb2 nb2 q2.
Proof.
  intros Hl Hl' C1 C2. split.
  - destruct (ch_span _ _ _ _ _ _ _ _ _ C1), (ch_span _ _ _ _ _ _ _ _ _ C2). split; by etrans.
  - intros ??. destruct (ch_wf _ _ _ _ _ _ _ _ _ C1); [done .. |]. by apply (ch_wf _ _ _ _ _ _ _ _ _ C2).
  - destruct (ch_size _ _ _ _ _ _ _ _ _ C1), (ch_size _ _ _ _ _ _ _ _ _ C2). split; congruence.
  - intros e He. destruct (ch_inc _ _ _ _ _ _ _ _ _ C1 e He), (ch_inc _ _ _ _ _ _ _ _ _ C2 e He). split; congruence.
  - intros e He. destruct (ch_mono _ _ _ _ _ _ _ _ _ C1 e He), (ch_mono _ _ _ _ _ _ _ _ _ C2 e He). auto.
  - intros e Hin Hn. assert (He : 0 <= e). { rewrite Forall_forall in Hl, Hl'. apply elem_of_app in Hin as [?|?]; auto. }
    destruct (ch_inc _ _ _ _ _ _ _ _ _ C1 e He) as [Ip In], (ch_mono _ _ _ _ _ _ _ _ _ C1 e He) as [Mp _], (ch_mono _ _ _ _ _ _ _ _ _ C2 e He) as [Mp2 Mn2].
    apply elem_of_app in Hin as [Hin | Hin].
    + destruct (ch_edge _ _ _ _ _ _ _ _ _ C1 e Hin Hn) as [| (? & ? & ?)]; auto 6.
    + destruct (ch_edge _ _ _ _ _ _ _ _ _ C2 e Hin) as [| (Hm & Hp & ?)]; [congruence | by left |]. right. split_and!; [| congruence | done].
      destruct (mark pb e); [| done]. by rewrite Mp in Hm.
  - intros c [[?|?]%(ch_q _ _ _ _ _ _ _ _ _ C1) | ?]%(ch_q _ _ _ _ _ _ _ _ _ C2); auto.
  - intros c Hc. by apply (ch_q_mono _ _ _ _ _ _ _ _ _ C2), (ch_q_mono _ _ _ _ _ _ _ _ _ C1).
  - destruct (ch_agenda _ _ _ _ _ _ _ _ _ C1) as [A1 A2], (ch_agenda _ _ _ _ _ _ _ _ _ C2) as [A3 A4].
    pose proof (ch_q_mono _ _ _ _ _ _ _ _ _ C2 b). pose proof (ch_q_mono _ _ _ _ _ _ _ _ _ C2 nw). tauto.
  - pose proof (ch_potential _ _ _ _ _ _ _ _ _ C1). pose proof (ch_potential _ _ _ _ _ _ _ _ _ C2). rewrite zlen_app. lia.
Qed.

(** Marking one of the halves with an edge. *)
Lemma chosen_mark_new b nw e pb nb q : 0 <= e -> 0 < inc nb e ->
  chosen b nw [e] pb nb q pb (PBlock.PutOnAgenda nb e) (if PBlock.IsOnAgenda nb then q else nw :: q).
Proof.
  intros He Hp. destruct (PutOnAgenda_spec nb e He) as [Os Ow Oi Om Oo _ Oe On]. rewrite (proj2 (Z.ltb_lt _ _) Hp) in Om, On. split.
  - by split.
  - auto.
  - auto.
  - intros e' He'. split; [done |]. destruct (decide (e' = e)) as [-> | Hne]; [done | by apply Oo].
  - intros e' He'. split; [done |]. destruct (decide (e' = e)) as [-> | Hne]; [done | by destruct (Oo e' He' Hne) as [_ ->]].
  - intros e' ->%list_elem_of_singleton _. by left.
  - intros c. destruct (PBlock.IsOnAgenda nb); [auto |]. rewrite elem_of_cons. tauto.
  - intros c. destruct (PBlock.IsOnAgenda nb); [auto |]. rewrite elem_of_cons. tauto.
  - split; [auto |]. intros _. destruct (PBlock.IsOnAgenda nb); [by left | right; apply list_elem_of_here].
  - rewrite On. unfold zlen. cbn. destruct (PBlock.IsOnAgenda nb), (mark nb e); cbn; lia.
Qed.

Lemma chosen_mark_old b nw e pb nb q : 0 <= e -> 0 < inc pb e -> mark pb e = false ->
  chosen b nw [e] pb nb q (PBlock.PutOnAgenda pb e) nb (if PBlock.IsOnAgenda pb then q else b :: q).
Proof.
  intros He Hp Hm. destruct (PutOnAgenda_spec pb e He) as [Os Ow Oi Om Oo _ Oe On]. rewrite (proj2 (Z.ltb_lt _ _) Hp) in Om, On. split.
  - by split.
  - auto.
  - auto.
  - intros e' He'. split; [| done]. destruct (decide (e' = e)) as [-> | Hne]; [done | by apply Oo].
  - intros e' He'. split; [| done]. destruct (decide (e' = e)) as [-> | Hne]; [done | by destruct (Oo e' He' Hne) as [_ ->]].
  - intros e' ->%list_elem_of_singleton _. by right.
  - intros c. destruct (PBlock.IsOnAgenda pb); [auto |]. rewrite elem_of_cons. tauto.
  - intros c. destruct (PBlock.IsOnAgenda pb); [auto |]. rewrite elem_of_cons. tauto.
  - split; [| auto]. intros _. destruct (PBlock.IsOnAgenda pb); [by left | right; apply list_elem_of_here].
  - rewrite On. unfold zlen. cbn. destruct (PBlock.IsOnAgenda pb), (mark pb e); cbn; lia.
Qed.

Lemma choose_edge_chosen b nw e pb nb q : 0 <= e ->
  exists pb' nb' q', choose_edge b nw e (pb, nb, q) = (pb', nb', q') /\ chosen b nw [e] pb nb q pb' nb' q'.
Proof.
  intros He. pose proof (inc_nonneg pb e). pose proof (inc_nonneg nb e). unfold choose_edge.
  fold (mark pb e) (inc pb e) (inc nb e). destruct (mark pb e) eqn:Em.
  { destruct (Z.ltb_spec 0 (inc nb e)); eexists _, _, _; (split; [done |]); [by apply chosen_mark_new | apply chosen_refl; lia]. }
  destruct (Z.ltb_spec (inc pb e) (inc nb e)), (Z.eqb_spec (inc pb e) 0), (Z.eqb_spec (inc nb e) 0); cbn [andb negb];
    eexists _, _, _; (split; [done |]);
    first [apply chosen_refl; lia | apply chosen_mark_new; lia | apply chosen_mark_old; [lia .. | done]].
Qed.

Lemma choose_edges_chosen b nw l : Forall (fun e => 0 <= e) l -> forall e0 pb nb q, 0 <= e0 ->
  exists pb' nb' q', foldl (fun s e => choose_edge b nw e s) (pb, nb, q) (e0 :: l) = (pb', nb', q') /\ chosen b nw (e0 :: l) pb nb q pb' nb' q'.
Proof.
  induction 1 as [| e l He Hl IH]; intros e0 pb nb q He0.
  { cbn [foldl]. by apply choose_edge_chosen. }
  destruct (choose_edge_chosen b nw e0 pb nb q He0) as (pb1 & nb1 & q1 & E1 & C1).
  change (foldl ?f ?a (e0 :: e :: l)) with (foldl f (f a e0) (e :: l)). cbn beta. rewrite E1.
  destruct (IH e pb1 nb1 q1 He) as (pb2 & nb2 & q2 & -> & C2). exists pb2, nb2, q2. split; [done |].
  apply (chosen_trans b nw [e0] (e :: l) pb nb q pb1 nb1 q1); [by constructor | by constructor | done ..].
Qed.

(** ** Moving nodes to the new block *)

(** The number of nodes of block [b] that are entered by [e], with their
    multiplicities. *)
Definition contrib (nd : PNode) b e : Z := if pn_block nd =? b then occ (pn_preds nd) e else 0.
Fixpoint weight (nodes : list PNode) b e : Z := match nodes with [] => 0 | nd :: nodes => contrib nd b e + weight nodes b e end.

Lemma contrib_nonneg nd b e : 0 <= contrib nd b e.
Proof. unfold contrib. case_match; [apply occ_nonneg | done]. Qed.

Lemma weight_ge_0 nodes b e : 0 <= weight nodes b e.
Proof. induction nodes as [| nd nodes IH]; cbn; [done |]. pose proof (contrib_nonneg nd b e). lia. Qed.

Lemma weight_ge nodes x nd b e : aget nodes x = Some nd -> contrib nd b e <= weight nodes b e.
Proof.
  unfold aget. case_decide; [| done]. generalize (Z.to_nat x). clear. induction nodes as [| nd' nodes IH]; intros [| k]; cbn; try done.
  - intros [= ->]. pose proof (weight_ge_0 nodes b e). lia.
  - intros Hk. pose proof (IH _ Hk). pose proof (contrib_nonneg nd' b e). lia.
Qed.

Lemma weight_set nodes x nd nd' nodes' b e : aget nodes x = Some nd -> aset nodes x nd' = Some nodes' ->
  weight nodes' b e = weight nodes b e - contrib nd b e + contrib nd' b e.
Proof.
  intros Hx [Hr ->]%aset_inv. unfold aget in Hx. rewrite decide_True in Hx by lia. revert Hx. generalize (Z.to_nat x). clear.
  induction nodes as [| d nodes IH]; intros [| k] Hk; try done.
  - injection Hk as ->. change (<[0%nat := nd']> (nd :: nodes)) with (nd' :: nodes). cbn [weight]. lia.
  - change (<[S k := nd']> (d :: nodes)) with (d :: <[k := nd']> nodes). cbn [weight]. rewrite (IH k) by done. lia.
Qed.

Lemma weight_none nodes b e : (forall x nd, aget nodes x = Some nd -> pn_block nd <> b) -> weight nodes b e = 0.
Proof.
  intros Hb. assert (Hno : forall nd, nd ∈ nodes -> pn_block nd <> b).
  { intros nd [k Hk]%list_elem_of_lookup. apply (Hb (Z.of_nat k)). unfold aget. by rewrite decide_True, Nat2Z.id by lia. }
  clear Hb. induction nodes as [| nd nodes IH]; cbn; [done |].
  rewrite IH by (intros; apply Hno; by right). unfold contrib. rewrite (proj2 (Z.eqb_neq _ _)); [done |]. apply Hno. by left.
Qed.

Section Split.
Variables (n W : Z) (pr : Z -> list (Z * Z)) (wd : Z -> word).
Hypothesis Hpr : forall x, valid n x -> Forall (fun d : Z * Z => valid n d.2) (pr x).
Hypothesis HW : forall x, valid n x -> edges_in W (pr x).

(** A block with exact counters. *)
Definition counted (nodes : list PNode) b B : Prop := bwf B /\ zlen (pb_incoming B) <= W /\ forall e, 0 <= e -> inc B e = weight nodes b e.

Lemma ChangeBlock_ok nodes x nd b nw pb nb :
  nodes_ok n pr wd nodes -> valid n x -> aget nodes x = Some nd -> pn_block nd = b -> nw <> b -> counted nodes b pb -> counted nodes nw nb ->
  let '(nd', pb', nb') := PNode.ChangeBlock nd pb nb nw in
  exists nodes', aset nodes x nd' = Some nodes' /\ nodes_ok n pr wd nodes' /\
    (forall y, match aget nodes' y with Some d => pn_block d | None => -1 end = if decide (y = x) then nw else match aget nodes y with Some d => pn_block d | None => -1 end) /\
    (forall c e, c <> b -> c <> nw -> weight nodes' c e = weight nodes c e) /\
    (forall e, weight nodes' b e + weight nodes' nw e = weight nodes b e + weight nodes nw e) /\
    counted nodes' b pb' /\ counted nodes' nw nb' /\ same_span pb pb' /\ same_span nb nb' /\
    zlen (pb_incoming pb') = zlen (pb_incoming pb) /\ nmarks (pb_incoming pb') <= nmarks (pb_incoming pb) /\
    (forall e, 0 <= e -> mark pb' e = mark pb e && (0 <? inc pb' e) /\ mark nb' e = mark nb e /\ inc pb' e <= inc pb e).
Proof.
  intros [Hlen Ho] Hx Hnd Hb Hne (Pw & Ps & Pi) (Nw & Ns & Ni). unfold PNode.ChangeBlock. destruct (Ho x nd Hnd) as (Hnum & Hpd & Hwd). rewrite Hpd.
  assert (Hge : forall e, 0 <= e -> occ (pr x) e <= inc pb e).
  { intros e He. rewrite Pi by done. pose proof (weight_ge nodes x nd b e Hnd) as Hg. unfold contrib in Hg. by rewrite Hb, Z.eqb_refl, Hpd in Hg. }
  destruct (decrement_all W (pr x) pb (HW x Hx) Hge) as (Ds & Dw & Dz & Dn & Di).
  destruct (increment_all W (pr x) nb (HW x Hx)) as (Is & Iw & Iz & Ii).
  destruct (aset nodes x (PNode.set_block nd nw)) as [nodes' |] eqn:E; [| rewrite aset_Some in E by (by eapply aget_Some_lt); done].
  assert (Hw : forall c e, weight nodes' c e = weight nodes c e - (if b =? c then occ (pr x) e else 0) + (if nw =? c then occ (pr x) e else 0)).
  { intros c e. rewrite (weight_set _ _ _ _ _ c e Hnd E). unfold contrib. cbn [PNode.set_block pn_block pn_preds]. by rewrite Hb, Hpd. }
  exists nodes'. split; [done |]. split; [split; [rewrite (aset_zlen _ _ _ _ E); done |] |].
  { intros y d Hy. destruct (decide (x = y)) as [<- | Hxy]; [rewrite (aget_aset_eq _ _ _ _ E) in Hy; by injection Hy as <- |].
    rewrite (aget_aset_ne _ _ _ _ _ E) in Hy by done. by apply Ho. }
  split. { intros y. case_decide as Hd; [subst y; by rewrite (aget_aset_eq _ _ _ _ E) | by rewrite (aget_aset_ne _ _ _ _ _ E)]. }
  split. { intros c e Hc1 Hc2. rewrite Hw. rewrite (proj2 (Z.eqb_neq b c)), (proj2 (Z.eqb_neq nw c)) by done. lia. }
  split. { intros e. rewrite !Hw, !Z.eqb_refl, (proj2 (Z.eqb_neq nw b)), (proj2 (Z.eqb_neq b nw)) by done. lia. }
  split. { split; [auto |]. split; [lia |]. intros e He. destruct (Di e He) as [-> _]. rewrite Hw, Z.eqb_refl, (proj2 (Z.eqb_neq nw b)), Pi by done. lia. }
  split. { split; [auto |]. split; [auto |]. intros e He. destruct (Ii e He) as [-> _]. rewrite Hw, Z.eqb_refl, (proj2 (Z.eqb_neq b nw)), Ni by done. lia. }
  split; [done |]. split; [done |]. split; [done |]. split; [done |]. intros e He. pose proof (occ_nonneg (pr x) e). destruct (Di e He) as [Ei Em]. split; [done |]. split; [by apply Ii | lia].
Qed.

Lemma change_blocks_ok b nw ix : nw <> b -> forall p pb nb,
  nodes_ok n pr wd (p_nodes p) -> arr_ok n (p_na p) (p_lua p) -> counted (p_nodes p) b pb -> counted (p_nodes p) nw nb -> NoDup ix ->
  (forall i, i ∈ ix -> valid n i /\ forall x, aget (p_na p) i = Some x -> blk p x = b) ->
  exists nodes' pb' nb', change_blocks p ix pb nb nw = Some (with_nodes nodes' p, pb', nb') /\ nodes_ok n pr wd nodes' /\
    (forall x, valid n x -> blk (with_nodes nodes' p) x = if decide (pos p x ∈ ix) then nw else blk p x) /\
    (forall c e, c <> b -> c <> nw -> weight nodes' c e = weight (p_nodes p) c e) /\
    (forall e, weight nodes' b e + weight nodes' nw e = weight (p_nodes p) b e + weight (p_nodes p) nw e) /\
    counted nodes' b pb' /\ counted nodes' nw nb' /\ same_span pb pb' /\ same_span nb nb' /\
    zlen (pb_incoming pb') = zlen (pb_incoming pb) /\ nmarks (pb_incoming pb') <= nmarks (pb_incoming pb) /\
    (forall e, 0 <= e -> mark pb' e = mark pb e && (0 <? inc pb' e) /\ mark nb' e = mark nb e /\ inc pb' e <= inc pb e).
Proof.
  intros Hne. induction ix as [| i ix IH]; intros p pb nb Hn Ha Hpb Hnb Hnd Hix.
  { exists (p_nodes p), pb, nb. cbn [change_blocks]. split; [by destruct p |]. split; [done |]. split_and!; try done.
    intros e He. split; [| by split]. destruct (mark pb e) eqn:Em; [| done]. apply mark_inc in Em. by rewrite (proj2 (Z.ltb_lt _ _)). }
  inversion_clear Hnd as [| ? ? Hnin Hnd']. destruct (Hix i (list_elem_of_here _ _)) as [Hi Hib].
  destruct (arr_ok_get _ _ _ i Ha Hi) as (x & Ex & Hx). destruct (aget_is_Some (p_nodes p) x) as [nd End]; [rewrite (proj1 Hn); done |].
  cbn [change_blocks]. rewrite Ex. cbn [mbind option_bind]. rewrite End. cbn [mbind option_bind].
  assert (Hnb' : pn_block nd = b) by (rewrite <- (blk_aget _ _ _ End); by apply Hib).
  pose proof (ChangeBlock_ok (p_nodes p) x nd b nw pb nb Hn Hx End Hnb' Hne Hpb Hnb) as Hc.
  destruct (PNode.ChangeBlock nd pb nb nw) as [[nd' pb1] nb1]. destruct Hc as (nodes1 & -> & Hn1 & Hb1 & Hw1 & Hs1 & Hpb1 & Hnb1 & Sp1 & Sn1 & Z1 & N1 & M1).
  cbn [mbind option_bind].
  assert (Hblk : forall y, blk (with_nodes nodes1 p) y = if decide (y = x) then nw else blk p y). { exact Hb1. }
  assert (Hpos : forall y, valid n y -> pos p y = i <-> y = x).
  { intros y Hy. destruct (arr_ok_lookup _ _ _ y Ha Hy) as (j & Ej & _). rewrite (pos_aget _ _ _ Ej). pose proof (ao_a _ _ _ Ha _ _ Ej).
    pose proof (ao_lua _ _ _ Ha _ _ Ex). split; congruence. }
  destruct (IH (with_nodes nodes1 p) pb1 nb1) as (nodes' & pb' & nb' & -> & Hn' & Hb' & Hw' & Hs' & Hpb' & Hnb2 & Sp & Sn & Zp & Np & Mp); try done.
  { intros j Hj. destruct (Hix j (list_elem_of_further _ _ _ Hj)) as [Hjv Hjb]. split; [done |]. intros y Hy. rewrite Hblk. cbn [with_nodes p_na] in Hy.
    rewrite decide_False; [by apply Hjb |]. intros ->. apply Hnin. pose proof (ao_lua _ _ _ Ha _ _ Hy). pose proof (ao_lua _ _ _ Ha _ _ Ex). congruence. }
  exists nodes', pb', nb'. split; [done |]. split; [done |]. split.
  { intros y Hy. change (with_nodes nodes' p) with (with_nodes nodes' (with_nodes nodes1 p)). rewrite (Hb' y Hy), Hblk.
    change (pos (with_nodes nodes1 p) y) with (pos p y). destruct (decide (y = x)) as [-> | Hyx].
    - rewrite (decide_True (P := pos p x ∈ i :: ix)); [by case_decide |]. rewrite (proj2 (Hpos x Hx)) by done. apply list_elem_of_here.
    - assert (pos p y <> i) by (by rewrite Hpos). destruct (decide (pos p y ∈ ix)); [rewrite decide_True; [done |] | rewrite decide_False; [done |]];
        rewrite elem_of_cons; tauto. }
  split. { intros c e Hc1 Hc2. rewrite Hw' by done. by apply Hw1. }
  split. { intros e. rewrite Hs'. apply Hs1. }
  split; [done |]. split; [done |]. split; [by etrans |]. split; [by etrans |]. split; [congruence |]. split; [lia |].
  intros e He. destruct (Mp e He) as (-> & -> & Hle), (M1 e He) as (-> & -> & Hle1). split; [| split; [done | lia]].
  rewrite <- andb_assoc. f_equal. destruct (Z.ltb_spec 0 (inc pb' e)), (Z.ltb_spec 0 (inc pb1 e)); try done; lia.
Qed.

(** ** Refining a partition *)

(** The block of [x] is on the agenda with edge [e]. *)
Definition markb p b e : Prop := exists B, aget (p_blocks p) b = Some B /\ mark B e = true.

(** What Hopcroft's invariant needs of a refinement: blocks are only divided, an
    entry of the agenda becomes an entry for every part that has an edge, and
    of two parts with an edge at least one is on the agenda. *)
Record refines p p' : Prop := {
  rf_blk : forall x y, valid n x -> valid n y -> blk p' x = blk p' y -> blk p x = blk p y;
  rf_mark : forall e c x, valid n c -> 0 <= e -> (e, x) ∈ pr c -> markb p (blk p c) e -> markb p' (blk p' c) e;
  rf_new : forall e c c' x y, valid n c -> valid n c' -> 0 <= e -> (e, x) ∈ pr c -> (e, y) ∈ pr c' -> blk p c = blk p c' ->
    blk p' c = blk p' c' \/ markb p' (blk p' c) e \/ markb p' (blk p' c') e
}.

Lemma refines_refl p p' : (forall x, valid n x -> blk p' x = blk p x) -> (forall b e, 0 <= e -> markb p b e -> markb p' b e) -> refines p p'.
Proof.
  intros Hb Hm. split.
  - intros x y Hx Hy. by rewrite !Hb.
  - intros e c x Hc He _. rewrite Hb by done. by apply Hm.
  - intros e c c' x y Hc Hc' _ _ _ E. left. by rewrite !Hb.
Qed.

Lemma refines_trans p1 p2 p3 : refines p1 p2 -> refines p2 p3 -> refines p1 p3.
Proof.
  intros R1 R2. split.
  - intros x y Hx Hy E. apply (rf_blk _ _ R1), (rf_blk _ _ R2); done.
  - intros e c x Hc He Hin Hm. apply (rf_mark _ _ R2 e c x), (rf_mark _ _ R1 e c x); done.
  - intros e c c' x y Hc Hc' He Hx Hy E. destruct (rf_new _ _ R1 e c c' x y) as [E' | [Hm | Hm]]; try done.
    + by apply (rf_new _ _ R2 e c c' x y).
    + right; left. by apply (rf_mark _ _ R2 e c x).
    + right; right. by apply (rf_mark _ _ R2 e c' y).
Qed.

(** ** One block *)

Fixpoint total_marks (blocks : list PBlock) : Z := match blocks with [] => 0 | B :: blocks => nmarks (pb_incoming B) + total_marks blocks end.

(** What bounds the work that is left: the marks, the agenda, and what every
    further block can add. *)
Definition potential p (q : list Z) : Z := total_marks (p_blocks p) + zlen q + 2 * (W + 1) * (n - zlen (p_blocks p)).

Definition cells p : Prop := forall b B, aget (p_blocks p) b = Some B -> counted (p_nodes p) b B.

(** Marked blocks are on the agenda, but for the current one. *)
Definition agenda p (q : list Z) (cur : Z) : Prop :=
  (forall b B, aget (p_blocks p) b = Some B -> PBlock.IsOnAgenda B = true -> b ∈ q \/ b = cur) /\
  (forall b, b ∈ q -> exists B, aget (p_blocks p) b = Some B).

(** The state while the blocks [T] are still to be split. *)
Record splitting (P : Z -> Prop) p (T : list Z) : Prop := {
  sp_layout : layout n pr wd p;
  sp_nodup : NoDup T;
  sp_todo : forall b, b ∈ T -> exists B, aget (p_blocks p) b = Some B /\ pb_split B < pb_end B /\
    forall x, valid n x -> blk p x = b -> pb_split B < pos p x <-> P x;
  sp_done : forall b B, aget (p_blocks p) b = Some B -> b ∉ T -> pb_split B = pb_end B /\
    forall x y, valid n x -> valid n y -> blk p x = b -> blk p y = b -> P x <-> P y
}.

(** What splitting does altogether. *)
Record divides (P : Z -> Prop) p q p' q' : Prop := {
  dv_refines : refines p p';
  dv_coarse : forall x y, valid n x -> valid n y -> blk p x = blk p y -> (P x <-> P y) -> blk p' x = blk p' y;
  dv_sizes : forall b B, aget (p_blocks p) b = Some B -> exists B', aget (p_blocks p') b = Some B' /\ zlen (pb_incoming B') = zlen (pb_incoming B);
  dv_potential : potential p' q' <= potential p q
}.

Lemma divides_refl P p q : divides P p q p q.
Proof. split; [by apply refines_refl | done | eauto | lia]. Qed.

Lemma divides_trans P p1 q1 p2 q2 p3 q3 : divides P p1 q1 p2 q2 -> divides P p2 q2 p3 q3 -> divides P p1 q1 p3 q3.
Proof.
  intros D1 D2. split.
  - eapply refines_trans; [apply D1 | apply D2].
  - intros x y Hx Hy E HP. apply (dv_coarse _ _ _ _ _ D2); [done | done | by apply (dv_coarse _ _ _ _ _ D1) | done].
  - intros b B HB. destruct (dv_sizes _ _ _ _ _ D1 b B HB) as (B1 & HB1 & E1). destruct (dv_sizes _ _ _ _ _ D2 b B1 HB1) as (B2 & HB2 & E2).
    exists B2. split; [done | congruence].
  - pose proof (dv_potential _ _ _ _ _ D1). pose proof (dv_potential _ _ _ _ _ D2). lia.
Qed.

Lemma total_marks_app bs bs' : total_marks (bs ++ bs') = total_marks bs + total_marks bs'.
Proof. induction bs as [| B bs IH]; cbn [app total_marks]; [done |]. rewrite IH. lia. Qed.

Lemma total_marks_set bs b B B' : aget bs b = Some B -> total_marks (<[Z.to_nat b := B']> bs) = total_marks bs - nmarks (pb_incoming B) + nmarks (pb_incoming B').
Proof.
  unfold aget. case_decide; [| done]. generalize (Z.to_nat b). clear. induction bs as [| D bs IH]; intros [| k] Hk; try done.
  - injection Hk as ->. change (<[0%nat := B']> (B :: bs)) with (B' :: bs). cbn [total_marks]. lia.
  - change (<[S k := B']> (D :: bs)) with (D :: <[k := B']> bs). cbn [total_marks]. rewrite (IH k) by done. lia.
Qed.

Lemma weight_zero p b e : layout n pr wd p -> (forall x, valid n x -> blk p x <> b) -> weight (p_nodes p) b e = 0.
Proof.
  intros Hl Hb. apply weight_none. intros x nd E. rewrite <- (blk_aget _ _ _ E). apply Hb. pose proof (aget_Some_lt _ _ _ E) as Hr.
  by rewrite (proj1 (ly_nodes _ _ _ _ Hl)) in Hr.
Qed.

(** Blocks all of whose nodes are marked stay as they are. *)
Lemma reset_split P p q cur b B T :
  splitting P p (b :: T) -> cells p -> agenda p q cur -> aget (p_blocks p) b = Some B -> pb_split B < pb_start B ->
  let p' := set_split p b B (pb_end B) (p_toDo p) in
  splitting P p' T /\ cells p' /\ agenda p' q cur /\ divides P p q p' q.
Proof.
  intros [Hl Hnd Ht Hd] Hc [Ha Hq] HB Hs. cbn zeta. pose proof (ly_span _ _ _ _ Hl _ _ HB) as (Hse & Hen & _).
  inversion_clear Hnd as [| ? ? Hbn Hnd']. destruct (Ht b (list_elem_of_here _ _)) as (B0 & HB0 & _ & HP). simplify_eq.
  pose proof (fun c => set_split_get p b B (pb_end B) (p_toDo p) c HB) as Hget.
  assert (Hall : forall x, valid n x -> blk p x = b -> P x). { intros x Hx Hb. apply HP; [done .. |]. apply (ly_in _ _ _ _ Hl b B x HB Hx) in Hb. lia. }
  split; [split |].
  - apply set_split_layout; [done .. | lia].
  - done.
  - intros c Hcin. rewrite Hget. rewrite decide_False by (by intros ->). by apply Ht, list_elem_of_further.
  - intros c C. rewrite Hget. case_decide as Hcb.
    + subst c. intros [= <-] _. split; [done |]. intros x y Hx Hy Ex Ey. split; intros _; by apply Hall.
    + intros HC Hcn. apply (Hd c C HC). rewrite elem_of_cons. intros [|]; [congruence | done].
  - split; [| split; [split |]].
    + intros c C. rewrite Hget. case_decide as Hcb; [| apply Hc]. subst c. intros [= <-]. apply (Hc b B HB).
    + intros c C. rewrite Hget. case_decide as Hcb; [| apply Ha]. subst c. intros [= <-]. by apply (Ha b B).
    + intros c Hcin. rewrite Hget. case_decide; [by eexists | by apply Hq].
    + split.
      * apply refines_refl; [done |]. intros c e He (C & HC & Hm). unfold markb. rewrite Hget. case_decide as Hcb; [| by eauto]. subst c. simplify_eq. eauto.
      * done.
      * intros c C HC. rewrite Hget. case_decide as Hcb; [| by eauto]. subst c. simplify_eq. eauto.
      * unfold potential. cbn [set_split with_toDo with_blocks p_blocks]. rewrite (total_marks_set _ _ _ _ HB). unfold zlen. rewrite length_insert. cbn. lia.
Qed.

(** The division of block [b] with contents [B] at its split index. *)
Record division p p' q q' b B pb nb : Prop := {
  dn_nodes : nodes_ok n pr wd (p_nodes p');
  dn_arr : p_na p' = p_na p /\ p_lua p' = p_lua p;
  dn_blocks : p_blocks p' = <[Z.to_nat b := pb]> (p_blocks p) ++ [nb];
  dn_blk : forall x, valid n x -> blk p' x = if decide (pb_split B < pos p x <= pb_end B) then zlen (p_blocks p) else blk p x;
  dn_pb : pb_start pb = pb_start B /\ pb_end pb = pb_split B /\ pb_split pb = pb_split B;
  dn_nb : pb_start nb = pb_split B + 1 /\ pb_end nb = pb_end B /\ pb_split nb = pb_end B;
  dn_weight : forall c e, c <> b -> c <> zlen (p_blocks p) -> weight (p_nodes p') c e = weight (p_nodes p) c e;
  dn_counted : counted (p_nodes p') b pb /\ counted (p_nodes p') (zlen (p_blocks p)) nb;
  dn_size : zlen (pb_incoming pb) = zlen (pb_incoming B);
  dn_mark : forall e, 0 <= e -> mark B e = true -> (0 < inc pb e -> mark pb e = true) /\ (0 < inc nb e -> mark nb e = true);
  dn_new : forall e, 0 <= e -> 0 < inc pb e -> 0 < inc nb e -> mark pb e = true \/ mark nb e = true;
  dn_q : forall c, c ∈ q' -> c ∈ q \/ c = b \/ c = zlen (p_blocks p);
  dn_q_mono : forall c, c ∈ q -> c ∈ q';
  dn_agenda : (PBlock.IsOnAgenda pb = true -> PBlock.IsOnAgenda B = true \/ b ∈ q') /\ (PBlock.IsOnAgenda nb = true -> zlen (p_blocks p) ∈ q');
  dn_potential : nmarks (pb_incoming pb) + nmarks (pb_incoming nb) + zlen q' <= nmarks (pb_incoming B) + zlen q + 2 * (W + 1)
}.

Lemma fresh_block p x : layout n pr wd p -> valid n x -> blk p x <> zlen (p_blocks p).
Proof. intros Hl Hx E. destruct (ly_block _ _ _ _ Hl x Hx) as [B HB]. apply aget_Some_lt in HB. lia. Qed.

Lemma new_block_counted nodes nw start end_ : 0 < W -> (forall e, 0 <= e -> weight nodes nw e = 0) -> counted nodes nw (PBlock.New start end_).
Proof.
  intros HW0 Hw. split; [done |]. split; [cbn; unfold zlen; cbn; lia |]. intros e He. rewrite Hw by done.
  unfold inc, PBlock.GetIncoming, PBlock.Sub. cbn. unfold aget. case_decide; [| done]. by destruct (Z.to_nat e) as [| [| k]].
Qed.

Lemma New_unmarked start end_ e : 0 <= e -> mark (PBlock.New start end_) e = false.
Proof.
  intros He. unfold mark, PBlock.IsOnAgendaWith, PBlock.Sub. cbn. unfold aget. rewrite decide_True by lia. by destruct (Z.to_nat e) as [| [| ?]].
Qed.

Lemma unmarked_nmarks B : bwf B -> (forall e, 0 <= e -> mark B e = false) -> nmarks (pb_incoming B) = 0.
Proof.
  intros Hw Hm. destruct (decide (nmarks (pb_incoming B) = 0)) as [| Hnz]; [done |]. destruct (on_agenda_marked B Hw) as [e He].
  - unfold PBlock.IsOnAgenda. rewrite Hw. by destruct (Z.eqb_spec (nmarks (pb_incoming B)) 0).
  - pose proof (mark_in_range _ _ He). rewrite Hm in He; [done | lia].
Qed.

Lemma range_elem l r i : i ∈ range l r <-> l <= i <= r.
Proof. unfold range. rewrite elem_of_seqZ. lia. Qed.

Lemma split_block_division p q b B :
  0 < W -> layout n pr wd p -> cells p -> aget (p_blocks p) b = Some B -> pb_start B <= pb_split B < pb_end B ->
  exists p' q' pb nb, split_block p q b = Some (p', q') /\ division p p' q q' b B pb nb.
Proof.
  intros HW0 Hl Hc HB Hs. pose proof (ly_span _ _ _ _ Hl _ _ HB) as (Hse & Hen & _). pose proof (aget_Some_lt _ _ _ HB) as Hbr.
  set (nw := zlen (p_blocks p)) in *. assert (Hne : nw <> b) by lia. destruct (Hc b B HB) as (Bw & Bz & Bi).
  assert (Hw0 : forall e, weight (p_nodes p) nw e = 0). { intros e. apply weight_zero; [done |]. intros x Hx. by apply fresh_block. }
  unfold split_block. rewrite HB. cbn [mbind option_bind]. unfold PBlock.HasToBeSplit.
  rewrite (proj2 (Z.ltb_ge _ _)), (proj2 (Z.ltb_lt (pb_split B) (pb_end B))) by lia. rewrite aset_Some by lia. cbn [mbind option_bind]. fold nw.
  set (pb0 := PBlock.SetSplitIndex _ _). set (nb0 := PBlock.New _ _). set (ix := range _ _).
  assert (Hix : forall i, i ∈ ix <-> pb_split B < i <= pb_end B). { intros i. unfold ix. rewrite range_elem. lia. }
  destruct (change_blocks_ok b nw ix Hne p pb0 nb0) as (nodes' & pb1 & nb1 & E & Hn & Hb & Hw & Hsum & (Pw & Pz & Pi) & (Nw & Nz & Ni) & Sp & Sn & Zp & Np & Mp);
    [apply Hl | apply Hl | done | by apply new_block_counted | apply NoDup_seqZ | |].
  { intros i Hi%Hix. split; [unfold valid; lia |]. intros x Hx. destruct (at_pos _ _ _ p i Hl) as (x' & E & Hv & Hp); [unfold valid; lia |].
    replace x' with x in * by congruence. apply (ly_in _ _ _ _ Hl b B x HB Hv). lia. }
  rewrite E. cbn [mbind option_bind]. pose proof (zlen_nonneg (pb_incoming pb1)) as Hsz. unfold PBlock.SizeOfIncoming.
  assert (Er : exists l, range 0 (zlen (pb_incoming pb1)) = 0 :: l /\ Forall (fun e => 0 <= e) l /\ zlen (0 :: l) = zlen (pb_incoming pb1) + 1).
  { unfold range. rewrite seqZ_cons by lia. eexists. split; [done |]. split.
    - apply Forall_forall. intros e. rewrite elem_of_seqZ. lia.
    - rewrite zlen_cons. unfold zlen at 1. rewrite length_seqZ. lia. }
  destruct Er as (l & Er & Hfl & Hll). rewrite Er.
  destruct (choose_edges_chosen b nw l Hfl 0 pb1 nb1 q) as (pb & nb & q' & -> & Ch); [done |]. rewrite <- Er in Ch.
  cbn [with_nodes p_blocks]. rewrite aset_Some by lia. cbn [mbind option_bind].
  eexists _, q', pb, nb. split; [done |].
  destruct (ch_span _ _ _ _ _ _ _ _ _ Ch) as [S1 S2], (ch_wf _ _ _ _ _ _ _ _ _ Ch Pw Nw) as [W1 W2], (ch_size _ _ _ _ _ _ _ _ _ Ch) as [Z1 Z2].
  assert (Hn1 : nmarks (pb_incoming nb1) = 0).
  { apply (unmarked_nmarks _ Nw). intros e He. destruct (Mp e He) as (_ & -> & _). by apply New_unmarked. }
  assert (Hr : forall e, 0 <= e -> 0 < inc nb e -> e ∈ range 0 (zlen (pb_incoming pb1))).
  { intros e He Hi. rewrite range_elem, Zp. change (pb_incoming pb0) with (pb_incoming B). destruct (ch_inc _ _ _ _ _ _ _ _ _ Ch e He) as [I1 I2].
    pose proof (Hsum e) as Hs'. rewrite <- Pi, <- Ni, <- Bi, Hw0 in Hs' by done. pose proof (inc_nonneg pb1 e). pose proof (inc_in_range B e). lia. }
  split; cbn [with_blocks with_nodes p_nodes p_na p_lua p_blocks]; try done.
  - intros x Hx. transitivity (blk (with_nodes nodes' p) x); [done |]. rewrite Hb by done. fold nw.
    case_decide as D1; case_decide as D2; try done; rewrite Hix in D1; lia.
  - destruct (same_span_trans _ _ _ Sp S1) as (-> & -> & ->). cbn. lia.
  - destruct (same_span_trans _ _ _ Sn S2) as (-> & -> & ->). cbn. lia.
  - split; (split; [done |]; split; [lia |]; intros e He); destruct (ch_inc _ _ _ _ _ _ _ _ _ Ch e He) as [I1 I2]; rewrite ?I1, ?I2; auto.
  - rewrite Z1, Zp. done.
  - intros e He Hm. destruct (ch_inc _ _ _ _ _ _ _ _ _ Ch e He) as [I1 I2], (ch_mono _ _ _ _ _ _ _ _ _ Ch e He) as [M1 _], (Mp e He) as (Mm & _).
    change (mark pb0 e) with (mark B e) in Mm. rewrite Hm in Mm. cbn [andb] in Mm. split; intros Hi.
    + apply M1. rewrite Mm. apply Z.ltb_lt. lia.
    + destruct (ch_edge _ _ _ _ _ _ _ _ _ Ch e (Hr e He Hi)) as [| (Hf & Hp & _)]; [lia | done |]. rewrite Hf in Mm. symmetry in Mm. apply Z.ltb_ge in Mm. lia.
  - intros e He _ Hi. destruct (ch_inc _ _ _ _ _ _ _ _ _ Ch e He) as [I1 I2].
    destruct (ch_edge _ _ _ _ _ _ _ _ _ Ch e (Hr e He Hi)) as [| (_ & _ & ?)]; [lia | by right | by left].
  - apply Ch.
  - apply Ch.
  - destruct (ch_agenda _ _ _ _ _ _ _ _ _ Ch) as [A1 A2]. split.
    + intros Hon. destruct (A1 Hon) as [Hon' |]; [left | by right]. destruct (on_agenda_marked pb1 Pw Hon') as [e Hm].
      pose proof (mark_in_range _ _ Hm) as He. destruct (Mp e (proj1 He)) as (Mm & _). rewrite Hm in Mm. symmetry in Mm. apply andb_true_iff in Mm as [Mm _].
      by eapply (marked_on_agenda B e).
    + intros Hon. destruct (A2 Hon) as [Hon' |]; [| done]. unfold PBlock.IsOnAgenda in Hon'. by rewrite Nw, Hn1 in Hon'.
  - pose proof (ch_potential _ _ _ _ _ _ _ _ _ Ch) as Hp. rewrite Er, Hll in Hp. change (pb_incoming pb0) with (pb_incoming B) in Np, Zp. lia.
Qed.
End Split.
