(* ===== verification/MinimizerHopcroft.v ===== *)
(** * The minimizer: Hopcroft's algorithm

    The invariants of [Partition::Minimize], and its loops: they terminate,
    and leave the coarsest stable partition below the initial one. *)

From S2P Require Import Prelude Config HeaderOp AliceData Minimizer MinimizerSort MinimizerBlock MinimizerLayout MinimizerSplit.

Implicit Types (p : Partition) (B : PBlock) (b e x y i : Z).

Section Hopcroft.
Variables (n W : Z) (pr : Z -> list (Z * Z)) (wd : Z -> word).
Hypothesis Hpr : forall x, valid n x -> Forall (fun d : Z * Z => valid n d.2) (pr x).
Hypothesis HW : forall x, valid n x -> edges_in W (pr x).
Hypothesis HW0 : 0 < W.

#[local] Abbreviation layout := (layout n pr wd).
#[local] Abbreviation cells := (cells W).
#[local] Abbreviation splitting := (splitting n pr wd).
#[local] Abbreviation divides := (divides n W pr).
#[local] Abbreviation division := (division n W pr wd).
#[local] Abbreviation refines := (refines n pr).

(** ** A divided block *)

Lemma division_get p p' q q' b B pb nb c : division p p' q q' b B pb nb -> aget (p_blocks p) b = Some B ->
  aget (p_blocks p') c = if decide (c = b) then Some pb else if decide (c = zlen (p_blocks p)) then Some nb else aget (p_blocks p) c.
Proof.
  intros D HB. rewrite (dn_blocks _ _ _ _ _ _ _ _ _ _ _ _ D). pose proof (aget_Some_lt _ _ _ HB) as Hb.
  pose proof (aset_Some (p_blocks p) b pb Hb) as E. pose proof (aset_zlen _ _ _ _ E) as Hlen. case_decide as D1.
  - subst c. rewrite aget_app_l by lia. by apply (aget_aset_eq _ _ _ _ E).
  - case_decide as D2.
    + subst c. rewrite aget_app_r, Hlen, Z.sub_diag by lia. done.
    + destruct (decide (c < zlen (p_blocks p))).
      * rewrite aget_app_l by lia. by apply (aget_aset_ne _ _ _ _ _ E).
      * rewrite aget_None, aget_None; [done | lia |]. rewrite zlen_app, Hlen. unfold zlen at 2. cbn. lia.
Qed.

Lemma division_pos p p' q q' b B pb nb x : division p p' q q' b B pb nb -> pos p' x = pos p x.
Proof. intros D. unfold pos. by rewrite (proj2 (dn_arr _ _ _ _ _ _ _ _ _ _ _ _ D)). Qed.

(** Which nodes move: those of the block behind its split index. *)
Lemma division_moved p p' q q' b B pb nb x :
  division p p' q q' b B pb nb -> layout p -> aget (p_blocks p) b = Some B -> pb_start B <= pb_split B -> valid n x ->
  (blk p x = b /\ pb_split B < pos p x /\ blk p' x = zlen (p_blocks p)) \/
  (blk p' x = blk p x /\ (blk p x = b -> pos p x <= pb_split B)).
Proof.
  intros D Hl HB Hs Hx. pose proof (ly_in _ _ _ _ Hl b B x HB Hx) as Hin. rewrite (dn_blk _ _ _ _ _ _ _ _ _ _ _ _ D x Hx).
  case_decide as Hd; [left | right; split; [done |]; intros Hb%Hin; lia]. split; [| done || (split; [lia | done])]. apply Hin. lia.
Qed.

Lemma division_layout p p' q q' b B pb nb :
  division p p' q q' b B pb nb -> layout p -> aget (p_blocks p) b = Some B -> pb_start B <= pb_split B < pb_end B -> layout p'.
Proof.
  intros D Hl HB Hs. pose proof (ly_span _ _ _ _ Hl _ _ HB) as (Hse & Hen & _). pose proof (aget_Some_lt _ _ _ HB) as Hbr.
  destruct (dn_pb _ _ _ _ _ _ _ _ _ _ _ _ D) as (Ps & Pe & Pi), (dn_nb _ _ _ _ _ _ _ _ _ _ _ _ D) as (Ns & Ne & Ni).
  pose proof (fun c => division_get _ _ _ _ _ _ _ _ c D HB) as Hget.
  split.
  - apply D.
  - destruct (dn_arr _ _ _ _ _ _ _ _ _ _ _ _ D) as [-> ->]. apply Hl.
  - intros c C. rewrite Hget. case_decide; [intros [= <-]; rewrite Ps, Pe, Pi; lia |].
    case_decide; [intros [= <-]; rewrite Ns, Ne, Ni; lia | apply (ly_span _ _ _ _ Hl)].
  - intros x Hx. rewrite Hget. destruct (ly_block _ _ _ _ Hl x Hx) as [C HC].
    case_decide; [by eexists |]. case_decide; [by eexists |].
    destruct (division_moved _ _ _ _ _ _ _ _ x D Hl HB (proj1 Hs) Hx) as [(_ & _ & ?) | [E _]]; [done | rewrite E; by eexists].
  - intros c C x. rewrite Hget. intros HC Hx. rewrite (division_pos _ _ _ _ _ _ _ _ _ D).
    pose proof (ly_in _ _ _ _ Hl b B x HB Hx) as Hin. pose proof (fresh_block n pr wd p x Hl Hx) as Hfresh.
    destruct (division_moved _ _ _ _ _ _ _ _ x D Hl HB (proj1 Hs) Hx) as [(Eb & Hp & ->) | [-> Hp]].
    + pose proof (proj1 Hin Eb). case_decide as D1; [injection HC as <-; rewrite Ps, Pe; lia |].
      case_decide as D2; [injection HC as <-; rewrite Ns, Ne; lia |]. rewrite <- (ly_in _ _ _ _ Hl c C x HC Hx). split; congruence.
    + case_decide as D1; [injection HC as <-; subst c; rewrite Ps, Pe; lia |].
      case_decide as D2; [injection HC as <-; subst c; rewrite Ns, Ne | by apply (ly_in _ _ _ _ Hl c C x HC Hx)].
      split; [done |]. intros Hr. assert (blk p x = b) by (apply Hin; lia). lia.
Qed.

Lemma division_splitting P p p' q q' b B pb nb T :
  division p p' q q' b B pb nb -> splitting P p (b :: T) -> aget (p_blocks p) b = Some B -> pb_start B <= pb_split B -> splitting P p' T.
Proof.
  intros D [Hl Hnd Ht Hd] HB Hs. inversion_clear Hnd as [| ? ? Hbn Hnd']. destruct (Ht b (list_elem_of_here _ _)) as (B0 & HB0 & Hse & HP).
  simplify_eq. pose proof (fun c => division_get _ _ _ _ _ _ _ _ c D HB) as Hget. pose proof (aget_Some_lt _ _ _ HB) as Hbr.
  pose proof (fun x => division_moved _ _ _ _ _ _ _ _ x D Hl HB Hs) as Hmv. pose proof (fun x => fresh_block n pr wd p x Hl) as Hfresh.
  split; [by eapply division_layout | done | |].
  - intros c Hc. destruct (Ht c (list_elem_of_further _ _ _ Hc)) as (C & HC & Hsc & HPc). pose proof (aget_Some_lt _ _ _ HC).
    assert (c <> b) by (by intros ->). rewrite Hget, !decide_False by lia. exists C. split; [done |]. split; [done |]. intros x Hx Hxc.
    rewrite (division_pos _ _ _ _ _ _ _ _ _ D). apply HPc; [done |]. destruct (Hmv x Hx) as [(_ & _ & E) | [E _]]; [lia | congruence].
  - intros c C. rewrite Hget. case_decide as D1; [| case_decide as D2].
    + subst c. intros [= <-] _. destruct (dn_pb _ _ _ _ _ _ _ _ _ _ _ _ D) as (_ & -> & ->). split; [done |].
      assert (Hno : forall x, valid n x -> blk p' x = b -> ~ P x).
      { intros x Hx Hxb. destruct (Hmv x Hx) as [(_ & _ & E) | [E Hp]]; [lia |]. rewrite <- (HP x Hx) by congruence. apply Z.le_ngt, Hp. congruence. }
      intros x y Hx Hy Ex Ey. pose proof (Hno x Hx Ex). pose proof (Hno y Hy Ey). tauto.
    + subst c. intros [= <-] _. destruct (dn_nb _ _ _ _ _ _ _ _ _ _ _ _ D) as (_ & -> & ->). split; [done |].
      assert (Hyes : forall x, valid n x -> blk p' x = zlen (p_blocks p) -> P x).
      { intros x Hx Hxb. destruct (Hmv x Hx) as [(E & Hp & _) | [E _]]; [by apply HP |]. exfalso. apply (Hfresh x Hx). congruence. }
      intros x y Hx Hy Ex Ey. pose proof (Hyes x Hx Ex). pose proof (Hyes y Hy Ey). tauto.
    + intros HC Hcn. destruct (Hd c C HC) as [Hsp Hhom]; [rewrite elem_of_cons; tauto |]. split; [done |].
      assert (Hsame : forall x, valid n x -> blk p' x = c -> blk p x = c).
      { intros x Hx E. destruct (Hmv x Hx) as [(_ & _ & E') | [E' _]]; congruence. }
      intros x y Hx Hy Ex Ey. apply Hhom; auto.
Qed.

Lemma division_cells p p' q q' b B pb nb : division p p' q q' b B pb nb -> cells p -> aget (p_blocks p) b = Some B -> cells p'.
Proof.
  intros D Hc HB c C. rewrite (division_get _ _ _ _ _ _ _ _ c D HB). destruct (dn_counted _ _ _ _ _ _ _ _ _ _ _ _ D) as [Cp Cn].
  case_decide as D1; [subst c; by intros [= <-] |]. case_decide as D2; [subst c; by intros [= <-] |]. intros HC. destruct (Hc c C HC) as (? & ? & Hi).
  split; [done |]. split; [done |]. intros e He. rewrite Hi by done. symmetry. by apply (dn_weight _ _ _ _ _ _ _ _ _ _ _ _ D).
Qed.

Lemma division_agenda p p' q q' b B pb nb cur :
  division p p' q q' b B pb nb -> agenda p q cur -> aget (p_blocks p) b = Some B -> agenda p' q' cur.
Proof.
  intros D [Ha Hq] HB. pose proof (fun c => division_get _ _ _ _ _ _ _ _ c D HB) as Hget. destruct (dn_agenda _ _ _ _ _ _ _ _ _ _ _ _ D) as [A1 A2].
  pose proof (dn_q_mono _ _ _ _ _ _ _ _ _ _ _ _ D) as Hmono. split.
  - intros c C. rewrite Hget. case_decide as D1; [| case_decide as D2].
    + subst c. intros [= <-] [Hon | ?]%A1; [| by left]. destruct (Ha b B HB Hon); auto.
    + subst c. intros [= <-] ?. left. auto.
    + intros HC Hon. destruct (Ha c C HC Hon); auto.
  - intros c Hc. rewrite Hget. case_decide; [by eexists |]. case_decide; [by eexists |].
    destruct (dn_q _ _ _ _ _ _ _ _ _ _ _ _ D c Hc) as [| [|]]; [by apply Hq | done | done].
Qed.

(** A block has a counter for the edges of its nodes. *)
Lemma counted_inc p b B c e x : nodes_ok n pr wd (p_nodes p) -> counted W (p_nodes p) b B -> valid n c -> blk p c = b -> 0 <= e -> (e, x) ∈ pr c -> 0 < inc B e.
Proof.
  intros [Hlen Ho] (_ & _ & Hi) Hc Hb He Hin. rewrite Hi by done. destruct (aget_is_Some (p_nodes p) c) as [nd Hnd]; [by rewrite Hlen |].
  pose proof (weight_ge _ _ _ b e Hnd) as Hg. destruct (Ho c nd Hnd) as (_ & Hp & _). rewrite (blk_aget _ _ _ Hnd) in Hb.
  unfold contrib in Hg. rewrite Hb, Z.eqb_refl, Hp in Hg. pose proof (occ_pos _ _ _ Hin). lia.
Qed.

Lemma division_refines p p' q q' b B pb nb :
  division p p' q q' b B pb nb -> layout p -> aget (p_blocks p) b = Some B -> pb_start B <= pb_split B -> refines p p'.
Proof.
  intros D Hl HB Hs. pose proof (fun c => division_get _ _ _ _ _ _ _ _ c D HB) as Hget. pose proof (aget_Some_lt _ _ _ HB) as Hbr.
  pose proof (fun x => division_moved _ _ _ _ _ _ _ _ x D Hl HB Hs) as Hmv. pose proof (fun x => fresh_block n pr wd p x Hl) as Hfresh.
  destruct (dn_counted _ _ _ _ _ _ _ _ _ _ _ _ D) as [Cp Cn]. pose proof (dn_nodes _ _ _ _ _ _ _ _ _ _ _ _ D) as Hn.
  assert (Gb : aget (p_blocks p') b = Some pb) by (rewrite Hget; by rewrite decide_True).
  assert (Gn : aget (p_blocks p') (zlen (p_blocks p)) = Some nb) by (rewrite Hget, decide_False by lia; by rewrite decide_True).
  split.
  - intros x y Hx Hy E. pose proof (Hfresh x Hx). pose proof (Hfresh y Hy).
    destruct (Hmv x Hx) as [(? & _ & ?) | [? _]], (Hmv y Hy) as [(? & _ & ?) | [? _]]; congruence.
  - intros e c x Hc He Hin (C & HC & Hm). destruct (Hmv c Hc) as [(Eb & _ & En) | [E _]].
    + rewrite En. exists nb. split; [done |]. rewrite Eb, HB in HC. injection HC as <-.
      apply (dn_mark _ _ _ _ _ _ _ _ _ _ _ _ D e He Hm). by apply (counted_inc p' (zlen (p_blocks p)) nb c e x).
    + rewrite E. destruct (decide (blk p c = b)) as [Eb | Hne].
      * rewrite Eb in *. exists pb. split; [done |]. rewrite HB in HC. injection HC as <-.
        apply (dn_mark _ _ _ _ _ _ _ _ _ _ _ _ D e He Hm). by apply (counted_inc p' b pb c e x).
      * exists C. split; [| done]. rewrite Hget, decide_False, decide_False; auto.
  - intros e c c' x y Hc Hc' He Hx Hy E.
    assert (Hboth : forall c1 c2 z1 z2, valid n c1 -> valid n c2 -> (e, z1) ∈ pr c1 -> (e, z2) ∈ pr c2 ->
      blk p' c1 = b -> blk p' c2 = zlen (p_blocks p) -> markb p' b e \/ markb p' (zlen (p_blocks p)) e).
    { intros c1 c2 z1 z2 V1 V2 I1 I2 E1 E2. destruct (dn_new _ _ _ _ _ _ _ _ _ _ _ _ D e He); [by apply (counted_inc p' b pb c1 e z1) |
        by apply (counted_inc p' (zlen (p_blocks p)) nb c2 e z2) | left; by exists pb | right; by exists nb]. }
    destruct (Hmv c Hc) as [(Eb & _ & En) | [En _]], (Hmv c' Hc') as [(Eb' & _ & En') | [En' _]]; try (left; congruence); right.
    + assert (E1 : blk p' c' = b) by congruence. rewrite En, E1. destruct (Hboth c' c y x); auto.
    + assert (E1 : blk p' c = b) by congruence. rewrite En', E1. destruct (Hboth c c' x y); auto.
Qed.

Lemma division_divides P p p' q q' b B pb nb T :
  division p p' q q' b B pb nb -> splitting P p (b :: T) -> aget (p_blocks p) b = Some B -> pb_start B <= pb_split B -> divides P p q p' q'.
Proof.
  intros D Hsp HB Hs. pose proof (sp_layout _ _ _ _ _ _ Hsp) as Hl. pose proof (fun c => division_get _ _ _ _ _ _ _ _ c D HB) as Hget.
  split.
  - by eapply division_refines.
  - destruct (sp_todo _ _ _ _ _ _ Hsp b (list_elem_of_here _ _)) as (B0 & HB0 & _ & HP). simplify_eq.
    intros x y Hx Hy E HPxy. pose proof (HP x Hx) as Px. pose proof (HP y Hy) as Py.
    destruct (division_moved _ _ _ _ _ _ _ _ x D Hl HB Hs Hx) as [(Eb & Hp & ->) | [Ex Hp]],
      (division_moved _ _ _ _ _ _ _ _ y D Hl HB Hs Hy) as [(Eb' & Hp' & ->) | [Ey Hp']].
    + done.
    + assert (blk p y = b) by congruence. specialize (Hp' H). specialize (Px Eb). specialize (Py H). exfalso. apply Z.le_ngt in Hp'. tauto.
    + assert (blk p x = b) by congruence. specialize (Hp H). specialize (Px H). specialize (Py Eb'). exfalso. apply Z.le_ngt in Hp. tauto.
    + congruence.
  - intros c C HC. rewrite Hget. case_decide as D1.
    + subst c. exists pb. split; [done |]. rewrite (dn_size _ _ _ _ _ _ _ _ _ _ _ _ D). congruence.
    + rewrite decide_False; [by exists C |]. apply aget_Some_lt in HC. lia.
  - unfold potential. rewrite (dn_blocks _ _ _ _ _ _ _ _ _ _ _ _ D), total_marks_app, (total_marks_set _ _ _ _ HB), zlen_app. cbn [total_marks].
    pose proof (dn_potential _ _ _ _ _ _ _ _ _ _ _ _ D). replace (zlen (<[Z.to_nat b:=pb]> (p_blocks p))) with (zlen (p_blocks p)) by (unfold zlen; by rewrite length_insert).
    change (zlen [nb]) with 1. nia.
Qed.

(** ** All blocks to do *)

Lemma split_block_ok P p q cur b T :
  splitting P p (b :: T) -> cells p -> agenda p q cur ->
  exists p' q', split_block p q b = Some (p', q') /\ splitting P p' T /\ cells p' /\ agenda p' q' cur /\ divides P p q p' q'.
Proof.
  intros Hsp Hc Ha. pose proof (sp_layout _ _ _ _ _ _ Hsp) as Hl.
  destruct (sp_todo _ _ _ _ _ _ Hsp b (list_elem_of_here _ _)) as (B & HB & Hse & _).
  destruct (decide (pb_split B < pb_start B)) as [Hlt | Hge].
  - exists (set_split p b B (pb_end B) (p_toDo p)), q. split; [| by eapply reset_split].
    unfold split_block. rewrite HB. cbn [mbind option_bind]. unfold PBlock.HasToBeSplit. rewrite (proj2 (Z.ltb_lt _ _) Hlt).
    rewrite aset_Some by (by eapply aget_Some_lt). cbn [mbind option_bind]. by destruct p.
  - destruct (split_block_division n W pr wd HW p q b B HW0 Hl Hc HB) as (p' & q' & pb & nb & E & D); [lia |].
    exists p', q'. split; [done |]. split; [eapply division_splitting; eauto; lia |]. split; [by eapply division_cells |].
    split; [by eapply division_agenda |]. eapply division_divides; eauto. lia.
Qed.

Lemma do_splits_ok P cur T : forall p q, splitting P p T -> cells p -> agenda p q cur ->
  exists p' q', do_splits p q T = Some (p', q') /\ splitting P p' [] /\ cells p' /\ agenda p' q' cur /\ divides P p q p' q'.
Proof.
  induction T as [| b T IH]; intros p q Hsp Hc Ha; cbn [do_splits].
  { exists p, q. split; [done |]. split; [done |]. split; [done |]. split; [done |]. apply divides_refl. }
  destruct (split_block_ok P p q cur b T Hsp Hc Ha) as (p1 & q1 & -> & Hsp1 & Hc1 & Ha1 & D1). cbn [mbind option_bind fst snd].
  destruct (IH p1 q1 Hsp1 Hc1 Ha1) as (p2 & q2 & -> & Hsp2 & Hc2 & Ha2 & D2). exists p2, q2. split; [done |]. split; [done |]. split; [done |].
  split; [done |]. by eapply divides_trans.
Qed.

(** A partition between two steps of the algorithm. *)
Record settled p : Prop := {
  st_layout : layout p;
  st_cells : cells p;
  st_split : forall b B, aget (p_blocks p) b = Some B -> pb_split B = pb_end B;
  st_toDo : p_toDo p = []
}.

Lemma settled_marked p : settled p -> marked n pr wd p (fun _ => False).
Proof.
  intros [Hl Hc Hs Ht]. split; [done |]. split.
  - unfold todo_ok. rewrite Ht. split; [constructor |]. split; [by intros b ?%not_elem_of_nil |]. intros b B HB. rewrite (Hs b B HB). lia.
  - intros b B HB. split; [by rewrite (Hs b B HB) |]. intros _ x Hx Hb. rewrite (Hs b B HB). apply (ly_in _ _ _ _ Hl b B x HB Hx) in Hb. lia.
Qed.

Lemma marked_splitting P p : marked n pr wd p P -> splitting P p (p_toDo p).
Proof.
  intros (Hl & (Hnd & Ht1 & Ht2) & Hm). split; [done | done | |].
  - intros b Hb. destruct (Ht1 b Hb) as (B & HB & Hs). exists B. split; [done |]. split; [done |]. destruct (Hm b B HB) as [H1 H2]. apply H2. intros E.
    specialize (H1 E). lia.
  - intros b B HB Hb. pose proof (ly_span _ _ _ _ Hl _ _ HB) as (_ & _ & Hle).
    assert (E : pb_split B = pb_end B). { destruct (decide (pb_split B < pb_end B)); [exfalso; by eapply Hb, Ht2 | lia]. }
    split; [done |]. intros x y Hx Hy Ex Ey. pose proof (proj1 (ly_in _ _ _ _ Hl b B x HB Hx) Ex). pose proof (proj1 (ly_in _ _ _ _ Hl b B y HB Hy) Ey).
    destruct (decide (pb_start B = pb_end B)) as [Eq | Hne].
    + replace y with x; [done |]. apply (pos_inj n pr wd p); [done .. | lia].
    + destruct (Hm b B HB) as [_ H2]. rewrite <- (H2 Hne x Hx Ex), <- (H2 Hne y Hy Ey). lia.
Qed.

Lemma DoSplits_ok P p q cur : marked n pr wd p P -> cells p -> agenda p q cur ->
  exists p' q', DoSplits p q = Some (p', q') /\ settled p' /\ agenda p' q' cur /\ divides P p q p' q' /\
    (forall x y, valid n x -> valid n y -> blk p' x = blk p' y -> P x <-> P y).
Proof.
  intros Hm Hc Ha. destruct (do_splits_ok P cur _ p q (marked_splitting P p Hm) Hc Ha) as (p' & q' & E & Hsp & Hc' & Ha' & D).
  unfold DoSplits. rewrite E. cbn [mbind option_bind fst snd]. exists (with_toDo [] p'), q'. split; [done |].
  destruct Hsp as [Hl _ _ Hd]. split; [split; [by apply layout_toDo | done | | done] |].
  - intros b B HB. apply (Hd b B HB), not_elem_of_nil.
  - split; [done |]. split; [destruct D as [[? ? ?] ? ? ?]; by split |]. intros x y Hx Hy Exy. destruct (ly_block _ _ _ _ Hl y Hy) as [B HB].
    by apply (Hd _ B HB (not_elem_of_nil _)).
Qed.

(** Marking does not change blocks or counters. *)
Lemma frame_divides Q P p q p' : frame n Q p p' -> divides P p q p' q.
Proof.
  intros F. assert (Hblk : forall x, blk p' x = blk p x) by (intros x; by eapply frame_blk).
  split.
  - apply refines_refl; [by intros x _ |]. intros b e He (B & HB & Hm). destruct (frame_block _ _ _ _ _ _ F HB) as (B' & HB' & E).
    exists B'. split; [done |]. unfold mark, PBlock.IsOnAgendaWith, PBlock.Sub in *. by destruct (resplit_fields _ _ E) as (_ & _ & _ & ->).
  - intros x y _ _ E _. by rewrite !Hblk.
  - intros b B HB. destruct (frame_block _ _ _ _ _ _ F HB) as (B' & HB' & E). exists B'. split; [done |]. by destruct (resplit_fields _ _ E) as (_ & _ & _ & ->).
  - unfold potential. pose proof (fr_blocks _ _ _ _ F) as HF. replace (zlen (p_blocks p')) with (zlen (p_blocks p)) by (unfold zlen; by rewrite (Forall2_length _ _ _ HF)).
    replace (total_marks (p_blocks p')) with (total_marks (p_blocks p)); [lia |]. induction HF as [| B B' l l' E _ IH]; [done |]. cbn [total_marks].
    destruct (resplit_fields _ _ E) as (_ & _ & _ & ->). lia.
Qed.

Lemma frame_cells Q p p' : frame n Q p p' -> cells p -> cells p'.
Proof.
  intros F Hc b B' HB'. assert (exists B, aget (p_blocks p) b = Some B) as [B HB].
  { apply aget_is_Some. pose proof (fr_blocks _ _ _ _ F) as HF%Forall2_length. apply aget_Some_lt in HB'. unfold zlen in *. lia. }
  destruct (frame_block _ _ _ _ _ _ F HB) as (B'' & HB'' & E). simplify_eq. rewrite (fr_nodes _ _ _ _ F). destruct (Hc b B HB) as (Hw & Hz & Hi).
  destruct (resplit_fields _ _ E) as (_ & _ & Ec & Ei). unfold counted, bwf, inc, PBlock.GetIncoming, PBlock.Sub in *. rewrite Ec, Ei. auto.
Qed.

Lemma frame_agenda Q p p' q cur : frame n Q p p' -> agenda p q cur -> agenda p' q cur.
Proof.
  intros F [Ha Hq]. split.
  - intros b B' HB' Hon. assert (exists B, aget (p_blocks p) b = Some B) as [B HB].
    { apply aget_is_Some. pose proof (fr_blocks _ _ _ _ F) as HF%Forall2_length. apply aget_Some_lt in HB'. unfold zlen in *. lia. }
    destruct (frame_block _ _ _ _ _ _ F HB) as (B'' & HB'' & E). simplify_eq. apply (Ha b B HB).
    unfold PBlock.IsOnAgenda in *. by destruct (resplit_fields _ _ E) as (_ & _ & <- & _).
  - intros b Hb. destruct (Hq b Hb) as [B HB]. destruct (frame_block _ _ _ _ _ _ F HB) as (B'' & HB'' & _). by exists B''.
Qed.
End Hopcroft.

(** ** The refinement loop *)


Section Loop.
Variables (n W : Z) (pr : Z -> list (Z * Z)) (wd : Z -> word).
Hypothesis Hpr : forall x, valid n x -> Forall (fun d : Z * Z => valid n d.2) (pr x).
Hypothesis HW : forall x, valid n x -> edges_in W (pr x).
Hypothesis HW0 : 0 < W.
(** A node has at most one child by an edge. *)
Hypothesis Hfun : forall e x c c', valid n c -> valid n c' -> (e, x) ∈ pr c -> (e, x) ∈ pr c' -> c = c'.

#[local] Abbreviation layout := (layout n pr wd).
#[local] Abbreviation cells := (cells W).
#[local] Abbreviation divides := (divides n W pr).
#[local] Abbreviation refines := (refines n pr).
#[local] Abbreviation settled := (settled n W pr wd).
#[local] Abbreviation potential := (potential n W).

(** ** Hopcroft's invariant *)

(** Nodes of one block have children in one block, unless the agenda or [pend]
    says that they are still to be compared. *)
Definition stab p (pend : Z -> Z -> Z -> Prop) : Prop := forall x y e c,
  valid n x -> valid n y -> valid n c -> 0 <= e -> blk p x = blk p y -> (e, x) ∈ pr c ->
  (exists c', valid n c' /\ (e, y) ∈ pr c' /\ (blk p c' = blk p c \/ markb p (blk p c') e)) \/ markb p (blk p c) e \/ pend x y e.

Lemma stab_refines p p' pend : stab p pend -> refines p p' -> stab p' pend.
Proof.
  intros Hst R x y e c Hx Hy Hc He E Hin. destruct (Hst x y e c) as [(c' & Hc' & Hin' & H') | [Hm | Hp]]; try done.
  - by apply (rf_blk _ _ _ _ R).
  - destruct H' as [E' | Hm].
    + destruct (rf_new _ _ _ _ R e c' c y x) as [| [|]]; try done; [left; exists c'; auto .. | by right; left].
    + left. exists c'. split; [done |]. split; [done |]. right. by apply (rf_mark _ _ _ _ R e c' y).
  - right; left. by apply (rf_mark _ _ _ _ R e c x).
  - by right; right.
Qed.

(** Taking an edge of a block from the agenda leaves the pairs of which one
    node only has such a child in the block. *)
Lemma stab_remove p p1 b e0 :
  stab p (fun _ _ _ => False) -> (forall x, blk p1 x = blk p x) ->
  (forall c e, 0 <= e -> markb p c e -> markb p1 c e \/ (c = b /\ e = e0)) ->
  stab p1 (fun x y e => e = e0 /\ ~ (pre n pr p b e0 x <-> pre n pr p b e0 y)).
Proof.
  intros Hst Hb Hm x y e c Hx Hy Hc He E Hin. rewrite !Hb in E. rewrite !Hb.
  assert (Hpre : forall z c1 c2, valid n c1 -> valid n c2 -> (e0, z) ∈ pr c1 -> blk p c1 = b -> (e0, z) ∈ pr c2 -> blk p c2 = b).
  { intros z c1 c2 V1 V2 I1 B1 I2. by rewrite (Hfun e0 z c2 c1). }
  destruct (Hst x y e c) as [(c' & Hc' & Hin' & [E' | Hm']) | [Hm' | []]]; try done.
  - left. exists c'. rewrite Hb. auto.
  - destruct (Hm _ _ He Hm') as [| [Eb ->]]; [left; exists c'; rewrite Hb; auto |]. destruct (decide (blk p c = b)) as [Ec | Hne].
    + left. exists c'. rewrite Hb. split; [done |]. split; [done |]. left. congruence.
    + right; right. split; [done |]. intros [_ Hyx]. destruct Hyx as (c2 & V2 & B2 & I2); [by exists c' |]. by apply Hne, (Hpre x c2 c).
  - destruct (Hm _ _ He Hm') as [| [Eb ->]]; [by right; left |].
    destruct (decide (Exists (fun d => 0 <= d /\ blk p d = b /\ (e0, y) ∈ pr d) (seqZ 0 n))) as [Hex | Hno].
    + apply Exists_exists in Hex as (d & Hd%elem_of_seqZ & _ & Hdb & Hdi). left. exists d. rewrite Hb. split; [unfold valid; lia |]. split; [done |]. left. congruence.
    + right; right. split; [done |]. intros [Hxy _]. apply Hno, Exists_exists. destruct Hxy as (d & Vd & Hdb & Hdi); [by exists c |].
      exists d. rewrite elem_of_seqZ. unfold valid in Vd. split; [lia |]. split; [lia | done].
Qed.

(** ** The agenda *)

(** Taking an edge of block [b] from the agenda. *)
Definition unmark p b B e : Partition := with_blocks (<[Z.to_nat b := PBlock.RemoveFromAgenda B e]> (p_blocks p)) p.

Lemma unmark_get p b B e c : aget (p_blocks p) b = Some B ->
  aget (p_blocks (unmark p b B e)) c = if decide (b = c) then Some (PBlock.RemoveFromAgenda B e) else aget (p_blocks p) c.
Proof.
  intros HB. pose proof (aset_Some (p_blocks p) b (PBlock.RemoveFromAgenda B e) (aget_Some_lt _ _ _ HB)) as E. cbn [unmark with_blocks p_blocks].
  case_decide as D; [subst c; by apply (aget_aset_eq _ _ _ _ E) | by apply (aget_aset_ne _ _ _ _ _ E)].
Qed.

Lemma unmark_settled p b B e : settled p -> aget (p_blocks p) b = Some B -> 0 <= e -> mark B e = true ->
  let p1 := unmark p b B e in settled p1 /\ (forall q, potential p1 q = potential p q - 1) /\ (forall q, agenda p q b -> agenda p1 q b) /\
    (forall c e', 0 <= e' -> markb p c e' -> markb p1 c e' \/ (c = b /\ e' = e)) /\
    (forall c C, aget (p_blocks p) c = Some C -> exists C', aget (p_blocks p1) c = Some C' /\ zlen (pb_incoming C') = zlen (pb_incoming C)).
Proof.
  intros [Hl Hc Hs Ht] HB He Hm. cbn zeta. pose proof (fun c => unmark_get p b B e c HB) as Hget.
  destruct (RemoveFromAgenda_spec B e He) as [(Os & Oe & Osp) Ow Oi Om Oo Oz Oze On]. specialize (Oze (mark_inc _ _ Hm)). split; [split |].
  - split; [apply Hl .. | | |].
    + intros c C. rewrite Hget. case_decide as D; [| apply (ly_span _ _ _ _ Hl)]. subst c. intros [= <-]. rewrite Os, Oe, Osp. by apply (ly_span _ _ _ _ Hl b).
    + intros x Hx. rewrite Hget. case_decide; [by eexists | by apply (ly_block _ _ _ _ Hl x)].
    + intros c C x. rewrite Hget. case_decide as D; [| apply (ly_in _ _ _ _ Hl)]. subst c. intros [= <-]. rewrite Os, Oe. by apply (ly_in _ _ _ _ Hl b B).
  - intros c C. rewrite Hget. case_decide as D; [| apply Hc]. subst c. intros [= <-]. destruct (Hc b B HB) as (Hw & Hz & Hi). split; [auto |]. split; [lia |].
    intros e' He'. change (p_nodes (unmark p b B e)) with (p_nodes p). rewrite <- Hi by done.
    destruct (decide (e' = e)) as [-> | Hne]; [done | by apply Oo].
  - intros c C. rewrite Hget. case_decide as D; [| apply Hs]. subst c. intros [= <-]. rewrite Osp, Oe. by apply Hs in HB.
  - done.
  - split; [| split; [| split]].
    + intros q. unfold potential. cbn [unmark with_blocks p_blocks]. rewrite (total_marks_set _ _ _ _ HB), On, Hm.
      replace (zlen (<[Z.to_nat b:=PBlock.RemoveFromAgenda B e]> (p_blocks p))) with (zlen (p_blocks p)) by (unfold zlen; by rewrite length_insert). lia.
    + intros q [Ha Hq]. split; [| intros c Hcq; rewrite Hget; case_decide; [by eexists | by apply Hq]].
      intros c C. rewrite Hget. case_decide as D; [by right | apply Ha].
    + intros c e' He' (C & HC & HmC). destruct (decide (c = b /\ e' = e)) as [| Hne]; [by right | left]. unfold markb. rewrite Hget.
      case_decide as D; [| by exists C]. subst c. simplify_eq. eexists. split; [done |]. destruct (Oo e' He') as [_ ->]; [tauto | done].
    + intros c C HC. rewrite Hget. case_decide as D; [| by exists C]. subst c. simplify_eq. by eexists.
Qed.

(** ** The loops *)

(** A stable relation, which the partition never separates. *)
Variable R : Z -> Z -> Prop.
Hypothesis R_sym : forall x y, R x y -> R y x.
Hypothesis R_child : forall x y e c, valid n x -> valid n y -> valid n c -> R x y -> (e, x) ∈ pr c -> exists c', valid n c' /\ (e, y) ∈ pr c' /\ R c c'.

(** What the nodes of one block have in common from the start. *)
Variable L : Z -> Z -> Prop.

Record state p (q : list Z) (cur : Z) : Prop := {
  sa_settled : settled p;
  sa_agenda : agenda p q cur;
  sa_stab : stab p (fun _ _ _ => False);
  sa_coarse : forall x y, valid n x -> valid n y -> R x y -> blk p x = blk p y;
  sa_fine : forall x y, valid n x -> valid n y -> blk p x = blk p y -> L x y
}.

(** Blocks are never removed, and their tables never grow. *)
Definition keeps p p' : Prop :=
  forall b B, aget (p_blocks p) b = Some B -> exists B', aget (p_blocks p') b = Some B' /\ zlen (pb_incoming B') = zlen (pb_incoming B).

#[local] Instance keeps_preorder : PreOrder keeps.
Proof.
  split; [intros p b B HB; by exists B |]. intros p1 p2 p3 K1 K2 b B HB. destruct (K1 b B HB) as (B1 & HB1 & E1). destruct (K2 b B1 HB1) as (B2 & HB2 & E2).
  exists B2. split; [done | congruence].
Qed.

Lemma coarse_pre p b e x y : (forall x y, valid n x -> valid n y -> R x y -> blk p x = blk p y) ->
  valid n x -> valid n y -> R x y -> pre n pr p b e x <-> pre n pr p b e y.
Proof.
  intros Hc Hx Hy HR. split.
  - intros (c & Vc & Eb & Hin). destruct (R_child x y e c) as (c' & Vc' & Hin' & HR'); try done. exists c'. rewrite <- (Hc c c'); done.
  - intros (c & Vc & Eb & Hin). destruct (R_child y x e c) as (c' & Vc' & Hin' & HR'); try done; [by apply R_sym |]. exists c'. rewrite <- (Hc c c'); done.
Qed.

Lemma process_edge_ok p q b B e : state p q b -> aget (p_blocks p) b = Some B -> 0 <= e -> mark B e = true ->
  exists p2 p3 q3, FollowBack (unmark p b B e) b e = Some p2 /\ DoSplits p2 q = Some (p3, q3) /\ state p3 q3 b /\ keeps p p3 /\ potential p3 q3 <= potential p q - 1.
Proof.
  intros [Hset Hag Hst Hco Hfi] HB He Hm. destruct (unmark_settled p b B e Hset HB He Hm) as (Hset1 & Hpot1 & Hag1 & Hmk1 & Hk1).
  set (p1 := unmark p b B e) in *. assert (Hblk1 : forall x, blk p1 x = blk p x) by done.
  assert (HB1 : exists B1, aget (p_blocks p1) b = Some B1). { destruct (Hk1 b B HB) as (B1 & ? & _). by exists B1. } destruct HB1 as [B1 HB1].
  destruct (FollowBack_marked n pr wd Hpr p1 b B1 e (settled_marked _ _ _ _ _ Hset1) HB1) as (p2 & E2 & Hmk2 & Hf2).
  destruct (DoSplits_ok n W pr wd HW HW0 _ p2 q b Hmk2) as (p3 & q3 & E3 & Hset3 & Hag3 & D3 & Hhom).
  { eapply frame_cells; [done | apply Hset1]. } { eapply frame_agenda; [done | by apply Hag1]. }
  pose proof (divides_trans _ _ _ _ _ _ _ _ _ _ (frame_divides n W pr _ (pre n pr p1 b e) p1 q p2 Hf2) D3) as D.
  exists p2, p3, q3. split; [done |]. split; [done |]. split; [split |].
  - done.
  - done.
  - intros x y e' c Hx Hy Hc He' Exy Hin.
    assert (Hst3 : stab p3 (fun x y e' => e' = e /\ ~ (pre n pr p b e x <-> pre n pr p b e y))).
    { eapply stab_refines; [by apply (stab_remove p p1 b e Hst Hblk1 Hmk1) | apply D]. }
    destruct (Hst3 x y e' c Hx Hy Hc He' Exy Hin) as [| [| [_ Hno]]]; [by left | by right; left | exfalso]. by apply Hno, (Hhom x y).
  - intros x y Hx Hy HR. apply (dv_coarse _ _ _ _ _ _ _ _ D); [done | done | by rewrite !Hblk1; apply Hco |]. by apply (coarse_pre p b e x y).
  - intros x y Hx Hy Exy. apply Hfi; [done | done |]. rewrite <- !Hblk1. by apply (rf_blk _ _ _ _ (dv_refines _ _ _ _ _ _ _ _ D)).
  - split; [| pose proof (dv_potential _ _ _ _ _ _ _ _ D); rewrite Hpot1 in *; lia].
    transitivity p1; [exact Hk1 | exact (dv_sizes _ _ _ _ _ _ _ _ D)].
Qed.

Lemma edge_loop_ok b edges : Forall (fun e => 0 <= e) edges -> forall p q B, state p q b -> aget (p_blocks p) b = Some B ->
  exists p' q', edge_loop p q b edges = Some (p', q') /\ state p' q' b /\ keeps p p' /\ potential p' q' <= potential p q /\
    (Exists (fun e => mark B e = true) edges -> potential p' q' < potential p q).
Proof.
  induction 1 as [| e edges He _ IH]; intros p q B Hs HB; cbn [edge_loop].
  { exists p, q. split; [done |]. split; [done |]. split; [done |]. split; [lia | intros Hex; by inversion Hex]. }
  rewrite HB. cbn [mbind option_bind]. fold (mark B e). destruct (mark B e) eqn:Em.
  - rewrite aset_Some by (by eapply aget_Some_lt). cbn [mbind option_bind].
    destruct (process_edge_ok p q b B e Hs HB He Em) as (p2 & p3 & q3 & E2 & E3 & Hs3 & Hk3 & Hp3). unfold unmark in E2. rewrite E2. cbn [mbind option_bind].
    rewrite E3. cbn [mbind option_bind fst snd]. destruct (Hk3 b B HB) as (B3 & HB3 & _).
    destruct (IH p3 q3 B3 Hs3 HB3) as (p' & q' & -> & Hs' & Hk' & Hp' & _). exists p', q'. split; [done |]. split; [done |].
    split; [by etrans |]. split; lia.
  - destruct (IH p q B Hs HB) as (p' & q' & -> & Hs' & Hk' & Hp' & Hex). exists p', q'. split; [done |]. split; [done |]. split; [done |].
    split; [done |]. intros [| ]%Exists_cons; [congruence | auto].
Qed.

Lemma total_marks_nonneg bs : 0 <= total_marks bs.
Proof. induction bs as [| B bs IH]; cbn; [done |]. pose proof (nmarks_bounds (pb_incoming B)). lia. Qed.

Lemma potential_nonneg p q : layout p -> 0 <= potential p q.
Proof. intros Hl. unfold potential. pose proof (blocks_bound n pr wd p Hl). pose proof (total_marks_nonneg (p_blocks p)). pose proof (zlen_nonneg q). nia. Qed.

Lemma block_loop_ok b fuel : forall p q B, state p q b -> aget (p_blocks p) b = Some B -> potential p q <= Z.of_nat fuel ->
  exists p' q', block_loop fuel p q b (PBlock.SizeOfIncoming B) = Some (p', q') /\ state p' q' (-1) /\ potential p' q' <= potential p q.
Proof.
  induction fuel as [| fuel IH]; intros p q B Hs HB Hf; cbn [block_loop]; rewrite HB; cbn [mbind option_bind].
  all: destruct (PBlock.IsOnAgenda B) eqn:Eon.
  2, 4: exists p, q; split; [done |]; split; [| lia]; destruct Hs as [? [Ha Hq] ? ? ?]; split; try done; split; [| done];
        intros c C HC Hon; destruct (Ha c C HC Hon) as [| ->]; [by left | congruence].
  all: assert (Hex : Exists (fun e => mark B e = true) (range 0 (PBlock.SizeOfIncoming B)))
    by (destruct (on_agenda_marked B) as [e He]; [by apply (st_cells _ _ _ _ _ (sa_settled _ _ _ Hs) b B) | done |];
        apply Exists_exists; exists e; split; [| done]; apply mark_in_range in He; rewrite range_elem; unfold PBlock.SizeOfIncoming; lia).
  all: destruct (edge_loop_ok b (range 0 (PBlock.SizeOfIncoming B))) with (p := p) (q := q) (B := B) as (p1 & q1 & E & Hs1 & Hk1 & _ & Hlt);
    [apply Forall_forall; intros e; rewrite range_elem; lia | done | done |]; specialize (Hlt Hex).
  { pose proof (potential_nonneg p1 q1 (st_layout _ _ _ _ _ (sa_settled _ _ _ Hs1))). lia. }
  rewrite E. cbn [mbind option_bind fst snd]. destruct (Hk1 b B HB) as (B1 & HB1 & Ez).
  destruct (IH p1 q1 B1 Hs1 HB1) as (p' & q' & E' & Hs' & Hp'); [lia |]. unfold PBlock.SizeOfIncoming in *. rewrite Ez in E'.
  exists p', q'. split; [done |]. split; [done | lia].
Qed.

Lemma agenda_loop_ok fuel : forall p q, state p q (-1) -> potential p q <= Z.of_nat fuel ->
  exists p', agenda_loop fuel p q = Some p' /\ state p' [] (-1).
Proof.
  induction fuel as [| fuel IH]; intros p q Hs Hf; destruct q as [| b q].
  1, 3: by exists p.
  all: pose proof (potential_nonneg p q (st_layout _ _ _ _ _ (sa_settled _ _ _ Hs))) as H0.
  all: assert (Hpop : potential p (b :: q) = potential p q + 1) by (unfold potential; rewrite zlen_cons; lia).
  { lia. }
  destruct Hs as [Hset [Ha Hq] Hst Hco Hfi]. destruct (Hq b (list_elem_of_here _ _)) as [B HB]. cbn [agenda_loop]. rewrite HB. cbn [mbind option_bind].
  assert (Hs : state p q b).
  { split; try done. split; [| intros c Hc; by apply Hq, list_elem_of_further]. intros c C HC Hon.
    destruct (Ha c C HC Hon) as [[-> | ]%elem_of_cons | ->]; [by right | by left |]. apply aget_Some_lt in HC. lia. }
  destruct (block_loop_ok b (S fuel) p q B Hs HB) as (p1 & q1 & E & Hs1 & Hp1); [lia |]. rewrite E. cbn [mbind option_bind fst snd].
  apply IH; [done | lia].
Qed.

(** At the end the partition is stable. *)
Lemma state_stable p x y e c : state p [] (-1) -> valid n x -> valid n y -> valid n c -> 0 <= e -> blk p x = blk p y -> (e, x) ∈ pr c ->
  exists c', valid n c' /\ (e, y) ∈ pr c' /\ blk p c' = blk p c.
Proof.
  intros [Hset [Ha _] Hst _ _] Hx Hy Hc He E Hin.
  assert (Hno : forall b e', ~ markb p b e').
  { intros b e' (B & HB & Hm). destruct (Ha b B HB) as [?%not_elem_of_nil | ->]; [| done | apply aget_Some_lt in HB; lia].
    eapply marked_on_agenda; [| done]. by apply (st_cells _ _ _ _ _ Hset b B). }
  destruct (Hst x y e c) as [(c' & ? & ? & [|]) | [| []]]; try done; [by exists c' | by edestruct Hno ..].
Qed.
End Loop.
