(* ===== verification/MinimizerInit.v ===== *)
(** * The minimizer: the initial partition and agenda

    [Partition::InitBlocks] makes a block of the nodes of every key, and
    [InitAgenda] puts every block on the agenda with every edge. *)

From S2P Require Import Prelude Config HeaderOp AliceData Minimizer MinimizerSort MinimizerOrder MinimizerBlock.
From S2P Require Import MinimizerLayout MinimizerSplit MinimizerHopcroft.

Implicit Types (p : Partition) (B : PBlock) (b e x y i : Z).

(** ** The agenda of all blocks *)

Lemma put_edges_ok edges : Forall (fun e => 0 <= e) edges -> forall B,
  let '(flag, B') := PBlock.put_edges B edges in
  same_span B B' /\ (bwf B -> bwf B') /\ zlen (pb_incoming B') = zlen (pb_incoming B) /\
  (forall e, 0 <= e -> inc B' e = inc B e /\ (mark B' e = true <-> mark B e = true \/ (e ∈ edges /\ 0 < inc B e))) /\
  (forall e, e ∈ edges -> 0 < inc B e -> flag = true).
Proof.
  induction 1 as [| e edges He _ IH]; intros B; cbn [PBlock.put_edges].
  { split; [done |]. split; [done |]. split; [done |]. split; [| by intros e ?%not_elem_of_nil]. intros e He. split; [done |].
    split; [by left |]. intros [| [?%not_elem_of_nil _]]; done. }
  assert (Hput : exists flag B1, PBlock.put_edge B e = (flag, B1) /\ (flag = true <-> 0 < inc B e) /\ same_span B B1 /\ (bwf B -> bwf B1) /\
    zlen (pb_incoming B1) = zlen (pb_incoming B) /\
    forall e', 0 <= e' -> inc B1 e' = inc B e' /\ (mark B1 e' = true <-> mark B e' = true \/ (e' = e /\ 0 < inc B e))).
  { unfold PBlock.put_edge. pose proof (inc_Sub B e) as Hi. destruct (PBlock.Sub B e) as [v |] eqn:E.
    - destruct (Z.eqb_spec v 0) as [-> | Hv].
      + exists false, B. rewrite Hi. split_and!; try done. intros e' _. split; [done |]. split; [by left |]. intros [| [-> ?]]; [done | lia].
      + destruct (PutOnAgenda_spec B e He) as [Os Ow Oi Om Oo _ Oe _]. exists true, (PBlock.PutOnAgenda B e). split; [done |]. split; [split; [lia | done] |].
        split_and!; try done; [apply Oe; lia |]. intros e' He'. destruct (decide (e' = e)) as [-> | Hne].
        * split; [done |]. rewrite Om. split; [intros ?%Z.ltb_lt; by right | intros _; apply Z.ltb_lt; lia].
        * destruct (Oo e' He' Hne) as [-> ->]. split; [done |]. split; [by left | intros [| [-> _]]; done].
    - exists false, B. rewrite Hi. split_and!; try done. intros e' _. split; [done |]. split; [by left |]. intros [| [-> ?]]; [done | lia]. }
  destruct Hput as (flag & B1 & -> & Hf & Hs1 & Hw1 & Hz1 & Hc1). specialize (IH B1). destruct (PBlock.put_edges B1 edges) as [flag' B2].
  destruct IH as (Hs2 & Hw2 & Hz2 & Hc2 & Hf2). split; [by etrans |]. split; [auto |]. split; [congruence |]. split.
  - intros e' He'. destruct (Hc1 e' He') as [I1 M1], (Hc2 e' He') as [I2 M2]. split; [congruence |]. rewrite M2, M1, I1, elem_of_cons.
    split; [intros [[| [-> ?]] | [? ?]]; auto | intros [| [[-> |] ?]]; auto].
  - intros e' [-> | Hin]%elem_of_cons Hp; [by rewrite (proj2 Hf Hp) |]. rewrite (Hf2 e' Hin); [by rewrite orb_true_r |].
    destruct (decide (0 <= e')) as [He' | Hno]; [by destruct (Hc1 e' He') as [-> _] |]. apply inc_in_range in Hp. lia.
Qed.

(** A block as it is before and after its edges are put on the agenda. *)
Definition all_put B B' : Prop :=
  same_span B B' /\ (bwf B -> bwf B') /\ zlen (pb_incoming B') = zlen (pb_incoming B) /\
  forall e, 0 <= e -> inc B' e = inc B e /\ (0 < inc B e -> mark B' e = true).

Lemma PutComplete_ok B b q : bwf B -> (forall e, 0 <= e -> mark B e = false) ->
  let '(B', q') := PBlock.PutCompleteOnAgenda B b q in
  all_put B B' /\ (PBlock.IsOnAgenda B' = true -> b ∈ q') /\ (q' = q \/ q' = b :: q).
Proof.
  intros Hw Hun. unfold PBlock.PutCompleteOnAgenda. pose proof (put_edges_ok (reverse (seqZ 0 (PBlock.SizeOfIncoming B)))) as Hp.
  assert (Hnn : Forall (fun e => 0 <= e) (reverse (seqZ 0 (PBlock.SizeOfIncoming B)))).
  { apply Forall_forall. intros e. rewrite elem_of_reverse, elem_of_seqZ. lia. }
  specialize (Hp Hnn B). destruct (PBlock.put_edges B _) as [flag B']. destruct Hp as (Hs & Hw' & Hz & Hc & Hf).
  assert (Hin : forall e, 0 < inc B e -> e ∈ reverse (seqZ 0 (PBlock.SizeOfIncoming B))).
  { intros e He. apply inc_in_range in He. rewrite elem_of_reverse, elem_of_seqZ. unfold PBlock.SizeOfIncoming. lia. }
  split; [| split].
  - split; [done |]. split; [done |]. split; [done |]. intros e He. destruct (Hc e He) as [-> Hm]. split; [done |]. intros Hp. apply Hm. auto.
  - intros Hon. destruct (on_agenda_marked B' (Hw' Hw) Hon) as [e Hm]. pose proof (mark_in_range _ _ Hm) as [He _]. destruct (Hc e He) as [Hi Hm'].
    apply Hm' in Hm as [Hm | [Hie Hp]]; [by rewrite Hun in Hm |]. rewrite (Hf e Hie Hp). apply list_elem_of_here.
  - destruct flag; auto.
Qed.

Lemma init_agenda_ok blocks : forall i q,
  (forall B, B ∈ blocks -> bwf B /\ forall e, 0 <= e -> mark B e = false) ->
  let '(blocks', q') := init_agenda blocks i q in
  Forall2 all_put blocks blocks' /\
  (forall k B', blocks' !! k = Some B' -> PBlock.IsOnAgenda B' = true -> i + Z.of_nat k ∈ q') /\
  (forall b, b ∈ q' -> b ∈ q \/ i <= b < i + zlen blocks) /\ (forall b, b ∈ q -> b ∈ q') /\ zlen q' <= zlen q + zlen blocks.
Proof.
  induction blocks as [| B blocks IH]; intros i q Hb; cbn [init_agenda].
  { split; [constructor |]. split; [done |]. split; [auto |]. split; [done |]. rewrite zlen_nil. lia. }
  specialize (IH (i + 1) q). destruct (init_agenda blocks (i + 1) q) as [blocks' q1].
  destruct IH as (HF & Hon & Hq & Hm & Hz). { intros B' HB'. by apply Hb, list_elem_of_further. }
  destruct (Hb B (list_elem_of_here _ _)) as [Hw Hun]. pose proof (PutComplete_ok B i q1 Hw Hun) as Hp. destruct (PBlock.PutCompleteOnAgenda B i q1) as [B' q'].
  destruct Hp as (Hap & Honb & Hq').
  assert (Hsub : forall b, b ∈ q1 -> b ∈ q'). { intros b Hb1. destruct Hq' as [-> | ->]; [done | by apply list_elem_of_further]. }
  rewrite zlen_cons. pose proof (zlen_nonneg blocks). split; [by constructor |]. split; [| split; [| split]].
  - intros [| k] C HC Hc; [injection HC as <-; rewrite Z.add_0_r; auto |]. replace (i + Z.of_nat (S k)) with (i + 1 + Z.of_nat k) by lia. by eapply Hsub, Hon.
  - intros b Hbq. assert (b = i \/ b ∈ q1) as [-> | Hb1]; [| lia |]. { destruct Hq' as [-> | ->]; [by right | by apply elem_of_cons in Hbq]. }
    destruct (Hq b Hb1) as [| ?]; [by left | right; lia].
  - auto.
  - destruct Hq' as [-> | ->]; rewrite ?zlen_cons; lia.
Qed.

(** ** The initial blocks *)

Section Init.
Context `{Platform} {C : Type} (st : AliceData.store C).
Variables (n W : Z) (pr : Z -> list (Z * Z)) (wd : Z -> word) (K : Z -> list Z).
Hypothesis HW : forall x, valid n x -> edges_in W (pr x).
Hypothesis HW0 : 0 < W.
Hypothesis Hkey : forall x, valid n x -> key st (wd x) = Some (K x).
Hypothesis Huni : forall x y, valid n x -> valid n y -> uniform st (wd x) (wd y).

#[local] Abbreviation nodes_ok := (nodes_ok n pr wd).

Lemma compare_nodes x y nx ny nodes : nodes_ok nodes -> aget nodes x = Some nx -> aget nodes y = Some ny ->
  PNode.Compare st nx ny = Some (lexcmp (K x) (K y)).
Proof.
  intros [Hlen Ho] Hx Hy. pose proof (aget_Some_lt _ _ _ Hx) as Vx. pose proof (aget_Some_lt _ _ _ Hy) as Vy. rewrite Hlen in Vx, Vy.
  unfold PNode.Compare. destruct (Ho x nx Hx) as (_ & _ & ->), (Ho y ny Hy) as (_ & _ & ->). apply compare_lex; auto.
Qed.

(** Partitions as the loader leaves them. *)
Record loaded p : Prop := {
  lo_nodes : nodes_ok (p_nodes p);
  lo_arr : arr_ok n (p_na p) (p_lua p);
  lo_blk : forall x, valid n x -> blk p x = -1;
  lo_toDo : p_toDo p = []
}.

Lemma Sort_sorts p : loaded p -> exists a lua, Sort st p = Some (with_na a lua p) /\ arr_ok n a lua /\
  forall i j x y, 0 <= i -> i <= j -> j < n -> aget a i = Some x -> aget a j = Some y -> lexcmp (K x) (K y) <= 0.
Proof.
  intros [Hn Ha _ _]. unfold Sort. pose proof (ao_len _ _ _ Ha) as Hz.
  destruct (sort_ok (p_nodes p) (cmp_nodes st p) (fun x y => lexcmp (K x) (K y)) n) with (fuel := length (p_na p)) (a := p_na p) (lua := p_lua p) (l := 0) (r := zlen (p_na p) - 1)
    as (a & lua & -> & Ho & _ & Hs).
  - apply Hn.
  - by eapply nodes_num.
  - intros x y Hx Hy. unfold cmp_nodes. destruct (aget_is_Some (p_nodes p) x) as [nx Ex]; [by rewrite (proj1 Hn) |].
    destruct (aget_is_Some (p_nodes p) y) as [ny Ey]; [by rewrite (proj1 Hn) |]. rewrite Ex, Ey. cbn [mbind option_bind]. by eapply compare_nodes.
  - done.
  - lia.
  - lia.
  - unfold zlen. lia.
  - cbn [mbind option_bind fst snd]. exists a, lua. split; [done |]. split; [done |]. intros i j x y ???. apply Hs; lia.
Qed.

(** The array in its sorted order. *)
Variables (a lua : list Z).
Hypothesis Harr : arr_ok n a lua.
Hypothesis Hsorted : forall i j x y, 0 <= i -> i <= j -> j < n -> aget a i = Some x -> aget a j = Some y -> lexcmp (K x) (K y) <= 0.

Definition nblk (nodes : list PNode) x : Z := match aget nodes x with Some nd => pn_block nd | None => -1 end.
Definition at_i x i : Prop := aget a i = Some x.

(** The nodes in front of position [i] are in the finished [blocks] or in [nb]. *)
Record scanned (nodes : list PNode) (blocks : list PBlock) nb i : Prop := {
  sn_nodes : nodes_ok nodes;
  sn_start : 0 <= pb_start nb <= i;
  sn_span : forall c C, aget blocks c = Some C -> 0 <= pb_start C <= pb_end C /\ pb_end C < pb_start nb /\ pb_split C = pb_end C;
  sn_rest : forall x j, at_i x j -> i <= j -> nblk nodes x = -1;
  sn_new : forall x j, at_i x j -> pb_start nb <= j < i -> nblk nodes x = zlen blocks;
  sn_old : forall x j, at_i x j -> j < pb_start nb -> exists C, aget blocks (nblk nodes x) = Some C;
  sn_in : forall c C x j, aget blocks c = Some C -> at_i x j -> nblk nodes x = c <-> pb_start C <= j <= pb_end C;
  sn_counted : (forall c C, aget blocks c = Some C -> counted W nodes c C) /\ counted W nodes (zlen blocks) nb;
  sn_marks : (forall c C, aget blocks c = Some C -> forall e, 0 <= e -> mark C e = false) /\ forall e, 0 <= e -> mark nb e = false;
  sn_key : forall x y j k, at_i x j -> at_i y k -> j < i -> k < i -> nblk nodes x = nblk nodes y <-> K x = K y
}.

Lemma at_i_lt x j : at_i x j -> 0 <= j < n /\ valid n x.
Proof.
  intros E. pose proof (aget_Some_lt _ _ _ E) as Hr. rewrite (ao_len _ _ _ Harr) in Hr. split; [done |].
  pose proof (aget_Some_lt _ _ _ (ao_lua _ _ _ Harr _ _ E)) as Hr'. by rewrite (ao_lua_len _ _ _ Harr) in Hr'.
Qed.

Lemma at_i_inj x j k : at_i x j -> at_i x k -> j = k.
Proof. intros E1 E2. pose proof (ao_lua _ _ _ Harr _ _ E1). pose proof (ao_lua _ _ _ Harr _ _ E2). congruence. Qed.

Lemma at_some x : valid n x -> exists j, at_i x j.
Proof. intros Hx. destruct (arr_ok_lookup _ _ _ x Harr Hx) as (j & Ej & _). exists j. by apply (ao_a _ _ _ Harr). Qed.

(** The scan closes a block. *)
Lemma close_block nodes blocks nb i :
  scanned nodes blocks nb i -> pb_start nb < i ->
  scanned nodes (blocks ++ [PBlock.SetSplitIndex (PBlock.SetEnd nb (i - 1)) (i - 1)]) (PBlock.New i 0) i.
Proof.
  intros [Sn Ss Sp Sr Sw So Si [Cb Cn] [Mb Mn] Sk] Hi. set (nb' := PBlock.SetSplitIndex _ _).
  assert (Hz : zlen (blocks ++ [nb']) = zlen blocks + 1) by (rewrite zlen_app; done).
  assert (Hget : forall c X, aget (blocks ++ [nb']) c = Some X -> (c <> zlen blocks /\ aget blocks c = Some X) \/ (c = zlen blocks /\ X = nb')).
  { intros c X HX. destruct (decide (c < zlen blocks)); [rewrite aget_app_l in HX by lia; left; split; [lia | done] |].
    pose proof (aget_Some_lt _ _ _ HX) as Hr. rewrite Hz in Hr. replace c with (zlen blocks) in * by lia. rewrite aget_app_r, Z.sub_diag in HX by lia. right. by injection HX as <-. }
  assert (Hblk : forall x j, at_i x j -> nblk nodes x = zlen blocks -> pb_start nb <= j < i).
  { intros x j Ex Eb. destruct (decide (i <= j)); [rewrite (Sr x j) in Eb by done; pose proof (zlen_nonneg blocks); lia |].
    destruct (decide (j < pb_start nb)); [| lia]. destruct (So x j Ex) as [D HD]; [done |]. rewrite Eb in HD. apply aget_Some_lt in HD. lia. }
  split.
  - done.
  - cbn. lia.
  - intros c X [[_ HX] | [-> ->]]%Hget; cbn; [| lia]. destruct (Sp c X HX) as (? & ? & ?). lia.
  - done.
  - cbn. intros x j _. lia.
  - cbn. intros x j Ex Hj. destruct (decide (j < pb_start nb)) as [Hlt | Hge].
    + destruct (So x j Ex Hlt) as [D HD]. exists D. rewrite aget_app_l; [done |]. apply aget_Some_lt in HD; lia.
    + exists nb'. rewrite (Sw x j Ex) by lia. rewrite aget_app_r, Z.sub_diag by lia. done.
  - intros c X x j [[_ HX] | [-> ->]]%Hget Ex; [by apply Si |]. cbn. split; [intros Eb; specialize (Hblk x j Ex Eb); lia | intros Hj; apply (Sw x j); [done | lia]].
  - split; [intros c X [[_ HX] | [-> ->]]%Hget; [by apply Cb | exact Cn] |]. rewrite Hz. apply new_block_counted; [done |]. intros e He.
    apply weight_none. intros x nd Hnd. destruct (at_some x) as [j Ex]. { rewrite <- (proj1 Sn). by eapply aget_Some_lt. }
    assert (Hx : nblk nodes x = pn_block nd) by (unfold nblk; by rewrite Hnd). rewrite <- Hx. pose proof (zlen_nonneg blocks).
    destruct (decide (i <= j)); [rewrite (Sr x j) by done; lia |]. destruct (decide (j < pb_start nb)); [| rewrite (Sw x j); [lia | done | lia]].
    destruct (So x j Ex) as [D HD]; [done |]. apply aget_Some_lt in HD. lia.
  - split; [intros c X [[_ HX] | [-> ->]]%Hget; [by eapply Mb | exact Mn] |]. intros e. apply New_unmarked.
  - done.
Qed.

(** The scan puts the next node into the current block. *)
Lemma add_node nodes blocks nb i cur nd :
  scanned nodes blocks nb i -> at_i cur i -> aget nodes cur = Some nd ->
  (forall x j, at_i x j -> j < i -> nblk nodes x = zlen blocks <-> K x = K cur) ->
  let '(nd', nb') := PNode.SetBlock nd nb (zlen blocks) in
  pb_start nb' = pb_start nb /\ exists nodes', aset nodes cur nd' = Some nodes' /\ scanned nodes' blocks nb' (i + 1).
Proof.
  intros [Sn Ss Sp Sr Sw So Si [Cb Cn] [Mb Mn] Sk] Ecur Hnd Hk. destruct (at_i_lt _ _ Ecur) as [Hi Vcur]. unfold PNode.SetBlock.
  destruct Sn as [Hlen Ho]. destruct (Ho cur nd Hnd) as (Hnum & Hpd & Hwd). rewrite Hpd.
  destruct (increment_all W (pr cur) nb (HW cur Vcur)) as ((Is & Ie & Ip) & Iw & Iz & Ii). set (nb' := foldr _ nb (pr cur)) in *. split; [done |].
  destruct (aset nodes cur (PNode.set_block nd (zlen blocks))) as [nodes' |] eqn:E; [| rewrite aset_Some in E by (by eapply aget_Some_lt); done].
  exists nodes'. split; [done |]. pose proof (zlen_nonneg blocks) as Hz.
  assert (Hb : forall x, nblk nodes' x = if decide (x = cur) then zlen blocks else nblk nodes x).
  { intros x. unfold nblk. case_decide as D; [subst x; by rewrite (aget_aset_eq _ _ _ _ E) | by rewrite (aget_aset_ne _ _ _ _ _ E)]. }
  assert (Hold : pn_block nd = -1). { pose proof (Sr cur i Ecur (Z.le_refl i)) as Hc. unfold nblk in Hc. by rewrite Hnd in Hc. }
  assert (Hw : forall c e, 0 <= c -> weight nodes' c e = weight nodes c e + (if zlen blocks =? c then occ (pr cur) e else 0)).
  { intros c e Hc. rewrite (weight_set _ _ _ _ _ c e Hnd E). unfold contrib. cbn [PNode.set_block pn_block pn_preds].
    rewrite Hold, (proj2 (Z.eqb_neq (-1) c)), Hpd by lia. lia. }
  assert (Hne : forall x j, at_i x j -> j <> i -> x <> cur) by (intros x j Ex Hj ->; by apply Hj, (at_i_inj cur)).
  split.
  - split; [by rewrite (aset_zlen _ _ _ _ E) |]. intros y d Hy. destruct (decide (cur = y)) as [<- | Hcy].
    + rewrite (aget_aset_eq _ _ _ _ E) in Hy. by injection Hy as <-.
    + rewrite (aget_aset_ne _ _ _ _ _ E) in Hy by done. by apply Ho.
  - lia.
  - rewrite Is. done.
  - intros x j Ex Hj. rewrite Hb, decide_False by (apply (Hne x j Ex); lia). apply (Sr x j); [done | lia].
  - intros x j Ex Hj. rewrite Hb. case_decide as D; [done |]. apply (Sw x j Ex). rewrite Is in Hj.
    assert (j <> i) by (intros ->; apply D; unfold at_i in *; congruence). lia.
  - intros x j Ex Hj. rewrite Is in Hj. rewrite Hb, decide_False by (apply (Hne x j Ex); lia). by apply (So x j).
  - intros c X x j HX Ex. rewrite Hb. case_decide as D; [| by apply Si]. subst x. rewrite (at_i_inj cur j i) by done.
    pose proof (aget_Some_lt _ _ _ HX). destruct (Sp c X HX) as (? & ? & _). lia.
  - split.
    + intros c X HX. destruct (Cb c X HX) as (? & ? & Hi'). split; [done |]. split; [done |]. intros e He. pose proof (aget_Some_lt _ _ _ HX).
      rewrite Hw, Hi', (proj2 (Z.eqb_neq _ _)) by lia. lia.
    + destruct Cn as (Cw & Cz & Ci). split; [auto |]. split; [auto |]. intros e He. destruct (Ii e He) as [-> _]. rewrite Hw, Z.eqb_refl, Ci by done. done.
  - split; [exact Mb |]. intros e He. destruct (Ii e He) as [_ ->]. auto.
  - assert (Hcur : forall x j, at_i x j -> j < i + 1 -> x <> cur -> j < i).
    { intros x j Ex Hj Hx. assert (j <> i) by (intros ->; apply Hx; unfold at_i in *; congruence). lia. }
    intros x y j k Ex Ey Hj Hk'. rewrite !Hb. case_decide as D; case_decide as D'; subst.
    + done.
    + pose proof (Hk y k Ey (Hcur y k Ey Hk' D')). split; intros ?; symmetry; apply H0; congruence.
    + apply (Hk x j Ex). by apply (Hcur x j).
    + apply (Sk x y j k); [done | done | by apply (Hcur x j) | by apply (Hcur y k)].
Qed.

Lemma init_loop_ok ids : forall i nodes blocks nb last,
  drop (Z.to_nat i) a = ids -> scanned nodes blocks nb i -> pb_start nb < i <= n -> at_i last (i - 1) ->
  exists nodes' blocks', init_loop st ids i nodes blocks nb last = Some (nodes', blocks') /\ scanned nodes' blocks' (PBlock.New n 0) n.
Proof.
  induction ids as [| cur ids IH]; intros i nodes blocks nb last Hids Hs Hi Hlast; cbn [init_loop]; pose proof (sn_start _ _ _ _ Hs) as Hst.
  { assert (i = n) as ->. { pose proof (f_equal length Hids) as Hl. rewrite length_drop in Hl. cbn in Hl. pose proof (ao_len _ _ _ Harr) as Hn. unfold zlen in Hn. lia. }
    eexists _, _. split; [done |]. apply close_block; [done | lia]. }
  assert (Ecur : at_i cur i).
  { unfold at_i, aget. rewrite decide_True by lia. rewrite <- (Nat.add_0_r (Z.to_nat i)), <- lookup_drop, Hids. done. }
  assert (Hids' : drop (Z.to_nat (i + 1)) a = ids). { replace (Z.to_nat (i + 1)) with (1 + Z.to_nat i)%nat by lia. by rewrite Nat.add_comm, <- drop_drop, Hids. }
  destruct (at_i_lt _ _ Ecur) as [Hin Vcur]. destruct (at_i_lt _ _ Hlast) as [_ Vlast]. pose proof (sn_nodes _ _ _ _ Hs) as Hn.
  destruct (aget_is_Some nodes cur) as [nd End]; [by rewrite (proj1 Hn) |]. destruct (aget_is_Some nodes last) as [nl Enl]; [by rewrite (proj1 Hn) |].
  rewrite End, Enl. cbn [mbind option_bind]. rewrite (compare_nodes cur last nd nl nodes) by done. cbn [mbind option_bind].
  assert (Hle : forall x j, at_i x j -> j < i -> lexcmp (K x) (K last) <= 0). { intros x j Ex Hj. destruct (at_i_lt _ _ Ex). apply (Hsorted j (i - 1)); [lia .. | done | done]. }
  assert (Hcl : 0 <= lexcmp (K cur) (K last)). { rewrite lexcmp_anti. pose proof (Hsorted (i - 1) i last cur). assert (lexcmp (K last) (K cur) <= 0); [| lia]. apply H0; [lia .. | done | done]. }
  rewrite (proj2 (Z.eqb_neq _ _)) by lia. destruct (Z.eqb_spec (lexcmp (K cur) (K last)) 1) as [E1 | E1].
  - pose proof (close_block _ _ _ _ Hs (proj1 Hi)) as Hs1. set (blocks1 := blocks ++ _) in *.
    pose proof (add_node nodes blocks1 (PBlock.New i 0) i cur nd Hs1 Ecur End) as Ha. destruct (PNode.SetBlock nd (PBlock.New i 0) (zlen blocks1)) as [nd' nb'].
    destruct Ha as (Est & nodes' & -> & Hs').
    { intros x j Ex Hj. split; [intros Eb | intros Ek].
      - destruct (sn_old _ _ _ _ Hs1 x j Ex Hj) as [D HD]. rewrite Eb in HD. apply aget_Some_lt in HD. lia.
      - specialize (Hle x j Ex Hj). rewrite Ek, E1 in Hle. lia. }
    cbn [mbind option_bind]. apply (IH (i + 1)); [done | done | rewrite Est; cbn; lia |]. by replace (i + 1 - 1) with i by lia.
  - pose proof (add_node nodes blocks nb i cur nd Hs Ecur End) as Ha. destruct (PNode.SetBlock nd nb (zlen blocks)) as [nd' nb'].
    destruct Ha as (Est & nodes' & -> & Hs').
    { assert (EK : K cur = K last). { apply lexcmp_eq. destruct (lexcmp_cases (K cur) (K last)) as [| [|]]; lia. }
      intros x j Ex Hj. rewrite EK, <- (sn_key _ _ _ _ Hs x last j (i - 1)) by (done || lia). rewrite (sn_new _ _ _ _ Hs last (i - 1)); [done | done | lia]. }
    cbn [mbind option_bind]. apply (IH (i + 1)); [done | done | lia |]. by replace (i + 1 - 1) with i by lia.
Qed.
End Init.

Section InitBlocks.
Context `{Platform} {C : Type} (st : AliceData.store C).
Variables (n W : Z) (pr : Z -> list (Z * Z)) (wd : Z -> word) (K : Z -> list Z).
Hypothesis HW : forall x, valid n x -> edges_in W (pr x).
Hypothesis HW0 : 0 < W.
Hypothesis Hkey : forall x, valid n x -> key st (wd x) = Some (K x).
Hypothesis Huni : forall x y, valid n x -> valid n y -> uniform st (wd x) (wd y).

Lemma scanned_start a lua nodes : arr_ok n a lua -> nodes_ok n pr wd nodes -> (forall x, valid n x -> nblk nodes x = -1) ->
  scanned n W pr wd K a nodes [] (PBlock.New 0 0) 0.
Proof.
  intros Ha Hn Hb. assert (Hnil : forall c X, aget ([] : list PBlock) c = Some X -> False) by (intros c X HX%aget_Some_lt; unfold zlen in HX; cbn in HX; lia).
  split.
  - done.
  - done.
  - by intros c X ?%Hnil.
  - intros x j Ex _. apply Hb. by eapply at_i_lt.
  - cbn. lia.
  - cbn. intros x j [? _]%(at_i_lt n _ _ Ha). lia.
  - by intros c X x j ?%Hnil.
  - split; [by intros c X ?%Hnil |]. apply new_block_counted; [done |]. intros e He. apply weight_none. intros x nd Hnd.
    assert (Hx : nblk nodes x = pn_block nd) by (unfold nblk; by rewrite Hnd). rewrite <- Hx, Hb; [done |]. rewrite <- (proj1 Hn : zlen nodes = n). by eapply aget_Some_lt.
  - split; [by intros c X ?%Hnil |]. intros e. apply New_unmarked.
  - intros x y j k [? _]%(at_i_lt n _ _ Ha). lia.
Qed.

Lemma scanned_settled a lua p nodes blocks :
  arr_ok n a lua -> scanned n W pr wd K a nodes blocks (PBlock.New n 0) n -> p_na p = a -> p_lua p = lua -> p_toDo p = [] ->
  settled n W pr wd (with_blocks blocks (with_nodes nodes p)).
Proof.
  intros Ha Hs Ea El Et. set (p' := with_blocks blocks (with_nodes nodes p)).
  assert (Hat : forall x, valid n x -> at_i a x (pos p' x) /\ valid n (pos p' x)).
  { intros x Hx. destruct (arr_ok_lookup _ _ _ x Ha Hx) as (j & Ej & Hj). assert (Ep : pos p' x = j) by (apply pos_aget; by rewrite <- El in Ej).
    rewrite Ep. split; [by apply (ao_a _ _ _ Ha) | done]. }
  split; [split | | |].
  - apply Hs.
  - cbn. by rewrite Ea, El.
  - intros c X HX. destruct (sn_span _ _ _ _ _ _ _ _ _ _ Hs c X HX) as (? & Hlt & ?). cbn in Hlt. lia.
  - intros x Hx. destruct (Hat x Hx) as [Ex Hp]. apply (sn_old _ _ _ _ _ _ _ _ _ _ Hs x _ Ex). apply Hp.
  - intros c X x HX Hx. destruct (Hat x Hx) as [Ex Hp]. by apply (sn_in _ _ _ _ _ _ _ _ _ _ Hs c X x).
  - intros c X. apply (sn_counted _ _ _ _ _ _ _ _ _ _ Hs).
  - intros c X HX. by apply (sn_span _ _ _ _ _ _ _ _ _ _ Hs c X HX).
  - done.
Qed.

(** The blocks are the classes of nodes of the same key. *)
Lemma InitBlocks_ok p : loaded n pr wd p -> 0 < n ->
  exists p', InitBlocks st p = Some p' /\ settled n W pr wd p' /\
    (forall c B, aget (p_blocks p') c = Some B -> forall e, 0 <= e -> mark B e = false) /\
    (forall x y, valid n x -> valid n y -> blk p' x = blk p' y <-> K x = K y).
Proof.
  intros Hlo H0. destruct (Sort_sorts st n pr wd K Hkey Huni p Hlo) as (a & lua & E & Ha & Hsort).
  unfold InitBlocks. rewrite E. cbn [mbind option_bind with_na p_na p_nodes].
  destruct (arr_ok_get _ _ _ 0 Ha) as (id & Eid & Vid); [lia |]. destruct a as [| id' ids]; [done |]. replace id' with id in * by (cbn in Eid; by injection Eid).
  destruct (aget_is_Some (p_nodes p) id) as [nd End]; [by rewrite (proj1 (lo_nodes _ _ _ _ Hlo)) |]. rewrite End. cbn [mbind option_bind].
  pose proof (scanned_start _ _ _ Ha (lo_nodes _ _ _ _ Hlo) (lo_blk _ _ _ _ Hlo)) as Hs.
  pose proof (add_node st n W pr wd K HW Hkey Huni _ _ Ha Hsort _ _ _ _ id nd Hs Eid End) as Hadd. change (zlen ([] : list PBlock)) with 0 in Hadd.
  destruct (PNode.SetBlock nd (PBlock.New 0 0) 0) as [nd' nb']. destruct Hadd as (Est & nodes1 & -> & Hs1).
  { intros x j [? _]%(at_i_lt n _ _ Ha). lia. }
  cbn [mbind option_bind]. destruct (init_loop_ok st n W pr wd K HW HW0 Hkey Huni _ _ Ha Hsort ids 1 nodes1 [] nb' id) as (nodes' & blocks' & -> & Hs');
    [done | exact Hs1 | rewrite Est; cbn; lia | exact Eid |].
  cbn [mbind option_bind fst snd]. eexists. split; [done |]. split; [by eapply (scanned_settled (id :: ids) lua); [| | | | apply Hlo] |]. split.
  - apply (sn_marks _ _ _ _ _ _ _ _ _ _ Hs').
  - intros x y Hx Hy. destruct (at_some n _ _ Ha x Hx) as [j Ex], (at_some n _ _ Ha y Hy) as [k Ey].
    apply (sn_key _ _ _ _ _ _ _ _ _ _ Hs' x y j k); [done | done | by apply (at_i_lt n _ _ Ha) in Ex as [? _]; lia | by apply (at_i_lt n _ _ Ha) in Ey as [? _]; lia].
Qed.

(** The agenda holds every block that has a parent, with all its edges. *)
Lemma InitAgenda_ok (R L : Z -> Z -> Prop) p : settled n W pr wd p ->
  (forall c B, aget (p_blocks p) c = Some B -> forall e, 0 <= e -> mark B e = false) ->
  (forall x y, valid n x -> valid n y -> R x y -> blk p x = blk p y) -> (forall x y, valid n x -> valid n y -> blk p x = blk p y -> L x y) ->
  let '(p', q) := InitAgenda p in
  state n W pr wd R L p' q (-1) /\ (forall x, blk p' x = blk p x) /\ potential n W p' q <= 2 * (W + 1) * n.
Proof.
  intros [Hl Hc Hs Ht] Hun Hco Hfi. unfold InitAgenda.
  assert (Hb : forall B, B ∈ p_blocks p -> bwf B /\ forall e, 0 <= e -> mark B e = false).
  { intros B [k Hk]%list_elem_of_lookup. assert (G : aget (p_blocks p) (Z.of_nat k) = Some B) by (unfold aget; by rewrite decide_True, Nat2Z.id by lia).
    split; [by apply (Hc _ _ G) | by apply (Hun _ _ G)]. }
  pose proof (init_agenda_ok (p_blocks p) 0 [] Hb) as Hi. destruct (init_agenda (p_blocks p) 0 []) as [blocks q]. destruct Hi as (HF & Hon & Hq & _ & Hz).
  assert (Hget : forall c B', aget blocks c = Some B' -> exists B, aget (p_blocks p) c = Some B /\ all_put B B').
  { intros c B' G. unfold aget in *. case_decide; [| done]. destruct (Forall2_lookup_r _ _ _ _ _ HF G) as (B & ? & ?). by exists B. }
  assert (Hget' : forall c B, aget (p_blocks p) c = Some B -> exists B', aget blocks c = Some B' /\ all_put B B') by (intros c B; by apply Forall2_aget).
  set (p' := with_blocks blocks p). assert (Hcells : cells W p').
  { intros c B' (B & HB & ((_ & _ & _) & Hw & Hsz & Hi))%Hget. destruct (Hc c B HB) as (? & ? & Hinc). split; [auto |]. split; [lia |].
    intros e He. destruct (Hi e He) as [-> _]. by apply Hinc. }
  assert (Hl' : layout n pr wd p').
  { split; [apply Hl .. | | |].
    - intros c B' (B & HB & ((-> & -> & ->) & _))%Hget. by apply (ly_span _ _ _ _ Hl c).
    - intros x Hx. destruct (ly_block _ _ _ _ Hl x Hx) as [B HB]. destruct (Hget' _ _ HB) as (B' & ? & _). by exists B'.
    - intros c B' x (B & HB & ((-> & -> & _) & _))%Hget Hx. by apply (ly_in _ _ _ _ Hl c B x). }
  split; [split |].
  - split; [done | done | | done]. intros c B' (B & HB & ((_ & -> & ->) & _))%Hget. by apply (Hs c).
  - split.
    + intros c B' HB' Hag. left. pose proof (aget_Some_lt _ _ _ HB'). replace c with (0 + Z.of_nat (Z.to_nat c)) by lia. eapply Hon; [| done].
      unfold p', aget in HB'. cbn in HB'. by case_decide.
    + intros c Hcq. apply aget_is_Some. cbn. pose proof (Forall2_length _ _ _ HF) as Hlen. destruct (Hq c Hcq) as [?%not_elem_of_nil | ?]; [done |].
      unfold zlen in *. lia.
  - intros x y e c Hx Hy Hcv He Exy Hin. right; left. destruct (ly_block _ _ _ _ Hl' c Hcv) as [B' HB']. exists B'. split; [done |].
    pose proof (counted_inc n W pr wd p' (blk p' c) B' c e x (ly_nodes _ _ _ _ Hl') (Hcells _ _ HB') Hcv eq_refl He Hin) as Hp.
    destruct (Hget _ _ HB') as (B & HB & (_ & _ & _ & Hi)). destruct (Hi e He) as [Ei Hm]. apply Hm. lia.
  - exact Hco.
  - exact Hfi.
  - split; [done |]. change (potential n W p' q) with (total_marks blocks + zlen q + 2 * (W + 1) * (n - zlen blocks)).
    assert (Htm : total_marks blocks <= W * zlen blocks).
    { assert (Hall : forall B, B ∈ blocks -> zlen (pb_incoming B) <= W).
      { intros B [k Hk]%list_elem_of_lookup. assert (G : aget blocks (Z.of_nat k) = Some B) by (unfold aget; by rewrite decide_True, Nat2Z.id by lia). exact (proj1 (proj2 (Hcells _ _ G))). }
      clear - Hall. induction blocks as [| B bs IH]; cbn [total_marks]; [change (@zlen PBlock []) with 0; lia |]. rewrite zlen_cons.
      pose proof (nmarks_bounds (pb_incoming B)). pose proof (Hall B (list_elem_of_here _ _)).
      assert (total_marks bs <= W * zlen bs) by (apply IH; intros B' HB'; by apply Hall, list_elem_of_further). lia. }
    assert (El : zlen blocks = zlen (p_blocks p)) by (unfold zlen; by rewrite (Forall2_length _ _ _ HF)).
    pose proof (blocks_bound n pr wd p' Hl') as Hbd. cbn in Hbd. change (zlen []) with 0 in Hz. pose proof (zlen_nonneg blocks). nia.
Qed.
End InitBlocks.
