(* ===== verification/MinimizerReduce.v ===== *)
(** * The minimizer: the reduced graph (Partition::ReduceGraph)

    Replacing every node by the leader of its block: the words that hold the
    children of the nodes change, and nothing else. *)

From S2P Require Import Prelude Config HeaderOp AliceData Minimizer MinimizerSort MinimizerOrder MinimizerBlock MinimizerLayout.

Implicit Types (p : Partition) (B : PBlock) (b e x y i : Z).

(** ** Stores that differ in the arguments of blocks only *)

Section Shape.
Context `{Platform} {C : Type}.
Implicit Types (st : AliceData.store C).

Inductive same_node : node C -> node C -> Prop :=
  | sn_block l m args args' : length args = length args' -> same_node (NBlock l m args) (NBlock l m args')
  | sn_same nd : same_node nd nd.

Definition same_shape st st' : Prop :=
  (forall a, option_Forall2 same_node (st_get st a) (st_get st' a)) /\ size (st_nodes st') = size (st_nodes st).

#[export] Instance same_node_trans : Transitive same_node.
Proof. intros n1 n2 n3 H1 H2. destruct H1 as [l m a1 a2 E1 | nd]; [| done]. inversion H2; subst; constructor; congruence. Qed.

Lemma same_shape_refl st : same_shape st st.
Proof. split; [| done]. intros a. destruct (st_get st a); constructor. by constructor 2. Qed.

Lemma same_shape_trans st1 st2 st3 : same_shape st1 st2 -> same_shape st2 st3 -> same_shape st1 st3.
Proof.
  intros [H1 E1] [H2 E2]. split; [| congruence]. intros a. specialize (H1 a). specialize (H2 a).
  destruct H1 as [n1 n2 H1 |]; inversion H2; subst; constructor. by etrans.
Qed.

Lemma deref_loop_shape st st' fuel w : (forall a, option_Forall2 same_node (st_get st a) (st_get st' a)) -> deref_loop fuel st' w = deref_loop fuel st w.
Proof.
  intros Hs. revert w. induction fuel as [| fuel IH]; intros [i | a]; cbn; try done; specialize (Hs a);
    destruct (st_get st a) as [nd |], (st_get st' a) as [nd' |]; inversion Hs as [? ? Hn |]; subst; try done; cbn;
    destruct Hn as [| nd]; try done; destruct nd; try done; by rewrite IH.
Qed.

Lemma deref_shape st st' w : same_shape st st' -> deref st' w = deref st w.
Proof. intros [Hs E]. unfold deref. rewrite E. by apply deref_loop_shape. Qed.

Lemma WordToInt_shape st st' w : same_shape st st' -> WordToInt st' w = WordToInt st w.
Proof. intros Hs. unfold WordToInt. by rewrite (deref_shape _ _ _ Hs). Qed.

Lemma WordToBlock_shape st st' w : same_shape st st' -> WordToBlock st' w = WordToBlock st w.
Proof.
  intros Hs. unfold WordToBlock. rewrite (deref_shape _ _ _ Hs). destruct (deref st w) as [[i | a] |]; try done. cbn. destruct Hs as [Hs _]. specialize (Hs a).
  destruct (st_get st a) as [nd |], (st_get st' a) as [nd' |]; inversion Hs as [? ? Hn |]; subst; try done. by destruct Hn.
Qed.

Lemma ReplaceArg_ok st a e w w0 : GetArg st a e = Some w0 ->
  exists st', ReplaceArg st a e w = Some st' /\ same_shape st st' /\
    (forall a' e', GetArg st' a' e' = if decide (a' = a /\ e' = e) then Some w else GetArg st a' e') /\
    (forall a', a' <> a -> st_get st' a' = st_get st a').
Proof.
  unfold GetArg, ReplaceArg, GetArgs. destruct (st_get st a) as [nd |] eqn:Ea; [cbn | done]. destruct nd as [l m args | | |]; try done. cbn. intros He.
  rewrite (aset_Some args e w) by (by eapply aget_Some_lt). cbn. eexists. split; [done |].
  pose proof (aset_Some args e w (aget_Some_lt _ _ _ He)) as Eset.
  assert (Hget : forall a', st_get (st_set st a (NBlock l m (<[Z.to_nat e:=w]> args))) a' = if decide (a' = a) then Some (NBlock l m (<[Z.to_nat e:=w]> args)) else st_get st a').
  { intros a'. unfold st_get, st_set. cbn. case_decide as D; [subst; by rewrite lookup_insert_eq | by rewrite lookup_insert_ne]. }
  split; [split |]; [| | split].
  - intros a'. rewrite Hget. case_decide as D; [subst a'; rewrite Ea; constructor; constructor; by rewrite length_insert |].
    destruct (st_get st a'); constructor. by constructor 2.
  - unfold st_set. cbn. rewrite map_size_insert. unfold st_get in Ea. by rewrite Ea.
  - intros a' e'. rewrite Hget. case_decide as D.
    + subst a'. cbn. case_decide as D'; [destruct D' as [_ ->]; by apply (aget_aset_eq _ _ _ _ Eset) |]. rewrite Ea. cbn. apply (aget_aset_ne _ _ _ _ _ Eset). intros ->; by apply D'.
    + rewrite decide_False by tauto. done.
  - intros a' Ha'. rewrite Hget. by rewrite decide_False.
Qed.
End Shape.

(** ** The graph of a loaded partition *)

Section Reduce.
Context `{Platform} {C : Type} (st : AliceData.store C).
Variables (n : Z) (pr : Z -> list (Z * Z)) (wd : Z -> word) (ad : Z -> Z).

(** Node [x] stands for the block at [ad x]; its incoming edges are exactly the
    arguments of nodes that hold it. *)
Record graph : Prop := {
  gr_block : forall x, valid n x -> WordToBlock st (wd x) = Some (Some (ad x));
  gr_inj : forall x y, valid n x -> valid n y -> ad x = ad y -> x = y;
  gr_pred : forall c e x, valid n c -> (e, x) ∈ pr c <-> valid n x /\ exists w, GetArg st (ad x) e = Some w /\ WordToBlock st w = Some (Some (ad c));
  gr_args : forall x e w, valid n x -> GetArg st (ad x) e = Some w ->
    (exists i, WordToInt st w = Some (Some i)) \/ (exists c, valid n c /\ WordToBlock st w = Some (Some (ad c)))
}.

Hypothesis G : graph.

Lemma gr_fun e x c c' : valid n c -> valid n c' -> (e, x) ∈ pr c -> (e, x) ∈ pr c' -> c = c'.
Proof.
  intros Hc Hc' (Hx & w & Hw & Eb)%(gr_pred G) (_ & w' & Hw' & Eb')%(gr_pred G); [| done ..]. apply (gr_inj G); [done .. | congruence].
Qed.

(** The store when the edges of [D] have been redirected to [lead]. *)
Record redirected (lead : Z -> Z) (D : Z -> Z -> Z -> Prop) st' : Prop := {
  rd_shape : same_shape st st';
  rd_other : forall a, (forall x, valid n x -> a <> ad x) -> st_get st' a = st_get st a;
  rd_int : forall x e w, valid n x -> GetArg st (ad x) e = Some w -> (forall c, valid n c -> WordToBlock st w <> Some (Some (ad c))) -> GetArg st' (ad x) e = Some w;
  rd_edge : forall c e x w, valid n c -> (e, x) ∈ pr c -> GetArg st (ad x) e = Some w ->
    exists w', GetArg st' (ad x) e = Some w' /\ (w' = w \/ w' = wd (lead c)) /\ (D c e x -> w' = wd (lead c))
}.

Lemma redirected_start lead D : (forall c e x, ~ D c e x) -> redirected lead D st.
Proof.
  intros HD. split; [apply same_shape_refl | done | done |]. intros c e x w _ _ Hw. exists w. split; [done |]. split; [by left |]. intros Hd. by destruct (HD _ _ _ Hd).
Qed.

Lemma redirected_iff lead (D D' : Z -> Z -> Z -> Prop) st' :
  (forall c e x, valid n c -> (e, x) ∈ pr c -> D' c e x -> D c e x) -> redirected lead D st' -> redirected lead D' st'.
Proof.
  intros HD [? ? ? He]. split; try done. intros c e x w Hc Hin Hw. destruct (He c e x w Hc Hin Hw) as (w' & ? & ? & ?). exists w'. eauto.
Qed.

Lemma redirect_edge lead D st' c e x :
  redirected lead D st' -> valid n c -> (e, x) ∈ pr c ->
  exists st2, ReplaceArg st' (ad x) e (wd (lead c)) = Some st2 /\
    redirected lead (fun c' e' x' => D c' e' x' \/ (c' = c /\ e' = e /\ x' = x)) st2.
Proof.
  intros [Rs Ro Ri Re] Hc Hin. pose proof (proj1 (gr_pred G c e x Hc) Hin) as (Hx & w & Hw & Hwb).
  destruct (Re c e x w Hc Hin Hw) as (w1 & Hw1 & _ & _). destruct (ReplaceArg_ok st' (ad x) e (wd (lead c)) w1 Hw1) as (st2 & -> & Hs & Hget & Hoth).
  exists st2. split; [done |]. split.
  - by eapply same_shape_trans.
  - intros a Ha. rewrite Hoth; [by apply Ro | by apply Ha].
  - intros y e' w' Hy Hw' Hno. rewrite Hget. case_decide as D1; [| by apply Ri]. destruct D1 as [Ead ->]. rewrite Ead in Hw'.
    replace w' with w in Hno by congruence. by destruct (Hno c Hc).
  - intros c' e' y w' Hc' Hin' Hw'. destruct (Re c' e' y w' Hc' Hin' Hw') as (w2 & Hw2 & Hor & HD). pose proof (proj1 (gr_pred G c' e' y Hc') Hin') as (Hy & _).
    rewrite Hget. case_decide as D1.
    + destruct D1 as [Ead ->]. assert (y = x) as -> by (by apply (gr_inj G)). assert (c' = c) as -> by (by apply (gr_fun e x)).
      exists (wd (lead c)). split; [done |]. split; [by right | done].
    + exists w2. split; [done |]. split; [done |]. intros [Hd | (-> & -> & ->)]; [by apply HD | by destruct D1].
Qed.

(** ** The loops *)

Variable p : Partition.
Hypothesis Hl : layout n pr wd p.

(** The leader of a node: the first node of its block. *)
Definition leads (lead : Z -> Z) : Prop := forall x, valid n x -> valid n (lead x) /\
  exists B, aget (p_blocks p) (blk p x) = Some B /\ pos p (lead x) = pb_start B.

Lemma replace_preds_ok lead c preds : valid n c -> forall D st', redirected lead D st' -> (forall d, d ∈ preds -> d ∈ pr c) ->
  exists st2, replace_preds st' p preds (wd (lead c)) = Some st2 /\
    redirected lead (fun c' e x => D c' e x \/ (c' = c /\ (e, x) ∈ preds)) st2.
Proof.
  intros Hc. induction preds as [| [e x] preds IH]; intros D st' Hr Hin; cbn [replace_preds].
  { exists st'. split; [done |]. eapply redirected_iff; [| exact Hr]. intros ??? _ _ [| [_ ?%not_elem_of_nil]]; done. }
  destruct (IH D st' Hr) as (st1 & -> & Hr1). { intros d Hd. by apply Hin, list_elem_of_further. } cbn [mbind option_bind].
  pose proof (Hin _ (list_elem_of_here _ _)) as Hex. pose proof (proj1 (gr_pred G c e x Hc) Hex) as (Hx & _).
  rewrite (LookUp_pos n pr wd p x Hl Hx). cbn [mbind option_bind]. destruct (na_Sub_pos n pr wd p x Hl Hx) as (nd & End & _ & Ew & _).
  rewrite End. cbn [mbind option_bind]. rewrite Ew.
  rewrite (WordToBlock_shape _ _ _ (rd_shape _ _ _ Hr1)), (gr_block G x Hx). cbn [mbind option_bind].
  destruct (redirect_edge lead _ st1 c e x Hr1 Hc Hex) as (st2 & -> & Hr2). exists st2. split; [done |].
  eapply redirected_iff; [| exact Hr2]. intros c' e' y _ _ [Hd | [-> [[= -> ->] | Hd]%elem_of_cons]]; auto.
Qed.

Lemma replace_nodes_ok lead l ix : forall D st', redirected lead D st' ->
  (forall i, i ∈ ix -> valid n i /\ forall x, aget (p_na p) i = Some x -> wd (lead x) = l) ->
  exists st2, replace_nodes st' p ix l = Some st2 /\ redirected lead (fun c e x => D c e x \/ pos p c ∈ ix) st2.
Proof.
  induction ix as [| i ix IH]; intros D st' Hr Hix; cbn [replace_nodes].
  { exists st'. split; [done |]. eapply redirected_iff; [| exact Hr]. intros ??? _ _ [| ?%not_elem_of_nil]; done. }
  destruct (Hix i (list_elem_of_here _ _)) as [Vi Hlead]. destruct (at_pos n pr wd p i Hl Vi) as (c & Ec & Vc & Hp). specialize (Hlead c Ec).
  destruct (na_Sub_pos n pr wd p c Hl Vc) as (nd & End & Epr & _). rewrite Hp in End. rewrite End. cbn [mbind option_bind]. rewrite Epr, <- Hlead.
  destruct (replace_preds_ok lead c (pr c) Vc D st' Hr) as (st1 & -> & Hr1); [done |]. cbn [mbind option_bind]. rewrite Hlead.
  destruct (IH _ st1 Hr1) as (st2 & -> & Hr2). { intros j Hj. by apply Hix, list_elem_of_further. }
  exists st2. split; [done |]. eapply redirected_iff; [| exact Hr2]. intros c' e x Vc' Hin [Hd | [Hpc | Hd]%elem_of_cons]; [by left; left | | by right].
  left; right. split; [| by replace c with c' by (apply (pos_inj n pr wd p); [done .. | congruence])].
  apply (pos_inj n pr wd p); [done .. | congruence].
Qed.

Lemma replace_blocks_ok lead blocks : leads lead -> (forall B, B ∈ blocks -> exists b, aget (p_blocks p) b = Some B) -> forall st', redirected lead (fun _ _ _ => False) st' ->
  exists st2, replace_blocks st' p blocks = Some st2 /\
    redirected lead (fun c e x => exists B, B ∈ blocks /\ pb_start B < pos p c <= pb_end B) st2.
Proof.
  intros Hlead Hb. induction blocks as [| B blocks IH]; intros st' Hr; cbn [replace_blocks].
  { exists st'. split; [done |]. eapply redirected_iff; [| exact Hr]. intros ??? _ _ (B & ?%not_elem_of_nil & _); done. }
  destruct (IH (fun B' HB' => Hb B' (list_elem_of_further _ _ _ HB')) st' Hr) as (st1 & -> & Hr1). cbn [mbind option_bind].
  destruct (Hb B (list_elem_of_here _ _)) as (b & HB). pose proof (ly_span _ _ _ _ Hl _ _ HB) as (Hse & Hen & _).
  destruct (at_pos n pr wd p (pb_start B) Hl) as (s & Es & Vs & Ps); [unfold valid; lia |].
  destruct (na_Sub_pos n pr wd p s Hl Vs) as (nd & End & _ & Ew & _). rewrite Ps in End. rewrite End. cbn [mbind option_bind]. rewrite Ew.
  destruct (replace_nodes_ok lead (wd s) (range (pb_start B + 1) (pb_end B)) _ st1 Hr1) as (st2 & -> & Hr2).
  { intros i Hi. unfold range in Hi. rewrite elem_of_seqZ in Hi. split; [unfold valid; lia |]. intros x Ex.
    destruct (at_pos n pr wd p i Hl) as (x' & Ex' & Vx & Px); [unfold valid; lia |]. replace x' with x in * by congruence.
    destruct (Hlead x Vx) as (Vl & B' & HB' & Pl). assert (Eb : blk p x = b) by (apply (ly_in _ _ _ _ Hl b B x HB Vx); lia). rewrite Eb in HB'. simplify_eq.
    f_equal. apply (pos_inj n pr wd p); [done .. | congruence]. }
  exists st2. split; [done |]. eapply redirected_iff; [| exact Hr2]. intros c e x Vc Hin (B' & [-> | HB']%elem_of_cons & Hp).
  - right. unfold range. rewrite elem_of_seqZ. lia.
  - left. by exists B'.
Qed.
End Reduce.
