(* ===== verification/MinimizerLoad.v ===== *)
(** * The minimizer: loading a graph (PartitionLoader)

    The loader visits every block that is reachable from the root and records
    every edge between them, or stops at a transient. *)

From S2P Require Import Prelude Config HeaderOp AliceData Minimizer MinimizerSort MinimizerOrder MinimizerBlock MinimizerLayout MinimizerInit MinimizerReduce.

Implicit Types (p : Partition) (e x : Z).

(** ** Data that can be loaded *)

Section Data.
Context `{Platform} {C : Type} (st : AliceData.store C) (root : word).

(** The words that are reachable from the root. *)
Inductive reach : word -> Prop :=
  | reach_root : reach root
  | reach_arg w b e w' : reach w -> WordToBlock st w = Some (Some b) -> GetArg st b e = Some w' -> reach w'.

(** Reachable words are not dangling, and blocks of words and chunks are the
    only blocks that are reachable. *)
Record plain_data : Prop := {
  pd_word : forall w, reach w -> exists w', deref st w = Some w' /\ forall a, w' = WPtr a -> is_Some (st_get st a);
  pd_block : forall w b, reach w -> WordToBlock st w = Some (Some b) ->
    (exists l m args, st_get st b = Some (NBlock l m args) /\ l <> CHUNK_LABEL) \/ (exists m bs, st_get st b = Some (NChunk m bs))
}.

Lemma plain_cases w : plain_data -> reach w ->
  (exists a, WordToTransient st w = Some (Some a)) \/
  (WordToTransient st w = Some None /\ exists i, WordToInt st w = Some (Some i)) \/
  (WordToTransient st w = Some None /\ WordToInt st w = Some None /\ exists b, WordToBlock st w = Some (Some b)).
Proof.
  intros Hp Hw. destruct (pd_word Hp w Hw) as (w' & E & Ha). unfold WordToTransient, WordToInt, WordToBlock. rewrite E. cbn.
  destruct w' as [i | a]; [right; left; split; [done | by exists i] |]. destruct (Ha a eq_refl) as [nd End]. rewrite End. cbn.
  destruct nd; [right; right | right; right | left | right; right]; eauto.
Qed.

(** The number of arguments of the blocks that are not seen yet. *)
Definition arity (nd : node C) : nat := match nd with NBlock _ _ args => length args | _ => 0 end.
Definition unseen (seen : gmap Z Z) : nat := sum_list_with (fun an : Z * node C => match seen !! an.1 with Some _ => 0%nat | None => arity an.2 end) (map_to_list (st_nodes st)).

Lemma unseen_insert seen b nd x : st_get st b = Some nd -> seen !! b = None -> (unseen (<[b := x]> seen) + arity nd)%nat = unseen seen.
Proof.
  intros Hb Hs. unfold unseen. assert (Hin : (b, nd) ∈ map_to_list (st_nodes st)) by (by apply elem_of_map_to_list). pose proof (NoDup_fst_map_to_list (st_nodes st)) as Hnd.
  revert Hin Hnd. generalize (map_to_list (st_nodes st)). intros l. induction l as [| [a nd'] l IH]; intros Hin Hnd; [by apply not_elem_of_nil in Hin |].
  cbn [fmap list_fmap fst] in Hnd. apply NoDup_cons in Hnd as [Hna Hnd]. cbn [sum_list_with fst snd]. apply elem_of_cons in Hin as [[= <- <-] | Hin].
  - rewrite lookup_insert_eq, Hs. assert (E : sum_list_with (fun an : Z * node C => match <[b:=x]> seen !! an.1 with Some _ => 0%nat | None => arity an.2 end) l =
      sum_list_with (fun an : Z * node C => match seen !! an.1 with Some _ => 0%nat | None => arity an.2 end) l); [| lia].
    clear IH. induction l as [| [a nd'] l IHl]; [done |]. cbn [sum_list_with fst snd fmap list_fmap] in *. apply not_elem_of_cons in Hna as [Hne Hna].
    rewrite lookup_insert_ne by done. rewrite IHl; [done | exact Hna | by apply NoDup_cons in Hnd as [_ ?]].
  - assert (a <> b). { intros ->. apply Hna, list_elem_of_fmap. by exists (b, nd). } rewrite lookup_insert_ne by done. specialize (IH Hin Hnd). lia.
Qed.

Lemma push_children_elem args x w e x' : (w, e, x') ∈ push_children args x <-> x' = x /\ aget args e = Some w.
Proof.
  unfold push_children. rewrite elem_of_lookup_imap. split.
  - intros (i & y & [= -> -> ->] & Hi). split; [done |]. unfold aget. by rewrite decide_True, Nat2Z.id by lia.
  - intros [-> Hw]. pose proof (aget_Some_lt _ _ _ Hw). unfold aget in Hw. rewrite decide_True in Hw by lia. exists (Z.to_nat e), w. split; [| done]. by rewrite Z2Nat.id by lia.
Qed.

(** ** The invariant of the loader *)

(** Node [x] of [nodes] stands for the block [b]. *)
Definition node_block (nodes : list PNode) x b : Prop := exists nd, aget nodes x = Some nd /\ WordToBlock st (pn_node nd) = Some (Some b).

(** Argument [e] of node [x] is the word [w]. *)
Definition node_arg (nodes : list PNode) x e w : Prop := exists b, node_block nodes x b /\ GetArg st b e = Some w.

Record loading (l : loader) : Prop := {
  ld_nodes : forall x nd, aget (p_nodes (ld_part l)) x = Some nd -> pn_num nd = x /\ pn_block nd = -1 /\ reach (pn_node nd) /\
    exists b, WordToBlock st (pn_node nd) = Some (Some b) /\ ld_seen l !! b = Some x;
  ld_arrays : p_na (ld_part l) = seqZ 0 (zlen (p_nodes (ld_part l))) /\ p_lua (ld_part l) = seqZ 0 (zlen (p_nodes (ld_part l))) /\ p_toDo (ld_part l) = [];
  ld_seen_node : forall b x, ld_seen l !! b = Some x -> node_block (p_nodes (ld_part l)) x b;
  ld_count : ld_counter l = zlen (p_nodes (ld_part l));
  ld_preds : forall c nd e x, aget (p_nodes (ld_part l)) c = Some nd -> (e, x) ∈ pn_preds nd ->
    exists w b, node_arg (p_nodes (ld_part l)) x e w /\ node_block (p_nodes (ld_part l)) c b /\ WordToBlock st w = Some (Some b);
  ld_args : forall x e w, node_arg (p_nodes (ld_part l)) x e w ->
    (exists i, WordToInt st w = Some (Some i)) \/
    (exists c nd b, aget (p_nodes (ld_part l)) c = Some nd /\ node_block (p_nodes (ld_part l)) c b /\ WordToBlock st w = Some (Some b) /\ (e, x) ∈ pn_preds nd) \/
    (w, e, x) ∈ ld_stack l;
  ld_entries : forall w e x, (w, e, x) ∈ ld_stack l -> reach w /\ (x = -1 \/ node_arg (p_nodes (ld_part l)) x e w);
  ld_root : (p_nodes (ld_part l) = [] /\ ld_stack l = [(root, -1, -1)]) \/ (exists i, WordToInt st root = Some (Some i)) \/
    (exists b, WordToBlock st root = Some (Some b) /\ node_block (p_nodes (ld_part l)) 0 b)
}.

Lemma aget_seqZ m x : 0 <= x < m -> aget (seqZ 0 m) x = Some x.
Proof. intros Hx. unfold aget. rewrite decide_True by lia. rewrite lookup_seqZ_lt by lia. f_equal. lia. Qed.

Lemma seqZ_snoc m : 0 <= m -> seqZ 0 m ++ [m] = seqZ 0 (m + 1).
Proof. intros. rewrite seqZ_app by lia. by rewrite Z.add_0_l. Qed.

Lemma node_block_app nodes nd x b : node_block nodes x b -> node_block (nodes ++ [nd]) x b.
Proof. intros (nd' & E & Hb). exists nd'. split; [| done]. rewrite aget_app_l; [done |]. apply aget_Some_lt in E. lia. Qed.

Lemma node_arg_app nodes nd x e w : node_arg nodes x e w -> node_arg (nodes ++ [nd]) x e w.
Proof. intros (b & Hb & Hw). exists b. split; [by apply node_block_app | done]. Qed.

Lemma aget_snoc {A} (l : list A) a i v : aget (l ++ [a]) i = Some v -> aget l i = Some v \/ (i = zlen l /\ v = a).
Proof.
  intros Hi. destruct (decide (i < zlen l)); [rewrite aget_app_l in Hi by lia; by left |]. pose proof (aget_Some_lt _ _ _ Hi) as Hr. rewrite zlen_app in Hr.
  change (zlen [a]) with 1 in Hr. replace i with (zlen l) in * by lia. rewrite aget_app_r, Z.sub_diag in Hi by lia. right. split; [done |]. by injection Hi as <-.
Qed.

(** Nodes that differ in their incoming edges only. *)
Definition same_blocks (nodes nodes' : list PNode) : Prop := Forall2 (fun nd nd' => pn_num nd' = pn_num nd /\ pn_block nd' = pn_block nd /\ pn_node nd' = pn_node nd) nodes nodes'.

Lemma same_blocks_get nodes nodes' x nd' : same_blocks nodes nodes' -> aget nodes' x = Some nd' ->
  exists nd, aget nodes x = Some nd /\ pn_num nd' = pn_num nd /\ pn_block nd' = pn_block nd /\ pn_node nd' = pn_node nd.
Proof. unfold aget. case_decide; [| done]. intros HF Hx. by destruct (Forall2_lookup_r _ _ _ _ _ HF Hx) as (nd & ? & ?); exists nd. Qed.

Lemma same_blocks_block nodes nodes' x b : same_blocks nodes nodes' -> node_block nodes' x b <-> node_block nodes x b.
Proof.
  intros HF. split.
  - intros (nd' & E & Hb). destruct (same_blocks_get _ _ _ _ HF E) as (nd & E' & _ & _ & Ew). exists nd. by rewrite <- Ew.
  - intros (nd & E & Hb). destruct (Forall2_aget _ _ _ _ _ HF E) as (nd' & E' & _ & _ & Ew). exists nd'. by rewrite Ew.
Qed.

Lemma same_blocks_arg nodes nodes' x e w : same_blocks nodes nodes' -> node_arg nodes' x e w <-> node_arg nodes x e w.
Proof. intros HF. unfold node_arg. by setoid_rewrite (same_blocks_block _ _ _ _ HF). Qed.

(** The edges that lead to a node. *)
Definition node_preds (nodes : list PNode) c : list (Z * Z) := match aget nodes c with Some nd => pn_preds nd | None => [] end.

(** [AddParent] to an existing node. *)
Lemma AddParent_ok p c nd e x : p_na p = seqZ 0 (zlen (p_nodes p)) -> aget (p_nodes p) c = Some nd ->
  exists nodes', AddParent p c e x = Some (with_nodes nodes' p) /\ same_blocks (p_nodes p) nodes' /\
    (forall c' e' y, (e', y) ∈ node_preds nodes' c' <-> (e', y) ∈ node_preds (p_nodes p) c' \/ (c' = c /\ e' = e /\ y = x)).
Proof.
  intros Hna Hc. unfold AddParent. rewrite Hna, aget_seqZ by (by eapply aget_Some_lt). cbn [mbind option_bind]. rewrite Hc. cbn [mbind option_bind].
  pose proof (aset_Some (p_nodes p) c (PNode.AddParent nd e x) (aget_Some_lt _ _ _ Hc)) as E. rewrite E. cbn [mbind option_bind]. eexists. split; [done |].
  split.
  - apply Forall2_insert_self with nd; [| unfold aget in Hc; by case_decide | done]. by intros nd'.
  - intros c' e' y. unfold node_preds. destruct (decide (c = c')) as [<- | Hne].
    + rewrite (aget_aset_eq _ _ _ _ E), Hc. cbn [PNode.AddParent pn_preds]. rewrite elem_of_app, list_elem_of_singleton. split; [intros [| [= -> ->]]; auto | intros [| (_ & -> & ->)]; auto].
    + rewrite (aget_aset_ne _ _ _ _ _ E) by done. split; [by left | intros [| (-> & _)]; done].
Qed.

(** An entry of the stack that is no block. *)
Lemma load_int_ok l w e x stack i : loading l -> ld_stack l = (w, e, x) :: stack -> WordToInt st w = Some (Some i) ->
  loading (mkLoader stack (ld_seen l) (ld_counter l) (ld_part l)).
Proof.
  intros [Ln La Ls Lc Lp Lg Le Lr] Es Hi. split; cbn; try done.
  - intros y e' w' Hy. destruct (Lg y e' w' Hy) as [| [|]]; [by left | by right; left |]. rewrite Es in *. apply elem_of_cons in H0 as [[= -> -> ->] |]; [left; eauto | by right; right].
  - intros w' e' y Hin. apply Le. rewrite Es. by apply list_elem_of_further.
  - destruct Lr as [[_ Lr] | [|]]; [| by right; left | by right; right]. rewrite Es in Lr. injection Lr as -> -> -> ->. right; left. by exists i.
Qed.

(** An entry of a block that has a node: the edge is recorded. *)
Lemma load_link_ok l w e x s1 s2 b c : loading l -> ld_stack l = s1 ++ (w, e, x) :: s2 -> WordToBlock st w = Some (Some b) -> ld_seen l !! b = Some c ->
  exists part', (if negb (x =? -1) then AddParent (ld_part l) c e x else Some (ld_part l)) = Some part' /\
    loading (mkLoader (s1 ++ s2) (ld_seen l) (ld_counter l) part').
Proof.
  intros [Ln La Ls Lc Lp Lg Le Lr] Es Hb Hc. destruct (Ls b c Hc) as (nd & End & Hnb). rewrite Es in Lg, Le.
  destruct Lr as [[Lr _] | Lr]; [rewrite Lr in End; apply aget_Some_lt in End; change (zlen []) with 0 in End; lia |].
  assert (Hsub : forall w' e' y, (w', e', y) ∈ s1 ++ s2 -> (w', e', y) ∈ s1 ++ (w, e, x) :: s2).
  { intros w' e' y. rewrite !elem_of_app, elem_of_cons. tauto. }
  assert (Hrest : forall w' e' y, (w', e', y) ∈ s1 ++ (w, e, x) :: s2 -> (w', e', y) ∈ s1 ++ s2 \/ (w' = w /\ e' = e /\ y = x)).
  { intros w' e' y. rewrite !elem_of_app, elem_of_cons. intros [| [[= -> -> ->] |]]; auto. }
  destruct (Z.eqb_spec x (-1)) as [-> | Hx]; cbn [negb].
  { exists (ld_part l). split; [done |]. split; cbn; try done; [| auto | by right]. intros y e' w' Hy. destruct (Lg y e' w' Hy) as [| [| Hin]]; [by left | by right; left |].
    destruct (Hrest _ _ _ Hin) as [| (-> & -> & ->)]; [by right; right | exfalso]. destruct Hy as (b' & (nd' & E' & _) & _). apply aget_Some_lt in E'. lia. }
  destruct (AddParent_ok (ld_part l) c nd e x (proj1 La) End) as (nodes' & -> & HF & Hpr). exists (with_nodes nodes' (ld_part l)). split; [done |].
  assert (Hlen : zlen nodes' = zlen (p_nodes (ld_part l))) by (unfold zlen; by rewrite (Forall2_length _ _ _ HF)).
  destruct (Le w e x) as [_ [| Hxa]]; [rewrite elem_of_app, elem_of_cons; auto | done |].
  split; cbn [ld_stack ld_seen ld_counter ld_part with_nodes p_nodes p_na p_lua p_toDo].
  - intros y nd' Hy. destruct (same_blocks_get _ _ _ _ HF Hy) as (nd0 & E0 & -> & -> & ->). by apply Ln.
  - rewrite Hlen. done.
  - intros b' y Hy. rewrite (same_blocks_block _ _ _ _ HF). by apply Ls.
  - congruence.
  - intros c' nd' e' y Hc' Hin. assert (Hin' : (e', y) ∈ node_preds nodes' c') by (unfold node_preds; by rewrite Hc').
    apply Hpr in Hin' as [Hin' | (-> & -> & ->)].
    + unfold node_preds in Hin'. destruct (aget (p_nodes (ld_part l)) c') as [nd0 |] eqn:E0; [| by apply not_elem_of_nil in Hin'].
      destruct (Lp c' nd0 e' y E0 Hin') as (w' & b' & ? & ? & ?). exists w', b'. rewrite (same_blocks_arg _ _ _ _ _ HF), (same_blocks_block _ _ _ _ HF). done.
    + exists w, b. rewrite (same_blocks_arg _ _ _ _ _ HF), (same_blocks_block _ _ _ _ HF). split; [done |]. split; [by exists nd | done].
  - intros y e' w' Hy%(same_blocks_arg _ _ _ _ _ HF). destruct (Lg y e' w' Hy) as [| [(c' & nd0 & b' & E0 & Hnb' & Hb' & Hin) | Hin]]; [by left | |].
    + right; left. destruct (Forall2_aget _ _ _ _ _ HF E0) as (nd' & E' & _). exists c', nd', b'. rewrite (same_blocks_block _ _ _ _ HF). split; [done |].
      split; [done |]. split; [done |]. assert (Hg : (e', y) ∈ node_preds nodes' c') by (apply Hpr; left; unfold node_preds; by rewrite E0). unfold node_preds in Hg. by rewrite E' in Hg.
    + destruct (Hrest _ _ _ Hin) as [| (-> & -> & ->)]; [by right; right |]. right; left. destruct (Forall2_aget _ _ _ _ _ HF End) as (nd' & E' & _).
      exists c, nd', b. rewrite (same_blocks_block _ _ _ _ HF). split; [done |]. split; [by exists nd |]. split; [done |].
      assert (Hg : (e, x) ∈ node_preds nodes' c) by (apply Hpr; auto). unfold node_preds in Hg. by rewrite E' in Hg.
  - intros w' e' y Hin. rewrite (same_blocks_arg _ _ _ _ _ HF). apply Le. auto.
  - right. destruct Lr as [| (b' & ? & ?)]; [by left | right]. exists b'. by rewrite (same_blocks_block _ _ _ _ HF).
Qed.

(** A new node, with its arguments on the stack. *)
Lemma load_insert_ok l w e0 x0 b args : loading l -> (w, e0, x0) ∈ ld_stack l -> WordToBlock st w = Some (Some b) -> ld_seen l !! b = None ->
  (forall e w', GetArg st b e = Some w' <-> aget args e = Some w') ->
  loading (mkLoader (push_children args (zlen (p_nodes (ld_part l))) ++ ld_stack l) (<[b := ld_counter l]> (ld_seen l)) (ld_counter l + 1) (InsertNode (ld_part l) w).1).
Proof.
  intros [Ln (Na & Nl & Nt) Ls Lc Lp Lg Le Lr] Hin0 Hb Hs Hargs. destruct (Le _ _ _ Hin0) as [Hw _]. set (n := zlen (p_nodes (ld_part l))) in *. pose proof (zlen_nonneg (p_nodes (ld_part l))) as H0.
  assert (Hcount : zlen (p_na (ld_part l)) = n). { rewrite Na. unfold zlen. rewrite length_seqZ. lia. }
  unfold InsertNode. rewrite Hcount. fold n. set (new := PNode.SetNum (PNode.New w) n).
  assert (Hnew : node_block (p_nodes (ld_part l) ++ [new]) n b). { exists new. split; [| done]. unfold n. by rewrite aget_app_r, Z.sub_diag by lia. }
  assert (Hinv : forall x b', node_block (p_nodes (ld_part l) ++ [new]) x b' -> node_block (p_nodes (ld_part l)) x b' \/ (x = n /\ b' = b)).
  { intros x b' (nd & [E | [-> ->]]%aget_snoc & Hb'); [left; by exists nd | right]. cbn in Hb'. split; [done | congruence]. }
  assert (Hold : forall x nd, aget (p_nodes (ld_part l)) x = Some nd -> aget (p_nodes (ld_part l) ++ [new]) x = Some nd).
  { intros x nd E. rewrite aget_app_l; [done |]. apply aget_Some_lt in E. lia. }
  split; cbn [ld_stack ld_seen ld_counter ld_part fst p_nodes p_na p_lua p_toDo].
  - intros x nd [E | [-> ->]]%aget_snoc.
    + destruct (Ln x nd E) as (? & ? & ? & b' & Hb' & Hsx). split_and!; try done. exists b'. split; [done |]. rewrite lookup_insert_ne; [done | congruence].
    + split_and!; try done. exists b. rewrite lookup_insert_eq, Lc. done.
  - rewrite zlen_app. change (zlen [new]) with 1. fold n. rewrite Na, Nl, seqZ_snoc by lia. done.
  - intros b' x. destruct (decide (b' = b)) as [-> | Hne]; [rewrite lookup_insert_eq, Lc; by intros [= <-] |].
    rewrite lookup_insert_ne by done. intros Hx. by apply node_block_app, Ls.
  - rewrite zlen_app, Lc. done.
  - intros c nd e x [E | [-> ->]]%aget_snoc Hin; [| by apply not_elem_of_nil in Hin]. destruct (Lp c nd e x E Hin) as (w' & b' & ? & ? & ?).
    exists w', b'. split; [by apply node_arg_app |]. split; [by apply node_block_app | done].
  - intros x e w' (b' & Hb' & Hw'). destruct (Hinv x b' Hb') as [Hob | [-> ->]].
    + destruct (Lg x e w') as [| [(c & nd & bc & E & Hnb & Hbc & Hin) | Hin]]; [by exists b' | by left | |].
      * right; left. exists c, nd, bc. split; [by apply Hold |]. split; [by apply node_block_app | done].
      * right; right. rewrite elem_of_app. by right.
    + right; right. rewrite elem_of_app. left. apply push_children_elem. split; [done | by apply Hargs].
  - intros w' e x [[-> Hw']%push_children_elem | Hin]%elem_of_app.
    + apply Hargs in Hw'. split; [by eapply reach_arg |]. right. by exists b.
    + destruct (Le w' e x Hin) as [? [| Hxa]]; split; auto. right. by apply node_arg_app.
  - right. destruct Lr as [[Lr1 Lr2] | [| (b' & ? & ?)]]; [right | by left | right; exists b'; split; [done | by apply node_block_app]].
    rewrite Lr2 in Hin0. apply list_elem_of_singleton in Hin0 as [= -> _ _]. exists b. split; [done |]. replace 0 with n by (unfold n; by rewrite Lr1). done.
Qed.

(** ** The loop *)

Definition work (l : loader) : nat := (length (ld_stack l) + unseen (ld_seen l))%nat.

(** A block that is popped for the first time. *)
Lemma load_new_ok l w e x stack b : plain_data -> loading l -> ld_stack l = (w, e, x) :: stack -> WordToBlock st w = Some (Some b) -> ld_seen l !! b = None ->
  exists part part' label stack', InsertNode (ld_part l) w = (part, ld_counter l) /\
    (if negb (x =? -1) then AddParent part (ld_counter l) e x else Some part) = Some part' /\ GetLabel st b = Some label /\
    (if label =? CHUNK_LABEL then Some stack else args ← GetArgs st b; Some (push_children args (ld_counter l) ++ stack)) = Some stack' /\
    loading (mkLoader stack' (<[b := ld_counter l]> (ld_seen l)) (ld_counter l + 1) part') /\
    (work (mkLoader stack' (<[b := ld_counter l]> (ld_seen l)) (ld_counter l + 1) part') < work l)%nat.
Proof.
  intros Hpd Hl Es Hb Hs. assert (Hin : (w, e, x) ∈ ld_stack l) by (rewrite Es; apply list_elem_of_here). destruct (ld_entries l Hl w e x Hin) as [Hw _].
  assert (Hargs : exists nd args label, st_get st b = Some nd /\ arity nd = length args /\ GetLabel st b = Some label /\
    (forall e w', GetArg st b e = Some w' <-> aget args e = Some w') /\
    (if label =? CHUNK_LABEL then Some stack else args ← GetArgs st b; Some (push_children args (ld_counter l) ++ stack)) = Some (push_children args (ld_counter l) ++ stack)).
  { unfold GetArg, GetArgs, GetLabel. destruct (pd_block Hpd w b Hw Hb) as [(lab & m & args & E & Hne) | (m & bs & E)].
    - exists (NBlock lab m args), args, lab. rewrite E. cbn [mbind option_bind]. split_and!; try done. by rewrite (proj2 (Z.eqb_neq _ _) Hne).
    - exists (NChunk m bs), [], CHUNK_LABEL. rewrite E. cbn [mbind option_bind]. split_and!; try done. intros e' w'. split; [done |]. intros Hn%aget_Some_lt. change (zlen []) with 0 in Hn. lia. }
  destruct Hargs as (nd & args & label & Eb & Har & El & Hga & Est). pose proof (ld_count l Hl) as Hc.
  pose proof (load_insert_ok l w e x b args Hl Hin Hb Hs Hga) as Hins. rewrite <- Hc, Es in Hins.
  assert (Hni : InsertNode (ld_part l) w = ((InsertNode (ld_part l) w).1, ld_counter l)).
  { unfold InsertNode. cbn. f_equal. destruct (ld_arrays l Hl) as (-> & _). rewrite Hc. pose proof (zlen_nonneg (p_nodes (ld_part l))). unfold zlen at 1. rewrite length_seqZ. lia. }
  destruct (load_link_ok _ w e x (push_children args (ld_counter l)) stack b (ld_counter l) Hins eq_refl Hb) as (part' & Ep & Hl'); [apply lookup_insert_eq |].
  exists (InsertNode (ld_part l) w).1, part', label, (push_children args (ld_counter l) ++ stack). split; [done |]. split; [exact Ep |]. split; [done |]. split; [done |]. split; [exact Hl' |].
  unfold work. cbn [ld_stack ld_seen]. rewrite Es, length_app. unfold push_children. rewrite length_imap. cbn [length].
  pose proof (unseen_insert (ld_seen l) b nd (ld_counter l) Eb Hs). lia.
Qed.

Lemma load_loop_ok fuel : forall l, plain_data -> loading l -> (work l < fuel)%nat ->
  (exists l', load_loop fuel st l = Some (Loaded (ld_part l')) /\ loading l' /\ ld_stack l' = []) \/
  (exists w a l', load_loop fuel st l = Some (LoadRequest w l') /\ reach w /\ WordToTransient st w = Some (Some a)).
Proof.
  induction fuel as [| fuel IH]; [lia |]. intros l Hpd Hl Hf. cbn [load_loop]. destruct (ld_stack l) as [| [[w e] x] stack] eqn:Es.
  { left. by exists l. }
  destruct (ld_entries l Hl w e x) as [Hw _]; [rewrite Es; apply list_elem_of_here |].
  assert (Hwk : forall part, (work (mkLoader stack (ld_seen l) (ld_counter l) part) < fuel)%nat).
  { intros part. unfold work in *. rewrite Es in Hf. cbn in *. lia. }
  destruct (plain_cases w Hpd Hw) as [(a & Ea) | [(Ea & i & Ei) | (Ea & En & b & Eb)]]; rewrite Ea; cbn [mbind option_bind].
  - right. by exists w, a, l.
  - rewrite Ei. cbn [mbind option_bind]. apply IH; [done | by eapply load_int_ok | apply Hwk].
  - rewrite En. cbn [mbind option_bind]. rewrite Eb. cbn [mbind option_bind]. destruct (ld_seen l !! b) as [c |] eqn:Esn.
    + destruct (load_link_ok l w e x [] stack b c Hl Es Eb Esn) as (part' & -> & Hl'). cbn [mbind option_bind]. apply IH; [done | exact Hl' | apply Hwk].
    + destruct (load_new_ok l w e x stack b Hpd Hl Es Eb Esn) as (part & part' & label & stack' & -> & Ep & -> & Est & Hl' & Hlt).
      rewrite Ep. cbn [mbind option_bind]. rewrite Est. cbn [mbind option_bind]. apply IH; [done | exact Hl' | lia].
Qed.

(** ** The loaded graph *)

Definition node_word p x : word := match aget (p_nodes p) x with Some nd => pn_node nd | None => WInt 0 end.
Definition node_addr p x : Z := match WordToBlock st (node_word p x) with Some (Some a) => a | _ => 0 end.

Lemma node_block_addr p x b : node_block (p_nodes p) x b -> node_addr p x = b /\ WordToBlock st (node_word p x) = Some (Some b) /\ valid (zlen (p_nodes p)) x.
Proof.
  intros (nd & E & Hb). assert (Ew : node_word p x = pn_node nd) by (unfold node_word; by rewrite E). unfold node_addr. rewrite Ew, Hb.
  split; [done |]. split; [done | by eapply aget_Some_lt].
Qed.

Lemma loading_node l x : loading l -> valid (zlen (p_nodes (ld_part l))) x ->
  node_block (p_nodes (ld_part l)) x (node_addr (ld_part l) x) /\ ld_seen l !! node_addr (ld_part l) x = Some x /\ reach (node_word (ld_part l) x).
Proof.
  intros Hl Hx. destruct (aget_is_Some (p_nodes (ld_part l)) x Hx) as [nd End]. destruct (ld_nodes l Hl x nd End) as (_ & _ & Hr & b & Hb & Hs).
  assert (Hnb : node_block (p_nodes (ld_part l)) x b) by (by exists nd). destruct (node_block_addr _ _ _ Hnb) as (Ea & _). rewrite Ea. split; [done |]. split; [done |].
  unfold node_word. by rewrite End.
Qed.

Lemma loading_graph l : loading l -> ld_stack l = [] ->
  let p := ld_part l in
  graph st (zlen (p_nodes p)) (node_preds (p_nodes p)) (node_word p) (node_addr p) /\
  loaded (zlen (p_nodes p)) (node_preds (p_nodes p)) (node_word p) p.
Proof.
  intros Hl Es. cbn zeta. set (p := ld_part l). pose proof (fun x => loading_node l x Hl) as Hnode. fold p in Hnode.
  assert (Hblock : forall x b, node_block (p_nodes p) x b -> valid (zlen (p_nodes p)) x /\ b = node_addr p x).
  { intros x b Hb. by destruct (node_block_addr p x b Hb) as (-> & _ & ?). }
  split; split.
  - intros x Hx. destruct (Hnode x Hx) as (Hb & _). by apply node_block_addr.
  - intros x y Hx Hy E. destruct (Hnode x Hx) as (_ & E1 & _), (Hnode y Hy) as (_ & E2 & _). rewrite E in E1. congruence.
  - intros c e x Hc. split.
    + unfold node_preds. destruct (aget (p_nodes p) c) as [nd |] eqn:E; [| by intros ?%not_elem_of_nil]. intros Hin.
      destruct (ld_preds l Hl c nd e x E Hin) as (w & b & (b' & Hb' & Hw) & Hb & Hwb). apply Hblock in Hb as [_ ->]. apply Hblock in Hb' as [Vx ->]. split; [done |]. by exists w.
    + intros (Hx & w & Hw & Hwb). destruct (Hnode x Hx) as (Hb & _). destruct (ld_args l Hl x e w) as [[i Hi] | [(c' & nd & b & E & Hb' & Hwb' & Hin) | Hin]].
      * by exists (node_addr p x).
      * exfalso. unfold WordToInt, WordToBlock in *. destruct (deref st w) as [[j | a] |]; cbn in *; done.
      * apply Hblock in Hb' as [Vc' ->]. assert (c' = c) as ->. { destruct (Hnode c Hc) as (_ & E1 & _), (Hnode c' Vc') as (_ & E2 & _). simplify_eq. congruence. }
        unfold node_preds. fold p in E. by rewrite E.
      * rewrite Es in Hin. by apply not_elem_of_nil in Hin.
  - intros x e w Hx Hw. destruct (Hnode x Hx) as (Hb & _). destruct (ld_args l Hl x e w) as [| [(c' & nd & b & E & Hb' & Hwb' & Hin) | Hin]].
    + by exists (node_addr p x).
    + by left.
    + right. apply Hblock in Hb' as [Vc' ->]. by exists c'.
    + rewrite Es in Hin. by apply not_elem_of_nil in Hin.
  - split; [done |]. intros x nd E. destruct (ld_nodes l Hl x nd E) as (-> & _). fold p in E. unfold node_preds, node_word. by rewrite E.
  - destruct (ld_arrays l Hl) as (Ena & Elua & _). fold p in Ena, Elua. rewrite Ena, Elua. pose proof (zlen_nonneg (p_nodes p)) as H0.
    assert (Hz : zlen (seqZ 0 (zlen (p_nodes p))) = zlen (p_nodes p)) by (unfold zlen at 1; rewrite length_seqZ; lia).
    split; [done .. | |]; intros i x Hi; pose proof (aget_Some_lt _ _ _ Hi) as Hr; rewrite Hz in Hr; rewrite aget_seqZ in Hi by lia; simplify_eq; by rewrite aget_seqZ.
  - intros x Hx. unfold blk. destruct (aget (p_nodes p) x) as [nd |] eqn:E; [| done]. by destruct (ld_nodes l Hl x nd E) as (_ & -> & _).
  - apply (ld_arrays l Hl).
Qed.

(** Every reachable word is an integer or a node. *)
Lemma loading_reach l w : loading l -> ld_stack l = [] -> reach w ->
  (exists i, WordToInt st w = Some (Some i)) \/
  (exists x, valid (zlen (p_nodes (ld_part l))) x /\ WordToBlock st w = Some (Some (node_addr (ld_part l) x))).
Proof.
  intros Hl Es Hw. induction Hw as [| w b e w' Hw IH Hb Ha].
  - destruct (ld_root l Hl) as [[_ Hs] | [| (b & Hb & Hn)]]; [congruence | by left | right]. destruct (node_block_addr _ _ _ Hn) as (<- & _ & Hv). by exists 0.
  - destruct IH as [[i Hi] | (x & Hx & Hbx)].
    + exfalso. unfold WordToInt, WordToBlock in *. destruct (deref st w) as [[j | a] |]; cbn in *; done.
    + simplify_eq. destruct (loading_graph l Hl Es) as [G _]. apply (gr_args _ _ _ _ _ G x e w' Hx Ha).
Qed.

Lemma loading_start : loading (mkLoader [(root, -1, -1)] ∅ 0 Partition_New).
Proof.
  assert (Hnil : forall x (nd : PNode), aget [] x = Some nd -> False) by (intros x nd Hn%aget_Some_lt; change (zlen []) with 0 in Hn; lia).
  split; cbn; try done.
  - by intros x nd ?%Hnil.
  - by intros c nd e x ?%Hnil.
  - by intros x e w (b & (nd & ?%Hnil & _) & _).
  - intros w e x [= -> -> ->]%list_elem_of_singleton. split; [constructor | by left].
  - by left.
Qed.
End Data.
