(* ===== verification/MinimizerThm.v ===== *)
(** * The minimizer: correctness

    [Partition::Minimize] on a loaded graph terminates and merges exactly the
    nodes that cannot be told apart; the graph that is left represents the
    same data. *)

From S2P Require Import Prelude Config HeaderOp AliceData Minimizer MinimizerSort MinimizerOrder MinimizerBlock.
From S2P Require Import MinimizerLayout MinimizerSplit MinimizerHopcroft MinimizerInit MinimizerReduce MinimizerLoad.

Implicit Types (p : Partition) (B : PBlock) (b e x y i : Z).

(** ** Equivalence of nodes *)

Section Equivalence.
Context `{Platform} {C : Type}.
Implicit Types (st : AliceData.store C) (R : Z -> Z -> Prop).

Inductive word_rel st st' R : word -> word -> Prop :=
  | wr_int v w i : WordToInt st v = Some (Some i) -> WordToInt st' w = Some (Some i) -> word_rel st st' R v w
  | wr_block v w a b : WordToBlock st v = Some (Some a) -> WordToBlock st' w = Some (Some b) -> R a b -> word_rel st st' R v w.

Inductive node_rel st st' R : node C -> node C -> Prop :=
  | nr_block l m args args' : Forall2 (word_rel st st' R) args args' -> node_rel st st' R (NBlock l m args) (NBlock l m args')
  | nr_chunk m bs : node_rel st st' R (NChunk m bs) (NChunk m bs)
  | nr_code c : node_rel st st' R (NCode c) (NCode c).

(** Related blocks have the same label, mutability, integers and bytes, and
    related blocks as children. *)
Definition simulation st st' R : Prop :=
  forall a b, R a b -> exists n1 n2, st_get st a = Some n1 /\ st_get st' b = Some n2 /\ node_rel st st' R n1 n2.

(** Values without identity: immutable ones and the types compared by structure. *)
Definition shareable st a : Prop :=
  match st_get st a with
  | Some (NBlock l m _) => is_structural l m = true
  | Some (NChunk m _) => m = false
  | _ => False
  end.

(** No program can tell the two blocks apart. *)
Definition equivalent st a b : Prop := exists R, R a b /\ (forall a b, R a b -> R b a) /\ simulation st st R /\
  (forall a b, R a b -> a = b \/ (shareable st a /\ shareable st b)).

Lemma WordToBlock_Int st w a : WordToBlock st w = Some (Some a) -> WordToInt st w = Some None.
Proof. unfold WordToBlock, WordToInt. destruct (deref st w) as [[i | b] |]; cbn; done. Qed.

Lemma WordToBlock_get st w a : WordToBlock st w = Some (Some a) -> exists nd, st_get st a = Some nd /\ forall l w', nd <> NTransient l w'.
Proof.
  unfold WordToBlock. destruct (deref st w) as [[i | b] |]; cbn; try done. destruct (st_get st b) as [nd |] eqn:E; cbn; [| done].
  destruct nd; try done; intros [= ->]; eexists; split; done.
Qed.
End Equivalence.

(** ** Keys of nodes *)

Section Keys.
Context `{Platform} {C : Type} (st : AliceData.store C).
Variables (n : Z) (pr : Z -> list (Z * Z)) (wd : Z -> word) (ad : Z -> Z).
Hypothesis G : graph st n pr wd ad.
Hypothesis Huni : forall x y, valid n x -> valid n y -> uniform st (wd x) (wd y).
(** Chunks are not blocks of words. *)
Hypothesis Hchunk : forall x m args, valid n x -> st_get st (ad x) <> Some (NBlock CHUNK_LABEL m args).

Lemma gr_get x : valid n x -> exists nd, st_get st (ad x) = Some nd /\ forall l w, nd <> NTransient l w.
Proof. intros Hx. eapply WordToBlock_get. by apply (gr_block _ _ _ _ _ G). Qed.

Lemma gr_WordToInt x e w : valid n x -> GetArg st (ad x) e = Some w -> exists c, WordToInt st w = Some c.
Proof. intros Hx Hw. destruct (gr_args _ _ _ _ _ G x e w Hx Hw) as [[i ->] | (c & _ & Hc%WordToBlock_Int)]; eauto. Qed.

Lemma GetArg_lookup a l m args k w : st_get st a = Some (NBlock l m args) -> args !! k = Some w -> GetArg st a (Z.of_nat k) = Some w.
Proof. intros E Hk. unfold GetArg, GetArgs. rewrite E. cbn. unfold aget. by rewrite decide_True, Nat2Z.id by lia. Qed.

Lemma children_key_total x l m args : valid n x -> st_get st (ad x) = Some (NBlock l m args) -> is_Some (children_key st (ad x)).
Proof.
  intros Hx E. unfold children_key, GetSize, GetArgs. rewrite E. cbn.
  assert (Hm : is_Some (mapM (arg_key st (ad x)) (reverse (seqZ 0 (zlen args))))).
  { apply mapM_is_Some, Forall_forall. intros i. rewrite elem_of_reverse, elem_of_seqZ. intros Hi. destruct (aget_is_Some args i) as [w Hw]; [lia |].
    unfold arg_key, GetArg, GetArgs. rewrite E. cbn. rewrite Hw. cbn. unfold child_key. destruct (gr_WordToInt x i w Hx) as [c ->]; [| by eexists].
    unfold GetArg, GetArgs. rewrite E. done. }
  destruct Hm as [ks ->]. by eexists.
Qed.

Lemma key_total x : valid n x -> is_Some (key st (wd x)).
Proof.
  intros Hx. unfold key. rewrite (gr_block _ _ _ _ _ G x Hx). cbn [mbind option_bind]. destruct (gr_get x Hx) as (nd & E & Hnt).
  assert (Hl : is_Some (GetLabel st (ad x)) /\ is_Some (IsMutable st (ad x))).
  { unfold GetLabel, IsMutable. rewrite E. destruct nd; cbn; try (split; by eexists). by destruct (Hnt l w). }
  destruct Hl as [[l El] [m Em]]. rewrite El. cbn [mbind option_bind]. assert (Hb : is_Some (body_key st (ad x) l)); [| destruct Hb as [k ->]; by eexists].
  unfold body_key. rewrite Em. cbn [mbind option_bind]. destruct (PNode.incomparable l) eqn:Ei; [by eexists |].
  destruct nd as [l' m' args | m' bs | l' w' | c].
  - assert (l = l') as -> by (unfold GetLabel in El; rewrite E in El; by injection El).
    pose proof (children_key_total x l' m' args Hx E) as Hc. destruct (_ || _); [done |].
    destruct (Z.eqb_spec l' CHUNK_LABEL) as [-> |]; [by edestruct Hchunk |]. destruct m; [by eexists | done].
  - assert (l = CHUNK_LABEL) as -> by (unfold GetLabel in El; rewrite E in El; by injection El).
    change (is_Some (match st_get st (ad x) with Some (NChunk m0 xs) => Some (if m0 : bool then [ad x] else zlen xs :: xs) | _ => None end)). rewrite E. by eexists.
  - by destruct (Hnt l' w').
  - assert (l = CONCRETE_LABEL) as -> by (unfold GetLabel in El; rewrite E in El; by injection El). done.
Qed.

Definition K x : list Z := default [] (key st (wd x)).

Lemma key_K x : valid n x -> key st (wd x) = Some (K x).
Proof. intros Hx. unfold K. by destruct (key_total x Hx) as [k ->]. Qed.

(** Nodes of the same key are nodes of the same shape. *)
Lemma K_similar x y : valid n x -> valid n y -> K x = K y -> similar st (ad x) (ad y).
Proof.
  intros Hx Hy E. eapply (key_similar st (wd x) (wd y) (K x)); [by apply Huni | by apply key_K | rewrite E; by apply key_K | by apply (gr_block _ _ _ _ _ G) ..].
Qed.

Lemma node_eq x y : valid n x -> valid n y -> similar st (ad x) (ad y) -> ad x = ad y \/
  (shareable st (ad x) /\ shareable st (ad y)).
Proof.
  intros Hx Hy [E | bs E1 E2 | l m m' args args' E1 E2 S1 S2 _]; [by left | right; unfold shareable; by rewrite E1, E2 ..].
Qed.

Lemma children_key_eq v w args args' k l m l' m' :
  st_get st v = Some (NBlock l m args) -> st_get st w = Some (NBlock l' m' args') ->
  Forall2 (fun u u' => exists c, WordToInt st u = Some c /\ WordToInt st u' = Some c) args args' -> children_key st v = Some k -> children_key st w = Some k.
Proof.
  intros Ev Ew HF. unfold children_key, GetSize, GetArgs. rewrite Ev, Ew. cbn. assert (El : zlen args' = zlen args) by (unfold zlen; by rewrite (Forall2_length _ _ _ HF)).
  rewrite El. replace (mapM (arg_key st w) (reverse (seqZ 0 (zlen args)))) with (mapM (arg_key st v) (reverse (seqZ 0 (zlen args)))); [done |].
  apply Forall_mapM_ext, Forall_forall. intros i. rewrite elem_of_reverse, elem_of_seqZ. intros Hi.
  unfold arg_key, GetArg, GetArgs. rewrite Ev, Ew. cbn. destruct (aget_is_Some args i) as [x Ex]; [lia |]. destruct (Forall2_aget _ _ _ _ _ HF Ex) as (y & Ey & c & Ec & Ec').
  rewrite Ex, Ey. cbn. unfold child_key. by rewrite Ec, Ec'.
Qed.

Lemma body_structural v l m args : st_get st v = Some (NBlock l m args) -> is_structural l m = true -> l <> CHUNK_LABEL -> body_key st v l = children_key st v.
Proof.
  intros E [Hi Hs]%andb_true_iff Hc. unfold body_key, IsMutable. rewrite E. cbn [mbind option_bind]. apply negb_true_iff in Hi. rewrite Hi.
  destruct ((l =? CLOSURE_LABEL) || (l =? TUPLE_LABEL) || (l =? TRANSFORM_LABEL)); [done |]. rewrite (proj2 (Z.eqb_neq _ _) Hc). by destruct m.
Qed.

Lemma K_unfold x l (k : list Z) : valid n x -> GetLabel st (ad x) = Some l -> body_key st (ad x) l = Some k -> K x = rank l ++ k.
Proof. intros Hx El Eb. unfold K, key. rewrite (gr_block _ _ _ _ _ G x Hx). cbn [mbind option_bind]. rewrite El. cbn [mbind option_bind]. by rewrite Eb. Qed.

(** Equivalent nodes have the same key. *)
Lemma equivalent_K (R : Z -> Z -> Prop) x y :
  simulation st st R -> (forall a b, R a b -> a = b \/ (shareable st a /\ shareable st b)) -> valid n x -> valid n y -> R (ad x) (ad y) -> K x = K y.
Proof.
  intros Hsim Hmer Hx Hy HR. destruct (Hmer _ _ HR) as [E | [Sx Sy]]; [by rewrite (gr_inj _ _ _ _ _ G x y Hx Hy E) |].
  destruct (Hsim _ _ HR) as (n1 & n2 & E1 & E2 & Hrel). unfold shareable in Sx, Sy. rewrite E1 in Sx. rewrite E2 in Sy.
  destruct Hrel as [l m args args' HF | m bs | c]; [| | done].
  - assert (Hc : l <> CHUNK_LABEL) by (intros ->; by eapply Hchunk).
    destruct (children_key_total x l m args Hx E1) as [k Hk]. assert (Hk' : children_key st (ad y) = Some k).
    { eapply children_key_eq; [exact E1 | exact E2 | | done]. eapply Forall2_impl; [exact HF |]. intros u u' [v w i Ev Ew | v w a b Ev%WordToBlock_Int Ew%WordToBlock_Int _]; eauto. }
    rewrite (K_unfold x l k), (K_unfold y l k); try done.
    + unfold GetLabel. by rewrite E2.
    + by rewrite (body_structural _ _ _ _ E2 Sy Hc).
    + unfold GetLabel. by rewrite E1.
    + by rewrite (body_structural _ _ _ _ E1 Sx Hc).
  - subst m. rewrite (K_unfold x CHUNK_LABEL (zlen bs :: bs)), (K_unfold y CHUNK_LABEL (zlen bs :: bs)); try done; unfold GetLabel, body_key, IsMutable; by rewrite ?E1, ?E2.
Qed.
End Keys.

(** ** Refining a loaded partition *)

(** A bound of the edges of a partition, and of the tables of its blocks. *)
Definition max_edge (preds : list (Z * Z)) : Z := foldr (fun d m => Z.max d.1 m) 0 preds.
Definition width (nodes : list PNode) : Z := foldr (fun nd m => Z.max (2 * max_edge (pn_preds nd) + 4) m) 4 nodes.

Lemma max_edge_le preds d : d ∈ preds -> d.1 <= max_edge preds.
Proof. induction preds as [| d' preds IH]; intros Hin; [by apply not_elem_of_nil in Hin |]. apply elem_of_cons in Hin as [-> | Hin]; cbn; [lia | specialize (IH Hin); unfold max_edge in IH; lia]. Qed.

Lemma width_ge nodes : 4 <= width nodes.
Proof. induction nodes as [| nd nodes IH]; cbn; [done | unfold width in IH; lia]. Qed.

Lemma width_le nodes x nd : aget nodes x = Some nd -> 2 * max_edge (pn_preds nd) + 4 <= width nodes.
Proof.
  unfold aget. case_decide; [| done]. generalize (Z.to_nat x). clear. induction nodes as [| nd' nodes IH]; intros [| k] Hk; try done; cbn.
  - injection Hk as ->. lia.
  - specialize (IH k Hk). unfold width in IH. lia.
Qed.

Section Main.
Context `{Platform} {C : Type} (st : AliceData.store C).
Variables (n : Z) (pr : Z -> list (Z * Z)) (wd : Z -> word) (ad : Z -> Z).
Hypothesis G : graph st n pr wd ad.
Hypothesis Huni : forall x y, valid n x -> valid n y -> uniform st (wd x) (wd y).
Hypothesis Hchunk : forall x m args, valid n x -> st_get st (ad x) <> Some (NBlock CHUNK_LABEL m args).

#[local] Abbreviation K := (K st wd).

Lemma gr_edge_nonneg c e x : valid n c -> (e, x) ∈ pr c -> 0 <= e.
Proof.
  intros Hc (_ & w & Hw & _)%(gr_pred _ _ _ _ _ G); [| done]. unfold GetArg in Hw. destruct (GetArgs st (ad x)) as [args |]; [cbn in Hw | done].
  apply aget_Some_lt in Hw. lia.
Qed.

Lemma gr_edges_in p : loaded n pr wd p -> forall x, valid n x -> edges_in (width (p_nodes p)) (pr x).
Proof.
  intros Hlo x Hx. destruct (lo_nodes _ _ _ _ Hlo) as [Hlen Ho]. destruct (aget_is_Some (p_nodes p) x) as [nd Hnd]; [by rewrite Hlen |].
  pose proof (width_le _ _ _ Hnd) as Hw. destruct (Ho x nd Hnd) as (_ & Epr & _). rewrite Epr in Hw.
  apply Forall_forall. intros [e y] Hd. pose proof (gr_edge_nonneg x e y Hx Hd). pose proof (max_edge_le _ _ Hd). cbn in *. lia.
Qed.

Lemma gr_parents x : valid n x -> Forall (fun d : Z * Z => valid n d.2) (pr x).
Proof. intros Hx. apply Forall_forall. intros [e y] Hd. by apply (gr_pred _ _ _ _ _ G x e y Hx) in Hd as [? _]. Qed.

(** The partition that Hopcroft's algorithm leaves. *)
Definition stable p : Prop := forall x y e c, valid n x -> valid n y -> valid n c -> blk p x = blk p y -> (e, x) ∈ pr c ->
  exists c', valid n c' /\ (e, y) ∈ pr c' /\ blk p c' = blk p c.

Definition stable_relation (R : Z -> Z -> Prop) : Prop :=
  (forall x y, R x y -> R y x) /\ (forall x y, valid n x -> valid n y -> R x y -> K x = K y) /\
  (forall x y e c, valid n x -> valid n y -> valid n c -> R x y -> (e, x) ∈ pr c -> exists c', valid n c' /\ (e, y) ∈ pr c' /\ R c c').

Definition refine (fuel : nat) p : option Partition := p ← InitBlocks st p; let '(p, agenda) := InitAgenda p in agenda_loop fuel p agenda.

Lemma refine_relation fuel p (R : Z -> Z -> Prop) : loaded n pr wd p -> 0 < n -> 2 * (width (p_nodes p) + 1) * n <= Z.of_nat fuel -> stable_relation R ->
  exists p', refine fuel p = Some p' /\ layout n pr wd p' /\ stable p' /\
    (forall x y, valid n x -> valid n y -> blk p' x = blk p' y -> K x = K y) /\ (forall x y, valid n x -> valid n y -> R x y -> blk p' x = blk p' y).
Proof.
  intros Hlo H0 Hf (Rsym & RK & Rchild). pose proof (gr_edges_in p Hlo) as HW. pose proof (width_ge (p_nodes p)) as HW4. set (W := width (p_nodes p)) in *.
  assert (HW0 : 0 < W) by lia. assert (Hfun : forall e x c c', valid n c -> valid n c' -> (e, x) ∈ pr c -> (e, x) ∈ pr c' -> c = c').
  { intros e x c c' Hc Hc'. by apply (gr_fun st n pr wd ad G). }
  destruct (InitBlocks_ok st n W pr wd K HW HW0 (key_K st n pr wd ad G Hchunk) Huni p Hlo H0) as (p1 & E1 & Hset & Hun & HK).
  pose proof (InitAgenda_ok n W pr wd HW0 R (fun x y => K x = K y) p1 Hset Hun) as Hag. unfold refine. rewrite E1. cbn [mbind option_bind].
  destruct (InitAgenda p1) as [p2 q]. destruct Hag as (Hs & Hblk & Hpot).
  { intros x y Hx Hy HR. apply HK; auto. } { intros x y Hx Hy. by apply HK. }
  destruct (agenda_loop_ok n W pr wd gr_parents HW HW0 Hfun R Rsym Rchild _ fuel p2 q Hs) as (p3 & E3 & Hs3); [lia |].
  exists p3. split; [done |]. split; [apply (st_layout _ _ _ _ _ (sa_settled _ _ _ _ _ _ _ _ _ Hs3)) |]. split; [| split].
  - intros x y e c Hx Hy Hc Exy Hin. pose proof (gr_edge_nonneg c e x Hc Hin) as He. by apply (state_stable _ _ _ _ _ _ p3 x y e c Hs3).
  - apply (sa_fine _ _ _ _ _ _ _ _ _ Hs3).
  - apply (sa_coarse _ _ _ _ _ _ _ _ _ Hs3).
Qed.

(** The blocks at the end are the classes of the coarsest stable relation. *)
Lemma refine_ok fuel p : loaded n pr wd p -> 0 < n -> 2 * (width (p_nodes p) + 1) * n <= Z.of_nat fuel ->
  exists p', refine fuel p = Some p' /\ layout n pr wd p' /\ stable p' /\
    (forall x y, valid n x -> valid n y -> blk p' x = blk p' y -> K x = K y) /\
    (forall R x y, stable_relation R -> valid n x -> valid n y -> R x y -> blk p' x = blk p' y).
Proof.
  intros Hlo H0 Hf. destruct (refine_relation fuel p (fun _ _ => False) Hlo H0 Hf) as (p' & E & Hl & Hst & Hfi & _); [by split_and!; intros; destruct_and? |].
  exists p'. split; [done |]. split; [done |]. split; [done |]. split; [done |]. intros R x y HR Hx Hy Hxy.
  destruct (refine_relation fuel p R Hlo H0 Hf HR) as (p'' & E' & _ & _ & _ & Hco). simplify_eq. by apply Hco.
Qed.

(** ** The leaders *)

(** The root becomes the first node of its block; blocks stay the same. *)
Lemma root_leads_ok p : layout n pr wd p -> 0 < n ->
  exists p', root_leads p = Some p' /\ layout n pr wd p' /\ (forall x, blk p' x = blk p x) /\ p_blocks p' = p_blocks p /\
    exists B, aget (p_blocks p') (blk p' 0) = Some B /\ pos p' 0 = pb_start B.
Proof.
  intros Hl H0. assert (V0 : valid n 0) by (unfold valid; lia). unfold root_leads. rewrite (LookUp_pos n pr wd p 0 Hl V0). cbn [mbind option_bind].
  destruct (na_Sub_pos n pr wd p 0 Hl V0) as (nd & -> & _ & _ & En & Eb). cbn [mbind option_bind]. rewrite Eb, En.
  destruct (ly_block _ _ _ _ Hl 0 V0) as [B HB]. rewrite HB. cbn [mbind option_bind].
  pose proof (ly_span _ _ _ _ Hl _ _ HB) as (Hse & Hen & _). pose proof (proj1 (ly_in _ _ _ _ Hl _ B 0 HB V0) eq_refl) as Hp0.
  destruct (at_pos n pr wd p (pb_start B) Hl) as (s & Es & Vs & Ps); [unfold valid; lia |].
  destruct (na_Sub_pos n pr wd p s Hl Vs) as (nd' & End' & _ & _ & En' & _). rewrite Ps in End'. rewrite End'. cbn [mbind option_bind]. rewrite En'.
  destruct (Z.eqb_spec 0 s) as [<- | Hne].
  { exists p. split; [done |]. split; [done |]. split; [done |]. split; [done |]. by exists B. }
  rewrite (LookUp_pos n pr wd p s Hl Vs). cbn [mbind option_bind]. rewrite Ps.
  destruct (Swap_layout n pr wd p (blk p 0) B (pos p 0) (pb_start B) Hl HB) as (p' & -> & Hl' & Hnodes & Hblocks & _ & Hpos); [lia .. |].
  exists p'. assert (Hblk : forall x, blk p' x = blk p x) by (intros x; unfold blk; by rewrite Hnodes).
  split; [done |]. split; [done |]. split; [done |]. split; [done |]. exists B. rewrite Hblk, Hblocks. split; [done |].
  rewrite Hpos by done. unfold transpose. by rewrite Z.eqb_refl.
Qed.

Definition lead p x : Z := match aget (p_blocks p) (blk p x) with Some B => default 0 (aget (p_na p) (pb_start B)) | None => 0 end.

Lemma lead_spec p x : layout n pr wd p -> valid n x ->
  valid n (lead p x) /\ blk p (lead p x) = blk p x /\ exists B, aget (p_blocks p) (blk p x) = Some B /\ pos p (lead p x) = pb_start B.
Proof.
  intros Hl Hx. unfold lead. destruct (ly_block _ _ _ _ Hl x Hx) as [B HB]. rewrite HB. pose proof (ly_span _ _ _ _ Hl _ _ HB) as (Hse & Hen & _).
  destruct (at_pos n pr wd p (pb_start B) Hl) as (s & -> & Vs & Ps); [unfold valid; lia |]. cbn. split; [done |]. split; [| by exists B].
  apply (ly_in _ _ _ _ Hl _ B s HB Vs). lia.
Qed.

Lemma lead_block p x y : layout n pr wd p -> valid n x -> valid n y -> lead p x = lead p y <-> blk p x = blk p y.
Proof.
  intros Hl Hx Hy. split; intros E.
  - destruct (lead_spec p x Hl Hx) as (_ & <- & _), (lead_spec p y Hl Hy) as (_ & <- & _). by rewrite E.
  - unfold lead. by rewrite E.
Qed.

Lemma ReduceGraph_ok p : layout n pr wd p -> 0 < n ->
  exists st' p', ReduceGraph st p = Some (st', p') /\ layout n pr wd p' /\ (forall x, blk p' x = blk p x) /\ lead p' 0 = 0 /\
    redirected st n pr wd ad (lead p') (fun c _ _ => lead p' c <> c) st'.
Proof.
  intros Hl H0. assert (V0 : valid n 0) by (unfold valid; lia). unfold ReduceGraph.
  destruct (root_leads_ok p Hl H0) as (p' & -> & Hl' & Hblk & _ & B & HB & Hp0). cbn [mbind option_bind].
  destruct (replace_blocks_ok st n pr wd ad G p' Hl' (lead p') (p_blocks p')) with (st' := st) as (st' & -> & Hr).
  - intros x Hx. destruct (lead_spec p' x Hl' Hx) as (? & _ & ?). done.
  - intros D [k Hk]%list_elem_of_lookup. exists (Z.of_nat k). unfold aget. by rewrite decide_True, Nat2Z.id by lia.
  - apply redirected_start. auto.
  - cbn [mbind option_bind]. exists st', p'. split; [done |]. split; [done |]. split; [done |]. split.
    + destruct (lead_spec p' 0 Hl' V0) as (Vl & _ & B' & HB' & Hp). simplify_eq. apply (pos_inj n pr wd p'); [done .. | congruence].
    + eapply redirected_iff; [| exact Hr]. intros c e x Hc _ Hne. destruct (lead_spec p' c Hl' Hc) as (Vl & _ & D & HD & Hp). exists D. split.
      * unfold aget in HD. case_decide; [| done]. by eapply list_elem_of_lookup_2.
      * pose proof (proj1 (ly_in _ _ _ _ Hl' _ D c HD Hc) eq_refl). assert (pos p' c <> pb_start D); [| lia]. intros E. apply Hne.
        apply (pos_inj n pr wd p'); [done .. | congruence].
Qed.

(** ** The reduced graph represents the same data *)

(** Nodes of the same key are related if their arguments are. *)
Lemma node_simulation st' (R : Z -> Z -> Prop) x y :
  same_shape st st' -> valid n x -> valid n y -> K x = K y ->
  (forall e w w1 w2, GetArg st (ad x) e = Some w -> GetArg st (ad y) e = Some w1 -> GetArg st' (ad y) e = Some w2 -> WordToInt st w = WordToInt st w1 ->
    word_rel st st' R w w2) ->
  exists n1 n2, st_get st (ad x) = Some n1 /\ st_get st' (ad y) = Some n2 /\ node_rel st st' R n1 n2.
Proof.
  intros Rs Hx Hy HK Harg. pose proof (K_similar st n pr wd ad G Huni Hchunk x y Hx Hy HK) as Hsim.
  pose proof (proj1 Rs (ad y)) as Hsh. destruct (gr_get st n pr wd ad G x Hx) as (n1 & E1 & Hnt).
  assert (Hargs : forall l m m' args args1 n2, st_get st (ad x) = Some (NBlock l m args) -> st_get st (ad y) = Some (NBlock l m' args1) -> same_node (NBlock l m' args1) n2 ->
    st_get st' (ad y) = Some n2 -> Forall2 (fun u u' => exists c, WordToInt st u = Some c /\ WordToInt st u' = Some c) args args1 ->
    exists args2, n2 = NBlock l m' args2 /\ Forall2 (word_rel st st' R) args args2).
  { intros l m m' args args1 n2 Ex Ey Hn E2 HF. assert (exists args2, n2 = NBlock l m' args2 /\ length args1 = length args2) as (args2 & -> & Hlen).
    { inversion Hn; subst; eauto. }
    exists args2. split; [done |]. apply Forall2_same_length_lookup. split; [by rewrite (Forall2_length _ _ _ HF) |]. intros k w w2 Hw Hw2.
    destruct (lookup_lt_is_Some_2 args1 k) as [w1 Hw1]; [rewrite Hlen; by eapply lookup_lt_Some |].
    destruct (Forall2_lookup_lr _ _ _ _ _ _ HF Hw Hw1) as (c & Ec & Ec1). apply (Harg (Z.of_nat k) w w1 w2); [by eapply GetArg_lookup .. | congruence]. }
  destruct Hsim as [E | bs Ex Ey | l m m' args args1 Ex Ey S1 S2 HF].
  - rewrite <- E, E1 in Hsh. rewrite <- E in *. destruct (st_get st' (ad x)) as [n2 |] eqn:E2; inversion Hsh as [? ? Hn |]; subst. exists n1, n2. split; [done |]. split; [done |].
    destruct n1 as [l m args | m bs | l w | c]; [| inversion Hn; subst; constructor | by destruct (Hnt l w) | inversion Hn; subst; constructor].
    destruct (Hargs l m m args args n2) as (args2 & -> & HF); try done; [| by constructor].
    apply Forall_Forall2_diag, Forall_forall. intros w [k Hk]%list_elem_of_lookup. destruct (gr_WordToInt st n pr wd ad G x (Z.of_nat k) w Hx) as [c Hc]; [by eapply GetArg_lookup | eauto].
  - rewrite Ey in Hsh. destruct (st_get st' (ad y)) as [n2 |] eqn:E2; inversion Hsh as [? ? Hn |]; subst. inversion Hn; subst.
    exists (NChunk false bs), (NChunk false bs). split; [done |]. split; [done |]. constructor.
  - rewrite Ey in Hsh. destruct (st_get st' (ad y)) as [n2 |] eqn:E2; inversion Hsh as [? ? Hn |]; subst.
    destruct (Hargs l m m' args args1 n2) as (args2 & -> & HF2); try done. exists (NBlock l m args), (NBlock l m' args2). split; [done |]. split; [done |].
    assert (m = m') as ->; [| by constructor].
    pose proof (Huni x y Hx Hy (ad x) (ad y) l (gr_block _ _ _ _ _ G x Hx) (gr_block _ _ _ _ _ G y Hy)) as Hu. unfold GetLabel, IsMutable in Hu. rewrite Ex, Ey in Hu.
    by injection (Hu eq_refl eq_refl).
Qed.

Lemma reduced_simulation p st' : layout n pr wd p -> stable p -> (forall x y, valid n x -> valid n y -> blk p x = blk p y -> K x = K y) ->
  redirected st n pr wd ad (lead p) (fun c _ _ => lead p c <> c) st' ->
  simulation st st' (fun a b => exists x, valid n x /\ a = ad x /\ b = ad (lead p x)).
Proof.
  intros Hl Hst HK [Rs Ro Ri Re] a b (x & Hx & -> & ->). destruct (lead_spec p x Hl Hx) as (Vl & Hbl & _). set (y := lead p x) in *.
  apply node_simulation; [done .. | by apply HK |]. intros e w w1 w2 Ew Ew1 Ew2 Ei. destruct (gr_args _ _ _ _ _ G x e w Hx Ew) as [[i Hi] | (c & Hc & Hwc)].
  - rewrite (Ri y e w1 Vl Ew1) in Ew2. { injection Ew2 as <-. apply wr_int with i; [done |]. rewrite (WordToInt_shape _ _ _ Rs). congruence. }
    intros c _ Hwc%WordToBlock_Int. congruence.
  - assert (Hin : (e, x) ∈ pr c) by (apply (gr_pred _ _ _ _ _ G c e x Hc); eauto). destruct (Hst x y e c) as (c' & Hc' & Hin' & Hcc); [done .. |].
    destruct (Re c' e y w1 Hc' Hin' Ew1) as (w2' & Ew2' & Hor & HD). simplify_eq.
    destruct (proj1 (gr_pred _ _ _ _ _ G c' e y Hc') Hin') as (_ & w1' & Ew1' & Hwc'). simplify_eq.
    destruct (lead_spec p c' Hl Hc') as (Vlc & _).
    apply wr_block with (ad c) (ad (lead p c')); [done | rewrite (WordToBlock_shape _ _ _ Rs) | exists c; split; [done |]; split; [done |]; f_equal; by apply lead_block].
    destruct (decide (lead p c' = c')) as [El | Hne]; [| rewrite (HD Hne); by apply (gr_block _ _ _ _ _ G)].
    destruct Hor as [-> | ->]; [by rewrite El | by apply (gr_block _ _ _ _ _ G)].
Qed.

(** ** The blocks are the classes of equivalent nodes *)

Lemma stable_equivalent p x y : stable p -> (forall x y, valid n x -> valid n y -> blk p x = blk p y -> K x = K y) ->
  valid n x -> valid n y -> blk p x = blk p y -> equivalent st (ad x) (ad y).
Proof.
  intros Hst HK Hx Hy E. exists (fun a b => exists x y, valid n x /\ valid n y /\ a = ad x /\ b = ad y /\ blk p x = blk p y).
  split; [by exists x, y |]. split; [intros a b (x1 & y1 & ? & ? & ? & ? & ?); by exists y1, x1 |]. split.
  - intros a b (x1 & y1 & Vx & Vy & -> & -> & Exy). apply node_simulation; [apply same_shape_refl | done | done | by apply HK |].
    intros e w w1 w2 Ew Ew1 Ew2 Ei. simplify_eq. destruct (gr_args _ _ _ _ _ G x1 e w Vx Ew) as [[i Hi] | (c & Hc & Hwc)].
    + apply wr_int with i; congruence.
    + destruct (Hst x1 y1 e c) as (c' & Hc' & Hin' & Hcc); [done .. | apply (gr_pred _ _ _ _ _ G c e x1 Hc); eauto |].
      destruct (proj1 (gr_pred _ _ _ _ _ G c' e y1 Hc') Hin') as (_ & w' & Ew' & Hwc'). simplify_eq.
      apply wr_block with (ad c) (ad c'); [done .. |]. by exists c, c'.
  - intros a b (x1 & y1 & Vx & Vy & -> & -> & Exy). apply (node_eq st n ad x1 y1); [done .. |]. by apply (K_similar st n pr wd ad G Huni Hchunk), HK.
Qed.

Lemma equivalent_stable_relation a b : equivalent st a b ->
  exists R : Z -> Z -> Prop, stable_relation (fun x y => valid n x /\ valid n y /\ R (ad x) (ad y)) /\ R a b.
Proof.
  intros (R & HR & Hsym & Hsim & Hmer). exists R. split; [split; [| split] | done].
  - intros x y (? & ? & ?). auto.
  - intros x y Hx Hy (_ & _ & Hxy). by apply (equivalent_K st n pr wd ad G Hchunk R).
  - intros x y e c Hx Hy Hc (_ & _ & Hxy) Hin. destruct (proj1 (gr_pred _ _ _ _ _ G c e x Hc) Hin) as (_ & w & Ew & Hwc).
    destruct (Hsim _ _ Hxy) as (n1 & n2 & E1 & E2 & Hrel). unfold GetArg, GetArgs in Ew. rewrite E1 in Ew. destruct Hrel as [l m args args' HF | |]; [| done ..].
    cbn in Ew. destruct (Forall2_aget _ _ _ _ _ HF Ew) as (w' & Ew' & Hw). destruct Hw as [v v' i Hv _ | v v' a1 b1 Hv Hv' Hab].
    { by rewrite (WordToBlock_Int _ _ _ Hwc) in Hv. }
    assert (Ey : GetArg st (ad y) e = Some v') by (unfold GetArg, GetArgs; by rewrite E2). simplify_eq.
    destruct (gr_args _ _ _ _ _ G y e v' Hy Ey) as [[i Hi] | (c' & Hc' & Hwc')].
    { by rewrite (WordToBlock_Int _ _ _ Hv') in Hi. }
    simplify_eq. exists c'. split; [done |]. split; [apply (gr_pred _ _ _ _ _ G c' e y Hc'); eauto | done].
Qed.
End Main.

(** ** The loaded graph and its reduction *)

(** What the loader makes of the data at [root]. *)
Definition loads `{Platform} {C : Type} (st : AliceData.store C) (root : word) p : Prop :=
  (forall w, reach st root w -> (exists i, WordToInt st w = Some (Some i)) \/
    exists x, valid (zlen (p_nodes p)) x /\ WordToBlock st w = Some (Some (node_addr st p x))) /\
  (forall x, valid (zlen (p_nodes p)) x -> reach st root (node_word p x)) /\
  (forall b, WordToBlock st root = Some (Some b) -> valid (zlen (p_nodes p)) 0 /\ node_addr st p 0 = b) /\
  graph st (zlen (p_nodes p)) (node_preds (p_nodes p)) (node_word p) (node_addr st p) /\
  loaded (zlen (p_nodes p)) (node_preds (p_nodes p)) (node_word p) p.

Lemma Load_loads `{Platform} {C : Type} (st : AliceData.store C) root fuel :
  plain_data st root -> (1 + unseen st ∅ < fuel)%nat ->
  (exists p, Load fuel st root = Some (Loaded p) /\ loads st root p) \/
  (exists w a l, Load fuel st root = Some (LoadRequest w l) /\ reach st root w /\ WordToTransient st w = Some (Some a)).
Proof.
  intros Hpd Hf. unfold Load. destruct (load_loop_ok st root fuel _ Hpd (loading_start st root)) as [(l & E & Hl & Es) | (w & a & l & E & Hw & Ha)].
  - done.
  - left. exists (ld_part l). split; [done |]. destruct (loading_graph st root l Hl Es) as [G Hlo]. split; [intros w; by apply (loading_reach st root l w Hl Es) |].
    split; [intros x Hx; by apply (loading_node st root l x Hl) |]. split; [| done].
    intros b Hb. destruct (ld_root st root l Hl) as [[_ Hs] | [[i Hi] | (b' & Hb' & Hn)]].
    + congruence.
    + by rewrite (WordToBlock_Int _ _ _ Hb) in Hi.
    + simplify_eq. by destruct (node_block_addr st _ _ _ Hn) as (? & _ & ?).
  - right. by exists w, a, l.
Qed.

Lemma Minimize_refine `{Platform} {C : Type} (st : AliceData.store C) fuel p : 2 <= zlen (p_na p) ->
  Minimize fuel st p = (p' ← refine st fuel p; ReduceGraph st p').
Proof.
  intros Hn. unfold Minimize, refine. rewrite (proj2 (Z.ltb_ge _ _)) by lia. destruct (InitBlocks st p) as [p1 |]; [cbn [mbind option_bind] | done].
  by destruct (InitAgenda p1) as [p2 q].
Qed.

(** Every node is equivalent to itself. *)
Lemma graph_refl `{Platform} {C : Type} (st : AliceData.store C) n pr wd ad : graph st n pr wd ad -> simulation st st (fun a b => a = b /\ exists x, valid n x /\ a = ad x).
Proof.
  intros G a b (<- & x & Hx & ->). destruct (gr_get st n pr wd ad G x Hx) as (nd & E & Hnt). exists nd, nd. split; [done |]. split; [done |].
  destruct nd as [l m args | m bs | l w | c]; [| constructor | by destruct (Hnt l w) | constructor].
  constructor. apply Forall_Forall2_diag, Forall_forall. intros w [k Hk]%list_elem_of_lookup. pose proof (GetArg_lookup st _ _ _ _ _ _ E Hk) as Hw.
  destruct (gr_args _ _ _ _ _ G x _ w Hx Hw) as [[i Hi] | (c & Hc & Hwc)]; [by apply wr_int with i |]. apply wr_block with (ad c) (ad c); [done .. |]. split; [done | by exists c].
Qed.
