(* ===== verification/MinimizerProps.v ===== *)
(** * The minimizer: the properties

    The loader finds the graph, and the minimizer merges what cannot be told
    apart, under the condition that the last property shows to be needed.  An
    executable check of concrete data, for the witnesses, comes first. *)

From S2P Require Import Prelude Config HeaderOp AliceData Minimizer MinimizerOrder MinimizerLoad MinimizerSort MinimizerBlock MinimizerLayout MinimizerInit MinimizerReduce MinimizerThm.

Section Check.
Context `{Platform} {C : Type} (st : AliceData.store C) (root : word).

Definition args_in (l : list word) (w : word) : bool :=
  match WordToBlock st w with
  | Some (Some b) => match GetArgs st b with Some args => forallb (fun x => bool_decide (x ∈ l)) args | None => true end
  | _ => true
  end.

(** The word is no dangling pointer, and its block is mutable as [mutable_of] says. *)
Definition loadable (mutable_of : Z -> bool) (w : word) : bool :=
  match deref st w with
  | Some (WInt _) => true
  | Some (WPtr a) =>
      match st_get st a with
      | Some (NBlock l m _) => negb (l =? CHUNK_LABEL) && Bool.eqb m (mutable_of l)
      | Some (NChunk m _) => Bool.eqb m (mutable_of CHUNK_LABEL)
      | Some (NTransient _ _) => true
      | _ => false
      end
  | None => false
  end.

Definition check_words (mutable_of : Z -> bool) (l : list word) : bool :=
  bool_decide (root ∈ l) && forallb (fun w => args_in l w && loadable mutable_of w) l.

Lemma check_reach mutable_of l w : check_words mutable_of l = true -> reach st root w -> w ∈ l /\ loadable mutable_of w = true.
Proof.
  intros [Hr Hall]%andb_true_iff Hw. apply bool_decide_eq_true in Hr. rewrite forallb_forall in Hall.
  assert (Hin : w ∈ l).
  { induction Hw as [| w b e w' Hw IH Hb Ha]; [done |]. apply list_elem_of_In in IH. specialize (Hall w IH). apply andb_true_iff in Hall as [Hargs _].
    unfold args_in in Hargs. rewrite Hb in Hargs. unfold GetArg in Ha. destruct (GetArgs st b) as [args |]; [cbn in Ha | done].
    rewrite forallb_forall in Hargs. specialize (Hargs w'). apply (bool_decide_eq_true_1 (w' ∈ l)), Hargs, list_elem_of_In. unfold aget in Ha. case_decide; [| done].
    by eapply list_elem_of_lookup_2. }
  split; [done |]. apply list_elem_of_In in Hin. by apply Hall, andb_true_iff in Hin as [_ ?].
Qed.

Lemma check_plain mutable_of l : check_words mutable_of l = true -> plain_data st root.
Proof.
  intros Hc. split.
  - intros w Hw. destruct (check_reach _ _ _ Hc Hw) as [_ Hl]. unfold loadable in Hl. destruct (deref st w) as [[i | a] |]; [by eexists | | done].
    exists (WPtr a). split; [done |]. intros a' [= <-]. by destruct (st_get st a).
  - intros w b Hw Hb. destruct (check_reach _ _ _ Hc Hw) as [_ Hl]. unfold loadable in Hl. unfold WordToBlock in Hb.
    destruct (deref st w) as [[i | a] |]; cbn [mbind option_bind] in Hb; try done. destruct (st_get st a) as [nd |] eqn:E; cbn [mbind option_bind] in Hb; [| done].
    destruct nd as [lab m args | m bs | lab w' | c]; try done; injection Hb as <-; rewrite E; [left | right; eauto].
    exists lab, m, args. split; [done |]. intros ->. by rewrite Z.eqb_refl in Hl.
Qed.

Lemma check_uniform mutable_of l v w : check_words mutable_of l = true -> reach st root v -> reach st root w -> uniform st v w.
Proof.
  intros Hc Hv Hw. assert (Hm : forall u a lab, reach st root u -> WordToBlock st u = Some (Some a) -> GetLabel st a = Some lab -> IsMutable st a = Some (mutable_of lab)).
  { intros u a lab Hu Hb Hlab. destruct (check_reach _ _ _ Hc Hu) as [_ Hl]. unfold loadable in Hl. unfold WordToBlock in Hb. unfold GetLabel in Hlab. unfold IsMutable.
    destruct (deref st u) as [[i | a'] |]; cbn [mbind option_bind] in Hb; try done. destruct (st_get st a') as [nd |] eqn:E; cbn [mbind option_bind] in Hb; [| done].
    destruct nd as [lab' m args | m bs | lab' w' | c]; try done; injection Hb as <-; rewrite E in *; injection Hlab as <-; cbn [mbind option_bind]; f_equal.
    - apply andb_true_iff in Hl as [_ Hl]. by apply eqb_prop.
    - by apply eqb_prop. }
  intros a b lab Ha Hb La Lb. by rewrite (Hm v a lab Hv Ha La), (Hm w b lab Hw Hb Lb).
Qed.
End Check.

(** ** The properties *)

(** C7. The loader terminates on data without dangling words and makes, of
    every block that is reachable from the root, exactly one node, and of every
    argument that holds a block an edge to its node, the root being node 0;
    else it stops at a reachable transient and asks for it. *)
Theorem load_reachable `{Platform} {C : Type} (st : AliceData.store C) (root : word) (fuel : nat) :
  plain_data st root -> (1 + unseen st ∅ < fuel)%nat ->
  (exists p, Load fuel st root = Some (Loaded p) /\ loads st root p) \/
  (exists w a l, Load fuel st root = Some (LoadRequest w l) /\ reach st root w /\ WordToTransient st w = Some (Some a)).
Proof. apply Load_loads. Qed.

(** Two pairs that hold each other, and a pair of them. *)
Definition sample_cycle : store unit :=
  mkStore 4 (<[1 := NBlock TUPLE_LABEL false [WPtr 2; WPtr 3]]> (<[2 := NBlock TUPLE_LABEL false [WInt 5; WPtr 3]]>
    (<[3 := NBlock TUPLE_LABEL false [WInt 5; WPtr 2]]> ∅))).

(** The words of the sample. *)
Definition sample_words : list word := [WPtr 1; WPtr 2; WPtr 3; WInt 5].

Definition sample_partition : Partition := match Load 20 sample_cycle (WPtr 1) with Some (Loaded p) => p | _ => Partition_New end.

Lemma load_reachable_witness : exists p, Load 20 sample_cycle (WPtr 1) = Some (Loaded p) /\ loads (H := P64) sample_cycle (WPtr 1) p.
Proof.
  destruct (load_reachable (H := P64) sample_cycle (WPtr 1) 20) as [Hp | (w & a & l & E & _)].
  - apply (check_plain _ _ (fun _ => false) sample_words). vm_compute. reflexivity.
  - vm_compute. lia.
  - exact Hp.
  - exfalso. vm_compute in E. discriminate.
Defined.

(** C6. [Minimize] on a loaded graph terminates.  It leaves a graph with the
    same root that represents the same data, with a node [rep x] in the place
    of every node [x]; two nodes are merged if and only if no sequence of
    selections and comparisons of values tells them apart.  Blocks of the same
    label must agree in mutability. *)
Theorem minimize_correct `{Platform} {C : Type} (st : AliceData.store C) (root : word) (fuel fuel' : nat) (p : Partition) :
  plain_data st root -> (forall v w, reach st root v -> reach st root w -> uniform st v w) ->
  (1 + unseen st ∅ < fuel)%nat -> Load fuel st root = Some (Loaded p) ->
  2 * (width (p_nodes p) + 1) * zlen (p_nodes p) <= Z.of_nat fuel' ->
  let n := zlen (p_nodes p) in
  exists st' p' (rep : Z -> Z), Minimize fuel' st p = Some (st', p') /\ (0 < n -> rep 0 = 0) /\ (forall x, valid n x -> valid n (rep x)) /\
    simulation st st' (fun a b => exists x, valid n x /\ a = node_addr st p x /\ b = node_addr st p (rep x)) /\
    (forall x y, valid n x -> valid n y -> rep x = rep y <-> equivalent st (node_addr st p x) (node_addr st p y)).
Proof.
  intros Hpd Hu Hf EL Hf' n. destruct (Load_loads st root fuel Hpd Hf) as [(p0 & E & _ & Hreach & _ & G & Hlo) | (w & a & l & E & _)]; [| congruence].
  rewrite E in EL. injection EL as ->. fold n in Hreach, G, Hlo.
  assert (Huni : forall x y, valid n x -> valid n y -> uniform st (node_word p x) (node_word p y)) by auto.
  assert (Hchunk : forall x m args, valid n x -> st_get st (node_addr st p x) <> Some (NBlock CHUNK_LABEL m args)).
  { intros x m args Hx Ex. destruct (pd_block st root Hpd (node_word p x) (node_addr st p x)) as [(l & m' & args' & E' & Hne) | (m' & bs & E')];
      [auto | by apply (gr_block _ _ _ _ _ G) | congruence ..]. }
  assert (Hna : zlen (p_na p) = n) by apply (ao_len _ _ _ (lo_arr _ _ _ _ Hlo)). destruct (decide (n < 2)) as [Hlt | Hge].
  { exists st, p, (fun x => x). unfold Minimize. rewrite (proj2 (Z.ltb_lt _ _)) by lia. split; [done |]. split; [done |]. split; [done |].
    pose proof (graph_refl st n _ _ _ G) as Hr. split.
    - intros a b (x & Hx & -> & ->). destruct (Hr (node_addr st p x) (node_addr st p x)) as (n1 & n2 & ? & ? & Hrel); [split; [done | by exists x] |]. exists n1, n2.
      split; [done |]. split; [done |]. destruct Hrel as [l m args args' HF | |]; constructor. eapply Forall2_impl; [exact HF |].
      intros u v [| ? ? ? ? ? ? (<- & y & Hy & ->)]; [by eapply wr_int | by eapply wr_block; eauto].
    - intros x y Hx Hy. assert (x = y) as -> by (unfold valid in *; lia). split; [intros _ | done].
      exists (fun a b => a = b /\ exists x, valid n x /\ a = node_addr st p x). split; [split; [done | by exists y] |]. split; [by intros a b [-> ?] |]. split; [done |].
      intros a b [-> _]. by left. }
  rewrite (Minimize_refine st fuel' p) by lia.
  destruct (refine_ok st n _ _ _ G Huni Hchunk fuel' p Hlo ltac:(lia) Hf') as (p1 & -> & Hl1 & Hst & HK & Hco). cbn [mbind option_bind].
  destruct (ReduceGraph_ok st n _ _ _ G p1 Hl1 ltac:(lia)) as (st' & p2 & E2 & Hl2 & Hblk & Hl0 & Hr). exists st', p2, (lead p2).
  assert (Hst2 : stable n (node_preds (p_nodes p)) p2) by (intros x y e c Hx Hy Hc; rewrite !Hblk; setoid_rewrite Hblk; by apply Hst).
  assert (HK2 : forall x y, valid n x -> valid n y -> blk p2 x = blk p2 y -> K st (node_word p) x = K st (node_word p) y) by (intros x y Hx Hy; rewrite !Hblk; by apply HK).
  split; [done |]. split; [done |]. split; [intros x Hx; by apply (lead_spec n _ _ p2 x Hl2) |]. split; [by eapply reduced_simulation |].
  intros x y Hx Hy. rewrite (lead_block n _ _ p2 x y Hl2 Hx Hy). split; [by apply (stable_equivalent st n _ _ _ G Huni Hchunk p2) |].
  intros (R & HR & Hxy)%(equivalent_stable_relation st n _ _ _ G Hchunk). rewrite !Hblk. by apply (Hco _ x y HR).
Qed.

Lemma minimize_correct_witness :
  exists st' p', Minimize 100 sample_cycle sample_partition = Some (st', p') /\ st_get st' 1 = Some (NBlock TUPLE_LABEL false [WPtr 3; WPtr 3]).
Proof.
  destruct (minimize_correct (H := P64) sample_cycle (WPtr 1) 20 100 sample_partition) as (st' & p' & rep & E & _).
  - apply (check_plain _ _ (fun _ => false) sample_words). vm_compute. reflexivity.
  - intros v w. apply (check_uniform _ _ (fun _ => false) sample_words). vm_compute. reflexivity.
  - vm_compute. lia.
  - vm_compute. reflexivity.
  - vm_compute. discriminate.
  - exists st', p'. split; [exact E |]. vm_compute in E. injection E as <- _. vm_compute. reflexivity.
Defined.

(** ** Sorting with another comparison that agrees *)

Section SortExt.
Variables (nodes : list PNode) (cmp cmp' : Z -> Z -> option Z) (E : forall x y, cmp x y = cmp' x y).

Lemma scan_up_ext fuel : forall a v i, scan_up cmp fuel a v i = scan_up cmp' fuel a v i.
Proof. induction fuel as [| fuel IH]; intros a v i; [done |]. simpl. destruct (aget a (i + 1)); [| done]. simpl. rewrite E. destruct (cmp' _ _); [| done]. simpl. by rewrite IH. Qed.

Lemma scan_down_ext fuel : forall a v l j, scan_down cmp fuel a v l j = scan_down cmp' fuel a v l j.
Proof. induction fuel as [| fuel IH]; intros a v l j; [done |]. simpl. destruct (aget a (j - 1)); [| done]. simpl. rewrite E. destruct (cmp' _ _); [| done]. simpl. by rewrite IH. Qed.

Lemma partition_loop_ext fuel : forall a lua v l i j, partition_loop nodes cmp fuel a lua v l i j = partition_loop nodes cmp' fuel a lua v l i j.
Proof.
  induction fuel as [| fuel IH]; intros a lua v l i j; [done |]. cbn [partition_loop]. rewrite scan_up_ext. destruct (scan_up _ _ _ _ _); [| done].
  cbn [mbind option_bind]. rewrite scan_down_ext. destruct (scan_down _ _ _ _ _ _); [| done]. cbn [mbind option_bind].
  destruct (_ <=? _); [done |]. destruct (swap _ _ _ _ _); [| done]. cbn [mbind option_bind]. apply IH.
Qed.

Lemma sort_ext fuel : forall a lua l r, sort nodes cmp fuel a lua l r = sort nodes cmp' fuel a lua l r.
Proof.
  induction fuel as [| fuel IH]; intros a lua l r; [done |]. cbn [sort]. destruct (_ <=? _); [done |]. unfold partition.
  destruct (aget a r); [| done]. cbn [mbind option_bind]. rewrite partition_loop_ext.
  destruct (partition_loop _ _ _ _ _ _ _ _ _) as [[[a1 lua1] i] |]; [| done]. cbn [mbind option_bind].
  destruct (swap _ _ _ _ _); [| done]. cbn [mbind option_bind]. rewrite IH. destruct (sort _ cmp' _ _ _ _ _); [| done]. cbn [mbind option_bind]. apply IH.
Qed.
End SortExt.

(** ** A byte array and a string of the same bytes *)

Section Bytes.
Context `{Platform} {C : Type} (st : store C) (r a s : Z) (bytes : list Z).
Hypothesis (Hr : st_get st r = Some (NBlock TUPLE_LABEL false [WPtr a; WPtr s])).
Hypothesis (Ha : st_get st a = Some (NChunk true bytes)) (Hs : st_get st s = Some (NChunk false bytes)) (Has : a < s).

(** What the loader makes of the pair. *)
Definition pair_nodes (b0 b1 : Z) : list PNode := [mkPNode b0 (WPtr r) 0 []; mkPNode b1 (WPtr a) 1 [(0, 0)]; mkPNode b1 (WPtr s) 2 [(1, 0)]].
Definition pair_partition : Partition := mkPartition (pair_nodes (-1) (-1)) [0; 1; 2] [0; 1; 2] [] [].

Lemma block_words x n : st_get st x = Some n -> (forall l w, n <> NTransient l w) ->
  deref st (WPtr x) = Some (WPtr x) /\ WordToTransient st (WPtr x) = Some None /\ WordToInt st (WPtr x) = Some None /\ WordToBlock st (WPtr x) = Some (Some x).
Proof.
  intros E Hn. assert (Ed : deref st (WPtr x) = Some (WPtr x)) by (unfold deref; destruct (size _); simpl; rewrite E; simpl; destruct n; try done; by destruct (Hn _ _ eq_refl)).
  unfold WordToTransient, WordToInt, WordToBlock. rewrite Ed. simpl. rewrite E. split_and!; try done; simpl; destruct n; try done; by destruct (Hn _ _ eq_refl).
Qed.

Lemma pair_distinct : r <> a /\ r <> s /\ a <> s.
Proof. split_and!; [intros -> | intros -> | lia]; congruence. Qed.

(** A block that is seen for the first time. *)
Lemma load_new fuel x n edge parent stack seen counter p p1 stack' :
  st_get st x = Some n -> (forall l w, n <> NTransient l w) -> seen !! x = None ->
  (if negb (parent =? -1) then AddParent (InsertNode p (WPtr x)).1 (zlen (p_na p)) edge parent else Some (InsertNode p (WPtr x)).1) = Some p1 ->
  (label ← GetLabel st x; if label =? CHUNK_LABEL then Some stack else args ← GetArgs st x; Some (push_children args (zlen (p_na p)) ++ stack)) = Some stack' ->
  load_loop (S fuel) st (mkLoader ((WPtr x, edge, parent) :: stack) seen counter p) =
    load_loop fuel st (mkLoader stack' (<[x := counter]> seen) (counter + 1) p1).
Proof.
  intros E Hn Hx Hp Hl. destruct (block_words x n E Hn) as (_ & Et & Ei & Eb).
  cbn [load_loop ld_stack ld_seen ld_counter ld_part]. rewrite Et. cbn [mbind option_bind]. rewrite Ei. cbn [mbind option_bind].
  rewrite Eb. cbn [mbind option_bind]. rewrite Hx. unfold InsertNode in *. cbn [fst] in Hp. rewrite Hp. cbn [mbind option_bind].
  destruct (GetLabel st x) as [l |]; [| done]. cbn [mbind option_bind] in *. by rewrite Hl.
Qed.

Lemma pair_loaded fuel : Load (4 + fuel) st (WPtr r) = Some (Loaded pair_partition).
Proof.
  destruct pair_distinct as (Hra & Hrs & Has'). unfold Load. change (4 + fuel)%nat with (S (S (S (S fuel)))).
  erewrite (load_new _ _ _ _ _ _ _ _ _ _ [(WPtr a, 0, 0); (WPtr s, 1, 0)]); [| exact Hr | done | done | reflexivity | unfold GetLabel, GetArgs; rewrite Hr; reflexivity].
  erewrite (load_new _ _ _ _ _ _ _ _ _ _ [(WPtr s, 1, 0)]); [| exact Ha | done | by rewrite lookup_insert_ne | reflexivity | unfold GetLabel; rewrite Ha; reflexivity].
  erewrite (load_new _ _ _ _ _ _ _ _ _ _ []); [| exact Hs | done | by rewrite !lookup_insert_ne | reflexivity | unfold GetLabel; rewrite Hs; reflexivity].
  reflexivity.
Qed.

(** How the three nodes compare; [None] for other indices. *)
Definition pair_order (x y : Z) : option Z :=
  match x, y with
  | 0, 0 | 1, 1 | 2, 2 | 2, 1 => Some 0
  | 0, 1 | 0, 2 => Some 1
  | 1, 0 | 2, 0 | 1, 2 => Some (-1)
  | _, _ => None
  end.

Lemma compareChunks_refl bs : PNode.compareChunks bs bs = 0.
Proof. unfold PNode.compareChunks. rewrite Z.ltb_irrefl. induction bs as [| b bs IH]; [done |]. simpl. by rewrite Z.ltb_irrefl. Qed.

Lemma pair_compare x y nx ny b0 b1 : aget (pair_nodes b0 b1) x = Some nx -> aget (pair_nodes b0 b1) y = Some ny ->
  PNode.Compare st nx ny = pair_order x y.
Proof.
  destruct pair_distinct as (Hra & Hrs & Has'). destruct (block_words r _ Hr ltac:(done)) as (Rd & _ & _ & Rb).
  destruct (block_words a _ Ha ltac:(done)) as (Ad & _ & _ & Ab), (block_words s _ Hs ltac:(done)) as (Sd & _ & _ & Sb).
  assert (Lr : GetLabel st r = Some TUPLE_LABEL) by (unfold GetLabel; by rewrite Hr).
  assert (La : GetLabel st a = Some CHUNK_LABEL) by (unfold GetLabel; by rewrite Ha).
  assert (Ls : GetLabel st s = Some CHUNK_LABEL) by (unfold GetLabel; by rewrite Hs).
  intros Hx Hy. pose proof (aget_Some_lt _ _ _ Hx) as Hxl. pose proof (aget_Some_lt _ _ _ Hy) as Hyl. change (zlen (pair_nodes b0 b1)) with 3 in *.
  assert (x = 0 \/ x = 1 \/ x = 2) as [-> | [-> | ->]] by lia; injection Hx as <-;
  assert (y = 0 \/ y = 1 \/ y = 2) as [-> | [-> | ->]] by lia; injection Hy as <-; unfold PNode.Compare, PNode.compare; cbn [pn_node];
    rewrite ?Rd, ?Ad, ?Sd; cbn [mbind option_bind]; (case_decide; [by simplify_eq |]); rewrite ?Rb, ?Ab, ?Sb; cbn [mbind option_bind];
    rewrite ?Lr, ?La, ?Ls; cbn [mbind option_bind]; try done.
  - change (PNode.compareLabels CHUNK_LABEL CHUNK_LABEL) with 0. simpl. unfold PNode.compareBlocks. rewrite Ha, Hs. cbn.
    unfold PNode.address_order. by rewrite (proj2 (Z.ltb_lt _ _)).
  - change (PNode.compareLabels CHUNK_LABEL CHUNK_LABEL) with 0. simpl. unfold PNode.compareBlocks. rewrite Ha, Hs. cbn. by rewrite compareChunks_refl.
Qed.

Lemma pair_sorted : Sort st pair_partition = Some (mkPartition (pair_nodes (-1) (-1)) [1; 2; 0] [2; 0; 1] [] []).
Proof.
  unfold Sort. rewrite (sort_ext _ _ pair_order); [vm_compute; reflexivity |].
  intros x y. unfold cmp_nodes. change (p_nodes pair_partition) with (pair_nodes (-1) (-1)).
  assert (Hout : forall z, aget (pair_nodes (-1) (-1)) z = None -> (z <> 0) /\ (z <> 1) /\ z <> 2) by (intros z Hz; split_and!; by intros ->).
  destruct (aget (pair_nodes (-1) (-1)) x) as [nx |] eqn:Ex; cbn [mbind option_bind].
  - destruct (aget (pair_nodes (-1) (-1)) y) as [ny |] eqn:Ey; cbn [mbind option_bind]; [by apply (pair_compare x y _ _ _ _ Ex Ey) |].
    destruct (Hout y Ey) as (? & ? & ?). by destruct x as [| [[] | [] |] |], y as [| [[] | [] |] |].
  - destruct (Hout x Ex) as (? & ? & ?). by destruct x as [| [[] | [] |] |], y as [| [[] | [] |] |].
Qed.

(** The array and the string are one block of the first partition. *)
Definition pair_blocks : Partition :=
  mkPartition (pair_nodes 1 0) [1; 2; 0] [2; 0; 1]
    [mkPBlock 0 1 1 0 [Some 1; Some 1; None; None; None; None]; mkPBlock 2 2 2 0 [None]] [].

Lemma init_step ids cur i nodes blocks newBlock lastItem curItem last c :
  aget nodes cur = Some curItem -> aget nodes lastItem = Some last -> PNode.Compare st curItem last = Some c -> c <> -1 ->
  init_loop st (cur :: ids) i nodes blocks newBlock lastItem =
    (let '(blocks, newBlock) :=
       if c =? 1 then (blocks ++ [PBlock.SetSplitIndex (PBlock.SetEnd newBlock (i - 1)) (i - 1)], PBlock.New i 0) else (blocks, newBlock) in
     let '(curItem, newBlock) := PNode.SetBlock curItem newBlock (zlen blocks) in
     nodes ← aset nodes cur curItem; init_loop st ids (i + 1) nodes blocks newBlock cur).
Proof. intros Ec El E Hc. cbn [init_loop]. rewrite Ec, El. cbn [mbind option_bind]. rewrite E. cbn [mbind option_bind]. by rewrite (proj2 (Z.eqb_neq _ _)). Qed.

Lemma pair_init : InitBlocks st pair_partition = Some pair_blocks.
Proof.
  unfold InitBlocks. rewrite pair_sorted. cbn [mbind option_bind p_na p_nodes].
  change (aget (pair_nodes (-1) (-1)) 1) with (Some (mkPNode (-1) (WPtr a) 1 [(0, 0)])). cbn [mbind option_bind].
  rewrite (surjective_pairing (PNode.SetBlock _ _ _)).
  set (lead := (PNode.SetBlock _ _ _).1). set (b0 := (PNode.SetBlock _ _ _).2). vm_compute in lead, b0.
  change (aset (pair_nodes (-1) (-1)) 1 lead) with (Some [mkPNode (-1) (WPtr r) 0 []; lead; mkPNode (-1) (WPtr s) 2 [(1, 0)]]). cbn [mbind option_bind].
  assert (C21 : forall b b', PNode.Compare st (mkPNode b (WPtr s) 2 [(1, 0)]) (mkPNode b' (WPtr a) 1 [(0, 0)]) = Some 0).
  { intros b b'. exact (pair_compare 2 1 _ _ 0 0 eq_refl eq_refl). }
  assert (C02 : forall b b', PNode.Compare st (mkPNode b (WPtr r) 0 []) (mkPNode b' (WPtr s) 2 [(1, 0)]) = Some 1).
  { intros b b'. exact (pair_compare 0 2 _ _ 0 0 eq_refl eq_refl). }
  erewrite init_step; [| reflexivity | reflexivity | apply C21 | done].
  change (0 =? 1) with false. cbn iota. rewrite (surjective_pairing (PNode.SetBlock _ _ _)).
  set (str := (PNode.SetBlock _ _ _).1). set (b1 := (PNode.SetBlock _ _ _).2). vm_compute in str, b1.
  set (nodes := [_; lead; _]). change (aset nodes 2 str) with (Some [mkPNode (-1) (WPtr r) 0 []; lead; str]). cbn [mbind option_bind].
  erewrite init_step; [| reflexivity | reflexivity | apply C02 | done]. vm_compute. reflexivity.
Qed.

Definition pair_store : store C := st_set st r (NBlock TUPLE_LABEL false [WPtr a; WPtr a]).

Lemma pair_reduced : ReduceGraph st pair_blocks = Some (pair_store, pair_blocks).
Proof.
  unfold ReduceGraph. change (root_leads pair_blocks) with (Some pair_blocks). cbn [mbind option_bind].
  destruct (block_words r _ Hr ltac:(done)) as (_ & _ & _ & Rb).
  cbn [pair_blocks p_blocks replace_blocks]. change (na_Sub pair_blocks (pb_start (mkPBlock 2 2 2 0 [None]))) with (Some (mkPNode 1 (WPtr r) 0 [])).
  change (range (pb_start (mkPBlock 2 2 2 0 [None]) + 1) (pb_end (mkPBlock 2 2 2 0 [None]))) with (@nil Z).
  cbn [mbind option_bind replace_nodes]. set (pb := mkPBlock 0 1 _ _ _).
  change (na_Sub pair_blocks (pb_start pb)) with (Some (mkPNode 0 (WPtr a) 1 [(0, 0)])). change (range (pb_start pb + 1) (pb_end pb)) with [1].
  cbn [mbind option_bind replace_nodes]. change (na_Sub pair_blocks 1) with (Some (mkPNode 0 (WPtr s) 2 [(1, 0)])).
  cbn [mbind option_bind pn_preds pn_node replace_preds]. change (LookUp pair_blocks 0) with (Some 2). cbn [mbind option_bind].
  change (na_Sub pair_blocks 2) with (Some (mkPNode 1 (WPtr r) 0 [])). cbn [mbind option_bind pn_node]. rewrite Rb. cbn [mbind option_bind].
  unfold ReplaceArg. rewrite Hr. reflexivity.
Qed.

Lemma pair_minimized fuel : (3 <= fuel)%nat -> Minimize fuel st pair_partition = Some (pair_store, pair_blocks).
Proof.
  intros Hf. do 3 (destruct fuel as [| fuel]; [lia |]). unfold Minimize. change (zlen (p_na pair_partition) <? 2) with false. cbn iota.
  rewrite pair_init. cbn [mbind option_bind]. rewrite (surjective_pairing (InitAgenda pair_blocks)).
  assert (E : agenda_loop (S (S (S fuel))) (InitAgenda pair_blocks).1 (InitAgenda pair_blocks).2 = Some pair_blocks) by (vm_compute; reflexivity).
  rewrite E. cbn [mbind option_bind]. apply pair_reduced.
Qed.
End Bytes.

(** C33. The condition on mutability is needed: compareBlocks asks only its
    first argument whether it is mutable, so that a string and a mutable byte
    array of the same bytes compare as equal if the string is the first, and as
    different if the array is, which makes the comparison no order.  Minimizing
    a pair of an array and a string at a higher address, in any store and
    whatever the bytes, replaces the string by the array, whose later changes
    the string's users see. *)
Theorem mutable_chunk_merged `{Platform} {C : Type} (st : store C) (r a s : Z) (bytes : list Z) (fuel fuel' : nat) :
  st_get st r = Some (NBlock TUPLE_LABEL false [WPtr a; WPtr s]) ->
  st_get st a = Some (NChunk true bytes) -> st_get st s = Some (NChunk false bytes) -> a < s -> (4 <= fuel)%nat -> (3 <= fuel')%nat ->
  PNode.compareBlocks st s CHUNK_LABEL a = Some 0 /\ PNode.compareBlocks st a CHUNK_LABEL s = Some (-1) /\
  exists p st' p', Load fuel st (WPtr r) = Some (Loaded p) /\ Minimize fuel' st p = Some (st', p') /\
    st_get st' r = Some (NBlock TUPLE_LABEL false [WPtr a; WPtr a]) /\ (forall b, b <> r -> st_get st' b = st_get st b).
Proof.
  intros Hr Ha Hs Has Hf Hf'. split; [| split].
  - unfold PNode.compareBlocks. rewrite Ha, Hs. cbn. by rewrite compareChunks_refl.
  - unfold PNode.compareBlocks. rewrite Ha, Hs. cbn. unfold PNode.address_order. by rewrite (proj2 (Z.ltb_lt _ _)).
  - exists (pair_partition r a s), (pair_store st r a), (pair_blocks r a s). destruct fuel as [| [| [| [| fuel]]]]; try lia.
    split; [by eapply (pair_loaded st r a s bytes Hr Ha Hs Has fuel) |]. split; [by eapply pair_minimized |].
    unfold pair_store, st_get, st_set. cbn. split; [apply lookup_insert_eq | intros b Hb; by apply lookup_insert_ne].
Qed.

(** A pair of a mutable and an immutable byte array with the same bytes. *)
Definition sample_bytes : store unit :=
  mkStore 4 (<[1 := NBlock TUPLE_LABEL false [WPtr 2; WPtr 3]]> (<[2 := NChunk true [65; 66]]> (<[3 := NChunk false [65; 66]]> ∅))).

Lemma mutable_chunk_merged_witness :
  exists p st' p', Load 4 sample_bytes (WPtr 1) = Some (Loaded p) /\ Minimize 3 sample_bytes p = Some (st', p') /\
    st_get st' 1 = Some (NBlock TUPLE_LABEL false [WPtr 2; WPtr 2]).
Proof.
  destruct (mutable_chunk_merged (H := P64) sample_bytes 1 2 3 [65; 66] 4 3) as (_ & _ & p & st' & p' & E1 & E2 & E3 & _);
    [vm_compute; reflexivity .. | lia | lia | lia |].
  exists p, st', p'. auto.
Defined.
