(* ===== verification/ImpMap.v ===== *)
(** * Imperative maps (alice/vm-seam/alice/lib/utility/UnsafeImpMap.cc and
    UnsafeCell.cc; Construct of generic/Worker.cc)

    Maps with a hash table from keys to entries and a doubly linked list of the
    entries, newest first.  Both files hold the same code for two kinds of
    keys, integers and blocks or cells: the class [EntryKey] is what differs.
    Entries and maps are blocks of the store, the hash tables ([BaseMap]) are
    kept beside it at their addresses.  A primitive ends with a return, a call
    of a closure or a request; the frames that primitives and workers push are
    kept in a list, the top one first.  [None] is a failed assertion or an
    access outside a block. *)

From S2P Require Import Prelude Config HeaderOp PointerOp Block BaseMap AliceData.

(** ** Hash tables whose keys are words *)

Section WordTables.
Context `{Platform}.

(** Where the store has put a block. *)
Variable address : Z -> Z.

Definition raw_word (w : word) : Z := match w with WInt i => EncodeInt i | WPtr a => EncodeBlock (address a) end.
Definition Word_Hash (key : word) (size : Z) : Z := raw_word key mod size.
Definition Word_Equals (a b : word) : bool := bool_decide (a = b).

Program Definition WordMapKey : MapKey word := {| BaseMap.Hash := Word_Hash; Equals := Word_Equals |}.
Next Obligation. intros. unfold Word_Hash. apply Z.mod_pos_bound. lia. Qed.
Next Obligation. intros. by apply bool_decide_eq_true. Qed.
Next Obligation. intros. unfold Word_Equals. by apply bool_decide_ext. Qed.
Next Obligation. unfold Word_Equals. intros k1 k2 k3. rewrite !bool_decide_eq_true. congruence. Qed.
Next Obligation. unfold Word_Equals. intros k1 k2 size. rewrite bool_decide_eq_true. congruence. Qed.
End WordTables.

(** [Store::IntToWord] on any integer, as without the range check of debug
    builds: the word holds what decodes from it. *)
Definition IntToWord `{Platform} (i : Z) : word := WInt (DecodeInt (EncodeInt i)).

Record heap (C : Type) := mkHeap { h_store : store C; h_tables : gmap Z (BaseMap word word) }.
Arguments mkHeap {C} _ _.
Arguments h_store {C} _.
Arguments h_tables {C} _.

(** A key from an argument, or the transient to request. *)
Inductive declared := Key (w : word) | Requested (w : word).

(** What UnsafeImpMap.cc and UnsafeCell.cc do differently: the macro that
    takes a key from an argument, and [GetKey] of an entry. *)
Class EntryKey (C : Type) := {
  declare_key : store C -> word -> option declared;
  key_view : store C -> word -> option word
}.

Inductive operation := app | appi | fold | foldi.
Inductive find_operation := find | findi.

Inductive Frame :=
  | InsertFrame (entry : Z)
  | IteratorFrame (entry : Z) (closure : word) (op : operation)
  | FindFrame (entry : Z) (closure : word) (op : find_operation).

(** How a primitive or a worker leaves: with values for the frame below, with
    a call of a closure, or with the request of a transient. *)
Inductive outcome := Continue (args : list word) | Call (closure : word) (args : list word) | Request (w : word).

Section ImpMap.
Context `{Platform} {C : Type} `{EntryKey C} (wundef : word) (address : Z -> Z).
#[local] Instance key_words : MapKey word := WordMapKey address.
Implicit Types (st : store C) (h : heap C) (key value w : word) (e m : Z).

Definition with_store (st : store C) h : heap C := mkHeap st (h_tables h).
Definition with_table (t : Z) (bm : BaseMap word word) h : heap C := mkHeap (h_store h) (<[t := bm]> (h_tables h)).

(** ** ImpMapEntry *)

Definition KEY_POS : Z := 0.
Definition VALUE_POS : Z := 1.
Definition PREV_POS : Z := 2.
Definition NEXT_POS : Z := 3.
Definition ENTRY_SIZE : Z := 4.

Definition Entry_New st key value (next : option Z) : option (store C * Z) :=
  let '(st, b) := AllocMutableBlock wundef st TUPLE_LABEL [key; value; WInt 0; match next with Some e => WPtr e | None => WInt 0 end] in
  match next with
  | Some e => st ← ReplaceArg st e PREV_POS (WPtr b); Some (st, b)
  | None => Some (st, b)
  end.

(** [FromWordDirect] of a class of blocks with a label and a size. *)
Definition sized_block_direct (l size : Z) st w : option Z :=
  a ← DirectWordToBlock st w;
  k ← GetLabel st a; n ← GetSize st a;
  if (k =? l) && (n =? size) then Some a else None.

Definition Entry_FromWordDirect st w : option Z := sized_block_direct TUPLE_LABEL ENTRY_SIZE st w.

Definition GetKey st e : option word := w ← GetArg st e KEY_POS; key_view st w.
Definition GetValue st e : option word := GetArg st e VALUE_POS.
Definition SetValue st e value : option (store C) := ReplaceArg st e VALUE_POS value.

(** A word of a list: 0 ends it. *)
Definition link st w : option (option Z) :=
  if decide (w = WInt 0) then Some None else e ← Entry_FromWordDirect st w; Some (Some e).

Definition GetNext st e : option (option Z) := next ← GetArg st e NEXT_POS; link st next.

(** The result is 1 if the head of the list remains, else the new head. *)
Definition Unlink st e : option (store C * word) :=
  prev ← GetArg st e PREV_POS;
  next ← GetArg st e NEXT_POS;
  nextEntry ← link st next;
  st ← match nextEntry with Some n => ReplaceArg st n PREV_POS prev | None => Some st end;
  prevEntry ← link st prev;
  match prevEntry with
  | Some p => st ← ReplaceArg st p NEXT_POS next; Some (st, WInt 1)
  | None => Some (st, next)
  end.

(** ** ImpMap *)

Definition HASHTABLE_POS : Z := 0.
Definition HEAD_POS : Z := 1.
Definition MAP_SIZE : Z := 2.
Definition initialSize : Z := 8.

Definition GetHashTable h m : option Z :=
  w ← GetArg (h_store h) m HASHTABLE_POS;
  match w with WPtr t => _ ← h_tables h !! t; Some t | WInt _ => None end.

Definition table h m : option (BaseMap word word) := t ← GetHashTable h m; h_tables h !! t.

Definition New h : option (heap C * Z) :=
  let '(st, b) := AllocMutableBlock wundef (h_store h) TUPLE_LABEL [wundef; wundef] in
  let t := st_next st in
  map ← Map_New MAP_LABEL initialSize;
  st ← ReplaceArg (mkStore (t + 1) (st_nodes st)) b HASHTABLE_POS (WPtr t);
  st ← ReplaceArg st b HEAD_POS (WInt 0);
  Some (with_table t map (with_store st h), b).

Definition FromWord st w : option (option Z) :=
  p ← WordToBlock st w;
  match p with
  | None => Some None
  | Some a => l ← GetLabel st a; n ← GetSize st a; if (l =? TUPLE_LABEL) && (n =? MAP_SIZE) then Some (Some a) else None
  end.

Definition GetHead h m : option (option Z) := head ← GetArg (h_store h) m HEAD_POS; link (h_store h) head.

Definition Insert h m key value : option (heap C) :=
  t ← GetHashTable h m; map ← h_tables h !! t;
  isMember ← IsMember map key;
  if isMember : bool then None else
  headEntry ← GetHead h m;
  x ← Entry_New (h_store h) key value headEntry;
  st ← ReplaceArg x.1 m HEAD_POS (WPtr x.2);
  map ← Put map key (WPtr x.2);
  Some (with_table t map (with_store st h)).

Definition LookupEntry h m key : option Z := map ← table h m; w ← Get map key; Entry_FromWordDirect (h_store h) w.

(** [Remove], named apart from the operation of the hash table. *)
Definition Remove_key h m key : option (heap C) :=
  t ← GetHashTable h m; map ← h_tables h !! t;
  e ← LookupEntry h m key;
  map ← Remove map key;
  x ← Unlink (h_store h) e;
  st ← (if decide (x.2 = WInt 1) then Some x.1 else ReplaceArg x.1 m HEAD_POS x.2);
  Some (with_table t map (with_store st h)).

Definition RemoveAll h m : option (heap C) :=
  t ← GetHashTable h m; map ← h_tables h !! t;
  map ← Map_Clear map;
  st ← ReplaceArg (h_store h) m HEAD_POS (WInt 0);
  Some (with_table t map (with_store st h)).

Definition Member h m key : option bool := map ← table h m; IsMember map key.
Definition IsEmpty h m : option bool := map ← table h m; Some (Map_IsEmpty map).
Definition Map_Size h m : option Z := map ← table h m; Some (Map_GetSize map).

(** SOME of a word, and NONE. *)
Definition some_word st w : option (store C * word) := x ← TagVal_New wundef st 1 [w]; Some (x.1, WPtr x.2).

Definition Lookup h m key : option (heap C * word) :=
  isMember ← Member h m key;
  if isMember : bool then
    e ← LookupEntry h m key;
    value ← GetValue (h_store h) e;
    x ← some_word (h_store h) value;
    Some (with_store x.1 h, x.2)
  else Some (h, WInt 0).

(** ** Workers *)

Definition leave : Type := outcome * list Frame * heap C.

(** [Worker::Construct] *)
Definition Construct st (args : list word) : store C * word :=
  match args with
  | [] => (st, WInt 0)
  | [w] => (st, w)
  | _ => let '(st, a) := Tuple_New wundef st args in (st, WPtr a)
  end.

Definition Insert_Run h e (fs : list Frame) (args : list word) : option leave :=
  let '(st, w) := Construct (h_store h) args in
  st ← SetValue st e w;
  Some (Continue [WInt 0], fs, with_store st h).

(** The frame of an iterator moves to the next entry before the call. *)
Definition Iterator_Run h e closure op (fs : list Frame) (args : list word) : option leave :=
  nextEntry ← GetNext (h_store h) e;
  let fs := match nextEntry with Some n => IteratorFrame n closure op :: fs | None => fs end in
  match op with
  | app => v ← GetValue (h_store h) e; Some (Call closure [v], fs, h)
  | appi => k ← GetKey (h_store h) e; v ← GetValue (h_store h) e; Some (Call closure [k; v], fs, h)
  | fold =>
      let '(st, acc) := Construct (h_store h) args in
      v ← GetValue st e; Some (Call closure [v; acc], fs, with_store st h)
  | foldi =>
      let '(st, acc) := Construct (h_store h) args in
      k ← GetKey st e; v ← GetValue st e; Some (Call closure [k; v; acc], fs, with_store st h)
  end.

Definition find_args st e (op : find_operation) : option (list word) :=
  v ← GetValue st e;
  match op with find => Some [v] | findi => k ← GetKey st e; Some [k; v] end.

(** SOME of the value, or of the pair of the key and the value, which is
    allocated after it. *)
Definition found st e (op : find_operation) : option (store C * word) :=
  x ← TagVal_New wundef st 1 [wundef];
  let '(st, some) := x in
  match op with
  | find => v ← GetValue st e; st ← ReplaceArg st some 0 v; Some (st, WPtr some)
  | findi =>
      k ← GetKey st e; v ← GetValue st e;
      let '(st, p) := Tuple_New wundef st [k; v] in
      st ← ReplaceArg st some 0 (WPtr p); Some (st, WPtr some)
  end.

Definition Find_Run h e closure op (fs : list Frame) (args : list word) : option leave :=
  match args with
  | [arg] =>
      i ← WordToInt (h_store h) arg;
      match i with
      | None => Some (Request arg, FindFrame e closure op :: fs, h)
      | Some i =>
          if i =? 0 then
            next ← GetNext (h_store h) e;
            match next with
            | Some n => args ← find_args (h_store h) n op; Some (Call closure args, FindFrame n closure op :: fs, h)
            | None => Some (Continue [WInt 0], fs, h)
            end
          else if i =? 1 then
            x ← found (h_store h) e op; Some (Continue [x.2], fs, with_store x.1 h)
          else None
      end
  | _ => None
  end.

(** The worker of the frame on top. *)
Definition Run h (f : Frame) (fs : list Frame) (args : list word) : option leave :=
  match f with
  | InsertFrame e => Insert_Run h e fs args
  | IteratorFrame e closure op => Iterator_Run h e closure op fs args
  | FindFrame e closure op => Find_Run h e closure op fs args
  end.

(** ** Primitives *)

Definition request w h : option leave := Some (Request w, [], h).
Definition return_ w h : option leave := Some (Continue [w], [], h).
Definition bool_word (b : bool) : word := WInt (if b then 1 else 0).

(** [DECLARE_IMP_MAP] and [DECLARE_KEY], with the rest of the primitive. *)
Definition declare_map h w (k : Z -> option leave) : option leave :=
  m ← FromWord (h_store h) w; match m with None => request w h | Some m => k m end.
Definition with_key h w (k : word -> option leave) : option leave :=
  d ← declare_key (h_store h) w; match d with Requested w => request w h | Key key => k key end.

Definition prim_map h : option leave := x ← New h; return_ (WPtr x.2) x.1.

Fixpoint clone_loop (fuel : nat) h (new : Z) (entry : option Z) : option (heap C) :=
  match entry with
  | None => Some h
  | Some e =>
      match fuel with
      | O => None
      | S fuel =>
          k ← GetKey (h_store h) e; v ← GetValue (h_store h) e;
          h ← Insert h new k v;
          next ← GetNext (h_store h) e; clone_loop fuel h new next
      end
  end.

Definition prim_clone (fuel : nat) h (x0 : word) : option leave :=
  declare_map h x0 (fun m =>
    x ← New h; entry ← GetHead x.1 m;
    h ← clone_loop fuel x.1 x.2 entry; return_ (WPtr x.2) h).

Definition prim_insertWithi h (x0 x1 x2 x3 : word) : option leave :=
  declare_map h x1 (fun m => with_key h x2 (fun key =>
    isMember ← Member h m key;
    if isMember : bool then
      e ← LookupEntry h m key; old ← GetValue (h_store h) e;
      Some (Call x0 [key; old; x3], [InsertFrame e], h)
    else h ← Insert h m key x3; return_ (WInt 0) h)).

Definition prim_removeWith h (x0 x1 x2 : word) : option leave :=
  declare_map h x1 (fun m => with_key h x2 (fun key =>
    isMember ← Member h m key;
    if isMember : bool then h ← Remove_key h m key; return_ (WInt 0) h
    else Some (Call x0 [key], [], h))).

Definition prim_removeAll h (x0 : word) : option leave :=
  declare_map h x0 (fun m => h ← RemoveAll h m; return_ (WInt 0) h).

Definition prim_lookup h (x0 x1 : word) : option leave :=
  declare_map h x0 (fun m => with_key h x1 (fun key => x ← Lookup h m key; return_ x.2 x.1)).

Definition prim_isEmpty h (x0 : word) : option leave :=
  declare_map h x0 (fun m => b ← IsEmpty h m; return_ (bool_word b) h).

Definition prim_size h (x0 : word) : option leave :=
  declare_map h x0 (fun m => n ← Map_Size h m; return_ (IntToWord n) h).

(** [app] and [appi] *)
Definition prim_app (op : operation) h (x0 x1 : word) : option leave :=
  declare_map h x1 (fun m =>
    entry ← GetHead h m;
    Some (Continue [WInt 0], match entry with Some e => [IteratorFrame e x0 op] | None => [] end, h)).

(** [fold] and [foldi] *)
Definition prim_fold (op : operation) h (x0 x1 x2 : word) : option leave :=
  declare_map h x2 (fun m =>
    entry ← GetHead h m;
    Some (Continue [x1], match entry with Some e => [IteratorFrame e x0 op] | None => [] end, h)).

(** [find] and [findi] *)
Definition prim_find (op : find_operation) h (x0 x1 : word) : option leave :=
  declare_map h x1 (fun m =>
    entry ← GetHead h m;
    match entry with
    | Some e => args ← find_args (h_store h) e op; Some (Call x0 args, [FindFrame e x0 op], h)
    | None => return_ (WInt 0) h
    end).

End ImpMap.

(** ** The keys of UnsafeImpMap.cc *)

(** [DECLARE_KEY]: the assignment of the last line is not in an else branch,
    so that it also applies to blocks. *)
Definition ImpMap_key `{Platform} {C} (st : store C) (x : word) : option declared :=
  i ← WordToInt st x;
  match i with
  | None =>
      p ← WordToBlock st x;
      match p with None => Some (Requested x) | Some _ => Some (Key (IntToWord INVALID_INT)) end
  | Some i => Some (Key (IntToWord i))
  end.

#[export] Instance ImpMapKey `{Platform} {C} : EntryKey C := {| declare_key := ImpMap_key; key_view := fun _ w => Some w |}.

(** ** The keys of UnsafeCell.cc *)

Definition Cell_key {C} (st : store C) (x : word) : option declared :=
  c ← Cell_FromWord st x; Some (match c with None => Requested x | Some a => Key (WPtr a) end).

(** [Cell::FromWordDirect] *)
Definition Cell_view {C} (st : store C) (w : word) : option word :=
  a ← from_word_direct (is_label Alice.Cell) st w; Some (WPtr a).

Definition CellMapKey {C} : EntryKey C := {| declare_key := Cell_key; key_view := Cell_view |}.

(** The primitives of UnsafeCell.cc on maps, and on cells. *)
Module CellMap.
Section CellMap.
Context `{Platform} {C : Type} (wundef : word) (address : Z -> Z).
Implicit Types (h : heap C).
#[local] Existing Instance CellMapKey.
Definition Iterator_Run h := Iterator_Run wundef h.
Definition Find_Run h := Find_Run wundef h.
Definition prim_clone (fuel : nat) h := prim_clone wundef address fuel h.
Definition prim_insertWithi h := prim_insertWithi wundef address h.
Definition prim_removeWith h := prim_removeWith address h.
Definition prim_lookup h := prim_lookup wundef address h.

Definition prim_cell h (x0 : word) : option leave :=
  let '(st, c) := Cell_New wundef (h_store h) x0 in return_ (WPtr c) (with_store st h).

Definition declare_cell h w (k : Z -> option leave) : option leave :=
  c ← Cell_FromWord (h_store h) w; match c with None => request w h | Some c => k c end.

Definition prim_content h (x0 : word) : option leave :=
  declare_cell h x0 (fun c => w ← Cell_Access (h_store h) c; return_ w h).

Definition prim_replace h (x0 x1 : word) : option leave :=
  declare_cell h x0 (fun c => st ← ReplaceArg (h_store h) c 0 x1; return_ (WInt 0) (with_store st h)).
End CellMap.
End CellMap.
