(* ===== verification/ImpMapInv.v ===== *)
(** * Imperative maps: the doubly linked list of entries and the invariant

    Segments of the list as in separation logic, with the words in front of
    and behind them, and what the operations on entries do to them.  The map
    at [m] with its hash table at [t] then holds the entries [l], newest
    first.  The entries that the map has ever made, [old], stay in the store
    after they are removed: their links lead to older entries and never past
    one that is still in the map, which is what iterators rely on. *)

From Stdlib Require Import Sorted.
From S2P Require Import Prelude Config HeaderOp Block AliceData ImpMap BaseMap.

(** An entry: its address, its key and its value. *)
Record ent := Ent { en_addr : Z; en_key : word; en_value : word }.

Section List.
Context `{Platform} {C : Type} (wundef : word).
Implicit Types (st : store C) (l : list ent) (x : ent) (pp qn w : word).

Definition node st (a : Z) (k v p n : word) : Prop := st_get st a = Some (NBlock TUPLE_LABEL true [k; v; p; n]).

Definition head_or qn l : word := match l with [] => qn | x :: _ => WPtr (en_addr x) end.
Definition last_or pp l : word := match last l with None => pp | Some x => WPtr (en_addr x) end.

Fixpoint dseg st pp l qn : Prop :=
  match l with
  | [] => True
  | x :: l => node st (en_addr x) (en_key x) (en_value x) pp (head_or qn l) /\ dseg st (WPtr (en_addr x)) l qn
  end.

Abbreviation addrs l := (map en_addr l).

Lemma last_or_cons pp x l : last_or pp (x :: l) = last_or (WPtr (en_addr x)) l.
Proof. unfold last_or. destruct l as [| y l]; [done |]. rewrite last_cons_cons. by destruct (last (y :: l)) eqn:E; [| by apply last_None in E]. Qed.

Lemma dseg_app st pp l1 l2 qn : dseg st pp (l1 ++ l2) qn <-> dseg st pp l1 (head_or qn l2) /\ dseg st (last_or pp l1) l2 qn.
Proof.
  revert pp. induction l1 as [| x l1 IH]; intros pp; cbn; [tauto |]. rewrite IH, last_or_cons.
  assert (head_or qn (l1 ++ l2) = head_or (head_or qn l2) l1) as -> by (by destruct l1). tauto.
Qed.

Lemma dseg_frame st st' pp l qn : (forall a, a ∈ addrs l -> st_get st' a = st_get st a) -> dseg st pp l qn -> dseg st' pp l qn.
Proof.
  revert pp. induction l as [| x l IH]; intros pp Hsame; [done |]. intros [Hx Hl]. split.
  - unfold node. rewrite Hsame by (cbn; left). exact Hx.
  - apply IH; [| done]. intros a Ha. apply Hsame. cbn. by right.
Qed.

(** ** Single entries *)

Lemma node_inj st a k v p n k' v' p' n' : node st a k v p n -> node st a k' v' p' n' -> k = k' /\ v = v' /\ p = p' /\ n = n'.
Proof. unfold node. intros E1 E2. rewrite E1 in E2. by injection E2. Qed.

Lemma st_get_set st a b (nd : AliceData.node C) : st_get (st_set st a nd) b = if decide (b = a) then Some nd else st_get st b.
Proof. unfold st_get, st_set. cbn. destruct (decide (b = a)) as [-> |]; [by rewrite lookup_insert_eq | by rewrite lookup_insert_ne]. Qed.

Lemma node_entry st a k v p n : node st a k v p n -> Entry_FromWordDirect st (WPtr a) = Some a.
Proof.
  intros E. unfold Entry_FromWordDirect, sized_block_direct, DirectWordToBlock, GetLabel, GetSize, GetArgs.
  rewrite !E. cbn. by rewrite E.
Qed.

Lemma node_args st a k v p n : node st a k v p n ->
  GetArg st a KEY_POS = Some k /\ GetArg st a VALUE_POS = Some v /\ GetArg st a PREV_POS = Some p /\ GetArg st a NEXT_POS = Some n.
Proof. intros E. unfold GetArg, GetArgs. rewrite E. done. Qed.

Lemma node_set st a k v p n : node st a k v p n -> forall w,
  ReplaceArg st a PREV_POS w = Some (st_set st a (NBlock TUPLE_LABEL true [k; v; w; n])) /\
  ReplaceArg st a NEXT_POS w = Some (st_set st a (NBlock TUPLE_LABEL true [k; v; p; w])) /\
  ReplaceArg st a VALUE_POS w = Some (st_set st a (NBlock TUPLE_LABEL true [k; w; p; n])).
Proof. intros E w. unfold ReplaceArg. rewrite E. done. Qed.

Lemma node_other st a b k v p n nd : node st a k v p n -> a <> b -> node (st_set st b nd) a k v p n.
Proof. intros E Hab. unfold node. by rewrite st_get_set, decide_False. Qed.

Lemma dseg_node st pp l qn x : dseg st pp l qn -> x ∈ l -> exists p n, node st (en_addr x) (en_key x) (en_value x) p n.
Proof. intros Hd (l1 & l2 & ->)%list_elem_of_split. apply dseg_app in Hd as [_ [Hx _]]. eauto. Qed.

(** A word that ends the list or points at an entry. *)
Definition word_link (o : option Z) : word := match o with Some e => WPtr e | None => WInt 0 end.

Lemma word_link_inj o o' : word_link o = word_link o' -> o = o'.
Proof. destruct o, o'; cbn; congruence. Qed.

Lemma link_ok st o : (forall e, o = Some e -> exists k v p n, node st e k v p n) -> link st (word_link o) = Some o.
Proof.
  intros Hn. unfold link. destruct o as [e |]; cbn [word_link]; [| done]. rewrite decide_False by done.
  destruct (Hn e eq_refl) as (k & v & p & n & E). by rewrite (node_entry _ _ _ _ _ _ E).
Qed.

(** ** Removing an entry *)

(** The pointers of an entry before and after [l1] and [l2] are joined. *)
Definition joined st st' l1 l2 : Prop := forall a k v p n, node st a k v p n ->
  exists p', node st' a k v p' (if decide (WPtr a = last_or (WInt 0) l1) then head_or (WInt 0) l2 else n).

Lemma head_link l : head_or (WInt 0) l = word_link (en_addr <$> head l).
Proof. by destruct l. Qed.

Lemma last_link l : last_or (WInt 0) l = word_link (en_addr <$> last l).
Proof. unfold last_or. by destruct (last l). Qed.

Lemma set_prev_ok st pp pp' l qn :
  dseg st pp l qn -> NoDup (addrs l) ->
  exists st', (match en_addr <$> head l with Some a => ReplaceArg st a PREV_POS pp' | None => Some st end) = Some st' /\
    dseg st' pp' l qn /\ st_next st' = st_next st /\ (forall a, en_addr <$> head l <> Some a -> st_get st' a = st_get st a) /\
    (forall a k v p n, node st a k v p n -> exists p', node st' a k v p' n).
Proof.
  destruct l as [| x l]; cbn; intros Hd Hnd; [exists st; eauto 10 |].
  destruct Hd as [Hx Hl]. inversion Hnd as [| ? ? Hnin _]; subst. destruct (node_set _ _ _ _ _ _ Hx pp') as (-> & _).
  eexists. split; [reflexivity |]. split; [| split; [done |]].
  - split; [unfold node; by rewrite st_get_set, decide_True |]. eapply dseg_frame; [| exact Hl].
    intros a Ha. rewrite st_get_set, decide_False; [done | congruence].
  - split; [intros a Ha; rewrite st_get_set, decide_False; [done | congruence] |].
    intros a k v p n Ha. destruct (decide (a = en_addr x)) as [-> | Hne]; [| exists p; by apply node_other].
    destruct (node_inj _ _ _ _ _ _ _ _ _ _ Hx Ha) as (-> & -> & -> & ->). exists pp'. unfold node. by rewrite st_get_set, decide_True.
Qed.

Lemma set_next_ok st pp l qn qn' :
  dseg st pp l qn -> NoDup (addrs l) ->
  exists st', (match en_addr <$> last l with Some a => ReplaceArg st a NEXT_POS qn' | None => Some st end) = Some st' /\
    dseg st' pp l qn' /\ st_next st' = st_next st /\ (forall a, en_addr <$> last l <> Some a -> st_get st' a = st_get st a) /\
    (forall a k v p n, node st a k v p n -> node st' a k v p (if decide (Some a = en_addr <$> last l) then qn' else n)).
Proof.
  intros Hd Hnd. destruct l as [| x l _] using rev_ind; [exists st; cbn; eauto 10 |]. rewrite last_snoc. cbn.
  rewrite map_app in Hnd. apply NoDup_app in Hnd as (_ & Hnin & _). apply dseg_app in Hd as [Hl [Hx _]]. cbn in Hl, Hx.
  destruct (node_set _ _ _ _ _ _ Hx qn') as (_ & -> & _). eexists. split; [reflexivity |]. split; [| split; [done |]].
  - apply dseg_app. cbn. split; [| split; [unfold node; by rewrite st_get_set, decide_True | done]]. eapply dseg_frame; [| exact Hl].
    intros a Ha. rewrite st_get_set, decide_False; [done |]. intros ->. apply (Hnin _ Ha). cbn. by left.
  - split; [intros a Ha; rewrite st_get_set, decide_False; [done | congruence] |].
    intros a k v p n Ha. destruct (decide (a = en_addr x)) as [-> | Hne].
    + rewrite decide_True by done. destruct (node_inj _ _ _ _ _ _ _ _ _ _ Hx Ha) as (-> & -> & -> & ->). unfold node. by rewrite st_get_set, decide_True.
    + rewrite decide_False by congruence. by apply node_other.
Qed.

Lemma Unlink_ok st l1 x l2 :
  dseg st (WInt 0) (l1 ++ x :: l2) (WInt 0) -> NoDup (addrs (l1 ++ x :: l2)) ->
  exists st', Unlink st (en_addr x) = Some (st', if decide (l1 = []) then head_or (WInt 0) l2 else WInt 1) /\
    dseg st' (WInt 0) (l1 ++ l2) (WInt 0) /\ st_next st' = st_next st /\ joined st st' l1 l2 /\
    (forall a, a ∉ addrs (l1 ++ l2) -> st_get st' a = st_get st a).
Proof.
  intros [H1 [Hx H2]]%dseg_app Hnd. cbn in H1. destruct (node_args _ _ _ _ _ _ Hx) as (_ & _ & Ep & En).
  rewrite !map_app in Hnd. apply NoDup_app in Hnd as (Hnd1 & Hdisj & Hnd2). cbn in Hnd2. inversion Hnd2 as [| ? ? Hx2 Hnd2']; subst.
  unfold Unlink. rewrite Ep, En. cbn [mbind option_bind]. rewrite head_link, last_link, link_ok by
    (intros e He; destruct l2 as [| y l2]; [done |]; injection He as <-; destruct H2 as [H2 _]; eauto).
  cbn [mbind option_bind]. destruct (set_prev_ok st _ (word_link (en_addr <$> last l1)) l2 (WInt 0) H2 Hnd2') as (st1 & -> & H2' & Hnx1 & Hs1 & Hn1).
  cbn [mbind option_bind].
  assert (H1' : dseg st1 (WInt 0) l1 (WPtr (en_addr x))).
  { eapply dseg_frame; [| exact H1]. intros a Ha. apply Hs1. destruct l2 as [| y l2]; [done |]. cbn. intros [= <-].
    apply (Hdisj _ Ha). cbn. right. by left. }
  rewrite link_ok by (intros e He; destruct (last l1) as [y |] eqn:El; [| done]; injection He as <-;
    destruct (dseg_node st1 _ _ _ y H1') as (? & ? & ?); [by apply last_Some_elem_of | eauto]).
  cbn [mbind option_bind]. destruct (set_next_ok st1 _ l1 _ (word_link (en_addr <$> head l2)) H1' Hnd1) as (st2 & Es & H1'' & Hnx2 & Hs2 & Hn2).
  assert (Est : (match en_addr <$> last l1 with Some p => st ← ReplaceArg st1 p NEXT_POS (word_link (en_addr <$> head l2)); Some (st, WInt 1)
    | None => Some (st1, word_link (en_addr <$> head l2)) end) = Some (st2, if decide (l1 = []) then word_link (en_addr <$> head l2) else WInt 1)).
  { destruct l1 as [| y l1 _] using rev_ind; [by injection Es as <- |]. rewrite last_snoc in *. cbn in *. rewrite Es. by rewrite decide_False by (by destruct l1). }
  rewrite Est. exists st2. split; [done |]. split; [| split; [congruence |]].
  - apply dseg_app. rewrite last_link, head_link. split; [done |]. eapply dseg_frame; [| exact H2'].
    intros a Ha. apply Hs2. destruct (last l1) as [y |] eqn:El; [| done]. cbn. intros [= <-]. apply (Hdisj (en_addr y)); [| cbn; by right].
    apply list_elem_of_fmap. exists y. split; [done | by apply last_Some_elem_of].
  - split.
    + intros a k v p n Ha. destruct (Hn1 _ _ _ _ _ Ha) as (p' & Ha'). exists p'. apply Hn2 in Ha'.
      rewrite last_link, head_link. replace (if decide (WPtr a = _) then _ else n) with
        (if decide (Some a = en_addr <$> last l1) then word_link (en_addr <$> head l2) else n); [done |].
      apply decide_ext. split; [by intros <- |]. intros E. by apply (word_link_inj (Some a)).
    + intros a Ha. rewrite map_app, not_elem_of_app in Ha. destruct Ha as [Ha1 Ha2]. rewrite Hs2, Hs1; [done | |].
      * intros E. apply Ha2. destruct l2; [done |]. injection E as <-. cbn. by left.
      * intros E. apply Ha1. destruct (last l1) as [y |] eqn:El; [| done]. injection E as <-. apply list_elem_of_fmap. exists y. split; [done | by apply last_Some_elem_of].
Qed.

(** ** A new entry in front *)

Lemma alloc_node st k v p n : AllocMutableBlock wundef st TUPLE_LABEL [k; v; p; n] =
  (mkStore (st_next st + 1) (<[st_next st := NBlock TUPLE_LABEL true [k; v; p; n]]> (st_nodes st)), st_next st).
Proof. unfold AllocMutableBlock, block_args. change (zlen [k; v; p; n]) with 4. rewrite TranslateSize_small by (rewrite MAX_BLOCKSIZE_eq; lia). done. Qed.

Lemma Entry_New_ok st l k v :
  dseg st (WInt 0) l (WInt 0) -> NoDup (addrs l) -> st_next st ∉ addrs l ->
  exists st', Entry_New wundef st k v (en_addr <$> head l) = Some (st', st_next st) /\
    dseg st' (WInt 0) (Ent (st_next st) k v :: l) (WInt 0) /\ st_next st' = st_next st + 1 /\
    (forall a k v p n, node st a k v p n -> a <> st_next st -> exists p', node st' a k v p' n) /\
    (forall a, a ∉ addrs l -> a <> st_next st -> st_get st' a = st_get st a).
Proof.
  intros Hd Hnd Hnew. unfold Entry_New.
  assert (E : match en_addr <$> head l with Some e => WPtr e | None => WInt 0 end = head_or (WInt 0) l) by (by destruct l).
  rewrite E, alloc_node. clear E. set (st1 := mkStore _ _).
  assert (G1 : forall a, st_get st1 a = if decide (a = st_next st) then Some (NBlock TUPLE_LABEL true [k; v; WInt 0; head_or (WInt 0) l]) else st_get st a).
  { intros a. unfold st_get, st1. cbn. destruct (decide (a = st_next st)) as [-> |]; [by rewrite lookup_insert_eq | by rewrite lookup_insert_ne]. }
  assert (H1 : dseg st1 (WInt 0) l (WInt 0)) by (eapply dseg_frame; [| exact Hd]; intros a Ha; rewrite G1, decide_False by congruence; done).
  destruct (set_prev_ok st1 _ (WPtr (st_next st)) l (WInt 0) H1 Hnd) as (st2 & Es & H2 & Hnx & Hs & Hn).
  assert (match en_addr <$> head l with Some e => st0 ← ReplaceArg st1 e PREV_POS (WPtr (st_next st)); Some (st0, st_next st) | None => Some (st1, st_next st) end
    = Some (st2, st_next st)) as -> by (destruct l; cbn in *; [by injection Es as <- | by rewrite Es]).
  exists st2. split; [done |]. split; [| split; [by rewrite Hnx |]].
  - cbn. split; [| done]. unfold node. rewrite Hs, G1, decide_True; [done .. |]. destruct l as [| y l]; [done |]. cbn in *. intros [= E]. apply Hnew. rewrite E. by left.
  - split.
    + intros a k' v' p n Ha Hne. apply (Hn a k' v' p n). unfold node. by rewrite G1, decide_False.
    + intros a Ha Hne. rewrite Hs, G1, decide_False; [done .. |]. destruct l as [| y l]; [done |]. cbn in *. intros [= <-]. apply Ha. by left.
Qed.

(** ** Setting the value of an entry *)

Lemma SetValue_ok st e k v p n w : node st e k v p n ->
  exists st', SetValue st e w = Some st' /\ st_next st' = st_next st /\ node st' e k w p n /\
    (forall a, a <> e -> st_get st' a = st_get st a).
Proof.
  intros He. unfold SetValue. destruct (node_set _ _ _ _ _ _ He w) as (_ & _ & ->). eexists. split; [done |]. split; [done |].
  split; [unfold node; by rewrite st_get_set, decide_True |]. intros a Ha. by rewrite st_get_set, decide_False.
Qed.

(** The list in which the entry at [e] has the value [w]. *)
Definition set_value (e : Z) w l : list ent := map (fun x => if decide (en_addr x = e) then Ent e (en_key x) w else x) l.

Lemma set_value_addrs e w l : addrs (set_value e w l) = addrs l.
Proof. unfold set_value. rewrite map_map. apply map_ext. intros x. by case_decide. Qed.

Lemma head_or_set_value e w l qn : head_or qn (set_value e w l) = head_or qn l.
Proof. destruct l as [| x l]; [done |]. cbn. by case_decide as E; [rewrite <- E |]. Qed.

Lemma dseg_set_value st st' e k v p n w pp l qn :
  node st e k v p n -> node st' e k w p n -> (forall a, a <> e -> st_get st' a = st_get st a) ->
  dseg st pp l qn -> dseg st' pp (set_value e w l) qn.
Proof.
  intros He He' Hs. revert pp. induction l as [| x l IH]; intros pp; [done |]. cbn [dseg]. intros [Hx Hl]. cbn [set_value map].
  fold (set_value e w l). destruct (decide (en_addr x = e)) as [E | Hne]; cbn [dseg en_addr en_key en_value].
  - rewrite E in Hx. destruct (node_inj _ _ _ _ _ _ _ _ _ _ He Hx) as (Ek & _ & Ep & En). split.
    + by rewrite head_or_set_value, <- Ek, <- Ep, <- En.
    + apply IH. by rewrite <- E.
  - split; [| by apply IH]. rewrite head_or_set_value. unfold node. by rewrite Hs.
Qed.
End List.

(** ** The invariant and the operations *)

Definition labels_kept {C} (st st' : store C) : Prop := forall a l, GetLabel st a = Some l -> GetLabel st' a = Some l.

(** What the maps need to know about keys. *)
Class EntryKeyLaws (C : Type) `{EntryKey C} : Prop := {
  view_kept (st st' : store C) w : labels_kept st st' -> key_view st w = Some w -> key_view st' w = Some w;
  declared_view (st : store C) x k : declare_key st x = Some (Key k) -> key_view st k = Some k;
  declared_kept (st st' : store C) x d : st_nodes st ⊆ st_nodes st' -> declare_key st x = Some d -> declare_key st' x = Some d
}.

(** ** Words in a store that has grown *)

Section Grow.
Context {C : Type} (st st' : store C) (Hsub : st_nodes st ⊆ st_nodes st').

Lemma get_grow a n : st_get st a = Some n -> st_get st' a = Some n.
Proof. intros E. exact (lookup_weaken _ _ _ _ E Hsub). Qed.

Lemma deref_loop_grow fuel fuel' w v : (fuel <= fuel')%nat -> deref_loop fuel st w = Some v -> deref_loop fuel' st' w = Some v.
Proof.
  revert fuel' w. induction fuel as [| fuel IH]; intros fuel' w Hf; (destruct w as [i | a]; [by destruct fuel' |]); cbn -[REF_LABEL];
    (destruct (st_get st a) as [n |] eqn:En; [apply get_grow in En; cbn -[REF_LABEL] | done]).
  - destruct n as [| | l w' |]; try (destruct fuel'; cbn -[REF_LABEL]; by rewrite En).
    destruct (l =? REF_LABEL) eqn:El; [done |]. destruct fuel'; cbn -[REF_LABEL]; rewrite En; cbn -[REF_LABEL]; by rewrite El.
  - destruct fuel' as [| fuel']; [lia |]. cbn -[REF_LABEL]. rewrite En. cbn -[REF_LABEL]. destruct n as [| | l w' |]; try done.
    destruct (l =? REF_LABEL); [apply IH; lia | done].
Qed.

Lemma deref_grow w v : deref st w = Some v -> deref st' w = Some v.
Proof. apply deref_loop_grow. by apply map_subseteq_size. Qed.

Lemma WordToInt_grow w i : WordToInt st w = Some i -> WordToInt st' w = Some i.
Proof. unfold WordToInt. destruct (deref st w) as [v |] eqn:E; [| done]. by rewrite (deref_grow _ _ E). Qed.

Lemma WordToBlock_grow w p : WordToBlock st w = Some p -> WordToBlock st' w = Some p.
Proof.
  unfold WordToBlock. destruct (deref st w) as [v |] eqn:E; [| done]. rewrite (deref_grow _ _ E). cbn.
  destruct v as [i | a]; [done |]. destruct (st_get st a) as [n |] eqn:En; [| done]. by rewrite (get_grow _ _ En).
Qed.

Lemma GetLabel_grow a l : GetLabel st a = Some l -> GetLabel st' a = Some l.
Proof. unfold GetLabel. destruct (st_get st a) as [n |] eqn:En; [| done]. by rewrite (get_grow _ _ En). Qed.
End Grow.

#[export] Instance ImpMapKey_laws `{Platform} {C} : EntryKeyLaws (H := ImpMapKey) C.
Proof.
  split; [done .. |]. intros st st' x d Hsub. cbn. unfold ImpMap_key.
  destruct (WordToInt st x) as [i |] eqn:Ei; [| done]. rewrite (WordToInt_grow _ _ Hsub _ _ Ei). destruct i; [done |].
  cbn. destruct (WordToBlock st x) as [p |] eqn:Ep; [| done]. by rewrite (WordToBlock_grow _ _ Hsub _ _ Ep).
Qed.

Lemma from_word_direct_iff {C} ok (st : store C) w a :
  from_word_direct ok st w = Some a <-> w = WPtr a /\ exists l, GetLabel st a = Some l /\ ok l = true.
Proof.
  unfold from_word_direct, DirectWordToBlock. destruct w as [i | b]; cbn [mbind option_bind]; [naive_solver |].
  assert (Hb : (n ← st_get st b; match n with NTransient _ _ => None | _ => Some b end) = match GetLabel st b with Some _ => Some b | None => None end).
  { unfold GetLabel. by destruct (st_get st b) as [[] |]. }
  rewrite Hb. destruct (GetLabel st b) as [k |] eqn:E; cbn; [rewrite E; cbn; destruct (ok k) eqn:Eo |]; split; intros Hx; try done.
  - injection Hx as <-. eauto.
  - destruct Hx as ([= <-] & _). done.
  - destruct Hx as ([= <-] & k' & E' & Ho). congruence.
  - destruct Hx as ([= <-] & k' & E' & Ho). congruence.
Qed.

#[export] Instance CellMapKey_laws {C} : EntryKeyLaws (H := CellMapKey) C.
Proof.
  assert (Hv : forall (st : store C) w, Cell_view st w = Some w <-> exists a, w = WPtr a /\ GetLabel st a = Some Alice.Cell).
  { intros st w. unfold Cell_view. split.
    - intros E. destruct (from_word_direct _ st w) as [a |] eqn:Ed; [| done]. injection E as <-. apply from_word_direct_iff in Ed as (_ & l & El & Hl).
      exists a. split; [done |]. unfold is_label in Hl. apply Z.eqb_eq in Hl as ->. done.
    - intros (a & -> & Ha). assert (from_word_direct (is_label Alice.Cell) st (WPtr a) = Some a) as ->; [| done].
      apply from_word_direct_iff. eauto. }
  assert (Hd : forall (st : store C) x k, Cell_key st x = Some (Key k) -> Cell_view st k = Some k).
  { intros st x k. unfold Cell_key, Cell_FromWord, from_word. intros E. apply Hv.
    destruct (WordToBlock st x) as [[a |] |]; cbn in E; [| by injection E | done].
    destruct (GetLabel st a) as [l |] eqn:El; cbn in E; [| done]. destruct (is_label _ l) eqn:Ei; cbn in E; [| done]. injection E as <-.
    exists a. split; [done |]. unfold is_label in Ei. apply Z.eqb_eq in Ei as ->. done. }
  split; cbn.
  - intros st st' w Hk (a & -> & Ha)%Hv. apply Hv. exists a. split; [done | by apply Hk].
  - exact Hd.
  - intros st st' x d Hsub. unfold Cell_key, Cell_FromWord, from_word.
    destruct (WordToBlock st x) as [[a |] |] eqn:Ep; [| by rewrite (WordToBlock_grow _ _ Hsub _ _ Ep) | done].
    rewrite (WordToBlock_grow _ _ Hsub _ _ Ep). cbn. destruct (GetLabel st a) as [l |] eqn:El; [| done]. by rewrite (GetLabel_grow _ _ Hsub _ _ El).
Qed.

Section Inv.
Context `{Platform} {C : Type} `{EntryKeyLaws C} (wundef : word) (address : Z -> Z) (m t : Z).
#[local] Hint Extern 0 (MapKey word) => exact (key_words address) : typeclass_instances.
Implicit Types (st : store C) (h : heap C) (l : list ent) (x : ent) (old : gset Z) (e : Z) (key w : word).

Abbreviation addrs l := (map en_addr l).

(** The entries of the hash table. *)
Definition table_nodes l : list (MapNode word word) := map (fun x => mkMapNode (en_key x) (WPtr (en_addr x))) l.

Definition old_entry h l old e : Prop := exists k v p o,
  node (h_store h) e k v p (word_link o) /\ key_view (h_store h) k = Some k /\ e < st_next (h_store h) /\
  (forall n, o = Some n -> n ∈ old /\ n < e) /\
  (forall x, x ∈ l -> en_addr x < e -> exists n, o = Some n /\ en_addr x <= n).

Record map_inv h l old : Prop := {
  mi_block : st_get (h_store h) m = Some (NBlock TUPLE_LABEL true [WPtr t; head_or (WInt 0) l]);
  mi_table : exists bm, h_tables h !! t = Some bm /\ holds bm (table_nodes l);
  mi_list : dseg (h_store h) (WInt 0) l (WInt 0);
  mi_sorted : StronglySorted Z.gt (addrs l);
  mi_live : forall x, x ∈ l -> en_addr x ∈ old;
  mi_old : forall e, e ∈ old -> old_entry h l old e;
  mi_map : m < st_next (h_store h) /\ m ∉ old;
  mi_fresh : forall a, st_get (h_store h) a <> None -> a < st_next (h_store h)
}.

(** The blocks outside the map remain. *)
Definition map_frame old h h' : Prop :=
  (forall a, a <> m -> a ∉ old -> a < st_next (h_store h) -> st_get (h_store h') a = st_get (h_store h) a) /\
  (forall t', t' <> t -> h_tables h' !! t' = h_tables h !! t') /\
  st_next (h_store h) <= st_next (h_store h').

(** Links only ever skip entries. *)
Definition skips old h h' : Prop := forall e k v p o, e ∈ old -> node (h_store h) e k v p (word_link o) ->
  exists v' p' o', node (h_store h') e k v' p' (word_link o') /\
    (o' = o \/ exists n k2 v2 p2, o = Some n /\ node (h_store h) n k2 v2 p2 (word_link o')).

Fixpoint find_key key l : option ent :=
  match l with [] => None | x :: l => if decide (key = en_key x) then Some x else find_key key l end.

Lemma find_key_Some key l x : find_key key l = Some x -> x ∈ l /\ en_key x = key.
Proof.
  induction l as [| y l IH]; cbn; [done |]. case_decide; [intros [= ->]; split; [by left | done] |].
  intros E. destruct (IH E). split; [by right | done].
Qed.

Lemma find_key_None key l : find_key key l = None <-> forall x, x ∈ l -> en_key x <> key.
Proof.
  induction l as [| y l IH]; cbn; [split; [intros _ x Hx; by apply not_elem_of_nil in Hx | done] |]. case_decide as E.
  - split; [done |]. intros Hn. exfalso. apply (Hn y); [by left | done].
  - rewrite IH. split; [intros Hn x [-> | Hx]%elem_of_cons; [congruence | by apply Hn] | intros Hn x Hx; apply Hn; by right].
Qed.

Lemma a_get_nodes key l : a_get key (table_nodes l) = (fun x => WPtr (en_addr x)) <$> find_key key l.
Proof. induction l as [| x l IH]; cbn; [done |]. unfold Word_Equals. case_decide as E; [by rewrite bool_decide_true | by rewrite bool_decide_false]. Qed.

Lemma nodes_distinct l : distinct (table_nodes l) -> NoDup (map en_key l).
Proof.
  induction l as [| x l IH]; cbn; [constructor |]. intros Hd. unfold distinct in Hd. cbn in Hd. apply FOP_cons in Hd as [Hx Hl].
  constructor; [| by apply IH]. intros (y & Ey & Hy)%list_elem_of_fmap. rewrite Forall_forall in Hx.
  specialize (Hx (mkMapNode (en_key y) (WPtr (en_addr y)))). unfold different in Hx. cbn in Hx.
  rewrite Ey in Hx. unfold Word_Equals in Hx. rewrite bool_decide_true in Hx by done.
  discriminate Hx. apply list_elem_of_fmap. by exists y.
Qed.

Lemma sorted_NoDup (l : list Z) : StronglySorted Z.gt l -> NoDup l.
Proof. induction 1 as [| x l Hs IH Hx]; constructor; [| done]. intros Hin. rewrite Forall_forall in Hx. specialize (Hx x Hin). lia. Qed.

(** The list and the table have the same keys, each once. *)
Lemma inv_keys h l old : map_inv h l old -> NoDup (map en_key l) /\ NoDup (addrs l).
Proof.
  intros [_ (bm & _ & Hh) _ Hs _ _ _ _]. split; [apply nodes_distinct; by apply (holds_facts bm) | by apply sorted_NoDup].
Qed.

Lemma GetHashTable_ok h l old : map_inv h l old -> exists bm, GetHashTable h m = Some t /\ h_tables h !! t = Some bm /\ holds bm (table_nodes l).
Proof.
  intros [Hb (bm & Et & Hh) _ _ _ _ _ _]. exists bm. split; [| done]. unfold GetHashTable, GetArg, GetArgs. rewrite Hb. cbn [mbind option_bind].
  change (aget [WPtr t; head_or (WInt 0) l] HASHTABLE_POS) with (Some (WPtr t)). cbn [mbind option_bind]. by rewrite Et.
Qed.

Lemma Member_ok h l old key : map_inv h l old -> Member address h m key = Some (match find_key key l with Some _ => true | None => false end).
Proof.
  intros (bm & Eg & Et & Hh)%GetHashTable_ok. unfold Member, table. rewrite Eg. cbn [mbind option_bind]. rewrite Et. cbn [mbind option_bind].
  destruct (holds_facts _ _ Hh) as (_ & _ & _ & Hget). destruct (lookups_ok bm key (proj1 Hh)) as (_ & E & _). rewrite E, Hget, a_get_nodes.
  by destruct (find_key key l).
Qed.

Lemma live_node h l old x : map_inv h l old -> x ∈ l -> exists p n, node (h_store h) (en_addr x) (en_key x) (en_value x) p n.
Proof. intros Hm. eapply dseg_node, Hm. Qed.

Lemma LookupEntry_ok h l old key x : map_inv h l old -> find_key key l = Some x -> LookupEntry address h m key = Some (en_addr x).
Proof.
  intros Hm Ek. destruct (GetHashTable_ok _ _ _ Hm) as (bm & Eg & Et & Hh). unfold LookupEntry, table. rewrite Eg. cbn [mbind option_bind]. rewrite Et. cbn [mbind option_bind].
  destruct (holds_facts _ _ Hh) as (_ & _ & _ & Hget). destruct (lookups_ok bm key (proj1 Hh)) as (_ & _ & ->). rewrite Hget, a_get_nodes, Ek. cbn.
  destruct (live_node _ _ _ x Hm) as (p & n & Hx); [by apply (find_key_Some key) |]. by eapply node_entry.
Qed.

Lemma GetValue_ok h l old x : map_inv h l old -> x ∈ l -> GetValue (h_store h) (en_addr x) = Some (en_value x).
Proof. intros Hm Hx. destruct (live_node _ _ _ x Hm Hx) as (p & n & E). by apply (node_args _ _ _ _ _ _ E). Qed.

Lemma GetHead_ok h l old : map_inv h l old -> GetHead h m = Some (en_addr <$> head l).
Proof.
  intros Hm. unfold GetHead, GetArg, GetArgs. rewrite (mi_block _ _ _ Hm). cbn [mbind option_bind].
  change (aget [WPtr t; head_or (WInt 0) l] HEAD_POS) with (Some (head_or (WInt 0) l)). cbn [mbind option_bind]. rewrite head_link.
  apply link_ok. intros e He. destruct l as [| x l]; [done |]. injection He as <-.
  destruct (live_node _ _ _ x Hm) as (p & n & Hx); [by left | eauto].
Qed.

Lemma GetNext_ok h l old e : map_inv h l old -> e ∈ old -> exists k v p o, node (h_store h) e k v p (word_link o) /\ GetNext (h_store h) e = Some o /\
  (forall n, o = Some n -> n ∈ old /\ n < e) /\ (forall x, x ∈ l -> en_addr x < e -> exists n, o = Some n /\ en_addr x <= n).
Proof.
  intros Hm He. destruct (mi_old _ _ _ Hm e He) as (k & v & p & o & Hn & _ & _ & Hold & Hlive). exists k, v, p, o. split; [done |]. split; [| done].
  unfold GetNext. destruct (node_args _ _ _ _ _ _ Hn) as (_ & _ & _ & ->). cbn [mbind option_bind]. apply link_ok.
  intros n ->. destruct (Hold n eq_refl) as [Hin _]. destruct (mi_old _ _ _ Hm n Hin) as (k' & v' & p' & o' & Hn' & _). eauto.
Qed.

(** The next entry of one in the list is the next of the list. *)
Lemma GetNext_live h l1 x l2 old : map_inv h (l1 ++ x :: l2) old -> GetNext (h_store h) (en_addr x) = Some (en_addr <$> head l2).
Proof.
  intros Hm. destruct (GetNext_ok h _ old (en_addr x) Hm) as (k & v & p & o & Hn & -> & _).
  - apply (mi_live _ _ _ Hm). apply elem_of_app. right. by left.
  - pose proof (mi_list _ _ _ Hm) as [_ [Hx _]]%dseg_app. destruct (node_inj _ _ _ _ _ _ _ _ _ _ Hx Hn) as (_ & _ & _ & E).
    rewrite head_link in E. by apply word_link_inj in E as ->.
Qed.

Lemma node_label st e k v p n : node st e k v p n -> GetLabel st e = Some TUPLE_LABEL.
Proof. intros E. unfold GetLabel. by rewrite E. Qed.

(** Changes that keep the blocks of the map and everything else keep labels. *)
Lemma frame_labels h l old h' : map_inv h l old -> map_frame old h h' ->
  GetLabel (h_store h') m = Some TUPLE_LABEL -> (forall e, e ∈ old -> GetLabel (h_store h') e = Some TUPLE_LABEL) ->
  labels_kept (h_store h) (h_store h').
Proof.
  intros Hm (Hf & _) Hlm Hlo a k Ha. destruct (decide (a = m)) as [-> | Hne].
  - unfold GetLabel in Ha. rewrite (mi_block _ _ _ Hm) in Ha. injection Ha as <-. done.
  - destruct (decide (a ∈ old)) as [Hin | Hnin].
    + destruct (mi_old _ _ _ Hm a Hin) as (? & ? & ? & ? & Hn & _). rewrite (node_label _ _ _ _ _ _ Hn) in Ha. injection Ha as <-. by apply Hlo.
    + unfold GetLabel in *. rewrite Hf; [done .. |]. apply (mi_fresh _ _ _ Hm). intros E. by rewrite E in Ha.
Qed.

(** An old entry of which the operation keeps the key and the next link. *)
Lemma old_entry_keep h h' l l' old old' e :
  old_entry h l old e -> old ⊆ old' -> labels_kept (h_store h) (h_store h') -> st_next (h_store h) <= st_next (h_store h') ->
  (forall k v p n, node (h_store h) e k v p n -> exists v' p', node (h_store h') e k v' p' n) ->
  (forall x, x ∈ l' -> en_addr x < e -> exists y, y ∈ l /\ en_addr y = en_addr x) -> old_entry h' l' old' e.
Proof.
  intros (k & v & p & o & Hn & Hk & Hb & Ho & Hlive) Hsub Hlk Hnx Hkeep Hl. destruct (Hkeep _ _ _ _ Hn) as (v' & p' & Hn').
  exists k, v', p', o. split; [done |]. split; [by eapply view_kept |]. split; [lia |]. split.
  - intros n E. destruct (Ho n E). split; [by apply Hsub | done].
  - intros x Hx Hlt. destruct (Hl x Hx Hlt) as (y & Hy & E). rewrite <- E in *. by apply Hlive.
Qed.

Lemma keep_skips old h h' :
  (forall e k v p n, e ∈ old -> node (h_store h) e k v p n -> exists v' p', node (h_store h') e k v' p' n) -> skips old h h'.
Proof. intros Hk e k v p o He Hn. destruct (Hk _ _ _ _ _ He Hn) as (v' & p' & Hn'). exists v', p', o. split; [done | by left]. Qed.
End Inv.
