(* ===== verification/ImpMapOps.v ===== *)
(** * Imperative maps: what the operations do

    Every operation succeeds on a map that meets the invariant, keeps it and
    changes the list of entries as its name says. *)

From Stdlib Require Import Sorted.
From S2P Require Import Prelude Config HeaderOp Block BaseMap AliceData ImpMap ImpMapInv.

Lemma sorted_delete {A} (R : A -> A -> Prop) l1 x l2 : StronglySorted R (l1 ++ x :: l2) -> StronglySorted R (l1 ++ l2).
Proof.
  induction l1 as [| y l1 IH]; cbn; intros Hs; inversion Hs as [| ? ? Hs' Hall]; subst; [done |]. constructor; [by apply IH |].
  rewrite Forall_app, Forall_cons in Hall. apply Forall_app. tauto.
Qed.

Section Ops.
Context `{Platform} {C : Type} `{EntryKeyLaws C} (wundef : word) (address : Z -> Z) (m t : Z).
#[local] Hint Extern 0 (MapKey word) => exact (key_words address) : typeclass_instances.
Implicit Types (st : store C) (h : heap C) (l : list ent) (x : ent) (old : gset Z) (e : Z) (key w : word).

Abbreviation addrs l := (map en_addr l).
Abbreviation map_inv := (map_inv address m t).
Abbreviation map_frame := (map_frame m t).

Definition map_block st w : Prop := st_get st m = Some (NBlock TUPLE_LABEL true [WPtr t; w]).

Lemma set_head st w w' : map_block st w -> exists st', ReplaceArg st m HEAD_POS w' = Some st' /\ map_block st' w' /\
  st_next st' = st_next st /\ (forall a, a <> m -> st_get st' a = st_get st a).
Proof.
  intros E. unfold ReplaceArg. rewrite E. eexists. split; [reflexivity |].
  split; [unfold map_block; by rewrite st_get_set, decide_True |]. split; [done |]. intros a Ha. by rewrite st_get_set, decide_False.
Qed.

Lemma same_node st st' a k v p n : st_get st' a = st_get st a -> node st a k v p n -> node st' a k v p n.
Proof. unfold node. by intros ->. Qed.

Lemma addrs_old h l old : map_inv h l old -> forall a, a ∈ addrs l -> a ∈ old.
Proof. intros Hm a (x & -> & Hx)%list_elem_of_fmap. by apply (mi_live _ _ _ _ _ _ Hm). Qed.

Lemma absent_nodes key l : find_key key l = None -> Forall (fun n => Equals key (mn_key n) = false) (table_nodes l).
Proof.
  intros Hk. apply Forall_forall. intros n (x & -> & Hx)%list_elem_of_fmap. cbn. unfold Word_Equals. apply bool_decide_eq_false.
  intros ->. by apply (proj1 (find_key_None _ _) Hk x Hx).
Qed.

Lemma old_bound h l old e : map_inv h l old -> e ∈ old -> e < st_next (h_store h).
Proof. intros Hm Hin. by destruct (mi_old _ _ _ _ _ _ Hm e Hin) as (? & ? & ? & ? & ? & ? & ? & _). Qed.

(** Nothing of an address is known to be outside the blocks of the map. *)
Lemma fresh_keep h l old st' new :
  map_inv h l old -> st_next (h_store h) <= st_next st' ->
  (forall a, a <> m -> a ∉ addrs l -> (new : gset Z) ## {[a]} -> st_get st' a = st_get (h_store h) a) -> (forall a, a ∈ new -> a < st_next st') ->
  forall a, st_get st' a <> None -> a < st_next st'.
Proof.
  intros Hm Hnx Hs Hnew a Ha. destruct (decide (a ∈ new)) as [| Hn]; [by apply Hnew |]. destruct (mi_map _ _ _ _ _ _ Hm) as [Hmb _].
  destruct (decide (a = m)) as [-> | Ham]; [lia |]. destruct (decide (a ∈ addrs l)) as [Hin | Hnin].
  - pose proof (old_bound h l old a Hm (addrs_old _ _ _ Hm a Hin)). lia.
  - rewrite Hs in Ha by (done || set_solver). apply (mi_fresh _ _ _ _ _ _ Hm) in Ha. lia.
Qed.

(** What every operation promises about the rest of the store. *)
Record change old h h' : Prop := {
  ch_frame : map_frame old h h';
  ch_skips : skips old h h';
  ch_labels : labels_kept (h_store h) (h_store h')
}.

Lemma change_intro h l old h' w :
  map_inv h l old -> map_frame old h h' -> map_block (h_store h') w -> skips old h h' ->
  (forall a k v p n, a ∈ old -> node (h_store h) a k v p n -> exists v' p' n', node (h_store h') a k v' p' n') -> change old h h'.
Proof.
  intros Hm Hf Hb Hs Hk. split; [done .. |]. eapply frame_labels; [done | done | unfold GetLabel; by rewrite Hb |].
  intros a Hin. destruct (mi_old _ _ _ _ _ _ Hm a Hin) as (k & v & p & o & Hn & _). destruct (Hk _ _ _ _ _ Hin Hn) as (v' & p' & n' & Hn'). by eapply node_label.
Qed.

(** ** Insert *)

Lemma Insert_runs h l old key value :
  map_inv h l old -> find_key key l = None -> zlen l <= map_cap ->
  let e := st_next (h_store h) in
  exists bm st, Insert wundef address h m key value = Some (with_table t bm (with_store st h)) /\
    holds bm (table_nodes (Ent e key value :: l)) /\ map_block st (WPtr e) /\ dseg st (WInt 0) (Ent e key value :: l) (WInt 0) /\
    st_next st = e + 1 /\ (forall a k v p n, a ∈ old -> node (h_store h) a k v p n -> exists p', node st a k v p' n) /\
    (forall a, a <> m -> a ∉ addrs l -> a <> e -> st_get st a = st_get (h_store h) a).
Proof.
  intros Hm Hk Hcap. cbn zeta. remember (st_next (h_store h)) as e eqn:Ee.
  destruct (GetHashTable_ok _ _ _ _ _ _ Hm) as (bm & Eg & Et & Hh). destruct (inv_keys _ _ _ _ _ _ Hm) as [_ Hnd].
  destruct (holds_facts _ _ Hh) as (_ & _ & Hc & Hget). destruct (lookups_ok bm key (proj1 Hh)) as (_ & Em & _).
  rewrite Hget, (a_get_nodes address), Hk in Em. assert (He : e ∉ old) by (intros Hin; pose proof (old_bound _ _ _ _ Hm Hin); lia).
  assert (Ha : forall a, a ∈ addrs l -> a ∈ old) by by eapply addrs_old. destruct (mi_map _ _ _ _ _ _ Hm) as [Hmb Hmo].
  unfold Insert. rewrite Eg. cbn [mbind option_bind]. rewrite Et. cbn [mbind option_bind]. rewrite Em. cbn [mbind option_bind fmap option_fmap option_map].
  rewrite (GetHead_ok _ _ _ _ _ _ Hm). cbn [mbind option_bind].
  destruct (Entry_New_ok wundef (h_store h) l key value (mi_list _ _ _ _ _ _ Hm) Hnd) as (st1 & -> & Hd1 & Hn1 & Hk1 & Hs1); [by rewrite <- Ee; intros Hin; apply He, Ha |].
  cbn [mbind option_bind fst snd]. rewrite <- Ee in Hd1, Hn1, Hk1, Hs1. rewrite <- Ee.
  destruct (set_head st1 (head_or (WInt 0) l) (WPtr e)) as (st2 & -> & Hb2 & Hn2 & Hs2).
  { unfold map_block. rewrite Hs1; [apply (mi_block _ _ _ _ _ _ Hm) | by intros Hin; apply Hmo, Ha | lia]. }
  cbn [mbind option_bind]. destruct (Put_ok bm key (WPtr e) (proj1 Hh)) as (bm' & -> & Hok' & Hi' & _).
  { rewrite Hc. unfold table_nodes, zlen in *. by rewrite length_map. }
  exists bm', st2. split; [done |]. split; [| split; [done |]; split; [| split; [congruence |]; split]].
  - split; [done |]. rewrite Hi'. cbn. unfold a_put. rewrite (proj2 Hh). f_equiv. by rewrite (proj1 (a_remove_absent _ _ (absent_nodes _ _ Hk))).
  - eapply dseg_frame; [| exact Hd1]. intros a Hin. apply Hs2. cbn in Hin. apply elem_of_cons in Hin as [-> | Hin]; [lia |]. intros ->. by apply Hmo, Ha.
  - intros a k v p n Hin Hn. destruct (Hk1 a k v p n Hn) as (p' & Hn'); [congruence |]. exists p'. eapply same_node; [| exact Hn']. apply Hs2. congruence.
  - intros a Ham Hnin Hne. by rewrite Hs2, Hs1.
Qed.

(** The new entry leads to the one that was first. *)
Lemma new_entry_ok h' l old e key value :
  dseg (h_store h') (WInt 0) (Ent e key value :: l) (WInt 0) -> key_view (h_store h') key = Some key -> e < st_next (h_store h') ->
  (forall a, a ∈ addrs l -> a ∈ old /\ a < e) -> StronglySorted Z.gt (addrs l) -> old_entry h' (Ent e key value :: l) ({[e]} ∪ old) e.
Proof.
  intros [Hd _] Hk He Hl Hs. exists key, value, (WInt 0), (en_addr <$> head l). rewrite head_link in Hd. split; [done |]. split; [done |]. split; [done |].
  destruct l as [| y l]; cbn; [split; [done |]; intros x [-> | Hx]%elem_of_cons; [cbn; lia | by apply not_elem_of_nil in Hx] |].
  destruct (Hl (en_addr y)) as [Hy Hlt]; [by left |]. split; [intros n [= <-]; split; [by apply elem_of_union_r | done] |].
  intros x Hx Hxe. exists (en_addr y). split; [done |]. apply elem_of_cons in Hx as [-> | [-> | Hx]%elem_of_cons]; [cbn in Hxe; lia | lia |].
  inversion Hs as [| ? ? _ Hall]; subst. rewrite Forall_forall in Hall. assert (en_addr y > en_addr x) by (apply Hall, list_elem_of_fmap; by exists x). lia.
Qed.

Lemma Insert_ok h l old key value :
  map_inv h l old -> find_key key l = None -> key_view (h_store h) key = Some key -> zlen l <= map_cap ->
  let e := st_next (h_store h) in
  exists h', Insert wundef address h m key value = Some h' /\ map_inv h' (Ent e key value :: l) ({[e]} ∪ old) /\ change old h h'.
Proof.
  intros Hm Hk Hv Hcap. cbn zeta. destruct (Insert_runs h l old key value Hm Hk Hcap) as (bm & st & E & Hh & Hb & Hd & Hnx & Hkeep & Hs).
  remember (st_next (h_store h)) as e eqn:Ee. assert (Ha : forall a, a ∈ addrs l -> a ∈ old) by by eapply addrs_old.
  assert (Hold : forall a, a ∈ old -> a < e) by (intros a Hin; rewrite Ee; by eapply old_bound). destruct (mi_map _ _ _ _ _ _ Hm) as [Hmb Hmo].
  set (h' := with_table t bm (with_store st h)). fold h' in E. exists h'. split; [done |].
  assert (Hc : change old h h').
  { eapply change_intro; [done | | exact Hb | apply keep_skips; intros a k v p n Hin Hn; exists v; by eapply Hkeep |].
    - split; [| split; [intros t' Ht; by apply lookup_insert_ne | cbn; lia]].
      intros a Hne Hnin Hlt. apply Hs; [done | by intros Hin; apply Hnin, Ha | lia].
    - intros a k v p n Hin Hn. exists v. destruct (Hkeep _ _ _ _ _ Hin Hn) as (p' & ?). by exists p', n. }
  split; [| done]. split; try done.
  - exists bm. split; [by apply lookup_insert_eq | done].
  - cbn. constructor; [apply Hm |]. apply Forall_forall. intros a Hin. apply Ha, Hold in Hin. lia.
  - intros x [-> | Hx]%elem_of_cons; [set_solver |]. apply elem_of_union_r. by apply (mi_live _ _ _ _ _ _ Hm).
  - intros a [->%elem_of_singleton | Hin]%elem_of_union.
    + apply new_entry_ok; [done | eapply view_kept; [apply Hc | done] | cbn; lia | by intros a Hin; split; [apply Ha | apply Hold, Ha] | apply Hm].
    + eapply old_entry_keep; [by apply (mi_old _ _ _ _ _ _ Hm) | set_solver | apply Hc | cbn; lia | intros k v p n Hn; exists v; by eapply Hkeep |].
      intros x [-> | Hx]%elem_of_cons; [| by exists x]. cbn. pose proof (Hold a Hin). lia.
  - split; [cbn; lia |]. rewrite elem_of_union, elem_of_singleton. intros [-> | ?]; [lia | done].
  - apply (fresh_keep h l old st {[e]} Hm); [lia | intros a Ham Hnin Hne; apply Hs; [done .. | set_solver] | set_solver by lia].
Qed.

(** ** SetValue, which may come after the entry has been removed *)

Lemma SetValue_inv h l old e w : map_inv h l old -> e ∈ old ->
  exists st, SetValue (h_store h) e w = Some st /\ map_inv (with_store st h) (set_value e w l) old /\ change old h (with_store st h).
Proof.
  intros Hm He. destruct (mi_old _ _ _ _ _ _ Hm e He) as (k & v & p & o & Hn & _). destruct (mi_map _ _ _ _ _ _ Hm) as [Hmb Hmo].
  destruct (SetValue_ok _ _ _ _ _ _ w Hn) as (st & E & Hnx & Hn' & Hs). exists st. split; [done |].
  assert (Hkeep : forall a k v p n, node (h_store h) a k v p n -> exists v' p', node st a k v' p' n).
  { intros a k1 v1 p1 n1 Hn1. destruct (decide (a = e)) as [-> | Hne]; [| exists v1, p1; by eapply same_node; [apply Hs |]].
    destruct (node_inj _ _ _ _ _ _ _ _ _ _ Hn Hn1) as (<- & <- & <- & <-). eauto. }
  assert (Hb : map_block st (head_or (WInt 0) l)) by (unfold map_block; rewrite Hs by congruence; apply Hm).
  assert (Hc : change old h (with_store st h)).
  { eapply change_intro; [done | | exact Hb | by apply keep_skips; intros; by eapply Hkeep | intros ? ? ? ? ? _ (? & ? & ?)%Hkeep; eauto].
    split; [| split; [done | cbn; lia]]. intros a _ Hnin _. apply Hs. congruence. }
  split; [| done]. split; try rewrite set_value_addrs; try apply Hm.
  - by rewrite head_or_set_value.
  - replace (table_nodes (set_value e w l)) with (table_nodes l); [apply Hm |]. unfold table_nodes, set_value. rewrite map_map. apply map_ext. intros x. by case_decide as E'; [rewrite <- E' |].
  - eapply dseg_set_value; [exact Hn | exact Hn' | done | apply Hm].
  - intros x Hx. apply (addrs_old _ _ _ Hm). rewrite <- (set_value_addrs e w). apply list_elem_of_fmap. by exists x.
  - intros a Hin. eapply old_entry_keep; [by apply (mi_old _ _ _ _ _ _ Hm) | done | apply Hc | cbn; lia | intros; by eapply Hkeep |].
    intros x Hx _. assert (Hx' : en_addr x ∈ addrs l) by (rewrite <- (set_value_addrs e w); apply list_elem_of_fmap; by exists x).
    apply list_elem_of_fmap in Hx' as (y & ? & ?). by exists y.
  - cbn. by rewrite Hnx.
  - apply (fresh_keep h l old st {[e]} Hm); [lia | intros a Ham Hnin Hne; apply Hs; set_solver | intros a ->%elem_of_singleton; rewrite Hnx; by eapply old_bound].
Qed.

(** ** RemoveAll *)

Lemma RemoveAll_ok h l old : map_inv h l old -> exists h', RemoveAll h m = Some h' /\ map_inv h' [] old /\ change old h h'.
Proof.
  intros Hm. destruct (GetHashTable_ok _ _ _ _ _ _ Hm) as (bm & Eg & Et & Hh). destruct (mi_map _ _ _ _ _ _ Hm) as [Hmb Hmo].
  unfold RemoveAll. rewrite Eg. cbn [mbind option_bind]. rewrite Et. cbn [mbind option_bind].
  destruct (Map_Clear_ok bm (proj1 Hh)) as (bm' & -> & Hok' & Hi' & _). cbn [mbind option_bind].
  destruct (set_head (h_store h) _ (WInt 0) (mi_block _ _ _ _ _ _ Hm)) as (st & -> & Hb & Hnx & Hs). cbn [mbind option_bind]. eexists. split; [reflexivity |].
  assert (Hkeep : forall a k v p n, a ∈ old -> node (h_store h) a k v p n -> exists v' p', node st a k v' p' n).
  { intros a k v p n Hin Hn. exists v, p. eapply same_node; [| exact Hn]. apply Hs. congruence. }
  assert (Hc : change old h (with_table t bm' (with_store st h))).
  { eapply change_intro; [done | | exact Hb | by apply keep_skips | intros a k v p n Hin Hn; destruct (Hkeep _ _ _ _ _ Hin Hn) as (? & ? & ?); eauto].
    split; [| split; [intros t' Ht; by apply lookup_insert_ne | cbn; lia]]. intros a Hne _ _. by apply Hs. }
  split; [| done]. split; try done.
  - exists bm'. split; [by apply lookup_insert_eq |]. split; [done |]. by rewrite Hi'.
  - constructor.
  - intros x Hx. by apply not_elem_of_nil in Hx.
  - intros a Hin. eapply old_entry_keep; [by apply (mi_old _ _ _ _ _ _ Hm) | done | apply Hc | cbn; lia | intros; by eapply Hkeep |].
    intros x Hx. by apply not_elem_of_nil in Hx.
  - cbn. by rewrite Hnx.
  - apply (fresh_keep h l old st ∅ Hm); [lia | intros a Ham Hnin Hne; by apply Hs | set_solver].
Qed.
(** ** Remove *)

Lemma find_key_mid l1 x l2 : NoDup (map en_key (l1 ++ x :: l2)) ->
  find_key (en_key x) l1 = None /\ find_key (en_key x) l2 = None /\ find_key (en_key x) (l1 ++ x :: l2) = Some x.
Proof.
  rewrite map_app. intros (_ & Hd & Hnd)%NoDup_app. cbn in Hnd. inversion Hnd as [| ? ? Hx _]; subst.
  assert (Hf1 : find_key (en_key x) l1 = None).
  { apply find_key_None. intros y Hy E. apply (Hd (en_key y)); [apply list_elem_of_fmap; by exists y | rewrite E; by left]. }
  split; [done |]. split; [apply find_key_None; intros y Hy E; apply Hx; apply list_elem_of_fmap; by exists y |].
  clear - Hf1. induction l1 as [| y l1 IH]; cbn in *; [by rewrite decide_True |]. by case_decide; [| apply IH].
Qed.

Lemma remove_nodes l1 x l2 : NoDup (map en_key (l1 ++ x :: l2)) -> a_remove (en_key x) (table_nodes (l1 ++ x :: l2)) = table_nodes (l1 ++ l2).
Proof.
  intros (E1 & E2 & _)%find_key_mid. unfold table_nodes, a_remove. rewrite !map_app, filter_app. cbn [map].
  rewrite filter_cons_False by (cbn; unfold Word_Equals; by rewrite bool_decide_true). f_equal; apply a_remove_absent; by apply absent_nodes.
Qed.

(** The old entries after the entry [x] has been taken out of the list. *)
Lemma joined_old h st l1 x l2 old : map_inv h (l1 ++ x :: l2) old -> joined (h_store h) st l1 l2 ->
  forall e k v p o, e ∈ old -> node (h_store h) e k v p (word_link o) -> exists p' o', node st e k v p' (word_link o') /\
    (o' = o \/ (o = Some (en_addr x) /\ node (h_store h) (en_addr x) (en_key x) (en_value x) (last_or (WInt 0) l1) (word_link o'))).
Proof.
  intros Hm Hj e k v p o He Hn. destruct (Hj _ _ _ _ _ Hn) as (p' & Hn'). case_decide as Ee; [| exists p', o; by split; [| left]].
  exists p', (en_addr <$> head l2). rewrite head_link in Hn'. split; [done |]. right.
  pose proof (mi_list _ _ _ _ _ _ Hm) as [Hl1 [Hx _]]%dseg_app. rewrite head_link in Hx. split; [| done].
  destruct l1 as [| y l1 _] using rev_ind; [done |]. unfold last_or in Ee. rewrite last_snoc in Ee. injection Ee as ->.
  apply dseg_app in Hl1 as [_ [Hy _]]. cbn in Hy. destruct (node_inj _ _ _ _ _ _ _ _ _ _ Hn Hy) as (_ & _ & _ & E).
  by apply (word_link_inj o (Some (en_addr x))).
Qed.

Lemma Remove_runs h l1 x l2 old :
  map_inv h (l1 ++ x :: l2) old ->
  exists bm st, Remove_key address h m (en_key x) = Some (with_table t bm (with_store st h)) /\
    holds bm (table_nodes (l1 ++ l2)) /\ map_block st (head_or (WInt 0) (l1 ++ l2)) /\ dseg st (WInt 0) (l1 ++ l2) (WInt 0) /\
    st_next st = st_next (h_store h) /\ joined (h_store h) st l1 l2 /\
    (forall a, a <> m -> a ∉ addrs (l1 ++ l2) -> st_get st a = st_get (h_store h) a).
Proof.
  intros Hm. destruct (inv_keys _ _ _ _ _ _ Hm) as [Hk Hnd]. destruct (find_key_mid _ _ _ Hk) as (_ & _ & Ef).
  destruct (GetHashTable_ok _ _ _ _ _ _ Hm) as (bm & Eg & Et & Hh). destruct (mi_map _ _ _ _ _ _ Hm) as [Hmb Hmo].
  assert (Hmn : forall a, a ∈ addrs (l1 ++ l2) -> a <> m).
  { intros a Ha ->. apply Hmo, (addrs_old _ _ _ Hm). rewrite map_app in *. cbn. set_solver. }
  unfold Remove_key. rewrite Eg. cbn [mbind option_bind]. rewrite Et. cbn [mbind option_bind].
  rewrite (LookupEntry_ok _ _ _ _ _ _ _ _ Hm Ef). cbn [mbind option_bind].
  destruct (Remove_ok bm (en_key x) (proj1 Hh)) as (bm' & -> & Hok' & Hi' & _). cbn [mbind option_bind].
  destruct (Unlink_ok _ _ _ _ (mi_list _ _ _ _ _ _ Hm) Hnd) as (st1 & -> & Hd1 & Hn1 & Hj1 & Hs1). cbn [mbind option_bind fst snd].
  assert (Hb1 : map_block st1 (head_or (WInt 0) (l1 ++ x :: l2))) by (unfold map_block; rewrite Hs1; [apply Hm | by intros ?%Hmn]).
  assert (Hst : exists st2, (if decide ((if decide (l1 = []) then head_or (WInt 0) l2 else WInt 1) = WInt 1) then Some st1
      else ReplaceArg st1 m HEAD_POS (if decide (l1 = []) then head_or (WInt 0) l2 else WInt 1)) = Some st2 /\
    map_block st2 (head_or (WInt 0) (l1 ++ l2)) /\ st_next st2 = st_next st1 /\ forall a, a <> m -> st_get st2 a = st_get st1 a).
  { destruct (decide (l1 = [])) as [-> | Hne].
    - rewrite decide_False by (by destruct l2). apply (set_head st1 _ _ Hb1).
    - rewrite decide_True by done. exists st1. split; [done |]. split; [| done]. by destruct l1. }
  destruct Hst as (st2 & -> & Hb2 & Hn2 & Hs2). cbn [mbind option_bind]. exists bm', st2. split; [done |].
  split; [| split; [done |]; split; [| split; [congruence |]; split]].
  - split; [done |]. by rewrite Hi', (proj2 Hh), remove_nodes.
  - eapply dseg_frame; [| exact Hd1]. intros a Ha. apply Hs2. by apply Hmn.
  - intros a k v p n Hn. destruct (Hj1 _ _ _ _ _ Hn) as (p' & Hn'). exists p'. eapply same_node; [| exact Hn'].
    apply Hs2. intros ->. unfold node in Hn. rewrite (mi_block _ _ _ _ _ _ Hm) in Hn. done.
  - intros a Ham Ha. by rewrite Hs2, Hs1.
Qed.

Lemma Remove_key_ok h l1 x l2 old :
  map_inv h (l1 ++ x :: l2) old -> exists h', Remove_key address h m (en_key x) = Some h' /\ map_inv h' (l1 ++ l2) old /\ change old h h'.
Proof.
  intros Hm. destruct (Remove_runs _ _ _ _ _ Hm) as (bm & st & E & Hh & Hb & Hd & Hnx & Hj & Hs).
  pose proof (joined_old _ _ _ _ _ _ Hm Hj) as Hold. set (h' := with_table t bm (with_store st h)). fold h' in E. exists h'. split; [done |].
  assert (Hsub : forall y, y ∈ l1 ++ l2 -> y ∈ l1 ++ x :: l2) by set_solver.
  assert (Haddr : forall a, a ∈ addrs (l1 ++ l2) -> a ∈ old).
  { intros a (y & -> & Hy)%list_elem_of_fmap. by apply (mi_live _ _ _ _ _ _ Hm), Hsub. }
  assert (Hc : change old h h').
  { eapply change_intro; [done | | exact Hb | |].
    - split; [| split; [intros t' Ht; by apply lookup_insert_ne | cbn; lia]]. intros a Ham Ha _. apply Hs; [done | by intros ?%Haddr].
    - intros e k v p o He Hn. destruct (Hold _ _ _ _ _ He Hn) as (p' & o' & Hn' & Ho). exists v, p', o'. split; [done |].
      destruct Ho as [-> | [-> Hx]]; [by left | right; eauto 10].
    - intros e k v p n He Hn. destruct (mi_old _ _ _ _ _ _ Hm e He) as (k' & v' & p' & o & Hn' & _).
      destruct (node_inj _ _ _ _ _ _ _ _ _ _ Hn Hn') as (-> & -> & -> & ->). destruct (Hold _ _ _ _ _ He Hn) as (p1 & o1 & Hn1 & _). eauto. }
  destruct (inv_keys _ _ _ _ _ _ Hm) as [_ Hnd]. split; [| done]. split; try done.
  - exists bm. split; [by apply lookup_insert_eq | done].
  - pose proof (mi_sorted _ _ _ _ _ _ Hm) as Hsort. rewrite !map_app in *. cbn in Hsort. by apply sorted_delete in Hsort.
  - intros y Hy. by apply (mi_live _ _ _ _ _ _ Hm), Hsub.
  - intros e He. destruct (mi_old _ _ _ _ _ _ Hm e He) as (k & v & p & o & Hn & Hk & Hbd & Hon & Hlive).
    destruct (Hold _ _ _ _ _ He Hn) as (p' & o' & Hn' & Ho). exists k, v, p', o'. split; [done |]. split; [eapply view_kept; [apply Hc | done] |].
    split; [cbn; lia |]. destruct Ho as [-> | [-> Hx]]; [split; [done |]; intros y Hy; by apply Hlive, Hsub |].
    destruct (Hon _ eq_refl) as [Hxo Hxe]. destruct (mi_old _ _ _ _ _ _ Hm _ Hxo) as (k2 & v2 & p2 & o2 & Hn2 & _ & _ & Hon2 & Hlive2).
    destruct (node_inj _ _ _ _ _ _ _ _ _ _ Hx Hn2) as (_ & _ & _ & <-%word_link_inj). split; [intros n En; destruct (Hon2 n En); split; [done | lia] |].
    intros y Hy Hlt. destruct (Hlive y (Hsub y Hy) Hlt) as (n & [= <-] & Hle). apply Hlive2; [by apply Hsub |].
    assert (en_addr y <> en_addr x); [| lia]. intros Exy. rewrite map_app in Hnd. apply NoDup_app in Hnd as (_ & Hdis & Hnd2). cbn in Hnd2.
    inversion Hnd2 as [| ? ? Hnx2 _]; subst. apply elem_of_app in Hy as [Hy | Hy].
    + apply (Hdis (en_addr y)); [apply list_elem_of_fmap; by exists y | rewrite Exy; by left].
    + apply Hnx2. rewrite <- Exy. apply list_elem_of_fmap. by exists y.
  - cbn. rewrite Hnx. apply Hm.
  - apply (fresh_keep h _ old st ∅ Hm); [lia | | set_solver]. intros a Ham Ha _. apply Hs; [done |]. rewrite map_app in *. cbn in Ha. set_solver.
Qed.
End Ops.
