(* ===== verification/ImpMapIter.v ===== *)
(** * Imperative maps: iterating while the map changes

    A call of a closure may use the map in any way; the frame of an iterator
    holds an entry that may be removed in the meantime. *)

From Stdlib Require Import Sorted.
From S2P Require Import Prelude Config HeaderOp Block BaseMap AliceData ImpMap ImpMapInv ImpMapOps.

Section Iter.
Context `{Platform} {C : Type} `{EntryKeyLaws C} (wundef : word) (address : Z -> Z) (m t : Z).
#[local] Hint Extern 0 (MapKey word) => exact (key_words address) : typeclass_instances.
Implicit Types (st : store C) (h : heap C) (l : list ent) (x : ent) (old : gset Z) (e : Z) (key w : word).

Abbreviation addrs l := (map en_addr l).
Abbreviation map_inv := (map_inv address m t).

(** ** Using the map *)

(** Changes outside the blocks of the map; new blocks may be allocated. *)
Record outside old h h' : Prop := {
  os_block : st_get (h_store h') m = st_get (h_store h) m;
  os_old : forall e, e ∈ old -> st_get (h_store h') e = st_get (h_store h) e;
  os_table : h_tables h' !! t = h_tables h !! t;
  os_labels : labels_kept (h_store h) (h_store h');
  os_next : st_next (h_store h) <= st_next (h_store h');
  os_fresh : forall a, st_get (h_store h') a <> None -> a < st_next (h_store h')
}.

(** One use of the map, or anything elsewhere; [old] records the entries that
    the map has made. *)
Inductive use : heap C * gset Z -> heap C * gset Z -> Prop :=
  | use_insert h old h' key value n :
      Map_Size h m = Some n -> n <= map_cap -> key_view (h_store h) key = Some key ->
      Insert wundef address h m key value = Some h' -> use (h, old) (h', {[st_next (h_store h)]} ∪ old)
  | use_remove h old h' key : Remove_key address h m key = Some h' -> use (h, old) (h', old)
  | use_removeAll h old h' : RemoveAll h m = Some h' -> use (h, old) (h', old)
  | use_value h old e w st : e ∈ old -> SetValue (h_store h) e w = Some st -> use (h, old) (with_store st h, old)
  | use_outside h old h' : outside old h h' -> use (h, old) (h', old).

Lemma outside_inv h h' l old : map_inv h l old -> outside old h h' -> map_inv h' l old.
Proof.
  intros Hm [Hb Ho Ht Hl Hn Hf].
  assert (Hk : forall e k v p n, e ∈ old -> node (h_store h) e k v p n -> node (h_store h') e k v p n) by (intros e k v p n He; apply same_node; by apply Ho).
  split.
  - rewrite Hb. apply Hm.
  - rewrite Ht. apply Hm.
  - eapply dseg_frame; [| apply Hm]. intros a Ha. by eapply Ho, (addrs_old address m t).
  - apply Hm.
  - apply Hm.
  - intros e He. eapply old_entry_keep; [by apply (mi_old _ _ _ _ _ _ Hm) | done | done | done | |].
    + intros k v p n Hn'. exists v, p. by apply Hk.
    + intros x Hx _. by exists x.
  - destruct (mi_map _ _ _ _ _ _ Hm). split; [lia | done].
  - done.
Qed.

Lemma Remove_found h l old key h' : map_inv h l old -> Remove_key address h m key = Some h' -> exists x, find_key key l = Some x.
Proof.
  intros Hm E. destruct (GetHashTable_ok _ _ _ _ _ _ Hm) as (bm & Eg & Et & Hh). unfold Remove_key, LookupEntry, table in E.
  rewrite Eg in E. cbn [mbind option_bind] in E. rewrite Et in E. cbn [mbind option_bind] in E.
  destruct (holds_facts _ _ Hh) as (_ & _ & _ & Hget). destruct (lookups_ok bm key (proj1 Hh)) as (_ & _ & Eget). rewrite Eget, Hget, (a_get_nodes address) in E.
  destruct (find_key key l) as [x |]; [by exists x | done].
Qed.

Lemma Insert_absent h l old key value h' : map_inv h l old -> Insert wundef address h m key value = Some h' -> find_key key l = None.
Proof.
  intros Hm E. pose proof (Member_ok _ _ _ _ _ _ key Hm) as Ek. destruct (GetHashTable_ok _ _ _ _ _ _ Hm) as (bm & Eg & Et & Hh).
  unfold Member, table in Ek. rewrite Eg in Ek. cbn [mbind option_bind] in Ek. rewrite Et in Ek. cbn [mbind option_bind] in Ek.
  unfold Insert in E. rewrite Eg in E. cbn [mbind option_bind] in E. rewrite Et in E. cbn [mbind option_bind] in E. rewrite Ek in E.
  by destruct (find_key key l).
Qed.

Lemma Map_Size_ok h l old : map_inv h l old -> Map_Size h m = Some (zlen l).
Proof.
  intros Hm. destruct (GetHashTable_ok _ _ _ _ _ _ Hm) as (bm & Eg & Et & Hh). unfold Map_Size, table. rewrite Eg. cbn [mbind option_bind]. rewrite Et. cbn [mbind option_bind].
  destruct (holds_facts _ _ Hh) as (_ & _ & Hc & _). unfold Map_GetSize. rewrite Hc. unfold table_nodes, zlen. by rewrite length_map.
Qed.

(** A use keeps the invariant; an old entry that is in the list was in the
    list, and old entries keep their places up to skipping some. *)
Lemma use_inv h old h' old' l : map_inv h l old -> use (h, old) (h', old') ->
  exists l', map_inv h' l' old' /\ old ⊆ old' /\ (forall a, a ∈ addrs l' -> a ∈ old -> a ∈ addrs l) /\ skips old h h'.
Proof.
  intros Hm Hu. inversion Hu as [? ? ? key value n Es Hn Hk E | ? ? ? key E | ? ? ? E | ? ? e w st He E | ? ? ? Ho]; subst.
  - rewrite (Map_Size_ok _ _ _ Hm) in Es. injection Es as <-.
    destruct (Insert_ok wundef address m t h l old key value Hm (Insert_absent _ _ _ _ _ _ Hm E) Hk Hn) as (h1 & E1 & Hm1 & Hc). rewrite E in E1. injection E1 as <-.
    eexists. split; [done |]. split; [set_solver |]. split; [| apply Hc]. cbn. intros a [-> | Ha]%elem_of_cons Hin; [| done].
    pose proof (old_bound _ _ _ _ _ _ _ Hm Hin). lia.
  - destruct (Remove_found _ _ _ _ _ Hm E) as (x & Ef). apply find_key_Some in Ef as [(l1 & l2 & ->)%list_elem_of_split <-].
    destruct (Remove_key_ok address m t _ _ _ _ _ Hm) as (h1 & E1 & Hm1 & Hc). rewrite E in E1. injection E1 as <-.
    exists (l1 ++ l2). split; [done |]. split; [done |]. split; [| apply Hc]. intros a Ha _. rewrite map_app in *. cbn. set_solver.
  - destruct (RemoveAll_ok address m t _ _ _ Hm) as (h1 & E1 & Hm1 & Hc). rewrite E in E1. injection E1 as <-.
    exists []. split; [done |]. split; [done |]. split; [| apply Hc]. intros a Ha. by apply not_elem_of_nil in Ha.
  - destruct (SetValue_inv address m t _ _ _ e w Hm He) as (st1 & E1 & Hm1 & Hc). rewrite E in E1. injection E1 as <-.
    exists (set_value e w l). split; [done |]. split; [done |]. split; [| apply Hc]. intros a. by rewrite set_value_addrs.
  - exists l. split; [by eapply outside_inv |]. split; [done |]. split; [done |]. apply keep_skips. intros e k v p n He Hn. exists v, p. eapply same_node; [| done]. by apply Ho.
Qed.

(** A set of old entries that no link leaves. *)
Definition closed h (S : list Z) : Prop := forall e k v p n, e ∈ S -> node (h_store h) e k v p (WPtr n) -> n ∈ S.

Lemma skips_closed h h' l old S : map_inv h l old -> (forall a, a ∈ S -> a ∈ old) -> skips old h h' -> closed h S -> closed h' S.
Proof.
  intros Hm HS Hs Hc e k v p n He Hn. destruct (mi_old _ _ _ _ _ _ Hm e (HS e He)) as (k0 & v0 & p0 & o & Hn0 & _).
  destruct (Hs e _ _ _ _ (HS e He) Hn0) as (v' & p' & o' & Hn' & Ho). destruct (node_inj _ _ _ _ _ _ _ _ _ _ Hn Hn') as (_ & _ & _ & E).
  apply (word_link_inj (Some n)) in E as <-. destruct Ho as [<- | (n1 & k2 & v2 & p2 & -> & Hn1)]; [by eapply Hc |].
  eapply Hc; [| exact Hn1]. by eapply Hc.
Qed.

Lemma uses_inv h old h' old' l S : rtc use (h, old) (h', old') -> map_inv h l old -> (forall a, a ∈ S -> a ∈ old) -> closed h S ->
  exists l', map_inv h' l' old' /\ (forall a, a ∈ S -> a ∈ old') /\ closed h' S /\ (forall a, a ∈ addrs l' -> a ∈ S -> a ∈ addrs l) /\ old ⊆ old'.
Proof.
  intros Hr. remember (h, old) as s eqn:Es. remember (h', old') as s' eqn:Es'. revert h old l Es. induction Hr as [s | s [h1 old1] s' Hu Hr IH]; intros h old l Es Hm HS Hc; subst.
  - injection Es as <- <-. by exists l.
  - destruct (use_inv _ _ _ _ _ Hm Hu) as (l1 & Hm1 & Hsub & Hl1 & Hs1).
    destruct (IH eq_refl h1 old1 l1 eq_refl Hm1) as (l' & Hm' & HS' & Hc' & Hl' & Hsub'); [by intros a Ha; apply Hsub, HS | by apply (skips_closed _ _ _ _ _ Hm HS Hs1) |].
    exists l'. split; [done |]. split; [done |]. split; [done |]. split; [intros a Ha HaS; apply Hl1; [by apply Hl' | by apply HS] | set_solver].
Qed.

(** ** Runs of an iterator *)

(** What runs next, the frames above those of the caller, and the store. *)
Record conf := mkConf { c_next : outcome; c_frames : list Frame; c_heap : heap C; c_old : gset Z }.

(** One step, with the entries that the frame of an iterator visits in it: the
    worker of the top frame, or a call of a closure, which uses the map and
    returns any values. *)
Inductive step : conf -> list Z -> conf -> Prop :=
  | step_call closure args fs h old args' h' old' :
      rtc use (h, old) (h', old') -> step (mkConf (Call closure args) fs h old) [] (mkConf (Continue args') fs h' old')
  | step_run args f fs h old out fs' h' :
      Run wundef h f fs args = Some (out, fs', h') ->
      step (mkConf (Continue args) (f :: fs) h old) (match f with IteratorFrame e _ _ => [e] | _ => [] end) (mkConf out fs' h' old).

Inductive steps : nat -> conf -> list Z -> conf -> Prop :=
  | steps_refl c : steps 0 c [] c
  | steps_step n c v1 c1 v2 c2 : steps n c v1 c1 -> step c1 v2 c2 -> steps (S n) c (v1 ++ v2) c2.

(** The run has nothing left to do. *)
Definition finished (c : conf) : Prop := c_frames c = [] /\ exists args, c_next c = Continue args.

(** The entry that the iterator visits next. *)
Definition pending (c : conf) : option Z := match c_frames c with IteratorFrame e _ _ :: _ => Some e | _ => None end.

Record iterating (S : list Z) (n : nat) (c : conf) (visited : list Z) : Prop := {
  it_inv : exists l, map_inv (c_heap c) l (c_old c) /\
    (forall a, a ∈ addrs l -> a ∈ S -> a ∈ visited \/ exists e, pending c = Some e /\ a <= e);
  it_old : forall a, a ∈ S -> a ∈ c_old c;
  it_closed : closed (c_heap c) S;
  it_frames : c_frames c = [] \/ exists e closure op, c_frames c = [IteratorFrame e closure op];
  it_pending : forall e, pending c = Some e -> e ∈ S /\ forall a, a ∈ visited -> e < a;
  it_visited : forall a, a ∈ visited -> a ∈ S;
  it_sorted : StronglySorted Z.gt visited;
  it_count : match c_next c with Continue _ => n = (2 * length visited)%nat | Call _ _ => (n + 1)%nat = (2 * length visited)%nat | Request _ => False end
}.
Lemma sorted_snoc (l : list Z) a : StronglySorted Z.gt l -> (forall b, b ∈ l -> a < b) -> StronglySorted Z.gt (l ++ [a]).
Proof.
  induction 1 as [| b l Hs IH Hb]; intros Ha; [by repeat constructor |]. cbn. constructor; [apply IH; intros c Hc; apply Ha; by right |].
  rewrite Forall_app, Forall_singleton. split; [done |]. assert (a < b) by (apply Ha; by left). lia.
Qed.

(** A new block is outside. *)
Lemma alloc_outside h l old nd : map_inv h l old -> (forall lb w, nd <> NTransient lb w) -> outside old h (with_store (st_alloc (h_store h) nd).1 h).
Proof.
  intros Hm Hnd. destruct (mi_map _ _ _ _ _ _ Hm) as [Hmb Hmo].
  assert (Hs : forall a, a < st_next (h_store h) -> st_get (st_alloc (h_store h) nd).1 a = st_get (h_store h) a).
  { intros a Ha. unfold st_get. cbn. rewrite lookup_insert_ne; [done | lia]. }
  split; cbn [with_store h_store h_tables].
  - by apply Hs.
  - intros e He. apply Hs. by eapply old_bound.
  - done.
  - intros a k Ha. unfold GetLabel in *. rewrite Hs; [done |]. apply (mi_fresh _ _ _ _ _ _ Hm). intros E. by rewrite E in Ha.
  - cbn. lia.
  - intros a Ha. cbn. destruct (decide (a = st_next (h_store h))) as [-> | Hne]; [lia |]. unfold st_get in Ha. cbn in Ha. rewrite lookup_insert_ne in Ha by done.
    apply (mi_fresh _ _ _ _ _ _ Hm) in Ha. lia.
Qed.

Lemma outside_refl h l old : map_inv h l old -> outside old h h.
Proof. intros Hm. split; [done | done | done | by intros a k | lia | apply Hm]. Qed.

Lemma Construct_outside h l old args : map_inv h l old -> outside old h (with_store (Construct wundef (h_store h) args).1 h).
Proof.
  intros Hm. unfold Construct, Tuple_New, AllocBlock. destruct h as [st tables]. destruct args as [| a [| b args]]; [by eapply outside_refl .. |].
  by apply (alloc_outside (mkHeap st tables) l old (NBlock TUPLE_LABEL false (block_args wundef (a :: b :: args)))).
Qed.

Lemma Iterator_Run_ok h l old e closure op args o : map_inv h l old -> e ∈ old -> GetNext (h_store h) e = Some o ->
  exists args' h', Iterator_Run wundef h e closure op [] args =
    Some (Call closure args', match o with Some n => [IteratorFrame n closure op] | None => [] end, h') /\ outside old h h'.
Proof.
  intros Hm He En. assert (Hkv : forall h', outside old h h' -> exists k v, GetKey (h_store h') e = Some k /\ GetValue (h_store h') e = Some v).
  { intros h' Ho. pose proof (outside_inv _ _ _ _ Hm Ho) as Hm'. destruct (mi_old _ _ _ _ _ _ Hm' e He) as (k & v & p & o' & Hn & Hk & _).
    destruct (node_args _ _ _ _ _ _ Hn) as (Ek & Ev & _). exists k, v. unfold GetKey, GetValue. by rewrite Ek. }
  unfold Iterator_Run. rewrite En. cbn [mbind option_bind]. pose proof (outside_refl _ _ _ Hm) as Hr. pose proof (Construct_outside _ _ _ args Hm) as Hc.
  destruct (Construct wundef (h_store h) args) as [st acc]. cbn [fst] in Hc.
  destruct (Hkv h Hr) as (k & v & Ek & Ev). destruct (Hkv _ Hc) as (k' & v' & Ek' & Ev'). cbn [with_store h_store] in Ek', Ev'.
  destruct op; rewrite ?Ek, ?Ev, ?Ek', ?Ev'; cbn [mbind option_bind]; eauto.
Qed.

Lemma step_iterating S n c visited vs c' : iterating S n c visited -> step c vs c' -> iterating S (Datatypes.S n) c' (visited ++ vs).
Proof.
  intros [(ls & Hm & Hlive) Hold Hcl Hfr Hp Hv Hs Hn] Hstep. destruct Hstep as [closure args fs h old args' h' old' Hu | args f fs h old out fs' h' ER]; cbn in *.
  - rewrite app_nil_r. destruct (uses_inv _ _ _ _ _ S Hu Hm Hold Hcl) as (l' & Hm' & Hold' & Hcl' & Hl' & _).
    split; cbn; try done; [| lia]. exists l'. split; [done |]. intros a Ha HaS. by apply Hlive; [apply Hl' |].
  - destruct Hfr as [? | (e & closure & op & [= -> ->])]; [done |]. cbn in ER. destruct (Hp e eq_refl) as [HeS Hev].
    destruct (GetNext_ok address m t _ _ _ _ Hm (Hold e HeS)) as (k & v & p & o & Hnode & En & Ho & Hle).
    destruct (Iterator_Run_ok _ _ _ _ closure op args o Hm (Hold e HeS) En) as (args1 & h1 & E1 & Hout). rewrite E1 in ER. injection ER as <- <- <-.
    assert (Hp' : pending (mkConf (Call closure args1) (match o with Some n => [IteratorFrame n closure op] | None => [] end) h1 old) = o) by (by destruct o).
    split; cbn [c_next c_frames c_heap c_old].
    + exists ls. split; [by eapply outside_inv |]. rewrite Hp'. intros a Ha HaS. rewrite elem_of_app, list_elem_of_singleton.
      destruct (Hlive a Ha HaS) as [| (e' & [= <-] & Hae)]; [by left; left |]. destruct (decide (a = e)) as [-> |]; [by left; right |]. right.
      apply list_elem_of_fmap in Ha as (x & -> & Hx). destruct (Hle x Hx) as (n1 & -> & ?); [lia |]. eauto.
    + done.
    + intros e1 k1 v1 p1 n1 He1 Hn1. eapply (Hcl e1); [done |]. eapply same_node; [| exact Hn1]. symmetry. apply (os_old _ _ _ Hout). by apply Hold.
    + destruct o; [right; eauto | by left].
    + rewrite Hp'. intros n1 ->. destruct (Ho n1 eq_refl) as [_ Hlt]. split; [by eapply Hcl |].
      intros a [Ha | ->%list_elem_of_singleton]%elem_of_app; [| done]. specialize (Hev a Ha). lia.
    + intros a [Ha | ->%list_elem_of_singleton]%elem_of_app; [by apply Hv | done].
    + by apply sorted_snoc.
    + rewrite length_app. cbn. lia.
Qed.

Lemma steps_iterating S n c vs c' : steps n c vs c' -> iterating S 0 c [] -> iterating S n c' vs.
Proof. induction 1 as [| n c v1 c1 v2 c2 _ IH Hstep]; [done |]. intros Hi. eapply step_iterating; eauto. Qed.

(** An iterator that is not finished goes on. *)
Lemma iterating_next S n c visited : iterating S n c visited -> finished c \/ exists vs c', step c vs c'.
Proof.
  intros [(ls & Hm & _) Hold _ Hfr Hp _ _ Hn]. destruct c as [out fs h old]. cbn in *. destruct out as [args | closure args | w]; [| | done].
  - destruct Hfr as [-> | (e & closure & op & ->)]; [left; split; cbn; eauto |]. right. destruct (Hp e eq_refl) as [HeS _].
    destruct (GetNext_ok address m t _ _ _ _ Hm (Hold e HeS)) as (k & v & p & o & _ & En & _).
    destruct (Iterator_Run_ok _ _ _ _ closure op args o Hm (Hold e HeS) En) as (args1 & h1 & E1 & _). eexists _, _. apply step_run. exact E1.
  - right. eexists _, _. apply (step_call _ _ _ _ _ []). apply rtc_refl.
Qed.

(** The start of an iteration. *)
Lemma start_iterating h l old closure op r : map_inv h l old ->
  iterating (addrs l) 0 (mkConf (Continue [r]) (match en_addr <$> head l with Some e => [IteratorFrame e closure op] | None => [] end) h old) [].
Proof.
  intros Hm. split; cbn.
  - exists l. split; [done |]. intros a Ha _. right. destruct l as [| x l]; [by apply not_elem_of_nil in Ha |]. exists (en_addr x). split; [done |].
    pose proof (mi_sorted _ _ _ _ _ _ Hm) as Hs. cbn in *. inversion Hs as [| ? ? _ Hall]; subst. rewrite Forall_forall in Hall.
    apply elem_of_cons in Ha as [-> | Ha]; [lia |]. specialize (Hall a Ha). lia.
  - by eapply addrs_old.
  - intros e k v p n (x & -> & Hx)%list_elem_of_fmap Hn. apply list_elem_of_split in Hx as (l1 & l2 & ->).
    pose proof (mi_list _ _ _ _ _ _ Hm) as [_ [Hnode _]]%dseg_app. destruct (node_inj _ _ _ _ _ _ _ _ _ _ Hn Hnode) as (_ & _ & _ & E).
    destruct l2 as [| y l2]; [done |]. cbn in E. injection E as ->. rewrite map_app. cbn. set_solver.
  - destruct l; cbn; eauto.
  - intros e He. destruct l as [| x l]; [done |]. cbn in He. injection He as <-. split; [by left |]. intros a Ha. by apply not_elem_of_nil in Ha.
  - intros a Ha. by apply not_elem_of_nil in Ha.
  - constructor.
  - done.
Qed.

(** Two descending lists, the first within the second. *)
Lemma sorted_sublist (k l : list Z) : StronglySorted Z.gt k -> StronglySorted Z.gt l -> (forall a, a ∈ k -> a ∈ l) -> k `sublist_of` l.
Proof.
  intros Hk Hl. revert k Hk. induction Hl as [| b l Hs IH Hb]; intros k Hk Hsub.
  - destruct k as [| a k]; [constructor |]. specialize (Hsub a ltac:(by left)). by apply not_elem_of_nil in Hsub.
  - rewrite Forall_forall in Hb. destruct Hk as [| a k Hk Ha]; [apply sublist_nil_l |]. rewrite Forall_forall in Ha.
    destruct (decide (a = b)) as [-> | Hne].
    + apply sublist_skip, IH; [done |]. intros c Hc. specialize (Hsub c ltac:(by right)). specialize (Ha c Hc). apply elem_of_cons in Hsub as [-> | ?]; [lia | done].
    + apply sublist_cons, IH; [constructor; [done | by apply Forall_forall] |].
      intros c Hc. assert (Hc' := Hsub c Hc). apply elem_of_cons in Hc' as [-> | ?]; [| done]. exfalso.
      apply elem_of_cons in Hc as [-> | Hc]; [done |]. specialize (Ha _ Hc). specialize (Hsub a ltac:(by left)). apply elem_of_cons in Hsub as [-> | Hin]; [lia |].
      specialize (Hb a Hin). lia.
Qed.
End Iter.
