(* ===== verification/ImpMapThm.v ===== *)
(** * Imperative maps: primitives with closures that do not touch the map

    Primitives are run to their end, with the frames they push and closures
    that compute [cb]; the map is then an association list, newest first. *)

From Stdlib Require Import Sorted.
From S2P Require Import Prelude Config HeaderOp PointerOp Block BaseMap AliceData ImpMap ImpMapInv ImpMapOps ImpMapIter.

(** ** The entries of a map *)

Section Entries.
Context {C : Type}.
Implicit Types (h : heap C).

Fixpoint follow (fuel : nat) (st : store C) (o : option Z) : option (list Z) :=
  match o with
  | None => Some []
  | Some e => match fuel with O => None | S fuel => o ← GetNext st e; r ← follow fuel st o; Some (e :: r) end
  end.

(** The addresses of the entries from the head on. *)
Definition Entries h (m : Z) : option (list Z) := n ← Map_Size h m; o ← GetHead h m; follow (Z.to_nat n) (h_store h) o.
End Entries.

(** ** Integers as words *)

Lemma IntToWord_valid `{Platform} v : MIN_VALID_INT <= v <= MAX_VALID_INT -> IntToWord v = WInt v.
Proof.
  intros Hv. unfold IntToWord, DecodeInt. change INTMASK with (2 ^ 1 - 1). rewrite land_low by lia. destruct (EncodeInt_shape v) as [x Hx].
  rewrite DirectDecode_EncodeInt by (by apply valid_int_bound). replace (EncodeInt v mod 2 ^ 1) with 1; [done |].
  rewrite Hx. change (2 ^ 1) with 2. Z.div_mod_to_equations. lia.
Qed.

(** The invalid integer becomes 0. *)
Lemma IntToWord_invalid `{Platform} : IntToWord INVALID_INT = WInt 0.
Proof.
  rewrite <- (IntToWord_valid 0) by done. unfold IntToWord. do 2 f_equal. rewrite !EncodeInt_arith, INVALID_INT_value. pose proof width_bounds.
  replace (2 * - 2 ^ (STORE_WORD_WIDTH - 1)) with (- 1 * 2 ^ STORE_WORD_WIDTH).
  - rewrite Z.mod_mul by (apply Z.pow_nonzero; lia). by rewrite Z.mul_0_r, Zmod_0_l.
  - replace STORE_WORD_WIDTH with (Z.succ (STORE_WORD_WIDTH - 1)) at 1 by lia. rewrite Z.pow_succ_r by lia. ring.
Qed.

(** ** Running primitives *)

Section Exec.
Context `{Platform} {C : Type} `{EntryKey C} (wundef : word) (address : Z -> Z) (cb : word -> list word -> word).
Implicit Types (h : heap C) (l : list (word * word)).

Fixpoint exec (fuel : nat) (out : outcome) (fs : list Frame) h : option (list word * heap C) :=
  match fuel with
  | O => None
  | S fuel =>
      match out with
      | Request _ => None
      | Call f args => exec fuel (Continue [cb f args]) fs h
      | Continue args =>
          match fs with
          | [] => Some (args, h)
          | f :: fs => r ← Run wundef h f fs args; let '(out, fs, h) := r in exec fuel out fs h
          end
      end
  end.

Inductive op :=
  | OInsertWith (f k v : word) | ORemoveWith (f k : word) | ORemoveAll | OLookup (k : word) | OIsEmpty | OSize
  | OApp (o : operation) (f : word) | OFold (o : operation) (f zero : word) | OFind (o : find_operation) (f : word) | OClone.

Inductive result := RWords (ws : list word) | ROption (o : option (list word)) | RRequest (w : word).

(** A primitive that begins with a request waits for the transient and is then
    run anew; otherwise it goes to its end and [k] reads what it returns. *)
Definition finish (fuel : nat) (m : Z) (r : option leave) (k : list word -> heap C -> option (result * (heap C * Z))) : option (result * (heap C * Z)) :=
  r ← r;
  match r with
  | (Request w, [], h) => Some (RRequest w, (h, m))
  | (out, fs, h) => x ← exec fuel out fs h; k x.1 x.2
  end.

(** NONE, or the components of what SOME holds. *)
Definition read_option (pair : bool) (h : heap C) (ws : list word) : option result :=
  match ws with
  | [WInt i] => if i =? 0 then Some (ROption None) else None
  | [WPtr a] =>
      w ← GetArg (h_store h) a 0;
      if pair then match w with WPtr b => k ← GetArg (h_store h) b 0; v ← GetArg (h_store h) b 1; Some (ROption (Some [k; v])) | _ => None end
      else Some (ROption (Some [w]))
  | _ => None
  end.

Definition run_op (fuel : nat) (s : heap C * Z) (o : op) : option (result * (heap C * Z)) :=
  let '(h, m) := s in
  let words r := finish fuel m r (fun ws h => Some (RWords ws, (h, m))) in
  let optional pair r := finish fuel m r (fun ws h => y ← read_option pair h ws; Some (y, (h, m))) in
  match o with
  | OInsertWith f k v => words (prim_insertWithi wundef address h f (WPtr m) k v)
  | ORemoveWith f k => words (prim_removeWith address h f (WPtr m) k)
  | ORemoveAll => words (prim_removeAll h (WPtr m))
  | OLookup k => optional false (prim_lookup wundef address h (WPtr m) k)
  | OIsEmpty => words (prim_isEmpty h (WPtr m))
  | OSize => words (prim_size h (WPtr m))
  | OApp o f => words (prim_app o h f (WPtr m))
  | OFold o f zero => words (prim_fold o h f zero (WPtr m))
  | OFind o f => optional (match o with find => false | findi => true end) (prim_find o h f (WPtr m))
  | OClone =>
      finish fuel m (prim_clone wundef address fuel h (WPtr m)) (fun ws h =>
        match ws with [WPtr m'] => Some (RWords [], (h, m')) | _ => None end)
  end.

(** ** The specification *)

Fixpoint assoc (k : word) l : option word :=
  match l with [] => None | (k', v) :: l => if decide (k = k') then Some v else assoc k l end.

Definition update (k v : word) l : list (word * word) := map (fun x => if decide (x.1 = k) then (k, v) else x) l.
Definition erase (k : word) l : list (word * word) := filter (fun x => x.1 <> k) l.

(** The arguments of a closure for an entry. *)
Definition call_args (o : operation) (kv : word * word) (acc : word) : list word :=
  match o with app => [kv.2] | appi => [kv.1; kv.2] | fold => [kv.2; acc] | foldi => [kv.1; kv.2; acc] end.
Definition visit_entries (o : operation) (f : word) l (acc : word) : word := foldl (fun acc kv => cb f (call_args o kv acc)) acc l.

Definition found_args (o : find_operation) (kv : word * word) : list word := match o with find => [kv.2] | findi => [kv.1; kv.2] end.

(** The first entry of which the closure says true; it must return a boolean. *)
Fixpoint search (o : find_operation) (f : word) l : option (option (list word)) :=
  match l with
  | [] => Some None
  | kv :: l =>
      match cb f (found_args o kv) with
      | WInt 0 => search o f l
      | WInt 1 => Some (Some (found_args o kv))
      | _ => None
      end
  end.

(** At most [map_cap] entries, and iterations of at most [fuel] steps. *)
Definition spec_op (fuel : nat) l (o : op) : option (result * list (word * word)) :=
  let enough := (2 * length l + 4 <=? fuel)%nat in
  match o with
  | OInsertWith f k v =>
      match assoc k l with
      | Some old => Some (RWords [WInt 0], update k (cb f [k; old; v]) l)
      | None => if zlen l <=? map_cap then Some (RWords [WInt 0], (k, v) :: l) else None
      end
  | ORemoveWith f k => match assoc k l with Some _ => Some (RWords [WInt 0], erase k l) | None => Some (RWords [cb f [k]], l) end
  | ORemoveAll => Some (RWords [WInt 0], [])
  | OLookup k => Some (ROption ((fun v => [v]) <$> assoc k l), l)
  | OIsEmpty => Some (RWords [bool_word (bool_decide (l = []))], l)
  | OSize => if zlen l <=? map_cap + 1 then Some (RWords [WInt (zlen l)], l) else None
  | OApp o f => if enough then Some (RWords [visit_entries o f l (WInt 0)], l) else None
  | OFold o f zero => if enough then Some (RWords [visit_entries o f l zero], l) else None
  | OFind o f => if enough then r ← search o f l; Some (ROption r, l) else None
  | OClone => if enough && (zlen l <=? map_cap) then Some (RWords [], reverse l) else None
  end.

Definition op_key (o : op) : option word :=
  match o with OInsertWith _ k _ | ORemoveWith _ k | OLookup k => Some k | _ => None end.

Definition set_key (k : word) (o : op) : op :=
  match o with OInsertWith f _ v => OInsertWith f k v | ORemoveWith f _ => ORemoveWith f k | OLookup _ => OLookup k | o => o end.

(** The key is what the primitive makes of its argument, or the transient
    that it requests; then the map is not touched. *)
Definition spec_step (st : store C) (fuel : nat) l (o : op) : option (result * list (word * word)) :=
  match op_key o with
  | None => spec_op fuel l o
  | Some k =>
      d ← declare_key st k;
      match d with Key k => spec_op fuel l (set_key k o) | Requested w => Some (RRequest w, l) end
  end.

Fixpoint run_ops {S} (f : S -> op -> option (result * S)) (s : S) (ops : list op) : option (list result * S) :=
  match ops with
  | [] => Some ([], s)
  | o :: ops => x ← f s o; y ← run_ops f x.2 ops; Some (x.1 :: y.1, y.2)
  end.
End Exec.

Section Refine.
Context `{Platform} {C : Type} `{EntryKeyLaws C} (wundef : word) (address : Z -> Z) (cb : word -> list word -> word).
#[local] Hint Extern 0 (MapKey word) => exact (key_words address) : typeclass_instances.
Implicit Types (h : heap C) (l : list ent).

Abbreviation addrs l := (map en_addr l).
Abbreviation map_inv := (map_inv address).

Lemma follow_ok m t h l1 l2 old fuel : map_inv m t h (l1 ++ l2) old -> (length l2 <= fuel)%nat ->
  follow fuel (h_store h) (en_addr <$> head l2) = Some (addrs l2).
Proof.
  revert l1 fuel. induction l2 as [| x l2 IH]; intros l1 fuel Hm Hf; [by destruct fuel |]. destruct fuel as [| fuel]; [cbn in Hf; lia |].
  cbn [head fmap option_fmap option_map follow map]. rewrite (GetNext_live address m t h l1 x l2 old Hm). cbn [mbind option_bind].
  rewrite (IH (l1 ++ [x])) by (rewrite <- ?app_assoc; cbn in *; (done || lia)). done.
Qed.

Lemma Entries_ok m t h l old : map_inv m t h l old -> Entries h m = Some (addrs l).
Proof.
  intros Hm. unfold Entries. rewrite (Map_Size_ok _ _ _ _ _ _ Hm), (GetHead_ok _ _ _ _ _ _ Hm). cbn [mbind option_bind].
  apply (follow_ok m t h [] l old); [done | unfold zlen; lia].
Qed.

(** ** A new map *)

Definition fresh h : Prop := forall a, st_get (h_store h) a <> None -> a < st_next (h_store h).

Lemma New_ok h : fresh h -> let m := st_next (h_store h) in
  exists h', New wundef h = Some (h', m) /\ map_inv m (m + 1) h' [] ∅ /\ labels_kept (h_store h) (h_store h') /\
    (forall a, a < m -> st_get (h_store h') a = st_get (h_store h) a) /\ (forall t, t <> m + 1 -> h_tables h' !! t = h_tables h !! t) /\
    st_next (h_store h') = m + 2.
Proof.
  intros Hf. cbn zeta. set (m := st_next (h_store h)). unfold New, AllocMutableBlock, block_args.
  change (zlen [wundef; wundef]) with 2. rewrite TranslateSize_small by (rewrite MAX_BLOCKSIZE_eq; lia). cbn [st_alloc].
  destruct (Map_New_ok (K := word) (V := word) MAP_LABEL initialSize) as (bm & -> & Hok & Hi & _); [rewrite MAX_BLOCKSIZE_eq; done |]. cbn [mbind option_bind].
  fold m. set (st1 := mkStore _ _). assert (G1 : forall a, st_get st1 a = if decide (a = m) then Some (NBlock TUPLE_LABEL true [wundef; wundef]) else st_get (h_store h) a).
  { intros a. unfold st_get, st1. cbn. destruct (decide (a = m)) as [-> |]; [by rewrite lookup_insert_eq | by rewrite lookup_insert_ne]. }
  change (st_next st1) with (m + 1). set (st1' := mkStore (m + 1 + 1) (st_nodes st1)). change (forall a, st_get st1' a = if decide (a = m) then Some (NBlock TUPLE_LABEL true [wundef; wundef]) else st_get (h_store h) a) in G1. assert (Hn1 : st_next st1' = m + 2) by (cbn; lia). clearbody st1'.
  assert (E1 : ReplaceArg st1' m HASHTABLE_POS (WPtr (m + 1)) = Some (st_set st1' m (NBlock TUPLE_LABEL true [WPtr (m + 1); wundef]))).
  { unfold ReplaceArg. by rewrite G1, decide_True. }
  rewrite E1. cbn [mbind option_bind]. set (st2 := st_set st1' m _). assert (E2 : ReplaceArg st2 m HEAD_POS (WInt 0) = Some (st_set st2 m (NBlock TUPLE_LABEL true [WPtr (m + 1); WInt 0]))).
  { unfold ReplaceArg, st2. by rewrite st_get_set, decide_True. }
  rewrite E2. cbn [mbind option_bind].
  set (st3 := st_set st2 m _).
  assert (G3 : forall a, st_get st3 a = if decide (a = m) then Some (NBlock TUPLE_LABEL true [WPtr (m + 1); WInt 0]) else st_get (h_store h) a).
  { intros a. unfold st3, st2. rewrite !st_get_set, G1. by destruct (decide (a = m)). }
  assert (Hm0 : st_get (h_store h) m = None).
  { destruct (st_get (h_store h) m) eqn:E; [| done]. assert (m < m); [| lia]. apply Hf. by rewrite E. }
  eexists. split; [reflexivity |]. assert (Hl : forall a, a < m -> st_get st3 a = st_get (h_store h) a) by (intros a Ha; rewrite G3, decide_False; [done | lia]).
  split; [| split; [| split; [done | split; [intros t Ht; by apply lookup_insert_ne | done]]]].
  - split; cbn [with_table with_store h_store h_tables]; try done.
    + by rewrite G3, decide_True.
    + exists bm. split; [by apply lookup_insert_eq |]. split; [done | by rewrite Hi].
    + constructor.
    + intros x Hx. by apply not_elem_of_nil in Hx.
    + split; [change (m < st_next st1'); lia | set_solver].
    + intros a Ha. change (a < st_next st1'). rewrite G3 in Ha. destruct (decide (a = m)) as [-> |]; [lia |]. apply Hf in Ha. fold m in Ha. lia.
  - intros a k Ha. cbn [with_table with_store h_store]. unfold GetLabel in *. rewrite Hl; [done |]. apply Hf. intros E. by rewrite E in Ha.
Qed.
(** ** Contents *)

Definition kv (x : ent) : word * word := (en_key x, en_value x).
Abbreviation contents l := (map kv l).

Lemma assoc_contents k l : assoc k (contents l) = en_value <$> find_key k l.
Proof. induction l as [| x l IH]; cbn; [done |]. by case_decide. Qed.

Lemma find_key_contents k l : find_key k l = None <-> k ∉ map fst (contents l).
Proof.
  rewrite find_key_None, map_map. cbn. split.
  - intros Hn (x & -> & Hx)%list_elem_of_fmap. by apply (Hn x).
  - intros Hn x Hx <-. apply Hn, list_elem_of_fmap. by exists x.
Qed.

Lemma NoDup_map_inj {A B} (f : A -> B) (xs : list A) x y : NoDup (map f xs) -> x ∈ xs -> y ∈ xs -> f x = f y -> x = y.
Proof.
  induction xs as [| z xs IH]; cbn; intros Hnd Hx Hy E; [by apply not_elem_of_nil in Hx |]. inversion Hnd as [| ? ? Hz Hnd']; subst.
  apply elem_of_cons in Hx as [-> | Hx], Hy as [-> | Hy]; [done | | | by apply IH]; exfalso; apply Hz; [rewrite E | rewrite <- E]; by apply list_elem_of_fmap_2.
Qed.

Lemma set_value_contents m t h l old x w : map_inv m t h l old -> x ∈ l -> contents (set_value (en_addr x) w l) = update (en_key x) w (contents l).
Proof.
  intros Hm Hx. destruct (inv_keys _ _ _ _ _ _ Hm) as [Hk Ha]. unfold set_value, update. rewrite !map_map. apply map_ext_in. intros y Hy%list_elem_of_In.
  cbn. destruct (decide (en_addr y = en_addr x)) as [E | Hne].
  - rewrite (NoDup_map_inj _ _ _ _ Ha Hy Hx E). by rewrite decide_True.
  - rewrite decide_False; [done |]. intros E. by rewrite (NoDup_map_inj _ _ _ _ Hk Hy Hx E) in Hne.
Qed.

Lemma erase_absent k l : find_key k l = None -> erase k (contents l) = contents l.
Proof.
  intros Hn. pose proof (proj1 (find_key_None _ _) Hn) as Hk. clear Hn. unfold erase. induction l as [| x l IH]; cbn [map]; [done |].
  rewrite filter_cons_True by (cbn; apply Hk; by left). f_equal. apply IH. intros y Hy. apply Hk. by right.
Qed.

Lemma erase_contents l1 x l2 : NoDup (map en_key (l1 ++ x :: l2)) -> erase (en_key x) (contents (l1 ++ x :: l2)) = contents (l1 ++ l2).
Proof.
  intros (E1 & E2 & _)%find_key_mid. unfold erase. rewrite !map_app, filter_app. cbn [map]. rewrite filter_cons_False by (cbn; tauto).
  f_equal; by apply erase_absent.
Qed.

(** ** Single operations *)

Lemma FromWord_ok m t h l old : map_inv m t h l old -> FromWord (h_store h) (WPtr m) = Some (Some m).
Proof.
  intros Hm. pose proof (mi_block _ _ _ _ _ _ Hm) as Hb. unfold FromWord, WordToBlock, deref, deref_loop.
  destruct (size _); rewrite Hb; cbn [mbind option_bind]; rewrite Hb; cbn [mbind option_bind]; unfold GetLabel, GetSize, GetArgs; rewrite Hb; done.
Qed.

Lemma declare_map_ok m t h l old k : map_inv m t h l old -> declare_map h (WPtr m) k = k m.
Proof. intros Hm. unfold declare_map. by rewrite (FromWord_ok _ _ _ _ _ Hm). Qed.

Lemma with_same h : with_store (h_store h) h = h.
Proof. by destruct h. Qed.

Lemma GetKey_ok m t h l old x : map_inv m t h l old -> x ∈ l -> GetKey (h_store h) (en_addr x) = Some (en_key x).
Proof.
  intros Hm Hx. destruct (mi_old _ _ _ _ _ _ Hm _ (mi_live _ _ _ _ _ _ Hm x Hx)) as (k & v & p & o & Hn & Hk & _).
  destruct (live_node _ _ _ _ _ _ x Hm Hx) as (p' & n' & Hn'). destruct (node_inj _ _ _ _ _ _ _ _ _ _ Hn Hn') as (-> & _).
  unfold GetKey. destruct (node_args _ _ _ _ _ _ Hn) as (-> & _). done.
Qed.

Lemma Iterator_Run_live m t h l1 x l2 old closure op acc : map_inv m t h (l1 ++ x :: l2) old ->
  Iterator_Run wundef h (en_addr x) closure op [] [acc] =
    Some (Call closure (call_args op (kv x) acc), match en_addr <$> head l2 with Some n => [IteratorFrame n closure op] | None => [] end, h).
Proof.
  intros Hm. assert (Hx : x ∈ l1 ++ x :: l2) by (apply elem_of_app; right; by left). unfold Iterator_Run.
  rewrite (GetNext_live _ _ _ _ _ _ _ _ Hm). cbn [mbind option_bind Construct]. rewrite (GetKey_ok _ _ _ _ _ _ Hm Hx), (GetValue_ok _ _ _ _ _ _ _ Hm Hx), with_same.
  by destruct op.
Qed.

Lemma exec_iterator m t h l1 l2 old closure op acc fuel : map_inv m t h (l1 ++ l2) old -> (2 * length l2 + 1 <= fuel)%nat ->
  exec wundef cb fuel (Continue [acc]) (match en_addr <$> head l2 with Some n => [IteratorFrame n closure op] | None => [] end) h =
    Some ([visit_entries cb op closure (contents l2) acc], h).
Proof.
  revert l1 acc fuel. induction l2 as [| x l2 IH]; intros l1 acc fuel Hm Hf; (destruct fuel as [| fuel]; [lia |]); [done |]. cbn [length] in Hf.
  destruct fuel as [| fuel]; [lia |]. cbn [head fmap option_fmap option_map exec Run]. rewrite (Iterator_Run_live _ _ _ _ _ _ _ closure op acc Hm).
  cbn [mbind option_bind]. apply (IH (l1 ++ [x])); [by rewrite <- app_assoc | lia].
Qed.
(** The blocks of [st0] are still there and none of them is the map's. *)
Definition kept st0 m h (old : gset Z) : Prop :=
  st_nodes st0 ⊆ st_nodes (h_store h) /\ st_get st0 m = None /\ forall e, e ∈ old -> st_get st0 e = None.

(** A map with its contents, and its table in the store. *)
Definition has st0 m t h l old : Prop := map_inv m t h l old /\ t < st_next (h_store h) /\ kept st0 m h old.

(** What an operation leaves. *)
Definition leaves st0 (m' : Z) h' (cl : list (word * word)) : Prop :=
  exists t l old, has st0 m' t h' l old /\ contents l = cl.

(** What was in the store remains. *)
Definition grown h h' : Prop := forall a, a < st_next (h_store h) -> st_get (h_store h') a = st_get (h_store h) a.

Lemma kept_grown st0 m t h l old h' : map_inv m t h l old -> kept st0 m h old -> grown h h' -> kept st0 m h' old.
Proof.
  intros Hm (Hsub & Hk) Hg. split; [| done]. apply map_subseteq_spec. intros a n Ea. apply (lookup_weaken _ _ _ _ Ea) in Hsub.
  rewrite <- Hsub. apply Hg, (mi_fresh _ _ _ _ _ _ Hm). unfold st_get. by rewrite Hsub.
Qed.

Lemma kept_change st0 m t h l old h' old' : map_inv m t h l old -> kept st0 m h old -> change m t old h h' ->
  old' ⊆ {[st_next (h_store h)]} ∪ old -> kept st0 m h' old'.
Proof.
  intros Hm (Hsub & Hk & Ho) [(Hf & _) _ _] Hold.
  assert (Hb : forall a, st_get st0 a <> None -> a < st_next (h_store h) /\ st_get (h_store h) a = st_get st0 a).
  { intros a Ha. destruct (st_get st0 a) as [n |] eqn:Ea; [| done]. apply (get_grow _ _ Hsub) in Ea. split; [| done]. apply (mi_fresh _ _ _ _ _ _ Hm). by rewrite Ea. }
  split; [| split; [done |]].
  - apply map_subseteq_spec. intros a n Ea. change (st_get st0 a = Some n) in Ea. destruct (Hb a) as [Hlt Eh]; [by rewrite Ea |].
    change (st_get (h_store h') a = Some n). rewrite Hf, Eh; [done | congruence | | done]. intros Hin. rewrite (Ho a Hin) in Ea. done.
  - intros e [->%elem_of_singleton | He]%Hold%elem_of_union; [| by apply Ho].
    destruct (st_get st0 (st_next (h_store h))) eqn:E; [| done]. destruct (Hb (st_next (h_store h))) as [? _]; [by rewrite E | lia].
Qed.

Lemma change_leaves st0 m t h h' l old l' old' : has st0 m t h l old -> map_inv m t h' l' old' -> change m t old h h' ->
  old' ⊆ {[st_next (h_store h)]} ∪ old -> leaves st0 m h' (contents l').
Proof.
  intros (Hm & Ht & Hk) Hm' Hc Hold. exists t, l', old'. split; [| done]. split; [done |].
  split; [destruct Hc as [(_ & _ & Hn) _ _]; lia | exact (kept_change _ _ _ _ _ _ _ _ Hm Hk Hc Hold)].
Qed.

Lemma outside_leaves st0 m t h h' l old : has st0 m t h l old -> outside m t old h h' -> grown h h' -> leaves st0 m h' (contents l).
Proof.
  intros (Hm & Ht & Hk) Ho Hg. exists t, l, old. split; [| done]. split; [by eapply outside_inv |].
  split; [pose proof (os_next _ _ _ _ _ Ho); lia | by eapply kept_grown].
Qed.

Lemma leaves_same st0 m t h l old : has st0 m t h l old -> leaves st0 m h (contents l).
Proof. intros Hm. by exists t, l, old. Qed.

Lemma with_key_ok h k k' (f : word -> option leave) : declare_key (h_store h) k = Some (Key k') -> with_key h k f = f k'.
Proof. intros E. unfold with_key. by rewrite E. Qed.

Lemma insertWith_runs st0 m t h l old f k k' v fuel cl r :
  has st0 m t h l old -> declare_key (h_store h) k = Some (Key k') -> (4 <= fuel)%nat ->
  spec_op cb fuel (contents l) (OInsertWith f k' v) = Some (r, cl) ->
  exists h', run_op wundef address cb fuel (h, m) (OInsertWith f k v) = Some (r, (h', m)) /\ leaves st0 m h' cl.
Proof.
  intros Hh Hk Hf E. destruct (id Hh) as (Hm & Ht & Hkp). do 4 (destruct fuel as [| fuel]; [lia |]). unfold run_op, finish, prim_insertWithi. rewrite (declare_map_ok _ _ _ _ _ _ Hm), (with_key_ok _ _ k') by done.
  rewrite (Member_ok _ _ _ _ _ _ _ Hm). cbn [mbind option_bind]. unfold spec_op in E. rewrite assoc_contents in E.
  destruct (find_key k' l) as [x |] eqn:Ef; cbn [fmap option_fmap option_map] in E.
  - injection E as <- <-. rewrite (LookupEntry_ok _ _ _ _ _ _ _ _ Hm Ef). apply find_key_Some in Ef as [Hx <-]. cbn [mbind option_bind].
    rewrite (GetValue_ok _ _ _ _ _ _ _ Hm Hx). cbn [mbind option_bind exec Run Insert_Run Construct].
    destruct (SetValue_inv _ _ _ _ _ _ (en_addr x) (cb f [en_key x; en_value x; v]) Hm (mi_live _ _ _ _ _ _ Hm x Hx)) as (st & -> & Hm' & Hc).
    cbn [mbind option_bind fst snd]. eexists. split; [reflexivity |]. rewrite <- (set_value_contents _ _ _ _ _ _ _ Hm Hx).
    eapply change_leaves; [exact Hh | done | done | set_solver].
  - destruct (Z.leb_spec (zlen (contents l)) map_cap) as [Hcap |]; [| done]. injection E as <- <-.
    destruct (Insert_ok wundef address m t h l old k' v Hm Ef) as (h' & -> & Hm' & Hc); [by eapply declared_view | unfold zlen in *; by rewrite length_map in Hcap |].
    cbn [mbind option_bind return_ exec fst snd]. exists h'. split; [done |]. eapply (change_leaves _ _ _ _ _ _ _ (Ent _ k' v :: l)); [exact Hh | done | done | set_solver].
Qed.

Lemma removeWith_runs st0 m t h l old f k k' fuel cl r :
  has st0 m t h l old -> declare_key (h_store h) k = Some (Key k') -> (4 <= fuel)%nat ->
  spec_op cb fuel (contents l) (ORemoveWith f k') = Some (r, cl) ->
  exists h', run_op wundef address cb fuel (h, m) (ORemoveWith f k) = Some (r, (h', m)) /\ leaves st0 m h' cl.
Proof.
  intros Hh Hk Hf E. destruct (id Hh) as (Hm & Ht & Hkp). do 4 (destruct fuel as [| fuel]; [lia |]). unfold run_op, finish, prim_removeWith. rewrite (declare_map_ok _ _ _ _ _ _ Hm), (with_key_ok _ _ k') by done.
  rewrite (Member_ok _ _ _ _ _ _ _ Hm). cbn [mbind option_bind]. unfold spec_op in E. rewrite assoc_contents in E.
  destruct (find_key k' l) as [x |] eqn:Ef; cbn [fmap option_fmap option_map] in E; injection E as <- <-.
  - apply find_key_Some in Ef as [(l1 & l2 & ->)%list_elem_of_split <-]. destruct (Remove_key_ok _ _ _ _ _ _ _ _ Hm) as (h' & -> & Hm' & Hc).
    cbn [mbind option_bind return_ exec fst snd]. exists h'. split; [done |]. rewrite erase_contents by (by apply (inv_keys _ _ _ _ _ _ Hm)).
    eapply change_leaves; [exact Hh | done | done | set_solver].
  - exists h. split; [done |]. by eapply leaves_same.
Qed.

(** ** Options as results *)

Lemma replace_outside m t h l old a lb mu args i w args' :
  map_inv m t h l old -> st_get (h_store h) a = Some (NBlock lb mu args) -> aset args i w = Some args' -> a <> m -> a ∉ old ->
  outside m t old h (with_store (st_set (h_store h) a (NBlock lb mu args')) h).
Proof.
  intros Hm Ea Es Ham Hao. split; cbn [with_store h_store h_tables st_next st_set].
  - by rewrite st_get_set, decide_False.
  - intros e He. rewrite st_get_set, decide_False; [done | congruence].
  - done.
  - intros b k Hb. unfold GetLabel in *. rewrite st_get_set. destruct (decide (b = a)) as [-> |]; [| done]. rewrite Ea in Hb. done.
  - lia.
  - intros b Hb. rewrite st_get_set in Hb. destruct (decide (b = a)) as [-> |]; [| by apply (mi_fresh _ _ _ _ _ _ Hm)]. apply (mi_fresh _ _ _ _ _ _ Hm). by rewrite Ea.
Qed.

Lemma outside_trans m t old h1 h2 h3 : outside m t old h1 h2 -> outside m t old h2 h3 -> outside m t old h1 h3.
Proof.
  intros [A1 A2 A3 A4 A5 A6] [B1 B2 B3 B4 B5 B6]. split; [congruence | | congruence | | lia | done].
  - intros e He. by rewrite B2, A2.
  - intros a k Ha. by apply B4, A4.
Qed.

(** SOME of a word. *)
Lemma some_word_ok m t h l old w : map_inv m t h l old -> exists st a, some_word wundef (h_store h) w = Some (st, WPtr a) /\
  outside m t old h (with_store st h) /\ grown h (with_store st h) /\ GetArg st a 0 = Some w.
Proof.
  intros Hm. unfold some_word, TagVal_New, AllocBlock. change (Alice.TagToLabel 1) with (Some (Alice.MIN_TAG + 1)). cbn [mbind option_bind fst snd].
  eexists _, _. split; [reflexivity |]. split; [by eapply alloc_outside |].
  split; [intros a Ha; unfold st_get; cbn; rewrite lookup_insert_ne by lia; done |]. unfold GetArg, GetArgs, st_get. cbn. by rewrite lookup_insert_eq.
Qed.

Lemma get_allocated st (nd : AliceData.node C) : st_get (st_alloc st nd).1 (st_next st) = Some nd.
Proof. unfold st_get. cbn. by rewrite lookup_insert_eq. Qed.

(** SOME of what [find] or [findi] has found. *)
Lemma found_ok m t h l old x o : map_inv m t h l old -> x ∈ l -> exists st a, found wundef (h_store h) (en_addr x) o = Some (st, WPtr a) /\
  outside m t old h (with_store st h) /\ grown h (with_store st h) /\
  read_option (match o with find => false | findi => true end) (with_store st h) [WPtr a] = Some (ROption (Some (found_args o (kv x)))).
Proof.
  intros Hm Hx. unfold found, TagVal_New, AllocBlock. change (Alice.TagToLabel 1) with (Some (Alice.MIN_TAG + 1)). cbn [mbind option_bind].
  set (nd := NBlock _ _ _). set (a := st_next (h_store h)). destruct (st_alloc (h_store h) nd) as [st1 a1] eqn:E1.
  assert (Ha : a1 = a) by (by injection E1 as _ <-). subst a1. assert (Est : st1 = (st_alloc (h_store h) nd).1) by (by rewrite E1). clear E1.
  destruct (mi_map _ _ _ _ _ _ Hm) as [Hmb Hmo]. assert (Ham : a <> m) by (unfold a; lia).
  assert (Hao : a ∉ old) by (intros Hin; pose proof (old_bound _ _ _ _ _ _ _ Hm Hin); unfold a in *; lia).
  assert (Ho1 : outside m t old h (with_store st1 h)) by (rewrite Est; by eapply alloc_outside).
  assert (Hg1 : forall b, b < st_next (h_store h) -> st_get st1 b = st_get (h_store h) b).
  { intros b Hb. rewrite Est. unfold st_get. cbn. by rewrite lookup_insert_ne by lia. }
  pose proof (outside_inv _ _ _ _ _ _ _ Hm Ho1) as Hm1. pose proof (GetKey_ok _ _ _ _ _ _ Hm1 Hx) as Ek. pose proof (GetValue_ok _ _ _ _ _ _ _ Hm1 Hx) as Ev.
  cbn [with_store h_store] in Ek, Ev. assert (E1 : st_get st1 a = Some nd) by (rewrite Est; apply get_allocated).
  assert (Hset : forall w, aset (block_args wundef [wundef]) 0 w = Some [w]).
  { intros w. unfold block_args. change (zlen [wundef]) with 1. change (zlen [w]) with 1. by rewrite TranslateSize_small by (rewrite MAX_BLOCKSIZE_eq; lia). }
  assert (Hread : forall w, GetArg (st_set st1 a (NBlock (Alice.MIN_TAG + 1) false [w])) a 0 = Some w).
  { intros w. unfold GetArg, GetArgs. by rewrite st_get_set, decide_True. }
  destruct o; rewrite ?Ek, ?Ev; cbn [mbind option_bind].
  - unfold ReplaceArg. rewrite E1. cbn [mbind option_bind nd]. rewrite Hset. cbn [mbind option_bind]. eexists _, a. split; [reflexivity |]. split.
    + eapply outside_trans; [exact Ho1 |]. eapply (replace_outside _ _ (with_store st1 h)); [exact Hm1 | exact E1 | apply Hset | done | done].
    + split; [intros b Hb; cbn [with_store h_store]; rewrite st_get_set, decide_False by (unfold a; lia); by apply Hg1 |]. cbn [read_option with_store h_store]. by rewrite Hread.
  - unfold Tuple_New, AllocBlock. set (nd2 := NBlock TUPLE_LABEL _ _). destruct (st_alloc st1 nd2) as [st2 b] eqn:E2.
    assert (Hb : b = st_next st1) by (by injection E2 as _ <-). assert (Est2 : st2 = (st_alloc st1 nd2).1) by (by rewrite E2). clear E2.
    assert (Ho2 : outside m t old (with_store st1 h) (with_store st2 h)) by (rewrite Est2; by eapply (alloc_outside address m t (with_store st1 h))).
    assert (Hab : a <> b) by (rewrite Hb, Est; unfold a; cbn; lia).
    assert (E3 : st_get st2 a = Some nd) by (rewrite Est2; unfold st_get; cbn; rewrite lookup_insert_ne by congruence; exact E1).
    assert (E4 : st_get st2 b = Some nd2) by (rewrite Est2, Hb; apply get_allocated).
    unfold ReplaceArg. rewrite E3. cbn [mbind option_bind nd]. rewrite Hset. cbn [mbind option_bind]. eexists _, a. split; [reflexivity |]. split.
    + eapply outside_trans; [exact Ho1 |]. eapply outside_trans; [exact Ho2 |]. eapply (replace_outside _ _ (with_store st2 h)); [by eapply outside_inv | exact E3 | apply Hset | done | done].
    + split.
      { intros c Hc. cbn [with_store h_store]. rewrite st_get_set, decide_False by (unfold a; lia). rewrite Est2. unfold st_get. cbn.
        rewrite lookup_insert_ne by (rewrite Est; cbn; lia). by apply Hg1. }
      assert (Hr2 : GetArg (st_set st2 a (NBlock (Alice.MIN_TAG + 1) false [WPtr b])) a 0 = Some (WPtr b)).
      { unfold GetArg, GetArgs. by rewrite st_get_set, decide_True. }
      assert (Hp : forall i, GetArg (st_set st2 a (NBlock (Alice.MIN_TAG + 1) false [WPtr b])) b i = aget (block_args wundef [en_key x; en_value x]) i).
      { intros i. unfold GetArg, GetArgs. by rewrite st_get_set, decide_False, E4 by done. }
      cbn [read_option with_store h_store]. rewrite Hr2. cbn [mbind option_bind]. by rewrite !Hp.
Qed.
Lemma lookup_runs st0 m t h l old k k' fuel cl r :
  has st0 m t h l old -> declare_key (h_store h) k = Some (Key k') -> (4 <= fuel)%nat -> spec_op cb fuel (contents l) (OLookup k') = Some (r, cl) ->
  exists h', run_op wundef address cb fuel (h, m) (OLookup k) = Some (r, (h', m)) /\ leaves st0 m h' cl.
Proof.
  intros Hh Hk Hf E. destruct (id Hh) as (Hm & Ht & Hkp). destruct fuel as [| fuel]; [lia |]. cbn [spec_op] in E. rewrite assoc_contents in E. injection E as <- <-.
  unfold run_op, finish, prim_lookup. rewrite (declare_map_ok _ _ _ _ _ _ Hm), (with_key_ok _ _ k') by done. unfold Lookup.
  rewrite (Member_ok _ _ _ _ _ _ _ Hm). cbn [mbind option_bind]. destruct (find_key k' l) as [x |] eqn:Ef; cbn [fmap option_fmap option_map].
  - rewrite (LookupEntry_ok _ _ _ _ _ _ _ _ Hm Ef). apply find_key_Some in Ef as [Hx _]. cbn [mbind option_bind].
    rewrite (GetValue_ok _ _ _ _ _ _ _ Hm Hx). cbn [mbind option_bind]. destruct (some_word_ok _ _ _ _ _ (en_value x) Hm) as (st & a & -> & Ho & Hg & Ea).
    cbn [mbind option_bind return_ exec fst snd read_option with_store h_store]. rewrite Ea. cbn [mbind option_bind fst snd].
    eexists. split; [reflexivity |]. by eapply outside_leaves.
  - cbn. exists h. split; [done |]. by eapply leaves_same.
Qed.

Lemma WordToInt_int (st : store C) i : WordToInt st (WInt i) = Some (Some i).
Proof. unfold WordToInt, deref. by destruct (size _). Qed.

Lemma find_args_ok m t h l old x o : map_inv m t h l old -> x ∈ l -> find_args (h_store h) (en_addr x) o = Some (found_args o (kv x)).
Proof.
  intros Hm Hx. unfold find_args. rewrite (GetValue_ok _ _ _ _ _ _ _ Hm Hx), (GetKey_ok _ _ _ _ _ _ Hm Hx). by destruct o.
Qed.

Lemma elem_mid (l1 : list ent) x l2 : x ∈ l1 ++ x :: l2.
Proof. apply elem_of_app. right. by left. Qed.

Lemma exec_find m t h l1 x l2 old f o r fuel : map_inv m t h (l1 ++ x :: l2) old -> (2 * length l2 + 4 <= fuel)%nat ->
  search cb o f (contents (x :: l2)) = Some r ->
  exists ws h', exec wundef cb fuel (Call f (found_args o (kv x))) [FindFrame (en_addr x) f o] h = Some (ws, h') /\ outside m t old h h' /\ grown h h' /\
    read_option (match o with find => false | findi => true end) h' ws = Some (ROption r).
Proof.
  revert l1 x fuel. induction l2 as [| y l2 IH]; intros l1 x fuel Hm Hf E; do 3 (destruct fuel as [| fuel]; [lia |]); cbn [length] in Hf;
    cbn [exec Run Find_Run]; cbn [map search] in E;
    destruct (cb f (found_args o (kv x))) as [i | a]; [| done | | done]; rewrite WordToInt_int; cbn [mbind option_bind];
    rewrite (GetNext_live _ _ _ _ _ _ _ _ Hm); destruct i as [| [] |]; try done; cbn [Z.eqb Pos.eqb mbind option_bind head fmap option_fmap option_map].
  - injection E as <-. eexists _, h. split; [reflexivity |]. split; [by eapply outside_refl |]. done.
  - injection E as <-. destruct (found_ok _ _ _ _ _ _ o Hm (elem_mid _ _ _)) as (st & a & -> & Ho & Hg & Er). cbn [mbind option_bind fst snd exec]. eauto 6.
  - assert (Hm' : map_inv m t h ((l1 ++ [x]) ++ y :: l2) old) by (by rewrite <- app_assoc).
    rewrite (find_args_ok _ _ _ _ _ _ o Hm') by (apply elem_of_app; right; by left). cbn [mbind option_bind]. apply (IH _ y (S fuel) Hm'); [lia | done].
  - injection E as <-. destruct (found_ok _ _ _ _ _ _ o Hm (elem_mid _ _ _)) as (st & a & -> & Ho & Hg & Er). cbn [mbind option_bind fst snd exec]. eauto 6.
Qed.

Lemma find_runs st0 m t h l old f o fuel cl r :
  has st0 m t h l old -> (4 <= fuel)%nat -> spec_op cb fuel (contents l) (OFind o f) = Some (r, cl) ->
  exists h', run_op wundef address cb fuel (h, m) (OFind o f) = Some (r, (h', m)) /\ leaves st0 m h' cl.
Proof.
  intros Hh Hf E. destruct (id Hh) as (Hm & Ht & Hkp). unfold run_op, finish, prim_find. rewrite (declare_map_ok _ _ _ _ _ _ Hm), (GetHead_ok _ _ _ _ _ _ Hm). cbn [mbind option_bind].
  unfold spec_op in E. rewrite length_map in E. destruct (Nat.leb_spec (2 * length l + 4) fuel) as [Hl |]; [| done].
  destruct (search cb o f (contents l)) as [r' |] eqn:Es; [| done]. cbn in E. injection E as <- <-.
  destruct l as [| x l]; cbn [head fmap option_fmap option_map].
  - cbn in Es. injection Es as <-. destruct fuel; [lia |]. exists h. split; [by destruct o |]. by eapply (leaves_same st0 m t h []).
  - rewrite (find_args_ok _ _ _ _ _ x o Hm) by (by left). cbn [mbind option_bind].
    destruct (exec_find m t h [] x l old f o r' fuel Hm) as (ws & h' & E' & Ho & Hg & Er); [cbn in Hl; lia | done |]. rewrite E'. cbn [mbind option_bind fst snd]. rewrite Er.
    exists h'. split; [by destruct o |]. by eapply outside_leaves.
Qed.

(** ** Cloning *)

(** Two maps that share nothing. *)
Definition apart (m t : Z) (old : gset Z) (m2 t2 : Z) (old2 : gset Z) : Prop := (m <> m2) /\ (t <> t2) /\ (m ∉ old2) /\ (m2 ∉ old) /\ (old ## old2).

Lemma change_outside m t h l old m2 t2 l2 old2 h' l2' old2' :
  map_inv m t h l old -> map_inv m2 t2 h' l2' old2' -> change m2 t2 old2 h h' -> apart m t old m2 t2 old2 -> outside m t old h h'.
Proof.
  intros Hm Hm2 [(Hf & Ht & Hn) _ Hl] (Hne & Hte & H1' & H2' & Hd). split; [| | by apply Ht | done | done | apply Hm2].
  - apply Hf; [done | done | apply Hm].
  - intros e He. apply Hf; [congruence | set_solver | by eapply old_bound].
Qed.

Lemma clone_loop_ok st0 m t h l1 l2 old m2 t2 ln old2 fuel :
  map_inv m t h (l1 ++ l2) old -> map_inv m2 t2 h ln old2 -> kept st0 m2 h old2 -> apart m t old m2 t2 old2 -> contents ln = reverse (contents l1) ->
  (length l2 <= fuel)%nat -> zlen (l1 ++ l2) <= map_cap ->
  exists h' ln' old2', clone_loop wundef address fuel h m2 (en_addr <$> head l2) = Some h' /\ map_inv m2 t2 h' ln' old2' /\
    contents ln' = reverse (contents (l1 ++ l2)) /\ kept st0 m2 h' old2' /\ st_next (h_store h) <= st_next (h_store h').
Proof.
  revert h l1 ln old2 fuel. induction l2 as [| x l2 IH]; intros h l1 ln old2 fuel Hm Hm2 Hkp Hap Hln Hf Hcap.
  - rewrite app_nil_r. exists h, ln, old2. split; [by destruct fuel |]. split; [done |]. split; [done |]. split; [done | lia].
  - destruct fuel as [| fuel]; [cbn in Hf; lia |]. cbn [head fmap option_fmap option_map clone_loop]. assert (Hx : x ∈ l1 ++ x :: l2) by (apply elem_of_app; right; by left).
    rewrite (GetKey_ok _ _ _ _ _ _ Hm Hx), (GetValue_ok _ _ _ _ _ _ _ Hm Hx). cbn [mbind option_bind].
    destruct (inv_keys _ _ _ _ _ _ Hm) as [Hk _]. pose proof (find_key_mid _ _ _ Hk) as (Hf1 & _ & _).
    assert (Hfn : find_key (en_key x) ln = None).
    { apply find_key_contents. rewrite Hln. intros (y & Ey & Hy)%list_elem_of_fmap. rewrite elem_of_reverse in Hy. apply find_key_contents in Hf1. apply Hf1. rewrite Ey. apply list_elem_of_fmap. by exists y. }
    assert (Hzl : zlen ln <= map_cap).
    { assert (E : zlen ln = zlen l1) by (apply (f_equal length) in Hln; rewrite length_reverse, !length_map in Hln; unfold zlen; lia).
      rewrite E. unfold zlen in *. rewrite length_app in Hcap. lia. }
    destruct (mi_old _ _ _ _ _ _ Hm _ (mi_live _ _ _ _ _ _ Hm x Hx)) as (k & v & p & o & Hn & Hkv & _).
    destruct (live_node _ _ _ _ _ _ x Hm Hx) as (p' & n' & Hn'). destruct (node_inj _ _ _ _ _ _ _ _ _ _ Hn Hn') as (-> & _).
    destruct (Insert_ok wundef address m2 t2 h ln old2 (en_key x) (en_value x) Hm2 Hfn Hkv Hzl) as (h1 & -> & Hm2' & Hc). cbn [mbind option_bind].
    assert (Ho : outside m t old h h1) by (by eapply change_outside). pose proof (outside_inv _ _ _ _ _ _ _ Hm Ho) as Hm'.
    rewrite (GetNext_live _ _ _ _ _ _ _ _ Hm'). cbn [mbind option_bind].
    assert (Hm1 : map_inv m t h1 ((l1 ++ [x]) ++ l2) old) by (by rewrite <- app_assoc).
    pose proof (kept_change _ _ _ _ _ _ _ _ Hm2 Hkp Hc ltac:(done)) as Hkp'.
    destruct (IH h1 (l1 ++ [x]) _ _ fuel Hm1 Hm2' Hkp') as (h' & ln' & old2' & -> & Hm2'' & Hln' & Hl' & Hn1).
    + destruct Hap as (A1 & A2 & A3 & A4 & A5). destruct (mi_map _ _ _ _ _ _ Hm) as [Hmb _].
      assert (Hnew : st_next (h_store h) ∉ old) by (intros Hin; pose proof (old_bound _ _ _ _ _ _ _ Hm Hin); lia).
      split; [done |]. split; [done |]. split; [| split; [done | set_solver]]. rewrite elem_of_union, elem_of_singleton. intros [-> |]; [lia | done].
    + cbn [map]. rewrite Hln, map_app. cbn [map]. by rewrite reverse_snoc.
    + cbn in Hf. lia.
    + by rewrite <- app_assoc.
    + exists h', ln', old2'. split; [done |]. split; [done |]. rewrite <- app_assoc in Hln'. split; [done |]. split; [done |]. pose proof (os_next _ _ _ _ _ Ho). lia.
Qed.

Lemma clone_runs st0 m t h l old fuel cl r :
  has st0 m t h l old -> (4 <= fuel)%nat -> spec_op cb fuel (contents l) OClone = Some (r, cl) ->
  exists h' m', run_op wundef address cb fuel (h, m) OClone = Some (r, (h', m')) /\ leaves st0 m' h' cl.
Proof.
  intros Hh Hf E. destruct (id Hh) as (Hm & Ht & Hkp). cbn [spec_op] in E. rewrite length_map in E. destruct (Nat.leb_spec (2 * length l + 4) fuel) as [Hl |]; [| done]. cbn [andb] in E.
  destruct (Z.leb_spec (zlen (contents l)) map_cap) as [Hcap |]; [| done]. injection E as <- <-.
  cbn [run_op]. unfold finish, prim_clone. rewrite (declare_map_ok _ _ _ _ _ _ Hm).
  destruct (New_ok h (mi_fresh _ _ _ _ _ _ Hm)) as (h1 & -> & Hm2 & Hlk & Hs & Hts & Hn). set (m2 := st_next (h_store h)) in *. cbn [mbind option_bind fst snd].
  destruct (mi_map _ _ _ _ _ _ Hm) as [Hmb Hmo]. assert (Hm2o : m2 ∉ old) by (intros Hin; pose proof (old_bound _ _ _ _ _ _ _ Hm Hin); unfold m2 in *; lia).
  assert (Ho : outside m t old h h1).
  { split; [by apply Hs | intros e He; apply Hs; by eapply old_bound | apply Hts; unfold m2; lia | done | unfold m2 in *; lia | apply Hm2]. }
  pose proof (outside_inv _ _ _ _ _ _ _ Hm Ho) as Hm1. rewrite (GetHead_ok _ _ _ _ _ _ Hm1). cbn [mbind option_bind].
  assert (Hk1 : kept st0 m2 h1 ∅).
  { destruct (kept_grown st0 m t h l old h1 Hm Hkp Hs) as (Hsub & _ & _). split; [done |]. split; [| set_solver].
    destruct (st_get st0 m2) eqn:E0; [| done]. apply (get_grow _ _ (proj1 Hkp)) in E0.
    assert (m2 < m2); [| lia]. apply (mi_fresh _ _ _ _ _ _ Hm). by rewrite E0. }
  destruct (clone_loop_ok st0 m t h1 [] l old m2 (m2 + 1) [] ∅ fuel Hm1 Hm2 Hk1) as (h' & ln' & old2' & -> & Hm2' & Hln' & Hkp' & Hnx').
  - split; [unfold m2; lia |]. split; [unfold m2; lia |]. split; [set_solver | split; [done | set_solver]].
  - done.
  - lia.
  - unfold zlen in *. by rewrite length_map in Hcap.
  - cbn [mbind option_bind return_]. destruct fuel as [| fuel]; [lia |]. cbn [exec mbind option_bind fst snd]. exists h', m2. split; [done |].
    cbn [Datatypes.app] in Hln'. rewrite <- Hln'. exists (m2 + 1), ln', old2'. split; [| done]. split; [done |]. split; [lia | done].
Qed.
(** ** Every operation *)

Lemma iterate_runs st0 m t h l old op f acc fuel cl r : has st0 m t h l old ->
  (if (2 * length (contents l) + 4 <=? fuel)%nat then Some (RWords [visit_entries cb op f (contents l) acc], contents l) else None) = Some (r, cl) ->
  finish wundef cb fuel m (Some (Continue [acc], match en_addr <$> head l with Some e => [IteratorFrame e f op] | None => [] end, h))
    (fun ws h => Some (RWords ws, (h, m))) = Some (r, (h, m)) /\ leaves st0 m h cl.
Proof.
  intros Hh E. rewrite length_map in E. destruct (Nat.leb_spec (2 * length l + 4) fuel) as [Hl |]; [| done]. injection E as <- <-.
  unfold finish. cbn [mbind option_bind]. rewrite (exec_iterator m t h [] l old) by (apply Hh || lia). cbn [mbind option_bind fst snd].
  split; [done |]. by eapply leaves_same.
Qed.

(** Operations without a key. *)
Lemma run_unkeyed st0 m t h l old o fuel cl r :
  has st0 m t h l old -> op_key o = None -> (4 <= fuel)%nat -> spec_op cb fuel (contents l) o = Some (r, cl) ->
  exists h' m', run_op wundef address cb fuel (h, m) o = Some (r, (h', m')) /\ leaves st0 m' h' cl.
Proof.
  intros Hh Ek Hf E. destruct (id Hh) as (Hm & Ht & Hkp).
  destruct o as [f k v | f k | | k | | | o f | o f zero | o f |]; try done.
  - destruct (RemoveAll_ok _ _ _ _ _ _ Hm) as (h' & E' & Hm' & Hc). exists h', m. injection E as <- <-. split; [| eapply (change_leaves _ _ _ _ _ _ _ []); [exact Hh | done | done | set_solver]].
    destruct fuel; [lia |]. unfold run_op, finish, prim_removeAll. rewrite (declare_map_ok _ _ _ _ _ _ Hm), E'. done.
  - destruct (GetHashTable_ok _ _ _ _ _ _ Hm) as (bm & Eg & Et & Hb). destruct (holds_facts _ _ Hb) as (_ & _ & Hc & _).
    exists h, m. injection E as <- <-. split; [| by eapply leaves_same]. destruct fuel; [lia |].
    unfold run_op, finish, prim_isEmpty. rewrite (declare_map_ok _ _ _ _ _ _ Hm). unfold IsEmpty, table. rewrite Eg. cbn [mbind option_bind]. rewrite Et.
    cbn [mbind option_bind return_ exec fst snd]. unfold Map_IsEmpty, GetCounter. rewrite Hc. do 6 f_equal. unfold table_nodes, zlen. rewrite length_map. by destruct l.
  - cbn [spec_op] in E. destruct (Z.leb_spec (zlen (contents l)) (map_cap + 1)) as [Hcap |]; [| done]. injection E as <- <-. exists h, m.
    split; [| by eapply leaves_same]. destruct fuel; [lia |]. unfold run_op, finish, prim_size. rewrite (declare_map_ok _ _ _ _ _ _ Hm), (Map_Size_ok _ _ _ _ _ _ Hm).
    cbn [mbind option_bind return_ exec fst snd]. assert (Hz : zlen (contents l) = zlen l) by (unfold zlen; by rewrite length_map). rewrite Hz in *.
    rewrite IntToWord_valid; [done |]. pose proof (zlen_nonneg l). change MIN_VALID_INT with (- 2 ^ 30). change MAX_VALID_INT with (2 ^ 30 - 1). unfold map_cap in *. lia.
  - exists h, m. cbn [run_op]. unfold prim_app. rewrite (declare_map_ok _ _ _ _ _ _ Hm), (GetHead_ok _ _ _ _ _ _ Hm). cbn [mbind option_bind]. by eapply iterate_runs.
  - exists h, m. cbn [run_op]. unfold prim_fold. rewrite (declare_map_ok _ _ _ _ _ _ Hm), (GetHead_ok _ _ _ _ _ _ Hm). cbn [mbind option_bind]. by eapply iterate_runs.
  - destruct (find_runs _ _ _ _ _ _ f o fuel cl r Hh Hf E) as (h' & ? & ?). by exists h', m.
  - by eapply clone_runs.
Qed.

(** A key that is a transient is requested before anything else. *)
Lemma run_requested m t h l old o fuel k w :
  map_inv m t h l old -> op_key o = Some k -> declare_key (h_store h) k = Some (Requested w) ->
  run_op wundef address cb fuel (h, m) o = Some (RRequest w, (h, m)).
Proof.
  intros Hm Ek Ed. destruct o; try done; injection Ek as ->; unfold run_op, finish, prim_insertWithi, prim_removeWith, prim_lookup, with_key;
    by rewrite (declare_map_ok _ _ _ _ _ _ Hm), Ed.
Qed.

Lemma run_op_ok st0 m t h l old o fuel cl r :
  has st0 m t h l old -> (4 <= fuel)%nat -> spec_step cb st0 fuel (contents l) o = Some (r, cl) ->
  exists h' m', run_op wundef address cb fuel (h, m) o = Some (r, (h', m')) /\ leaves st0 m' h' cl.
Proof.
  intros Hh Hf E. unfold spec_step in E. destruct (op_key o) as [k |] eqn:Ek; [| by eapply run_unkeyed].
  destruct (declare_key st0 k) as [d |] eqn:Ed; [| done]. cbn [mbind option_bind] in E. destruct (id Hh) as (Hm & Ht & Hkp).
  apply (declared_kept _ _ _ _ (proj1 Hkp)) in Ed. destruct d as [k' | w].
  - destruct o as [f k0 v | f k0 | | k0 | | | | | |]; try done; injection Ek as ->; cbn [set_key] in E.
    + destruct (insertWith_runs _ _ _ _ _ _ f k k' v fuel cl r Hh Ed Hf E) as (h' & ? & ?). by exists h', m.
    + destruct (removeWith_runs _ _ _ _ _ _ f k k' fuel cl r Hh Ed Hf E) as (h' & ? & ?). by exists h', m.
    + destruct (lookup_runs _ _ _ _ _ _ k k' fuel cl r Hh Ed Hf E) as (h' & ? & ?). by exists h', m.
  - injection E as <- <-. exists h, m. split; [by eapply run_requested | by eapply leaves_same].
Qed.

Lemma run_ops_ok st0 m t h l old ops fuel rs cl :
  has st0 m t h l old -> (4 <= fuel)%nat -> run_ops (spec_step cb st0 fuel) (contents l) ops = Some (rs, cl) ->
  exists h' m', run_ops (run_op wundef address cb fuel) (h, m) ops = Some (rs, (h', m')) /\ leaves st0 m' h' cl.
Proof.
  intros Hh Hf. revert m t h l old rs Hh. induction ops as [| o ops IH]; intros m t h l old rs Hh E.
  - injection E as <- <-. exists h, m. split; [done | by eapply leaves_same].
  - cbn [run_ops] in E. destruct (spec_step cb st0 fuel (contents l) o) as [[r cl1] |] eqn:E1; [| done]. cbn [mbind option_bind fst snd] in E.
    destruct (run_op_ok _ _ _ _ _ _ o fuel cl1 r Hh Hf E1) as (h1 & m1 & E2 & t1 & l1 & old1 & Hh1 & <-).
    destruct (run_ops (spec_step cb st0 fuel) (contents l1) ops) as [[rs' cl'] |] eqn:E3; [| done]. cbn [mbind option_bind fst snd] in E. injection E as <- <-.
    destruct (IH m1 t1 h1 l1 old1 rs' Hh1 E3) as (h' & m' & E4 & Hl').
    exists h', m'. cbn [run_ops]. rewrite E2. cbn [mbind option_bind fst snd]. by rewrite E4.
Qed.
End Refine.
