(* ===== verification/ImpMapProps.v ===== *)
(** * Imperative maps: the properties *)

From Stdlib Require Import Sorted.
From S2P Require Import Prelude Config HeaderOp PointerOp Block BaseMap AliceData ImpMap ImpMapInv ImpMapOps ImpMapIter ImpMapThm.

(** The keys and values at some entries. *)
Definition hold_pairs {C} (h : heap C) (ents : list Z) (cl : list (word * word)) : Prop :=
  Forall2 (fun e kv => GetArg (h_store h) e KEY_POS = Some kv.1 /\ GetValue (h_store h) e = Some kv.2) ents cl.

Lemma Forall2_map_same {A B D} (P : B -> D -> Prop) (f : A -> B) (g : A -> D) (xs : list A) :
  (forall x, x ∈ xs -> P (f x) (g x)) -> Forall2 P (map f xs) (map g xs).
Proof. induction xs as [| x xs IH]; intros HP; constructor; [apply HP; by left | apply IH; intros y Hy; apply HP; by right]. Qed.

(** C22. From a new map, every sequence of the primitives, run with closures
    that compute [cb] and each to its end through the frames they push,
    returns what an association list returns: insertion calls the closure with
    the old value and replaces it, removal of an absent key calls the closure,
    iteration and folding visit the entries newest first, searching stops at
    the first entry of which the closure says true, a clone holds the entries in
    the opposite order.  The entries of the map are in the end those of the
    list.

    The key of an operation on the list is the one that the primitive's own
    macro takes from its argument in the store the run begins with ([spec_step]):
    through bound transients, 0 for any block given to UnsafeImpMap (C35), the
    cell for UnsafeCell; an argument that is an undetermined transient is
    requested and the map stays as it is.  [EntryKeyLaws] is the interface of
    the two kinds of keys, which both files' instances meet.  The sequence must
    be one that the list answers: iterations within [fuel], at most [map_cap]
    entries before an insertion, a boolean from the closure of a search, keys
    on which the macro does not fail an assertion. *)
Theorem imp_map_refines_list `{Platform} {C : Type} `{EntryKeyLaws C} (wundef : word) (address : Z -> Z) (cb : word -> list word -> word)
    (h : heap C) (ops : list op) (fuel : nat) (rs : list result) (cl : list (word * word)) :
  fresh h -> (4 <= fuel)%nat -> run_ops (spec_step cb (h_store h) fuel) [] ops = Some (rs, cl) ->
  exists h1 m h' m' ents, New wundef h = Some (h1, m) /\ run_ops (run_op wundef address cb fuel) (h1, m) ops = Some (rs, (h', m')) /\
    Entries h' m' = Some ents /\ hold_pairs h' ents cl.
Proof.
  intros Hf Hfuel E. destruct (New_ok wundef address h Hf) as (h1 & E1 & Hm & _ & Hs & _ & Hn).
  assert (Hh : has address (h_store h) (st_next (h_store h)) (st_next (h_store h) + 1) h1 [] ∅).
  { split; [done |]. split; [lia |]. assert (Hb : forall a n, st_get (h_store h) a = Some n -> a < st_next (h_store h)) by (intros a n Ea; apply Hf; by rewrite Ea).
    split; [| split; [| set_solver]].
    - apply map_subseteq_spec. intros a n Ea. rewrite <- Ea. by eapply Hs, Hb.
    - destruct (st_get (h_store h) (st_next (h_store h))) as [n |] eqn:En; [apply Hb in En; lia | done]. }
  destruct (run_ops_ok wundef address cb _ _ _ _ _ _ ops fuel rs cl Hh Hfuel E) as (h' & m' & E2 & t' & l' & old' & [Hm' _] & <-).
  exists h1, (st_next (h_store h)), h', m', (map en_addr l'). split; [done |]. split; [done |]. split; [by eapply Entries_ok |].
  apply Forall2_map_same. intros x Hx. destruct (live_node _ _ _ _ _ _ x Hm' Hx) as (p & n & Hnode). cbn. by destruct (node_args _ _ _ _ _ _ Hnode) as (? & ? & _).
Qed.

Definition sample_heap : heap unit := mkHeap (mkStore 1 ∅) ∅.

(** The closure 0 returns its last argument, 1 says whether its last argument is 30. *)
Definition sample_cb (f : word) (args : list word) : word :=
  match f with WInt 0 => default (WInt 0) (last args) | _ => WInt (if decide (last args = Some (WInt 30)) then 1 else 0) end.

(** A tuple, the integer 2 behind a bound future, and an unbound future. *)
Definition sample_keys : heap unit :=
  mkHeap (mkStore 4 (<[1 := NBlock TUPLE_LABEL false [WInt 1]]> (<[2 := NTransient REF_LABEL (WInt 2)]> (<[3 := NTransient FUTURE_LABEL (WInt 0)]> ∅)))) ∅.

Definition sample_ops : list op :=
  [OInsertWith (WInt 0) (WInt 1) (WInt 10); OInsertWith (WInt 0) (WPtr 2) (WInt 20); OInsertWith (WInt 0) (WInt 1) (WInt 30);
   OInsertWith (WInt 0) (WPtr 1) (WInt 40); OLookup (WInt 0); ORemoveWith (WInt 0) (WPtr 3);
   ORemoveWith (WInt 0) (WInt 7); OFind findi (WInt 1); OClone; ORemoveWith (WInt 0) (WInt 2); OLookup (WPtr 2); OSize].

Definition sample_results : list result :=
  [RWords [WInt 0]; RWords [WInt 0]; RWords [WInt 0]; RWords [WInt 0]; ROption (Some [WInt 40]); RRequest (WPtr 3);
   RWords [WInt 7]; ROption (Some [WInt 1; WInt 30]); RWords []; RWords [WInt 0]; ROption None; RWords [WInt 2]].

Lemma imp_map_refines_list_witness :
  exists h' m' ents, run_ops (run_op (H := P64) (H0 := ImpMapKey (H := P64)) (WInt 0) (fun a => 8 * a) sample_cb 20)
      (match New (H := P64) (WInt 0) sample_keys with Some x => x | None => (sample_keys, 0) end) sample_ops = Some (sample_results, (h', m')) /\
    Entries h' m' = Some ents /\ hold_pairs h' ents [(WInt 1, WInt 30); (WInt 0, WInt 40)].
Proof.
  destruct (imp_map_refines_list (H := P64) (H0 := ImpMapKey (H := P64)) (WInt 0) (fun a => 8 * a) sample_cb sample_keys sample_ops 20
    sample_results [(WInt 1, WInt 30); (WInt 0, WInt 40)]) as (h1 & m & h' & m' & ents & E1 & E2 & E3 & E4).
  - intros a Ha. assert (Hall : map_Forall (fun a _ => a < 4) (st_nodes (h_store sample_keys))) by (apply (bool_decide_eq_true_1 (map_Forall _ _)); vm_compute; reflexivity).
    destruct (st_get (h_store sample_keys) a) as [n |] eqn:E; [exact (Hall a n E) | done].
  - lia.
  - vm_compute. reflexivity.
  - exists h', m', ents. rewrite E1. auto.
Defined.

(** C16. Iterating over a map that changes.  Let an iterator start on a map
    that has been used in any way since it was created, and let every call of
    its closure insert, remove and replace entries, remove all of them, and
    change anything outside the map.  Then every step succeeds, and as long as
    the calls return, the iteration ends after at most two steps per entry
    that the map had at the start.  It visits only such entries, newest first
    and each at most once, and has in the end visited all of them that are
    still in the map, although its frame holds an entry that the calls may
    remove. *)
Theorem iteration_complete `{Platform} {C : Type} `{EntryKeyLaws C} (wundef : word) (address : Z -> Z) (h0 h1 h : heap C) (m : Z) (old : gset Z)
    (o : operation) (closure zero r : word) (fs : list Frame) :
  fresh h0 -> New wundef h0 = Some (h1, m) -> rtc (use wundef address m (m + 1)) (h1, ∅) (h, old) ->
  prim_app o h closure (WPtr m) = Some (Continue [r], fs, h) \/ prim_fold o h closure zero (WPtr m) = Some (Continue [r], fs, h) ->
  exists ents, Entries h m = Some ents /\ forall n visited c,
    steps wundef address m (m + 1) n (mkConf (Continue [r]) fs h old) visited c ->
    (finished c \/ exists vs c', step wundef address m (m + 1) c vs c') /\ (n <= 2 * length ents)%nat /\ visited `sublist_of` ents /\
    exists rest, Entries (c_heap c) m = Some rest /\ (finished c -> forall e, e ∈ ents -> e ∈ rest -> e ∈ visited).
Proof.
  intros Hf E1 Hu Hp. destruct (New_ok wundef address h0 Hf) as (h1' & E1' & Hm1 & _). rewrite E1 in E1'. injection E1' as -> ->.
  destruct (uses_inv wundef address _ _ _ _ _ _ [] [] Hu Hm1) as (l & Hm & _); [by intros a Ha%not_elem_of_nil .. | by intros e k v p n He%not_elem_of_nil |].
  assert (Efs : fs = match en_addr <$> head l with Some e => [IteratorFrame e closure o] | None => [] end).
  { destruct Hp as [Hp | Hp]; [unfold prim_app in Hp | unfold prim_fold in Hp]; rewrite (declare_map_ok _ _ _ _ _ _ _ Hm), (GetHead_ok _ _ _ _ _ _ Hm) in Hp;
      cbn [mbind option_bind] in Hp; by injection Hp. }
  subst fs. exists (map en_addr l). split; [by eapply Entries_ok |]. intros n visited c Hs.
  pose proof (steps_iterating wundef address _ _ _ _ _ _ _ Hs (start_iterating address _ _ h l old closure o r Hm)) as Hi.
  split; [by eapply iterating_next |]. destruct Hi as [(lc & Hmc & Hlive) _ _ _ _ Hv Hsort Hn].
  assert (Hsub : visited `sublist_of` map en_addr l) by (apply sorted_sublist; [done | apply Hm | done]).
  split; [apply sublist_length in Hsub; destruct (c_next c); [lia | lia | done] |]. split; [done |].
  exists (map en_addr lc). split; [by eapply Entries_ok |]. intros [Efr _] e He Hec. destruct (Hlive e Hec He) as [| (e' & Ep & _)]; [done |].
  unfold pending in Ep. by rewrite Efr in Ep.
Qed.

Definition sample_insert (h : heap unit) (k v : word) : heap unit :=
  match Insert (H := P64) (WInt 0) (fun a => 8 * a) h 1 k v with Some h => h | None => h end.
Definition sample_new : heap unit := match New (H := P64) (WInt 0) sample_heap with Some x => x.1 | None => sample_heap end.
Definition sample_one : heap unit := sample_insert sample_new (WInt 7) (WInt 70).
Definition sample_two : heap unit := sample_insert sample_one (WInt 8) (WInt 80).

Lemma iteration_complete_witness : exists ents, Entries sample_two 1 = Some ents /\ forall n visited c,
  steps (H := P64) (H0 := ImpMapKey (H := P64)) (WInt 0) (fun a => 8 * a) 1 2 n
    (mkConf (Continue [WInt 0]) [IteratorFrame 4 (WInt 5) appi] sample_two {[4; 3]}) visited c -> (n <= 2 * length ents)%nat.
Proof.
  destruct (iteration_complete (H := P64) (H0 := ImpMapKey (H := P64)) (WInt 0) (fun a => 8 * a) sample_heap sample_new sample_two 1 ({[4]} ∪ ({[3]} ∪ ∅))
    appi (WInt 5) (WInt 0) (WInt 0) [IteratorFrame 4 (WInt 5) appi]) as (ents & E & Hs).
  - intros a Ha. exfalso. apply Ha. reflexivity.
  - vm_compute. reflexivity.
  - apply (rtc_l _ _ (sample_one, {[3]} ∪ ∅)); [| apply (rtc_l _ _ (sample_two, {[4]} ∪ ({[3]} ∪ ∅))); [| apply rtc_refl]].
    + refine (use_insert _ _ _ _ sample_new ∅ sample_one (WInt 7) (WInt 70) 0 _ _ _ _); [vm_compute; reflexivity | vm_compute; discriminate | reflexivity | vm_compute; reflexivity].
    + refine (use_insert _ _ _ _ sample_one ({[3]} ∪ ∅) sample_two (WInt 8) (WInt 80) 1 _ _ _ _); [vm_compute; reflexivity | vm_compute; discriminate | reflexivity | vm_compute; reflexivity].
  - left. vm_compute. reflexivity.
  - exists ents. split; [exact E |]. intros n visited c Hc. destruct (Hs n visited c) as (_ & Hn & _); [| exact Hn].
    assert (Eo : {[4]} ∪ ({[3]} ∪ ∅) = ({[4; 3]} : gset Z)) by set_solver. rewrite Eo. exact Hc.
Defined.

(** C34. The keys of UnsafeImpMap.cc that are blocks are all one key, and the
    same as the integer 0: the macro that takes the key overwrites the block by
    the invalid integer, whose word is that of 0.  So what is inserted or
    removed under one block is inserted or removed under every other. *)
Theorem block_keys_collide `{Platform} {C : Type} (wundef : word) (address : Z -> Z) (h : heap C) (f m v x y : word) (a b : Z) :
  WordToInt (h_store h) x = Some None -> WordToBlock (h_store h) x = Some (Some a) ->
  WordToInt (h_store h) y = Some None -> WordToBlock (h_store h) y = Some (Some b) ->
  prim_insertWithi wundef address h f m x v = prim_insertWithi wundef address h f m y v /\
  prim_removeWith address h f m x = prim_removeWith address h f m y /\
  prim_lookup wundef address h m x = prim_lookup wundef address h m y /\
  prim_lookup wundef address h m x = prim_lookup wundef address h m (WInt 0).
Proof.
  intros Hx Hxa Hy Hyb.
  assert (E : forall z c, WordToInt (h_store h) z = Some None -> WordToBlock (h_store h) z = Some (Some c) -> ImpMap_key (h_store h) z = Some (Key (WInt 0))).
  { intros z c Hz Hc. unfold ImpMap_key. rewrite Hz, Hc. cbn. by rewrite IntToWord_invalid. }
  assert (E0 : ImpMap_key (h_store h) (WInt 0) = Some (Key (WInt 0))).
  { unfold ImpMap_key, WordToInt, deref. destruct (size _); cbn; by rewrite IntToWord_valid by done. }
  unfold prim_insertWithi, prim_removeWith, prim_lookup, with_key, declare_map. cbn [declare_key ImpMapKey].
  rewrite (E x a), (E y b), E0 by done. auto.
Qed.

(** Two different tuples, and a map that holds 5 under the first. *)
Definition two_tuples : heap unit :=
  mkHeap (mkStore 3 (<[1 := NBlock TUPLE_LABEL false [WInt 1]]> (<[2 := NBlock TUPLE_LABEL false [WInt 2]]> ∅))) ∅.

Definition tuple_map : heap unit :=
  match New (H := P64) (WInt 0) two_tuples with
  | Some (h, m) => match prim_insertWithi (H := P64) (H0 := ImpMapKey (H := P64)) (WInt 0) (fun a => 8 * a) h (WInt 0) (WPtr m) (WPtr 1) (WInt 5) with Some (_, _, h) => h | None => h end
  | None => two_tuples
  end.

Lemma block_keys_collide_witness : exists a h', prim_lookup (H := P64) (H0 := ImpMapKey (H := P64)) (WInt 0) (fun a => 8 * a) tuple_map (WPtr 3) (WPtr 2) = Some (Continue [WPtr a], [], h') /\
  GetArg (h_store h') a 0 = Some (WInt 5).
Proof.
  pose proof (block_keys_collide (H := P64) (WInt 0) (fun a => 8 * a) tuple_map (WInt 0) (WPtr 3) (WInt 0) (WPtr 1) (WPtr 2) 1 2) as Hc.
  destruct Hc as (_ & _ & <- & _); [vm_compute; reflexivity .. |]. eexists _, _. split; [vm_compute; reflexivity | vm_compute; reflexivity].
Defined.
