(* ===== verification/RegAlloc.v ===== *)
(** * Register allocation of the byte code compiler

    [RegisterAllocator::Run] of ByteCodeJitter.cc: a linear scan over the
    live ranges of the local variables of a function.  The vector [liveness]
    holds, for the local [id], the first and the last program point at which
    it is alive (elements [2 * id] and [2 * id + 1]); [aliases] maps a local
    introduced by inlining to the local it stands for.

    An index of a vector or a register is a [nat]; a program point is a
    machine word.  The array [mapping] is uninitialised at the start: [None]
    is an element that has no value yet.  [None] as the result of a function
    is an access out of the bounds of an array or a vector, or the use of an
    element without a value. *)

From stdpp Require Import sorting.
From S2P Require Import Prelude.

#[local] Open Scope Z_scope.

(** ** The allocator *)

Inductive EventType := START_LIFE | END_LIFE.

#[export] Instance EventType_eq_dec : EqDecision EventType.
Proof. solve_decision. Defined.

Record Event := MkEvent { programPoint : Z; type : EventType; ev_id : nat }.

#[export] Instance Event_eq_dec : EqDecision Event.
Proof. solve_decision. Defined.

Definition CmpEvents (a b : Event) : bool :=
  if programPoint a <? programPoint b then true
  else if programPoint a =? programPoint b then
    match type a, type b with
    | START_LIFE, END_LIFE => true
    | START_LIFE, START_LIFE | END_LIFE, END_LIFE => (ev_id a <? ev_id b)%nat
    | END_LIFE, START_LIFE => false
    end
  else false.

(** The order of std::sort: [a] may stand before [b]. *)
Definition event_le (a b : Event) : Prop := CmpEvents b a = false.

#[export] Instance event_le_dec a b : Decision (event_le a b).
Proof. unfold event_le. apply _. Defined.

(** [id >= aliases->GetLength() || aliases->Sub(id) == Store::IntToWord(id)] *)
Definition allocated (aliases : list Z) (id : nat) : bool :=
  match aliases !! id with
  | None => true
  | Some a => a =? Z.of_nat id
  end.

Section Run.
Context `{Platform}.

(** The loop that collects the events; [l] is the rest of the vector
    [liveness], from the index [2 * id]. *)
Fixpoint collect (aliases : list Z) (id : nat) (l : list Z) : option (list Event) :=
  match l with
  | [] => Some []
  | start :: l' =>
      if allocated aliases id then
        match l' with
        | [] => None
        | end_ :: l'' =>
            es ← collect aliases (S id) l'';
            let start := u_int start in
            let end_ := u_int end_ in
            Some (if start <=? end_
                  then MkEvent start START_LIFE id :: MkEvent end_ END_LIFE id :: es
                  else es)
        end
      else match l' with
           | [] => Some []
           | _ :: l'' => collect aliases (S id) l''
           end
  end.

Record state := MkState {
  used : gset nat;
  freed : gset nat;
  mapping : list (option nat) }.

(** [ *(s.begin()) ], the least element of a std::set that is not empty. *)
Definition begin (s : gset nat) : option nat :=
  match elements s with
  | [] => None
  | x :: l => Some (foldr Nat.min x l)
  end.

(** [mapping[id] = v] *)
Definition set_mapping (m : list (option nat)) (id : nat) (v : option nat) :
    option (list (option nat)) :=
  if (id <? length m)%nat then Some (<[id := v]> m) else None.

(** One iteration of the loop over the sorted events. *)
Definition step (st : state) (e : Event) : option state :=
  match type e with
  | START_LIFE =>
      match begin (freed st) with
      | Some reg =>
          m ← set_mapping (mapping st) (ev_id e) (Some reg);
          Some (MkState ({[reg]} ∪ used st) (freed st ∖ {[reg]}) m)
      | None =>
          let reg := size (used st) in
          m ← set_mapping (mapping st) (ev_id e) (Some reg);
          Some (MkState ({[reg]} ∪ used st) (freed st) m)
      end
  | END_LIFE =>
      reg ← mjoin (mapping st !! ev_id e);
      Some (MkState (used st ∖ {[reg]}) ({[reg]} ∪ freed st) (mapping st))
  end.

Fixpoint steps (st : state) (es : list Event) : option state :=
  match es with
  | [] => Some st
  | e :: es => st ← step st e; steps st es
  end.

(** The loop [mapping[id] = mapping[src]] over the aliases. *)
Fixpoint copy_aliases (id : nat) (aliases : list Z) (m : list (option nat)) :
    option (list (option nat)) :=
  match aliases with
  | [] => Some m
  | a :: aliases =>
      let src := u_int a in
      v ← (if src <? Z.of_nat (length m) then m !! Z.to_nat src else None);
      m ← set_mapping m id v;
      copy_aliases (S id) aliases m
  end.

(** The whole of [Run]: the array [mapping] and [*nLocals].  [aliases] may be
    the null pointer, which the loop over [liveness] does not expect. *)
Definition Run (liveness : list Z) (aliases : option (list Z)) (mapping0 : list (option nat)) :
    option (list (option nat) * nat) :=
  events ← match aliases with
           | Some aliases => collect aliases 0 liveness
           | None => match liveness with [] => Some [] | _ => None end
           end;
  st ← steps (MkState ∅ ∅ mapping0) (merge_sort event_le events);
  _ ← (if decide (used st = ∅) then Some tt else None);
  let nLocals := size (freed st) in
  m ← match aliases with
      | Some aliases => copy_aliases 0 aliases (mapping st)
      | None => Some (mapping st)
      end;
  Some (m, nLocals).

(** ** What the allocator promises *)

(** The live range of a local that gets a register of its own. *)
Definition live_range (liveness aliases : list Z) (id : nat) : option (Z * Z) :=
  if allocated aliases id then
    s ← liveness !! (2 * id)%nat;
    e ← liveness !! (2 * id + 1)%nat;
    if u_int s <=? u_int e then Some (u_int s, u_int e) else None
  else None.

(** The two locals are alive at a common program point. *)
Definition interfere (liveness aliases : list Z) (a b : nat) : Prop :=
  a <> b /\
  exists sa ea sb eb,
    live_range liveness aliases a = Some (sa, ea) /\
    live_range liveness aliases b = Some (sb, eb) /\
    sa <= eb /\ sb <= ea.

End Run.
