(* ===== verification/RegAllocProps.v ===== *)
(** * Register allocation: the allocation is correct and as small as possible

    The order of the events, the invariant of the linear scan, and the two
    properties of the allocator. *)

From stdpp Require Import sorting.
From S2P Require Import Prelude RegAlloc.

#[local] Open Scope Z_scope.

(** ** The order of the events *)

#[export] Instance event_le_total : Total event_le.
Proof.
  intros [p1 t1 i1] [p2 t2 i2]. unfold event_le, CmpEvents; cbn [programPoint type ev_id].
  destruct (Z.ltb_spec p2 p1), (Z.ltb_spec p1 p2), (Z.eqb_spec p2 p1), (Z.eqb_spec p1 p2); try lia; auto;
  destruct t1, t2; auto; rewrite ?Nat.ltb_ge; lia.
Qed.

#[export] Instance event_le_trans : Transitive event_le.
Proof.
  intros [p1 t1 i1] [p2 t2 i2] [p3 t3 i3]. unfold event_le, CmpEvents; cbn [programPoint type ev_id].
  destruct (Z.ltb_spec p2 p1), (Z.ltb_spec p3 p2), (Z.ltb_spec p3 p1),
    (Z.eqb_spec p2 p1), (Z.eqb_spec p3 p2), (Z.eqb_spec p3 p1); try lia; auto;
  destruct t1, t2, t3; auto; rewrite ?Nat.ltb_ge; try lia; done.
Qed.

Lemma event_le_point a b : event_le a b -> programPoint a <= programPoint b.
Proof. unfold event_le, CmpEvents. destruct (Z.ltb_spec (programPoint b) (programPoint a)); [done | lia]. Qed.

(** [CmpEvents] is a total order on events, so that every sorting algorithm
    gives the same list. *)
Lemma event_le_antisym a b : event_le a b -> event_le b a -> a = b.
Proof.
  destruct a as [p1 t1 i1], b as [p2 t2 i2]. unfold event_le, CmpEvents; cbn [programPoint type ev_id].
  destruct (Z.ltb_spec p2 p1), (Z.ltb_spec p1 p2), (Z.eqb_spec p2 p1), (Z.eqb_spec p1 p2); try lia; try done;
  destruct t1, t2; rewrite ?Nat.ltb_ge; try done; intros; f_equal; lia.
Qed.

(** ** Well-formed sequences of events *)

(** [ok seen active es]: the locals [active] are alive and the locals [seen]
    have been; [es] starts a local once, ends it after that, and ends all. *)
Fixpoint ok (seen active : gset nat) (es : list Event) : Prop :=
  match es with
  | [] => active = ∅
  | e :: es =>
      match type e with
      | START_LIFE => (ev_id e ∉ seen) /\ ok ({[ev_id e]} ∪ seen) ({[ev_id e]} ∪ active) es
      | END_LIFE => ev_id e ∈ active /\ ok seen (active ∖ {[ev_id e]}) es
      end
  end.

Definition alive (active : gset nat) (e : Event) : gset nat :=
  match type e with
  | START_LIFE => {[ev_id e]} ∪ active
  | END_LIFE => active ∖ {[ev_id e]}
  end.

Definition see (seen : gset nat) (e : Event) : gset nat :=
  match type e with
  | START_LIFE => {[ev_id e]} ∪ seen
  | END_LIFE => seen
  end.

Definition starts (id : nat) (es : list Event) : Prop :=
  exists p, MkEvent p START_LIFE id ∈ es.

Definition ends (id : nat) (es : list Event) : Prop :=
  exists p, MkEvent p END_LIFE id ∈ es.

Lemma starts_cons id e es :
  starts id (e :: es) <-> (type e = START_LIFE /\ ev_id e = id) \/ starts id es.
Proof.
  unfold starts. destruct e as [p t i]; cbn. split.
  - intros [q [ [= -> <- <-] | Hq]%elem_of_cons]; eauto.
  - intros [[-> ->] | [q Hq]]; eexists; [left | right; exact Hq].
Qed.

Lemma ends_cons id e es :
  ends id (e :: es) <-> (type e = END_LIFE /\ ev_id e = id) \/ ends id es.
Proof.
  unfold ends. destruct e as [p t i]; cbn. split.
  - intros [q [ [= -> <- <-] | Hq]%elem_of_cons]; eauto.
  - intros [[-> ->] | [q Hq]]; eexists; [left | right; exact Hq].
Qed.

Lemma not_starts_nil id : ~ starts id [].
Proof. intros [p H%elem_of_nil]. done. Qed.

Lemma not_ends_nil id : ~ ends id [].
Proof. intros [p H%elem_of_nil]. done. Qed.

Lemma ok_app p q : forall seen active,
  ok seen active (p ++ q) -> ok (foldl see seen p) (foldl alive active p) q.
Proof.
  induction p as [| [pp [] i] p IH]; intros seen active; cbn; [done | |]; intros [_ Hok]; by apply IH.
Qed.

(** A local that is alive ends later. *)
Lemma ok_ends es : forall seen active id, ok seen active es -> id ∈ active -> ends id es.
Proof.
  induction es as [| [p [] i] es IH]; intros seen active id; cbn.
  - set_solver.
  - intros [_ Hok] Hid. apply ends_cons. right. eapply IH; [done | set_solver].
  - intros [Hi Hok] Hid. apply ends_cons. cbn. destruct (decide (i = id)) as [-> | Hne]; [by left | right].
    eapply IH; [done | set_solver].
Qed.

Lemma alive_starts p : forall active id,
  id ∈ foldl alive active p -> id ∈ active \/ starts id p.
Proof.
  induction p as [| [pp [] i] p IH]; intros active id; cbn; [by left | |]; intros [Hin | Hs]%IH.
  all: rewrite starts_cons; cbn in *; set_solver.
Qed.

Lemma starts_alive p : forall active id,
  starts id p -> ~ ends id p -> id ∈ foldl alive active p.
Proof.
  assert (Hkeep : forall p active id, id ∈ active -> ~ ends id p -> id ∈ foldl alive active p).
  { clear p. intros p. induction p as [| [pp [] i] p IH]; intros active id Hin; rewrite ?ends_cons; cbn.
    - done.
    - intros Hn. apply IH; [set_solver | tauto].
    - intros Hn. apply IH; [set_solver | tauto]. }
  induction p as [| [pp t i] p IH]; intros active id; rewrite ?starts_cons, ?ends_cons; cbn.
  - by intros []%not_starts_nil.
  - intros [[-> ->] | Hs] Hn; [apply Hkeep; [cbn; set_solver | tauto] | apply IH; tauto].
Qed.

(** A sorted sequence in which every local that starts ends at the same point
    or later, and nothing happens twice. *)
Record paired (es : list Event) : Prop := {
  p_sorted : StronglySorted event_le es;
  p_nodup : NoDup es;
  p_unique : forall p p' t id, MkEvent p t id ∈ es -> MkEvent p' t id ∈ es -> p = p';
  p_range : forall id, starts id es <-> ends id es;
  p_order : forall s e id, MkEvent s START_LIFE id ∈ es -> MkEvent e END_LIFE id ∈ es -> s <= e }.

Lemma sorted_split p e q x : StronglySorted event_le (p ++ e :: q) ->
  (x ∈ p -> event_le x e) /\ (x ∈ q -> event_le e x).
Proof.
  intros HS. induction p as [| y p IH]; cbn in HS.
  - apply StronglySorted_inv in HS as [_ HF]. rewrite Forall_forall in HF. split; [set_solver | auto].
  - apply StronglySorted_inv in HS as [HS HF]. destruct (IH HS) as [IH1 IH2]. split; [| done].
    rewrite elem_of_cons. intros [-> | Hx]; [| auto]. rewrite Forall_forall in HF. set_solver.
Qed.

Lemma start_before_end s e id id' : s <= e -> CmpEvents (MkEvent s START_LIFE id) (MkEvent e END_LIFE id') = true.
Proof. intros Hle. unfold CmpEvents; cbn. destruct (Z.ltb_spec s e), (Z.eqb_spec s e); try done; lia. Qed.

Lemma starts_snoc p pt t i id :
  starts id (p ++ [MkEvent pt t i]) <-> starts id p \/ (t = START_LIFE /\ i = id).
Proof.
  unfold starts. setoid_rewrite elem_of_app. setoid_rewrite list_elem_of_singleton. naive_solver.
Qed.

Lemma ends_snoc p pt t i id :
  ends id (p ++ [MkEvent pt t i]) <-> ends id p \/ (t = END_LIFE /\ i = id).
Proof.
  unfold ends. setoid_rewrite elem_of_app. setoid_rewrite list_elem_of_singleton. naive_solver.
Qed.

Ltac in_trace := try done; rewrite ?elem_of_app, ?elem_of_cons; auto.

Section Split.
Context (p q : list Event) (pt : Z) (t : EventType) (i : nat).
Context (HP : paired (p ++ MkEvent pt t i :: q)).

Lemma split_once p' : MkEvent p' t i ∉ p.
Proof.
  intros Hin. assert (p' = pt) as -> by (apply (p_unique _ HP p' pt t i); in_trace).
  pose proof (p_nodup _ HP) as HN. apply NoDup_app in HN as (_ & HN & _). apply (HN _ Hin). in_trace.
Qed.

Lemma split_before x : x ∈ p -> event_le x (MkEvent pt t i).
Proof. apply (sorted_split p _ q x). apply HP. Qed.

Lemma split_after x : x ∈ q -> event_le (MkEvent pt t i) x.
Proof. apply (sorted_split p _ q x). apply HP. Qed.

Lemma split_start_not_ended : t = START_LIFE -> ~ ends i p.
Proof.
  intros Ht [p' Hp']. pose proof (split_before _ Hp') as Hle. subst t.
  unfold event_le in Hle. rewrite start_before_end in Hle; [done |].
  apply (p_order _ HP pt p' i); in_trace.
Qed.

Lemma split_end_started : t = END_LIFE -> starts i p.
Proof.
  intros Ht. assert (Hs : starts i (p ++ MkEvent pt t i :: q)).
  { apply (p_range _ HP). exists pt. rewrite <- Ht. in_trace. }
  destruct Hs as [s Hs]. assert (Hse : s <= pt) by (apply (p_order _ HP s pt i); rewrite <- ?Ht; in_trace).
  exists s. apply elem_of_app in Hs as [Hs | [Hs | Hs]%elem_of_cons]; [done | by rewrite Ht in Hs |].
  apply split_after in Hs. rewrite Ht in Hs. unfold event_le in Hs. by rewrite start_before_end in Hs.
Qed.

End Split.

Lemma paired_ok es : paired es -> ok ∅ ∅ es.
Proof.
  intros HP.
  enough (HG : forall q p seen active, es = p ++ q ->
    (forall id, id ∈ seen <-> starts id p) ->
    (forall id, id ∈ active <-> starts id p /\ ~ ends id p) -> ok seen active q).
  { apply (HG es []); [done | |]; intros id.
    - split; [set_solver | by intros []%not_starts_nil].
    - split; [set_solver | by intros [[]%not_starts_nil _]]. }
  induction q as [| [pt t i] q IH]; intros p seen active -> Hseen Hact; cbn.
  - rewrite app_nil_r in HP. apply elem_of_equiv_empty_L. intros id. rewrite Hact, (p_range _ HP). tauto.
  - pose proof (split_once p q pt t i HP) as Hone.
    specialize (IH (p ++ [MkEvent pt t i])). rewrite <- app_assoc in IH.
    destruct t; (split; [| apply IH; [done | |]; intros id]);
      rewrite ?elem_of_union, ?elem_of_difference, ?elem_of_singleton, ?starts_snoc, ?ends_snoc, ?Hseen, ?Hact.
    + intros [p' Hp']. by apply (Hone p').
    + naive_solver.
    + pose proof (split_start_not_ended p q pt _ i HP eq_refl). naive_solver.
    + split; [by apply (split_end_started p q pt _ i HP) |]. intros [p' Hp']. by apply (Hone p').
    + naive_solver.
    + naive_solver.
Qed.

(** ** The scan *)

Lemma foldr_min_in x l : foldr Nat.min x l ∈ x :: l.
Proof.
  induction l as [| y l IH]; cbn; [by left |]. rewrite elem_of_cons in IH. rewrite !elem_of_cons.
  destruct (Nat.min_spec y (foldr Nat.min x l)) as [[_ ->] | [_ ->]]; [right; by left | destruct IH; auto].
Qed.

Lemma foldr_min_le x l r : r ∈ x :: l -> (foldr Nat.min x l <= r)%nat.
Proof.
  induction l as [| y l IH]; cbn.
  - by intros ->%list_elem_of_singleton.
  - rewrite elem_of_cons in IH. rewrite !elem_of_cons. intros [-> | [-> | Hr]]; [pose proof (IH (or_introl eq_refl)) | | pose proof (IH (or_intror Hr))]; lia.
Qed.

Lemma begin_Some (s : gset nat) r : begin s = Some r -> r ∈ s /\ forall r', r' ∈ s -> (r <= r')%nat.
Proof.
  unfold begin. destruct (elements s) as [| x l] eqn:E; [done |]. intros [= <-].
  split; [| intros r' Hr'; apply foldr_min_le]; rewrite <- ?E, ?elem_of_elements; [| done].
  rewrite <- elem_of_elements, E. apply foldr_min_in.
Qed.

Lemma begin_None (s : gset nat) : begin s = None -> s = ∅.
Proof.
  unfold begin. destruct (elements s) eqn:E; [| done]. intros _. by apply elements_empty_inv, leibniz_equiv in E.
Qed.

(** The state after the locals [seen] have started, when those of [active]
    are alive and [k] registers are in use or free. *)
Record inv (k : nat) (seen active : gset nat) (st : state) : Prop := {
  i_seen : active ⊆ seen;
  i_bound : forall id, id ∈ seen -> exists r, mapping st !! id = Some (Some r) /\ (r < k)%nat;
  i_reg : forall id r, id ∈ active -> mapping st !! id = Some (Some r) -> r ∈ used st;
  i_inj : forall a b, a ∈ active -> b ∈ active -> mapping st !! a = mapping st !! b -> a = b;
  i_size : size (used st) = size active;
  i_disj : used st ## freed st;
  i_all : used st ∪ freed st = set_seq 0 k }.

Lemma inv_k k seen active st : inv k seen active st -> k = (size (used st) + size (freed st))%nat.
Proof.
  intros HI. rewrite <- size_union by apply HI. by rewrite (i_all _ _ _ _ HI), size_set_seq.
Qed.

Lemma set_mapping_ok m id v : (id < length m)%nat -> set_mapping m id v = Some (<[id := v]> m).
Proof. unfold set_mapping. by intros ->%Nat.ltb_lt. Qed.

(** A local that starts takes a register that no live local has. *)
Lemma inv_start k k' seen active st st' id r :
  inv k seen active st -> id ∉ seen -> (id < length (mapping st))%nat -> r ∉ used st ->
  used st' = {[r]} ∪ used st -> mapping st' = <[id := Some r]> (mapping st) ->
  used st' ## freed st' -> used st' ∪ freed st' = set_seq 0 k' -> (k <= k')%nat ->
  inv k' ({[id]} ∪ seen) ({[id]} ∪ active) st'.
Proof.
  intros HI Hid Hlen Hr Hu Hm Hd Ha Hk. pose proof (i_seen _ _ _ _ HI) as Hseen.
  assert (Hsame : forall x, x ∈ seen -> mapping st' !! x = mapping st !! x).
  { intros x Hx. rewrite Hm. apply list_lookup_insert_ne. set_solver. }
  assert (Hnew : mapping st' !! id = Some (Some r)) by (rewrite Hm; by apply list_lookup_insert_eq).
  assert (Hold : forall x, x ∈ active -> mapping st' !! x <> Some (Some r)).
  { intros x Hx. rewrite Hsame by auto. intros E. by apply Hr, (i_reg _ _ _ _ HI x). }
  split; try done.
  - set_solver.
  - intros x [->%elem_of_singleton | Hx]%elem_of_union.
    + exists r. split; [done |]. assert (Hin : r ∈ (set_seq 0 k' : gset nat)) by (rewrite <- Ha, Hu; set_solver).
      apply elem_of_set_seq in Hin. lia.
    + rewrite Hsame by done. destruct (i_bound _ _ _ _ HI x Hx) as (q & Hq & Hlt). exists q. split; [done | lia].
  - intros x q. rewrite elem_of_union, elem_of_singleton, Hu. intros [-> | Hx].
    + rewrite Hnew. intros [= <-]. set_solver.
    + rewrite Hsame by auto. intros Hq. apply (i_reg _ _ _ _ HI) in Hq; [set_solver | done].
  - intros a b [->%elem_of_singleton | Hx]%elem_of_union [->%elem_of_singleton | Hy]%elem_of_union; [done | | |].
    + rewrite Hnew. intros E. by destruct (Hold b Hy).
    + rewrite Hnew. intros E. by destruct (Hold a Hx).
    + rewrite !Hsame by auto. by apply (i_inj _ _ _ _ HI).
  - rewrite Hu, !size_union, !size_singleton, (i_size _ _ _ _ HI) by set_solver. done.
Qed.

Lemma size_remove (x : nat) (s : gset nat) : x ∈ s -> size (s ∖ {[x]}) = (size s - 1)%nat.
Proof. intros Hx. rewrite size_difference by set_solver. by rewrite size_singleton. Qed.

Lemma inv_end k seen active st id r :
  inv k seen active st -> id ∈ active -> mapping st !! id = Some (Some r) ->
  inv k seen (active ∖ {[id]}) (MkState (used st ∖ {[r]}) ({[r]} ∪ freed st) (mapping st)).
Proof.
  intros HI Hid Hr. pose proof (i_reg _ _ _ _ HI id r Hid Hr) as Hu. pose proof (i_all _ _ _ _ HI) as Ha.
  pose proof (i_disj _ _ _ _ HI) as Hd. split; cbn.
  - pose proof (i_seen _ _ _ _ HI). set_solver.
  - apply HI.
  - intros x q [Hx Hne]%elem_of_difference Hq. pose proof (i_reg _ _ _ _ HI x q Hx Hq) as Hqu.
    assert (q <> r); [| set_solver]. intros ->. apply Hne, elem_of_singleton, (i_inj _ _ _ _ HI); try done. congruence.
  - intros a b Hx Hy. apply (i_inj _ _ _ _ HI); set_solver.
  - by rewrite !size_remove, (i_size _ _ _ _ HI).
  - set_solver.
  - rewrite <- Ha. apply leibniz_equiv. intros x. destruct (decide (x = r)); set_solver.
Qed.

(** One step of the scan: [k] grows only when the locals that are alive need
    one register more than there are. *)
Lemma scan_step_ok k seen active st e es :
  inv k seen active st -> ok seen active (e :: es) -> (ev_id e < length (mapping st))%nat ->
  exists k' st', step st e = Some st' /\ inv k' (see seen e) (alive active e) st' /\
    length (mapping st') = length (mapping st) /\ (k <= k')%nat /\
    (forall id, id ∈ seen -> mapping st' !! id = mapping st !! id) /\
    (k' = k \/ type e = START_LIFE /\ k' = size (alive active e)).
Proof.
  intros HI Hok Hlen. destruct e as [p t id]; unfold step, see, alive; cbn in *. destruct t.
  - destruct Hok as [Hid _]. assert (Hact : id ∉ active) by (pose proof (i_seen _ _ _ _ HI); set_solver).
    pose proof (i_all _ _ _ _ HI) as Ha. pose proof (i_disj _ _ _ _ HI) as Hd.
    assert (Hfr : forall r x, x ∈ seen -> <[id:=Some r]> (mapping st) !! x = mapping st !! x).
    { intros r x Hx. apply list_lookup_insert_ne. set_solver. }
    destruct (begin (freed st)) as [r |] eqn:E; rewrite set_mapping_ok by done; cbn [mbind option_bind].
    + apply begin_Some in E as [Hr _]. do 2 eexists. split; [done |].
      split; [| split_and!; [cbn; by rewrite length_insert | done | cbn; auto | by left]].
      eapply inv_start; try done; cbn; try done; [set_solver | set_solver |].
      rewrite <- Ha. apply leibniz_equiv. intros x. destruct (decide (x = r)); set_solver.
    + apply begin_None in E. pose proof (inv_k _ _ _ _ HI) as Hk. rewrite E, size_empty, Nat.add_0_r in Hk.
      rewrite E, union_empty_r_L in Ha. rewrite <- Hk.
      assert (Hnew : k ∉ used st) by (rewrite Ha, elem_of_set_seq; lia).
      do 2 eexists. split; [done |]. split; [| split_and!; [cbn; by rewrite length_insert | | cbn; auto | right]].
      * eapply (inv_start k (S k)); try done; cbn; rewrite ?E; [set_solver | | lia].
        rewrite union_empty_r_L, Ha. exact (eq_sym (set_seq_S_end_union_L 0 k)).
      * lia.
      * split; [done |]. rewrite size_union, size_singleton, <- (i_size _ _ _ _ HI) by set_solver. lia.
  - destruct Hok as [Hid _]. pose proof (i_seen _ _ _ _ HI) as Hs.
    destruct (i_bound _ _ _ _ HI id) as (r & Hr & _); [set_solver |].
    rewrite Hr. cbn. do 2 eexists. split; [done |]. split; [by eapply inv_end |].
    split_and!; [done | done | done | by left].
Qed.

Lemma steps_app p q : forall st, steps st (p ++ q) = st ← steps st p; steps st q.
Proof. induction p as [| e p IH]; intros st; cbn; [done |]. destruct (step st e); cbn; [apply IH | done]. Qed.

Lemma steps_ok rest es : forall k seen active st,
  inv k seen active st -> ok seen active (es ++ rest) ->
  Forall (fun e => (ev_id e < length (mapping st))%nat) es ->
  exists k' st', steps st es = Some st' /\ inv k' (foldl see seen es) (foldl alive active es) st' /\
    length (mapping st') = length (mapping st) /\ (k <= k')%nat /\
    (forall id, id ∈ seen -> mapping st' !! id = mapping st !! id) /\
    (k' = k \/ exists p e q, es = p ++ e :: q /\ type e = START_LIFE /\
                             k' = size (foldl alive active (p ++ [e]))).
Proof.
  induction es as [| e es IH]; intros k seen active st HI Hok HF; cbn.
  - exists k, st. split_and!; auto.
  - apply Forall_cons in HF as [Hlen HF].
    destruct (scan_step_ok _ _ _ _ _ _ HI Hok Hlen) as (k1 & st1 & E1 & HI1 & Hl1 & Hk1 & Hm1 & Hc1).
    rewrite E1. cbn [mbind option_bind].
    assert (Hok1 : ok (see seen e) (alive active e) (es ++ rest)) by (destruct e as [? [] ?]; apply Hok).
    destruct (IH k1 _ _ st1 HI1 Hok1) as (k2 & st2 & E2 & HI2 & Hl2 & Hk2 & Hm2 & Hc2).
    { eapply Forall_impl; [exact HF |]. cbn. intros x. by rewrite Hl1. }
    exists k2, st2. split_and!; [done | done | congruence | lia | |].
    + intros id Hid. rewrite Hm2, Hm1 by (try done; destruct e as [? [] ?]; cbn; set_solver). done.
    + destruct Hc2 as [-> | (p & e' & q & -> & Ht & Hk)].
      * destruct Hc1 as [-> | [Ht Hk]]; [by left |]. right. by exists [], e, es.
      * right. by exists (e :: p), e', q.
Qed.

(** ** The allocation is correct and as small as possible *)

Section Props.
Context `{Platform}.

(** ** The events that are collected *)

Definition point (t : EventType) (range : Z * Z) : Z :=
  match t with START_LIFE => range.1 | END_LIFE => range.2 end.

Definition is_event (liveness aliases : list Z) (e : Event) : Prop :=
  exists range, live_range liveness aliases (ev_id e) = Some range /\ programPoint e = point (type e) range.

Lemma collect_events_ok liveness aliases n : forall id, length liveness = (2 * (id + n))%nat ->
  exists es, collect aliases id (drop (2 * id) liveness) = Some es /\ NoDup es /\
    forall e, e ∈ es <-> (id <= ev_id e)%nat /\ is_event liveness aliases e.
Proof.
  induction n as [| n IH]; intros id Hlen.
  - rewrite drop_ge by lia. exists []. split_and!; [done | constructor |]. intros e. rewrite elem_of_nil.
    split; [done |]. intros [Hid (rg & Hr & _)]. revert Hr. unfold live_range.
    rewrite (proj2 (lookup_ge_None liveness (2 * ev_id e)%nat)) by lia. by case_match.
  - destruct (lookup_lt_is_Some_2 liveness (2 * id)) as [s Hs]; [lia |].
    destruct (lookup_lt_is_Some_2 liveness (2 * id + 1)) as [t Ht]; [lia |].
    destruct (IH (S id)) as (es & E & HN & Hes); [lia |].
    assert (Hd : drop (2 * id) liveness = s :: t :: drop (2 * S id) liveness).
    { rewrite (drop_S _ s (2 * id)) by done. f_equal. rewrite (drop_S _ t (S (2 * id))); [f_equal; f_equal; lia |].
      by replace (S (2 * id)) with (2 * id + 1)%nat by lia. }
    rewrite Hd. cbn [collect]. rewrite E. cbn [mbind option_bind].
    assert (Hold : live_range liveness aliases id = None -> forall e,
      e ∈ es <-> (id <= ev_id e)%nat /\ is_event liveness aliases e).
    { intros Hn e. rewrite Hes. split; intros [Hid Hev]; (split; [| done]); [lia |].
      destruct Hev as (rg & Hr & _). assert (ev_id e <> id) by congruence. lia. }
    assert (Hlr : live_range liveness aliases id =
      if allocated aliases id then if u_int s <=? u_int t then Some (u_int s, u_int t) else None else None).
    { unfold live_range. by rewrite Hs, Ht. }
    destruct (allocated aliases id); [| by exists es; auto].
    destruct (u_int s <=? u_int t); [| by exists es; auto].
    eexists. split; [done |]. split.
    + constructor; [| constructor; [| done]]; rewrite ?elem_of_cons, Hes; cbn; [| lia].
      intros [? | [? _]]; [done | lia].
    + intros e. rewrite !elem_of_cons, Hes. unfold is_event. split.
      * intros [-> | [-> | [Hid Hev]]]; cbn; [split; [lia | eauto] .. | split; [lia | done]].
      * intros [Hid (rg & Hr & Hp)]. destruct (decide (ev_id e = id)) as [<- | Hne]; [| right; right; split; [lia | eauto]].
        rewrite Hlr in Hr. injection Hr as <-. destruct e as [p [] i]; cbn in *; subst; auto.
Qed.

Lemma live_range_le liveness aliases id s t : live_range liveness aliases id = Some (s, t) -> s <= t.
Proof.
  unfold live_range. case_match; [| done].
  destruct (liveness !! (2 * id)%nat); cbn [mbind option_bind]; [| done].
  destruct (liveness !! (2 * id + 1)%nat); cbn [mbind option_bind]; [| done].
  case_match eqn:E; [| done]. apply Z.leb_le in E. by intros [= <- <-].
Qed.

Lemma sorted_paired liveness aliases es :
  NoDup es -> (forall e, e ∈ es <-> is_event liveness aliases e) -> paired (merge_sort event_le es).
Proof.
  intros HN Hes.
  assert (Hm : forall e, e ∈ merge_sort event_le es <-> is_event liveness aliases e).
  { intros e. rewrite <- Hes. by rewrite (merge_sort_Permutation event_le es). }
  split.
  - apply StronglySorted_merge_sort; apply _.
  - by rewrite (merge_sort_Permutation event_le es).
  - intros p p' t id. rewrite !Hm. intros (rg & Hr & Hp) (rg' & Hr' & Hp'). cbn in *. congruence.
  - intros id. unfold starts, ends. setoid_rewrite Hm. unfold is_event; cbn. naive_solver.
  - intros s e id. rewrite !Hm. intros ([a b] & Hr & Hp) ([a' b'] & Hr' & Hp'). cbn in *.
    apply live_range_le in Hr as Hle. rewrite Hr in Hr'. injection Hr' as <- <-. lia.
Qed.

(** ** The aliases *)

Lemma copy_aliases_ok al : forall id m,
  (id + length al <= length m)%nat -> Forall (fun a => u_int a < Z.of_nat (length m)) al ->
  exists m', copy_aliases id al m = Some m' /\ length m' = length m /\
    (forall x, (x < id \/ id + length al <= x)%nat -> m' !! x = m !! x) /\
    (forall j a, al !! j = Some a ->
       m' !! (id + j)%nat = if decide (Z.to_nat (u_int a) < id + j)%nat
                            then m' !! Z.to_nat (u_int a) else m !! Z.to_nat (u_int a)).
Proof.
  induction al as [| a al IH]; intros id m Hlen HF; cbn [copy_aliases length] in *.
  - exists m. split_and!; [done .. |]. intros j a Hj. by rewrite lookup_nil in Hj.
  - apply Forall_cons in HF as [Ha HF]. pose proof (u_int_range a) as Hr.
    rewrite (proj2 (Z.ltb_lt _ _) Ha).
    destruct (lookup_lt_is_Some_2 m (Z.to_nat (u_int a))) as [v Hv]; [lia |].
    rewrite Hv. cbn [mbind option_bind]. rewrite set_mapping_ok by lia. cbn [mbind option_bind].
    destruct (IH (S id) (<[id := v]> m)) as (m' & E & Hl & Hsame & Hal); rewrite ?length_insert in *; [lia | done |].
    exists m'. split_and!; [done | done | |].
    + intros x Hx. rewrite Hsame by lia. apply list_lookup_insert_ne. lia.
    + intros [| j] b Hj.
      * injection Hj as <-. rewrite Nat.add_0_r, Hsame, list_lookup_insert_eq, <- Hv by lia.
        case_decide; [| done]. rewrite Hsame by lia. symmetry. apply list_lookup_insert_ne. lia.
      * cbn in Hj. replace (id + S j)%nat with (S id + j)%nat by lia. rewrite (Hal j b Hj).
        case_decide; [done |]. apply list_lookup_insert_ne. lia.
Qed.

(** ** Locals that are alive together *)

Lemma foldl_see es : forall seen id, id ∈ foldl see seen es <-> id ∈ seen \/ starts id es.
Proof.
  induction es as [| [p t i] es IH]; intros seen id; cbn.
  - split; [by left | intros [? | []%not_starts_nil]; done].
  - rewrite IH, starts_cons; cbn. destruct t; cbn; set_solver.
Qed.

Section Meet.
Context (liveness aliases : list Z) (es : list Event).
Context (HP : paired es) (Hes : forall e, e ∈ es <-> is_event liveness aliases e).

Lemma live_event id s e t : live_range liveness aliases id = Some (s, e) ->
  MkEvent (point t (s, e)) t id ∈ es.
Proof. intros Hr. apply Hes. by exists (s, e). Qed.

Lemma alive_when_started a b sa ea sb p q :
  live_range liveness aliases a = Some (sa, ea) -> sb <= ea ->
  es = p ++ MkEvent sb START_LIFE b :: q -> a <> b -> MkEvent sa START_LIFE a ∈ p ->
  a ∈ foldl alive ∅ (p ++ [MkEvent sb START_LIFE b]).
Proof.
  intros Ha Hle E Hne Hin. apply starts_alive.
  - exists sa. set_solver.
  - intros [pt [Hpt | Hpt]%elem_of_app]; [| by apply list_elem_of_singleton in Hpt].
    assert (pt = ea) as ->.
    { apply (p_unique _ HP pt ea END_LIFE a); [rewrite E; set_solver | by apply (live_event a sa ea END_LIFE)]. }
    subst es. apply (split_before _ _ _ _ _ HP) in Hpt. unfold event_le in Hpt.
    rewrite start_before_end in Hpt; done.
Qed.

Lemma started_alive p b sb q :
  es = p ++ MkEvent sb START_LIFE b :: q -> b ∈ foldl alive ∅ (p ++ [MkEvent sb START_LIFE b]).
Proof. intros _. rewrite foldl_snoc. cbn. set_solver. Qed.

Lemma interfere_meet a b : interfere liveness aliases a b ->
  exists p q, es = p ++ q /\ a ∈ foldl alive ∅ p /\ b ∈ foldl alive ∅ p.
Proof.
  intros (Hne & sa & ea & sb & eb & Ha & Hb & H1 & H2).
  pose proof (live_event a sa ea START_LIFE Ha) as Hea. pose proof (live_event b sb eb START_LIFE Hb) as Heb.
  cbn in Hea, Heb. destruct (list_elem_of_split _ _ Heb) as (p & q & E).
  pose proof Hea as Hin. rewrite E in Hin. apply elem_of_app in Hin as [Hin | [ [= -> ->] | Hin]%elem_of_cons]; [| done |].
  - exists (p ++ [MkEvent sb START_LIFE b]), q. split; [by rewrite <- app_assoc |]. split.
    + by eapply alive_when_started.
    + by eapply started_alive.
  - destruct (list_elem_of_split _ _ Hin) as (q1 & q2 & ->).
    assert (E' : es = (p ++ MkEvent sb START_LIFE b :: q1) ++ MkEvent sa START_LIFE a :: q2) by (by rewrite <- app_assoc).
    exists ((p ++ MkEvent sb START_LIFE b :: q1) ++ [MkEvent sa START_LIFE a]), q2.
    split; [by rewrite E', <- !app_assoc |]. split.
    + by eapply started_alive.
    + eapply (alive_when_started b a); eauto; set_solver.
Qed.

Lemma meet_range p e q id : es = p ++ e :: q -> type e = START_LIFE -> id ∈ foldl alive ∅ (p ++ [e]) ->
  exists s t, live_range liveness aliases id = Some (s, t) /\ s <= programPoint e <= t.
Proof.
  intros E Ht Hin. pose proof (paired_ok _ HP) as Hok.
  replace (p ++ e :: q) with ((p ++ [e]) ++ q) in E by (by rewrite <- app_assoc).
  assert (Hends : ends id q).
  { rewrite E in Hok. apply ok_app in Hok. by eapply ok_ends. }
  apply alive_starts in Hin as [[]%elem_of_empty | [s Hs]]. destruct Hends as [t Hend].
  assert (Hs' : is_event liveness aliases (MkEvent s START_LIFE id)) by (apply Hes; rewrite E; set_solver).
  assert (He' : is_event liveness aliases (MkEvent t END_LIFE id)) by (apply Hes; rewrite E; set_solver).
  destruct Hs' as ([s' t'] & Hr & Hsp), He' as ([s'' t''] & Hr' & Hep). cbn in *. rewrite Hr in Hr'.
  injection Hr' as <- <-. subst s' t'. exists s, t. split; [done |].
  rewrite <- app_assoc in E. pose proof (p_sorted _ HP) as HS. rewrite E in HS. cbn in HS. split.
  - apply elem_of_app in Hs as [Hs | Hs]; [| apply list_elem_of_singleton in Hs; by rewrite <- Hs].
    apply (event_le_point (MkEvent s START_LIFE id)). by eapply (sorted_split p e q).
  - apply (event_le_point e (MkEvent t END_LIFE id)). by eapply (sorted_split p e q).
Qed.

End Meet.

(** ** The whole allocator *)

Section Whole.
Context (liveness aliases : list Z) (mapping0 : list (option nat)).
Context (Hlive : length liveness = (2 * length mapping0)%nat).
Context (Hal : (length aliases <= length mapping0)%nat).
Context (Hsrc : Forall (fun a => 0 <= a < Z.of_nat (length mapping0)) aliases).
Context (Hwidth : Z.of_nat (length mapping0) < 2 ^ STORE_WORD_WIDTH).

(** The intermediate results of [Run]: the sorted events, the state after the
    scan (in which no register is in use any more) and the two results. *)
Record run (es : list Event) (st : state) (m : list (option nat)) (n : nat) : Prop := {
  r_paired : paired es;
  r_events : forall e, e ∈ es <-> is_event liveness aliases e;
  r_steps : steps (MkState ∅ ∅ mapping0) es = Some st;
  r_inv : inv n (foldl see ∅ es) ∅ st;
  r_used : used st = ∅;
  r_peak : n = 0%nat \/ exists p e q, es = p ++ e :: q /\ type e = START_LIFE /\
                                      n = size (foldl alive ∅ (p ++ [e]));
  r_length : length m = length mapping0;
  r_alias : forall id a, aliases !! id = Some a ->
    m !! id = if decide (Z.to_nat a < id)%nat then m !! Z.to_nat a else mapping st !! Z.to_nat a;
  r_direct : forall id, (length aliases <= id)%nat -> m !! id = mapping st !! id;
  r_run : Run liveness (Some aliases) mapping0 = Some (m, n) }.

Lemma initial_inv : inv 0 ∅ ∅ (MkState ∅ ∅ mapping0).
Proof. split; cbn; try done; set_solver. Qed.

Lemma is_event_bound e : is_event liveness aliases e -> (ev_id e < length mapping0)%nat.
Proof.
  intros (rg & Hr & _). revert Hr. unfold live_range. case_match; [| done].
  destruct (liveness !! (2 * ev_id e)%nat) eqn:E; [| done]. apply lookup_lt_Some in E. lia.
Qed.

Lemma Run_ok : exists es st m n, run es st m n.
Proof.
  destruct (collect_events_ok liveness aliases (length mapping0) 0) as (es0 & Hc & HN & Hin); [lia |].
  rewrite Nat.mul_0_r, drop_0 in Hc.
  assert (Hev : forall e, e ∈ es0 <-> is_event liveness aliases e).
  { intros e. rewrite Hin. split; [by intros [_ ?] | intros ?; split; [lia | done]]. }
  pose proof (sorted_paired _ _ _ HN Hev) as HP. set (es := merge_sort event_le es0) in *.
  assert (Hes : forall e, e ∈ es <-> is_event liveness aliases e).
  { intros e. rewrite <- Hev. unfold es. by rewrite (merge_sort_Permutation event_le es0). }
  pose proof (paired_ok _ HP) as Hok.
  destruct (steps_ok [] es 0 ∅ ∅ (MkState ∅ ∅ mapping0)) as (n & st & Hs & HI & Hl & _ & _ & Hpeak).
  { apply initial_inv. }
  { by rewrite app_nil_r. }
  { apply Forall_forall. intros e He. by apply is_event_bound, Hes. }
  cbn [mapping] in Hl.
  assert (Hend : foldl alive ∅ es = ∅).
  { rewrite <- (app_nil_r es) in Hok. by apply ok_app in Hok. }
  rewrite Hend in HI.
  assert (Hused : used st = ∅).
  { pose proof (i_size _ _ _ _ HI) as Hz. rewrite size_empty in Hz. by apply size_empty_inv, leibniz_equiv in Hz. }
  destruct (copy_aliases_ok aliases 0 (mapping st)) as (m & Hm & Hlm & Hsame & Ha); [lia | |].
  { eapply Forall_impl; [exact Hsrc |]. cbn. intros a Ha. rewrite u_int_id; lia. }
  exists es, st, m, n. split; try done.
  - congruence.
  - intros id a Hid. rewrite Forall_forall in Hsrc.
    assert (Hb : 0 <= a < Z.of_nat (length mapping0)) by (apply Hsrc; by eapply list_elem_of_lookup_2).
    specialize (Ha id a Hid). rewrite u_int_id in Ha by lia. exact Ha.
  - intros id Hid. apply Hsame. cbn. lia.
  - unfold Run. rewrite Hc. cbn [mbind option_bind]. fold es. rewrite Hs. cbn [mbind option_bind].
    rewrite decide_True by done. cbn [mbind option_bind]. rewrite Hm. cbn [mbind option_bind]. do 2 f_equal. rewrite (inv_k _ _ _ _ HI), Hused. by rewrite size_empty.
Qed.

Lemma direct_mapping es st m n id range :
  run es st m n -> live_range liveness aliases id = Some range -> m !! id = mapping st !! id.
Proof.
  intros HR Hr. unfold live_range, allocated in Hr. destruct (aliases !! id) as [a |] eqn:Ea.
  - case_match eqn:Eq; [| done]. apply Z.eqb_eq in Eq. subst a. rewrite (r_alias _ _ _ _ HR _ _ Ea), Nat2Z.id.
    by rewrite decide_False by lia.
  - apply (r_direct _ _ _ _ HR). by apply lookup_ge_None.
Qed.

Lemma meet_apart es st m n p q a b :
  run es st m n -> es = p ++ q -> a ∈ foldl alive ∅ p -> b ∈ foldl alive ∅ p -> a <> b ->
  mapping st !! a <> mapping st !! b.
Proof.
  intros HR E Ha Hb Hne. pose proof (paired_ok _ (r_paired _ _ _ _ HR)) as Hok.
  pose proof (r_steps _ _ _ _ HR) as Hs.
  assert (HF : forall l (m' : list (option nat)), (forall e, e ∈ l -> e ∈ es) -> length m' = length mapping0 ->
    Forall (fun e => (ev_id e < length m')%nat) l).
  { intros l m' Hl ->. apply Forall_forall. intros e He. by apply is_event_bound, (r_events _ _ _ _ HR), Hl. }
  rewrite E in Hs, Hok. rewrite steps_app in Hs. pose proof (ok_app _ _ _ _ Hok) as Hok2.
  destruct (steps_ok q p 0 ∅ ∅ _ initial_inv Hok) as (k1 & st1 & E1 & HI1 & Hl1 & _).
  { apply HF; [set_solver | done]. }
  rewrite E1 in Hs. cbn [mbind option_bind] in Hs.
  destruct (steps_ok [] q k1 _ _ st1 HI1) as (k2 & st2 & E2 & _ & _ & _ & Hkeep & _).
  { by rewrite app_nil_r. }
  { apply HF; [set_solver | done]. }
  rewrite E2 in Hs. injection Hs as ->. pose proof (i_seen _ _ _ _ HI1) as Hsub.
  rewrite !Hkeep by auto. intros Eq. by apply Hne, (i_inj _ _ _ _ HI1).
Qed.

End Whole.

(** Locals that are pairwise kept apart need a register each. *)
Lemma clique_bound (f : nat -> nat) (A : gset nat) k :
  (forall id, id ∈ A -> (f id < k)%nat) ->
  (forall a b, a ∈ A -> b ∈ A -> a <> b -> f a <> f b) -> (size A <= k)%nat.
Proof.
  intros Hlt Hap. rewrite <- (length_seq k 0). change (size A) with (length (elements A)). rewrite <- (length_fmap f).
  apply submseteq_length, NoDup_submseteq.
  - apply NoDup_fmap_2_strong; [| apply NoDup_elements]. intros a b Ha%elem_of_elements Hb%elem_of_elements Eq.
    destruct (decide (a = b)) as [| Hne]; [done |]. by destruct (Hap a b Ha Hb Hne).
  - intros x (a & -> & Ha%elem_of_elements)%list_elem_of_fmap. apply elem_of_seq. specialize (Hlt a Ha). lia.
Qed.

(** C14. The register allocation of a function keeps simultaneously live locals
    apart.  For every vector of live ranges and every vector of aliases of the
    right lengths, [Run] fills the array: every local with a live range of its
    own gets a register below [nLocals], two locals that are alive at a common
    program point get different registers, and an alias has the register of
    the local it stands for. *)
Theorem registers_apart (liveness aliases : list Z) (mapping0 : list (option nat)) :
  length liveness = (2 * length mapping0)%nat ->
  (length aliases <= length mapping0)%nat ->
  Forall (fun a => 0 <= a < Z.of_nat (length mapping0)) aliases ->
  Z.of_nat (length mapping0) < 2 ^ STORE_WORD_WIDTH ->
  exists m nLocals, Run liveness (Some aliases) mapping0 = Some (m, nLocals) /\
    length m = length mapping0 /\
    (forall id range, live_range liveness aliases id = Some range ->
       exists r, m !! id = Some (Some r) /\ (r < nLocals)%nat) /\
    (forall a b, interfere liveness aliases a b -> m !! a <> m !! b) /\
    (forall id src, aliases !! id = Some (Z.of_nat src) -> (src <= id)%nat -> m !! id = m !! src).
Proof.
  intros Hlive Hal Hsrc Hw.
  destruct (Run_ok liveness aliases mapping0 Hlive Hal Hsrc Hw) as (es & st & m & n & HR).
  exists m, n. split; [apply (r_run _ _ _ _ _ _ _ HR) |]. split; [apply (r_length _ _ _ _ _ _ _ HR) |]. split; [| split].
  - intros id [s t] Hr. rewrite (direct_mapping _ _ _ Hlive Hal _ _ _ _ _ _ HR Hr).
    apply (i_bound _ _ _ _ (r_inv _ _ _ _ _ _ _ HR)). apply foldl_see. right. exists s.
    apply (live_event _ _ _ (r_events _ _ _ _ _ _ _ HR) id s t START_LIFE Hr).
  - intros a b HI. pose proof HI as (Hne & sa & ea & sb & eb & Ha & Hb & _).
    rewrite (direct_mapping _ _ _ Hlive Hal _ _ _ _ _ _ HR Ha), (direct_mapping _ _ _ Hlive Hal _ _ _ _ _ _ HR Hb).
    destruct (interfere_meet _ _ _ (r_paired _ _ _ _ _ _ _ HR) (r_events _ _ _ _ _ _ _ HR) a b HI)
      as (p & q & E & Hpa & Hpb).
    by eapply (meet_apart liveness aliases mapping0).
  - intros id src Hid Hle. rewrite (r_alias _ _ _ _ _ _ _ HR _ _ Hid), Nat2Z.id. case_decide; [done |].
    assert (src = id) as -> by lia. symmetry.
    rewrite (r_alias _ _ _ _ _ _ _ HR _ _ Hid), Nat2Z.id. by rewrite decide_False by lia.
Qed.

(** C15. The linear scan is optimal: no assignment of registers that keeps
    simultaneously live locals apart gets along with fewer than the [nLocals]
    registers [Run] asks for. *)
Theorem fewest_registers (liveness aliases : list Z) (mapping0 : list (option nat)) :
  length liveness = (2 * length mapping0)%nat ->
  (length aliases <= length mapping0)%nat ->
  Forall (fun a => 0 <= a < Z.of_nat (length mapping0)) aliases ->
  Z.of_nat (length mapping0) < 2 ^ STORE_WORD_WIDTH ->
  exists m nLocals, Run liveness (Some aliases) mapping0 = Some (m, nLocals) /\
    forall (f : nat -> nat) k,
      (forall id range, live_range liveness aliases id = Some range -> (f id < k)%nat) ->
      (forall a b, interfere liveness aliases a b -> f a <> f b) ->
      (nLocals <= k)%nat.
Proof.
  intros Hlive Hal Hsrc Hw.
  destruct (Run_ok liveness aliases mapping0 Hlive Hal Hsrc Hw) as (es & st & m & n & HR).
  exists m, n. split; [apply (r_run _ _ _ _ _ _ _ HR) |]. intros f k Hf Hapart.
  destruct (r_peak _ _ _ _ _ _ _ HR) as [-> | (p & e & q & E & Ht & ->)]; [lia |].
  assert (Hrange := meet_range _ _ _ (r_paired _ _ _ _ _ _ _ HR) (r_events _ _ _ _ _ _ _ HR) p e q).
  apply (clique_bound f).
  - intros id Hid. destruct (Hrange id E Ht Hid) as (s & t & Hr & _). by eapply Hf.
  - intros a b Ha Hb Hne. apply Hapart. split; [done |].
    destruct (Hrange a E Ht Ha) as (sa & ea & Hra & ?), (Hrange b E Ht Hb) as (sb & eb & Hrb & ?).
    exists sa, ea, sb, eb. split_and!; [done | done | lia | lia].
Qed.

End Props.

(** Six locals: local 3 is never alive, local 4 is an alias of local 1, and
    the locals 0, 1 and 5 are alive together. *)
Definition sample_liveness : list Z := [0; 5; 1; 4; 5; 7; 9; 2; 3; 3; 2; 3].
Definition sample_aliases : list Z := [0; 1; 2; 3; 1].

#[local] Existing Instance P64.

Example sample_run :
  Run sample_liveness (Some sample_aliases) (replicate 6 None) =
  Some ([Some 0; Some 1; Some 1; None; Some 1; Some 2]%nat, 3%nat).
Proof. vm_compute. reflexivity. Qed.

Example registers_apart_witness :
  exists m nLocals,
    Run sample_liveness (Some sample_aliases) (replicate 6 None) = Some (m, nLocals) /\
    m !! 0%nat <> m !! 5%nat /\ m !! 4%nat = m !! 1%nat.
Proof.
  destruct (registers_apart sample_liveness sample_aliases (replicate 6 None)) as (m & n & E & _ & _ & Hap & Hal).
  - reflexivity.
  - cbn; lia.
  - repeat constructor; cbn; lia.
  - vm_compute. reflexivity.
  - exists m, n. split; [exact E |]. split.
    + apply Hap. split; [lia |]. exists 0, 5, 2, 3. split_and!; [reflexivity | reflexivity | lia | lia].
    + apply (Hal 4%nat 1%nat); [reflexivity | lia].
Defined.

Example fewest_registers_witness :
  ~ exists f : nat -> nat,
    (forall id range, live_range sample_liveness sample_aliases id = Some range -> (f id < 2)%nat) /\
    (forall a b, interfere sample_liveness sample_aliases a b -> f a <> f b).
Proof.
  intros (f & Hf & Hap).
  destruct (fewest_registers sample_liveness sample_aliases (replicate 6 None)) as (m & n & E & Hmin).
  - reflexivity.
  - cbn; lia.
  - repeat constructor; cbn; lia.
  - vm_compute. reflexivity.
  - specialize (Hmin f 2%nat Hf Hap). rewrite sample_run in E. injection E as <- <-. lia.
Defined.
