(* ===== verification/ByteCodeJitter.v ===== *)
(** * Byte code: registers, operand loading and the selection of components

    The part of ByteCodeJitter.cc that moves values between registers: the
    scratch registers and the immediate environment (ByteCodeJitter.hh),
    [LoadImmediateInto] to [LoadIdRefKill], [NewTupInto], [LoadTuple],
    [LoadTupleIntoScratch] and [LoadTagVal], with the instructions they emit
    as ByteCodeInterpreter.cc executes them.

    An emitted instruction is a value of [bc_instr] with its operands in the
    order of the SET_INSTR macros; [exec_instr] is its case of the interpreter
    on the locals of the frame.  A function of the compiler is a function on
    the state of the compiler; [None] is an access out of the bounds of an
    array or a vector, or the failure of [Error]. *)

From S2P Require Import Prelude Config HeaderOp AliceData AbstractCode.

#[local] Open Scope Z_scope.

(** ** Instructions *)

Inductive bc_instr :=
  | await (r : nat)
  | load_zero (r : nat)
  | load_int (r : nat) (number : Z)
  | load_immediate (r : nat) (index : nat)
  | load_global (r : nat) (index : Z)
  | load_reg (r0 r1 : nat)
  | swap_regs (r0 r1 : nat)
  | new_tup (r : nat) (size : nat)
  | init_tup (r0 r1 : nat) (index : nat)
  | new_pair (r0 r1 r2 : nat)
  | new_triple (r0 r1 r2 r3 : nat)
  | select_tup (r0 r1 : nat) (index : nat)
  | select_tup0 (r0 r1 : nat)
  | select_tup1 (r0 r1 : nat)
  | select_tup2 (r0 r1 : nat)
  | get_tup2 (r0 r1 r2 : nat)
  | get_tup3 (r0 r1 r2 r3 : nat)
  | load_tagval (isBig : bool) (r0 r1 : nat) (index : nat)
  | load_tagval1 (isBig : bool) (r0 r1 : nat)
  | load_tagval2 (isBig : bool) (r0 r1 r2 : nat)
  | load_tagval3 (isBig : bool) (r0 r1 r2 r3 : nat).

Section Interpreter.
Context `{Platform} {C : Type} (wundef : word).

(** The locals of the frame and the store; [IP] is the immediate environment
    and [CP] the closure of the frame. *)
Record machine := Machine { m_regs : list word; m_store : store C }.

Inductive outcome :=
  | Next (m : machine)
  | Request (w : word).

Definition GETREG (m : machine) (r : nat) : option word := m_regs m !! r.
Definition SETREG (m : machine) (r : nat) (w : word) : option machine :=
  if decide (r < length (m_regs m))%nat then Some (Machine (<[r := w]> (m_regs m)) (m_store m)) else None.

(** REQUEST_WORD(Tuple, tuple, GETREG(r)) *)
Definition request_tuple (m : machine) (r : nat) (k : Z -> option machine) : option outcome :=
  w ← GETREG m r;
  t ← Tuple_FromWord (m_store m) w;
  match t with
  | None => Some (Request w)
  | Some tuple => m' ← k tuple; Some (Next m')
  end.

Definition Tuple_Sel (m : machine) (a : Z) (i : nat) : option word := GetArg (m_store m) a (Z.of_nat i).

(** [TagVal::FromWord] and [BigTagVal::FromWord], which the code uses without
    a test for the null pointer, and [Sel]. *)
Definition tagval_of (isBig : bool) (m : machine) (r : nat) : option Z :=
  w ← GETREG m r;
  mjoin (if isBig then BigTagVal_FromWord (m_store m) w else TagVal_FromWord (m_store m) w).
Definition TagVal_Sel (isBig : bool) (m : machine) (a : Z) (i : nat) : option word :=
  GetArg (m_store m) a (if isBig then 1 + Z.of_nat i else Z.of_nat i).

Definition next (m : option machine) : option outcome := m ← m; Some (Next m).

Definition set_new (m : machine) (r : nat) (sa : store C * Z) : option machine :=
  SETREG (Machine (m_regs m) sa.1) r (WPtr sa.2).

(** Loads of registers. *)
Definition exec_load (IP : list (option word)) (CP : list word) (m : machine) (i : bc_instr) : option outcome :=
  match i with
  | load_zero r => next (SETREG m r (WInt 0))
  | load_int r number => next (SETREG m r (WInt (s_int number)))
  | load_immediate r index => w ← mjoin (IP !! index); next (SETREG m r w)
  | load_global r index => w ← aget CP index; next (SETREG m r w)
  | load_reg r0 r1 => w ← GETREG m r1; next (SETREG m r0 w)
  | swap_regs r0 r1 =>
      tmp ← GETREG m r0; w ← GETREG m r1; m ← SETREG m r0 w; next (SETREG m r1 tmp)
  | _ => None
  end.

(** Tuples. *)
Definition exec_tup (m : machine) (i : bc_instr) : option outcome :=
  match i with
  | new_tup r size => next (set_new m r (Tuple_New wundef (m_store m) (replicate size wundef)))
  | init_tup r0 r1 index =>
      w0 ← GETREG m r0; a ← Tuple_FromWordDirect (m_store m) w0; w ← GETREG m r1;
      st ← ReplaceArg (m_store m) a (Z.of_nat index) w; Some (Next (Machine (m_regs m) st))
  | new_pair r0 r1 r2 =>
      w1 ← GETREG m r1; w2 ← GETREG m r2; next (set_new m r0 (Tuple_New wundef (m_store m) [w1; w2]))
  | new_triple r0 r1 r2 r3 =>
      w1 ← GETREG m r1; w2 ← GETREG m r2; w3 ← GETREG m r3;
      next (set_new m r0 (Tuple_New wundef (m_store m) [w1; w2; w3]))
  | select_tup r0 r1 index => request_tuple m r1 (fun t => w ← Tuple_Sel m t index; SETREG m r0 w)
  | select_tup0 r0 r1 => request_tuple m r1 (fun t => w ← Tuple_Sel m t 0; SETREG m r0 w)
  | select_tup1 r0 r1 => request_tuple m r1 (fun t => w ← Tuple_Sel m t 1; SETREG m r0 w)
  | select_tup2 r0 r1 => request_tuple m r1 (fun t => w ← Tuple_Sel m t 2; SETREG m r0 w)
  | get_tup2 r0 r1 r2 =>
      request_tuple m r2 (fun t =>
        w0 ← Tuple_Sel m t 0; m ← SETREG m r0 w0; w1 ← Tuple_Sel m t 1; SETREG m r1 w1)
  | get_tup3 r0 r1 r2 r3 =>
      request_tuple m r3 (fun t =>
        w0 ← Tuple_Sel m t 0; m ← SETREG m r0 w0; w1 ← Tuple_Sel m t 1; m ← SETREG m r1 w1;
        w2 ← Tuple_Sel m t 2; SETREG m r2 w2)
  | _ => None
  end.

(** The components of tagged values. *)
Definition exec_tagval (m : machine) (i : bc_instr) : option outcome :=
  match i with
  | load_tagval isBig r0 r1 index =>
      a ← tagval_of isBig m r1; w ← TagVal_Sel isBig m a index; next (SETREG m r0 w)
  | load_tagval1 isBig r0 r1 =>
      a ← tagval_of isBig m r1; w ← TagVal_Sel isBig m a 0; next (SETREG m r0 w)
  | load_tagval2 isBig r0 r1 r2 =>
      a ← tagval_of isBig m r2; w0 ← TagVal_Sel isBig m a 0; m ← SETREG m r0 w0;
      w1 ← TagVal_Sel isBig m a 1; next (SETREG m r1 w1)
  | load_tagval3 isBig r0 r1 r2 r3 =>
      a ← tagval_of isBig m r3; w0 ← TagVal_Sel isBig m a 0; m ← SETREG m r0 w0;
      w1 ← TagVal_Sel isBig m a 1; m ← SETREG m r1 w1; w2 ← TagVal_Sel isBig m a 2; next (SETREG m r2 w2)
  | _ => None
  end.

Definition exec_instr (IP : list (option word)) (CP : list word) (m : machine) (i : bc_instr) : option outcome :=
  match i with
  | await r =>
      w ← GETREG m r;
      t ← WordToTransient (m_store m) w;
      match t with Some _ => Some (Request w) | None => Some (Next m) end
  | load_zero _ | load_int _ _ | load_immediate _ _ | load_global _ _ | load_reg _ _ | swap_regs _ _ => exec_load IP CP m i
  | new_tup _ _ | init_tup _ _ _ | new_pair _ _ _ | new_triple _ _ _ _ | select_tup _ _ _ | select_tup0 _ _ | select_tup1 _ _ | select_tup2 _ _
  | get_tup2 _ _ _ | get_tup3 _ _ _ _ => exec_tup m i
  | load_tagval _ _ _ _ | load_tagval1 _ _ _ | load_tagval2 _ _ _ _ | load_tagval3 _ _ _ _ _ => exec_tagval m i
  end.

(** A sequence of instructions without jumps, up to its end or to a request. *)
Fixpoint exec (IP : list (option word)) (CP : list word) (m : machine) (code : list bc_instr) : option outcome :=
  match code with
  | [] => Some (Next m)
  | i :: code =>
      o ← exec_instr IP CP m i;
      match o with Next m' => exec IP CP m' code | Request w => Some (Request w) end
  end.

End Interpreter.
Arguments machine : clear implicits.
Arguments outcome : clear implicits.

(** ** The immediate environment *)

(** [values] is the tuple with [size] elements ([None] is an element that was
    never initialised); [map] is the hash table from values to their index,
    as the list of its entries. *)
Record ByteCodeImmediateEnv := mkImEnv {
  ie_index : nat;
  ie_size : nat;
  ie_values : list (option word);
  ie_map : list (word * nat) }.

Definition imEnv_Init : ByteCodeImmediateEnv := mkImEnv 0 5 (replicate 5 None) [].

Definition map_CondGet (map : list (word * nat)) (item : word) : option nat :=
  snd <$> find (fun p => bool_decide (p.1 = item)) map.

Section Env.
Context `{Platform} {C : Type} (st : store C).

Definition IsTransient (w : word) : bool :=
  match w with
  | WInt _ => false
  | WPtr a => match st_get st a with Some (NTransient _ _) => true | _ => false end
  end.

(** The part of [Register] that enlarges the tuple. *)
Definition Register_grow (env : ByteCodeImmediateEnv) : ByteCodeImmediateEnv :=
  if decide (ie_size env <= ie_index env)%nat then
    let size := Nat.div (ie_size env * 3) 2 in
    mkImEnv (ie_index env) size (ie_values env ++ replicate (size - ie_size env) None) (ie_map env)
  else env.

Definition Register (env : ByteCodeImmediateEnv) (item : word) : option (nat * ByteCodeImmediateEnv) :=
  let shared := if IsTransient item then None else map_CondGet (ie_map env) item in
  match shared with
  | Some index => Some (index, env)
  | None =>
      let env := Register_grow env in
      let index := ie_index env in
      if decide (index < length (ie_values env))%nat then
        Some (index, mkImEnv (S index) (ie_size env) (<[index := Some item]> (ie_values env))
                       (if IsTransient item then ie_map env else (item, index) :: ie_map env))
      else None
  end.

End Env.

(** ** The state of the compiler *)

Record jitter := mkJitter {
  j_mapping : list (option nat);   (* the registers of the locals *)
  j_nLocals : nat;                 (* currentNLocals *)
  j_localOffset : Z;
  j_globalSubst : list idRef;
  j_imEnv : ByteCodeImmediateEnv;
  j_scratch : nat;
  j_nRegisters : nat;
  j_reusable : bool;               (* topScratchReusable *)
  j_code : list bc_instr }.        (* the write buffer, up to PC *)

Definition with_imEnv x j := mkJitter (j_mapping j) (j_nLocals j) (j_localOffset j) (j_globalSubst j) x (j_scratch j) (j_nRegisters j) (j_reusable j) (j_code j).
Definition with_scratch s n r j := mkJitter (j_mapping j) (j_nLocals j) (j_localOffset j) (j_globalSubst j) (j_imEnv j) s n r (j_code j).
Definition with_code x j := mkJitter (j_mapping j) (j_nLocals j) (j_localOffset j) (j_globalSubst j) (j_imEnv j) (j_scratch j) (j_nRegisters j) (j_reusable j) x.

(** Functions of the compiler. *)
Definition J (A : Type) : Type := jitter -> option (A * jitter).
Definition jret {A} (x : A) : J A := fun j => Some (x, j).
Definition jbind {A B} (m : J A) (k : A -> J B) : J B := fun j => p ← m j; k p.1 p.2.
Definition jerror {A} : J A := fun _ => None.
Definition jlift {A} (o : option A) : J A := fun j => x ← o; Some (x, j).
Declare Scope jit_scope.
Delimit Scope jit_scope with jit.
Notation "x <- m ;; k" := (jbind m (fun x => k)) (at level 100, m at next level, right associativity) : jit_scope.
Notation "m ;; k" := (jbind m (fun _ => k)) (at level 100, right associativity) : jit_scope.
#[local] Open Scope jit_scope.

Section Jitter.
Context `{Platform} {C : Type} (st : store C).

Definition SET_INSTR (i : bc_instr) : J unit := fun j => Some (tt, with_code (j_code j ++ [i]) j).

Definition GetNewScratch (useReusable : bool) : J nat := fun j =>
  let '(scratch, reusable) :=
    if useReusable then
      (if j_reusable j then j_scratch j else S (j_scratch j), true)
    else (S (j_scratch j), false) in
  let nRegisters := if (j_nRegisters j <? scratch)%nat then scratch else j_nRegisters j in
  Some ((scratch - 1)%nat, with_scratch scratch nRegisters reusable j).

Definition id_to_reg (j : jitter) (id : Z) : option nat := mjoin (aget (j_mapping j) (u_int (id + j_localOffset j))).

Definition IdToReg (id : Z) : J nat := fun j => r ← id_to_reg j id; Some (r, j).

Definition lookup_subst (j : jitter) (x : idRef) : option idRef :=
  match x with Global i => aget (j_globalSubst j) i | _ => Some x end.

Definition LookupSubst (x : idRef) : J idRef := fun j => y ← lookup_subst j x; Some (y, j).

Definition imEnv_Register (item : word) : J nat := fun j =>
  p ← Register st (j_imEnv j) item; Some (p.1, with_imEnv p.2 j).

(** ** Loading operands *)

Definition LoadImmediateInto (dst : nat) (val : word) : J unit :=
  match val with
  | WInt x => if x =? 0 then SET_INSTR (load_zero dst) else SET_INSTR (load_int dst (u_int x))
  | WPtr _ => index <- imEnv_Register val;; SET_INSTR (load_immediate dst index)
  end.

Definition LoadImmediate (val : word) (useReusableScratch : bool) : J nat :=
  s <- GetNewScratch useReusableScratch;; LoadImmediateInto s val;; jret s.

Definition LoadIdRefInto (dst : nat) (x : idRef) : J unit :=
  tagVal <- LookupSubst x;;
  match tagVal with
  | LastUseLocal id | Local id =>
      src <- IdToReg id;; if decide (src = dst) then jret tt else SET_INSTR (load_reg dst src)
  | Global i => SET_INSTR (load_global dst i)
  | Immediate w => LoadImmediateInto dst w
  end.

Definition LoadIdRefKill (x : idRef) (useReusableScratch : bool) : J nat :=
  tagVal <- LookupSubst x;;
  match tagVal with
  | LastUseLocal id | Local id => IdToReg id
  | Global i => s <- GetNewScratch useReusableScratch;; SET_INSTR (load_global s i);; jret s
  | Immediate w => LoadImmediate w useReusableScratch
  end.

(** ** Tuples *)

(** The test whether [dst] is one of the operands, from the last one on. *)
Fixpoint conflicts (dst : nat) (rev_idRefs : list idRef) : J bool :=
  match rev_idRefs with
  | [] => jret false
  | x :: rest =>
      idRef <- LookupSubst x;;
      match idRef with
      | Local id | LastUseLocal id =>
          r <- IdToReg id;; if decide (r = dst) then jret true else conflicts dst rest
      | _ => conflicts dst rest
      end
  end.

(** The elements [idRefs], in reverse; the index of the first is their number
    minus one. *)
Fixpoint init_tups (useDst : nat) (rev_idRefs : list idRef) : J unit :=
  match rev_idRefs with
  | [] => jret tt
  | x :: rest =>
      src <- LoadIdRefKill x true;;
      SET_INSTR (init_tup useDst src (length rest));;
      init_tups useDst rest
  end.

Definition NewTupInto (dst : nat) (idRefs : list idRef) : J unit :=
  match idRefs with
  | [] => SET_INSTR (load_zero dst)
  | [x0; x1] =>
      r0 <- LoadIdRefKill x0 false;; r1 <- LoadIdRefKill x1 false;; SET_INSTR (new_pair dst r0 r1)
  | [x0; x1; x2] =>
      r0 <- LoadIdRefKill x0 false;; r1 <- LoadIdRefKill x1 false;; r2 <- LoadIdRefKill x2 false;;
      SET_INSTR (new_triple dst r0 r1 r2)
  | _ =>
      conflict <- conflicts dst (rev idRefs);;
      useDst <- (if conflict then GetNewScratch false else jret dst);;
      SET_INSTR (new_tup useDst (length idRefs));;
      init_tups useDst (rev idRefs);;
      if decide (useDst = dst) then jret tt else SET_INSTR (load_reg dst useDst)
  end.

Definition NewTup (idRefs : list idRef) (useReusableScratch : bool) : J nat :=
  dst <- GetNewScratch useReusableScratch;; NewTupInto dst idRefs;; jret dst.

(** ** Selecting the components of tuples and tagged values *)

Definition AllIdDefsWildcards (idDefs : list idDef) : bool :=
  forallb (fun d => match d with Wildcard => true | IdDef _ => false end) idDefs.

(** One component: the source is saved first when the destination is the
    source and it is needed again.  The result is the register that holds the
    source from then on. *)
Definition select_one (check : bool) (instr : nat -> nat -> bc_instr) (d : idDef) (src : nat) : J nat :=
  match d with
  | Wildcard => jret src
  | IdDef id =>
      dst <- IdToReg id;;
      src <- (if check && bool_decide (dst = src) then
                tmp <- GetNewScratch false;; SET_INSTR (load_reg tmp src);; jret tmp
              else jret src);;
      SET_INSTR (instr dst src);;
      jret src
  end.

(** The components from the last one down to index 0; the head of
    [rev_idDefs] has the index [length rest]. *)
Fixpoint select_all (instr : nat -> nat -> nat -> bc_instr) (rev_idDefs : list idDef) (src : nat) : J unit :=
  match rev_idDefs with
  | [] => jret tt
  | d :: rest =>
      src <- select_one (0 <? length rest)%nat (instr (length rest)) d src;;
      select_all instr rest src
  end.

Definition select_tup_instr (index r0 r1 : nat) : bc_instr :=
  match index with
  | O => select_tup0 r0 r1
  | 1%nat => select_tup1 r0 r1
  | 2%nat => select_tup2 r0 r1
  | _ => select_tup r0 r1 index
  end.

Definition LoadTuple (src : nat) (idDefs : list idDef) : J unit :=
  if AllIdDefsWildcards idDefs then SET_INSTR (await src)
  else match idDefs with
       | [IdDef id1; IdDef id2] =>
           dst1 <- IdToReg id1;; dst2 <- IdToReg id2;; SET_INSTR (get_tup2 dst1 dst2 src)
       | [IdDef id1; IdDef id2; IdDef id3] =>
           dst1 <- IdToReg id1;; dst2 <- IdToReg id2;; dst3 <- IdToReg id3;;
           SET_INSTR (get_tup3 dst1 dst2 dst3 src)
       | _ => select_all select_tup_instr (rev idDefs) src
       end.

Definition LoadTagVal (testVal : nat) (idDefs : list idDef) (isBig : bool) : J unit :=
  match idDefs with
  | [IdDef id] => dst <- IdToReg id;; SET_INSTR (load_tagval1 isBig dst testVal)
  | [Wildcard] => jret tt
  | [IdDef id1; IdDef id2] =>
      dst1 <- IdToReg id1;; dst2 <- IdToReg id2;; SET_INSTR (load_tagval2 isBig dst1 dst2 testVal)
  | [IdDef id1; IdDef id2; IdDef id3] =>
      dst1 <- IdToReg id1;; dst2 <- IdToReg id2;; dst3 <- IdToReg id3;;
      SET_INSTR (load_tagval3 isBig dst1 dst2 dst3 testVal)
  | _ => select_all (fun index r0 r1 => load_tagval isBig r0 r1 index) (rev idDefs) testVal
  end.

(** [dsts] in the order of the components. *)
Fixpoint new_scratches (size : nat) : J (list nat) :=
  match size with
  | O => jret []
  | S size => s <- GetNewScratch false;; ss <- new_scratches size;; jret (s :: ss)
  end.

Fixpoint select_above_2 (src : nat) (rev_dsts : list nat) : J (list nat) :=
  match rev_dsts with
  | dst :: ((_ :: _ :: _ :: _) as rest) =>
      SET_INSTR (select_tup dst src (length rest));; select_above_2 src rest
  | _ => jret rev_dsts
  end.

(** With no destination at all [index] wraps around and the loop reads out of
    bounds. *)
Definition LoadTupleIntoScratch (src : nat) (size : nat) : J (list nat) :=
  dsts <- new_scratches size;;
  rest <- select_above_2 src (rev dsts);;
  match rest with
  | [d2; d1; d0] => SET_INSTR (get_tup3 d0 d1 d2 src);; jret dsts
  | [d1; d0] => SET_INSTR (get_tup2 d0 d1 src);; jret dsts
  | [d0] => SET_INSTR (select_tup0 d0 src);; jret dsts
  | _ => jerror
  end.

(** ** Instructions *)

(** Every round of the loop in [CompileInstr] starts with these assignments. *)
Definition begin_instr : J unit := fun j => Some (tt, with_scratch (j_nLocals j) (j_nRegisters j) false j).

(** The handlers of [PutVar], [PutTup], [GetTup] and [Kill]; they return the
    instruction that follows. *)
Definition InstrPutVar (id : Z) (x : idRef) (pc : instr) : J instr :=
  dst <- IdToReg id;; LoadIdRefInto dst x;; jret pc.

Definition InstrPutTup (id : Z) (idRefs : list idRef) (pc : instr) : J instr :=
  dst <- IdToReg id;; NewTupInto dst idRefs;; jret pc.

Definition InstrGetTup (idDefs : list idDef) (x : idRef) (pc : instr) : J instr :=
  src <- LoadIdRefKill x false;; LoadTuple src idDefs;; jret pc.

Definition InstrKill (ids : list Z) (pc : instr) : J instr := jret pc.

End Jitter.
