(* ===== verification/InlineCCC.v ===== *)
(** * The calling convention of inlined functions and of self calls

    [ByteCodeJitter::CompileInlineCCC]: the code that loads the actual
    arguments [args] into the formal arguments of a function that is inlined
    or that calls itself in tail position.  The arguments may be locals that
    the call overwrites, so the assignment is split into chains
    (x <- y, y <- z, ..., w <- leaf) and cycles; a chain is emitted from its
    first register on, a cycle with swaps.

    [UIntSet] and [UIntMap] are arrays of [currentNLocals] elements and a
    chain is a vector of [2 * nArgs + 1] elements; an access out of their
    bounds is [None]. *)

From S2P Require Import Prelude Config HeaderOp AliceData AbstractCode ByteCodeJitter.

#[local] Open Scope Z_scope.
#[local] Open Scope jit_scope.

(** ** UIntSet and UIntMap *)

Definition UIntSet_New (x : nat) : list bool := replicate x false.
Definition UIntSet_Put (s : list bool) (key : nat) : option (list bool) :=
  if decide (key < length s)%nat then Some (<[key := true]> s) else None.
Definition UIntSet_IsMember (s : list bool) (key : nat) : option bool := s !! key.

(** [set] and [map] of a [UIntMap] together. *)
Definition UIntMap_New {A} (x : nat) : list (option A) := replicate x None.
Definition UIntMap_Put {A} (m : list (option A)) (key : nat) (item : A) : option (list (option A)) :=
  if decide (key < length m)%nat then Some (<[key := Some item]> m) else None.
(** [IsMember] and, when it holds, [Get]. *)
Definition UIntMap_Get {A} (m : list (option A)) (key : nat) : option (option A) := m !! key.

(** ** Chains *)

Inductive AssignmentMarker := CYCLE | LEAF (x : idRef).
Inductive slot := SReg (r : nat) | SMarker (m : AssignmentMarker).

Definition chain_Init (c : list (option slot)) (i : nat) (x : slot) : option (list (option slot)) :=
  if decide (i < length c)%nat then Some (<[i := Some x]> c) else None.
Definition chain_Reg (c : list (option slot)) (i : nat) : option nat :=
  match c !! i with Some (Some (SReg r)) => Some r | _ => None end.
Definition chain_Marker (c : list (option slot)) (i : nat) : option AssignmentMarker :=
  match c !! i with Some (Some (SMarker m)) => Some m | _ => None end.

(** An element of [assignmentChains]. *)
Record assignment := mkAssignment { a_bottom : nat; a_top : nat; a_chain : list (option slot) }.

(** The arguments of one iteration, after [IdToReg]: the destination register
    unless it is a wildcard, and the argument. *)
Definition is_local (x : idRef) : option Z := match x with Local id | LastUseLocal id => Some id | _ => None end.

Section CCC.
Context `{Platform} {C : Type} (st : store C).

(** The maps [definedBy], [usedBy] and [visited]. *)
Record maps := mkMaps { definedBy : list (option idRef); usedBy : list (option nat); visited : list bool }.

Definition define (ms : maps) (dst : nat) (x : idRef) : option maps :=
  d ← UIntMap_Put (definedBy ms) dst x; Some (mkMaps d (usedBy ms) (visited ms)).
Definition use (ms : maps) (src dst : nat) : option maps :=
  u ← UIntMap_Put (usedBy ms) src dst; Some (mkMaps (definedBy ms) u (visited ms)).
Definition visit (ms : maps) (key : nat) : option maps :=
  v ← UIntSet_Put (visited ms) key; Some (mkMaps (definedBy ms) (usedBy ms) v).

(** The first loop: who defines and who uses a register. *)
Definition build_one (j : jitter) (ms : maps) (formal : idDef) (x : idRef) : option maps :=
  match formal with
  | Wildcard => Some ms
  | IdDef id =>
      dst ← id_to_reg j id;
      match is_local x with
      | Some sid =>
          src ← id_to_reg j sid;
          if decide (src = dst) then visit ms dst
          else ms ← define ms dst x; use ms src dst
      | None => define ms dst x
      end
  end.

Fixpoint build (j : jitter) (ms : maps) (formals : list idDef) (args : list idRef) : option maps :=
  match formals, args with
  | f :: formals, x :: args => ms ← build_one j ms f x; build j ms formals args
  | _, _ => Some ms
  end.

(** The walk through the use chain of [dst]; the result tells whether it found
    a cycle.  [--bottom] at 0 writes out of bounds. *)
Fixpoint use_walk (top dst : nat) (bottom key : nat) (ms : maps) (c : list (option slot)) :
    option (bool * nat * maps * list (option slot)) :=
  u ← UIntMap_Get (usedBy ms) key;
  match u with
  | None => Some (false, bottom, ms, c)
  | Some key' =>
      match bottom with
      | O => None
      | S bottom =>
          c ← chain_Init c bottom (SReg key');
          ms ← visit ms key';
          if decide (key' = dst) then
            c ← chain_Init c top (SMarker CYCLE); Some (true, bottom, ms, c)
          else use_walk top dst bottom key' ms c
      end
  end.

(** The walk through the definition chain from [key], which is defined.  Every
    iteration writes one more element of the chain, so that it leaves the
    vector after [fuel = length c] iterations at the latest. *)
Fixpoint def_walk (fuel : nat) (j : jitter) (top key : nat) (ms : maps) (c : list (option slot)) :
    option (nat * maps * list (option slot)) :=
  match fuel with
  | O => None
  | S fuel =>
      tagVal ← mjoin (UIntMap_Get (definedBy ms) key);
      let leaf := c ← chain_Init c (S top) (SMarker (LEAF tagVal)); Some (S top, ms, c) in
      match is_local tagVal with
      | None => leaf
      | Some sid =>
          id ← id_to_reg j sid;
          if decide (id = key) then Some (top, ms, c)
          else
            d ← UIntMap_Get (definedBy ms) id;
            match d with
            | None => leaf
            | Some _ =>
                c ← chain_Init c (S top) (SReg id);
                ms ← visit ms id;
                def_walk fuel j (S top) id ms c
            end
      end
  end.

(** The chain through [dst] and the maps after it. *)
Definition make_chain (j : jitter) (nArgs dst : nat) (ms : maps) : option (assignment * maps) :=
  p ← use_walk nArgs dst nArgs dst ms (replicate (2 * nArgs + 1) None);
  let '(cycle, bottom, ms, c) := p in
  if (cycle : bool) then Some (mkAssignment bottom nArgs c, ms)
  else
    d ← UIntMap_Get (definedBy ms) dst;
    q ← match d with
        | None => Some (nArgs, ms, c)
        | Some _ => def_walk (length c) j nArgs dst ms c
        end;
    let '(top, ms, c) := q in
    c ← (if decide (nArgs < top)%nat then chain_Init c nArgs (SReg dst)
         else chain_Init c top (SMarker (LEAF (Local (Z.of_nat dst)))));
    Some (mkAssignment bottom top c, ms).

(** The second loop: the chains. *)
Fixpoint make_chains (j : jitter) (nArgs : nat) (ms : maps) (formals : list idDef) (args : list idRef) :
    option (list assignment) :=
  match formals, args with
  | f :: formals, _ :: args =>
      match f with
      | Wildcard => make_chains j nArgs ms formals args
      | IdDef id =>
          dst ← id_to_reg j id;
          member ← UIntSet_IsMember (visited ms) dst;
          if (member : bool) then make_chains j nArgs ms formals args
          else
            ms ← visit ms dst;
            p ← make_chain j nArgs dst ms;
            rest ← make_chains j nArgs p.2 formals args;
            Some (if decide (a_top p.1 = a_bottom p.1) then rest else p.1 :: rest)
      end
  | _, _ => Some []
  end.

(** [for (u_int j = top-1; j>bottom; j--)], [j] being [bottom + n]. *)
Fixpoint emit_swaps (c : list (option slot)) (startId bottom n : nat) : J unit :=
  match n with
  | O => jret tt
  | S m => id <- jlift (chain_Reg c (bottom + n));; SET_INSTR (swap_regs startId id);; emit_swaps c startId bottom m
  end.

(** [for (u_int j = bottom; j<top-1; j++)], [n] times. *)
Fixpoint emit_loads (c : list (option slot)) (i n : nat) : J unit :=
  match n with
  | O => jret tt
  | S n =>
      dst <- jlift (chain_Reg c i);; src <- jlift (chain_Reg c (S i));;
      SET_INSTR (load_reg dst src);; emit_loads c (S i) n
  end.

Definition emit_chain (a : assignment) : J unit :=
  marker <- jlift (chain_Marker (a_chain a) (a_top a));;
  match marker with
  | CYCLE =>
      startId <- jlift (chain_Reg (a_chain a) (a_bottom a));;
      emit_swaps (a_chain a) startId (a_bottom a) (a_top a - 1 - a_bottom a)
  | LEAF x =>
      emit_loads (a_chain a) (a_bottom a) (a_top a - 1 - a_bottom a);;
      dst <- jlift (chain_Reg (a_chain a) (a_top a - 1));;
      LoadIdRefInto st dst x
  end.

Fixpoint emit_chains (l : list assignment) : J unit :=
  match l with
  | [] => jret tt
  | a :: l => emit_chain a;; emit_chains l
  end.

(** The complicated case: as many arguments as formal arguments, at least two. *)
Definition parallel_assignment (formals : list idDef) (args : list idRef) : J unit := fun j =>
  let n := j_nLocals j in
  ms ← build j (mkMaps (UIntMap_New n) (UIntMap_New n) (UIntSet_New n)) formals args;
  chains ← make_chains j (length args) ms formals args;
  emit_chains chains j.

(** The elements of [src] for the formal arguments, the last one first. *)
Fixpoint deconstruct (rev_formals : list idDef) (src : nat) : J unit :=
  match rev_formals with
  | [] => jret tt
  | f :: rest =>
      match f with
      | Wildcard => deconstruct rest src
      | IdDef id =>
          dst <- IdToReg id;;
          src <- (if decide (dst = src) then
                    S_ <- GetNewScratch false;; SET_INSTR (load_reg S_ src);; jret S_
                  else jret src);;
          SET_INSTR (select_tup dst src (length rest));;
          deconstruct rest src
      end
  end.

Definition CompileInlineCCC (formalArgs : list idDef) (args : list idRef) (isReturn : bool) : J unit :=
  if decide (length formalArgs = length args) then
    match formalArgs, args with
    | [], _ => jret tt
    | [Wildcard], _ => jret tt
    | [IdDef id], [x] => dst <- IdToReg id;; LoadIdRefInto st dst x
    | _, _ => parallel_assignment formalArgs args
    end
  else
    match formalArgs, args with
    | [], [x] => if isReturn then jret tt else reg <- LoadIdRefKill st x false;; SET_INSTR (await reg)
    | [], _ => jret tt
    | [Wildcard], _ => jret tt
    | [IdDef id], _ => dst <- IdToReg id;; NewTupInto st dst args
    | _, [x] => src <- LoadIdRefKill st x false;; deconstruct (rev formalArgs) src
    | _, _ => jret tt
    end.

End CCC.
