(* ===== verification/InlineCCCGraph.v ===== *)
(** * Parallel assignment: the chains are the components of the assignment

    The walks of [make_chains] on the graph that relates a register to the
    register it is loaded from, when no register that is overwritten is
    needed by two others: every chain is a whole component, a path or a
    cycle, and every destination is in exactly one chain. *)

From S2P Require Import Prelude Config HeaderOp AliceData AbstractCode ByteCodeJitter InlineCCC.

#[local] Open Scope Z_scope.

(** ** Segments of a chain *)

Definition seg (c : list (option slot)) (i : nat) (l : list nat) : Prop :=
  forall k r, l !! k = Some r -> chain_Reg c (i + k) = Some r.

Lemma chain_Init_ok c i x : (i < length c)%nat ->
  exists c', chain_Init c i x = Some c' /\ length c' = length c /\ c' !! i = Some (Some x) /\
             forall k, k <> i -> c' !! k = c !! k.
Proof.
  intros Hi. unfold chain_Init. rewrite decide_True by done.
  exists (<[i := Some x]> c). split; [done |].
  rewrite length_insert, list_lookup_insert_eq by done. split_and!; [done | done |].
  intros k Hk. by apply list_lookup_insert_ne.
Qed.

Lemma seg_frame c c' i l : seg c i l ->
  (forall k, (i <= k < i + length l)%nat -> c' !! k = c !! k) -> seg c' i l.
Proof.
  intros Hs Hf k r Hk. unfold chain_Reg. rewrite Hf by (apply lookup_lt_Some in Hk; lia).
  by apply Hs.
Qed.

Lemma seg_cons c i r l : chain_Reg c i = Some r -> seg c (S i) l -> seg c i (r :: l).
Proof.
  intros Hr Hs [| k] r'; cbn.
  - intros [= <-]. by rewrite Nat.add_0_r.
  - intros Hk. replace (i + S k)%nat with (S i + k)%nat by lia. by apply Hs.
Qed.

Lemma seg_app c i l1 l2 : seg c i l1 -> seg c (i + length l1) l2 -> seg c i (l1 ++ l2).
Proof.
  intros H1 H2 k r [Hk | [Hk Hr]]%lookup_app_Some; [by apply H1 |].
  replace (i + k)%nat with (i + length l1 + (k - length l1))%nat by lia. by apply H2.
Qed.

Lemma seg_nil c i : seg c i [].
Proof. intros k r Hk. by rewrite lookup_nil in Hk. Qed.

Lemma seg_one c i r : c !! i = Some (Some (SReg r)) -> seg c i [r].
Proof. intros Hc. apply seg_cons; [unfold chain_Reg; by rewrite Hc | apply seg_nil]. Qed.

(** The destination [r] is loaded from the register [s]. *)
Definition reads `{Platform} (j : jitter) (defs : list (option idRef)) (r s : nat) : Prop :=
  exists x sid, defs !! r = Some (Some x) /\ is_local x = Some sid /\ id_to_reg j sid = Some s.

Definition defined (defs : list (option idRef)) (r : nat) : Prop := exists x, defs !! r = Some (Some x).

(** What the walks rely on: [uses] holds the one register that is loaded from
    a destination, sources are registers, and there are at most [nArgs]
    destinations. *)
Record graph_ok `{Platform} (j : jitter) (nArgs : nat) (defs : list (option idRef)) (uses : list (option nat)) : Prop := {
  gr_length : length uses = length defs;
  gr_uses : forall s r, uses !! s = Some (Some r) -> reads j defs r s;
  gr_used : forall r s, reads j defs r s -> defined defs s -> uses !! s = Some (Some r);
  gr_irrefl : forall r s, reads j defs r s -> r <> s;
  gr_src : forall r x sid, defs !! r = Some (Some x) -> is_local x = Some sid ->
    exists s, id_to_reg j sid = Some s /\ (s < length defs)%nat;
  gr_card : forall l, NoDup l -> Forall (defined defs) l -> (length l <= nArgs)%nat }.

Section Graph.
Context `{Platform} (j : jitter) (nArgs : nat) (defs : list (option idRef)) (uses : list (option nat)).
Context (HG : graph_ok j nArgs defs uses).

#[local] Abbreviation reads := (reads j defs).
#[local] Abbreviation defined := (defined defs).
Let Hlen := gr_length _ _ _ _ HG.
Let Huses := gr_uses _ _ _ _ HG.
Let Hused := gr_used _ _ _ _ HG.
Let Hirrefl := gr_irrefl _ _ _ _ HG.
Let Hsrc := gr_src _ _ _ _ HG.
Let Hcard := gr_card _ _ _ _ HG.

Lemma reads_fun r s s' : reads r s -> reads r s' -> s = s'.
Proof. intros (x & sid & H1 & H2 & H3) (x' & sid' & H1' & H2' & H3'). congruence. Qed.

Lemma reads_inj r r' s : reads r s -> reads r' s -> defined s -> r = r'.
Proof. intros Hr Hr' Hs. apply Hused in Hr, Hr'; try done. congruence. Qed.

Lemma reads_defined r s : reads r s -> defined r.
Proof. intros (x & _ & Hx & _). by exists x. Qed.

Lemma defined_lt r : defined r -> (r < length defs)%nat.
Proof. intros [x Hx]. by eapply lookup_lt_Some. Qed.

(** Every register of the list is loaded from the next one. *)
Definition linked (l : list nat) : Prop :=
  forall i a b, l !! i = Some a -> l !! S i = Some b -> reads a b.

Lemma linked_cons a b l : reads a b -> linked (b :: l) -> linked (a :: b :: l).
Proof. intros Hab Hl [| i] x y; cbn; [by intros [= <-] [= <-] |]. apply Hl. Qed.

Lemma linked_snoc l a b : linked (l ++ [a]) -> reads a b -> linked ((l ++ [a]) ++ [b]).
Proof.
  intros Hl Hab i x y Hx Hy. apply lookup_app_Some in Hy as [Hy | [Hy1 Hy2]].
  - apply (Hl i); [| done]. apply lookup_app_Some in Hx as [Hx | [Hx1 _]]; [done |].
    apply lookup_lt_Some in Hy. lia.
  - rewrite length_app in *. cbn in *. assert (S i - (length l + 1) = 0)%nat as E.
    { apply lookup_lt_Some in Hy2. cbn in Hy2. lia. }
    rewrite E in Hy2. injection Hy2 as <-. assert (i = length l) as -> by lia.
    rewrite lookup_app_l, lookup_app_r, Nat.sub_diag in Hx by (rewrite ?length_app; cbn; lia).
    injection Hx as <-. done.
Qed.

Lemma linked_app_l l l' : linked (l ++ l') -> linked l.
Proof.
  intros Hl i a b Ha Hb. apply (Hl i); by rewrite lookup_app_l by (by eapply lookup_lt_Some).
Qed.

Lemma linked_defined l d : linked (l ++ [d]) -> defined d -> Forall defined (l ++ [d]).
Proof.
  intros Hl Hd. apply Forall_lookup. intros i a Ha.
  destruct ((l ++ [d]) !! S i) as [b |] eqn:E; [by eapply reads_defined, Hl |].
  apply lookup_ge_None in E. rewrite length_app in E. cbn in E.
  apply lookup_app_Some in Ha as [Ha%lookup_lt_Some | [Hi Ha]]; [lia |].
  apply list_lookup_singleton_Some in Ha as [_ <-]. done.
Qed.

(** A register that reads the first register of a linked list is not in the
    list, unless it is the last one. *)
Lemma fresh_user l d key r : linked (l ++ [d]) -> NoDup (l ++ [d]) ->
  (l ++ [d]) !! 0%nat = Some key -> reads r key -> r <> d -> r ∉ l ++ [d].
Proof.
  intros Hl HN Hkey Hr Hne [i Hi]%list_elem_of_lookup. destruct ((l ++ [d]) !! S i) as [b |] eqn:E.
  - assert (b = key) as -> by exact (reads_fun r b key (Hl i r b Hi E) Hr).
    pose proof (NoDup_lookup _ _ _ _ HN Hkey E). lia.
  - apply lookup_ge_None in E. rewrite length_app in E. cbn in E. apply lookup_app_Some in Hi as [Hi%lookup_lt_Some | [_ Hi]]; [lia |].
    apply list_lookup_singleton_Some in Hi as [_ <-]. done.
Qed.

(** The register the last one of a linked list reads is not in the list when
    nothing reads the first. *)
Lemma fresh_source l a r key : linked (l ++ [a]) -> NoDup (l ++ [a]) ->
  (l ++ [a]) !! 0%nat = Some key -> uses !! key = Some None -> reads a r -> defined r -> r ∉ l ++ [a].
Proof.
  intros Hl HN Hkey Hnone Hr Hd [i Hi]%list_elem_of_lookup.
  assert (Ha : (l ++ [a]) !! length l = Some a) by (rewrite lookup_app_r, Nat.sub_diag by lia; done).
  destruct i as [| i].
  - assert (r = key) as -> by congruence. rewrite (Hused _ _ Hr Hd) in Hnone. done.
  - destruct (lookup_lt_is_Some_2 (l ++ [a]) i) as [b Hb]; [apply lookup_lt_Some in Hi; lia |].
    assert (b = a) as -> by exact (reads_inj b a r (Hl i b r Hb Hi) Hr Hd).
    pose proof (NoDup_lookup _ _ _ _ HN Ha Hb). apply lookup_lt_Some in Hi. rewrite length_app in Hi. cbn in Hi. lia.
Qed.

(** ** The walks *)

(** [ms'] is [ms] after visiting the registers of [l]. *)
Record visits (ms : maps) (l : list nat) (ms' : maps) : Prop := {
  v_defs : definedBy ms' = definedBy ms;
  v_uses : usedBy ms' = usedBy ms;
  v_length : length (visited ms') = length (visited ms);
  v_member : forall r, visited ms' !! r = Some true <-> visited ms !! r = Some true \/ r ∈ l }.

Lemma visits_nil ms : visits ms [] ms.
Proof. split; try done. intros r. rewrite elem_of_nil. tauto. Qed.

Lemma visits_snoc ms l ms' r : visits ms l ms' -> (r < length (visited ms))%nat ->
  exists ms'', visit ms' r = Some ms'' /\ forall l', (forall x, x ∈ l' <-> x ∈ l \/ x = r) -> visits ms l' ms''.
Proof.
  intros [Hd Hu Hl Hm] Hr. unfold visit, UIntSet_Put. rewrite decide_True by (rewrite Hl; done).
  cbn [mbind option_bind]. eexists. split; [done |]. intros l' Hl'. split; cbn.
  - done.
  - done.
  - by rewrite length_insert.
  - intros x. rewrite Hl'. destruct (decide (x = r)) as [-> | Hne].
    + rewrite list_lookup_insert_eq by (rewrite Hl; done). tauto.
    + rewrite list_lookup_insert_ne by done. rewrite Hm. tauto.
Qed.

(** The maps as the first loop leaves them, up to [visited]. *)
Record good_maps (ms : maps) : Prop := {
  g_defs : definedBy ms = defs;
  g_uses : usedBy ms = uses;
  g_visited : length (visited ms) = length defs }.

Lemma good_visits ms l ms' : good_maps ms -> visits ms l ms' -> good_maps ms'.
Proof. intros [H1 H2 H3] [H4 H5 H6 _]. split; congruence. Qed.

Definition cyclic (q : list nat) : Prop :=
  exists d l, q = d :: l /\ linked (q ++ [d]) /\ NoDup q.

(** What is known of the registers in front of [d] at the end of the walk. *)
Record use_path (d : nat) (l : list nat) : Prop := {
  up_linked : linked (l ++ [d]);
  up_nodup : NoDup (l ++ [d]);
  up_first : exists key, (l ++ [d]) !! 0%nat = Some key /\ uses !! key = Some None }.

Inductive use_result (ms : maps) (d : nat) : option (bool * nat * maps * list (option slot)) -> Prop :=
  | use_cycle b l ms' c : cyclic (d :: l) -> visits ms (d :: l) ms' -> length c = (2 * nArgs + 1)%nat ->
      (b + length (d :: l) = nArgs)%nat -> seg c b (d :: l) -> chain_Marker c nArgs = Some CYCLE ->
      use_result ms d (Some (true, b, ms', c))
  | use_end b l ms' c : use_path d l -> visits ms l ms' -> length c = (2 * nArgs + 1)%nat ->
      (b + length l = nArgs)%nat -> seg c b l ->
      use_result ms d (Some (false, b, ms', c)).

Lemma path_length l d : linked (l ++ [d]) -> NoDup (l ++ [d]) -> defined d -> (S (length l) <= nArgs)%nat.
Proof.
  intros Hl HN Hd. pose proof (Hcard _ HN (linked_defined _ _ Hl Hd)) as Hc. rewrite length_app in Hc. cbn in Hc. lia.
Qed.

Lemma use_walk_ok ms0 d : good_maps ms0 -> defined d -> forall bottom key l ms c,
  linked (l ++ [d]) -> NoDup (l ++ [d]) -> (l ++ [d]) !! 0%nat = Some key ->
  visits ms0 l ms -> length c = (2 * nArgs + 1)%nat -> (bottom + length l = nArgs)%nat -> seg c bottom l ->
  use_result ms0 d (use_walk nArgs d bottom key ms c).
Proof.
  intros Hg Hd. induction bottom as [| bottom IH]; intros key l ms c Hl HN Hkey Hv Hc Hb Hs.
  { pose proof (path_length _ _ Hl HN Hd). lia. }
  assert (Hkd : defined key).
  { pose proof (linked_defined _ _ Hl Hd) as HF. rewrite Forall_lookup in HF. by apply (HF 0%nat). }
  destruct (lookup_lt_is_Some_2 uses key) as [u Hu]; [rewrite Hlen; by apply defined_lt |].
  cbn [use_walk]. unfold UIntMap_Get. rewrite (v_uses _ _ _ Hv), (g_uses _ Hg), Hu. cbn [mbind option_bind].
  destruct u as [r |].
  2: { apply (use_end _ _ _ l); try done. split; try done. by exists key. }
  pose proof (Huses _ _ Hu) as Hr. pose proof (defined_lt _ (reads_defined _ _ Hr)) as Hrl.
  destruct (chain_Init_ok c bottom (SReg r)) as (c1 & E1 & Hl1 & Hi1 & Hf1); [lia |].
  destruct (visits_snoc ms0 l ms r Hv) as (ms1 & E2 & Hv1); [rewrite (g_visited _ Hg); done |].
  rewrite E1, E2. cbn [mbind option_bind].
  assert (Hs1 : seg c1 bottom (r :: l)).
  { apply seg_cons; [unfold chain_Reg; by rewrite Hi1 |]. eapply seg_frame; [exact Hs |]. intros k Hk. apply Hf1. lia. }
  case_decide as Heq.
  - subst r. destruct (chain_Init_ok c1 nArgs (SMarker CYCLE)) as (c2 & E3 & Hl2 & Hi2 & Hf2); [lia |].
    rewrite E3. cbn [mbind option_bind]. apply (use_cycle _ _ _ l).
    + exists d, l. split; [done |]. split.
      * destruct l as [| a l]; [injection Hkey as -> | injection Hkey as ->]; by apply linked_cons.
      * apply NoDup_app in HN as (HN1 & HN2 & _). constructor; [| done]. intros Hin. apply (HN2 _ Hin). by left.
    + apply Hv1. intros x. rewrite elem_of_cons. tauto.
    + congruence.
    + cbn. lia.
    + eapply seg_frame; [exact Hs1 |]. intros k Hk. apply Hf2. cbn in Hk. lia.
    + unfold chain_Marker. by rewrite Hi2.
  - apply (IH _ (r :: l)); cbn [app length].
    + destruct l as [| a l]; [injection Hkey as -> | injection Hkey as ->]; by apply linked_cons.
    + constructor; [| done]. by eapply fresh_user.
    + done.
    + apply Hv1. intros x. rewrite elem_of_cons. tauto.
    + congruence.
    + lia.
    + done.
Qed.

(** [x] is loaded into [r], and no destination of the assignment is read for it. *)
Definition leaf (r : nat) (x : idRef) : Prop :=
  defs !! r = Some (Some x) /\ forall s, reads r s -> ~ defined s.

(** A path: nothing reads its first register, and its last register is loaded
    from a leaf. *)
Record is_path (q : list nat) (x : idRef) : Prop := {
  p_linked : linked q;
  p_nodup : NoDup q;
  p_first : exists key, q !! 0%nat = Some key /\ uses !! key = Some None;
  p_last : exists q' r, q = q' ++ [r] /\ leaf r x }.

Inductive def_result (ms : maps) (b d : nat) (l : list nat) : option (nat * maps * list (option slot)) -> Prop :=
  | def_end t x ms' c : is_path (l ++ d :: t) x -> visits ms t ms' -> length c = (2 * nArgs + 1)%nat ->
      seg c b l -> seg c (S nArgs) t -> (length t < nArgs)%nat ->
      chain_Marker c (S (nArgs + length t)) = Some (LEAF x) ->
      def_result ms b d l (Some (S (nArgs + length t), ms', c)).

Lemma def_walk_ok ms0 b d l : good_maps ms0 -> (b + length l = nArgs)%nat ->
  forall fuel t q key ms c, l ++ d :: t = q ++ [key] -> defined key -> linked (q ++ [key]) -> NoDup (q ++ [key]) ->
  (exists k0, (q ++ [key]) !! 0%nat = Some k0 /\ uses !! k0 = Some None) ->
  visits ms0 t ms -> length c = (2 * nArgs + 1)%nat -> seg c b l -> seg c (S nArgs) t ->
  (2 * nArgs + 1 <= fuel + length t)%nat ->
  def_result ms0 b d l (def_walk fuel j (nArgs + length t) key ms c).
Proof.
  intros Hg Hb. induction fuel as [| fuel IH]; intros t q key ms c E Hd Hl HN Hfirst Hv Hc Hsl Hst Hfuel.
  all: pose proof (path_length _ _ Hl HN Hd) as Hlen'.
  all: assert (Ht : (length t < nArgs)%nat) by (apply (f_equal length) in E; rewrite !length_app in E; cbn in E; lia).
  { lia. }
  destruct Hd as [x Hx]. cbn [def_walk]. unfold UIntMap_Get.
  rewrite (v_defs _ _ _ Hv), (g_defs _ Hg), Hx. cbn [mjoin option_join mbind option_bind].
  destruct (chain_Init_ok c (S (nArgs + length t)) (SMarker (LEAF x))) as (c1 & E1 & Hl1 & Hi1 & Hf1); [lia |].
  assert (Hend : (forall s, reads key s -> ~ defined s) ->
    def_result ms0 b d l (c ← chain_Init c (S (nArgs + length t)) (SMarker (LEAF x)); Some (S (nArgs + length t), ms, c))).
  { intros Hleaf. rewrite E1. cbn [mbind option_bind]. apply (def_end _ _ _ _ t x); try done.
    - rewrite E. split; try done. by exists q, key.
    - congruence.
    - eapply seg_frame; [exact Hsl |]. intros k Hk. apply Hf1. lia.
    - eapply seg_frame; [exact Hst |]. intros k Hk. apply Hf1. lia.
    - unfold chain_Marker. by rewrite Hi1. }
  destruct (is_local x) as [sid |] eqn:Ex.
  2: { apply Hend. intros s (y & sid & Hy & Hy' & _). congruence. }
  destruct (Hsrc _ _ _ Hx Ex) as (s & Hs & Hsl').
  assert (Hr : reads key s) by (exists x, sid; auto).
  rewrite Hs. cbn [mbind option_bind]. rewrite decide_False by (apply not_eq_sym; by apply Hirrefl).
  destruct (lookup_lt_is_Some_2 defs s) as [y Hy]; [done |].
  rewrite Hy. cbn [mbind option_bind]. destruct y as [y |].
  2: { apply Hend. intros s' Hr' [y Hy']. rewrite (reads_fun _ _ _ Hr' Hr) in Hy'. congruence. }
  assert (Hds : defined s) by (by exists y). clear Hend E1 Hl1 Hi1 Hf1 c1.
  destruct (chain_Init_ok c (S (nArgs + length t)) (SReg s)) as (c1 & E1 & Hl1 & Hi1 & Hf1); [lia |].
  destruct (visits_snoc ms0 t ms s Hv) as (ms1 & E2 & Hv1); [rewrite (g_visited _ Hg); by apply defined_lt |].
  rewrite E1, E2. cbn [mbind option_bind].
  replace (S (nArgs + length t)) with (nArgs + length (t ++ [s]))%nat by (rewrite length_app; cbn; lia).
  apply (IH _ (q ++ [key])); try done.
  - by rewrite <- E, <- app_assoc.
  - by apply linked_snoc.
  - apply NoDup_app. split_and!; [done | | apply NoDup_singleton]. intros r Hrin ->%list_elem_of_singleton.
    destruct Hfirst as (k0 & Hk0 & Hn0). revert Hrin. by eapply fresh_source.
  - destruct Hfirst as (k0 & Hk0 & Hn0). exists k0. split; [by apply lookup_app_l_Some | done].
  - apply Hv1. intros r. rewrite elem_of_app, list_elem_of_singleton. done.
  - congruence.
  - eapply seg_frame; [exact Hsl |]. intros k Hk. apply Hf1. lia.
  - apply seg_app.
    + eapply seg_frame; [exact Hst |]. intros k Hk. apply Hf1. lia.
    + apply seg_one. by replace (S nArgs + length t)%nat with (S (nArgs + length t)) by lia.
  - rewrite length_app. cbn. lia.
Qed.

(** ** Components *)

Inductive component := Path (q : list nat) (x : idRef) | Cycle (q : list nat).

Definition registers (k : component) : list nat := match k with Path q _ | Cycle q => q end.

Definition wf_component (k : component) : Prop :=
  match k with Path q x => is_path q x | Cycle q => cyclic q end.

(** The chain of [a] is the component. *)
Definition represents (a : assignment) (k : component) : Prop :=
  seg (a_chain a) (a_bottom a) (registers k) /\ (a_bottom a + length (registers k) = a_top a)%nat /\
  chain_Marker (a_chain a) (a_top a) = Some (match k with Path _ x => LEAF x | Cycle _ => CYCLE end).

Lemma component_linked k : wf_component k -> linked (registers k).
Proof. destruct k as [q x | q]; [intros HP; apply HP |]. intros (d & l & -> & Hl & _). by apply linked_app_l in Hl. Qed.

Lemma component_nodup k : wf_component k -> NoDup (registers k).
Proof. destruct k as [q x | q]; [intros HP; apply HP |]. by intros (d & l & -> & _ & HN). Qed.

Lemma cycle_next d l i r : linked ((d :: l) ++ [d]) -> (d :: l) !! i = Some r ->
  exists s, reads r s /\ s ∈ d :: l.
Proof.
  intros Hl Hi. pose proof (lookup_lt_Some _ _ _ Hi) as Hlt.
  destruct (lookup_lt_is_Some_2 ((d :: l) ++ [d]) (S i)) as [s Hs]; [rewrite length_app; cbn in *; lia |].
  exists s. split; [eapply Hl; [by apply lookup_app_l_Some | done] |].
  apply list_elem_of_lookup_2 in Hs. set_solver.
Qed.

Lemma component_defined k r : wf_component k -> r ∈ registers k -> defined r.
Proof.
  intros Hk [i Hi]%list_elem_of_lookup. destruct k as [q x | q]; cbn in *.
  - destruct (q !! S i) as [s |] eqn:E; [by eapply reads_defined, (p_linked _ _ Hk) |].
    destruct (p_last _ _ Hk) as (q' & r' & -> & Hx & _). apply lookup_ge_None in E. rewrite length_app in E. cbn in E.
    apply lookup_app_Some in Hi as [Hi%lookup_lt_Some | [_ Hi]]; [lia |].
    apply list_lookup_singleton_Some in Hi as [_ <-]. by exists x.
  - destruct Hk as (d & l & -> & Hl & _). destruct (cycle_next _ _ _ _ Hl Hi) as (s & Hs & _). by eapply reads_defined.
Qed.

(** A component contains what its registers read and what reads them. *)
Lemma component_closed_r k r s : wf_component k -> reads r s -> defined s -> r ∈ registers k -> s ∈ registers k.
Proof.
  intros Hk Hr Hs [i Hi]%list_elem_of_lookup. destruct k as [q x | q]; cbn in *.
  - destruct (q !! S i) as [s' |] eqn:E.
    + rewrite (reads_fun r s s'); [by eapply list_elem_of_lookup_2 | done | by apply (p_linked _ _ Hk i)].
    + exfalso. destruct (p_last _ _ Hk) as (q' & r' & -> & _ & Hleaf). apply lookup_ge_None in E. rewrite length_app in E. cbn in E.
      apply lookup_app_Some in Hi as [Hi%lookup_lt_Some | [_ Hi]]; [lia |].
      apply list_lookup_singleton_Some in Hi as [_ <-]. by apply (Hleaf s).
  - destruct Hk as (d & l & -> & Hl & _). destruct (cycle_next _ _ _ _ Hl Hi) as (s' & Hs' & Hin).
    by rewrite (reads_fun r s s').
Qed.

Lemma component_closed_l k r s : wf_component k -> reads r s -> s ∈ registers k -> r ∈ registers k.
Proof.
  intros Hk Hr Hin. pose proof (component_defined _ _ Hk Hin) as Hs.
  apply list_elem_of_lookup in Hin as [i Hi]. destruct i as [| i].
  - destruct k as [q x | q]; cbn in *.
    + destruct (p_first _ _ Hk) as (key & Hkey & Hnone). assert (key = s) as -> by congruence.
      rewrite (Hused _ _ Hr Hs) in Hnone. done.
    + destruct Hk as (d & l & -> & Hl & _). injection Hi as ->.
      destruct (lookup_lt_is_Some_2 (s :: l) (length l)) as [r' Hr']; [cbn; lia |].
      rewrite (reads_inj r r' s); [by eapply list_elem_of_lookup_2 | done | | done].
      apply (Hl (length l)); [by apply lookup_app_l_Some |].
      rewrite lookup_app_r by (cbn; lia). cbn. by rewrite Nat.sub_diag.
  - destruct (lookup_lt_is_Some_2 (registers k) i) as [r' Hr']; [apply lookup_lt_Some in Hi; lia |].
    rewrite (reads_inj r r' s); [by eapply list_elem_of_lookup_2 | done | by eapply component_linked | done].
Qed.

(** A set of registers that is closed in both directions contains a component
    or is disjoint from it. *)
Lemma linked_connected (V : nat -> Prop) q :
  linked q -> (forall r s, reads r s -> defined r -> defined s -> V r <-> V s) -> Forall defined q ->
  forall a b, a ∈ q -> b ∈ q -> V a -> V b.
Proof.
  intros Hl HV HF.
  assert (Hhd : forall i a h, q !! i = Some a -> q !! 0%nat = Some h -> V a <-> V h).
  { induction i as [| i IH]; intros a h Ha Hh; [by rewrite Ha in Hh; injection Hh as -> |].
    destruct (lookup_lt_is_Some_2 q i) as [r Hr]; [apply lookup_lt_Some in Ha; lia |].
    rewrite <- (IH r h) by done. rewrite Forall_lookup in HF. symmetry. apply HV; eauto. }
  intros a b [i Hi]%list_elem_of_lookup [i' Hi']%list_elem_of_lookup Ha.
  destruct (lookup_lt_is_Some_2 q 0%nat) as [h Hh]; [apply lookup_lt_Some in Hi; lia |].
  rewrite (Hhd _ _ _ Hi' Hh). by rewrite <- (Hhd _ _ _ Hi Hh).
Qed.

Lemma make_chain_ok ms d : good_maps ms -> defined d -> visited ms !! d = Some true ->
  exists a k l ms', make_chain j nArgs d ms = Some (a, ms') /\ wf_component k /\ d ∈ registers k /\
    represents a k /\ visits ms l ms' /\ forall r, r ∈ l \/ r = d <-> r ∈ registers k.
Proof.
  intros Hg Hd Hvd. unfold make_chain.
  pose proof (use_walk_ok ms d Hg Hd nArgs d [] ms (replicate (2 * nArgs + 1) None)) as Huse.
  destruct Huse as [b l ms1 c Hcyc Hv Hc Hb Hs Hm | b l ms1 c [Hl HN Hfirst] Hv Hc Hb Hs]; cbn [mbind option_bind app length].
  - intros i x y Hx Hy. apply lookup_lt_Some in Hy. cbn in Hy. lia.
  - apply NoDup_singleton.
  - done.
  - apply visits_nil.
  - by rewrite length_replicate.
  - lia.
  - apply seg_nil.
  - exists (mkAssignment b nArgs c), (Cycle (d :: l)), (d :: l), ms1.
    split; [done |]. split; [done |]. split; [by left |]. split; [by split_and! |]. split; [done |]. cbn. set_solver.
  - destruct Hd as [x Hx]. unfold UIntMap_Get. rewrite (v_defs _ _ _ Hv), (g_defs _ Hg), Hx. cbn [mbind option_bind].
    assert (Hd : defined d) by (by exists x).
    pose proof (def_walk_ok ms1 b d l (good_visits _ _ _ Hg Hv) Hb (length c) [] l d ms1 c) as Hdef.
    replace (nArgs + length (@nil nat))%nat with nArgs in Hdef by (cbn; lia).
    destruct Hdef as [t y ms2 c2 HP Hv2 Hc2 Hsl Hst Hlt Hm]; try done.
    { apply visits_nil. }
    { cbn. lia. }
    cbn [mbind option_bind]. rewrite decide_True by lia.
    destruct (chain_Init_ok c2 nArgs (SReg d)) as (c3 & E3 & Hl3 & Hi3 & Hf3); [lia |].
    rewrite E3. cbn [mbind option_bind].
    exists (mkAssignment b (S (nArgs + length t)) c3), (Path (l ++ d :: t) y), (l ++ t), ms2.
    split; [done |]. split; [done |]. split; [cbn; set_solver |]. split.
    { split_and!; cbn.
      - apply seg_app; [eapply seg_frame; [exact Hsl |]; intros k Hk; apply Hf3; lia |]. rewrite Hb.
        apply seg_cons; [unfold chain_Reg; by rewrite Hi3 |].
        eapply seg_frame; [exact Hst |]. intros k Hk. apply Hf3. lia.
      - rewrite length_app. cbn. lia.
      - unfold chain_Marker in *. rewrite Hf3 by lia. done. }
    split.
    + destruct Hv as [V1 V2 V3 V4], Hv2 as [W1 W2 W3 W4]. split; [congruence .. |].
      intros r. rewrite W4, V4, elem_of_app. tauto.
    + intros r. cbn. rewrite !elem_of_app, elem_of_cons. tauto.
Qed.

(** The registers of a list of components. *)
Definition all_registers (ks : list component) : list nat := concat (map registers ks).

Lemma make_chains_ok formals : forall args ms,
  length formals = length args -> good_maps ms ->
  (forall r s, reads r s -> defined s -> visited ms !! r = Some true <-> visited ms !! s = Some true) ->
  (forall id, IdDef id ∈ formals -> exists d, id_to_reg j id = Some d /\ (d < length defs)%nat /\
     (defined d \/ visited ms !! d = Some true)) ->
  exists chains ks, make_chains j nArgs ms formals args = Some chains /\ Forall2 represents chains ks /\
    Forall wf_component ks /\ NoDup (all_registers ks) /\
    (forall r, r ∈ all_registers ks -> visited ms !! r <> Some true) /\
    (forall id d, IdDef id ∈ formals -> id_to_reg j id = Some d -> visited ms !! d = Some true \/ d ∈ all_registers ks).
Proof.
  induction formals as [| f formals IH]; intros [| x args] ms Hargs Hg Hclosed Hf; cbn in Hargs; try done.
  { exists [], []. split_and!; try done; [constructor | intros r Hr; by apply elem_of_nil in Hr | intros id d Hid; by apply elem_of_nil in Hid]. }
  injection Hargs as Hargs. cbn [make_chains]. destruct f as [id |].
  2: { destruct (IH args ms Hargs Hg Hclosed) as (chains & ks & E & HR & HW & HN & HD & HC).
       { intros id Hid. apply Hf. by right. }
       exists chains, ks. split_and!; try done. intros id d [? | Hid]%elem_of_cons Hd; [done | by apply (HC id)]. }
  destruct (Hf id) as (d & Hd & Hdl & Hdef); [by left |]. rewrite Hd. cbn [mbind option_bind].
  unfold UIntSet_IsMember. destruct (lookup_lt_is_Some_2 (visited ms) d) as [v Hv]; [rewrite (g_visited _ Hg); done |].
  rewrite Hv. cbn [mbind option_bind]. destruct v.
  { destruct (IH args ms Hargs Hg Hclosed) as (chains & ks & E & HR & HW & HN & HD & HC).
    { intros id' Hid. apply Hf. by right. }
    exists chains, ks. split_and!; try done.
    intros id' d' [[= ->] | Hid]%elem_of_cons Hd'; [left; congruence | by apply (HC id')]. }
  destruct Hdef as [Hdef | ?]; [| congruence].
  destruct (visits_snoc ms [] ms d (visits_nil ms)) as (ms1 & E1 & Hv1); [rewrite (g_visited _ Hg); done |].
  rewrite E1. cbn [mbind option_bind].
  assert (Hvis1 : visits ms [d] ms1) by (apply Hv1; set_solver).
  pose proof (good_visits _ _ _ Hg Hvis1) as Hg1.
  destruct (make_chain_ok ms1 d Hg1 Hdef) as (a & k & l & ms2 & E2 & Hk & Hdk & Hrep & Hvis2 & Hl).
  { apply (v_member _ _ _ Hvis1). right. by left. }
  rewrite E2. cbn [mbind option_bind fst snd].
  assert (Hm2 : forall r, visited ms2 !! r = Some true <-> visited ms !! r = Some true \/ r ∈ registers k).
  { intros r. rewrite (v_member _ _ _ Hvis2), (v_member _ _ _ Hvis1), <- Hl, list_elem_of_singleton. tauto. }
  assert (Hdisj : forall r, r ∈ registers k -> visited ms !! r <> Some true).
  { intros r Hr Hvr. assert (visited ms !! d = Some true); [| congruence].
    eapply (linked_connected (fun r => visited ms !! r = Some true) (registers k)); try done.
    - by apply component_linked.
    - intros r1 r2 Hr1 _ Hr2. by apply Hclosed.
    - apply Forall_forall. intros r1 Hr1. by eapply component_defined. }
  destruct (IH args ms2 Hargs (good_visits _ _ _ Hg1 Hvis2)) as (chains & ks & E & HR & HW & HN & HD & HC).
  { intros r s Hr Hs. rewrite !Hm2, (Hclosed r s) by done.
    pose proof (component_closed_r k r s Hk Hr Hs). pose proof (component_closed_l k r s Hk Hr). tauto. }
  { intros id' Hid. destruct (Hf id') as (d' & Hd' & Hdl' & Hdef'); [by right |].
    exists d'. split_and!; [done | done |]. rewrite Hm2. tauto. }
  rewrite E. cbn [mbind option_bind]. exists (a :: chains), (k :: ks). split_and!.
  - rewrite decide_False; [done |]. destruct Hrep as (_ & Hb & _). destruct (registers k); [by apply elem_of_nil in Hdk |].
    cbn in Hb. lia.
  - by constructor.
  - by constructor.
  - unfold all_registers in *. cbn. apply NoDup_app. split_and!; [by apply component_nodup | | done].
    intros r Hr Hr'. apply (HD r Hr'), Hm2. by right.
  - unfold all_registers in *. cbn. intros r [Hr | Hr]%elem_of_app; [by apply Hdisj |].
    intros Hvr. apply (HD r Hr), Hm2. by left.
  - intros id' d' [[= ->] | Hid]%elem_of_cons Hd'; unfold all_registers in *; cbn; rewrite elem_of_app.
    + right. left. congruence.
    + destruct (HC id' d' Hid Hd') as [Hc | Hc]; [apply Hm2 in Hc; tauto | tauto].
Qed.

End Graph.
