(* ===== verification/InlineCCCExec.v ===== *)
(** * Parallel assignment: what the emitted instructions do

    The immediate environment, the loads of an operand, the code of a chain
    and of a cycle on the registers of the frame, and the maps of a call with
    the code of all its chains. *)

From S2P Require Import Prelude Config HeaderOp AliceData AbstractCode ByteCodeJitter InlineCCC InlineCCCGraph.

#[local] Open Scope Z_scope.
#[local] Open Scope jit_scope.

(** ** The immediate environment *)

Record env_ok (env : ByteCodeImmediateEnv) : Prop := {
  eo_length : length (ie_values env) = ie_size env;
  eo_index : (ie_index env <= ie_size env)%nat;
  eo_size : (2 <= ie_size env)%nat;
  eo_fresh : forall k w, (ie_index env <= k)%nat -> ie_values env !! k <> Some (Some w);
  eo_map : forall w i, (w, i) ∈ ie_map env -> ie_values env !! i = Some (Some w) }.

(** The values that are registered stay where they are. *)
Definition env_ext (env env' : ByteCodeImmediateEnv) : Prop :=
  forall k w, ie_values env !! k = Some (Some w) -> ie_values env' !! k = Some (Some w).

Lemma env_ext_trans e1 e2 e3 : env_ext e1 e2 -> env_ext e2 e3 -> env_ext e1 e3.
Proof. intros H1 H2 k w Hk. by apply H2, H1. Qed.

Lemma map_CondGet_in map w i : map_CondGet map w = Some i -> (w, i) ∈ map.
Proof.
  unfold map_CondGet. induction map as [| [w' i'] map IH]; cbn; [done |].
  case_bool_decide as Hw; cbn in *; [intros [= <-]; subst; by left | intros Hf; right; by apply IH].
Qed.

Lemma imEnv_Init_ok : env_ok imEnv_Init.
Proof.
  split; cbn; try lia; [| intros w i Hin; by apply elem_of_nil in Hin].
  intros k w _ Hk. change [None; None; None; None; None] with (replicate 5 (@None word)) in Hk.
  apply lookup_replicate in Hk as [Hk _]. done.
Qed.

Lemma Register_grow_ok env : env_ok env ->
  env_ok (Register_grow env) /\ env_ext env (Register_grow env) /\
  (ie_index (Register_grow env) < ie_size (Register_grow env))%nat.
Proof.
  intros [H1 H2 H3 H4 H5]. unfold Register_grow. case_decide as Hd; [| split; [by split | split; [by intros k | lia]]].
  assert (Hgrow : (S (ie_size env) <= Nat.div (ie_size env * 3) 2)%nat) by (apply Nat.div_le_lower_bound; lia).
  set (size := Nat.div (ie_size env * 3) 2) in *. clearbody size.
  split; [split; cbn; try lia | split; cbn; [| lia]].
  - rewrite length_app, length_replicate. lia.
  - intros k w' Hk [Hlk | [_ Hlk]]%lookup_app_Some; [by apply (H4 k w') |].
    by apply lookup_replicate in Hlk as [Hlk _].
  - intros w' i Hin. apply lookup_app_l_Some. by apply H5.
  - intros k w' Hk. cbn. by apply lookup_app_l_Some.
Qed.

Section Exec.
Context `{Platform} {C : Type} (st : store C) (wundef : word).

Lemma Register_ok env w : env_ok env -> exists i env', Register st env w = Some (i, env') /\
  env_ok env' /\ env_ext env env' /\ ie_values env' !! i = Some (Some w).
Proof.
  intros HE. unfold Register.
  set (shared := if IsTransient st w then None else map_CondGet (ie_map env) w).
  destruct shared as [i |] eqn:Es.
  { exists i, env. split; [done |]. split; [done |]. split; [by intros k |]. apply (eo_map _ HE), map_CondGet_in. subst shared. by destruct (IsTransient st w). }
  pose proof (Register_grow_ok env HE) as H1. set (env1 := Register_grow env) in *.
  destruct H1 as ([H1 H2 H3 H4 H5] & Hext & Hlt). rewrite decide_True by lia.
  do 2 eexists. split; [done |]. split_and!.
  - split; cbn; try done.
    + by rewrite length_insert.
    + intros k w' Hk. rewrite list_lookup_insert_ne by lia. apply H4. lia.
    + intros w' i Hin.
      assert (Hold : (w', i) ∈ ie_map env1 -> <[ie_index env1 := Some w]> (ie_values env1) !! i = Some (Some w')).
      { intros Hin'. pose proof (H5 _ _ Hin') as Hi. rewrite list_lookup_insert_ne; [done |].
        intros <-. by apply (H4 (ie_index env1) w'). }
      destruct (IsTransient st w); [by apply Hold |].
      apply elem_of_cons in Hin as [[= -> ->] | Hin]; [apply list_lookup_insert_eq; lia | by apply Hold].
  - intros k w' Hk. cbn. apply Hext in Hk. rewrite list_lookup_insert_ne; [done |].
    intros <-. by apply (H4 (ie_index env1) w').
  - cbn. apply list_lookup_insert_eq. lia.
Qed.

(** ** Emitted code *)

(** The value of an argument: of a local, of a global of the closure [CP], or
    an immediate value. *)
Definition value (CP : list word) (j : jitter) (regs : list word) (x : idRef) : option word :=
  y ← lookup_subst j x;
  match y with
  | Local id | LastUseLocal id => s ← id_to_reg j id; regs !! s
  | Global k => aget CP k
  | Immediate w => Some w
  end.

(** Immediate integers are in the range of [s_int]. *)
Definition imm_ok (w : word) : Prop := match w with WInt i => s_int (u_int i) = i | WPtr _ => True end.

(** A global of the compiled function stands for a global of the closure or
    for an immediate value. *)
Definition arg_ok (CP : list word) (j : jitter) (x : idRef) : Prop :=
  match x with
  | Local id | LastUseLocal id => exists s, id_to_reg j id = Some s /\ (s < j_nLocals j)%nat
  | Immediate w => imm_ok w
  | Global i => match aget (j_globalSubst j) i with
                | Some (Global k) => is_Some (aget CP k)
                | Some (Immediate w) => imm_ok w
                | _ => False
                end
  end.

Record same_static (j j' : jitter) : Prop := {
  ss_mapping : j_mapping j' = j_mapping j;
  ss_nLocals : j_nLocals j' = j_nLocals j;
  ss_offset : j_localOffset j' = j_localOffset j;
  ss_subst : j_globalSubst j' = j_globalSubst j }.

Lemma same_static_refl j : same_static j j.
Proof. by split. Qed.

Lemma same_static_trans j1 j2 j3 : same_static j1 j2 -> same_static j2 j3 -> same_static j1 j3.
Proof. intros [] []. split; congruence. Qed.

Lemma id_to_reg_static j j' id : same_static j j' -> id_to_reg j' id = id_to_reg j id.
Proof. intros [H1 H2 H3 H4]. unfold id_to_reg. by rewrite H1, H3. Qed.

Lemma lookup_subst_static j j' x : same_static j j' -> lookup_subst j' x = lookup_subst j x.
Proof. intros [H1 H2 H3 H4]. unfold lookup_subst. by rewrite H4. Qed.

Lemma value_static CP j j' regs x : same_static j j' -> value CP j' regs x = value CP j regs x.
Proof.
  intros Hs. unfold value. rewrite (lookup_subst_static _ _ _ Hs). destruct (lookup_subst j x) as [[]|]; cbn; try done;
    by rewrite (id_to_reg_static _ _ _ Hs).
Qed.

Lemma arg_ok_static CP j j' x : same_static j j' -> arg_ok CP j x -> arg_ok CP j' x.
Proof.
  intros Hs. unfold arg_ok. destruct x; rewrite ?(ss_subst _ _ Hs); try done;
    by rewrite (id_to_reg_static _ _ _ Hs), (ss_nLocals _ _ Hs).
Qed.

(** The immediate environment of the frame holds what is registered. *)
Definition IP_ok (IP : list (option word)) (env : ByteCodeImmediateEnv) : Prop :=
  forall k w, ie_values env !! k = Some (Some w) -> IP !! k = Some (Some w).

(** From [j] to [j'] the compiler emits code that takes the registers of a
    frame from [regs] to [regs'] with [P regs regs']. *)
Record emitted (CP : list word) (j j' : jitter) (P : list word -> list word -> Prop) : Prop := {
  em_static : same_static j j';
  em_env : env_ok (j_imEnv j');
  em_ext : env_ext (j_imEnv j) (j_imEnv j');
  em_code : exists code, j_code j' = j_code j ++ code /\
    forall IP (mem : store C) regs, IP_ok IP (j_imEnv j') -> (j_nLocals j <= length regs)%nat ->
      exists regs', exec wundef IP CP (Machine regs mem) code = Some (Next (Machine regs' mem)) /\
        length regs' = length regs /\ P regs regs' }.

Lemma exec_app IP CP code1 code2 : forall m m' : machine C,
  exec wundef IP CP m code1 = Some (Next m') ->
  exec wundef IP CP m (code1 ++ code2) = exec wundef IP CP m' code2.
Proof.
  induction code1 as [| i code1 IH]; intros m m'; cbn; [by intros [= ->] |].
  destruct (exec_instr wundef IP CP m i) as [[m1 | w] |]; cbn; [apply IH | done | done].
Qed.

Lemma emitted_mono CP j j' (P Q : list word -> list word -> Prop) :
  emitted CP j j' P ->
  (forall regs regs', (j_nLocals j <= length regs)%nat -> P regs regs' -> Q regs regs') -> emitted CP j j' Q.
Proof.
  intros [H1 H2 H3 (code & Hc & Hx)] HPQ. split; try done. exists code. split; [done |].
  intros IP mem regs HIP Hlen. destruct (Hx IP mem regs HIP Hlen) as (regs' & E & Hl & HP). exists regs'. auto.
Qed.

Lemma emitted_nil CP j (P : list word -> list word -> Prop) :
  env_ok (j_imEnv j) -> (forall regs, (j_nLocals j <= length regs)%nat -> P regs regs) -> emitted CP j j P.
Proof.
  intros HE HP. split; [apply same_static_refl | done | by intros k |]. exists []. rewrite app_nil_r. split; [done |].
  intros IP mem regs _ Hlen. exists regs. auto.
Qed.

(** An instruction that needs nothing of the immediate environment. *)
Lemma emitted_instr CP j i (P : list word -> list word -> Prop) :
  env_ok (j_imEnv j) ->
  (forall IP mem regs, (j_nLocals j <= length regs)%nat ->
     exists regs', exec_instr wundef IP CP (Machine regs mem) i = Some (Next (C := C) (Machine regs' mem)) /\
       length regs' = length regs /\ P regs regs') ->
  exists j', SET_INSTR i j = Some (tt, j') /\ emitted CP j j' P.
Proof.
  intros HE Hx. eexists. split; [done |]. split; [by split | done | by intros k |].
  exists [i]. split; [done |]. intros IP mem regs _ Hlen. destruct (Hx IP mem regs Hlen) as (regs' & E & Hl & HP).
  exists regs'. cbn. by rewrite E.
Qed.

Lemma emitted_trans CP j1 j2 j3 (P Q : list word -> list word -> Prop) :
  emitted CP j1 j2 P -> emitted CP j2 j3 Q ->
  emitted CP j1 j3 (fun regs regs' => exists r, length r = length regs /\ P regs r /\ Q r regs').
Proof.
  intros [S1 E1 X1 (c1 & C1 & R1)] [S2 E2 X2 (c2 & C2 & R2)]. split.
  - by eapply same_static_trans.
  - done.
  - by eapply env_ext_trans.
  - exists (c1 ++ c2). split; [by rewrite C2, C1, app_assoc |]. intros IP mem regs HIP Hlen.
    destruct (R1 IP mem regs) as (r1 & Hx1 & Hl1 & HP); [intros k w Hk; by apply HIP, X2 | done |].
    destruct (R2 IP mem r1) as (r2 & Hx2 & Hl2 & HQ); [done | rewrite (ss_nLocals _ _ S1); lia |].
    exists r2. rewrite (exec_app _ _ _ _ _ _ Hx1). split_and!; [done | congruence | eauto].
Qed.

Lemma SETREG_ok (m : machine C) r w : (r < length (m_regs m))%nat ->
  SETREG m r w = Some (Machine (<[r := w]> (m_regs m)) (m_store m)).
Proof. intros Hr. unfold SETREG. by rewrite decide_True. Qed.

(** [LoadIdRefInto dst x] *)
Definition assigned (CP : list word) (j : jitter) (dst : nat) (x : idRef) (regs regs' : list word) : Prop :=
  exists w, value CP j regs x = Some w /\ regs' = <[dst := w]> regs.

Lemma value_defined CP j regs x : arg_ok CP j x -> (j_nLocals j <= length regs)%nat -> is_Some (value CP j regs x).
Proof.
  unfold arg_ok, value. intros HA Hlen. destruct x; cbn; eauto.
  - destruct (aget (j_globalSubst j) i) as [[]|]; cbn; try done; eauto.
  - destruct HA as (s & -> & Hs). cbn. apply lookup_lt_is_Some_2. lia.
  - destruct HA as (s & -> & Hs). cbn. apply lookup_lt_is_Some_2. lia.
Qed.

Lemma load_local_ok CP j dst id s x :
  env_ok (j_imEnv j) -> (dst < j_nLocals j)%nat -> id_to_reg j id = Some s -> (s < j_nLocals j)%nat ->
  is_local x = Some id ->
  exists j', (src <- IdToReg id;; if decide (src = dst) then jret tt else SET_INSTR (load_reg dst src)) j = Some (tt, j') /\
    emitted CP j j' (assigned CP j dst x).
Proof.
  intros HE Hd Hid Hs Hx. unfold jbind, IdToReg. rewrite Hid. cbn [mbind option_bind fst snd].
  assert (Hv : forall regs, value CP j regs x = regs !! s).
  { intros regs. unfold value. destruct x; try done; injection Hx as ->; cbn; by rewrite Hid. }
  case_decide as Heq.
  - exists j. split; [done |]. apply emitted_nil; [done |]. intros regs Hlen. unfold assigned. rewrite Hv.
    destruct (lookup_lt_is_Some_2 regs s) as [w Hw]; [lia |]. exists w. split; [done |]. subst dst.
    by rewrite list_insert_id.
  - apply emitted_instr; [done |]. intros IP mem regs Hlen. cbn. unfold GETREG. cbn.
    destruct (lookup_lt_is_Some_2 regs s) as [w Hw]; [lia |]. rewrite Hw. cbn.
    rewrite SETREG_ok by (cbn; lia). cbn. eexists. split; [done |]. rewrite length_insert. split; [done |].
    exists w. by rewrite Hv.
Qed.

Lemma set_ok CP j dst w i (P : list word -> list word -> Prop) :
  env_ok (j_imEnv j) -> (dst < j_nLocals j)%nat ->
  (forall IP (mem : store C) regs, exec_instr wundef IP CP (Machine regs mem) i = next (SETREG (Machine regs mem) dst w)) ->
  (forall regs, P regs (<[dst := w]> regs)) ->
  exists j', SET_INSTR i j = Some (tt, j') /\ emitted CP j j' P.
Proof.
  intros HE Hd Hi HP. apply emitted_instr; [done |]. intros IP mem regs Hlen. rewrite Hi, SETREG_ok by (cbn; lia).
  cbn. eexists. split; [done |]. by rewrite length_insert.
Qed.

Lemma load_word_ok CP j dst w x :
  env_ok (j_imEnv j) -> (dst < j_nLocals j)%nat -> imm_ok w -> lookup_subst j x = Some (Immediate w) ->
  exists j', LoadImmediateInto st dst w j = Some (tt, j') /\ emitted CP j j' (assigned CP j dst x).
Proof.
  intros HE Hd Hw Hx.
  assert (HP : forall regs, assigned CP j dst x regs (<[dst := w]> regs)).
  { intros regs. exists w. unfold value. by rewrite Hx. }
  destruct w as [i | a]; cbn [LoadImmediateInto].
  - case_match eqn:E.
    + apply Z.eqb_eq in E. subst i. by apply (set_ok _ _ dst (WInt 0)).
    + apply (set_ok _ _ dst (WInt i)); [done | done | | exact HP]. intros IP mem regs. cbn in *. by rewrite Hw.
  - unfold jbind, imEnv_Register. destruct (Register_ok (j_imEnv j) (WPtr a) HE) as (i & env & E & HE' & Hext & Hi).
    rewrite E. cbn [mbind option_bind fst snd]. eexists. split; [done |]. split; [by split | done | done |].
    exists [load_immediate dst i]. split; [done |]. intros IP mem regs HIP Hlen. cbn in HIP. cbn.
    rewrite (HIP _ _ Hi). cbn. rewrite SETREG_ok by (cbn; lia). cbn. eexists. split; [done |]. by rewrite length_insert.
Qed.

Lemma LoadIdRefInto_ok CP j dst x : env_ok (j_imEnv j) -> arg_ok CP j x -> (dst < j_nLocals j)%nat ->
  exists j', LoadIdRefInto st dst x j = Some (tt, j') /\ emitted CP j j' (assigned CP j dst x).
Proof.
  intros HE HA Hd. unfold LoadIdRefInto. unfold jbind at 1. unfold LookupSubst.
  destruct x as [i | w | id | id]; cbn [lookup_subst mbind option_bind fst snd]; cbn in HA.
  - destruct (aget (j_globalSubst j) i) as [y |] eqn:Ey; [| done]. cbn [mbind option_bind fst snd].
    destruct y as [k | w | |]; try done.
    + destruct HA as [w Hw]. apply (set_ok _ _ dst w); [done | done | |].
      * intros IP mem regs. cbn. by rewrite Hw.
      * intros regs. exists w. unfold value. cbn. rewrite Ey. done.
    + by apply load_word_ok.
  - by apply load_word_ok.
  - destruct HA as (s & Hs & Hlt). by eapply load_local_ok.
  - destruct HA as (s & Hs & Hlt). by eapply load_local_ok.
Qed.

(** ** Chains *)

(** Every register of [q] gets the value of the next one, the last one the
    value [last]. *)
Record moved (last : list word -> option word) (q : list nat) (regs regs' : list word) : Prop := {
  mv_next : forall i a b, q !! i = Some a -> q !! S i = Some b -> regs' !! a = regs !! b;
  mv_last : forall q' a, q = q' ++ [a] -> regs' !! a = last regs;
  mv_other : forall r, r ∉ q -> regs' !! r = regs !! r }.

Lemma moved_one last a w regs : last regs = Some w -> (a < length regs)%nat ->
  moved last [a] regs (<[a := w]> regs).
Proof.
  intros Hw Ha. split.
  - intros i x y _ Hy. apply lookup_lt_Some in Hy. cbn in Hy. lia.
  - intros [| ? q'] x E; [injection E as <-; by rewrite list_lookup_insert_eq, Hw |].
    injection E as -> E. by apply app_cons_not_nil in E.
  - intros r Hr. apply list_lookup_insert_ne. set_solver.
Qed.

(** A load in front of a path. *)
Lemma moved_cons last a b t w regs regs' :
  NoDup (a :: b :: t) -> regs !! b = Some w -> (a < length regs)%nat ->
  last (<[a := w]> regs) = last regs ->
  moved last (b :: t) (<[a := w]> regs) regs' -> moved last (a :: b :: t) regs regs'.
Proof.
  intros [Ha HN]%NoDup_cons Hb Hlt Hl [M1 M2 M3]. split.
  - intros [| i] x y Hx Hy; cbn in Hx, Hy.
    + injection Hx as <-. injection Hy as <-. rewrite M3, list_lookup_insert_eq by done. done.
    + rewrite (M1 i x y Hx Hy). apply list_lookup_insert_ne. intros <-. apply Ha.
      by apply (list_elem_of_lookup_2 _ (S i)).
  - intros [| ? q'] x E; [done |]. injection E as -> E. rewrite <- Hl. by apply (M2 q').
  - intros r Hr. rewrite M3 by set_solver. apply list_lookup_insert_ne. set_solver.
Qed.

Lemma value_insert CP j regs x a w : arg_ok CP j x ->
  (forall id s, is_local x = Some id -> id_to_reg j id = Some s -> s <> a) ->
  value CP j (<[a := w]> regs) x = value CP j regs x.
Proof.
  intros HA Hne. unfold value. destruct x; cbn; try done.
  - cbn in HA. destruct (aget (j_globalSubst j) i) as [[]|]; done.
  - destruct (id_to_reg j id) eqn:E; cbn; [| done]. apply list_lookup_insert_ne. apply not_eq_sym. by eapply Hne.
  - destruct (id_to_reg j id) eqn:E; cbn; [| done]. apply list_lookup_insert_ne. apply not_eq_sym. by eapply Hne.
Qed.

Lemma run_path CP c x q : forall i j, q <> [] -> seg c i q -> NoDup q ->
  Forall (fun r => r < j_nLocals j)%nat q -> env_ok (j_imEnv j) -> arg_ok CP j x ->
  (forall id s, is_local x = Some id -> id_to_reg j id = Some s -> s ∉ q) ->
  exists j', (emit_loads c i (length q - 1);; dst <- jlift (chain_Reg c (i + (length q - 1)));; LoadIdRefInto st dst x) j
             = Some (tt, j') /\
    emitted CP j j' (moved (fun regs => value CP j regs x) q).
Proof.
  induction q as [| a [| b t] IH]; intros i j Hne Hseg HN HF HE HA Hx; [done | |].
  - pose proof (Hseg 0%nat a eq_refl) as Ha. cbn [length Nat.sub emit_loads]. unfold jbind, jret, jlift.
    cbn [mbind option_bind fst snd]. rewrite Ha. cbn [mbind option_bind fst snd].
    apply Forall_cons in HF as [Hlt _].
    destruct (LoadIdRefInto_ok CP j a x HE HA Hlt) as (j' & E & HM). exists j'. split; [done |].
    eapply emitted_mono; [exact HM |]. intros regs regs' Hlen (w & Hw & ->). apply moved_one; [done | lia].
  - pose proof (Hseg 0%nat a eq_refl) as Ha. pose proof (Hseg 1%nat b eq_refl) as Hb. rewrite Nat.add_0_r in Ha.
    replace (i + 1)%nat with (S i) in Hb by lia. apply Forall_cons in HF as [Hlta HF]. pose proof HF as [Hltb _]%Forall_cons.
    destruct (emitted_instr CP j (load_reg a b) (fun regs regs' => exists w, regs !! b = Some w /\ regs' = <[a := w]> regs) HE)
      as (j1 & E1 & M1).
    { intros IP mem regs Hlen. cbn. unfold GETREG. cbn. destruct (lookup_lt_is_Some_2 regs b) as [w Hw]; [lia |].
      rewrite Hw. cbn. rewrite SETREG_ok by (cbn; lia). cbn. eexists. split; [done |]. rewrite length_insert. eauto. }
    pose proof (em_static _ _ _ _ M1) as HS.
    destruct (IH (S i) j1) as (j2 & E2 & M2).
    { done. }
    { intros k r Hk. rewrite <- (Hseg (S k) r Hk). f_equal. lia. }
    { by apply NoDup_cons in HN as [_ ?]. }
    { by rewrite (ss_nLocals _ _ HS). }
    { apply M1. }
    { by eapply arg_ok_static. }
    { intros id s Hid. rewrite (id_to_reg_static _ _ _ HS). intros Hs. pose proof (Hx id s Hid Hs). set_solver. }
    exists j2. split.
    + replace (length (a :: b :: t) - 1)%nat with (S (length (b :: t) - 1)) by (cbn; lia).
      replace (i + S (length (b :: t) - 1))%nat with (S i + (length (b :: t) - 1))%nat by lia.
      cbn [emit_loads]. unfold jbind, jlift in *. rewrite Ha, Hb. cbn [mbind option_bind fst snd].
      rewrite E1. cbn [mbind option_bind fst snd]. exact E2.
    + eapply emitted_mono; [exact (emitted_trans _ _ _ _ _ _ M1 M2) |].
      intros regs regs' Hlen (r & Hlr & (w & Hw & ->) & HM). eapply moved_cons; try done; [lia | |].
      * apply value_insert; [done |]. intros id s Hid Hs. pose proof (Hx id s Hid Hs). set_solver.
      * destruct HM as [N1 N2 N3]. split; [done | | done]. intros q' z Hz. rewrite (N2 q' z Hz). by apply value_static.
Qed.

(** A swap with the last register of a cycle, in front of the other swaps. *)
Lemma moved_snoc d l z wd wz regs regs' :
  NoDup (d :: l ++ [z]) -> regs !! d = Some wd -> regs !! z = Some wz ->
  moved (fun r => r !! d) (d :: l) (<[z := wd]> (<[d := wz]> regs)) regs' ->
  moved (fun r => r !! d) (d :: l ++ [z]) regs regs'.
Proof.
  intros HN Hd Hz [M1 M2 M3]. pose proof (lookup_lt_Some _ _ _ Hd). pose proof (lookup_lt_Some _ _ _ Hz).
  change (d :: l ++ [z]) with ((d :: l) ++ [z]) in *. set (q := d :: l) in *.
  assert (Hzq : z ∉ q) by (apply NoDup_app in HN as (_ & HN & _); intros Hin; apply (HN _ Hin); by left).
  assert (Hdq : q !! 0%nat = Some d) by done.
  assert (Hnq : NoDup q) by (by apply NoDup_app in HN as (? & _ & _)).
  assert (Hne : d <> z) by (intros ->; apply Hzq; by left).
  split.
  - intros k a b Ha Hb. apply lookup_app_Some in Hb as [Hb | [Hk Hb]].
    + assert (Hak : q !! k = Some a).
      { apply lookup_app_Some in Ha as [? | [Hk _]]; [done | apply lookup_lt_Some in Hb; lia]. }
      rewrite (M1 k a b Hak Hb). rewrite !list_lookup_insert_ne; [done | |].
      * intros <-. pose proof (NoDup_lookup _ _ _ _ Hnq Hdq Hb). lia.
      * intros <-. apply Hzq. by apply list_elem_of_lookup_2 in Hb.
    + apply list_lookup_singleton_Some in Hb as [Hk' <-].
      apply lookup_app_Some in Ha as [Ha | [Hk2 Ha]]; [| apply lookup_lt_Some in Ha; cbn in Ha; lia].
      assert (Hq : q = take k q ++ [a]).
      { rewrite <- (take_S_r _ _ _ Ha). rewrite take_ge by lia. done. }
      rewrite (M2 _ _ Hq). rewrite list_lookup_insert_ne, list_lookup_insert_eq by done. done.
  - intros q' a E. apply app_inj_tail in E as [_ <-]. rewrite (M3 z Hzq), list_lookup_insert_eq; [done |].
    by rewrite length_insert.
  - intros r Hr. rewrite M3 by set_solver. rewrite !list_lookup_insert_ne; [done | |]; intros <-; apply Hr; set_solver.
Qed.

Lemma run_cycle CP c d i l : forall j, seg c i (d :: l) -> NoDup (d :: l) ->
  Forall (fun r => r < j_nLocals j)%nat (d :: l) -> env_ok (j_imEnv j) ->
  exists j', emit_swaps c d i (length l) j = Some (tt, j') /\
    emitted CP j j' (moved (fun regs => regs !! d) (d :: l)).
Proof.
  induction l as [| z l IH] using rev_ind; intros j Hseg HN HF HE.
  - exists j. split; [done |]. apply emitted_mono with (P := fun regs regs' => regs' = regs).
    { by apply emitted_nil. }
    intros regs regs' Hlen ->. apply Forall_cons in HF as [Hlt _].
    destruct (lookup_lt_is_Some_2 regs d) as [w Hw]; [lia |].
    rewrite <- (list_insert_id regs d w Hw) at 2. apply moved_one; [done | lia].
  - rewrite length_app, Nat.add_1_r. cbn [emit_swaps]. unfold jbind, jlift.
    assert (Hz : chain_Reg c (i + S (length l)) = Some z).
    { apply (Hseg (S (length l))). change (d :: l ++ [z]) with ((d :: l) ++ [z]).
      rewrite lookup_app_r by (cbn; lia). cbn. by rewrite Nat.sub_diag. }
    rewrite Hz. cbn [mbind option_bind fst snd].
    pose proof HF as [Hlt HF']%Forall_cons. pose proof HF' as [HF1 [Hltz _]%Forall_cons]%Forall_app.
    destruct (emitted_instr CP j (swap_regs d z) (fun regs regs' => exists wd wz,
      regs !! d = Some wd /\ regs !! z = Some wz /\ regs' = <[z := wd]> (<[d := wz]> regs)) HE) as (j1 & E1 & M1).
    { intros IP mem regs Hlen. cbn. unfold GETREG. cbn.
      destruct (lookup_lt_is_Some_2 regs d) as [wd Hd]; [lia |]. destruct (lookup_lt_is_Some_2 regs z) as [wz Hwz]; [lia |].
      rewrite Hd. cbn. rewrite Hwz. cbn. rewrite SETREG_ok by (cbn; lia). cbn. rewrite SETREG_ok by (cbn; rewrite length_insert; lia).
      cbn. eexists. split; [done |]. rewrite !length_insert. split; [done |]. eauto. }
    rewrite E1. cbn [mbind option_bind fst snd].
    destruct (IH j1) as (j2 & E2 & M2).
    { intros k r Hk. apply Hseg. change (d :: l ++ [z]) with ((d :: l) ++ [z]). by apply lookup_app_l_Some. }
    { change (d :: l ++ [z]) with ((d :: l) ++ [z]) in HN. by apply NoDup_app in HN as (? & _ & _). }
    { rewrite (ss_nLocals _ _ (em_static _ _ _ _ M1)). by constructor. }
    { apply M1. }
    exists j2. split; [done |]. eapply emitted_mono; [exact (emitted_trans _ _ _ _ _ _ M1 M2) |].
    intros regs regs' Hlen (r & Hlr & (wd & wz & Hd & Hwz & ->) & HM). by eapply moved_snoc.
Qed.

End Exec.

(** ** The maps and the code of all chains *)

Section Moves.
Context `{Platform}.

(** The register of a formal argument and the register an argument is read
    from. *)
Definition destination (j : jitter) (f : idDef) : option nat :=
  match f with IdDef id => id_to_reg j id | Wildcard => None end.
Definition destinations (j : jitter) (formals : list idDef) : list nat := omap (destination j) formals.
Definition source (j : jitter) (x : idRef) : option nat := sid ← is_local x; id_to_reg j sid.

(** The register [r] is assigned the argument [x]. *)
Definition moves (j : jitter) (zs : list (idDef * idRef)) (r : nat) (x : idRef) : Prop :=
  exists f, (f, x) ∈ zs /\ destination j f = Some r.

Definition overwritten (j : jitter) (zs : list (idDef * idRef)) (r : nat) : Prop :=
  exists x, moves j zs r x /\ source j x <> Some r.

Lemma moves_snoc j zs f y r x :
  moves j (zs ++ [(f, y)]) r x <-> moves j zs r x \/ (destination j f = Some r /\ x = y).
Proof.
  unfold moves. split.
  - intros (g & [Hg | Hg]%elem_of_app & Hd); [left; eauto |]. apply list_elem_of_singleton in Hg. injection Hg as -> ->. by right.
  - intros [(g & Hg & Hd) | [Hd ->]]; [exists g | exists f]; (split; [| done]); rewrite elem_of_app, ?list_elem_of_singleton; auto.
Qed.

Lemma moves_destinations j zs r x : moves j zs r x -> r ∈ destinations j zs.*1.
Proof.
  intros (f & Hf & Hd). unfold destinations. apply list_elem_of_omap. exists f. split; [| done].
  apply list_elem_of_fmap. by exists (f, x).
Qed.

(** ** The first loop *)

(** The maps after the arguments [zs]. *)
Record built (j : jitter) (zs : list (idDef * idRef)) (ms : maps) : Prop := {
  b_defs_length : length (definedBy ms) = j_nLocals j;
  b_uses_length : length (usedBy ms) = j_nLocals j;
  b_visited_length : length (visited ms) = j_nLocals j;
  b_defs : forall r x, definedBy ms !! r = Some (Some x) <-> moves j zs r x /\ source j x <> Some r;
  b_uses : forall s r, usedBy ms !! s = Some (Some r) -> exists x, moves j zs r x /\ source j x = Some s /\ s <> r;
  b_used : forall s r x, moves j zs r x -> source j x = Some s -> s <> r -> exists r', usedBy ms !! s = Some (Some r');
  b_visited : forall r, visited ms !! r = Some true <-> exists x, moves j zs r x /\ source j x = Some r }.

Lemma built_nil j : let n := j_nLocals j in
  built j [] (mkMaps (UIntMap_New n) (UIntMap_New n) (UIntSet_New n)).
Proof.
  assert (Hno : forall r x, ~ moves j [] r x) by (intros r x (f & Hf & _); by apply elem_of_nil in Hf).
  split; cbn; unfold UIntMap_New, UIntSet_New; try by rewrite length_replicate.
  - intros r x. split; [intros [Hr _]%lookup_replicate; done | intros [[]%Hno _]].
  - intros s r [Hr _]%lookup_replicate. done.
  - intros s r x []%Hno.
  - intros r. split; [intros [Hr _]%lookup_replicate; done | intros (x & []%Hno & _)].
Qed.

Lemma lookup_put {A} (m : list (option A)) k v r x : (k < length m)%nat ->
  <[k := Some v]> m !! r = Some (Some x) <-> (r = k /\ x = v) \/ (r <> k /\ m !! r = Some (Some x)).
Proof.
  intros Hk. destruct (decide (r = k)) as [-> | Hne].
  - rewrite list_lookup_insert_eq by done. split; [intros [= ->]; auto | intros [[_ ->] | []]; done].
  - rewrite list_lookup_insert_ne by done. naive_solver.
Qed.

Lemma build_one_ok j zs ms f x : built j zs ms ->
  (forall id, f = IdDef id -> exists d, id_to_reg j id = Some d /\ (d < j_nLocals j)%nat /\ d ∉ destinations j zs.*1) ->
  (forall id, is_local x = Some id -> exists s, id_to_reg j id = Some s /\ (s < j_nLocals j)%nat) ->
  exists ms', build_one j ms f x = Some ms' /\ built j (zs ++ [(f, x)]) ms'.
Proof.
  intros HB Hf Hx. destruct f as [id |]; cbn [build_one].
  2: { exists ms. split; [done |]. destruct HB as [H1 H2 H3 H4 H5 H6 H7].
       assert (Hiff : forall r y, moves j (zs ++ [(Wildcard, x)]) r y <-> moves j zs r y).
       { intros r y. rewrite moves_snoc. cbn. naive_solver. }
       split; try done.
       - intros r y. by rewrite Hiff.
       - intros s r Hs. destruct (H5 s r Hs) as (y & Hy & ?). exists y. by rewrite Hiff.
       - intros s r y. rewrite Hiff. apply H6.
       - intros r. rewrite H7. by setoid_rewrite Hiff. }
  destruct (Hf id eq_refl) as (d & Hd & Hdl & Hfresh). rewrite Hd. cbn [mbind option_bind].
  assert (Hiff : forall r y, moves j (zs ++ [(IdDef id, x)]) r y <-> moves j zs r y \/ (r = d /\ y = x)).
  { intros r y. rewrite moves_snoc. cbn. rewrite Hd. naive_solver. }
  assert (Hnew : forall y, ~ moves j zs d y) by (intros y Hy; by apply Hfresh, (moves_destinations _ _ _ y)).
  destruct HB as [H1 H2 H3 H4 H5 H6 H7].
  assert (Hdef : forall r y, source j x <> Some d ->
    <[d := Some x]> (definedBy ms) !! r = Some (Some y) <->
    moves j (zs ++ [(IdDef id, x)]) r y /\ source j y <> Some r).
  { intros r y Hs. rewrite lookup_put, Hiff, H4 by lia. naive_solver. }
  unfold define, use, visit, UIntMap_Put, UIntSet_Put.
  destruct (is_local x) as [sid |] eqn:El.
  - destruct (Hx sid eq_refl) as (s & Hs & Hsl). rewrite Hs. cbn [mbind option_bind].
    assert (Hsrc : source j x = Some s) by (unfold source; by rewrite El).
    case_decide as Heq.
    + subst s. rewrite decide_True by lia. cbn [mbind option_bind]. eexists. split; [done |]. split; cbn; try done.
      * by rewrite length_insert.
      * intros r y. rewrite H4, Hiff. naive_solver.
      * intros u r Hu. destruct (H5 u r Hu) as (y & Hy & ?). exists y. rewrite Hiff. auto.
      * intros u r y. rewrite Hiff. intros [Hm | [-> ->]]; [by apply H6 |]. rewrite Hsrc. intros [= ->]. done.
      * intros r. setoid_rewrite Hiff. destruct (decide (r = d)) as [-> | Hne].
        -- rewrite list_lookup_insert_eq by lia. split; [| done]. intros _. exists x. auto.
        -- rewrite list_lookup_insert_ne, H7 by done. naive_solver.
    + rewrite decide_True by lia. cbn [mbind option_bind]. cbn [usedBy]. rewrite decide_True by lia.
      cbn [mbind option_bind]. eexists. split; [done |]. split; cbn; try done.
      * by rewrite length_insert.
      * by rewrite length_insert.
      * intros r y. apply Hdef. congruence.
      * intros u r. rewrite lookup_put by lia. intros [[-> ->] | [Hne Hu]].
        -- exists x. rewrite Hiff. auto.
        -- destruct (H5 u r Hu) as (y & Hy & ?). exists y. rewrite Hiff. auto.
      * intros u r y. rewrite Hiff. intros Hm Hy Hur. destruct (decide (u = s)) as [-> | Hne].
        -- exists d. rewrite list_lookup_insert_eq by lia. done.
        -- rewrite list_lookup_insert_ne by done. destruct Hm as [Hm | [-> ->]]; [by apply (H6 u r y) | congruence].
      * intros r. rewrite H7. setoid_rewrite Hiff. naive_solver.
  - assert (Hsrc : source j x = None) by (unfold source; by rewrite El).
    rewrite decide_True by lia. cbn [mbind option_bind]. eexists. split; [done |]. split; cbn; try done.
    + by rewrite length_insert.
    + intros r y. apply Hdef. congruence.
    + intros u r Hu. destruct (H5 u r Hu) as (y & Hy & ?). exists y. rewrite Hiff. auto.
    + intros u r y. rewrite Hiff. intros [Hm | [-> ->]]; [by apply H6 | congruence].
    + intros r. rewrite H7. setoid_rewrite Hiff. naive_solver.
Qed.

(** What a call must satisfy: the formal arguments have different registers,
    and no register that is overwritten is the source of two others. *)
Record call_ok (j : jitter) (zs : list (idDef * idRef)) : Prop := {
  c_formals : forall id x, (IdDef id, x) ∈ zs -> exists d, id_to_reg j id = Some d /\ (d < j_nLocals j)%nat;
  c_distinct : NoDup (destinations j zs.*1);
  c_args : forall f x id, (f, x) ∈ zs -> is_local x = Some id ->
    exists s, id_to_reg j id = Some s /\ (s < j_nLocals j)%nat;
  c_unshared : forall r r' s x x', moves j zs r x -> moves j zs r' x' ->
    source j x = Some s -> source j x' = Some s -> r <> s -> r' <> s -> overwritten j zs s -> r = r' }.

Lemma moves_unique j zs r x x' : NoDup (destinations j zs.*1) ->
  moves j zs r x -> moves j zs r x' -> x = x'.
Proof.
  induction zs as [| [f y] zs IH]; intros HN (g & Hg & Hd) (g' & Hg' & Hd'); [by apply elem_of_nil in Hg |].
  assert (Htl : NoDup (destinations j zs.*1)).
  { unfold destinations in *. cbn in HN. destruct (destination j f); [by apply NoDup_cons in HN as [_ ?] | done]. }
  assert (Hhd : destination j f = Some r -> forall z, ~ moves j zs r z).
  { intros Hf z Hz. apply moves_destinations in Hz. unfold destinations in *. cbn in HN. rewrite Hf in HN.
    by apply NoDup_cons in HN as [? _]. }
  apply elem_of_cons in Hg as [[= -> ->] | Hg], Hg' as [[= -> ->] | Hg']; [done | | |].
  - destruct (Hhd Hd x'). by exists g'.
  - destruct (Hhd Hd' x). by exists g.
  - apply IH; [done | by exists g | by exists g'].
Qed.

Lemma build_ok j : forall formals args zs ms,
  length formals = length args -> call_ok j (zs ++ zip formals args) -> built j zs ms ->
  exists ms', build j ms formals args = Some ms' /\ built j (zs ++ zip formals args) ms'.
Proof.
  induction formals as [| f formals IH]; intros [| x args] zs ms Hlen HC HB; cbn in Hlen; try done.
  { exists ms. cbn. by rewrite app_nil_r. }
  cbn [build zip_with].
  destruct (build_one_ok j zs ms f x HB) as (ms1 & E1 & HB1).
  { intros id ->. destruct (c_formals _ _ HC id x) as (d & Hd & Hdl); [set_solver |].
    exists d. split_and!; [done | done |]. intros Hin. pose proof (c_distinct _ _ HC) as HN.
    unfold destinations in *. rewrite fmap_app, omap_app in HN. cbn in HN. rewrite Hd in HN.
    apply NoDup_app in HN as (_ & HN & _). apply (HN _ Hin). by left. }
  { intros id Hid. by apply (c_args _ _ HC f x id); [set_solver |]. }
  rewrite E1. cbn [mbind option_bind].
  destruct (IH args (zs ++ [(f, x)]) ms1) as (ms' & E & HB').
  { by injection Hlen. }
  { by rewrite <- app_assoc. }
  { done. }
  exists ms'. rewrite <- app_assoc in HB'. done.
Qed.

Section Maps.
Context (j : jitter) (zs : list (idDef * idRef)) (ms : maps).
Context (HC : call_ok j zs) (HB : built j zs ms).

Lemma reads_iff r s : reads j (definedBy ms) r s <-> exists x, moves j zs r x /\ source j x = Some s /\ s <> r.
Proof.
  unfold reads, source. split.
  - intros (x & sid & Hx & Hl & Hs). apply (b_defs _ _ _ HB) in Hx as [Hm Hne]. exists x.
    unfold source in Hne. rewrite Hl in *. cbn in *. split_and!; [done | done | congruence].
  - intros (x & Hm & Hs & Hne). destruct (is_local x) as [sid |] eqn:El; [| done]. cbn in Hs.
    exists x, sid. split_and!; [| done | done]. apply (b_defs _ _ _ HB). split; [done |].
    unfold source. rewrite El. cbn. congruence.
Qed.

Lemma defined_iff r : defined (definedBy ms) r <-> overwritten j zs r.
Proof. unfold defined, overwritten. by setoid_rewrite (b_defs _ _ _ HB). Qed.

Lemma graph_uses s r : usedBy ms !! s = Some (Some r) -> reads j (definedBy ms) r s.
Proof. intros Hs. apply reads_iff. by apply (b_uses _ _ _ HB). Qed.

Lemma graph_used r s : reads j (definedBy ms) r s -> defined (definedBy ms) s -> usedBy ms !! s = Some (Some r).
Proof.
  intros (x & Hm & Hs & Hne)%reads_iff Hd%defined_iff.
  destruct (b_used _ _ _ HB s r x Hm Hs Hne) as [r' Hr']. rewrite Hr'. do 2 f_equal.
  destruct (b_uses _ _ _ HB s r' Hr') as (x' & Hm' & Hs' & Hne').
  by apply (c_unshared _ _ HC r' r s x' x); auto.
Qed.

Lemma graph_irrefl r s : reads j (definedBy ms) r s -> r <> s.
Proof. intros (x & _ & _ & Hne)%reads_iff. by apply not_eq_sym. Qed.

Lemma graph_src r x sid : definedBy ms !! r = Some (Some x) -> is_local x = Some sid ->
  exists s, id_to_reg j sid = Some s /\ (s < length (definedBy ms))%nat.
Proof.
  intros Hx Hl. apply (b_defs _ _ _ HB) in Hx as [(f & Hf & _) _]. rewrite (b_defs_length _ _ _ HB).
  by apply (c_args _ _ HC f x).
Qed.

Lemma graph_card l : NoDup l -> Forall (defined (definedBy ms)) l -> (length l <= length zs)%nat.
Proof.
  intros HN HF. assert (Hsub : l ⊆+ destinations j zs.*1).
  { apply NoDup_submseteq; [done |]. intros r Hr. rewrite Forall_forall in HF.
    apply HF in Hr as (x & Hm & _)%defined_iff. by eapply moves_destinations. }
  apply submseteq_length in Hsub. etrans; [exact Hsub |]. unfold destinations.
  rewrite <- (length_fmap fst zs). generalize zs.*1. intros fs.
  induction fs as [| f fs IH]; cbn; [done |]. destruct (destination j f); cbn; lia.
Qed.

(** A register that is not overwritten but visited by the first loop is
    assigned itself; it reads nothing else and is not defined. *)
Lemma graph_visited r s : reads j (definedBy ms) r s -> defined (definedBy ms) s ->
  visited ms !! r = Some true <-> visited ms !! s = Some true.
Proof.
  assert (Hno : forall r, defined (definedBy ms) r -> visited ms !! r <> Some true).
  { intros r' [x Hx] (x' & Hm' & Hs')%(b_visited _ _ _ HB). apply (b_defs _ _ _ HB) in Hx as [Hm Hne].
    assert (x = x'); [| congruence]. by eapply moves_unique; [apply HC | |]. }
  intros Hr Hs. split; intros Hv; exfalso; [apply (Hno r) in Hv | apply (Hno s) in Hv]; try done.
  by eapply reads_defined.
Qed.

End Maps.

End Moves.
