(* ===== verification/InlineCCCProps.v ===== *)
(** * Parallel assignment: correctness, and the calls that are miscompiled *)

From S2P Require Import Prelude Config HeaderOp AliceData AbstractCode ByteCodeJitter InlineCCC InlineCCCGraph InlineCCCExec.

#[local] Open Scope Z_scope.
#[local] Open Scope jit_scope.

Section Props.
Context `{Platform} {C : Type} (st : store C) (wundef : word).

(** ** The code of the chains *)

Section Chains.
Context (j0 : jitter) (CP : list word) (nArgs : nat) (defs : list (option idRef)) (uses : list (option nat)).
Context (HG : graph_ok j0 nArgs defs uses).
Context (Hdefs : length defs = j_nLocals j0).
Context (Hargs : forall r x, defs !! r = Some (Some x) -> arg_ok CP j0 x).

(** The registers of [q] have been assigned. *)
Definition done_with (q : list nat) (regs regs' : list word) : Prop :=
  (forall r x, r ∈ q -> defs !! r = Some (Some x) -> regs' !! r = value CP j0 regs x) /\
  (forall r, r ∉ q -> regs' !! r = regs !! r).

Lemma value_reads r s x regs : reads j0 defs r s -> defs !! r = Some (Some x) -> value CP j0 regs x = regs !! s.
Proof.
  intros (x' & sid & Hx' & Hl & Hs) Hx. assert (x' = x) as -> by congruence.
  unfold value. destruct x; try done; injection Hl as ->; cbn; by rewrite Hs.
Qed.

Lemma value_no_source CP' j x regs regs' : arg_ok CP' j x -> source j x = None -> value CP' j regs x = value CP' j regs' x.
Proof.
  unfold source, value. intros HA Hs. destruct x; cbn in *; try done; try by rewrite Hs.
  destruct (aget (j_globalSubst j) i) as [[]|]; done.
Qed.

Lemma moved_done last q regs regs' : linked j0 defs q ->
  (forall q' r x, q = q' ++ [r] -> defs !! r = Some (Some x) -> last regs = value CP j0 regs x) ->
  moved last q regs regs' -> done_with q regs regs'.
Proof.
  intros Hl Hlast [M1 M2 M3]. split; [| done]. intros r x [i Hi]%list_elem_of_lookup Hx.
  destruct (q !! S i) as [s |] eqn:E.
  - rewrite (M1 i r s Hi E). symmetry. apply (value_reads r); [by apply (Hl i) | done].
  - apply lookup_ge_None in E. assert (Hq : q = take i q ++ [r]).
    { rewrite <- (take_S_r _ _ _ Hi). by rewrite take_ge by lia. }
    rewrite (M2 _ _ Hq). by apply (Hlast (take i q) r).
Qed.

Lemma emit_chain_ok j a k : represents a k -> wf_component j0 defs uses k -> same_static j0 j -> env_ok (j_imEnv j) ->
  exists j', emit_chain st a j = Some (tt, j') /\ emitted (C := C) wundef CP j j' (done_with (registers k)).
Proof.
  intros (Hseg & Hlen & Hm) Hk HS HE. pose proof (component_linked _ _ _ _ Hk) as Hlk.
  pose proof (component_nodup _ _ _ _ Hk) as HN.
  assert (Hdef : forall r, r ∈ registers k -> defined defs r) by (intros r Hr; eapply component_defined; [exact HG | exact Hk | exact Hr]).
  assert (HF : Forall (fun r => r < j_nLocals j)%nat (registers k)).
  { apply Forall_forall. intros r Hr. rewrite (ss_nLocals _ _ HS), <- Hdefs. by apply defined_lt, Hdef. }
  unfold emit_chain. unfold jbind at 1. unfold jlift. rewrite Hm. cbn [mbind option_bind fst snd].
  destruct k as [q x | q]; cbn [registers] in *.
  - destruct Hk as [_ _ _ (q' & r & -> & Hx & Hleaf)].
    assert (Hlast : (length (q' ++ [r]) = S (length q'))%nat) by (rewrite length_app; cbn; lia).
    destruct (run_path st wundef CP (a_chain a) x (q' ++ [r]) (a_bottom a) j) as (j' & E & HM); try done.
    { by destruct q'. }
    { eapply arg_ok_static; [exact HS |]. by eapply Hargs. }
    { intros id s Hid Hs Hin. rewrite (id_to_reg_static _ _ _ HS) in Hs. apply (Hleaf s); [by exists x, id | by apply Hdef]. }
    exists j'. split.
    + replace (a_top a - 1 - a_bottom a)%nat with (length (q' ++ [r]) - 1)%nat by lia.
      by replace (a_top a - 1)%nat with (a_bottom a + (length (q' ++ [r]) - 1))%nat by lia.
    + eapply emitted_mono; [exact HM |]. intros regs regs' Hregs. apply moved_done; [done |].
      intros p z y Hp Hy. apply app_inj_tail in Hp as [_ <-]. rewrite (value_static _ _ _ _ _ HS). congruence.
  - destruct Hk as (d & l & -> & Hcl & _). cbn [length] in Hlen. pose proof (Hseg 0%nat d eq_refl) as Hd.
    rewrite Nat.add_0_r in Hd. unfold jbind. rewrite Hd. cbn [mbind option_bind fst snd].
    replace (a_top a - 1 - a_bottom a)%nat with (length l) by lia.
    destruct (run_cycle (C := C) wundef CP (a_chain a) d (a_bottom a) l j Hseg HN HF HE) as (j' & E & HM).
    exists j'. split; [done |]. eapply emitted_mono; [exact HM |]. intros regs regs' _. apply moved_done; [done |].
    intros q' r x Hq Hx. symmetry. apply (value_reads r); [| done]. apply (Hcl (length q')).
    + rewrite Hq. rewrite lookup_app_l by (rewrite length_app; cbn; lia). rewrite lookup_app_r, Nat.sub_diag by lia. done.
    + rewrite Hq. rewrite lookup_app_r by (rewrite length_app; cbn; lia). rewrite length_app. cbn.
      by replace (S (length q') - (length q' + 1))%nat with 0%nat by lia.
Qed.

Lemma all_registers_cons k ks : all_registers (k :: ks) = registers k ++ all_registers ks.
Proof. done. Qed.

Lemma emit_chains_ok chains ks : Forall2 represents chains ks -> Forall (wf_component j0 defs uses) ks ->
  NoDup (all_registers ks) -> forall j, same_static j0 j -> env_ok (j_imEnv j) ->
  exists j', emit_chains st chains j = Some (tt, j') /\ emitted (C := C) wundef CP j j' (done_with (all_registers ks)).
Proof.
  induction 1 as [| a k chains ks Hrep _ IH]; intros HW HN j HS HE.
  - exists j. split; [done |]. apply emitted_nil; [done |]. intros regs _. split; [| done].
    intros r x Hr. by apply elem_of_nil in Hr.
  - apply Forall_cons in HW as [Hk HW]. rewrite all_registers_cons in *. apply NoDup_app in HN as (_ & Hdisj & HN).
    destruct (emit_chain_ok j a k Hrep Hk HS HE) as (j1 & E1 & M1).
    destruct (IH HW HN j1) as (j2 & E2 & M2).
    { eapply same_static_trans; [exact HS | apply M1]. }
    { apply M1. }
    exists j2. cbn [emit_chains]. unfold jbind. rewrite E1. cbn [mbind option_bind fst snd]. split; [done |].
    eapply emitted_mono; [exact (emitted_trans _ _ _ _ _ _ _ M1 M2) |].
    intros regs regs' _ (r1 & _ & [D1 D2] & [F1 F2]). split.
    + intros r x [Hr | Hr]%elem_of_app Hx.
      * rewrite F2 by (by apply Hdisj). by apply D1.
      * rewrite (F1 r x Hr Hx). destruct (source j0 x) as [s |] eqn:Es.
        -- assert (Hrs : reads j0 defs r s).
           { unfold source in Es. destruct (is_local x) as [sid |] eqn:El; [| done]. by exists x, sid. }
           rewrite !(value_reads r s x) by done. apply D2. intros Hs. apply (Hdisj r); [| done].
           by eapply component_closed_l.
        -- apply value_no_source; [by eapply Hargs | done].
    + intros r [Hr1 Hr2]%not_elem_of_app. by rewrite F2, D2.
Qed.

End Chains.

(** ** All cases of as many arguments as formal arguments *)

(** Every formal argument has the value its argument had before; the other
    registers are as before. *)
Definition all_assigned (CP : list word) (j : jitter) (formals : list idDef) (args : list idRef)
    (regs regs' : list word) : Prop :=
  (forall r x, moves j (zip formals args) r x -> regs' !! r = value CP j regs x) /\
  (forall r, r ∉ destinations j formals -> regs' !! r = regs !! r).

Lemma built_graph j zs ms : call_ok j zs -> built j zs ms -> graph_ok j (length zs) (definedBy ms) (usedBy ms).
Proof.
  intros HC HB. split.
  - by rewrite (b_uses_length _ _ _ HB), (b_defs_length _ _ _ HB).
  - by eapply graph_uses.
  - by eapply graph_used.
  - by eapply graph_irrefl.
  - by eapply graph_src.
  - by eapply graph_card.
Qed.

Lemma value_self CP j x r regs : source j x = Some r -> value CP j regs x = regs !! r.
Proof. unfold source, value. destruct x; cbn; try done; intros ->; done. Qed.

Lemma done_assigned CP j formals args ms q regs regs' :
  let zs := zip formals args in
  length formals = length args -> call_ok j zs -> built j zs ms ->
  (forall r, r ∈ q -> defined (definedBy ms) r) ->
  (forall r, r ∈ q -> visited ms !! r <> Some true) ->
  (forall id d, IdDef id ∈ formals -> id_to_reg j id = Some d -> visited ms !! d = Some true \/ d ∈ q) ->
  done_with j CP (definedBy ms) q regs regs' -> all_assigned CP j formals args regs regs'.
Proof.
  intros zs Hlen HC HB Hdef Hvis Hcov [D1 D2]. split.
  - intros r x Hm. destruct (decide (source j x = Some r)) as [Hs | Hs].
    + rewrite D2; [symmetry; by apply value_self |]. intros Hr. apply (Hvis r Hr), (b_visited _ _ _ HB). by exists x.
    + apply D1; [| by apply (b_defs _ _ _ HB)]. destruct Hm as (f & Hf & Hd). destruct f as [id |]; [| done].
      destruct (Hcov id r) as [Hv | Hin]; [by eapply elem_of_zip_l | done | | done].
      apply (b_visited _ _ _ HB) in Hv as (x' & Hm' & Hs'). exfalso. apply Hs.
      rewrite (moves_unique j zs r x x'); [done | apply HC | exists (IdDef id); auto | done].
  - intros r Hr. apply D2. intros Hin. apply Hr. apply Hdef in Hin as [x Hx].
    apply (b_defs _ _ _ HB) in Hx as [Hm _]. apply moves_destinations in Hm.
    subst zs. by rewrite fst_zip in Hm by lia.
Qed.

Lemma elem_of_zip_ex {A B} (l : list A) (k : list B) a : (length l <= length k)%nat -> a ∈ l ->
  exists b, (a, b) ∈ zip l k.
Proof.
  intros Hlen [i Hi]%list_elem_of_lookup. destruct (lookup_lt_is_Some_2 k i) as [b Hb].
  { apply lookup_lt_Some in Hi. lia. }
  exists b. apply (list_elem_of_lookup_2 _ i). apply lookup_zip_with_Some. eauto.
Qed.

Lemma parallel_assignment_ok CP j formals args :
  length formals = length args -> call_ok j (zip formals args) -> env_ok (j_imEnv j) -> Forall (arg_ok CP j) args ->
  exists j', parallel_assignment st formals args j = Some (tt, j') /\
    emitted (C := C) wundef CP j j' (all_assigned CP j formals args).
Proof.
  intros Hlen HC HE HA. unfold parallel_assignment.
  destruct (build_ok j formals args [] _ Hlen HC (built_nil j)) as (ms & E & HB). cbn [app] in HB.
  rewrite E. cbn [mbind option_bind]. pose proof (built_graph _ _ _ HC HB) as HG.
  rewrite length_zip_with_l in HG by lia. rewrite Hlen in HG.
  destruct (make_chains_ok j (length args) (definedBy ms) (usedBy ms) HG formals args ms)
    as (chains & ks & E2 & HR & HW & HN & Hvis & Hcov); [done | | | |].
  { split; [done | done |]. by rewrite (b_visited_length _ _ _ HB), (b_defs_length _ _ _ HB). }
  { by eapply graph_visited. }
  { intros id Hid. destruct (elem_of_zip_ex formals args (IdDef id)) as [x Hx]; [lia | done |].
    destruct (c_formals _ _ HC id x Hx) as (d & Hd & Hdl). exists d. rewrite (b_defs_length _ _ _ HB).
    split_and!; [done | done |]. assert (Hm : moves j (zip formals args) d x) by (by exists (IdDef id)).
    destruct (decide (source j x = Some d)) as [Hs | Hs].
    - right. apply (b_visited _ _ _ HB). by exists x.
    - left. exists x. by apply (b_defs _ _ _ HB). }
  rewrite E2. cbn [mbind option_bind].
  destruct (emit_chains_ok j CP (length args) (definedBy ms) (usedBy ms) HG) with (chains := chains) (ks := ks) (j := j)
    as (j' & E3 & HM); try done.
  { by rewrite (b_defs_length _ _ _ HB). }
  { intros r x Hx. apply (b_defs _ _ _ HB) in Hx as [(f & Hf & _) _]. rewrite Forall_forall in HA.
    by eapply HA, elem_of_zip_r. }
  exists j'. split; [done |]. eapply emitted_mono; [exact HM |]. intros regs regs' _. apply (done_assigned _ _ _ _ ms); try done.
  intros r Hr. unfold all_registers in Hr. apply list_elem_of_In, in_concat in Hr as (q & Hq & Hr).
  apply in_map_iff in Hq as (k & <- & Hk). rewrite Forall_forall in HW. eapply component_defined; [exact HG | |].
  - apply HW. by apply list_elem_of_In.
  - by apply list_elem_of_In.
Qed.

Lemma single_assigned CP j id x d regs regs' : id_to_reg j id = Some d -> (d < length regs)%nat ->
  assigned CP j d x regs regs' -> all_assigned CP j [IdDef id] [x] regs regs'.
Proof.
  intros Hd Hlt (w & Hw & ->). split.
  - intros r y (f & [= -> ->]%list_elem_of_singleton & Hf). cbn in Hf. assert (d = r) as -> by congruence.
    by rewrite list_lookup_insert_eq, Hw.
  - intros r Hr. apply list_lookup_insert_ne. intros ->. apply Hr. unfold destinations. cbn. rewrite Hd. by left.
Qed.

Lemma nothing_assigned CP j formals args regs : Forall (fun f => f = Wildcard) formals ->
  all_assigned CP j formals args regs regs.
Proof.
  intros HF. split; [| done]. intros r x (f & Hf & Hd). apply elem_of_zip_l in Hf. rewrite Forall_forall in HF.
  by rewrite (HF f Hf) in Hd.
Qed.

Lemma CompileInlineCCC_emitted CP j formals args isReturn :
  length formals = length args -> call_ok j (zip formals args) -> env_ok (j_imEnv j) -> Forall (arg_ok CP j) args ->
  exists j', CompileInlineCCC st formals args isReturn j = Some (tt, j') /\
    emitted (C := C) wundef CP j j' (all_assigned CP j formals args).
Proof.
  intros Hlen HC HE HA. unfold CompileInlineCCC. rewrite decide_True by done.
  assert (Hnil : Forall (fun f => f = Wildcard) formals -> exists j', jret tt j = Some (tt, j') /\
    emitted (C := C) wundef CP j j' (all_assigned CP j formals args)).
  { intros HF. exists j. split; [done |]. apply emitted_nil; [done |]. intros regs _. by apply nothing_assigned. }
  destruct formals as [| f [| g formals]].
  - apply Hnil. constructor.
  - destruct args as [| x [| ? ?]]; cbn in Hlen; try done. destruct f as [id |]; [| apply Hnil; by repeat constructor].
    destruct (c_formals _ _ HC id x) as (d & Hd & Hdl); [by left |].
    unfold jbind, IdToReg. rewrite Hd. cbn [mbind option_bind fst snd]. apply Forall_cons in HA as [HA _].
    destruct (LoadIdRefInto_ok st wundef CP j d x HE HA Hdl) as (j' & E & HM). exists j'. split; [done |].
    eapply emitted_mono; [exact HM |]. intros regs regs' Hl. apply single_assigned; [done | lia].
  - destruct args as [| x [| y args]]; cbn in Hlen; try done.
    destruct (parallel_assignment_ok CP j (f :: g :: formals) (x :: y :: args)) as (j' & E & HM); try done.
    exists j'. split; [| done]. destruct f; exact E.
Qed.

(** C10. The assignment of arguments in parallel.  When a function is inlined
    or calls itself in tail position with as many arguments as it has formal
    arguments, and no register that the call overwrites is needed for two
    other formal arguments, [CompileInlineCCC] succeeds, and the code it emits
    gives every formal argument the value its argument had before the call -
    whatever chains and cycles the assignment has - and leaves all other
    registers alone. *)
Theorem parallel_assignment_correct (CP : list word) (j : jitter) (formals : list idDef) (args : list idRef) (isReturn : bool) :
  length formals = length args -> call_ok j (zip formals args) -> env_ok (j_imEnv j) -> Forall (arg_ok CP j) args ->
  exists j' code, CompileInlineCCC st formals args isReturn j = Some (tt, j') /\ j_code j' = j_code j ++ code /\
    forall IP (mem : store C) regs, IP_ok IP (j_imEnv j') -> (j_nLocals j <= length regs)%nat ->
      exists regs', exec wundef IP CP (Machine regs mem) code = Some (Next (Machine regs' mem)) /\
        length regs' = length regs /\
        (forall r x, moves j (zip formals args) r x -> regs' !! r = value CP j regs x) /\
        (forall r, r ∉ destinations j formals -> regs' !! r = regs !! r).
Proof.
  intros Hlen HC HE HA. destruct (CompileInlineCCC_emitted CP j formals args isReturn Hlen HC HE HA) as (j' & E & HM).
  destruct (em_code _ _ _ _ _ HM) as (code & Hcode & Hx). by exists j', code.
Qed.

(** ** Calls that need a register twice *)

(** The chain of a register [d] that is loaded from [a], which is loaded from
    [b]: it contains the assignment to [a] whether or not that is in another
    chain already. *)
Definition chain_2 (d a : nat) (idb : Z) : assignment :=
  mkAssignment 3 5 [None; None; None; Some (SReg d); Some (SReg a); Some (SMarker (LEAF (Local idb))); None].

Lemma make_chain_2 j ms d ida a idb b :
  definedBy ms !! d = Some (Some (Local ida)) -> id_to_reg j ida = Some a -> a <> d ->
  definedBy ms !! a = Some (Some (Local idb)) -> id_to_reg j idb = Some b -> b <> a ->
  definedBy ms !! b = Some None -> usedBy ms !! d = Some None -> (a < length (visited ms))%nat ->
  make_chain j 3 d ms = Some (chain_2 d a idb, mkMaps (definedBy ms) (usedBy ms) (<[a := true]> (visited ms))).
Proof.
  intros Hd Ha Had Hda Hb Hba Hdb Hu Hlt. unfold make_chain, UIntMap_Get. cbn [use_walk].
  unfold UIntMap_Get. rewrite Hu. cbn [mbind option_bind]. rewrite Hd. cbn [mbind option_bind].
  cbn [length replicate Nat.mul Nat.add def_walk]. unfold UIntMap_Get. rewrite Hd. cbn [mjoin option_join mbind option_bind is_local].
  rewrite Ha. cbn [mbind option_bind]. rewrite decide_False by done. rewrite Hda. cbn [mbind option_bind].
  unfold visit, UIntSet_Put, chain_Init. rewrite (decide_True _ _ Hlt). cbn [mbind option_bind length decide].
  rewrite decide_True by (cbn; lia). cbn [mbind option_bind insert list_insert].
  unfold UIntMap_Get. cbn [definedBy]. rewrite Hda. cbn [mjoin option_join mbind option_bind is_local].
  rewrite Hb. cbn [mbind option_bind]. rewrite decide_False by done. rewrite Hdb. cbn [mbind option_bind].
  rewrite decide_True by (cbn; lia). cbn [mbind option_bind]. rewrite decide_True by lia.
  rewrite decide_True by (cbn; lia). reflexivity.
Qed.

Lemma emit_chain_2 j d a idb b : id_to_reg j idb = Some b -> b <> a ->
  emit_chain st (chain_2 d a idb) j = Some (tt, with_code (j_code j ++ [load_reg d a; load_reg a b]) j).
Proof.
  intros Hb Hne. unfold emit_chain, jbind. cbn. unfold LoadIdRefInto, jbind, LookupSubst, IdToReg, SET_INSTR. cbn.
  change (id_to_reg (with_code (j_code j ++ [load_reg d a]) j) idb) with (id_to_reg j idb). rewrite Hb. cbn.
  rewrite decide_False by done. unfold SET_INSTR. cbn. by rewrite <- app_assoc.
Qed.

Section Shared.
Context (j : jitter) (idy idz ida idb : Z) (y z a b : nat).
Context (Hy : id_to_reg j idy = Some y) (Hz : id_to_reg j idz = Some z).
Context (Ha : id_to_reg j ida = Some a) (Hb : id_to_reg j idb = Some b).
Context (Hne : y <> z /\ y <> a /\ y <> b /\ z <> a /\ z <> b /\ a <> b).
Context (Hlt : (y < j_nLocals j /\ z < j_nLocals j /\ a < j_nLocals j /\ b < j_nLocals j)%nat).

Lemma shared_maps : exists D U,
  build j (mkMaps (UIntMap_New (j_nLocals j)) (UIntMap_New (j_nLocals j)) (UIntSet_New (j_nLocals j)))
    [IdDef idy; IdDef idz; IdDef ida] [Local ida; Local ida; Local idb] = Some (mkMaps D U (UIntSet_New (j_nLocals j))) /\
  D !! y = Some (Some (Local ida)) /\ D !! z = Some (Some (Local ida)) /\
  D !! a = Some (Some (Local idb)) /\ D !! b = Some None /\ U !! y = Some None /\ U !! z = Some None.
Proof.
  destruct Hne as (Hyz & Hya & Hyb & Hza & Hzb & Hab), Hlt as (Hly & Hlz & Hla & Hlb).
  cbn [build build_one is_local]. rewrite Hy, Hz, Ha, Hb. unfold define, use, UIntMap_Put, UIntMap_New.
  repeat first [ progress cbn [mbind option_bind definedBy usedBy visited]
               | rewrite decide_False by congruence
               | rewrite decide_True by (rewrite ?length_insert, ?length_replicate; done) ].
  do 2 eexists. split; [done |]. split_and!;
    repeat first [ rewrite list_lookup_insert_eq by (rewrite ?length_insert, ?length_replicate; done)
                 | rewrite list_lookup_insert_ne by congruence
                 | rewrite lookup_replicate_2 by done ]; done.
Qed.

Lemma shared_chains D U :
  D !! y = Some (Some (Local ida)) -> D !! z = Some (Some (Local ida)) ->
  D !! a = Some (Some (Local idb)) -> D !! b = Some None -> U !! y = Some None -> U !! z = Some None ->
  make_chains j 3 (mkMaps D U (UIntSet_New (j_nLocals j))) [IdDef idy; IdDef idz; IdDef ida] [Local ida; Local ida; Local idb] =
  Some [chain_2 y a idb; chain_2 z a idb].
Proof.
  intros Dy Dz Da Db Uy Uz.
  destruct Hne as (Hyz & Hya & Hyb & Hza & Hzb & Hab), Hlt as (Hly & Hlz & Hla & Hlb).
  assert (HV : forall k, (k < j_nLocals j)%nat -> UIntSet_New (j_nLocals j) !! k = Some false).
  { intros k Hk. by apply lookup_replicate_2. }
  assert (HlV : length (UIntSet_New (j_nLocals j)) = j_nLocals j) by apply length_replicate.
  cbn [make_chains]. unfold UIntSet_IsMember, visit, UIntSet_Put. rewrite Hy, Hz, Ha.
  repeat first [ progress cbn [mbind option_bind definedBy usedBy visited fst snd chain_2 a_top a_bottom]
               | rewrite HV by done
               | rewrite decide_True by (rewrite ?length_insert; lia)
               | rewrite list_lookup_insert_ne by congruence
               | rewrite list_lookup_insert_eq by (rewrite ?length_insert; lia)
               | rewrite (make_chain_2 j _ _ ida a idb b) by (cbn; rewrite ?length_insert; first [done | lia | congruence]) ].
  done.
Qed.

Lemma shared_exec IP CP (mem : store C) regs : (j_nLocals j <= length regs)%nat ->
  exists regs', exec wundef IP CP (Machine regs mem) [load_reg y a; load_reg a b; load_reg z a; load_reg a b]
                = Some (Next (Machine regs' mem)) /\ regs' !! z = regs !! b.
Proof.
  destruct Hne as (Hyz & Hya & Hyb & Hza & Hzb & Hab), Hlt as (Hly & Hlz & Hla & Hlb). intros Hlen.
  destruct (lookup_lt_is_Some_2 regs a) as [wa Hwa]; [lia |]. destruct (lookup_lt_is_Some_2 regs b) as [wb Hwb]; [lia |].
  exists (<[a := wb]> (<[z := wb]> (<[a := wb]> (<[y := wa]> regs)))). split.
  - cbn [exec exec_instr exec_load exec_tup exec_tagval]. unfold GETREG, next.
    repeat first [ progress cbn [mbind option_bind m_regs m_store]
                 | rewrite SETREG_ok by (cbn; rewrite ?length_insert; lia)
                 | rewrite list_lookup_insert_ne by congruence
                 | rewrite list_lookup_insert_eq by (rewrite ?length_insert; lia)
                 | rewrite Hwa | rewrite Hwb ].
    done.
  - rewrite list_lookup_insert_ne by congruence. rewrite list_lookup_insert_eq by (rewrite ?length_insert; lia). done.
Qed.

End Shared.

(** C23. A self call [f (a, a, b)] of a function [f (y, z, a)] is miscompiled:
    [usedBy] keeps only one of the two uses of [a], so that the chain of [y]
    ends with the assignment to [a], and [z] gets the new value of [a]. *)
Theorem shared_source_miscompiled (CP : list word) (j : jitter) (idy idz ida idb : Z) (y z a b : nat) :
  id_to_reg j idy = Some y -> id_to_reg j idz = Some z -> id_to_reg j ida = Some a -> id_to_reg j idb = Some b ->
  NoDup [y; z; a; b] -> Forall (fun r => r < j_nLocals j)%nat [y; z; a; b] ->
  exists j' code,
    CompileInlineCCC st [IdDef idy; IdDef idz; IdDef ida] [Local ida; Local ida; Local idb] false j = Some (tt, j') /\
    j_code j' = j_code j ++ code /\
    forall IP (mem : store C) regs, (j_nLocals j <= length regs)%nat -> regs !! a <> regs !! b ->
      exists regs', exec wundef IP CP (Machine regs mem) code = Some (Next (Machine regs' mem)) /\
        regs' !! z = regs !! b /\ regs' !! z <> value CP j regs (Local ida).
Proof.
  intros Hy Hz Ha Hb HN HF.
  assert (Hne : y <> z /\ y <> a /\ y <> b /\ z <> a /\ z <> b /\ a <> b).
  { rewrite !NoDup_cons, !elem_of_cons in HN. naive_solver. }
  rewrite !Forall_cons in HF. destruct HF as (Hly & Hlz & Hla & Hlb & _).
  destruct (shared_maps j idy idz ida idb y z a b) as (D & U & EB & Dy & Dz & Da & Db & Uy & Uz); try done.
  unfold CompileInlineCCC. rewrite decide_True by done. unfold parallel_assignment. cbn [length].
  rewrite EB. cbn [mbind option_bind].
  rewrite (shared_chains j idy idz ida idb y z a b) by done. cbn [mbind option_bind emit_chains]. unfold jbind.
  rewrite (emit_chain_2 j y a idb b) by (destruct_and?; congruence). cbn [mbind option_bind fst snd].
  rewrite (emit_chain_2 _ z a idb b) by (destruct_and?; first [done | congruence]).
  eexists. exists [load_reg y a; load_reg a b; load_reg z a; load_reg a b].
  split; [done |]. split; [cbn; by rewrite <- app_assoc |]. intros IP mem regs Hlen Hvals.
  destruct (shared_exec j y z a b Hne (conj Hly (conj Hlz (conj Hla Hlb))) IP CP mem regs Hlen) as (regs' & E & Hr).
  exists regs'. split; [done |]. split; [done |]. rewrite Hr. unfold value. cbn. rewrite Ha. cbn. congruence.
Qed.

(** ** A cycle with a second use *)

Lemma visit_keeps ms k ms' : visit ms k = Some ms' -> definedBy ms' = definedBy ms /\ usedBy ms' = usedBy ms.
Proof. unfold visit. destruct (UIntSet_Put _ _); cbn; [by intros [= <-] | done]. Qed.

(** Once the walk through the definition chain is on a cycle of two registers
    it does not stop before it leaves the chain. *)
Lemma def_walk_diverges j a b ida idb : id_to_reg j ida = Some a -> id_to_reg j idb = Some b -> a <> b ->
  forall fuel top ms c key, definedBy ms !! a = Some (Some (Local idb)) -> definedBy ms !! b = Some (Some (Local ida)) ->
  key = a \/ key = b -> def_walk fuel j top key ms c = None.
Proof.
  intros Ha Hb Hab. induction fuel as [| fuel IH]; intros top ms c key Hda Hdb Hkey; [done |].
  cbn [def_walk]. unfold UIntMap_Get. destruct Hkey as [-> | ->].
  - rewrite Hda. cbn [mjoin option_join mbind option_bind is_local]. rewrite Hb. cbn [mbind option_bind].
    rewrite decide_False, Hdb by congruence. cbn [mbind option_bind].
    destruct (chain_Init c _ _) as [c' |]; cbn [mbind option_bind]; [| done].
    destruct (visit ms b) as [ms' |] eqn:E; cbn [mbind option_bind]; [| done]. apply visit_keeps in E as [E _].
    apply IH; [by rewrite E .. | by right].
  - rewrite Hdb. cbn [mjoin option_join mbind option_bind is_local]. rewrite Ha. cbn [mbind option_bind].
    rewrite decide_False, Hda by congruence. cbn [mbind option_bind].
    destruct (chain_Init c _ _) as [c' |]; cbn [mbind option_bind]; [| done].
    destruct (visit ms a) as [ms' |] eqn:E; cbn [mbind option_bind]; [| done]. apply visit_keeps in E as [E _].
    apply IH; [by rewrite E .. | by left].
Qed.

(** The walks from [x] in x <- y, y <- x, z <- x. *)
Lemma make_chain_cycle j ms x y z idx idy :
  id_to_reg j idx = Some x -> id_to_reg j idy = Some y -> x <> y -> z <> x ->
  definedBy ms !! x = Some (Some (Local idy)) -> definedBy ms !! y = Some (Some (Local idx)) ->
  usedBy ms !! x = Some (Some z) -> usedBy ms !! z = Some None ->
  make_chain j 3 x ms = None.
Proof.
  intros Hx Hy Hxy Hzx Dx Dy Ux Uz. unfold make_chain. cbn [use_walk length replicate Nat.mul Nat.add].
  unfold UIntMap_Get. rewrite Ux. cbn [mbind option_bind]. destruct (chain_Init _ _ _) as [c |]; cbn [mbind option_bind]; [| done].
  destruct (visit ms z) as [ms' |] eqn:E; cbn [mbind option_bind]; [| done]. apply visit_keeps in E as [Ed Eu].
  rewrite decide_False, Eu, Uz by done. cbn [mbind option_bind]. rewrite Ed, Dx. cbn [mbind option_bind].
  rewrite (def_walk_diverges j x y idx idy); rewrite ?Ed; auto.
Qed.

Lemma cycle_maps j idx idy idz x y z :
  id_to_reg j idx = Some x -> id_to_reg j idy = Some y -> id_to_reg j idz = Some z ->
  x <> y -> x <> z -> y <> z -> (x < j_nLocals j /\ y < j_nLocals j /\ z < j_nLocals j)%nat -> exists D U,
  build j (mkMaps (UIntMap_New (j_nLocals j)) (UIntMap_New (j_nLocals j)) (UIntSet_New (j_nLocals j)))
    [IdDef idx; IdDef idy; IdDef idz] [Local idy; Local idx; Local idx] = Some (mkMaps D U (UIntSet_New (j_nLocals j))) /\
  D !! x = Some (Some (Local idy)) /\ D !! y = Some (Some (Local idx)) /\ U !! x = Some (Some z) /\ U !! z = Some None.
Proof.
  intros Hx Hy Hz Hxy Hxz Hyz (Hlx & Hly & Hlz).
  cbn [build build_one is_local]. rewrite Hx, Hy, Hz. unfold define, use, UIntMap_Put, UIntMap_New.
  repeat first [ progress cbn [mbind option_bind definedBy usedBy visited]
               | rewrite decide_False by congruence
               | rewrite decide_True by (rewrite ?length_insert, ?length_replicate; done) ].
  do 2 eexists. split; [done |]. split_and!;
    repeat first [ rewrite list_lookup_insert_eq by (rewrite ?length_insert, ?length_replicate; done)
                 | rewrite list_lookup_insert_ne by congruence
                 | rewrite lookup_replicate_2 by done ]; done.
Qed.

(** C24. A self call [f (y, x, x)] of a function [f (x, y, z)] makes the
    compiler write out of bounds: [usedBy] keeps the use of [x] for [z] only,
    so that the cycle is not noticed, and the walk through the definitions of
    [x] and [y] does not stop before it leaves the vector of the chain. *)
Theorem shared_cycle_overruns (j : jitter) (idx idy idz : Z) (x y z : nat) :
  id_to_reg j idx = Some x -> id_to_reg j idy = Some y -> id_to_reg j idz = Some z ->
  NoDup [x; y; z] -> Forall (fun r => r < j_nLocals j)%nat [x; y; z] ->
  CompileInlineCCC st [IdDef idx; IdDef idy; IdDef idz] [Local idy; Local idx; Local idx] false j = None.
Proof.
  intros Hx Hy Hz HN HF.
  assert (Hne : x <> y /\ x <> z /\ y <> z).
  { rewrite !NoDup_cons, !elem_of_cons in HN. naive_solver. }
  destruct Hne as (Hxy & Hxz & Hyz). rewrite !Forall_cons in HF. destruct HF as (Hlx & Hly & Hlz & _).
  destruct (cycle_maps j idx idy idz x y z) as (D & U & EB & Dx & Dy & Ux & Uz); try done.
  unfold CompileInlineCCC. rewrite decide_True by done. unfold parallel_assignment.
  rewrite EB. cbn [mbind option_bind make_chains length]. rewrite Hx. cbn [mbind option_bind].
  unfold UIntSet_IsMember, UIntSet_New. cbn [visited]. rewrite lookup_replicate_2 by done. cbn [mbind option_bind].
  destruct (visit _ x) as [ms |] eqn:E; cbn [mbind option_bind]; [| done]. apply visit_keeps in E as [Ed Eu].
  cbn in Ed, Eu. by rewrite (make_chain_cycle j ms x y z idx idy) by (rewrite ?Ed, ?Eu; first [done | congruence]).
Qed.

End Props.

(** ** Witnesses *)

#[local] Existing Instance P64.

(** A function with the locals 0 to 3 in the registers 0 to 3. *)
Definition sample_jitter : jitter := mkJitter [Some 0; Some 1; Some 2; Some 3]%nat 4 0 [] imEnv_Init 4 4 false [].
Definition sample_formals : list idDef := [IdDef 0; IdDef 1; IdDef 2].
Definition sample_args : list idRef := [Local 1; Local 0; LastUseLocal 3].
Definition sample_store : store unit := mkStore 0 ∅.
Definition sample_regs : list word := [WInt 10; WInt 11; WInt 12; WInt 13].

Lemma sample_moves r x : moves sample_jitter (zip sample_formals sample_args) r x ->
  (r = 0%nat /\ x = Local 1) \/ (r = 1%nat /\ x = Local 0) \/ (r = 2%nat /\ x = LastUseLocal 3).
Proof.
  intros (f & Hf & Hd). cbn in Hf. rewrite !elem_of_cons, elem_of_nil in Hf.
  destruct Hf as [[= -> ->] | [[= -> ->] | [[= -> ->] | []]]]; vm_compute in Hd; injection Hd as <-; auto.
Qed.

Lemma sample_call_ok : call_ok sample_jitter (zip sample_formals sample_args).
Proof.
  split.
  - intros id x Hin. cbn in Hin. rewrite !elem_of_cons, elem_of_nil in Hin.
    destruct Hin as [[= -> ->] | [[= -> ->] | [[= -> ->] | []]]]; vm_compute; eexists; (split; [reflexivity | lia]).
  - apply (bool_decide_unpack _). vm_compute. exact I.
  - intros f x id Hin Hl. cbn in Hin. rewrite !elem_of_cons, elem_of_nil in Hin.
    destruct Hin as [[= -> ->] | [[= -> ->] | [[= -> ->] | []]]]; injection Hl as <-; vm_compute; eexists; (split; [reflexivity | lia]).
  - intros r r' s x x' [[-> ->] | [[-> ->] | [-> ->]]]%sample_moves [[-> ->] | [[-> ->] | [-> ->]]]%sample_moves Hs Hs' _ _ _;
      vm_compute in Hs, Hs'; congruence.
Qed.

Example parallel_assignment_correct_witness :
  exists j' code regs',
    CompileInlineCCC sample_store sample_formals sample_args false sample_jitter = Some (tt, j') /\ j_code j' = code /\
    exec (WInt 0) [] [] (Machine sample_regs sample_store) code = Some (Next (Machine regs' sample_store)) /\
    regs' !! 0%nat = Some (WInt 11) /\ regs' !! 1%nat = Some (WInt 10) /\ regs' !! 2%nat = Some (WInt 13).
Proof.
  destruct (parallel_assignment_correct sample_store (WInt 0) [] sample_jitter sample_formals sample_args false)
    as (j' & code & E & Hcode & Hx).
  - reflexivity.
  - exact sample_call_ok.
  - exact imEnv_Init_ok.
  - repeat constructor; vm_compute; eexists; (split; [reflexivity | lia]).
  - assert (Hj : j_imEnv j' = imEnv_Init) by (vm_compute in E; injection E as <-; reflexivity).
    destruct (Hx [] sample_store sample_regs) as (regs' & Er & _ & Hv & _).
    + rewrite Hj. intros k w Hk. change [None; None; None; None; None] with (replicate 5 (@None word)) in Hk.
      apply lookup_replicate in Hk as [Hk _]. discriminate.
    + cbn; lia.
    + exists j', code, regs'. split; [exact E |]. split; [exact Hcode |]. split; [exact Er |].
      rewrite (Hv 0%nat (Local 1)), (Hv 1%nat (Local 0)), (Hv 2%nat (LastUseLocal 3)).
      * repeat split.
      * exists (IdDef 2). split; [set_solver | reflexivity].
      * exists (IdDef 1). split; [set_solver | reflexivity].
      * exists (IdDef 0). split; [set_solver | reflexivity].
Defined.

(** [f (2, 2, 3)] with the formal arguments 0, 1 and 2: the argument 1 gets 13
    instead of 12. *)
Example shared_source_miscompiled_witness :
  exists j' code, CompileInlineCCC sample_store [IdDef 0; IdDef 1; IdDef 2] [Local 2; Local 2; Local 3] false sample_jitter
                  = Some (tt, j') /\ j_code j' = code /\
    exists regs', exec (WInt 0) [] [] (Machine sample_regs sample_store) code = Some (Next (Machine regs' sample_store)) /\
      regs' !! 1%nat = Some (WInt 13).
Proof.
  destruct (shared_source_miscompiled sample_store (WInt 0) [] sample_jitter 0 1 2 3 0 1 2 3) as (j' & code & E & Hcode & Hx);
    try reflexivity.
  - apply (bool_decide_unpack _). vm_compute. exact I.
  - repeat constructor; cbn; lia.
  - exists j', code. split; [exact E |]. split; [exact Hcode |].
    destruct (Hx [] sample_store sample_regs) as (regs' & Er & Hz & _); [cbn; lia | vm_compute; discriminate |].
    exists regs'. split; [exact Er | exact Hz].
Defined.

Example shared_cycle_overruns_witness :
  CompileInlineCCC sample_store [IdDef 0; IdDef 1; IdDef 2] [Local 1; Local 0; Local 0] false sample_jitter = None.
Proof.
  apply (shared_cycle_overruns sample_store sample_jitter 0 1 2 0 1 2); try reflexivity.
  - apply (bool_decide_unpack _). vm_compute. exact I.
  - repeat constructor; cbn; lia.
Defined.
