(* ===== verification/ByteCodeSelect.v ===== *)
(** * Byte code: the selection of components is simultaneous

    [LoadTuple] and [LoadTagVal] give every variable of a pattern its
    component, also when the register of a variable is the one that holds the
    tuple, as it may be after register allocation. *)

From S2P Require Import Prelude Config HeaderOp AliceData AbstractCode ByteCodeJitter InlineCCC InlineCCCGraph InlineCCCExec.

#[local] Open Scope Z_scope.
#[local] Open Scope jit_scope.

Section Select.
Context `{Platform} {C : Type} (wundef : word).

(** The pattern is a tuple ([None]) or a tagged value, big or not. *)
Definition load_components (k : option bool) (src : nat) (idDefs : list idDef) : J unit :=
  match k with None => LoadTuple src idDefs | Some isBig => LoadTagVal src idDefs isBig end.

(** The block that holds the components, and a component of it. *)
Definition holder (k : option bool) (mem : store C) (w : word) : option Z :=
  mjoin (match k with
         | None => Tuple_FromWord mem w
         | Some true => BigTagVal_FromWord mem w
         | Some false => TagVal_FromWord mem w
         end).
Definition component_of (k : option bool) (mem : store C) (a : Z) (i : nat) : option word :=
  GetArg mem a (match k with Some true => 1 + Z.of_nat i | _ => Z.of_nat i end).

(** From [j] to [j'] the compiler emits code after which the components
    [comp] are in the registers of [idDefs]; scratch registers that were in
    use stay as they are.  If [need] holds, the block must be in [src]. *)
Record loaded (need : Prop) (mem : store C) (w : word) (comp : nat -> option word) (src : nat) (idDefs : list idDef) (j j' : jitter) : Prop := {
  ld_static : same_static j j';
  ld_env : j_imEnv j' = j_imEnv j;
  ld_scratch : (j_scratch j <= j_scratch j')%nat;
  ld_registers : (j_nRegisters j <= j_nRegisters j')%nat /\ (j_scratch j' <= j_nRegisters j')%nat;
  ld_code : exists code, j_code j' = j_code j ++ code /\
    forall IP CP regs, (need -> regs !! src = Some w) -> (j_nRegisters j' <= length regs)%nat ->
      exists regs', exec wundef IP CP (Machine regs mem) code = Some (Next (Machine regs' mem)) /\
        length regs' = length regs /\
        (forall i id d, idDefs !! i = Some (IdDef id) -> id_to_reg j id = Some d -> regs' !! d = comp i) /\
        (forall r, (r < j_scratch j)%nat -> r ∉ destinations j idDefs -> regs' !! r = regs !! r) }.

Lemma destinations_static j j' l : same_static j j' -> destinations j' l = destinations j l.
Proof.
  intros HS. unfold destinations. apply list_omap_ext. apply Forall2_same_length_lookup. split; [done |].
  intros i f g Hf Hg. assert (f = g) as -> by congruence. destruct g; cbn; [by apply id_to_reg_static | done].
Qed.

Lemma loaded_need (need need' : Prop) mem w comp src l j j' :
  loaded need mem w comp src l j j' -> (need -> need') -> loaded need' mem w comp src l j j'.
Proof.
  intros [S2 I2 C2 R2 (code & Hcode & Hx)] Hneed. split; try done. exists code. split; [done |].
  intros IP CP regs Hw. apply Hx. auto.
Qed.

Section Family.
Context (mem : store C) (w : word) (comp : nat -> option word) (instr : nat -> nat -> nat -> bc_instr).
Context (Hinstr : forall IP CP i r0 r1 v regs, regs !! r1 = Some w -> (r0 < length regs)%nat -> comp i = Some v ->
  exec_instr wundef IP CP (Machine regs mem) (instr i r0 r1) = Some (Next (Machine (<[r0 := v]> regs) mem))).

Lemma loaded_nil j src : (j_scratch j <= j_nRegisters j)%nat -> loaded False mem w comp src [] j j.
Proof.
  intros Hs. split; [apply same_static_refl | done | done | lia |]. exists []. rewrite app_nil_r. split; [done |].
  intros IP CP regs _ _. exists regs. split_and!; [done | done | | done]. intros i id d Hi. by rewrite lookup_nil in Hi.
Qed.

(** The last component is loaded from the register [src] into [d] by the code
    [pre], after which [src'] holds the block. *)
Lemma loaded_snoc l id d v src src' j j1 j2 pre :
  comp (length l) = Some v -> id_to_reg j id = Some d -> (d < j_scratch j)%nat -> d ∉ destinations j l ->
  same_static j j1 -> j_imEnv j1 = j_imEnv j -> (j_scratch j <= j_scratch j1)%nat -> (j_nRegisters j <= j_nRegisters j1)%nat ->
  j_code j1 = j_code j ++ pre ->
  (forall IP CP regs, regs !! src = Some w -> (j_nRegisters j1 <= length regs)%nat ->
     exists regs1, exec wundef IP CP (Machine regs mem) pre = Some (Next (Machine regs1 mem)) /\ length regs1 = length regs /\
       regs1 !! d = Some v /\ (l <> [] -> regs1 !! src' = Some w) /\
       forall r, (r < j_scratch j)%nat -> r <> d -> regs1 !! r = regs !! r) ->
  loaded (l <> []) mem w comp src' l j1 j2 -> loaded True mem w comp src (l ++ [IdDef id]) j j2.
Proof.
  intros Hv Hd Hds Hfresh HS Hie Hsc Hnr Hpre Hexec [S2 I2 C2 [R2 R2'] (code & Hcode & Hx)].
  pose proof (destinations_static j j1 l HS) as Hdest.
  split; [by eapply same_static_trans | congruence | lia | lia |].
  exists (pre ++ code). split; [by rewrite Hcode, Hpre, app_assoc |]. intros IP CP regs Hw Hlen.
  destruct (Hexec IP CP regs) as (regs1 & E1 & L1 & D1 & W1 & O1); [by apply Hw | lia |].
  destruct (Hx IP CP regs1 W1) as (regs2 & E2 & L2 & D2 & O2); [lia |].
  exists regs2. rewrite (exec_app _ _ _ _ _ _ _ E1). split; [done |]. split; [congruence |]. split.
  - intros i id' d' Hi Hd'. apply lookup_app_Some in Hi as [Hi | [Hle Hi]].
    + apply (D2 i id' d' Hi). by rewrite (id_to_reg_static _ _ _ HS).
    + apply list_lookup_singleton_Some in Hi as [Hi0 [= <-]]. assert (i = length l) as -> by lia.
      assert (d' = d) as -> by congruence. rewrite Hv, <- D1. apply O2; [lia | by rewrite Hdest].
  - intros r Hr Hnin. unfold destinations in Hnin. rewrite omap_app in Hnin. apply not_elem_of_app in Hnin as [Hn1 Hn2].
    cbn in Hn2. rewrite Hd in Hn2. rewrite O2; [| lia | by rewrite Hdest]. apply O1; [done |]. intros ->. apply Hn2. by left.
Qed.

(** For a wildcard nothing is emitted. *)
Lemma loaded_wildcard (need : Prop) l src j j' : loaded need mem w comp src l j j' ->
  loaded need mem w comp src (l ++ [Wildcard]) j j'.
Proof.
  intros [S2 I2 C2 R2 (code & Hcode & Hx)]. split; try done. exists code. split; [done |].
  intros IP CP regs Hw Hlen. destruct (Hx IP CP regs) as (regs' & E & L & D & O); [done | done |].
  exists regs'. split_and!; [done | done | |].
  - intros i id d [Hi | [_ Hi]]%lookup_app_Some; [by apply D |].
    by apply list_lookup_singleton_Some in Hi as [_ [=]].
  - intros r Hr Hnin. apply O; [done |]. unfold destinations in Hnin. rewrite omap_app in Hnin. cbn in Hnin.
    by rewrite app_nil_r in Hnin.
Qed.

Lemma select_all_ok l : forall src j,
  (forall id, IdDef id ∈ l -> exists d, id_to_reg j id = Some d /\ (d < j_nLocals j)%nat) ->
  NoDup (destinations j l) -> (j_nLocals j <= j_scratch j)%nat -> (src < j_scratch j)%nat ->
  (j_scratch j <= j_nRegisters j)%nat -> (forall i, (i < length l)%nat -> is_Some (comp i)) ->
  exists j', select_all instr (rev l) src j = Some (tt, j') /\ loaded (l <> []) mem w comp src l j j'.
Proof.
  induction l as [| f l IH] using rev_ind; intros src j Hl HN Hsc Hsrc Hnr Hcomp.
  { exists j. split; [done |]. eapply loaded_need; [by apply loaded_nil | done]. }
  rewrite rev_app_distr. cbn [rev app select_all]. rewrite length_rev.
  assert (HN' : NoDup (destinations j l)).
  { unfold destinations in *. rewrite omap_app in HN. by apply NoDup_app in HN as (? & _ & _). }
  assert (Hl' : forall id, IdDef id ∈ l -> exists d, id_to_reg j id = Some d /\ (d < j_nLocals j)%nat).
  { intros id Hid. apply Hl. set_solver. }
  assert (Hcomp' : forall i, (i < length l)%nat -> is_Some (comp i)).
  { intros i Hi. apply Hcomp. rewrite length_app. lia. }
  destruct f as [id |].
  2: { destruct (IH src j) as (j' & E & HL); try done. exists j'. split; [exact E |].
       apply loaded_wildcard. eapply loaded_need; [exact HL | by destruct l]. }
  destruct (Hl id) as (d & Hd & Hdl); [set_solver |].
  assert (Hfresh : d ∉ destinations j l).
  { unfold destinations in *. rewrite omap_app in HN. apply NoDup_app in HN as (_ & HN & _).
    intros Hin. apply (HN d Hin). cbn. rewrite Hd. by left. }
  destruct (Hcomp (length l)) as [v Hv]; [rewrite length_app; cbn; lia |].
  unfold select_one, IdToReg, jbind. rewrite Hd. cbn [mbind option_bind fst snd].
  destruct ((0 <? length l)%nat && bool_decide (d = src)) eqn:Echeck.
  - apply andb_prop in Echeck as [Hpos Heq]. apply bool_decide_eq_true in Heq. subst src.
    unfold GetNewScratch, SET_INSTR, jret. cbn [mbind option_bind fst snd].
    set (jn := if (j_nRegisters j <? S (j_scratch j))%nat then S (j_scratch j) else j_nRegisters j).
    set (j1 := with_code _ _).
    assert (Hj1 : same_static j j1 /\ j_imEnv j1 = j_imEnv j /\ j_scratch j1 = S (j_scratch j) /\
                  (j_nRegisters j <= j_nRegisters j1)%nat /\ (j_scratch j1 <= j_nRegisters j1)%nat).
    { assert (Hjn : (j_nRegisters j <= jn /\ S (j_scratch j) <= jn)%nat).
      { unfold jn. destruct (Nat.ltb_spec (j_nRegisters j) (S (j_scratch j))); lia. }
      split; [by split |]. split; [done |]. split; [done |]. exact Hjn. }
    destruct Hj1 as (HS & Hie & Hsc1 & Hnr1 & Hnr2).
    replace (S (j_scratch j) - 1)%nat with (j_scratch j) in * by lia.
    destruct (IH (j_scratch j) j1) as (j2 & E2 & HL); rewrite ?(ss_nLocals _ _ HS); try lia; try done.
    exists j2. split; [exact E2 |].
    apply loaded_need with (need := True); [| by destruct l].
    apply (loaded_snoc l id d v d (j_scratch j) j j1 j2 [load_reg (j_scratch j) d; instr (length l) d (j_scratch j)]);
      try done; try lia; [unfold j1; cbn; by rewrite Nat.sub_0_r, <- app_assoc |].
    intros IP CP regs Hw Hlen. rewrite Hsc1 in *.
    eexists. cbn [exec exec_instr exec_load exec_tup exec_tagval]. unfold GETREG. cbn [m_regs]. rewrite Hw. cbn [mbind option_bind]. unfold next.
    rewrite SETREG_ok by (cbn; lia). cbn [mbind option_bind m_regs m_store].
    erewrite Hinstr; [| apply list_lookup_insert_eq; lia | rewrite length_insert; lia | exact Hv].
    cbn [mbind option_bind]. split; [done |]. rewrite !length_insert. split; [done |].
    rewrite list_lookup_insert_eq by (rewrite length_insert; lia). split; [done |]. split.
    + intros _. rewrite list_lookup_insert_ne, list_lookup_insert_eq by lia. done.
    + intros r Hr Hrd. rewrite !list_lookup_insert_ne by lia. done.
  - unfold jret, SET_INSTR. cbn [mbind option_bind fst snd]. set (j1 := with_code _ _).
    assert (HS : same_static j j1) by (by split).
    destruct (IH src j1) as (j2 & E2 & HL); try done.
    exists j2. split; [exact E2 |].
    apply loaded_need with (need := True); [| by destruct l].
    apply (loaded_snoc l id d v src src j j1 j2 [instr (length l) d src]); try done; [lia |].
    intros IP CP regs Hw Hlen. exists (<[d := v]> regs). cbn [exec].
    assert (Hd' : (d < length regs)%nat) by (cbn in Hlen; lia).
    rewrite (Hinstr _ _ _ _ _ v) by done. cbn [mbind option_bind]. split; [done |]. rewrite length_insert. split; [done |].
    rewrite list_lookup_insert_eq by done. split; [done |]. split.
    + intros Hne. rewrite list_lookup_insert_ne; [done |]. intros ->. destruct l as [| g l]; [done |].
      cbn in Echeck. by rewrite bool_decide_true in Echeck.
    + intros r Hr Hrd. by rewrite list_lookup_insert_ne.
Qed.

End Family.

(** ** One instruction for all components *)

Lemma foldl_set (ds : list nat) : forall (vs regs : list word), NoDup ds -> Forall (fun d => d < length regs)%nat ds ->
  length ds = length vs ->
  let regs' := foldl (fun r dv => <[dv.1 := dv.2]> r) regs (zip ds vs) in
  length regs' = length regs /\ (forall k d v, ds !! k = Some d -> vs !! k = Some v -> regs' !! d = Some v) /\
  (forall r, r ∉ ds -> regs' !! r = regs !! r).
Proof.
  induction ds as [| d ds IH]; intros [| v vs] regs HN HF Hlen; cbn in Hlen; try done; cbn [zip_with foldl fst snd].
  apply NoDup_cons in HN as [Hd HN]. apply Forall_cons in HF as [Hlt HF].
  destruct (IH vs (<[d := v]> regs) HN) as (H1 & H2 & H3); [by rewrite length_insert | lia |].
  rewrite length_insert in H1. split; [done |]. split.
  - intros [| k] d' v'; cbn; [| by apply H2]. intros [= ->] [= ->]. rewrite H3 by done. by apply list_lookup_insert_eq.
  - intros r Hr. rewrite H3 by set_solver. apply list_lookup_insert_ne. set_solver.
Qed.

Lemma loaded_instr mem w comp src l j i (ds : list nat) (vs : list word) :
  (j_scratch j <= j_nRegisters j)%nat -> map (destination j) l = map Some ds -> NoDup ds ->
  Forall (fun d => d < j_nRegisters j)%nat ds -> length ds = length vs ->
  (forall k v, vs !! k = Some v -> comp k = Some v) ->
  (forall IP CP regs, regs !! src = Some w -> (j_nRegisters j <= length regs)%nat ->
     exec_instr wundef IP CP (Machine regs mem) i =
     Some (Next (Machine (foldl (fun r dv => <[dv.1 := dv.2]> r) regs (zip ds vs)) mem))) ->
  loaded True mem w comp src l j (with_code (j_code j ++ [i]) j).
Proof.
  intros Hsc Hds HN HF Hlen Hvs Hx. split; [by split | done | done | done |].
  exists [i]. split; [done |]. intros IP CP regs Hw Hregs. specialize (Hw I). cbn [j_nRegisters with_code] in Hregs.
  eexists. cbn [exec]. rewrite (Hx _ _ _ Hw Hregs). cbn [mbind option_bind]. split; [done |].
  assert (HF' : Forall (fun d => d < length regs)%nat ds) by (eapply Forall_impl; [exact HF |]; cbn; lia).
  clear Hx Hw Hregs HF. destruct (foldl_set ds vs regs HN HF' Hlen) as (H1 & H2 & H3).
  split; [done |]. split.
  - intros k id d Hk Hd. assert (Hdk : map (destination j) l !! k = Some (Some d)).
    { rewrite list_lookup_fmap, Hk. cbn. by rewrite Hd. }
    rewrite Hds, list_lookup_fmap in Hdk. destruct (ds !! k) as [d' |] eqn:Ek; [| done]. injection Hdk as ->.
    destruct (lookup_lt_is_Some_2 vs k) as [v Hv]; [apply lookup_lt_Some in Ek; lia |].
    rewrite (Hvs _ _ Hv). by apply (H2 k).
  - intros r Hr Hnin. apply H3. intros Hin. apply Hnin. unfold destinations.
    apply list_elem_of_omap. apply list_elem_of_lookup in Hin as [k Hk].
    assert (Hdk : map (destination j) l !! k = Some (Some r)) by (by rewrite Hds, list_lookup_fmap, Hk).
    rewrite list_lookup_fmap in Hdk. destruct (l !! k) as [f |] eqn:Ef; [| done]. injection Hdk as Hdk.
    exists f. split; [by eapply list_elem_of_lookup_2 | done].
Qed.

(** ** LoadTuple and LoadTagVal *)

Lemma holder_tuple mem w a : holder None mem w = Some a -> Tuple_FromWord mem w = Some (Some a).
Proof. unfold holder. by destruct (Tuple_FromWord mem w) as [[]|]; cbn; [intros [= ->] | |]. Qed.

Lemma select_tup_ok mem w a IP CP i r0 r1 v regs : holder None mem w = Some a ->
  regs !! r1 = Some w -> (r0 < length regs)%nat -> component_of None mem a i = Some v ->
  exec_instr wundef IP CP (Machine regs mem) (select_tup_instr i r0 r1) = Some (Next (Machine (<[r0 := v]> regs) mem)).
Proof.
  intros Ha Hw Hr Hv. apply holder_tuple in Ha. unfold component_of in Hv.
  assert (Hreq : request_tuple (Machine regs mem) r1 (fun t => w ← Tuple_Sel (Machine regs mem) t i; SETREG (Machine regs mem) r0 w)
                 = Some (Next (Machine (<[r0 := v]> regs) mem))).
  { unfold request_tuple, GETREG, Tuple_Sel. cbn [m_regs m_store]. rewrite Hw. cbn [mbind option_bind]. rewrite Ha.
    cbn [mbind option_bind]. rewrite Hv. cbn [mbind option_bind]. by rewrite SETREG_ok. }
  destruct i as [| [| [| i]]]; exact Hreq.
Qed.

Lemma load_tagval_ok isBig mem w a IP CP i r0 r1 v regs : holder (Some isBig) mem w = Some a ->
  regs !! r1 = Some w -> (r0 < length regs)%nat -> component_of (Some isBig) mem a i = Some v ->
  exec_instr wundef IP CP (Machine regs mem) (load_tagval isBig r0 r1 i) = Some (Next (Machine (<[r0 := v]> regs) mem)).
Proof.
  intros Ha Hw Hr Hv. cbn. unfold tagval_of, GETREG, TagVal_Sel, next. cbn [m_regs m_store]. rewrite Hw. cbn [mbind option_bind].
  unfold holder, component_of in *. destruct isBig; rewrite Ha; cbn [mbind option_bind]; rewrite Hv; cbn [mbind option_bind];
    by rewrite SETREG_ok.
Qed.

Lemma tuple_not_transient (mem : store C) w a : Tuple_FromWord mem w = Some (Some a) -> WordToTransient mem w = Some None.
Proof.
  unfold Tuple_FromWord, from_word, WordToBlock, WordToTransient. destruct (deref mem w) as [[i | b]|]; cbn; [done | | done].
  destruct (st_get mem b) as [[]|]; cbn; done.
Qed.

Lemma all_wildcards l id : AllIdDefsWildcards l = true -> IdDef id ∉ l.
Proof.
  unfold AllIdDefsWildcards. intros Hl Hin. rewrite forallb_forall in Hl. apply list_elem_of_In, Hl in Hin. done.
Qed.

Lemma components_exist (comp : nat -> option word) n : (forall i, (i < n)%nat -> is_Some (comp i)) ->
  exists vs, length vs = n /\ forall i v, vs !! i = Some v -> comp i = Some v.
Proof.
  induction n as [| n IH]; intros Hc; [by exists [] |].
  destruct IH as (vs & Hlen & Hvs); [intros i Hi; apply Hc; lia |]. destruct (Hc n) as [v Hv]; [lia |].
  exists (vs ++ [v]). rewrite length_app, Hlen. split; [cbn; lia |].
  intros i v' [Hi | [Hi Hv']]%lookup_app_Some; [by apply Hvs |].
  apply list_lookup_singleton_Some in Hv' as [Hi' <-]. by assert (i = n) as -> by lia.
Qed.

(** The instruction that loads all components. *)
Definition at_once (k : option bool) (ds : list nat) (src : nat) : option bc_instr :=
  match k, ds with
  | Some isBig, [d1] => Some (load_tagval1 isBig d1 src)
  | Some isBig, [d1; d2] => Some (load_tagval2 isBig d1 d2 src)
  | Some isBig, [d1; d2; d3] => Some (load_tagval3 isBig d1 d2 d3 src)
  | None, [d1; d2] => Some (get_tup2 d1 d2 src)
  | None, [d1; d2; d3] => Some (get_tup3 d1 d2 d3 src)
  | _, _ => None
  end.

Lemma at_once_ok k mem w a ds vs src i IP CP regs : at_once k ds src = Some i -> holder k mem w = Some a ->
  length vs = length ds -> (forall n v, vs !! n = Some v -> component_of k mem a n = Some v) ->
  regs !! src = Some w -> Forall (fun d => d < length regs)%nat ds ->
  exec_instr wundef IP CP (Machine regs mem) i =
  Some (Next (Machine (foldl (fun r dv => <[dv.1 := dv.2]> r) regs (zip ds vs)) mem)).
Proof.
  intros Hi Ha Hlen Hv Hw HF. rewrite Forall_forall in HF.
  pose proof (Hv 0%nat) as H0. pose proof (Hv 1%nat) as H1. pose proof (Hv 2%nat) as H2. clear Hv. unfold component_of in *.
  assert (Ht : match k with Some isBig => mjoin (if isBig then BigTagVal_FromWord mem w else TagVal_FromWord mem w) = Some a
               | None => Tuple_FromWord mem w = Some (Some a) end).
  { destruct k as [[] |]; [exact Ha | exact Ha | by apply holder_tuple]. }
  destruct k as [isBig |], ds as [| d1 [| d2 [| d3 [|]]]]; try done; injection Hi as <-;
    destruct vs as [| v1 [| v2 [| v3 [|]]]]; try done; clear Hlen; cbv beta iota in H0, H1, H2;
    cbn [exec_instr exec_tup exec_tagval zip_with foldl fst snd]; unfold tagval_of, request_tuple, next, GETREG, TagVal_Sel, Tuple_Sel;
    cbn [m_regs m_store]; rewrite Hw; cbn [mbind option_bind]; rewrite Ht; cbn [mbind option_bind].
  all: repeat first
    [ rewrite (H0 _ eq_refl) | rewrite (H1 _ eq_refl) | rewrite (H2 _ eq_refl) | progress cbn [mbind option_bind m_regs m_store]
    | rewrite SETREG_ok by (cbn [m_regs]; rewrite ?length_insert; apply HF; set_solver) ].
  all: done.
Qed.

Section Load.
Context (j : jitter) (src : nat) (mem : store C) (w : word) (a : Z).
Context (Hlocals : (j_nLocals j <= j_scratch j)%nat) (Hsrc : (src < j_scratch j)%nat) (Hregs : (j_scratch j <= j_nRegisters j)%nat).

Lemma load_wildcards l : AllIdDefsWildcards l = true -> Tuple_FromWord mem w = Some (Some a) -> forall comp,
  loaded True mem w comp src l j (with_code (j_code j ++ [await src]) j).
Proof.
  intros Hall Ha comp. split; [by split | done | done | done |]. exists [await src]. split; [done |].
  intros IP CP regs Hw Hlen. exists regs. cbn [exec exec_instr exec_load exec_tup exec_tagval]. unfold GETREG. cbn [m_regs m_store]. rewrite (Hw I).
  cbn [mbind option_bind]. rewrite (tuple_not_transient _ _ _ Ha). cbn [mbind option_bind].
  split_and!; [done | done | | done]. intros i id d Hi%list_elem_of_lookup_2. by apply all_wildcards in Hi.
Qed.

(** The registers of two or three variables. *)
Lemma idDefs_registers ids : (forall id, IdDef id ∈ map IdDef ids -> exists d, id_to_reg j id = Some d /\ (d < j_nLocals j)%nat) ->
  NoDup (destinations j (map IdDef ids)) ->
  exists ds, map (id_to_reg j) ids = map Some ds /\ NoDup ds /\ Forall (fun d => d < j_nRegisters j)%nat ds.
Proof.
  induction ids as [| id ids IH]; intros Hl HN.
  - exists []. split_and!; [done | constructor | constructor].
  - destruct (Hl id) as (d & Hd & Hlt); [by left |]. unfold destinations in HN. cbn in HN. rewrite Hd in HN.
    apply NoDup_cons in HN as [Hfresh HN]. destruct IH as (ds & Hds & HNd & HF); [intros id' Hid'; apply Hl; by right | done |].
    exists (d :: ds). cbn. rewrite Hd, Hds. split_and!; [done | | constructor; [lia | done]].
    constructor; [| done]. intros Hin. apply Hfresh. apply list_elem_of_omap.
    assert (Hsd : Some d ∈ map (id_to_reg j) ids) by (rewrite Hds; by apply list_elem_of_fmap_2).
    apply list_elem_of_fmap in Hsd as (id' & Hid' & Hin'). exists (IdDef id'). split; [by apply list_elem_of_fmap_2 | done].
Qed.

Section Cases.
Context (k : option bool) (l : list idDef).
Context (Hl : forall id, IdDef id ∈ l -> exists d, id_to_reg j id = Some d /\ (d < j_nLocals j)%nat).
Context (HN : NoDup (destinations j l)).
Context (Ha : holder k mem w = Some a).
Context (Hcomp : forall i, (i < length l)%nat -> is_Some (component_of k mem a i)).

(** One by one. *)
Lemma load_default : exists j',
  select_all (match k with None => select_tup_instr | Some isBig => fun index r0 r1 => load_tagval isBig r0 r1 index end)
    (rev l) src j = Some (tt, j') /\
  loaded True mem w (component_of k mem a) src l j j'.
Proof.
  destruct (select_all_ok mem w (component_of k mem a)
    (match k with None => select_tup_instr | Some isBig => fun index r0 r1 => load_tagval isBig r0 r1 index end)) with
    (l := l) (src := src) (j := j) as (j' & E & HL); try done.
  { intros IP CP i r0 r1 v regs Hw Hr Hv. destruct k as [isBig |]; [by eapply load_tagval_ok | by eapply select_tup_ok]. }
  exists j'. split; [done |]. by eapply loaded_need.
Qed.

Lemma load_at_once ids : l = map IdDef ids -> exists ds, map (id_to_reg j) ids = map Some ds /\
  forall i, at_once k ds src = Some i ->
    loaded True mem w (component_of k mem a) src l j (with_code (j_code j ++ [i]) j).
Proof.
  intros El. destruct (idDefs_registers ids) as (ds & Hds & HNd & HF); [by rewrite <- El | by rewrite <- El |].
  exists ds. split; [done |]. intros i Hi.
  assert (Hlen : length ds = length l).
  { apply (f_equal length) in Hds. rewrite !length_map in Hds. by rewrite El, length_map. }
  destruct (components_exist (component_of k mem a) (length l) Hcomp) as (vs & Hvs & Hcv).
  apply (loaded_instr mem w _ src l j i ds vs); try done.
  - rewrite El, map_map. exact Hds.
  - lia.
  - intros IP CP regs Hw Hlen'. eapply at_once_ok; try done; [lia |]. eapply Forall_impl; [exact HF |]. cbn. lia.
Qed.

End Cases.

(** The registers of the variables, where the compiler reads them. *)
Ltac jit_regs :=
  repeat match goal with E : id_to_reg ?j ?id = Some _ |- context [id_to_reg ?j ?id] =>
    rewrite E; cbn [mbind option_bind fst snd] end.

Lemma load_components_ok k l :
  (forall id, IdDef id ∈ l -> exists d, id_to_reg j id = Some d /\ (d < j_nLocals j)%nat) ->
  NoDup (destinations j l) -> holder k mem w = Some a ->
  (forall i, (i < length l)%nat -> is_Some (component_of k mem a i)) ->
  exists j', load_components k src l j = Some (tt, j') /\ loaded True mem w (component_of k mem a) src l j j'.
Proof.
  intros Hl HN Ha Hcomp. pose proof (load_default k l Hl HN Ha Hcomp) as Hdefault.
  pose proof (load_at_once k l Hl HN Ha Hcomp) as Honce. destruct k as [isBig |]; cbn [load_components].
  - destruct l as [| [id1 |] [| [id2 |] [| [id3 |] [|]]]]; try exact Hdefault.
    + destruct (Honce [id1]) as ([| d1 [|]] & Hds & HL); try done. injection Hds as H1.
      unfold LoadTagVal, jbind, IdToReg. jit_regs. eexists. split; [reflexivity | by apply HL].
    + destruct (Honce [id1; id2]) as ([| d1 [| d2 [|]]] & Hds & HL); try done. injection Hds as H1 H2.
      unfold LoadTagVal, jbind, IdToReg. jit_regs. eexists. split; [reflexivity | by apply HL].
    + destruct (Honce [id1; id2; id3]) as ([| d1 [| d2 [| d3 [|]]]] & Hds & HL); try done. injection Hds as H1 H2 H3.
      unfold LoadTagVal, jbind, IdToReg. jit_regs. eexists. split; [reflexivity | by apply HL].
  - unfold LoadTuple. destruct (AllIdDefsWildcards l) eqn:Hall.
    + eexists. split; [done |]. apply load_wildcards; [done | by apply holder_tuple].
    + destruct l as [| [id1 |] [| [id2 |] [| [id3 |] [|]]]]; try exact Hdefault.
      * destruct (Honce [id1; id2]) as ([| d1 [| d2 [|]]] & Hds & HL); try done. injection Hds as H1 H2.
      unfold LoadTagVal, jbind, IdToReg. jit_regs. eexists. split; [reflexivity | by apply HL].
      * destruct (Honce [id1; id2; id3]) as ([| d1 [| d2 [| d3 [|]]]] & Hds & HL); try done. injection Hds as H1 H2 H3.
      unfold LoadTagVal, jbind, IdToReg. jit_regs. eexists. split; [reflexivity | by apply HL].
Qed.

End Load.

(** C11. The components of a block are selected at the same time.  For a pattern
    whose variables have registers of their own, and every way the components
    are selected - all at once, one by one from the last to the first, for
    tuples and tagged values, big or not - [LoadTuple] or [LoadTagVal]
    succeeds, and the code it emits sets the register of every variable to its
    component of the block that is in [src] before the code, also when [src]
    is one of these registers; no other register that is in use changes. *)
Theorem components_load_simultaneously (k : option bool) (src : nat) (idDefs : list idDef) (j : jitter) (mem : store C) (w : word) (a : Z) :
  (forall id, IdDef id ∈ idDefs -> exists d, id_to_reg j id = Some d /\ (d < j_nLocals j)%nat) ->
  NoDup (destinations j idDefs) ->
  (j_nLocals j <= j_scratch j)%nat -> (src < j_scratch j)%nat -> (j_scratch j <= j_nRegisters j)%nat ->
  holder k mem w = Some a -> (forall i, (i < length idDefs)%nat -> is_Some (component_of k mem a i)) ->
  exists j' code, load_components k src idDefs j = Some (tt, j') /\ j_code j' = j_code j ++ code /\
    (j_nRegisters j <= j_nRegisters j')%nat /\
    forall IP CP regs, regs !! src = Some w -> (j_nRegisters j' <= length regs)%nat ->
      exists regs', exec wundef IP CP (Machine regs mem) code = Some (Next (Machine regs' mem)) /\
        length regs' = length regs /\
        (forall i id d, idDefs !! i = Some (IdDef id) -> id_to_reg j id = Some d -> regs' !! d = component_of k mem a i) /\
        (forall r, (r < j_scratch j)%nat -> r ∉ destinations j idDefs -> regs' !! r = regs !! r).
Proof.
  intros Hl HN Hn Hsrc Hr Ha Hcomp.
  destruct (load_components_ok j src mem w a Hn Hsrc Hr k idDefs Hl HN Ha Hcomp) as (j' & E & [_ _ _ [HR _] (code & Hcode & Hx)]).
  exists j', code. split_and!; [done | done | done |]. intros IP CP regs Hw. by apply Hx.
Qed.

End Select.

(** ** A tuple whose register is overwritten *)

#[local] Existing Instance P64.

(** The tuple is in the register 1, which the variable 1 gets. *)
Definition tuple_store : store unit :=
  mkStore 2 (<[1 := NBlock TUPLE_LABEL false [WInt 7; WInt 8; WInt 9; WInt 10]]> ∅).
Definition tuple_jitter : jitter := mkJitter [Some 0; Some 1; Some 2]%nat 3 0 [] imEnv_Init 3 3 false [].
Definition tuple_regs : list word := [WInt 0; WPtr 1; WInt 0; WInt 0].
Definition tuple_pattern : list idDef := [IdDef 0; Wildcard; IdDef 1; IdDef 2].

Example components_load_simultaneously_witness :
  exists j' code regs', LoadTuple 1 tuple_pattern tuple_jitter = Some (tt, j') /\ j_code j' = code /\
    exec (WInt 0) [] [] (Machine tuple_regs tuple_store) code = Some (Next (Machine regs' tuple_store)) /\
    regs' !! 0%nat = Some (WInt 7) /\ regs' !! 1%nat = Some (WInt 9) /\ regs' !! 2%nat = Some (WInt 10).
Proof.
  destruct (components_load_simultaneously (WInt 0) None 1 tuple_pattern tuple_jitter tuple_store (WPtr 1) 1)
    as (j' & code & E & Hcode & _ & Hx).
  - unfold tuple_pattern. intros id Hid. rewrite !elem_of_cons in Hid.
    destruct Hid as [ [= ->] | [ [=] | [ [= ->] | [ [= ->] | [] %elem_of_nil ]]]]; eexists; (split; [reflexivity | cbn; lia]).
  - apply (bool_decide_unpack _). vm_compute. exact I.
  - cbn; lia.
  - cbn; lia.
  - cbn; lia.
  - vm_compute. reflexivity.
  - intros [| [| [| [| i]]]] Hi; [eexists; vm_compute; reflexivity .. | cbn in Hi; lia].
  - cbn [load_components] in E. assert (Hj : j_nRegisters j' = 4%nat) by (vm_compute in E; injection E as <-; reflexivity).
    destruct (Hx [] [] tuple_regs) as (regs' & Er & _ & Hv & _); [reflexivity | rewrite Hj; cbn; lia |].
    exists j', code, regs'. split; [exact E |]. split; [exact Hcode |]. split; [exact Er |].
    rewrite (Hv 0%nat 0 0%nat eq_refl eq_refl), (Hv 2%nat 1 1%nat eq_refl eq_refl), (Hv 3%nat 2 2%nat eq_refl eq_refl).
    vm_compute. auto.
Defined.
