(* ===== verification/ByteCodeTuple.v ===== *)
(** * Byte code: the construction of tuples

    [NewTupInto] makes a tuple of its operands, wherever they are: in
    registers, the closure, the immediate environment or the code itself, and
    also when the destination is the register of an operand.  Operands are
    loaded into scratch registers, which must be disjoint as long as they are
    needed, or one scratch register is used again for each. *)

From S2P Require Import Prelude Config HeaderOp AliceData AbstractCode ByteCodeJitter InlineCCC InlineCCCGraph InlineCCCExec ByteCodeSelect.

#[local] Open Scope Z_scope.
#[local] Open Scope jit_scope.

Section Tuple.
Context `{Platform} {C : Type} (st : store C) (wundef : word) (CP : list word).

(** ** Emitting code *)

Definition ready (j : jitter) : Prop :=
  env_ok (j_imEnv j) /\ (j_nLocals j <= j_scratch j)%nat /\ (j_scratch j <= j_nRegisters j)%nat.

Definition code_between (j j' : jitter) : list bc_instr := drop (length (j_code j)) (j_code j').

Record extends (j j' : jitter) : Prop := {
  ex_static : same_static j j';
  ex_env : env_ok (j_imEnv j');
  ex_ext : env_ext (j_imEnv j) (j_imEnv j');
  ex_scratch : (j_scratch j <= j_scratch j')%nat;
  ex_registers : (j_nRegisters j <= j_nRegisters j')%nat;
  ex_bound : (j_scratch j' <= j_nRegisters j')%nat;
  ex_code : j_code j' = j_code j ++ code_between j j' }.

(** The frame has the immediate environment and the registers of [j]. *)
Definition frame_ok (IP : list (option word)) (j : jitter) (regs : list word) : Prop :=
  IP_ok IP (j_imEnv j) /\ (j_nRegisters j <= length regs)%nat.

Definition run (IP : list (option word)) (j j' : jitter) (m m' : machine C) : Prop :=
  exec wundef IP CP m (code_between j j') = Some (Next m').

Lemma extends_ready j j' : ready j -> extends j j' -> ready j'.
Proof. intros (_ & Hl & _) HX. split; [apply HX |]. rewrite (ss_nLocals _ _ (ex_static _ _ HX)). destruct HX. lia. Qed.

Lemma extends_refl j : ready j -> extends j j.
Proof.
  intros (HE & _ & Hb). split; [by apply same_static_refl | done | by intros k | done | done | done |].
  unfold code_between. by rewrite drop_ge, app_nil_r by lia.
Qed.

Lemma run_refl IP j m : run IP j j m m.
Proof. unfold run, code_between. by rewrite drop_ge by lia. Qed.

Lemma between_trans j1 j2 j3 : extends j1 j2 -> extends j2 j3 ->
  code_between j1 j3 = code_between j1 j2 ++ code_between j2 j3.
Proof.
  intros H1 H2. unfold code_between at 1. rewrite (ex_code _ _ H2), (ex_code _ _ H1), <- app_assoc.
  by rewrite drop_app_length.
Qed.

Lemma extends_trans j1 j2 j3 : extends j1 j2 -> extends j2 j3 -> extends j1 j3.
Proof.
  intros H1 H2. pose proof (between_trans _ _ _ H1 H2) as Hb. destruct H1, H2. split; [by eapply same_static_trans | done | by eapply env_ext_trans | lia | lia | done |].
  by rewrite Hb, app_assoc, <- ex_code0.
Qed.

Lemma run_trans IP j1 j2 j3 m1 m2 m3 : extends j1 j2 -> extends j2 j3 ->
  run IP j1 j2 m1 m2 -> run IP j2 j3 m2 m3 -> run IP j1 j3 m1 m3.
Proof. intros H1 H2 R1 R2. unfold run. rewrite (between_trans _ j2) by done. by rewrite (exec_app _ _ _ _ _ _ _ R1). Qed.

Lemma frame_before IP j j' regs : extends j j' -> frame_ok IP j' regs -> frame_ok IP j regs.
Proof. intros [] [HI Hr]. split; [intros k w Hk; by apply HI, ex_ext0 | lia]. Qed.

Lemma frame_length IP j (regs regs' : list word) : length regs' = length regs -> frame_ok IP j regs -> frame_ok IP j regs'.
Proof. intros Hl [HI Hr]. split; [done | lia]. Qed.

(** One instruction. *)
Definition emit (i : bc_instr) (j : jitter) : jitter := with_code (j_code j ++ [i]) j.

Lemma between_emit i j : code_between j (emit i j) = [i].
Proof. unfold code_between, emit. cbn. by rewrite drop_app_length. Qed.

Lemma extends_emit i j : ready j -> extends j (emit i j).
Proof. intros (HE & _ & Hb). split; [by split | done | by intros k | done | done | done | by rewrite between_emit]. Qed.

Lemma run_emit IP i j m m' : exec_instr wundef IP CP m i = Some (Next m') -> run IP j (emit i j) m m'.
Proof. intros E. unfold run. rewrite between_emit. cbn [exec]. by rewrite E. Qed.

Lemma next_SETREG (m : machine C) r w : (r < length (m_regs m))%nat ->
  next (SETREG m r w) = Some (Next (Machine (<[r := w]> (m_regs m)) (m_store m))).
Proof. intros Hr. unfold next. by rewrite SETREG_ok. Qed.

(** ** Scratch registers and operands *)

Lemma GetNewScratch_ok useReusable j : ready j -> (useReusable = true -> j_reusable j = true -> (0 < j_scratch j)%nat) ->
  exists r j', GetNewScratch useReusable j = Some (r, j') /\ extends j j' /\ code_between j j' = [] /\
    j_scratch j' = S r /\ (j_reusable j' = true -> useReusable = true) /\
    (r = j_scratch j \/ useReusable = true /\ j_reusable j = true /\ j_scratch j' = j_scratch j).
Proof.
  intros (HE & Hl & Hb) Hpos. unfold GetNewScratch.
  assert (Hgen : forall s b, (j_scratch j <= s)%nat ->
    let n := if (j_nRegisters j <? s)%nat then s else j_nRegisters j in
    extends j (with_scratch s n b j) /\ code_between j (with_scratch s n b j) = []).
  { intros s b Hs. cbn zeta. assert (Hc : code_between j (with_scratch s (if (j_nRegisters j <? s)%nat then s else j_nRegisters j) b j) = []).
    { unfold code_between. cbn. by rewrite drop_ge by lia. }
    split; [| done]. split; [by split | done | by intros k | done | | | by rewrite Hc, app_nil_r];
      cbn [j_nRegisters j_scratch with_scratch]; destruct (Nat.ltb_spec (j_nRegisters j) s); lia. }
  destruct useReusable; [destruct (j_reusable j) eqn:Er |].
  - destruct (Hgen (j_scratch j) true) as [HX Hc]; [lia |]. do 2 eexists. split; [done |]. specialize (Hpos eq_refl eq_refl).
    cbn. split_and!; [done | done | lia | done | auto].
  - destruct (Hgen (S (j_scratch j)) true) as [HX Hc]; [lia |]. do 2 eexists. split; [done |].
    cbn. split_and!; [done | done | lia | done | left; lia].
  - destruct (Hgen (S (j_scratch j)) false) as [HX Hc]; [lia |]. do 2 eexists. split; [done |].
    cbn. split_and!; [done | done | lia | done | left; lia].
Qed.

(** After the code, [r] holds the value of [x]; the registers below [b] are
    as before. *)
Record operand (b : nat) (j j' : jitter) (x : idRef) (r : nat) : Prop := {
  op_extends : extends j j';
  op_reg : (r < j_scratch j')%nat;
  op_run : forall IP regs (mem : store C) v, frame_ok IP j' regs -> value CP j regs x = Some v ->
    exists regs', run IP j j' (Machine regs mem) (Machine regs' mem) /\ length regs' = length regs /\
      regs' !! r = Some v /\ forall q, (q < b)%nat -> regs' !! q = regs !! q }.

(** A value that one instruction loads into a scratch register. *)
Lemma scratch_operand b j x useReusable w (load : nat -> J unit) :
  ready j -> (b <= j_scratch j)%nat -> (useReusable = true -> j_reusable j = true -> (b < j_scratch j)%nat) ->
  (forall regs, value CP j regs x = Some w) ->
  (forall r j1, ready j1 -> exists j2, load r j1 = Some (tt, j2) /\ extends j1 j2 /\ j_scratch j2 = j_scratch j1 /\ j_reusable j2 = j_reusable j1 /\
     forall IP regs (mem : store C), frame_ok IP j2 regs -> (r < length regs)%nat -> run IP j1 j2 (Machine regs mem) (Machine (<[r := w]> regs) mem)) ->
  exists r j', (s <- GetNewScratch useReusable;; load s;; jret s) j = Some (r, j') /\ operand b j j' x r /\
    (useReusable = false \/ j_reusable j' = true -> (b < j_scratch j')%nat).
Proof.
  intros HR Hb Hre Hv Hload. destruct (GetNewScratch_ok useReusable j HR) as (r & j1 & E1 & X1 & C1 & Hs & Hr1 & Hcase).
  { intros E E'. specialize (Hre E E'). lia. }
  destruct (Hload r j1) as (j2 & E2 & X2 & Hs2 & Hr2 & Hrun); [by eapply extends_ready |].
  exists r, j2. unfold jbind. rewrite E1. cbn [mbind option_bind fst snd]. rewrite E2. cbn [mbind option_bind fst snd].
  assert (Hbr : (b <= r)%nat) by (destruct Hcase as [-> | (E & E' & Eq)]; [done | specialize (Hre E E'); lia]).
  split; [done |]. split; [| lia].
  split; [by eapply extends_trans | lia |]. intros IP regs mem v HF Hval. rewrite Hv in Hval. injection Hval as <-.
  assert (Hlen : (r < length regs)%nat) by (destruct X1, X2, HF; lia).
  exists (<[r := w]> regs). split; [| split; [apply length_insert | split; [by apply list_lookup_insert_eq |]]].
  - eapply run_trans; [done | done | | by apply Hrun]. unfold run. by rewrite C1.
  - intros q Hq. apply list_lookup_insert_ne. lia.
Qed.

Lemma load_immediate_ok w r j : ready j -> imm_ok w -> exists j', LoadImmediateInto st r w j = Some (tt, j') /\
  extends j j' /\ j_scratch j' = j_scratch j /\ j_reusable j' = j_reusable j /\
  forall IP regs (mem : store C), frame_ok IP j' regs -> (r < length regs)%nat -> run IP j j' (Machine regs mem) (Machine (<[r := w]> regs) mem).
Proof.
  intros HR Hw. destruct w as [i | a]; cbn [LoadImmediateInto].
  - case_match eqn:E; (eexists; split; [done |]; split; [by apply extends_emit |]; split; [done |]; split; [done |]);
      intros IP regs mem _ Hr; apply run_emit; cbn; rewrite next_SETREG by done; cbn; [apply Z.eqb_eq in E; by subst i | by cbn in Hw; rewrite Hw].
  - unfold jbind, imEnv_Register. destruct (Register_ok st (j_imEnv j) (WPtr a)) as (i & env & E & HE & Hext & Hi); [apply HR |].
    rewrite E. cbn [mbind option_bind fst snd]. set (j1 := with_imEnv env j).
    assert (HX1 : extends j j1 /\ code_between j j1 = []).
    { assert (Hc : code_between j j1 = []) by (unfold code_between; cbn; by rewrite drop_ge by lia).
      split; [| done]. split; [by split | done | done | done | done | apply HR | by rewrite Hc, app_nil_r]. }
    destruct HX1 as [HX1 Hc1]. assert (HR1 : ready j1) by (by eapply extends_ready).
    exists (emit (load_immediate r i) j1). split; [done |].
    pose proof (extends_emit (load_immediate r i) j1 HR1) as HX2.
    split; [by eapply extends_trans |]. split; [done |]. split; [done |]. intros IP regs mem HF Hr.
    eapply run_trans; [done | done | unfold run; by rewrite Hc1 |]. apply run_emit. cbn.
    destruct HF as [HIP _]. rewrite (HIP i (WPtr a)) by exact Hi. cbn. by rewrite next_SETREG.
Qed.

Lemma LoadIdRefKill_ok b j x useReusable : ready j -> arg_ok CP j x -> (b <= j_scratch j)%nat ->
  (useReusable = true -> j_reusable j = true -> (b < j_scratch j)%nat) ->
  exists r j', LoadIdRefKill st x useReusable j = Some (r, j') /\ operand b j j' x r /\
    (useReusable = true -> j_reusable j' = true -> (b < j_scratch j')%nat).
Proof.
  intros HR HA Hb Hre. unfold LoadIdRefKill. unfold jbind at 1. unfold LookupSubst.
  assert (Hloc : forall id s, id_to_reg j id = Some s -> (s < j_nLocals j)%nat -> is_local x = Some id ->
    exists r j', IdToReg id j = Some (r, j') /\ operand b j j' x r /\
      (useReusable = true -> j_reusable j' = true -> (b < j_scratch j')%nat)).
  { intros id s Hs Hlt Hx. unfold IdToReg. rewrite Hs. exists s, j. split; [done |]. split; [| done].
    split; [by apply extends_refl | destruct HR as (_ & Hl & _); lia |]. intros IP regs mem v _ Hv. exists regs.
    split; [apply run_refl |]. split; [done |]. split; [| done]. unfold value in Hv.
    destruct x; try done; injection Hx as ->; cbn in Hv; by rewrite Hs in Hv. }
  assert (Himm : forall w, imm_ok w -> (forall regs, value CP j regs x = Some w) ->
    exists r j', LoadImmediate st w useReusable j = Some (r, j') /\ operand b j j' x r /\
      (useReusable = true -> j_reusable j' = true -> (b < j_scratch j')%nat)).
  { intros w Hw Hv. destruct (scratch_operand b j x useReusable w (fun s => LoadImmediateInto st s w)) as (r & j' & E & HO & HL); try done.
    { intros r j1 HR1. by apply load_immediate_ok. }
    exists r, j'. split; [exact E |]. split; [done | auto]. }
  destruct x as [i | w | id | id]; cbn [lookup_subst mbind option_bind fst snd]; cbn in HA.
  - destruct (aget (j_globalSubst j) i) as [y |] eqn:Ey; [| done]. cbn [mbind option_bind fst snd].
    assert (Hsub : forall regs, value CP j regs (Global i) = value CP j regs (Global i)) by done.
    destruct y as [k | w | |]; try done.
    + destruct HA as [w Hw].
      destruct (scratch_operand b j (Global i) useReusable w (fun s => SET_INSTR (load_global s k))) as (r & j' & E & HO & HL); try done.
      { intros regs. unfold value. cbn. by rewrite Ey. }
      { intros r j1 HR1. exists (emit (load_global r k) j1). split; [done |]. split; [by apply extends_emit |]. split; [done |].
        split; [done |]. intros IP regs mem _ Hr. apply run_emit. cbn. rewrite Hw. cbn. by rewrite next_SETREG. }
      exists r, j'. split; [exact E |]. split; [done | auto].
    + apply Himm; [done |]. intros regs. unfold value. cbn. by rewrite Ey.
  - by apply Himm.
  - destruct HA as (s & Hs & Hlt). by eapply Hloc.
  - destruct HA as (s & Hs & Hlt). by eapply Hloc.
Qed.

Lemma value_frame j regs regs' x : arg_ok CP j x -> (forall q, (q < j_nLocals j)%nat -> regs' !! q = regs !! q) ->
  value CP j regs' x = value CP j regs x.
Proof.
  unfold arg_ok, value. intros HA Hsame. destruct x; cbn; try done.
  - destruct (aget (j_globalSubst j) i) as [[]|]; done.
  - destruct HA as (s & -> & Hs). cbn. by apply Hsame.
  - destruct HA as (s & -> & Hs). cbn. by apply Hsame.
Qed.

(** ** The elements of a tuple *)

(** [a] is a tuple with the first elements [vs] in [mem]. *)
Definition tuple_with (mem : store C) (a : Z) (vs : list word) : Prop :=
  exists args, st_get mem a = Some (NBlock TUPLE_LABEL false args) /\ forall i v, vs !! i = Some v -> args !! i = Some v.

Lemma tuple_components mem a vs : tuple_with mem a vs ->
  holder None mem (WPtr a) = Some a /\ forall i v, vs !! i = Some v -> component_of None mem a i = Some v.
Proof.
  intros (args & Ha & Hv). split.
  - unfold holder, Tuple_FromWord, from_word, WordToBlock, deref.
    destruct (size (st_nodes mem)); cbn; rewrite Ha; cbn; rewrite Ha; cbn; unfold GetLabel; rewrite Ha; cbn;
      unfold is_label; by rewrite Z.eqb_refl.
  - intros i v Hi. unfold component_of, GetArg, GetArgs. rewrite Ha. cbn. unfold aget. rewrite decide_True by lia.
    rewrite Nat2Z.id. by apply Hv.
Qed.

Lemma init_tup_ok IP regs (mem : store C) a args i v r0 r1 :
  regs !! r0 = Some (WPtr a) -> regs !! r1 = Some v -> st_get mem a = Some (NBlock TUPLE_LABEL false args) ->
  (i < length args)%nat ->
  exec_instr wundef IP CP (Machine regs mem) (init_tup r0 r1 i) =
  Some (Next (Machine regs (st_set mem a (NBlock TUPLE_LABEL false (<[i := v]> args))))).
Proof.
  intros H0 H1 Ha Hi. cbn. unfold GETREG, Tuple_FromWordDirect, from_word_direct. cbn [m_regs m_store]. rewrite H0, H1.
  cbn [mbind option_bind DirectWordToBlock]. rewrite Ha. cbn [mbind option_bind]. unfold GetLabel. rewrite Ha.
  cbn [mbind option_bind]. unfold is_label. rewrite Z.eqb_refl. cbn [mbind option_bind]. unfold ReplaceArg. rewrite Ha.
  cbn [mbind option_bind]. rewrite aset_Some by (unfold zlen; lia). cbn [mbind option_bind]. by rewrite Nat2Z.id.
Qed.

Lemma store_set_same (mem : store C) a n : st_get (st_set mem a n) a = Some n.
Proof. unfold st_get, st_set. cbn. by rewrite lookup_insert_eq. Qed.

Lemma store_set_other (mem : store C) a n b : b <> a -> st_get (st_set mem a n) b = st_get mem b.
Proof. intros Hb. unfold st_get, st_set. cbn. by rewrite lookup_insert_ne. Qed.

(** The elements [xs] of the tuple in [useDst], the last one first. *)
Lemma init_tups_ok b useDst xs : forall j, ready j -> Forall (arg_ok CP j) xs -> (b <= j_scratch j)%nat ->
  (j_nLocals j <= b)%nat -> (useDst < b)%nat -> (j_reusable j = true -> (b < j_scratch j)%nat) ->
  exists j', init_tups st useDst (rev xs) j = Some (tt, j') /\ extends j j' /\
    forall IP regs (mem : store C) a args vs, frame_ok IP j' regs -> regs !! useDst = Some (WPtr a) ->
      st_get mem a = Some (NBlock TUPLE_LABEL false args) -> (length xs <= length args)%nat ->
      map (value CP j regs) xs = map Some vs ->
      exists regs' mem' args', run IP j j' (Machine regs mem) (Machine regs' mem') /\ length regs' = length regs /\
        (forall q, (q < b)%nat -> regs' !! q = regs !! q) /\
        st_get mem' a = Some (NBlock TUPLE_LABEL false args') /\
        (forall i v, vs !! i = Some v -> args' !! i = Some v) /\
        (forall i, (length xs <= i)%nat -> args' !! i = args !! i) /\
        (forall a', a' <> a -> st_get mem' a' = st_get mem a').
Proof.
  induction xs as [| x xs IH] using rev_ind; intros j HR HA Hb Hl Hu Hre.
  - exists j. split; [done |]. split; [by apply extends_refl |]. intros IP regs mem a args vs _ Hw Ha _ Hvs.
    exists regs, mem, args. destruct vs; [| done]. split_and!; try done. apply run_refl.
  - apply Forall_app in HA as [HAs HAx]. apply Forall_inv in HAx as HAx'. clear HAx.
    rewrite rev_app_distr. cbn [rev app init_tups]. unfold jbind at 1.
    destruct (LoadIdRefKill_ok b j x true HR HAx' Hb) as (r & j1 & E1 & [X1 Hr Hrun1] & Hre1); [by intros _ |].
    rewrite E1. cbn [mbind option_bind fst snd]. unfold jbind. change (SET_INSTR (init_tup useDst r (length (rev xs))) j1) with
      (Some (tt, emit (init_tup useDst r (length (rev xs))) j1)). cbn [mbind option_bind fst snd]. rewrite length_rev.
    pose proof (extends_ready _ _ HR X1) as HR1. pose proof (extends_emit (init_tup useDst r (length xs)) j1 HR1) as X2.
    set (j2 := emit _ j1) in *. pose proof (extends_ready _ _ HR1 X2) as HR2.
    pose proof (extends_trans _ _ _ X1 X2) as X12.
    destruct (IH j2) as (j3 & E3 & X3 & Hrun3).
    { done. }
    { eapply Forall_impl; [exact HAs |]. intros y. apply arg_ok_static, X12. }
    { destruct X12; lia. }
    { rewrite (ss_nLocals _ _ (ex_static _ _ X12)). done. }
    { done. }
    { intros Hj. apply (Hre1 eq_refl Hj). }
    exists j3. split; [exact E3 |]. split; [by eapply extends_trans |].
    intros IP regs mem a args vs HF Hw Ha Hlen Hvs. rewrite length_app in Hlen. cbn in Hlen.
    rewrite map_app in Hvs. cbn in Hvs. 
    destruct vs as [| v vs _] using rev_ind; [by apply (f_equal length) in Hvs; rewrite length_app in Hvs; cbn in Hvs; lia |].
    rewrite map_app in Hvs. cbn in Hvs. apply app_inj_tail in Hvs as [Hvs Hv].
    assert (Hlv : length vs = length xs) by (apply (f_equal length) in Hvs; by rewrite !length_map in Hvs).
    pose proof (frame_before _ _ _ _ X3 HF) as HF2. pose proof (frame_before _ _ _ _ X2 HF2) as HF1.
    destruct (Hrun1 IP regs mem v HF1 Hv) as (regs1 & R1 & L1 & Hrv & Hk1).
    set (mem2 := st_set mem a (NBlock TUPLE_LABEL false (<[length xs := v]> args))).
    destruct (Hrun3 IP regs1 mem2 a (<[length xs := v]> args) vs) as (regs3 & mem3 & args3 & R3 & L3 & Hk3 & Ha3 & Hlo & Hhi & Ho3).
    { by eapply frame_length. }
    { by rewrite Hk1. }
    { apply store_set_same. }
    { rewrite length_insert. lia. }
    { rewrite <- Hvs. apply map_ext_in. intros y Hy. rewrite Forall_forall in HAs. apply list_elem_of_In in Hy.
      rewrite (value_static _ _ _ _ _ (ex_static _ _ X12)). apply value_frame; [by apply HAs |]. intros q Hq. apply Hk1. lia. }
    exists regs3, mem3, args3. split.
    { eapply run_trans; [exact X12 | exact X3 | | exact R3]. eapply run_trans; [exact X1 | exact X2 | exact R1 |].
      apply run_emit, init_tup_ok; [by rewrite Hk1 | done | done | lia]. }
    split; [congruence |]. split; [intros q Hq; by rewrite Hk3, Hk1 |]. split; [done |]. split; [| split].
    + intros i w [Hi | [Hi Hw']]%lookup_app_Some; [by apply Hlo |].
      apply list_lookup_singleton_Some in Hw' as [Hi' <-]. assert (i = length xs) as -> by lia.
      rewrite Hhi by lia. apply list_lookup_insert_eq. lia.
    + intros i Hi. rewrite length_app in Hi. cbn in Hi. rewrite Hhi by lia. apply list_lookup_insert_ne. lia.
    + intros a' Hne. rewrite Ho3 by done. by apply store_set_other.
Qed.

(** Without a conflict, writing [dst] does not change the operands. *)
Lemma conflicts_ok j dst xs : Forall (arg_ok CP j) xs -> exists c, conflicts dst (rev xs) j = Some (c, j) /\
  (c = false -> forall x regs w, x ∈ xs -> value CP j (<[dst := w]> regs) x = value CP j regs x).
Proof.
  induction xs as [| x xs IH] using rev_ind; intros HA.
  { exists false. split; [done |]. intros _ x regs w Hx. by apply elem_of_nil in Hx. }
  apply Forall_app in HA as [HAs HAx]. apply Forall_inv in HAx. destruct (IH HAs) as (c & E & Hc).
  rewrite rev_app_distr. cbn [rev app conflicts]. unfold jbind at 1, LookupSubst.
  assert (Hloc : forall id s, is_local x = Some id -> id_to_reg j id = Some s -> exists c',
    (r <- IdToReg id;; if decide (r = dst) then jret true else conflicts dst (rev xs)) j = Some (c', j) /\
    (c' = false -> forall x' regs w, x' ∈ xs ++ [x] -> value CP j (<[dst := w]> regs) x' = value CP j regs x')).
  { intros id s Hx Hs. unfold jbind, IdToReg. rewrite Hs. cbn [mbind option_bind fst snd]. case_decide as Hd.
    - exists true. by split.
    - exists c. split; [done |]. intros Hf x' regs w [Hx' | Hx']%elem_of_app; [by apply Hc |].
      apply list_elem_of_singleton in Hx' as ->. unfold value. destruct x; try done; injection Hx as ->; cbn; rewrite Hs; cbn;
        by apply list_lookup_insert_ne. }
  assert (Hother : (forall regs regs', value CP j regs x = value CP j regs' x) -> exists c',
    conflicts dst (rev xs) j = Some (c', j) /\
    (c' = false -> forall x' regs w, x' ∈ xs ++ [x] -> value CP j (<[dst := w]> regs) x' = value CP j regs x')).
  { intros Hx. exists c. split; [done |]. intros Hf x' regs w [Hx' | Hx']%elem_of_app; [by apply Hc |].
    apply list_elem_of_singleton in Hx' as ->. apply Hx. }
  destruct x as [i | w | id | id]; cbn [lookup_subst mbind option_bind fst snd]; cbn in HAx.
  - destruct (aget (j_globalSubst j) i) as [y |] eqn:Ey; [| done]. cbn [mbind option_bind fst snd].
    destruct y as [k | w | |]; try done; apply Hother; intros regs regs'; unfold value; cbn; by rewrite Ey.
  - by apply Hother.
  - destruct HAx as (s & Hs & _). by eapply Hloc.
  - destruct HAx as (s & Hs & _). by eapply Hloc.
Qed.

(** ** The whole tuple *)

(** From [mem] to [mem'] a new tuple with the elements [vs] is made, which [w]
    is; the tuple without elements is the integer 0. *)
Definition new_tuple (mem mem' : store C) (w : word) (vs : list word) : Prop :=
  match vs with
  | [] => w = WInt 0 /\ mem' = mem
  | _ => exists a, w = WPtr a /\ st_get mem a = None /\ tuple_with mem' a vs /\
           forall a', a' <> a -> st_get mem' a' = st_get mem a'
  end.

Lemma Tuple_New_ok (mem : store C) args : st_get mem (st_next mem) = None -> args <> [] ->
  exists mem', Tuple_New wundef mem args = (mem', st_next mem) /\ new_tuple mem mem' (WPtr (st_next mem)) args /\
    st_get mem' (st_next mem) = Some (NBlock TUPLE_LABEL false (block_args wundef args)) /\
    (forall a', a' <> st_next mem -> st_get mem' a' = st_get mem a').
Proof.
  intros Hf Hne. unfold Tuple_New, AllocBlock, st_alloc. eexists. split; [done |].
  assert (Hs : forall n, let mem' := mkStore (st_next mem + 1) (<[st_next mem := n]> (st_nodes mem)) in
    st_get mem' (st_next mem) = Some n /\ forall a', a' <> st_next mem -> st_get mem' a' = st_get mem a').
  { intros n. unfold st_get. cbn. split; [by rewrite lookup_insert_eq | intros a' Ha; by rewrite lookup_insert_ne]. }
  destruct (Hs (NBlock TUPLE_LABEL false (block_args wundef args))) as [H1 H2]. split; [| by split].
  destruct args as [| v args]; [done |]. exists (st_next mem). split; [done |]. split; [done |]. split; [| done].
  exists (block_args wundef (v :: args)). split; [done |]. intros i w Hi. unfold block_args. by apply lookup_app_l_Some.
Qed.

(** What the code between [j] and [j'] does for [NewTupInto dst xs]. *)
Definition builds (b dst : nat) (xs : list idRef) (j j' : jitter) : Prop :=
  forall IP regs (mem : store C) vs, frame_ok IP j' regs -> st_get mem (st_next mem) = None ->
    map (value CP j regs) xs = map Some vs ->
    exists regs' mem' w, run IP j j' (Machine regs mem) (Machine regs' mem') /\ length regs' = length regs /\
      regs' !! dst = Some w /\ new_tuple mem mem' w vs /\
      forall q, (q < b)%nat -> q <> dst -> regs' !! q = regs !! q.

(** The operands [xs] are loaded into the registers [rs], which stay apart. *)
Fixpoint load_operands (xs : list idRef) : J (list nat) :=
  match xs with
  | [] => jret []
  | x :: xs => r <- LoadIdRefKill st x false;; rs <- load_operands xs;; jret (r :: rs)
  end.

Lemma load_operands_ok xs : forall b j, ready j -> Forall (arg_ok CP j) xs -> (b <= j_scratch j)%nat -> (j_nLocals j <= b)%nat ->
  exists rs j', load_operands xs j = Some (rs, j') /\ extends j j' /\ length rs = length xs /\
    forall IP regs (mem : store C) vs, frame_ok IP j' regs -> map (value CP j regs) xs = map Some vs ->
      exists regs', run IP j j' (Machine regs mem) (Machine regs' mem) /\ length regs' = length regs /\
        (forall i r, rs !! i = Some r -> regs' !! r = vs !! i) /\ forall q, (q < b)%nat -> regs' !! q = regs !! q.
Proof.
  induction xs as [| x xs IH]; intros b j HR HA Hb Hl.
  - exists [], j. split; [done |]. split; [by apply extends_refl |]. split; [done |]. intros IP regs mem vs _ _.
    exists regs. split; [apply run_refl |]. split; [done |]. split; [| done]. intros i r Hi. by rewrite lookup_nil in Hi.
  - apply Forall_cons in HA as [HAx HAs].
    destruct (LoadIdRefKill_ok b j x false HR HAx Hb) as (r & j1 & E1 & [X1 Hr R1] & _); [done |].
    pose proof (extends_ready _ _ HR X1) as HR1.
    destruct (IH (j_scratch j1) j1) as (rs & j2 & E2 & X2 & Hlen & R2); [done | | done | apply HR1 |].
    { eapply Forall_impl; [exact HAs |]. intros y. apply arg_ok_static, X1. }
    exists (r :: rs), j2. cbn [load_operands]. unfold jbind. rewrite E1. cbn [mbind option_bind fst snd]. rewrite E2.
    split; [done |]. split; [by eapply extends_trans |]. split; [cbn; by rewrite Hlen |].
    intros IP regs mem [| v vs] HF Hvs; [done |]. cbn in Hvs. injection Hvs as Hv Hvs.
    destruct (R1 IP regs mem v) as (regs1 & S1 & L1 & V1 & K1); [by eapply frame_before | done |].
    destruct (R2 IP regs1 mem vs) as (regs2 & S2 & L2 & V2 & K2); [by eapply frame_length | |].
    { rewrite <- Hvs. apply map_ext_in. intros y Hy. rewrite Forall_forall in HAs. apply list_elem_of_In in Hy.
      rewrite (value_static _ _ _ _ _ (ex_static _ _ X1)). apply value_frame; [by apply HAs |]. intros q Hq. apply K1. lia. }
    exists regs2. split; [by eapply run_trans |]. split; [congruence |]. split.
    + intros [| i] r' Hi; [| by apply V2]. injection Hi as <-. rewrite K2 by done. done.
    + intros q Hq. destruct X1. rewrite K2 by lia. by apply K1.
Qed.

(** The last instruction makes the tuple of the operands at once. *)
Lemma builds_at_once (dst : nat) (xs : list idRef) (rs : list nat) (b : nat) (j j1 : jitter) (i : bc_instr) : ready j -> extends j j1 -> xs <> [] -> (dst < j_nRegisters j)%nat ->
  (forall IP regs (mem : store C) vs, frame_ok IP j1 regs -> map (value CP j regs) xs = map Some vs ->
     exists regs', run IP j j1 (Machine regs mem) (Machine regs' mem) /\ length regs' = length regs /\
       (forall i r, rs !! i = Some r -> regs' !! r = vs !! i) /\ forall q, (q < b)%nat -> regs' !! q = regs !! q) ->
  (forall IP regs (mem : store C) vs, length vs = length xs -> (forall i r, rs !! i = Some r -> regs !! r = vs !! i) ->
     exec_instr wundef IP CP (Machine regs mem) i = next (set_new (Machine regs mem) dst (Tuple_New wundef mem vs))) ->
  extends j (emit i j1) /\ builds b dst xs j (emit i j1).
Proof.
  intros HR X1 Hne Hdst Hload Hi. pose proof (extends_ready _ _ HR X1) as HR1.
  pose proof (extends_emit i j1 HR1) as X2. split; [by eapply extends_trans |].
  intros IP regs mem vs HF Hfresh Hvs.
  assert (Hlen : length vs = length xs) by (apply (f_equal length) in Hvs; by rewrite !length_map in Hvs).
  destruct (Hload IP regs mem vs) as (regs1 & R1 & L1 & V1 & K1); [by eapply frame_before | done |].
  destruct (Tuple_New_ok mem vs Hfresh) as (mem' & EN & HN & _); [by intros ->; destruct xs |].
  exists (<[dst := WPtr (st_next mem)]> regs1), mem', (WPtr (st_next mem)).
  assert (Hd : (dst < length regs1)%nat) by (destruct X1, HF; cbn in *; lia).
  split; [eapply run_trans; [exact X1 | exact X2 | exact R1 |] | split; [by rewrite length_insert | split; [by apply list_lookup_insert_eq |]]].
  - apply run_emit. rewrite (Hi _ _ _ vs) by done. rewrite EN. unfold set_new. cbn [fst snd m_regs]. by rewrite next_SETREG.
  - split; [done |]. intros q Hq Hqd. rewrite list_lookup_insert_ne by done. by apply K1.
Qed.

Lemma builds_nil b dst j : ready j -> (dst < j_nRegisters j)%nat ->
  extends j (emit (load_zero dst) j) /\ builds b dst [] j (emit (load_zero dst) j).
Proof.
  intros HR Hdst. split; [by apply extends_emit |]. intros IP regs mem vs [_ Hlen] _ Hvs. destruct vs; [| done].
  cbn in Hlen. exists (<[dst := WInt 0]> regs), mem, (WInt 0). split; [apply run_emit; cbn; rewrite next_SETREG by (cbn; lia); done |].
  rewrite length_insert, list_lookup_insert_eq by lia. split_and!; try done. intros q _ Hq. by apply list_lookup_insert_ne.
Qed.

(** The elements one by one, in the tuple in [useDst]. *)
Lemma builds_one_by_one b dst useDst xs j j1 : ready j -> extends j j1 -> code_between j j1 = [] -> xs <> [] ->
  Forall (arg_ok CP j) xs -> j_reusable j1 = false -> (b <= j_scratch j)%nat -> (dst < j_scratch j1)%nat -> (useDst < j_scratch j1)%nat ->
  (useDst = dst \/ (b <= useDst)%nat) ->
  (forall x regs w, x ∈ xs -> value CP j (<[useDst := w]> regs) x = value CP j regs x) ->
  exists j', (SET_INSTR (new_tup useDst (length xs));; init_tups st useDst (rev xs);;
    if decide (useDst = dst) then jret tt else SET_INSTR (load_reg dst useDst)) j1 = Some (tt, j') /\
    extends j j' /\ builds b dst xs j j'.
Proof.
  intros HR X1 Hc1 Hne HA Hre Hb Hdst Huse Hor Hval. pose proof (extends_ready _ _ HR X1) as HR1.
  set (i1 := new_tup useDst (length xs)). pose proof (extends_emit i1 j1 HR1) as X2.
  set (j2 := emit i1 j1) in *. pose proof (extends_ready _ _ HR1 X2) as HR2. pose proof (extends_trans _ _ _ X1 X2) as X12.
  destruct (init_tups_ok (j_scratch j1) useDst xs j2) as (j3 & E3 & X3 & R3); [done | | done | apply HR1 | done | |].
  { eapply Forall_impl; [exact HA |]. intros y. apply arg_ok_static, X12. }
  { intros Hj. cbn in Hj. congruence. }
  pose proof (extends_trans _ _ _ X12 X3) as X13. pose proof (extends_ready _ _ HR X13) as HR3.
  assert (Hrun : forall IP regs (mem : store C) vs, frame_ok IP j3 regs -> st_get mem (st_next mem) = None ->
    map (value CP j regs) xs = map Some vs ->
    exists regs' mem' w, run IP j j3 (Machine regs mem) (Machine regs' mem') /\ length regs' = length regs /\
      regs' !! useDst = Some w /\ new_tuple mem mem' w vs /\
      forall q, (q < j_scratch j1)%nat -> q <> useDst -> regs' !! q = regs !! q).
  { intros IP regs mem vs HF Hfresh Hvs. pose proof (frame_before _ _ _ _ X3 HF) as HF2.
    assert (Hu : (useDst < length regs)%nat) by (destruct X1, X2, X3, HF; lia).
    assert (Hlen : length vs = length xs) by (apply (f_equal length) in Hvs; by rewrite !length_map in Hvs).
    set (args := replicate (length xs) wundef).
    destruct (Tuple_New_ok mem args Hfresh) as (mem1 & EN & _ & Ha & Ho); [unfold args; by destruct xs |].
    set (w := WPtr (st_next mem)) in *.
    destruct (R3 IP (<[useDst := w]> regs) mem1 (st_next mem) (block_args wundef args) vs)
      as (regs3 & mem3 & args3 & S3 & L3 & K3 & Ha3 & Hlo & _ & Ho3); try done.
    { eapply frame_length; [| done]. apply length_insert. }
    { by apply list_lookup_insert_eq. }
    { unfold block_args, args. rewrite length_app, !length_replicate. lia. }
    { rewrite <- Hvs. apply map_ext_in. intros y Hy. apply list_elem_of_In in Hy.
      rewrite (value_static _ _ _ _ _ (ex_static _ _ X12)). by apply Hval. }
    exists regs3, mem3, w. split.
    { eapply run_trans; [exact X12 | exact X3 | | exact S3]. eapply run_trans; [exact X1 | exact X2 | |].
      - unfold run. by rewrite Hc1.
      - apply run_emit. cbn. fold args. rewrite EN. unfold set_new. cbn [fst snd m_regs]. by rewrite next_SETREG. }
    rewrite L3, length_insert. split; [done |]. split; [rewrite K3 by done; by apply list_lookup_insert_eq |]. split.
    - destruct vs as [| v vs]; [by destruct xs |]. exists (st_next mem). split; [done |]. split; [done |]. split.
      + by exists args3.
      + intros a' Hne'. rewrite Ho3 by done. by apply Ho.
    - intros q Hq Hqu. rewrite K3 by done. by apply list_lookup_insert_ne. }
  unfold jbind at 1. change (SET_INSTR i1 j1) with (Some (tt, j2)). cbn [mbind option_bind fst snd]. unfold jbind.
  rewrite E3. cbn [mbind option_bind fst snd]. case_decide as Hd.
  - exists j3. split; [done |]. split; [done |]. intros IP regs mem vs HF Hfresh Hvs.
    destruct (Hrun IP regs mem vs HF Hfresh Hvs) as (regs' & mem' & w & S & L & V & N & K). subst useDst.
    exists regs', mem', w. split_and!; try done. intros q Hq. apply K. destruct X1. lia.
  - destruct Hor as [| Hor]; [done |]. pose proof (extends_emit (load_reg dst useDst) j3 HR3) as X4.
    exists (emit (load_reg dst useDst) j3). split; [done |]. split; [by eapply extends_trans |].
    intros IP regs mem vs HF Hfresh Hvs.
    destruct (Hrun IP regs mem vs) as (regs' & mem' & w & S & L & V & N & K); [by eapply frame_before | done | done |].
    assert (Hdl : (dst < length regs')%nat) by (destruct X1, X2, X3, HF; cbn in *; lia).
    exists (<[dst := w]> regs'), mem', w. split.
    { eapply run_trans; [exact X13 | exact X4 | exact S |]. apply run_emit. cbn. unfold GETREG. cbn. rewrite V. cbn.
      by rewrite next_SETREG. }
    rewrite length_insert, list_lookup_insert_eq by done. split_and!; try done.
    intros q Hq Hqd. rewrite list_lookup_insert_ne by done. apply K; [destruct X1; lia | lia].
Qed.

Lemma NewTupInto_ok dst xs j : ready j -> j_reusable j = false -> (dst < j_scratch j)%nat -> Forall (arg_ok CP j) xs ->
  exists j', NewTupInto st dst xs j = Some (tt, j') /\ extends j j' /\ builds (j_scratch j) dst xs j j'.
Proof.
  intros HR Hre Hdst HA. pose proof HR as (_ & Hl & Hb).
  assert (Hone : xs <> [] -> exists j', (conflict <- conflicts dst (rev xs);;
      useDst <- (if conflict then GetNewScratch false else jret dst);;
      SET_INSTR (new_tup useDst (length xs));; init_tups st useDst (rev xs);;
      if decide (useDst = dst) then jret tt else SET_INSTR (load_reg dst useDst)) j = Some (tt, j') /\
    extends j j' /\ builds (j_scratch j) dst xs j j').
  { intros Hne. destruct (conflicts_ok j dst xs HA) as (c & E & Hc). unfold jbind at 1. rewrite E. cbn [mbind option_bind fst snd].
    unfold jbind at 1. destruct c.
    - destruct (GetNewScratch_ok false j HR) as (r & j1 & E1 & X1 & C1 & Hs & Hr & [-> | [? _]]); [done | | done].
      rewrite E1. cbn [mbind option_bind fst snd]. apply builds_one_by_one; try done; try lia.
      { destruct (j_reusable j1); [by specialize (Hr eq_refl) | done]. }
      intros x regs w Hx. apply value_frame; [by rewrite Forall_forall in HA; apply HA |].
      intros q Hq. apply list_lookup_insert_ne. lia.
    - cbn [jret mbind option_bind fst snd]. apply builds_one_by_one; try done; [by apply extends_refl | | by left |].
      { unfold code_between. by rewrite drop_ge by lia. }
      intros x regs w Hx. by apply Hc. }
  assert (Hat : forall rs j1 i, load_operands xs j = Some (rs, j1) -> xs <> [] ->
    (forall IP regs (mem : store C) vs, length vs = length xs -> (forall i r, rs !! i = Some r -> regs !! r = vs !! i) ->
       exec_instr wundef IP CP (Machine regs mem) i = next (set_new (Machine regs mem) dst (Tuple_New wundef mem vs))) ->
    extends j (emit i j1) /\ builds (j_scratch j) dst xs j (emit i j1)).
  { intros rs j1 i E Hne Hi. destruct (load_operands_ok xs (j_scratch j) j HR HA) as (rs' & j1' & E' & X1 & _ & HL); [lia | lia |].
    assert (rs' = rs /\ j1' = j1) as [-> ->] by (split; congruence). by eapply builds_at_once; [| | | lia | |]. }
  destruct (load_operands_ok xs (j_scratch j) j HR HA) as (rs & j1 & E & X1 & Hlen & _); [lia | lia |].
  destruct xs as [| x0 [| x1 [| x2 [| x3 xs]]]]; try by apply Hone.
  - exists (emit (load_zero dst) j). split; [done |]. apply builds_nil; [done | lia].
  - destruct rs as [| r0 [| r1 [|]]]; try done. exists (emit (new_pair dst r0 r1) j1). split.
    + unfold NewTupInto. cbn [load_operands] in E. unfold jbind, jret in *.
      destruct (LoadIdRefKill st x0 false j) as [[r0' j0'] |]; cbn [mbind option_bind fst snd] in *; [| done].
      destruct (LoadIdRefKill st x1 false j0') as [[r1' j1'] |]; cbn [mbind option_bind fst snd] in *; [| done].
      by injection E as -> -> ->.
    + apply (Hat _ _ _ E); [done |]. intros IP regs mem vs Hvs Hrs. destruct vs as [| v0 [| v1 [|]]]; try done.
      cbn. unfold GETREG. cbn. by rewrite (Hrs 0%nat r0 eq_refl), (Hrs 1%nat r1 eq_refl).
  - destruct rs as [| r0 [| r1 [| r2 [|]]]]; try done. exists (emit (new_triple dst r0 r1 r2) j1). split.
    + unfold NewTupInto. cbn [load_operands] in E. unfold jbind, jret in *.
      destruct (LoadIdRefKill st x0 false j) as [[r0' j0'] |]; cbn [mbind option_bind fst snd] in *; [| done].
      destruct (LoadIdRefKill st x1 false j0') as [[r1' j1'] |]; cbn [mbind option_bind fst snd] in *; [| done].
      destruct (LoadIdRefKill st x2 false j1') as [[r2' j2'] |]; cbn [mbind option_bind fst snd] in *; [| done].
      by injection E as -> -> -> ->.
    + apply (Hat _ _ _ E); [done |]. intros IP regs mem vs Hvs Hrs. destruct vs as [| v0 [| v1 [| v2 [|]]]]; try done.
      cbn. unfold GETREG. cbn. by rewrite (Hrs 0%nat r0 eq_refl), (Hrs 1%nat r1 eq_refl), (Hrs 2%nat r2 eq_refl).
Qed.

(** ** A tuple that is made and taken apart *)

(** The compiler at the start of an instruction. *)
Definition fresh_instr (j : jitter) : jitter := with_scratch (j_nLocals j) (j_nRegisters j) false j.

Lemma fresh_instr_ok j : env_ok (j_imEnv j) -> (j_nLocals j <= j_nRegisters j)%nat ->
  ready (fresh_instr j) /\ same_static j (fresh_instr j).
Proof. intros HE Hl. split; [by split; [| split; cbn] | by split]. Qed.

Lemma fresh_run IP j j' m m' : run IP (fresh_instr j) j' m m' <-> run IP j j' m m'.
Proof. done. Qed.

(** [LoadTuple] at the tuple with the elements [vs] in [src]; the code does
    not depend on the store. *)
Lemma LoadTuple_ok j src ds : ready j -> (src < j_scratch j)%nat -> NoDup (destinations j ds) ->
  (forall id, IdDef id ∈ ds -> exists d, id_to_reg j id = Some d /\ (d < j_nLocals j)%nat) ->
  exists j', LoadTuple src ds j = Some (tt, j') /\ extends j j' /\
    forall IP regs (mem : store C) a vs, frame_ok IP j' regs -> regs !! src = Some (WPtr a) -> tuple_with mem a vs ->
      length vs = length ds ->
      exists regs', run IP j j' (Machine regs mem) (Machine regs' mem) /\ length regs' = length regs /\
        (forall i id d, ds !! i = Some (IdDef id) -> id_to_reg j id = Some d -> regs' !! d = vs !! i) /\
        (forall r, (r < j_scratch j)%nat -> r ∉ destinations j ds -> regs' !! r = regs !! r).
Proof.
  intros (HE & Hl & Hb) Hsrc HN Hds.
  assert (Hany : forall (mem : store C) a vs, tuple_with mem a vs -> length vs = length ds ->
    (forall i, (i < length ds)%nat -> component_of None mem a i = vs !! i) /\
    exists j', load_components None src ds j = Some (tt, j') /\ loaded wundef True mem (WPtr a) (component_of None mem a) src ds j j').
  { intros mem a vs Ht Hlen. destruct (tuple_components mem a vs Ht) as [Ha Hc].
    assert (Hcomp : forall i, (i < length ds)%nat -> component_of None mem a i = vs !! i).
    { intros i Hi. destruct (lookup_lt_is_Some_2 vs i) as [v Hv]; [lia |]. rewrite Hv. by apply Hc. }
    split; [done |]. apply (load_components_ok wundef j src mem (WPtr a) a); try done.
    intros i Hi. rewrite Hcomp by done. apply lookup_lt_is_Some_2. lia. }
  set (vs0 := replicate (length ds) (WInt 0)).
  destruct (Hany (mkStore 1 (<[0 := NBlock TUPLE_LABEL false vs0]> ∅)) 0 vs0) as (_ & j' & E & [S2 I2 C2 [R2 R2'] (code & Hcode & _)]).
  { exists vs0. split; [unfold st_get; cbn; by rewrite lookup_insert_eq | done]. }
  { apply length_replicate. }
  assert (Hcb : code_between j j' = code) by (unfold code_between; by rewrite Hcode, drop_app_length).
  exists j'. split; [exact E |]. split.
  { split; [done | by rewrite I2 | rewrite I2; by intros k | lia | lia | lia | by rewrite Hcb]. }
  intros IP regs mem a vs [_ Hlen'] Hw Ht Hlen. destruct (Hany mem a vs Ht Hlen) as (Hcomp & j2 & E2 & [_ _ _ _ (code2 & Hcode2 & Hx)]).
  assert (j2 = j') as -> by congruence. assert (code2 = code) as -> by (rewrite Hcode in Hcode2; by apply app_inv_head in Hcode2).
  destruct (Hx IP CP regs) as (regs' & Ex & L & D & O); [done | done |].
  exists regs'. split; [unfold run; by rewrite Hcb |]. split; [done |]. split; [| done].
  intros i id d Hi Hd. rewrite <- Hcomp by (by eapply lookup_lt_Some). by eapply D.
Qed.

End Tuple.

Section Props.
Context `{Platform} {C : Type} (st : store C) (wundef : word) (CP : list word).

(** C12. A tuple that is made and taken apart.  The code that the compiler emits
    for [PutTup (x, args); GetTup (idDefs, x)] ends with the value of every
    argument before it in the register of the variable at the same position,
    for tuples of all sizes but 0, whatever registers the arguments, [x] and
    the variables share; it makes one new tuple and changes nothing else in the
    store and in the registers of locals but those of [x] and the variables. *)
Theorem put_get_tuple (x : Z) (dst : nat) (args : list idRef) (idDefs : list idDef) (pc : instr) (j : jitter) :
  env_ok (j_imEnv j) -> (j_nLocals j <= j_nRegisters j)%nat -> Forall (arg_ok CP j) args ->
  id_to_reg j x = Some dst -> (dst < j_nLocals j)%nat ->
  args <> [] -> length idDefs = length args -> NoDup (destinations j idDefs) ->
  (forall id, IdDef id ∈ idDefs -> exists d, id_to_reg j id = Some d /\ (d < j_nLocals j)%nat) ->
  exists j' code,
    (begin_instr;; pc1 <- InstrPutTup st x args (GetTup idDefs (Local x) pc);;
     begin_instr;; match pc1 with GetTup ds y pc2 => InstrGetTup st ds y pc2 | _ => jerror end) j = Some (pc, j') /\
    j_code j' = j_code j ++ code /\
    forall IP regs (mem : store C) vs, frame_ok IP j' regs -> st_get mem (st_next mem) = None ->
      map (value CP j regs) args = map Some vs ->
      exists regs' mem', exec wundef IP CP (Machine regs mem) code = Some (Next (Machine regs' mem')) /\
        (forall i id d, idDefs !! i = Some (IdDef id) -> id_to_reg j id = Some d -> regs' !! d = vs !! i) /\
        (forall r, (r < j_nLocals j)%nat -> r <> dst -> r ∉ destinations j idDefs -> regs' !! r = regs !! r) /\
        exists a, st_get mem a = None /\ tuple_with mem' a vs /\ forall a', a' <> a -> st_get mem' a' = st_get mem a'.
Proof.
  intros HE Hl HA Hx Hdst Hne Hlen HN Hds.
  destruct (fresh_instr_ok j HE Hl) as [HR0 HS0].
  destruct (NewTupInto_ok st wundef CP dst args (fresh_instr j) HR0) as (j1 & E1 & X1 & B1); [done | done | |].
  { eapply Forall_impl; [exact HA |]. intros y. by apply arg_ok_static. }
  pose proof (same_static_trans _ _ _ HS0 (ex_static _ _ X1)) as HS1.
  destruct (fresh_instr_ok j1) as [HR1 HSf]; [apply X1 | rewrite (ss_nLocals _ _ HS1); destruct X1; cbn in *; lia |].
  pose proof (same_static_trans _ _ _ HS1 HSf) as HS.
  destruct (LoadTuple_ok (C := C) wundef CP (fresh_instr j1) dst idDefs HR1) as (j2 & E2 & X2 & R2).
  { cbn. by rewrite (ss_nLocals _ _ HS1). }
  { by rewrite (destinations_static _ _ _ HS). }
  { intros id Hid. rewrite (id_to_reg_static _ _ _ HS), (ss_nLocals _ _ HS). by apply Hds. }
  exists j2, (code_between j j1 ++ code_between j1 j2).
  assert (Hc1 : j_code j1 = j_code j ++ code_between j j1) by apply X1.
  assert (Hc2 : j_code j2 = j_code j1 ++ code_between j1 j2) by apply X2.
  split; [| split; [by rewrite Hc2, Hc1, <- !app_assoc |]].
  { unfold InstrPutTup, IdToReg, jbind, begin_instr. cbn [mbind option_bind fst snd]. fold (fresh_instr j).
    rewrite (id_to_reg_static _ _ _ HS0), Hx. cbn [mbind option_bind fst snd].
    rewrite E1. unfold jret. cbn [mbind option_bind fst snd]. fold (fresh_instr j1).
    unfold InstrGetTup, LoadIdRefKill, LookupSubst, jbind, IdToReg. cbn [lookup_subst mbind option_bind fst snd].
    rewrite (id_to_reg_static _ _ _ HS), Hx. cbn [mbind option_bind fst snd]. by rewrite E2. }
  intros IP regs mem vs HF Hfresh Hvs.
  assert (HF1 : frame_ok IP j1 regs) by (destruct (frame_before _ _ _ _ X2 HF); by split).
  destruct (B1 IP regs mem vs HF1 Hfresh) as (regs1 & mem1 & w & Run1 & L1 & V1 & N1 & K1).
  { rewrite <- Hvs. apply map_ext. intros y. by apply value_static. }
  assert (Hlv : length vs = length args) by (apply (f_equal length) in Hvs; by rewrite !length_map in Hvs).
  assert (HN1 : exists a, w = WPtr a /\ st_get mem a = None /\ tuple_with mem1 a vs /\ forall a', a' <> a -> st_get mem1 a' = st_get mem a').
  { destruct vs; [by destruct args | exact N1]. }
  destruct HN1 as (a & -> & Hnone & Ht & Hother).
  destruct (R2 IP regs1 mem1 a vs) as (regs2 & Run2 & L2 & D2 & O2); [by eapply frame_length | done | done | lia |].
  exists regs2, mem1. split; [by rewrite (exec_app _ _ _ _ _ _ _ Run1) |]. split; [| split; [| by exists a]].
  - intros i id d Hi Hd. apply (D2 i id d Hi). by rewrite (id_to_reg_static _ _ _ HS).
  - intros r Hr Hrd Hnin. rewrite O2; [apply K1; [done | done] | cbn; by rewrite (ss_nLocals _ _ HS1) | by rewrite (destinations_static _ _ _ HS)].
Qed.

End Props.

(** ** The tuple (b, 5, g, a) in the register of b *)

#[local] Existing Instance P64.

Definition put_jitter : jitter := mkJitter [Some 0; Some 1; Some 2]%nat 3 0 [Global 0] imEnv_Init 3 3 false [].
Definition put_args : list idRef := [Local 1; Immediate (WInt 5); Global 0; LastUseLocal 0].
Definition put_regs : list word := [WInt 10; WInt 11; WInt 12; WInt 0; WInt 0; WInt 0].

Example put_get_tuple_witness :
  exists j' code regs' mem',
    (begin_instr;; pc1 <- InstrPutTup (mkStore 1 ∅ : store unit) 1 put_args (GetTup tuple_pattern (Local 1) (Return []));;
     begin_instr;; match pc1 with GetTup ds y pc2 => InstrGetTup (mkStore 1 ∅ : store unit) ds y pc2 | _ => jerror end) put_jitter
    = Some (Return [], j') /\ j_code j' = code /\
    exec (WInt 0) [] [WInt 42] (Machine put_regs (mkStore 1 ∅ : store unit)) code = Some (Next (Machine regs' mem')) /\
    regs' !! 0%nat = Some (WInt 11) /\ regs' !! 1%nat = Some (WInt 42) /\ regs' !! 2%nat = Some (WInt 10).
Proof.
  destruct (put_get_tuple (mkStore 1 ∅ : store unit) (WInt 0) [WInt 42] 1 1 put_args tuple_pattern (Return []) put_jitter)
    as (j' & code & E & Hcode & Hx).
  - exact imEnv_Init_ok.
  - cbn; lia.
  - apply Forall_cons; split; [exists 1%nat; split; [reflexivity | cbn; lia] |].
    apply Forall_cons; split; [reflexivity |]. apply Forall_cons; split; [by exists (WInt 42) |].
    apply Forall_cons; split; [exists 0%nat; split; [reflexivity | cbn; lia] | by apply Forall_nil].
  - reflexivity.
  - cbn; lia.
  - discriminate.
  - reflexivity.
  - apply (bool_decide_unpack _). vm_compute. exact I.
  - unfold tuple_pattern. intros id Hid. rewrite !elem_of_cons in Hid.
    destruct Hid as [ [= ->] | [ [=] | [ [= ->] | [ [= ->] | [] %elem_of_nil ]]]]; eexists; (split; [reflexivity | cbn; lia]).
  - assert (Hj : j_imEnv j' = imEnv_Init /\ (j_nRegisters j' <= 6)%nat) by (vm_compute in E; injection E as <-; split; [reflexivity | cbn; lia]).
    destruct (Hx [] put_regs (mkStore 1 ∅) [WInt 11; WInt 5; WInt 42; WInt 10]) as (regs' & mem' & Er & Hv & _).
    + split; [| apply Hj]. destruct Hj as [-> _]. intros k w Hk.
      change (ie_values imEnv_Init) with (replicate 5 (@None word)) in Hk. apply lookup_replicate in Hk as [Hk _]. discriminate.
    + reflexivity.
    + reflexivity.
    + exists j', code, regs', mem'. split; [exact E |]. split; [exact Hcode |]. split; [exact Er |].
      rewrite (Hv 0%nat 0 0%nat eq_refl eq_refl), (Hv 2%nat 1 1%nat eq_refl eq_refl), (Hv 3%nat 2 2%nat eq_refl eq_refl).
      vm_compute. auto.
Defined.
